(* ===== verification/_CoqProject ===== *)
-Q . S2P
Prelude.v
Ordered.v
RateWindow.v
Wire.v
Postcard.v
PostcardRef.v
Messages.v
MessageCodecs.v
Events.v
Frame.v
FrameFacts.v
Control.v
FrameProps.v
Handshake.v
RvMessages.v
RvFacts.v
RvState.v
Path.v
PathFacts.v
Race.v
RaceFacts.v
Nat.v
Bindings.v
Registry.v
RegistryFacts.v
Projection.v
ProjectionFacts.v
ProjectionProps.v
Limiter.v
LimiterFacts.v
LimiterProps.v
LimiterRate.v
UdpFlows.v
UdpFlowsFacts.v
UdpFlowsProps.v
UdpRelay.v
UdpRelayFacts.v
UdpRelaySteps.v
UdpRelayProps.v
Coordinator.v
CoordinatorFacts.v
CoordinatorProps.v
CoordinatorLife.v
CoordinatorRelay.v
CoordinatorExpiry.v
Peer.v
PeerCodecs.v
PeerFacts.v
PeerSession.v
CryptoRef.v
PeerProps.v
Observation.v
ObservationFacts.v
ObservationProps.v
Text.v
IpText.v
EnrollKeys.v
EnrollKeysFacts.v
Identity.v
Config.v
Enrollment.v
Managed.v
ExternalRef.v
Approval.v
EnrollmentFacts.v
EnrollmentInv.v
EnrollmentProps.v
Auth.v
AuthProps.v
ConfigProps.v
EnrollService.v
EnrollServiceProps.v
ServerHandshake.v
ServerHandshakeProps.v
ManagedProps.v
TunnelManagement.v
TunnelProps.v
ServerSession.v
ServerSessionProps.v
WebAuth.v
