(* ===== verification/Prelude.v ===== *)
(** * Rustgo, verified

    Rustgo is a reverse tunnel with an optional peer-to-peer path.  A client ([rustgoc]) keeps
    an authenticated TLS control connection to the server ([rustgos]); the server listens for
    the tunnels the client registers and opens one data channel per TCP stream or UDP relay.
    Two clients may also meet through the server: it introduces them (rendezvous), tells them
    their public addresses (observation), relays their end-to-end encrypted frames, and they
    race direct paths against that relay.  This library models the parts that decide: the
    wire formats, the state machines, the registries, the limiters, the stores and the key
    schedule.  Every definition follows a piece of the source, named in its comment and in
    PROJECT.json; what a function reads from outside (clock, random generator, socket, other
    component) is an argument of the model in the order in which the code reads it.

    ** Conventions

    - [res] is [Result] with one more outcome, [Panic], for [expect], [unreachable!], slice
      and arithmetic panics, so that panic freedom is proved and not assumed.
    - Integers are [Z] with their width written at each operation ([checked_add],
      [saturating_add], [wrapping_add], [be_bytes]); [usize] is 64 bits wide.
    - A [String] or [Vec<u8>] is a [list byte]; a [HashMap] or a table is a [gmap], and no
      statement depends on the order in which it is enumerated; a [BTreeSet] is an ascending
      list ([Ordered]).
    - A [Mutex] makes a method one step.  Where the source releases the lock between two
      critical sections the model has two steps, or takes what others do in between as an
      argument, and the theorems quantify over the interleavings.  Exceptions, which are one
      step although the source locks more than once: [Registry.authenticate_data_channel] (the
      registry, the session's availability and its bindings), [Coordinator.forward_relay_frame]
      and [expire_now] (the state twice), [TunnelManagement.sync_authenticated] (two
      transactions of the store) and the repeated draws of [WebAuth.session_issue].
      Poisoned locks are not modelled.
    - Code that is not in the repository is a type class with laws: postcard's primitive
      codecs ([Postcard.v], laws [PostcardLaws], instance [postcard_ref] of [PostcardRef.v]
      after the documented format), the cryptographic primitives ([Peer.Primitives], laws
      [PrimitivesLaws], instance in [CryptoRef.v]), base64 ([EnrollKeys.Base64], laws
      [Base64Laws], instance in [ExternalRef.v]), url and serde_json ([Config.UrlParser],
      [Managed.SerdeJson]), SHA-256 of the coordinator (a section variable).  Witnesses
      evaluate the theorems on the concrete instances.

    ** The files

    Shared: [Prelude] (results, integers, bytes, UTF-8, map sums), [Ordered] (ordered sets),
    [RateWindow] (fixed windows bound every interval), [Wire] (codecs and their law, a type
    class with an instance per combinator), [Postcard] and [PostcardRef], [Text] and [IpText]
    (the string and address functions of the Rust standard library, with the theorem that an
    IPv6 address is read back from its text).

    - Control protocol: [Messages], [MessageCodecs] (rustgo-protocol/src/message.rs), [Frame],
      [FrameFacts], [FrameProps] (frame.rs), [Control] (FramedControl of both sides, the
      client's read_frame_exact), [Handshake] (version.rs, state.rs).  Theorems: every
      well-typed message survives encoding, arbitrary bytes decode safely, a stream is
      received unchanged however it is cut, and a connection is active on the protocol's
      transcripts only.
    - Rendezvous wire and session: [RvMessages], [RvFacts], [RvState]
      (rustgo-rendezvous/src/message.rs, state.rs).
    - Paths: [Path], [PathFacts] (rustgo-path/src/state.rs, lib.rs, health.rs), [Race],
      [RaceFacts] (race.rs), [Nat] (rustgo-nat/src/candidate.rs, observation.rs, predict.rs).
      Theorems: the manager publishes the path of its state and leaks no path under every
      interleaving; a race returns one live path and cancels the rest, and it terminates.
    - Server sessions: [Bindings] (one-time tokens of rustgo-transport/src/tls.rs),
      [Registry], [RegistryFacts] (rustgos/src/registry.rs), [Limiter], [LimiterFacts],
      [LimiterProps], [LimiterRate] (the limiters of rustgos/src/auth.rs).
    - Observability: [Events], [Projection], [ProjectionFacts], [ProjectionProps]
      (rustgo-observability/src/model.rs, store.rs: the projection, and the queue with its publishers, its worker
      and the shutdown).  Theorems: the worker applies every event it accepted before its last
      look at the queue, once and in order, and it stops when told to.
    - UDP: [UdpFlows], [UdpFlowsFacts], [UdpFlowsProps] (FlowTable of rustgos/src/udp.rs, a
      refinement of a queue), [UdpRelay], [UdpRelayFacts], [UdpRelaySteps],
      [UdpRelayProps] (relay_datagrams and write_frames).
    - Rendezvous coordinator: [Coordinator], [CoordinatorFacts] (with the run the
      witnesses evaluate), [CoordinatorProps], [CoordinatorLife], [CoordinatorRelay],
      [CoordinatorExpiry] (rustgos/src/rendezvous.rs): invariant, routing with its
      one exception, refinement of the life of a session, relay rate, and expiry as a
      liveness property.
    - Peer encryption: [Peer], [PeerCodecs], [PeerFacts], [PeerSession], [PeerProps]
      (rustgo-crypto/src/peer.rs, verify_bytes of identity.rs).
    - Observation: [Observation], [ObservationFacts], [ObservationProps]
      (rustgos/src/observation.rs).
    - Enrollment: [EnrollKeys], [EnrollKeysFacts] (rustgo-protocol/src/enrollment.rs: the text
      of enrollment keys and registration intents), [Identity] (rustgo-crypto/src/identity.rs,
      transcript.rs, the text of keyfile.rs; the points of the curve are the type class
      [Ed25519Points]), [CryptoRef] and [ExternalRef] (the concrete instances of the
      primitives), [Enrollment] (rustgos/src/enrollment/store.rs: every method as one
      transaction over the tables), [Approval] (store/approval.rs), [EnrollmentFacts] (each
      transaction as a sequence of statements), [EnrollmentInv] (the calls, the
      invariant and what no later call can undo), [EnrollmentProps].  Theorems: the
      tables keep their invariant and limits; a token enrolls once and its retry is
      idempotent; a token dies with the revision it was issued at; a key is bound only by a
      token or by the administrator; a registration is decided once; the texts are read back.
      Those about the later life of a token assume that no later call issues a token with the
      same SHA-256 digest ([call_without]): token and salt are random bytes of the model.
    - Authentication: [Auth], [AuthProps] (the authenticator of rustgos/src/auth.rs).
      Theorems: who is accepted, exactly; no two authentications share a session identifier
      or a transcript to sign.
    - Connections to the server: [EnrollService], [EnrollServiceProps] (serve_enrollment of
      rustgos/src/control.rs) and [ServerHandshake], [ServerHandshakeProps] (serve_connection
      from the hello to the claimed session).  Theorems: what a positive answer means, that a
      lost one is repeated without a second effect, and that a session is
      established if and only if the protocol has been followed.
    - Configuration: [Config], [ConfigProps] (rustgo-config: the validations, the web origin,
      the managed subset, the expansion of environment variables; the class [UrlParser] is the
      crate url).
    - Managed tunnels: [Managed], [ManagedProps] (rustgos/src/managed.rs: the table and its
      methods; the class [SerdeJson] is serde_json, with an instance in [ExternalRef]) and
      [TunnelManagement], [TunnelProps] (tunnel_management.rs).  Theorems: the table is sound
      after any calls, a revision guards every replacement, a device writes its own row only.
    - Control sessions: [ServerSession], [ServerSessionProps] (run_control_session and
      run_active_control of rustgos/src/control.rs: the exchange of the managed configuration,
      the registration and the loop, one turn per received or queued message).  Theorems: the
      session acts for its own device only, ends when its client falls silent, registers exactly
      its managed configuration, admits telemetry slowly and speaks the protocol.
    - Dashboard: [WebAuth] (rustgos/src/web/auth.rs, security.rs, and the limits,
      login, logout and protect_management_writes of mod.rs; the class [HeaderValues] is
      HeaderValue of the crate http).  Theorems: which sessions are accepted, how many logins
      are admitted, what a write needs and what a login grants.

    ** How the components meet

    A frame of [Frame] carries a message of [Messages]; [Control] turns bytes into frames and
    [Handshake] says which may come when.  A claimed connection is a session of [Registry],
    whose [Bindings] authenticate the data channels; the listeners of a UDP tunnel feed
    [UdpRelay], which keeps its flows in [UdpFlows] and publishes [Events] to [Projection].
    The opaque rendezvous messages carry [RvMessages]; [Coordinator] asks [Registry] who is
    connected and moves the envelopes whose phases are those of [RvState]; the two clients
    seal what they send through it with [Peer], and [Race] picks the path that [Path] keeps.
    [Enrollment] is the directory of the clients the server admits: it redeems the keys of
    [EnrollKeys] and binds the public keys of [Identity].  [Auth] asks it and the clients of
    [Config] who may connect, [ServerHandshake] turns its answer into a session of [Registry],
    and [TunnelManagement] gives that session the row of [Managed] it may write; [ServerSession]
    runs it, over [Coordinator], [Observation] and [TunnelManagement].

    ** Bounds and fuel

    Loops of the source that retry or drain are recursions on the bound the source gives
    them: 16 draws of an identifier or token ([Bindings], [Registry], [Coordinator],
    [Observation]); 1024 sessions per expiry batch; at most 16 predicted ports; 4 maintenance
    evictions per insertion of a token bucket; the eviction loop of the limiter has the number
    of idle entries plus one as fuel, the sweep of the flow table the smaller of its maximum
    and the number of flows: each iteration removes one entry, so that fuel is enough, and
    the theorems about these loops say what they return, not only that they may return it.
    The worker of [Projection] that is told to stop needs three operations for each queued
    event and at most five more, which is proved.
    Parsers recurse on their input; the printers of [Text] carry the number of digits of a
    [u16] as fuel.

    ** Not modelled

    Sockets, TLS, QUIC, tasks and timers beyond the steps above (rustgos app.rs, tcp.rs,
    rustgoc app.rs, session.rs, tcp.rs, orchestration.rs, rustgo-transport quic.rs,
    peer_tcp.rs, tls.rs apart from the tokens): they are I/O over crates that are not in the
    repository.  The SQLite history of rustgo-observability (sqlite.rs) and the HTTP interface
    (rustgos/src/web) apart from its authentication: SQL and axum handlers.  The graphical
    client (rustgoc-gui), fuzz targets, packaging and documentation. *)

From Stdlib Require Import Strings.Byte.
From stdpp Require Import prelude gmap list strings.

(** * Results *)

(** Rust's [Result<A, E>] with one more outcome for a panic ([expect], [unreachable!],
    a failed [assert!]): a function that may panic returns [Panic] on that branch, so
    panic freedom is a theorem and not an assumption. *)
Inductive res (E A : Type) : Type :=
| Ok (a : A)
| Err (e : E)
| Panic.
Arguments Ok {E A} a.
Arguments Err {E A} e.
Arguments Panic {E A}.

#[export] Instance res_ret {E} : MRet (res E) := λ A a, Ok a.
#[export] Instance res_bind {E} : MBind (res E) := λ A B k m,
  match m with Ok a => k a | Err e => Err e | Panic => Panic end.
#[export] Instance res_fmap {E} : FMap (res E) := λ A B f m,
  match m with Ok a => Ok (f a) | Err e => Err e | Panic => Panic end.

(** [Result::map_err] and [Option::ok_or]. *)
Definition map_err {E F A} (f : E → F) (m : res E A) : res F A :=
  match m with Ok a => Ok a | Err e => Err (f e) | Panic => Panic end.
Definition ok_or {E A} (o : option A) (e : E) : res E A :=
  match o with Some a => Ok a | None => Err e end.
(** [Option::expect]. *)
Definition expect {E A} (o : option A) : res E A :=
  match o with Some a => Ok a | None => Panic end.
(** [Result::ok]. *)
Definition res_ok {E A} (m : res E A) : option A :=
  match m with Ok a => Some a | _ => None end.
(** An early return: [if cond { return Err(e) }]. *)
Definition guard_err {E} (cond : bool) (e : E) : res E unit :=
  if cond then Err e else Ok tt.

Definition is_ok {E A} (m : res E A) : Prop := ∃ a, m = Ok a.
Definition is_err {E A} (m : res E A) : Prop := ∃ e, m = Err e.

#[export] Instance res_eq_dec {E A} `{EqDecision E, EqDecision A} : EqDecision (res E A).
Proof. solve_decision. Defined.

Section res_lemmas.
Context {E A B : Type}.
Implicit Types (m : res E A) (k : A → res E B).

Lemma res_bind_Ok m k b : (m ≫= k) = Ok b ↔ ∃ a, m = Ok a ∧ k a = Ok b.
Proof. destruct m; simpl; naive_solver. Qed.

(** A chain panics only where one of its links does. *)
Lemma res_bind_no_panic m k : m ≠ Panic → (∀ a, m = Ok a → k a ≠ Panic) → m ≫= k ≠ Panic.
Proof. destruct m; simpl; naive_solver. Qed.

(** A chain fails only where one of its links does. *)
Lemma res_bind_no_err m k e : m ≠ Err e → (∀ a, m = Ok a → k a ≠ Err e) → m ≫= k ≠ Err e.
Proof. destruct m; simpl; naive_solver. Qed.

Lemma guard_err_no_panic (c : bool) (e : E) : guard_err c e ≠ Panic.
Proof. by destruct c. Qed.

Lemma ok_or_no_panic (o : option A) (e : E) : ok_or o e ≠ Panic.
Proof. by destruct o. Qed.

Lemma map_err_no_panic {F} (f : E → F) m : m ≠ Panic → map_err f m ≠ Panic.
Proof. by destruct m. Qed.

Lemma Ok_inj (a a' : A) : @Ok E A a = Ok a' → a = a'.
Proof. by intros [= ->]. Qed.

Lemma guard_err_Ok (c : bool) (e : E) u : guard_err c e = Ok u ↔ c = false.
Proof. destruct c, u; naive_solver. Qed.

Lemma ok_or_Ok (o : option A) (e : E) a : ok_or o e = Ok a ↔ o = Some a.
Proof. destruct o; naive_solver. Qed.

Lemma map_err_Ok {F} (f : E → F) m a : map_err f m = Ok a ↔ m = Ok a.
Proof. destruct m; naive_solver. Qed.

Lemma map_err_Panic {F} (f : E → F) m : map_err f m = Panic ↔ m = Panic.
Proof. destruct m; naive_solver. Qed.
End res_lemmas.

(** * Machine integers *)

(** An unsigned [w]-bit integer is a [Z] in range; [usize] is 64 bits wide. *)
Definition in_u (w v : Z) : Prop := (0 ≤ v < 2 ^ w)%Z.
Definition u16_max : Z := 65535.
Definition u32_max : Z := 4294967295.
Definition u64_max : Z := 18446744073709551615.

#[export] Instance in_u_dec w v : Decision (in_u w v).
Proof. unfold in_u. apply _. Defined.

Definition checked_add (max a b : Z) : option Z :=
  if (a + b <=? max)%Z then Some (a + b)%Z else None.
Definition saturating_add (max a b : Z) : Z := Z.min max (a + b).
Definition saturating_sub (a b : Z) : Z := Z.max 0 (a - b).
(** [a.wrapping_add(b)] on a type whose largest value is [max]. *)
Definition wrapping_add (max a b : Z) : Z := ((a + b) `mod` (max + 1))%Z.

Lemma checked_add_Some max a b c :
  checked_add max a b = Some c ↔ c = (a + b)%Z ∧ (a + b ≤ max)%Z.
Proof. unfold checked_add. case_match; naive_solver lia. Qed.

(** * Bytes *)

Definition byte_val (b : byte) : Z := Z.of_N (Byte.to_N b).
Definition byte_of (z : Z) : byte := default x00 (Byte.of_N (Z.to_N (z `mod` 256))).

#[export] Instance byte_eq_dec : EqDecision byte := Byte.byte_eq_dec.
#[export] Program Instance byte_countable : Countable byte :=
  inj_countable Byte.to_N Byte.of_N _.
Next Obligation. intros b. apply Byte.of_to_N. Qed.

Lemma byte_val_range b : (0 ≤ byte_val b < 256)%Z.
Proof. unfold byte_val. pose proof (Byte.to_N_bounded b). lia. Qed.

Lemma byte_val_of z : byte_val (byte_of z) = (z `mod` 256)%Z.
Proof.
  unfold byte_val, byte_of.
  pose proof (Z.mod_pos_bound z 256 ltac:(lia)).
  destruct (Byte.of_N _) as [b|] eqn:E; simpl.
  - apply Byte.to_of_N in E. rewrite E. lia.
  - apply Byte.of_N_None_iff in E. lia.
Qed.

Lemma byte_val_of_small z : (0 ≤ z < 256)%Z → byte_val (byte_of z) = z.
Proof. intros. rewrite byte_val_of. by apply Z.mod_small. Qed.

Lemma byte_val_inj a b : byte_val a = byte_val b → a = b.
Proof.
  unfold byte_val. intros H%N2Z.inj.
  pose proof (Byte.of_to_N a). pose proof (Byte.of_to_N b). congruence.
Qed.

Lemma byte_of_val b : byte_of (byte_val b) = b.
Proof. apply byte_val_inj, byte_val_of_small, byte_val_range. Qed.

(** A slice's length as an integer. *)
Definition blen {A} (l : list A) : Z := Z.of_nat (length l).

Lemma blen_nonneg {A} (l : list A) : (0 ≤ blen l)%Z.
Proof. unfold blen. lia. Qed.
Lemma blen_app {A} (l k : list A) : blen (l ++ k) = (blen l + blen k)%Z.
Proof. unfold blen. rewrite length_app. lia. Qed.
Lemma blen_cons {A} (x : A) l : blen (x :: l) = (1 + blen l)%Z.
Proof. unfold blen. simpl. lia. Qed.
Lemma blen_nil {A} : blen (@nil A) = 0%Z.
Proof. done. Qed.

(** * Big-endian integers: [to_be_bytes] and [from_be_bytes] *)

Fixpoint be_bytes (n : nat) (v : Z) : list byte :=
  match n with
  | O => []
  | S n' => be_bytes n' (v / 256) ++ [byte_of v]
  end.

Definition be_value (l : list byte) : Z :=
  foldl (λ acc b, acc * 256 + byte_val b)%Z 0%Z l.

Lemma length_be_bytes n v : length (be_bytes n v) = n.
Proof.
  revert v; induction n as [|n IH]; intros v; simpl; [done|].
  rewrite length_app, IH. simpl. lia.
Qed.

Lemma be_value_snoc l b : be_value (l ++ [b]) = (be_value l * 256 + byte_val b)%Z.
Proof. unfold be_value. by rewrite foldl_app. Qed.

Lemma be_value_be_bytes (n : nat) v : (0 ≤ v < 256 ^ Z.of_nat n)%Z → be_value (be_bytes n v) = v.
Proof.
  revert v; induction n as [|n IH]; intros v Hv.
  - change (256 ^ Z.of_nat 0)%Z with 1%Z in Hv. simpl. unfold be_value; simpl. lia.
  - simpl. rewrite be_value_snoc, byte_val_of, IH.
    + pose proof (Z.div_mod v 256). lia.
    + rewrite Nat2Z.inj_succ, Z.pow_succ_r in Hv by lia.
      split; [apply Z.div_pos; lia | apply Z.div_lt_upper_bound; lia].
Qed.

Lemma be_value_range l : (0 ≤ be_value l < 256 ^ Z.of_nat (length l))%Z.
Proof.
  induction l as [|b l IH] using rev_ind; [done|].
  rewrite be_value_snoc, length_app, Nat2Z.inj_add, Z.pow_add_r by lia.
  change (256 ^ Z.of_nat (length [b]))%Z with 256%Z. pose proof (byte_val_range b). nia.
Qed.

Lemma be_bytes_be_value l : be_bytes (length l) (be_value l) = l.
Proof.
  induction l as [|b l IH] using rev_ind; [done|].
  rewrite be_value_snoc, length_app, Nat.add_comm. simpl.
  pose proof (byte_val_range b).
  rewrite Z.div_add_l, (Z.div_small (byte_val b)), Z.add_0_r, IH by lia. do 2 f_equal.
  apply byte_val_inj. rewrite byte_val_of, Z.add_comm, Z.mod_add by lia.
  by apply Z.mod_small.
Qed.

Lemma be_bytes_inj (n : nat) v w :
  (0 ≤ v < 256 ^ Z.of_nat n)%Z → (0 ≤ w < 256 ^ Z.of_nat n)%Z → be_bytes n v = be_bytes n w → v = w.
Proof.
  intros Hv Hw E. rewrite <- (be_value_be_bytes n v), <- (be_value_be_bytes n w) by done.
  by rewrite E.
Qed.

(** * Strings *)

(** A Rust [String] or [str] is its UTF-8 bytes.  [utf8_valid] is the check of
    [std::str::from_utf8]: shortest form, no surrogates, at most U+10FFFF. *)
Definition byte_in (lo hi : Z) (b : byte) : bool :=
  ((lo <=? byte_val b) && (byte_val b <=? hi))%Z.

Definition utf8_lead3 (b0 b1 : byte) : bool :=
  (byte_in 224 224 b0 && byte_in 160 191 b1)
  || (byte_in 225 236 b0 && byte_in 128 191 b1)
  || (byte_in 237 237 b0 && byte_in 128 159 b1)
  || (byte_in 238 239 b0 && byte_in 128 191 b1).
Definition utf8_lead4 (b0 b1 : byte) : bool :=
  (byte_in 240 240 b0 && byte_in 144 191 b1)
  || (byte_in 241 243 b0 && byte_in 128 191 b1)
  || (byte_in 244 244 b0 && byte_in 128 143 b1).

Fixpoint utf8_valid (s : list byte) : bool :=
  match s with
  | [] => true
  | b0 :: r0 =>
    if byte_in 0 127 b0 then utf8_valid r0 else
    match r0 with
    | [] => false
    | b1 :: r1 =>
      if byte_in 194 223 b0 then byte_in 128 191 b1 && utf8_valid r1 else
      match r1 with
      | [] => false
      | b2 :: r2 =>
        if utf8_lead3 b0 b1 then byte_in 128 191 b2 && utf8_valid r2 else
        match r2 with
        | [] => false
        | b3 :: r3 =>
          utf8_lead4 b0 b1 && byte_in 128 191 b2 && byte_in 128 191 b3 && utf8_valid r3
        end
      end
    end
  end.

(** A string literal as its bytes. *)
Definition str (s : string) : list byte := String.list_byte_of_string s.

(** * Maps *)

Section maps.
Context `{Countable K} {A : Type}.
Implicit Types m : gmap K A.

Lemma size_insert_le k x m : (size (<[k:=x]> m) ≤ S (size m))%nat.
Proof. rewrite map_size_insert. case_match; unfold id; lia. Qed.

Lemma size_delete_le k m : (size (delete k m) ≤ size m)%nat.
Proof. rewrite map_size_delete. case_match; unfold id; lia. Qed.

Lemma size_filter_le (P : K * A → Prop) `{!∀ x, Decision (P x)} m : (size (filter P m) ≤ size m)%nat.
Proof. rewrite <- !size_dom. apply subseteq_size, dom_filter_subseteq. Qed.
End maps.

(** * Automation *)

(** [rustgo] holds the facts that bound the quantities of the model, [blen] the equations
    that normalise lengths; [blen_lia] decides goals about lengths with both. *)
Create HintDb rustgo.
#[export] Hint Resolve blen_nonneg byte_val_range be_value_range size_insert_le size_delete_le
  size_filter_le : rustgo.
#[export] Hint Rewrite @blen_app @blen_cons @blen_nil : blen.

Ltac blen_lia :=
  autorewrite with blen in *;
  repeat match goal with
  | |- context [blen ?l] =>
    lazymatch goal with H : (0 ≤ blen l)%Z |- _ => fail | _ => pose proof (blen_nonneg l) end
  | _ : context [blen ?l] |- _ =>
    lazymatch goal with H : (0 ≤ blen l)%Z |- _ => fail | _ => pose proof (blen_nonneg l) end
  end;
  lia.

#[export] Hint Resolve guard_err_no_panic ok_or_no_panic map_err_no_panic : rustgo.

(** Panic freedom of a chain of checks: one link after the other. *)
Ltac no_panic :=
  repeat first
    [ discriminate
    | solve [auto with rustgo]
    | lazymatch goal with |- map_err _ _ ≠ _ => apply map_err_no_panic end
    | lazymatch goal with |- mbind _ _ ≠ _ => apply res_bind_no_panic; [|intros ? ?] end ].

Ltac inv H := inversion H; clear H; simplify_eq/=.

(** * Sums over maps *)

#[local] Open Scope Z_scope.

(** The sum of a weight over a map. *)
Definition msum {K A} `{Countable K} (f : A → Z) (m : gmap K A) : Z :=
  map_fold (λ _ x n, f x + n) 0 m.

Lemma msum_empty {K A} `{Countable K} (f : A → Z) : msum f (∅ : gmap K A) = 0.
Proof. apply map_fold_empty. Qed.

Lemma msum_insert {K A} `{Countable K} (f : A → Z) (m : gmap K A) k x :
  m !! k = None → msum f (<[k:=x]> m) = f x + msum f m.
Proof. intros Hk. unfold msum. rewrite map_fold_insert_L; [done|intros; lia|done]. Qed.

Lemma msum_delete {K A} `{Countable K} (f : A → Z) (m : gmap K A) k x :
  m !! k = Some x → msum f m = f x + msum f (delete k m).
Proof. intros Hk. unfold msum. rewrite (map_fold_delete_L _ _ k x m); [done|intros; lia|done]. Qed.

Lemma msum_nonneg {K A} `{Countable K} (f : A → Z) (m : gmap K A) :
  (∀ x, 0 ≤ f x) → 0 ≤ msum f m.
Proof.
  intros Hf. induction m as [|k x m Hk IH] using map_ind; [by rewrite msum_empty|].
  rewrite msum_insert by done. specialize (Hf x). lia.
Qed.

Lemma msum_nonneg_in {K A} `{Countable K} (f : A → Z) (m : gmap K A) :
  (∀ k x, m !! k = Some x → 0 ≤ f x) → 0 ≤ msum f m.
Proof.
  induction m as [|k x m Hk IH] using map_ind; intros Hf; [by rewrite msum_empty|].
  rewrite msum_insert by done. pose proof (Hf k x (lookup_insert_eq _ _ _)) as Hx.
  assert (0 ≤ msum f m); [|lia]. apply IH. intros k' x' Hk'. apply (Hf k').
  rewrite lookup_insert_ne; [done|]. intros ->. by rewrite Hk in Hk'.
Qed.

Lemma msum_le {K A} `{Countable K} (f : A → Z) (m : gmap K A) k x :
  (∀ x, 0 ≤ f x) → m !! k = Some x → f x ≤ msum f m.
Proof.
  intros Hf Hk. rewrite (msum_delete _ _ k x) by done. pose proof (msum_nonneg f (delete k m) Hf). lia.
Qed.
