(* ===== verification/Ordered.v ===== *)
(** Ordered sets: the [BTreeSet] of the source as a strictly ascending list, generic over an
    order given as a boolean test, with the orders of byte strings and of pairs. *)

From S2P Require Import Prelude.
From Stdlib Require Import Strings.Byte.
From stdpp Require Import prelude list sorting.

#[local] Open Scope Z_scope.

(** * Orders *)

(** What [Ord] promises: a total order whose ties are equal. *)
Class OrdLaws {A} (le : A → A → bool) : Prop := {
  ole_total a b : le a b = false → le b a = true;
  ole_trans a b c : le a b = true → le b c = true → le a c = true;
  ole_antisym a b : le a b = true → le b a = true → a = b;
}.

Lemma ole_refl {A} (le : A → A → bool) `{!OrdLaws le} a : le a a = true.
Proof. destruct (le a a) eqn:E; [done|]. pose proof (ole_total a a E). congruence. Qed.

(** The order as a relation. *)
Definition le_rel {A} (le : A → A → bool) (a b : A) : Prop := le a b = true.
#[export] Instance le_rel_dec {A} (le : A → A → bool) : RelDecision (le_rel le).
Proof. intros a b. unfold le_rel. apply _. Defined.

(** The derived order of [[u8]]. *)
Fixpoint bytes_le (a b : list byte) : bool :=
  match a, b with
  | [], _ => true
  | _ :: _, [] => false
  | x :: a, y :: b =>
    (byte_val x <? byte_val y) || ((byte_val x =? byte_val y) && bytes_le a b)
  end.

(** The derived order of a pair whose first part is a number. *)
Definition pair_le {A} (le : A → A → bool) (x y : Z * A) : bool :=
  (x.1 <? y.1) || ((x.1 =? y.1) && le x.2 y.2).

#[export] Instance bytes_ord : OrdLaws bytes_le.
Proof.
  split.
  - intros a. induction a as [|x a IH]; intros [|y b]; simpl; try done.
    intros [H1%Z.ltb_ge H2]%orb_false_iff.
    destruct (Z.eqb_spec (byte_val x) (byte_val y)) as [E|E]; simpl in *.
    + rewrite E, Z.eqb_refl, IH by done. by rewrite orb_true_r.
    + rewrite (proj2 (Z.ltb_lt _ _)) by lia. done.
  - intros a. induction a as [|x a IH]; intros [|y b] [|z c]; simpl; try done.
    rewrite !orb_true_iff, !andb_true_iff, !Z.ltb_lt, !Z.eqb_eq.
    intros [?|[? ?]] [?|[? ?]]; [left; lia..|right]. split; [lia|by eapply IH].
  - intros a. induction a as [|x a IH]; intros [|y b]; simpl; try done.
    rewrite !orb_true_iff, !andb_true_iff, !Z.ltb_lt, !Z.eqb_eq.
    intros [?|[E ?]] [?|[? ?]]; try lia. rewrite (byte_val_inj _ _ E). f_equal. by apply IH.
Qed.

#[export] Instance pair_ord {A} (le : A → A → bool) `{!OrdLaws le} : OrdLaws (pair_le le).
Proof.
  split.
  - intros [t a] [u b]. unfold pair_le. simpl. intros [H1%Z.ltb_ge H2]%orb_false_iff.
    destruct (Z.eqb_spec t u) as [->|E]; simpl in *.
    + by rewrite Z.eqb_refl, (ole_total _ _ H2), orb_true_r.
    + by rewrite (proj2 (Z.ltb_lt _ _)) by lia.
  - intros [t a] [u b] [v c]. unfold pair_le. simpl.
    rewrite !orb_true_iff, !andb_true_iff, !Z.ltb_lt, !Z.eqb_eq.
    intros [?|[? ?]] [?|[? ?]]; [left; lia..|right]. split; [lia|by eapply ole_trans].
  - intros [t a] [u b]. unfold pair_le. simpl.
    rewrite !orb_true_iff, !andb_true_iff, !Z.ltb_lt, !Z.eqb_eq.
    intros [?|[E ?]] [?|[? ?]]; try lia. subst. f_equal. by apply ole_antisym.
Qed.

(** * Sets *)

Section set.
Context {A} `{EqDecision A} (le : A → A → bool).

(** [BTreeSet::insert]. *)
Fixpoint bt_insert (x : A) (l : list A) : list A :=
  match l with
  | [] => [x]
  | y :: l => if decide (x = y) then y :: l else if le x y then x :: y :: l else y :: bt_insert x l
  end.
(** [BTreeSet::remove]. *)
Definition bt_remove (x : A) (l : list A) : list A := filter (λ y, y ≠ x) l.

Definition leP (a b : A) : Prop := le a b = true.
(** Ascending and without duplicates. *)
Definition ascending (l : list A) : Prop := StronglySorted leP l ∧ NoDup l.

Lemma elem_of_bt_insert x l y : y ∈ bt_insert x l ↔ y = x ∨ y ∈ l.
Proof.
  induction l as [|z l IH]; simpl; [set_solver|]. case_decide; [set_solver|]. case_match; set_solver.
Qed.

Lemma elem_of_bt_remove x l y : y ∈ bt_remove x l ↔ y ≠ x ∧ y ∈ l.
Proof. unfold bt_remove. by rewrite list_elem_of_filter. Qed.

Lemma ascending_nil : ascending [].
Proof. split; constructor. Qed.

Lemma ascending_cons x l : ascending (x :: l) → ascending l ∧ x ∉ l ∧ Forall (leP x) l.
Proof. intros [[? ?]%StronglySorted_inv [? ?]%NoDup_cons]. done. Qed.

Lemma ascending_remove x l : ascending l → ascending (bt_remove x l).
Proof.
  intros [Hs Hn]. split; [|by apply NoDup_filter]. clear Hn.
  induction Hs as [|y l Hs IH Hy]; unfold bt_remove; [constructor|].
  rewrite filter_cons. case_decide; [|done]. constructor; [done|].
  apply Forall_forall. intros z [_ Hz]%list_elem_of_filter. by eapply Forall_forall in Hy.
Qed.

Context `{!OrdLaws le}.

Lemma ascending_insert x l : ascending l → ascending (bt_insert x l).
Proof.
  intros [Hs Hn]. induction Hs as [|y l Hs IH Hy]; simpl.
  { split; [by repeat constructor|]. apply NoDup_singleton. }
  apply NoDup_cons in Hn as [Hny Hn]. case_decide as E.
  { split; [by constructor|by constructor]. }
  destruct (IH Hn) as [IH1 IH2]. destruct (le x y) eqn:Hle.
  - split.
    + constructor; [by constructor|]. constructor; [done|].
      eapply Forall_impl; [exact Hy|]. intros z ?. by eapply ole_trans.
    + constructor; [|by constructor]. intros [->|Hx]%elem_of_cons; [done|].
      eapply Forall_forall in Hy; [|exact Hx]. apply E. by apply ole_antisym.
  - split.
    + constructor; [done|]. apply Forall_forall. intros z [->|Hz]%elem_of_bt_insert.
      * by apply ole_total.
      * by eapply Forall_forall in Hy.
    + constructor; [|done]. intros [->|?]%elem_of_bt_insert; [|done]. done.
Qed.

(** The head is the smallest. *)
Lemma ascending_head x l y : ascending (x :: l) → y ∈ x :: l → le x y = true.
Proof.
  intros (_&_&Hf)%ascending_cons [->|Hy]%elem_of_cons; [by apply ole_refl|].
  by eapply Forall_forall in Hf.
Qed.
End set.
