(* ===== verification/RateWindow.v ===== *)
(** Fixed windows bound every interval: when a counter that is reset once its window is old
    enough never lets more than a bound through per window, no interval of the window's
    length lets more than twice the bound through. *)

From S2P Require Import Prelude.
From stdpp Require Import prelude list.

#[local] Open Scope Z_scope.

Section window.
Context {A : Type} (time w : A → Z) (span : Z).

(** The total weight of the items that satisfy a test. *)
Definition weight (q : A → bool) (l : list A) : Z := foldr (λ x n, (if q x then w x else 0) + n) 0 l.
(** In the interval of length [span] from [a] on. *)
Definition within (a : Z) (x : A) : bool := (a <=? time x) && (time x <? a + span).
Definition everything (x : A) : bool := true.

Lemma weight_app q l k : weight q (l ++ k) = weight q l + weight q k.
Proof. induction l as [|x l IH]; simpl; [done|]. rewrite IH. lia. Qed.

Lemma weight_nonneg q l : Forall (λ x, 0 ≤ w x) l → 0 ≤ weight q l.
Proof. induction 1 as [|x l Hx _ IH]; simpl; [done|]. destruct (q x); lia. Qed.

Lemma weight_mono q q' l :
  Forall (λ x, 0 ≤ w x) l → Forall (λ x, q x = true → q' x = true) l → weight q l ≤ weight q' l.
Proof.
  induction 1 as [|x l Hx _ IH]; intros Hq; simpl; [done|].
  apply Forall_cons in Hq as [Hq1 Hq2]. specialize (IH Hq2).
  destruct (q x); [rewrite Hq1 by done|destruct (q' x)]; lia.
Qed.

Lemma weight_none q l : Forall (λ x, q x = false) l → weight q l = 0.
Proof. induction 1 as [|x l Hx _ IH]; simpl; [done|]. by rewrite Hx, IH. Qed.

(** The items let through so far, split into those of the current window and the older ones:
    the current ones came from [lo] on and weigh at most [bound], so do the older ones of the
    last [span] before [lo], and no interval of length [span] holds more than twice as much. *)
Record rate_ok (bound started lo : Z) (old cur : list A) : Prop := {
  ra_weight : Forall (λ x, 0 ≤ w x) (old ++ cur);
  ra_lo : lo ≤ started;
  ra_old : Forall (λ x, time x ≤ lo) old;
  ra_cur : Forall (λ x, lo ≤ time x) cur;
  ra_sum : weight everything cur ≤ bound;
  ra_last : weight (λ x, lo - span <? time x) old ≤ bound;
  ra_interval : ∀ a, weight (within a) old ≤ 2 * bound;
}.

Lemma rate_new bound started : 0 ≤ bound → rate_ok bound started started [] [].
Proof. intros ?. split; simpl; try done; try lia; constructor. Qed.

Lemma rate_interval bound started lo old cur a :
  0 ≤ bound → rate_ok bound started lo old cur → weight (within a) (old ++ cur) ≤ 2 * bound.
Proof.
  intros Hb [Hw Hlo Hold Hcur Hsum Hlast Hint]. apply Forall_app in Hw as [Hwo Hwc].
  rewrite weight_app. destruct (Z.leb_spec (a + span) lo).
  - rewrite (weight_none _ cur); [specialize (Hint a); lia|].
    eapply Forall_impl; [exact Hcur|]. intros x Hx. unfold within. simpl in Hx.
    rewrite (proj2 (Z.ltb_ge _ _)) by lia. apply andb_false_r.
  - assert (weight (within a) old ≤ weight (λ x, lo - span <? time x) old).
    { apply weight_mono; [done|]. apply Forall_forall. intros x _.
      unfold within. rewrite andb_true_iff, Z.leb_le, !Z.ltb_lt. lia. }
    assert (weight (within a) cur ≤ weight everything cur)
      by (apply weight_mono; [done|]; by apply Forall_forall).
    lia.
Qed.

(** A window that is at least [span] old ends: all items are old now. *)
Lemma rate_reset bound started lo old cur now now' :
  0 ≤ bound → 0 ≤ span → rate_ok bound started lo old cur →
  started + span ≤ now → now ≤ now' → Forall (λ x, time x ≤ now) cur →
  rate_ok bound now' now (old ++ cur) [].
Proof.
  intros Hb Hspan Hok Hnow Hnow' Hbefore. pose proof (rate_interval bound started lo old cur) as Hs.
  pose proof Hok as [Hw Hlo Hold Hcur Hsum Hlast Hint].
  split; simpl; rewrite ?app_nil_r; try done; try lia.
  - apply Forall_app. split; [|done]. eapply Forall_impl; [exact Hold|]. simpl. lia.
  - rewrite weight_app, weight_none.
    + apply Forall_app in Hw as [_ Hwc].
      assert (weight (λ x, now - span <? time x) cur ≤ weight everything cur); [|lia].
      apply weight_mono; [done|]. by apply Forall_forall.
    + eapply Forall_impl; [exact Hold|]. simpl. intros x Hx. apply Z.ltb_ge. lia.
  - intros a. by apply Hs.
Qed.

Lemma rate_add bound started lo old cur x :
  rate_ok bound started lo old cur → 0 ≤ w x → lo ≤ time x →
  weight everything cur + w x ≤ bound → rate_ok bound started lo old (cur ++ [x]).
Proof.
  intros [Hw Hlo Hold Hcur Hsum Hlast Hint] Hx Ht Hb. split; try done.
  - rewrite (assoc_L (++)). apply Forall_app. by split; [|constructor].
  - apply Forall_app. by split; [|constructor].
  - rewrite weight_app. simpl. lia.
Qed.
End window.
