(* ===== verification/Wire.v ===== *)
(** Binary codecs: the serde traits of the wire types, the postcard format as an
    interface with its documented laws, and the combinators of derived (de)serializers. *)

From S2P Require Import Prelude.
From Stdlib Require Import Strings.Byte.
From stdpp Require Import prelude list.

Declare Scope codec_scope.
Delimit Scope codec_scope with codec.
#[local] Open Scope Z_scope.

(** * Codecs *)

(** A type's [Serialize] and [Deserialize] implementations for one format: [ser] writes
    the value, [de] reads one value from the front of the input and returns the rest. *)
Record codec (A : Type) := Codec {
  ser : A → list byte;
  de : list byte → option (A * list byte);
}.
Arguments Codec {A} _ _.
Arguments ser {A} _ _.
Arguments de {A} _ _.

(** What a codec promises on the values [wf] of the Rust type: reading what was written
    returns the value and leaves the rest, the encoding takes at most [max] bytes,
    whatever is read satisfies [wf], and the rest is a suffix of the input. *)
Class CodecLaw {A} (c : codec A) (wf : A → Prop) (max : Z) : Prop := {
  codec_rt : ∀ a rest, wf a → de c (ser c a ++ rest) = Some (a, rest);
  codec_size : ∀ a, wf a → blen (ser c a) ≤ max;
  codec_sound : ∀ bs a rest, de c bs = Some (a, rest) → wf a;
  codec_suffix : ∀ bs a rest, de c bs = Some (a, rest) → ∃ used, bs = used ++ rest;
}.

Lemma codec_law_weaken {A} (c : codec A) (wf wf' : A → Prop) (max max' : Z) :
  CodecLaw c wf max → (∀ a, wf' a ↔ wf a) → max ≤ max' → CodecLaw c wf' max'.
Proof.
  intros [rt sz sd sf] Heq Hle. split.
  - intros a rest ?%Heq. by apply rt.
  - intros a ?%Heq. etrans; [by apply sz | done].
  - intros bs a rest ?%sd. by apply Heq.
  - apply sf.
Qed.

(** Encodings written by a lawful codec determine the value. *)
Lemma codec_ser_inj {A} (c : codec A) wf max `{!CodecLaw c wf max} a b :
  wf a → wf b → ser c a = ser c b → a = b.
Proof.
  intros Ha Hb E. pose proof (codec_rt a [] Ha) as Ra.
  rewrite E, (codec_rt b [] Hb) in Ra. congruence.
Qed.

(** ** Combinators *)

(** A struct's fields in declaration order: [c1 ⊗ c2] writes the first, then the second. *)
Definition codec_pair {A B} (c1 : codec A) (c2 : codec B) : codec (A * B) := {|
  ser p := ser c1 p.1 ++ ser c2 p.2;
  de bs :=
    '(a, r1) ← de c1 bs;
    '(b, r2) ← de c2 r1;
    Some ((a, b), r2);
|}.
Infix "⊗" := codec_pair (at level 40, left associativity) : codec_scope.

(** The derived implementation of a struct through its field tuple. *)
Definition codec_struct {A T} (fields : A → T) (build : T → A) (c : codec T) : codec A := {|
  ser a := ser c (fields a);
  de bs := '(t, r) ← de c bs; Some (build t, r);
|}.

(** A manual [Deserialize] that rejects the values failing a check. *)
Definition codec_check {A} (p : A → bool) (c : codec A) : codec A := {|
  ser := ser c;
  de bs := '(a, r) ← de c bs; if p a then Some (a, r) else None;
|}.

(** An empty struct. *)
Definition codec_unit : codec unit := {| ser _ := []; de bs := Some (tt, bs) |}.

(** [Option<T>]: a tag, then the value when there is one. *)
Definition codec_option {A} (tag : codec bool) (c : codec A) : codec (option A) := {|
  ser o := match o with None => ser tag false | Some a => ser tag true ++ ser c a end;
  de bs :=
    '(some, r) ← de tag bs;
    if (some : bool) then '(a, r') ← de c r; Some (Some a, r') else Some (None, r);
|}.

Section loop.
Context {A : Type} (c : codec A) (max : Z).

(** [while let Some(value) = sequence.next_element()?] over [n] remaining elements,
    with the check [values.len() == MAX] before each push. *)
Fixpoint de_elements (n : nat) (values : list A) (bs : list byte)
    : option (list A * list byte) :=
  match n with
  | O => Some (values, bs)
  | S n' =>
    '(a, r) ← de c bs;
    if blen values =? max then None else de_elements n' (values ++ [a]) r
  end.
End loop.

(** A bounded sequence: the length, then the elements. *)
Definition codec_seq {A} (len : codec Z) (max : Z) (c : codec A) : codec (list A) := {|
  ser l := ser len (blen l) ++ (l ≫= ser c);
  de bs :=
    '(n, r) ← de len bs;
    if max <? n then None else de_elements c max (Z.to_nat n) [] r;
|}.

Section laws.
Context {A B T : Type}.

Lemma codec_pair_law (c1 : codec A) (c2 : codec B) wf1 wf2 m1 m2 :
  CodecLaw c1 wf1 m1 → CodecLaw c2 wf2 m2 →
  CodecLaw (codec_pair c1 c2) (λ p, wf1 p.1 ∧ wf2 p.2) (m1 + m2).
Proof.
  intros L1 L2. split; simpl.
  - intros [a b] rest [Ha Hb]; simpl. rewrite <- app_assoc, codec_rt by done; simpl.
    by rewrite codec_rt.
  - intros [a b] [Ha Hb]; simpl. rewrite blen_app.
    pose proof (codec_size a Ha). pose proof (codec_size b Hb). lia.
  - intros bs [a b] rest. destruct (de c1 bs) as [[a' r]|] eqn:E1; simpl; [|done].
    destruct (de c2 r) as [[b' r']|] eqn:E2; simpl; [|done].
    intros [= <- <- <-]; simpl. split; by eapply codec_sound.
  - intros bs [a b] rest. destruct (de c1 bs) as [[a' r]|] eqn:E1; simpl; [|done].
    destruct (de c2 r) as [[b' r']|] eqn:E2; simpl; [|done].
    intros [= <- <- <-]. apply codec_suffix in E1 as [u ->], E2 as [u' ->].
    exists (u ++ u'). by rewrite app_assoc.
Qed.

Lemma codec_struct_law (fields : A → T) (build : T → A) (c : codec T) wf m :
  CodecLaw c wf m → (∀ a, build (fields a) = a) → (∀ t, fields (build t) = t) →
  CodecLaw (codec_struct fields build c) (λ a, wf (fields a)) m.
Proof.
  intros L Hbf Hfb. split; simpl.
  - intros a rest Ha. rewrite codec_rt by done. simpl. by rewrite Hbf.
  - intros a Ha. by apply codec_size.
  - intros bs a rest. destruct (de c bs) as [[t r]|] eqn:E; simpl; [|done].
    intros [= <- <-]. rewrite Hfb. by eapply codec_sound.
  - intros bs a rest. destruct (de c bs) as [[t r]|] eqn:E; simpl; [|done].
    intros [= <- <-]. by eapply codec_suffix.
Qed.

Lemma codec_check_law (p : A → bool) (c : codec A) wf m :
  CodecLaw c wf m → CodecLaw (codec_check p c) (λ a, wf a ∧ p a = true) m.
Proof.
  intros L. split; simpl.
  - intros a rest [Ha Hp]. rewrite codec_rt by done. simpl. by rewrite Hp.
  - intros a [Ha _]. by apply codec_size.
  - intros bs a rest. destruct (de c bs) as [[t r]|] eqn:E; simpl; [|done].
    destruct (p t) eqn:Hp; [|done]. intros [= <- <-]. split; [by eapply codec_sound|done].
  - intros bs a rest. destruct (de c bs) as [[t r]|] eqn:E; simpl; [|done].
    destruct (p t) eqn:Hp; [|done]. intros [= <- <-]. by eapply codec_suffix.
Qed.

Lemma codec_option_law (tag : codec bool) (c : codec A) wf mt m :
  CodecLaw tag (λ _, True) mt → CodecLaw c wf m → 0 ≤ m →
  CodecLaw (codec_option tag c) (λ o, match o with None => True | Some a => wf a end) (mt + m).
Proof.
  intros Lt L Hm. split; simpl.
  - intros [a|] rest Ha; rewrite <- ?app_assoc, codec_rt by done; simpl; [|done].
    by rewrite codec_rt.
  - intros [a|] Ha; rewrite ?blen_app.
    + pose proof (codec_size (c := tag) true I). pose proof (codec_size a Ha). lia.
    + pose proof (codec_size (c := tag) false I). lia.
  - intros bs o rest. destruct (de tag bs) as [[b r]|] eqn:E; simpl; [|done].
    destruct b; [|by intros [= <- <-]].
    destruct (de c r) as [[a r']|] eqn:E'; simpl; [|done].
    intros [= <- <-]. by eapply codec_sound.
  - intros bs o rest. destruct (de tag bs) as [[b r]|] eqn:E; simpl; [|done].
    apply codec_suffix in E as [u ->].
    destruct b; [|intros [= <- <-]; eauto].
    destruct (de c r) as [[a r']|] eqn:E'; simpl; [|done]. intros [= <- <-].
    apply codec_suffix in E' as [u' ->]. exists (u ++ u'). by rewrite app_assoc.
Qed.
End laws.

Lemma codec_unit_law : CodecLaw codec_unit (λ _, True) 0.
Proof.
  split; simpl; [by intros [] ?|done|done|]. intros bs a rest [= <- <-]. by exists [].
Qed.

Section seq_law.
Context {A : Type} (c : codec A) (wf : A → Prop) (m max : Z).
Context `{!CodecLaw c wf m}.

Lemma de_elements_rt l acc rest :
  Forall wf l → blen acc + blen l ≤ max →
  de_elements c max (length l) acc ((l ≫= ser c) ++ rest) = Some (acc ++ l, rest).
Proof.
  revert acc. induction l as [|a l IH]; intros acc Hwf Hmax; simpl.
  - by rewrite app_nil_r.
  - apply Forall_cons in Hwf as [Ha Hl]. rewrite blen_cons in Hmax.
    rewrite <- app_assoc, codec_rt by done. simpl.
    pose proof (blen_nonneg l). rewrite (proj2 (Z.eqb_neq _ _)) by lia.
    rewrite IH, <- app_assoc; [done..|]. rewrite blen_app, blen_cons, blen_nil. lia.
Qed.

Lemma de_elements_sound n acc bs l rest :
  de_elements c max n acc bs = Some (l, rest) → Forall wf acc →
  Forall wf l ∧ length l = (length acc + n)%nat ∧ ∃ used, bs = used ++ rest.
Proof.
  revert acc bs. induction n as [|n IH]; intros acc bs; simpl.
  - intros [= <- <-] Hacc. split_and!; [done|lia|by exists []].
  - destruct (de c bs) as [[a r]|] eqn:E; simpl; [|done]. case_match; [done|].
    intros Hde Hacc. apply IH in Hde as (?&Hlen&u&->).
    + apply codec_suffix in E as [u' ->]. rewrite length_app in Hlen. simpl in Hlen.
      split_and!; [done|lia|]. exists (u' ++ u). by rewrite app_assoc.
    + apply Forall_app; split; [done|]. apply Forall_singleton. by eapply codec_sound.
Qed.

Lemma ser_elements_size l : 0 ≤ m → Forall wf l → blen (l ≫= ser c) ≤ blen l * m.
Proof.
  intros Hm. induction 1 as [|a l Ha Hl IH]; [done|].
  rewrite bind_cons, blen_app, blen_cons, Z.mul_add_distr_r.
  pose proof (codec_size a Ha). lia.
Qed.

Lemma codec_seq_law (len : codec Z) (k : Z) :
  CodecLaw len (in_u 64) 10 → (∀ n, 0 ≤ n ≤ max → blen (ser len n) ≤ k) →
  0 ≤ m → 0 ≤ max < 2 ^ 64 →
  CodecLaw (codec_seq len max c) (λ l, blen l ≤ max ∧ Forall wf l) (k + max * m).
Proof.
  intros Llen Hk Hm Hmax. split; simpl.
  - intros l rest [Hl Hwf]. pose proof (blen_nonneg l).
    rewrite <- app_assoc, codec_rt by (split; lia). simpl.
    rewrite (proj2 (Z.ltb_ge _ _)) by lia.
    unfold blen at 1. rewrite Nat2Z.id, de_elements_rt; [done..|]. by rewrite blen_nil.
  - intros l [Hl Hwf]. rewrite blen_app. pose proof (blen_nonneg l).
    pose proof (ser_elements_size l Hm Hwf). pose proof (Hk (blen l) ltac:(lia)).
    pose proof (Z.mul_le_mono_nonneg_r (blen l) max m Hm Hl). lia.
  - intros bs l rest. destruct (de len bs) as [[n r]|] eqn:E; simpl; [|done].
    destruct (Z.ltb_spec max n); [done|]. intros Hde.
    apply de_elements_sound in Hde as (?&Hlen&_); [|done].
    apply codec_sound in E as [??]. unfold blen. simpl in Hlen. split; [lia|done].
  - intros bs l rest. destruct (de len bs) as [[n r]|] eqn:E; simpl; [|done].
    destruct (Z.ltb_spec max n); [done|]. intros Hde.
    apply de_elements_sound in Hde as (?&_&u&->); [|done].
    apply codec_suffix in E as [u' ->]. exists (u' ++ u). by rewrite app_assoc.
Qed.
End seq_law.
