(* ===== verification/Postcard.v ===== *)
(** The postcard format as an interface.  The crate [postcard] and the serde derive are
    not part of the repository: the model takes their primitive codecs as a parameter and
    relies only on the documented laws below (round trip of every primitive, rejection of
    out-of-range integers and invalid UTF-8, seven value bits per varint byte).  A concrete
    instance built from the documented wire format shows that the laws can hold. *)

From S2P Require Import Prelude Wire.
From Stdlib Require Import Strings.Byte.
From stdpp Require Import prelude list.

#[local] Open Scope Z_scope.

(** * The interface *)

Class Postcard := {
  pc_u8 : codec Z;
  pc_u16 : codec Z;
  pc_u32 : codec Z;
  pc_u64 : codec Z;
  (** the length of a sequence and the index of an enum variant *)
  pc_len : codec Z;
  pc_variant : codec Z;
  pc_bool : codec bool;
  (** the tag of an [Option] *)
  pc_tag : codec bool;
  pc_bytes : codec (list byte);
  pc_str : codec (list byte);
  (** [[u8; n]] *)
  pc_array : nat → codec (list byte);
}.

(** An integer below [2 ^ (7 * k)] takes at most [k] bytes. *)
Definition varint_sized (c : codec Z) : Prop :=
  ∀ k v, 1 ≤ k → 0 ≤ v < 2 ^ (7 * k) → blen (ser c v) ≤ k.

Class PostcardLaws (P : Postcard) : Prop := {
  law_u8 : CodecLaw pc_u8 (in_u 8) 1;
  law_u16 : CodecLaw pc_u16 (in_u 16) 3;
  law_u32 : CodecLaw pc_u32 (in_u 32) 5;
  law_u64 : CodecLaw pc_u64 (in_u 64) 10;
  law_len : CodecLaw pc_len (in_u 64) 10;
  law_variant : CodecLaw pc_variant (in_u 32) 5;
  law_bool : CodecLaw pc_bool (λ _, True) 1;
  law_tag : CodecLaw pc_tag (λ _, True) 1;
  law_bytes : CodecLaw pc_bytes (λ b, in_u 64 (blen b)) (2 ^ 64 + 10);
  law_str : CodecLaw pc_str (λ b, in_u 64 (blen b) ∧ utf8_valid b = true) (2 ^ 64 + 10);
  law_array n : CodecLaw (pc_array n) (λ b, length b = n) (Z.of_nat n);
  law_u32_sized : varint_sized pc_u32;
  law_len_sized : varint_sized pc_len;
  law_variant_sized : varint_sized pc_variant;
  law_bytes_sized k b : 1 ≤ k → blen b < 2 ^ (7 * k) → blen (ser pc_bytes b) ≤ k + blen b;
  law_str_sized k b : 1 ≤ k → blen b < 2 ^ (7 * k) → blen (ser pc_str b) ≤ k + blen b;
}.

(** * Derived codecs *)

Section derived.
Context `{P : Postcard}.

(** [BoundedBytes<MAX>] and [BoundedString<MAX>]: the visitor hands the slice to
    [try_from], which checks the bound. *)
Definition bounded_bytes (MAX : Z) : codec (list byte) :=
  codec_check (λ b, blen b <=? MAX) pc_bytes.
Definition bounded_str (MAX : Z) : codec (list byte) :=
  codec_check (λ b, blen b <=? MAX) pc_str.
Definition bounded_vec {A} (MAX : Z) (c : codec A) : codec (list A) :=
  codec_seq pc_len MAX c.
Definition opt {A} (c : codec A) : codec (option A) := codec_option pc_tag c.

(** A fieldless enum with [n] variants: the index of the variant. *)
Definition codec_enum {A} (n : Z) (index : A → Z) (variant : Z → option A) : codec A := {|
  ser a := ser pc_variant (index a);
  de bs := '(i, r) ← de pc_variant bs; a ← variant i; Some (a, r);
|}.

Context `{!PostcardLaws P}.

Definition bytes_wf (MAX : Z) (b : list byte) : Prop := blen b ≤ MAX.
Definition str_wf (MAX : Z) (b : list byte) : Prop := blen b ≤ MAX ∧ utf8_valid b = true.

Lemma pow2_7_le k : k ≤ 9 → 2 ^ (7 * k) ≤ 2 ^ 64.
Proof. intros. apply Z.pow_le_mono_r; lia. Qed.

Lemma bounded_bytes_law MAX k :
  1 ≤ k ≤ 9 → 0 ≤ MAX < 2 ^ (7 * k) →
  CodecLaw (bounded_bytes MAX) (bytes_wf MAX) (k + MAX).
Proof.
  intros Hk HM. pose proof (pow2_7_le k ltac:(lia)).
  destruct (codec_check_law (λ b, blen b <=? MAX) pc_bytes _ _ law_bytes) as [rt _ sd sf].
  unfold bytes_wf. split.
  - intros b rest Hb. pose proof (blen_nonneg b). apply rt. unfold in_u. split; [|]; lia.
  - intros b Hb. etrans; [apply (law_bytes_sized k); lia | lia].
  - intros bs b rest [_ ?]%sd. lia.
  - apply sf.
Qed.

Lemma bounded_str_law MAX k :
  1 ≤ k ≤ 9 → 0 ≤ MAX < 2 ^ (7 * k) →
  CodecLaw (bounded_str MAX) (str_wf MAX) (k + MAX).
Proof.
  intros Hk HM. pose proof (pow2_7_le k ltac:(lia)).
  destruct (codec_check_law (λ b, blen b <=? MAX) pc_str _ _ law_str) as [rt _ sd sf].
  unfold str_wf. split.
  - intros b rest [Hb ?]. pose proof (blen_nonneg b). apply rt. unfold in_u.
    split_and!; [lia..|done|lia].
  - intros b [Hb _]. etrans; [apply (law_str_sized k); lia | lia].
  - intros bs b rest [[_ ?] ?]%sd. split; [lia|done].
  - apply sf.
Qed.

Lemma bounded_vec_law {A} (c : codec A) wf m MAX k :
  CodecLaw c wf m → 0 ≤ m → 1 ≤ k ≤ 9 → 0 ≤ MAX < 2 ^ (7 * k) →
  CodecLaw (bounded_vec MAX c) (λ l, blen l ≤ MAX ∧ Forall wf l) (k + MAX * m).
Proof.
  intros L Hm Hk HM. pose proof (pow2_7_le k ltac:(lia)).
  apply codec_seq_law; [done|apply law_len| |lia..].
  intros n Hn. apply law_len_sized; lia.
Qed.

Lemma opt_law {A} (c : codec A) wf m :
  CodecLaw c wf m → 0 ≤ m →
  CodecLaw (opt c) (λ o, match o with None => True | Some a => wf a end) (1 + m).
Proof. intros. apply codec_option_law; [apply law_tag|done..]. Qed.

Lemma codec_enum_law {A} n (index : A → Z) variant :
  n ≤ 128 → (∀ a, 0 ≤ index a < n) → (∀ a, variant (index a) = Some a) →
  CodecLaw (codec_enum n index variant) (λ _, True) 1.
Proof.
  intros Hn Hi Hv. split; simpl.
  - intros a rest _. specialize (Hi a). rewrite (codec_rt (CodecLaw := law_variant)).
    + simpl. by rewrite Hv.
    + unfold in_u. lia.
  - intros a _. specialize (Hi a). apply law_variant_sized; lia.
  - done.
  - intros bs a rest. destruct (de pc_variant bs) as [[i r]|] eqn:E; simpl; [|done].
    destruct (variant i); simpl; [|done]. intros [= <- <-].
    by eapply (codec_suffix (CodecLaw := law_variant)).
Qed.
End derived.

(** Closed inequalities between wire constants. *)
Ltac zconst := first [ lia | repeat split; vm_compute; congruence ].

(** The format law of a struct codec: the laws of the fields, the struct isomorphism,
    then the well-formedness predicate and the byte bound of the statement. *)
Ltac codec_law :=
  lazymatch goal with
  | |- CodecLaw (codec_pair _ _) _ _ => eapply codec_pair_law; codec_law
  | |- CodecLaw (codec_check _ _) _ _ => eapply codec_check_law; codec_law
  | |- CodecLaw (codec_struct _ _ _) _ _ =>
    eapply codec_struct_law; [codec_law | by intros [] | first [by intros []; repeat case_match | by intros; repeat case_match]]
  | |- CodecLaw pc_u8 _ _ => apply law_u8
  | |- CodecLaw pc_u16 _ _ => apply law_u16
  | |- CodecLaw pc_u32 _ _ => apply law_u32
  | |- CodecLaw pc_u64 _ _ => apply law_u64
  | |- CodecLaw pc_bool _ _ => apply law_bool
  | |- CodecLaw (pc_array _) _ _ => apply law_array
  | |- CodecLaw codec_unit _ _ => apply codec_unit_law
  | |- CodecLaw (opt _) _ _ => eapply opt_law; [codec_law | zconst]
  | |- CodecLaw (bounded_vec _ _) _ _ =>
    eapply (bounded_vec_law _ _ _ _ 1); [codec_law | zconst..]
  | |- CodecLaw (bounded_bytes _) _ _ =>
    first [ apply (bounded_bytes_law _ 1); zconst | apply (bounded_bytes_law _ 2); zconst
          | apply (bounded_bytes_law _ 3); zconst ]
  | |- CodecLaw (bounded_str _) _ _ =>
    first [ apply (bounded_str_law _ 1); zconst | apply (bounded_str_law _ 2); zconst
          | apply (bounded_str_law _ 3); zconst ]
  | |- _ => typeclasses eauto
  end.

Ltac struct_law wf :=
  eapply codec_law_weaken;
  [ codec_law | let a := fresh in intros a; destruct a; unfold wf; simpl; first [tauto | repeat case_match; tauto] | zconst ].
