(* ===== verification/PostcardRef.v ===== *)
(** An instance of the postcard interface that follows the documented wire format
    (LEB128 varints, raw bytes, length-prefixed slices), with the proof of every law.
    The witnesses of the properties that assume the laws evaluate on this instance. *)

From S2P Require Import Prelude Wire Postcard.
From Stdlib Require Import Strings.Byte.
From stdpp Require Import prelude list.

#[local] Open Scope Z_scope.

(** * Varints *)

Fixpoint varint_ser (fuel : nat) (v : Z) : list byte :=
  match fuel with
  | O => []
  | S fuel' =>
    if v <? 128 then [byte_of v] else byte_of (v `mod` 128 + 128) :: varint_ser fuel' (v / 128)
  end.

Fixpoint varint_de (fuel : nat) (bs : list byte) : option (Z * list byte) :=
  match fuel, bs with
  | S fuel', b :: r =>
    if byte_val b <? 128 then Some (byte_val b, r)
    else '(v, r') ← varint_de fuel' r; Some (byte_val b - 128 + 128 * v, r')
  | _, _ => None
  end.

Lemma varint_rt fuel v rest :
  (0 < fuel)%nat → 0 ≤ v < 2 ^ (7 * Z.of_nat fuel) →
  varint_de fuel (varint_ser fuel v ++ rest) = Some (v, rest).
Proof.
  revert v. induction fuel as [|fuel IH]; intros v Hf Hv; [lia|]. simpl.
  destruct (Z.ltb_spec v 128); simpl.
  - rewrite byte_val_of_small by lia. by rewrite (proj2 (Z.ltb_lt _ _)).
  - pose proof (Z.mod_pos_bound v 128 ltac:(lia)).
    rewrite byte_val_of_small by lia. rewrite (proj2 (Z.ltb_ge _ _)) by lia.
    rewrite Nat2Z.inj_succ, Z.mul_succ_r, Z.pow_add_r in Hv by lia.
    destruct fuel as [|fuel]; [change (2 ^ (7 * Z.of_nat 0)) with 1 in Hv; lia|].
    rewrite IH; [|lia|].
    + simpl. do 2 f_equal. pose proof (Z.div_mod v 128). lia.
    + split; [apply Z.div_pos; lia | apply Z.div_lt_upper_bound; lia].
Qed.

Lemma varint_size fuel v : blen (varint_ser fuel v) ≤ Z.of_nat fuel.
Proof.
  revert v. induction fuel as [|fuel IH]; intros v; [done|]. simpl. case_match.
  - rewrite blen_cons, blen_nil. lia.
  - rewrite blen_cons. specialize (IH (v / 128)). lia.
Qed.

Lemma varint_ser_sized fuel k v :
  (1 ≤ k)%nat → 0 ≤ v < 2 ^ (7 * Z.of_nat k) → blen (varint_ser fuel v) ≤ Z.of_nat k.
Proof.
  revert k v. induction fuel as [|fuel IH]; intros k v Hk Hv; [simpl; rewrite blen_nil; lia|].
  simpl. destruct (Z.ltb_spec v 128); rewrite blen_cons; [rewrite blen_nil; lia|].
  destruct k as [|k]; [lia|].
  rewrite Nat2Z.inj_succ, Z.mul_succ_r, Z.pow_add_r in Hv by lia.
  destruct k as [|k]; [change (2 ^ (7 * Z.of_nat 0)) with 1 in Hv; lia|].
  specialize (IH (S k) (v / 128)). rewrite Nat2Z.inj_succ.
  enough (blen (varint_ser fuel (v / 128)) ≤ Z.of_nat (S k)) by lia.
  apply IH; [lia|]. split; [apply Z.div_pos; lia | apply Z.div_lt_upper_bound; lia].
Qed.

Lemma varint_de_nonneg fuel bs v r : varint_de fuel bs = Some (v, r) → 0 ≤ v.
Proof.
  revert bs v. induction fuel as [|fuel IH]; intros [|b bs] v; simpl; try done.
  pose proof (byte_val_range b). destruct (Z.ltb_spec (byte_val b) 128).
  - intros [= <- <-]. lia.
  - destruct (varint_de fuel bs) as [[v' r']|] eqn:E; simpl; [|done].
    intros [= <- <-]. apply IH in E. lia.
Qed.

Lemma varint_de_suffix fuel bs v r : varint_de fuel bs = Some (v, r) → ∃ u, bs = u ++ r.
Proof.
  revert bs v. induction fuel as [|fuel IH]; intros [|b bs] v; simpl; try done.
  case_match; [intros [= <- <-]; by exists [b]|].
  destruct (varint_de fuel bs) as [[v' r']|] eqn:E; simpl; [|done].
  intros [= <- <-]. apply IH in E as [u ->]. by exists (b :: u).
Qed.

(** A varint of a [w]-bit type written in at most [fuel] bytes; overlong values are refused. *)
Definition varint (w : Z) (fuel : nat) : codec Z := {|
  ser := varint_ser fuel;
  de bs := '(v, r) ← varint_de fuel bs; if v <? 2 ^ w then Some (v, r) else None;
|}.

Lemma varint_law w fuel :
  (0 < fuel)%nat → 0 ≤ w ≤ 7 * Z.of_nat fuel → CodecLaw (varint w fuel) (in_u w) (Z.of_nat fuel).
Proof.
  intros Hf Hw. pose proof (Z.pow_le_mono_r 2 w (7 * Z.of_nat fuel) ltac:(lia) ltac:(lia)).
  unfold in_u. split; simpl.
  - intros v rest Hv. rewrite varint_rt by lia. simpl. by rewrite (proj2 (Z.ltb_lt _ _)) by lia.
  - intros v _. apply varint_size.
  - intros bs v rest. destruct (varint_de fuel bs) as [[v' r]|] eqn:E; simpl; [|done].
    destruct (Z.ltb_spec v' (2 ^ w)); [|done]. intros [= <- <-].
    apply varint_de_nonneg in E. lia.
  - intros bs v rest. destruct (varint_de fuel bs) as [[v' r]|] eqn:E; simpl; [|done].
    case_match; [|done]. intros [= <- <-]. by eapply varint_de_suffix.
Qed.

Lemma varint_is_sized w fuel : varint_sized (varint w fuel).
Proof.
  intros k v Hk Hv. simpl. rewrite <- (Z2Nat.id k) by lia.
  apply varint_ser_sized; [lia|]. by rewrite Z2Nat.id by lia.
Qed.

(** * Raw bytes, flags and slices *)

Definition raw (n : nat) : codec (list byte) := {|
  ser l := l;
  de bs := if (length bs <? n)%nat then None else Some (take n bs, drop n bs);
|}.

Lemma raw_law n : CodecLaw (raw n) (λ b, length b = n) (Z.of_nat n).
Proof.
  split; simpl.
  - intros b rest <-. rewrite length_app. rewrite (proj2 (Nat.ltb_ge _ _)) by lia.
    by rewrite take_app_length, drop_app_length.
  - intros b <-. unfold blen. lia.
  - intros bs b rest. destruct (Nat.ltb_spec (length bs) n); [done|]. intros [= <- <-].
    rewrite length_take. lia.
  - intros bs b rest. case_match; [done|]. intros [= <- <-]. exists (take n bs).
    by rewrite take_drop.
Qed.

Definition flag : codec bool := {|
  ser (b : bool) := [byte_of (if b then 1 else 0)];
  de bs := match bs with
           | b :: r => if byte_val b =? 0 then Some (false, r)
                       else if byte_val b =? 1 then Some (true, r) else None
           | [] => None
           end;
|}.

Lemma flag_law : CodecLaw flag (λ _, True) 1.
Proof.
  split; simpl; [by intros [] ? _|by intros [] _|done|].
  intros [|b bs] a rest; [done|]. repeat case_match; intros; simplify_eq; by exists [b].
Qed.

Definition u8_raw : codec Z := {|
  ser v := [byte_of v];
  de bs := match bs with b :: r => Some (byte_val b, r) | [] => None end;
|}.

Lemma u8_raw_law : CodecLaw u8_raw (in_u 8) 1.
Proof.
  split; simpl.
  - intros v rest Hv. by rewrite byte_val_of_small.
  - done.
  - intros [|b bs] v rest; [done|]. intros [= <- <-]. apply byte_val_range.
  - intros [|b bs] v rest; [done|]. intros [= <- <-]. by exists [b].
Qed.

(** A slice: its length, then the bytes. *)
Definition slice : codec (list byte) := {|
  ser b := varint_ser 10 (blen b) ++ b;
  de bs := '(n, r) ← de (varint 64 10) bs;
           if blen r <? n then None else Some (take (Z.to_nat n) r, drop (Z.to_nat n) r);
|}.

Lemma slice_sized k b : 1 ≤ k → blen b < 2 ^ (7 * k) → blen (ser slice b) ≤ k + blen b.
Proof.
  intros Hk Hb. cbn [slice ser]. rewrite blen_app. pose proof (blen_nonneg b).
  assert (blen (varint_ser 10 (blen b)) ≤ k); [|lia].
  apply (varint_is_sized 64 10 k (blen b)); lia.
Qed.

Lemma slice_law : CodecLaw slice (λ b, in_u 64 (blen b)) (2 ^ 64 + 10).
Proof.
  pose proof (varint_law 64 10 ltac:(lia) ltac:(lia)) as L.
  split; cbn [slice ser de].
  - intros b rest Hb.
    change (varint_ser 10 (blen b)) with (ser (varint 64 10) (blen b)).
    rewrite <- app_assoc, codec_rt by done. simpl.
    rewrite blen_app, (proj2 (Z.ltb_ge _ _)) by (pose proof (blen_nonneg rest); lia).
    unfold blen. rewrite Nat2Z.id. by rewrite take_app_length, drop_app_length.
  - intros b [??]. rewrite blen_app. pose proof (varint_size 10 (blen b)). lia.
  - intros bs b rest. destruct (de (varint 64 10) bs) as [[n r]|] eqn:E; simpl; [|done].
    destruct (Z.ltb_spec (blen r) n); [done|]. intros [= <- <-].
    apply codec_sound in E. unfold in_u, blen in *. rewrite length_take. lia.
  - intros bs b rest. destruct (de (varint 64 10) bs) as [[n r]|] eqn:E; simpl; [|done].
    case_match; [done|]. intros [= <- <-]. apply codec_suffix in E as [u ->].
    exists (u ++ take (Z.to_nat n) r). by rewrite <- app_assoc, take_drop.
Qed.

(** * The instance *)

#[export] Instance postcard_ref : Postcard := {|
  pc_u8 := u8_raw;
  pc_u16 := varint 16 3;
  pc_u32 := varint 32 5;
  pc_u64 := varint 64 10;
  pc_len := varint 64 10;
  pc_variant := varint 32 5;
  pc_bool := flag;
  pc_tag := flag;
  pc_bytes := slice;
  pc_str := codec_check utf8_valid slice;
  pc_array := raw;
|}.

#[export] Instance postcard_ref_laws : PostcardLaws postcard_ref.
Proof.
  split; simpl; try (apply varint_law; lia); try apply varint_is_sized; try apply flag_law.
  - apply u8_raw_law.
  - apply slice_law.
  - apply codec_check_law, slice_law.
  - apply raw_law.
  - apply slice_sized.
  - apply slice_sized.
Qed.
