(* ===== verification/Messages.v ===== *)
(** The control-protocol messages ([rustgo-protocol/src/message.rs]): wire constants,
    bounded containers, message identifiers and error codes, and one record per message.
    The codecs are in [MessageCodecs]. *)

From S2P Require Import Prelude Wire Postcard.
From Stdlib Require Import Strings.Byte.
From stdpp Require Import prelude list.

#[local] Open Scope Z_scope.
#[local] Open Scope codec_scope.

(** * Constants *)

Definition MAX_MANAGED_CONFIGURATION_BYTES : Z := 65536.
Definition MAX_CLIENT_NAME_BYTES : Z := 128.
Definition MAX_FINGERPRINT_BYTES : Z := 64.
Definition MAX_CHALLENGE_BYTES : Z := 64.
Definition MAX_SESSION_ID_BYTES : Z := 32.
Definition MAX_PUBLIC_KEY_BYTES : Z := 64.
Definition MAX_SIGNATURE_BYTES : Z := 128.
Definition MAX_BINDING_TOKEN_BYTES : Z := 64.
Definition MAX_TUNNELS : Z := 64.
Definition MAX_TUNNEL_NAME_BYTES : Z := 128.
Definition MAX_UDP_PAYLOAD_BYTES : Z := 65507.
Definition MAX_UDP_SESSIONS_PER_TUNNEL : Z := 1000000.
Definition MAX_UDP_QUEUE_CAPACITY : Z := 65536.
Definition UDP_METADATA_LEN : Z := 31.
Definition MAX_ERROR_DETAIL_BYTES : Z := 512.
Definition MAX_RENDEZVOUS_ENVELOPE_BYTES : Z := 16384.
Definition MAX_PEER_RELAY_FRAME_BYTES : Z := 65600.
Definition MAX_OBSERVATION_GRANT_BYTES : Z := 96.
Definition MAX_SERVER_NOTICE_BYTES : Z := 1024.
Definition MAX_ENROLLMENT_KEY_BYTES : Z := 512.
Definition MAX_ENROLLMENT_REQUEST_ID_BYTES : Z := 128.
Definition MAX_TELEMETRY_REPORT_BYTES : Z := 83.

(** * Bounded containers *)

Record BoundExceeded := { be_actual : Z; be_max : Z }.

(** [BoundedBytes::try_from], [BoundedString::try_from] and [BoundedVec::try_from]: the
    value itself when it is within the bound. *)
Definition bounded_try_from {A} (MAX : Z) (value : list A) : res BoundExceeded (list A) :=
  if MAX <? blen value then Err {| be_actual := blen value; be_max := MAX |} else Ok value.

Lemma bounded_try_from_Ok {A} MAX (v w : list A) :
  bounded_try_from MAX v = Ok w ↔ w = v ∧ blen v ≤ MAX.
Proof. unfold bounded_try_from. destruct (Z.ltb_spec MAX (blen v)); naive_solver lia. Qed.

Lemma bounded_try_from_no_panic {A} MAX (v : list A) : bounded_try_from MAX v ≠ Panic.
Proof. unfold bounded_try_from. by case_match. Qed.

(** * Identifiers and codes *)

Module MessageId.
Definition CLIENT_HELLO : Z := 1.
Definition SERVER_CHALLENGE : Z := 2.
Definition CLIENT_AUTHENTICATE : Z := 3.
Definition AUTH_RESULT : Z := 4.
Definition REGISTER_TUNNELS : Z := 5.
Definition TUNNEL_RESULTS : Z := 6.
Definition OPEN_TCP_STREAM : Z := 7.
Definition TCP_STREAM_READY : Z := 8.
Definition UDP_DATAGRAM : Z := 9.
Definition HEARTBEAT : Z := 10.
Definition ERROR : Z := 11.
Definition OPEN_UDP_CHANNEL : Z := 12.
Definition DATA_CHANNEL_BIND : Z := 13.
Definition UDP_SESSION_RETIRED : Z := 14.
Definition RENDEZVOUS_REQUEST : Z := 15.
Definition RENDEZVOUS_PROVIDER_DECISION : Z := 16.
Definition RENDEZVOUS_CANDIDATE_SET : Z := 17.
Definition RENDEZVOUS_CONNECTIVITY_RESULT : Z := 18.
Definition RENDEZVOUS_RELAY_REQUEST : Z := 19.
Definition RENDEZVOUS_CLOSE : Z := 20.
Definition RENDEZVOUS_ERROR : Z := 21.
Definition PEER_RELAY_FRAME : Z := 22.
Definition OBSERVATION_GRANT_REQUEST : Z := 23.
Definition OBSERVATION_GRANT : Z := 24.
Definition SERVER_NOTICE : Z := 25.
Definition PEER_IDENTITY_BINDING : Z := 26.
Definition PEER_IDENTITY_LOOKUP : Z := 27.
Definition RENDEZVOUS_CANDIDATE_SET_V2 : Z := 28.
Definition PUNCH_GRANT : Z := 29.
Definition TELEMETRY_REPORT : Z := 30.
Definition ENROLLMENT_REQUEST : Z := 31.
Definition ENROLLMENT_RESULT : Z := 32.
Definition MANAGED_CONFIG_REQUEST : Z := 33.
Definition MANAGED_CONFIG_SNAPSHOT : Z := 34.
Definition MANAGED_CONFIG_REPORT : Z := 35.
Definition MANAGED_CONFIG_UPDATE : Z := 36.
Definition MANAGED_CONFIG_UPDATE_RESULT : Z := 37.

(** [MessageId::max_payload]. *)
Definition max_payload (id : Z) : Z :=
  match id with
  | 1 => 256
  | 2 => 128
  | 3 => 256
  | 4 => 16
  | 5 => 32 * 1024
  | 6 => 8 * 1024
  | 7 => 160
  | 8 => 32
  | 9 => UDP_METADATA_LEN + MAX_UDP_PAYLOAD_BYTES
  | 10 => 16
  | 11 => 1024
  | 12 => 96
  | 13 => 384
  | 14 => 32
  | 15 | 16 | 17 | 18 | 19 | 20 | 21 => MAX_RENDEZVOUS_ENVELOPE_BYTES
  | 22 => MAX_PEER_RELAY_FRAME_BYTES
  | 23 => 0
  | 24 => MAX_OBSERVATION_GRANT_BYTES
  | 25 => MAX_SERVER_NOTICE_BYTES
  | 26 => 512
  | 27 => 256
  | 28 => MAX_RENDEZVOUS_ENVELOPE_BYTES
  | 29 => 160
  | 30 => MAX_TELEMETRY_REPORT_BYTES
  | 31 => 1024
  | 32 => 256
  | 33 => MAX_MANAGED_CONFIGURATION_BYTES + 3
  | 34 => MAX_MANAGED_CONFIGURATION_BYTES + 14
  | 35 => MAX_MANAGED_CONFIGURATION_BYTES + 13
  | 36 => MAX_MANAGED_CONFIGURATION_BYTES + 13
  | 37 => 1024 + 13
  | _ => 0
  end.

(** [TryFrom<u16> for MessageId]. *)
Definition try_from (value : Z) : res Z Z :=
  if (1 <=? value) && (value <=? 37) then Ok value else Err value.
End MessageId.

Module ProtocolErrorCode.
Definition UNSUPPORTED_VERSION : Z := 1.
Definition UNKNOWN_MESSAGE : Z := 2.
Definition INVALID_FRAME : Z := 3.
Definition PAYLOAD_TOO_LARGE : Z := 4.
Definition INVALID_STATE : Z := 5.
Definition AUTHENTICATION_FAILED : Z := 6.
Definition UNKNOWN_SESSION : Z := 7.
Definition TUNNEL_REJECTED : Z := 8.
Definition INCOMPATIBLE_HEARTBEAT : Z := 9.
Definition UDP_BIND_ADDRESS_REQUIRED : Z := 10.
Definition TUNNEL_PORT_IN_USE : Z := 11.
Definition TUNNEL_PERMISSION_DENIED : Z := 12.
Definition INTERNAL : Z := 255.

(** The values its [Deserialize] accepts: [1..=12 | 255]. *)
Definition known (value : Z) : bool :=
  ((1 <=? value) && (value <=? 12)) || (value =? 255).
End ProtocolErrorCode.

Module TunnelProtocol.
Definition TCP : Z := 1.
Definition UDP : Z := 2.
Definition known (value : Z) : bool := (value =? 1) || (value =? 2).
End TunnelProtocol.

Module DataChannelKind.
Definition TCP : Z := 1.
Definition UDP : Z := 2.
Definition known (value : Z) : bool := (value =? 1) || (value =? 2).
End DataChannelKind.

(** * Message types *)

Inductive SocketAddress :=
| V4 (octets : list byte) (port : Z)
| V6 (octets : list byte) (port : Z).

Record ClientHello := {
  ch_client_name : list byte;
  ch_fingerprint : list byte;
  ch_heartbeat_interval_secs : Z;
}.
Record ServerChallenge := { sc_challenge : list byte; sc_session_id : list byte }.
Record ClientAuthenticate := { ca_public_key : list byte; ca_signature : list byte }.
Record AuthResult := { ar_accepted : bool; ar_error : option Z }.
Record TunnelRegistration := {
  tr_tunnel_id : Z;
  tr_name : list byte;
  tr_protocol : Z;
  tr_remote_port : Z;
}.
Record RegisterTunnels := { rt_tunnels : list TunnelRegistration }.
Record TunnelResult := { tres_tunnel_id : Z; tres_accepted : bool; tres_error : option Z }.
Record TunnelResults := { tr_results : list TunnelResult }.
Record OpenTcpStream := {
  ots_tunnel_id : Z;
  ots_connection_id : Z;
  ots_peer : SocketAddress;
  ots_binding_token : list byte;
}.
Record OpenUdpChannel := {
  ouc_tunnel_id : Z;
  ouc_channel_id : Z;
  ouc_binding_token : list byte;
  ouc_max_sessions : Z;
  ouc_idle_timeout_millis : Z;
  ouc_max_payload_bytes : Z;
  ouc_queue_capacity : Z;
}.
Record UdpSessionRetired := { usr_tunnel_id : Z; usr_session_id : Z }.
Record DataChannelBind := {
  dcb_client_name : list byte;
  dcb_session_id : list byte;
  dcb_kind : Z;
  dcb_tunnel_id : Z;
  dcb_target_id : Z;
  dcb_binding_token : list byte;
}.
Record TcpStreamReady := { tsr_connection_id : Z; tsr_accepted : bool; tsr_error : option Z }.
Record UdpDatagram := {
  ud_tunnel_id : Z;
  ud_session_id : Z;
  ud_source : SocketAddress;
  ud_payload : list byte;
}.
Record Heartbeat := { hb_sequence : Z }.
Record ErrorMessage := { em_code : Z; em_detail : list byte }.
Record ServerNotice := {
  sn_session_id : list byte;
  sn_code : Z;
  sn_detail : list byte;
  sn_peer : option (list byte);
}.
Inductive ObservationGrantRequest := Build_ObservationGrantRequest.
Record PunchGrant := {
  pg_session_id : list byte;
  pg_generation : Z;
  pg_start_unix_millis : Z;
  pg_window_millis : Z;
  pg_cadence_millis : Z;
  pg_initiator_candidates_sha256 : list byte;
  pg_responder_candidates_sha256 : list byte;
  pg_token : list byte;
}.
Record PeerIdentityBinding := {
  pib_session_id : list byte;
  pib_peer : list byte;
  pib_public_key : list byte;
  pib_protocol : option Z;
  pib_peer_is_provider : bool;
  pib_expires_unix_secs : Z;
}.
Record PeerIdentityLookup := { pil_session_id : list byte; pil_peer : list byte }.
Record TelemetryReport := {
  tel_sampled_unix_millis : Z;
  tel_sequence : Z;
  tel_cpu_basis_points : Z;
  tel_memory_used_bytes : Z;
  tel_memory_total_bytes : Z;
  tel_disk_used_bytes : Z;
  tel_disk_total_bytes : Z;
  tel_tx_bytes_per_sec : Z;
  tel_rx_bytes_per_sec : Z;
}.
Record EnrollmentRequest := {
  er_protocol_version : Z;
  er_enrollment_key : list byte;
  er_public_key : list byte;
  er_request_id : list byte;
}.
Inductive EnrollmentErrorCode :=
| InvalidKey | Expired | AlreadyUsed | PurposeMismatch | AlreadyBound | Disabled
| PublicKeyConflict | CapacityReached | Unavailable | UnsupportedVersion
| PendingApproval | ApprovalRejected | ReplacementApprovalPending.
Record EnrollmentResultMessage := {
  erm_protocol_version : Z;
  erm_accepted : bool;
  erm_client_id : option (list byte);
  erm_revision : option Z;
  erm_error : option EnrollmentErrorCode;
}.
Record ManagedConfigRequest := { mcr_configuration : list byte }.
Record ManagedConfigSnapshot := {
  mcs_revision : Z;
  mcs_configuration : option (list byte);
}.
Record ManagedConfigReport := { mcrep_revision : Z; mcrep_results : list byte }.
Record ManagedConfigUpdate := { mcu_expected_revision : Z; mcu_configuration : list byte }.
Record ManagedConfigUpdateResult := { mcur_revision : Z; mcur_error : option (list byte) }.

Inductive Message :=
| MClientHello (m : ClientHello)
| MServerChallenge (m : ServerChallenge)
| MClientAuthenticate (m : ClientAuthenticate)
| MAuthResult (m : AuthResult)
| MRegisterTunnels (m : RegisterTunnels)
| MTunnelResults (m : TunnelResults)
| MOpenTcpStream (m : OpenTcpStream)
| MTcpStreamReady (m : TcpStreamReady)
| MUdpDatagram (m : UdpDatagram)
| MHeartbeat (m : Heartbeat)
| MError (m : ErrorMessage)
| MOpenUdpChannel (m : OpenUdpChannel)
| MDataChannelBind (m : DataChannelBind)
| MUdpSessionRetired (m : UdpSessionRetired)
| MRendezvousRequest (m : list byte)
| MRendezvousProviderDecision (m : list byte)
| MRendezvousCandidateSet (m : list byte)
| MRendezvousCandidateSetV2 (m : list byte)
| MRendezvousConnectivityResult (m : list byte)
| MRendezvousRelayRequest (m : list byte)
| MRendezvousClose (m : list byte)
| MRendezvousError (m : list byte)
| MPeerRelayFrame (m : list byte)
| MObservationGrantRequest (m : ObservationGrantRequest)
| MObservationGrant (m : list byte)
| MServerNotice (m : ServerNotice)
| MPeerIdentityBinding (m : PeerIdentityBinding)
| MPeerIdentityLookup (m : PeerIdentityLookup)
| MPunchGrant (m : PunchGrant)
| MTelemetryReport (m : TelemetryReport)
| MManagedConfigRequest (m : ManagedConfigRequest)
| MManagedConfigSnapshot (m : ManagedConfigSnapshot)
| MManagedConfigReport (m : ManagedConfigReport)
| MManagedConfigUpdate (m : ManagedConfigUpdate)
| MManagedConfigUpdateResult (m : ManagedConfigUpdateResult)
| MEnrollmentRequest (m : EnrollmentRequest)
| MEnrollmentResult (m : EnrollmentResultMessage).

(** [Message::id]. *)
Definition message_id (m : Message) : Z :=
  match m with
  | MClientHello _ => MessageId.CLIENT_HELLO
  | MServerChallenge _ => MessageId.SERVER_CHALLENGE
  | MClientAuthenticate _ => MessageId.CLIENT_AUTHENTICATE
  | MAuthResult _ => MessageId.AUTH_RESULT
  | MRegisterTunnels _ => MessageId.REGISTER_TUNNELS
  | MTunnelResults _ => MessageId.TUNNEL_RESULTS
  | MOpenTcpStream _ => MessageId.OPEN_TCP_STREAM
  | MTcpStreamReady _ => MessageId.TCP_STREAM_READY
  | MUdpDatagram _ => MessageId.UDP_DATAGRAM
  | MHeartbeat _ => MessageId.HEARTBEAT
  | MError _ => MessageId.ERROR
  | MOpenUdpChannel _ => MessageId.OPEN_UDP_CHANNEL
  | MDataChannelBind _ => MessageId.DATA_CHANNEL_BIND
  | MUdpSessionRetired _ => MessageId.UDP_SESSION_RETIRED
  | MRendezvousRequest _ => MessageId.RENDEZVOUS_REQUEST
  | MRendezvousProviderDecision _ => MessageId.RENDEZVOUS_PROVIDER_DECISION
  | MRendezvousCandidateSet _ => MessageId.RENDEZVOUS_CANDIDATE_SET
  | MRendezvousCandidateSetV2 _ => MessageId.RENDEZVOUS_CANDIDATE_SET_V2
  | MRendezvousConnectivityResult _ => MessageId.RENDEZVOUS_CONNECTIVITY_RESULT
  | MRendezvousRelayRequest _ => MessageId.RENDEZVOUS_RELAY_REQUEST
  | MRendezvousClose _ => MessageId.RENDEZVOUS_CLOSE
  | MRendezvousError _ => MessageId.RENDEZVOUS_ERROR
  | MPeerRelayFrame _ => MessageId.PEER_RELAY_FRAME
  | MObservationGrantRequest _ => MessageId.OBSERVATION_GRANT_REQUEST
  | MObservationGrant _ => MessageId.OBSERVATION_GRANT
  | MServerNotice _ => MessageId.SERVER_NOTICE
  | MPeerIdentityBinding _ => MessageId.PEER_IDENTITY_BINDING
  | MPeerIdentityLookup _ => MessageId.PEER_IDENTITY_LOOKUP
  | MPunchGrant _ => MessageId.PUNCH_GRANT
  | MTelemetryReport _ => MessageId.TELEMETRY_REPORT
  | MManagedConfigRequest _ => MessageId.MANAGED_CONFIG_REQUEST
  | MManagedConfigSnapshot _ => MessageId.MANAGED_CONFIG_SNAPSHOT
  | MManagedConfigReport _ => MessageId.MANAGED_CONFIG_REPORT
  | MManagedConfigUpdate _ => MessageId.MANAGED_CONFIG_UPDATE
  | MManagedConfigUpdateResult _ => MessageId.MANAGED_CONFIG_UPDATE_RESULT
  | MEnrollmentRequest _ => MessageId.ENROLLMENT_REQUEST
  | MEnrollmentResult _ => MessageId.ENROLLMENT_RESULT
  end.

(** [OpenUdpChannel::has_valid_limits]. *)
Definition has_valid_limits (c : OpenUdpChannel) : bool :=
  (0 <? ouc_tunnel_id c)
  && (0 <? ouc_channel_id c)
  && (0 <? ouc_max_sessions c)
  && (ouc_max_sessions c <=? MAX_UDP_SESSIONS_PER_TUNNEL)
  && (0 <? ouc_idle_timeout_millis c)
  && (0 <? ouc_max_payload_bytes c)
  && (ouc_max_payload_bytes c <=? MAX_UDP_PAYLOAD_BYTES)
  && (0 <? ouc_queue_capacity c)
  && (ouc_queue_capacity c <=? MAX_UDP_QUEUE_CAPACITY).

(** The check of [Deserialize for UdpSessionRetired]. *)
Definition udp_session_retired_valid (m : UdpSessionRetired) : bool :=
  negb ((usr_tunnel_id m =? 0) || (usr_session_id m =? 0)).
