(* ===== verification/MessageCodecs.v ===== *)
(** The (de)serializers of the control-protocol messages: the derived ones field by field
    in declaration order, the manual ones with their checks; the type invariant of every
    message; and the law of every codec with the largest encoding it can produce. *)

From S2P Require Import Prelude Wire Postcard Messages.
From Stdlib Require Import Strings.Byte.
From stdpp Require Import prelude list.

#[local] Open Scope Z_scope.
#[local] Open Scope codec_scope.

(** * Codecs *)

Section codecs.
Context `{P : Postcard}.

Definition protocol_error_code_codec : codec Z := codec_check ProtocolErrorCode.known pc_u16.
Definition tunnel_protocol_codec : codec Z := codec_check TunnelProtocol.known pc_u8.
Definition data_channel_kind_codec : codec Z := codec_check DataChannelKind.known pc_u8.

Definition socket_address_codec : codec SocketAddress := {|
  ser a := match a with
           | V4 octets port => ser pc_variant 0 ++ ser (pc_array 4 ⊗ pc_u16) (octets, port)
           | V6 octets port => ser pc_variant 1 ++ ser (pc_array 16 ⊗ pc_u16) (octets, port)
           end;
  de bs := '(i, r) ← de pc_variant bs;
           if i =? 0 then '((o, p), r') ← de (pc_array 4 ⊗ pc_u16) r; Some (V4 o p, r')
           else if i =? 1 then '((o, p), r') ← de (pc_array 16 ⊗ pc_u16) r; Some (V6 o p, r')
           else None;
|}.

Definition enrollment_error_index (e : EnrollmentErrorCode) : Z :=
  match e with
  | InvalidKey => 0 | Expired => 1 | AlreadyUsed => 2 | PurposeMismatch => 3
  | AlreadyBound => 4 | Disabled => 5 | PublicKeyConflict => 6 | CapacityReached => 7
  | Unavailable => 8 | UnsupportedVersion => 9 | PendingApproval => 10
  | ApprovalRejected => 11 | ReplacementApprovalPending => 12
  end.
Definition enrollment_error_variant (i : Z) : option EnrollmentErrorCode :=
  match i with
  | 0 => Some InvalidKey | 1 => Some Expired | 2 => Some AlreadyUsed
  | 3 => Some PurposeMismatch | 4 => Some AlreadyBound | 5 => Some Disabled
  | 6 => Some PublicKeyConflict | 7 => Some CapacityReached | 8 => Some Unavailable
  | 9 => Some UnsupportedVersion | 10 => Some PendingApproval | 11 => Some ApprovalRejected
  | 12 => Some ReplacementApprovalPending | _ => None
  end.
Definition enrollment_error_codec : codec EnrollmentErrorCode :=
  codec_enum 13 enrollment_error_index enrollment_error_variant.

Definition client_hello_codec : codec ClientHello :=
  codec_struct
    (λ m, (ch_client_name m, ch_fingerprint m, ch_heartbeat_interval_secs m))
    (λ '(a, b, c), Build_ClientHello a b c)
    (bounded_str MAX_CLIENT_NAME_BYTES ⊗ bounded_bytes MAX_FINGERPRINT_BYTES ⊗ pc_u32).

Definition server_challenge_codec : codec ServerChallenge :=
  codec_struct
    (λ m, (sc_challenge m, sc_session_id m)) (λ '(a, b), Build_ServerChallenge a b)
    (bounded_bytes MAX_CHALLENGE_BYTES ⊗ bounded_bytes MAX_SESSION_ID_BYTES).

Definition client_authenticate_codec : codec ClientAuthenticate :=
  codec_struct
    (λ m, (ca_public_key m, ca_signature m)) (λ '(a, b), Build_ClientAuthenticate a b)
    (bounded_bytes MAX_PUBLIC_KEY_BYTES ⊗ bounded_bytes MAX_SIGNATURE_BYTES).

Definition auth_result_codec : codec AuthResult :=
  codec_struct
    (λ m, (ar_accepted m, ar_error m)) (λ '(a, b), Build_AuthResult a b)
    (pc_bool ⊗ opt protocol_error_code_codec).

Definition tunnel_registration_codec : codec TunnelRegistration :=
  codec_struct
    (λ m, (tr_tunnel_id m, tr_name m, tr_protocol m, tr_remote_port m))
    (λ '(a, b, c, d), Build_TunnelRegistration a b c d)
    (pc_u32 ⊗ bounded_str MAX_TUNNEL_NAME_BYTES ⊗ tunnel_protocol_codec ⊗ pc_u16).

Definition register_tunnels_codec : codec RegisterTunnels :=
  codec_struct rt_tunnels Build_RegisterTunnels
    (bounded_vec MAX_TUNNELS tunnel_registration_codec).

Definition tunnel_result_codec : codec TunnelResult :=
  codec_struct
    (λ m, (tres_tunnel_id m, tres_accepted m, tres_error m))
    (λ '(a, b, c), Build_TunnelResult a b c)
    (pc_u32 ⊗ pc_bool ⊗ opt protocol_error_code_codec).

Definition tunnel_results_codec : codec TunnelResults :=
  codec_struct tr_results Build_TunnelResults (bounded_vec MAX_TUNNELS tunnel_result_codec).

Definition open_tcp_stream_codec : codec OpenTcpStream :=
  codec_struct
    (λ m, (ots_tunnel_id m, ots_connection_id m, ots_peer m, ots_binding_token m))
    (λ '(a, b, c, d), Build_OpenTcpStream a b c d)
    (pc_u32 ⊗ pc_u64 ⊗ socket_address_codec ⊗ bounded_bytes MAX_BINDING_TOKEN_BYTES).

Definition open_udp_channel_codec : codec OpenUdpChannel :=
  codec_check has_valid_limits
    (codec_struct
       (λ m, (ouc_tunnel_id m, ouc_channel_id m, ouc_binding_token m, ouc_max_sessions m,
              ouc_idle_timeout_millis m, ouc_max_payload_bytes m, ouc_queue_capacity m))
       (λ '(a, b, c, d, e, f, g), Build_OpenUdpChannel a b c d e f g)
       (pc_u32 ⊗ pc_u64 ⊗ bounded_bytes MAX_BINDING_TOKEN_BYTES ⊗ pc_u32 ⊗ pc_u32 ⊗ pc_u32
          ⊗ pc_u32)).

Definition udp_session_retired_codec : codec UdpSessionRetired :=
  codec_check udp_session_retired_valid
    (codec_struct
       (λ m, (usr_tunnel_id m, usr_session_id m)) (λ '(a, b), Build_UdpSessionRetired a b)
       (pc_u32 ⊗ pc_u64)).

Definition data_channel_bind_codec : codec DataChannelBind :=
  codec_struct
    (λ m, (dcb_client_name m, dcb_session_id m, dcb_kind m, dcb_tunnel_id m,
           dcb_target_id m, dcb_binding_token m))
    (λ '(a, b, c, d, e, f), Build_DataChannelBind a b c d e f)
    (bounded_str MAX_CLIENT_NAME_BYTES ⊗ bounded_bytes MAX_SESSION_ID_BYTES
       ⊗ data_channel_kind_codec ⊗ pc_u32 ⊗ pc_u64 ⊗ bounded_bytes MAX_BINDING_TOKEN_BYTES).

Definition tcp_stream_ready_codec : codec TcpStreamReady :=
  codec_struct
    (λ m, (tsr_connection_id m, tsr_accepted m, tsr_error m))
    (λ '(a, b, c), Build_TcpStreamReady a b c)
    (pc_u64 ⊗ pc_bool ⊗ opt protocol_error_code_codec).

Definition heartbeat_codec : codec Heartbeat :=
  codec_struct hb_sequence Build_Heartbeat pc_u64.

Definition error_message_codec : codec ErrorMessage :=
  codec_struct
    (λ m, (em_code m, em_detail m)) (λ '(a, b), Build_ErrorMessage a b)
    (protocol_error_code_codec ⊗ bounded_str MAX_ERROR_DETAIL_BYTES).

Definition server_notice_codec : codec ServerNotice :=
  codec_struct
    (λ m, (sn_session_id m, sn_code m, sn_detail m, sn_peer m))
    (λ '(a, b, c, d), Build_ServerNotice a b c d)
    (pc_array 32 ⊗ pc_u16 ⊗ bounded_str MAX_ERROR_DETAIL_BYTES
       ⊗ opt (bounded_str MAX_CLIENT_NAME_BYTES)).

Definition observation_grant_request_codec : codec ObservationGrantRequest :=
  codec_struct (λ _, tt) (λ _, Build_ObservationGrantRequest) codec_unit.

Definition punch_grant_codec : codec PunchGrant :=
  codec_struct
    (λ m, (pg_session_id m, pg_generation m, pg_start_unix_millis m, pg_window_millis m,
           pg_cadence_millis m, pg_initiator_candidates_sha256 m,
           pg_responder_candidates_sha256 m, pg_token m))
    (λ '(a, b, c, d, e, f, g, h), Build_PunchGrant a b c d e f g h)
    (pc_array 32 ⊗ pc_u64 ⊗ pc_u64 ⊗ pc_u16 ⊗ pc_u16 ⊗ pc_array 32 ⊗ pc_array 32
       ⊗ pc_array 32).

Definition peer_identity_binding_codec : codec PeerIdentityBinding :=
  codec_struct
    (λ m, (pib_session_id m, pib_peer m, pib_public_key m, pib_protocol m,
           pib_peer_is_provider m, pib_expires_unix_secs m))
    (λ '(a, b, c, d, e, f), Build_PeerIdentityBinding a b c d e f)
    (pc_array 32 ⊗ bounded_str MAX_CLIENT_NAME_BYTES ⊗ bounded_str MAX_PUBLIC_KEY_BYTES
       ⊗ opt tunnel_protocol_codec ⊗ pc_bool ⊗ pc_u64).

Definition peer_identity_lookup_codec : codec PeerIdentityLookup :=
  codec_struct
    (λ m, (pil_session_id m, pil_peer m)) (λ '(a, b), Build_PeerIdentityLookup a b)
    (pc_array 32 ⊗ bounded_str MAX_CLIENT_NAME_BYTES).

Definition telemetry_report_codec : codec TelemetryReport :=
  codec_struct
    (λ m, (tel_sampled_unix_millis m, tel_sequence m, tel_cpu_basis_points m,
           tel_memory_used_bytes m, tel_memory_total_bytes m, tel_disk_used_bytes m,
           tel_disk_total_bytes m, tel_tx_bytes_per_sec m, tel_rx_bytes_per_sec m))
    (λ '(a, b, c, d, e, f, g, h, i), Build_TelemetryReport a b c d e f g h i)
    (pc_u64 ⊗ pc_u64 ⊗ pc_u16 ⊗ pc_u64 ⊗ pc_u64 ⊗ pc_u64 ⊗ pc_u64 ⊗ pc_u64 ⊗ pc_u64).

Definition enrollment_request_codec : codec EnrollmentRequest :=
  codec_struct
    (λ m, (er_protocol_version m, er_enrollment_key m, er_public_key m, er_request_id m))
    (λ '(a, b, c, d), Build_EnrollmentRequest a b c d)
    (pc_u16 ⊗ bounded_str MAX_ENROLLMENT_KEY_BYTES ⊗ bounded_bytes MAX_PUBLIC_KEY_BYTES
       ⊗ bounded_str MAX_ENROLLMENT_REQUEST_ID_BYTES).

Definition enrollment_result_codec : codec EnrollmentResultMessage :=
  codec_struct
    (λ m, (erm_protocol_version m, erm_accepted m, erm_client_id m, erm_revision m,
           erm_error m))
    (λ '(a, b, c, d, e), Build_EnrollmentResultMessage a b c d e)
    (pc_u16 ⊗ pc_bool ⊗ opt (bounded_str MAX_CLIENT_NAME_BYTES) ⊗ opt pc_u64
       ⊗ opt enrollment_error_codec).

Definition managed_config_request_codec : codec ManagedConfigRequest :=
  codec_struct mcr_configuration Build_ManagedConfigRequest
    (bounded_bytes MAX_MANAGED_CONFIGURATION_BYTES).

Definition managed_config_snapshot_codec : codec ManagedConfigSnapshot :=
  codec_struct
    (λ m, (mcs_revision m, mcs_configuration m)) (λ '(a, b), Build_ManagedConfigSnapshot a b)
    (pc_u64 ⊗ opt (bounded_bytes MAX_MANAGED_CONFIGURATION_BYTES)).

Definition managed_config_report_codec : codec ManagedConfigReport :=
  codec_struct
    (λ m, (mcrep_revision m, mcrep_results m)) (λ '(a, b), Build_ManagedConfigReport a b)
    (pc_u64 ⊗ bounded_bytes MAX_MANAGED_CONFIGURATION_BYTES).

Definition managed_config_update_codec : codec ManagedConfigUpdate :=
  codec_struct
    (λ m, (mcu_expected_revision m, mcu_configuration m))
    (λ '(a, b), Build_ManagedConfigUpdate a b)
    (pc_u64 ⊗ bounded_bytes MAX_MANAGED_CONFIGURATION_BYTES).

Definition managed_config_update_result_codec : codec ManagedConfigUpdateResult :=
  codec_struct
    (λ m, (mcur_revision m, mcur_error m)) (λ '(a, b), Build_ManagedConfigUpdateResult a b)
    (pc_u64 ⊗ opt (bounded_str 1024)).
End codecs.

(** * Type invariants *)

(** The values the Rust types can hold: integers within their width, strings that are
    UTF-8, containers within their bound, arrays of their length, codes and protocols
    constructed by their own constructors. *)

Definition opt_wf {A} (wf : A → Prop) (o : option A) : Prop :=
  match o with None => True | Some a => wf a end.

Definition error_code_wf (c : Z) : Prop := in_u 16 c ∧ ProtocolErrorCode.known c = true.
Definition tunnel_protocol_wf (p : Z) : Prop := in_u 8 p ∧ TunnelProtocol.known p = true.
Definition channel_kind_wf (k : Z) : Prop := in_u 8 k ∧ DataChannelKind.known k = true.
Definition socket_address_wf (a : SocketAddress) : Prop :=
  match a with
  | V4 octets port => length octets = 4%nat ∧ in_u 16 port
  | V6 octets port => length octets = 16%nat ∧ in_u 16 port
  end.

Definition client_hello_wf (m : ClientHello) : Prop :=
  str_wf MAX_CLIENT_NAME_BYTES (ch_client_name m)
  ∧ bytes_wf MAX_FINGERPRINT_BYTES (ch_fingerprint m)
  ∧ in_u 32 (ch_heartbeat_interval_secs m).
Definition server_challenge_wf (m : ServerChallenge) : Prop :=
  bytes_wf MAX_CHALLENGE_BYTES (sc_challenge m)
  ∧ bytes_wf MAX_SESSION_ID_BYTES (sc_session_id m).
Definition client_authenticate_wf (m : ClientAuthenticate) : Prop :=
  bytes_wf MAX_PUBLIC_KEY_BYTES (ca_public_key m)
  ∧ bytes_wf MAX_SIGNATURE_BYTES (ca_signature m).
Definition auth_result_wf (m : AuthResult) : Prop := opt_wf error_code_wf (ar_error m).
Definition tunnel_registration_wf (m : TunnelRegistration) : Prop :=
  in_u 32 (tr_tunnel_id m)
  ∧ str_wf MAX_TUNNEL_NAME_BYTES (tr_name m)
  ∧ tunnel_protocol_wf (tr_protocol m)
  ∧ in_u 16 (tr_remote_port m).
Definition register_tunnels_wf (m : RegisterTunnels) : Prop :=
  blen (rt_tunnels m) ≤ MAX_TUNNELS ∧ Forall tunnel_registration_wf (rt_tunnels m).
Definition tunnel_result_wf (m : TunnelResult) : Prop :=
  in_u 32 (tres_tunnel_id m) ∧ opt_wf error_code_wf (tres_error m).
Definition tunnel_results_wf (m : TunnelResults) : Prop :=
  blen (tr_results m) ≤ MAX_TUNNELS ∧ Forall tunnel_result_wf (tr_results m).
Definition open_tcp_stream_wf (m : OpenTcpStream) : Prop :=
  in_u 32 (ots_tunnel_id m)
  ∧ in_u 64 (ots_connection_id m)
  ∧ socket_address_wf (ots_peer m)
  ∧ bytes_wf MAX_BINDING_TOKEN_BYTES (ots_binding_token m).
Definition open_udp_channel_wf (m : OpenUdpChannel) : Prop :=
  in_u 32 (ouc_tunnel_id m)
  ∧ in_u 64 (ouc_channel_id m)
  ∧ bytes_wf MAX_BINDING_TOKEN_BYTES (ouc_binding_token m)
  ∧ in_u 32 (ouc_max_sessions m)
  ∧ in_u 32 (ouc_idle_timeout_millis m)
  ∧ in_u 32 (ouc_max_payload_bytes m)
  ∧ in_u 32 (ouc_queue_capacity m)
  ∧ has_valid_limits m = true.
Definition udp_session_retired_wf (m : UdpSessionRetired) : Prop :=
  in_u 32 (usr_tunnel_id m) ∧ in_u 64 (usr_session_id m)
  ∧ udp_session_retired_valid m = true.
Definition data_channel_bind_wf (m : DataChannelBind) : Prop :=
  str_wf MAX_CLIENT_NAME_BYTES (dcb_client_name m)
  ∧ bytes_wf MAX_SESSION_ID_BYTES (dcb_session_id m)
  ∧ channel_kind_wf (dcb_kind m)
  ∧ in_u 32 (dcb_tunnel_id m)
  ∧ in_u 64 (dcb_target_id m)
  ∧ bytes_wf MAX_BINDING_TOKEN_BYTES (dcb_binding_token m).
Definition tcp_stream_ready_wf (m : TcpStreamReady) : Prop :=
  in_u 64 (tsr_connection_id m) ∧ opt_wf error_code_wf (tsr_error m).
Definition udp_datagram_wf (m : UdpDatagram) : Prop :=
  0 < ud_tunnel_id m < 2 ^ 32
  ∧ 0 < ud_session_id m < 2 ^ 64
  ∧ socket_address_wf (ud_source m)
  ∧ bytes_wf MAX_UDP_PAYLOAD_BYTES (ud_payload m).
Definition heartbeat_wf (m : Heartbeat) : Prop := in_u 64 (hb_sequence m).
Definition error_message_wf (m : ErrorMessage) : Prop :=
  error_code_wf (em_code m) ∧ str_wf MAX_ERROR_DETAIL_BYTES (em_detail m).
Definition server_notice_wf (m : ServerNotice) : Prop :=
  length (sn_session_id m) = 32%nat
  ∧ in_u 16 (sn_code m)
  ∧ str_wf MAX_ERROR_DETAIL_BYTES (sn_detail m)
  ∧ opt_wf (str_wf MAX_CLIENT_NAME_BYTES) (sn_peer m).
Definition observation_grant_request_wf (m : ObservationGrantRequest) : Prop := True.
Definition punch_grant_wf (m : PunchGrant) : Prop :=
  length (pg_session_id m) = 32%nat
  ∧ in_u 64 (pg_generation m)
  ∧ in_u 64 (pg_start_unix_millis m)
  ∧ in_u 16 (pg_window_millis m)
  ∧ in_u 16 (pg_cadence_millis m)
  ∧ length (pg_initiator_candidates_sha256 m) = 32%nat
  ∧ length (pg_responder_candidates_sha256 m) = 32%nat
  ∧ length (pg_token m) = 32%nat.
Definition peer_identity_binding_wf (m : PeerIdentityBinding) : Prop :=
  length (pib_session_id m) = 32%nat
  ∧ str_wf MAX_CLIENT_NAME_BYTES (pib_peer m)
  ∧ str_wf MAX_PUBLIC_KEY_BYTES (pib_public_key m)
  ∧ opt_wf tunnel_protocol_wf (pib_protocol m)
  ∧ in_u 64 (pib_expires_unix_secs m).
Definition peer_identity_lookup_wf (m : PeerIdentityLookup) : Prop :=
  length (pil_session_id m) = 32%nat ∧ str_wf MAX_CLIENT_NAME_BYTES (pil_peer m).
Definition telemetry_report_wf (m : TelemetryReport) : Prop :=
  in_u 64 (tel_sampled_unix_millis m)
  ∧ in_u 64 (tel_sequence m)
  ∧ in_u 16 (tel_cpu_basis_points m)
  ∧ in_u 64 (tel_memory_used_bytes m)
  ∧ in_u 64 (tel_memory_total_bytes m)
  ∧ in_u 64 (tel_disk_used_bytes m)
  ∧ in_u 64 (tel_disk_total_bytes m)
  ∧ in_u 64 (tel_tx_bytes_per_sec m)
  ∧ in_u 64 (tel_rx_bytes_per_sec m).
Definition enrollment_request_wf (m : EnrollmentRequest) : Prop :=
  in_u 16 (er_protocol_version m)
  ∧ str_wf MAX_ENROLLMENT_KEY_BYTES (er_enrollment_key m)
  ∧ bytes_wf MAX_PUBLIC_KEY_BYTES (er_public_key m)
  ∧ str_wf MAX_ENROLLMENT_REQUEST_ID_BYTES (er_request_id m).
Definition enrollment_result_wf (m : EnrollmentResultMessage) : Prop :=
  in_u 16 (erm_protocol_version m)
  ∧ opt_wf (str_wf MAX_CLIENT_NAME_BYTES) (erm_client_id m)
  ∧ opt_wf (in_u 64) (erm_revision m).
Definition managed_config_request_wf (m : ManagedConfigRequest) : Prop :=
  bytes_wf MAX_MANAGED_CONFIGURATION_BYTES (mcr_configuration m).
Definition managed_config_snapshot_wf (m : ManagedConfigSnapshot) : Prop :=
  in_u 64 (mcs_revision m)
  ∧ opt_wf (bytes_wf MAX_MANAGED_CONFIGURATION_BYTES) (mcs_configuration m).
Definition managed_config_report_wf (m : ManagedConfigReport) : Prop :=
  in_u 64 (mcrep_revision m) ∧ bytes_wf MAX_MANAGED_CONFIGURATION_BYTES (mcrep_results m).
Definition managed_config_update_wf (m : ManagedConfigUpdate) : Prop :=
  in_u 64 (mcu_expected_revision m)
  ∧ bytes_wf MAX_MANAGED_CONFIGURATION_BYTES (mcu_configuration m).
Definition managed_config_update_result_wf (m : ManagedConfigUpdateResult) : Prop :=
  in_u 64 (mcur_revision m) ∧ opt_wf (str_wf 1024) (mcur_error m).

Definition message_wf (m : Message) : Prop :=
  match m with
  | MClientHello m => client_hello_wf m
  | MServerChallenge m => server_challenge_wf m
  | MClientAuthenticate m => client_authenticate_wf m
  | MAuthResult m => auth_result_wf m
  | MRegisterTunnels m => register_tunnels_wf m
  | MTunnelResults m => tunnel_results_wf m
  | MOpenTcpStream m => open_tcp_stream_wf m
  | MTcpStreamReady m => tcp_stream_ready_wf m
  | MUdpDatagram m => udp_datagram_wf m
  | MHeartbeat m => heartbeat_wf m
  | MError m => error_message_wf m
  | MOpenUdpChannel m => open_udp_channel_wf m
  | MDataChannelBind m => data_channel_bind_wf m
  | MUdpSessionRetired m => udp_session_retired_wf m
  | MRendezvousRequest m | MRendezvousProviderDecision m | MRendezvousCandidateSet m
  | MRendezvousCandidateSetV2 m | MRendezvousConnectivityResult m
  | MRendezvousRelayRequest m | MRendezvousClose m | MRendezvousError m =>
    bytes_wf MAX_RENDEZVOUS_ENVELOPE_BYTES m
  | MPeerRelayFrame m => bytes_wf MAX_PEER_RELAY_FRAME_BYTES m
  | MObservationGrantRequest m => observation_grant_request_wf m
  | MObservationGrant m => bytes_wf MAX_OBSERVATION_GRANT_BYTES m
  | MServerNotice m => server_notice_wf m
  | MPeerIdentityBinding m => peer_identity_binding_wf m
  | MPeerIdentityLookup m => peer_identity_lookup_wf m
  | MPunchGrant m => punch_grant_wf m
  | MTelemetryReport m => telemetry_report_wf m
  | MManagedConfigRequest m => managed_config_request_wf m
  | MManagedConfigSnapshot m => managed_config_snapshot_wf m
  | MManagedConfigReport m => managed_config_report_wf m
  | MManagedConfigUpdate m => managed_config_update_wf m
  | MManagedConfigUpdateResult m => managed_config_update_result_wf m
  | MEnrollmentRequest m => enrollment_request_wf m
  | MEnrollmentResult m => enrollment_result_wf m
  end.

(** * Laws *)

Section laws.
Context `{P : Postcard} `{!PostcardLaws P}.

#[export] Instance protocol_error_code_law :
  CodecLaw protocol_error_code_codec error_code_wf 3.
Proof. apply codec_check_law, law_u16. Qed.
#[export] Instance tunnel_protocol_law : CodecLaw tunnel_protocol_codec tunnel_protocol_wf 1.
Proof. apply codec_check_law, law_u8. Qed.
#[export] Instance data_channel_kind_law : CodecLaw data_channel_kind_codec channel_kind_wf 1.
Proof. apply codec_check_law, law_u8. Qed.
#[export] Instance enrollment_error_law : CodecLaw enrollment_error_codec (λ _, True) 1.
Proof. apply codec_enum_law; [lia|by intros []|by intros []]. Qed.

#[export] Instance socket_address_law : CodecLaw socket_address_codec socket_address_wf 20.
Proof.
  pose proof (codec_pair_law _ _ _ _ _ _ (law_array 4) law_u16) as L4.
  pose proof (codec_pair_law _ _ _ _ _ _ (law_array 16) law_u16) as L16.
  pose proof law_variant as Lv. split; cbn [socket_address_codec ser de].
  - intros [o p|o p] rest Ha; rewrite <- app_assoc, codec_rt by done; cbn [mbind option_bind Z.eqb];
      by rewrite codec_rt.
  - intros [o p|o p] [Ho Hp]; rewrite blen_app.
    + pose proof (law_variant_sized 1 0). pose proof (codec_size (CodecLaw := L4) (o, p) (conj Ho Hp)). lia.
    + pose proof (law_variant_sized 1 1). pose proof (codec_size (CodecLaw := L16) (o, p) (conj Ho Hp)). lia.
  - intros bs a rest. destruct (de pc_variant bs) as [[i r]|]; cbn [mbind option_bind]; [|done].
    repeat case_match; try done; cbn [mbind option_bind].
    + destruct (de (pc_array 4 ⊗ pc_u16) r) as [[[o p] r']|] eqn:E; [|done].
      intros [= <- <-]. apply (codec_sound (CodecLaw := L4) _ _ _ E).
    + destruct (de (pc_array 16 ⊗ pc_u16) r) as [[[o p] r']|] eqn:E; [|done].
      intros [= <- <-]. apply (codec_sound (CodecLaw := L16) _ _ _ E).
  - intros bs a rest. destruct (de pc_variant bs) as [[i r]|] eqn:Ev; cbn [mbind option_bind]; [|done].
    apply codec_suffix in Ev as [u ->]. repeat case_match; try done; cbn [mbind option_bind].
    + destruct (de (pc_array 4 ⊗ pc_u16) r) as [[[o p] r']|] eqn:E; [|done].
      intros [= <- <-]. apply codec_suffix in E as [u' ->]. exists (u ++ u'). by rewrite app_assoc.
    + destruct (de (pc_array 16 ⊗ pc_u16) r) as [[[o p] r']|] eqn:E; [|done].
      intros [= <- <-]. apply codec_suffix in E as [u' ->]. exists (u ++ u'). by rewrite app_assoc.
Qed.

#[export] Instance client_hello_law : CodecLaw client_hello_codec client_hello_wf 200.
Proof. unfold client_hello_codec. struct_law client_hello_wf. Qed.
#[export] Instance server_challenge_law : CodecLaw server_challenge_codec server_challenge_wf 98.
Proof. unfold server_challenge_codec. struct_law server_challenge_wf. Qed.
#[export] Instance client_authenticate_law : CodecLaw client_authenticate_codec client_authenticate_wf 195.
Proof. unfold client_authenticate_codec. struct_law client_authenticate_wf. Qed.
#[export] Instance auth_result_law : CodecLaw auth_result_codec auth_result_wf 5.
Proof. unfold auth_result_codec. struct_law auth_result_wf. Qed.
#[export] Instance tunnel_registration_law : CodecLaw tunnel_registration_codec tunnel_registration_wf 139.
Proof. unfold tunnel_registration_codec. struct_law tunnel_registration_wf. Qed.
#[export] Instance register_tunnels_law : CodecLaw register_tunnels_codec register_tunnels_wf 8897.
Proof. unfold register_tunnels_codec. struct_law register_tunnels_wf. Qed.
#[export] Instance tunnel_result_law : CodecLaw tunnel_result_codec tunnel_result_wf 10.
Proof. unfold tunnel_result_codec. struct_law tunnel_result_wf. Qed.
#[export] Instance tunnel_results_law : CodecLaw tunnel_results_codec tunnel_results_wf 641.
Proof. unfold tunnel_results_codec. struct_law tunnel_results_wf. Qed.
#[export] Instance open_tcp_stream_law : CodecLaw open_tcp_stream_codec open_tcp_stream_wf 100.
Proof. unfold open_tcp_stream_codec. struct_law open_tcp_stream_wf. Qed.
#[export] Instance data_channel_bind_law : CodecLaw data_channel_bind_codec data_channel_bind_wf 244.
Proof. unfold data_channel_bind_codec. struct_law data_channel_bind_wf. Qed.
#[export] Instance tcp_stream_ready_law : CodecLaw tcp_stream_ready_codec tcp_stream_ready_wf 15.
Proof. unfold tcp_stream_ready_codec. struct_law tcp_stream_ready_wf. Qed.
#[export] Instance udp_session_retired_law : CodecLaw udp_session_retired_codec udp_session_retired_wf 15.
Proof. unfold udp_session_retired_codec. struct_law udp_session_retired_wf. Qed.
#[export] Instance heartbeat_law : CodecLaw heartbeat_codec heartbeat_wf 10.
Proof. unfold heartbeat_codec. struct_law heartbeat_wf. Qed.
#[export] Instance error_message_law : CodecLaw error_message_codec error_message_wf 517.
Proof. unfold error_message_codec. struct_law error_message_wf. Qed.
#[export] Instance server_notice_law : CodecLaw server_notice_codec server_notice_wf 680.
Proof. unfold server_notice_codec. struct_law server_notice_wf. Qed.
#[export] Instance observation_grant_request_law : CodecLaw observation_grant_request_codec observation_grant_request_wf 0.
Proof. unfold observation_grant_request_codec. struct_law observation_grant_request_wf. Qed.
#[export] Instance punch_grant_law : CodecLaw punch_grant_codec punch_grant_wf 154.
Proof. unfold punch_grant_codec. struct_law punch_grant_wf. Qed.
#[export] Instance peer_identity_binding_law : CodecLaw peer_identity_binding_codec peer_identity_binding_wf 240.
Proof. unfold peer_identity_binding_codec. struct_law peer_identity_binding_wf. Qed.
#[export] Instance peer_identity_lookup_law : CodecLaw peer_identity_lookup_codec peer_identity_lookup_wf 162.
Proof. unfold peer_identity_lookup_codec. struct_law peer_identity_lookup_wf. Qed.
#[export] Instance telemetry_report_law : CodecLaw telemetry_report_codec telemetry_report_wf 83.
Proof. unfold telemetry_report_codec. struct_law telemetry_report_wf. Qed.
#[export] Instance enrollment_request_law : CodecLaw enrollment_request_codec enrollment_request_wf 712.
Proof. unfold enrollment_request_codec. struct_law enrollment_request_wf. Qed.
#[export] Instance enrollment_result_law : CodecLaw enrollment_result_codec enrollment_result_wf 148.
Proof. unfold enrollment_result_codec. struct_law enrollment_result_wf. Qed.
#[export] Instance managed_config_request_law : CodecLaw managed_config_request_codec managed_config_request_wf 65539.
Proof. unfold managed_config_request_codec. struct_law managed_config_request_wf. Qed.
#[export] Instance managed_config_snapshot_law : CodecLaw managed_config_snapshot_codec managed_config_snapshot_wf 65550.
Proof. unfold managed_config_snapshot_codec. struct_law managed_config_snapshot_wf. Qed.
#[export] Instance managed_config_report_law : CodecLaw managed_config_report_codec managed_config_report_wf 65549.
Proof. unfold managed_config_report_codec. struct_law managed_config_report_wf. Qed.
#[export] Instance managed_config_update_law : CodecLaw managed_config_update_codec managed_config_update_wf 65549.
Proof. unfold managed_config_update_codec. struct_law managed_config_update_wf. Qed.
#[export] Instance managed_config_update_result_law : CodecLaw managed_config_update_result_codec managed_config_update_result_wf 1037.
Proof. unfold managed_config_update_result_codec. struct_law managed_config_update_result_wf. Qed.

Lemma has_valid_limits_true m :
  has_valid_limits m = true →
  0 < ouc_max_sessions m ≤ MAX_UDP_SESSIONS_PER_TUNNEL
  ∧ 0 < ouc_max_payload_bytes m ≤ MAX_UDP_PAYLOAD_BYTES
  ∧ 0 < ouc_queue_capacity m ≤ MAX_UDP_QUEUE_CAPACITY.
Proof. unfold has_valid_limits. rewrite !andb_true_iff. lia. Qed.

(** The limits keep four of the integers short: 94 bytes, not the 100 of four full
    [u32] varints, which would not fit the 96 bytes of the message. *)
#[export] Instance open_udp_channel_law :
  CodecLaw open_udp_channel_codec open_udp_channel_wf 94.
Proof.
  assert (CodecLaw open_udp_channel_codec open_udp_channel_wf 100) as [rt _ sd sf].
  { unfold open_udp_channel_codec. struct_law open_udp_channel_wf. }
  split; [done| |done..].
  intros m (Ht&Hc&Hb&_&Hi&_&_&Hv). apply has_valid_limits_true in Hv as (?&?&?).
  unfold MAX_UDP_SESSIONS_PER_TUNNEL, MAX_UDP_PAYLOAD_BYTES, MAX_UDP_QUEUE_CAPACITY in *.
  cbn [open_udp_channel_codec codec_check codec_struct codec_pair ser fst snd].
  rewrite !blen_app.
  pose proof (codec_size (CodecLaw := law_u32) _ Ht).
  pose proof (codec_size (CodecLaw := law_u64) _ Hc).
  pose proof (codec_size (CodecLaw := law_u32) _ Hi).
  pose proof (codec_size (CodecLaw := bounded_bytes_law MAX_BINDING_TOKEN_BYTES 1
    ltac:(zconst) ltac:(zconst)) _ Hb) as Htok.
  unfold MAX_BINDING_TOKEN_BYTES in *.
  pose proof (law_u32_sized 3 (ouc_max_sessions m) ltac:(lia) ltac:(lia)).
  pose proof (law_u32_sized 3 (ouc_max_payload_bytes m) ltac:(lia) ltac:(lia)).
  pose proof (law_u32_sized 3 (ouc_queue_capacity m) ltac:(lia) ltac:(lia)).
  lia.
Qed.
End laws.
