(* ===== verification/Events.v ===== *)
(** Observability ([rustgo-observability/src/model.rs], the events of [store.rs]): bounded
    labels and inventories, shortened session identifiers, traffic counters, and the events
    that the server's components publish. *)

From S2P Require Import Prelude.
From S2P Require Import Ordered.
From S2P Require Import Messages.
From Stdlib Require Import Strings.Byte.
From stdpp Require Import prelude list sorting.

#[local] Open Scope Z_scope.

(** * Bounded data *)

Definition MAX_EVENT_LABEL_BYTES : Z := 128.
Definition MAX_INVENTORY_ITEMS : nat := 256.
Definition MAX_AUTHENTICATED_CLIENT_NAME_BYTES : Z := 128.

(** [BoundedLabel::try_from]. *)
Definition bounded_label (label : list byte) : res BoundExceeded (list byte) :=
  bounded_try_from MAX_EVENT_LABEL_BYTES label.

(** [Vec::dedup]: an element equal to the one before it is dropped. *)
Fixpoint dedup (l : list (list byte)) : list (list byte) :=
  match l with
  | x :: (y :: _) as l => if bool_decide (x = y) then dedup l else x :: dedup l
  | _ => l
  end.

(** [BoundedInventory::try_from_names]: the first 256 names, sorted and without duplicates. *)
Definition try_from_names (names : list (list byte)) : res BoundExceeded (list (list byte)) :=
  bounded ← mapM (M := res BoundExceeded) bounded_label (take MAX_INVENTORY_ITEMS names);
  Ok (dedup (merge_sort (le_rel bytes_le) bounded)).

(** [AuthenticatedClientIdentity::from_server_authentication]. *)
Record AuthenticatedClientIdentity := { aci_name : list byte; aci_generation : Z }.
#[export] Instance aci_eq_dec : EqDecision AuthenticatedClientIdentity.
Proof. solve_decision. Defined.
Inductive AuthenticatedIdentityError := InvalidNameLength | ZeroGeneration.
Definition from_server_authentication (name : list byte) (generation : Z)
    : res AuthenticatedIdentityError AuthenticatedClientIdentity :=
  _ ← guard_err (bool_decide (name = [])) InvalidNameLength;
  name ← map_err (λ _, InvalidNameLength) (bounded_label name);
  _ ← guard_err (generation =? 0) ZeroGeneration;
  Ok {| aci_name := name; aci_generation := generation |}.

(** * Measurements *)

Record TrafficCounters := { received_bytes : Z; sent_bytes : Z }.
#[export] Instance traffic_counters_eq_dec : EqDecision TrafficCounters.
Proof. solve_decision. Defined.
Definition TrafficCounters_default : TrafficCounters := {| received_bytes := 0; sent_bytes := 0 |}.
(** [TrafficCounters::saturating_add]. *)
Definition counters_add (c delta : TrafficCounters) : TrafficCounters :=
  {| received_bytes := saturating_add u64_max (received_bytes c) (received_bytes delta);
     sent_bytes := saturating_add u64_max (sent_bytes c) (sent_bytes delta) |}.

Record HostMetrics := {
  sampled_unix_millis : Z;
  cpu_basis_points : option Z;
  process_cpu_basis_points : option Z;
  memory_used_bytes : option Z;
  memory_total_bytes : option Z;
  process_memory_bytes : option Z;
  disk_used_bytes : option Z;
  disk_total_bytes : option Z;
  disk_read_bytes_per_sec : option Z;
  disk_write_bytes_per_sec : option Z;
  network_rx_bytes_per_sec : option Z;
  network_tx_bytes_per_sec : option Z;
}.

(** * Sessions *)

(** [ShortSessionId::from_bytes]: the first eight bytes of the digest in hexadecimal. *)
Definition hex_digit (v : Z) : byte := byte_of (if v <? 10 then 48 + v else 87 + v).
Definition short_session_id (sha256 : list byte → list byte) (session_id : list byte) : list byte :=
  concat ((λ b, [hex_digit (byte_val b / 16); hex_digit (byte_val b `mod` 16)])
          <$> take 8 (sha256 session_id)).

Inductive SessionKind := KindTcp | KindUdp | KindP2p.
#[export] Instance session_kind_eq_dec : EqDecision SessionKind.
Proof. solve_decision. Defined.
Inductive SessionPath := PRelayPath | P2pDirect | P2pFallback.
#[export] Instance session_path_eq_dec : EqDecision SessionPath.
Proof. solve_decision. Defined.

Inductive ObservationEvent :=
| ClientAuthenticated (client : AuthenticatedClientIdentity) (version : list byte)
    (authenticated_unix_millis : Z)
| ClientDisconnected (client : AuthenticatedClientIdentity) (disconnected_unix_millis : Z)
| Heartbeat (client : AuthenticatedClientIdentity) (received_unix_millis : Z)
| ClientTelemetryAccepted (client : AuthenticatedClientIdentity) (sequence : Z)
    (received_unix_millis : Z) (metrics : HostMetrics)
| TunnelInventory (client : AuthenticatedClientIdentity) (names : list (list byte))
| ExportInventory (client : AuthenticatedClientIdentity) (names : list (list byte))
| ForwardInventory (client : AuthenticatedClientIdentity) (names : list (list byte))
| TcpSessionOpened (client : AuthenticatedClientIdentity) (session_id : list byte)
    (tunnel : option (list byte)) (opened_unix_millis : Z)
| TcpSessionClosed (client : AuthenticatedClientIdentity) (session_id : list byte)
    (closed_unix_millis : Z) (terminal_reason : option (list byte))
| UdpSessionOpened (client : AuthenticatedClientIdentity) (session_id : list byte)
    (tunnel : option (list byte)) (opened_unix_millis : Z)
| UdpSessionClosed (client : AuthenticatedClientIdentity) (session_id : list byte)
    (closed_unix_millis : Z) (terminal_reason : option (list byte))
| P2pSessionOpened (client : AuthenticatedClientIdentity) (session_id peer : list byte)
    (export : option (list byte)) (path : SessionPath) (opened_unix_millis : Z)
| P2pSessionClosed (client : AuthenticatedClientIdentity) (session_id : list byte)
    (closed_unix_millis : Z) (terminal_reason : option (list byte))
| ByteCounterDelta (client : AuthenticatedClientIdentity) (session_id : option (list byte))
    (counters : TrafficCounters)
| ServerSample (metrics : HostMetrics).
