(* ===== verification/Frame.v ===== *)
(** Frames of the control and data channels ([rustgo-protocol/src/frame.rs],
    [rustgo-protocol/src/version.rs]): headers, payloads and
    their bounds.  The framed readers built on them are in [Control]. *)

From S2P Require Import Prelude Wire Postcard Messages MessageCodecs.
From Stdlib Require Import Strings.Byte.
From stdpp Require Import prelude list.

#[local] Open Scope Z_scope.

(** * Versions *)

Record ProtocolVersion := { major : Z; minor : Z }.
#[export] Instance ProtocolVersion_eq_dec : EqDecision ProtocolVersion.
Proof. solve_decision. Defined.

Definition version_wf (v : ProtocolVersion) : Prop := in_u 16 (major v) ∧ in_u 16 (minor v).

(** * Frames *)

Definition MAGIC : list byte := [x52; x53; x47; x4f].
Definition HEADER_LEN : Z := 16.
Definition SUPPORTED_FLAGS : Z := 0.

Record Frame := { frame_version : ProtocolVersion; frame_flags : Z; frame_message : Message }.

Inductive FrameError :=
| InvalidMagic
| UnknownMessage (id : Z)
| UnsupportedFlags (flags : Z)
| PayloadTooLarge (declared max : Z)
| MessagePayloadTooLarge (message declared max : Z)
| Truncated (needed available : Z)
| MalformedPayload (message : Z)
| TrailingBytes (n : Z)
| LengthOverflow.

Record FrameCodec := { max_payload : Z }.

Record Header := {
  h_version : ProtocolVersion;
  h_message_id : Z;
  h_flags : Z;
  h_payload_len : Z;
}.

(** [!x] on a [u16]. *)
Definition u16_not (x : Z) : Z := Z.lxor u16_max x.

Definition validate_flags (flags : Z) : res FrameError unit :=
  let unsupported := Z.land flags (u16_not SUPPORTED_FLAGS) in
  if negb (unsupported =? 0) then Err (UnsupportedFlags unsupported) else Ok tt.

Definition validate_payload_length (c : FrameCodec) (message declared : Z)
    : res FrameError unit :=
  if max_payload c <? declared then Err (PayloadTooLarge declared (max_payload c)) else
  let message_max := MessageId.max_payload message in
  if message_max <? declared then Err (MessagePayloadTooLarge message declared message_max)
  else Ok tt.

Definition encode_udp (d : UdpDatagram) : res FrameError (list byte) :=
  if (ud_tunnel_id d =? 0) || (ud_session_id d =? 0)
  then Err (MalformedPayload MessageId.UDP_DATAGRAM) else
  let head := be_bytes 4 (ud_tunnel_id d) ++ be_bytes 8 (ud_session_id d) in
  let source :=
    match ud_source d with
    | V4 octets port => [byte_of 4] ++ octets ++ replicate 12 x00 ++ be_bytes 2 port
    | V6 octets port => [byte_of 6] ++ octets ++ be_bytes 2 port
    end in
  Ok (head ++ source ++ ud_payload d).

Definition decode_udp (message : Z) (payload : list byte) : res FrameError UdpDatagram :=
  if blen payload <? UDP_METADATA_LEN then Err (MalformedPayload message) else
  let raw := drop 31 payload in
  if MAX_UDP_PAYLOAD_BYTES <? blen raw then
    Err (MessagePayloadTooLarge message (blen payload) (UDP_METADATA_LEN + MAX_UDP_PAYLOAD_BYTES))
  else
  let tunnel_id := be_value (take 4 payload) in
  let session_id := be_value (take 8 (drop 4 payload)) in
  if (tunnel_id =? 0) || (session_id =? 0) then Err (MalformedPayload message) else
  let address := take 16 (drop 13 payload) in
  let port := be_value (take 2 (drop 29 payload)) in
  family ← expect (payload !! 12%nat);
  source ←
    (if (byte_val family =? 4) && bool_decide (drop 4 address = replicate 12 x00)
     then Ok (V4 (take 4 address) port)
     else if byte_val family =? 6 then Ok (V6 address port)
     else Err (MalformedPayload message));
  body ← map_err (λ _, MessagePayloadTooLarge message (blen payload)
                         (UDP_METADATA_LEN + MAX_UDP_PAYLOAD_BYTES))
           (bounded_try_from MAX_UDP_PAYLOAD_BYTES raw);
  Ok {| ud_tunnel_id := tunnel_id; ud_session_id := session_id; ud_source := source;
        ud_payload := body |}.

Definition decode_opaque (MAX : Z) (payload : list byte) : res FrameError (list byte) :=
  map_err (λ _, LengthOverflow) (bounded_try_from MAX payload).

Section codec.
Context `{P : Postcard}.

Definition serialize {A} (c : codec A) (value : A) : res FrameError (list byte) :=
  Ok (ser c value).

Definition encode_payload (m : Message) : res FrameError (list byte) :=
  match m with
  | MClientHello value => serialize client_hello_codec value
  | MServerChallenge value => serialize server_challenge_codec value
  | MClientAuthenticate value => serialize client_authenticate_codec value
  | MAuthResult value => serialize auth_result_codec value
  | MRegisterTunnels value => serialize register_tunnels_codec value
  | MTunnelResults value => serialize tunnel_results_codec value
  | MOpenTcpStream value => serialize open_tcp_stream_codec value
  | MTcpStreamReady value => serialize tcp_stream_ready_codec value
  | MUdpDatagram value => encode_udp value
  | MHeartbeat value => serialize heartbeat_codec value
  | MError value => serialize error_message_codec value
  | MOpenUdpChannel value => serialize open_udp_channel_codec value
  | MDataChannelBind value => serialize data_channel_bind_codec value
  | MUdpSessionRetired value => serialize udp_session_retired_codec value
  | MRendezvousRequest value | MRendezvousProviderDecision value
  | MRendezvousCandidateSet value | MRendezvousCandidateSetV2 value
  | MRendezvousConnectivityResult value | MRendezvousRelayRequest value
  | MRendezvousClose value | MRendezvousError value => Ok value
  | MPeerRelayFrame value => Ok value
  | MObservationGrantRequest value => serialize observation_grant_request_codec value
  | MObservationGrant value => Ok value
  | MServerNotice value => serialize server_notice_codec value
  | MPeerIdentityBinding value => serialize peer_identity_binding_codec value
  | MPeerIdentityLookup value => serialize peer_identity_lookup_codec value
  | MPunchGrant value => serialize punch_grant_codec value
  | MTelemetryReport value => serialize telemetry_report_codec value
  | MManagedConfigRequest value => serialize managed_config_request_codec value
  | MManagedConfigSnapshot value => serialize managed_config_snapshot_codec value
  | MManagedConfigReport value => serialize managed_config_report_codec value
  | MManagedConfigUpdate value => serialize managed_config_update_codec value
  | MManagedConfigUpdateResult value => serialize managed_config_update_result_codec value
  | MEnrollmentRequest value => serialize enrollment_request_codec value
  | MEnrollmentResult value => serialize enrollment_result_codec value
  end.

Definition deserialize {A} (c : codec A) (message : Z) (payload : list byte)
    : res FrameError A :=
  '(value, remainder) ← ok_or (de c payload) (MalformedPayload message);
  match remainder with
  | [] => Ok value
  | _ :: _ => Err (MalformedPayload message)
  end.

Definition decode_payload (id : Z) (payload : list byte) : res FrameError Message :=
  if id =? MessageId.CLIENT_HELLO then
    MClientHello <$> deserialize client_hello_codec id payload
  else if id =? MessageId.SERVER_CHALLENGE then
    MServerChallenge <$> deserialize server_challenge_codec id payload
  else if id =? MessageId.CLIENT_AUTHENTICATE then
    MClientAuthenticate <$> deserialize client_authenticate_codec id payload
  else if id =? MessageId.AUTH_RESULT then
    MAuthResult <$> deserialize auth_result_codec id payload
  else if id =? MessageId.REGISTER_TUNNELS then
    MRegisterTunnels <$> deserialize register_tunnels_codec id payload
  else if id =? MessageId.TUNNEL_RESULTS then
    MTunnelResults <$> deserialize tunnel_results_codec id payload
  else if id =? MessageId.OPEN_TCP_STREAM then
    MOpenTcpStream <$> deserialize open_tcp_stream_codec id payload
  else if id =? MessageId.TCP_STREAM_READY then
    MTcpStreamReady <$> deserialize tcp_stream_ready_codec id payload
  else if id =? MessageId.UDP_DATAGRAM then MUdpDatagram <$> decode_udp id payload
  else if id =? MessageId.HEARTBEAT then
    MHeartbeat <$> deserialize heartbeat_codec id payload
  else if id =? MessageId.ERROR then
    MError <$> deserialize error_message_codec id payload
  else if id =? MessageId.OPEN_UDP_CHANNEL then
    MOpenUdpChannel <$> deserialize open_udp_channel_codec id payload
  else if id =? MessageId.DATA_CHANNEL_BIND then
    MDataChannelBind <$> deserialize data_channel_bind_codec id payload
  else if id =? MessageId.UDP_SESSION_RETIRED then
    MUdpSessionRetired <$> deserialize udp_session_retired_codec id payload
  else if id =? MessageId.RENDEZVOUS_REQUEST then
    MRendezvousRequest <$> decode_opaque MAX_RENDEZVOUS_ENVELOPE_BYTES payload
  else if id =? MessageId.RENDEZVOUS_PROVIDER_DECISION then
    MRendezvousProviderDecision <$> decode_opaque MAX_RENDEZVOUS_ENVELOPE_BYTES payload
  else if id =? MessageId.RENDEZVOUS_CANDIDATE_SET then
    MRendezvousCandidateSet <$> decode_opaque MAX_RENDEZVOUS_ENVELOPE_BYTES payload
  else if id =? MessageId.RENDEZVOUS_CANDIDATE_SET_V2 then
    MRendezvousCandidateSetV2 <$> decode_opaque MAX_RENDEZVOUS_ENVELOPE_BYTES payload
  else if id =? MessageId.RENDEZVOUS_CONNECTIVITY_RESULT then
    MRendezvousConnectivityResult <$> decode_opaque MAX_RENDEZVOUS_ENVELOPE_BYTES payload
  else if id =? MessageId.RENDEZVOUS_RELAY_REQUEST then
    MRendezvousRelayRequest <$> decode_opaque MAX_RENDEZVOUS_ENVELOPE_BYTES payload
  else if id =? MessageId.RENDEZVOUS_CLOSE then
    MRendezvousClose <$> decode_opaque MAX_RENDEZVOUS_ENVELOPE_BYTES payload
  else if id =? MessageId.RENDEZVOUS_ERROR then
    MRendezvousError <$> decode_opaque MAX_RENDEZVOUS_ENVELOPE_BYTES payload
  else if id =? MessageId.PEER_RELAY_FRAME then
    MPeerRelayFrame <$> decode_opaque MAX_PEER_RELAY_FRAME_BYTES payload
  else if id =? MessageId.OBSERVATION_GRANT_REQUEST then
    MObservationGrantRequest <$> deserialize observation_grant_request_codec id payload
  else if id =? MessageId.OBSERVATION_GRANT then
    MObservationGrant <$> decode_opaque MAX_OBSERVATION_GRANT_BYTES payload
  else if id =? MessageId.SERVER_NOTICE then
    MServerNotice <$> deserialize server_notice_codec id payload
  else if id =? MessageId.PEER_IDENTITY_BINDING then
    MPeerIdentityBinding <$> deserialize peer_identity_binding_codec id payload
  else if id =? MessageId.PEER_IDENTITY_LOOKUP then
    MPeerIdentityLookup <$> deserialize peer_identity_lookup_codec id payload
  else if id =? MessageId.PUNCH_GRANT then
    MPunchGrant <$> deserialize punch_grant_codec id payload
  else if id =? MessageId.TELEMETRY_REPORT then
    MTelemetryReport <$> deserialize telemetry_report_codec id payload
  else if id =? MessageId.MANAGED_CONFIG_REQUEST then
    MManagedConfigRequest <$> deserialize managed_config_request_codec id payload
  else if id =? MessageId.MANAGED_CONFIG_SNAPSHOT then
    MManagedConfigSnapshot <$> deserialize managed_config_snapshot_codec id payload
  else if id =? MessageId.MANAGED_CONFIG_REPORT then
    MManagedConfigReport <$> deserialize managed_config_report_codec id payload
  else if id =? MessageId.MANAGED_CONFIG_UPDATE then
    MManagedConfigUpdate <$> deserialize managed_config_update_codec id payload
  else if id =? MessageId.MANAGED_CONFIG_UPDATE_RESULT then
    MManagedConfigUpdateResult <$> deserialize managed_config_update_result_codec id payload
  else if id =? MessageId.ENROLLMENT_REQUEST then
    MEnrollmentRequest <$> deserialize enrollment_request_codec id payload
  else if id =? MessageId.ENROLLMENT_RESULT then
    MEnrollmentResult <$> deserialize enrollment_result_codec id payload
  else Panic.

Definition encode (c : FrameCodec) (version : ProtocolVersion) (flags : Z) (m : Message)
    : res FrameError (list byte) :=
  _ ← validate_flags flags;
  let id := message_id m in
  payload ← encode_payload m;
  _ ← validate_payload_length c id (blen payload);
  (* u32::try_from(payload.len()) *)
  payload_len ← (if u32_max <? blen payload then Err LengthOverflow else Ok (blen payload));
  Ok (MAGIC ++ be_bytes 2 (major version) ++ be_bytes 2 (minor version)
        ++ be_bytes 2 id ++ be_bytes 2 flags ++ be_bytes 4 payload_len ++ payload).

Definition inspect_header (c : FrameCodec) (input : list byte)
    : res FrameError (option Header) :=
  if blen input <? HEADER_LEN then Ok None else
  if negb (bool_decide (take 4 input = MAGIC)) then Err InvalidMagic else
  let major := be_value (take 2 (drop 4 input)) in
  let minor := be_value (take 2 (drop 6 input)) in
  let raw_message_id := be_value (take 2 (drop 8 input)) in
  id ← map_err UnknownMessage (MessageId.try_from raw_message_id);
  let flags := be_value (take 2 (drop 10 input)) in
  _ ← validate_flags flags;
  let payload_len := be_value (take 4 (drop 12 input)) in
  _ ← validate_payload_length c id payload_len;
  Ok (Some {| h_version := {| major := major; minor := minor |}; h_message_id := id;
              h_flags := flags; h_payload_len := payload_len |}).

(** [FrameCodec::decode]: the result and the input buffer after the call. *)
Definition decode (c : FrameCodec) (input : list byte)
    : res FrameError (option Frame) * list byte :=
  match inspect_header c input with
  | Err e => (Err e, input)
  | Panic => (Panic, input)
  | Ok None => (Ok None, input)
  | Ok (Some header) =>
    let frame_len := HEADER_LEN + h_payload_len header in
    if blen input <? frame_len then (Ok None, input) else
    match decode_payload (h_message_id header)
            (drop 16 (take (Z.to_nat frame_len) input)) with
    | Err e => (Err e, input)
    | Panic => (Panic, input)
    | Ok message =>
      (Ok (Some {| frame_version := h_version header; frame_flags := h_flags header;
                   frame_message := message |}),
       drop (Z.to_nat frame_len) input)
    end
  end.

Definition decode_exact (c : FrameCodec) (input : list byte) : res FrameError Frame :=
  if blen input <? HEADER_LEN then Err (Truncated HEADER_LEN (blen input)) else
  found ← inspect_header c input;
  header ← expect found;
  let frame_len := HEADER_LEN + h_payload_len header in
  if blen input <? frame_len then Err (Truncated frame_len (blen input)) else
  if frame_len <? blen input then Err (TrailingBytes (blen input - frame_len)) else
  message ← decode_payload (h_message_id header) (drop 16 input);
  Ok {| frame_version := h_version header; frame_flags := h_flags header;
        frame_message := message |}.
End codec.
