(* ===== verification/FrameFacts.v ===== *)
(** Correctness of the frame codec: payload and frame round trips, bounds, soundness of
    everything decoded, and independence from how the input is cut into chunks. *)

From S2P Require Import Prelude Wire Postcard Messages MessageCodecs Frame.
From Stdlib Require Import Strings.Byte.
From stdpp Require Import prelude list.

#[local] Open Scope Z_scope.

(** * UDP payloads *)

Lemma decode_udp_fields id tid sid fam addr port body :
  0 < tid < 2 ^ 32 → 0 < sid < 2 ^ 64 → length addr = 16%nat → in_u 16 port →
  bytes_wf MAX_UDP_PAYLOAD_BYTES body →
  decode_udp id (be_bytes 4 tid ++ be_bytes 8 sid ++ [fam] ++ addr ++ be_bytes 2 port ++ body) =
  (source ←
     (if (byte_val fam =? 4) && bool_decide (drop 4 addr = replicate 12 x00)
      then Ok (V4 (take 4 addr) port)
      else if byte_val fam =? 6 then Ok (V6 addr port)
      else Err (MalformedPayload id));
   Ok {| ud_tunnel_id := tid; ud_session_id := sid; ud_source := source; ud_payload := body |}).
Proof.
  intros Ht Hs Ha Hp Hb. do 16 (destruct addr as [|? addr]; [done|]). destruct addr; [|done].
  unfold bytes_wf in Hb. pose proof (blen_nonneg body). unfold decode_udp.
  match goal with |- context [blen ?p <? UDP_METADATA_LEN] =>
    assert (blen p = 31 + blen body) as Hlen
      by (rewrite !blen_app; change (blen (be_bytes 4 tid)) with 4;
          change (blen (be_bytes 8 sid)) with 8; change (blen (be_bytes 2 port)) with 2;
          rewrite !blen_cons, !blen_nil; lia);
    rewrite Hlen; clear Hlen;
    change (drop 31 p) with body; change (take 4 p) with (be_bytes 4 tid);
    change (take 8 (drop 4 p)) with (be_bytes 8 sid);
    change (take 2 (drop 29 p)) with (be_bytes 2 port);
    change (p !! 12%nat) with (Some fam); change (take 16 (drop 13 p)) with
      [b; b0; b1; b2; b3; b4; b5; b6; b7; b8; b9; b10; b11; b12; b13; b14]
  end.
  rewrite (proj2 (Z.ltb_ge _ _)) by (unfold UDP_METADATA_LEN; lia).
  rewrite (proj2 (Z.ltb_ge _ _)) by lia.
  rewrite !be_value_be_bytes by (unfold in_u in *; simpl; lia).
  rewrite (proj2 (Z.eqb_neq tid 0)), (proj2 (Z.eqb_neq sid 0)) by lia.
  assert (bounded_try_from MAX_UDP_PAYLOAD_BYTES body = Ok body) as -> by by apply bounded_try_from_Ok.
  by cbn [orb expect mbind res_bind map_err].
Qed.

Lemma udp_payload_rt d :
  udp_datagram_wf d →
  ∃ payload, encode_udp d = Ok payload
    ∧ blen payload ≤ UDP_METADATA_LEN + MAX_UDP_PAYLOAD_BYTES
    ∧ decode_udp MessageId.UDP_DATAGRAM payload = Ok d.
Proof.
  destruct d as [tid sid src body]; intros (Ht&Hs&Hsrc&Hb).
  cbn [ud_tunnel_id ud_session_id ud_source ud_payload] in *. unfold encode_udp.
  cbn [ud_tunnel_id ud_session_id ud_source ud_payload].
  rewrite (proj2 (Z.eqb_neq tid 0)), (proj2 (Z.eqb_neq sid 0)) by lia. cbn [orb].
  destruct src as [o p|o p]; destruct Hsrc as [Ho Hp]; eexists; (split; [reflexivity|]).
  - rewrite <- !app_assoc, (app_assoc o). rewrite decode_udp_fields; try done.
    + rewrite (drop_app_length' o), (take_app_length' o), bool_decide_eq_true_2 by done.
      split; [|done]. unfold bytes_wf in Hb. rewrite !blen_app. unfold blen at 1 2 3 4 5 6.
      rewrite !length_be_bytes, Ho. simpl length. unfold UDP_METADATA_LEN. lia.
    + rewrite length_app, Ho. done.
  - rewrite <- !app_assoc. rewrite decode_udp_fields by done. split; [|done].
    unfold bytes_wf in Hb. rewrite !blen_app. unfold blen at 1 2 3 4 5.
    rewrite !length_be_bytes, Ho. simpl length. unfold UDP_METADATA_LEN. lia.
Qed.

Lemma be_value_slice (n m : nat) l :
  (m + n ≤ length l)%nat → 0 ≤ be_value (take n (drop m l)) < 256 ^ Z.of_nat n.
Proof.
  intros. pose proof (be_value_range (take n (drop m l))) as Hr.
  rewrite length_take, length_drop in Hr. by replace (n `min` (length l - m))%nat with n in Hr by lia.
Qed.

Lemma decode_udp_sound id p d : decode_udp id p = Ok d → udp_datagram_wf d.
Proof.
  unfold decode_udp, UDP_METADATA_LEN. destruct (Z.ltb_spec (blen p) 31); [done|].
  case_match; [done|].
  pose proof (be_value_slice 4 0 p) as Ht. rewrite drop_0 in Ht.
  pose proof (be_value_slice 8 4 p) as Hs. pose proof (be_value_slice 2 29 p) as Hp.
  assert (length (take 16 (drop 13 p)) = 16%nat) as Ha.
  { rewrite length_take, length_drop. unfold blen in *. lia. }
  set (tid := be_value (take 4 p)) in *. set (sid := be_value (take 8 (drop 4 p))) in *.
  set (port := be_value (take 2 (drop 29 p))) in *. set (addr := take 16 (drop 13 p)) in *.
  destruct ((tid =? 0) || (sid =? 0)) eqn:Hz; [done|]. apply orb_false_iff in Hz as [Hz1 Hz2].
  intros (fam&_&(src&Hsrc&(body&Hbody&[= <-])%res_bind_Ok)%res_bind_Ok)%res_bind_Ok.
  apply map_err_Ok, bounded_try_from_Ok in Hbody as [-> Hbody].
  unfold blen in *. split_and!; simpl; [lia..| |done].
  repeat case_match; simplify_eq/=; split; unfold in_u; try lia.
  rewrite length_take. lia.
Qed.

Lemma decode_udp_no_panic id p : decode_udp id p ≠ Panic.
Proof.
  unfold decode_udp, UDP_METADATA_LEN. destruct (Z.ltb_spec (blen p) 31); [done|].
  destruct (lookup_lt_is_Some_2 p 12) as [fam ->]; [unfold blen in *; lia|].
  unfold bounded_try_from. cbn [expect mbind res_bind]. repeat (case_match; try done).
Qed.

(** * Payloads *)

Section payload.
Context `{P : Postcard} `{!PostcardLaws P}.

Lemma deserialize_rt {A} (c : codec A) wf m `{!CodecLaw c wf m} id a :
  wf a → deserialize c id (ser c a) = Ok a.
Proof.
  intros Ha. unfold deserialize.
  by rewrite <- (app_nil_r (ser c a)), (codec_rt a [] Ha).
Qed.

Lemma deserialize_sound {A} (c : codec A) wf m `{!CodecLaw c wf m} id p a :
  deserialize c id p = Ok a → wf a ∧ de c p = Some (a, []).
Proof.
  unfold deserialize. destruct (de c p) as [[v r]|] eqn:E; [|done]. simpl.
  destruct r; [|done]. intros [= <-]. split; [by eapply codec_sound|done].
Qed.

Lemma deserialize_no_panic {A} (c : codec A) id p : deserialize c id p ≠ Panic.
Proof. unfold deserialize. destruct (de c p) as [[v [|]]|]; done. Qed.

Lemma decode_opaque_rt MAX p : bytes_wf MAX p → decode_opaque MAX p = Ok p.
Proof. intros Hp. unfold decode_opaque. by rewrite (proj2 (bounded_try_from_Ok _ _ _)) by done. Qed.

Lemma decode_opaque_sound MAX p q : decode_opaque MAX p = Ok q → bytes_wf MAX q ∧ q = p.
Proof. intros [-> ?]%map_err_Ok%bounded_try_from_Ok. done. Qed.

Lemma decode_opaque_no_panic MAX p : decode_opaque MAX p ≠ Panic.
Proof. unfold decode_opaque. rewrite map_err_Panic. apply bounded_try_from_no_panic. Qed.

Lemma struct_payload_rt {A} (c : codec A) wf m `{!CodecLaw c wf m} id (f : A → Message) a max :
  wf a → m ≤ max →
  ∃ payload, serialize c a = Ok payload ∧ blen payload ≤ max
    ∧ f <$> deserialize c id payload = Ok (f a).
Proof.
  intros Ha Hm. exists (ser c a). split_and!; [done| |by rewrite (deserialize_rt c wf m)].
  etrans; [by apply codec_size|done].
Qed.

(** Every message a Rust value can hold has a payload within its own bound, and decoding
    the payload under the message's identifier returns the message. *)
Lemma payload_rt m :
  message_wf m →
  ∃ payload, encode_payload m = Ok payload
    ∧ blen payload ≤ MessageId.max_payload (message_id m)
    ∧ decode_payload (message_id m) payload = Ok m.
Proof.
  destruct m; intros Hwf; cbn [message_wf] in Hwf;
    unfold encode_payload, decode_payload; cbn [message_id Z.eqb];
    try (eapply struct_payload_rt; [typeclasses eauto | exact Hwf | zconst]);
    try (eexists; split_and!; [reflexivity | exact Hwf | by cbn; rewrite decode_opaque_rt]).
  apply udp_payload_rt in Hwf as (p&->&Hb&Hd). exists p. split_and!; [done..|].
  cbn. by rewrite Hd.
Qed.

Lemma fmap_Ok {E A B} (f : A → B) (m : res E A) b : f <$> m = Ok b ↔ ∃ a, b = f a ∧ m = Ok a.
Proof. destruct m; naive_solver. Qed.

Lemma fmap_no_panic {E A B} (f : A → B) (m : res E A) : m ≠ Panic → f <$> m ≠ Panic.
Proof. by destruct m. Qed.

(** Whatever is decoded satisfies the type invariant of its message and carries the
    identifier it was decoded under. *)
Lemma decode_payload_sound id p m :
  decode_payload id p = Ok m → message_wf m ∧ message_id m = id.
Proof.
  unfold decode_payload.
  repeat (lazymatch goal with |- context [id =? ?k] => destruct (Z.eqb_spec id k) as [->|_] end;
    [intros (a&->&Ha)%fmap_Ok; split; [|done];
     first [ eapply deserialize_sound in Ha as [? _]; [done|typeclasses eauto]
           | by apply decode_opaque_sound in Ha as [? _]
           | by eapply decode_udp_sound ] |]).
  done.
Qed.

Lemma decode_payload_no_panic id p : 1 ≤ id ≤ 37 → decode_payload id p ≠ Panic.
Proof.
  intros Hid. unfold decode_payload.
  repeat (lazymatch goal with |- context [id =? ?k] => destruct (Z.eqb_spec id k) as [->|?] end;
    [apply fmap_no_panic; first [ apply deserialize_no_panic | apply decode_opaque_no_panic
                                | apply decode_udp_no_panic ] |]).
  exfalso. repeat match goal with H : id ≠ ?k |- _ => progress unfold k in H end. lia.
Qed.
End payload.

(** * Headers *)

Lemma validate_flags_Ok flags u : in_u 16 flags → validate_flags flags = Ok u ↔ flags = 0.
Proof.
  intros Hf. unfold validate_flags, u16_not, SUPPORTED_FLAGS. rewrite Z.lxor_0_r.
  change u16_max with (Z.ones 16). rewrite Z.land_ones, Z.mod_small by (unfold in_u in Hf; lia).
  destruct u, (Z.eqb_spec flags 0); naive_solver.
Qed.

Lemma validate_payload_length_Ok c id n u :
  validate_payload_length c id n = Ok u ↔ n ≤ max_payload c ∧ n ≤ MessageId.max_payload id.
Proof.
  unfold validate_payload_length. destruct u, (Z.ltb_spec (max_payload c) n); [naive_solver lia|].
  destruct (Z.ltb_spec (MessageId.max_payload id) n); naive_solver lia.
Qed.

Lemma message_id_range m : 1 ≤ message_id m ≤ 37.
Proof. by destruct m. Qed.

Lemma try_from_message_id m : MessageId.try_from (message_id m) = Ok (message_id m).
Proof. by destruct m. Qed.

Lemma message_max_payload_u32 id : MessageId.max_payload id ≤ 65600.
Proof.
  unfold MessageId.max_payload. repeat case_match; by vm_compute.
Qed.

Lemma inspect_header_fields c maj min id flags len tail :
  in_u 16 maj → in_u 16 min → in_u 16 id → in_u 16 flags → in_u 32 len →
  inspect_header c (MAGIC ++ be_bytes 2 maj ++ be_bytes 2 min ++ be_bytes 2 id
                      ++ be_bytes 2 flags ++ be_bytes 4 len ++ tail) =
  (i ← map_err UnknownMessage (MessageId.try_from id);
   _ ← validate_flags flags;
   _ ← validate_payload_length c i len;
   Ok (Some {| h_version := {| major := maj; minor := min |}; h_message_id := i;
               h_flags := flags; h_payload_len := len |})).
Proof.
  intros. unfold inspect_header.
  match goal with |- context [blen ?p <? HEADER_LEN] =>
    assert (blen p = 16 + blen tail) as Hlen
      by (rewrite !blen_app; change (blen MAGIC) with 4; unfold blen;
          rewrite !length_be_bytes; lia);
    rewrite Hlen; clear Hlen;
    change (take 4 p) with MAGIC; change (take 2 (drop 4 p)) with (be_bytes 2 maj);
    change (take 2 (drop 6 p)) with (be_bytes 2 min); change (take 2 (drop 8 p)) with (be_bytes 2 id);
    change (take 2 (drop 10 p)) with (be_bytes 2 flags); change (take 4 (drop 12 p)) with (be_bytes 4 len)
  end.
  pose proof (blen_nonneg tail). unfold HEADER_LEN. rewrite (proj2 (Z.ltb_ge _ _)) by lia.
  rewrite bool_decide_eq_true_2 by done. unfold in_u in *.
  by rewrite !be_value_be_bytes by (simpl; lia).
Qed.

(** The first sixteen bytes decide the header. *)
Lemma inspect_header_app c input more :
  HEADER_LEN ≤ blen input → inspect_header c (input ++ more) = inspect_header c input.
Proof.
  intros Hlen. unfold HEADER_LEN in Hlen. assert (16 ≤ length input)%nat by (unfold blen in Hlen; lia).
  unfold inspect_header. rewrite blen_app. pose proof (blen_nonneg more).
  rewrite !(proj2 (Z.ltb_ge _ HEADER_LEN)) by (unfold HEADER_LEN; lia).
  rewrite !drop_app_le by lia. rewrite !take_app_le by (rewrite ?length_drop; lia). done.
Qed.

Lemma inspect_header_Some c input h :
  inspect_header c input = Ok (Some h) →
  HEADER_LEN ≤ blen input
  ∧ version_wf (h_version h) ∧ 1 ≤ h_message_id h ≤ 37 ∧ h_flags h = 0
  ∧ 0 ≤ h_payload_len h ≤ max_payload c
  ∧ h_payload_len h ≤ MessageId.max_payload (h_message_id h).
Proof.
  unfold inspect_header. destruct (Z.ltb_spec (blen input) HEADER_LEN) as [|Hlen]; [done|].
  unfold HEADER_LEN in Hlen. assert (16 ≤ length input)%nat by (unfold blen in Hlen; lia).
  case_match; [done|].
  intros (i&Hi&([]&Hf&([]&Hl&[= <-])%res_bind_Ok)%res_bind_Ok)%res_bind_Ok; simpl.
  pose proof (be_value_slice 2 4 input). pose proof (be_value_slice 2 6 input).
  pose proof (be_value_slice 2 10 input). pose proof (be_value_slice 4 12 input).
  apply validate_flags_Ok in Hf; [|unfold in_u; lia].
  apply validate_payload_length_Ok in Hl. unfold MessageId.try_from in Hi.
  destruct (_ && _) eqn:Hr in Hi; simplify_eq/=. apply andb_true_iff in Hr.
  unfold version_wf, in_u, HEADER_LEN; cbn [major minor].
  split_and!; try lia; naive_solver lia.
Qed.

Lemma inspect_header_no_panic c input : inspect_header c input ≠ Panic.
Proof.
  unfold inspect_header, MessageId.try_from, validate_flags, validate_payload_length.
  repeat (case_match; try done; cbn [mbind res_bind map_err]).
Qed.

(** * Frames *)

Section frames.
Context `{P : Postcard} `{!PostcardLaws P}.

(** The shape of an encoded frame. *)
Lemma encode_inv c v flags m out :
  message_wf m → version_wf v → in_u 16 flags → encode c v flags m = Ok out →
  ∃ payload,
    out = MAGIC ++ be_bytes 2 (major v) ++ be_bytes 2 (minor v) ++ be_bytes 2 (message_id m)
            ++ be_bytes 2 flags ++ be_bytes 4 (blen payload) ++ payload
    ∧ blen out = HEADER_LEN + blen payload
    ∧ blen payload ≤ Z.min (max_payload c) (MessageId.max_payload (message_id m))
    ∧ decode_payload (message_id m) payload = Ok m
    ∧ ∀ more, inspect_header c (out ++ more) =
        Ok (Some {| h_version := v; h_message_id := message_id m; h_flags := flags;
                    h_payload_len := blen payload |}).
Proof.
  intros Hm Hv Hf. unfold encode.
  intros ([]&Hvf&(p&Hp&([]&Hl&(n&Hn&Ho)%res_bind_Ok)%res_bind_Ok)%res_bind_Ok)%res_bind_Ok.
  destruct (payload_rt m Hm) as (p'&Hp'&Hb&Hd). rewrite Hp in Hp'. apply Ok_inj in Hp' as <-.
  apply Ok_inj in Ho as <-.
  destruct (Z.ltb_spec u32_max (blen p)); [done|]. apply Ok_inj in Hn as <-.
  unfold u32_max in *.
  exists p. split; [reflexivity|]. split; [|split; [|split; [exact Hd|]]].
  - rewrite !blen_app. change (blen MAGIC) with 4. unfold blen, HEADER_LEN.
    rewrite !length_be_bytes. lia.
  - apply validate_payload_length_Ok in Hl. lia.
  - intros more. pose proof (blen_nonneg p). pose proof (message_id_range m).
    destruct Hv. rewrite <- !app_assoc, inspect_header_fields by (done || unfold in_u; lia).
    rewrite try_from_message_id. cbn [map_err mbind res_bind]. rewrite Hvf.
    cbn [mbind res_bind]. rewrite Hl. by destruct v.
Qed.

Lemma decode_frame c v flags m out rest :
  message_wf m → version_wf v → in_u 16 flags → encode c v flags m = Ok out →
  decode c (out ++ rest) =
    (Ok (Some {| frame_version := v; frame_flags := flags; frame_message := m |}), rest).
Proof.
  intros Hm Hv Hf He. destruct (encode_inv c v flags m out Hm Hv Hf He) as (p&Ho&Hl&_&Hd&Hi).
  unfold decode. rewrite Hi. cbn [h_payload_len h_message_id h_version h_flags].
  rewrite <- Hl, blen_app. pose proof (blen_nonneg rest).
  rewrite (proj2 (Z.ltb_ge _ _)) by lia.
  unfold blen. rewrite Nat2Z.id, take_app_length, drop_app_length.
  assert (drop 16 out = p) as -> by by rewrite Ho. by rewrite Hd.
Qed.

Lemma decode_exact_frame c v flags m out :
  message_wf m → version_wf v → in_u 16 flags → encode c v flags m = Ok out →
  decode_exact c out = Ok {| frame_version := v; frame_flags := flags; frame_message := m |}.
Proof.
  intros Hm Hv Hf He. destruct (encode_inv c v flags m out Hm Hv Hf He) as (p&Ho&Hl&_&Hd&Hi).
  specialize (Hi []). rewrite app_nil_r in Hi. unfold decode_exact. rewrite Hi.
  cbn [expect mbind res_bind h_payload_len h_message_id h_version h_flags].
  pose proof (blen_nonneg p). rewrite <- Hl, !Z.ltb_irrefl.
  rewrite (proj2 (Z.ltb_ge _ _)) by lia. assert (drop 16 out = p) as -> by by rewrite Ho.
  by rewrite Hd.
Qed.

(** A proper prefix of a frame is incomplete, not wrong. *)
Lemma decode_prefix c v flags m b b' :
  message_wf m → version_wf v → in_u 16 flags → encode c v flags m = Ok (b ++ b') → b' ≠ [] →
  decode c b = (Ok None, b).
Proof.
  intros Hm Hv Hf He Hb'. destruct (encode_inv c v flags m _ Hm Hv Hf He) as (p&Ho&Hl&_&_&Hi).
  specialize (Hi []). rewrite app_nil_r in Hi. rewrite blen_app in Hl.
  assert (0 < blen b') by (unfold blen; destruct b'; simpl; [done|lia]).
  unfold decode. destruct (decide (HEADER_LEN ≤ blen b)).
  - rewrite inspect_header_app in Hi by done. rewrite Hi. cbn [h_payload_len].
    by rewrite (proj2 (Z.ltb_lt _ _)) by lia.
  - unfold inspect_header. by rewrite (proj2 (Z.ltb_lt (blen b) HEADER_LEN)) by lia.
Qed.

(** More input changes neither a decoded frame nor an error. *)
Lemma decode_app c input more r rest :
  decode c input = (r, rest) → r ≠ Ok None →
  decode c (input ++ more) = (r, rest ++ more).
Proof.
  unfold decode. destruct (decide (HEADER_LEN ≤ blen input)) as [Hlen|Hlen].
  2:{ unfold inspect_header. rewrite (proj2 (Z.ltb_lt (blen input) HEADER_LEN)) by lia.
      intros [= <- <-]. done. }
  rewrite inspect_header_app by done.
  destruct (inspect_header c input) as [[h|]|e|] eqn:Hi; try (by intros [= <- <-]).
  apply inspect_header_Some in Hi as (_&_&_&_&[Hp _]&_).
  rewrite blen_app. pose proof (blen_nonneg more). unfold HEADER_LEN in *.
  destruct (Z.ltb_spec (blen input) (16 + h_payload_len h)); [by intros [= <- <-]|].
  rewrite (proj2 (Z.ltb_ge _ _)) by lia.
  rewrite take_app_le, drop_app_le by (unfold blen in *; lia).
  destruct (decode_payload _ _); intros [= <- <-] _; done.
Qed.

Lemma decode_no_panic c input : (decode c input).1 ≠ Panic.
Proof.
  unfold decode. pose proof (inspect_header_no_panic c input).
  destruct (inspect_header c input) as [[h|]|e|] eqn:Hi; try done.
  apply inspect_header_Some in Hi as (_&_&Hid&_). destruct (_ <? _); [done|].
  pose proof (decode_payload_no_panic (h_message_id h)
    (drop 16 (take (Z.to_nat (HEADER_LEN + h_payload_len h)) input)) Hid).
  by destruct (decode_payload _ _).
Qed.

Lemma decode_exact_no_panic c input : decode_exact c input ≠ Panic.
Proof.
  unfold decode_exact. destruct (Z.ltb_spec (blen input) HEADER_LEN) as [|Hlen]; [done|].
  pose proof (inspect_header_no_panic c input).
  destruct (inspect_header c input) as [[h|]|e|] eqn:Hi; try done; cbn [mbind res_bind expect].
  - apply inspect_header_Some in Hi as (_&_&Hid&_). do 2 (case_match; [done|]).
    pose proof (decode_payload_no_panic (h_message_id h) (drop 16 input) Hid).
    by destruct (decode_payload _ _).
  - (* a complete header is always inspected *)
    exfalso. unfold inspect_header in Hi. rewrite (proj2 (Z.ltb_ge _ _)) in Hi by lia.
    revert Hi. unfold MessageId.try_from, validate_flags, validate_payload_length.
    repeat (case_match; try done; cbn [mbind res_bind map_err]).
Qed.

(** What decoding returns: a frame only when it is complete, within both bounds, of the
    current flags and well-typed, with exactly its own bytes consumed; otherwise the
    buffer is untouched. *)
Lemma decode_consumes c input r rest :
  decode c input = (r, rest) →
  match r with
  | Ok (Some f) =>
    ∃ used, input = used ++ rest
      ∧ HEADER_LEN ≤ blen used ≤ HEADER_LEN + max_payload c
      ∧ blen used ≤ HEADER_LEN + MessageId.max_payload (message_id (frame_message f))
      ∧ version_wf (frame_version f) ∧ frame_flags f = 0 ∧ message_wf (frame_message f)
  | _ => rest = input
  end.
Proof.
  unfold decode. destruct (inspect_header c input) as [[h|]|e|] eqn:Hi; try (by intros [= <- <-]).
  apply inspect_header_Some in Hi as (Hlen&Hv&Hid&Hf&[Hp Hmax]&Hm). unfold HEADER_LEN in *.
  destruct (Z.ltb_spec (blen input) (16 + h_payload_len h)); [by intros [= <- <-]|].
  destruct (decode_payload _ _) as [m|e|] eqn:Hd; intros [= <- <-]; try done.
  apply decode_payload_sound in Hd as [Hwf Hmid].
  exists (take (Z.to_nat (16 + h_payload_len h)) input). rewrite take_drop. simpl.
  rewrite Hmid. split; [done|]. unfold blen in *. rewrite length_take. split_and!; try done; lia.
Qed.
End frames.
