(* ===== verification/Control.v ===== *)
(** The framed readers over a byte stream: [FramedControl] of the server
    ([rustgos/src/control.rs]) and of the client ([rustgoc/src/control.rs], the same loop),
    and the client's [read_frame_exact] and data-channel handshake ([rustgoc/src/tcp.rs]).
    A stream is the sequence of results its reads will give; a read that has not completed
    yet leaves the future pending. *)

From S2P Require Import Prelude.
From S2P Require Import Wire.
From S2P Require Import Postcard.
From S2P Require Import Messages.
From S2P Require Import MessageCodecs.
From S2P Require Import Frame.
From S2P Require Import FrameFacts.
From S2P Require Import PostcardRef.
From Stdlib Require Import Strings.Byte.
From stdpp Require Import prelude list.

#[local] Open Scope Z_scope.

Definition MAX_CONTROL_PAYLOAD : Z := 70 * 1024.

(** What one [read_buf] gives: some bytes, [Ok(0)] being the end of the stream, or an error. *)
Inductive ReadEvent :=
| ReadOk (chunk : list byte)
| ReadErr.

Inductive ControlError :=
| FrameProtocol (e : FrameError)
| FrameTooLarge
| Closed
| Io
| InvalidState.

Record FramedControl := { stream : list ReadEvent; read_buffer : list byte; codec : FrameCodec }.

Definition FramedControl_new (s : list ReadEvent) : FramedControl :=
  {| stream := s; read_buffer := []; codec := {| max_payload := MAX_CONTROL_PAYLOAD |} |}.

Section control.
Context `{P : Postcard}.

(** The loop of [FramedControl::receive]; [None] while the next read is pending.  Returns
    the buffer and the reads left as well. *)
Fixpoint receive_loop (c : FrameCodec) (s : list ReadEvent) (buf : list byte)
    : option (res ControlError Frame) * list ReadEvent * list byte :=
  match decode c buf with
  | (Err e, buf) => (Some (Err (FrameProtocol e)), s, buf)
  | (Panic, buf) => (Some Panic, s, buf)
  | (Ok (Some frame), buf) => (Some (Ok frame), s, buf)
  | (Ok None, buf) =>
    if MAX_CONTROL_PAYLOAD + HEADER_LEN <=? blen buf then (Some (Err FrameTooLarge), s, buf) else
    match s with
    | [] => (None, [], buf)
    | ReadErr :: s => (Some (Err Io), s, buf)
    | ReadOk [] :: s => (Some (Err Closed), s, buf)
    | ReadOk chunk :: s => receive_loop c s (buf ++ chunk)
    end
  end.

Definition receive (f : FramedControl) : option (res ControlError Frame) * FramedControl :=
  let '(r, s, buf) := receive_loop (codec f) (stream f) (read_buffer f) in
  (r, {| stream := s; read_buffer := buf; codec := codec f |}).

(** [FramedControl::send]: the bytes given to [write_all]. *)
Definition send (f : FramedControl) (version : ProtocolVersion) (m : Message)
    : res ControlError (list byte) :=
  map_err FrameProtocol (encode (codec f) version 0 m).

Definition is_buffer_empty (f : FramedControl) : bool := bool_decide (read_buffer f = []).

(** [FramedControl::into_stream]: the stream of a connection that becomes a data channel. *)
Definition into_stream (f : FramedControl) : res ControlError (list ReadEvent) :=
  if bool_decide (read_buffer f = []) then Ok (stream f) else Err InvalidState.

(** Successive calls of [send] and of [receive]. *)
Fixpoint send_all (f : FramedControl) (ms : list (ProtocolVersion * Message))
    : res ControlError (list byte) :=
  match ms with
  | [] => Ok []
  | (v, m) :: ms =>
    head ← send f v m;
    tail ← send_all f ms;
    Ok (head ++ tail)
  end.

Fixpoint receive_n (n : nat) (f : FramedControl)
    : list (option (res ControlError Frame)) * FramedControl :=
  match n with
  | O => ([], f)
  | S n =>
    let '(r, f) := receive f in
    let '(rs, f) := receive_n n f in
    (r :: rs, f)
  end.

(** * [read_frame_exact] *)

(** [read_exact] on the bytes the peer has sent before it closed its side. *)
Definition read_exact (n : Z) (s : list byte) : res ControlError (list byte * list byte) :=
  if blen s <? n then Err Io else Ok (take (Z.to_nat n) s, drop (Z.to_nat n) s).

Definition read_frame_exact (c : FrameCodec) (s : list byte)
    : res ControlError (Frame * list byte) :=
  '(header, s) ← read_exact HEADER_LEN s;
  match decode_exact c header with
  | Err (Truncated needed _) =>
    '(rest, s) ← read_exact (needed - HEADER_LEN) s;
    frame ← map_err FrameProtocol (decode_exact c (header ++ rest));
    Ok (frame, s)
  | Ok frame => Ok (frame, s)
  | Err e => Err (FrameProtocol e)
  | Panic => Panic
  end.

(** [DATA_FRAME_MAX] and the acknowledgement of a bound TCP data channel. *)
Definition accept_tcp_acknowledgement (protocol_version : ProtocolVersion) (request : OpenTcpStream)
    (acknowledgement : Frame) : bool :=
  if negb (bool_decide (frame_version acknowledgement = protocol_version)) then false else
  match frame_message acknowledgement with
  | MTcpStreamReady ready =>
    negb (negb (tsr_connection_id ready =? ots_connection_id request)
          || negb (tsr_accepted ready) || bool_decide (is_Some (tsr_error ready)))
  | _ => false
  end.
End control.

(** * Lemmas *)

Section facts.
Context `{P : Postcard} `{!PostcardLaws P}.

Definition sent_wf (vm : ProtocolVersion * Message) : Prop :=
  version_wf vm.1 ∧ message_wf vm.2.
Definition sent_frame (vm : ProtocolVersion * Message) : Frame :=
  {| frame_version := vm.1; frame_flags := 0; frame_message := vm.2 |}.
(** Reads that only deliver bytes. *)
Definition delivers (chunks : list (list byte)) : list ReadEvent := ReadOk <$> chunks.

Lemma in_u16_0 : in_u 16 0.
Proof. by split. Qed.
#[local] Hint Resolve in_u16_0 : core.

(** A well-typed message is encodable by any codec that admits the largest message. *)
Lemma encode_total c v m :
  message_wf m → 65600 ≤ max_payload c → ∃ out, encode c v 0 m = Ok out.
Proof.
  intros Hm Hc. destruct (payload_rt m Hm) as (p&Hp&Hb&_).
  pose proof (message_max_payload_u32 (message_id m)).
  unfold encode. change (validate_flags 0) with (@Ok FrameError unit tt).
  cbn [mbind res_bind]. rewrite Hp. cbn [mbind res_bind].
  rewrite (proj2 (validate_payload_length_Ok c (message_id m) (blen p) tt)) by lia.
  cbn [mbind res_bind]. rewrite (proj2 (Z.ltb_ge u32_max _)) by (unfold u32_max; lia).
  cbn [mbind res_bind]. eauto.
Qed.

Lemma encode_nonempty c v m out :
  message_wf m → version_wf v → encode c v 0 m = Ok out →
  16 ≤ blen out ≤ HEADER_LEN + max_payload c.
Proof.
  intros Hm Hv He. destruct (encode_inv c v 0 m out Hm Hv in_u16_0 He) as (p&_&Hl&Hp&_).
  unfold HEADER_LEN in *. pose proof (blen_nonneg p). lia.
Qed.

(** A buffer and reads that start with one encoded frame give that frame, whatever way
    the reads cut it. *)
Lemma receive_frame c v m out chunks buf rest :
  message_wf m → version_wf v → encode c v 0 m = Ok out → max_payload c ≤ MAX_CONTROL_PAYLOAD →
  Forall (λ x, x ≠ []) chunks → buf ++ concat chunks = out ++ rest →
  ∃ chunks' buf',
    receive_loop c (delivers chunks) buf = (Some (Ok (sent_frame (v, m))), delivers chunks', buf')
    ∧ buf' ++ concat chunks' = rest ∧ Forall (λ x, x ≠ []) chunks'.
Proof.
  intros Hm Hv He Hc. revert buf.
  induction chunks as [|chunk chunks IH]; intros buf Hne Heq.
  - rewrite app_nil_r in Heq. subst buf. exists [], rest. unfold delivers; simpl.
    rewrite (decode_frame c v 0 m out rest) by auto. by rewrite app_nil_r.
  - destruct (decide (length out ≤ length buf)%nat) as [Hlen|Hlen].
    + assert (∃ r, buf = out ++ r) as [r ->].
      { exists (drop (length out) buf).
        rewrite <- (take_drop (length out) buf) at 1. f_equal.
        rewrite <- (take_app_le buf (concat (chunk :: chunks))), Heq by done.
        apply take_app_length. }
      exists (chunk :: chunks), r. simpl. rewrite (decode_frame c v 0 m out r) by auto.
      split; [done|]. rewrite <- app_assoc in Heq. by apply app_inv_head in Heq.
    + assert (∃ b', out = buf ++ b' ∧ b' ≠ []) as (b'&Hout&Hb').
      { exists (drop (length buf) out). split.
        - rewrite <- (take_drop (length buf) out) at 1. f_equal.
          rewrite <- (take_app_le out rest) by lia. rewrite <- Heq. apply take_app_length.
        - intros Hd%(f_equal length). rewrite length_drop in Hd. simpl in Hd. lia. }
      pose proof (encode_nonempty c v m out Hm Hv He) as Hb.
      simpl. rewrite Hout in He.
      rewrite (decode_prefix c v 0 m buf b') by auto.
      rewrite Hout, blen_app in Hb.
      assert (0 < blen b') by (unfold blen; destruct b'; simpl; [done|lia]).
      rewrite (proj2 (Z.leb_gt _ _)) by (unfold HEADER_LEN in *; lia).
      apply Forall_cons in Hne as [Hne1 Hne]. destruct chunk as [|b chunk]; [done|].
      rewrite <- Hout in He. apply IH; [done|].
      rewrite <- Heq. simpl. by rewrite <- !app_assoc.
Qed.

Lemma send_all_cons f v m ms wire :
  send_all f ((v, m) :: ms) = Ok wire ↔
  ∃ head tail, encode (codec f) v 0 m = Ok head ∧ send_all f ms = Ok tail ∧ wire = head ++ tail.
Proof.
  cbn [send_all]. unfold send. split.
  - intros (h&Hh&(t&Ht&Ho)%res_bind_Ok)%res_bind_Ok. apply map_err_Ok in Hh.
    apply Ok_inj in Ho as <-. eauto.
  - intros (h&t&Hh&Ht&->). by rewrite Hh, Ht.
Qed.

Lemma send_all_codec f g ms : codec f = codec g → send_all f ms = send_all g ms.
Proof.
  intros Hc. induction ms as [|[v m] ms IH]; [done|]. cbn [send_all]. unfold send.
  by rewrite Hc, IH.
Qed.

Lemma receive_n_sent f ms wire chunks :
  Forall sent_wf ms → send_all f ms = Ok wire → max_payload (codec f) ≤ MAX_CONTROL_PAYLOAD →
  Forall (λ x, x ≠ []) chunks → stream f = delivers chunks →
  read_buffer f ++ concat chunks = wire →
  receive_n (length ms) f =
    ((λ vm, Some (Ok (sent_frame vm))) <$> ms,
     {| stream := []; read_buffer := []; codec := codec f |}).
Proof.
  intros Hwf Hs Hc. revert f wire chunks Hs Hc.
  induction ms as [|[v m] ms IH]; intros f wire chunks Hs Hc Hne Hstr Heq.
  - apply Ok_inj in Hs as <-. apply app_eq_nil in Heq as [Hb Hcat].
    assert (chunks = []) as -> by (destruct chunks as [|[|]]; [done|by inv Hne|done]).
    destruct f; simpl in *. by subst.
  - apply send_all_cons in Hs as (out&tail&He&Hs&->). inv Hwf.
    match goal with H : sent_wf _ |- _ => destruct H as [Hv Hm] end. simpl in Hv, Hm.
    destruct (receive_frame (codec f) v m out chunks (read_buffer f) tail) as
      (chunks'&buf'&Hr&Hrest&Hne'); [done..|].
    cbn [receive_n length]. unfold receive. rewrite Hstr, Hr.
    erewrite (IH ltac:(done) _ tail chunks'); try done.
    by rewrite (send_all_codec _ f).
Qed.

Lemma send_all_total f ms :
  Forall sent_wf ms → 65600 ≤ max_payload (codec f) → ∃ wire, send_all f ms = Ok wire.
Proof.
  intros Hwf Hc. induction Hwf as [|[v m] ms [Hv Hm] _ [tail Ht]]; [by exists []|].
  destruct (encode_total (codec f) v m Hm Hc) as [head Hh].
  exists (head ++ tail). apply send_all_cons. eauto.
Qed.

Lemma read_exact_app n l s : blen l = n → read_exact n (l ++ s) = Ok (l, s).
Proof.
  intros <-. unfold read_exact. rewrite blen_app. pose proof (blen_nonneg s).
  rewrite (proj2 (Z.ltb_ge _ _)) by lia. unfold blen.
  by rewrite Nat2Z.id, take_app_length, drop_app_length.
Qed.
End facts.

(** * Properties *)

Section props.
Context `{P : Postcard} `{!PostcardLaws P}.

(** C2: well-typed messages sent on one side of a control connection are all encodable,
    and are received on the other side as exactly those frames, in order, whatever way the
    transport cuts the bytes into reads: no frame is lost, merged, reported too large or
    malformed, and nothing is left in the buffer. *)
Theorem control_stream_roundtrip ms :
  Forall sent_wf ms →
  ∃ wire, send_all (FramedControl_new []) ms = Ok wire
    ∧ ∀ chunks, concat chunks = wire → Forall (λ x, x ≠ []) chunks →
      receive_n (length ms) (FramedControl_new (delivers chunks)) =
        ((λ vm, Some (Ok (sent_frame vm))) <$> ms, FramedControl_new []).
Proof.
  intros Hwf. destruct (send_all_total (FramedControl_new []) ms Hwf) as [wire Hs]; [done|].
  exists wire. split; [done|]. intros chunks Hcat Hne.
  apply (receive_n_sent (FramedControl_new (delivers chunks)) ms wire chunks); try done.
  by rewrite (send_all_codec _ (FramedControl_new [])).
Qed.

(** [read_frame_exact] reads exactly one frame from a stream that starts with its
    encoding, leaving every later byte in the stream for the next reader. *)
Theorem read_frame_exact_roundtrip c v m rest :
  message_wf m → version_wf v → 65600 ≤ max_payload c →
  ∃ out, encode c v 0 m = Ok out
    ∧ read_frame_exact c (out ++ rest) = Ok (sent_frame (v, m), rest).
Proof.
  intros Hm Hv Hc. destruct (encode_total c v m Hm Hc) as [out He].
  exists out. split; [done|].
  destruct (encode_inv c v 0 m out Hm Hv in_u16_0 He) as (p&Ho&Hl&_&Hd&Hi).
  set (header := take 16 out). set (tail := drop 16 out).
  assert (out = header ++ tail) as Hsplit by (symmetry; apply take_drop).
  unfold HEADER_LEN in Hl. pose proof (blen_nonneg p).
  assert (blen header = HEADER_LEN) as Hh.
  { unfold header, blen, HEADER_LEN in *. rewrite length_take. lia. }
  assert (blen tail = blen p) as Ht by (rewrite Hsplit, blen_app in Hl; unfold HEADER_LEN in Hh; lia).
  unfold read_frame_exact. rewrite Hsplit, <- app_assoc, read_exact_app by done.
  cbn [mbind res_bind]. destruct p as [|b p].
  - assert (tail = []) as Hnil by (destruct tail; [done|rewrite blen_cons in Ht; pose proof (blen_nonneg tail); rewrite blen_nil in Ht; lia]).
    assert (header = out) as -> by by rewrite Hsplit, Hnil, app_nil_r.
    rewrite (decode_exact_frame c v 0 m out Hm Hv in_u16_0 He). by rewrite Hnil.
  - specialize (Hi []). rewrite app_nil_r, Hsplit, inspect_header_app in Hi by lia.
    unfold decode_exact at 1. rewrite Hh, Z.ltb_irrefl, Hi.
    cbn [mbind res_bind expect h_payload_len].
    rewrite (proj2 (Z.ltb_lt _ _)) by (rewrite blen_cons in *; pose proof (blen_nonneg p); lia).
    rewrite read_exact_app by lia. cbn [mbind res_bind]. rewrite <- Hsplit.
    by rewrite (decode_exact_frame c v 0 m out Hm Hv in_u16_0 He).
Qed.
End props.

(** * Witnesses *)

Definition demo_frames : list (ProtocolVersion * Message) :=
  [({| major := 1; minor := 5 |}, MHeartbeat {| hb_sequence := 7 |});
   ({| major := 1; minor := 5 |}, MPeerRelayFrame [x41; x42; x43])].

Lemma demo_frames_wf : Forall sent_wf demo_frames.
Proof. repeat constructor; by vm_compute. Qed.

Lemma control_stream_roundtrip_witness :
  ∃ wire, send_all (P := postcard_ref) (FramedControl_new []) demo_frames = Ok wire
    ∧ ∀ chunks, concat chunks = wire → Forall (λ x, x ≠ []) chunks →
      receive_n (P := postcard_ref) 2 (FramedControl_new (delivers chunks)) =
        ((λ vm, Some (Ok (sent_frame vm))) <$> demo_frames, FramedControl_new []).
Proof.
  exact (control_stream_roundtrip (P := postcard_ref) demo_frames demo_frames_wf).
Defined.

Lemma read_frame_exact_roundtrip_witness :
  ∃ out, encode (P := postcard_ref) {| max_payload := 65600 |} {| major := 1; minor := 0 |} 0
      (MPeerRelayFrame [x41]) = Ok out
    ∧ read_frame_exact (P := postcard_ref) {| max_payload := 65600 |} (out ++ [x42; x43]) =
        Ok (sent_frame ({| major := 1; minor := 0 |}, MPeerRelayFrame [x41]), [x42; x43]).
Proof.
  apply (read_frame_exact_roundtrip (P := postcard_ref)); by vm_compute.
Defined.
