(* ===== verification/FrameProps.v ===== *)
(** The properties of the frame codec: round trip, safety of decoding arbitrary bytes, and
    independence of decoding from the bytes that follow. *)

From S2P Require Import Prelude.
From S2P Require Import Wire.
From S2P Require Import Postcard.
From S2P Require Import PostcardRef.
From S2P Require Import Messages.
From S2P Require Import MessageCodecs.
From S2P Require Import Frame.
From S2P Require Import FrameFacts.
From S2P Require Import Control.
From Stdlib Require Import Strings.Byte.
From stdpp Require Import prelude list strings.

#[local] Open Scope Z_scope.

Section props.
Context `{P : Postcard} `{!PostcardLaws P}.

(** C1: every well-typed message of every kind has an encoding within the message's own
    payload bound, and decoding that encoding, followed by any bytes, gives the message,
    its version and flags back and consumes exactly the encoding; the datagram form
    [decode_exact] agrees. *)
Theorem frame_roundtrip c v m rest :
  message_wf m → version_wf v → 65600 ≤ max_payload c →
  ∃ out, encode c v 0 m = Ok out
    ∧ blen out ≤ HEADER_LEN + MessageId.max_payload (message_id m)
    ∧ decode c (out ++ rest) =
        (Ok (Some {| frame_version := v; frame_flags := 0; frame_message := m |}), rest)
    ∧ decode_exact c out =
        Ok {| frame_version := v; frame_flags := 0; frame_message := m |}.
Proof.
  intros Hm Hv Hc. destruct (encode_total c v m Hm Hc) as [out He].
  exists out. split_and!; [done| | |].
  - destruct (encode_inv c v 0 m out Hm Hv in_u16_0 He) as (p&_&->&?&_). lia.
  - by apply decode_frame.
  - by apply decode_exact_frame.
Qed.

(** decoding arbitrary bytes never panics, leaves the buffer untouched unless it
    returns a frame, and a returned frame is complete, within the codec's and its
    message's bounds, carries no unsupported flag and is a well-typed message; the bytes
    consumed are exactly the front of the buffer. *)
Theorem decode_safe c input :
  let '(r, rest) := decode c input in
  match r with
  | Ok (Some f) =>
    ∃ used, input = used ++ rest
      ∧ HEADER_LEN ≤ blen used ≤ HEADER_LEN + max_payload c
      ∧ blen used ≤ HEADER_LEN + MessageId.max_payload (message_id (frame_message f))
      ∧ version_wf (frame_version f) ∧ frame_flags f = 0 ∧ message_wf (frame_message f)
  | Ok None | Err _ => rest = input
  | Panic => False
  end.
Proof.
  pose proof (decode_no_panic c input) as Hp.
  destruct (decode c input) as [r rest] eqn:Hd. pose proof (decode_consumes c input r rest Hd).
  destruct r as [[f|]|e|]; done.
Qed.

(** What follows in the buffer never changes a decoded frame or a reported error:
    once [decode] has answered, the same answer is given on every longer buffer; and a
    proper prefix of an encoded frame is always answered with "not yet". *)
Theorem decode_incremental c :
  (∀ input more r rest, decode c input = (r, rest) → r ≠ Ok None →
    decode c (input ++ more) = (r, rest ++ more))
  ∧ (∀ v m b b', message_wf m → version_wf v → encode c v 0 m = Ok (b ++ b') → b' ≠ [] →
    decode c b = (Ok None, b)).
Proof.
  split; [apply decode_app|]. intros v m b b' Hm Hv. by apply decode_prefix.
Qed.

(** The datagram decoder agrees with the stream decoder: [decode_exact] accepts a
    datagram exactly when [decode] would return a frame that consumes all of it, and
    it never panics. *)
Theorem decode_exact_agrees c input :
  decode_exact c input ≠ Panic
  ∧ ∀ f, decode_exact c input = Ok f ↔ decode c input = (Ok (Some f), []).
Proof.
  split; [apply decode_exact_no_panic|]. intros f. unfold decode_exact, decode.
  destruct (Z.ltb_spec (blen input) HEADER_LEN).
  { unfold inspect_header. by rewrite (proj2 (Z.ltb_lt _ _)). }
  destruct (inspect_header c input) as [[h|]|e|] eqn:Hi; try done.
  cbn [mbind res_bind expect].
  apply inspect_header_Some in Hi as (_&_&_&_&[Hp _]&_). unfold HEADER_LEN in *.
  destruct (Z.ltb_spec (blen input) (16 + h_payload_len h)); [done|].
  assert (blen (drop (Z.to_nat (16 + h_payload_len h)) input)
          = blen input - (16 + h_payload_len h)) as Hrest
    by (unfold blen in *; rewrite length_drop; lia).
  destruct (Z.ltb_spec (16 + h_payload_len h) (blen input)).
  - split; [done|]. intros Hd. exfalso.
    destruct (decode_payload _ _); [|done..]. injection Hd as _ Hd. rewrite Hd, blen_nil in Hrest.
    lia.
  - rewrite take_ge, (drop_ge input (Z.to_nat _)) by (unfold blen in *; lia).
    destruct (decode_payload _ _); naive_solver.
Qed.
End props.

(** * Witnesses *)

Definition demo_hello : Message :=
  MClientHello {| ch_client_name := str "edge-1"%string; ch_fingerprint := [x01; x02];
                  ch_heartbeat_interval_secs := 30 |}.
Definition demo_version : ProtocolVersion := {| major := 1; minor := 5 |}.
Definition demo_codec : FrameCodec := {| max_payload := MAX_CONTROL_PAYLOAD |}.

Lemma frame_roundtrip_witness :
  ∃ out, encode (P := postcard_ref) demo_codec demo_version 0 demo_hello = Ok out
    ∧ blen out ≤ HEADER_LEN + MessageId.max_payload (message_id demo_hello)
    ∧ decode (P := postcard_ref) demo_codec (out ++ [x52; x53]) =
        (Ok (Some {| frame_version := demo_version; frame_flags := 0;
                     frame_message := demo_hello |}), [x52; x53])
    ∧ decode_exact (P := postcard_ref) demo_codec out =
        Ok {| frame_version := demo_version; frame_flags := 0; frame_message := demo_hello |}.
Proof. apply (frame_roundtrip (P := postcard_ref)); by vm_compute. Defined.

Lemma decode_safe_witness :
  let '(r, rest) := decode (P := postcard_ref) demo_codec [x52; x53; x47; x4f; x00] in
  r = Ok None ∧ rest = [x52; x53; x47; x4f; x00]
  ∧ match r with Panic => False | _ => True end.
Proof.
  pose proof (decode_safe (P := postcard_ref) demo_codec [x52; x53; x47; x4f; x00]) as H.
  split; [reflexivity|]. split; [exact H|exact I].
Defined.

Lemma decode_incremental_witness :
  decode (P := postcard_ref) demo_codec ([x00] ++ replicate 15 x00 ++ [x01]) =
    (Err InvalidMagic, ([x00] ++ replicate 15 x00) ++ [x01]).
Proof.
  apply (proj1 (decode_incremental (P := postcard_ref) demo_codec)
    ([x00] ++ replicate 15 x00) [x01]); [reflexivity|discriminate].
Defined.

Lemma decode_exact_agrees_witness :
  decode_exact (P := postcard_ref) demo_codec [x52] ≠ Panic.
Proof. exact (proj1 (decode_exact_agrees (P := postcard_ref) demo_codec [x52])). Defined.
