(* ===== verification/Handshake.v ===== *)
(** Version negotiation ([rustgo-protocol/src/version.rs]) and the control-connection state
    machine ([rustgo-protocol/src/state.rs]). *)

From S2P Require Import Prelude.
From S2P Require Import Messages.
From S2P Require Import Frame.
From Stdlib Require Import Strings.Byte.
From stdpp Require Import prelude list.

#[local] Open Scope Z_scope.

(** * Versions *)

Module Version.
Definition new (major minor : Z) : ProtocolVersion := {| major := major; minor := minor |}.
Definition V0_1 : ProtocolVersion := new 1 0.
Definition V0_2 : ProtocolVersion := new 1 1.
Definition V0_3 : ProtocolVersion := new 1 2.
Definition V0_4 : ProtocolVersion := new 1 3.
Definition V0_5 : ProtocolVersion := new 1 4.
Definition V0_6 : ProtocolVersion := new 1 5.
Definition SUPPORTED : ProtocolVersion := V0_6.

Definition min_u16 (left right : Z) : Z := if left <? right then left else right.

Definition negotiate (self peer : ProtocolVersion) : res Z ProtocolVersion :=
  if negb (major self =? major peer) then Err ProtocolErrorCode.UNSUPPORTED_VERSION
  else Ok (new (major self) (min_u16 (minor self) (minor peer))).

Definition supports_managed_configuration (v : ProtocolVersion) : bool :=
  (major v =? major V0_4) && (minor V0_4 <=? minor v).
Definition supports_client_profile (v : ProtocolVersion) : bool :=
  (major v =? major V0_6) && (minor V0_6 <=? minor v).
Definition supports_managed_editing (v : ProtocolVersion) : bool :=
  (major v =? major V0_5) && (minor V0_5 <=? minor v).
Definition supports_telemetry (v : ProtocolVersion) : bool :=
  (major v =? major V0_3) && (minor V0_3 <=? minor v).

Lemma min_u16_min a b : min_u16 a b = Z.min a b.
Proof. unfold min_u16. case_match; lia. Qed.

Lemma negotiate_Ok a b v :
  negotiate a b = Ok v ↔
  major a = major b ∧ major v = major a ∧ minor v = Z.min (minor a) (minor b).
Proof.
  unfold negotiate, new. rewrite min_u16_min.
  destruct (Z.eqb_spec (major a) (major b)); simpl; [|naive_solver].
  destruct v; simpl. naive_solver.
Qed.

(** A feature gated on a minimum minor version survives negotiation exactly when both
    sides have it. *)
Definition gate (m : Z) (v : ProtocolVersion) : bool := (major v =? 1) && (m <=? minor v).

Lemma negotiate_gate m a b v : negotiate a b = Ok v → gate m v = gate m a && gate m b.
Proof.
  intros (Hm&Hv&Hmin)%negotiate_Ok. unfold gate. rewrite Hv, Hmin, <- Hm.
  destruct (Z.eqb_spec (major a) 1); simpl; [|done].
  destruct (Z.leb_spec m (minor a)), (Z.leb_spec m (minor b)); simpl; lia.
Qed.
End Version.

(** * The state machine *)

Inductive ControlMessageDirection := ClientToServer | ServerToClient.
#[export] Instance direction_eq_dec : EqDecision ControlMessageDirection.
Proof. solve_decision. Defined.

Inductive ClientHandshakeState :=
| AwaitingHello
| AwaitingChallenge
| AwaitingAuthenticate (session_id : list byte)
| AwaitingAuthResult (session_id : list byte)
| AwaitingTunnelRegistration (session_id : list byte)
| Active (session_id : list byte)
| Rejected.

Record StateError := { code : Z }.
Definition invalid_state : StateError := {| code := ProtocolErrorCode.INVALID_STATE |}.
Definition unknown_session : StateError := {| code := ProtocolErrorCode.UNKNOWN_SESSION |}.

Definition transition (self : ClientHandshakeState) (message : Message)
    : res StateError ClientHandshakeState :=
  match self, message with
  | AwaitingHello, MClientHello _ => Ok AwaitingChallenge
  | AwaitingChallenge, MServerChallenge challenge =>
    Ok (AwaitingAuthenticate (sc_session_id challenge))
  | AwaitingAuthenticate session_id, MClientAuthenticate _ => Ok (AwaitingAuthResult session_id)
  | AwaitingAuthResult session_id, MAuthResult result =>
    if ar_accepted result then Ok (AwaitingTunnelRegistration session_id) else Ok Rejected
  | AwaitingTunnelRegistration session_id, MRegisterTunnels _ => Ok (Active session_id)
  | Active _, MHeartbeat _ => Ok self
  | Active _,
    (MOpenTcpStream _ | MOpenUdpChannel _ | MTcpStreamReady _ | MError _
     | MObservationGrantRequest _ | MObservationGrant _ | MServerNotice _
     | MRendezvousRequest _ | MRendezvousProviderDecision _ | MRendezvousCandidateSet _
     | MRendezvousCandidateSetV2 _ | MRendezvousConnectivityResult _ | MRendezvousRelayRequest _
     | MRendezvousClose _ | MRendezvousError _ | MPeerRelayFrame _ | MPeerIdentityBinding _
     | MPeerIdentityLookup _ | MPunchGrant _) => Ok self
  | _, _ => Err invalid_state
  end.

Definition is_awaiting_registration (s : ClientHandshakeState) : bool :=
  match s with AwaitingTunnelRegistration _ => true | _ => false end.
Definition is_active (s : ClientHandshakeState) : bool :=
  match s with Active _ => true | _ => false end.
Definition is_rejected (s : ClientHandshakeState) : bool :=
  match s with Rejected => true | _ => false end.

Definition transition_control (self : ClientHandshakeState) (negotiated_version : ProtocolVersion)
    (direction : ControlMessageDirection) (message : Message)
    : res StateError ClientHandshakeState :=
  match message with
  | MManagedConfigUpdate _ | MManagedConfigUpdateResult _ =>
    let allowed_direction :=
      match message with MManagedConfigUpdate _ => ClientToServer | _ => ServerToClient end in
    if is_awaiting_registration self && Version.supports_managed_editing negotiated_version
       && bool_decide (direction = allowed_direction)
    then Ok self else Err invalid_state
  | MManagedConfigRequest _ | MManagedConfigSnapshot _ | MManagedConfigReport _ =>
    let allowed :=
      match message with
      | MManagedConfigRequest _ =>
        is_awaiting_registration self && bool_decide (direction = ClientToServer)
      | MManagedConfigSnapshot _ =>
        is_awaiting_registration self && bool_decide (direction = ServerToClient)
      | MManagedConfigReport _ =>
        (is_active self || is_awaiting_registration self)
        && bool_decide (direction = ClientToServer)
      | _ => false
      end in
    if Version.supports_managed_configuration negotiated_version && allowed
    then Ok self else Err invalid_state
  | MTelemetryReport _ =>
    if is_active self && bool_decide (direction = ClientToServer)
       && Version.supports_telemetry negotiated_version
    then Ok self else Err invalid_state
  | _ => transition self message
  end.

Definition validate_data_channel_session (self : ClientHandshakeState) (candidate : list byte)
    : res StateError unit :=
  match self with
  | Active session_id =>
    if bool_decide (session_id = candidate) then Ok tt else Err unknown_session
  | _ => Err invalid_state
  end.

(** A control connection: messages of either direction, one after the other, with the
    version the hello negotiated. *)
Definition exchange : Type := ControlMessageDirection * Message.

Fixpoint run (v : ProtocolVersion) (s : ClientHandshakeState) (tr : list exchange)
    : res StateError ClientHandshakeState :=
  match tr with
  | [] => Ok s
  | (d, m) :: tr => s ← transition_control s v d m; run v s tr
  end.

(** * The protocol, as a specification *)

(** What may be exchanged between authentication and tunnel registration. *)
Definition managed_phase (v : ProtocolVersion) (x : exchange) : Prop :=
  match x.2 with
  | MManagedConfigUpdate _ => Version.gate 4 v ∧ x.1 = ClientToServer
  | MManagedConfigUpdateResult _ => Version.gate 4 v ∧ x.1 = ServerToClient
  | MManagedConfigRequest _ | MManagedConfigReport _ => Version.gate 3 v ∧ x.1 = ClientToServer
  | MManagedConfigSnapshot _ => Version.gate 3 v ∧ x.1 = ServerToClient
  | _ => False
  end.

(** What may be exchanged on an active connection. *)
Definition active_phase (v : ProtocolVersion) (x : exchange) : Prop :=
  match x.2 with
  | MTelemetryReport _ => Version.gate 2 v ∧ x.1 = ClientToServer
  | MManagedConfigReport _ => Version.gate 3 v ∧ x.1 = ClientToServer
  | MManagedConfigUpdate _ | MManagedConfigUpdateResult _ | MManagedConfigRequest _
  | MManagedConfigSnapshot _ => False
  | MHeartbeat _ | MOpenTcpStream _ | MOpenUdpChannel _ | MTcpStreamReady _ | MError _
  | MObservationGrantRequest _ | MObservationGrant _ | MServerNotice _
  | MRendezvousRequest _ | MRendezvousProviderDecision _ | MRendezvousCandidateSet _
  | MRendezvousCandidateSetV2 _ | MRendezvousConnectivityResult _ | MRendezvousRelayRequest _
  | MRendezvousClose _ | MRendezvousError _ | MPeerRelayFrame _ | MPeerIdentityBinding _
  | MPeerIdentityLookup _ | MPunchGrant _ => True
  | _ => False
  end.

(** The transcripts of a connection that becomes active with session [sid]. *)
Inductive active_transcript (v : ProtocolVersion) (sid : list byte) : list exchange → Prop :=
| active_transcript_intro d1 d2 d3 d4 d5 hello challenge auth result managed reg steady :
    sc_session_id challenge = sid → ar_accepted result = true →
    Forall (managed_phase v) managed → Forall (active_phase v) steady →
    active_transcript v sid
      ([(d1, MClientHello hello); (d2, MServerChallenge challenge);
        (d3, MClientAuthenticate auth); (d4, MAuthResult result)]
       ++ managed ++ (d5, MRegisterTunnels reg) :: steady).

(** * Lemmas *)

(** The case analysis of one step: every message constructor and every guard. *)
Ltac step_cases m :=
  destruct m;
    unfold managed_phase, active_phase, transition_control, is_active, is_awaiting_registration;
    simpl; try naive_solver;
    unfold Version.supports_managed_configuration, Version.supports_managed_editing,
      Version.supports_telemetry, Version.gate; simpl;
    repeat case_bool_decide; destruct (_ =? _), (_ <=? _); naive_solver.

Lemma active_step v sid d m s :
  transition_control (Active sid) v d m = Ok s ↔ s = Active sid ∧ active_phase v (d, m).
Proof. step_cases m. Qed.

Lemma registration_step v sid d m s :
  transition_control (AwaitingTunnelRegistration sid) v d m = Ok s ↔
    (s = AwaitingTunnelRegistration sid ∧ managed_phase v (d, m))
    ∨ (s = Active sid ∧ ∃ reg, m = MRegisterTunnels reg).
Proof. step_cases m. Qed.

(** Before registration every state accepts one kind of message. *)
Lemma early_step v s d m s' :
  transition_control s v d m = Ok s' →
  match s with
  | AwaitingHello => s' = AwaitingChallenge ∧ ∃ x, m = MClientHello x
  | AwaitingChallenge => ∃ x, m = MServerChallenge x ∧ s' = AwaitingAuthenticate (sc_session_id x)
  | AwaitingAuthenticate sid => s' = AwaitingAuthResult sid ∧ ∃ x, m = MClientAuthenticate x
  | AwaitingAuthResult sid => ∃ x, m = MAuthResult x
      ∧ s' = if ar_accepted x then AwaitingTunnelRegistration sid else Rejected
  | _ => True
  end.
Proof.
  destruct s; try done; destruct m; unfold transition_control; simpl;
    rewrite ?andb_false_r; try naive_solver.
  intros Hr. eexists; split; [reflexivity|]. by destruct (ar_accepted _); simplify_eq.
Qed.

Lemma rejected_step v d m : transition_control Rejected v d m = Err invalid_state.
Proof. destruct m; unfold transition_control; simpl; by rewrite ?andb_false_r. Qed.

Lemma run_cons v s d m tr s' :
  run v s ((d, m) :: tr) = Ok s' ↔ ∃ s1, transition_control s v d m = Ok s1 ∧ run v s1 tr = Ok s'.
Proof. simpl. apply res_bind_Ok. Qed.

Lemma run_active v sid tr s :
  run v (Active sid) tr = Ok s ↔ s = Active sid ∧ Forall (active_phase v) tr.
Proof.
  revert s; induction tr as [|[d m] tr IH]; intros s; [simpl; naive_solver|].
  rewrite run_cons, Forall_cons. setoid_rewrite active_step. naive_solver.
Qed.

Lemma run_rejected v tr s : run v Rejected tr = Ok s → s = Rejected ∧ tr = [].
Proof. destruct tr as [|[d m] tr]; [by intros [= ->]|]. simpl. by rewrite rejected_step. Qed.

Lemma run_registration v sid tr sid' :
  run v (AwaitingTunnelRegistration sid) tr = Ok (Active sid') ↔
  sid' = sid ∧ ∃ managed d reg steady, tr = managed ++ (d, MRegisterTunnels reg) :: steady
    ∧ Forall (managed_phase v) managed ∧ Forall (active_phase v) steady.
Proof.
  split.
  - induction tr as [|[d m] tr IH]; [done|]. rewrite run_cons.
    intros (s1&[[-> Hm]|[-> [reg ->]]]%registration_step&Hr).
    + destruct (IH Hr) as (->&managed&d'&reg&steady&->&Hman&Hst). split; [done|].
      exists ((d, m) :: managed), d', reg, steady. split; [done|]. by split; [constructor|].
    + apply run_active in Hr as [[= ->] Hst]. split; [done|]. exists [], d, reg, tr. eauto.
  - intros (->&managed&d&reg&steady&->&Hman&Hst).
    induction Hman as [|[d' m'] managed Hm _ IH].
    + simpl. by apply run_active.
    + apply run_cons. exists (AwaitingTunnelRegistration sid).
      split; [apply registration_step; by left|done].
Qed.

(** * Properties *)

(** a control connection becomes active exactly on the transcripts of the protocol:
    hello, challenge, authentication, acceptance, then only managed-configuration messages
    the version and direction allow, then the tunnel registration, then only the messages
    of an active connection; and its session is the one the challenge named. *)
Theorem active_iff_transcript v tr sid :
  run v AwaitingHello tr = Ok (Active sid) ↔ active_transcript v sid tr.
Proof.
  split.
  - destruct tr as [|[d1 m1] tr]; [done|]. intros (s1&[-> [hello ->]]%early_step&Hr)%run_cons.
    destruct tr as [|[d2 m2] tr]; [done|]. apply run_cons in Hr as (s2&(chal&->&->)%early_step&Hr).
    destruct tr as [|[d3 m3] tr]; [done|]. apply run_cons in Hr as (s3&[-> [auth ->]]%early_step&Hr).
    destruct tr as [|[d4 m4] tr]; [done|]. apply run_cons in Hr as (s4&(result&->&->)%early_step&Hr).
    destruct (ar_accepted result) eqn:Hacc; [|by apply run_rejected in Hr as [? _]].
    apply run_registration in Hr as (->&managed&d&reg&steady&->&Hman&Hst).
    by apply active_transcript_intro.
  - intros [d1 d2 d3 d4 d5 hello chal auth result managed reg steady <- Hacc Hman Hst].
    simpl. rewrite Hacc. simpl. apply run_registration. eauto 10.
Qed.

(** Negotiation is symmetric and never exceeds either side, and a feature that needs a
    minor version ([supports_telemetry], [supports_managed_configuration],
    [supports_managed_editing], [supports_client_profile]) is supported by the negotiated
    version exactly when both sides support it. *)
Theorem negotiate_features a b :
  Version.negotiate a b = Version.negotiate b a
  ∧ ∀ v, Version.negotiate a b = Ok v →
    minor v ≤ minor a ∧ minor v ≤ minor b
    ∧ Version.supports_telemetry v = Version.supports_telemetry a && Version.supports_telemetry b
    ∧ Version.supports_managed_configuration v =
        Version.supports_managed_configuration a && Version.supports_managed_configuration b
    ∧ Version.supports_managed_editing v =
        Version.supports_managed_editing a && Version.supports_managed_editing b
    ∧ Version.supports_client_profile v =
        Version.supports_client_profile a && Version.supports_client_profile b.
Proof.
  split.
  - unfold Version.negotiate. rewrite !Version.min_u16_min, Z.eqb_sym, Z.min_comm.
    by destruct (Z.eqb_spec (major b) (major a)) as [->|].
  - intros v Hv. pose proof (λ m, Version.negotiate_gate m a b v Hv).
    apply Version.negotiate_Ok in Hv as (_&_&->). split_and!; [lia|lia|..]; apply H.
Qed.

Lemma negotiate_features_witness :
  Version.negotiate Version.V0_3 Version.SUPPORTED = Ok Version.V0_3
  ∧ Version.supports_managed_configuration Version.V0_3 =
      Version.supports_managed_configuration Version.V0_3
      && Version.supports_managed_configuration Version.SUPPORTED.
Proof.
  split; [reflexivity|].
  apply (proj2 (negotiate_features Version.V0_3 Version.SUPPORTED) Version.V0_3). reflexivity.
Defined.

(** Once active, whatever is exchanged a connection stays active with the same session
    or the exchange is refused, a rejected connection accepts nothing, and a data channel
    is admitted exactly when the connection is active and the channel names its session. *)
Theorem session_is_fixed v sid tr s candidate :
  (run v (Active sid) tr = Ok s → s = Active sid)
  ∧ (∀ d m, transition_control Rejected v d m = Err invalid_state)
  ∧ (validate_data_channel_session s candidate = Ok tt ↔ s = Active candidate).
Proof.
  split_and!; [by intros []%run_active|apply rejected_step|].
  destruct s; simpl; try naive_solver. case_bool_decide; naive_solver.
Qed.

Lemma session_is_fixed_witness :
  run Version.SUPPORTED (Active [x07])
    [(ClientToServer, MHeartbeat {| hb_sequence := 1 |})] = Ok (Active [x07])
  ∧ Active [x07] = Active [x07].
Proof.
  split; [reflexivity|].
  apply (proj1 (session_is_fixed Version.SUPPORTED [x07]
    [(ClientToServer, MHeartbeat {| hb_sequence := 1 |})] (Active [x07]) [x07])).
  reflexivity.
Defined.
