(* ===== verification/RvMessages.v ===== *)
(** The rendezvous wire types ([rustgo-rendezvous/src/message.rs]): candidates, envelopes,
    peer relay frames and observation packets, their codecs and bounds, and their passage
    through the opaque control messages. *)

From S2P Require Import Prelude.
From S2P Require Import Wire.
From S2P Require Import Postcard.
From S2P Require Import PostcardRef.
From S2P Require Import Messages.
From S2P Require Import MessageCodecs.
From S2P Require Import Frame.
From Stdlib Require Import Strings.Byte.
From stdpp Require Import prelude list.

#[local] Open Scope Z_scope.
#[local] Open Scope codec_scope.

(** * Constants *)

Definition MAX_CANDIDATES : Z := 32.
Definition MAX_DEVICE_NAME_BYTES : Z := 128.
Definition MAX_EXPORT_NAME_BYTES : Z := 128.
Definition MAX_FOUNDATION_BYTES : Z := 64.
Definition MAX_OBSERVATION_SOURCE_BYTES : Z := 128.
Definition MAX_EPHEMERAL_PUBLIC_KEY_BYTES : Z := 64.
Definition MAX_TRANSPORT_KEY_BINDINGS : Z := 3.
Definition MAX_SIGNATURE_BYTES : Z := 128.
Definition MAX_ERROR_DETAIL_BYTES : Z := 512.
Definition MAX_PEER_RELAY_CIPHERTEXT_BYTES : Z := 65536.
Definition OBSERVATION_TOKEN_BYTES : Z := 32.
Definition OBSERVATION_NONCE_BYTES : Z := 16.
Definition MAX_POSTCARD_U16_BYTES : Z := 3.

(** * Types *)

Inductive ObservationEndpoint := Primary | Alternate.
#[export] Instance observation_endpoint_eq_dec : EqDecision ObservationEndpoint.
Proof. solve_decision. Defined.

Record ObservationGrant := {
  og_primary_token : list byte;
  og_alternate_token : list byte;
  og_expires_unix_secs : Z;
}.
Record ObservationProbe := { op_token : list byte; op_nonce : list byte }.
Record ObservationReply := {
  or_nonce : list byte;
  or_observed_source : SocketAddress;
  or_endpoint : ObservationEndpoint;
}.

Inductive ObservationWireError := TooLarge | Codec | WrongControlMessage.

(** [CandidateGeneration::new]: nonzero. *)
Definition CandidateGeneration_new (value : Z) : option Z :=
  if value =? 0 then None else Some value.
Definition CandidateGeneration_INITIAL : Z := 1.

Inductive CandidateTransport := QuicUdp | NativeTcp | Relay.
#[export] Instance candidate_transport_eq_dec : EqDecision CandidateTransport.
Proof. solve_decision. Defined.
#[export] Instance socket_address_eq_dec : EqDecision SocketAddress.
Proof. solve_decision. Defined.

Record Candidate := {
  cand_transport : CandidateTransport;
  cand_address : SocketAddress;
  cand_priority : Z;
  cand_foundation : list byte;
  cand_generation : Z;
  cand_expires_unix_secs : Z;
  cand_observation_source : list byte;
}.
Record RendezvousRequest := { rr_export : list byte }.
Record ProviderDecision := {
  pd_accepted : bool;
  pd_protocol : option Z;
  pd_detail : option (list byte);
}.
Definition ProviderDecision_accepted (protocol : Z) : ProviderDecision :=
  {| pd_accepted := true; pd_protocol := Some protocol; pd_detail := None |}.
Definition ProviderDecision_rejected (detail : option (list byte)) : ProviderDecision :=
  {| pd_accepted := false; pd_protocol := None; pd_detail := detail |}.
Record CandidateSet := { cs_ephemeral_public_key : list byte; cs_candidates : list Candidate }.
Record TransportKeyBinding := {
  tkb_transport : CandidateTransport;
  tkb_ephemeral_public_key : list byte;
}.
Record CandidateSetV2 := {
  cs2_owner_is_initiator : bool;
  cs2_bindings : list TransportKeyBinding;
  cs2_candidates : list Candidate;
}.
Record ConnectivityResult := {
  cr_connected : bool;
  cr_transport : option CandidateTransport;
  cr_detail : option (list byte);
}.
Record RelayRequest := { rlr_datagram : bool }.
Record RendezvousClose := { rc_detail : option (list byte) }.
Record RendezvousError := { re_code : Z; re_detail : list byte }.

Inductive RendezvousPayload :=
| PRequest (value : RendezvousRequest)
| PProviderDecision (value : ProviderDecision)
| PCandidateSet (value : CandidateSet)
| PCandidateSetV2 (value : CandidateSetV2)
| PConnectivityResult (value : ConnectivityResult)
| PRelayRequest (value : RelayRequest)
| PClose (value : RendezvousClose)
| PError (value : RendezvousError).

Definition payload_message_id (p : RendezvousPayload) : Z :=
  match p with
  | PRequest _ => MessageId.RENDEZVOUS_REQUEST
  | PProviderDecision _ => MessageId.RENDEZVOUS_PROVIDER_DECISION
  | PCandidateSet _ => MessageId.RENDEZVOUS_CANDIDATE_SET
  | PCandidateSetV2 _ => MessageId.RENDEZVOUS_CANDIDATE_SET_V2
  | PConnectivityResult _ => MessageId.RENDEZVOUS_CONNECTIVITY_RESULT
  | PRelayRequest _ => MessageId.RENDEZVOUS_RELAY_REQUEST
  | PClose _ => MessageId.RENDEZVOUS_CLOSE
  | PError _ => MessageId.RENDEZVOUS_ERROR
  end.

Record RendezvousEnvelope := {
  env_version : ProtocolVersion;
  env_session_id : list byte;
  env_sender : list byte;
  env_target : list byte;
  env_step : Z;
  env_generation : Z;
  env_expires_unix_secs : Z;
  env_payload : RendezvousPayload;
  env_signature : list byte;
}.

(** [RendezvousEnvelope::is_expired_at]. *)
Definition is_expired_at (e : RendezvousEnvelope) (now_unix_secs : Z) : bool :=
  env_expires_unix_secs e <=? now_unix_secs.

Record PeerRelayFrame := {
  prf_session_id : list byte;
  prf_channel_id : Z;
  prf_sequence : Z;
  prf_flags : Z;
  prf_ciphertext_len : Z;
  prf_ciphertext : list byte;
}.

Inductive WireError :=
| Encode
| Decode
| EnvelopeTooLarge (e : BoundExceeded)
| RelayFrameTooLarge (e : BoundExceeded)
| CiphertextTooLarge
| ZeroRelayChannel
| UnsupportedRelayFlags (flags : Z)
| InvalidTransportBindings
| MessageIdMismatch (expected actual : Z)
| NotRendezvousMessage (id : Z)
| NotPeerRelayFrame (id : Z).

(** * Checks *)

Module PeerRelayFlags.
Definition RELIABLE : Z := 1.
Definition DATAGRAM : Z := 2.
Definition FIN : Z := 4.
Definition SUPPORTED : Z := Z.lor (Z.lor RELIABLE DATAGRAM) FIN.
(** [!x] on a [u8]. *)
Definition u8_not (x : Z) : Z := Z.lxor 255 x.
(** [TryFrom<u8> for PeerRelayFlags]. *)
Definition try_from (value : Z) : res WireError Z :=
  if Z.land value (u8_not SUPPORTED) =? 0 then Ok value else Err (UnsupportedRelayFlags value).
End PeerRelayFlags.

(** The match of [Deserialize for ProviderDecision]. *)
Definition provider_decision_valid (d : ProviderDecision) : bool :=
  match pd_accepted d, pd_protocol d, pd_detail d with
  | true, Some _, None => true
  | false, None, _ => true
  | _, _, _ => false
  end.

(** The checks of [Deserialize for PeerRelayFrame]. *)
Definition peer_relay_frame_valid (f : PeerRelayFrame) : bool :=
  negb (prf_channel_id f =? 0) && (prf_ciphertext_len f =? blen (prf_ciphertext f)).

(** [CandidateSetV2::validate]: the loop over the bindings, then the candidates. *)
Fixpoint validate_bindings (seen : list CandidateTransport) (bindings : list TransportKeyBinding)
    : res WireError (list CandidateTransport) :=
  match bindings with
  | [] => Ok seen
  | binding :: bindings =>
    if negb (blen (tkb_ephemeral_public_key binding) =? 32)
       || bool_decide (tkb_transport binding ∈ seen)
    then Err InvalidTransportBindings
    else validate_bindings (seen ++ [tkb_transport binding]) bindings
  end.

Definition CandidateSetV2_validate (s : CandidateSetV2) : res WireError unit :=
  seen ← validate_bindings [] (cs2_bindings s);
  if bool_decide (seen = [])
     || existsb (λ c, (cand_generation c =? 0) || negb (bool_decide (cand_transport c ∈ seen)))
          (cs2_candidates s)
  then Err InvalidTransportBindings else Ok tt.

(** * Codecs *)

Section codecs.
Context `{P : Postcard}.

Definition endpoint_codec : codec ObservationEndpoint :=
  codec_enum 2 (λ e, match e with Primary => 0 | Alternate => 1 end)
    (λ i, if i =? 0 then Some Primary else if i =? 1 then Some Alternate else None).
Definition transport_codec : codec CandidateTransport :=
  codec_enum 3 (λ t, match t with QuicUdp => 0 | NativeTcp => 1 | Relay => 2 end)
    (λ i, if i =? 0 then Some QuicUdp else if i =? 1 then Some NativeTcp
          else if i =? 2 then Some Relay else None).
Definition observation_grant_codec : codec ObservationGrant :=
  codec_struct
    (λ m, (og_primary_token m, og_alternate_token m, og_expires_unix_secs m))
    (λ '(a, b, c), Build_ObservationGrant a b c)
    (pc_array 32 ⊗ pc_array 32 ⊗ pc_u64).
Definition observation_probe_codec : codec ObservationProbe :=
  codec_struct (λ m, (op_token m, op_nonce m)) (λ '(a, b), Build_ObservationProbe a b)
    (pc_array 32 ⊗ pc_array 16).
Definition observation_reply_codec : codec ObservationReply :=
  codec_struct
    (λ m, (or_nonce m, or_observed_source m, or_endpoint m))
    (λ '(a, b, c), Build_ObservationReply a b c)
    (pc_array 16 ⊗ socket_address_codec ⊗ endpoint_codec).
(** [Deserialize for CandidateGeneration]. *)
Definition generation_codec : codec Z :=
  codec_check (λ v, bool_decide (is_Some (CandidateGeneration_new v))) pc_u64.
Definition candidate_codec : codec Candidate :=
  codec_struct
    (λ m, (cand_transport m, cand_address m, cand_priority m, cand_foundation m,
           cand_generation m, cand_expires_unix_secs m, cand_observation_source m))
    (λ '(a, b, c, d, e, f, g), Build_Candidate a b c d e f g)
    (transport_codec ⊗ socket_address_codec ⊗ pc_u32 ⊗ bounded_str MAX_FOUNDATION_BYTES
     ⊗ generation_codec ⊗ pc_u64 ⊗ bounded_str MAX_OBSERVATION_SOURCE_BYTES).
Definition rendezvous_request_codec : codec RendezvousRequest :=
  codec_struct rr_export Build_RendezvousRequest (bounded_str MAX_EXPORT_NAME_BYTES).
Definition provider_decision_codec : codec ProviderDecision :=
  codec_check provider_decision_valid
    (codec_struct (λ m, (pd_accepted m, pd_protocol m, pd_detail m))
       (λ '(a, b, c), Build_ProviderDecision a b c)
       (pc_bool ⊗ opt tunnel_protocol_codec ⊗ opt (bounded_str MAX_ERROR_DETAIL_BYTES))).
Definition candidate_set_codec : codec CandidateSet :=
  codec_struct (λ m, (cs_ephemeral_public_key m, cs_candidates m))
    (λ '(a, b), Build_CandidateSet a b)
    (bounded_bytes MAX_EPHEMERAL_PUBLIC_KEY_BYTES ⊗ bounded_vec MAX_CANDIDATES candidate_codec).
Definition transport_key_binding_codec : codec TransportKeyBinding :=
  codec_struct (λ m, (tkb_transport m, tkb_ephemeral_public_key m))
    (λ '(a, b), Build_TransportKeyBinding a b)
    (transport_codec ⊗ bounded_bytes MAX_EPHEMERAL_PUBLIC_KEY_BYTES).
Definition candidate_set_v2_codec : codec CandidateSetV2 :=
  codec_struct (λ m, (cs2_owner_is_initiator m, cs2_bindings m, cs2_candidates m))
    (λ '(a, b, c), Build_CandidateSetV2 a b c)
    (pc_bool ⊗ bounded_vec MAX_TRANSPORT_KEY_BINDINGS transport_key_binding_codec
     ⊗ bounded_vec MAX_CANDIDATES candidate_codec).
Definition connectivity_result_codec : codec ConnectivityResult :=
  codec_struct (λ m, (cr_connected m, cr_transport m, cr_detail m))
    (λ '(a, b, c), Build_ConnectivityResult a b c)
    (pc_bool ⊗ opt transport_codec ⊗ opt (bounded_str MAX_ERROR_DETAIL_BYTES)).
Definition relay_request_codec : codec RelayRequest :=
  codec_struct rlr_datagram Build_RelayRequest pc_bool.
Definition rendezvous_close_codec : codec RendezvousClose :=
  codec_struct rc_detail Build_RendezvousClose (opt (bounded_str MAX_ERROR_DETAIL_BYTES)).
Definition rendezvous_error_codec : codec RendezvousError :=
  codec_struct (λ m, (re_code m, re_detail m)) (λ '(a, b), Build_RendezvousError a b)
    (pc_u16 ⊗ bounded_str MAX_ERROR_DETAIL_BYTES).

(** One variant of an enum with data: its index, then its content. *)
Definition ser_variant {A} (i : Z) (c : codec A) (a : A) : list byte := ser pc_variant i ++ ser c a.
Definition de_variant {A B} (f : A → B) (c : codec A) (bs : list byte) : option (B * list byte) :=
  '(a, r) ← de c bs; Some (f a, r).

Definition rendezvous_payload_codec : codec RendezvousPayload := {|
  ser p := match p with
    | PRequest v => ser_variant 0 rendezvous_request_codec v
    | PProviderDecision v => ser_variant 1 provider_decision_codec v
    | PCandidateSet v => ser_variant 2 candidate_set_codec v
    | PCandidateSetV2 v => ser_variant 3 candidate_set_v2_codec v
    | PConnectivityResult v => ser_variant 4 connectivity_result_codec v
    | PRelayRequest v => ser_variant 5 relay_request_codec v
    | PClose v => ser_variant 6 rendezvous_close_codec v
    | PError v => ser_variant 7 rendezvous_error_codec v
    end;
  de bs := '(i, r) ← de pc_variant bs;
    match i with
    | 0 => de_variant PRequest rendezvous_request_codec r
    | 1 => de_variant PProviderDecision provider_decision_codec r
    | 2 => de_variant PCandidateSet candidate_set_codec r
    | 3 => de_variant PCandidateSetV2 candidate_set_v2_codec r
    | 4 => de_variant PConnectivityResult connectivity_result_codec r
    | 5 => de_variant PRelayRequest relay_request_codec r
    | 6 => de_variant PClose rendezvous_close_codec r
    | 7 => de_variant PError rendezvous_error_codec r
    | _ => None
    end;
|}.

Definition version_codec : codec ProtocolVersion :=
  codec_struct (λ v, (major v, minor v)) (λ '(a, b), Build_ProtocolVersion a b)
    (pc_u16 ⊗ pc_u16).
Definition envelope_codec : codec RendezvousEnvelope :=
  codec_struct
    (λ m, (env_version m, env_session_id m, env_sender m, env_target m, env_step m,
           env_generation m, env_expires_unix_secs m, env_payload m, env_signature m))
    (λ '(a, b, c, d, e, f, g, h, i), Build_RendezvousEnvelope a b c d e f g h i)
    (version_codec ⊗ pc_array 32 ⊗ bounded_str MAX_DEVICE_NAME_BYTES
     ⊗ bounded_str MAX_DEVICE_NAME_BYTES ⊗ pc_u64 ⊗ generation_codec ⊗ pc_u64
     ⊗ rendezvous_payload_codec ⊗ bounded_bytes MAX_SIGNATURE_BYTES).
(** [Serialize] and [Deserialize] for [PeerRelayFlags] and [PeerRelayFrame]. *)
Definition peer_relay_flags_codec : codec Z :=
  codec_check (λ v, match PeerRelayFlags.try_from v with Ok _ => true | _ => false end) pc_u8.
Definition peer_relay_frame_codec : codec PeerRelayFrame :=
  codec_check peer_relay_frame_valid
    (codec_struct
       (λ m, (prf_session_id m, prf_channel_id m, prf_sequence m, prf_flags m,
              prf_ciphertext_len m, prf_ciphertext m))
       (λ '(a, b, c, d, e, f), Build_PeerRelayFrame a b c d e f)
       (pc_array 32 ⊗ pc_u64 ⊗ pc_u64 ⊗ peer_relay_flags_codec ⊗ pc_u32
        ⊗ bounded_bytes MAX_PEER_RELAY_CIPHERTEXT_BYTES)).

(** [postcard::from_bytes]: one value from the front; what follows is not looked at. *)
Definition from_bytes {A} (c : codec A) (bs : list byte) : option A :=
  '(a, _) ← de c bs; Some a.

(** * Operations *)

Definition encode_bounded {A} (c : codec A) (value : A) (maximum : Z)
    : res ObservationWireError (list byte) :=
  let encoded := ser c value in
  if maximum <? blen encoded then Err TooLarge else Ok encoded.

Definition decode_bounded {A} (c : codec A) (bytes : list byte) (maximum : Z)
    : res ObservationWireError A :=
  if maximum <? blen bytes then Err TooLarge else ok_or (from_bytes c bytes) Codec.

Definition ObservationGrant_to_protocol_message (g : ObservationGrant)
    : res ObservationWireError Message :=
  encoded ← encode_bounded observation_grant_codec g MAX_OBSERVATION_GRANT_BYTES;
  opaque ← map_err (λ _, TooLarge) (bounded_try_from MAX_OBSERVATION_GRANT_BYTES encoded);
  Ok (MObservationGrant opaque).
Definition ObservationGrant_from_protocol_message (m : Message)
    : res ObservationWireError ObservationGrant :=
  match m with
  | MObservationGrant opaque =>
    decode_bounded observation_grant_codec opaque MAX_OBSERVATION_GRANT_BYTES
  | _ => Err WrongControlMessage
  end.

Definition PROBE_MAX_WIRE_BYTES : Z := OBSERVATION_TOKEN_BYTES + OBSERVATION_NONCE_BYTES.
Definition REPLY_MAX_WIRE_BYTES : Z := OBSERVATION_NONCE_BYTES + 1 + 16 + MAX_POSTCARD_U16_BYTES + 1.
Definition ObservationProbe_encode (p : ObservationProbe) : res ObservationWireError (list byte) :=
  encode_bounded observation_probe_codec p PROBE_MAX_WIRE_BYTES.
Definition ObservationProbe_decode (bytes : list byte)
    : res ObservationWireError ObservationProbe :=
  decode_bounded observation_probe_codec bytes PROBE_MAX_WIRE_BYTES.
Definition ObservationReply_encode (r : ObservationReply) : res ObservationWireError (list byte) :=
  encode_bounded observation_reply_codec r REPLY_MAX_WIRE_BYTES.
Definition ObservationReply_decode (bytes : list byte)
    : res ObservationWireError ObservationReply :=
  decode_bounded observation_reply_codec bytes REPLY_MAX_WIRE_BYTES.

Definition envelope_to_protocol_message (e : RendezvousEnvelope) : res WireError Message :=
  let encoded := ser envelope_codec e in
  opaque ← map_err EnvelopeTooLarge (bounded_try_from MAX_RENDEZVOUS_ENVELOPE_BYTES encoded);
  let id := payload_message_id (env_payload e) in
  if id =? MessageId.RENDEZVOUS_REQUEST then Ok (MRendezvousRequest opaque)
  else if id =? MessageId.RENDEZVOUS_PROVIDER_DECISION then Ok (MRendezvousProviderDecision opaque)
  else if id =? MessageId.RENDEZVOUS_CANDIDATE_SET then Ok (MRendezvousCandidateSet opaque)
  else if id =? MessageId.RENDEZVOUS_CANDIDATE_SET_V2 then Ok (MRendezvousCandidateSetV2 opaque)
  else if id =? MessageId.RENDEZVOUS_CONNECTIVITY_RESULT then
    Ok (MRendezvousConnectivityResult opaque)
  else if id =? MessageId.RENDEZVOUS_RELAY_REQUEST then Ok (MRendezvousRelayRequest opaque)
  else if id =? MessageId.RENDEZVOUS_CLOSE then Ok (MRendezvousClose opaque)
  else if id =? MessageId.RENDEZVOUS_ERROR then Ok (MRendezvousError opaque)
  else Panic.

Definition envelope_from_protocol_message (message : Message) : res WireError RendezvousEnvelope :=
  let actual := message_id message in
  opaque ←
    match message with
    | MRendezvousRequest value | MRendezvousProviderDecision value
    | MRendezvousCandidateSet value | MRendezvousCandidateSetV2 value
    | MRendezvousConnectivityResult value | MRendezvousRelayRequest value
    | MRendezvousClose value | MRendezvousError value => Ok value
    | _ => Err (NotRendezvousMessage actual)
    end;
  envelope ← ok_or (from_bytes envelope_codec opaque) Decode;
  let expected := payload_message_id (env_payload envelope) in
  if negb (expected =? actual) then Err (MessageIdMismatch expected actual) else
  match env_payload envelope with
  | PCandidateSetV2 candidate_set =>
    _ ← CandidateSetV2_validate candidate_set;
    if existsb (λ c, negb (cand_generation c =? env_generation envelope)
                     || negb (cand_expires_unix_secs c =? env_expires_unix_secs envelope))
         (cs2_candidates candidate_set)
    then Err InvalidTransportBindings else Ok envelope
  | _ => Ok envelope
  end.

Definition PeerRelayFrame_new (session_id : list byte) (channel_id sequence flags : Z)
    (ciphertext : list byte) : res WireError PeerRelayFrame :=
  if channel_id =? 0 then Err ZeroRelayChannel else
  (* u32::try_from(ciphertext.len()) *)
  ciphertext_len ← (if u32_max <? blen ciphertext then Err CiphertextTooLarge
                    else Ok (blen ciphertext));
  ciphertext ← map_err (λ _, CiphertextTooLarge)
                 (bounded_try_from MAX_PEER_RELAY_CIPHERTEXT_BYTES ciphertext);
  Ok {| prf_session_id := session_id; prf_channel_id := channel_id; prf_sequence := sequence;
        prf_flags := flags; prf_ciphertext_len := ciphertext_len; prf_ciphertext := ciphertext |}.
Definition PeerRelayFrame_to_protocol_message (f : PeerRelayFrame) : res WireError Message :=
  opaque ← map_err RelayFrameTooLarge
             (bounded_try_from MAX_PEER_RELAY_FRAME_BYTES (ser peer_relay_frame_codec f));
  Ok (MPeerRelayFrame opaque).
Definition PeerRelayFrame_from_protocol_message (message : Message)
    : res WireError PeerRelayFrame :=
  match message with
  | MPeerRelayFrame opaque => ok_or (from_bytes peer_relay_frame_codec opaque) Decode
  | _ => Err (NotPeerRelayFrame (message_id message))
  end.
End codecs.
