(* ===== verification/RvFacts.v ===== *)
(** Type invariants, codec laws and properties of the rendezvous wire types. *)

From S2P Require Import Prelude.
From S2P Require Import Wire.
From S2P Require Import Postcard.
From S2P Require Import PostcardRef.
From S2P Require Import Messages.
From S2P Require Import MessageCodecs.
From S2P Require Import Frame.
From S2P Require Import RvMessages.
From Stdlib Require Import Strings.Byte.
From stdpp Require Import prelude list strings.

#[local] Open Scope Z_scope.
#[local] Open Scope codec_scope.

(** * Type invariants *)

Definition generation_wf (g : Z) : Prop := in_u 64 g ∧ g ≠ 0.
Definition observation_grant_wf (m : ObservationGrant) : Prop :=
  length (og_primary_token m) = 32%nat ∧ length (og_alternate_token m) = 32%nat
  ∧ in_u 64 (og_expires_unix_secs m).
Definition observation_probe_wf (m : ObservationProbe) : Prop :=
  length (op_token m) = 32%nat ∧ length (op_nonce m) = 16%nat.
Definition observation_reply_wf (m : ObservationReply) : Prop :=
  length (or_nonce m) = 16%nat ∧ socket_address_wf (or_observed_source m).
Definition candidate_wf (c : Candidate) : Prop :=
  socket_address_wf (cand_address c) ∧ in_u 32 (cand_priority c)
  ∧ str_wf MAX_FOUNDATION_BYTES (cand_foundation c) ∧ generation_wf (cand_generation c)
  ∧ in_u 64 (cand_expires_unix_secs c)
  ∧ str_wf MAX_OBSERVATION_SOURCE_BYTES (cand_observation_source c).
Definition rendezvous_request_wf (m : RendezvousRequest) : Prop :=
  str_wf MAX_EXPORT_NAME_BYTES (rr_export m).
Definition provider_decision_wf (m : ProviderDecision) : Prop :=
  opt_wf tunnel_protocol_wf (pd_protocol m)
  ∧ opt_wf (str_wf RvMessages.MAX_ERROR_DETAIL_BYTES) (pd_detail m)
  ∧ provider_decision_valid m = true.
Definition candidate_set_wf (m : CandidateSet) : Prop :=
  bytes_wf MAX_EPHEMERAL_PUBLIC_KEY_BYTES (cs_ephemeral_public_key m)
  ∧ blen (cs_candidates m) ≤ MAX_CANDIDATES ∧ Forall candidate_wf (cs_candidates m).
Definition transport_key_binding_wf (m : TransportKeyBinding) : Prop :=
  bytes_wf MAX_EPHEMERAL_PUBLIC_KEY_BYTES (tkb_ephemeral_public_key m).
Definition candidate_set_v2_wf (m : CandidateSetV2) : Prop :=
  (blen (cs2_bindings m) ≤ MAX_TRANSPORT_KEY_BINDINGS
   ∧ Forall transport_key_binding_wf (cs2_bindings m))
  ∧ blen (cs2_candidates m) ≤ MAX_CANDIDATES ∧ Forall candidate_wf (cs2_candidates m).
Definition connectivity_result_wf (m : ConnectivityResult) : Prop :=
  opt_wf (str_wf RvMessages.MAX_ERROR_DETAIL_BYTES) (cr_detail m).
Definition rendezvous_close_wf (m : RendezvousClose) : Prop :=
  opt_wf (str_wf RvMessages.MAX_ERROR_DETAIL_BYTES) (rc_detail m).
Definition rendezvous_error_wf (m : RendezvousError) : Prop :=
  in_u 16 (re_code m) ∧ str_wf RvMessages.MAX_ERROR_DETAIL_BYTES (re_detail m).
Definition payload_wf (p : RendezvousPayload) : Prop :=
  match p with
  | PRequest v => rendezvous_request_wf v
  | PProviderDecision v => provider_decision_wf v
  | PCandidateSet v => candidate_set_wf v
  | PCandidateSetV2 v => candidate_set_v2_wf v
  | PConnectivityResult v => connectivity_result_wf v
  | PRelayRequest _ => True
  | PClose v => rendezvous_close_wf v
  | PError v => rendezvous_error_wf v
  end.
Definition envelope_wf (e : RendezvousEnvelope) : Prop :=
  version_wf (env_version e) ∧ length (env_session_id e) = 32%nat
  ∧ str_wf MAX_DEVICE_NAME_BYTES (env_sender e) ∧ str_wf MAX_DEVICE_NAME_BYTES (env_target e)
  ∧ in_u 64 (env_step e) ∧ generation_wf (env_generation e)
  ∧ in_u 64 (env_expires_unix_secs e) ∧ payload_wf (env_payload e)
  ∧ bytes_wf RvMessages.MAX_SIGNATURE_BYTES (env_signature e).
Definition relay_flags_wf (f : Z) : Prop := in_u 8 f ∧ Z.land f (PeerRelayFlags.u8_not 7) = 0.
Definition peer_relay_frame_wf (f : PeerRelayFrame) : Prop :=
  length (prf_session_id f) = 32%nat ∧ in_u 64 (prf_channel_id f) ∧ in_u 64 (prf_sequence f)
  ∧ relay_flags_wf (prf_flags f) ∧ in_u 32 (prf_ciphertext_len f)
  ∧ bytes_wf MAX_PEER_RELAY_CIPHERTEXT_BYTES (prf_ciphertext f)
  ∧ peer_relay_frame_valid f = true.

(** * Laws *)

Section laws.
Context `{P : Postcard} `{!PostcardLaws P}.

#[export] Instance endpoint_law : CodecLaw endpoint_codec (λ _, True) 1.
Proof. apply codec_enum_law; [lia|by intros []..]. Qed.
#[export] Instance transport_law : CodecLaw transport_codec (λ _, True) 1.
Proof. apply codec_enum_law; [lia|by intros []..]. Qed.
#[export] Instance generation_law : CodecLaw generation_codec generation_wf 10.
Proof.
  eapply codec_law_weaken; [apply codec_check_law, law_u64| |done].
  intros g. unfold generation_wf. rewrite bool_decide_eq_true. unfold CandidateGeneration_new.
  destruct (Z.eqb_spec g 0); naive_solver.
Qed.
#[export] Instance observation_grant_law : CodecLaw observation_grant_codec observation_grant_wf 74.
Proof. unfold observation_grant_codec. struct_law observation_grant_wf. Qed.
#[export] Instance observation_probe_law : CodecLaw observation_probe_codec observation_probe_wf 48.
Proof. unfold observation_probe_codec. struct_law observation_probe_wf. Qed.
#[export] Instance observation_reply_law : CodecLaw observation_reply_codec observation_reply_wf 37.
Proof. unfold observation_reply_codec. struct_law observation_reply_wf. Qed.
#[export] Instance candidate_law : CodecLaw candidate_codec candidate_wf 241.
Proof. unfold candidate_codec. struct_law candidate_wf. Qed.
#[export] Instance rendezvous_request_law : CodecLaw rendezvous_request_codec rendezvous_request_wf 130.
Proof. unfold rendezvous_request_codec. struct_law rendezvous_request_wf. Qed.
#[export] Instance provider_decision_law : CodecLaw provider_decision_codec provider_decision_wf 518.
Proof. unfold provider_decision_codec. struct_law provider_decision_wf. Qed.
#[export] Instance candidate_set_law : CodecLaw candidate_set_codec candidate_set_wf 7778.
Proof. unfold candidate_set_codec. struct_law candidate_set_wf. Qed.
#[export] Instance transport_key_binding_law :
  CodecLaw transport_key_binding_codec transport_key_binding_wf 66.
Proof. unfold transport_key_binding_codec. struct_law transport_key_binding_wf. Qed.
#[export] Instance candidate_set_v2_law : CodecLaw candidate_set_v2_codec candidate_set_v2_wf 7913.
Proof. unfold candidate_set_v2_codec. struct_law candidate_set_v2_wf. Qed.
#[export] Instance connectivity_result_law :
  CodecLaw connectivity_result_codec connectivity_result_wf 518.
Proof. unfold connectivity_result_codec. struct_law connectivity_result_wf. Qed.
#[export] Instance relay_request_law : CodecLaw relay_request_codec (λ _, True) 1.
Proof.
  unfold relay_request_codec. eapply codec_law_weaken; [codec_law|by intros []|lia].
Qed.
#[export] Instance rendezvous_close_law : CodecLaw rendezvous_close_codec rendezvous_close_wf 515.
Proof. unfold rendezvous_close_codec. struct_law rendezvous_close_wf. Qed.
#[export] Instance rendezvous_error_law : CodecLaw rendezvous_error_codec rendezvous_error_wf 517.
Proof. unfold rendezvous_error_codec. struct_law rendezvous_error_wf. Qed.
#[export] Instance version_law : CodecLaw version_codec version_wf 6.
Proof. unfold version_codec. struct_law version_wf. Qed.

(** One variant: its laws follow from those of its content. *)
Lemma ser_variant_rt {A} i (c : codec A) wf m a rest :
  CodecLaw c wf m → 0 ≤ i < 128 → wf a →
  de pc_variant (ser_variant i c a ++ rest) = Some (i, ser c a ++ rest)
  ∧ de c (ser c a ++ rest) = Some (a, rest)
  ∧ blen (ser_variant i c a) ≤ 1 + m.
Proof.
  intros L Hi Ha. unfold ser_variant. rewrite <- app_assoc.
  split_and!; [apply (codec_rt (CodecLaw := law_variant)); unfold in_u; lia|by apply codec_rt|].
  rewrite blen_app. pose proof (codec_size a Ha). pose proof (law_variant_sized 1 i). lia.
Qed.

Lemma de_variant_Some {A B} (f : A → B) (c : codec A) wf m bs b rest :
  CodecLaw c wf m → de_variant f c bs = Some (b, rest) →
  (∃ a, b = f a ∧ wf a) ∧ ∃ used, bs = used ++ rest.
Proof.
  intros L. unfold de_variant. destruct (de c bs) as [[a r]|] eqn:E; [|done]. intros [= <- <-].
  split; [exists a; split; [done|by eapply codec_sound]|by eapply codec_suffix].
Qed.

#[export] Instance rendezvous_payload_law : CodecLaw rendezvous_payload_codec payload_wf 7914.
Proof.
  split; cbn [rendezvous_payload_codec ser de].
  - intros [v|v|v|v|v|v|v|v] rest Hv; cbn [payload_wf] in Hv;
      match goal with |- context [ser_variant ?i ?c v] =>
        destruct (ser_variant_rt i c _ _ v rest _ ltac:(lia) Hv) as (->&Hd&_) end;
      cbn [mbind option_bind]; unfold de_variant; by rewrite Hd.
  - intros [v|v|v|v|v|v|v|v] Hv; cbn [payload_wf] in Hv;
      match goal with |- context [ser_variant ?i ?c v] =>
        destruct (ser_variant_rt i c _ _ v [] _ ltac:(lia) Hv) as (_&_&?) end; lia.
  - intros bs p rest. destruct (de pc_variant bs) as [[i r]|]; cbn [mbind option_bind]; [|done].
    repeat case_match; try done;
      intros ((a&->&?)&_)%(de_variant_Some _ _ _ _ _ _ _ _); done.
  - intros bs p rest. destruct (de pc_variant bs) as [[i r]|] eqn:Ev; cbn [mbind option_bind]; [|done].
    apply (codec_suffix (CodecLaw := law_variant)) in Ev as [u ->].
    repeat case_match; try done;
      intros (_&used&->)%(de_variant_Some _ _ _ _ _ _ _ _); exists (u ++ used); by rewrite app_assoc.
Qed.

#[export] Instance envelope_law : CodecLaw envelope_codec envelope_wf 8372.
Proof. unfold envelope_codec. struct_law envelope_wf. Qed.

#[export] Instance peer_relay_flags_law : CodecLaw peer_relay_flags_codec relay_flags_wf 1.
Proof.
  eapply codec_law_weaken; [apply codec_check_law, law_u8| |done].
  intros f. unfold relay_flags_wf, PeerRelayFlags.try_from.
  change PeerRelayFlags.SUPPORTED with 7.
  destruct (Z.eqb_spec (Z.land f (PeerRelayFlags.u8_not 7)) 0); naive_solver.
Qed.
#[export] Instance peer_relay_frame_law : CodecLaw peer_relay_frame_codec peer_relay_frame_wf 65597.
Proof. unfold peer_relay_frame_codec. struct_law peer_relay_frame_wf. Qed.
End laws.

(** * Lemmas *)

(** A versioned candidate set binds each transport at most once, to a 32-byte key, and has
    candidates only for bound transports. *)
Definition candidate_set_v2_ok (s : CandidateSetV2) : Prop :=
  cs2_bindings s ≠ []
  ∧ NoDup (tkb_transport <$> cs2_bindings s)
  ∧ Forall (λ b, blen (tkb_ephemeral_public_key b) = 32) (cs2_bindings s)
  ∧ Forall (λ c, cand_generation c ≠ 0 ∧ cand_transport c ∈ tkb_transport <$> cs2_bindings s)
      (cs2_candidates s).

(** The consistency of an envelope's payload with its header. *)
Definition envelope_consistent (e : RendezvousEnvelope) : Prop :=
  match env_payload e with
  | PCandidateSetV2 s =>
    candidate_set_v2_ok s
    ∧ Forall (λ c, cand_generation c = env_generation e
                   ∧ cand_expires_unix_secs c = env_expires_unix_secs e) (cs2_candidates s)
  | _ => True
  end.

Lemma existsb_false {A} (f : A → bool) l : existsb f l = false ↔ Forall (λ x, f x = false) l.
Proof.
  induction l as [|x l IH]; simpl; [by split|].
  rewrite orb_false_iff, Forall_cons. naive_solver.
Qed.

Lemma validate_bindings_Ok seen bindings out :
  NoDup seen →
  validate_bindings seen bindings = Ok out ↔
  out = seen ++ (tkb_transport <$> bindings) ∧ NoDup out
  ∧ Forall (λ b, blen (tkb_ephemeral_public_key b) = 32) bindings.
Proof.
  revert seen; induction bindings as [|b bindings IH]; intros seen Hnd; simpl.
  - rewrite app_nil_r. naive_solver.
  - rewrite Forall_cons. destruct (Z.eqb_spec (blen (tkb_ephemeral_public_key b)) 32); simpl.
    2:{ naive_solver. }
    case_bool_decide as Hin.
    + split; [done|]. intros (->&[_ [Hd _]]%NoDup_app&_). exfalso. eapply Hd; [done|left].
    + rewrite IH. 2:{ apply NoDup_app. split; [done|]. split; [|apply NoDup_singleton].
                      intros x Hx ->%list_elem_of_singleton. done. }
      rewrite <- app_assoc. simpl. naive_solver.
Qed.

Lemma CandidateSetV2_validate_Ok s u : CandidateSetV2_validate s = Ok u ↔ candidate_set_v2_ok s.
Proof.
  unfold CandidateSetV2_validate, candidate_set_v2_ok. destruct u. rewrite res_bind_Ok. split.
  - intros (seen&(->&Hnd&Hk)%validate_bindings_Ok&Hs); [|by constructor]. simpl in *.
    case_bool_decide as He; [done|]. simpl in Hs. destruct (existsb _ _) eqn:Hc; [done|].
    apply existsb_false in Hc. split_and!; try done; [intros Hn; by rewrite Hn in He|].
    eapply Forall_impl; [done|]. intros c [Hg Ht]%orb_false_iff. split; [lia|].
    rewrite negb_false_iff, bool_decide_eq_true in Ht. done.
  - intros (Hne&Hnd&Hk&Hc). exists (tkb_transport <$> cs2_bindings s).
    rewrite validate_bindings_Ok by constructor. split; [done|].
    assert (tkb_transport <$> cs2_bindings s ≠ []) as Hn by by intros ?%fmap_nil_inv.
    rewrite (bool_decide_eq_false_2 _ Hn). simpl.
    rewrite (proj2 (existsb_false _ _)); [done|]. eapply Forall_impl; [done|].
    intros c [Hg Ht]. rewrite bool_decide_eq_true_2 by done.
    by rewrite (proj2 (Z.eqb_neq _ _)).
Qed.

Lemma candidate_set_v2_validate_no_panic s : CandidateSetV2_validate s ≠ Panic.
Proof.
  assert (∀ l seen, validate_bindings seen l ≠ Panic) as Hb.
  { induction l as [|b l IH]; intros seen; simpl; [done|]. by case_match. }
  unfold CandidateSetV2_validate. specialize (Hb (cs2_bindings s) []).
  destruct (validate_bindings _ _); try done. simpl. by case_match.
Qed.

Section ops.
Context `{P : Postcard} `{!PostcardLaws P}.

Lemma from_bytes_rt {A} (c : codec A) wf max `{!CodecLaw c wf max} a rest :
  wf a → from_bytes c (ser c a ++ rest) = Some a.
Proof. intros Ha. unfold from_bytes. by rewrite codec_rt. Qed.

Lemma from_bytes_sound {A} (c : codec A) wf max `{!CodecLaw c wf max} bs a :
  from_bytes c bs = Some a → wf a.
Proof.
  unfold from_bytes. destruct (de c bs) as [[a' r]|] eqn:E; [|done]. intros [= <-].
  by eapply codec_sound.
Qed.

Lemma bounded_rt {A} (c : codec A) wf max `{!CodecLaw c wf max} a maximum :
  wf a → max ≤ maximum →
  encode_bounded c a maximum = Ok (ser c a) ∧ decode_bounded c (ser c a) maximum = Ok a.
Proof.
  intros Ha Hm. pose proof (codec_size a Ha). unfold encode_bounded, decode_bounded.
  rewrite (proj2 (Z.ltb_ge _ _)) by lia. split; [done|].
  rewrite <- (app_nil_r (ser c a)). by erewrite from_bytes_rt.
Qed.

(** The header check of an envelope taken from an opaque message. *)
Lemma envelope_checks e :
  (match env_payload e with
   | PCandidateSetV2 s =>
     _ ← CandidateSetV2_validate s;
     if existsb (λ c, negb (cand_generation c =? env_generation e)
                      || negb (cand_expires_unix_secs c =? env_expires_unix_secs e))
          (cs2_candidates s)
     then Err InvalidTransportBindings else Ok e
   | _ => Ok e
   end) = Ok e ↔ envelope_consistent e.
Proof.
  unfold envelope_consistent. destruct (env_payload e) as [| | |s| | | |]; try by split.
  rewrite res_bind_Ok. setoid_rewrite CandidateSetV2_validate_Ok. split.
  - intros (_&Hs&He). split; [done|]. destruct (existsb _ _) eqn:Hx; [done|].
    apply existsb_false in Hx. eapply Forall_impl; [done|]. simpl. intros c ?%orb_false_iff. lia.
  - intros [Hs Hc]. exists tt. split; [done|]. rewrite (proj2 (existsb_false _ _)); [done|].
    eapply Forall_impl; [done|]. simpl. intros c [-> ->]. by rewrite !Z.eqb_refl.
Qed.

Lemma envelope_from_inv m e :
  envelope_from_protocol_message m = Ok e →
  envelope_wf e ∧ payload_message_id (env_payload e) = message_id m ∧ envelope_consistent e.
Proof.
  unfold envelope_from_protocol_message.
  intros (opaque&_&(e'&He'%ok_or_Ok&Hc)%res_bind_Ok)%res_bind_Ok.
  destruct (Z.eqb_spec (payload_message_id (env_payload e')) (message_id m)) as [Heq|]; [|done].
  assert (e' = e) as <-.
  { revert Hc. simpl. destruct (env_payload e'); try (by intros [= ->]).
    intros (_&_&Hx)%res_bind_Ok. by case_match; simplify_eq. }
  split; [by eapply from_bytes_sound in He'; [|apply envelope_law]|]. split; [done|].
  by apply envelope_checks.
Qed.
End ops.

(** * Properties *)

Section props.
Context `{P : Postcard} `{!PostcardLaws P}.

(** every well-typed, consistent envelope passes through the control protocol
    unchanged: it always fits the opaque message bound, is carried by the message kind of
    its payload, and is read back from that message as itself. *)
Theorem envelope_roundtrip e :
  envelope_wf e → envelope_consistent e →
  ∃ m, envelope_to_protocol_message e = Ok m ∧ message_wf m
    ∧ message_id m = payload_message_id (env_payload e)
    ∧ envelope_from_protocol_message m = Ok e.
Proof.
  intros He Hc. pose proof (codec_size (c := envelope_codec) e He) as Hb.
  unfold envelope_to_protocol_message.
  rewrite (proj2 (bounded_try_from_Ok MAX_RENDEZVOUS_ENVELOPE_BYTES (ser envelope_codec e) _))
    by (split; [done|unfold MAX_RENDEZVOUS_ENVELOPE_BYTES; lia]).
  cbn [map_err mbind res_bind].
  assert (bytes_wf MAX_RENDEZVOUS_ENVELOPE_BYTES (ser envelope_codec e)) as Hwf
    by (unfold bytes_wf, MAX_RENDEZVOUS_ENVELOPE_BYTES; lia).
  assert (from_bytes envelope_codec (ser envelope_codec e) = Some e) as Hf.
  { rewrite <- (app_nil_r (ser envelope_codec e)). by eapply from_bytes_rt; [apply envelope_law|]. }
  pose proof (proj2 (envelope_checks e) Hc) as Hk.
  generalize dependent (ser envelope_codec e). intros bs Hb Hwf Hf.
  destruct (env_payload e) eqn:Hp; cbn;
    (eexists; split; [reflexivity|]; split; [exact Hwf|]; split; [reflexivity|]);
    unfold envelope_from_protocol_message; cbn [mbind res_bind]; rewrite Hf;
    cbn [ok_or mbind res_bind]; rewrite Hp; exact Hk.
Qed.

(** Whatever a control message holds, reading an envelope from it never panics, and
    what is accepted is a well-typed envelope whose payload is of the message's kind; a
    versioned candidate set in it binds each transport once, to a 32-byte key, and offers
    candidates only for bound transports, of the envelope's own generation and expiry. *)
Theorem envelope_accepted_consistent m :
  envelope_from_protocol_message m ≠ Panic
  ∧ ∀ e, envelope_from_protocol_message m = Ok e →
    envelope_wf e ∧ payload_message_id (env_payload e) = message_id m ∧ envelope_consistent e.
Proof.
  split; [|apply envelope_from_inv]. unfold envelope_from_protocol_message.
  destruct m; try done; cbn [mbind res_bind];
    match goal with |- context [from_bytes ?c ?b] => destruct (from_bytes c b) as [e|]; [|done] end;
    cbn [ok_or mbind res_bind]; (case_match; [done|]);
    (destruct (env_payload e) as [| | |s| | | |]; try done);
    pose proof (candidate_set_v2_validate_no_panic s);
    (destruct (CandidateSetV2_validate s); try done); cbn [mbind res_bind]; by case_match.
Qed.

(** A relay frame is constructible exactly on a nonzero channel with a ciphertext
    within the bound; it then always fits the opaque relay message and is read back
    unchanged, and every frame read from a message has a nonzero channel, supported flags
    and a declared length equal to its ciphertext's. *)
Theorem relay_frame_roundtrip session_id channel_id sequence flags ciphertext :
  length session_id = 32%nat → in_u 64 channel_id → in_u 64 sequence → relay_flags_wf flags →
  ((∃ f, PeerRelayFrame_new session_id channel_id sequence flags ciphertext = Ok f) ↔
     channel_id ≠ 0 ∧ blen ciphertext ≤ MAX_PEER_RELAY_CIPHERTEXT_BYTES)
  ∧ (∀ f, PeerRelayFrame_new session_id channel_id sequence flags ciphertext = Ok f →
       prf_ciphertext f = ciphertext ∧
       ∃ m, PeerRelayFrame_to_protocol_message f = Ok m
         ∧ PeerRelayFrame_from_protocol_message m = Ok f)
  ∧ (∀ m f, PeerRelayFrame_from_protocol_message m = Ok f → peer_relay_frame_wf f).
Proof.
  intros Hs Hc Hq Hf. unfold PeerRelayFrame_new.
  change (u32_max) with 4294967295. change MAX_PEER_RELAY_CIPHERTEXT_BYTES with 65536.
  destruct (Z.eqb_spec channel_id 0) as [Hz|Hz]; [split_and!; [naive_solver|done|]|].
  2: destruct (Z.ltb_spec 4294967295 (blen ciphertext));
    [split_and!; [split; [by intros []|lia]|done|]|].
  3: cbn [mbind res_bind]; unfold bounded_try_from;
     destruct (Z.ltb_spec 65536 (blen ciphertext)); cbn [map_err mbind res_bind];
     (split_and!; [first [split; [by intros []|lia] | split; [done|eauto]]| |]).
  1, 2, 4, 6: intros [] f; try done; intros ?%ok_or_Ok; eapply from_bytes_sound;
    [apply peer_relay_frame_law|done].
  - done.
  - intros f [= <-]. split; [done|].
    set (f := Build_PeerRelayFrame _ _ _ _ _ _).
    pose proof (blen_nonneg ciphertext).
    assert (peer_relay_frame_wf f) as Hwf.
    { unfold peer_relay_frame_wf, f, peer_relay_frame_valid, bytes_wf; simpl.
      rewrite Z.eqb_refl, (proj2 (Z.eqb_neq channel_id 0)) by done.
      change MAX_PEER_RELAY_CIPHERTEXT_BYTES with 65536. unfold in_u in *. split_and!; try done; lia. }
    pose proof (codec_size (c := peer_relay_frame_codec) f Hwf).
    unfold PeerRelayFrame_to_protocol_message, bounded_try_from.
    change MAX_PEER_RELAY_FRAME_BYTES with 65600. rewrite (proj2 (Z.ltb_ge _ _)) by lia.
    cbn [map_err mbind res_bind]. eexists; split; [done|].
    change (ok_or (from_bytes peer_relay_frame_codec (ser peer_relay_frame_codec f)) Decode = Ok f).
    rewrite <- (app_nil_r (ser peer_relay_frame_codec f)).
    by rewrite (from_bytes_rt peer_relay_frame_codec peer_relay_frame_wf 65597 f [] Hwf).
Qed.

(** Observation grants, probes and replies always fit their fixed wire bounds and are
    read back unchanged. *)
Theorem observation_packets_roundtrip g p r :
  observation_grant_wf g → observation_probe_wf p → observation_reply_wf r →
  (∃ m, ObservationGrant_to_protocol_message g = Ok m
    ∧ ObservationGrant_from_protocol_message m = Ok g)
  ∧ (∃ bytes, ObservationProbe_encode p = Ok bytes ∧ ObservationProbe_decode bytes = Ok p)
  ∧ (∃ bytes, ObservationReply_encode r = Ok bytes ∧ ObservationReply_decode bytes = Ok r).
Proof.
  intros Hg Hp Hr.
  destruct (bounded_rt observation_grant_codec _ _ g MAX_OBSERVATION_GRANT_BYTES Hg) as [Eg Dg];
    [zconst|].
  destruct (bounded_rt observation_probe_codec _ _ p PROBE_MAX_WIRE_BYTES Hp) as [Ep Dp]; [zconst|].
  destruct (bounded_rt observation_reply_codec _ _ r REPLY_MAX_WIRE_BYTES Hr) as [Er Dr]; [zconst|].
  split_and!; [|by eauto..].
  unfold ObservationGrant_to_protocol_message. rewrite Eg. cbn [mbind res_bind].
  pose proof (codec_size (c := observation_grant_codec) g Hg).
  unfold bounded_try_from. change MAX_OBSERVATION_GRANT_BYTES with 96 in *.
  rewrite (proj2 (Z.ltb_ge _ _)) by lia. cbn [map_err mbind res_bind]. eauto.
Qed.
End props.

(** * Witnesses *)

Definition demo_candidate : Candidate :=
  {| cand_transport := QuicUdp; cand_address := V4 [x0a; x00; x00; x01] 4000;
     cand_priority := 500; cand_foundation := str "lan"; cand_generation := 1;
     cand_expires_unix_secs := 90; cand_observation_source := str "local" |}.
Definition demo_envelope : RendezvousEnvelope :=
  {| env_version := {| major := 1; minor := 1 |}; env_session_id := replicate 32 x07;
     env_sender := str "a"; env_target := str "b"; env_step := 3; env_generation := 1;
     env_expires_unix_secs := 90;
     env_payload := PCandidateSetV2
       {| cs2_owner_is_initiator := true;
          cs2_bindings := [{| tkb_transport := QuicUdp;
                              tkb_ephemeral_public_key := replicate 32 x01 |}];
          cs2_candidates := [demo_candidate] |};
     env_signature := [x01; x02] |}.

Lemma demo_candidate_wf : candidate_wf demo_candidate.
Proof. by vm_compute. Qed.
Lemma demo_envelope_wf : envelope_wf demo_envelope.
Proof.
  assert (payload_wf (env_payload demo_envelope)) as Hp.
  { split; (split; [by vm_compute|]); cbn [cs2_bindings cs2_candidates];
      (constructor; [|constructor]); [by vm_compute|apply demo_candidate_wf]. }
  unfold envelope_wf. split_and!; first [exact Hp | by vm_compute].
Qed.
Lemma demo_envelope_consistent : envelope_consistent demo_envelope.
Proof.
  unfold envelope_consistent, candidate_set_v2_ok; simpl. split_and!; try done.
  - repeat constructor. intros ?%elem_of_nil. done.
  - repeat constructor.
  - repeat constructor; done.
  - repeat constructor.
Qed.

Lemma envelope_roundtrip_witness :
  ∃ m, envelope_to_protocol_message (P := postcard_ref) demo_envelope = Ok m ∧ message_wf m
    ∧ message_id m = MessageId.RENDEZVOUS_CANDIDATE_SET_V2
    ∧ envelope_from_protocol_message (P := postcard_ref) m = Ok demo_envelope.
Proof.
  exact (envelope_roundtrip (P := postcard_ref) demo_envelope demo_envelope_wf
    demo_envelope_consistent).
Defined.

Lemma envelope_accepted_consistent_witness :
  envelope_from_protocol_message (P := postcard_ref) (MHeartbeat {| hb_sequence := 1 |}) ≠ Panic.
Proof.
  exact (proj1 (envelope_accepted_consistent (P := postcard_ref)
    (MHeartbeat {| hb_sequence := 1 |}))).
Defined.

Lemma relay_frame_roundtrip_witness :
  (∃ f, PeerRelayFrame_new (replicate 32 x07) 5 9 1 [x41; x42] = Ok f) ↔
     5 ≠ 0 ∧ blen [x41; x42] ≤ MAX_PEER_RELAY_CIPHERTEXT_BYTES.
Proof.
  assert (length (replicate 32 x07) = 32%nat) as H1 by reflexivity.
  assert (in_u 64 5) as H2 by by vm_compute.
  assert (in_u 64 9) as H3 by by vm_compute.
  assert (relay_flags_wf 1) as H4 by by vm_compute.
  exact (proj1 (relay_frame_roundtrip (P := postcard_ref) (replicate 32 x07) 5 9 1 [x41; x42]
    H1 H2 H3 H4)).
Defined.

Lemma observation_packets_roundtrip_witness :
  (∃ m, ObservationGrant_to_protocol_message (P := postcard_ref)
      {| og_primary_token := replicate 32 x01; og_alternate_token := replicate 32 x02;
         og_expires_unix_secs := 5 |} = Ok m
    ∧ ObservationGrant_from_protocol_message (P := postcard_ref) m =
      Ok {| og_primary_token := replicate 32 x01; og_alternate_token := replicate 32 x02;
         og_expires_unix_secs := 5 |}).
Proof.
  apply (proj1 (observation_packets_roundtrip (P := postcard_ref)
    {| og_primary_token := replicate 32 x01; og_alternate_token := replicate 32 x02;
         og_expires_unix_secs := 5 |}
    {| op_token := replicate 32 x01; op_nonce := replicate 16 x01 |}
    {| or_nonce := replicate 16 x01; or_observed_source := V4 [x0a; x00; x00; x01] 9;
       or_endpoint := Primary |}
    ltac:(repeat split; by vm_compute) ltac:(repeat split; by vm_compute)
    ltac:(repeat split; by vm_compute))).
Defined.
