(* ===== verification/RvState.v ===== *)
(** The rendezvous session state ([rustgo-rendezvous/src/state.rs]): phases, strictly
    increasing steps and candidate generations. *)

From S2P Require Import Prelude.
From S2P Require Import RvMessages.
From Stdlib Require Import Strings.Byte.
From stdpp Require Import prelude list sorting.

#[local] Open Scope Z_scope.

Inductive RendezvousPhase := New | Requested | Accepted | PhaseClosed.
#[export] Instance phase_eq_dec : EqDecision RendezvousPhase.
Proof. solve_decision. Defined.

Record RendezvousState := {
  rs_session_id : list byte;
  rs_phase : RendezvousPhase;
  rs_last_step : Z;
  rs_generation : Z;
}.

Inductive RvStateError :=
| ReplayedStep
| GenerationMismatch (expected actual : Z)
| SessionMismatch
| RvExpired
| IllegalTransition.

Definition RendezvousState_new (session_id : list byte) : RendezvousState :=
  {| rs_session_id := session_id; rs_phase := New; rs_last_step := 0;
     rs_generation := CandidateGeneration_INITIAL |}.
Definition RendezvousState_requested (session_id : list byte) (step : Z) : RendezvousState :=
  {| rs_session_id := session_id; rs_phase := Requested; rs_last_step := step;
     rs_generation := CandidateGeneration_INITIAL |}.

Definition with_last_step (s : RendezvousState) (step : Z) : RendezvousState :=
  {| rs_session_id := rs_session_id s; rs_phase := rs_phase s; rs_last_step := step;
     rs_generation := rs_generation s |}.

Definition accept_step (s : RendezvousState) (step : Z) : res RvStateError unit :=
  if step <=? rs_last_step s then Err ReplayedStep else Ok tt.
Definition accept_generation (s : RendezvousState) (generation : Z) : res RvStateError unit :=
  if negb (generation =? rs_generation s) then Err (GenerationMismatch (rs_generation s) generation)
  else Ok tt.

(** The mutators return the state after the call; on an error nothing has been assigned. *)
Definition request (s : RendezvousState) (step generation : Z)
    : res RvStateError RendezvousState :=
  if negb (bool_decide (rs_phase s = New)) then Err IllegalTransition else
  _ ← accept_step s step;
  Ok {| rs_session_id := rs_session_id s; rs_phase := Requested; rs_last_step := step;
        rs_generation := generation |}.

Definition provider_decision (s : RendezvousState) (step generation : Z) (accepted : bool)
    : res RvStateError RendezvousState :=
  if negb (bool_decide (rs_phase s = Requested)) then Err IllegalTransition else
  _ ← accept_step s step;
  _ ← accept_generation s generation;
  Ok {| rs_session_id := rs_session_id s; rs_phase := if accepted then Accepted else PhaseClosed;
        rs_last_step := step; rs_generation := rs_generation s |}.

Definition advance_step (s : RendezvousState) (step : Z) : res RvStateError RendezvousState :=
  _ ← accept_step s step;
  Ok (with_last_step s step).

Definition advance_generation (s : RendezvousState) (generation : Z)
    : res RvStateError RendezvousState :=
  next ← ok_or (checked_add u64_max (rs_generation s) 1) IllegalTransition;
  if negb (generation =? next) then Err (GenerationMismatch (rs_generation s) generation)
  else Ok {| rs_session_id := rs_session_id s; rs_phase := rs_phase s;
             rs_last_step := rs_last_step s; rs_generation := generation |}.

Definition accept_metadata (s : RendezvousState) (session_id : list byte)
    (step generation expires_unix_secs now_unix_secs : Z) : res RvStateError RendezvousState :=
  if negb (bool_decide (session_id = rs_session_id s)) then Err SessionMismatch else
  if expires_unix_secs <=? now_unix_secs then Err RvExpired else
  _ ← accept_generation s generation;
  advance_step s step.

(** * Runs *)

Inductive RvOp :=
| OpRequest (step generation : Z)
| OpDecision (step generation : Z) (accepted : bool)
| OpStep (step : Z)
| OpGeneration (generation : Z)
| OpMetadata (session_id : list byte) (step generation expires now : Z).

Definition apply_op (s : RendezvousState) (op : RvOp) : res RvStateError RendezvousState :=
  match op with
  | OpRequest step generation => request s step generation
  | OpDecision step generation accepted => provider_decision s step generation accepted
  | OpStep step => advance_step s step
  | OpGeneration generation => advance_generation s generation
  | OpMetadata session_id step generation expires now =>
    accept_metadata s session_id step generation expires now
  end.

(** The step a message carries. *)
Definition op_step (op : RvOp) : option Z :=
  match op with
  | OpRequest step _ | OpDecision step _ _ | OpStep step | OpMetadata _ step _ _ _ => Some step
  | OpGeneration _ => None
  end.

(** One caller after another; a refused message leaves the state as it is. *)
Definition try_op (s : RendezvousState) (op : RvOp) : RendezvousState :=
  match apply_op s op with Ok s' => s' | _ => s end.

(** The steps accepted along a run, in order. *)
Fixpoint accepted_steps (s : RendezvousState) (ops : list RvOp) : list Z :=
  match ops with
  | [] => []
  | op :: ops =>
    match apply_op s op with
    | Ok s' => option_list (op_step op) ++ accepted_steps s' ops
    | _ => accepted_steps s ops
    end
  end.

Definition phase_rank (p : RendezvousPhase) : Z :=
  match p with New => 0 | Requested => 1 | Accepted | PhaseClosed => 2 end.

(** * Lemmas *)

Lemma accept_step_Ok s step u : accept_step s step = Ok u ↔ rs_last_step s < step.
Proof. unfold accept_step. destruct u, (Z.leb_spec step (rs_last_step s)); naive_solver lia. Qed.

Lemma accept_generation_Ok s g u : accept_generation s g = Ok u ↔ g = rs_generation s.
Proof. unfold accept_generation. destruct u, (Z.eqb_spec g (rs_generation s)); naive_solver. Qed.

(** What a successful operation does, whichever it is. *)
Lemma apply_op_Ok s op s' :
  apply_op s op = Ok s' →
  rs_session_id s' = rs_session_id s
  ∧ match op_step op with
    | Some step => rs_last_step s < step ∧ rs_last_step s' = step
    | None => rs_last_step s' = rs_last_step s
    end
  ∧ (rs_phase s' = rs_phase s ∨ phase_rank (rs_phase s') = phase_rank (rs_phase s) + 1)
  ∧ (rs_phase s' = Accepted → rs_phase s = Accepted ∨
       ∃ step, op = OpDecision step (rs_generation s) true ∧ rs_phase s = Requested).
Proof.
  destruct op as [st g|st g acc|st|g|sid st g ex nw]; simpl;
    unfold request, provider_decision, accept_metadata, advance_step, advance_generation.
  - case_bool_decide as Hp; [|done]. intros ([]&?%accept_step_Ok&<-%Ok_inj)%res_bind_Ok.
    rewrite Hp. simpl. naive_solver.
  - case_bool_decide as Hp; [|done]. simpl.
    intros ([]&?%accept_step_Ok&([]&->%accept_generation_Ok&<-%Ok_inj)%res_bind_Ok)%res_bind_Ok.
    rewrite Hp. destruct acc; simpl; naive_solver.
  - intros ([]&?%accept_step_Ok&<-%Ok_inj)%res_bind_Ok. simpl. naive_solver.
  - intros (n&_&Hn)%res_bind_Ok. case_match; simplify_eq/=. naive_solver.
  - case_bool_decide; [|done]. simpl. case_match; [done|].
    intros ([]&_&([]&?%accept_step_Ok&<-%Ok_inj)%res_bind_Ok)%res_bind_Ok. simpl. naive_solver.
Qed.

Lemma accepted_steps_above s ops :
  StronglySorted Z.lt (accepted_steps s ops)
  ∧ Forall (λ x, rs_last_step s < x) (accepted_steps s ops).
Proof.
  revert s; induction ops as [|op ops IH]; intros s; simpl; [by repeat constructor|].
  destruct (apply_op s op) as [s'|e|] eqn:E; [|apply IH..].
  apply apply_op_Ok in E as (_&Hst&_). destruct (IH s') as [Hs Hf].
  destruct (op_step op) as [step|]; simpl.
  - destruct Hst as [Hlt <-]. split; [by constructor|]. constructor; [done|].
    eapply Forall_impl; [done|]. simpl. lia.
  - by rewrite <- Hst.
Qed.

Lemma try_op_inv s op :
  rs_session_id (try_op s op) = rs_session_id s
  ∧ rs_last_step s ≤ rs_last_step (try_op s op)
  ∧ phase_rank (rs_phase s) ≤ phase_rank (rs_phase (try_op s op))
  ∧ (phase_rank (rs_phase s) = 2 → rs_phase (try_op s op) = rs_phase s).
Proof.
  unfold try_op. destruct (apply_op s op) as [s'|e|] eqn:E; [|split_and!; done..].
  apply apply_op_Ok in E as (Hid&Hst&Hph&_). split_and!; [done| | |].
  - destruct (op_step op); lia.
  - destruct Hph as [->|]; lia.
  - intros Hr. destruct Hph as [|Hn]; [done|]. destruct (rs_phase s'); simpl in Hn; lia.
Qed.

(** * Properties *)

(** whatever messages arrive in whatever order, the steps a rendezvous session accepts
    are strictly increasing and above the step it started from, so no step is accepted
    twice; the session identifier never changes; and the phase only moves forward, an
    accepted or closed phase being final. *)
Theorem steps_never_replayed s ops :
  StronglySorted Z.lt (accepted_steps s ops)
  ∧ Forall (λ x, rs_last_step s < x) (accepted_steps s ops)
  ∧ NoDup (accepted_steps s ops)
  ∧ rs_session_id (foldl try_op s ops) = rs_session_id s
  ∧ phase_rank (rs_phase s) ≤ phase_rank (rs_phase (foldl try_op s ops))
  ∧ (phase_rank (rs_phase s) = 2 → rs_phase (foldl try_op s ops) = rs_phase s).
Proof.
  destruct (accepted_steps_above s ops) as [Hs Hf]. split_and!; try done.
  - clear Hf. induction Hs as [|x l _ IH Hx]; constructor; [|done].
    intros Hin. rewrite Forall_forall in Hx. specialize (Hx x Hin). lia.
  - clear Hs Hf. revert s; induction ops as [|op ops IH]; intros s; [done|]. simpl. rewrite IH.
    apply try_op_inv.
  - clear Hs Hf. revert s; induction ops as [|op ops IH]; intros s; [done|]. simpl.
    etrans; [apply try_op_inv|apply IH].
  - clear Hs Hf. revert s; induction ops as [|op ops IH]; intros s Hr; [done|]. simpl.
    pose proof (try_op_inv s op) as (_&_&_&Hp). rewrite <- Hp by done. apply IH. by rewrite Hp.
Qed.

Lemma steps_never_replayed_witness :
  rs_phase (foldl try_op (RendezvousState_requested [] 4) [OpDecision 5 1 true; OpStep 5; OpStep 6])
    = Accepted
  ∧ accepted_steps (RendezvousState_requested [] 4) [OpDecision 5 1 true; OpStep 5; OpStep 6] = [5; 6]
  ∧ rs_phase (foldl try_op (try_op (RendezvousState_requested [] 4) (OpDecision 5 1 true)) [OpStep 5])
    = Accepted.
Proof.
  split; [reflexivity|]. split; [reflexivity|].
  apply (steps_never_replayed (try_op (RendezvousState_requested [] 4) (OpDecision 5 1 true))
    [OpStep 5]). reflexivity.
Defined.

(** A session is accepted only through a provider decision taken in the requested
    phase, for the session's current candidate generation; and a generation advances only
    by one, never past the largest 64-bit value. *)
Theorem acceptance_needs_decision s op s' :
  apply_op s op = Ok s' →
  (rs_phase s' = Accepted → rs_phase s = Accepted ∨
     ∃ step, op = OpDecision step (rs_generation s) true ∧ rs_phase s = Requested)
  ∧ (∀ g, op = OpGeneration g → g = rs_generation s + 1 ∧ g ≤ u64_max ∧ rs_generation s' = g).
Proof.
  intros Ha. pose proof (apply_op_Ok s op s' Ha) as (_&_&_&Hacc). split; [done|].
  intros g ->. revert Ha. simpl. unfold advance_generation.
  intros (n&(->&Hmax)%ok_or_Ok%checked_add_Some&Hn)%res_bind_Ok.
  destruct (Z.eqb_spec g (rs_generation s + 1)); simplify_eq/=. lia.
Qed.

Lemma acceptance_needs_decision_witness :
  apply_op (RendezvousState_requested [] 4) (OpGeneration 2) =
    Ok {| rs_session_id := []; rs_phase := Requested; rs_last_step := 4; rs_generation := 2 |}
  ∧ 2 = rs_generation (RendezvousState_requested [] 4) + 1.
Proof.
  split; [reflexivity|].
  apply (acceptance_needs_decision (RendezvousState_requested [] 4) (OpGeneration 2)
    {| rs_session_id := []; rs_phase := Requested; rs_last_step := 4; rs_generation := 2 |}
    eq_refl); reflexivity.
Defined.
