(* ===== verification/Path.v ===== *)
(** The path manager of a peer connection ([rustgo-path/src/state.rs], [lib.rs] and
    [health.rs]): the path state machine, every critical section of the manager's mutex,
    and the interleavings of operations, background rechecks and closing. *)

From S2P Require Import Prelude.
From stdpp Require Import prelude gmap list relations.

#[local] Open Scope Z_scope.

(** * Types *)

Inductive PathKind := QuicV6 | QuicV4 | PathNativeTcp | PathRelay.
#[export] Instance path_kind_eq_dec : EqDecision PathKind.
Proof. solve_decision. Defined.

Definition is_direct (k : PathKind) : bool := match k with PathRelay => false | _ => true end.

Inductive PathState := Discovering | Checking | Direct | RelayState | Rechecking | PathClosed.
#[export] Instance path_state_eq_dec : EqDecision PathState.
Proof. solve_decision. Defined.

Inductive PathEvent :=
| StateChanged (from to : PathState)
| AttemptStarted (k : PathKind)
| AttemptFailed (k : PathKind)
| Selected (k : PathKind)
| RelayFallback
| RecheckStarted
| RecheckScheduled
| Promoted (k : PathKind)
| EClosed.

Inductive PathError :=
| IllegalPath (from to : PathState)
| InvalidConfiguration
| PathAttemptFailed (k : PathKind)
| AttemptTimedOut (k : PathKind)
| AttemptTaskFailed
| NoViablePath
| Cancelled.

(** Durations in nanoseconds. *)
Record PathManagerConfig := {
  direct_timeout : Z;
  relay_grace : Z;
  attempt_timeout : Z;
  recheck_interval : Z;
}.
Definition PathManagerConfig_new (direct relay attempt recheck : Z)
    : res PathError PathManagerConfig :=
  if (direct =? 0) || (relay =? 0) || (direct <=? relay) || (attempt =? 0) || (recheck =? 0)
  then Err InvalidConfiguration
  else Ok {| direct_timeout := direct; relay_grace := relay; attempt_timeout := attempt;
             recheck_interval := recheck |}.

(** Cancellation tokens by name; every one below is a child of the manager's lifetime. *)
Definition token : Type := nat.

Record SelectedPath := { sp_kind : PathKind; sp_handle : nat }.
Record RaceWinner := { rw_path : SelectedPath; rw_cancellation : token }.
Record OwnedSelected := { os_path : SelectedPath; os_cancellation : token }.
Record OwnedRecheck := { or_id : Z; or_cancellation : token }.
Record OwnedResources := {
  res_selected : option OwnedSelected;
  res_recheck : option OwnedRecheck;
}.

Record ManagerRecord := {
  state : PathState;
  selected : option OwnedSelected;
  recheck : option OwnedRecheck;
  next_recheck_id : Z;
  active_operations : Z;
  events : list PathEvent;
}.
(** The record, whether the lifetime token is cancelled, and the cancelled tokens. *)
Record ManagerInner := {
  record : ManagerRecord;
  lifetime : bool;
  cancelled : gset token;
}.

Definition MAX_RECORDED_EVENTS : Z := 256.

Definition with_record (i : ManagerInner) (r : ManagerRecord) : ManagerInner :=
  {| record := r; lifetime := lifetime i; cancelled := cancelled i |}.
Definition with_state (r : ManagerRecord) (s : PathState) : ManagerRecord :=
  {| state := s; selected := selected r; recheck := recheck r;
     next_recheck_id := next_recheck_id r; active_operations := active_operations r;
     events := events r |}.
Definition with_events (r : ManagerRecord) (e : list PathEvent) : ManagerRecord :=
  {| state := state r; selected := selected r; recheck := recheck r;
     next_recheck_id := next_recheck_id r; active_operations := active_operations r;
     events := e |}.
Definition with_owned (r : ManagerRecord) (s : option OwnedSelected) (k : option OwnedRecheck)
    : ManagerRecord :=
  {| state := state r; selected := s; recheck := k;
     next_recheck_id := next_recheck_id r; active_operations := active_operations r;
     events := events r |}.
Definition with_active (r : ManagerRecord) (n : Z) : ManagerRecord :=
  {| state := state r; selected := selected r; recheck := recheck r;
     next_recheck_id := next_recheck_id r; active_operations := n; events := events r |}.

Definition cancel_token (i : ManagerInner) (t : option token) : ManagerInner :=
  {| record := record i; lifetime := lifetime i;
     cancelled := match t with Some t => {[t]} ∪ cancelled i | None => cancelled i end |}.
(** A child token is cancelled by its own cancellation or by its parent's. *)
Definition token_cancelled (i : ManagerInner) (t : token) : Prop :=
  lifetime i = true ∨ t ∈ cancelled i.

(** * The state machine *)

Definition legal (current next : PathState) : bool :=
  match current, next with
  | Discovering, (Checking | PathClosed) => true
  | Checking, (Direct | RelayState | PathClosed) => true
  | (Direct | RelayState), (Rechecking | PathClosed) => true
  | Rechecking, (Direct | RelayState | PathClosed) => true
  | _, _ => false
  end.

(** [PathStateMachine::transition]. *)
Definition machine_transition (current next : PathState) : res PathError PathState :=
  if negb (legal current next) then Err (IllegalPath current next) else Ok next.

Definition push_event (r : ManagerRecord) (e : PathEvent) : ManagerRecord :=
  with_events r
    ((if blen (events r) =? MAX_RECORDED_EVENTS then drop 1 (events r) else events r) ++ [e]).

(** [ManagerRecord::transition]. *)
Definition transition (r : ManagerRecord) (next : PathState) : res PathError ManagerRecord :=
  let from := state r in
  s ← machine_transition from next;
  Ok (push_event (with_state r s) (StateChanged from next)).

(** * The critical sections *)

Definition ManagerInner_new : ManagerInner :=
  {| record := {| state := Discovering; selected := None; recheck := None;
                  next_recheck_id := 1; active_operations := 0; events := [] |};
     lifetime := false; cancelled := ∅ |}.

Definition record_event (i : ManagerInner) (e : PathEvent) : ManagerInner :=
  if bool_decide (state (record i) = PathClosed) then i
  else with_record i (push_event (record i) e).

Definition begin (i : ManagerInner) (next : PathState) : res PathError ManagerInner :=
  r ← transition (record i) next;
  Ok (with_record i (with_active r (active_operations r + 1))).

Definition take_resources (i : ManagerInner) (r : ManagerRecord) : ManagerInner * OwnedResources :=
  (cancel_token (cancel_token (with_record i (with_owned r None None))
     (os_cancellation <$> selected r)) (or_cancellation <$> recheck r),
   {| res_selected := selected r; res_recheck := recheck r |}).

Definition begin_failure (i : ManagerInner) : res PathError (ManagerInner * OwnedResources) :=
  r ← transition (record i) Rechecking;
  Ok (take_resources i (with_active r (active_operations r + 1))).

Definition close_atomic (i : ManagerInner) : res PathError (ManagerInner * OwnedResources) :=
  r ← (if bool_decide (state (record i) = PathClosed) then Ok (record i) else
       r ← transition (record i) PathClosed;
       Ok (push_event r EClosed));
  Ok (take_resources i r).

(** [PathManager::close] up to the wait for running operations, and [Drop for PathManager]. *)
Definition close (i : ManagerInner) : res PathError ManagerInner :=
  '(i, _) ← close_atomic i;
  Ok {| record := record i; lifetime := true; cancelled := cancelled i |}.

Definition begin_background_recheck (i : ManagerInner) (id : Z) : bool * ManagerInner :=
  if negb (bool_decide (or_id <$> recheck (record i) = Some id))
     || negb (bool_decide (state (record i) = RelayState))
  then (false, i) else
  match transition (record i) Rechecking with
  | Ok r => (true, with_record i (push_event r RecheckStarted))
  | _ => (false, i)
  end.

Definition finish_failed_recheck (i : ManagerInner) (id : Z) : bool * ManagerInner :=
  if negb (bool_decide (or_id <$> recheck (record i) = Some id))
     || negb (bool_decide (state (record i) = Rechecking))
  then (false, i) else
  match transition (record i) RelayState with
  | Ok r => (true, with_record i (push_event r RecheckScheduled))
  | _ => (false, i)
  end.

(** [Drop for OperationGuard] and [OperationGuard::finish]. *)
Definition drop_guard (i : ManagerInner) : ManagerInner :=
  with_record i (with_active (record i) (saturating_sub (active_operations (record i)) 1)).
Definition finish (i : ManagerInner) (expected : PathState) : bool * ManagerInner :=
  (bool_decide (state (record i) = expected), drop_guard i).

(** [wait_for_operations] returns when this holds. *)
Definition operations_done (i : ManagerInner) : bool := active_operations (record i) =? 0.

Definition state_of_kind (k : PathKind) : PathState := if is_direct k then Direct else RelayState.

(** The critical section of [install_winner]: the displaced path, or the current state. *)
Definition install_section (i : ManagerInner) (expected : PathState) (recheck_id : option Z)
    (owner : OwnedSelected) : (option OwnedSelected + PathState) * ManagerInner :=
  let kind := sp_kind (os_path owner) in
  let next := state_of_kind kind in
  let id_matches :=
    match recheck_id with
    | None => true
    | Some id => bool_decide (or_id <$> recheck (record i) = Some id)
    end in
  if negb (bool_decide (state (record i) = expected)) || negb id_matches
  then (inr (state (record i)), i) else
  match transition (record i) next with
  | Ok r =>
    let displaced := selected r in
    let r := push_event (with_owned r (Some owner) (recheck r)) (Selected kind) in
    let r := if bool_decide (next = RelayState) then push_event r RelayFallback
             else if bool_decide (is_Some recheck_id) then push_event r (Promoted kind) else r in
    (inl displaced, with_record i r)
  | _ => (inr (state (record i)), i)
  end.

(** [install_winner]: what it returns, the token it still has to shut down, the manager. *)
Definition install_winner (i : ManagerInner) (expected : PathState) (recheck_id : option Z)
    (winner : RaceWinner) (caller_cancelled : bool)
    : res PathError SelectedPath * option token * ManagerInner :=
  let owner := {| os_path := rw_path winner; os_cancellation := rw_cancellation winner |} in
  if caller_cancelled || lifetime i then
    (Err Cancelled, Some (os_cancellation owner), i)
  else
    match install_section i expected recheck_id owner with
    | (inl displaced, i) => (Ok (os_path owner), os_cancellation <$> displaced, i)
    | (inr current, i) =>
      (if bool_decide (current = PathClosed) then Err Cancelled
       else Err (IllegalPath current (state_of_kind (sp_kind (os_path owner)))),
       Some (os_cancellation owner), i)
    end.

(** One turn of [start_recheck] under the mutex: [finished] is whether the task of the
    current recheck has ended, [t] the child token made for a new one.  The token returned
    is of a finished recheck that the caller still has to shut down. *)
Definition start_recheck (i : ManagerInner) (finished : bool) (t : token)
    : option token * ManagerInner :=
  let r := record i in
  if negb (bool_decide (state r = RelayState)) then (None, i) else
  match recheck r with
  | Some k =>
    if negb finished then (None, i)
    else (Some (or_cancellation k), with_record i (with_owned r (selected r) None))
  | None =>
    let id := next_recheck_id r in
    (None, with_record i
       {| state := state r; selected := selected r;
          recheck := Some {| or_id := id; or_cancellation := t |};
          next_recheck_id := Z.max (wrapping_add u64_max (next_recheck_id r) 1) 1;
          active_operations := active_operations r; events := events r |})
  end.

(** One turn of the loop of [recheck_loop] after its sleep: what the attempt factory and
    the race gave; whether the loop goes on; the manager. *)
Definition recheck_round (i : ManagerInner) (id : Z) (attempts : res PathError (list PathKind))
    (race : res PathError RaceWinner) (caller_cancelled : bool) : bool * ManagerInner :=
  let '(began, i) := begin_background_recheck i id in
  if negb began then (false, i) else
  match attempts with
  | Ok [] | Err Cancelled | Panic => (false, i)
  | Err _ => finish_failed_recheck i id
  | Ok (_ :: _) =>
    match race with
    | Ok winner => (false, (install_winner i Rechecking (Some id) winner caller_cancelled).2)
    | Err Cancelled | Panic => (false, i)
    | Err _ => finish_failed_recheck i id
    end
  end.

(** * Operations in flight *)

(** Where a [connect_with_recheck] or [report_failed_with_recheck] is: racing towards an
    install from [expected], past it with a path of a kind, or failed with its guard
    dropped and [close] still to call. *)
Inductive Operation :=
| Racing (expected : PathState)
| Installed (kind : PathKind)
| Closing.

(** The manager, the operations in flight, the tokens handed out, and those of displaced
    paths and rechecks whose shutdown has not run yet. *)
Record System := {
  inner : ManagerInner;
  operations : list Operation;
  handed_out : gset token;
  displaced : list token;
}.

Definition System_new : System :=
  {| inner := ManagerInner_new; operations := []; handed_out := ∅; displaced := [] |}.

Inductive step : System → System → Prop :=
| step_connect i ops h d i' :
  begin i Checking = Ok i' →
  step {| inner := i; operations := ops; handed_out := h; displaced := d |}
       {| inner := i'; operations := Racing Checking :: ops; handed_out := h; displaced := d |}
| step_report_failed i ops h d i' resources :
  begin_failure i = Ok (i', resources) →
  step {| inner := i; operations := ops; handed_out := h; displaced := d |}
       {| inner := i'; operations := Racing Rechecking :: ops; handed_out := h; displaced := d |}
| step_race_lost i ops1 ops2 h d expected :
  step {| inner := i; operations := ops1 ++ Racing expected :: ops2; handed_out := h;
          displaced := d |}
       {| inner := drop_guard i; operations := ops1 ++ Closing :: ops2; handed_out := h;
          displaced := d |}
| step_race_won i ops1 ops2 h d expected winner caller path t i' :
  rw_cancellation winner ∉ h →
  install_winner i expected None winner caller = (Ok path, t, i') →
  step {| inner := i; operations := ops1 ++ Racing expected :: ops2; handed_out := h;
          displaced := d |}
       {| inner := i'; operations := ops1 ++ Installed (sp_kind path) :: ops2;
          handed_out := {[rw_cancellation winner]} ∪ h; displaced := option_list t ++ d |}
| step_install_failed i ops1 ops2 h d expected winner caller e t i' :
  rw_cancellation winner ∉ h →
  install_winner i expected None winner caller = (Err e, t, i') →
  step {| inner := i; operations := ops1 ++ Racing expected :: ops2; handed_out := h;
          displaced := d |}
       {| inner := drop_guard i'; operations := ops1 ++ Closing :: ops2;
          handed_out := {[rw_cancellation winner]} ∪ h; displaced := option_list t ++ d |}
| step_start_recheck i ops1 ops2 h d finished t t' i' :
  t ∉ h → start_recheck i finished t = (t', i') →
  step {| inner := i; operations := ops1 ++ Installed PathRelay :: ops2; handed_out := h;
          displaced := d |}
       {| inner := i'; operations := ops1 ++ Installed PathRelay :: ops2;
          handed_out := match recheck (record i') with
                        | Some k => {[or_cancellation k]} ∪ h | None => h end;
          displaced := option_list t' ++ d |}
| step_finish i ops1 ops2 h d kind published i' :
  finish i (state_of_kind kind) = (published, i') →
  step {| inner := i; operations := ops1 ++ Installed kind :: ops2; handed_out := h;
          displaced := d |}
       {| inner := i'; operations := ops1 ++ ops2; handed_out := h; displaced := d |}
| step_closing i ops1 ops2 h d i' :
  close i = Ok i' →
  step {| inner := i; operations := ops1 ++ Closing :: ops2; handed_out := h; displaced := d |}
       {| inner := i'; operations := ops1 ++ ops2; handed_out := h; displaced := d |}
| step_close i ops h d i' :
  close i = Ok i' →
  step {| inner := i; operations := ops; handed_out := h; displaced := d |}
       {| inner := i'; operations := ops; handed_out := h; displaced := d |}
| step_attempt_event i ops h d kind (e : PathEvent) :
  e = AttemptStarted kind ∨ e = AttemptFailed kind →
  step {| inner := i; operations := ops; handed_out := h; displaced := d |}
       {| inner := record_event i e; operations := ops; handed_out := h; displaced := d |}
| step_recheck_begin i ops h d id b i' :
  begin_background_recheck i id = (b, i') →
  step {| inner := i; operations := ops; handed_out := h; displaced := d |}
       {| inner := i'; operations := ops; handed_out := h; displaced := d |}
| step_recheck_failed i ops h d id b i' :
  finish_failed_recheck i id = (b, i') →
  step {| inner := i; operations := ops; handed_out := h; displaced := d |}
       {| inner := i'; operations := ops; handed_out := h; displaced := d |}
| step_recheck_won i ops h d id winner caller r t i' :
  rw_cancellation winner ∉ h →
  install_winner i Rechecking (Some id) winner caller = (r, t, i') →
  step {| inner := i; operations := ops; handed_out := h; displaced := d |}
       {| inner := i'; operations := ops; handed_out := {[rw_cancellation winner]} ∪ h;
          displaced := option_list t ++ d |}
| step_shutdown i ops h d1 t d2 :
  step {| inner := i; operations := ops; handed_out := h; displaced := d1 ++ t :: d2 |}
       {| inner := cancel_token i (Some t); operations := ops; handed_out := h;
          displaced := d1 ++ d2 |}.

Definition reachable (s : System) : Prop := rtc step System_new s.
