(* ===== verification/PathFacts.v ===== *)
(** Invariants and properties of the path manager under every interleaving. *)

From S2P Require Import Prelude.
From S2P Require Import Path.
From stdpp Require Import prelude gmap list relations.

#[local] Open Scope Z_scope.

(** * Invariants *)

(** What the record owns in each state. *)
Definition owned_ok (r : ManagerRecord) : Prop :=
  match state r with
  | Discovering | Checking | PathClosed => selected r = None ∧ recheck r = None
  | Direct => ∃ s, selected r = Some s ∧ is_direct (sp_kind (os_path s)) = true
  | RelayState => ∃ s, selected r = Some s ∧ sp_kind (os_path s) = PathRelay
  | Rechecking =>
    match recheck r with
    | None => selected r = None
    | Some _ => ∃ s, selected r = Some s ∧ sp_kind (os_path s) = PathRelay
    end
  end.

(** The recorded state changes form a walk of legal edges that ends in a given state. *)
Inductive trail : list PathEvent → PathState → Prop :=
| trail_nil s : trail [] s
| trail_change l a b : trail l a → legal a b = true → trail (l ++ [StateChanged a b]) b
| trail_other l e s : trail l s → (∀ a b, e ≠ StateChanged a b) → trail (l ++ [e]) s.

Definition record_ok (r : ManagerRecord) : Prop :=
  owned_ok r ∧ trail (events r) (state r) ∧ blen (events r) ≤ MAX_RECORDED_EVENTS
  ∧ 1 ≤ next_recheck_id r ≤ u64_max.

(** * Events *)

Lemma trail_drop l s : trail l s → trail (drop 1 l) s.
Proof.
  induction 1 as [s|l a b H IH Hl|l e s H IH He]; [constructor|..].
  - destruct l as [|x l]; [constructor|]. simpl in *. rewrite drop_0 in *. by constructor.
  - destruct l as [|x l]; [constructor|]. simpl in *. rewrite drop_0 in *. by constructor.
Qed.

(** The queue before a push, bounded by one less than its capacity. *)
Lemma trim_ok (l : list PathEvent) s :
  trail l s → blen l ≤ MAX_RECORDED_EVENTS →
  let l' := if blen l =? MAX_RECORDED_EVENTS then drop 1 l else l in
  trail l' s ∧ blen l' + 1 ≤ MAX_RECORDED_EVENTS.
Proof.
  intros Ht Hb. simpl. unfold MAX_RECORDED_EVENTS in *. destruct (Z.eqb_spec (blen l) 256).
  - split; [by apply trail_drop|]. unfold blen in *. rewrite length_drop. lia.
  - split; [done|lia].
Qed.

Lemma push_event_ok r e s :
  trail (events r) s → blen (events r) ≤ MAX_RECORDED_EVENTS →
  (∀ a b, e ≠ StateChanged a b) →
  trail (events (push_event r e)) s ∧ blen (events (push_event r e)) ≤ MAX_RECORDED_EVENTS.
Proof.
  intros Ht Hb He. destruct (trim_ok _ _ Ht Hb) as [Ht' Hb']. simpl.
  split; [by constructor|]. rewrite blen_app. exact Hb'.
Qed.

Lemma push_change_ok r a b :
  trail (events r) a → blen (events r) ≤ MAX_RECORDED_EVENTS → legal a b = true →
  trail (events (push_event r (StateChanged a b))) b
  ∧ blen (events (push_event r (StateChanged a b))) ≤ MAX_RECORDED_EVENTS.
Proof.
  intros Ht Hb He. destruct (trim_ok _ _ Ht Hb) as [Ht' Hb']. simpl.
  split; [by constructor|]. rewrite blen_app. exact Hb'.
Qed.

(** A transition changes only the state and the log. *)
Lemma transition_Ok r next r' :
  transition r next = Ok r' ↔
  legal (state r) next = true
  ∧ r' = push_event (with_state r next) (StateChanged (state r) next).
Proof.
  unfold transition, machine_transition. destruct (legal _ _); simpl; naive_solver.
Qed.

Lemma transition_Err r next e :
  transition r next = Err e ↔ legal (state r) next = false ∧ e = IllegalPath (state r) next.
Proof. unfold transition, machine_transition. destruct (legal _ _); simpl; naive_solver. Qed.

Lemma transition_no_panic r next : transition r next ≠ Panic.
Proof. unfold transition, machine_transition. by destruct (legal _ _). Qed.

Lemma record_ok_events r r' :
  record_ok r → state r' = state r → selected r' = selected r → recheck r' = recheck r →
  next_recheck_id r' = next_recheck_id r →
  trail (events r') (state r) → blen (events r') ≤ MAX_RECORDED_EVENTS → record_ok r'.
Proof.
  intros (Ho&_&_&Hn) Hs Hsel Hrec Hnx Ht Hb. unfold record_ok, owned_ok in *.
  rewrite Hs, Hsel, Hrec, Hnx. done.
Qed.

(** * One critical section at a time *)

Lemma record_event_ok i e :
  record_ok (record i) → (∀ a b, e ≠ StateChanged a b) → record_ok (record (record_event i e)).
Proof.
  intros Hr He. unfold record_event. case_bool_decide; [done|]. pose proof Hr as (_&Ht&Hb&_).
  destruct (push_event_ok _ e _ Ht Hb He). by apply (record_ok_events (record i)).
Qed.

Lemma begin_Ok i next i' :
  begin i next = Ok i' →
  legal (state (record i)) next = true ∧ state (record i') = next
  ∧ selected (record i') = selected (record i) ∧ recheck (record i') = recheck (record i)
  ∧ active_operations (record i') = active_operations (record i) + 1
  ∧ lifetime i' = lifetime i ∧ cancelled i' = cancelled i.
Proof. unfold begin. intros (r&[Hl ->]%transition_Ok&[= <-])%res_bind_Ok. by simpl. Qed.

Lemma begin_ok i i' : record_ok (record i) → begin i Checking = Ok i' → record_ok (record i').
Proof.
  intros (Ho&Ht&Hb&Hn). unfold begin. intros (r&[Hl ->]%transition_Ok&[= <-])%res_bind_Ok.
  destruct (push_change_ok (with_state (record i) Checking) (state (record i)) Checking Ht Hb Hl).
  unfold record_ok, owned_ok in *. simpl in *. by destruct (state (record i)).
Qed.

Lemma begin_failure_ok i i' res :
  record_ok (record i) → begin_failure i = Ok (i', res) →
  record_ok (record i')
  ∧ (state (record i) = Direct ∨ state (record i) = RelayState)
  ∧ state (record i') = Rechecking ∧ selected (record i') = None ∧ recheck (record i') = None
  ∧ active_operations (record i') = active_operations (record i) + 1
  ∧ (∀ t, (os_cancellation <$> selected (record i) = Some t
           ∨ or_cancellation <$> recheck (record i) = Some t
           ∨ token_cancelled i t) → token_cancelled i' t).
Proof.
  intros (Ho&Ht&Hb&Hn). unfold begin_failure.
  intros (r&[Hl ->]%transition_Ok&[= <- <-])%res_bind_Ok.
  destruct (push_change_ok (with_state (record i) Rechecking) (state (record i)) Rechecking
    Ht Hb Hl) as [Ht' Hb'].
  split; [by unfold record_ok, owned_ok|]. split; [destruct (state (record i)); naive_solver|].
  split_and!; try done. unfold token_cancelled. simpl.
  destruct (selected (record i)), (recheck (record i)); simpl; set_solver.
Qed.

Lemma close_ok i :
  record_ok (record i) →
  ∃ i', close i = Ok i' ∧ record_ok (record i') ∧ state (record i') = PathClosed
    ∧ lifetime i' = true ∧ active_operations (record i') = active_operations (record i)
    ∧ (state (record i) = PathClosed → record i' = record i).
Proof.
  intros (Ho&Ht&Hb&Hn). unfold close, close_atomic. case_bool_decide as Hc.
  - eexists; split; [reflexivity|]. simpl. unfold record_ok, owned_ok in *. simpl.
    rewrite Hc in *. destruct Ho as [Hs Hk]. split_and!; try done; try lia.
    intros _. by destruct (record i); simpl in *; subst.
  - assert (legal (state (record i)) PathClosed = true) as Hl by by destruct (state (record i)).
    destruct (push_change_ok (with_state (record i) PathClosed) (state (record i)) PathClosed
      Ht Hb Hl) as [Ht' Hb'].
    rewrite (proj2 (transition_Ok _ PathClosed _) (conj Hl eq_refl)).
    eexists; split; [reflexivity|].
    destruct (push_event_ok (push_event (with_state (record i) PathClosed)
      (StateChanged (state (record i)) PathClosed)) EClosed PathClosed Ht' Hb') as [? ?]; [done|].
    by unfold record_ok, owned_ok.
Qed.

Lemma begin_background_recheck_ok i id b i' :
  record_ok (record i) → begin_background_recheck i id = (b, i') →
  record_ok (record i') ∧ selected (record i') = selected (record i)
  ∧ recheck (record i') = recheck (record i)
  ∧ active_operations (record i') = active_operations (record i)
  ∧ lifetime i' = lifetime i ∧ cancelled i' = cancelled i
  ∧ (b = true ∧ state (record i) = RelayState ∧ state (record i') = Rechecking
     ∧ is_Some (recheck (record i))
     ∨ b = false ∧ i' = i).
Proof.
  intros Hr. unfold begin_background_recheck.
  case_bool_decide as Hid; [|intros [= <- <-]; naive_solver].
  case_bool_decide as Hs; [|intros [= <- <-]; naive_solver]. simpl.
  destruct Hr as (Ho&Ht&Hb&Hn). unfold transition, machine_transition. rewrite Hs. simpl.
  intros [= <- <-]. rewrite Hs in Ht.
  destruct (push_change_ok (with_state (record i) Rechecking) RelayState Rechecking Ht Hb eq_refl)
    as [Ht' Hb'].
  destruct (push_event_ok (push_event (with_state (record i) Rechecking)
    (StateChanged RelayState Rechecking)) RecheckStarted Rechecking Ht' Hb') as [? ?]; [done|].
  apply fmap_Some in Hid as (k&Hk&_). simpl. split; [|naive_solver].
  unfold record_ok, owned_ok in *. simpl in *. rewrite Hs in Ho. by rewrite Hk.
Qed.

Lemma finish_failed_recheck_ok i id b i' :
  record_ok (record i) → finish_failed_recheck i id = (b, i') →
  record_ok (record i') ∧ selected (record i') = selected (record i)
  ∧ recheck (record i') = recheck (record i)
  ∧ active_operations (record i') = active_operations (record i)
  ∧ lifetime i' = lifetime i ∧ cancelled i' = cancelled i
  ∧ (b = true ∧ state (record i) = Rechecking ∧ state (record i') = RelayState
     ∧ is_Some (recheck (record i))
     ∨ b = false ∧ i' = i).
Proof.
  intros Hr. unfold finish_failed_recheck.
  case_bool_decide as Hid; [|intros [= <- <-]; naive_solver].
  case_bool_decide as Hs; [|intros [= <- <-]; naive_solver]. simpl.
  destruct Hr as (Ho&Ht&Hb&Hn). unfold transition, machine_transition. rewrite Hs. simpl.
  intros [= <- <-]. rewrite Hs in Ht.
  destruct (push_change_ok (with_state (record i) RelayState) Rechecking RelayState Ht Hb eq_refl)
    as [Ht' Hb'].
  destruct (push_event_ok (push_event (with_state (record i) RelayState)
    (StateChanged Rechecking RelayState)) RecheckScheduled RelayState Ht' Hb') as [? ?]; [done|].
  apply fmap_Some in Hid as (k&Hk&_). simpl. split; [|naive_solver].
  unfold record_ok, owned_ok in *. simpl in *. rewrite Hs, Hk in Ho. done.
Qed.

(** An install that succeeds publishes the winner's path; one that fails changes nothing. *)
Lemma install_section_ok i expected rid owner out i' :
  record_ok (record i) → install_section i expected rid owner = (out, i') →
  record_ok (record i')
  ∧ recheck (record i') = recheck (record i)
  ∧ active_operations (record i') = active_operations (record i)
  ∧ lifetime i' = lifetime i ∧ cancelled i' = cancelled i
  ∧ match out with
    | inl displaced =>
      state (record i) = expected ∧ displaced = selected (record i)
      ∧ selected (record i') = Some owner
      ∧ state (record i') = state_of_kind (sp_kind (os_path owner))
      ∧ (∀ id, rid = Some id → or_id <$> recheck (record i) = Some id)
      ∧ legal expected (state (record i')) = true
    | inr current => i' = i ∧ current = state (record i)
      ∧ (state (record i) ≠ expected
         ∨ (∃ id, rid = Some id ∧ or_id <$> recheck (record i) ≠ Some id)
         ∨ legal expected (state_of_kind (sp_kind (os_path owner))) = false)
    end.
Proof.
  intros Hr. unfold install_section. set (k := sp_kind (os_path owner)).
  case_bool_decide as Hs; simpl; [|intros [= <- <-]; naive_solver].
  destruct (match rid with None => true | Some id => bool_decide _ end) eqn:Hid; simpl.
  2:{ intros [= <- <-]. destruct rid as [id|]; [|done]. apply bool_decide_eq_false in Hid.
      naive_solver. }
  destruct (transition (record i) (state_of_kind k)) as [r|e|] eqn:Htr; cycle 1.
  { intros [= <- <-]. apply transition_Err in Htr as [Hl _]. rewrite Hs in Hl.
    split_and!; try done. naive_solver. }
  { by apply transition_no_panic in Htr. }
  apply transition_Ok in Htr as [Hl ->]. destruct Hr as (Ho&Ht&Hb&Hn).
  destruct (push_change_ok (with_state (record i) (state_of_kind k)) _ _ Ht Hb Hl) as [Ht1 Hb1].
  set (r1 := push_event (with_state (record i) (state_of_kind k)) _) in *.
  destruct (push_event_ok (with_owned r1 (Some owner) (recheck r1)) (Selected k) _ Ht1 Hb1)
    as [Ht2 Hb2]; [done|].
  set (r2 := push_event (with_owned r1 (Some owner) (recheck r1)) (Selected k)) in *.
  intros [= <- <-].
  set (r3 := if bool_decide (state_of_kind k = RelayState) then push_event r2 RelayFallback
             else if bool_decide (is_Some rid) then push_event r2 (Promoted k) else r2).
  assert (state r3 = state_of_kind k ∧ selected r3 = Some owner
    ∧ recheck r3 = recheck (record i) ∧ active_operations r3 = active_operations (record i)
    ∧ next_recheck_id r3 = next_recheck_id (record i)
    ∧ trail (events r3) (state_of_kind k) ∧ blen (events r3) ≤ MAX_RECORDED_EVENTS)
    as (E1&E2&E3&E4&E5&E6&E7).
  { unfold r3. repeat case_bool_decide; split_and!; try done;
      first [by apply push_event_ok | by apply (push_event_ok r2 _ (state_of_kind k))]. }
  clearbody r3. simpl. split.
  - unfold record_ok, owned_ok. rewrite E1, E2, E3, E5. split_and!; try done; try lia.
    unfold state_of_kind. destruct (is_direct k) eqn:Hd; [eauto|].
    exists owner. split; [done|]. fold k. by destruct k.
  - split_and!; try done; [|congruence]. intros id ->. by apply bool_decide_eq_true in Hid.
Qed.

Lemma install_winner_ok i expected rid winner caller out t i' :
  record_ok (record i) → install_winner i expected rid winner caller = (out, t, i') →
  record_ok (record i')
  ∧ recheck (record i') = recheck (record i)
  ∧ active_operations (record i') = active_operations (record i)
  ∧ lifetime i' = lifetime i ∧ cancelled i' = cancelled i
  ∧ match out with
    | Ok path =>
      path = rw_path winner ∧ state (record i) = expected
      ∧ t = os_cancellation <$> selected (record i)
      ∧ selected (record i') =
          Some {| os_path := path; os_cancellation := rw_cancellation winner |}
      ∧ state (record i') = state_of_kind (sp_kind path)
      ∧ (∀ id, rid = Some id → or_id <$> recheck (record i) = Some id)
      ∧ lifetime i = false ∧ caller = false ∧ state (record i) ≠ PathClosed
    | Err e => i' = i ∧ t = Some (rw_cancellation winner)
      ∧ (e = Cancelled ∨ state (record i) ≠ expected
         ∨ (∃ id, rid = Some id ∧ or_id <$> recheck (record i) ≠ Some id)
         ∨ legal expected (state_of_kind (sp_kind (rw_path winner))) = false)
      ∧ (state (record i) = PathClosed → e = Cancelled)
    | Panic => False
    end.
Proof.
  intros Hr. unfold install_winner. destruct (caller || lifetime i) eqn:Hc.
  { intros [= <- <- <-]. naive_solver. }
  apply orb_false_iff in Hc as [Hca Hlt].
  destruct (install_section i expected rid _) as [o j] eqn:Hin.
  destruct (install_section_ok _ _ _ _ _ _ Hr Hin) as (H1&H2&H3&H4&H5&H6).
  destruct o as [displaced|current]; intros [= <- <- <-]; simpl in H6;
    do 5 (split; [done|]); simpl.
  - destruct H6 as (Hst&->&Hsel&Hst'&Hid&Hl). split_and!; try done.
    rewrite Hst. intros ->. by destruct (state (record j)).
  - destruct H6 as (->&->&Hwhy). case_bool_decide; naive_solver.
Qed.

Lemma start_recheck_ok i finished t t' i' :
  record_ok (record i) → start_recheck i finished t = (t', i') →
  record_ok (record i') ∧ state (record i') = state (record i)
  ∧ selected (record i') = selected (record i)
  ∧ active_operations (record i') = active_operations (record i)
  ∧ lifetime i' = lifetime i ∧ cancelled i' = cancelled i
  ∧ (recheck (record i') = recheck (record i) ∧ t' = None
     ∨ recheck (record i') = None ∧ state (record i) = RelayState
       ∧ t' = or_cancellation <$> recheck (record i)
     ∨ recheck (record i) = None ∧ state (record i) = RelayState
       ∧ or_cancellation <$> recheck (record i') = Some t ∧ t' = None).
Proof.
  intros Hr. pose proof Hr as (Ho&Ht&Hb&Hn). unfold start_recheck.
  case_bool_decide as Hs; [|intros [= <- <-]; split; [exact Hr|naive_solver]]. simpl.
  unfold owned_ok in Ho. rewrite Hs in Ho.
  destruct (recheck (record i)) as [k|] eqn:Hk.
  - destruct finished; simpl; intros [= <- <-]; [|split; [exact Hr|naive_solver]].
    split; [|naive_solver]. unfold record_ok, owned_ok; simpl. rewrite Hs.
    split_and!; try done; try lia; by rewrite <- Hs.
  - intros [= <- <-]. simpl. split; [|naive_solver]. unfold record_ok, owned_ok. simpl. rewrite Hs.
    split_and!; try done; [by rewrite <- Hs|lia|].
    unfold wrapping_add, u64_max in *.
    pose proof (Z.mod_pos_bound (next_recheck_id (record i) + 1) (18446744073709551615 + 1)).
    lia.
Qed.

(** * The system invariant *)

Definition holds_guard (o : Operation) : bool := match o with Closing => false | _ => true end.
Definition is_racing (o : Operation) : bool := match o with Racing _ => true | _ => false end.
Definition count (f : Operation → bool) (l : list Operation) : Z :=
  blen (List.filter f l).

Lemma count_app f l k : count f (l ++ k) = count f l + count f k.
Proof. unfold count. by rewrite List.filter_app, blen_app. Qed.
Lemma count_cons f o l : count f (o :: l) = (if f o then 1 else 0) + count f l.
Proof. unfold count. simpl. destruct (f o); [by rewrite blen_cons|lia]. Qed.
Lemma count_nonneg f l : 0 ≤ count f l.
Proof. apply blen_nonneg. Qed.
Lemma count_zero f l o : count f l = 0 → o ∈ l → f o = false.
Proof.
  induction l as [|x l IH]; [by intros _ ?%elem_of_nil|].
  rewrite count_cons. pose proof (count_nonneg f l). intros Hc [->|Hin]%elem_of_cons.
  - destruct (f x); [lia|done].
  - apply IH; [destruct (f x); lia|done].
Qed.

(** Where a token that was handed out is accounted for. *)
Definition accounted (s : System) (t : token) : Prop :=
  token_cancelled (inner s) t
  ∨ os_cancellation <$> selected (record (inner s)) = Some t
  ∨ or_cancellation <$> recheck (record (inner s)) = Some t
  ∨ t ∈ displaced s.

Record system_ok (s : System) : Prop := {
  ok_record : record_ok (record (inner s));
  ok_active : active_operations (record (inner s)) = count holds_guard (operations s);
  ok_racing : state (record (inner s)) ≠ PathClosed → count is_racing (operations s) ≤ 1;
  ok_expected : ∀ e, Racing e ∈ operations s → state (record (inner s)) ≠ PathClosed →
    state (record (inner s)) = e ∧ (e = Checking ∨ e = Rechecking)
    ∧ selected (record (inner s)) = None ∧ recheck (record (inner s)) = None;
  ok_tokens : ∀ t, t ∈ handed_out s → accounted s t;
}.

(** While an operation races, the state is the one it expects and owns nothing. *)
Lemma no_racing_elsewhere s :
  system_ok s → state (record (inner s)) ≠ PathClosed →
  (is_Some (recheck (record (inner s))) ∨ is_Some (selected (record (inner s)))
   ∨ state (record (inner s)) = Discovering ∨ state (record (inner s)) = Direct
   ∨ state (record (inner s)) = RelayState) →
  ∀ e, Racing e ∉ operations s.
Proof.
  intros Hok Hc Hwhy e Hin. destruct (ok_expected s Hok e Hin Hc) as (Hs&He&Hsel&Hrec).
  rewrite Hsel, Hrec in Hwhy. destruct Hwhy as [[? [=]]|[[? [=]]|Hd]].
  rewrite Hs in Hd. destruct He as [-> | ->]; naive_solver.
Qed.

Lemma no_racing_count ops : (∀ e, Racing e ∉ ops) → count is_racing ops = 0.
Proof.
  induction ops as [|o ops IH]; intros Hn; [done|]. rewrite count_cons, IH.
  - destruct o as [e| |]; simpl; try lia. exfalso. apply (Hn e). left.
  - intros e He. apply (Hn e). by right.
Qed.

Lemma racing_unique ops1 e ops2 o :
  count is_racing (ops1 ++ Racing e :: ops2) ≤ 1 → is_racing o = false →
  ∀ e', Racing e' ∉ ops1 ++ o :: ops2.
Proof.
  intros Hc Ho e' Hin. rewrite count_app, count_cons in Hc. simpl in Hc.
  pose proof (count_nonneg is_racing ops1). pose proof (count_nonneg is_racing ops2).
  apply elem_of_app in Hin as [Hin|[<-|Hin]%elem_of_cons]; [|done|];
    apply (count_zero is_racing) in Hin; done || lia.
Qed.

(** An operation that leaves the race, its guard dropped or kept. *)
Lemma operation_replaced ops1 e ops2 o :
  count holds_guard (ops1 ++ Racing e :: ops2)
    = count holds_guard (ops1 ++ o :: ops2) + (if holds_guard o then 0 else 1).
Proof. rewrite !count_app, !count_cons. simpl. destruct (holds_guard o); lia. Qed.

Lemma elem_of_replaced ops1 (o o' o1 : Operation) ops2 :
  o1 ∈ ops1 ++ o' :: ops2 → o1 = o' ∨ o1 ∈ ops1 ++ o :: ops2.
Proof. rewrite !elem_of_app, !elem_of_cons. naive_solver. Qed.

(** Steps that touch neither the operations nor what the record owns. *)
Lemma system_ok_same i i' ops h d :
  system_ok {| inner := i; operations := ops; handed_out := h; displaced := d |} →
  record_ok (record i') →
  active_operations (record i') = active_operations (record i) →
  selected (record i') = selected (record i) → recheck (record i') = recheck (record i) →
  lifetime i' = lifetime i → cancelled i' = cancelled i →
  (state (record i') = state (record i)
   ∨ is_Some (recheck (record i)) ∧ state (record i) ≠ PathClosed) →
  system_ok {| inner := i'; operations := ops; handed_out := h; displaced := d |}.
Proof.
  intros Hok Hr Ha Hsel Hrec Hl Hc Hst. pose proof (no_racing_elsewhere _ Hok) as Hnr.
  destruct Hok as [_ Hact Hrac Hexp Htok]. simpl in *. split; simpl.
  - done.
  - by rewrite Ha.
  - intros Hcl. destruct Hst as [Heq|[Hk Hn]]; [rewrite Heq in Hcl; by apply Hrac|].
    rewrite no_racing_count; [lia|]. by apply Hnr; [|left].
  - intros e Hin Hcl. destruct Hst as [Heq|[Hk Hn]].
    + rewrite Heq in Hcl |- *. rewrite Hsel, Hrec. by apply Hexp.
    + exfalso. by eapply Hnr; [|left|].
  - intros t Ht. specialize (Htok t Ht). unfold accounted, token_cancelled in *. simpl in *.
    by rewrite Hsel, Hrec, Hl, Hc.
Qed.

Lemma step_begin_ok i i' ops h d next :
  system_ok {| inner := i; operations := ops; handed_out := h; displaced := d |} →
  record_ok (record i') → state (record i') = next → next = Checking ∨ next = Rechecking →
  (state (record i) = Discovering ∨ state (record i) = Direct ∨ state (record i) = RelayState) →
  selected (record i') = None → recheck (record i') = None →
  active_operations (record i') = active_operations (record i) + 1 →
  (∀ t, accounted {| inner := i; operations := ops; handed_out := h; displaced := d |} t →
        accounted {| inner := i'; operations := ops; handed_out := h; displaced := d |} t) →
  system_ok {| inner := i'; operations := Racing next :: ops; handed_out := h; displaced := d |}.
Proof.
  intros Hok Hr Hst Hnext Hold Hsel Hrec Ha Htok'.
  assert (∀ e, Racing e ∉ ops) as Hnr.
  { apply (no_racing_elsewhere _ Hok); simpl; [|tauto].
    intros Hx. rewrite Hx in Hold. naive_solver. }
  destruct Hok as [_ Hact Hrac Hexp Htok]. simpl in *. split; simpl.
  - done.
  - rewrite count_cons. simpl. lia.
  - intros _. rewrite count_cons, no_racing_count by done. simpl. lia.
  - intros e [[= ->]|Hin]%elem_of_cons _; [done|]. by apply Hnr in Hin.
  - intros t Ht. exact (Htok' t (Htok t Ht)).
Qed.

(** The guard of an operation that leaves the race is counted. *)
Lemma drop_guard_active i :
  1 ≤ active_operations (record i) →
  active_operations (record (drop_guard i)) = active_operations (record i) - 1.
Proof. intros. simpl. unfold saturating_sub. lia. Qed.

Lemma guarded_positive ops1 o ops2 :
  holds_guard o = true → 1 ≤ count holds_guard (ops1 ++ o :: ops2).
Proof.
  intros Ho. rewrite count_app, count_cons, Ho.
  pose proof (count_nonneg holds_guard ops1). pose proof (count_nonneg holds_guard ops2). lia.
Qed.

(** Steps by which an operation leaves the race. *)
Lemma step_leaves_race i i' ops1 e ops2 o h h' d d' :
  system_ok {| inner := i; operations := ops1 ++ Racing e :: ops2; handed_out := h;
               displaced := d |} →
  is_racing o = false →
  record_ok (record i') →
  active_operations (record i') =
    active_operations (record i) - (if holds_guard o then 0 else 1) →
  (state (record i') ≠ PathClosed → state (record i) ≠ PathClosed) →
  (∀ t, t ∈ h' → accounted {| inner := i'; operations := []; handed_out := h'; displaced := d' |} t) →
  system_ok {| inner := i'; operations := ops1 ++ o :: ops2; handed_out := h'; displaced := d' |}.
Proof.
  intros Hok Ho Hr Ha Hcl Htok'. destruct Hok as [_ Hact Hrac Hexp _]. simpl in *.
  split; simpl; [done| | | |done].
  - rewrite Ha, Hact. rewrite (operation_replaced ops1 e ops2 o). destruct (holds_guard o); lia.
  - intros Hc. rewrite no_racing_count; [lia|]. by eapply racing_unique; [apply Hrac, Hcl|].
  - intros e' Hin Hc. exfalso. by eapply (racing_unique ops1 e ops2 o); [apply Hrac, Hcl| |].
Qed.

(** Steps by which an operation that has left the race ends. *)
Lemma step_ends i i' ops1 o ops2 h d :
  system_ok {| inner := i; operations := ops1 ++ o :: ops2; handed_out := h; displaced := d |} →
  is_racing o = false →
  record_ok (record i') →
  active_operations (record i') =
    active_operations (record i) - (if holds_guard o then 1 else 0) →
  (state (record i') = PathClosed
   ∨ state (record i') = state (record i) ∧ selected (record i') = selected (record i)
     ∧ recheck (record i') = recheck (record i)) →
  (∀ t, t ∈ h → accounted {| inner := i'; operations := []; handed_out := h; displaced := d |} t) →
  system_ok {| inner := i'; operations := ops1 ++ ops2; handed_out := h; displaced := d |}.
Proof.
  intros Hok Ho Hr Ha Hst Htok'. destruct Hok as [_ Hact Hrac Hexp _]. simpl in *.
  split; simpl; [done| | | |done].
  - rewrite Ha, Hact, !count_app, count_cons. destruct (holds_guard o); lia.
  - intros Hc. destruct Hst as [?|(Hs&_&_)]; [done|]. rewrite Hs in Hc. specialize (Hrac Hc).
    rewrite count_app, count_cons, Ho in Hrac. rewrite count_app. lia.
  - intros e Hin Hc. destruct Hst as [?|(Hs&Hsel&Hrec)]; [done|].
    rewrite Hs in Hc |- *. rewrite Hsel, Hrec. apply Hexp; [|done]. rewrite elem_of_app, elem_of_cons. apply elem_of_app in Hin. naive_solver.
Qed.

(** Closing accounts for every token: the lifetime is cancelled. *)
Lemma close_ends i' ops h d :
  lifetime i' = true →
  ∀ t, accounted {| inner := i'; operations := ops; handed_out := h; displaced := d |} t.
Proof. intros Hl t. left. by left. Qed.

(** * Preservation *)

Lemma system_new_ok : system_ok System_new.
Proof.
  split; simpl; try done.
  - unfold record_ok, owned_ok; simpl. split_and!; try done. constructor.
  - intros e ?%elem_of_nil. done.
Qed.

(** What an install does to the accounts, whether or not it succeeds. *)
Lemma install_accounted i expected rid winner caller r t i' ops h d x :
  record_ok (record i) → install_winner i expected rid winner caller = (r, t, i') →
  x ∈ {[rw_cancellation winner]} ∪ h →
  (∀ x, x ∈ h → accounted {| inner := i; operations := ops; handed_out := h; displaced := d |} x) →
  accounted {| inner := i'; operations := []; handed_out := {[rw_cancellation winner]} ∪ h;
               displaced := option_list t ++ d |} x.
Proof.
  intros Hr Hin Hx Hold. apply elem_of_union in Hx.
  destruct (install_winner_ok _ _ _ _ _ _ _ _ Hr Hin) as (_&Hrec&_&Hl&Hc&Hout).
  unfold accounted, token_cancelled in *. simpl in *. rewrite Hrec, Hl, Hc.
  destruct r as [path|e|]; [| |done].
  - destruct Hout as (_&_&->&Hsel&_). rewrite Hsel. simpl.
    destruct Hx as [->%elem_of_singleton|Hx]; [naive_solver|].
    destruct (Hold x Hx) as [?|[Hs|[?|?]]]; [naive_solver| |naive_solver|].
    + rewrite Hs. right. right. right. simpl. left.
    + right. right. right. apply elem_of_app. by right.
  - destruct Hout as (->&->&_). simpl. setoid_rewrite elem_of_cons.
    destruct Hx as [->%elem_of_singleton|Hx]; [naive_solver|].
    destruct (Hold x Hx) as [?|[?|[?|?]]]; naive_solver.
Qed.

Lemma drop_guard_record i : record_ok (record i) → record_ok (record (drop_guard i)).
Proof. by destruct i as [[] ? ?]. Qed.

Lemma step_ok s s' : system_ok s → step s s' → system_ok s'.
Proof.
  intros Hok Hstep. pose proof (ok_record _ Hok) as Hr. pose proof (ok_active _ Hok) as Hact.
  pose proof (ok_tokens _ Hok) as Htok.
  destruct Hstep as
    [i ops h d i' Hb|i ops h d i' rs Hb|i ops1 ops2 h d ex
    |i ops1 ops2 h d ex w ca path t i' Hf Hi|i ops1 ops2 h d ex w ca e t i' Hf Hi
    |i ops1 ops2 h d fin t t' i' Hf Hs|i ops1 ops2 h d k pub i' Hf|i ops1 ops2 h d i' Hc
    |i ops h d i' Hc|i ops h d k e He|i ops h d id b i' Hb|i ops h d id b i' Hb
    |i ops h d id w ca r t i' Hf Hi|i ops h d1 t d2]; simpl in *.
  - (* connect *)
    pose proof (begin_ok _ _ Hr Hb) as Hr'.
    apply begin_Ok in Hb as (Hl&Hst&Hsel&Hrec&Ha&Hlf&Hcan).
    assert (state (record i) = Discovering) as Hd by by destruct (state (record i)).
    destruct Hr as (Ho&_). unfold owned_ok in Ho. rewrite Hd in Ho. destruct Ho as [Ho1 Ho2].
    eapply step_begin_ok; [done..|auto|auto|congruence|congruence|done|].
    intros t. unfold accounted, token_cancelled. simpl. by rewrite Hsel, Hrec, Hlf, Hcan.
  - (* report_failed *)
    destruct (begin_failure_ok _ _ _ Hr Hb) as (Hr'&Hst&Hst'&Hsel&Hrec&Ha&Hcan).
    eapply step_begin_ok; [done..|auto|tauto|done|done|done|].
    intros t [H|[H|[H|H]]]; [left|left|left|by right; right; right]; apply Hcan; auto.
  - (* race lost *)
    eapply (step_leaves_race i _ ops1 ex ops2 Closing); [done|done|by apply drop_guard_record| |done|done].
    rewrite drop_guard_active; [done|]. rewrite Hact. by apply guarded_positive.
  - (* race won *)
    destruct (install_winner_ok _ _ _ _ _ _ _ _ Hr Hi) as (Hr'&_&Ha&_&_&Hout).
    eapply (step_leaves_race i _ ops1 ex ops2 (Installed _)); [done|done|done|simpl; lia|tauto|].
    intros x Hx. exact (install_accounted _ _ _ _ _ _ _ _ _ _ _ _ Hr Hi Hx Htok).
  - (* install failed *)
    destruct (install_winner_ok _ _ _ _ _ _ _ _ Hr Hi) as (Hr'&_&Ha&_&_&->&Hout).
    eapply (step_leaves_race i _ ops1 ex ops2 Closing); [done|done|by apply drop_guard_record| |done|].
    + rewrite drop_guard_active; [done|]. rewrite Hact. by apply guarded_positive.
    + intros x Hx.
      destruct (install_accounted _ _ _ _ _ _ _ _ _ _ _ _ Hr Hi Hx Htok) as [H|[H|[H|H]]];
        [by left|by right; left|by right; right; left|by right; right; right].
  - (* start_recheck *)
    destruct (start_recheck_ok _ _ _ _ _ Hr Hs) as (Hr'&Hst&Hsel&Ha&Hl&Hcan&Hrec).
    pose proof (no_racing_elsewhere _ Hok) as Hnr. destruct Hok as [_ _ Hrac Hexp _]. simpl in *.
    split; simpl; [done|by rewrite Ha|by rewrite Hst| |].
    + intros e Hin Hcl. rewrite Hst in Hcl |- *. destruct (Hexp e Hin Hcl) as (H1&H2&H3&H4).
      rewrite Hsel. split_and!; try done.
      destruct Hrec as [[-> _]|[(->&_)|(_&Hrl&_)]]; [done..|]. exfalso.
      eapply Hnr; [done| |exact Hin]. tauto.
    + intros x Hx. unfold accounted, token_cancelled. simpl. rewrite Hsel, Hl, Hcan.
      destruct Hrec as [[Heq ->]|[(Heq&_&->)|(Hn&_&Heq&->)]].
      * assert (x ∈ h ∨ or_cancellation <$> recheck (record i) = Some x) as [Hh|Hk].
        { rewrite Heq in Hx. destruct (recheck (record i)); set_solver. }
        -- rewrite Heq. by apply Htok.
        -- rewrite Heq. tauto.
      * rewrite Heq in Hx |- *. destruct (Htok x Hx) as [H|[H|[H|H]]]; simpl in *;
          [tauto|tauto| |]; rewrite elem_of_app; [|tauto].
        rewrite H. right; right; right; left. by left.
      * destruct (recheck (record i')) as [k'|]; [|done]. simpl in Heq |- *.
        injection Heq as <-. apply elem_of_union in Hx as [->%elem_of_singleton|Hx]; [by right; right; left|].
        destruct (Htok x Hx) as [H|[H|[H|H]]]; simpl in *; [tauto|tauto| |tauto].
        by rewrite Hn in H.
  - (* finish *)
    injection Hf as <- <-.
    eapply (step_ends i _ ops1 (Installed k)); [done|done|by apply drop_guard_record| |by right|done].
    rewrite drop_guard_active; [done|]. rewrite Hact. by apply guarded_positive.
  - (* the close of a failed operation *)
    destruct (close_ok i Hr) as (j&Hj&Hr'&Hst&Hl&Ha&_). rewrite Hc in Hj. injection Hj as <-.
    eapply (step_ends i _ ops1 Closing); [done|done|done|simpl; lia|by left|].
    intros x _. by apply close_ends.
  - (* close *)
    destruct (close_ok i Hr) as (j&Hj&Hr'&Hst&Hl&Ha&_). rewrite Hc in Hj. injection Hj as <-.
    destruct Hok as [_ _ Hrac Hexp _]. split; simpl in *; [done|by rewrite Ha|done|done|].
    intros x _. by apply close_ends.
  - (* an attempt event *)
    assert (∀ a b, e ≠ StateChanged a b) as Hne by (destruct He as [-> | ->]; done).
    pose proof (record_event_ok i e Hr Hne) as Hr'. unfold record_event in *.
    case_bool_decide; [done|].
    by apply (system_ok_same i); [done|done|done|done|done|done|done|left].
  - (* a recheck begins *)
    destruct (begin_background_recheck_ok _ _ _ _ Hr Hb) as (Hr'&Hsel&Hrec&Ha&Hl&Hcan&Hst).
    apply (system_ok_same i); try done.
    destruct Hst as [(_&Hs&_&Hk)|[_ ->]]; [|by left]. right. split; [done|by rewrite Hs].
  - (* a recheck fails *)
    destruct (finish_failed_recheck_ok _ _ _ _ Hr Hb) as (Hr'&Hsel&Hrec&Ha&Hl&Hcan&Hst).
    apply (system_ok_same i); try done.
    destruct Hst as [(_&Hs&_&Hk)|[_ ->]]; [|by left]. right. split; [done|by rewrite Hs].
  - (* a recheck wins *)
    destruct (install_winner_ok _ _ _ _ _ _ _ _ Hr Hi) as (Hr'&Hrec&Ha&Hl&Hcan&Hout).
    pose proof (no_racing_elsewhere _ Hok) as Hnr. destruct Hok as [_ _ Hrac Hexp _]. simpl in *.
    assert (∀ x, x ∈ {[rw_cancellation w]} ∪ h → accounted {| inner := i'; operations := ops;
      handed_out := {[rw_cancellation w]} ∪ h; displaced := option_list t ++ d |} x) as Htok'.
    { intros x Hx. exact (install_accounted _ _ _ _ _ _ _ _ _ _ _ _ Hr Hi Hx Htok). }
    destruct r as [path|e|]; [| |done].
    + destruct Hout as (_&Hst&_&_&_&Hid&_&_&Hcl). specialize (Hid id eq_refl).
      assert (∀ e, Racing e ∉ ops) as Hno.
      { apply Hnr; [done|]. left. by destruct (recheck (record i)). }
      split; simpl; [done|by rewrite Ha| | |done].
      * intros _. rewrite no_racing_count by done. lia.
      * intros e Hin. by apply Hno in Hin.
    + destruct Hout as (->&_). by split.
  - (* a displaced path is shut down *)
    destruct Hok as [_ _ Hrac Hexp _]. simpl in *. split; simpl; [done|done|done|done|].
    intros x Hx. unfold accounted, token_cancelled in *. simpl in *.
    specialize (Htok x Hx). rewrite elem_of_union, elem_of_singleton.
    rewrite elem_of_app, elem_of_cons in Htok. rewrite elem_of_app. naive_solver.
Qed.

Lemma reachable_ok s : reachable s → system_ok s.
Proof.
  unfold reachable. intros Hr. remember System_new as s0 eqn:E.
  assert (system_ok s0) as H0 by (subst; apply system_new_ok). clear E.
  induction Hr as [|a b c Hs _ IH]; [done|]. apply IH. by eapply step_ok.
Qed.

(** A closed manager: nothing is published, logged or started any more. *)
Lemma closed_step s s' :
  system_ok s → state (record (inner s)) = PathClosed → step s s' →
  state (record (inner s')) = PathClosed ∧ events (record (inner s')) = events (record (inner s)).
Proof.
  intros Hok Hcl Hstep. pose proof (ok_record _ Hok) as Hr. destruct Hstep; simpl in *.
  - match goal with H : begin _ _ = _ |- _ => apply begin_Ok in H as (Hl&_) end.
    by rewrite Hcl in Hl.
  - match goal with H : begin_failure _ = _ |- _ => apply begin_failure_ok in H; [|done] end.
    rewrite Hcl in *. naive_solver.
  - done.
  - match goal with H : install_winner _ _ _ _ _ = _ |- _ =>
      apply install_winner_ok in H; [|done] end. naive_solver.
  - match goal with H : install_winner _ _ _ _ _ = _ |- _ =>
      apply install_winner_ok in H as (_&_&_&_&_&->&_); [|done] end. done.
  - match goal with H : start_recheck _ _ _ = _ |- _ => revert H end. unfold start_recheck.
    rewrite bool_decide_eq_false_2 by (rewrite Hcl; done). by intros [= <- <-].
  - unfold finish in *. by simplify_eq/=.
  - destruct (close_ok i Hr) as (j&Hj&_&Hst&_&_&Hsame). 
    match goal with H : close i = Ok ?k |- _ => rewrite Hj in H; apply Ok_inj in H as <- end.
    by rewrite Hsame by done.
  - destruct (close_ok i Hr) as (j&Hj&_&Hst&_&_&Hsame). 
    match goal with H : close i = Ok ?k |- _ => rewrite Hj in H; apply Ok_inj in H as <- end.
    by rewrite Hsame by done.
  - unfold record_event. by rewrite bool_decide_eq_true_2.
  - match goal with H : begin_background_recheck _ _ = _ |- _ =>
      apply begin_background_recheck_ok in H as (_&_&_&_&_&_&[(_&Hs&_)|[_ ->]]); [..|done] end; [|done].
    by rewrite Hcl in Hs.
  - match goal with H : finish_failed_recheck _ _ = _ |- _ =>
      apply finish_failed_recheck_ok in H as (_&_&_&_&_&_&[(_&Hs&_)|[_ ->]]); [..|done] end; [|done].
    by rewrite Hcl in Hs.
  - match goal with H : install_winner _ _ _ _ _ = _ |- _ =>
      apply install_winner_ok in H as (_&_&_&_&_&Hout); [|done] end.
    destruct r; [naive_solver| |done]. by destruct Hout as [-> _].
  - done.
Qed.

(** * Properties *)

(** C3: under every interleaving of connects, failure reports, background rechecks,
    promotions, shutdowns and closes, a manager that is direct or relayed publishes a path
    of exactly that kind, one that is starting or closed owns nothing, the recorded state
    changes form a walk of legal transitions ending in the current state, the log never
    exceeds its bound, and the count of active operations is the number in flight. *)
Theorem path_manager_invariant s :
  reachable s →
  let r := record (inner s) in
  owned_ok r ∧ trail (events r) (state r) ∧ blen (events r) ≤ MAX_RECORDED_EVENTS
  ∧ active_operations r = count holds_guard (operations s).
Proof.
  intros Hok%reachable_ok. destruct (ok_record s Hok) as (Ho&Ht&Hb&_).
  split_and!; [done..|]. apply (ok_active s Hok).
Qed.

(** C4: no path leaks: whatever the interleaving, every cancellation token that was handed
    to a path or a recheck is cancelled, still owned, or waiting for its shutdown; so a
    closed manager with no shutdown left to run has cancelled all of them, and it is never
    reported as free of operations while one still holds its guard. *)
Theorem no_path_leak s t :
  reachable s → t ∈ handed_out s →
  accounted s t
  ∧ (state (record (inner s)) = PathClosed → displaced s = [] → token_cancelled (inner s) t)
  ∧ (operations_done (inner s) = true → ∀ o, o ∈ operations s → o = Closing).
Proof.
  intros Hok%reachable_ok Ht. pose proof (ok_tokens s Hok t Ht) as Hacc.
  split_and!; [done| |].
  - intros Hc Hd. destruct (ok_record s Hok) as (Ho&_). unfold owned_ok in Ho. rewrite Hc in Ho.
    destruct Ho as [Hs Hk]. unfold accounted in Hacc. rewrite Hs, Hk, Hd in Hacc.
    destruct Hacc as [|[|[|?%elem_of_nil]]]; done.
  - unfold operations_done. intros Hz o Hin. apply Z.eqb_eq in Hz.
    rewrite (ok_active s Hok) in Hz. apply (count_zero _ _ o Hz) in Hin. by destruct o.
Qed.

(** Closing is final: from a closed manager no sequence of steps ever publishes a
    path, starts a recheck, records an event or changes the state again; and closing itself
    always succeeds, from every state. *)
Theorem close_is_final s s' :
  reachable s →
  (∃ i', close (inner s) = Ok i' ∧ state (record i') = PathClosed ∧ lifetime i' = true)
  ∧ (state (record (inner s)) = PathClosed → rtc step s s' →
     state (record (inner s')) = PathClosed
     ∧ selected (record (inner s')) = None ∧ recheck (record (inner s')) = None
     ∧ events (record (inner s')) = events (record (inner s))).
Proof.
  intros Hok%reachable_ok. split.
  - destruct (close_ok _ (ok_record s Hok)) as (i'&?&_&?&?&_). eauto.
  - intros Hc Hs. induction Hs as [s|a b c Hab Hbc IH].
    + destruct (ok_record s Hok) as (Ho&_). unfold owned_ok in Ho. rewrite Hc in Ho. naive_solver.
    + destruct (closed_step a b Hok Hc Hab) as [Hb He]. rewrite <- He.
      apply IH; [by eapply step_ok|done].
Qed.

(** An operation that wins its race is refused its install only because it was
    cancelled or the manager closed: in every reachable state the manager is still in the
    state the operation began, so no concurrent operation or recheck can make the install
    an illegal transition. *)
Theorem install_fails_only_cancelled s expected winner caller e t i' :
  reachable s → Racing expected ∈ operations s →
  install_winner (inner s) expected None winner caller = (Err e, t, i') → e = Cancelled.
Proof.
  intros Hok%reachable_ok Hin Hi.
  destruct (install_winner_ok _ _ _ _ _ _ _ _ (ok_record s Hok) Hi) as (_&_&_&_&_&_&_&Hwhy&Hcl).
  destruct (decide (state (record (inner s)) = PathClosed)) as [|Hnc]; [auto|].
  destruct (ok_expected s Hok expected Hin Hnc) as (Hst&Hex&_).
  destruct Hwhy as [|[?|[(?&[=]&_)|Hl]]]; [done|done|]. exfalso. revert Hl.
  unfold state_of_kind. destruct Hex as [-> | ->]; by destruct (is_direct _).
Qed.

(** A background recheck for which the factory offers no attempt ends its loop in the
    rechecking state and does not go on: the manager keeps its relay path, but a failure
    report made from there, whatever attempt events are recorded first, is refused as an
    illegal transition. *)
Theorem empty_recheck_is_stuck i id race caller :
  state (record i) = RelayState → or_id <$> recheck (record i) = Some id →
  ∃ i', recheck_round i id (Ok []) race caller = (false, i')
    ∧ state (record i') = Rechecking ∧ selected (record i') = selected (record i)
    ∧ begin_failure i' = Err (IllegalPath Rechecking Rechecking)
    ∧ ∀ e, begin_failure (record_event i' e) = Err (IllegalPath Rechecking Rechecking).
Proof.
  intros Hs Hid. unfold recheck_round, begin_background_recheck.
  rewrite !bool_decide_eq_true_2 by done. simpl. unfold transition at 1, machine_transition.
  rewrite Hs. simpl. eexists; split; [reflexivity|]. split_and!; done.
Qed.

(** * Witnesses *)

Definition demo_winner : RaceWinner :=
  {| rw_path := {| sp_kind := PathRelay; sp_handle := 0%nat |}; rw_cancellation := 0%nat |}.
(** A manager that connected over the relay and started its recheck. *)
Definition demo_started : ManagerInner :=
  match begin ManagerInner_new Checking with
  | Ok i => (start_recheck (install_winner i Checking None demo_winner false).2 false 1%nat).2
  | _ => ManagerInner_new
  end.
Definition demo_system : System :=
  {| inner := match begin ManagerInner_new Checking with
              | Ok i => (install_winner i Checking None demo_winner false).2
              | _ => ManagerInner_new end;
     operations := [Installed PathRelay]; handed_out := {[0%nat]} ∪ ∅; displaced := [] |}.
Definition demo_racing : System :=
  {| inner := match begin ManagerInner_new Checking with Ok i => i | _ => ManagerInner_new end;
     operations := [Racing Checking]; handed_out := ∅; displaced := [] |}.

Lemma demo_racing_reachable : reachable demo_racing.
Proof. eapply rtc_l; [by apply step_connect|]. apply rtc_refl. Qed.
Lemma demo_system_reachable : reachable demo_system.
Proof.
  eapply rtc_r; [apply demo_racing_reachable|].
  apply (step_race_won _ [] [] ∅ [] Checking demo_winner false (rw_path demo_winner) None);
    [set_solver|reflexivity].
Qed.

Lemma path_manager_invariant_witness :
  state (record (inner demo_system)) = RelayState
  ∧ active_operations (record (inner demo_system)) = count holds_guard (operations demo_system).
Proof.
  split; [reflexivity|]. apply (path_manager_invariant demo_system demo_system_reachable).
Defined.

Lemma no_path_leak_witness : accounted demo_system 0%nat.
Proof.
  apply (no_path_leak demo_system 0%nat demo_system_reachable). simpl. set_solver.
Defined.

Lemma close_is_final_witness :
  ∃ i', close (inner demo_system) = Ok i' ∧ state (record i') = PathClosed ∧ lifetime i' = true.
Proof. exact (proj1 (close_is_final demo_system demo_system demo_system_reachable)). Defined.

Lemma install_fails_only_cancelled_witness :
  install_winner (inner demo_racing) Checking None demo_winner true
    = (Err Cancelled, Some 0%nat, inner demo_racing) ∧ Cancelled = Cancelled.
Proof.
  split; [reflexivity|].
  apply (install_fails_only_cancelled demo_racing Checking demo_winner true Cancelled (Some 0%nat)
    (inner demo_racing) demo_racing_reachable); [simpl; left|reflexivity].
Defined.

Lemma empty_recheck_is_stuck_witness :
  ∃ i', recheck_round demo_started 1 (Ok []) (Err NoViablePath) false = (false, i')
    ∧ state (record i') = Rechecking ∧ selected (record i') = selected (record demo_started)
    ∧ begin_failure i' = Err (IllegalPath Rechecking Rechecking)
    ∧ ∀ e, begin_failure (record_event i' e) = Err (IllegalPath Rechecking Rechecking).
Proof. apply empty_recheck_is_stuck; reflexivity. Defined.
