(* ===== verification/Race.v ===== *)
(** The race of connection attempts ([rustgo-path/src/race.rs]): direct attempts start at
    once, the relay after its grace period, the first success wins and everything else is
    cancelled.  The [select!] loop is a function of the sequence of its wake-ups. *)

From S2P Require Import Prelude.
From S2P Require Import Path.
From stdpp Require Import prelude gmap list.

#[local] Open Scope Z_scope.

(** * Types *)

(** An attempt as the race sees it; what its [connect] gives is part of a wake-up. *)
Record Attempt := { at_name : nat; at_kind : PathKind }.

Record RunningAttempt := {
  ra_id : nat;
  ra_task_id : nat;
  ra_kind : PathKind;
  ra_cancellation : token;
}.

(** A task of the [JoinSet]: the values its future captured and the deadline of its
    [timeout_at]. *)
Record Task := { tk_entry : RunningAttempt; tk_attempt : Attempt; tk_deadline : Z }.

(** The local variables of [race_attempts], the events it has given to
    [ManagerInner::record_event], the supply of task ids and child tokens, and the child
    tokens that have been cancelled.  Times in nanoseconds. *)
Record Race := {
  relay_group : list Attempt;
  relay_start : Z;
  attempt_limit : Z;
  tasks : list Task;
  running : list RunningAttempt;
  next_id : nat;
  direct_active : nat;
  relay_active : nat;
  relay_started : bool;
  emitted : list PathEvent;
  next_token : nat;
  race_cancelled : gset token;
}.

(** How a task ended: its [connect] returned, its deadline elapsed first, or it panicked. *)
Inductive TaskEnd :=
| Connected (result : SelectedPath + PathError)
| Elapsed
| Panicked.

(** One poll of the [select!]: the clock, the cancellation tokens found cancelled, and the
    task, by its id, whose end [join_next_with_id] reports. *)
Record Wake := {
  now : Z;
  caller_cancelled : bool;
  operation_cancelled : bool;
  lifetime_cancelled : bool;
  joined : option (nat * TaskEnd);
}.

Definition with_tasks (s : Race) (t : list Task) (r : list RunningAttempt) : Race :=
  {| relay_group := relay_group s; relay_start := relay_start s; attempt_limit := attempt_limit s;
     tasks := t; running := r; next_id := next_id s; direct_active := direct_active s;
     relay_active := relay_active s; relay_started := relay_started s; emitted := emitted s;
     next_token := next_token s; race_cancelled := race_cancelled s |}.
Definition with_counts (s : Race) (d r : nat) (started : bool) : Race :=
  {| relay_group := relay_group s; relay_start := relay_start s; attempt_limit := attempt_limit s;
     tasks := tasks s; running := running s; next_id := next_id s; direct_active := d;
     relay_active := r; relay_started := started; emitted := emitted s;
     next_token := next_token s; race_cancelled := race_cancelled s |}.
Definition emit (s : Race) (e : PathEvent) : Race :=
  {| relay_group := relay_group s; relay_start := relay_start s; attempt_limit := attempt_limit s;
     tasks := tasks s; running := running s; next_id := next_id s;
     direct_active := direct_active s; relay_active := relay_active s;
     relay_started := relay_started s; emitted := emitted s ++ [e];
     next_token := next_token s; race_cancelled := race_cancelled s |}.
Definition cancel_tokens (s : Race) (t : gset token) : Race :=
  {| relay_group := relay_group s; relay_start := relay_start s; attempt_limit := attempt_limit s;
     tasks := tasks s; running := running s; next_id := next_id s;
     direct_active := direct_active s; relay_active := relay_active s;
     relay_started := relay_started s; emitted := emitted s;
     next_token := next_token s; race_cancelled := t ∪ race_cancelled s |}.

(** * The operations *)

Definition group_index (k : PathKind) : nat :=
  match k with QuicV6 => 0 | QuicV4 => 1 | PathNativeTcp => 2 | PathRelay => 3 end.

(** The group of an index, its attempts in the order given. *)
Definition group (attempts : list Attempt) (index : nat) : list Attempt :=
  filter (λ a, group_index (at_kind a) = index) attempts.

(** One turn of the loop of [spawn_group]. *)
Definition spawn (deadline : Z) (s : Race) (attempt : Attempt) : Race :=
  let entry := {| ra_id := next_id s; ra_task_id := next_token s; ra_kind := at_kind attempt;
                  ra_cancellation := next_token s |} in
  let s := emit s (AttemptStarted (at_kind attempt)) in
  {| relay_group := relay_group s; relay_start := relay_start s; attempt_limit := attempt_limit s;
     tasks := tasks s ++ [{| tk_entry := entry; tk_attempt := attempt; tk_deadline := deadline |}];
     running := running s ++ [entry]; next_id := S (next_id s);
     direct_active := direct_active s; relay_active := relay_active s;
     relay_started := relay_started s; emitted := emitted s;
     next_token := S (next_token s); race_cancelled := race_cancelled s |}.
Definition spawn_group (attempts : list Attempt) (deadline : Z) (s : Race) : Race :=
  foldl (spawn deadline) s attempts.

(** [cleanup]: cancel what runs, abort and drain the tasks. *)
Definition cleanup (s : Race) : Race :=
  cancel_tokens (with_tasks s [] (running s)) (list_to_set (ra_cancellation <$> running s)).

Definition decrement_active (s : Race) (k : PathKind) : Race :=
  if bool_decide (k = PathRelay)
  then with_counts s (direct_active s) (relay_active s - 1) (relay_started s)
  else with_counts s (direct_active s - 1) (relay_active s) (relay_started s).

(** [Vec::swap_remove] of an index in range. *)
Definition swap_remove {A} (l : list A) (i : nat) : list A :=
  match last l with
  | Some x => take (length l - 1) (<[i := x]> l)
  | None => []
  end.

(** Whether the race still waits or has returned, with its variables. *)
Inductive Status :=
| Waiting (s : Race)
| Returned (r : res PathError RaceWinner) (s : Race).

(** The top of the loop, up to the [select!]. *)
Definition loop_top (s : Race) (now : Z) : Status :=
  let s :=
    if negb (relay_started s) && (relay_start s <=? now)
    then spawn_group (relay_group s) (now + attempt_limit s)
           (with_counts s (direct_active s) (length (relay_group s)) true)
    else s in
  if bool_decide (direct_active s = 0%nat) && relay_started s
     && bool_decide (relay_active s = 0%nat)
  then Returned (Err NoViablePath) (cleanup s)
  else Waiting s.

(** A failed attempt: its token is cancelled and the event recorded. *)
Definition attempt_failed (s : Race) (completed : RunningAttempt) : Race :=
  emit (cancel_tokens s {[ra_cancellation completed]}) (AttemptFailed (ra_kind completed)).

(** The [join_next_with_id] branch for a task that has ended and left the set; [None] when
    the loop goes on. *)
Definition join_branch (s : Race) (t : Task) (e : TaskEnd) : option RaceWinner * Race :=
  let id := ra_id (tk_entry t) in
  let kind := ra_kind (tk_entry t) in
  let s := with_tasks s (filter (λ u, ra_task_id (tk_entry u) ≠ ra_task_id (tk_entry t)) (tasks s))
             (running s) in
  match e with
  | Panicked =>
    match list_find (λ entry, ra_task_id entry = ra_task_id (tk_entry t)) (running s) with
    | Some (position, failed) =>
      let s := with_tasks s (tasks s) (swap_remove (running s) position) in
      (None, attempt_failed (decrement_active s (ra_kind failed)) failed)
    | None => (None, s)
    end
  | Connected _ | Elapsed =>
    (* the deadline elapsed: the task cancels its own token first *)
    let s := if e is Elapsed then cancel_tokens s {[ra_cancellation (tk_entry t)]} else s in
    let result := match e with Connected r => r | _ => inr (AttemptTimedOut kind) end in
    match list_find (λ entry, ra_id entry = id) (running s) with
    | None => (None, s)
    | Some (position, completed) =>
      let s := with_tasks s (tasks s) (swap_remove (running s) position) in
      let s := decrement_active s kind in
      match result with
      | inl path =>
        if bool_decide (sp_kind path = kind)
        then (Some {| rw_path := path; rw_cancellation := ra_cancellation completed |}, cleanup s)
        else (None, attempt_failed s completed)
      | inr _ => (None, attempt_failed s completed)
      end
    end
  end.

(** One poll of the biased [select!] and, when a branch completes without returning, the
    next turn of the loop up to its own [select!]. *)
Definition poll (s : Race) (w : Wake) : Status :=
  if caller_cancelled w || operation_cancelled w || lifetime_cancelled w
  then Returned (Err Cancelled) (cleanup s)
  else if negb (relay_started s) && (relay_start s <=? now w) then loop_top s (now w)
  else
    match joined w with
    | None => Waiting s
    | Some (id, e) =>
      match list_find (λ t, ra_task_id (tk_entry t) = id) (tasks s) with
      | None => Waiting s
      | Some (_, t) =>
        match join_branch s t e with
        | (Some winner, s) => Returned (Ok winner) s
        | (None, s) => loop_top s (now w)
        end
      end
    end.

(** [race_attempts] up to its first [select!]: the clock and the supply at the call. *)
Definition race_start (attempts : list Attempt) (config : PathManagerConfig) (t : Z) (supply : nat)
    : Status :=
  let direct_groups := [group attempts 0; group attempts 1; group attempts 2] in
  let direct := concat direct_groups in
  let has_direct := existsb (λ g, negb (bool_decide (g = []))) direct_groups in
  let direct_deadline := t + direct_timeout config in
  let direct_attempt_deadline := Z.min direct_deadline (t + attempt_timeout config) in
  let s :=
    {| relay_group := group attempts 3;
       relay_start := if has_direct then t + relay_grace config else t;
       attempt_limit := attempt_timeout config; tasks := []; running := []; next_id := 0;
       direct_active := length direct; relay_active := 0; relay_started := false;
       emitted := []; next_token := supply; race_cancelled := ∅ |} in
  loop_top (foldl (λ s g, spawn_group g direct_attempt_deadline s) s direct_groups) t.

Definition race_step (st : Status) (w : Wake) : Status :=
  match st with Waiting s => poll s w | Returned _ _ => st end.
Definition race_attempts (attempts : list Attempt) (config : PathManagerConfig) (t : Z)
    (supply : nat) (ws : list Wake) : Status :=
  foldl race_step (race_start attempts config t supply) ws.
