(* ===== verification/RaceFacts.v ===== *)
(** Correctness of the race of connection attempts under every sequence of wake-ups. *)

From S2P Require Import Prelude.
From S2P Require Import Path.
From S2P Require Import Race.
From stdpp Require Import prelude gmap list sorting.

#[local] Open Scope Z_scope.

(** * What a race owes its attempts *)

Definition started_kinds (l : list PathEvent) : list PathKind :=
  omap (λ e, match e with AttemptStarted k => Some k | _ => None end) l.
Definition failed_kinds (l : list PathEvent) : list PathKind :=
  omap (λ e, match e with AttemptFailed k => Some k | _ => None end) l.

Lemma started_kinds_snoc l e :
  started_kinds (l ++ [e])
  = started_kinds l ++ match e with AttemptStarted k => [k] | _ => [] end.
Proof. unfold started_kinds. rewrite omap_app. by destruct e. Qed.
Lemma failed_kinds_snoc l e :
  failed_kinds (l ++ [e]) = failed_kinds l ++ match e with AttemptFailed k => [k] | _ => [] end.
Proof. unfold failed_kinds. rewrite omap_app. by destruct e. Qed.

Definition direct_attempts (attempts : list Attempt) : list Attempt :=
  group attempts 0 ++ group attempts 1 ++ group attempts 2.
Definition relay_attempts (attempts : list Attempt) : list Attempt := group attempts 3.

(** When the relay may start: after the grace period, at once when nothing is direct. *)
Definition relay_due (attempts : list Attempt) (config : PathManagerConfig) (t : Z) : Z :=
  if bool_decide (direct_attempts attempts = []) then t else t + relay_grace config.

Definition count_direct (l : list RunningAttempt) : nat :=
  length (filter (λ r, ra_kind r ≠ PathRelay) l).
Definition count_relay (l : list RunningAttempt) : nat :=
  length (filter (λ r, ra_kind r = PathRelay) l).

(** * Lists *)

Lemma last_split {A} (l : list A) x : last l = Some x → l = take (length l - 1) l ++ [x].
Proof.
  intros (k&->)%last_Some. rewrite length_app. simpl.
  replace (length k + 1 - 1)%nat with (length k) by lia. by rewrite take_app_length.
Qed.

Lemma swap_remove_perm {A} (l : list A) i x : l !! i = Some x → l ≡ₚ x :: swap_remove l i.
Proof.
  intros Hi. unfold swap_remove. destruct (last l) as [y|] eqn:Hl.
  2:{ apply last_None in Hl. by subst l. }
  apply last_Some in Hl as (k&->). rewrite length_app. simpl.
  replace (length k + 1 - 1)%nat with (length k) by lia.
  apply lookup_lt_Some in Hi as Hlt. rewrite length_app in Hlt. simpl in Hlt.
  destruct (decide (i = length k)) as [->|Hne].
  - rewrite list_lookup_middle in Hi by done. injection Hi as ->.
    rewrite insert_app_r_alt, Nat.sub_diag, take_app_length by lia.
    by rewrite (Permutation_app_comm k [x]).
  - rewrite lookup_app_l in Hi by lia. rewrite insert_app_l by lia.
    rewrite take_app_length' by (by rewrite length_insert).
    rewrite (Permutation_app_comm k [y]). simpl.
    rewrite <- (take_drop_middle k i x Hi) at 1. rewrite insert_take_drop by lia.
    rewrite <- !Permutation_middle. apply Permutation_swap.
Qed.

(** Looking an entry up by its identifier, when identifiers are distinct. *)
Lemma find_by_key {A} (f : A → nat) (l : list A) x n :
  NoDup (f <$> l) → x ∈ l → f x = n →
  ∃ i, list_find (λ y, f y = n) l = Some (i, x).
Proof.
  intros Hnd Hx Hf. destruct (list_find (λ y, f y = n) l) as [[i y]|] eqn:Hl.
  - apply list_find_Some in Hl as (Hi&Hy&_). apply list_elem_of_lookup in Hx as [j Hj].
    assert (i = j) as <-; [|exists i; by simplify_eq].
    apply (NoDup_lookup (f <$> l) i j n Hnd); rewrite list_lookup_fmap; [rewrite Hi|rewrite Hj];
      simpl; congruence.
  - apply list_find_None in Hl. rewrite Forall_forall in Hl. by apply Hl in Hx.
Qed.

Lemma list_filter_full {A} (P : A → Prop) `{!∀ x, Decision (P x)} l : Forall P l → filter P l = l.
Proof. induction 1; [done|]. rewrite filter_cons_True by done. by f_equal. Qed.

Lemma filter_out_key {A} (f : A → nat) (l : list A) x :
  NoDup (f <$> l) → x ∈ l → l ≡ₚ x :: filter (λ y, f y ≠ f x) l.
Proof.
  induction l as [|y l IH]; simpl; intros Hnd Hx; [by apply not_elem_of_nil in Hx|].
  apply NoDup_cons in Hnd as [Hy Hnd]. apply elem_of_cons in Hx as [->|Hx].
  - rewrite filter_cons_False by naive_solver. rewrite list_filter_full; [done|].
    apply Forall_forall. intros z Hz E. apply Hy. rewrite <- E. by apply list_elem_of_fmap_2.
  - rewrite filter_cons_True.
    + rewrite Permutation_swap. by rewrite <- IH.
    + intros E. apply Hy. rewrite E. by apply list_elem_of_fmap_2.
Qed.

(** * The invariant *)

Section race.
Context (attempts : list Attempt) (config : PathManagerConfig) (t0 : Z) (supply : nat).

Notation kinds l := (at_kind <$> l).
(** The deadline of a direct attempt. *)
Definition direct_limit : Z := Z.min (t0 + direct_timeout config) (t0 + attempt_timeout config).

(** What holds of a race whose attempts [started] have been spawned. *)
Record race_ok (started : list Attempt) (s : Race) : Prop := {
  ok_running : running s ≡ₚ tk_entry <$> tasks s;
  ok_ids : NoDup (ra_id <$> running s);
  ok_entry : ∀ r, r ∈ running s →
    (ra_id r < next_id s)%nat ∧ ra_task_id r = (supply + ra_id r)%nat
    ∧ ra_cancellation r = (supply + ra_id r)%nat;
  ok_next : next_id s = length started;
  ok_supply : next_token s = (supply + next_id s)%nat;
  ok_started : started_kinds (emitted s) = kinds started;
  ok_failed : kinds started ≡ₚ failed_kinds (emitted s) ++ (ra_kind <$> running s);
  ok_attempt : ∀ t, t ∈ tasks s →
    started !! ra_id (tk_entry t) = Some (tk_attempt t)
    ∧ ra_kind (tk_entry t) = at_kind (tk_attempt t);
  ok_tokens : ∀ k, k ∈ race_cancelled s ↔
    (supply ≤ k < next_token s)%nat ∧ k ∉ ra_cancellation <$> running s;
}.

(** The race between two polls of its [select!]. *)
Record race_waiting (s : Race) : Prop := {
  wt_ok : race_ok (direct_attempts attempts
                   ++ if relay_started s then relay_attempts attempts else []) s;
  wt_group : relay_group s = relay_attempts attempts;
  wt_start : relay_start s = relay_due attempts config t0;
  wt_limit : attempt_limit s = attempt_timeout config;
  wt_direct : direct_active s = count_direct (running s);
  wt_relay : relay_active s = count_relay (running s);
  wt_before : relay_started s = false → relay_active s = 0%nat;
  wt_deadline : ∀ t, t ∈ tasks s → ra_kind (tk_entry t) ≠ PathRelay → tk_deadline t = direct_limit;
}.

Lemma spawn_ok started s a d :
  race_ok started s → race_ok (started ++ [a]) (spawn d s a).
Proof.
  intros [Hrun Hids Hent Hnext Hsup Hst Hfail Hatt Htok]. unfold spawn, emit. split; simpl.
  - rewrite fmap_app. by rewrite Hrun.
  - rewrite fmap_app. simpl. apply NoDup_app. split_and!; [done| |apply NoDup_singleton].
    intros i (r&->&Hr)%list_elem_of_fmap. rewrite list_elem_of_singleton.
    apply Hent in Hr. lia.
  - intros r. rewrite elem_of_app, list_elem_of_singleton. intros [Hr | ->]; simpl; [|lia].
    apply Hent in Hr. lia.
  - rewrite length_app. simpl. lia.
  - lia.
  - by rewrite started_kinds_snoc, fmap_app, Hst.
  - rewrite failed_kinds_snoc, !fmap_app, app_nil_r, Hfail. by rewrite app_assoc.
  - intros t. rewrite elem_of_app, list_elem_of_singleton. intros [Ht | ->].
    + apply Hatt in Ht as [Ht ?]. split; [|done]. by apply lookup_app_l_Some.
    + simpl. by rewrite Hnext, list_lookup_middle.
  - intros k. rewrite Htok, fmap_app, elem_of_app. simpl. rewrite list_elem_of_singleton.
    split; [intros [? ?]; split; [lia|]; intros [?| ->]; [done|lia]|].
    intros [Hk Hn]. assert (k ≠ next_token s) by (intros ->; apply Hn; by right).
    split; [lia|]. intros ?. apply Hn. by left.
Qed.

Lemma spawn_group_ok l d started s :
  race_ok started s → race_ok (started ++ l) (spawn_group l d s).
Proof.
  revert started s. induction l as [|a l IH]; intros started s Hok; [by rewrite app_nil_r|].
  change (a :: l) with ([a] ++ l). rewrite app_assoc. apply IH. by apply spawn_ok.
Qed.

(** What spawning leaves alone, and the tasks it adds. *)
Lemma spawn_group_frame l d s :
  let s' := spawn_group l d s in
  relay_group s' = relay_group s ∧ relay_start s' = relay_start s
  ∧ attempt_limit s' = attempt_limit s ∧ direct_active s' = direct_active s
  ∧ relay_active s' = relay_active s ∧ relay_started s' = relay_started s
  ∧ race_cancelled s' = race_cancelled s
  ∧ (∃ new, tasks s' = tasks s ++ new ∧ tk_attempt <$> new = l
       ∧ running s' = running s ++ (tk_entry <$> new)
       ∧ Forall (λ t, tk_deadline t = d ∧ ra_kind (tk_entry t) = at_kind (tk_attempt t)) new).
Proof.
  revert s. induction l as [|a l IH]; intros s; simpl.
  - split_and!; [done..|]. exists []. by rewrite !app_nil_r.
  - destruct (IH (spawn d s a)) as (H1&H2&H3&H4&H5&H6&H7&new&H8&H9&H10&H11).
    split_and!; [done..|]. eexists (_ :: new). simpl in *.
    rewrite <- app_assoc in H8, H10. simpl in H8, H10. split_and!; [exact H8| |exact H10|].
    + by f_equal/=.
    + by apply Forall_cons.
Qed.

(** A task that ends without winning. *)
Lemma fail_ok started s s' t tasks' running' :
  race_ok started s → tasks s ≡ₚ t :: tasks' → running s ≡ₚ tk_entry t :: running' →
  tasks s' = tasks' → running s' = running' → next_id s' = next_id s →
  next_token s' = next_token s → emitted s' = emitted s ++ [AttemptFailed (ra_kind (tk_entry t))] →
  (∀ k, k ∈ race_cancelled s' ↔ k = ra_cancellation (tk_entry t) ∨ k ∈ race_cancelled s) →
  race_ok started s'.
Proof.
  intros [Hrun Hids Hent Hnext Hsup Hst Hfail Hatt Htok] Ht Hr Hts Hrs Hn Hk He Hc.
  rewrite Hr in Hids. apply NoDup_cons in Hids as [Hid Hids].
  split; rewrite ?Hts, ?Hrs, ?Hn, ?Hk, ?He; try done.
  - rewrite Hr, Ht in Hrun. by apply Permutation_cons_inv in Hrun.
  - intros r' Hr'. apply Hent. rewrite Hr. by apply elem_of_cons; right.
  - by rewrite started_kinds_snoc, app_nil_r.
  - rewrite failed_kinds_snoc, Hfail, Hr. simpl. by rewrite <- app_assoc.
  - intros u Hu. apply Hatt. rewrite Ht. by right.
  - assert (tk_entry t ∈ running s) as (Hlt&_&Htk)%Hent by (rewrite Hr; by left).
    intros k. rewrite Hc, Htok, Hr, fmap_cons, not_elem_of_cons.
    split; [|destruct (decide (k = ra_cancellation (tk_entry t))); naive_solver].
    intros [-> |[? [? ?]]]; [|done]. split; [lia|].
    intros (r&Heq&Hin)%list_elem_of_fmap. apply Hid. apply list_elem_of_fmap.
    exists r. split; [|done]. assert (r ∈ running s) as (_&_&?)%Hent by (rewrite Hr; by right).
    lia.
Qed.

Lemma race_count_cons r l :
  count_direct (r :: l) = ((if bool_decide (ra_kind r = PathRelay) then 0 else 1) + count_direct l)%nat
  ∧ count_relay (r :: l) = ((if bool_decide (ra_kind r = PathRelay) then 1 else 0) + count_relay l)%nat.
Proof.
  unfold count_direct, count_relay. rewrite !filter_cons. case_bool_decide.
  - by rewrite decide_False, decide_True by naive_solver.
  - by rewrite decide_True, decide_False by naive_solver.
Qed.

Lemma race_count_perm l k : l ≡ₚ k → count_direct l = count_direct k ∧ count_relay l = count_relay k.
Proof. intros H. unfold count_direct, count_relay. by rewrite H. Qed.

Lemma race_count_zero l : count_direct l = 0%nat → count_relay l = 0%nat → l = [].
Proof.
  destruct l as [|r l]; [done|]. rewrite !(proj1 (race_count_cons _ _)), !(proj2 (race_count_cons _ _)).
  case_bool_decide; lia.
Qed.

(** ** Outcomes *)

(** What a race that returns leaves behind: no task, and of the tokens it made only the
    winner's is not cancelled; a winner is the path of a started attempt, of its kind;
    without a viable path every attempt was started, in order, and failed. *)
Definition race_result (r : res PathError RaceWinner) (s : Race) : Prop :=
  let started := direct_attempts attempts ++ if relay_started s then relay_attempts attempts else [] in
  tasks s = [] ∧ started_kinds (emitted s) = kinds started ∧
  match r with
  | Ok w =>
    (∃ a, started !! (rw_cancellation w - supply)%nat = Some a ∧ at_kind a = sp_kind (rw_path w))
    ∧ (supply ≤ rw_cancellation w < next_token s)%nat
    ∧ ∀ k, k ∈ race_cancelled s ↔ (supply ≤ k < next_token s)%nat ∧ k ≠ rw_cancellation w
  | Err e =>
    (∀ k, k ∈ race_cancelled s ↔ (supply ≤ k < next_token s)%nat)
    ∧ match e with
      | NoViablePath => relay_started s = true ∧ failed_kinds (emitted s) ≡ₚ kinds attempts
      | Cancelled => True
      | _ => False
      end
  | Panic => False
  end.

Lemma cleanup_tokens started s k :
  race_ok started s → k ∈ race_cancelled (cleanup s) ↔ (supply ≤ k < next_token s)%nat.
Proof.
  intros Hok. unfold cleanup. simpl.
  rewrite elem_of_union, elem_of_list_to_set, (ok_tokens _ _ Hok).
  destruct (decide (k ∈ ra_cancellation <$> running s)) as [Hin|]; [|naive_solver].
  split; [|tauto]. intros _. apply list_elem_of_fmap in Hin as (r&->&Hr).
  apply (ok_entry _ _ Hok) in Hr. rewrite (ok_supply _ _ Hok). lia.
Qed.

Lemma cancelled_result s : race_waiting s → race_result (Err Cancelled) (cleanup s).
Proof.
  intros Hw. split_and!; [done|by apply (ok_started _ _ (wt_ok _ Hw))| |done].
  intros k. by apply (cleanup_tokens _ _ _ (wt_ok _ Hw)).
Qed.

Lemma groups_perm : direct_attempts attempts ++ relay_attempts attempts ≡ₚ attempts.
Proof.
  unfold direct_attempts, relay_attempts, group.
  induction attempts as [|a l IH]; [done|]. rewrite !filter_cons.
  etrans; [|apply Permutation_skip, IH].
  destruct (at_kind a); simpl; solve_Permutation.
Qed.

(** ** The loop *)

(** What the loop promises at every [select!]: something is left to wait for, and the relay
    has started once it is due. *)
Definition status_ok (st : Status) : Prop :=
  match st with
  | Waiting s => race_waiting s ∧ (tasks s ≠ [] ∨ relay_started s = false)
  | Returned r s => race_result r s
  end.

Lemma waiting_exhausted s :
  race_waiting s → direct_active s = 0%nat → relay_active s = 0%nat →
  running s = [] ∧ tasks s = [].
Proof.
  intros Hw Hd Hr. rewrite (wt_direct _ Hw) in Hd. rewrite (wt_relay _ Hw) in Hr.
  assert (running s = []) as E by by apply race_count_zero.
  split; [done|]. pose proof (ok_running _ _ (wt_ok _ Hw)) as Hp. rewrite E in Hp.
  symmetry in Hp. apply Permutation_nil_r in Hp. by apply fmap_nil_inv in Hp.
Qed.

Lemma exhausted_ok s :
  race_waiting s →
  status_ok
    (if bool_decide (direct_active s = 0%nat) && relay_started s && bool_decide (relay_active s = 0%nat)
     then Returned (Err NoViablePath) (cleanup s) else Waiting s).
Proof.
  intros Hw. case_bool_decide as Hd; simpl.
  - destruct (relay_started s) eqn:Hs; simpl; [|by split; [|right]].
    case_bool_decide as Hr; simpl.
    + destruct (waiting_exhausted s Hw Hd Hr) as [Hrun Ht].
      pose proof (wt_ok _ Hw) as Hok. rewrite Hs in Hok. unfold race_result. simpl. rewrite Hs.
      split_and!; [done|by apply (ok_started _ _ Hok)
        |intros k; by apply (cleanup_tokens _ _ _ Hok)|done|].
      pose proof (ok_failed _ _ Hok) as Hf. rewrite Hrun, app_nil_r in Hf.
      rewrite <- Hf. by rewrite groups_perm.
    + split; [done|left]. intros Ht. apply Hr. rewrite (wt_relay _ Hw).
      pose proof (ok_running _ _ (wt_ok _ Hw)) as Hp. rewrite Ht in Hp.
      by apply Permutation_nil_r in Hp as ->.
  - split; [done|]. destruct (relay_started s) eqn:Hs; [left|by right]. intros Ht. apply Hd.
    rewrite (wt_direct _ Hw). pose proof (ok_running _ _ (wt_ok _ Hw)) as Hp. rewrite Ht in Hp.
    by apply Permutation_nil_r in Hp as ->.
Qed.

Lemma race_count_app l k :
  count_direct (l ++ k) = (count_direct l + count_direct k)%nat
  ∧ count_relay (l ++ k) = (count_relay l + count_relay k)%nat.
Proof. unfold count_direct, count_relay. by rewrite !filter_app, !length_app. Qed.

Lemma race_count_all l (P : RunningAttempt → Prop) :
  (Forall (λ r, ra_kind r = PathRelay) l → count_direct l = 0%nat ∧ count_relay l = length l)
  ∧ (Forall (λ r, ra_kind r ≠ PathRelay) l → count_direct l = length l ∧ count_relay l = 0%nat).
Proof.
  split; induction 1 as [|r l Hr _ [IH1 IH2]]; try done;
    rewrite (proj1 (race_count_cons r l)), (proj2 (race_count_cons r l)), IH1, IH2; simpl;
    by case_bool_decide.
Qed.

(** The entries of a group that has just been spawned. *)
Lemma spawned_kinds (P : PathKind → Prop) (l : list Attempt) d new :
  Forall (λ a, P (at_kind a)) l → tk_attempt <$> new = l →
  Forall (λ t, tk_deadline t = d ∧ ra_kind (tk_entry t) = at_kind (tk_attempt t)) new →
  Forall (λ r, P (ra_kind r)) (tk_entry <$> new) ∧ length (tk_entry <$> new) = length l.
Proof.
  intros Hl <- Hnew. rewrite !length_fmap. split; [|done].
  rewrite !Forall_forall in *. intros r (t&->&Ht)%list_elem_of_fmap.
  destruct (Hnew t Ht) as [_ ->]. by apply Hl, list_elem_of_fmap_2.
Qed.

Lemma group_kinds i : Forall (λ a, group_index (at_kind a) = i) (group attempts i).
Proof. apply Forall_forall. intros a [? _]%list_elem_of_filter. done. Qed.

Lemma loop_top_ok s t : race_waiting s → status_ok (loop_top s t).
Proof.
  intros Hw. unfold loop_top. destruct (relay_started s) eqn:Hs; simpl; [by apply exhausted_ok|].
  destruct (relay_start s <=? t); [|by apply exhausted_ok].
  pose proof Hw as [Hok Hg Hst Hlim Hd Hr Hb Hdl]. rewrite Hs, app_nil_r in Hok.
  apply exhausted_ok. rewrite Hg.
  set (s0 := with_counts s _ _ true).
  assert (race_ok (direct_attempts attempts) s0) as Hok0 by (by destruct Hok).
  pose proof (spawn_group_ok (relay_attempts attempts) (t + attempt_limit s) _ _ Hok0) as Hok1.
  destruct (spawn_group_frame (relay_attempts attempts) (t + attempt_limit s) s0)
    as (F1&F2&F3&F4&F5&F6&_&new&Hts&Hnew&Hrun&Hfor).
  destruct (spawned_kinds (λ k, k = PathRelay) _ _ _ ltac:(
    eapply Forall_impl; [apply (group_kinds 3)|]; by intros [? []]) Hnew Hfor) as [Hk Hl].
  destruct (proj1 (race_count_all _ (λ _, True)) Hk) as [Hk1 Hk2].
  split; rewrite ?F1, ?F2, ?F3, ?F4, ?F5, ?F6, ?Hrun; try done.
  - simpl. rewrite (proj1 (race_count_app _ _)), Hk1. simpl. rewrite Hd. lia.
  - simpl. rewrite (proj2 (race_count_app _ _)), Hk2, Hl. simpl.
    by rewrite <- Hr, Hb.
  - intros u. rewrite Hts, elem_of_app. intros [Hu|Hu] Hne; [by apply Hdl|]. exfalso. apply Hne.
    rewrite Forall_forall in Hk. by apply Hk, list_elem_of_fmap_2.
Qed.

(** The end of a task: the entry found for it, in both branches of the outcome. *)
Lemma entry_found s t :
  race_waiting s → t ∈ tasks s →
  tk_entry t ∈ running s
  ∧ (∃ i, list_find (λ r, ra_id r = ra_id (tk_entry t)) (running s) = Some (i, tk_entry t)
       ∧ running s ≡ₚ tk_entry t :: swap_remove (running s) i)
  ∧ (∃ i, list_find (λ r, ra_task_id r = ra_task_id (tk_entry t)) (running s) = Some (i, tk_entry t)
       ∧ running s ≡ₚ tk_entry t :: swap_remove (running s) i)
  ∧ tasks s ≡ₚ t :: filter (λ u, ra_task_id (tk_entry u) ≠ ra_task_id (tk_entry t)) (tasks s).
Proof.
  intros [Hok _ _ _ _ _ _ _] Ht. pose proof Hok as [Hrun Hids Hent _ _ _ _ _ _].
  assert (tk_entry t ∈ running s) as Hin by (rewrite Hrun; by apply list_elem_of_fmap_2).
  assert (NoDup (ra_task_id <$> running s)) as Htids.
  { replace (ra_task_id <$> running s) with (Nat.add supply <$> (ra_id <$> running s)).
    - apply NoDup_fmap_2; [|done]. intros ? ?. lia.
    - rewrite <- list_fmap_compose. apply list_fmap_ext. intros i r Hr.
      apply list_elem_of_lookup_2, Hent in Hr. simpl. lia. }
  assert (NoDup ((λ u, ra_task_id (tk_entry u)) <$> tasks s)) as Htk.
  { rewrite Hrun, <- list_fmap_compose in Htids. exact Htids. }
  split_and!; [done|..|by apply (filter_out_key (λ u, ra_task_id (tk_entry u)))].
  - destruct (find_by_key ra_id _ _ _ Hids Hin eq_refl) as [i Hi]. exists i.
    split; [done|]. apply swap_remove_perm. by apply list_find_Some in Hi as [? _].
  - destruct (find_by_key ra_task_id _ _ _ Htids Hin eq_refl) as [i Hi]. exists i.
    split; [done|]. apply swap_remove_perm. by apply list_find_Some in Hi as [? _].
Qed.

(** A task that did not win leaves a race that goes on without it. *)
Lemma lost_waiting s s' t running' :
  let tasks' := filter (λ u, ra_task_id (tk_entry u) ≠ ra_task_id (tk_entry t)) (tasks s) in
  let k := ra_kind (tk_entry t) in
  race_waiting s → t ∈ tasks s → running s ≡ₚ tk_entry t :: running' →
  s' = attempt_failed (decrement_active (with_tasks s tasks' running') k) (tk_entry t)
  ∨ s' = attempt_failed (decrement_active
           (cancel_tokens (with_tasks s tasks' running') {[ra_cancellation (tk_entry t)]}) k) (tk_entry t) →
  race_waiting s' ∧ tasks s' = tasks' ∧ relay_started s' = relay_started s.
Proof.
  intros tasks' k Hw Ht Hrun Hs'. destruct (entry_found s t Hw Ht) as (_&_&_&Hts).
  destruct Hw as [Hok Hg Hst Hlim Hd Hr Hb Hdl].
  destruct (race_count_perm _ _ Hrun) as [Hc1 Hc2].
  destruct (race_count_cons (tk_entry t) running') as [Hc3 Hc4]. fold k in Hc3, Hc4.
  assert (relay_group s' = relay_group s ∧ relay_start s' = relay_start s
    ∧ attempt_limit s' = attempt_limit s ∧ relay_started s' = relay_started s
    ∧ tasks s' = tasks' ∧ running s' = running' ∧ next_id s' = next_id s
    ∧ next_token s' = next_token s ∧ emitted s' = emitted s ++ [AttemptFailed k]
    ∧ direct_active s' = (direct_active s - if bool_decide (k = PathRelay) then 0 else 1)%nat
    ∧ relay_active s' = (relay_active s - if bool_decide (k = PathRelay) then 1 else 0)%nat)
    as (E1&E2&E3&E4&E5&E6&E7&E8&E9&E10&E11).
  { unfold decrement_active in Hs'. destruct (bool_decide (k = PathRelay)), Hs' as [-> | ->];
      simpl; split_and!; try reflexivity; lia. }
  assert (∀ j, j ∈ race_cancelled s' ↔ j = ra_cancellation (tk_entry t) ∨ j ∈ race_cancelled s) as E12.
  { intros j. unfold decrement_active in Hs'.
    destruct (bool_decide (k = PathRelay)), Hs' as [-> | ->];
      cbn [race_cancelled attempt_failed emit cancel_tokens with_counts with_tasks];
      rewrite !elem_of_union, ?elem_of_singleton; tauto. }
  clear Hs'. split_and!; [|done..]. split; rewrite ?E1, ?E2, ?E3, ?E4, ?E6, ?E10, ?E11; try done.
  - eapply fail_ok; eassumption.
  - destruct (bool_decide (k = PathRelay)); lia.
  - destruct (bool_decide (k = PathRelay)); lia.
  - intros H. specialize (Hb H). lia.
  - rewrite E5. by intros u [_ ?]%list_elem_of_filter; apply Hdl.
Qed.

(** A task that won. *)
Lemma won_result s t running' path :
  let tasks' := filter (λ u, ra_task_id (tk_entry u) ≠ ra_task_id (tk_entry t)) (tasks s) in
  race_waiting s → t ∈ tasks s → running s ≡ₚ tk_entry t :: running' →
  sp_kind path = ra_kind (tk_entry t) →
  race_result (Ok {| rw_path := path; rw_cancellation := ra_cancellation (tk_entry t) |})
    (cleanup (decrement_active (with_tasks s tasks' running') (ra_kind (tk_entry t)))).
Proof.
  intros tasks' [Hok _ _ _ _ _ _ _] Ht Hrun Hkind. set (s' := cleanup _).
  assert (tasks s' = [] ∧ relay_started s' = relay_started s ∧ next_token s' = next_token s
    ∧ emitted s' = emitted s ∧ ∀ k, k ∈ race_cancelled s' ↔ k ∈ ra_cancellation <$> running' ∨ k ∈ race_cancelled s)
    as (Hts&Hs&Hn&Hem&Hc).
  { subst s'. unfold decrement_active, cleanup; case_bool_decide; simpl; split_and!; try done;
      intros k; by rewrite elem_of_union, elem_of_list_to_set. }
  clearbody s'. destruct Hok as [Hr Hids Hent Hnext Hsup Hst _ Hatt Htok].
  assert (tk_entry t ∈ running s) as (Hlt&_&Htk)%Hent by (rewrite Hr; by apply list_elem_of_fmap_2).
  destruct (Hatt t Ht) as [Hl Hk]. unfold race_result. simpl. rewrite Hs, Hn, Hem.
  split_and!; [done|done| |lia..|].
  - exists (tk_attempt t). split; [|congruence]. rewrite Htk.
    by replace (supply + ra_id (tk_entry t) - supply)%nat with (ra_id (tk_entry t)) by lia.
  - intros k. rewrite Hc, Htok, Hrun, fmap_cons, not_elem_of_cons.
    rewrite Hrun in Hids. apply NoDup_cons in Hids as [Hid _].
    assert (∀ r, r ∈ running' → (ra_id r < next_id s)%nat ∧ ra_cancellation r = (supply + ra_id r)%nat
              ∧ ra_id r ≠ ra_id (tk_entry t)) as Hothers.
    { intros r Hin. destruct (Hent r) as (?&_&?); [rewrite Hrun; by right|]. split_and!; [done..|].
      intros E. apply Hid. rewrite <- E. by apply list_elem_of_fmap_2. }
    destruct (decide (k ∈ ra_cancellation <$> running')) as [Hin|Hin]; [|naive_solver].
    split; [|tauto]. intros _.
    apply list_elem_of_fmap in Hin as (r&->&(?&?&?)%Hothers). lia.
Qed.

Lemma join_branch_ok s t e :
  race_waiting s → t ∈ tasks s →
  match join_branch s t e with
  | (None, s') =>
    race_waiting s' ∧ relay_started s' = relay_started s
    ∧ tasks s' = filter (λ u, ra_task_id (tk_entry u) ≠ ra_task_id (tk_entry t)) (tasks s)
  | (Some w, s') => race_result (Ok w) s'
  end.
Proof.
  intros Hw Ht. destruct (entry_found s t Hw Ht) as (_&(i&Hi&Hri)&(j&Hj&Hrj)&_).
  pose proof (λ s' l H1 H2, lost_waiting s s' t l Hw Ht H1 H2) as Hlost.
  destruct e as [[path|err]| |]; unfold join_branch; simpl; rewrite ?Hi, ?Hj.
  - case_bool_decide as Hk; [exact (won_result s t _ path Hw Ht Hri Hk)|].
    edestruct Hlost as (?&?&?); [exact Hri|by left|done].
  - edestruct Hlost as (?&?&?); [exact Hri|by left|done].
  - edestruct Hlost as (?&?&?); [exact Hri|by right|done].
  - edestruct Hlost as (?&?&?); [exact Hrj|by left|done].
Qed.

Lemma loop_top_waiting s t s' :
  loop_top s t = Waiting s' →
  (relay_start s ≤ t → relay_started s' = true)
  ∧ (relay_started s = true → relay_started s' = true ∧ tasks s' = tasks s).
Proof.
  unfold loop_top. destruct (relay_started s) eqn:Hs; simpl.
  { case_match; [done|]. by intros [= <-]. }
  destruct (Z.leb_spec (relay_start s) t); case_match; try done; intros [= <-].
  - destruct (spawn_group_frame (relay_group s) (t + attempt_limit s)
      (with_counts s (direct_active s) (length (relay_group s)) true)) as (_&_&_&_&_&->&_).
    by split.
  - split; [lia|congruence].
Qed.

(** What a poll that goes on waiting has done: the relay has started once it is due, and
    from then on tasks are only taken away, at least the one whose end was reported. *)
Definition poll_progress (s : Race) (w : Wake) (s' : Race) : Prop :=
  (relay_due attempts config t0 ≤ now w → relay_started s' = true)
  ∧ (relay_started s = true → relay_started s' = true
       ∧ ∀ u, u ∈ tasks s' → u ∈ tasks s ∧ ∀ e, joined w ≠ Some (ra_task_id (tk_entry u), e)).

Lemma poll_ok s w :
  race_waiting s → tasks s ≠ [] ∨ relay_started s = false →
  status_ok (poll s w) ∧ ∀ s', poll s w = Waiting s' → poll_progress s w s'.
Proof.
  intros Hw Hlive. unfold poll.
  destruct (caller_cancelled w || operation_cancelled w || lifetime_cancelled w).
  { split; [by apply cancelled_result|done]. }
  unfold poll_progress. rewrite <- (wt_start _ Hw).
  destruct (negb (relay_started s) && (relay_start s <=? now w)) eqn:Hdue.
  { split; [by apply loop_top_ok|]. apply andb_true_iff in Hdue as [Hs _].
    apply negb_true_iff in Hs. intros s' [H1 _]%loop_top_waiting. split; [done|congruence]. }
  assert (relay_start s ≤ now w → relay_started s = true) as Hst.
  { intros ?%Z.leb_le. destruct (relay_started s); [done|]. simpl in Hdue. congruence. }
  destruct (joined w) as [[id e]|]; [|split; [done|intros s' [= <-]; naive_solver]].
  destruct (list_find _ (tasks s)) as [[i t]|] eqn:Hf.
  2:{ split; [done|]. intros s' [= <-]. split; [done|]. intros ?. split; [done|].
      intros u Hu. split; [done|]. intros e' [= -> ->].
      apply list_find_None in Hf. rewrite Forall_forall in Hf. by apply (Hf u). }
  apply list_find_Some in Hf as (Hi&<-&_). apply list_elem_of_lookup_2 in Hi.
  pose proof (join_branch_ok s t e Hw Hi) as Hjoin.
  destruct (join_branch s t e) as [[winner|] s1]; [by split|].
  destruct Hjoin as (Hw1&Hs1&Ht1). split; [by apply loop_top_ok|].
  intros s' [H1 H2]%loop_top_waiting. rewrite (wt_start _ Hw1) in H1.
  rewrite (wt_start _ Hw). split; [done|]. rewrite Hs1, Ht1 in H2. intros Hs.
  destruct (H2 Hs) as [? ->]. split; [done|].
  intros u [Hne Hu]%list_elem_of_filter. split; [done|]. intros e' [= ? _]. by apply Hne.
Qed.

Lemma spawn_group_app l k d s : spawn_group k d (spawn_group l d s) = spawn_group (l ++ k) d s.
Proof. unfold spawn_group. by rewrite foldl_app. Qed.

Lemma relay_due_bools (g0 g1 g2 : list Attempt) (a b : Z) :
  (if negb (bool_decide (g0 = [])) || (negb (bool_decide (g1 = []))
      || (negb (bool_decide (g2 = [])) || false)) then a else b)
  = if bool_decide (g0 ++ g1 ++ g2 = []) then b else a.
Proof. by destruct g0, g1, g2. Qed.

Definition status_race (st : Status) : Race :=
  match st with Waiting s | Returned _ s => s end.

Lemma race_start_waiting :
  ∃ s, race_start attempts config t0 supply = loop_top s t0 ∧ race_waiting s
    ∧ relay_started s = false.
Proof.
  unfold race_start. eexists. split; [reflexivity|]. simpl foldl. rewrite !spawn_group_app.
  simpl concat. rewrite app_nil_r. simpl existsb. rewrite relay_due_bools.
  set (s0 := {| relay_group := _ |}).
  destruct (spawn_group_frame (direct_attempts attempts) direct_limit s0)
    as (F1&F2&F3&F4&F5&F6&_&new&Hts&Hnew&Hrun&Hfor).
  destruct (spawned_kinds (λ k, k ≠ PathRelay) (direct_attempts attempts) direct_limit new) as [Hk Hl];
    [|done..|].
  { unfold direct_attempts. rewrite !Forall_app.
    split_and!; (eapply Forall_impl; [apply group_kinds|]); by intros [? []]. }
  destruct (proj2 (race_count_all _ (λ _, True)) Hk) as [Hk1 Hk2].
  unfold direct_limit, direct_attempts in *. split; [|by rewrite F6].
  split; rewrite ?F1, ?F2, ?F3, ?F4, ?F5, ?F6, ?Hrun; try done.
  - rewrite app_nil_r. apply (spawn_group_ok _ _ []). subst s0. split; simpl; try done.
    + constructor.
    + by intros r ?%elem_of_nil.
    + by intros r ?%elem_of_nil.
    + intros k. split; [by intros ?%elem_of_empty|lia].
  - simpl. by rewrite Hk1, Hl.
  - intros u. rewrite Hts. simpl. intros Hu _. rewrite Forall_forall in Hfor. by apply Hfor.
Qed.

Lemma cleanup_started s : relay_started (cleanup s) = relay_started s.
Proof. done. Qed.

Lemma loop_top_started s t :
  relay_started (status_race (loop_top s t)) = true → relay_started s = true ∨ relay_start s ≤ t.
Proof.
  unfold loop_top. destruct (relay_started s) eqn:Hs; [by left|]. simpl.
  destruct (Z.leb_spec (relay_start s) t); [by right|].
  case_match; simpl; rewrite ?cleanup_started, Hs; congruence.
Qed.

Lemma poll_started s w :
  race_waiting s → relay_started (status_race (poll s w)) = true →
  relay_started s = true ∨ relay_due attempts config t0 ≤ now w.
Proof.
  intros Hw. rewrite <- (wt_start _ Hw). unfold poll.
  destruct (_ || _); [by left|]. destruct (_ && _); [apply loop_top_started|].
  destruct (joined w) as [[id e]|]; [|by left].
  destruct (list_find _ (tasks s)) as [[i t]|] eqn:Hf; [|by left].
  apply list_find_Some in Hf as (Hi%list_elem_of_lookup_2&_&_).
  destruct (entry_found s t Hw Hi) as (_&(j&Hj&Hrj)&_).
  pose proof (join_branch_ok s t e Hw Hi) as Hjoin.
  destruct (join_branch s t e) as [[winner|] s1] eqn:Hjb.
  - simpl. destruct e as [[path|err]| |]; unfold join_branch in Hjb; simpl in Hjb;
      rewrite ?Hj in Hjb; repeat case_match; simplify_eq; rewrite cleanup_started;
      unfold decrement_active; case_match; by left.
  - destruct Hjoin as (Hw1&Hs1&_). rewrite <- Hs1, (wt_start _ Hw), <- (wt_start _ Hw1).
    apply loop_top_started.
Qed.

(** ** Runs *)

Notation race ws := (race_attempts attempts config t0 supply ws).

Lemma race_snoc ws w : race (ws ++ [w]) = race_step (race ws) w.
Proof. unfold race_attempts. by rewrite foldl_app. Qed.

Lemma race_ok_always ws : status_ok (race ws).
Proof.
  induction ws as [|w ws IH] using rev_ind.
  - destruct race_start_waiting as (s&Hs&Hw&_). unfold race_attempts. simpl. rewrite Hs.
    by apply loop_top_ok.
  - rewrite race_snoc. destruct (race ws) as [s|r s]; [|done]. simpl.
    destruct IH. by apply poll_ok.
Qed.

(** The polls of a race that still waits, one after the other. *)
Lemma race_waiting_snoc ws w s' :
  race (ws ++ [w]) = Waiting s' → ∃ s, race ws = Waiting s ∧ poll_progress s w s'.
Proof.
  rewrite race_snoc. pose proof (race_ok_always ws) as Hok. destruct (race ws) as [s|]; [|done].
  simpl. intros Hp. exists s. split; [done|]. destruct Hok. by apply poll_ok.
Qed.

Lemma race_started_when ws :
  relay_started (status_race (race ws)) = true →
  relay_due attempts config t0 ≤ t0 ∨ Exists (λ w, relay_due attempts config t0 ≤ now w) ws.
Proof.
  induction ws as [|w ws IH] using rev_ind.
  - destruct race_start_waiting as (s&Hs&Hw&Hn). unfold race_attempts. simpl. rewrite Hs.
    intros [?|?]%loop_top_started; [congruence|]. left. by rewrite <- (wt_start _ Hw).
  - rewrite race_snoc. pose proof (race_ok_always ws) as Hok. rewrite Exists_app, Exists_cons.
    destruct (race ws) as [s|]; simpl in *; [|tauto].
    destruct Hok as [Hw _]. intros [?|?]%poll_started; tauto.
Qed.

Lemma race_cancelled_when ws s :
  race ws = Returned (Err Cancelled) s →
  Exists (λ w, caller_cancelled w || operation_cancelled w || lifetime_cancelled w) ws.
Proof.
  assert (∀ s t s', loop_top s t ≠ Returned (Err Cancelled) s') as Htop.
  { intros ? ? ?. unfold loop_top. by case_match. }
  induction ws as [|w ws IH] using rev_ind.
  - destruct race_start_waiting as (s0&Hs&_). unfold race_attempts. simpl. by rewrite Hs; intros ?%Htop.
  - rewrite race_snoc, Exists_app. destruct (race ws) as [s0|r s0]; [|intros [= -> ->]; left; auto].
    simpl. unfold poll. destruct (_ || _) eqn:Hc; [by right; left; rewrite Hc|].
    destruct (_ && _); [by intros ?%Htop|]. destruct (joined w) as [[id e]|]; [|done].
    destruct (list_find _ _) as [[i t]|]; [|done].
    destruct (join_branch s0 t e) as [[w0|] s1]; [done|]. by intros ?%Htop.
Qed.

(** Once a waiting race has seen the relay due and the ends of tasks, they are gone. *)
Lemma race_waiting_tasks ws1 ws2 s :
  race (ws1 ++ ws2) = Waiting s → Exists (λ w, relay_due attempts config t0 ≤ now w) ws1 →
  relay_started s = true
  ∧ ∀ u, u ∈ tasks s → ∀ w e, w ∈ ws2 → joined w ≠ Some (ra_task_id (tk_entry u), e).
Proof.
  revert s. induction ws2 as [|w ws2 IH] using rev_ind; intros s Hs Hdue.
  - split; [|by intros u _ w e ?%elem_of_nil]. rewrite app_nil_r in Hs.
    revert s Hs Hdue. induction ws1 as [|w ws1 IH] using rev_ind; intros s Hs Hdue.
    + by apply Exists_nil in Hdue.
    + apply race_waiting_snoc in Hs as (s0&Hs0&H1&H2).
      apply Exists_app in Hdue as [Hdue|[?|[]%Exists_nil]%Exists_cons]; [|auto].
      destruct H2 as [? _]; [by apply (IH s0)|done].
  - rewrite app_assoc in Hs. apply race_waiting_snoc in Hs as (s0&Hs0&_&H2).
    destruct (IH s0 Hs0 Hdue) as [Hst Htasks]. destruct (H2 Hst) as [? Hsub]. split; [done|].
    intros u [Hu Hj]%Hsub w' e [Hin | ->%list_elem_of_singleton]%elem_of_app; [|done].
    by apply (Htasks u).
Qed.
End race.

(** * Properties *)

(** whatever the order in which its attempts end, a race returns only a path of the kind
    of an attempt it started, leaves no task behind and has cancelled every token it made
    but the winner's; it reports that no path is viable only when every attempt, the relay
    included, was started in priority order and failed; and it reports a cancellation only
    when one of the three tokens was cancelled.  It never panics. *)
Theorem race_returns_correctly attempts config t supply ws r s :
  race_attempts attempts config t supply ws = Returned r s →
  race_result attempts supply r s
  ∧ (r = Err Cancelled →
       Exists (λ w, caller_cancelled w || operation_cancelled w || lifetime_cancelled w) ws).
Proof.
  intros Hr. split; [|intros ->; by eapply race_cancelled_when].
  pose proof (race_ok_always attempts config t supply ws) as Hok. by rewrite Hr in Hok.
Qed.

(** the direct attempts start with the race, in priority order, each with the smaller of
    the two limits as its deadline; the relay attempts start after them, never before the
    grace period is over unless nothing is direct, and as soon as it is. *)
Theorem relay_waits_for_grace attempts config t supply ws :
  let st := race_attempts attempts config t supply ws in
  let s := status_race st in
  started_kinds (emitted s) =
    (at_kind <$> direct_attempts attempts)
    ++ (if relay_started s then at_kind <$> relay_attempts attempts else [])
  ∧ (relay_started s = true →
       relay_due attempts config t ≤ t
       ∨ Exists (λ w, relay_due attempts config t ≤ now w) ws)
  ∧ (∀ s', st = Waiting s' →
       (Exists (λ w, relay_due attempts config t ≤ now w) ws → relay_started s' = true)
       ∧ ∀ u, u ∈ tasks s' → ra_kind (tk_entry u) ≠ PathRelay →
           tk_deadline u = Z.min (t + direct_timeout config) (t + attempt_timeout config)).
Proof.
  intros st s. split_and!.
  - pose proof (race_ok_always attempts config t supply ws) as Hok. fold st in Hok.
    subst s. destruct st as [s|r s]; simpl in *.
    + destruct Hok as [Hw _]. rewrite (ok_started _ _ _ (wt_ok _ _ _ _ _ Hw)), fmap_app.
      by destruct (relay_started s).
    + destruct Hok as (_&->&_). rewrite fmap_app. by destruct (relay_started s).
  - by apply race_started_when.
  - intros s' Hs'. split.
    + intros Hdue. by destruct (race_waiting_tasks attempts config t supply ws [] s') as [? _];
        [rewrite app_nil_r|..].
    + pose proof (race_ok_always attempts config t supply ws) as Hok. fold st in Hok.
      rewrite Hs' in Hok. destruct Hok as [Hw _]. apply (wt_deadline _ _ _ _ _ Hw).
Qed.

(** C7: a race returns.  At every wait something is left that will end it, a running task
    or the relay's timer; and once the relay is due, any sequence of polls that reports the
    end of every task the race can have started makes it return, whatever else happens. *)
Theorem race_terminates attempts config t supply ws1 ws2 :
  (∀ ws s, race_attempts attempts config t supply ws = Waiting s →
     tasks s ≠ [] ∨ relay_started s = false)
  ∧ (Exists (λ w, relay_due attempts config t ≤ now w) ws1 →
     (∀ id, (supply ≤ id < supply + length attempts)%nat → ∃ w e, w ∈ ws2 ∧ joined w = Some (id, e)) →
     ∃ r s, race_attempts attempts config t supply (ws1 ++ ws2) = Returned r s).
Proof.
  split.
  { intros ws s Hs. pose proof (race_ok_always attempts config t supply ws) as Hok.
    rewrite Hs in Hok. apply Hok. }
  intros Hdue Hends. pose proof (race_ok_always attempts config t supply (ws1 ++ ws2)) as Hok.
  destruct (race_attempts attempts config t supply (ws1 ++ ws2)) as [s|r s] eqn:Hs; [|eauto].
  destruct (race_waiting_tasks _ _ _ _ _ _ _ Hs Hdue) as [Hst Hgone].
  destruct Hok as [Hw [Hne|?]]; [|congruence]. exfalso.
  destruct (tasks s) as [|u us] eqn:Hu; [done|].
  pose proof (wt_ok _ _ _ _ _ Hw) as Ho.
  assert (tk_entry u ∈ running s) as (Hlt&Htid&_)%(ok_entry _ _ _ Ho)
    by (rewrite (ok_running _ _ _ Ho), Hu; by left).
  destruct (Hends (ra_task_id (tk_entry u))) as (w&e&Hw2&Hj); [|by eapply Hgone; [left|..]].
  rewrite (ok_next _ _ _ Ho), Hst, groups_perm in Hlt. lia.
Qed.

(** * Witnesses *)

Definition demo_race_config : PathManagerConfig :=
  {| direct_timeout := 100; relay_grace := 10; attempt_timeout := 50; recheck_interval := 1000 |}.
Definition demo_attempts : list Attempt :=
  [{| at_name := 0; at_kind := PathRelay |}; {| at_name := 1; at_kind := QuicV4 |}].
Definition demo_wake (t : Z) (j : option (nat * TaskEnd)) : Wake :=
  {| now := t; caller_cancelled := false; operation_cancelled := false;
     lifetime_cancelled := false; joined := j |}.
(** The direct attempt fails at once, the relay starts after its grace and wins. *)
Definition demo_wakes : list Wake :=
  [demo_wake 3 (Some (7%nat, Elapsed)); demo_wake 12 None;
   demo_wake 20 (Some (8%nat, Connected (inl {| sp_kind := PathRelay; sp_handle := 1 |})))].

Lemma race_returns_correctly_witness :
  ∃ w s, race_attempts demo_attempts demo_race_config 0 7 demo_wakes = Returned (Ok w) s
    ∧ rw_cancellation w = 8%nat ∧ race_result demo_attempts 7 (Ok w) s.
Proof.
  pose proof (race_returns_correctly demo_attempts demo_race_config 0 7 demo_wakes) as H.
  assert (match race_attempts demo_attempts demo_race_config 0 7 demo_wakes with
          | Returned (Ok w) _ => rw_cancellation w | _ => 0%nat end = 8%nat) as Hw
    by (vm_compute; reflexivity).
  destruct (race_attempts _ _ _ _ _) as [s|[w|e|] s]; try discriminate Hw.
  exists w, s. split; [done|]. split; [done|]. by apply H.
Defined.

Lemma race_terminates_witness :
  ∃ r s, race_attempts demo_attempts demo_race_config 0 7
           (take 2 demo_wakes
              ++ [demo_wake 30 (Some (8%nat, Panicked)); demo_wake 30 (Some (7%nat, Panicked))])
         = Returned r s.
Proof.
  apply (proj2 (race_terminates demo_attempts demo_race_config 0 7 (take 2 demo_wakes)
    [demo_wake 30 (Some (8%nat, Panicked)); demo_wake 30 (Some (7%nat, Panicked))])).
  - right. left. by vm_compute.
  - intros id Hid. simpl in Hid. assert (id = 7%nat ∨ id = 8%nat) as [-> | ->] by lia.
    + eexists _, _. split; [right; left|reflexivity].
    + eexists _, _. split; [left|reflexivity].
Defined.

Lemma relay_waits_for_grace_witness :
  started_kinds (emitted (status_race
    (race_attempts demo_attempts demo_race_config 0 7 demo_wakes))) = [QuicV4; PathRelay].
Proof.
  rewrite (proj1 (relay_waits_for_grace demo_attempts demo_race_config 0 7 demo_wakes)).
  vm_compute. reflexivity.
Defined.
