(* ===== verification/Nat.v ===== *)
(** NAT candidates ([rustgo-nat/src/candidate.rs]), mapping analysis
    ([rustgo-nat/src/observation.rs]) and port prediction ([rustgo-nat/src/predict.rs]). *)

From S2P Require Import Prelude.
From S2P Require Import Postcard.
From S2P Require Import Messages.
From S2P Require Import MessageCodecs.
From S2P Require Import RvMessages.
From S2P Require Import RvFacts.
From Stdlib Require Import Strings.Byte.
From stdpp Require Import prelude list strings sorting.

#[local] Open Scope Z_scope.

(** * Addresses *)

Record PortRange := { pr_start : Z; pr_end : Z }.

Definition address_port (a : SocketAddress) : Z := match a with V4 _ p | V6 _ p => p end.
Definition range_contains (r : PortRange) (port : Z) : bool :=
  (pr_start r <=? port) && (port <=? pr_end r).

(** An octet of an address as a number; addresses have all their octets. *)
Definition octet (o : list byte) (i : nat) : Z :=
  match o !! i with Some b => byte_val b | None => 0 end.

Definition v4_unspecified (o : list byte) : bool := bool_decide (o = replicate 4 x00).
Definition v4_multicast (o : list byte) : bool := (224 <=? octet o 0) && (octet o 0 <=? 239).
Definition v4_broadcast (o : list byte) : bool := bool_decide (o = replicate 4 xff).
Definition v4_loopback (o : list byte) : bool := octet o 0 =? 127.
Definition v4_link_local (o : list byte) : bool := (octet o 0 =? 169) && (octet o 1 =? 254).
Definition v4_private (o : list byte) : bool :=
  (octet o 0 =? 10)
  || ((octet o 0 =? 172) && (16 <=? octet o 1) && (octet o 1 <=? 31))
  || ((octet o 0 =? 192) && (octet o 1 =? 168)).
Definition v6_unspecified (o : list byte) : bool := bool_decide (o = replicate 16 x00).
Definition v6_multicast (o : list byte) : bool := octet o 0 =? 255.
Definition v6_loopback (o : list byte) : bool := bool_decide (o = replicate 15 x00 ++ [x01]).
(** [(segment0 & 0xffc0) == 0xfe80] *)
Definition v6_link_local (o : list byte) : bool :=
  Z.land (octet o 0 * 256 + octet o 1) 65472 =? 65152.

Definition is_usable_address (a : SocketAddress) : bool :=
  match a with
  | V4 octets port =>
    negb (port =? 0) && negb (v4_unspecified octets) && negb (v4_multicast octets)
    && negb (v4_broadcast octets) && negb (v4_loopback octets) && negb (v4_link_local octets)
  | V6 octets port =>
    negb (port =? 0) && negb (v6_unspecified octets) && negb (v6_multicast octets)
    && negb (v6_loopback octets) && negb (v6_link_local octets)
  end.

(** * Candidates *)

Definition IPV6_PRIORITY : Z := 600.
Definition LAN_PRIORITY : Z := 500.
Definition OBSERVED_UDP_PRIORITY : Z := 400.
Definition PREDICTED_UDP_PRIORITY : Z := 300.
Definition NATIVE_TCP_PRIORITY : Z := 200.
Definition RELAY_PRIORITY : Z := 100.

Inductive CandidateInput :=
| UsableIpv6 (a : SocketAddress)
| Lan (a : SocketAddress)
| ObservedUdp (a : SocketAddress)
| PredictedUdp (a : SocketAddress)
| InputNativeTcp (a : SocketAddress)
| InputRelay (a : SocketAddress).

Definition metadata (i : CandidateInput) : CandidateTransport * Z * list byte * list byte :=
  match i with
  | UsableIpv6 _ => (QuicUdp, IPV6_PRIORITY, str "ipv6", str "local")
  | Lan _ => (QuicUdp, LAN_PRIORITY, str "lan", str "local")
  | ObservedUdp _ => (QuicUdp, OBSERVED_UDP_PRIORITY, str "observed-udp", str "server-observed")
  | PredictedUdp _ => (QuicUdp, PREDICTED_UDP_PRIORITY, str "predicted-udp", str "prediction")
  | InputNativeTcp _ => (NativeTcp, NATIVE_TCP_PRIORITY, str "native-tcp", str "local")
  | InputRelay _ => (Relay, RELAY_PRIORITY, str "relay", str "relay")
  end.
Definition address (i : CandidateInput) : SocketAddress :=
  match i with
  | UsableIpv6 a | Lan a | ObservedUdp a | PredictedUdp a | InputNativeTcp a | InputRelay a => a
  end.

Record CandidateGatherer := {
  cg_generation : Z;
  cg_expires_unix_secs : Z;
  cg_udp_port_range : PortRange;
  cg_tcp_port_range : PortRange;
}.

Definition is_allowed_input (g : CandidateGatherer) (i : CandidateInput) : bool :=
  match i with
  | UsableIpv6 a =>
    match a with V6 _ port => range_contains (cg_udp_port_range g) port | V4 _ _ => false end
  | Lan (V4 octets port) => v4_private octets && range_contains (cg_udp_port_range g) port
  | Lan (V6 _ _) => false
  | InputNativeTcp a => range_contains (cg_tcp_port_range g) (address_port a)
  | ObservedUdp _ | PredictedUdp _ | InputRelay _ => true
  end.

Definition to_candidate (g : CandidateGatherer) (i : CandidateInput) : option Candidate :=
  if negb (is_usable_address (address i)) || negb (is_allowed_input g i) then None else
  let '(transport, priority, foundation, observation_source) := metadata i in
  foundation ← res_ok (bounded_try_from MAX_FOUNDATION_BYTES foundation);
  observation_source ← res_ok (bounded_try_from MAX_OBSERVATION_SOURCE_BYTES observation_source);
  Some {| cand_transport := transport; cand_address := address i; cand_priority := priority;
          cand_foundation := foundation; cand_generation := cg_generation g;
          cand_expires_unix_secs := cg_expires_unix_secs g;
          cand_observation_source := observation_source |}.

(** The stable [sort_by_key] on [Reverse(priority)]: an element goes before the first one
    of the sorted rest that is not strictly higher. *)
Fixpoint insert_by_priority (c : Candidate) (l : list Candidate) : list Candidate :=
  match l with
  | [] => [c]
  | d :: l' =>
    if cand_priority c <? cand_priority d then d :: insert_by_priority c l' else c :: l
  end.
Definition sort_by_priority (l : list Candidate) : list Candidate :=
  foldr insert_by_priority [] l.

(** The [retain] with its [seen] list. *)
Fixpoint retain_unseen (seen : list (CandidateTransport * SocketAddress)) (l : list Candidate)
    : list Candidate :=
  match l with
  | [] => []
  | c :: l =>
    if existsb (λ '(t, a), bool_decide (t = cand_transport c) && bool_decide (a = cand_address c))
         seen
    then retain_unseen seen l
    else c :: retain_unseen (seen ++ [(cand_transport c, cand_address c)]) l
  end.

Definition gather (g : CandidateGatherer) (inputs : list CandidateInput) : list Candidate :=
  let candidates := omap (to_candidate g) inputs in
  let candidates := sort_by_priority candidates in
  let candidates := retain_unseen [] candidates in
  take (Z.to_nat MAX_CANDIDATES) candidates.

(** * Mapping analysis *)

Record Observation := { obs_destination : SocketAddress; obs_mapped_address : SocketAddress }.

Inductive MappingEvidence :=
| Stable
| DestinationPortDependent
| Sequential (delta : Z)
| Uncertain.

Definition same_host (left right : SocketAddress) : bool :=
  match left, right with
  | V4 l _, V4 r _ => bool_decide (l = r)
  | V6 l _, V6 r _ => bool_decide (l = r)
  | _, _ => false
  end.

(** [observations[0]]; the callers have checked that the slice is not empty. *)
Definition all_share (field : Observation → SocketAddress) (observations : list Observation) : bool :=
  match observations with
  | [] => true
  | first :: _ => forallb (λ o, same_host (field o) (field first)) observations
  end.

(** [i16::try_from]. *)
Definition signed_port_delta (previous next : Z) : option Z :=
  let d := next - previous in
  if (-32768 <=? d) && (d <=? 32767) then Some d else None.

(** [windows(2)]. *)
Definition windows2 {A} (l : list A) : list (A * A) := zip l (drop 1 l).

Fixpoint destination_mappings (mappings : list (Z * SocketAddress)) (observations : list Observation)
    : option (list (Z * SocketAddress)) :=
  match observations with
  | [] => Some mappings
  | o :: observations =>
    let destination_port := address_port (obs_destination o) in
    match List.find (λ '(known, _), known =? destination_port) mappings with
    | Some (_, mapped) =>
      if negb (bool_decide (mapped = obs_mapped_address o)) then None
      else destination_mappings mappings observations
    | None =>
      destination_mappings (mappings ++ [(destination_port, obs_mapped_address o)]) observations
    end
  end.
Definition destination_port_dependent (observations : list Observation) : bool :=
  match destination_mappings [] observations with
  | None => false
  | Some mappings =>
    (2 <=? blen mappings)
    && existsb (λ '(a, b), negb (bool_decide (a.2 = b.2))) (windows2 mappings)
  end.

Definition mapped_port (o : Observation) : Z := address_port (obs_mapped_address o).

Definition sequential_delta (observations : list Observation) : option Z :=
  if (blen observations <? 3) || negb (all_share obs_mapped_address observations) then None else
  match observations with
  | o0 :: o1 :: _ =>
    delta ← signed_port_delta (mapped_port o0) (mapped_port o1);
    if (delta =? 0)
       || existsb (λ '(a, b), negb (bool_decide
                     (signed_port_delta (mapped_port a) (mapped_port b) = Some delta)))
            (windows2 observations)
    then None else Some delta
  | _ => None
  end.

Definition analyze_mappings (observations : list Observation) : MappingEvidence :=
  if (blen observations <? 2)
     || existsb (λ o, negb (is_usable_address (obs_destination o))
                      || negb (is_usable_address (obs_mapped_address o))) observations
     || negb (all_share obs_destination observations)
     || negb (all_share obs_mapped_address observations)
  then Uncertain else
  match observations with
  | [] => Uncertain
  | first :: _ =>
    if forallb (λ o, bool_decide (obs_mapped_address o = obs_mapped_address first)) observations
    then Stable
    else if destination_port_dependent observations then DestinationPortDependent
    else match sequential_delta observations with
         | Some delta => Sequential delta
         | None => Uncertain
         end
  end.

(** * Prediction *)

Definition MAX_PREDICTED_PORTS : Z := 16.
Record PredictionPolicy := { requested_window : Z }.

(** The loop over [offset in from..=from + n - 1]. *)
Fixpoint predict_loop (last_port delta : Z) (n : nat) (offset : Z) (ports : list Z) : list Z :=
  match n with
  | O => ports
  | S n =>
    let predicted := last_port + delta * offset in
    if negb ((0 <=? predicted) && (predicted <=? u16_max)) then ports else
    if predicted =? 0 then ports else
    predict_loop last_port delta n (offset + 1)
      (if bool_decide (predicted ∈ ports) then ports else ports ++ [predicted])
  end.

Definition predicted_ports (observations : list Observation) (policy : PredictionPolicy) : list Z :=
  match analyze_mappings observations, last observations with
  | Sequential delta, Some last =>
    predict_loop (mapped_port last) delta
      (Z.to_nat (Z.min (requested_window policy) MAX_PREDICTED_PORTS)) 1 []
  | _, _ => []
  end.

(** * Lemmas *)

Definition higher (a b : Candidate) : Prop := cand_priority b ≤ cand_priority a.

Lemma insert_by_priority_perm c l : insert_by_priority c l ≡ₚ c :: l.
Proof.
  induction l as [|d l IH]; simpl; [done|]. destruct (_ <? _); [|done]. rewrite IH. constructor.
Qed.
Lemma sort_by_priority_perm l : sort_by_priority l ≡ₚ l.
Proof. induction l as [|c l IH]; simpl; [done|]. by rewrite insert_by_priority_perm, IH. Qed.

Lemma insert_by_priority_sorted c l :
  StronglySorted higher l → StronglySorted higher (insert_by_priority c l).
Proof.
  induction 1 as [|d l Hs IH Hd]; simpl; [by repeat constructor|].
  destruct (Z.ltb_spec (cand_priority c) (cand_priority d)).
  - constructor; [done|]. rewrite insert_by_priority_perm. constructor; [unfold higher; lia|done].
  - constructor; [by constructor|]. constructor; [unfold higher; lia|].
    eapply Forall_impl; [done|]. unfold higher. intros x Hx. simpl in Hx. lia.
Qed.
Lemma sort_by_priority_sorted l : StronglySorted higher (sort_by_priority l).
Proof. induction l; simpl; [constructor|]. by apply insert_by_priority_sorted. Qed.

Definition place (c : Candidate) : CandidateTransport * SocketAddress :=
  (cand_transport c, cand_address c).

Lemma seen_spec c seen :
  existsb (λ '(t, a), bool_decide (t = cand_transport c) && bool_decide (a = cand_address c)) seen
    = bool_decide (place c ∈ seen).
Proof.
  apply eq_bool_prop_intro. rewrite bool_decide_spec, Is_true_true, existsb_exists.
  setoid_rewrite <- list_elem_of_In. split.
  - intros ([t a]&Hin&Hb). apply andb_true_iff in Hb as [->%bool_decide_eq_true ->%bool_decide_eq_true].
    done.
  - intros Hin. exists (place c). split; [done|]. simpl. by rewrite !bool_decide_eq_true_2.
Qed.

Lemma retain_unseen_spec l seen :
  NoDup (place <$> retain_unseen seen l)
  ∧ (∀ c, c ∈ retain_unseen seen l → c ∈ l ∧ place c ∉ seen)
  ∧ (∀ c, c ∈ l → place c ∈ seen ∨ place c ∈ place <$> retain_unseen seen l)
  ∧ sublist (retain_unseen seen l) l.
Proof.
  revert seen; induction l as [|c l IH]; intros seen; simpl.
  { split_and!; [constructor|by intros ? ?%elem_of_nil|by intros ? ?%elem_of_nil|constructor]. }
  rewrite seen_spec. case_bool_decide as Hs.
  - destruct (IH seen) as (H1&H2&H3&H4). split_and!; [done| | |by constructor].
    + intros d Hd. destruct (H2 d Hd). split; [by right|done].
    + intros d [-> |Hd]%elem_of_cons; [by left|by apply H3].
  - destruct (IH (seen ++ [place c])) as (H1&H2&H3&H4).
    fold (place c). split_and!; simpl; [| | |by constructor].
    + constructor; [|done]. intros (d&Hd&Hin)%list_elem_of_fmap.
      destruct (H2 d Hin) as [_ Hn]. apply Hn. rewrite <- Hd. apply elem_of_app. right. by left.
    + intros d [-> |Hd]%elem_of_cons; [by split; [left|]|].
      destruct (H2 d Hd) as [? Hn]. split; [by right|]. intros ?. apply Hn, elem_of_app. by left.
    + intros d [-> |Hd]%elem_of_cons; [right; by left|].
      destruct (H3 d Hd) as [[?| ->%list_elem_of_singleton]%elem_of_app|?];
        [by left|right; by left|right; by right].
Qed.

Lemma to_candidate_Some g i c :
  to_candidate g i = Some c →
  is_usable_address (cand_address c) = true ∧ is_allowed_input g i = true
  ∧ cand_address c = address i ∧ cand_transport c = (metadata i).1.1.1
  ∧ cand_priority c = (metadata i).1.1.2
  ∧ cand_generation c = cg_generation g ∧ cand_expires_unix_secs c = cg_expires_unix_secs g
  ∧ str_wf MAX_FOUNDATION_BYTES (cand_foundation c)
  ∧ str_wf MAX_OBSERVATION_SOURCE_BYTES (cand_observation_source c).
Proof.
  unfold to_candidate. destruct (is_usable_address _) eqn:Hu, (is_allowed_input g i) eqn:Ha; try done.
  destruct i; simpl; intros [= <-]; simpl; by repeat split.
Qed.

(** An accepted input always gives a candidate. *)
Lemma to_candidate_total g i :
  is_usable_address (address i) = true → is_allowed_input g i = true → is_Some (to_candidate g i).
Proof. intros Hu Ha. unfold to_candidate. rewrite Hu, Ha. by destruct i; eexists. Qed.

Lemma sublist_elem_of {A} (l k : list A) x : sublist l k → x ∈ l → x ∈ k.
Proof.
  induction 1; [done| |by right; auto]. intros [-> |?]%elem_of_cons; [by left|by right; auto].
Qed.

Lemma sublist_sorted l k : sublist l k → StronglySorted higher k → StronglySorted higher l.
Proof.
  induction 1 as [|x l k Hs IH|x l k Hs IH]; inversion 1; subst; [constructor| |by apply IH].
  constructor; [by apply IH|]. rewrite Forall_forall in *. intros y Hy.
  match goal with H : ∀ y, y ∈ k → _ |- _ => apply H end. by eapply sublist_elem_of.
Qed.

Lemma gather_sublist g inputs :
  sublist (gather g inputs) (sort_by_priority (omap (to_candidate g) inputs)).
Proof.
  unfold gather. etrans; [apply sublist_take|]. apply retain_unseen_spec.
Qed.

Lemma gather_from g inputs c :
  c ∈ gather g inputs → ∃ i, i ∈ inputs ∧ to_candidate g i = Some c.
Proof.
  intros Hc%(sublist_elem_of _ _ _ (gather_sublist g inputs)).
  rewrite sort_by_priority_perm in Hc. by apply list_elem_of_omap in Hc.
Qed.

(** The prediction loop adds the next ports of the progression. *)
Lemma predict_loop_spec last_port delta n offset ports :
  delta ≠ 0 → 1 ≤ offset →
  (∀ p, p ∈ ports → ∃ k, 1 ≤ k < offset ∧ p = last_port + delta * k) →
  ∃ m : nat, (m ≤ n)%nat
    ∧ predict_loop last_port delta n offset ports =
        ports ++ ((λ k, last_port + delta * (offset + Z.of_nat k)) <$> seq 0 m)
    ∧ (∀ k, (k < m)%nat → 1 ≤ last_port + delta * (offset + Z.of_nat k) ≤ u16_max)
    ∧ ((m < n)%nat → ¬ 1 ≤ last_port + delta * (offset + Z.of_nat m) ≤ u16_max).
Proof.
  intros Hd. revert offset ports; induction n as [|n IH]; intros offset ports Ho Hp; simpl.
  { exists 0%nat. simpl. rewrite app_nil_r. split_and!; [lia|done|lia|lia]. }
  set (p := last_port + delta * offset).
  assert (last_port + delta * (offset + Z.of_nat 0) = p) as Hp0 by (unfold p; lia).
  destruct ((0 <=? p) && (p <=? u16_max)) eqn:Hr; simpl; cycle 1.
  { exists 0%nat. simpl. rewrite app_nil_r. split_and!; [lia|done|lia|].
    intros _. apply andb_false_iff in Hr. lia. }
  destruct (Z.eqb_spec p 0) as [Hz|Hz].
  { exists 0%nat. simpl. rewrite app_nil_r. split_and!; [lia|done|lia|]. lia. }
  apply andb_true_iff in Hr.
  rewrite bool_decide_eq_false_2 by (intros (k&Hk&Heq)%Hp; unfold p in Heq; nia).
  destruct (IH (offset + 1) (ports ++ [p])) as (m&Hm&->&Hin&Hout); [lia| |].
  { intros q [(k&Hk&->)%Hp| ->%list_elem_of_singleton]%elem_of_app; [exists k; lia|].
    exists offset. split; [lia|done]. }
  exists (S m). split_and!; [lia| | |].
  - rewrite <- app_assoc. f_equal. cbn [seq fmap list_fmap app]. rewrite Hp0. f_equal.
    rewrite <- seq_shift. change (list_fmap ?f) with (fmap f). rewrite <- list_fmap_compose.
    apply list_fmap_ext. intros ? k _. unfold compose. lia.
  - intros [|k] Hk; [rewrite Hp0; lia|].
    replace (offset + Z.of_nat (S k)) with (offset + 1 + Z.of_nat k) by lia. apply Hin. lia.
  - intros Hmn. replace (offset + Z.of_nat (S m)) with (offset + 1 + Z.of_nat m) by lia.
    apply Hout. lia.
Qed.

Lemma sequential_delta_Some obs d :
  sequential_delta obs = Some d →
  d ≠ 0 ∧ -32768 ≤ d ≤ 32767
  ∧ ∀ a b, (a, b) ∈ windows2 obs → mapped_port b = mapped_port a + d.
Proof.
  unfold sequential_delta. destruct (_ || _); [done|]. generalize (windows2 obs) as w. intros w.
  destruct obs as [|o0 [|o1 obs]]; try done.
  destruct (signed_port_delta (mapped_port o0) (mapped_port o1)) as [d'|] eqn:Hd; [|done]. simpl.
  destruct ((d' =? 0) || _) eqn:Hw; [done|]. intros [= ->].
  apply orb_false_iff in Hw as [Hz Hw]. unfold signed_port_delta in Hd.
  split_and!; [lia|destruct (_ && _) eqn:Hr in Hd; simplify_eq; lia..|].
  intros a b Hin. apply existsb_false in Hw. rewrite Forall_forall in Hw.
  assert (bool_decide (signed_port_delta (mapped_port a) (mapped_port b) = Some d) = true) as Hb.
  { specialize (Hw (a, b) Hin). simpl in Hw. by apply negb_false_iff in Hw. }
  apply bool_decide_eq_true in Hb. unfold signed_port_delta in Hb. case_match; simplify_eq. lia.
Qed.

Lemma analyze_sequential obs d :
  analyze_mappings obs = Sequential d → sequential_delta obs = Some d.
Proof.
  unfold analyze_mappings. destruct (_ || _ || _ || _); [done|]. destruct obs as [|o obs]; [done|].
  destruct (forallb _ _); [done|]. destruct (destination_port_dependent _); [done|].
  destruct (sequential_delta (o :: obs)); naive_solver.
Qed.

(** * Properties *)

(** the gathered candidates are at most the wire bound, ordered by descending priority,
    pairwise distinct in transport and address; each comes from an input that the
    configuration allows, has a usable address and carries the gatherer's generation and
    expiry; and no acceptable input is lost except to the bound: with fewer candidates than
    the bound, the place of every acceptable input is among them. *)
Theorem gather_correct g inputs :
  blen (gather g inputs) ≤ MAX_CANDIDATES
  ∧ StronglySorted higher (gather g inputs)
  ∧ NoDup (place <$> gather g inputs)
  ∧ (∀ c, c ∈ gather g inputs →
       is_usable_address (cand_address c) = true
       ∧ cand_generation c = cg_generation g ∧ cand_expires_unix_secs c = cg_expires_unix_secs g
       ∧ ∃ i, i ∈ inputs ∧ is_allowed_input g i = true ∧ place c = ((metadata i).1.1.1, address i)
              ∧ cand_priority c = (metadata i).1.1.2)
  ∧ (blen (gather g inputs) < MAX_CANDIDATES → ∀ i, i ∈ inputs →
       is_usable_address (address i) = true → is_allowed_input g i = true →
       ((metadata i).1.1.1, address i) ∈ place <$> gather g inputs).
Proof.
  split_and!.
  - unfold gather, blen, MAX_CANDIDATES. rewrite length_take. lia.
  - eapply sublist_sorted; [apply gather_sublist|apply sort_by_priority_sorted].
  - unfold gather. rewrite fmap_take.
    eapply sublist_NoDup; [apply retain_unseen_spec|apply sublist_take].
  - intros c (i&Hi&Hc)%gather_from. apply to_candidate_Some in Hc as (?&?&?&?&?&?&?&_).
    split_and!; try done. exists i. unfold place. split_and!; try done. congruence.
  - intros Hlt i Hi Hu Ha. destruct (to_candidate_total g i Hu Ha) as [c Hc].
    assert (place c = ((metadata i).1.1.1, address i)) as <-.
    { apply to_candidate_Some in Hc as (_&_&?&?&_). unfold place. congruence. }
    unfold gather, blen, MAX_CANDIDATES in *. rewrite length_take in Hlt.
    rewrite take_ge by lia.
    destruct (retain_unseen_spec (sort_by_priority (omap (to_candidate g) inputs)) [])
      as (_&_&Hall&_). destruct (Hall c) as [Hn|]; [|by apply elem_of_nil in Hn|done].
    rewrite sort_by_priority_perm. apply list_elem_of_omap. eauto.
Qed.

Definition demo_gatherer : CandidateGatherer :=
  {| cg_generation := 1; cg_expires_unix_secs := 9;
     cg_udp_port_range := {| pr_start := 1000; pr_end := 2000 |};
     cg_tcp_port_range := {| pr_start := 1000; pr_end := 2000 |} |}.

(** Ports are predicted only from sequential evidence: a nonzero constant difference
    between every two consecutive mapped ports; the prediction is then the arithmetic
    progression after the last mapped port, cut at the first port outside 1..65535 and at
    the window and bound, without repetition and without leaving 32-bit arithmetic. *)
Theorem predicted_ports_progression obs policy :
  0 ≤ requested_window policy →
  Forall (λ o, in_u 16 (mapped_port o)) obs →
  (predicted_ports obs policy = []
   ∨ ∃ delta last_port, analyze_mappings obs = Sequential delta
       ∧ mapped_port <$> last obs = Some last_port ∧ delta ≠ 0
       ∧ (∀ a b, (a, b) ∈ windows2 obs → mapped_port b = mapped_port a + delta)
       ∧ ∃ m : nat, Z.of_nat m ≤ Z.min (requested_window policy) MAX_PREDICTED_PORTS
         ∧ predicted_ports obs policy = (λ k, last_port + delta * (1 + Z.of_nat k)) <$> seq 0 m
         ∧ (∀ p, p ∈ predicted_ports obs policy → 1 ≤ p ≤ u16_max)
         ∧ (Z.of_nat m < Z.min (requested_window policy) MAX_PREDICTED_PORTS →
              ¬ 1 ≤ last_port + delta * (1 + Z.of_nat m) ≤ u16_max)
         ∧ (∀ k, 1 ≤ k ≤ MAX_PREDICTED_PORTS → - 2 ^ 31 ≤ last_port + delta * k < 2 ^ 31))
  ∧ NoDup (predicted_ports obs policy).
Proof.
  intros Hw Hports. unfold predicted_ports.
  destruct (analyze_mappings obs) as [| |delta|] eqn:Ha; try (by split; [left|constructor]).
  destruct (last obs) as [o|] eqn:Hl; [|by split; [left|constructor]].
  destruct (sequential_delta_Some _ _ (analyze_sequential _ _ Ha)) as (Hd&Hrange&Hwin).
  assert (in_u 16 (mapped_port o)) as Ho.
  { rewrite Forall_forall in Hports. by apply Hports, last_Some_elem_of. }
  destruct (predict_loop_spec (mapped_port o) delta
    (Z.to_nat (Z.min (requested_window policy) MAX_PREDICTED_PORTS)) 1 []) as (m&Hm&->&Hin&Hout);
    [done|lia|by intros ? ?%elem_of_nil|].
  simpl. split.
  - right. exists delta, (mapped_port o). split_and!; try done. exists m.
    split_and!; [unfold MAX_PREDICTED_PORTS in *; lia|done| | |].
    + intros p (k&->&[_ Hk]%elem_of_seq)%list_elem_of_fmap. apply Hin. lia.
    + intros Hlt. apply Hout. lia.
    + unfold in_u, MAX_PREDICTED_PORTS in *. intros k Hk. nia.
  - apply NoDup_fmap_2_strong; [|apply NoDup_seq]. intros x y _ _ Heq. nia.
Qed.

Definition demo_observation (d p : Z) : Observation :=
  {| obs_destination := V4 [x08; x08; x08; x08] d; obs_mapped_address := V4 [x09; x09; x09; x09] p |}.

Lemma predicted_ports_progression_witness :
  predicted_ports [demo_observation 5 100; demo_observation 5 102; demo_observation 5 104]
    {| requested_window := 3 |} = [106; 108; 110]
  ∧ NoDup (predicted_ports [demo_observation 5 100; demo_observation 5 102; demo_observation 5 104]
    {| requested_window := 3 |}).
Proof.
  split; [reflexivity|].
  apply (predicted_ports_progression
    [demo_observation 5 100; demo_observation 5 102; demo_observation 5 104]
    {| requested_window := 3 |}); [simpl; lia|].
  do 3 (apply Forall_cons; split; [by vm_compute|]). apply Forall_nil_2.
Defined.
