(* ===== verification/Bindings.v ===== *)
(** One-time data-channel tokens: [ChannelBindingStore] ([rustgo-transport/src/tls.rs]). *)

From S2P Require Import Prelude.
From S2P Require Import Messages.
From Stdlib Require Import Strings.Byte.
From stdpp Require Import prelude gmap list strings.

#[local] Open Scope Z_scope.

(** * Types *)

Inductive ChannelKind :=
| KTcp (tunnel_id connection_id : Z)
| KUdp (tunnel_id channel_id : Z).
#[export] Instance channel_kind_eq_dec : EqDecision ChannelKind.
Proof. solve_decision. Defined.

Record ChannelBinding := {
  cb_client_id : list byte;
  cb_session_id : list byte;
  cb_channel_kind : ChannelKind;
}.

Record PendingBinding := { pb_channel_kind : ChannelKind; pb_expires_at : Z }.

Record ChannelBindingStore := {
  client_id : list byte;
  session_id : list byte;
  capacity : Z;
  time_to_live : Z;
  pending : gmap (list byte) PendingBinding;
}.

Inductive BindingError := BindingConfiguration | CapacityReached | EntropyUnavailable | Rejected.
#[export] Instance binding_error_eq_dec : EqDecision BindingError.
Proof. solve_decision. Defined.

Definition BINDING_TOKEN_BYTES : nat := 32.
Definition MAX_TOKEN_GENERATION_ATTEMPTS : nat := 16.

(** * Time *)

(** An [Instant] in nanoseconds since an arbitrary origin: a signed 64-bit count of seconds
    and the nanoseconds within one. *)
Definition INSTANT_MAX : Z := 2 ^ 63 * 1000000000 - 1.
Definition instant_checked_add (now duration : Z) : option Z := checked_add INSTANT_MAX now duration.

(** * Operations *)

Definition with_pending (s : ChannelBindingStore) (p : gmap (list byte) PendingBinding)
    : ChannelBindingStore :=
  {| client_id := client_id s; session_id := session_id s; capacity := capacity s;
     time_to_live := time_to_live s; pending := p |}.

Definition ChannelBindingStore_new (client session : list byte) (cap ttl now : Z)
    : res BindingError ChannelBindingStore :=
  if bool_decide (client = []) || (MAX_CLIENT_NAME_BYTES <? blen client)
     || bool_decide (session = []) || (MAX_SESSION_ID_BYTES <? blen session)
     || (cap =? 0) || (ttl =? 0) || bool_decide (instant_checked_add now ttl = None)
  then Err BindingConfiguration
  else Ok {| client_id := client; session_id := session; capacity := cap; time_to_live := ttl;
             pending := ∅ |}.

(** The generation loop of [issue]: [entropy i] is what the operating system's generator
    gives at the [i]-th attempt. *)
Fixpoint issue_loop (entropy : nat → option (list byte)) (attempt n : nat) (kind : ChannelKind)
    (expires_at : Z) (p : gmap (list byte) PendingBinding)
    : res BindingError (list byte) * gmap (list byte) PendingBinding :=
  match n with
  | O => (Err EntropyUnavailable, p)
  | S n =>
    match entropy attempt with
    | None => (Err EntropyUnavailable, p)
    | Some token =>
      match p !! token with
      | None =>
        (map_err (λ _, BindingConfiguration) (bounded_try_from MAX_BINDING_TOKEN_BYTES token),
         <[token := {| pb_channel_kind := kind; pb_expires_at := expires_at |}]> p)
      | Some _ => issue_loop entropy (S attempt) n kind expires_at p
      end
    end
  end.

Definition issue (s : ChannelBindingStore) (entropy : nat → option (list byte)) (now : Z)
    (kind : ChannelKind) : res BindingError (list byte) * ChannelBindingStore :=
  let s := with_pending s (filter (λ x, now < pb_expires_at x.2) (pending s)) in
  if capacity s <=? Z.of_nat (size (pending s)) then (Err CapacityReached, s) else
  match instant_checked_add now (time_to_live s) with
  | None => (Err BindingConfiguration, s)
  | Some expires_at =>
    let '(r, p) := issue_loop entropy 0 MAX_TOKEN_GENERATION_ATTEMPTS kind expires_at (pending s) in
    (r, with_pending s p)
  end.

(** [<[u8; 32]>::try_from] *)
Definition token_array (token : list byte) : option (list byte) :=
  if bool_decide (length token = BINDING_TOKEN_BYTES) then Some token else None.

Definition recognizes (s : ChannelBindingStore) (token : list byte) : bool :=
  match token_array token with
  | None => false
  | Some token => bool_decide (is_Some (pending s !! token))
  end.

Definition revoke (s : ChannelBindingStore) (kind : ChannelKind) (token : list byte)
    : bool * ChannelBindingStore :=
  match token_array token with
  | None => (false, s)
  | Some token =>
    match pending s !! token with
    | Some entry =>
      if bool_decide (pb_channel_kind entry = kind)
      then (true, with_pending s (delete token (pending s)))
      else (false, s)
    | None => (false, s)
    end
  end.

Definition redeem (s : ChannelBindingStore) (now : Z) (client session : list byte)
    (kind : ChannelKind) (token : list byte) : res BindingError ChannelBinding * ChannelBindingStore :=
  match token_array token with
  | None => (Err Rejected, s)
  | Some token =>
    match pending s !! token with
    | None => (Err Rejected, s)
    | Some entry =>
      let s := with_pending s (delete token (pending s)) in
      if (pb_expires_at entry <=? now)
         || negb (bool_decide (client = client_id s))
         || negb (bool_decide (session = session_id s))
         || negb (bool_decide (kind = pb_channel_kind entry))
      then (Err Rejected, s)
      else (Ok {| cb_client_id := client_id s; cb_session_id := session_id s;
                  cb_channel_kind := kind |}, s)
    end
  end.

(** * Traces *)

Inductive BindingCall :=
| CallIssue (entropy : nat → option (list byte)) (now : Z) (kind : ChannelKind)
| CallRevoke (kind : ChannelKind) (token : list byte)
| CallRedeem (now : Z) (client session : list byte) (kind : ChannelKind) (token : list byte).

Inductive BindingEvent :=
| Issued (token : list byte) (at_time : Z) (kind : ChannelKind)
| Revoked (token : list byte)
| Redeemed (token : list byte) (at_time : Z) (b : ChannelBinding)
| Presented (token : list byte)
| Nothing.

Definition call (s : ChannelBindingStore) (c : BindingCall) : BindingEvent * ChannelBindingStore :=
  match c with
  | CallIssue entropy now kind =>
    let '(r, s) := issue s entropy now kind in
    (match r with Ok token => Issued token now kind | _ => Nothing end, s)
  | CallRevoke kind token =>
    let '(b, s) := revoke s kind token in (if b then Revoked token else Nothing, s)
  | CallRedeem now client session kind token =>
    let '(r, s) := redeem s now client session kind token in
    (match r with Ok b => Redeemed token now b | _ => Presented token end, s)
  end.

(** The events of a sequence of calls, latest first, and the store after it. *)
Fixpoint calls (s : ChannelBindingStore) (log : list BindingEvent) (cs : list BindingCall)
    : list BindingEvent * ChannelBindingStore :=
  match cs with
  | [] => (log, s)
  | c :: cs => let '(e, s) := call s c in calls s (e :: log) cs
  end.

(** An event after which a token is gone. *)
Definition consumes (token : list byte) (e : BindingEvent) : Prop :=
  match e with
  | Revoked t | Redeemed t _ _ | Presented t => t = token
  | _ => False
  end.

(** The log, latest first, has the issue of a token for a kind at a time, and nothing since
    has consumed the token. *)
Definition outstanding (log : list BindingEvent) (token : list byte) (at_time : Z)
    (kind : ChannelKind) : Prop :=
  ∃ l1 l2, log = l1 ++ Issued token at_time kind :: l2 ∧ Forall (λ e, ¬ consumes token e) l1.

Definition entropy_ok (c : BindingCall) : Prop :=
  match c with
  | CallIssue entropy _ _ => ∀ i t, entropy i = Some t → length t = BINDING_TOKEN_BYTES
  | _ => True
  end.

(** * Lemmas *)

Lemma token_array_Some t t' :
  token_array t = Some t' ↔ t' = t ∧ length t = BINDING_TOKEN_BYTES.
Proof. unfold token_array. case_bool_decide; naive_solver. Qed.

Lemma issue_loop_spec entropy n attempt kind exp p :
  (∀ i t, entropy i = Some t → length t = BINDING_TOKEN_BYTES) →
  match issue_loop entropy attempt n kind exp p with
  | (Ok token, p') => length token = BINDING_TOKEN_BYTES ∧ p !! token = None
      ∧ p' = <[token := {| pb_channel_kind := kind; pb_expires_at := exp |}]> p
  | (Err e, p') => e = EntropyUnavailable ∧ p' = p
  | (Panic, _) => False
  end.
Proof.
  intros He. revert attempt. induction n as [|n IH]; intros attempt; simpl; [done|].
  destruct (entropy attempt) as [t|] eqn:Et; [|done]. specialize (He _ _ Et).
  destruct (p !! t) eqn:Ep; [apply IH|].
  unfold bounded_try_from, blen. rewrite He.
  change (MAX_BINDING_TOKEN_BYTES <? Z.of_nat BINDING_TOKEN_BYTES) with false. done.
Qed.

(** What [issue] does on each branch. *)
Lemma issue_spec s entropy now kind r s' :
  (∀ i t, entropy i = Some t → length t = BINDING_TOKEN_BYTES) →
  issue s entropy now kind = (r, s') →
  client_id s' = client_id s ∧ session_id s' = session_id s ∧ capacity s' = capacity s
  ∧ time_to_live s' = time_to_live s
  ∧ match r with
    | Ok token => length token = BINDING_TOKEN_BYTES
        ∧ (∀ b, pending s !! token = Some b → pb_expires_at b ≤ now)
        ∧ Z.of_nat (size (filter (λ x, now < pb_expires_at x.2) (pending s))) < capacity s
        ∧ pending s' =
            <[token := {| pb_channel_kind := kind; pb_expires_at := now + time_to_live s |}]>
              (filter (λ x, now < pb_expires_at x.2) (pending s))
    | _ => pending s' = filter (λ x, now < pb_expires_at x.2) (pending s)
    end.
Proof.
  intros He. unfold issue. cbn [pending with_pending capacity time_to_live].
  set (p := filter _ (pending s)).
  destruct (Z.leb_spec (capacity s) (Z.of_nat (size p))); [by intros [= <- <-]|].
  destruct (instant_checked_add now (time_to_live s)) as [exp|] eqn:Ha; [|by intros [= <- <-]].
  apply checked_add_Some in Ha as [-> _].
  pose proof (issue_loop_spec entropy MAX_TOKEN_GENERATION_ATTEMPTS 0 kind
    (now + time_to_live s) p He) as Hl.
  destruct (issue_loop _ _ _ _ _ _) as [[t|e|] p']; simpl; intros [= <- <-]; simpl; [|naive_solver|done].
  destruct Hl as (Hlen&Hn&->). do 4 (split; [done|]). split; [done|]. split; [|done].
  intros b Hb. destruct (decide (now < pb_expires_at b)); [|lia].
  assert (p !! t = Some b) as Hpt by by apply map_lookup_filter_Some. congruence.
Qed.

(** The outcome of a presentation. *)
Lemma redeem_spec s now client session kind token r s' :
  redeem s now client session kind token = (r, s') →
  s' = with_pending s (if bool_decide (length token = BINDING_TOKEN_BYTES)
                       then delete token (pending s) else pending s)
  ∧ (∀ b, r = Ok b ↔
       ∃ e, length token = BINDING_TOKEN_BYTES ∧ pending s !! token = Some e
         ∧ now < pb_expires_at e ∧ client = client_id s ∧ session = session_id s
         ∧ kind = pb_channel_kind e
         ∧ b = {| cb_client_id := client_id s; cb_session_id := session_id s;
                  cb_channel_kind := kind |})
  ∧ (∀ e, r = Err e → e = Rejected)
  ∧ r ≠ Panic.
Proof.
  unfold redeem, token_array. case_bool_decide as Hlen.
  2:{ intros [= <- <-]. split_and!; [by destruct s|naive_solver..]. }
  destruct (pending s !! token) as [e|] eqn:Hp; simpl.
  - destruct (Z.leb_spec (pb_expires_at e) now); simpl;
      [|repeat case_bool_decide; simpl]; intros [= <- <-]; split_and!; try done; naive_solver lia.
  - intros [= <- <-]. split_and!; [|naive_solver..].
    rewrite delete_id by done. by destruct s.
Qed.

Lemma revoke_spec s kind token b s' :
  revoke s kind token = (b, s') →
  (b = true ∧ (∃ e, pending s !! token = Some e ∧ pb_channel_kind e = kind)
   ∧ s' = with_pending s (delete token (pending s)))
  ∨ (b = false ∧ s' = s).
Proof.
  unfold revoke, token_array. repeat case_bool_decide; try (intros [= <- <-]; naive_solver).
  destruct (pending s !! token) as [e|] eqn:Hp; [|intros [= <- <-]; naive_solver].
  case_bool_decide; intros [= <- <-]; naive_solver.
Qed.

(** The store and the log agree on what is outstanding. *)
Definition store_ok (s : ChannelBindingStore) (log : list BindingEvent) : Prop :=
  Z.of_nat (size (pending s)) ≤ capacity s
  ∧ ∀ token e, pending s !! token = Some e →
      length token = BINDING_TOKEN_BYTES
      ∧ outstanding log token (pb_expires_at e - time_to_live s) (pb_channel_kind e).

Lemma outstanding_cons log token t kind e :
  outstanding log token t kind → ¬ consumes token e → outstanding (e :: log) token t kind.
Proof. intros (l1&l2&->&Hf) He. exists (e :: l1), l2. split; [done|]. by constructor. Qed.

Lemma call_ok s log c e s' :
  store_ok s log → 0 ≤ capacity s → entropy_ok c → call s c = (e, s') →
  store_ok s' (e :: log) ∧ client_id s' = client_id s ∧ session_id s' = session_id s
  ∧ capacity s' = capacity s ∧ time_to_live s' = time_to_live s.
Proof.
  intros [Hsz Hout] Hcap He. destruct c as [ent now kind|kind t|now cl se kind t]; simpl.
  - destruct (issue s ent now kind) as [r s1] eqn:Hi.
    destruct (issue_spec _ _ _ _ _ _ He Hi) as (Hc&Hs&Hk&Ht&Hr).
    
    pose proof (size_filter_le (λ x : list byte * PendingBinding, now < pb_expires_at x.2) (pending s)).
    assert (∀ token b ev, filter (λ x, now < pb_expires_at x.2) (pending s) !! token = Some b →
      ¬ consumes token ev → length token = BINDING_TOKEN_BYTES ∧
      outstanding (ev :: log) token (pb_expires_at b - time_to_live s1) (pb_channel_kind b)) as Hkeep.
    { intros token b ev [Hb _]%map_lookup_filter_Some Hev. destruct (Hout token b Hb).
      rewrite Ht. split; [done|]. by apply outstanding_cons. }
    intros [= <- <-]. split; [|done]. unfold store_ok. rewrite Hk.
    destruct r as [token|err|].
    + destruct Hr as (Hlen&_&Hlt&->). split.
      * pose proof (size_insert_le token {| pb_channel_kind := kind; pb_expires_at := now + time_to_live s |} (filter (λ x, now < pb_expires_at x.2) (pending s))). lia.
      * intros t' b. rewrite lookup_insert_Some. intros [[<- <-]|[Hne Hb]].
        -- split; [done|]. exists [], log. split; [|constructor]. simpl. do 2 f_equal. lia.
        -- apply Hkeep; [done|by intros []].
    + rewrite Hr. split; [lia|]. intros t' b Hb. apply Hkeep; [done|by intros []].
    + rewrite Hr. split; [lia|]. intros t' b Hb. apply Hkeep; [done|by intros []].
  - destruct (revoke s kind t) as [b s1] eqn:Hr. intros [= <- <-].
    destruct (revoke_spec _ _ _ _ _ Hr) as [(->&_&->)|[-> ->]]; simpl; (split; [|done]).
    + unfold store_ok. simpl. split.
      * pose proof (size_delete_le t (pending s)). lia.
      * intros t' b [Hne Hb]%lookup_delete_Some. destruct (Hout t' b Hb). split; [done|].
        apply outstanding_cons; [done|]. simpl. congruence.
    + split; [done|]. intros t' b Hb. destruct (Hout t' b Hb). split; [done|].
      apply outstanding_cons; [done|by intros []].
  - destruct (redeem s now cl se kind t) as [r s1] eqn:Hr.
    destruct (redeem_spec _ _ _ _ _ _ _ _ Hr) as (->&_&_&Hnp).
    intros [= <- <-]. split; [|done]. unfold store_ok. simpl.
    case_bool_decide as Hlen; (split; [|]).
    + pose proof (size_delete_le t (pending s)). lia.
    + intros t' b [Hne Hb]%lookup_delete_Some. destruct (Hout t' b Hb). split; [done|].
      apply outstanding_cons; [done|]. destruct r; simpl; congruence.
    + done.
    + intros t' b Hb. destruct (Hout t' b Hb) as [Hl ?]. split; [done|].
      apply outstanding_cons; [done|]. destruct r; simpl; congruence.
Qed.

Lemma calls_ok s log cs log' s' :
  store_ok s log → 0 ≤ capacity s → Forall entropy_ok cs → calls s log cs = (log', s') →
  store_ok s' log' ∧ client_id s' = client_id s ∧ session_id s' = session_id s
  ∧ capacity s' = capacity s ∧ time_to_live s' = time_to_live s.
Proof.
  revert s log; induction cs as [|c cs IH]; intros s log Hok Hc He; simpl; [by intros [= <- <-]|].
  inv He. destruct (call s c) as [e s1] eqn:Hcall.
  destruct (call_ok _ _ _ _ _ Hok Hc ltac:(done) Hcall) as (Hok'&E1&E2&E3&E4).
  intros Hrun. rewrite <- E1, <- E2, <- E3, <- E4. apply (IH s1 (e :: log)); try done. by rewrite E3.
Qed.

(** * Properties *)

Definition new_store (client session : list byte) (cap ttl : Z) : ChannelBindingStore :=
  {| client_id := client; session_id := session; capacity := cap; time_to_live := ttl;
     pending := ∅ |}.

(** After any sequence of issues, revocations and presentations, a presentation of a
    token succeeds only when the same token was issued for exactly the presented channel,
    has not been revoked, redeemed or even presented since, is presented before its time to
    live has passed and with the session's own client and session identifiers; success and
    failure both consume it, and the store never holds more tokens than its capacity. *)
Theorem token_redeemed_once client session cap ttl cs log s now cl se kind token b s' :
  0 ≤ cap → Forall entropy_ok cs →
  calls (new_store client session cap ttl) [] cs = (log, s) →
  redeem s now cl se kind token = (Ok b, s') →
  cl = client ∧ se = session
  ∧ b = {| cb_client_id := client; cb_session_id := session; cb_channel_kind := kind |}
  ∧ (∃ at_time, outstanding log token at_time kind ∧ now < at_time + ttl)
  ∧ recognizes s' token = false
  ∧ Z.of_nat (size (pending s)) ≤ cap.
Proof.
  intros Hcap He Hrun Hred.
  destruct (calls_ok (new_store client session cap ttl) [] cs log s) as ([Hsz Hout]&E1&E2&E3&E4);
    try done.
  destruct (redeem_spec _ _ _ _ _ _ _ _ Hred) as (->&Hok&_).
  destruct (proj1 (Hok b) eq_refl) as (e&Hlen&Hp&Hexp&->&->&->&->).
  destruct (Hout token e Hp) as [_ Ho]. rewrite E1, E2. split_and!; try done.
  - exists (pb_expires_at e - time_to_live s). split; [done|]. rewrite E4. simpl. lia.
  - unfold recognizes, token_array. rewrite !bool_decide_eq_true_2 by done. simpl.
    rewrite lookup_delete_eq. by apply bool_decide_eq_false_2; intros [? ?].
  - by rewrite E3 in Hsz.
Qed.

(** Presenting a token a second time is refused, whatever is presented with it, unless
    it was issued again in between; and a revocation needs the exact channel. *)
Theorem second_presentation_rejected s now1 cl1 se1 k1 now2 cl2 se2 k2 token :
  (redeem (redeem s now1 cl1 se1 k1 token).2 now2 cl2 se2 k2 token).1 = Err Rejected
  ∧ (∀ kind, (revoke s kind token).1 = true ↔
       length token = BINDING_TOKEN_BYTES
       ∧ ∃ e, pending s !! token = Some e ∧ pb_channel_kind e = kind).
Proof.
  split.
  - destruct (redeem s now1 cl1 se1 k1 token) as [r s1] eqn:H1.
    destruct (redeem_spec _ _ _ _ _ _ _ _ H1) as (->&_). simpl.
    destruct (redeem _ now2 cl2 se2 k2 token) as [r2 s2] eqn:H2.
    destruct (redeem_spec _ _ _ _ _ _ _ _ H2) as (_&Hok&Herr&Hnp). simpl in *.
    destruct r2 as [b|e|]; [|by rewrite (Herr e)|done].
    destruct (proj1 (Hok b) eq_refl) as (e&Hlen&Hp&_). rewrite bool_decide_eq_true_2 in Hp by done.
    by rewrite lookup_delete_eq in Hp.
  - intros kind. unfold revoke, token_array. case_bool_decide; [|naive_solver].
    destruct (pending s !! token) as [e|]; [|naive_solver].
    case_bool_decide; naive_solver.
Qed.

(** * Witnesses *)

Definition demo_token : list byte := replicate 32 x2a.
Definition demo_calls : list BindingCall := [CallIssue (λ _, Some demo_token) 100 (KTcp 3 9)].

Lemma token_redeemed_once_witness :
  let log := [Issued demo_token 100 (KTcp 3 9)] in
  ∃ s s', calls (new_store [x61] [x07] 2 50) [] demo_calls = (log, s)
  ∧ redeem s 120 [x61] [x07] (KTcp 3 9) demo_token =
      (Ok {| cb_client_id := [x61]; cb_session_id := [x07]; cb_channel_kind := KTcp 3 9 |}, s')
  ∧ recognizes s' demo_token = false.
Proof.
  simpl. eexists _, _. split; [reflexivity|]. split; [reflexivity|].
  eapply (token_redeemed_once [x61] [x07] 2 50 demo_calls _ _ 120 [x61] [x07] (KTcp 3 9) demo_token);
    [lia| |reflexivity|reflexivity].
  repeat constructor. intros i t [= <-]. reflexivity.
Defined.
