(* ===== verification/Registry.v ===== *)
(** The server's registry of control sessions ([rustgos/src/registry.rs]): claims and
    releases, the runtime of one session with its pending data channels, data-channel
    authentication, and tunnel registration. *)

From S2P Require Import Prelude.
From S2P Require Import Messages.
From S2P Require Import Events.
From S2P Require Import Frame.
From S2P Require Import Handshake.
From S2P Require Import Bindings.
From Stdlib Require Import Strings.Byte.
From stdpp Require Import prelude gmap list strings relations.

#[local] Open Scope Z_scope.

(** * Types *)

(** [AuthenticatedClient] of [rustgos/src/auth.rs]. *)
Record AuthenticatedClient := { ac_name : list byte; ac_fingerprint : list byte; ac_session_id : list byte }.

Inductive IoErrorKind := AddrInUse | PermissionDenied | OtherIo.
#[export] Instance io_error_kind_eq_dec : EqDecision IoErrorKind.
Proof. solve_decision. Defined.

Inductive RegistryError :=
| RegConfiguration
| AlreadyConnected
| RegCapacityReached
| UnknownTunnel
| InvalidTunnelRegistration
| UdpBindAddressRequired
| Binding (e : BindingError)
| RegIo (kind : IoErrorKind)
| RegEntropyUnavailable
| GenerationExhausted.

(** A pending data channel: what it is for, its token, and where its stream goes. *)
Record PendingChannel := {
  pc_channel_kind : ChannelKind;
  pc_binding_token : list byte;
  pc_destination : nat;
}.

Record SessionBindings := {
  store : ChannelBindingStore;
  pending_tcp : gmap Z PendingChannel;
  pending_udp : gmap Z PendingChannel;
}.

Record SessionRuntime := {
  client : list byte;
  rt_fingerprint : list byte;
  rt_session_id : list byte;
  rt_generation : Z;
  bindings : SessionBindings;
  rt_cancelled : bool;
  available : bool;
  rt_version : ProtocolVersion;
}.

Record ActiveSession := { as_name : list byte; as_session_id : list byte }.

Record RegistryConfig := {
  max_clients : Z;
  max_tunnels_per_client : Z;
  binding_capacity : Z;
  binding_ttl : Z;
}.

(** [RegistryState]; [by_name] holds shared runtimes, so it maps to references into
    [runtimes]. *)
Record ClientRegistry := {
  config : RegistryConfig;
  active : gmap (list byte) ActiveSession;
  by_name : gmap (list byte) nat;
  next_observability_generation : Z;
  runtimes : gmap nat SessionRuntime;
}.

Definition MAX_CONNECTION_ID_ATTEMPTS : nat := 16.

Definition with_bindings (rt : SessionRuntime) (b : SessionBindings) : SessionRuntime :=
  {| client := client rt; rt_fingerprint := rt_fingerprint rt; rt_session_id := rt_session_id rt;
     rt_generation := rt_generation rt; bindings := b; rt_cancelled := rt_cancelled rt;
     available := available rt; rt_version := rt_version rt |}.
Definition with_runtimes (r : ClientRegistry) (m : gmap nat SessionRuntime) : ClientRegistry :=
  {| config := config r; active := active r; by_name := by_name r;
     next_observability_generation := next_observability_generation r; runtimes := m |}.

(** * One session's runtime *)

(** The loop of [prepare_tcp] and [prepare_udp]: [ids i] is the identifier drawn at the
    [i]-th attempt, [entropy i] the draws of the store's [issue] in it. *)
Fixpoint prepare_loop (kind_of : Z → ChannelKind) (ids : nat → option Z)
    (entropy : nat → nat → option (list byte)) (now : Z) (destination : nat) (attempt n : nat)
    (p : gmap Z PendingChannel) (s : ChannelBindingStore)
    : res RegistryError (Z * list byte) * gmap Z PendingChannel * ChannelBindingStore :=
  match n with
  | O => (Err RegEntropyUnavailable, p, s)
  | S n =>
    match ids attempt with
    | None => (Err RegEntropyUnavailable, p, s)
    | Some id =>
      if id =? 0 then prepare_loop kind_of ids entropy now destination (S attempt) n p s else
      match p !! id with
      | Some _ => prepare_loop kind_of ids entropy now destination (S attempt) n p s
      | None =>
        let '(r, s) := issue s (entropy attempt) now (kind_of id) in
        match r with
        | Ok token =>
          (Ok (id, token),
           <[id := {| pc_channel_kind := kind_of id; pc_binding_token := token;
                      pc_destination := destination |}]> p, s)
        | Err e => (Err (Binding e), p, s)
        | Panic => (Panic, p, s)
        end
      end
    end
  end.

Definition prepare_tcp (rt : SessionRuntime) (tunnel_id : Z) (ids : nat → option Z)
    (entropy : nat → nat → option (list byte)) (now : Z) (destination : nat)
    : res RegistryError (Z * list byte) * SessionRuntime :=
  let b := bindings rt in
  let '(r, p, s) := prepare_loop (KTcp tunnel_id) ids entropy now destination 0
                      MAX_CONNECTION_ID_ATTEMPTS (pending_tcp b) (store b) in
  (r, with_bindings rt {| store := s; pending_tcp := p; pending_udp := pending_udp b |}).
Definition prepare_udp (rt : SessionRuntime) (tunnel_id : Z) (ids : nat → option Z)
    (entropy : nat → nat → option (list byte)) (now : Z) (destination : nat)
    : res RegistryError (Z * list byte) * SessionRuntime :=
  let b := bindings rt in
  let '(r, p, s) := prepare_loop (KUdp tunnel_id) ids entropy now destination 0
                      MAX_CONNECTION_ID_ATTEMPTS (pending_udp b) (store b) in
  (r, with_bindings rt {| store := s; pending_tcp := pending_tcp b; pending_udp := p |}).

Definition cancel_pending (rt : SessionRuntime) (connection_id : Z) : SessionRuntime :=
  let b := bindings rt in
  match pending_tcp b !! connection_id with
  | None => rt
  | Some p =>
    with_bindings rt
      {| store := (revoke (store b) (pc_channel_kind p) (pc_binding_token p)).2;
         pending_tcp := delete connection_id (pending_tcp b); pending_udp := pending_udp b |}
  end.
Definition cancel_pending_udp (rt : SessionRuntime) (channel_id : Z) : SessionRuntime :=
  let b := bindings rt in
  match pending_udp b !! channel_id with
  | None => rt
  | Some p =>
    with_bindings rt
      {| store := (revoke (store b) (pc_channel_kind p) (pc_binding_token p)).2;
         pending_tcp := pending_tcp b; pending_udp := delete channel_id (pending_udp b) |}
  end.

Definition requested_kind (request : DataChannelBind) : ChannelKind :=
  if dcb_kind request =? DataChannelKind.TCP
  then KTcp (dcb_tunnel_id request) (dcb_target_id request)
  else KUdp (dcb_tunnel_id request) (dcb_target_id request).

Definition redeem_if_present (rt : SessionRuntime) (request : DataChannelBind)
    (protocol_version : ProtocolVersion) (now : Z)
    : option (res RegistryError (ChannelBinding * nat)) * SessionRuntime :=
  let kind := requested_kind request in
  let b := bindings rt in
  if negb (recognizes (store b) (dcb_binding_token request)) then (None, rt) else
  if negb (bool_decide (protocol_version = rt_version rt))
  then (Some (Err (Binding Rejected)), rt) else
  let '(r, s) := redeem (store b) now (dcb_client_name request) (dcb_session_id request) kind
                   (dcb_binding_token request) in
  let rt := with_bindings rt {| store := s; pending_tcp := pending_tcp b;
                                pending_udp := pending_udp b |} in
  match r with
  | Err e => (Some (Err (Binding e)), rt)
  | Panic => (Some Panic, rt)
  | Ok binding =>
    if dcb_kind request =? DataChannelKind.TCP then
      match pending_tcp b !! dcb_target_id request with
      | None => (Some (Err (Binding Rejected)), rt)
      | Some p =>
        let rt := with_bindings rt
          {| store := s; pending_tcp := delete (dcb_target_id request) (pending_tcp b);
             pending_udp := pending_udp b |} in
        if negb (bool_decide (pc_channel_kind p = kind))
        then (Some (Err (Binding Rejected)), rt)
        else (Some (Ok (binding, pc_destination p)), rt)
      end
    else
      match pending_udp b !! dcb_target_id request with
      | None => (Some (Err (Binding Rejected)), rt)
      | Some p =>
        let rt := with_bindings rt
          {| store := s; pending_tcp := pending_tcp b;
             pending_udp := delete (dcb_target_id request) (pending_udp b) |} in
        if negb (bool_decide (pc_channel_kind p = kind))
        then (Some (Err (Binding Rejected)), rt)
        else (Some (Ok (binding, pc_destination p)), rt)
      end
  end.

(** [SessionRuntime::cancel]: the pending channels are revoked in the map's own order. *)
Definition revoke_all (p : gmap Z PendingChannel) (s : ChannelBindingStore) : ChannelBindingStore :=
  map_fold (λ _ c s, (revoke s (pc_channel_kind c) (pc_binding_token c)).2) s p.
Definition cancel (rt : SessionRuntime) : SessionRuntime :=
  let b := bindings rt in
  {| client := client rt; rt_fingerprint := rt_fingerprint rt; rt_session_id := rt_session_id rt;
     rt_generation := rt_generation rt;
     bindings := {| store := revoke_all (pending_udp b) (revoke_all (pending_tcp b) (store b));
                    pending_tcp := ∅; pending_udp := ∅ |};
     rt_cancelled := true; available := false; rt_version := rt_version rt |}.

(** * The registry *)

Definition ClientRegistry_new (c : RegistryConfig) : res RegistryError ClientRegistry :=
  if (max_clients c =? 0) || (max_tunnels_per_client c =? 0) || (binding_capacity c =? 0)
     || (binding_ttl c =? 0)
  then Err RegConfiguration
  else Ok {| config := c; active := ∅; by_name := ∅; next_observability_generation := 0;
             runtimes := ∅ |}.

(** [AuthenticatedClientIdentity::from_server_authentication], up to its value. *)
Definition observability_identity (name : list byte) (generation : Z) : bool :=
  negb (bool_decide (name = [])) && (blen name <=? MAX_EVENT_LABEL_BYTES)
  && negb (generation =? 0).

(** [claim_with_outbound]; [rid] names the runtime allocated by [Arc::new]. *)
Definition claim (r : ClientRegistry) (identity : AuthenticatedClient) (version : ProtocolVersion)
    (now : Z) (rid : nat) : res RegistryError ClientRegistry :=
  binding_store ← map_err Binding
    (ChannelBindingStore_new (ac_name identity) (ac_session_id identity)
       (binding_capacity (config r)) (binding_ttl (config r)) now);
  if bool_decide (is_Some (active r !! ac_fingerprint identity))
     || bool_decide (is_Some (by_name r !! ac_name identity))
  then Err AlreadyConnected else
  if max_clients (config r) <=? Z.of_nat (size (active r)) then Err RegCapacityReached else
  generation ← ok_or (checked_add u64_max (next_observability_generation r) 1) GenerationExhausted;
  if negb (observability_identity (ac_name identity) generation) then Err RegConfiguration else
  let runtime :=
    {| client := ac_name identity; rt_fingerprint := ac_fingerprint identity;
       rt_session_id := ac_session_id identity; rt_generation := generation;
       bindings := {| store := binding_store; pending_tcp := ∅; pending_udp := ∅ |};
       rt_cancelled := false; available := true; rt_version := version |} in
  Ok {| config := config r;
        active := <[ac_fingerprint identity :=
                      {| as_name := ac_name identity; as_session_id := ac_session_id identity |}]>
                    (active r);
        by_name := <[ac_name identity := rid]> (by_name r);
        next_observability_generation := generation;
        runtimes := <[rid := runtime]> (runtimes r) |}.

Definition release (r : ClientRegistry) (identity : AuthenticatedClient) : ClientRegistry :=
  let owns_entry :=
    match active r !! ac_fingerprint identity with
    | Some a => bool_decide (as_name a = ac_name identity)
                && bool_decide (as_session_id a = ac_session_id identity)
    | None => false
    end in
  if owns_entry then
    {| config := config r; active := delete (ac_fingerprint identity) (active r);
       by_name := delete (ac_name identity) (by_name r);
       next_observability_generation := next_observability_generation r;
       runtimes := runtimes r |}
  else r.

(** The runtime registered under a name. *)
Definition runtime_by_name (r : ClientRegistry) (name : list byte) : option (nat * SessionRuntime) :=
  rid ← by_name r !! name;
  rt ← runtimes r !! rid;
  Some (rid, rt).

Definition is_active_fingerprint (r : ClientRegistry) (fingerprint : list byte) : bool :=
  match a ← active r !! fingerprint; runtime_by_name r (as_name a) with
  | Some (_, rt) => available rt
  | None => false
  end.
Definition is_active_session (r : ClientRegistry) (identity : AuthenticatedClient) : bool :=
  match active r !! ac_fingerprint identity with
  | None => false
  | Some a =>
    bool_decide (as_name a = ac_name identity)
    && bool_decide (as_session_id a = ac_session_id identity)
    && match runtime_by_name r (as_name a) with Some (_, rt) => available rt | None => false end
  end.

Definition terminate_by_name (r : ClientRegistry) (name : list byte) : bool * ClientRegistry :=
  match runtime_by_name r name with
  | None => (false, r)
  | Some (rid, rt) =>
    (true, with_runtimes r
       (<[rid := {| client := client rt; rt_fingerprint := rt_fingerprint rt;
                    rt_session_id := rt_session_id rt; rt_generation := rt_generation rt;
                    bindings := bindings rt; rt_cancelled := true; available := available rt;
                    rt_version := rt_version rt |}]> (runtimes r)))
  end.

Definition authenticate_data_channel (r : ClientRegistry) (request : DataChannelBind)
    (protocol_version : ProtocolVersion) (now : Z)
    : res RegistryError (ChannelBinding * nat) * ClientRegistry :=
  match runtime_by_name r (dcb_client_name request) with
  | None => (Err (Binding Rejected), r)
  | Some (rid, rt) =>
    if negb (bool_decide (rt_session_id rt = dcb_session_id request)) then (Err (Binding Rejected), r)
    else if negb (available rt) then (Err (Binding Rejected), r)
    else
      let '(o, rt) := redeem_if_present rt request protocol_version now in
      (match o with None => Err (Binding Rejected) | Some x => x end,
       with_runtimes r (<[rid := rt]> (runtimes r)))
  end.

(** * Tunnels *)

(** The tunnel side of a [ControlSessionGuard]: one listener per accepted tunnel. *)
Record Tunnels := {
  listeners : list Z;
  tunnel_ids : gmap Z Z;
  tunnel_names : gset (list byte);
}.

(** [str::trim().is_empty()]: only characters of the Unicode property White_Space. *)
Fixpoint all_whitespace (s : list byte) : bool :=
  match s with
  | [] => true
  | a :: s =>
    if byte_in 9 13 a || byte_in 32 32 a then all_whitespace s else
    match s with
    | [] => false
    | b :: s =>
      if byte_in 194 194 a && (byte_in 133 133 b || byte_in 160 160 b) then all_whitespace s else
      match s with
      | [] => false
      | c :: s =>
        ((byte_in 225 225 a && byte_in 154 154 b && byte_in 128 128 c)
         || (byte_in 226 226 a && byte_in 128 128 b
             && (byte_in 128 138 c || byte_in 168 169 c || byte_in 175 175 c))
         || (byte_in 226 226 a && byte_in 129 129 b && byte_in 159 159 c)
         || (byte_in 227 227 a && byte_in 128 128 b && byte_in 128 128 c))
        && all_whitespace s
      end
    end
  end.

(** The code a rejection is reported with. *)
Definition rejection_code (version : ProtocolVersion) (e : RegistryError) : Z :=
  let managed := Version.supports_managed_configuration version in
  match e with
  | RegIo AddrInUse =>
    if managed then ProtocolErrorCode.TUNNEL_PORT_IN_USE else ProtocolErrorCode.TUNNEL_REJECTED
  | RegIo PermissionDenied =>
    if managed then ProtocolErrorCode.TUNNEL_PERMISSION_DENIED
    else ProtocolErrorCode.TUNNEL_REJECTED
  | UdpBindAddressRequired => ProtocolErrorCode.UDP_BIND_ADDRESS_REQUIRED
  | _ => ProtocolErrorCode.TUNNEL_REJECTED
  end.

(** The loop of [register_tunnels]; [bind] is the error [bind_listener] gives for a tunnel,
    if any. *)
Fixpoint register_loop (max_tunnels : Z) (version : ProtocolVersion)
    (bind : TunnelRegistration → option RegistryError) (t : Tunnels)
    (tunnels : list TunnelRegistration) : list TunnelResult * Tunnels :=
  match tunnels with
  | [] => ([], t)
  | tunnel :: tunnels =>
    let binding :=
      if (max_tunnels <=? blen (listeners t)) || (tr_tunnel_id tunnel =? 0)
         || (tr_remote_port tunnel =? 0) || all_whitespace (tr_name tunnel)
         || bool_decide (is_Some (tunnel_ids t !! tr_tunnel_id tunnel))
         || bool_decide (tr_name tunnel ∈ tunnel_names t)
      then Some InvalidTunnelRegistration else bind tunnel in
    let '(accepted, error, t) :=
      match binding with
      | None =>
        (true, None,
         {| listeners := listeners t ++ [tr_tunnel_id tunnel];
            tunnel_ids := <[tr_tunnel_id tunnel := tr_protocol tunnel]> (tunnel_ids t);
            tunnel_names := {[tr_name tunnel]} ∪ tunnel_names t |})
      | Some e => (false, Some (rejection_code version e), t)
      end in
    let '(results, t) := register_loop max_tunnels version bind t tunnels in
    ({| tres_tunnel_id := tr_tunnel_id tunnel; tres_accepted := accepted;
        tres_error := error |} :: results, t)
  end.

Definition register_tunnels (r : ClientRegistry) (version : ProtocolVersion)
    (bind : TunnelRegistration → option RegistryError) (t : Tunnels) (request : RegisterTunnels)
    : res RegistryError TunnelResults * Tunnels :=
  let '(results, t) := register_loop (max_tunnels_per_client (config r)) version bind t
                         (rt_tunnels request) in
  (results ← expect (res_ok (bounded_try_from MAX_TUNNELS results));
   Ok {| tr_results := results |}, t).

(** [issue_data_channel_binding]: the check before the runtime's [issue]. *)
Definition issue_data_channel_binding (t : Tunnels) (rt : SessionRuntime)
    (entropy : nat → option (list byte)) (now : Z) (kind : ChannelKind)
    : res RegistryError (list byte) * SessionRuntime :=
  let tunnel_id := match kind with KTcp i _ | KUdp i _ => i end in
  let required := match kind with KTcp _ _ => TunnelProtocol.TCP | KUdp _ _ => TunnelProtocol.UDP end in
  if negb (bool_decide (tunnel_ids t !! tunnel_id = Some required)) then (Err UnknownTunnel, rt) else
  let b := bindings rt in
  let '(r, s) := issue (store b) entropy now kind in
  (map_err Binding r,
   with_bindings rt {| store := s; pending_tcp := pending_tcp b; pending_udp := pending_udp b |}).

(** * Interleavings *)

(** The registry and the guards whose release has not run yet, each with its runtime. *)
Record Server := { registry : ClientRegistry; guards : list (AuthenticatedClient * nat) }.

(** Any change of a runtime that its own methods make. *)
Inductive runtime_step : SessionRuntime → SessionRuntime → Prop :=
| rs_prepare_tcp rt tunnel ids entropy now d :
  runtime_step rt (prepare_tcp rt tunnel ids entropy now d).2
| rs_prepare_udp rt tunnel ids entropy now d :
  runtime_step rt (prepare_udp rt tunnel ids entropy now d).2
| rs_cancel_pending rt id : runtime_step rt (cancel_pending rt id)
| rs_cancel_pending_udp rt id : runtime_step rt (cancel_pending_udp rt id)
| rs_issue rt t entropy now kind :
  runtime_step rt (issue_data_channel_binding t rt entropy now kind).2
| rs_cancel rt : runtime_step rt (cancel rt).

Inductive server_step : Server → Server → Prop :=
| ss_claim r gs identity version now rid r' :
  runtimes r !! rid = None → claim r identity version now rid = Ok r' →
  server_step {| registry := r; guards := gs |}
              {| registry := r'; guards := (identity, rid) :: gs |}
| ss_release r gs1 identity rid gs2 :
  server_step {| registry := r; guards := gs1 ++ (identity, rid) :: gs2 |}
              {| registry := release r identity; guards := gs1 ++ gs2 |}
| ss_runtime r gs rid rt rt' :
  runtimes r !! rid = Some rt → runtime_step rt rt' →
  server_step {| registry := r; guards := gs |}
              {| registry := with_runtimes r (<[rid := rt']> (runtimes r)); guards := gs |}
| ss_data_channel r gs request version now :
  server_step {| registry := r; guards := gs |}
              {| registry := (authenticate_data_channel r request version now).2; guards := gs |}
| ss_terminate r gs name :
  server_step {| registry := r; guards := gs |}
              {| registry := (terminate_by_name r name).2; guards := gs |}.
