(* ===== verification/RegistryFacts.v ===== *)
(** Invariants and properties of the session registry. *)

From S2P Require Import Prelude.
From S2P Require Import Messages.
From S2P Require Import Events.
From S2P Require Import Frame.
From S2P Require Import Handshake.
From S2P Require Import Bindings.
From S2P Require Import Registry.
From Stdlib Require Import Strings.Byte.
From stdpp Require Import prelude gmap list strings relations.

#[local] Open Scope Z_scope.

(** * Runtimes keep their identity *)

Definition same_identity (a b : SessionRuntime) : Prop :=
  client b = client a ∧ rt_fingerprint b = rt_fingerprint a ∧ rt_session_id b = rt_session_id a
  ∧ rt_version b = rt_version a ∧ rt_generation b = rt_generation a.

Lemma redeem_if_present_identity rt request version now :
  same_identity rt (redeem_if_present rt request version now).2
  ∧ available (redeem_if_present rt request version now).2 = available rt.
Proof.
  unfold redeem_if_present. case_match; [done|]. case_match; [done|].
  destruct (redeem _ _ _ _ _ _) as [[b|e|] s]; [|done..].
  case_match; (destruct (_ !! _); [|done]); by case_match.
Qed.

Lemma runtime_step_identity rt rt' :
  runtime_step rt rt' → same_identity rt rt' ∧ (available rt' = true → available rt = true).
Proof.
  intros []; unfold prepare_tcp, prepare_udp, cancel_pending, cancel_pending_udp,
    issue_data_channel_binding; try done.
  - by destruct (prepare_loop _ _ _ _ _ _ _ _ _) as [[? ?] ?].
  - by destruct (prepare_loop _ _ _ _ _ _ _ _ _) as [[? ?] ?].
  - by destruct (_ !! _).
  - by destruct (_ !! _).
  - case_match; [done|]. by destruct (issue _ _ _ _).
Qed.

(** * The invariant *)

Definition names (gs : list (AuthenticatedClient * nat)) : list (list byte) :=
  (λ g, ac_name g.1) <$> gs.
Definition fingerprints (gs : list (AuthenticatedClient * nat)) : list (list byte) :=
  (λ g, ac_fingerprint g.1) <$> gs.

(** A guard owns its two entries and the runtime behind them. *)
Definition guard_owns (r : ClientRegistry) (g : AuthenticatedClient * nat) : Prop :=
  active r !! ac_fingerprint g.1 =
    Some {| as_name := ac_name g.1; as_session_id := ac_session_id g.1 |}
  ∧ by_name r !! ac_name g.1 = Some g.2
  ∧ ∃ rt, runtimes r !! g.2 = Some rt ∧ client rt = ac_name g.1
      ∧ rt_fingerprint rt = ac_fingerprint g.1 ∧ rt_session_id rt = ac_session_id g.1.

Record registry_ok (s : Server) : Prop := {
  ok_owns : ∀ g, g ∈ guards s → guard_owns (registry s) g;
  ok_active : ∀ fp a, active (registry s) !! fp = Some a → fp ∈ fingerprints (guards s);
  ok_names : ∀ n rid, by_name (registry s) !! n = Some rid → n ∈ names (guards s);
  ok_nodup_names : NoDup (names (guards s));
  ok_nodup_fps : NoDup (fingerprints (guards s));
  ok_size : Z.of_nat (size (active (registry s))) ≤ max_clients (config (registry s));
  ok_generation : 0 ≤ next_observability_generation (registry s) ≤ u64_max;
  ok_labels : ∀ g, g ∈ guards s → 0 < blen (ac_name g.1) ≤ MAX_EVENT_LABEL_BYTES;
}.

(** What a successful claim has checked and done. *)
Lemma claim_Ok r identity version now rid r' :
  claim r identity version now rid = Ok r' →
  active r !! ac_fingerprint identity = None ∧ by_name r !! ac_name identity = None
  ∧ Z.of_nat (size (active r)) < max_clients (config r)
  ∧ next_observability_generation r' = next_observability_generation r + 1
  ∧ next_observability_generation r' ≤ u64_max
  ∧ 0 < blen (ac_name identity) ≤ MAX_EVENT_LABEL_BYTES
  ∧ config r' = config r
  ∧ active r' = <[ac_fingerprint identity :=
        {| as_name := ac_name identity; as_session_id := ac_session_id identity |}]> (active r)
  ∧ by_name r' = <[ac_name identity := rid]> (by_name r)
  ∧ ∃ rt, runtimes r' = <[rid := rt]> (runtimes r) ∧ client rt = ac_name identity
      ∧ rt_fingerprint rt = ac_fingerprint identity ∧ rt_session_id rt = ac_session_id identity
      ∧ available rt = true ∧ rt_version rt = version.
Proof.
  unfold claim. intros (s&_&Hc)%res_bind_Ok.
  repeat case_bool_decide; try done. simpl in Hc.
  destruct (Z.leb_spec (max_clients (config r)) (Z.of_nat (size (active r)))); [done|].
  apply res_bind_Ok in Hc as (g&[-> Hg]%ok_or_Ok%checked_add_Some&Hc).
  destruct (observability_identity _ _) eqn:Ho; [|done]. injection Hc as <-. simpl.
  unfold observability_identity in Ho. apply andb_true_iff in Ho as [[Ho1 Ho2%Z.leb_le]%andb_true_iff _].
  assert (0 < blen (ac_name identity)) by (destruct (ac_name identity); [done|]; rewrite blen_cons; blen_lia).
  split_and!; try done; try (by apply eq_None_not_Some); try lia. eexists; split; [done|]. done.
Qed.

Lemma guard_owns_runtimes r g m :
  guard_owns r g →
  (∀ rid rt, runtimes r !! rid = Some rt → ∃ rt', m !! rid = Some rt' ∧ same_identity rt rt') →
  guard_owns (with_runtimes r m) g.
Proof.
  intros (H1&H2&rt&H3&H4&H5&H6) Hm. split_and!; [done|done|].
  destruct (Hm _ _ H3) as (rt'&Hrt'&Hc&Hf&Hs&_). exists rt'. simpl. split_and!; congruence.
Qed.

(** Changing runtimes without their identity keeps the invariant. *)
Lemma registry_ok_runtimes r gs m :
  registry_ok {| registry := r; guards := gs |} →
  (∀ rid rt, runtimes r !! rid = Some rt → ∃ rt', m !! rid = Some rt' ∧ same_identity rt rt') →
  registry_ok {| registry := with_runtimes r m; guards := gs |}.
Proof.
  intros [H1 H2 H3 H4 H5 H6 H7 H8] Hm. split; simpl in *; try done.
  intros g Hg. apply guard_owns_runtimes; auto.
Qed.

Lemma same_identity_refl rt : same_identity rt rt.
Proof. done. Qed.

Lemma insert_same_identity r rid rt rt' :
  runtimes r !! rid = Some rt → same_identity rt rt' →
  ∀ rid1 rt1, runtimes r !! rid1 = Some rt1 →
    ∃ rt1', <[rid := rt']> (runtimes r) !! rid1 = Some rt1' ∧ same_identity rt1 rt1'.
Proof.
  intros Hrt Hs rid1 rt1 H1. destruct (decide (rid1 = rid)) as [->|Hne].
  - exists rt'. rewrite lookup_insert_eq. split; [done|]. congruence.
  - exists rt1. by rewrite lookup_insert_ne.
Qed.

Lemma runtime_by_name_Some r n rid rt :
  runtime_by_name r n = Some (rid, rt) ↔ by_name r !! n = Some rid ∧ runtimes r !! rid = Some rt.
Proof.
  unfold runtime_by_name. destruct (by_name r !! n) as [rid'|]; simpl; [|naive_solver].
  destruct (runtimes r !! rid') eqn:E; simpl; naive_solver.
Qed.

Lemma server_step_ok s s' : registry_ok s → server_step s s' → registry_ok s'.
Proof.
  intros Hok Hst. destruct Hst as [r gs identity version now rid r' Hfresh Hc|r gs1 identity rid gs2
    |r gs rid rt rt' Hrt Hs|r gs request version now|r gs n].
  - (* claim *)
    destruct (claim_Ok _ _ _ _ _ _ Hc) as
      (Hna&Hnb&Hsz&Hgen&Hgmax&Hlab&Hcfg&Ha&Hb&rt&Hr&Hcl&Hfp&Hsid&_).
    destruct Hok as [H1 H2 H3 H4 H5 H6 H7 H8]. simpl in *.
    assert (ac_fingerprint identity ∉ fingerprints gs) as Hnf.
    { intros (g&Hg&Hin)%list_elem_of_fmap. destruct (H1 g Hin) as (Hx&_). congruence. }
    assert (ac_name identity ∉ names gs) as Hnn.
    { intros (g&Hg&Hin)%list_elem_of_fmap. destruct (H1 g Hin) as (_&Hx&_). congruence. }
    split; simpl.
    + intros g [->|Hin]%elem_of_cons; unfold guard_owns; simpl; rewrite Ha, Hb, Hr.
      * rewrite !lookup_insert_eq. split_and!; [done|done|]. exists rt. by split_and!.
      * destruct (H1 g Hin) as (Hx&Hy&rt1&Hz&Hrest).
        assert (g.1.(ac_fingerprint) ≠ ac_fingerprint identity) by congruence.
        assert (g.1.(ac_name) ≠ ac_name identity) by congruence.
        assert (g.2 ≠ rid) by congruence. rewrite !lookup_insert_ne by done. eauto 10.
    + intros fp a. rewrite Ha, lookup_insert_Some. intros [[<- _]|[_ Hx]]; [left|right; eauto].
    + intros n rid1. rewrite Hb, lookup_insert_Some. intros [[<- _]|[_ Hx]]; [left|right; eauto].
    + by constructor.
    + by constructor.
    + rewrite Ha, Hcfg, map_size_insert_None by done. lia.
    + lia.
    + intros g [->|Hin]%elem_of_cons; auto.
  - (* release *)
    destruct Hok as [H1 H2 H3 H4 H5 H6 H7 H8]. simpl in *.
    destruct (H1 (identity, rid)) as (Hx&Hy&_); [apply elem_of_app; right; left|]. simpl in Hx, Hy.
    unfold release. rewrite Hx. simpl. rewrite !bool_decide_eq_true_2 by done. simpl.
    unfold names, fingerprints in *. rewrite fmap_app in *. simpl in *.
    apply NoDup_app in H4 as (N1&N2&N3). apply NoDup_cons in N3 as [N3 N4].
    apply NoDup_app in H5 as (F1&F2&F3). apply NoDup_cons in F3 as [F3 F4].
    assert (∀ g, g ∈ gs1 ++ gs2 → ac_fingerprint g.1 ≠ ac_fingerprint identity
      ∧ ac_name g.1 ≠ ac_name identity) as Hne.
    { intros g [Hg|Hg]%elem_of_app; split; intros Heq.
      - apply (F2 (ac_fingerprint g.1)); [by apply (list_elem_of_fmap_2 (λ g, ac_fingerprint g.1))|].
        rewrite Heq. left.
      - apply (N2 (ac_name g.1)); [by apply (list_elem_of_fmap_2 (λ g, ac_name g.1))|].
        rewrite Heq. left.
      - apply F3. rewrite <- Heq. by apply (list_elem_of_fmap_2 (λ g, ac_fingerprint g.1)).
      - apply N3. rewrite <- Heq. by apply (list_elem_of_fmap_2 (λ g, ac_name g.1)). }
    split; simpl.
    + intros g Hg. destruct (Hne g Hg) as [Hf Hn].
      destruct (H1 g) as (Ha&Hb&Hc); [rewrite elem_of_app, elem_of_cons; apply elem_of_app in Hg; tauto|].
      unfold guard_owns. simpl. rewrite !lookup_delete_ne by done. done.
    + intros fp a [Hf Ha]%lookup_delete_Some. apply H2 in Ha.
      unfold fingerprints. rewrite fmap_app. rewrite elem_of_app, elem_of_cons in Ha.
      rewrite elem_of_app. naive_solver.
    + intros n rid1 [Hf Ha]%lookup_delete_Some. apply H3 in Ha.
      unfold names. rewrite fmap_app. rewrite elem_of_app, elem_of_cons in Ha.
      rewrite elem_of_app. naive_solver.
    + unfold names. rewrite fmap_app. apply NoDup_app. split_and!; [done| |done].
      intros x Hx1 Hx2. apply (N2 x Hx1). by right.
    + unfold fingerprints. rewrite fmap_app. apply NoDup_app. split_and!; [done| |done].
      intros x Hx1 Hx2. apply (F2 x Hx1). by right.
    + pose proof (size_delete_le (ac_fingerprint identity) (active r)). lia.
    + done.
    + intros g Hg. apply H8. rewrite elem_of_app, elem_of_cons. apply elem_of_app in Hg. tauto.
  - (* a method of a runtime *)
    apply registry_ok_runtimes; [done|]. apply insert_same_identity with rt; [done|].
    by apply runtime_step_identity.
  - (* a data channel *)
    unfold authenticate_data_channel.
    destruct (runtime_by_name _ _) as [[rid rt]|] eqn:Hrt; [|done].
    apply runtime_by_name_Some in Hrt as [_ Hrt].
    case_match; [done|]. case_match; [done|].
    pose proof (proj1 (redeem_if_present_identity rt request version now)) as Hid.
    destruct (redeem_if_present rt request version now) as [o rt'].
    apply registry_ok_runtimes; [done|]. by apply insert_same_identity with rt.
  - (* termination *)
    unfold terminate_by_name. destruct (runtime_by_name _ _) as [[rid rt]|] eqn:Hrt; [|done].
    apply runtime_by_name_Some in Hrt as [_ Hrt].
    apply registry_ok_runtimes; [done|]. by apply insert_same_identity with rt.
Qed.

Definition server_reachable (c : RegistryConfig) (s : Server) : Prop :=
  ∃ r, ClientRegistry_new c = Ok r ∧ 0 ≤ max_clients c
    ∧ rtc server_step {| registry := r; guards := [] |} s.

Lemma server_reachable_ok c s : server_reachable c s → registry_ok s.
Proof.
  intros (r&Hr&Hc&Hs). unfold ClientRegistry_new in Hr. case_match; [done|]. injection Hr as <-.
  assert (registry_ok {| registry := {| config := c; active := ∅; by_name := ∅;
    next_observability_generation := 0; runtimes := ∅ |}; guards := [] |}) as H0.
  { split; simpl; [by intros ? ?%elem_of_nil|by intros ? ? ?%lookup_empty_Some
      |by intros ? ? ?%lookup_empty_Some|constructor|constructor|by rewrite map_size_empty|done
      |by intros ? ?%elem_of_nil]. }
  revert H0. induction Hs as [|x y z Hxy _ IH]; [done|]. intros Hx.
  apply IH. by eapply server_step_ok.
Qed.

(** * Data channels *)

(** What a redeemed channel has been checked against. *)
Lemma redeem_if_present_Ok rt request version now binding dest rt' :
  redeem_if_present rt request version now = (Some (Ok (binding, dest)), rt') →
  version = rt_version rt
  ∧ binding = {| cb_client_id := client_id (store (bindings rt));
                 cb_session_id := session_id (store (bindings rt));
                 cb_channel_kind := requested_kind request |}
  ∧ (∃ e, pending (store (bindings rt)) !! dcb_binding_token request = Some e
       ∧ now < pb_expires_at e ∧ pb_channel_kind e = requested_kind request)
  ∧ dcb_client_name request = client_id (store (bindings rt))
  ∧ dcb_session_id request = session_id (store (bindings rt))
  ∧ (∃ p, (if dcb_kind request =? DataChannelKind.TCP then pending_tcp (bindings rt)
           else pending_udp (bindings rt)) !! dcb_target_id request = Some p
       ∧ pc_channel_kind p = requested_kind request ∧ pc_destination p = dest)
  ∧ recognizes (store (bindings rt')) (dcb_binding_token request) = false.
Proof.
  unfold redeem_if_present. destruct (recognizes _ _) eqn:Hrec; [|done]. simpl.
  case_bool_decide as Hv; [|done]. simpl.
  destruct (redeem _ _ _ _ _ _) as [r s] eqn:Hr.
  destruct (redeem_spec _ _ _ _ _ _ _ _ Hr) as (Hs&Hok&_).
  destruct r as [b|e|]; [|done..]. destruct (proj1 (Hok b) eq_refl) as (e&Hlen&He&Hexp&Hc&Hse&Hk&->).
  assert (recognizes s (dcb_binding_token request) = false) as Hgone.
  { rewrite Hs. unfold recognizes, token_array. rewrite !bool_decide_eq_true_2 by done. simpl.
    rewrite lookup_delete_eq. by apply bool_decide_eq_false_2; intros [? ?]. }
  destruct (dcb_kind request =? DataChannelKind.TCP);
    (destruct (_ !! dcb_target_id request) as [p|] eqn:Hp; [|done]);
    (destruct (bool_decide (pc_channel_kind p = _)) eqn:Hbd; simpl; [|done]);
    apply bool_decide_eq_true in Hbd; intros [= <- <- <-]; simpl; split_and!; try done; eauto.
Qed.

(** * Properties *)

(** C5: under every interleaving of claims, releases, session activity, data channels and
    terminations, the two indexes of the registry stay exact: every unreleased session
    owns its fingerprint entry and its name entry and the runtime behind them, nothing else
    is registered, no two sessions share a name or a fingerprint, and there are never more
    sessions than the configured maximum. *)
Theorem registry_invariant c s :
  server_reachable c s →
  (∀ g, g ∈ guards s → guard_owns (registry s) g)
  ∧ (∀ fp a, active (registry s) !! fp = Some a → fp ∈ fingerprints (guards s))
  ∧ (∀ n rid, by_name (registry s) !! n = Some rid → n ∈ names (guards s))
  ∧ NoDup (names (guards s)) ∧ NoDup (fingerprints (guards s))
  ∧ Z.of_nat (size (active (registry s))) ≤ max_clients (config (registry s)).
Proof. intros []%server_reachable_ok. by split_and!. Qed.

(** Releasing a session removes exactly its own two entries, so a release that comes
    late can never disconnect another session; a session of the same client that was
    replaced releases nothing; and releasing one again changes nothing. *)
Theorem release_only_own c r gs1 identity rid gs2 :
  server_reachable c {| registry := r; guards := gs1 ++ (identity, rid) :: gs2 |} →
  active (release r identity) = delete (ac_fingerprint identity) (active r)
  ∧ by_name (release r identity) = delete (ac_name identity) (by_name r)
  ∧ runtimes (release r identity) = runtimes r
  ∧ (∀ g, g ∈ gs1 ++ gs2 → guard_owns (release r identity) g)
  ∧ (∀ stale, ac_fingerprint stale = ac_fingerprint identity →
       ac_session_id stale ≠ ac_session_id identity → release r stale = r)
  ∧ release (release r identity) identity = release r identity.
Proof.
  intros Hok%server_reachable_ok.
  pose proof (server_step_ok _ _ Hok (ss_release r gs1 identity rid gs2)) as [Hg _ _ _ _ _ _ _].
  destruct (ok_owns _ Hok (identity, rid)) as (Hx&Hy&_); [apply elem_of_app; right; left|].
  simpl in Hx, Hy. unfold release in *. rewrite Hx in *. simpl in *.
  rewrite !bool_decide_eq_true_2 in * by done. simpl in *.
  split_and!; [done..|exact Hg| |by rewrite lookup_delete_eq].
  intros stale -> Hne. rewrite Hx. simpl. rewrite (bool_decide_eq_false_2 (_ = ac_session_id stale)) by done.
  by rewrite andb_false_r.
Qed.

(** C6: a data channel is admitted only into a registered, available session: the request
    names its client and session, speaks its protocol version and presents an unexpired
    token issued for exactly the requested channel, it is delivered where that pending
    channel waits, and the token is consumed. *)
Theorem data_channel_authenticated r request version now binding dest r' :
  authenticate_data_channel r request version now = (Ok (binding, dest), r') →
  ∃ rid rt, by_name r !! dcb_client_name request = Some rid ∧ runtimes r !! rid = Some rt
    ∧ available rt = true ∧ rt_session_id rt = dcb_session_id request ∧ rt_version rt = version
    ∧ binding = {| cb_client_id := dcb_client_name request;
                   cb_session_id := dcb_session_id request;
                   cb_channel_kind := requested_kind request |}
    ∧ (∃ e, pending (store (bindings rt)) !! dcb_binding_token request = Some e
         ∧ now < pb_expires_at e ∧ pb_channel_kind e = requested_kind request)
    ∧ (∃ p, (if dcb_kind request =? DataChannelKind.TCP then pending_tcp (bindings rt)
             else pending_udp (bindings rt)) !! dcb_target_id request = Some p
         ∧ pc_channel_kind p = requested_kind request ∧ pc_destination p = dest)
    ∧ (authenticate_data_channel r' request version now).1 = Err (Binding Rejected).
Proof.
  unfold authenticate_data_channel at 1.
  destruct (runtime_by_name _ _) as [[rid rt]|] eqn:Hrt; [|done].
  apply runtime_by_name_Some in Hrt as [Hn Hrt].
  case_bool_decide as Hsid; [|done]. destruct (available rt) eqn:Hav; [|done]. simpl.
  pose proof (redeem_if_present_identity rt request version now) as [(_&_&Hs'&_) Hav'].
  destruct (redeem_if_present rt request version now) as [o rt'] eqn:Hr. simpl in *.
  destruct o as [[[b d]|e|]|]; [|done..]. intros [= <- <- <-].
  destruct (redeem_if_present_Ok _ _ _ _ _ _ _ Hr) as (Hv&Hb&He&Hcl&Hse&Hp&Hgone).
  exists rid, rt. split_and!; try done; [by rewrite Hb, <- Hcl, <- Hse|].
  unfold authenticate_data_channel.
  rewrite (proj2 (runtime_by_name_Some _ _ rid rt')); simpl.
  2:{ simpl. by rewrite lookup_insert_eq. }
  rewrite bool_decide_eq_true_2 by congruence. rewrite Hav', Hav. simpl.
  unfold redeem_if_present. by rewrite Hgone.
Qed.

(** * Tunnels *)

(** The tunnels a session holds: distinct nonzero identifiers, one listener each, distinct
    names, within the limit. *)
Definition tunnels_ok (max : Z) (t : Tunnels) : Prop :=
  NoDup (listeners t) ∧ 0 ∉ listeners t
  ∧ (∀ id, id ∈ listeners t ↔ is_Some (tunnel_ids t !! id))
  ∧ size (tunnel_names t) = length (listeners t)
  ∧ blen (listeners t) ≤ max.

Definition accepted_ids (results : list TunnelResult) : list Z :=
  tres_tunnel_id <$> List.filter tres_accepted results.

(** A result is either an acceptance without a code or a rejection with one. *)
Definition result_ok (version : ProtocolVersion) (r : TunnelResult) : Prop :=
  match tres_error r with
  | None => tres_accepted r = true
  | Some code => tres_accepted r = false
      ∧ (code = ProtocolErrorCode.TUNNEL_REJECTED
         ∨ code = ProtocolErrorCode.UDP_BIND_ADDRESS_REQUIRED
         ∨ Version.supports_managed_configuration version = true
           ∧ (code = ProtocolErrorCode.TUNNEL_PORT_IN_USE
              ∨ code = ProtocolErrorCode.TUNNEL_PERMISSION_DENIED))
  end.

Lemma rejection_code_ok version id e :
  result_ok version {| tres_tunnel_id := id; tres_accepted := false;
                       tres_error := Some (rejection_code version e) |}.
Proof.
  unfold result_ok, rejection_code. simpl. split; [done|].
  destruct e as [| | | | | |?|[]| |], (Version.supports_managed_configuration version); auto.
Qed.

Lemma register_loop_spec max version bind tunnels t :
  tunnels_ok max t →
  let '(results, t') := register_loop max version bind t tunnels in
  tres_tunnel_id <$> results = tr_tunnel_id <$> tunnels
  ∧ Forall (result_ok version) results
  ∧ listeners t' = listeners t ++ accepted_ids results
  ∧ tunnels_ok max t'.
Proof.
  revert t; induction tunnels as [|tn tunnels IH]; intros t Ht; simpl.
  { split_and!; [done|constructor|by rewrite app_nil_r|done]. }
  set (invalid := _ || _ || _ || _ || _ || _).
  destruct (if invalid then Some InvalidTunnelRegistration else bind tn) as [e|] eqn:Hb.
  - specialize (IH t Ht). destruct (register_loop max version bind t tunnels) as [results t'].
    destruct IH as (H1&H2&H3&H4). split_and!; [simpl; by f_equal| |done|done].
    constructor; [apply rejection_code_ok|done].
  - destruct invalid eqn:Hi; [done|]. unfold invalid in Hi.
    repeat (apply orb_false_iff in Hi as [Hi ?]).
    repeat match goal with
    | H : bool_decide _ = false |- _ => apply bool_decide_eq_false in H
    end.
    destruct Ht as (Hnd&Hz&Hdom&Hsz&Hmax).
    set (t1 := Build_Tunnels _ _ _) in |- *.
    assert (tr_tunnel_id tn ∉ listeners t) as Hfresh by by rewrite Hdom.
    assert (tunnels_ok max t1) as Ht1.
    { unfold tunnels_ok, t1; simpl. split_and!.
      - apply NoDup_app. split; [done|]. split; [|apply NoDup_singleton].
        intros x Hx ->%list_elem_of_singleton. done.
      - rewrite elem_of_app, list_elem_of_singleton. intros [?|Heq]; [done|]. lia.
      - intros id. rewrite elem_of_app, list_elem_of_singleton, Hdom, lookup_insert_is_Some.
        destruct (decide (tr_tunnel_id tn = id)); naive_solver.
      - rewrite size_union by set_solver. rewrite size_singleton, Hsz, length_app. simpl. lia.
      - rewrite blen_app. change (blen [tr_tunnel_id tn]) with 1. lia. }
    specialize (IH t1 Ht1). destruct (register_loop max version bind t1 tunnels) as [results t'].
    destruct IH as (H1'&H2'&H3'&H4'). split_and!; [simpl; by f_equal|by constructor| |done].
    rewrite H3'. unfold t1, accepted_ids. simpl. by rewrite <- app_assoc.
Qed.

(** Registering tunnels answers every tunnel of the request in order, accepting it with
    no code or rejecting it with one, where the specific port codes are sent only to peers
    whose version knows them; the accepted ones, and only they, get a listener; and a
    session's tunnels keep distinct nonzero identifiers and distinct names and stay within
    the configured limit, whatever the requests. *)
Theorem register_tunnels_correct r version bind t request :
  blen (rt_tunnels request) ≤ MAX_TUNNELS →
  tunnels_ok (max_tunnels_per_client (config r)) t →
  ∃ results t', register_tunnels r version bind t request = (Ok {| tr_results := results |}, t')
    ∧ tres_tunnel_id <$> results = tr_tunnel_id <$> rt_tunnels request
    ∧ Forall (result_ok version) results
    ∧ listeners t' = listeners t ++ accepted_ids results
    ∧ tunnels_ok (max_tunnels_per_client (config r)) t'.
Proof.
  intros Hb Ht. unfold register_tunnels.
  pose proof (register_loop_spec (max_tunnels_per_client (config r)) version bind
    (rt_tunnels request) t Ht) as Hl.
  destruct (register_loop _ _ _ _ _) as [results t']. destruct Hl as (H1&H2&H3&H4).
  exists results, t'. split_and!; try done.
  assert (blen results = blen (rt_tunnels request)) as Hlen.
  { apply (f_equal length) in H1. rewrite !length_fmap in H1. unfold blen. lia. }
  rewrite (proj2 (bounded_try_from_Ok MAX_TUNNELS results results)); [done|]. split; [done|lia].
Qed.

(** Once a session is marked unavailable no data channel is admitted into it any more,
    whatever is presented, and none of its pending channels is left waiting. *)
Theorem unavailable_admits_nothing r n rid rt request version now :
  by_name r !! n = Some rid → runtimes r !! rid = Some rt →
  dcb_client_name request = n →
  let r' := with_runtimes r (<[rid := Registry.cancel rt]> (runtimes r)) in
  (authenticate_data_channel r' request version now).1 = Err (Binding Rejected)
  ∧ pending_tcp (bindings (Registry.cancel rt)) = ∅ ∧ pending_udp (bindings (Registry.cancel rt)) = ∅
  ∧ rt_cancelled (Registry.cancel rt) = true.
Proof.
  intros Hn Hrt <-. simpl. split; [|done]. unfold authenticate_data_channel.
  rewrite (proj2 (runtime_by_name_Some _ _ rid (Registry.cancel rt))).
  2:{ split; [done|]. simpl. by rewrite lookup_insert_eq. }
  case_bool_decide; [|done]. done.
Qed.

(** * Witnesses *)

Definition demo_config : RegistryConfig :=
  {| max_clients := 2; max_tunnels_per_client := 2; binding_capacity := 4; binding_ttl := 50 |}.
Definition demo_registry : ClientRegistry :=
  {| config := demo_config; active := ∅; by_name := ∅; next_observability_generation := 0;
     runtimes := ∅ |}.
Definition demo_client : AuthenticatedClient :=
  {| ac_name := str "edge"; ac_fingerprint := str "f1"; ac_session_id := [x07] |}.
Definition demo_claimed : ClientRegistry :=
  match claim demo_registry demo_client Version.V0_6 100 0 with Ok r => r | _ => demo_registry end.
Definition demo_runtime : SessionRuntime :=
  match runtimes demo_claimed !! 0%nat with
  | Some rt => (prepare_tcp rt 3 (λ _, Some 9) (λ _ _, Some demo_token) 100 77).2
  | None => {| client := []; rt_fingerprint := []; rt_session_id := []; rt_generation := 0;
               bindings := {| store := new_store [] [] 0 0; pending_tcp := ∅; pending_udp := ∅ |};
               rt_cancelled := false; available := false; rt_version := Version.V0_6 |}
  end.
Definition demo_ready : ClientRegistry :=
  with_runtimes demo_claimed (<[0%nat := demo_runtime]> (runtimes demo_claimed)).
Definition demo_bind : DataChannelBind :=
  {| dcb_client_name := str "edge"; dcb_session_id := [x07]; dcb_kind := DataChannelKind.TCP;
     dcb_tunnel_id := 3; dcb_target_id := 9; dcb_binding_token := demo_token |}.

Lemma demo_reachable :
  server_reachable demo_config {| registry := demo_claimed; guards := [] ++ (demo_client, 0%nat) :: [] |}.
Proof.
  exists demo_registry. split; [reflexivity|]. split; [by vm_compute|].
  apply rtc_once. by apply (ss_claim demo_registry [] demo_client Version.V0_6 100 0%nat).
Qed.

Lemma registry_invariant_witness :
  guard_owns demo_claimed (demo_client, 0%nat).
Proof. apply (registry_invariant demo_config _ demo_reachable). simpl. left. Defined.

Lemma release_only_own_witness :
  active (release demo_claimed demo_client) = delete (str "f1") (active demo_claimed).
Proof.
  exact (proj1 (release_only_own demo_config demo_claimed [] demo_client 0%nat [] demo_reachable)).
Defined.

Lemma data_channel_authenticated_witness :
  let outcome := authenticate_data_channel demo_ready demo_bind Version.V0_6 120 in
  outcome.1 =
    Ok ({| cb_client_id := str "edge"; cb_session_id := [x07]; cb_channel_kind := KTcp 3 9 |}, 77%nat)
  ∧ (authenticate_data_channel outcome.2 demo_bind Version.V0_6 120).1 = Err (Binding Rejected).
Proof.
  intros outcome.
  assert (outcome.1 = Ok ({| cb_client_id := str "edge"; cb_session_id := [x07];
    cb_channel_kind := KTcp 3 9 |}, 77%nat)) as H1 by (vm_compute; reflexivity).
  split; [exact H1|].
  edestruct (data_channel_authenticated demo_ready demo_bind Version.V0_6 120
    {| cb_client_id := str "edge"; cb_session_id := [x07]; cb_channel_kind := KTcp 3 9 |} 77%nat
    outcome.2) as (rid&rt&_&_&_&_&_&_&_&_&H); [rewrite <- H1; apply surjective_pairing|]. exact H.
Defined.

Lemma register_tunnels_correct_witness :
  ∃ results t', register_tunnels demo_registry Version.V0_6 (λ _, None)
      {| listeners := []; tunnel_ids := ∅; tunnel_names := ∅ |}
      {| rt_tunnels := [{| tr_tunnel_id := 1; tr_name := str "web"; tr_protocol := 1;
                           tr_remote_port := 80 |}] |} = (Ok {| tr_results := results |}, t')
    ∧ tres_tunnel_id <$> results = [1].
Proof.
  destruct (register_tunnels_correct demo_registry Version.V0_6 (λ _, None)
    {| listeners := []; tunnel_ids := ∅; tunnel_names := ∅ |}
    {| rt_tunnels := [{| tr_tunnel_id := 1; tr_name := str "web"; tr_protocol := 1;
                         tr_remote_port := 80 |}] |}) as (results&t'&H&Hids&_).
  - by vm_compute.
  - split_and!; [constructor|by intros ?%elem_of_nil| |done|by vm_compute].
    intros id. split; [by intros ?%elem_of_nil|]. simpl. rewrite lookup_empty. by intros [? ?].
  - eauto.
Defined.

Lemma unavailable_admits_nothing_witness :
  (authenticate_data_channel
     (with_runtimes demo_ready (<[0%nat := Registry.cancel demo_runtime]> (runtimes demo_ready)))
     demo_bind Version.V0_6 120).1 = Err (Binding Rejected).
Proof.
  apply (unavailable_admits_nothing demo_ready (str "edge") 0%nat demo_runtime demo_bind
    Version.V0_6 120); reflexivity.
Defined.
