(* ===== verification/Projection.v ===== *)
(** The observability store ([rustgo-observability/src/store.rs]): the projection of the
    events onto clients and sessions, its snapshots, and the bounded queue between the
    components that publish events and the worker that applies them. *)

From S2P Require Import Prelude.
From S2P Require Import Ordered.
From S2P Require Import Messages.
From S2P Require Import Events.
From Stdlib Require Import Strings.Byte Strings.String.
From stdpp Require Import prelude gmap list sorting.

#[local] Open Scope Z_scope.

Definition EVENT_QUEUE_CAPACITY : Z := 1024.
Definition MAX_TERMINAL_SESSIONS : Z := 4096.

(** * State *)

Record ClientSnapshot := {
  cs_name : list byte;
  cs_generation : Z;
  cs_version : list byte;
  online : bool;
  authenticated_at : Z;
  disconnected_at : option Z;
  last_heartbeat_at : option Z;
  telemetry_received_at : option Z;
  telemetry_sequence : option Z;
  cs_metrics : option HostMetrics;
  cs_traffic : TrafficCounters;
  cs_tunnels : list (list byte);
  cs_exports : list (list byte);
  cs_forwards : list (list byte);
  reconnects : Z;
}.

Record SessionSnapshot := {
  sn_id : list byte;
  sn_client : list byte;
  sn_peer : option (list byte);
  sn_tunnel : option (list byte);
  sn_export : option (list byte);
  sn_kind : SessionKind;
  sn_path : SessionPath;
  sn_traffic : TrafficCounters;
  opened_at : Z;
  closed_at : option Z;
  terminal_reason : option (list byte);
}.

(** [BTreeSet<(u64, ShortSessionId)>]. *)
Definition Terminal : Type := list (Z * list byte).
Definition terminal_le : Z * list byte → Z * list byte → bool := pair_le bytes_le.
#[export] Instance terminal_ord : OrdLaws terminal_le.
Proof. apply pair_ord, bytes_ord. Qed.

Record Projection := {
  generated_at : Z;
  server_metrics : option HostMetrics;
  server_traffic : TrafficCounters;
  clients : gmap (list byte) ClientSnapshot;
  sessions : gmap (list byte) SessionSnapshot;
  terminal_sessions : Terminal;
}.
Definition Projection_default : Projection :=
  {| generated_at := 0; server_metrics := None; server_traffic := TrafficCounters_default;
     clients := ∅; sessions := ∅; terminal_sessions := [] |}.

(** Field updates. *)
Definition with_generated (p : Projection) (t : Z) : Projection :=
  {| generated_at := t; server_metrics := server_metrics p; server_traffic := server_traffic p;
     clients := clients p; sessions := sessions p; terminal_sessions := terminal_sessions p |}.
Definition with_server (p : Projection) (m : option HostMetrics) (c : TrafficCounters) : Projection :=
  {| generated_at := generated_at p; server_metrics := m; server_traffic := c;
     clients := clients p; sessions := sessions p; terminal_sessions := terminal_sessions p |}.
Definition with_clients (p : Projection) (m : gmap (list byte) ClientSnapshot) : Projection :=
  {| generated_at := generated_at p; server_metrics := server_metrics p;
     server_traffic := server_traffic p; clients := m; sessions := sessions p;
     terminal_sessions := terminal_sessions p |}.
Definition with_history (p : Projection) (m : gmap (list byte) SessionSnapshot) (t : Terminal) : Projection :=
  {| generated_at := generated_at p; server_metrics := server_metrics p;
     server_traffic := server_traffic p; clients := clients p; sessions := m;
     terminal_sessions := t |}.

Definition closed (s : SessionSnapshot) (t : Z) (reason : option (list byte)) : SessionSnapshot :=
  {| sn_id := sn_id s; sn_client := sn_client s; sn_peer := sn_peer s; sn_tunnel := sn_tunnel s;
     sn_export := sn_export s; sn_kind := sn_kind s; sn_path := sn_path s;
     sn_traffic := sn_traffic s; opened_at := opened_at s; closed_at := Some t;
     terminal_reason := reason |}.
Definition counted (s : SessionSnapshot) (c : TrafficCounters) : SessionSnapshot :=
  {| sn_id := sn_id s; sn_client := sn_client s; sn_peer := sn_peer s; sn_tunnel := sn_tunnel s;
     sn_export := sn_export s; sn_kind := sn_kind s; sn_path := sn_path s;
     sn_traffic := counters_add (sn_traffic s) c; opened_at := opened_at s;
     closed_at := closed_at s; terminal_reason := terminal_reason s |}.

(** The updates of a client's entry, by the event that makes them. *)
Definition disconnected (c : ClientSnapshot) (t : Z) : ClientSnapshot :=
  {| cs_name := cs_name c; cs_generation := cs_generation c; cs_version := cs_version c;
     online := false; authenticated_at := authenticated_at c; disconnected_at := Some t;
     last_heartbeat_at := last_heartbeat_at c; telemetry_received_at := telemetry_received_at c;
     telemetry_sequence := telemetry_sequence c; cs_metrics := cs_metrics c;
     cs_traffic := cs_traffic c; cs_tunnels := cs_tunnels c; cs_exports := cs_exports c;
     cs_forwards := cs_forwards c; reconnects := reconnects c |}.
Definition heard (c : ClientSnapshot) (t : Z) : ClientSnapshot :=
  {| cs_name := cs_name c; cs_generation := cs_generation c; cs_version := cs_version c;
     online := online c; authenticated_at := authenticated_at c;
     disconnected_at := disconnected_at c; last_heartbeat_at := Some t;
     telemetry_received_at := telemetry_received_at c;
     telemetry_sequence := telemetry_sequence c; cs_metrics := cs_metrics c;
     cs_traffic := cs_traffic c; cs_tunnels := cs_tunnels c; cs_exports := cs_exports c;
     cs_forwards := cs_forwards c; reconnects := reconnects c |}.
Definition measured (c : ClientSnapshot) (sequence t : Z) (m : HostMetrics) : ClientSnapshot :=
  {| cs_name := cs_name c; cs_generation := cs_generation c; cs_version := cs_version c;
     online := online c; authenticated_at := authenticated_at c;
     disconnected_at := disconnected_at c; last_heartbeat_at := last_heartbeat_at c;
     telemetry_received_at := Some t; telemetry_sequence := Some sequence; cs_metrics := Some m;
     cs_traffic := cs_traffic c; cs_tunnels := cs_tunnels c; cs_exports := cs_exports c;
     cs_forwards := cs_forwards c; reconnects := reconnects c |}.
Definition inventoried (c : ClientSnapshot) (tunnels exports forwards : list (list byte))
    : ClientSnapshot :=
  {| cs_name := cs_name c; cs_generation := cs_generation c; cs_version := cs_version c;
     online := online c; authenticated_at := authenticated_at c;
     disconnected_at := disconnected_at c; last_heartbeat_at := last_heartbeat_at c;
     telemetry_received_at := telemetry_received_at c;
     telemetry_sequence := telemetry_sequence c; cs_metrics := cs_metrics c;
     cs_traffic := cs_traffic c; cs_tunnels := tunnels; cs_exports := exports;
     cs_forwards := forwards; reconnects := reconnects c |}.
Definition client_counted (c : ClientSnapshot) (delta : TrafficCounters) : ClientSnapshot :=
  {| cs_name := cs_name c; cs_generation := cs_generation c; cs_version := cs_version c;
     online := online c; authenticated_at := authenticated_at c;
     disconnected_at := disconnected_at c; last_heartbeat_at := last_heartbeat_at c;
     telemetry_received_at := telemetry_received_at c;
     telemetry_sequence := telemetry_sequence c; cs_metrics := cs_metrics c;
     cs_traffic := counters_add (cs_traffic c) delta; cs_tunnels := cs_tunnels c;
     cs_exports := cs_exports c; cs_forwards := cs_forwards c; reconnects := reconnects c |}.

(** * Operations *)

Definition current_client (p : Projection) (client : AuthenticatedClientIdentity) : option ClientSnapshot :=
  current ← clients p !! aci_name client;
  if cs_generation current =? aci_generation client then Some current else None.
Definition online_client (p : Projection) (client : AuthenticatedClientIdentity) : option ClientSnapshot :=
  current ← current_client p client;
  if online current then Some current else None.
Definition is_current_client (p : Projection) (client : AuthenticatedClientIdentity) : bool :=
  match clients p !! aci_name client with
  | Some current => cs_generation current =? aci_generation client
  | None => false
  end.
Definition advance (p : Projection) (t : Z) : Projection := with_generated p (Z.max (generated_at p) t).

(** An update of the entry of a client through [current_client_mut] or [online_client_mut],
    followed by [advance_if]. *)
Definition update_client (found : option ClientSnapshot) (client : AuthenticatedClientIdentity)
    (f : ClientSnapshot → ClientSnapshot) (t : option Z) (p : Projection) : Projection :=
  match found with
  | Some c =>
    let p := with_clients p (<[aci_name client := f c]> (clients p)) in
    match t with Some t => advance p t | None => p end
  | None => p
  end.

(** The loop of [record_terminal]. *)
Fixpoint evict_terminal (terminal : Terminal) (m : gmap (list byte) SessionSnapshot)
    : Terminal * gmap (list byte) SessionSnapshot :=
  if MAX_TERMINAL_SESSIONS <? blen terminal then
    match terminal with
    | [] => (terminal, m)
    | (evicted_at, evicted_id) :: rest =>
      evict_terminal rest
        (match m !! evicted_id with
         | Some s => if bool_decide (closed_at s = Some evicted_at) then delete evicted_id m else m
         | None => m
         end)
    end
  else (terminal, m).
Definition record_terminal (p : Projection) (session_id : list byte) (t : Z) : Projection :=
  let '(terminal, m) := evict_terminal (bt_insert terminal_le (t, session_id) (terminal_sessions p)) (sessions p) in
  with_history p m terminal.

(** The values of a [BTreeMap], by key. *)
Definition in_order {A} (m : gmap (list byte) A) : list (list byte * A) :=
  merge_sort (le_rel (λ a b, bytes_le a.1 b.1)) (map_to_list m).

(** The sessions of a client that are still open. *)
Definition still_open (name : list byte) (s : SessionSnapshot) : bool :=
  bool_decide (sn_client s = name) && bool_decide (closed_at s = None).
Definition generation_replaced : list byte := str "generation_replaced"%string.
Definition terminalize (p : Projection) (name : list byte) (t : Z) : Projection :=
  let terminalized := (λ x, sn_id x.2) <$> List.filter (λ x, still_open name x.2) (in_order (sessions p)) in
  let p := with_history p
    ((λ s, if still_open name s then closed s t (Some generation_replaced) else s) <$> sessions p)
    (terminal_sessions p) in
  foldl (λ p id, record_terminal p id t) p terminalized.

Definition client_authenticated (p : Projection) (client : AuthenticatedClientIdentity)
    (version : list byte) (t : Z) : Projection :=
  let previous := clients p !! aci_name client in
  if match previous with Some c => aci_generation client <=? cs_generation c | None => false end
  then p else
  let p := with_clients p (delete (aci_name client) (clients p)) in
  let '(p, traffic, n) :=
    match previous with
    | Some previous =>
      (terminalize p (aci_name client) t, cs_traffic previous, saturating_add u64_max (reconnects previous) 1)
    | None => (p, TrafficCounters_default, 0)
    end in
  advance (with_clients p (<[aci_name client :=
    {| cs_name := aci_name client; cs_generation := aci_generation client; cs_version := version;
       online := true; authenticated_at := t; disconnected_at := None; last_heartbeat_at := None;
       telemetry_received_at := None; telemetry_sequence := None; cs_metrics := None;
       cs_traffic := traffic; cs_tunnels := []; cs_exports := []; cs_forwards := [];
       reconnects := n |}]> (clients p))) t.

Definition open_session (p : Projection) (client : AuthenticatedClientIdentity)
    (session_id : list byte) (kind : SessionKind) (path : SessionPath)
    (peer tunnel export : option (list byte)) (t : Z) : Projection :=
  match online_client p client with
  | None => p
  | Some _ =>
    let terminal :=
      match s ← sessions p !! session_id; closed_at s with
      | Some closed_unix_millis => bt_remove (closed_unix_millis, session_id) (terminal_sessions p)
      | None => terminal_sessions p
      end in
    advance (with_history p (<[session_id :=
      {| sn_id := session_id; sn_client := aci_name client; sn_peer := peer; sn_tunnel := tunnel;
         sn_export := export; sn_kind := kind; sn_path := path;
         sn_traffic := TrafficCounters_default; opened_at := t; closed_at := None;
         terminal_reason := None |}]> (sessions p)) terminal) t
  end.

Definition close_session (p : Projection) (client : AuthenticatedClientIdentity)
    (session_id : list byte) (expected_kind : SessionKind) (t : Z) (reason : option (list byte))
    : Projection :=
  if negb (is_current_client p client) then p else
  match sessions p !! session_id with
  | Some s =>
    if still_open (aci_name client) s && bool_decide (sn_kind s = expected_kind) then
      let p := with_history p (<[session_id := closed s t reason]> (sessions p)) (terminal_sessions p) in
      advance (record_terminal p session_id t) t
    else p
  | None => p
  end.

Definition add_counters (p : Projection) (client : AuthenticatedClientIdentity)
    (session_id : option (list byte)) (delta : TrafficCounters) : Projection :=
  match online_client p client with
  | None => p
  | Some c =>
    let p := with_clients p (<[aci_name client := client_counted c delta]> (clients p)) in
    let p := with_server p (server_metrics p) (counters_add (server_traffic p) delta) in
    match (id ← session_id; s ← sessions p !! id; Some (id, s)) with
    | Some (id, s) =>
      if still_open (aci_name client) s
      then with_history p (<[id := counted s delta]> (sessions p)) (terminal_sessions p) else p
    | None => p
    end
  end.

(** [Projection::apply]. *)
Definition Projection_apply (p : Projection) (event : ObservationEvent) : Projection :=
  match event with
  | ClientAuthenticated client version t => client_authenticated p client version t
  | ClientDisconnected client t =>
    update_client (current_client p client) client (λ c, disconnected c t) (Some t) p
  | Heartbeat client t => update_client (online_client p client) client (λ c, heard c t) (Some t) p
  | ClientTelemetryAccepted client sequence t metrics =>
    let accepted :=
      c ← online_client p client;
      if match telemetry_sequence c with Some current => current <? sequence | None => true end
      then Some c else None in
    update_client accepted client (λ c, measured c sequence t metrics) (Some t) p
  | TunnelInventory client names =>
    update_client (online_client p client) client (λ c, inventoried c names (cs_exports c) (cs_forwards c)) None p
  | ExportInventory client names =>
    update_client (online_client p client) client (λ c, inventoried c (cs_tunnels c) names (cs_forwards c)) None p
  | ForwardInventory client names =>
    update_client (online_client p client) client (λ c, inventoried c (cs_tunnels c) (cs_exports c) names) None p
  | TcpSessionOpened client session_id tunnel t =>
    open_session p client session_id KindTcp PRelayPath None tunnel None t
  | TcpSessionClosed client session_id t reason => close_session p client session_id KindTcp t reason
  | UdpSessionOpened client session_id tunnel t =>
    open_session p client session_id KindUdp PRelayPath None tunnel None t
  | UdpSessionClosed client session_id t reason => close_session p client session_id KindUdp t reason
  | P2pSessionOpened client session_id peer export path t =>
    open_session p client session_id KindP2p path (Some peer) None export t
  | P2pSessionClosed client session_id t reason => close_session p client session_id KindP2p t reason
  | ByteCounterDelta client session_id counters => add_counters p client session_id counters
  | ServerSample metrics =>
    with_server (with_generated p (Z.max (generated_at p) (sampled_unix_millis metrics)))
      (Some metrics) (server_traffic p)
  end.

(** * Snapshots *)

Record OverviewSnapshot := {
  ov_generated_at : Z;
  ov_metrics : option HostMetrics;
  ov_traffic : TrafficCounters;
  ov_online_clients : Z;
  ov_active_tcp : Z;
  ov_active_udp : Z;
  ov_active_p2p : Z;
  ov_clients : list ClientSnapshot;
  ov_sessions : list SessionSnapshot;
  ov_event_queue_depth : Z;
  ov_dropped_events : Z;
}.
Definition active_sessions (l : list SessionSnapshot) (kind : SessionKind) : Z :=
  blen (List.filter (λ s, bool_decide (sn_kind s = kind) && bool_decide (closed_at s = None)) l).
Definition Projection_snapshot (p : Projection) : OverviewSnapshot :=
  let cs := snd <$> in_order (clients p) in
  let ss := snd <$> in_order (sessions p) in
  {| ov_generated_at := generated_at p; ov_metrics := server_metrics p;
     ov_traffic := server_traffic p; ov_online_clients := blen (List.filter online cs);
     ov_active_tcp := active_sessions ss KindTcp; ov_active_udp := active_sessions ss KindUdp;
     ov_active_p2p := active_sessions ss KindP2p; ov_clients := cs; ov_sessions := ss;
     ov_event_queue_depth := 0; ov_dropped_events := 0 |}.

(** * The event queue *)

(** Where [ObservabilityWorker::run_until] is: in its loop, in the loop that empties the
    queue after the shutdown, or past its last look at the queue. *)
Inductive WorkerPhase := Running | Draining | Stopped.

(** The queue with its statistics ([pl_sinks] says that a sink is left, [pl_open] that the
    receiver is), and the tasks in the middle of a call: publishers that have raised the depth
    and not yet sent ([pl_sending]), whose event was refused and the depth is still to be
    lowered ([pl_refused]) or the drop to be counted ([pl_uncounted]), and the worker, with
    the event it has received, before and after it has lowered the depth. The last five fields
    record what has happened: the events accepted, applied, accepted before the worker took
    its last look at the queue, and dropped with the receiver, and the refusals. *)
Record Pipeline := {
  pl_queue : list ObservationEvent;
  pl_open : bool;
  pl_depth : Z;
  pl_dropped : Z;
  pl_projection : Projection;
  pl_sinks : bool;
  pl_sending : list ObservationEvent;
  pl_refused : Z;
  pl_uncounted : Z;
  pl_cancelled : bool;
  pl_worker : WorkerPhase;
  pl_received : option ObservationEvent;
  pl_applying : option ObservationEvent;
  pl_accepted : list ObservationEvent;
  pl_applied : list ObservationEvent;
  pl_seen : list ObservationEvent;
  pl_lost : list ObservationEvent;
  pl_rejections : Z;
}.
Definition Pipeline_new : Pipeline :=
  {| pl_queue := []; pl_open := true; pl_depth := 0; pl_dropped := 0;
     pl_projection := Projection_default; pl_sinks := true; pl_sending := []; pl_refused := 0;
     pl_uncounted := 0; pl_cancelled := false; pl_worker := Running; pl_received := None;
     pl_applying := None; pl_accepted := []; pl_applied := []; pl_seen := []; pl_lost := [];
     pl_rejections := 0 |}.

(** [try_publish], by its atomic operations. *)
Definition publish_begin (w : Pipeline) (e : ObservationEvent) : Pipeline :=
  {| pl_queue := pl_queue w; pl_open := pl_open w; pl_depth := pl_depth w + 1;
     pl_dropped := pl_dropped w; pl_projection := pl_projection w; pl_sinks := pl_sinks w;
     pl_sending := e :: pl_sending w; pl_refused := pl_refused w; pl_uncounted := pl_uncounted w;
     pl_cancelled := pl_cancelled w; pl_worker := pl_worker w; pl_received := pl_received w;
     pl_applying := pl_applying w; pl_accepted := pl_accepted w; pl_applied := pl_applied w;
     pl_seen := pl_seen w; pl_lost := pl_lost w; pl_rejections := pl_rejections w |}.
Inductive PublishError := QueueFull | QueueClosed.
(** [mpsc::Sender::try_send], into a queue of [EVENT_QUEUE_CAPACITY] places. *)
Definition try_send (w : Pipeline) (e : ObservationEvent) : res PublishError (list ObservationEvent) :=
  if negb (pl_open w) then Err QueueClosed
  else if EVENT_QUEUE_CAPACITY <=? blen (pl_queue w) then Err QueueFull
  else Ok (pl_queue w ++ [e]).
Definition publish_send (w : Pipeline) (e : ObservationEvent) (rest : list ObservationEvent) : Pipeline :=
  match try_send w e with
  | Ok queue =>
    {| pl_queue := queue; pl_open := pl_open w; pl_depth := pl_depth w; pl_dropped := pl_dropped w;
       pl_projection := pl_projection w; pl_sinks := pl_sinks w; pl_sending := rest;
       pl_refused := pl_refused w; pl_uncounted := pl_uncounted w; pl_cancelled := pl_cancelled w;
       pl_worker := pl_worker w; pl_received := pl_received w; pl_applying := pl_applying w;
       pl_accepted := pl_accepted w ++ [e]; pl_applied := pl_applied w; pl_seen := pl_seen w;
       pl_lost := pl_lost w; pl_rejections := pl_rejections w |}
  | _ =>
    {| pl_queue := pl_queue w; pl_open := pl_open w; pl_depth := pl_depth w;
       pl_dropped := pl_dropped w; pl_projection := pl_projection w; pl_sinks := pl_sinks w;
       pl_sending := rest; pl_refused := pl_refused w + 1; pl_uncounted := pl_uncounted w;
       pl_cancelled := pl_cancelled w; pl_worker := pl_worker w; pl_received := pl_received w;
       pl_applying := pl_applying w; pl_accepted := pl_accepted w; pl_applied := pl_applied w;
       pl_seen := pl_seen w; pl_lost := pl_lost w; pl_rejections := pl_rejections w + 1 |}
  end.
Definition publish_undo (w : Pipeline) : Pipeline :=
  {| pl_queue := pl_queue w; pl_open := pl_open w; pl_depth := pl_depth w - 1;
     pl_dropped := pl_dropped w; pl_projection := pl_projection w; pl_sinks := pl_sinks w;
     pl_sending := pl_sending w; pl_refused := pl_refused w - 1;
     pl_uncounted := pl_uncounted w + 1; pl_cancelled := pl_cancelled w;
     pl_worker := pl_worker w; pl_received := pl_received w; pl_applying := pl_applying w;
     pl_accepted := pl_accepted w; pl_applied := pl_applied w; pl_seen := pl_seen w;
     pl_lost := pl_lost w; pl_rejections := pl_rejections w |}.
Definition publish_drop (w : Pipeline) : Pipeline :=
  {| pl_queue := pl_queue w; pl_open := pl_open w; pl_depth := pl_depth w;
     pl_dropped := pl_dropped w + 1; pl_projection := pl_projection w; pl_sinks := pl_sinks w;
     pl_sending := pl_sending w; pl_refused := pl_refused w; pl_uncounted := pl_uncounted w - 1;
     pl_cancelled := pl_cancelled w; pl_worker := pl_worker w; pl_received := pl_received w;
     pl_applying := pl_applying w; pl_accepted := pl_accepted w; pl_applied := pl_applied w;
     pl_seen := pl_seen w; pl_lost := pl_lost w; pl_rejections := pl_rejections w |}.

(** The last [ObservabilitySink] is dropped, and the token is cancelled. *)
Definition sinks_gone (w : Pipeline) : Pipeline :=
  {| pl_queue := pl_queue w; pl_open := pl_open w; pl_depth := pl_depth w;
     pl_dropped := pl_dropped w; pl_projection := pl_projection w; pl_sinks := false;
     pl_sending := pl_sending w; pl_refused := pl_refused w; pl_uncounted := pl_uncounted w;
     pl_cancelled := pl_cancelled w; pl_worker := pl_worker w; pl_received := pl_received w;
     pl_applying := pl_applying w; pl_accepted := pl_accepted w; pl_applied := pl_applied w;
     pl_seen := pl_seen w; pl_lost := pl_lost w; pl_rejections := pl_rejections w |}.
Definition shutdown_cancelled (w : Pipeline) : Pipeline :=
  {| pl_queue := pl_queue w; pl_open := pl_open w; pl_depth := pl_depth w;
     pl_dropped := pl_dropped w; pl_projection := pl_projection w; pl_sinks := pl_sinks w;
     pl_sending := pl_sending w; pl_refused := pl_refused w; pl_uncounted := pl_uncounted w;
     pl_cancelled := true; pl_worker := pl_worker w; pl_received := pl_received w;
     pl_applying := pl_applying w; pl_accepted := pl_accepted w; pl_applied := pl_applied w;
     pl_seen := pl_seen w; pl_lost := pl_lost w; pl_rejections := pl_rejections w |}.

(** The worker: the branch of [shutdown.cancelled], the branch of [receiver.recv] and
    [try_recv], the two halves of [ObservabilityWorker::apply], the look at the queue that
    finds it empty and ends [run_until], and the receiver dropped by the return. *)
Definition worker_shutdown (w : Pipeline) : Pipeline :=
  {| pl_queue := pl_queue w; pl_open := pl_open w; pl_depth := pl_depth w;
     pl_dropped := pl_dropped w; pl_projection := pl_projection w; pl_sinks := pl_sinks w;
     pl_sending := pl_sending w; pl_refused := pl_refused w; pl_uncounted := pl_uncounted w;
     pl_cancelled := pl_cancelled w; pl_worker := Draining; pl_received := pl_received w;
     pl_applying := pl_applying w; pl_accepted := pl_accepted w; pl_applied := pl_applied w;
     pl_seen := pl_seen w; pl_lost := pl_lost w; pl_rejections := pl_rejections w |}.
Definition worker_receive (w : Pipeline) (e : ObservationEvent) (rest : list ObservationEvent) : Pipeline :=
  {| pl_queue := rest; pl_open := pl_open w; pl_depth := pl_depth w; pl_dropped := pl_dropped w;
     pl_projection := pl_projection w; pl_sinks := pl_sinks w; pl_sending := pl_sending w;
     pl_refused := pl_refused w; pl_uncounted := pl_uncounted w; pl_cancelled := pl_cancelled w;
     pl_worker := pl_worker w; pl_received := Some e; pl_applying := pl_applying w;
     pl_accepted := pl_accepted w; pl_applied := pl_applied w; pl_seen := pl_seen w;
     pl_lost := pl_lost w; pl_rejections := pl_rejections w |}.
Definition worker_count (w : Pipeline) (e : ObservationEvent) : Pipeline :=
  {| pl_queue := pl_queue w; pl_open := pl_open w; pl_depth := pl_depth w - 1;
     pl_dropped := pl_dropped w; pl_projection := pl_projection w; pl_sinks := pl_sinks w;
     pl_sending := pl_sending w; pl_refused := pl_refused w; pl_uncounted := pl_uncounted w;
     pl_cancelled := pl_cancelled w; pl_worker := pl_worker w; pl_received := None;
     pl_applying := Some e; pl_accepted := pl_accepted w; pl_applied := pl_applied w;
     pl_seen := pl_seen w; pl_lost := pl_lost w; pl_rejections := pl_rejections w |}.
Definition worker_apply (w : Pipeline) (e : ObservationEvent) : Pipeline :=
  {| pl_queue := pl_queue w; pl_open := pl_open w; pl_depth := pl_depth w;
     pl_dropped := pl_dropped w; pl_projection := Projection_apply (pl_projection w) e;
     pl_sinks := pl_sinks w; pl_sending := pl_sending w; pl_refused := pl_refused w;
     pl_uncounted := pl_uncounted w; pl_cancelled := pl_cancelled w; pl_worker := pl_worker w;
     pl_received := None; pl_applying := None; pl_accepted := pl_accepted w;
     pl_applied := pl_applied w ++ [e]; pl_seen := pl_seen w; pl_lost := pl_lost w;
     pl_rejections := pl_rejections w |}.
Definition worker_stop (w : Pipeline) : Pipeline :=
  {| pl_queue := pl_queue w; pl_open := pl_open w; pl_depth := pl_depth w;
     pl_dropped := pl_dropped w; pl_projection := pl_projection w; pl_sinks := pl_sinks w;
     pl_sending := pl_sending w; pl_refused := pl_refused w; pl_uncounted := pl_uncounted w;
     pl_cancelled := pl_cancelled w; pl_worker := Stopped; pl_received := pl_received w;
     pl_applying := pl_applying w; pl_accepted := pl_accepted w; pl_applied := pl_applied w;
     pl_seen := pl_accepted w; pl_lost := pl_lost w; pl_rejections := pl_rejections w |}.
Definition worker_close (w : Pipeline) : Pipeline :=
  {| pl_queue := []; pl_open := false; pl_depth := pl_depth w; pl_dropped := pl_dropped w;
     pl_projection := pl_projection w; pl_sinks := pl_sinks w; pl_sending := pl_sending w;
     pl_refused := pl_refused w; pl_uncounted := pl_uncounted w; pl_cancelled := pl_cancelled w;
     pl_worker := pl_worker w; pl_received := pl_received w; pl_applying := pl_applying w;
     pl_accepted := pl_accepted w; pl_applied := pl_applied w; pl_seen := pl_seen w;
     pl_lost := pl_lost w ++ pl_queue w; pl_rejections := pl_rejections w |}.

(** Between two events. *)
Definition at_rest (w : Pipeline) : Prop := pl_received w = None ∧ pl_applying w = None.

(** One atomic operation of a publisher or of the worker, or one of the environment: the
    token cancelled, and the last sink dropped while no publisher uses it. [recv] gives
    [None] only when the queue is empty and no sink is left, [try_recv] an error when it is
    empty. *)
Inductive pipeline_step (w : Pipeline) : Pipeline → Prop :=
| step_publish e : pl_sinks w = true → pipeline_step w (publish_begin w e)
| step_send e rest : pl_sending w ≡ₚ e :: rest → pipeline_step w (publish_send w e rest)
| step_undo : 0 < pl_refused w → pipeline_step w (publish_undo w)
| step_drop : 0 < pl_uncounted w → pipeline_step w (publish_drop w)
| step_sinks : pl_sending w = [] → pl_refused w = 0 → pl_uncounted w = 0 →
    pipeline_step w (sinks_gone w)
| step_cancel : pipeline_step w (shutdown_cancelled w)
| step_shutdown : pl_worker w = Running → at_rest w → pl_cancelled w = true →
    pipeline_step w (worker_shutdown w)
| step_receive e rest : pl_worker w ≠ Stopped → at_rest w → pl_queue w = e :: rest →
    pipeline_step w (worker_receive w e rest)
| step_count e : pl_received w = Some e → pipeline_step w (worker_count w e)
| step_apply e : pl_applying w = Some e → pipeline_step w (worker_apply w e)
| step_drained : pl_worker w = Draining → at_rest w → pl_queue w = [] →
    pipeline_step w (worker_stop w)
| step_disconnected : pl_worker w = Running → at_rest w → pl_queue w = [] → pl_sinks w = false →
    pipeline_step w (worker_stop w)
| step_close : pl_worker w = Stopped → pl_open w = true → pipeline_step w (worker_close w).

(** The worker's next operation: [select!] is biased, so the token is looked at first; with
    nothing to do the worker waits. *)
Definition worker_turn (w : Pipeline) : Pipeline :=
  match pl_applying w, pl_received w, pl_worker w with
  | Some e, _, _ => worker_apply w e
  | None, Some e, _ => worker_count w e
  | None, None, Running =>
    if pl_cancelled w then worker_shutdown w else
    match pl_queue w with
    | e :: rest => worker_receive w e rest
    | [] => if pl_sinks w then w else worker_stop w
    end
  | None, None, Draining =>
    match pl_queue w with
    | e :: rest => worker_receive w e rest
    | [] => worker_stop w
    end
  | None, None, Stopped => if pl_open w then worker_close w else w
  end.

(** [ObservabilityStore::snapshot]. *)
Definition store_snapshot (w : Pipeline) : OverviewSnapshot :=
  let s := Projection_snapshot (pl_projection w) in
  {| ov_generated_at := ov_generated_at s; ov_metrics := ov_metrics s; ov_traffic := ov_traffic s;
     ov_online_clients := ov_online_clients s; ov_active_tcp := ov_active_tcp s;
     ov_active_udp := ov_active_udp s; ov_active_p2p := ov_active_p2p s;
     ov_clients := ov_clients s; ov_sessions := ov_sessions s;
     ov_event_queue_depth := pl_depth w; ov_dropped_events := pl_dropped w |}.
