(* ===== verification/ProjectionFacts.v ===== *)
(** The observability projection keeps its books: the index of closed sessions is exact and
    bounded, the traffic of the server is the sum over its clients, and every event keeps it
    so. *)

From S2P Require Import Prelude.
From S2P Require Import Ordered.
From S2P Require Import Messages.
From S2P Require Import Events.
From S2P Require Import Projection.
From Stdlib Require Import Strings.Byte.
From stdpp Require Import prelude gmap list sorting.

#[local] Open Scope Z_scope.

Implicit Types (m : gmap (list byte) SessionSnapshot) (terminal : Terminal) (id name : list byte).

(** * The history of closed sessions *)

(** The index against the table; the sessions of [pend] are closed and still to be indexed. *)
Record history_ok m terminal (pend : list (list byte)) : Prop := {
  hi_id : ∀ id s, m !! id = Some s → sn_id s = id;
  hi_indexed : ∀ t id, (t, id) ∈ terminal → ∃ s, m !! id = Some s ∧ closed_at s = Some t;
  hi_closed : ∀ id s t, m !! id = Some s → closed_at s = Some t → (t, id) ∈ terminal ∨ id ∈ pend;
  hi_pend : ∀ t id, (t, id) ∈ terminal → id ∉ pend;
  hi_ascending : ascending terminal_le terminal;
}.

(** Eviction takes the sessions closed first off the index and out of the table, as many as
    are over the limit. *)
Lemma evict_terminal_ok m terminal pend :
  history_ok m terminal pend →
  let '(terminal', m') := evict_terminal terminal m in
  ∃ gone, terminal = gone ++ terminal' ∧ blen terminal' ≤ MAX_TERMINAL_SESSIONS
    ∧ (gone ≠ [] → blen terminal' = MAX_TERMINAL_SESSIONS)
    ∧ history_ok m' terminal' pend
    ∧ ∀ id s, m' !! id = Some s ↔ m !! id = Some s ∧ id ∉ gone.*2.
Proof.
  revert m. induction terminal as [|[at_ eid] rest IH]; intros m Hok; simpl.
  { exists []. split_and!; try done. intros id s. simpl. split; [|by intros [? _]].
    intros ?. split; [done|]. apply not_elem_of_nil. }
  rewrite blen_cons. destruct (Z.ltb_spec MAX_TERMINAL_SESSIONS (1 + blen rest)) as [Hfull|Hroom].
  2: { exists []. rewrite blen_cons. split_and!; try done. intros id s. simpl.
       split; [|by intros [? _]]. intros ?. split; [done|]. apply not_elem_of_nil. }
  destruct Hok as [Hid Hix Hcl Hpe Has].
  destruct (Hix at_ eid) as (s&Hs&Ht); [by left|]. rewrite Hs, bool_decide_eq_true_2 by done.
  assert (eid ∉ pend) as Hep by (eapply Hpe; by left).
  pose proof (ascending_cons _ _ _ Has) as (Has'&Hnin&_).
  assert (∀ t, (t, eid) ∉ rest) as Hno.
  { intros t Hin. destruct (Hix t eid) as (s'&Hs'&Ht'); [by right|]. congruence. }
  assert (history_ok (delete eid m) rest pend) as Hok'.
  { split; try done.
    - intros id s' [_ ?]%lookup_delete_Some. by apply Hid.
    - intros t id Hin. destruct (Hix t id) as (s'&Hs'&?); [by right|]. exists s'. split; [|done].
      rewrite lookup_delete_ne; [done|]. intros ->. by apply (Hno t).
    - intros id s' t [Hne Hs']%lookup_delete_Some Ht'. destruct (Hcl id s' t Hs' Ht') as [Hin|]; [|by right].
      left. apply elem_of_cons in Hin as [[= -> ->]|]; [done|done].
    - intros t id Hin. apply (Hpe t). by right. }
  specialize (IH _ Hok'). destruct (evict_terminal rest (delete eid m)) as [terminal' m'].
  destruct IH as (gone&->&Hlen&Hmax&Hh&Hm). exists ((at_, eid) :: gone). split_and!; try done.
  - intros _. destruct gone; [|by apply Hmax]. simpl in *. lia.
  - intros id s'. rewrite Hm, lookup_delete_Some, fmap_cons, not_elem_of_cons. simpl. naive_solver.
Qed.

(** One closed session enters the index. *)
Lemma record_terminal_ok p id t s pend :
  history_ok (sessions p) (terminal_sessions p) (id :: pend) → id ∉ pend →
  sessions p !! id = Some s → closed_at s = Some t →
  let p' := record_terminal p id t in
  ∃ gone, bt_insert terminal_le (t, id) (terminal_sessions p) = gone ++ terminal_sessions p'
    ∧ blen (terminal_sessions p') ≤ MAX_TERMINAL_SESSIONS
    ∧ (gone ≠ [] → blen (terminal_sessions p') = MAX_TERMINAL_SESSIONS)
    ∧ history_ok (sessions p') (terminal_sessions p') pend
    ∧ (∀ id s, sessions p' !! id = Some s ↔ sessions p !! id = Some s ∧ id ∉ gone.*2)
    ∧ clients p' = clients p ∧ server_traffic p' = server_traffic p ∧ generated_at p' = generated_at p.
Proof.
  intros [Hid Hix Hcl Hpe Has] Hn Hs Ht. unfold record_terminal.
  assert (history_ok (sessions p) (bt_insert terminal_le (t, id) (terminal_sessions p)) pend) as Hok.
  { split; try done.
    - intros t' id' [[= -> ->]|?]%elem_of_bt_insert; [by exists s|by apply Hix].
    - intros id' s' t' Hs' Ht'. rewrite elem_of_bt_insert.
      destruct (Hcl id' s' t' Hs' Ht') as [?|[->|?]%elem_of_cons]; [by left; right| |by right].
      left. left. congruence.
    - intros t' id' [[= -> ->]|Hin]%elem_of_bt_insert; [done|].
      apply Hpe in Hin. by apply not_elem_of_cons in Hin as [_ ?].
    - by apply (ascending_insert terminal_le). }
  pose proof (evict_terminal_ok _ _ _ Hok) as H.
  destruct (evict_terminal _ _) as [terminal' m']. destruct H as (gone&?&?&?&?&?). by exists gone.
Qed.

(** Many of them, one after the other. *)
Lemma record_all_ok ids p t :
  history_ok (sessions p) (terminal_sessions p) ids → NoDup ids →
  (∀ id, id ∈ ids → ∃ s, sessions p !! id = Some s ∧ closed_at s = Some t) →
  blen (terminal_sessions p) ≤ MAX_TERMINAL_SESSIONS →
  let p' := foldl (λ p id, record_terminal p id t) p ids in
  history_ok (sessions p') (terminal_sessions p') []
  ∧ blen (terminal_sessions p') ≤ MAX_TERMINAL_SESSIONS
  ∧ (∀ id s, sessions p' !! id = Some s → sessions p !! id = Some s)
  ∧ (∀ id s, sessions p !! id = Some s → closed_at s = None → sessions p' !! id = Some s)
  ∧ clients p' = clients p ∧ server_traffic p' = server_traffic p ∧ generated_at p' = generated_at p.
Proof.
  revert p. induction ids as [|id ids IH]; intros p Hok Hnd Hids Hlen; simpl; [by split_and!|].
  apply NoDup_cons in Hnd as [Hn Hnd]. destruct (Hids id) as (s&Hs&Ht); [by left|].
  destruct (record_terminal_ok p id t s ids Hok Hn Hs Ht) as (gone&Eg&Hl&_&Hok'&Hm&Ec&Est&Eg').
  set (p1 := record_terminal p id t) in *.
  assert (∀ id' s', sessions p !! id' = Some s' → id' ∈ gone.*2 → (id' = id ∨ id' ∉ ids) ∧ closed_at s' ≠ None) as Hgone.
  { intros id' s' Hs' ([t' i]&->&Hin)%list_elem_of_fmap. simpl in *.
    assert ((t', i) ∈ bt_insert terminal_le (t, id) (terminal_sessions p)) as Hb
      by (rewrite Eg; apply elem_of_app; by left).
    apply elem_of_bt_insert in Hb as [[= -> ->]|Hb]; [split; [by left|congruence]|].
    split; [right; apply (hi_pend _ _ _ Hok) in Hb; by apply not_elem_of_cons in Hb as [_ ?]|].
    destruct (hi_indexed _ _ _ Hok _ _ Hb) as (?&?&?). congruence. }
  destruct (IH p1 Hok' Hnd) as (H1&H2&H3&H4&H5&H6&H7); [|done|].
  { intros id' Hin. destruct (Hids id') as (s'&Hs'&Ht'); [by right|]. exists s'. split; [|done].
    apply Hm. split; [done|]. intros Hg. destruct (Hgone _ _ Hs' Hg) as [[->|?] _]; done. }
  split_and!; try done; try congruence.
  - intros id' s' Hs'. apply H3, Hm in Hs'. by destruct Hs'.
  - intros id' s' Hs' Hc. apply H4; [|done]. apply Hm. split; [done|].
    intros Hg. by destruct (Hgone _ _ Hs' Hg) as [_ ?].
Qed.

(** * The invariant *)

Definition counters_le (a b : TrafficCounters) : Prop :=
  received_bytes a ≤ received_bytes b ∧ sent_bytes a ≤ sent_bytes b.
Definition counters_ok (c : TrafficCounters) : Prop :=
  0 ≤ received_bytes c ≤ u64_max ∧ 0 ≤ sent_bytes c ≤ u64_max.

(** A total that has not been cut off is the sum over the clients. *)
Definition total_ok (f : TrafficCounters → Z) (p : Projection) : Prop :=
  f (server_traffic p) < u64_max → msum (λ c, f (cs_traffic c)) (clients p) = f (server_traffic p).

Record projection_ok (p : Projection) : Prop := {
  pj_history : history_ok (sessions p) (terminal_sessions p) [];
  pj_bound : blen (terminal_sessions p) ≤ MAX_TERMINAL_SESSIONS;
  pj_name : ∀ n c, clients p !! n = Some c → cs_name c = n ∧ counters_ok (cs_traffic c);
  pj_owner : ∀ id s, sessions p !! id = Some s →
    ∃ c, clients p !! sn_client s = Some c ∧ counters_le (sn_traffic s) (cs_traffic c);
  pj_session : ∀ id s, sessions p !! id = Some s → counters_ok (sn_traffic s);
  pj_server : counters_ok (server_traffic p);
  pj_received : total_ok received_bytes p;
  pj_sent : total_ok sent_bytes p;
}.

Definition event_ok (e : ObservationEvent) : Prop :=
  match e with ByteCounterDelta _ _ counters => counters_ok counters | _ => True end.

Lemma projection_default_ok : projection_ok Projection_default.
Proof.
  split; simpl; try done; try (by intros; rewrite lookup_empty in *).
  split; simpl; try (by intros; rewrite lookup_empty in *); [by intros ?? ?%elem_of_nil..|].
  apply ascending_nil.
Qed.

Lemma counters_le_refl c : counters_le c c.
Proof. split; lia. Qed.
Lemma counters_le_trans a b c : counters_le a b → counters_le b c → counters_le a c.
Proof. unfold counters_le. lia. Qed.
Lemma counters_add_ok a d : counters_ok a → counters_ok d → counters_ok (counters_add a d).
Proof. unfold counters_ok, counters_add, saturating_add. simpl. lia. Qed.
Lemma counters_add_le a b d : counters_le a b → counters_le (counters_add a d) (counters_add b d).
Proof. unfold counters_le, counters_add, saturating_add. simpl. lia. Qed.
Lemma counters_add_grows a d : counters_ok a → counters_ok d → counters_le a (counters_add a d).
Proof. unfold counters_ok, counters_le, counters_add, saturating_add. simpl. lia. Qed.

Lemma msum_update {A} (f : A → Z) (k : gmap (list byte) A) n x y :
  k !! n = Some x → msum f (<[n:=y]> k) = msum f k - f x + f y.
Proof.
  intros Hn. rewrite (msum_delete f k n x) by done. rewrite <- (insert_delete_eq k n y).
  rewrite msum_insert by apply lookup_delete_eq. lia.
Qed.

Lemma advance_ok p t : projection_ok p → projection_ok (advance p t).
Proof. by intros []. Qed.

(** A client's entry is replaced by one with the same name and at least its traffic, the
    server's traffic growing with it. *)
Lemma replace_client p n c c' d :
  projection_ok p → clients p !! n = Some c → cs_name c' = n → counters_ok d →
  cs_traffic c' = counters_add (cs_traffic c) d →
  projection_ok (with_server (with_clients p (<[n:=c']> (clients p))) (server_metrics p)
                   (counters_add (server_traffic p) d)).
Proof.
  intros [Hh Hb Hn Ho Hs Hsv Hr Hse] Hc Hname Hd Ht. destruct (Hn n c Hc) as [_ Hck].
  pose proof (counters_add_ok _ _ Hck Hd) as Hck'. rewrite <- Ht in Hck'.
  assert (∀ f, f = received_bytes ∨ f = sent_bytes → total_ok f p →
    f (counters_add (server_traffic p) d) < u64_max →
    msum (λ c, f (cs_traffic c)) (<[n:=c']> (clients p)) = f (counters_add (server_traffic p) d)) as Htot.
  { intros f Hf Hp Hlt. rewrite (msum_update _ _ _ c) by done. rewrite Ht.
    assert (0 ≤ f d ∧ f (counters_add (server_traffic p) d) = saturating_add u64_max (f (server_traffic p)) (f d)
      ∧ f (counters_add (cs_traffic c) d) = saturating_add u64_max (f (cs_traffic c)) (f d)) as (Hd0&E1&E2).
    { unfold counters_ok in Hd. destruct Hf as [->| ->]; simpl; lia. }
    rewrite E1 in *. unfold saturating_add in *. unfold total_ok in Hp. rewrite Hp by lia.
    assert (f (cs_traffic c) ≤ msum (λ c, f (cs_traffic c)) (clients p)) as Hle.
    { rewrite (msum_delete _ _ _ _ Hc). assert (0 ≤ msum (λ c, f (cs_traffic c)) (delete n (clients p))); [|lia].
      apply msum_nonneg_in. intros k x [_ Hx]%lookup_delete_Some. destruct (Hn _ _ Hx) as [_ Hx'].
      unfold counters_ok in Hx'. destruct Hf as [->| ->]; lia. }
    rewrite Hp in Hle by lia. lia. }
  split; simpl; try done.
  - intros k x [[<- <-]|[? ?]]%lookup_insert_Some; [done|by apply Hn].
  - intros id s Hid. destruct (Ho id s Hid) as (x&Hx&Hle). destruct (decide (n = sn_client s)) as [E|Hne].
    + rewrite <- E in *. rewrite lookup_insert_eq. exists c'. split; [done|].
      rewrite Hc in Hx. injection Hx as <-.
      rewrite Ht. eapply counters_le_trans; [exact Hle|]. by apply counters_add_grows.
    + rewrite lookup_insert_ne by done. by exists x.
  - by apply counters_add_ok.
  - intros Hlt. apply (Htot received_bytes); auto.
  - intros Hlt. apply (Htot sent_bytes); auto.
Qed.

Definition no_traffic : TrafficCounters := TrafficCounters_default.
Lemma counters_add_0 a : counters_ok a → counters_add a no_traffic = a.
Proof. unfold counters_ok, counters_add, saturating_add. destruct a; simpl. intros. f_equal; lia. Qed.

(** A client's entry is replaced by one that differs in neither. *)
Lemma replace_client_same p n c c' :
  projection_ok p → clients p !! n = Some c → cs_name c' = n → cs_traffic c' = cs_traffic c →
  projection_ok (with_clients p (<[n:=c']> (clients p))).
Proof.
  intros Hok Hc Hname Ht.
  pose proof (replace_client p n c c' no_traffic Hok Hc Hname ltac:(done)) as H.
  destruct (pj_name _ Hok _ _ Hc) as [_ Hck]. rewrite !counters_add_0 in H by (done || apply Hok).
  specialize (H Ht). by destruct p.
Qed.

(** A session's entry is replaced by an open one, or counts more. *)
Lemma replace_open p id s s' :
  projection_ok p → sessions p !! id = Some s → sn_id s' = id → closed_at s = None → closed_at s' = None →
  (∃ c, clients p !! sn_client s' = Some c ∧ counters_le (sn_traffic s') (cs_traffic c)) →
  counters_ok (sn_traffic s') →
  projection_ok (with_history p (<[id:=s']> (sessions p)) (terminal_sessions p)).
Proof.
  intros [[Hid Hix Hcl Hpe Has] Hb Hn Ho Hs Hsv Hr Hse] Hl Hi Hc Hc' Hown Hck.
  split; simpl; try done.
  - split; try done.
    + intros k x [[<- <-]|[? ?]]%lookup_insert_Some; [done|by apply Hid].
    + intros t k Hin. destruct (Hix t k Hin) as (x&Hx&Ht). exists x. split; [|done].
      rewrite lookup_insert_ne; [done|]. intros <-. congruence.
    + intros k x t [[<- <-]|[? ?]]%lookup_insert_Some Ht; [congruence|by eapply Hcl].
  - intros k x [[<- <-]|[? ?]]%lookup_insert_Some; [done|by eapply Ho].
  - intros k x [[<- <-]|[? ?]]%lookup_insert_Some; [done|by eapply Hs].
Qed.

(** Only sessions and their index change, and sessions stay as they are or leave. *)
Lemma history_change p p' :
  projection_ok p → clients p' = clients p → server_traffic p' = server_traffic p →
  history_ok (sessions p') (terminal_sessions p') [] → blen (terminal_sessions p') ≤ MAX_TERMINAL_SESSIONS →
  (∀ id s, sessions p' !! id = Some s → ∃ s0, sessions p !! id = Some s0
     ∧ sn_client s = sn_client s0 ∧ sn_traffic s = sn_traffic s0) →
  projection_ok p'.
Proof.
  intros [Hh Hb Hn Ho Hs Hsv Hr Hse] Ec Es Hh' Hb' Hsub. split; unfold total_ok in *; rewrite ?Ec, ?Es; try done.
  - intros id s Hid. destruct (Hsub _ _ Hid) as (s0&Hs0&E1&E2). rewrite E1, E2. by apply (Ho id).
  - intros id s Hid. destruct (Hsub _ _ Hid) as (s0&Hs0&E1&E2). rewrite E2. by apply (Hs id).
Qed.

(** * The events *)

Lemma current_client_Some p client c :
  current_client p client = Some c →
  clients p !! aci_name client = Some c ∧ cs_generation c = aci_generation client.
Proof.
  unfold current_client. intros H. destruct (clients p !! aci_name client) as [x|]; simpl in H; [|done].
  destruct (Z.eqb_spec (cs_generation x) (aci_generation client)); [|done]. by injection H as <-.
Qed.

Lemma online_client_Some p client c :
  online_client p client = Some c → current_client p client = Some c ∧ online c = true.
Proof.
  unfold online_client. intros H. destruct (current_client p client) as [x|]; simpl in H; [|done].
  destruct (online x) eqn:Ho; [|done]. by injection H as <-.
Qed.

Lemma update_client_ok p found client f t :
  projection_ok p → (∀ c, found = Some c → clients p !! aci_name client = Some c) →
  (∀ c, cs_name (f c) = cs_name c ∧ cs_traffic (f c) = cs_traffic c) →
  projection_ok (update_client found client f t p).
Proof.
  intros Hok Hfound Hf. unfold update_client. destruct found as [c|]; [|done].
  specialize (Hfound c eq_refl). destruct (Hf c) as [Hn Ht]. destruct (pj_name _ Hok _ _ Hfound) as [Hn' _].
  assert (projection_ok (with_clients p (<[aci_name client:=f c]> (clients p)))) as Hok'
    by (eapply replace_client_same; [done|done|congruence|done]).
  destruct t; [by apply advance_ok|done].
Qed.

Lemma open_session_ok p client id kind path peer tunnel export t :
  projection_ok p → projection_ok (open_session p client id kind path peer tunnel export t).
Proof.
  intros Hok. unfold open_session. destruct (online_client p client) as [c|] eqn:Hc; [|done].
  apply online_client_Some in Hc as [[Hc _]%current_client_Some _]. apply advance_ok.
  set (terminal := match _ with Some _ => _ | None => _ end). set (s := Build_SessionSnapshot _ _ _ _ _ _ _ _ _ _ _).
  pose proof Hok as [[Hid Hix Hcl Hpe Has] Hb Hn Ho Hs Hsv Hr Hse].
  assert (∀ x, x ∈ terminal ↔ x ∈ terminal_sessions p ∧ x.2 ≠ id) as Hterm.
  { intros [t' k]. unfold terminal. simpl. destruct (sessions p !! id) as [s0|] eqn:Hs0; simpl.
    - destruct (closed_at s0) as [u|] eqn:Hu.
      + rewrite elem_of_bt_remove. split; [|intros [? ?]; split; [congruence|done]].
        intros [Hne Hin]. split; [done|]. intros ->. destruct (Hix _ _ Hin) as (x&Hx&?). congruence.
      + split; [|by intros [? _]]. intros Hin. split; [done|]. intros ->.
        destruct (Hix _ _ Hin) as (x&Hx&?). congruence.
    - split; [|by intros [? _]]. intros Hin. split; [done|]. intros ->. destruct (Hix _ _ Hin) as (x&Hx&?). congruence. }
  assert (blen terminal ≤ blen (terminal_sessions p)) as Hlen.
  { unfold terminal. repeat case_match; try done. unfold bt_remove, blen.
    pose proof (length_filter (λ y, y ≠ (z, id)) (terminal_sessions p)). lia. }
  assert (ascending terminal_le terminal) as Hasc.
  { unfold terminal. repeat case_match; try done. by apply ascending_remove. }
  clearbody terminal. split; simpl; try done; [|lia| |].
  - split; try done.
    + intros k x [[<- <-]|[? ?]]%lookup_insert_Some; [done|by apply Hid].
    + intros u k [Hin Hne]%Hterm. simpl in Hne. rewrite lookup_insert_ne by done. by apply Hix.
    + intros k x u [[<- <-]|[? Hx]]%lookup_insert_Some Hu; [done|]. left.
      destruct (Hcl _ _ _ Hx Hu) as [?|?%elem_of_nil]; [|done]. by apply Hterm.
    + by intros u k [? _]%Hterm ?%elem_of_nil.
  - intros k x [[<- <-]|[? ?]]%lookup_insert_Some; [|by eapply Ho].
    exists c. split; [done|]. destruct (Hn _ _ Hc) as [_ ?]. unfold counters_ok, counters_le in *. simpl. lia.
  - intros k x [[<- <-]|[? ?]]%lookup_insert_Some; [done|by eapply Hs].
Qed.

Lemma still_open_true name s : still_open name s = true ↔ sn_client s = name ∧ closed_at s = None.
Proof. unfold still_open. by rewrite andb_true_iff, !bool_decide_eq_true. Qed.

(** A session that has just been closed, before it is indexed. *)
Lemma closing_ok p id s t reason :
  history_ok (sessions p) (terminal_sessions p) [] → sessions p !! id = Some s → closed_at s = None →
  history_ok (<[id := closed s t reason]> (sessions p)) (terminal_sessions p) [id].
Proof.
  intros [Hid Hix Hcls Hpe Has] Hs Hcl. split; try done.
  - intros k x [[<- <-]|[? ?]]%lookup_insert_Some; [exact (Hid id s Hs)|by apply Hid].
  - intros u k Hin. destruct (Hix u k Hin) as (x&Hx&Hu). exists x. split; [|done].
    rewrite lookup_insert_ne; [done|]. intros <-. congruence.
  - intros k x u [[<- <-]|[? Hx]]%lookup_insert_Some Hu; [right; by left|].
    destruct (Hcls _ _ _ Hx Hu) as [?|?%elem_of_nil]; [by left|done].
  - intros u k Hin ->%list_elem_of_singleton. destruct (Hix u id Hin) as (x&Hx&Hu). congruence.
Qed.

(** Closing a session: what it leaves of the others. *)
Lemma close_record p id s t reason :
  history_ok (sessions p) (terminal_sessions p) [] → sessions p !! id = Some s → closed_at s = None →
  let p1 := with_history p (<[id := closed s t reason]> (sessions p)) (terminal_sessions p) in
  let p' := record_terminal p1 id t in
  ∃ gone, bt_insert terminal_le (t, id) (terminal_sessions p) = gone ++ terminal_sessions p'
    ∧ blen (terminal_sessions p') ≤ MAX_TERMINAL_SESSIONS
    ∧ (gone ≠ [] → blen (terminal_sessions p') = MAX_TERMINAL_SESSIONS)
    ∧ history_ok (sessions p') (terminal_sessions p') []
    ∧ (∀ k x, sessions p' !! k = Some x ↔ <[id := closed s t reason]> (sessions p) !! k = Some x ∧ k ∉ gone.*2)
    ∧ clients p' = clients p ∧ server_traffic p' = server_traffic p.
Proof.
  intros Hh Hs Hcl p1. destruct (record_terminal_ok p1 id t (closed s t reason) []) as (gone&?&?&?&?&?&?&?&_).
  - exact (closing_ok p id s t reason Hh Hs Hcl).
  - apply not_elem_of_nil.
  - apply lookup_insert_eq.
  - done.
  - by exists gone.
Qed.

Lemma close_session_ok p client id kind t reason :
  projection_ok p → projection_ok (close_session p client id kind t reason).
Proof.
  intros Hok. unfold close_session. destruct (is_current_client p client); simpl; [|done].
  destruct (sessions p !! id) as [s|] eqn:Hs; [|done].
  destruct (still_open (aci_name client) s && bool_decide (sn_kind s = kind)) eqn:Ho; [|done].
  apply andb_true_iff in Ho as [[_ Hcl]%still_open_true _]. apply advance_ok.
  destruct (close_record p id s t reason (pj_history _ Hok) Hs Hcl) as (gone&_&Hl&_&Hh&Hm&E1&E2).
  apply (history_change p); try done. intros k x Hx. apply Hm in Hx as [Hx _].
  apply lookup_insert_Some in Hx as [[<- <-]|[_ Hx]]; [by exists s|by exists x].
Qed.

Lemma close_keeps_open p id t reason s id' s' :
  history_ok (sessions p) (terminal_sessions p) [] → sessions p !! id = Some s → closed_at s = None →
  sessions p !! id' = Some s' → closed_at s' = None → id' ≠ id →
  sessions (record_terminal (with_history p (<[id := closed s t reason]> (sessions p)) (terminal_sessions p)) id t)
    !! id' = Some s'.
Proof.
  intros Hh Hs Hcl Hs' Ho Hne. destruct (close_record p id s t reason Hh Hs Hcl) as (gone&Eg&_&_&_&Hm&_).
  apply Hm. rewrite lookup_insert_ne by done. split; [done|]. intros ([u k]&->&Hin)%list_elem_of_fmap.
  assert ((u, k) ∈ bt_insert terminal_le (t, id) (terminal_sessions p)) as Hb
    by (rewrite Eg; apply elem_of_app; by left).
  apply elem_of_bt_insert in Hb as [[= _ ->]|Hb]; [done|].
  destruct (hi_indexed _ _ _ Hh _ _ Hb) as (x&Hx&?). simpl in *. congruence.
Qed.

Lemma in_order_elem {A} (m : gmap (list byte) A) id x : (id, x) ∈ in_order m ↔ m !! id = Some x.
Proof. unfold in_order. rewrite merge_sort_Permutation. apply elem_of_map_to_list. Qed.
Lemma in_order_nodup {A} (m : gmap (list byte) A) : NoDup (in_order m).*1.
Proof.
  unfold in_order. rewrite (fmap_Permutation fst _ _ (merge_sort_Permutation _ _)). apply NoDup_fst_map_to_list.
Qed.

Lemma list_filter_elem {A} (f : A → bool) l x : x ∈ List.filter f l ↔ x ∈ l ∧ f x = true.
Proof. by rewrite !list_elem_of_In, filter_In. Qed.

(** The sessions that a new generation closes. *)
Lemma terminalized_ids p name :
  history_ok (sessions p) (terminal_sessions p) [] →
  let ids := (λ x, sn_id x.2) <$> List.filter (λ x, still_open name x.2) (in_order (sessions p)) in
  NoDup ids ∧ ∀ id, id ∈ ids ↔ ∃ s, sessions p !! id = Some s ∧ still_open name s = true.
Proof.
  intros [Hid _ _ _ _]. cbv zeta.
  assert (∀ x, x ∈ in_order (sessions p) → sn_id x.2 = x.1) as Hkey
    by (intros [k x] Hin%in_order_elem; by apply Hid).
  split.
  - pose proof (in_order_nodup (sessions p)) as Hn. revert Hkey Hn.
    induction (in_order (sessions p)) as [|x l IH]; intros Hkey Hn; simpl; [constructor|].
    apply NoDup_cons in Hn as [Hx Hn]. assert (NoDup ((λ x, sn_id x.2) <$> List.filter (λ x, still_open name x.2) l)) as Hl
      by (apply IH; [intros y ?; apply Hkey; by right|done]).
    destruct (still_open name x.2); [|done]. simpl. constructor; [|done].
    intros (y&E&[Hy _]%list_filter_elem)%list_elem_of_fmap. apply Hx.
    assert (x.1 = y.1) as ->; [|by apply list_elem_of_fmap_2].
    rewrite <- (Hkey x (list_elem_of_here _ _)), <- (Hkey y (list_elem_of_further _ _ _ Hy)). exact E.
  - intros id. rewrite list_elem_of_fmap. split.
    + intros ([k x]&->&[Hin Ho]%list_filter_elem). exists x. pose proof (Hkey _ Hin) as E. simpl in *.
      rewrite E. by apply in_order_elem in Hin.
    + intros (s&Hs&Ho). exists (id, s). split; [symmetry; by apply Hid|].
      apply list_filter_elem. by rewrite in_order_elem.
Qed.

Lemma terminalize_ok p name t :
  projection_ok p → projection_ok (terminalize p name t)
  ∧ clients (terminalize p name t) = clients p
  ∧ ∀ id s, sessions (terminalize p name t) !! id = Some s → still_open name s = false.
Proof.
  intros Hok. pose proof (pj_history _ Hok) as Hh. destruct (terminalized_ids p name Hh) as [Hnd Hids].
  unfold terminalize. set (ids := (λ x, sn_id x.2) <$> _) in *. clearbody ids.
  set (p1 := with_history p _ _). pose proof Hh as [Hid Hix Hcl Hpe Has].
  assert (∀ id s, sessions p1 !! id = Some s → ∃ s0, sessions p !! id = Some s0
    ∧ s = (if still_open name s0 then closed s0 t (Some generation_replaced) else s0)) as Hp1.
  { intros id s. simpl. rewrite lookup_fmap. intros (s0&?&?)%fmap_Some. by exists s0. }
  destruct (record_all_ok ids p1 t) as (H1&H2&H3&H4&H5&H6&H7).
  - split; try done.
    + intros id s (s0&Hs0&->)%Hp1. rewrite <- (Hid _ _ Hs0). by case_match.
    + intros u id Hin. destruct (Hix u id Hin) as (s&Hs&Hu). exists s. split; [|done]. simpl.
      rewrite lookup_fmap, Hs. simpl. destruct (still_open name s) eqn:Ho; [|done].
      apply still_open_true in Ho as [_ ?]. congruence.
    + intros id s u (s0&Hs0&->)%Hp1 Hu. destruct (still_open name s0) eqn:Ho.
      * right. apply Hids. by exists s0.
      * left. by destruct (Hcl _ _ _ Hs0 Hu) as [?|?%elem_of_nil].
    + intros u id Hin Hid'. apply Hids in Hid' as (s&Hs&[_ Ho]%still_open_true).
      destruct (Hix u id Hin) as (x&Hx&Hu). congruence.
  - done.
  - intros id (s&Hs&Ho)%Hids. exists (closed s t (Some generation_replaced)). split; [|done]. simpl.
    by rewrite lookup_fmap, Hs; simpl; rewrite Ho.
  - apply Hok.
  - split_and!; [|done|].
    + apply (history_change p); try done. intros id s Hs. apply H3, Hp1 in Hs as (s0&Hs0&->).
      exists s0. split; [done|]. by case_match.
    + intros id s Hs. apply H3, Hp1 in Hs as (s0&Hs0&->). destruct (still_open name s0) eqn:Ho; [|done].
      unfold still_open. simpl. apply andb_false_r.
Qed.

(** The table of clients does not matter for it. *)
Lemma terminalize_with_clients p k name t :
  sessions (terminalize (with_clients p k) name t) = sessions (terminalize p name t)
  ∧ terminalize (with_clients p k) name t = with_clients (terminalize p name t) k.
Proof.
  assert (terminalize (with_clients p k) name t = with_clients (terminalize p name t) k) as E; [|by rewrite E].
  unfold terminalize. simpl.
  generalize ((λ x : list byte * SessionSnapshot, sn_id x.2) <$>
    List.filter (λ x, still_open name x.2) (in_order (sessions p))). intros ids.
  set (q := with_history p _ _). change (with_history (with_clients p k) _ _) with (with_clients q k).
  clearbody q. revert q. induction ids as [|id ids IH]; intros q; simpl; [done|].
  rewrite <- IH. f_equal. unfold record_terminal. simpl. by destruct (evict_terminal _ _).
Qed.

Lemma client_authenticated_ok p client version t :
  projection_ok p → projection_ok (client_authenticated p client version t).
Proof.
  intros Hok. unfold client_authenticated. destruct (clients p !! aci_name client) as [c|] eqn:Hc; simpl.
  - destruct (aci_generation client <=? cs_generation c); [done|]. apply advance_ok.
    destruct (terminalize_ok p (aci_name client) t Hok) as (Hok'&Ec&_).
    destruct (terminalize_with_clients p (delete (aci_name client) (clients p)) (aci_name client) t) as [_ ->].
    simpl. rewrite <- Ec at 1. rewrite insert_delete_eq. rewrite Ec.
    set (c' := Build_ClientSnapshot _ _ _ _ _ _ _ _ _ _ _ _ _ _ _).
    change (projection_ok (with_clients (terminalize p (aci_name client) t) (<[aci_name client:=c']> (clients p)))).
    rewrite <- Ec. apply (replace_client_same _ _ c); try done. by rewrite Ec.
  - apply advance_ok. rewrite delete_id by done. destruct p as [g sm st cs ss ts]. simpl in *.
    destruct Hok as [Hh Hb Hn Ho Hs Hsv Hr Hse]. unfold total_ok in *. simpl in *. split; unfold total_ok; simpl; try done.
    + intros n x [[<- <-]|[? ?]]%lookup_insert_Some; [done|by apply Hn].
    + intros id s Hid. destruct (Ho id s Hid) as (x&Hx&?). exists x. split; [|done].
      rewrite lookup_insert_ne; [done|congruence].
    + intros Hlt. rewrite msum_insert by done. simpl. by apply Hr.
    + intros Hlt. rewrite msum_insert by done. simpl. by apply Hse.
Qed.

Lemma add_counters_ok p client sid d :
  projection_ok p → counters_ok d → projection_ok (add_counters p client sid d).
Proof.
  intros Hok Hd. unfold add_counters. destruct (online_client p client) as [c|] eqn:Hc; [|done].
  apply online_client_Some in Hc as [[Hc _]%current_client_Some _].
  destruct (pj_name _ Hok _ _ Hc) as [Hn Hck].
  pose proof (replace_client p (aci_name client) c (client_counted c d) d Hok Hc Hn Hd eq_refl) as Hok'.
  set (p1 := with_server _ _ _). change (projection_ok p1) in Hok'.
  destruct sid as [id|]; simpl; [|done]. destruct (sessions p !! id) as [s|] eqn:Hs; simpl; [|done].
  destruct (still_open (aci_name client) s) eqn:Ho; [|done].
  apply still_open_true in Ho as [Hcl Hopen].
  apply (replace_open p1 id s); try done.
  - exact (hi_id _ _ _ (pj_history _ Hok) id s Hs).
  - simpl. rewrite Hcl, lookup_insert_eq. eexists. split; [done|]. simpl. apply counters_add_le.
    destruct (pj_owner _ Hok _ _ Hs) as (x&Hx&?). rewrite Hcl, Hc in Hx. by injection Hx as <-.
  - apply counters_add_ok; [exact (pj_session _ Hok id s Hs)|done].
Qed.

Lemma apply_ok p e : projection_ok p → event_ok e → projection_ok (Projection_apply p e).
Proof.
  intros Hok He. destruct e; simpl; try (by apply open_session_ok); try (by apply close_session_ok).
  - by apply client_authenticated_ok.
  - apply update_client_ok; [done| |done]. by intros c [? _]%current_client_Some.
  - apply update_client_ok; [done| |done]. by intros c [[? _]%current_client_Some _]%online_client_Some.
  - apply update_client_ok; [done| |done]. intros c H.
    destruct (online_client p client) as [x|] eqn:Hx; simpl in H; [|done].
    destruct (match telemetry_sequence x with Some _ => _ | None => _ end); [|done]. injection H as <-.
    by apply online_client_Some in Hx as [[? _]%current_client_Some _].
  - apply update_client_ok; [done| |done]. by intros c [[? _]%current_client_Some _]%online_client_Some.
  - apply update_client_ok; [done| |done]. by intros c [[? _]%current_client_Some _]%online_client_Some.
  - apply update_client_ok; [done| |done]. by intros c [[? _]%current_client_Some _]%online_client_Some.
  - by apply add_counters_ok.
  - by destruct Hok.
Qed.

Lemma projection_run_ok events p :
  projection_ok p → Forall event_ok events → projection_ok (foldl Projection_apply p events).
Proof. intros Hok Hf. revert p Hok. induction Hf as [|e l He _ IH]; intros p Hok; [done|]. by apply IH, apply_ok. Qed.
