(* ===== verification/ProjectionProps.v ===== *)
(** The properties of the observability store: the invariant of the projection, the
    generations of clients, the history of closed sessions, and the event queue. *)

From S2P Require Import Prelude.
From S2P Require Import Ordered.
From S2P Require Import Messages.
From S2P Require Import Events.
From S2P Require Import Projection.
From S2P Require Import ProjectionFacts.
From Stdlib Require Import Strings.Byte Strings.String.
From stdpp Require Import prelude gmap list sorting.

#[local] Open Scope Z_scope.

(** * Generations *)

(** The generation of a client in the projection. *)
Definition generation_of (p : Projection) (name : list byte) : option Z := cs_generation <$> clients p !! name.

(** The client an event speaks of. *)
Definition event_client (e : ObservationEvent) : option AuthenticatedClientIdentity :=
  match e with
  | ClientAuthenticated c _ _ | ClientDisconnected c _ | Heartbeat c _
  | ClientTelemetryAccepted c _ _ _ | TunnelInventory c _ | ExportInventory c _
  | ForwardInventory c _ | TcpSessionOpened c _ _ _ | TcpSessionClosed c _ _ _
  | UdpSessionOpened c _ _ _ | UdpSessionClosed c _ _ _ | P2pSessionOpened c _ _ _ _ _
  | P2pSessionClosed c _ _ _ | ByteCounterDelta c _ _ => Some c
  | ServerSample _ => None
  end.

(** An event of another generation than the current one; an authentication is one unless its
    generation is newer. *)
Definition stale (p : Projection) (e : ObservationEvent) : Prop :=
  match e with
  | ClientAuthenticated c _ _ => ∃ g, generation_of p (aci_name c) = Some g ∧ aci_generation c ≤ g
  | _ => ∃ c, event_client e = Some c ∧ generation_of p (aci_name c) ≠ Some (aci_generation c)
  end.

Lemma current_client_stale p c :
  generation_of p (aci_name c) ≠ Some (aci_generation c) → current_client p c = None.
Proof.
  intros H. destruct (current_client p c) as [x|] eqn:Hx; [|done]. exfalso. apply H.
  apply current_client_Some in Hx as [Hx Hg]. unfold generation_of. rewrite Hx. simpl. by rewrite Hg.
Qed.

Lemma online_client_stale p c :
  generation_of p (aci_name c) ≠ Some (aci_generation c) → online_client p c = None.
Proof. intros H. unfold online_client. by rewrite current_client_stale. Qed.

(** The answer of [is_current_client]. *)
Lemma is_current_client_iff p c :
  is_current_client p c = true ↔ generation_of p (aci_name c) = Some (aci_generation c).
Proof.
  unfold is_current_client, generation_of. destruct (clients p !! aci_name c) as [x|]; simpl; [|done].
  rewrite Z.eqb_eq. split; [by intros ->|by intros [= ->]].
Qed.

Lemma stale_ignored p e : stale p e → Projection_apply p e = p.
Proof.
  intros Hs. destruct e; simpl in *; try (destruct Hs as (?&[= <-]&Hs)).
  - destruct Hs as (g&Hg&Hle). unfold client_authenticated, generation_of in *.
    destruct (clients p !! aci_name client) as [c|]; simpl in *; [|done]. injection Hg as <-.
    by rewrite (proj2 (Z.leb_le _ _)).
  - by rewrite current_client_stale.
  - by rewrite online_client_stale.
  - by rewrite online_client_stale.
  - by rewrite online_client_stale.
  - by rewrite online_client_stale.
  - by rewrite online_client_stale.
  - unfold open_session. by rewrite online_client_stale.
  - unfold close_session. destruct (is_current_client p client) eqn:E; [|done]. by apply is_current_client_iff in E.
  - unfold open_session. by rewrite online_client_stale.
  - unfold close_session. destruct (is_current_client p client) eqn:E; [|done]. by apply is_current_client_iff in E.
  - unfold open_session. by rewrite online_client_stale.
  - unfold close_session. destruct (is_current_client p client) eqn:E; [|done]. by apply is_current_client_iff in E.
  - unfold add_counters. by rewrite online_client_stale.
Qed.

Lemma generation_insert p name c c' m :
  clients p !! name = Some c → cs_generation c' = cs_generation c → clients m = <[name:=c']> (clients p) →
  ∀ n, generation_of m n = generation_of p n.
Proof.
  intros Hc Hg Hm n. unfold generation_of. rewrite Hm. destruct (decide (n = name)) as [->|Hne].
  - rewrite lookup_insert_eq, Hc. simpl. by rewrite Hg.
  - by rewrite lookup_insert_ne.
Qed.

Lemma generation_update p found client f t :
  (∀ c, found = Some c → clients p !! aci_name client = Some c) →
  (∀ c, cs_generation (f c) = cs_generation c) →
  ∀ n, generation_of (update_client found client f t p) n = generation_of p n.
Proof.
  intros Hfound Hf n. unfold update_client. destruct found as [c|]; [|done].
  apply (generation_insert p (aci_name client) c (f c)); [by apply Hfound|done|]. by destruct t.
Qed.

Lemma record_terminal_clients p id t : clients (record_terminal p id t) = clients p.
Proof. unfold record_terminal. by destruct (evict_terminal _ _). Qed.

Lemma terminalize_clients p name t : clients (terminalize p name t) = clients p.
Proof.
  unfold terminalize. generalize ((λ x : list byte * SessionSnapshot, sn_id x.2) <$>
    List.filter (λ x, still_open name x.2) (in_order (sessions p))). intros ids.
  set (q := with_history _ _ _). change (clients p) with (clients q). clearbody q. clear p. revert q.
  induction ids as [|id ids IH]; intros q; simpl; [done|]. by rewrite IH, record_terminal_clients.
Qed.

(** Other events leave the generations alone. *)
Lemma generation_frame p e :
  (∀ c v t, e ≠ ClientAuthenticated c v t) → ∀ n, generation_of (Projection_apply p e) n = generation_of p n.
Proof.
  intros He.
  assert (∀ client c, current_client p client = Some c → clients p !! aci_name client = Some c) as Hcur
    by (by intros client c [? _]%current_client_Some).
  assert (∀ client c, online_client p client = Some c → clients p !! aci_name client = Some c) as Hon
    by (by intros client c [? _]%online_client_Some; apply Hcur).
  assert (∀ client id kind path peer tunnel export t n,
    generation_of (open_session p client id kind path peer tunnel export t) n = generation_of p n) as Hopen.
  { intros. unfold open_session. by destruct (online_client p client). }
  assert (∀ client id kind t reason n,
    generation_of (close_session p client id kind t reason) n = generation_of p n) as Hclose.
  { intros. unfold close_session. destruct (is_current_client p client); [|done]. simpl.
    destruct (sessions p !! id); [|done]. destruct (_ && _); [|done].
    unfold generation_of. simpl. by rewrite record_terminal_clients. }
  destruct e; simpl; intros n; auto.
  - by destruct (He client version authenticated_unix_millis).
  - apply generation_update; auto.
  - apply generation_update; auto.
  - apply generation_update; [|done]. intros c H. destruct (online_client p client) as [x|] eqn:Hx; simpl in H; [|done].
    destruct (match telemetry_sequence x with Some _ => _ | None => _ end); [|done]. injection H as <-. auto.
  - apply generation_update; auto.
  - apply generation_update; auto.
  - apply generation_update; auto.
  - unfold add_counters. destruct (online_client p client) as [c|] eqn:Hc; [|done].
    apply (generation_insert p (aci_name client) c (client_counted c counters)); [auto|done|].
    destruct session_id as [id|]; simpl; [|done]. destruct (sessions p !! id); simpl; [|done].
    by destruct (still_open _ _).
Qed.

(** No session of the client is left open, whatever the table of clients is. *)
Lemma terminalized_open p k name t id s :
  projection_ok p → sessions (terminalize (with_clients p k) name t) !! id = Some s → still_open name s = false.
Proof.
  intros Hok. destruct (terminalize_with_clients p k name t) as [-> _].
  destruct (terminalize_ok p name t Hok) as (_&_&H). apply H.
Qed.

(** Events of a past generation of a client change nothing, whatever they are, nor does an
    authentication that is not newer than the current one; the generation of a client never
    goes back; and a newer authentication puts the client online with the traffic it had, one
    more reconnection and no telemetry of the old generation, and closes every session that
    the old generation had left open. *)
Theorem generations_guarded p e :
  projection_ok p →
  (stale p e → Projection_apply p e = p)
  ∧ (∀ n g, generation_of p n = Some g →
       ∃ g', generation_of (Projection_apply p e) n = Some g' ∧ g ≤ g')
  ∧ (∀ client version t, e = ClientAuthenticated client version t → ¬ stale p e →
       let p' := Projection_apply p e in
       (∃ c, online_client p' client = Some c ∧ cs_version c = version ∧ cs_metrics c = None
          ∧ telemetry_sequence c = None
          ∧ cs_traffic c = from_option cs_traffic TrafficCounters_default (clients p !! aci_name client)
          ∧ reconnects c = from_option (λ c, saturating_add u64_max (reconnects c) 1) 0 (clients p !! aci_name client))
       ∧ ∀ id s, sessions p' !! id = Some s → still_open (aci_name client) s = false).
Proof.
  intros Hok. split; [apply stale_ignored|]. split.
  - intros n g Hg. destruct e; try (rewrite generation_frame by done; by exists g).
    simpl. unfold client_authenticated. set (prev := clients p !! aci_name client).
    assert (∀ g0, cs_generation <$> prev = Some g0 → (aci_generation client <=? g0) = false →
      g0 ≤ aci_generation client) as Hnew by (intros g0 _ ?%Z.leb_gt; lia).
    destruct prev as [c|] eqn:Hc; simpl.
    + destruct (aci_generation client <=? cs_generation c) eqn:Hle; [by exists g|].
      unfold generation_of in *. simpl. rewrite terminalize_clients. simpl. rewrite insert_delete_eq.
      destruct (decide (n = aci_name client)) as [->|?].
      * rewrite lookup_insert_eq. simpl. unfold prev in Hc. rewrite Hc in Hg. injection Hg as <-.
        eexists. split; [done|]. by apply Hnew.
      * rewrite lookup_insert_ne by done. by exists g.
    + unfold generation_of in *. simpl. unfold prev in Hc. destruct (decide (n = aci_name client)) as [->|?].
      * by rewrite Hc in Hg.
      * rewrite lookup_insert_ne, lookup_delete_ne by done. by exists g.
  - intros client version t -> Hns. simpl. unfold client_authenticated. simpl in Hns.
    unfold generation_of in Hns.
    destruct (clients p !! aci_name client) as [c|] eqn:Hc; simpl in *.
    + assert ((aci_generation client <=? cs_generation c) = false) as ->.
      { apply Z.leb_gt. apply Z.nle_gt. intros ?. apply Hns. by eexists. }
      split.
      * eexists. split.
        { unfold online_client, current_client. simpl. rewrite lookup_insert_eq. simpl.
          rewrite Z.eqb_refl. simpl. reflexivity. }
        by split_and!.
      * intros id s Hs. simpl in Hs. by eapply terminalized_open in Hs.
    + split.
      * eexists. split.
        { unfold online_client, current_client. simpl. rewrite lookup_insert_eq. simpl.
          rewrite Z.eqb_refl. simpl. reflexivity. }
        by split_and!.
      * simpl. intros id s Hs. destruct (still_open (aci_name client) s) eqn:Ho; [|done].
        apply still_open_true in Ho as [E _]. destruct (pj_owner _ Hok _ _ Hs) as (x&Hx&_). congruence.
Qed.

(** * A run *)

Definition demo_client (g : Z) : AuthenticatedClientIdentity :=
  {| aci_name := str "laptop"%string; aci_generation := g |}.
Definition demo_events : list ObservationEvent :=
  [ClientAuthenticated (demo_client 3) (str "1.0"%string) 100;
   TcpSessionOpened (demo_client 3) (str "s1"%string) None 110;
   ByteCounterDelta (demo_client 3) (Some (str "s1"%string)) {| received_bytes := 7; sent_bytes := 9 |};
   UdpSessionOpened (demo_client 3) (str "s2"%string) None 120;
   TcpSessionClosed (demo_client 3) (str "s1"%string) 130 None].
Definition demo_projection : Projection := foldl Projection_apply Projection_default demo_events.

Lemma demo_projection_ok : projection_ok demo_projection.
Proof. apply projection_run_ok; [apply projection_default_ok|]. repeat constructor; vm_compute; discriminate. Qed.

Lemma generations_guarded_witness :
  Projection_apply demo_projection (Heartbeat (demo_client 2) 200) = demo_projection
  ∧ ∀ id s, sessions (Projection_apply demo_projection
      (ClientAuthenticated (demo_client 4) (str "1.1"%string) 300)) !! id = Some s →
      still_open (str "laptop"%string) s = false.
Proof.
  split.
  - apply (generations_guarded demo_projection (Heartbeat (demo_client 2) 200) demo_projection_ok).
    exists (demo_client 2). split; [reflexivity|]. vm_compute. discriminate.
  - destruct (generations_guarded demo_projection (ClientAuthenticated (demo_client 4) (str "1.1"%string) 300)
      demo_projection_ok) as (_&_&H).
    apply (H (demo_client 4) (str "1.1"%string) 300 eq_refl). intros (g&Hg&Hle).
    vm_compute in Hg. injection Hg as <-. by vm_compute in Hle.
Defined.

(** whatever events the store applies, its projection stays exact: the index of closed
    sessions holds exactly the closed sessions of the table with their times, in order and at
    most 4096 of them; every session is listed under its identifier and belongs to a known
    client, of whose traffic its own is a part; a total of the server that has not been cut
    off at the end of its range is the sum over the clients; and a session that is open stays
    in the table, whatever is evicted, until it is closed or opened anew. *)
Theorem projection_invariant events :
  Forall event_ok events →
  let p := foldl Projection_apply Projection_default events in
  (∀ t id, (t, id) ∈ terminal_sessions p ↔ ∃ s, sessions p !! id = Some s ∧ closed_at s = Some t)
  ∧ ascending terminal_le (terminal_sessions p) ∧ blen (terminal_sessions p) ≤ MAX_TERMINAL_SESSIONS
  ∧ (∀ id s, sessions p !! id = Some s → sn_id s = id ∧
       ∃ c, clients p !! sn_client s = Some c ∧ counters_le (sn_traffic s) (cs_traffic c))
  ∧ total_ok received_bytes p ∧ total_ok sent_bytes p
  ∧ (∀ client id kind t reason id' s, sessions p !! id' = Some s → closed_at s = None → id' ≠ id →
       sessions (close_session p client id kind t reason) !! id' = Some s).
Proof.
  intros Hf p. pose proof (projection_run_ok events _ projection_default_ok Hf) as Hok. fold p in Hok.
  clearbody p. pose proof (pj_history _ Hok) as [Hid Hix Hcl Hpe Has].
  split_and!; try done; try apply Hok.
  - intros t id. split; [apply Hix|]. intros (s&Hs&Ht).
    by destruct (Hcl _ _ _ Hs Ht) as [?|?%elem_of_nil].
  - intros id s Hs. split; [by apply Hid|]. by apply (pj_owner _ Hok id).
  - intros client id kind t reason id' s Hs Ho Hne. unfold close_session.
    destruct (is_current_client p client); [|done]. simpl. destruct (sessions p !! id) as [s0|] eqn:Hs0; [|done].
    destruct (_ && _) eqn:Hcond; [|done]. simpl. apply andb_true_iff in Hcond as [[_ Hc0]%still_open_true _].
    by apply (close_keeps_open p id t reason s0).
Qed.

Lemma projection_invariant_witness :
  (130, str "s1"%string) ∈ terminal_sessions demo_projection
  ∧ ∃ s, sessions demo_projection !! str "s1"%string = Some s ∧ closed_at s = Some 130.
Proof.
  destruct (projection_invariant demo_events) as (H&_); [repeat constructor; vm_compute; discriminate|].
  assert ((130, str "s1"%string) ∈ terminal_sessions demo_projection) as Hin
    by (vm_compute; apply list_elem_of_here).
  split; [exact Hin|]. apply (H 130). exact Hin.
Defined.

(** The sessions that closing one more drops are those that were closed first. *)
Lemma history_keeps_latest p id s t reason :
  history_ok (sessions p) (terminal_sessions p) [] → sessions p !! id = Some s → closed_at s = None →
  let p' := record_terminal (with_history p (<[id := closed s t reason]> (sessions p)) (terminal_sessions p)) id t in
  ∀ x y, x = (t, id) ∨ x ∈ terminal_sessions p → x ∉ terminal_sessions p' → y ∈ terminal_sessions p' →
    terminal_le x y = true ∧ blen (terminal_sessions p') = MAX_TERMINAL_SESSIONS.
Proof.
  intros Hh Hs Hcl p' x y Hx Hn Hy.
  destruct (close_record p id s t reason Hh Hs Hcl) as (gone&Eg&_&Hmax&_). fold p' in Eg, Hmax.
  pose proof (ascending_insert terminal_le (t, id) _ (hi_ascending _ _ _ Hh)) as Ha. rewrite Eg in Ha.
  assert (x ∈ bt_insert terminal_le (t, id) (terminal_sessions p)) as Hb by by apply elem_of_bt_insert.
  rewrite Eg in Hb. apply elem_of_app in Hb as [Hb|?]; [|done].
  split; [|apply Hmax; intros ->; by apply elem_of_nil in Hb].
  clear -Ha Hb Hy. destruct Ha as [Ha _]. induction gone as [|z gone IH]; [by apply elem_of_nil in Hb|].
  simpl in Ha. apply StronglySorted_inv in Ha as [Ha Hf]. apply elem_of_cons in Hb as [->|Hb]; [|by apply IH].
  eapply Forall_forall in Hf; [exact Hf|]. apply elem_of_app. by right.
Qed.

(** A snapshot counts what the projection holds. *)
Lemma snapshot_exact p :
  let s := Projection_snapshot p in
  (∀ c, c ∈ ov_clients s ↔ ∃ n, clients p !! n = Some c)
  ∧ (∀ x, x ∈ ov_sessions s ↔ ∃ id, sessions p !! id = Some x)
  ∧ ov_active_tcp s + ov_active_udp s + ov_active_p2p s
    = blen (List.filter (λ x, bool_decide (closed_at x = None)) (ov_sessions s)).
Proof.
  intros s. split_and!.
  - intros c. unfold s. simpl. rewrite list_elem_of_fmap. split.
    + intros ([n x]&->&Hin%in_order_elem). by exists n.
    + intros (n&Hn). exists (n, c). by rewrite in_order_elem.
  - intros x. unfold s. simpl. rewrite list_elem_of_fmap. split.
    + intros ([n y]&->&Hin%in_order_elem). by exists n.
    + intros (n&Hn). exists (n, x). by rewrite in_order_elem.
  - unfold s. simpl. generalize (snd <$> in_order (sessions p)). intros l.
    unfold active_sessions. induction l as [|x l IH]; simpl; [done|].
    destruct (sn_kind x); simpl; destruct (bool_decide (closed_at x = None)); rewrite ?blen_cons; lia.
Qed.

(** * The queue *)

Definition held (o : option ObservationEvent) : list ObservationEvent := option_list o.

Record pipeline_ok (w : Pipeline) : Prop := {
  po_accepted : pl_accepted w
    = pl_applied w ++ held (pl_applying w) ++ held (pl_received w) ++ pl_lost w ++ pl_queue w;
  po_projection : pl_projection w = foldl Projection_apply Projection_default (pl_applied w);
  po_depth : pl_depth w = blen (pl_sending w) + pl_refused w + blen (pl_queue w)
    + blen (held (pl_received w)) + blen (pl_lost w);
  po_counts : 0 ≤ pl_refused w ∧ 0 ≤ pl_uncounted w
    ∧ pl_dropped w + pl_refused w + pl_uncounted w = pl_rejections w;
  po_bound : blen (pl_queue w) ≤ EVENT_QUEUE_CAPACITY;
  po_open : if pl_open w then pl_lost w = [] else pl_queue w = [] ∧ pl_worker w = Stopped;
  po_one : pl_received w = None ∨ pl_applying w = None;
  po_stopped : pl_worker w = Stopped → at_rest w ∧ pl_applied w = pl_seen w;
}.

Lemma blen_perm {A} (l k : list A) : l ≡ₚ k → blen l = blen k.
Proof. intros H. unfold blen. by rewrite H. Qed.

Lemma blen_held o : blen (held o) = match o with Some _ => 1 | None => 0 end.
Proof. by destruct o. Qed.

Lemma publish_send_ok w e rest :
  pipeline_ok w → pl_sending w ≡ₚ e :: rest → pipeline_ok (publish_send w e rest).
Proof.
  intros [Ha Hp Hd Hc Hb Hl Ho Hs'] Hs. apply blen_perm in Hs. rewrite blen_cons in Hs.
  unfold publish_send, try_send. destruct (pl_open w) eqn:Hop; simpl.
  2: { split; simpl; rewrite ?Hop; try done; [lia|]. split_and!; lia. }
  destruct (Z.leb_spec EVENT_QUEUE_CAPACITY (blen (pl_queue w))).
  { split; simpl; rewrite ?Hop; try done; [lia|]. split_and!; lia. }
  split; simpl; rewrite ?Hop; try done.
  - by rewrite Ha, <- !(assoc_L (++)).
  - rewrite blen_app. change (blen [e]) with 1. lia.
  - rewrite blen_app. change (blen [e]) with 1. lia.
Qed.

(** The steps of the worker with an event. *)
Lemma worker_receive_ok w e rest :
  pipeline_ok w → pl_worker w ≠ Stopped → at_rest w → pl_queue w = e :: rest →
  pipeline_ok (worker_receive w e rest).
Proof.
  intros [Ha Hp Hd Hc Hb Hl Ho Hs] Hw [Hre Hap] Hq. rewrite Hre, Hap, Hq, blen_cons in *.
  destruct (pl_open w) eqn:Hop; [|by destruct Hl].
  split; simpl; rewrite ?Hop; try done; try lia.
  - by rewrite Ha, Hl, Hap.
  - change (blen [e]) with 1. change (blen (held None)) with 0 in Hd. lia.
  - by right.
Qed.
Lemma worker_count_ok w e : pipeline_ok w → pl_received w = Some e → pipeline_ok (worker_count w e).
Proof.
  intros [Ha Hp Hd Hc Hb Hl Ho Hs] He. rewrite He in *. destruct Ho as [?|Hap]; [done|].
  rewrite Hap in *. change (blen (held (Some e))) with 1 in Hd.
  split; simpl; try done; [change (blen []) with 0; lia|by left|].
  intros Hw. destruct (Hs Hw) as [[? _] _]. congruence.
Qed.
Lemma worker_apply_ok w e : pipeline_ok w → pl_applying w = Some e → pipeline_ok (worker_apply w e).
Proof.
  intros [Ha Hp Hd Hc Hb Hl Ho Hs] He. rewrite He in *. destruct Ho as [Hre|?]; [|done].
  rewrite Hre in *. split; simpl; try done.
  - by rewrite Ha, <- !(assoc_L (++)).
  - by rewrite foldl_app, <- Hp.
  - by left.
  - intros Hw. destruct (Hs Hw) as [[_ ?] _]. congruence.
Qed.
(** The worker stops only at an empty queue: everything accepted has been applied. *)
Lemma worker_stop_ok w : pipeline_ok w → at_rest w → pl_worker w ≠ Stopped → pl_queue w = [] →
  pipeline_ok (worker_stop w).
Proof.
  intros [Ha Hp Hd Hc Hb Hl Ho Hs] [Hre Hap] Hw Hq. destruct (pl_open w) eqn:Hop; [|by destruct Hl].
  split; simpl; rewrite ?Hop; try done. intros _. split; [done|].
  by rewrite Ha, Hre, Hap, Hl, Hq, app_nil_r.
Qed.

Lemma pipeline_step_ok w w' : pipeline_ok w → pipeline_step w w' → pipeline_ok w'.
Proof.
  intros Hok Hstep.
  destruct Hstep as [e Hk|e rest Hs|Hr|Hu|H1 H2 H3| |Hw Hre Hcn|e rest Hw Hre Hq|e He|e He|Hw Hre Hq
    |Hw Hre Hq Hsk|Hw Hop];
    [|by apply publish_send_ok|..|by apply worker_receive_ok|by apply worker_count_ok
     |by apply worker_apply_ok|apply worker_stop_ok; [done..|congruence|done]
     |apply worker_stop_ok; [done..|congruence|done]|];
    destruct Hok as [Ha Hp Hd Hc Hb Hl Ho Hst].
  - split; simpl; try done. rewrite blen_cons. lia.
  - split; simpl; try done; [lia|]. split_and!; lia.
  - split; simpl; try done. split_and!; lia.
  - by split.
  - by split.
  - split; simpl; try done. destruct (pl_open w); [done|]. destruct Hl. congruence.
  - rewrite Hop in Hl. split; simpl; try done.
    + by rewrite Ha, Hl, app_nil_r.
    + rewrite blen_app. change (blen []) with 0. lia.
Qed.

Lemma pipeline_reachable_ok w : rtc pipeline_step Pipeline_new w → pipeline_ok w.
Proof.
  assert (pipeline_ok Pipeline_new) as H0 by (split; simpl; try done; by left).
  intros Hrun. revert H0. induction Hrun as [|w w1 w2 Hs _ IH]; intros H0; [done|].
  by apply IH, (pipeline_step_ok w).
Qed.

(** * The end of the worker *)

Lemma worker_turn_step w : worker_turn w = w ∨ pipeline_step w (worker_turn w).
Proof.
  unfold worker_turn. destruct (pl_applying w) as [e|] eqn:Hap; [right; by constructor|].
  destruct (pl_received w) as [e|] eqn:Hre; [right; by constructor|].
  assert (at_rest w) as Hr by done. destruct (pl_worker w) eqn:Hw.
  - destruct (pl_cancelled w) eqn:Hc; [right; by constructor|].
    destruct (pl_queue w) as [|e rest] eqn:Hq; [|right; constructor; try done; congruence].
    destruct (pl_sinks w) eqn:Hk; [by left|right]. by apply step_disconnected.
  - right. destruct (pl_queue w) as [|e rest] eqn:Hq; [by apply step_drained|].
    constructor; try done; congruence.
  - destruct (pl_open w) eqn:Hop; [right; by apply step_close|by left].
Qed.

Lemma worker_turns_steps n w : rtc pipeline_step w (Nat.iter n worker_turn w).
Proof.
  induction n as [|n IH]; [done|]. simpl.
  destruct (worker_turn_step (Nat.iter n worker_turn w)) as [->|]; [done|]. by eapply rtc_r.
Qed.

(** The operations the worker still has before it. *)
Definition worker_work (w : Pipeline) : nat :=
  match pl_worker w with Running => 3 | Draining => 2 | Stopped => if pl_open w then 1 else 0 end
  + 3 * length (pl_queue w) + 2 * length (held (pl_received w)) + length (held (pl_applying w)).

(** The worker on its way out: nothing it had accepted has been or will be lost. *)
Record leaving (accepted : list ObservationEvent) (w : Pipeline) : Prop := {
  lv_ok : pipeline_ok w;
  lv_accepted : pl_accepted w = accepted;
  lv_told : pl_cancelled w = true ∨ pl_sinks w = false;
  lv_lost : pl_lost w = [];
  lv_stopped : pl_worker w = Stopped → pl_queue w = [];
}.

Lemma worker_turn_leaving accepted w : leaving accepted w →
  leaving accepted (worker_turn w) ∧ (worker_work (worker_turn w) ≤ worker_work w - 1)%nat.
Proof.
  intros [Hok Ha Ht Hl Hs].
  assert (pipeline_ok (worker_turn w)) as Hok'.
  { destruct (worker_turn_step w) as [->|?]; [done|]. by eapply pipeline_step_ok. }
  pose proof (po_stopped w Hok) as Hst. pose proof (po_open w Hok) as Hop.
  revert Hok'. unfold worker_turn, worker_work.
  destruct (pl_applying w) as [e|] eqn:Hap.
  { intros Hok'. split; [by split|]. simpl. destruct (pl_received w); simpl; lia. }
  destruct (pl_received w) as [e|] eqn:Hre.
  { intros Hok'. split; [by split|]. simpl. lia. }
  destruct (pl_worker w) eqn:Hw.
  - destruct (pl_cancelled w) eqn:Hc; [|destruct Ht as [?|Ht]; [done|]; rewrite Ht];
      [|destruct (pl_queue w) as [|e rest] eqn:Hq].
    + intros Hok'. split; [split; simpl; auto; congruence|]. simpl. rewrite Hap, Hre. simpl. lia.
    + intros Hok'. split; [split; simpl; auto; congruence|]. simpl. rewrite Hap, Hre, Hq.
      case_match; simpl; lia.
    + intros Hok'. split; [split; simpl; auto; congruence|]. simpl. rewrite Hap, Hw. simpl. lia.
  - destruct (pl_queue w) as [|e rest] eqn:Hq; intros Hok'.
    + split; [split; simpl; auto; congruence|]. simpl. rewrite Hap, Hre, Hq. case_match; simpl; lia.
    + split; [split; simpl; auto; congruence|]. simpl. rewrite Hap, Hw. simpl. lia.
  - rewrite (Hs eq_refl). destruct (pl_open w) eqn:Hopen; intros Hok'.
    + split; [split; simpl; auto; by rewrite Hl, Hs|]. simpl. rewrite Hap, Hre, Hw. simpl. lia.
    + split; [split; auto|]. rewrite Hap, Hre, Hw, Hopen, (Hs eq_refl). simpl. lia.
Qed.

Lemma worker_turns_leaving accepted n w : leaving accepted w →
  leaving accepted (Nat.iter n worker_turn w)
  ∧ (worker_work (Nat.iter n worker_turn w) ≤ worker_work w - n)%nat.
Proof.
  intros Hl. induction n as [|n [IH1 IH2]]; simpl; [split; [done|lia]|].
  destruct (worker_turn_leaving accepted _ IH1) as [? ?]. split; [done|lia].
Qed.

(** A worker that is told to stop, by the token or by the last sink, and does its remaining
    operations, has applied everything that had been accepted and dropped nothing. *)
Lemma worker_leaves w :
  pipeline_ok w → pl_worker w ≠ Stopped → pl_cancelled w = true ∨ pl_sinks w = false →
  let w' := Nat.iter (3 * length (pl_queue w) + 5) worker_turn w in
  pl_worker w' = Stopped ∧ pl_open w' = false ∧ pl_applied w' = pl_accepted w ∧ pl_lost w' = [].
Proof.
  intros Hok Hw Ht w'. assert (leaving (pl_accepted w) w) as Hl.
  { split; try done. pose proof (po_open w Hok). destruct (pl_open w); [done|]. by destruct H. }
  destruct (worker_turns_leaving _ (3 * length (pl_queue w) + 5) w Hl) as [[Hok' Ha _ Hlost Hs] Hn].
  fold w' in Hok', Ha, Hlost, Hs, Hn.
  assert (worker_work w' = 0)%nat as Hz.
  { revert Hn. unfold worker_work at 2. pose proof (po_one w Hok) as Ho.
    destruct (pl_worker w); [| |by destruct Hw];
      destruct (pl_received w), (pl_applying w); simpl; try lia; by destruct Ho. }
  unfold worker_work in Hz. destruct (pl_worker w') eqn:Hw', (pl_open w') eqn:Hop; try lia.
  destruct (po_stopped w' Hok' Hw') as [[Hre Hap] _].
  split_and!; try done. pose proof (po_accepted w' Hok') as E.
  rewrite Ha, Hap, Hre, Hlost, (Hs eq_refl), app_nil_r in E. done.
Qed.

(** C13: the queue between publishers and the worker loses and reorders nothing while the
    worker runs: under every interleaving of the atomic steps of publishers and worker, the
    events that were accepted are those applied, the one in the worker's hands, those dropped
    with the receiver and those queued, in this order, the projection is the fold of the
    applied ones, the queue never holds more than its capacity, the published depth is the
    number of events queued, being published, in the worker's hands or dropped (so it never
    falls below zero), and each rejected event is counted as dropped once. Before the worker
    has stopped, the receiver is there and no event has been dropped. It stops only at an
    empty queue, with every event applied that had been accepted by then, so that all it can
    lose is what is accepted between its last look at the queue and the return that drops the
    receiver. And a worker that is told to stop, by the token or by the last sink, has
    stopped and closed the queue after at most three operations for each queued event and
    five more, with every accepted event applied and none dropped. *)
Theorem pipeline_exact w :
  rtc pipeline_step Pipeline_new w →
  pl_accepted w = pl_applied w ++ held (pl_applying w) ++ held (pl_received w) ++ pl_lost w ++ pl_queue w
  ∧ pl_projection w = foldl Projection_apply Projection_default (pl_applied w)
  ∧ blen (pl_queue w) ≤ EVENT_QUEUE_CAPACITY
  ∧ pl_depth w = blen (pl_sending w) + pl_refused w + blen (pl_queue w)
      + blen (held (pl_received w)) + blen (pl_lost w)
  ∧ 0 ≤ pl_depth w
  ∧ pl_dropped w + pl_refused w + pl_uncounted w = pl_rejections w
  ∧ (pl_worker w ≠ Stopped → pl_open w = true ∧ pl_lost w = [])
  ∧ (pl_worker w = Stopped → pl_applied w = pl_seen w
      ∧ pl_accepted w = pl_seen w ++ pl_lost w ++ pl_queue w)
  ∧ (pl_worker w ≠ Stopped → pl_cancelled w = true ∨ pl_sinks w = false →
      let w' := Nat.iter (3 * length (pl_queue w) + 5) worker_turn w in
      rtc pipeline_step w w'
      ∧ pl_worker w' = Stopped ∧ pl_open w' = false ∧ pl_applied w' = pl_accepted w ∧ pl_lost w' = [])
  ∧ ov_event_queue_depth (store_snapshot w) = pl_depth w.
Proof.
  intros Hok%pipeline_reachable_ok. pose proof Hok as [Ha Hp Hd Hc Hb Hl Ho Hs].
  split_and!; try done.
  - rewrite Hd, blen_held. pose proof (blen_nonneg (pl_sending w)).
    pose proof (blen_nonneg (pl_queue w)). pose proof (blen_nonneg (pl_lost w)).
    destruct Hc as (?&_&_). destruct (pl_received w); lia.
  - apply Hc.
  - intros Hw. destruct (pl_open w); [done|by destruct Hl].
  - intros Hw. destruct (Hs Hw) as [[Hre Hap] E]. split; [done|]. by rewrite Ha, Hre, Hap, E.
  - intros Hw Ht. split; [apply worker_turns_steps|]. by apply worker_leaves.
Qed.

(** An event queued before the shutdown is applied before the worker ends. *)
Lemma pipeline_exact_witness :
  let e := Heartbeat (demo_client 3) 5 in
  let w := shutdown_cancelled (publish_send (publish_begin Pipeline_new e) e []) in
  let w' := Nat.iter (3 * length (pl_queue w) + 5) worker_turn w in
  pl_queue w = [e] ∧ pl_applied w' = [e] ∧ pl_lost w' = [] ∧ pl_open w' = false ∧ pl_depth w' = 0.
Proof.
  cbv zeta. set (e := Heartbeat (demo_client 3) 5).
  assert (rtc pipeline_step Pipeline_new
    (shutdown_cancelled (publish_send (publish_begin Pipeline_new e) e []))) as Hrun.
  { eapply rtc_l; [by apply (step_publish _ e)|]. eapply rtc_l; [apply (step_send _ e []); reflexivity|].
    eapply rtc_l; [apply step_cancel|]. apply rtc_refl. }
  destruct (pipeline_exact _ Hrun) as (_&_&_&_&_&_&_&_&Hend&_).
  destruct (Hend ltac:(discriminate) (or_introl eq_refl)) as (_&_&Ho&Ha&Hl).
  split_and!; [reflexivity|exact Ha|exact Hl|exact Ho|reflexivity].
Defined.
