(* ===== verification/Limiter.v ===== *)
(** Admission of unauthenticated peers ([rustgos/src/auth.rs]): the buckets peers are counted
    in, the limit of TLS handshakes in flight, and the limiter of authentication attempts
    with its failure history, its indexes of idle peers and its attempt budget. *)

From S2P Require Import Prelude.
From S2P Require Import Ordered.
From Stdlib Require Import Strings.Byte.
From stdpp Require Import prelude gmap list.

#[local] Open Scope Z_scope.

(** * Peers *)

(** [IpAddr], as its octets: four and sixteen of them. *)
Inductive IpAddr := IpV4 (octets : list byte) | IpV6 (octets : list byte).

Inductive PeerBucket := BucketV4 (octets : list byte) | BucketV6Prefix64 (octets : list byte).
#[export] Instance peer_bucket_eq_dec : EqDecision PeerBucket.
Proof. solve_decision. Defined.
#[export] Program Instance peer_bucket_countable : Countable PeerBucket :=
  inj_countable' (λ p, match p with BucketV4 b => inl b | BucketV6Prefix64 b => inr b end)
    (λ x, match x with inl b => BucketV4 b | inr b => BucketV6Prefix64 b end) _.
Next Obligation. by intros []. Qed.

(** The derived order: the variants in order, then the octets. *)
Definition peer_le (a b : PeerBucket) : bool :=
  match a, b with
  | BucketV4 x, BucketV4 y => bytes_le x y
  | BucketV4 _, BucketV6Prefix64 _ => true
  | BucketV6Prefix64 _, BucketV4 _ => false
  | BucketV6Prefix64 x, BucketV6Prefix64 y => bytes_le x y
  end.
#[export] Instance peer_ord : OrdLaws peer_le.
Proof.
  split.
  - intros [a|a] [b|b]; simpl; try done; apply ole_total.
  - intros [a|a] [b|b] [c|c]; simpl; try done; apply ole_trans.
  - intros [a|a] [b|b]; simpl; try done; intros ? ?; f_equal; by apply ole_antisym.
Qed.

(** [Ipv6Addr::to_ipv4_mapped]: [::ffff:a.b.c.d]. *)
Definition to_ipv4_mapped (octets : list byte) : option (list byte) :=
  if bool_decide (take 12 octets = replicate 10 x00 ++ [xff; xff]) then Some (drop 12 octets)
  else None.
Definition PeerBucket_from (peer : IpAddr) : PeerBucket :=
  match peer with
  | IpV4 octets => BucketV4 octets
  | IpV6 octets =>
    match to_ipv4_mapped octets with
    | Some mapped => BucketV4 mapped
    | None => BucketV6Prefix64 (take 8 octets)
    end
  end.

Definition AUTH_ATTEMPT_SHARDS_PER_FAMILY : Z := 8.
Definition AUTH_ATTEMPT_SHARDS : Z := AUTH_ATTEMPT_SHARDS_PER_FAMILY * 2.

(** [PeerBucket::attempt_shard]: the FNV-1a hash of the octets on 64 bits. *)
Definition fnv_step (hash : Z) (b : byte) : Z :=
  (Z.lxor hash (byte_val b) * 1099511628211) `mod` (u64_max + 1).
Definition attempt_shard (peer : PeerBucket) : nat :=
  let '(family_offset, bytes) :=
    match peer with
    | BucketV4 b => (0, b)
    | BucketV6Prefix64 b => (AUTH_ATTEMPT_SHARDS_PER_FAMILY, b)
    end in
  let hash := foldl fnv_step 14695981039346656037 bytes in
  Z.to_nat (family_offset + hash `mod` AUTH_ATTEMPT_SHARDS_PER_FAMILY).

(** A subtraction of [usize], which must not go below zero: [None] is the panic of a checked
    build and the wrap-around of a release build. *)
Definition usize_sub (a b : Z) : option Z := if a <? b then None else Some (a - b).

(** * TLS handshakes *)

Module Tls.
Definition Handshakes : Type := gmap PeerBucket Z.

(** [TlsHandshakeLimiter::try_acquire]; the entry is made before it is tested. *)
Definition try_acquire (max_in_flight_per_peer : Z) (s : Handshakes) (peer : PeerBucket)
    : bool * Handshakes :=
  let in_flight := default 0 (s !! peer) in
  if max_in_flight_per_peer <=? in_flight then (false, <[peer := in_flight]> s)
  else (true, <[peer := in_flight + 1]> s).

(** [Drop for TlsHandshakePermit]. *)
Definition release (s : Handshakes) (peer : PeerBucket) : option Handshakes :=
  match s !! peer with
  | None => Some s
  | Some in_flight =>
    in_flight ← usize_sub in_flight 1;
    Some (if in_flight =? 0 then delete peer s else <[peer := in_flight]> s)
  end.
End Tls.

(** * Authentication attempts *)

Record PeerAttempts := { failures : list Z; pa_pending : Z }.
Record AttemptBudgetShard := { window_opened : option Z; used : Z; capacity : Z }.

(** The idle peers with failures, by the time of the last one. *)
Definition Idle : Type := list (Z * PeerBucket).
Definition idle_le : Z * PeerBucket → Z * PeerBucket → bool := pair_le peer_le.
#[export] Instance idle_ord : OrdLaws idle_le.
Proof. apply pair_ord, peer_ord. Qed.

Record FailedAuthState := {
  buckets : gmap PeerBucket PeerAttempts;
  evictable_idle_failures : Idle;
  protected_idle_failures : Idle;
  attempt_budget : list AttemptBudgetShard;
  overflow_pending_by_peer : gmap PeerBucket Z;
  total_failure_records : Z;
  total_pending : Z;
  total_overflow_pending : Z;
}.
(** The configuration in [FailedAuthLimiter]; [window] in nanoseconds. *)
Record FailedAuthLimiter := {
  max_attempts : Z;
  window : Z;
  max_tracked_peers : Z;
  max_attempt_records : Z;
}.

Definition FailedAuthState_new (max_attempts_per_window : Z) : FailedAuthState :=
  let base_capacity := max_attempts_per_window / AUTH_ATTEMPT_SHARDS in
  let extra_capacity := max_attempts_per_window `mod` AUTH_ATTEMPT_SHARDS in
  {| buckets := ∅; evictable_idle_failures := []; protected_idle_failures := [];
     attempt_budget :=
       (λ shard, {| window_opened := None; used := 0;
                    capacity := base_capacity + (if shard <? extra_capacity then 1 else 0) |})
       <$> seqZ 0 AUTH_ATTEMPT_SHARDS;
     overflow_pending_by_peer := ∅; total_failure_records := 0; total_pending := 0;
     total_overflow_pending := 0 |}.

(** Field updates. *)
Definition with_buckets (s : FailedAuthState) (b : gmap PeerBucket PeerAttempts) : FailedAuthState :=
  Build_FailedAuthState b (evictable_idle_failures s) (protected_idle_failures s) (attempt_budget s)
    (overflow_pending_by_peer s) (total_failure_records s) (total_pending s) (total_overflow_pending s).
Definition with_idle (s : FailedAuthState) (evictable protected : Idle) : FailedAuthState :=
  Build_FailedAuthState (buckets s) evictable protected (attempt_budget s)
    (overflow_pending_by_peer s) (total_failure_records s) (total_pending s) (total_overflow_pending s).
Definition with_budget (s : FailedAuthState) (b : list AttemptBudgetShard) : FailedAuthState :=
  Build_FailedAuthState (buckets s) (evictable_idle_failures s) (protected_idle_failures s) b
    (overflow_pending_by_peer s) (total_failure_records s) (total_pending s) (total_overflow_pending s).
Definition with_overflow (s : FailedAuthState) (m : gmap PeerBucket Z) (t : Z) : FailedAuthState :=
  Build_FailedAuthState (buckets s) (evictable_idle_failures s) (protected_idle_failures s)
    (attempt_budget s) m (total_failure_records s) (total_pending s) t.
Definition with_failure_records (s : FailedAuthState) (n : Z) : FailedAuthState :=
  Build_FailedAuthState (buckets s) (evictable_idle_failures s) (protected_idle_failures s)
    (attempt_budget s) (overflow_pending_by_peer s) n (total_pending s) (total_overflow_pending s).
Definition with_total_pending (s : FailedAuthState) (n : Z) : FailedAuthState :=
  Build_FailedAuthState (buckets s) (evictable_idle_failures s) (protected_idle_failures s)
    (attempt_budget s) (overflow_pending_by_peer s) (total_failure_records s) n (total_overflow_pending s).

(** [tokio::time::Instant::duration_since]. *)
Definition duration_since (now earlier : Z) : Z := saturating_sub now earlier.

(** [trim_expired]: the attempts that stay, and how many were removed. *)
Fixpoint trim_expired (attempts : list Z) (now span : Z) : list Z * Z :=
  match attempts with
  | attempt :: rest =>
    if span <=? duration_since now attempt then
      let '(kept, removed) := trim_expired rest now span in (kept, removed + 1)
    else (attempts, 0)
  | [] => ([], 0)
  end.

(** Both indexes forget a peer with its last failure at [t]. *)
Definition unindex (s : FailedAuthState) (t : Z) (peer : PeerBucket) : FailedAuthState :=
  with_idle s (bt_remove (t, peer) (evictable_idle_failures s))
    (bt_remove (t, peer) (protected_idle_failures s)).
Definition unindex_bucket (s : FailedAuthState) (b : PeerAttempts) (peer : PeerBucket)
    : FailedAuthState :=
  match last (failures b) with
  | Some t => if pa_pending b =? 0 then unindex s t peer else s
  | None => s
  end.

Definition insert_bucket (s : FailedAuthState) (peer : PeerBucket) (b : PeerAttempts)
    (max_attempts : Z) : FailedAuthState :=
  if (pa_pending b =? 0) && bool_decide (failures b = []) then s else
  let s :=
    match last (failures b) with
    | Some t =>
      if pa_pending b =? 0 then
        if max_attempts <=? blen (failures b)
        then with_idle s (evictable_idle_failures s)
               (bt_insert idle_le (t, peer) (protected_idle_failures s))
        else with_idle s (bt_insert idle_le (t, peer) (evictable_idle_failures s))
               (protected_idle_failures s)
      else s
    | None => s
    end in
  with_buckets s (<[peer := b]> (buckets s)).

Definition overflow_pending_for (s : FailedAuthState) (peer : PeerBucket) : Z :=
  default 0 (overflow_pending_by_peer s !! peer).

(** [consume_attempt_budget], on the shard of the peer. *)
Definition consume_shard (now span : Z) (shard : AttemptBudgetShard) : bool * AttemptBudgetShard :=
  let shard :=
    if match window_opened shard with Some started => span <=? duration_since now started | None => true end
    then {| window_opened := Some now; used := 0; capacity := capacity shard |} else shard in
  if capacity shard <=? used shard then (false, shard)
  else (true, {| window_opened := window_opened shard; used := used shard + 1;
                 capacity := capacity shard |}).
Definition consume_attempt_budget (s : FailedAuthState) (peer : PeerBucket) (now span : Z)
    : option (bool * FailedAuthState) :=
  shard ← attempt_budget s !! attempt_shard peer;
  let '(allowed, shard) := consume_shard now span shard in
  Some (allowed, with_budget s (<[attempt_shard peer := shard]> (attempt_budget s))).
Definition refund_attempt_budget (s : FailedAuthState) (peer : PeerBucket) : option FailedAuthState :=
  shard ← attempt_budget s !! attempt_shard peer;
  Some (with_budget s (<[attempt_shard peer :=
    {| window_opened := window_opened shard; used := saturating_sub (used shard) 1;
       capacity := capacity shard |}]> (attempt_budget s))).

(** [try_reserve_overflow]; the entry is made before it is tested. *)
Definition try_reserve_overflow (s : FailedAuthState) (peer : PeerBucket) (peer_headroom : Z)
    : bool * FailedAuthState :=
  let pending := overflow_pending_for s peer in
  if peer_headroom <=? pending
  then (false, with_overflow s (<[peer := pending]> (overflow_pending_by_peer s)) (total_overflow_pending s))
  else (true, with_overflow s (<[peer := pending + 1]> (overflow_pending_by_peer s))
                (total_overflow_pending s + 1)).

Definition release_overflow (s : FailedAuthState) (peer : PeerBucket) : option (bool * FailedAuthState) :=
  match overflow_pending_by_peer s !! peer with
  | None => Some (false, s)
  | Some pending =>
    if pending =? 0 then Some (false, s) else
    pending ← usize_sub pending 1;
    total ← usize_sub (total_overflow_pending s) 1;
    Some (true, with_overflow s
      (if pending =? 0 then delete peer (overflow_pending_by_peer s)
       else <[peer := pending]> (overflow_pending_by_peer s)) total)
  end.

Definition clear_peer_failures (s : FailedAuthState) (peer : PeerBucket) : option FailedAuthState :=
  match buckets s !! peer with
  | None => Some s
  | Some b =>
    let s := unindex_bucket (with_buckets s (delete peer (buckets s))) b peer in
    total ← usize_sub (total_failure_records s) (blen (failures b));
    let s := with_failure_records s total in
    Some (if pa_pending b =? 0 then s
          else with_buckets s (<[peer := {| failures := []; pa_pending := pa_pending b |}]> (buckets s)))
  end.

(** [evict_one_low_value_idle] and [reclaim_one_expired_protected]: a peer leaves the table
    with its failures. *)
Definition forget (s : FailedAuthState) (peer : PeerBucket) : option (bool * FailedAuthState) :=
  match buckets s !! peer with
  | None => Some (false, s)
  | Some b =>
    total ← usize_sub (total_failure_records s) (blen (failures b));
    Some (true, with_failure_records (with_buckets s (delete peer (buckets s))) total)
  end.
Definition evict_one_low_value_idle (s : FailedAuthState) : option (bool * FailedAuthState) :=
  match evictable_idle_failures s with
  | [] => Some (false, s)
  | (_, peer) :: rest => forget (with_idle s rest (protected_idle_failures s)) peer
  end.
Definition reclaim_one_expired_protected (s : FailedAuthState) (now span : Z)
    : option (bool * FailedAuthState) :=
  match protected_idle_failures s with
  | [] => Some (false, s)
  | (last_failure, peer) :: rest =>
    if duration_since now last_failure <? span then Some (false, s)
    else forget (with_idle s (evictable_idle_failures s) rest) peer
  end.

(** The answer of [reserve]: refused, or admitted with or without a place in the table. *)
Inductive Reservation := Refused | Granted (tracked : bool).

Definition reinsert (c : FailedAuthLimiter) (s : FailedAuthState) (peer : PeerBucket)
    (b : option PeerAttempts) : FailedAuthState :=
  match b with Some b => insert_bucket s peer b (max_attempts c) | None => s end.

(** The [while] loop of [reserve] and what follows it; [fuel] bounds the rounds. *)
Fixpoint make_room (c : FailedAuthLimiter) (fuel : nat) (now : Z) (peer : PeerBucket)
    (b : option PeerAttempts) (s : FailedAuthState) : option (Reservation * FailedAuthState) :=
  if (bool_decide (b = None) && (max_tracked_peers c <=? Z.of_nat (size (buckets s))))
     || (max_attempt_records c
         <=? saturating_add u64_max (total_failure_records s) (total_pending s))
  then
    match fuel with
    | O => None
    | S fuel =>
      '(evicted, s) ← evict_one_low_value_idle s;
      if (evicted : bool) then make_room c fuel now peer b s else
      '(reclaimed, s) ← reclaim_one_expired_protected s now (window c);
      if (reclaimed : bool) then make_room c fuel now peer b s else
      let tracked_peer_records :=
        match b with Some b => saturating_add u64_max (blen (failures b)) (pa_pending b) | None => 0 end in
      let overflow_headroom := saturating_sub (max_attempts c) tracked_peer_records in
      let '(reserved, s) :=
        if (total_failure_records s =? 0)
           || (max_attempt_records c
               <=? saturating_add u64_max (total_pending s) (total_overflow_pending s))
        then (false, s) else try_reserve_overflow s peer overflow_headroom in
      let s := reinsert c s peer b in
      if reserved then Some (Granted false, s) else
      s ← refund_attempt_budget s peer; Some (Refused, s)
    end
  else
    let b := default {| failures := []; pa_pending := 0 |} b in
    Some (Granted true,
          with_total_pending
            (with_buckets s (<[peer := {| failures := failures b; pa_pending := pa_pending b + 1 |}]> (buckets s)))
            (total_pending s + 1)).

(** The bucket of a peer leaves the table and its index, without its expired failures. *)
Definition take_bucket (c : FailedAuthLimiter) (now : Z) (peer : PeerBucket) (s : FailedAuthState)
    : option (option PeerAttempts * FailedAuthState) :=
  match buckets s !! peer with
  | None => Some (None, s)
  | Some b =>
    let s := unindex_bucket (with_buckets s (delete peer (buckets s))) b peer in
    let '(kept, removed) := trim_expired (failures b) now (window c) in
    total ← usize_sub (total_failure_records s) removed;
    Some (Some {| failures := kept; pa_pending := pa_pending b |}, with_failure_records s total)
  end.

(** [reserve], with its loop in [make_room]. *)
Definition reserve (c : FailedAuthLimiter) (now : Z) (peer : PeerBucket) (s : FailedAuthState)
    : option (Reservation * FailedAuthState) :=
  '(b, s) ← take_bucket c now peer s;
  let tracked_peer_records :=
    match b with Some b => saturating_add u64_max (blen (failures b)) (pa_pending b) | None => 0 end in
  if max_attempts c <=? saturating_add u64_max tracked_peer_records (overflow_pending_for s peer)
  then Some (Refused, reinsert c s peer b) else
  if max_attempt_records c <=? saturating_add u64_max (total_pending s) (total_overflow_pending s)
  then Some (Refused, reinsert c s peer b) else
  '(allowed, s) ← consume_attempt_budget s peer now (window c);
  if negb allowed then Some (Refused, reinsert c s peer b) else
  make_room c (S (length (evictable_idle_failures s) + length (protected_idle_failures s)))
    now peer b s.

Inductive ReservationOutcome := Succeeded | Failed | Neutral.

(** [FailedAuthLimiter::resolve]; [now] and [now'] are the two readings of the clock. *)
Definition resolve (c : FailedAuthLimiter) (now now' : Z) (peer : PeerBucket) (tracked : bool)
    (o : ReservationOutcome) (s : FailedAuthState) : option FailedAuthState :=
  if negb tracked then
    '(released, s) ← release_overflow s peer;
    if (released : bool) then match o with Succeeded => clear_peer_failures s peer | _ => Some s end
    else Some s
  else
    match buckets s !! peer with
    | None => Some s
    | Some b =>
      let s := with_buckets s (delete peer (buckets s)) in
      if pa_pending b =? 0 then Some (insert_bucket s peer b (max_attempts c)) else
      pending ← usize_sub (pa_pending b) 1;
      total ← usize_sub (total_pending s) 1;
      let '(kept, removed) := trim_expired (failures b) now (window c) in
      records ← usize_sub (total_failure_records s) removed;
      '(kept, records) ←
        match o with
        | Succeeded => records ← usize_sub records (blen kept); Some ([], records)
        | Failed => Some (kept ++ [now'], records + 1)
        | Neutral => Some (kept, records)
        end;
      let b := {| failures := kept; pa_pending := pending |} in
      let s := with_failure_records (with_total_pending s total) records in
      Some (if negb (pending =? 0) || negb (bool_decide (kept = []))
            then insert_bucket s peer b (max_attempts c) else s)
    end.

(** A reservation and the flag that [finish] sets: only the first outcome counts. *)
Record AuthAttemptReservation := { rv_peer : PeerBucket; rv_tracked : bool; rv_resolved : bool }.
Definition finish (c : FailedAuthLimiter) (now now' : Z) (r : AuthAttemptReservation)
    (o : ReservationOutcome) (s : FailedAuthState) : option (AuthAttemptReservation * FailedAuthState) :=
  if rv_resolved r then Some (r, s) else
  s ← resolve c now now' (rv_peer r) (rv_tracked r) o s;
  Some ({| rv_peer := rv_peer r; rv_tracked := rv_tracked r; rv_resolved := true |}, s).
