(* ===== verification/LimiterFacts.v ===== *)
(** The limiter of authentication attempts keeps exact books in every reachable state, never
    computes below zero, and locks a peer out once its failures reach the limit. *)

From S2P Require Import Prelude.
From S2P Require Import Ordered.
From S2P Require Import RateWindow.
From S2P Require Import Limiter.
From Stdlib Require Import Strings.Byte.
From stdpp Require Import prelude gmap list sorting.

#[local] Open Scope Z_scope.

(** * Counting *)

(** How many reservations of a list satisfy a test. *)
Definition tally {A} (f : A → bool) (l : list A) : Z := blen (List.filter f l).

Lemma tally_cons {A} (f : A → bool) x l : tally f (x :: l) = (if f x then 1 else 0) + tally f l.
Proof. unfold tally. simpl. destruct (f x); blen_lia. Qed.

Lemma tally_perm {A} (f : A → bool) l k : l ≡ₚ k → tally f l = tally f k.
Proof. induction 1; rewrite ?tally_cons in *; lia. Qed.

Lemma tally_nonneg {A} (f : A → bool) l : 0 ≤ tally f l.
Proof. apply blen_nonneg. Qed.

(** * The invariant *)

(** What is outstanding: the reservations that have not been resolved. *)
Definition tracked (out : list AuthAttemptReservation) (p : PeerBucket) : Z :=
  tally (λ r, rv_tracked r && bool_decide (rv_peer r = p)) out.
Definition untracked (out : list AuthAttemptReservation) (p : PeerBucket) : Z :=
  tally (λ r, negb (rv_tracked r) && bool_decide (rv_peer r = p)) out.

Definition failure_count (b : PeerAttempts) : Z := blen (failures b).

(** A peer's history: in order, and not in the future. *)
Definition history_ok (clock : Z) (l : list Z) : Prop :=
  StronglySorted Z.le l ∧ Forall (λ t, t ≤ clock) l.

(** The table together with the bucket a call has taken out of it. *)
Definition with_hole (m : gmap PeerBucket PeerAttempts) (hole : option (PeerBucket * PeerAttempts))
    : gmap PeerBucket PeerAttempts :=
  match hole with Some (p, b) => <[p := b]> m | None => m end.
Definition records (m : gmap PeerBucket PeerAttempts) (p : PeerBucket) : Z :=
  match m !! p with Some b => failure_count b | None => 0 end.

(** The idle peers below and at the limit, as the table says. *)
Definition idle_at (m : gmap PeerBucket PeerAttempts) (q : Z → bool) (t : Z) (p : PeerBucket) : Prop :=
  ∃ b, m !! p = Some b ∧ pa_pending b = 0 ∧ last (failures b) = Some t ∧ q (failure_count b) = true.

Record limiter_at (c : FailedAuthLimiter) (clock : Z) (out : list AuthAttemptReservation)
    (st : FailedAuthState) (hole : option (PeerBucket * PeerAttempts)) : Prop := {
  lm_hole : match hole with Some (p, _) => buckets st !! p = None | None => True end;
  lm_failures : total_failure_records st = msum failure_count (with_hole (buckets st) hole);
  lm_pending : total_pending st = tally rv_tracked out;
  lm_overflow : total_overflow_pending st = tally (λ r, negb (rv_tracked r)) out;
  lm_bucket : ∀ p b, with_hole (buckets st) hole !! p = Some b →
    pa_pending b = tracked out p ∧ history_ok clock (failures b);
  lm_live : ∀ p b, buckets st !! p = Some b → pa_pending b ≠ 0 ∨ failures b ≠ [];
  lm_absent : ∀ p, with_hole (buckets st) hole !! p = None → tracked out p = 0;
  lm_overflow_at : ∀ p, overflow_pending_by_peer st !! p
    = if untracked out p =? 0 then None else Some (untracked out p);
  lm_peer : ∀ p, records (with_hole (buckets st) hole) p + tracked out p + untracked out p ≤ max_attempts c;
  lm_evictable : ∀ t p, (t, p) ∈ evictable_idle_failures st
    ↔ idle_at (buckets st) (λ n, n <? max_attempts c) t p;
  lm_protected : ∀ t p, (t, p) ∈ protected_idle_failures st
    ↔ idle_at (buckets st) (λ n, max_attempts c <=? n) t p;
  lm_ascending : ascending idle_le (evictable_idle_failures st)
    ∧ ascending idle_le (protected_idle_failures st);
  lm_size : Z.of_nat (size (buckets st)) ≤ max_tracked_peers c;
  lm_records : total_failure_records st + total_pending st ≤ max_attempt_records c;
  lm_inflight : total_pending st + total_overflow_pending st ≤ max_attempt_records c;
  lm_budget : length (attempt_budget st) = Z.to_nat AUTH_ATTEMPT_SHARDS
    ∧ Forall (λ s, 0 ≤ used s) (attempt_budget st);
}.
Definition limiter_ok c clock out st : Prop := limiter_at c clock out st None.

(** The limits are [usize]s. *)
Definition config_ok (c : FailedAuthLimiter) : Prop :=
  0 ≤ max_attempts c ≤ u64_max ∧ 0 ≤ max_attempt_records c ≤ u64_max ∧ 0 ≤ max_tracked_peers c
  ∧ 0 < window c.

Lemma failure_count_nonneg b : 0 ≤ failure_count b.
Proof. apply blen_nonneg. Qed.

Lemma usize_sub_Some a b : b ≤ a → usize_sub a b = Some (a - b).
Proof. intros ?. unfold usize_sub. by rewrite (proj2 (Z.ltb_ge _ _)) by lia. Qed.

Lemma limiter_clock c clock clock' out st hole :
  clock ≤ clock' → limiter_at c clock out st hole → limiter_at c clock' out st hole.
Proof.
  intros Hle []. split; try done. intros p b Hb. destruct (lm_bucket0 p b Hb) as [? [? Hf]].
  split; [done|]. split; [done|]. eapply Forall_impl; [exact Hf|]. simpl. lia.
Qed.

Lemma limiter_new c budget :
  config_ok c → 0 ≤ budget → limiter_ok c 0 [] (FailedAuthState_new budget).
Proof.
  intros (Ha&Hr&Ht&_) Hb. split; simpl; try done; try (by intros; rewrite lookup_empty in *); try lia.
  - intros p. unfold records. rewrite lookup_empty. change (0 + 0 + 0 ≤ max_attempts c). lia.
  - intros t p. split; [by intros ?%elem_of_nil|]. by intros (b&?%lookup_empty_Some&_).
  - intros t p. split; [by intros ?%elem_of_nil|]. by intros (b&?%lookup_empty_Some&_).
  - split; apply ascending_nil.
  - split; [done|]. repeat (constructor; [done|]). constructor.
Qed.

(** * Taking a bucket out and putting it back *)

Lemma idle_at_delete m q t p k :
  idle_at (delete k m) q t p ↔ p ≠ k ∧ idle_at m q t p.
Proof.
  unfold idle_at. split.
  - intros (b&[? ?]%lookup_delete_Some&?). split; [done|]. by exists b.
  - intros (?&b&?&?). exists b. by rewrite lookup_delete_ne.
Qed.

Lemma unindex_bucket_frame st b p :
  let s := unindex_bucket st b p in
  buckets s = buckets st ∧ attempt_budget s = attempt_budget st
  ∧ overflow_pending_by_peer s = overflow_pending_by_peer st
  ∧ total_failure_records s = total_failure_records st ∧ total_pending s = total_pending st
  ∧ total_overflow_pending s = total_overflow_pending st.
Proof. unfold unindex_bucket. by repeat case_match. Qed.

(** The indexes after a bucket has been taken out. *)
Lemma unindex_idle (le_ : Z → bool) (st : FailedAuthState) (l : Idle) p b :
  buckets st !! p = Some b →
  (∀ t q, (t, q) ∈ l ↔ idle_at (buckets st) le_ t q) →
  ∀ t q, (t, q) ∈ (match last (failures b) with
                   | Some u => if pa_pending b =? 0 then bt_remove (u, p) l else l | None => l end)
         ↔ idle_at (delete p (buckets st)) le_ t q.
Proof.
  intros Hp Hl t q. rewrite idle_at_delete.
  destruct (last (failures b)) as [u|] eqn:Hu; [destruct (Z.eqb_spec (pa_pending b) 0) as [E|E]|].
  - rewrite elem_of_bt_remove, Hl. split.
    + intros [Hne Hi]. split; [|done]. intros ->. destruct Hi as (b'&Hb'&_&Hu'&_). congruence.
    + intros [Hne Hi]. split; [congruence|done].
  - rewrite Hl. split; [|by intros [_ ?]]. intros Hi. split; [|done]. intros ->.
    destruct Hi as (b'&Hb'&?&_). congruence.
  - rewrite Hl. split; [|by intros [_ ?]]. intros Hi. split; [|done]. intros ->.
    destruct Hi as (b'&Hb'&_&?&_). congruence.
Qed.

Lemma unindex_bucket_idle st b p :
  evictable_idle_failures (unindex_bucket st b p)
  = (match last (failures b) with
     | Some u => if pa_pending b =? 0 then bt_remove (u, p) (evictable_idle_failures st)
                 else evictable_idle_failures st
     | None => evictable_idle_failures st end)
  ∧ protected_idle_failures (unindex_bucket st b p)
    = (match last (failures b) with
       | Some u => if pa_pending b =? 0 then bt_remove (u, p) (protected_idle_failures st)
                   else protected_idle_failures st
       | None => protected_idle_failures st end).
Proof. unfold unindex_bucket. by repeat case_match. Qed.

Lemma take_ok c clock out st p b :
  limiter_ok c clock out st → buckets st !! p = Some b →
  let s := unindex_bucket (with_buckets st (delete p (buckets st))) b p in
  limiter_at c clock out s (Some (p, b))
  ∧ Z.of_nat (size (buckets s)) < max_tracked_peers c.
Proof.
  intros [_ Hf Hp Ho Hb Hlive Habs Hov Hpeer He Hpr Ha Hs Hr Hi Hbu] Hl. simpl in *.
  set (st1 := with_buckets st (delete p (buckets st))).
  destruct (unindex_bucket_frame st1 b p) as (E1&E2&E3&E4&E5&E6).
  destruct (unindex_bucket_idle st1 b p) as [E7 E8].
  assert (<[p:=b]> (delete p (buckets st)) = buckets st) as Hfull by by apply insert_delete_id.
  assert (size (buckets st) = S (size (delete p (buckets st)))) as Hsz.
  { rewrite <- Hfull at 1. apply map_size_insert_None, lookup_delete_eq. }
  split; [split|]; rewrite ?E1, ?E2, ?E3, ?E4, ?E5, ?E6, ?E7, ?E8; simpl; rewrite ?Hfull; try done; try lia.
  - apply lookup_delete_eq.
  - intros q b' [_ ?]%lookup_delete_Some. by eapply Hlive.
  - by apply unindex_idle.
  - by apply unindex_idle.
  - destruct Ha. split; repeat case_match; try done; by apply ascending_remove.
Qed.

(** The indexes after a bucket has been put back. *)
Lemma index_idle (g : Z → bool) m l p b t q :
  m !! p = None → (∀ t q, (t, q) ∈ l ↔ idle_at m g t q) →
  (t, q) ∈ (match last (failures b) with
            | Some u => if (pa_pending b =? 0) && g (failure_count b) then bt_insert idle_le (u, p) l else l
            | None => l end)
  ↔ idle_at (<[p:=b]> m) g t q.
Proof.
  intros Hp Hl. destruct (decide (q = p)) as [->|Hqp].
  - assert ((t, p) ∉ l) as Hn by (intros (b'&?&_)%Hl; congruence).
    assert (idle_at (<[p:=b]> m) g t p
      ↔ pa_pending b = 0 ∧ last (failures b) = Some t ∧ g (failure_count b) = true) as ->.
    { unfold idle_at. rewrite lookup_insert_eq. split; [by intros (?&[= <-]&?)|]. intros ?. by exists b. }
    destruct (last (failures b)) as [u|]; [|split; [done|by intros (_&?&_)]].
    destruct (Z.eqb_spec (pa_pending b) 0); simpl; [|split; [done|by intros (?&_)]].
    destruct (g (failure_count b)); [|split; [done|by intros (_&_&?)]].
    rewrite elem_of_bt_insert. split; [intros [[= ->]|?]; [done|done]|]. intros (_&[= ->]&_). by left.
  - assert (idle_at (<[p:=b]> m) g t q ↔ idle_at m g t q) as ->
      by (unfold idle_at; by rewrite lookup_insert_ne).
    rewrite <- Hl. destruct (last (failures b)); [|done]. destruct (_ && _); [|done].
    rewrite elem_of_bt_insert. split; [intros [[= _ ?]|?]; [congruence|done]|by right].
Qed.

(** Putting a bucket back, or leaving an empty one out. *)
Lemma put_ok c clock out st p b :
  limiter_at c clock out st (Some (p, b)) →
  Z.of_nat (size (buckets st)) < max_tracked_peers c ∨ (pa_pending b = 0 ∧ failures b = []) →
  limiter_ok c clock out (insert_bucket st p b (max_attempts c)).
Proof.
  intros [Hh Hf Hp Ho Hb Hlive Habs Hov Hpeer He Hpr Ha Hs Hr Hi Hbu] Hsz. simpl in *.
  destruct (Hb p b) as [Hbp Hbh]; [apply lookup_insert_eq|].
  unfold insert_bucket.
  destruct ((pa_pending b =? 0) && bool_decide (failures b = [])) eqn:Hempty.
  - apply andb_true_iff in Hempty as [Hz%Z.eqb_eq Hnil%bool_decide_eq_true].
    split; simpl; try done.
    + rewrite Hf, msum_insert by done. unfold failure_count. by rewrite Hnil.
    + intros q b' Hq. apply Hb. rewrite lookup_insert_ne; [done|congruence].
    + intros q Hq. destruct (decide (q = p)) as [->|Hqp]; [congruence|].
      apply Habs. by rewrite lookup_insert_ne.
    + intros q. specialize (Hpeer q). unfold records in *. destruct (decide (q = p)) as [->|Hqp].
      * rewrite lookup_insert_eq in Hpeer. rewrite Hh. pose proof (failure_count_nonneg b). lia.
      * by rewrite lookup_insert_ne in Hpeer.
  - assert (pa_pending b ≠ 0 ∨ failures b ≠ []) as Hlb.
    { destruct (Z.eqb_spec (pa_pending b) 0); [|by left]. simpl in Hempty.
      apply bool_decide_eq_false in Hempty. by right. }
    set (st1 := match last (failures b) with Some t => _ | None => st end).
    assert (buckets st1 = buckets st ∧ attempt_budget st1 = attempt_budget st
      ∧ overflow_pending_by_peer st1 = overflow_pending_by_peer st
      ∧ total_failure_records st1 = total_failure_records st ∧ total_pending st1 = total_pending st
      ∧ total_overflow_pending st1 = total_overflow_pending st) as (E1&E2&E3&E4&E5&E6)
      by (unfold st1; by repeat case_match).
    assert (evictable_idle_failures st1
      = (match last (failures b) with
         | Some u => if (pa_pending b =? 0) && (failure_count b <? max_attempts c)
                     then bt_insert idle_le (u, p) (evictable_idle_failures st)
                     else evictable_idle_failures st
         | None => evictable_idle_failures st end)) as E7.
    { unfold st1, failure_count. destruct (last (failures b)); [|done].
      destruct (pa_pending b =? 0); [|done]. simpl.
      by destruct (Z.leb_spec (max_attempts c) (blen (failures b))), (Z.ltb_spec (blen (failures b)) (max_attempts c)); try lia. }
    assert (protected_idle_failures st1
      = (match last (failures b) with
         | Some u => if (pa_pending b =? 0) && (max_attempts c <=? failure_count b)
                     then bt_insert idle_le (u, p) (protected_idle_failures st)
                     else protected_idle_failures st
         | None => protected_idle_failures st end)) as E8.
    { unfold st1, failure_count. destruct (last (failures b)); [|done].
      destruct (pa_pending b =? 0); [|done]. simpl. by destruct (max_attempts c <=? _). }
    clearbody st1.
    split; simpl; rewrite ?E1, ?E2, ?E3, ?E4, ?E5, ?E6; try done.
    + intros q b' [[<- <-]|[_ ?]]%lookup_insert_Some; [done|by eapply Hlive].
    + intros t q. rewrite E7. by apply (index_idle (λ n, n <? max_attempts c)).
    + intros t q. rewrite E8. by apply (index_idle (λ n, max_attempts c <=? n)).
    + destruct Ha. rewrite E7, E8. clear Hempty E7 E8. split; (destruct (last (failures b)) as [u|]; [|done]); (destruct (_ && _); [|done]); by apply (ascending_insert idle_le).
    + rewrite map_size_insert_None by done. destruct Hsz as [?|[? ?]]; [lia|]. by destruct Hlb.
Qed.

(** A peer without a bucket, as a hole with an empty one. *)
Definition no_attempts : PeerAttempts := {| failures := []; pa_pending := 0 |}.

Lemma history_nil clock : history_ok clock [].
Proof. split; constructor. Qed.

Lemma hole_new c clock out st p :
  limiter_ok c clock out st → buckets st !! p = None → limiter_at c clock out st (Some (p, no_attempts)).
Proof.
  intros [_ Hf Hp Ho Hb Hlive Habs Hov Hpeer He Hpr Ha Hs Hr Hi Hbu] Hl. simpl in *.
  split; simpl; try done.
  - rewrite msum_insert by done. rewrite Hf. done.
  - intros q b [[<- <-]|[_ ?]]%lookup_insert_Some; [|by apply Hb].
    split; [by rewrite Habs|apply history_nil].
  - intros q [? ?]%lookup_insert_None. by apply Habs.
  - intros q. specialize (Hpeer q). unfold records in *. destruct (decide (q = p)) as [->|?].
    + rewrite lookup_insert_eq. rewrite Hl in Hpeer. done.
    + by rewrite lookup_insert_ne.
Qed.

(** * Changes of the bucket in the hole *)

Lemma tracked_cons out p r :
  tracked (r :: out) p = (if rv_tracked r && bool_decide (rv_peer r = p) then 1 else 0) + tracked out p.
Proof. unfold tracked. by rewrite tally_cons. Qed.
Lemma untracked_cons out p r :
  untracked (r :: out) p
  = (if negb (rv_tracked r) && bool_decide (rv_peer r = p) then 1 else 0) + untracked out p.
Proof. unfold untracked. by rewrite tally_cons. Qed.

Lemma limiter_perm c clock out out' st hole :
  out ≡ₚ out' → limiter_at c clock out st hole → limiter_at c clock out' st hole.
Proof.
  intros Hp [].
  assert (∀ f, tally f out' = tally f out) as E by (intros f; by apply tally_perm).
  assert (∀ p, tracked out' p = tracked out p) as Et by (intros p; apply E).
  assert (∀ p, untracked out' p = untracked out p) as Eu by (intros p; apply E).
  split; rewrite ?E; try done; intros p; rewrite ?Et, ?Eu; by auto.
Qed.

Definition reservation (p : PeerBucket) (t : bool) : AuthAttemptReservation :=
  {| rv_peer := p; rv_tracked := t; rv_resolved := false |}.

(** The bucket in the hole has lost failures, or gained one for a pending attempt: [k] is the
    number of reservations resolved with it. *)
Lemma rehole c clock out out' st p b b' (k : bool) :
  limiter_at c clock out st (Some (p, b)) →
  out = (if k then [reservation p true] else []) ++ out' →
  history_ok clock (failures b') →
  pa_pending b' = pa_pending b - (if k then 1 else 0) →
  failure_count b' ≤ failure_count b + (if k then 1 else 0) →
  limiter_at c clock out'
    (with_failure_records (with_total_pending st (total_pending st - (if k then 1 else 0)))
       (total_failure_records st - failure_count b + failure_count b')) (Some (p, b')).
Proof.
  intros [Hh Hf Hp Ho Hb Hlive Habs Hov Hpeer He Hpr Ha Hs Hr Hi Hbu] -> Hhist Hpend Hcount.
  destruct (Hb p b) as [Hbp _]; [apply lookup_insert_eq|]. simpl in *.
  assert (∀ q, tracked ((if k then [reservation p true] else []) ++ out') q
    = (if k && bool_decide (p = q) then 1 else 0) + tracked out' q) as Et.
  { intros q. destruct k; simpl; [by rewrite tracked_cons|lia]. }
  assert (∀ q, untracked ((if k then [reservation p true] else []) ++ out') q = untracked out' q) as Eu.
  { intros q. destruct k; simpl; [by rewrite untracked_cons|done]. }
  assert (tally rv_tracked ((if k then [reservation p true] else []) ++ out')
    = (if k then 1 else 0) + tally rv_tracked out') as Ec.
  { destruct k; simpl; [by rewrite tally_cons|lia]. }
  assert (tally (λ r, negb (rv_tracked r)) ((if k then [reservation p true] else []) ++ out')
    = tally (λ r, negb (rv_tracked r)) out') as Eo.
  { destruct k; simpl; [by rewrite tally_cons|done]. }
  split; simpl; try done; try (destruct k; lia).
  - rewrite Hf, !msum_insert by done. lia.
  - intros q b0 [[<- <-]|[Hne Hq]]%lookup_insert_Some.
    + split; [|done]. rewrite Hpend, Hbp, Et, bool_decide_eq_true_2 by done. rewrite andb_true_r. lia.
    + destruct (Hb q b0) as [E ?]; [by rewrite lookup_insert_ne|]. split; [|done].
      rewrite E, Et, bool_decide_eq_false_2 by done. by rewrite andb_false_r.
  - intros q [? Hne]%lookup_insert_None. specialize (Habs q). rewrite Et in Habs.
    rewrite lookup_insert_ne, bool_decide_eq_false_2, andb_false_r in Habs by done. by apply Habs.
  - intros q. by rewrite Hov, Eu.
  - intros q. specialize (Hpeer q). rewrite Et, Eu in Hpeer. unfold records in *.
    destruct (decide (q = p)) as [->|Hne].
    + rewrite lookup_insert_eq in *. rewrite bool_decide_eq_true_2, andb_true_r in Hpeer by done. lia.
    + rewrite lookup_insert_ne in * by done. rewrite bool_decide_eq_false_2, andb_false_r in Hpeer by done. done.
Qed.

Lemma rehole_same c clock out st p b b' :
  limiter_at c clock out st (Some (p, b)) → history_ok clock (failures b') →
  pa_pending b' = pa_pending b → failure_count b' ≤ failure_count b →
  limiter_at c clock out
    (with_failure_records st (total_failure_records st - failure_count b + failure_count b')) (Some (p, b')).
Proof.
  intros Hok Hh Hp Hc. pose proof (rehole c clock out out st p b b' false Hok eq_refl Hh) as H.
  rewrite !Z.sub_0_r, Z.add_0_r in H. destruct st. by apply H.
Qed.

(** [trim_expired] takes the expired failures off the front. *)
Lemma trim_expired_spec l now span :
  let '(kept, removed) := trim_expired l now span in
  ∃ gone, l = gone ++ kept ∧ removed = blen gone
    ∧ Forall (λ t, span ≤ duration_since now t) gone
    ∧ (∀ t rest, kept = t :: rest → duration_since now t < span).
Proof.
  induction l as [|t l IH]; simpl; [by exists []|].
  destruct (Z.leb_spec span (duration_since now t)).
  - destruct (trim_expired l now span) as [kept removed]. destruct IH as (gone&->&->&Hg&Hk).
    exists (t :: gone). split_and!; [done|rewrite blen_cons; lia|by constructor|done].
  - exists []. split_and!; [done|done|constructor|]. by intros ? ? [= <- <-].
Qed.

Lemma StronglySorted_app_r {A} (R : A → A → Prop) l k : StronglySorted R (l ++ k) → StronglySorted R k.
Proof. induction l as [|x l IH]; simpl; [done|]. intros [? _]%StronglySorted_inv. by apply IH. Qed.

Lemma trim_bucket_ok c clock out st p b now :
  limiter_at c clock out st (Some (p, b)) →
  let '(kept, removed) := trim_expired (failures b) now (window c) in
  0 ≤ removed ∧ failure_count b = removed + blen kept
  ∧ usize_sub (total_failure_records st) removed = Some (total_failure_records st - removed)
  ∧ limiter_at c clock out (with_failure_records st (total_failure_records st - removed))
      (Some (p, {| failures := kept; pa_pending := pa_pending b |})).
Proof.
  intros Hok. pose proof (trim_expired_spec (failures b) now (window c)) as Ht.
  destruct (trim_expired (failures b) now (window c)) as [kept removed].
  destruct Ht as (gone&E&->&_&_).
  assert (failure_count b = blen gone + blen kept) as Ec by (unfold failure_count; rewrite E; blen_lia).
  assert (failure_count b ≤ total_failure_records st).
  { rewrite (lm_failures _ _ _ _ _ Hok). apply (msum_le _ _ p); [apply failure_count_nonneg|].
    apply lookup_insert_eq. }
  pose proof (blen_nonneg gone). pose proof (blen_nonneg kept).
  split_and!; [done|done|by apply usize_sub_Some; lia|].
  pose proof (lm_bucket _ _ _ _ _ Hok p b (lookup_insert_eq _ _ _)) as [_ [Hs Hc]].
  replace (total_failure_records st - blen gone)
    with (total_failure_records st - failure_count b + blen kept) by lia.
  apply (rehole_same _ _ _ _ _ _ {| failures := kept; pa_pending := pa_pending b |}); try done;
    [|unfold failure_count in *; simpl; lia].
  rewrite E in Hs, Hc. apply Forall_app in Hc as [_ Hc]. split; [by eapply StronglySorted_app_r|done].
Qed.

(** * Making room *)

(** An idle peer leaves the table. *)
Lemma drop_idle c clock out st hole q b e' p' :
  limiter_at c clock out st hole → buckets st !! q = Some b → pa_pending b = 0 →
  (∀ t r, (t, r) ∈ e' ↔ idle_at (delete q (buckets st)) (λ n, n <? max_attempts c) t r) →
  (∀ t r, (t, r) ∈ p' ↔ idle_at (delete q (buckets st)) (λ n, max_attempts c <=? n) t r) →
  ascending idle_le e' ∧ ascending idle_le p' →
  let s := with_idle st e' p' in
  failure_count b ≤ total_failure_records st
  ∧ limiter_at c clock out
      (with_failure_records (with_buckets s (delete q (buckets s)))
         (total_failure_records st - failure_count b)) hole.
Proof.
  intros [Hh Hf Hp Ho Hb Hlive Habs Hov Hpeer He Hpr Ha Hs Hr Hi Hbu] Hq Hz He' Hp' Ha'. simpl.
  assert (match hole with Some (p, _) => p ≠ q | None => True end) as Hne
    by (destruct hole as [[p ?]|]; [congruence|done]).
  assert (with_hole (delete q (buckets st)) hole = delete q (with_hole (buckets st) hole)) as Ew.
  { destruct hole as [[p ?]|]; [|done]. simpl. by rewrite delete_insert_ne. }
  assert (with_hole (buckets st) hole !! q = Some b) as Hw.
  { destruct hole as [[p ?]|]; [|done]. simpl. by rewrite lookup_insert_ne. }
  destruct (Hb q b Hw) as [Hbp _]. pose proof (failure_count_nonneg b).
  rewrite (msum_delete _ _ _ _ Hw) in Hf.
  pose proof (msum_nonneg failure_count (delete q (with_hole (buckets st) hole)) failure_count_nonneg).
  split; [lia|]. split; simpl; rewrite ?Ew; try done; try lia.
  - destruct hole as [[p ?]|]; [|done]. by rewrite lookup_delete_ne.
  - intros r b' [_ ?]%lookup_delete_Some. by apply Hb.
  - intros r b' [_ ?]%lookup_delete_Some. by eapply Hlive.
  - intros r [<-|?]%lookup_delete_None; [lia|by apply Habs].
  - intros r. specialize (Hpeer r). unfold records in *. destruct (decide (r = q)) as [->|?].
    + rewrite lookup_delete_eq. rewrite Hw in Hpeer. lia.
    + by rewrite lookup_delete_ne.
  - pose proof (size_delete_le q (buckets st)). lia.
Qed.

(** The head of an index, and what is left of it. *)
Lemma idle_rest (g : Z → bool) m l u q :
  ascending idle_le ((u, q) :: l) → (∀ t r, (t, r) ∈ (u, q) :: l ↔ idle_at m g t r) →
  (∃ b, m !! q = Some b ∧ pa_pending b = 0 ∧ last (failures b) = Some u ∧ g (failure_count b) = true)
  ∧ (∀ t r, (t, r) ∈ l ↔ idle_at (delete q m) g t r) ∧ ascending idle_le l.
Proof.
  intros Ha Hl. assert (idle_at m g u q) as Hq by (apply Hl; by left).
  apply ascending_cons in Ha as (Ha&Hn&_). split_and!; [exact Hq| |done].
  intros t r. rewrite idle_at_delete, <- Hl, elem_of_cons. split.
  - intros Hr. split; [|by right]. intros ->. apply Hn.
    assert (idle_at m g t q) as (b&Hb&_&Ht&_) by (apply Hl; by right).
    destruct Hq as (b'&Hb'&_&Hu&_). congruence.
  - intros [Hne [[= -> ->]|?]]; [done|done].
Qed.

(** The other index does not have an idle peer of the first. *)
Lemma idle_other (g g' : Z → bool) m (l : list (Z * PeerBucket)) q b :
  m !! q = Some b → g (failure_count b) = true → (∀ n, g n = true → g' n = false) →
  (∀ t r, (t, r) ∈ l ↔ idle_at m g' t r) → ∀ t r, (t, r) ∈ l ↔ idle_at (delete q m) g' t r.
Proof.
  intros Hq Hg Hgg Hl t r. rewrite idle_at_delete, Hl. split; [|by intros [_ ?]].
  intros Hi. split; [|done]. intros ->. destruct Hi as (b'&Hb'&_&_&Hg'). rewrite Hq in Hb'.
  injection Hb' as <-. by rewrite (Hgg _ Hg) in Hg'.
Qed.

(** What making room leaves alone. *)
Definition same_admission (s s' : FailedAuthState) : Prop :=
  attempt_budget s' = attempt_budget s ∧ overflow_pending_by_peer s' = overflow_pending_by_peer s
  ∧ total_pending s' = total_pending s ∧ total_overflow_pending s' = total_overflow_pending s
  ∧ (size (buckets s') ≤ size (buckets s))%nat.

Lemma evict_ok c clock out st hole :
  limiter_at c clock out st hole →
  ∃ e s, evict_one_low_value_idle st = Some (e, s) ∧ limiter_at c clock out s hole ∧ same_admission st s
    ∧ (if e : bool
       then length (evictable_idle_failures st) = S (length (evictable_idle_failures s))
            ∧ protected_idle_failures s = protected_idle_failures st
       else s = st).
Proof.
  intros Hok. unfold evict_one_low_value_idle.
  destruct (evictable_idle_failures st) as [|[u q] rest] eqn:He; [exists false, st; done|].
  pose proof (lm_ascending _ _ _ _ _ Hok) as [Ha Hap]. rewrite He in Ha.
  pose proof (lm_evictable _ _ _ _ _ Hok) as Hev. rewrite He in Hev.
  destruct (idle_rest _ _ _ _ _ Ha Hev) as ((b&Hb&Hz&_&Hg)&Hrest&Har).
  pose proof (idle_other (λ n, n <? max_attempts c) (λ n, max_attempts c <=? n) _ _ q b Hb Hg
    ltac:(intros n Hn; apply Z.ltb_lt in Hn; apply Z.leb_gt; lia) (lm_protected _ _ _ _ _ Hok)) as Hpr.
  destruct (drop_idle c clock out st hole q b rest (protected_idle_failures st) Hok Hb Hz Hrest Hpr (conj Har Hap))
    as [Hle Hok'].
  unfold forget. simpl. rewrite Hb. change (blen (failures b)) with (failure_count b).
  rewrite usize_sub_Some by done. simpl. eexists _, _. split; [done|]. split; [exact Hok'|].
  split; [|done]. split_and!; try done. simpl. apply size_delete_le.
Qed.

Lemma reclaim_ok c clock out st hole now :
  limiter_at c clock out st hole →
  ∃ e s, reclaim_one_expired_protected st now (window c) = Some (e, s)
    ∧ limiter_at c clock out s hole ∧ same_admission st s
    ∧ (if e : bool
       then length (protected_idle_failures st) = S (length (protected_idle_failures s))
            ∧ evictable_idle_failures s = evictable_idle_failures st
       else s = st).
Proof.
  intros Hok. unfold reclaim_one_expired_protected.
  destruct (protected_idle_failures st) as [|[u q] rest] eqn:He; [exists false, st; done|].
  destruct (duration_since now u <? window c); [by exists false, st|].
  pose proof (lm_ascending _ _ _ _ _ Hok) as [Hae Ha]. rewrite He in Ha.
  pose proof (lm_protected _ _ _ _ _ Hok) as Hev. rewrite He in Hev.
  destruct (idle_rest _ _ _ _ _ Ha Hev) as ((b&Hb&Hz&_&Hg)&Hrest&Har).
  pose proof (idle_other (λ n, max_attempts c <=? n) (λ n, n <? max_attempts c) _ _ q b Hb Hg
    ltac:(intros n Hn; apply Z.leb_le in Hn; apply Z.ltb_ge; lia) (lm_evictable _ _ _ _ _ Hok)) as Hpr.
  destruct (drop_idle c clock out st hole q b (evictable_idle_failures st) rest Hok Hb Hz Hpr Hrest (conj Hae Har))
    as [Hle Hok'].
  unfold forget. simpl. rewrite Hb. change (blen (failures b)) with (failure_count b).
  rewrite usize_sub_Some by done. simpl. eexists _, _. split; [done|]. split; [exact Hok'|].
  split; [|done]. split_and!; try done. simpl. apply size_delete_le.
Qed.

(** * Admission *)

Lemma budget_at c clock out st hole p :
  limiter_at c clock out st hole → ∃ s, attempt_budget st !! attempt_shard p = Some s.
Proof.
  intros Hok. apply lookup_lt_is_Some_2. rewrite (proj1 (lm_budget _ _ _ _ _ Hok)).
  unfold attempt_shard. destruct p as [l|l];
    (assert (0 ≤ foldl fnv_step 14695981039346656037 l `mod` AUTH_ATTEMPT_SHARDS_PER_FAMILY < 8) by (by apply Z.mod_pos_bound));
    unfold AUTH_ATTEMPT_SHARDS, AUTH_ATTEMPT_SHARDS_PER_FAMILY in *; lia.
Qed.

Lemma with_budget_ok c clock out st hole i s :
  limiter_at c clock out st hole → 0 ≤ used s →
  limiter_at c clock out (with_budget st (<[i := s]> (attempt_budget st))) hole.
Proof.
  intros [] Hs. split; try done. destruct lm_budget0 as [Hl Hu]. simpl. rewrite length_insert.
  split; [done|]. by apply Forall_insert.
Qed.

Lemma untracked_nonneg out p : 0 ≤ untracked out p.
Proof. apply tally_nonneg. Qed.
Lemma tracked_nonneg out p : 0 ≤ tracked out p.
Proof. apply tally_nonneg. Qed.

(** The bucket goes back with one more attempt pending. *)
Lemma admit_tracked c clock out st p b :
  limiter_at c clock out st (Some (p, b)) →
  Z.of_nat (size (buckets st)) < max_tracked_peers c →
  total_failure_records st + total_pending st < max_attempt_records c →
  total_pending st + total_overflow_pending st < max_attempt_records c →
  failure_count b + pa_pending b + untracked out p < max_attempts c →
  limiter_ok c clock (reservation p true :: out)
    (with_total_pending
       (with_buckets st (<[p := {| failures := failures b; pa_pending := pa_pending b + 1 |}]> (buckets st)))
       (total_pending st + 1)).
Proof.
  intros [Hh Hf Hp Ho Hb Hlive Habs Hov Hpeer He Hpr Ha Hs Hr Hi Hbu] H1 H2 H3 H4. simpl in *.
  destruct (Hb p b) as [Hbp Hbh]; [apply lookup_insert_eq|]. pose proof (tracked_nonneg out p).
  assert (∀ g t q, idle_at (buckets st) g t q
    ↔ idle_at (<[p := {| failures := failures b; pa_pending := pa_pending b + 1 |}]> (buckets st)) g t q) as Hidle.
  { intros g t q. unfold idle_at. destruct (decide (q = p)) as [->|?]; [|by rewrite lookup_insert_ne].
    rewrite lookup_insert_eq, Hh. split; [by intros (?&?&_)|]. intros (b'&[= <-]&Hz&_). simpl in Hz. lia. }
  split; simpl; rewrite ?tally_cons; simpl; try done; try lia.
  - rewrite Hf, !msum_insert by done. done.
  - intros q b' [[<- <-]|[Hne Hq]]%lookup_insert_Some.
    + simpl. split; [|done]. rewrite tracked_cons. simpl. rewrite bool_decide_eq_true_2 by done. lia.
    + rewrite tracked_cons. simpl. rewrite bool_decide_eq_false_2 by done. apply Hb. by rewrite lookup_insert_ne.
  - intros q b' [[<- <-]|[Hne Hq]]%lookup_insert_Some; [left; simpl; lia|by eapply Hlive].
  - intros q [? Hne]%lookup_insert_None. rewrite tracked_cons. simpl. rewrite bool_decide_eq_false_2 by done.
    apply Habs. by rewrite lookup_insert_ne.
  - intros q. specialize (Hpeer q). rewrite tracked_cons, untracked_cons. simpl. unfold records in *.
    destruct (decide (q = p)) as [->|Hne].
    + rewrite lookup_insert_eq, bool_decide_eq_true_2 by done. unfold failure_count in *. simpl. lia.
    + rewrite lookup_insert_ne in * by done. rewrite bool_decide_eq_false_2 by done. done.
  - intros t q. by rewrite He.
  - intros t q. by rewrite Hpr.
  - rewrite map_size_insert_None by done. lia.
Qed.

(** An attempt without a place in the table. *)
Lemma admit_overflow c clock out st hole p headroom :
  limiter_at c clock out st hole →
  total_pending st + total_overflow_pending st < max_attempt_records c →
  untracked out p < headroom →
  records (with_hole (buckets st) hole) p + tracked out p + headroom ≤ max_attempts c →
  ∃ s, try_reserve_overflow st p headroom = (true, s)
    ∧ limiter_at c clock (reservation p false :: out) s hole
    ∧ attempt_budget s = attempt_budget st ∧ buckets s = buckets st.
Proof.
  intros Hok Hi Hroom Hpeer. pose proof (untracked_nonneg out p).
  assert (overflow_pending_for st p = untracked out p) as Hov.
  { unfold overflow_pending_for. rewrite (lm_overflow_at _ _ _ _ _ Hok).
    destruct (Z.eqb_spec (untracked out p) 0); simpl; lia. }
  unfold try_reserve_overflow. rewrite Hov, (proj2 (Z.leb_gt _ _)) by done.
  eexists. split; [done|]. split; [|done].
  destruct Hok as [Hh Hf Hp Ho Hb Hlive Habs Hov' Hpe He Hpr Ha Hs Hr Hi' Hbu].
  split; simpl; rewrite ?tally_cons; simpl; try done; try lia.
  - intros q. rewrite untracked_cons. simpl. destruct (decide (q = p)) as [->|Hne].
    + rewrite lookup_insert_eq, bool_decide_eq_true_2 by done.
      destruct (Z.eqb_spec (1 + untracked out p) 0); [lia|]. by rewrite Z.add_comm.
    + rewrite lookup_insert_ne, bool_decide_eq_false_2 by done. apply Hov'.
  - intros q. rewrite tracked_cons, untracked_cons. simpl. specialize (Hpe q).
    destruct (decide (q = p)) as [->|Hne];
      [rewrite bool_decide_eq_true_2 by done|rewrite bool_decide_eq_false_2 by done]; lia.
Qed.

Lemma saturating_le m a b : 0 ≤ a → 0 ≤ b → m ≤ u64_max → (m <=? saturating_add u64_max a b) = (m <=? a + b).
Proof.
  intros Ha Hb Hm. unfold saturating_add. destruct (Z.leb_spec m (a + b)); [apply Z.leb_le|apply Z.leb_gt]; lia.
Qed.

Lemma limiter_totals_nonneg c clock out st hole :
  limiter_at c clock out st hole →
  0 ≤ total_failure_records st ∧ 0 ≤ total_pending st ∧ 0 ≤ total_overflow_pending st.
Proof.
  intros []. rewrite lm_failures0, lm_pending0, lm_overflow0.
  split_and!; [apply msum_nonneg, failure_count_nonneg|apply tally_nonneg..].
Qed.

(** The bucket that a call has taken, if there was one. *)
Definition bucket_of (b : option PeerAttempts) : PeerAttempts := default no_attempts b.

Lemma reinsert_ok c clock out st p b :
  limiter_at c clock out st (Some (p, bucket_of b)) →
  (b ≠ None → Z.of_nat (size (buckets st)) < max_tracked_peers c) →
  limiter_ok c clock out (reinsert c st p b).
Proof.
  intros Hok Hsz. destruct b as [b|]; simpl in *; [apply put_ok; [done|left; by apply Hsz]|].
  apply put_ok in Hok; [done|by right].
Qed.

Lemma reinsert_budget c st p b : attempt_budget (reinsert c st p b) = attempt_budget st.
Proof. destruct b as [b|]; [|done]. simpl. unfold insert_bucket. by repeat case_match. Qed.

(** The outstanding reservations after an answer. *)
Definition granted (p : PeerBucket) (r : Reservation) (out : list AuthAttemptReservation)
    : list AuthAttemptReservation :=
  match r with Refused => out | Granted t => reservation p t :: out end.

Lemma make_room_ok c clock out fuel p b st :
  config_ok c → limiter_at c clock out st (Some (p, bucket_of b)) →
  (b ≠ None → Z.of_nat (size (buckets st)) < max_tracked_peers c) →
  total_pending st + total_overflow_pending st < max_attempt_records c →
  failure_count (bucket_of b) + pa_pending (bucket_of b) + untracked out p < max_attempts c →
  (length (evictable_idle_failures st) + length (protected_idle_failures st) < fuel)%nat →
  ∃ r s, make_room c fuel clock p b st = Some (r, s) ∧ limiter_ok c clock (granted p r out) s
    ∧ (r = Refused → ∃ shard, attempt_budget st !! attempt_shard p = Some shard
         ∧ attempt_budget s = <[attempt_shard p :=
             {| window_opened := window_opened shard; used := saturating_sub (used shard) 1;
                capacity := capacity shard |}]> (attempt_budget st))
    ∧ (r ≠ Refused → attempt_budget s = attempt_budget st).
Proof.
  intros (Hma&Hmr&Hmt&_). revert st. induction fuel as [|fuel IH]; intros st Hok Hsz Hi Hroom Hfuel; [lia|].
  destruct (limiter_totals_nonneg _ _ _ _ _ Hok) as (Hn1&Hn2&Hn3). cbn [make_room].
  rewrite saturating_le by lia.
  destruct (lm_bucket _ _ _ _ _ Hok p _ (lookup_insert_eq _ _ _)) as [Hbp _].
  pose proof (tracked_nonneg out p). pose proof (untracked_nonneg out p).
  pose proof (failure_count_nonneg (bucket_of b)).
  destruct (_ || _) eqn:Hfull.
  - destruct (evict_ok c clock out st _ Hok) as (e&s1&->&Hok1&(Q1&Q2&Q3&Q4&Q5)&He). simpl.
    destruct e.
    { destruct He as [He1 He2]. destruct (IH s1) as (r&s&H'&Hs&Hb1&Hb2); try done; try lia.
      - intros ?. specialize (Hsz ltac:(done)). lia.
      - rewrite He1 in Hfuel. rewrite He2. lia.
      - exists r, s. rewrite Q1 in *. done. }
    subst s1. destruct (reclaim_ok c clock out st _ clock Hok1) as (e&s1&->&Hok2&(R1&R2&R3&R4&R5)&He). simpl.
    destruct e.
    { destruct He as [He1 He2]. destruct (IH s1) as (r&s&H'&Hs&Hb1&Hb2); try done; try lia.
      - intros ?. specialize (Hsz ltac:(done)). lia.
      - rewrite He1 in Hfuel. rewrite He2. lia.
      - exists r, s. rewrite R1 in *. done. }
    subst s1. rewrite (saturating_le _ (total_pending st)), (proj2 (Z.leb_gt _ _)) by lia. rewrite orb_false_r.
    assert (match b with Some b0 => saturating_add u64_max (blen (failures b0)) (pa_pending b0) | None => 0 end
      = failure_count (bucket_of b) + pa_pending (bucket_of b)) as ->.
    { destruct b as [b|]; simpl; [|done]. unfold saturating_add, failure_count in *. simpl in *. lia. }
    destruct (budget_at c clock out st _ p Hok) as [shard Hshard].
    assert (saturating_sub (max_attempts c) (failure_count (bucket_of b) + pa_pending (bucket_of b))
      = max_attempts c - (failure_count (bucket_of b) + pa_pending (bucket_of b))) as ->
      by (unfold saturating_sub; lia).
    destruct (total_failure_records st =? 0).
    + unfold refund_attempt_budget. rewrite reinsert_budget, Hshard. simpl.
      eexists Refused, _. split; [done|]. pose proof (lm_budget _ _ _ _ _ Hok) as [_ Hu].
      split; [|split; [intros _; exists shard; by rewrite ?Hshard, ?reinsert_budget|done]].
      rewrite <- (reinsert_budget c st p b). apply with_budget_ok; [by apply reinsert_ok|].
      simpl. unfold saturating_sub. lia.
    + destruct (admit_overflow c clock out st _ p
        (max_attempts c - (failure_count (bucket_of b) + pa_pending (bucket_of b))) Hok) as (s1&->&Hok3&E1&E2);
        [lia|lia| |].
      { unfold records. simpl. rewrite lookup_insert_eq. lia. }
      eexists (Granted false), _. split; [done|]. split; [|split; [done|intros _; by rewrite reinsert_budget]].
      simpl. apply reinsert_ok; [done|by rewrite E2].
  - apply orb_false_iff in Hfull as [Hf1 Hf2%Z.leb_gt].
    eexists (Granted true), _. split; [done|]. split; [|done].
    apply admit_tracked; try done. destruct b; [by apply Hsz|].
    simpl in Hf1. by apply Z.leb_gt in Hf1.
Qed.

(** * The operations *)

(** How an answer has charged the budget of a peer's shard. *)
Definition charged (c : FailedAuthLimiter) (now : Z) (p : PeerBucket) (r : Reservation)
    (st s : FailedAuthState) : Prop :=
  ∃ shard, attempt_budget st !! attempt_shard p = Some shard
    ∧ match r with
      | Granted _ => ∃ shard', consume_shard now (window c) shard = (true, shard')
          ∧ attempt_budget s = <[attempt_shard p := shard']> (attempt_budget st)
      | Refused => attempt_budget s = attempt_budget st
          ∨ ∃ allowed shard', consume_shard now (window c) shard = (allowed, shard')
              ∧ attempt_budget s = <[attempt_shard p :=
                  if allowed : bool
                  then {| window_opened := window_opened shard';
                          used := saturating_sub (used shard') 1; capacity := capacity shard' |}
                  else shard']> (attempt_budget st)
      end.

Lemma consume_used now span shard : 0 ≤ used shard → 0 ≤ used (consume_shard now span shard).2.
Proof. intros ?. unfold consume_shard. repeat case_match; simpl in *; subst; simpl in *; lia. Qed.

(** The bucket of the peer, out of the table and trimmed. *)
Lemma reserve_take c clock out st p :
  limiter_ok c clock out st →
  ∃ b s, take_bucket c clock p st = Some (b, s)
    ∧ limiter_at c clock out s (Some (p, bucket_of b))
    ∧ (b ≠ None → Z.of_nat (size (buckets s)) < max_tracked_peers c)
    ∧ attempt_budget s = attempt_budget st.
Proof.
  intros Hok. unfold take_bucket. destruct (buckets st !! p) as [b|] eqn:Hb.
  - destruct (take_ok c clock out st p b Hok Hb) as [Hok1 Hsz].
    destruct (unindex_bucket_frame (with_buckets st (delete p (buckets st))) b p) as (E1&E2&E3&E4&E5&E6).
    set (s1 := unindex_bucket _ b p) in *. cbv zeta in *.
    pose proof (trim_bucket_ok c clock out s1 p b clock Hok1) as Ht.
    destruct (trim_expired (failures b) clock (window c)) as [kept removed].
    destruct Ht as (_&_&->&Hok2). simpl. eexists _, _. by split_and!.
  - exists None, st. split_and!; try done. by apply hole_new.
Qed.

#[local] Arguments make_room : simpl never.

Lemma reserve_ok c clock now out st p :
  config_ok c → limiter_ok c clock out st → clock ≤ now →
  ∃ r s, reserve c now p st = Some (r, s) ∧ limiter_ok c now (granted p r out) s ∧ charged c now p r st s
    ∧ (∀ b, buckets st !! p = Some b → max_attempts c ≤
         blen (trim_expired (failures b) now (window c)).1 + tracked out p + untracked out p → r = Refused).
Proof.
  intros Hc Hok0 Hclock. apply (limiter_clock c clock now) in Hok0 as Hok; [|done]. clear Hok0.
  destruct (reserve_take c now out st p Hok) as (b&s&Htake&Hok1&Hsz&Hbud).
  assert (∀ b0, buckets st !! p = Some b0 →
    failure_count (bucket_of b) = blen (trim_expired (failures b0) now (window c)).1) as Htrim.
  { intros b0 Hb0. unfold take_bucket in Htake. rewrite Hb0 in Htake. simpl in Htake.
    destruct (trim_expired (failures b0) now (window c)) as [kept removed]. simpl in Htake.
    destruct (usize_sub _ removed); simpl in Htake; [|done]. by injection Htake as <- <-. }
  unfold reserve. rewrite Htake. simpl. clear Htake.
  destruct (limiter_totals_nonneg _ _ _ _ _ Hok1) as (Hn1&Hn2&Hn3). pose proof Hc as (Hma&Hmr&Hmt&_).
  destruct (lm_bucket _ _ _ _ _ Hok1 p _ (lookup_insert_eq _ _ _)) as [Hbp _].
  pose proof (tracked_nonneg out p). pose proof (untracked_nonneg out p).
  pose proof (failure_count_nonneg (bucket_of b)).
  pose proof (lm_peer _ _ _ _ _ Hok1 p) as Hpeer. unfold records in Hpeer. simpl in Hpeer.
  rewrite lookup_insert_eq in Hpeer.
  assert (match b with Some b0 => saturating_add u64_max (blen (failures b0)) (pa_pending b0) | None => 0 end
    = failure_count (bucket_of b) + pa_pending (bucket_of b)) as ->.
  { destruct b as [b|]; simpl; [|done]. unfold saturating_add, failure_count in *. simpl in *. lia. }
  assert (overflow_pending_for s p = untracked out p) as ->.
  { unfold overflow_pending_for. rewrite (lm_overflow_at _ _ _ _ _ Hok1).
    destruct (Z.eqb_spec (untracked out p) 0); simpl; lia. }
  rewrite !saturating_le by lia.
  destruct (budget_at c now out st None p Hok) as [shard Hshard].
  destruct (Z.leb_spec (max_attempts c) (failure_count (bucket_of b) + pa_pending (bucket_of b) + untracked out p)).
  { eexists Refused, _. split; [done|]. split; [by apply reinsert_ok|]. split; [|done].
    exists shard. split; [done|]. left. by rewrite reinsert_budget. }
  assert (∀ r s', (∀ b0, buckets st !! p = Some b0 → max_attempts c ≤
         blen (trim_expired (failures b0) now (window c)).1 + tracked out p + untracked out p →
         r = Refused ∧ s' = s)) as Hnever.
  { intros r s' b0 Hb0 Hle. rewrite <- (Htrim b0 Hb0) in Hle. lia. }
  destruct (Z.leb_spec (max_attempt_records c) (total_pending s + total_overflow_pending s)).
  { eexists Refused, _. split; [done|]. split; [by apply reinsert_ok|]. split; [|done].
    exists shard. split; [done|]. left. by rewrite reinsert_budget. }
  unfold consume_attempt_budget. rewrite Hbud, Hshard. simpl.
  pose proof (proj2 (lm_budget _ _ _ _ _ Hok)) as Hused.
  assert (0 ≤ used shard) as Hu by (by eapply Forall_lookup_1 in Hused).
  pose proof (consume_used now (window c) shard Hu) as Hu'.
  destruct (consume_shard now (window c) shard) as [allowed shard'] eqn:Hcons. simpl in Hu'.
  set (s1 := with_budget s _).
  assert (limiter_at c now out s1 (Some (p, bucket_of b))) as Hok2.
  { unfold s1. rewrite <- Hbud. by apply with_budget_ok. }
  destruct allowed; simpl.
  2: { eexists Refused, _. split; [done|]. split; [by apply reinsert_ok|]. split; [|done].
       exists shard. split; [done|]. right. exists false, shard'. split; [done|]. by rewrite reinsert_budget. }
  destruct (make_room_ok c now out
    (S (length (evictable_idle_failures s1) + length (protected_idle_failures s1))) p b s1 Hc Hok2 Hsz)
    as (r&s'&Hroom&Hok3&Hb1&Hb2); try done; [apply Nat.lt_succ_diag_r|].
  exists r, s'. split; [exact Hroom|]. split; [done|]. split; [|intros b0 Hb0 Hle; by destruct (Hnever r s b0 Hb0 Hle)].
  exists shard. split; [done|]. pose proof (lookup_lt_Some _ _ _ Hshard) as Hlt. destruct r as [|t].
  - right. exists true, shard'. split; [done|]. destruct (Hb1 eq_refl) as (x&Hx&->).
    simpl in Hx. rewrite list_lookup_insert_eq in Hx by done. injection Hx as <-.
    simpl. by rewrite list_insert_insert_eq.
  - exists shard'. split; [done|]. by apply Hb2.
Qed.

Lemma release_overflow_ok c clock out st p :
  limiter_ok c clock (reservation p false :: out) st →
  ∃ s, release_overflow st p = Some (true, s) ∧ limiter_ok c clock out s
    ∧ attempt_budget s = attempt_budget st.
Proof.
  intros [Hh Hf Hp Ho Hb Hlive Habs Hov Hpe He Hpr Ha Hs Hr Hi Hbu].
  pose proof (untracked_nonneg out p) as Hn. rewrite tally_cons in Hp, Ho. simpl in *.
  assert (∀ q, tracked (reservation p false :: out) q = tracked out q) as Et
    by (intros q; by rewrite tracked_cons).
  assert (∀ q, untracked (reservation p false :: out) q = (if bool_decide (p = q) then 1 else 0) + untracked out q) as Eu
    by (intros q; by rewrite untracked_cons).
  pose proof (tally_nonneg (λ r, negb (rv_tracked r)) out).
  assert (overflow_pending_by_peer st !! p = Some (1 + untracked out p)) as El.
  { rewrite Hov, Eu, bool_decide_eq_true_2 by done.
    by destruct (Z.eqb_spec (1 + untracked out p) 0); [lia|]. }
  unfold release_overflow. rewrite El.
  destruct (Z.eqb_spec (1 + untracked out p) 0); [lia|].
  rewrite (usize_sub_Some (1 + _)) by lia. simpl. rewrite usize_sub_Some by lia. simpl.
  eexists. split; [done|]. split; [|done].
  split; simpl; try done; try lia.
  - intros q. replace (1 + untracked out p - 1) with (untracked out p) by lia. destruct (decide (q = p)) as [->|Hne].
    + destruct (Z.eqb_spec (untracked out p) 0); [apply lookup_delete_eq|apply lookup_insert_eq].
    + specialize (Hov q). rewrite Eu, bool_decide_eq_false_2 in Hov by done. rewrite Z.add_0_l in Hov. rewrite <- Hov.
      destruct (Z.eqb_spec (untracked out p) 0); [by apply lookup_delete_ne|by apply lookup_insert_ne].
  - intros q. specialize (Hpe q). rewrite Et, Eu in Hpe. destruct (bool_decide _); lia.
Qed.

Lemma clear_peer_failures_ok c clock out st p :
  limiter_ok c clock out st →
  ∃ s, clear_peer_failures st p = Some s ∧ limiter_ok c clock out s
    ∧ attempt_budget s = attempt_budget st.
Proof.
  intros Hok. unfold clear_peer_failures. destruct (buckets st !! p) as [b|] eqn:Hb; [|by exists st].
  destruct (take_ok c clock out st p b Hok Hb) as [Hok1 Hsz].
  destruct (unindex_bucket_frame (with_buckets st (delete p (buckets st))) b p) as (E1&E2&E3&E4&E5&E6).
  set (s1 := unindex_bucket _ b p) in *. cbv zeta in *.
  assert (failure_count b ≤ total_failure_records s1).
  { rewrite (lm_failures _ _ _ _ _ Hok1). apply (msum_le _ _ p); [apply failure_count_nonneg|].
    apply lookup_insert_eq. }
  change (blen (failures b)) with (failure_count b). rewrite usize_sub_Some by done. simpl.
  set (b' := {| failures := []; pa_pending := pa_pending b |}).
  pose proof (failure_count_nonneg b).
  pose proof (rehole_same c clock out s1 p b b' Hok1 (history_nil clock) eq_refl ltac:(done)) as Hok2.
  change (failure_count b') with 0 in Hok2. rewrite Z.add_0_r in Hok2.
  apply put_ok in Hok2; [|by left]. unfold insert_bucket in Hok2. simpl in Hok2. rewrite andb_true_r in Hok2.
  eexists. split; [done|]. destruct (pa_pending b =? 0); by split.
Qed.

Lemma blen_last_le clock l t : history_ok clock l → clock ≤ t → history_ok t (l ++ [t]).
Proof.
  intros [Hs Hc] Hle. split.
  - induction Hs as [|x l Hs IH Hx]; simpl; [repeat constructor|].
    apply Forall_cons in Hc as [Hc1 Hc2]. constructor; [by apply IH|].
    apply Forall_app. split; [done|]. constructor; [lia|constructor].
  - apply Forall_app. split; [|constructor; [lia|constructor]].
    eapply Forall_impl; [exact Hc|]. simpl. lia.
Qed.

Lemma resolve_ok c clock now now' out st p t o :
  limiter_ok c clock (reservation p t :: out) st → clock ≤ now ≤ now' →
  ∃ s, resolve c now now' p t o st = Some s ∧ limiter_ok c now' out s
    ∧ attempt_budget s = attempt_budget st.
Proof.
  intros Hok0 Hclock. apply (limiter_clock c clock now) in Hok0 as Hok; [|lia]. clear Hok0.
  unfold resolve. destruct t; simpl.
  - (* tracked: its peer has a bucket with an attempt pending *)
    assert (tracked (reservation p true :: out) p = 1 + tracked out p) as Et
      by (rewrite tracked_cons; simpl; by rewrite bool_decide_eq_true_2).
    pose proof (tracked_nonneg out p).
    destruct (buckets st !! p) as [b|] eqn:Hb;
      [|pose proof (lm_absent _ _ _ _ _ Hok p Hb) as Hz; rewrite Et in Hz; lia].
    destruct (lm_bucket _ _ _ _ _ Hok p b Hb) as [Hbp Hbh]. rewrite Et in Hbp.
    destruct (Z.eqb_spec (pa_pending b) 0) as [|Hpe]; [lia|].
    rewrite (usize_sub_Some (pa_pending b)) by lia. simpl.
    destruct (take_ok c now _ st p b Hok Hb) as [Hok1 Hsz]. cbv zeta in *.
    assert (unindex_bucket (with_buckets st (delete p (buckets st))) b p = with_buckets st (delete p (buckets st))) as E.
    { unfold unindex_bucket. rewrite (proj2 (Z.eqb_neq _ _)) by done. by destruct (last (failures b)). }
    rewrite E in Hok1, Hsz. clear E. set (s1 := with_buckets st _) in *.
    assert (1 ≤ total_pending s1).
    { rewrite (lm_pending _ _ _ _ _ Hok1), tally_cons. simpl. pose proof (tally_nonneg rv_tracked out). lia. }
    rewrite usize_sub_Some by done. simpl.
    pose proof (trim_bucket_ok c now _ s1 p b now Hok1) as Ht.
    destruct (trim_expired (failures b) now (window c)) as [kept removed].
    destruct Ht as (Hrem&Hcnt&Esub&Hok2).
    change (total_failure_records s1) with (total_failure_records st) in Esub, Hok2. rewrite Esub. simpl.
    set (s2 := with_failure_records s1 (total_failure_records st - removed)) in *.
    destruct (lm_bucket _ _ _ _ _ Hok2 p _ (lookup_insert_eq _ _ _)) as [_ Hkh]. simpl in Hkh.
    assert (blen kept ≤ total_failure_records s2) as Hle.
    { rewrite (lm_failures _ _ _ _ _ Hok2). etrans; [|apply (msum_le _ _ p); [apply failure_count_nonneg|apply lookup_insert_eq]].
      done. }
    assert (∃ kept' n,
      match o with
      | Succeeded => records ← usize_sub (total_failure_records st - removed) (blen kept); Some ([], records)
      | Failed => Some (kept ++ [now'], total_failure_records st - removed + 1)
      | Neutral => Some (kept, total_failure_records st - removed)
      end = Some (kept', n)
      ∧ history_ok now' kept' ∧ blen kept' ≤ blen kept + 1
      ∧ n = total_failure_records s2 - blen kept + blen kept') as (kept'&n&->&Hh&Hl&->).
    { pose proof (blen_nonneg kept).
      change (total_failure_records s2) with (total_failure_records st - removed) in *. destruct o.
      - rewrite usize_sub_Some by done. eexists [], _. split; [done|]. change (@blen Z []) with 0.
        split_and!; [apply history_nil|lia|lia].
      - eexists _, _. split; [done|]. rewrite blen_app. change (blen [now']) with 1.
        split_and!; [by apply (blen_last_le now); [|lia]|lia|lia].
      - eexists _, _. split; [done|]. split_and!; [|lia|lia].
        destruct Hkh as [? Hf]. split; [done|]. eapply Forall_impl; [exact Hf|]. simpl. lia. }
    simpl. set (b' := {| failures := kept'; pa_pending := pa_pending b - 1 |}).
    apply (limiter_clock c now now') in Hok2; [|lia].
    pose proof (rehole c now' _ out s2 p _ b' true Hok2 eq_refl Hh eq_refl Hl) as Hok3.
    assert (limiter_ok c now' out (insert_bucket
      (with_failure_records (with_total_pending s2 (total_pending s2 - 1))
         (total_failure_records s2 - blen kept + blen kept')) p b' (max_attempts c))) as Hok4.
    { apply put_ok; [exact Hok3|]. by left. }
    eexists. split; [done|]. split.
    + unfold insert_bucket in *. simpl in *.
      destruct (pa_pending b - 1 =? 0), (bool_decide (kept' = [])); simpl in *; exact Hok4.
    + unfold insert_bucket. by repeat case_match.
  - destruct (release_overflow_ok c now out st p Hok) as (s&->&Hs&Eb). simpl.
    apply (limiter_clock c now now') in Hs; [|lia].
    destruct o; [|by exists s..]. destruct (clear_peer_failures_ok c now' out s p Hs) as (s'&->&?&?).
    exists s'. split_and!; [done|done|congruence].
Qed.

(** * Runs *)

(** The limiter with the reservations that are outstanding, along a monotonic clock, and the
    log of the attempts it has admitted. *)
Record World := {
  wd_state : FailedAuthState;
  wd_out : list AuthAttemptReservation;
  wd_clock : Z;
  wd_log : list (Z * PeerBucket);
}.
Definition logged (now : Z) (p : PeerBucket) (r : Reservation) : list (Z * PeerBucket) :=
  match r with Refused => [] | Granted _ => [(now, p)] end.

Inductive limiter_step (c : FailedAuthLimiter) (w : World) : World → Prop :=
| step_reserve now peer r s :
    wd_clock w ≤ now → reserve c now (PeerBucket_from peer) (wd_state w) = Some (r, s) →
    limiter_step c w {| wd_state := s; wd_out := granted (PeerBucket_from peer) r (wd_out w);
                        wd_clock := now; wd_log := wd_log w ++ logged now (PeerBucket_from peer) r |}
| step_finish now now' r out o r' s :
    wd_clock w ≤ now ≤ now' → wd_out w ≡ₚ r :: out →
    finish c now now' r o (wd_state w) = Some (r', s) →
    limiter_step c w {| wd_state := s; wd_out := out; wd_clock := now'; wd_log := wd_log w |}.

Definition world_ok (c : FailedAuthLimiter) (w : World) : Prop :=
  limiter_ok c (wd_clock w) (wd_out w) (wd_state w) ∧ Forall (λ r, rv_resolved r = false) (wd_out w).
Definition world_new (budget : Z) : World :=
  {| wd_state := FailedAuthState_new budget; wd_out := []; wd_clock := 0; wd_log := [] |}.

(** What a finished reservation did. *)
Lemma finish_step c w now now' r out o r' s :
  world_ok c w → wd_clock w ≤ now ≤ now' → wd_out w ≡ₚ r :: out →
  finish c now now' r o (wd_state w) = Some (r', s) →
  ∃ p t, r = reservation p t ∧ limiter_ok c (wd_clock w) (reservation p t :: out) (wd_state w)
    ∧ resolve c now now' p t o (wd_state w) = Some s.
Proof.
  intros [Hok Hr] Hn Hp Hf. rewrite Hp in Hr. apply Forall_cons in Hr as [Hr _].
  apply (limiter_perm _ _ _ _ _ _ Hp) in Hok. destruct r as [p t res]. simpl in Hr. subst res.
  exists p, t. split; [done|]. split; [done|]. unfold finish in Hf. simpl in Hf.
  destruct (resolve _ _ _ _ _ _ _); simpl in Hf; [congruence|done].
Qed.

Lemma limiter_step_ok c w w' : config_ok c → world_ok c w → limiter_step c w w' → world_ok c w'.
Proof.
  intros Hc Hw [now peer r s Hn Hres|now now' r out o r' s Hn Hp Hf].
  - destruct Hw as [Hok Hr].
    destruct (reserve_ok c (wd_clock w) now _ _ (PeerBucket_from peer) Hc Hok Hn) as (r0&s0&E&?&_).
    rewrite Hres in E. injection E as <- <-. split; [done|]. simpl. destruct r; [done|]. by constructor.
  - destruct (finish_step c w now now' r out o r' s Hw Hn Hp Hf) as (p&t&->&Hok&E).
    destruct (resolve_ok c (wd_clock w) now now' out (wd_state w) p t o Hok Hn) as (s0&E'&?&_).
    split; simpl; [congruence|]. destruct Hw as [_ Hr]. rewrite Hp in Hr. by apply Forall_cons in Hr as [_ ?].
Qed.

Lemma limiter_run_ok c w w' : config_ok c → world_ok c w → rtc (limiter_step c) w w' → world_ok c w'.
Proof. intros Hc H Hr. induction Hr; [done|]. by eapply IHHr, limiter_step_ok. Qed.

Lemma world_new_ok c budget : config_ok c → 0 ≤ budget → world_ok c (world_new budget).
Proof. intros Hc Hb. split; [by apply limiter_new|constructor]. Qed.

(** * A run *)

(** A run in which one peer fails three times, and is refused. *)
Definition demo_limits : FailedAuthLimiter :=
  {| max_attempts := 3; window := 1000; max_tracked_peers := 2; max_attempt_records := 8 |}.
Definition demo_peer : IpAddr := IpV6 (replicate 10 x00 ++ [xff; xff; x0a; x00; x00; x07]).
Definition other_peer (n : byte) : IpAddr := IpV4 [xc0; xa8; x01; n].

(** Attempts that are made and fail at the given times. *)
Fixpoint failing (c : FailedAuthLimiter) (peer : IpAddr) (times : list Z) (w : World) : option World :=
  match times with
  | [] => Some w
  | now :: times =>
    '(r, s) ← reserve c now (PeerBucket_from peer) (wd_state w);
    let log := wd_log w ++ logged now (PeerBucket_from peer) r in
    match r with
    | Refused => failing c peer times {| wd_state := s; wd_out := wd_out w; wd_clock := now; wd_log := log |}
    | Granted t =>
      '(_, s) ← finish c now now (reservation (PeerBucket_from peer) t) Failed s;
      failing c peer times {| wd_state := s; wd_out := wd_out w; wd_clock := now; wd_log := log |}
    end
  end.

Lemma failing_run c peer times w w' :
  failing c peer times w = Some w' → StronglySorted Z.le (wd_clock w :: times) → rtc (limiter_step c) w w'.
Proof.
  revert w. induction times as [|now times IH]; intros w H Hs; simpl in H; [by injection H as ->|].
  apply StronglySorted_inv in Hs as [Hs Hf]. apply Forall_cons in Hf as [Hn _].
  destruct (reserve c now (PeerBucket_from peer) (wd_state w)) as [[r s]|] eqn:Hr; simpl in H; [|done].
  pose proof (step_reserve c w now peer r s Hn Hr) as Hstep.
  destruct r as [|t]; simpl in Hstep; [eapply rtc_l; [exact Hstep|by apply IH]|].
  destruct (finish c now now (reservation (PeerBucket_from peer) t) Failed s) as [[r' s']|] eqn:Hf; simpl in H; [|done].
  specialize (IH _ H Hs). eapply rtc_l; [exact Hstep|]. eapply rtc_l; [|exact IH].
  refine (step_finish c {| wd_state := s |} now now _ (wd_out w) _ _ _ _ _ Hf); simpl; [lia|done].
Qed.

(** A run that ends in a world: the world is only computed where a fact of it is. *)
Definition ran (o : option World) : World := default (world_new 0) o.
Lemma ran_Some (o : option World) : (if o then true else false) = true → o = Some (ran o).
Proof. by destruct o. Qed.
