(* ===== verification/LimiterProps.v ===== *)
(** The lockout of a peer by the limiter of authentication attempts.  The books in every
    reachable state and the rate over an interval are in [LimiterRate]. *)

From S2P Require Import Prelude.
From S2P Require Import Ordered.
From S2P Require Import RateWindow.
From S2P Require Import Limiter.
From S2P Require Import LimiterFacts.
From Stdlib Require Import Strings.Byte.
From stdpp Require Import prelude gmap list sorting.

#[local] Open Scope Z_scope.

(** * Lockout *)

(** A bucket at the limit whose first failure is still within the window. *)
Definition locked (c : FailedAuthLimiter) (now : Z) (st : FailedAuthState) (p : PeerBucket)
    (b : PeerAttempts) : Prop :=
  buckets st !! p = Some b ∧ max_attempts c ≤ failure_count b
  ∧ ∃ t rest, failures b = t :: rest ∧ now < t + window c.

Lemma history_first clock t rest : history_ok clock (t :: rest) → Forall (λ u, t ≤ u) (t :: rest).
Proof. intros [[_ Hf]%StronglySorted_inv _]. by constructor. Qed.

(** Nothing of it has expired. *)
Lemma locked_trim c now st p b :
  0 < window c → history_ok now (failures b) → locked c now st p b →
  trim_expired (failures b) now (window c) = (failures b, 0).
Proof.
  intros Hw Hh (_&_&t&rest&E&Hlt). rewrite E. simpl. unfold duration_since, saturating_sub.
  by rewrite (proj2 (Z.leb_gt _ _)) by lia.
Qed.

(** It is not reclaimed. *)
Lemma locked_last c now st p b u :
  0 < window c → history_ok now (failures b) → locked c now st p b → last (failures b) = Some u →
  duration_since now u <? window c = true.
Proof.
  intros Hw Hh (_&_&t&rest&E&Hlt) Hu. rewrite E in *. apply history_first in Hh.
  apply last_Some_elem_of in Hu. rewrite Forall_forall in Hh. specialize (Hh u Hu).
  unfold duration_since, saturating_sub. apply Z.ltb_lt. lia.
Qed.

Lemma unindex_other st b q p : buckets (unindex_bucket st b q) !! p = buckets st !! p.
Proof. by destruct (unindex_bucket_frame st b q) as [-> _]. Qed.

Lemma insert_bucket_other st q b m p : p ≠ q → buckets (insert_bucket st q b m) !! p = buckets st !! p.
Proof.
  intros Hne. unfold insert_bucket. repeat case_match; simpl; try done; by rewrite lookup_insert_ne.
Qed.

Lemma reinsert_other c st q b p : p ≠ q → buckets (reinsert c st q b) !! p = buckets st !! p.
Proof. intros Hne. destruct b; [by apply insert_bucket_other|done]. Qed.

Lemma take_bucket_other c now q st b s p :
  take_bucket c now q st = Some (b, s) → p ≠ q → buckets s !! p = buckets st !! p.
Proof.
  unfold take_bucket. intros H Hne. destruct (buckets st !! q); [|by injection H as <- <-].
  destruct (trim_expired _ _ _) as [kept removed]. destruct (usize_sub _ _); simpl in H; [|done].
  injection H as <- <-. simpl. rewrite unindex_other. simpl. by rewrite lookup_delete_ne.
Qed.

(** Making room for another peer does not remove a locked one. *)
Lemma evict_locked c clock out st hole e s p b :
  limiter_at c clock out st hole → evict_one_low_value_idle st = Some (e, s) →
  locked c clock st p b → buckets s !! p = Some b.
Proof.
  intros Hok H (Hp&Hmax&_). unfold evict_one_low_value_idle in H.
  destruct (evictable_idle_failures st) as [|[u q] rest] eqn:He; [by injection H as <- <-|].
  assert (idle_at (buckets st) (λ n, n <? max_attempts c) u q) as (b'&Hq&_&_&Hg%Z.ltb_lt)
    by (apply (lm_evictable _ _ _ _ _ Hok); rewrite He; by left).
  assert (p ≠ q) as Hne by (intros ->; rewrite Hp in Hq; injection Hq as <-; lia).
  unfold forget in H. simpl in H. rewrite Hq in H. destruct (usize_sub _ _); simpl in H; [|done].
  injection H as <- <-. simpl. by rewrite lookup_delete_ne.
Qed.

Lemma reclaim_locked c clock out st hole e s p b :
  0 < window c → limiter_at c clock out st hole →
  reclaim_one_expired_protected st clock (window c) = Some (e, s) →
  history_ok clock (failures b) → locked c clock st p b → buckets s !! p = Some b.
Proof.
  intros Hw Hok H Hh Hl. pose proof Hl as (Hp&Hmax&_). unfold reclaim_one_expired_protected in H.
  destruct (protected_idle_failures st) as [|[u q] rest] eqn:He; [by injection H as <- <-|].
  destruct (duration_since clock u <? window c) eqn:Hexp; [by injection H as <- <-|].
  assert (idle_at (buckets st) (λ n, max_attempts c <=? n) u q) as (b'&Hq&_&Hlast&_)
    by (apply (lm_protected _ _ _ _ _ Hok); rewrite He; by left).
  assert (p ≠ q) as Hne.
  { intros ->. rewrite Hp in Hq. injection Hq as <-.
    rewrite (locked_last c clock st q b u Hw Hh Hl Hlast) in Hexp. done. }
  unfold forget in H. simpl in H. rewrite Hq in H. destruct (usize_sub _ _); simpl in H; [|done].
  injection H as <- <-. simpl. by rewrite lookup_delete_ne.
Qed.

Lemma try_overflow_buckets st q n : buckets (try_reserve_overflow st q n).2 = buckets st.
Proof. unfold try_reserve_overflow. by case_match. Qed.

Lemma make_room_locked c clock out fuel q b0 st hole r s p b :
  0 < window c → limiter_at c clock out st hole →
  make_room c fuel clock q b0 st = Some (r, s) → p ≠ q →
  history_ok clock (failures b) → locked c clock st p b → buckets s !! p = Some b.
Proof.
  intros Hw Hok H Hne Hh. revert st Hok H.
  induction fuel as [|fuel IH]; intros st Hok H Hl; cbn [make_room] in H.
  - destruct (_ || _); [done|]. injection H as <- <-. simpl. rewrite lookup_insert_ne by done. apply Hl.
  - destruct (_ || _).
    2: { injection H as <- <-. simpl. rewrite lookup_insert_ne by done. apply Hl. }
    destruct (evict_ok c clock out st _ Hok) as (e&s1&E1&Hok1&_&He). rewrite E1 in H. simpl in H.
    pose proof (evict_locked _ _ _ _ _ _ _ p b Hok E1 Hl) as Hp1.
    assert (locked c clock s1 p b) as Hl1 by (split; [done|apply Hl]).
    destruct e; [by eapply IH|].
    destruct (reclaim_ok c clock out s1 _ clock Hok1) as (e&s2&E2&Hok2&_&He2). rewrite E2 in H. simpl in H.
    pose proof (reclaim_locked _ _ _ _ _ _ _ p b Hw Hok1 E2 Hh Hl1) as Hp2.
    assert (locked c clock s2 p b) as Hl2 by (split; [done|apply Hl]).
    destruct e; [by eapply IH|].
    destruct (_ || _).
    + destruct (refund_attempt_budget (reinsert c s2 q b0) q) as [s3|] eqn:E3; simpl in H; [|done].
      injection H as <- <-. unfold refund_attempt_budget in E3.
      destruct (attempt_budget _ !! _); simpl in E3; [|done]. injection E3 as <-. simpl.
      by rewrite reinsert_other.
    + pose proof (try_overflow_buckets s2 q (saturating_sub (max_attempts c)
        match b0 with Some b => saturating_add u64_max (blen (failures b)) (pa_pending b) | None => 0 end)) as Hb.
      destruct (try_reserve_overflow _ _ _) as [[] s3]; simpl in *.
      * injection H as <- <-. by rewrite reinsert_other, Hb.
      * destruct (refund_attempt_budget (reinsert c s3 q b0) q) as [s4|] eqn:E3; simpl in H; [|done].
        injection H as <- <-. unfold refund_attempt_budget in E3.
        destruct (attempt_budget _ !! _); simpl in E3; [|done]. injection E3 as <-. simpl.
        by rewrite reinsert_other, Hb.
Qed.

#[local] Arguments make_room : simpl never.

(** An attempt of another peer. *)
Lemma reserve_locked_other c clock out q st r s p b :
  config_ok c → limiter_ok c clock out st → reserve c clock q st = Some (r, s) → p ≠ q →
  locked c clock st p b → buckets s !! p = Some b.
Proof.
  intros (_&_&_&Hw) Hok H Hne (Hp&Hmax&Hfirst).
  destruct (lm_bucket _ _ _ _ _ Hok p b Hp) as [_ Hh].
  destruct (reserve_take c clock out st q Hok) as (b0&s1&Htake&Hok1&_&_).
  pose proof (take_bucket_other _ _ _ _ _ _ _ Htake Hne) as Hp1. rewrite Hp in Hp1.
  unfold reserve in H. rewrite Htake in H. simpl in H.
  destruct (_ <=? _); [injection H as <- <-; by rewrite reinsert_other|].
  destruct (_ <=? _); [injection H as <- <-; by rewrite reinsert_other|].
  unfold consume_attempt_budget in H. destruct (budget_at _ _ _ _ _ q Hok1) as [shard Hs].
  rewrite Hs in H. simpl in H.
  pose proof (consume_used clock (window c) shard) as Hu. pose proof (proj2 (lm_budget _ _ _ _ _ Hok1)) as Hb.
  specialize (Hu (Forall_lookup_1 _ _ _ _ Hb Hs)).
  destruct (consume_shard _ _ _) as [[] shard']; simpl in H, Hu;
    [|injection H as <- <-; by rewrite reinsert_other].
  eapply (make_room_locked c clock out); [done| |exact H|done|done|by split].
  by apply with_budget_ok.
Qed.

(** Its own attempts are refused, and leave its bucket as it is. *)
Lemma reserve_locked_self c clock out st p b :
  config_ok c → limiter_ok c clock out st → locked c clock st p b →
  ∃ s, reserve c clock p st = Some (Refused, s) ∧ buckets s !! p = Some b.
Proof.
  intros Hc Hok Hl. pose proof Hc as (Hma&_&_&Hw). pose proof Hl as (Hp&Hmax&t&rest&Hf&_).
  destruct (lm_bucket _ _ _ _ _ Hok p b Hp) as [Hpe Hh]. pose proof (tracked_nonneg out p).
  pose proof (untracked_nonneg out p). unfold reserve, take_bucket.
  rewrite Hp, (locked_trim c clock st p b) by done. simpl.
  destruct (unindex_bucket_frame (with_buckets st (delete p (buckets st))) b p) as (_&_&Ho&Hr&_).
  set (s1 := unindex_bucket _ b p) in *.
  assert (0 ≤ total_failure_records s1).
  { rewrite Hr. by destruct (limiter_totals_nonneg _ _ _ _ _ Hok). }
  rewrite usize_sub_Some by done. simpl.
  assert (0 ≤ overflow_pending_for (with_failure_records s1 (total_failure_records s1 - 0)) p) as Hov.
  { unfold overflow_pending_for. simpl. rewrite Ho. simpl. rewrite (lm_overflow_at _ _ _ _ _ Hok).
    destruct (untracked out p =? 0); simpl; lia. }
  rewrite (proj2 (Z.leb_le _ _)) by (unfold saturating_add, failure_count in *; lia).
  eexists. split; [done|]. unfold insert_bucket. simpl. rewrite Hf. simpl.
  rewrite andb_false_r. simpl. rewrite lookup_insert_eq. f_equal.
  destruct b. simpl in *. by subst.
Qed.

Lemma clear_peer_failures_other st s q p :
  clear_peer_failures st q = Some s → p ≠ q → buckets s !! p = buckets st !! p.
Proof.
  unfold clear_peer_failures. intros H Hne. destruct (buckets st !! q); [|congruence].
  destruct (usize_sub _ _); simpl in H; [|done]. injection H as <-.
  case_match; simpl; rewrite ?lookup_insert_ne, unindex_other by done; simpl; by rewrite lookup_delete_ne.
Qed.

(** An attempt of another peer ends. *)
Lemma resolve_other c now now' q tr o st s p :
  resolve c now now' q tr o st = Some s → p ≠ q → buckets s !! p = buckets st !! p.
Proof.
  unfold resolve. intros H Hne. destruct tr; simpl in H.
  - destruct (buckets st !! q) as [b|]; [|congruence].
    destruct (pa_pending b =? 0).
    { injection H as <-. rewrite insert_bucket_other by done. simpl. by rewrite lookup_delete_ne. }
    destruct (usize_sub (pa_pending b) 1); simpl in H; [|done].
    destruct (usize_sub (total_pending st) 1); simpl in H; [|done].
    destruct (trim_expired _ _ _) as [kept removed].
    destruct (usize_sub (total_failure_records st) removed) as [n|]; simpl in H; [|done].
    destruct (match o with Succeeded => _ | Failed => _ | Neutral => _ end) as [[kept' n']|]; simpl in H; [|done].
    injection H as <-. case_match; rewrite ?insert_bucket_other by done; simpl; by rewrite lookup_delete_ne.
  - destruct (release_overflow st q) as [[[] s1]|] eqn:Hr; simpl in H; [| |done].
    + assert (buckets s1 = buckets st) as E.
      { unfold release_overflow in Hr. destruct (overflow_pending_by_peer st !! q) as [n|]; [|congruence].
        destruct (n =? 0); [congruence|]. destruct (usize_sub n 1); simpl in Hr; [|done].
        destruct (usize_sub _ 1); simpl in Hr; [|done]. injection Hr as <-. done. }
      rewrite <- E. destruct o; [by eapply clear_peer_failures_other|congruence..].
    + unfold release_overflow in Hr. destruct (overflow_pending_by_peer st !! q) as [n|]; [|congruence].
      destruct (n =? 0); [congruence|]. destruct (usize_sub n 1); simpl in Hr; [|done].
      by destruct (usize_sub _ 1).
Qed.

(** The peer's bucket at a point of a run: [max_attempts] failures, the first one at [t]. *)
Definition locked_from (c : FailedAuthLimiter) (t : Z) (p : PeerBucket) (b : PeerAttempts) (w : World) : Prop :=
  buckets (wd_state w) !! p = Some b ∧ max_attempts c ≤ failure_count b ∧ head (failures b) = Some t.

Lemma locked_from_locked c t p b w now :
  locked_from c t p b w → now < t + window c → locked c now (wd_state w) p b.
Proof.
  intros (?&?&Hh) Hn. split_and!; try done. destruct (failures b) as [|u rest]; [done|].
  injection Hh as ->. by exists t, rest.
Qed.

(** Nothing of a locked peer is outstanding. *)
Lemma locked_outstanding c t p b w :
  world_ok c w → locked_from c t p b w → Forall (λ r, rv_peer r ≠ p) (wd_out w).
Proof.
  intros [Hok _] (Hp&Hmax&_). pose proof (lm_peer _ _ _ _ _ Hok p) as Hle. unfold records in Hle.
  simpl in Hle. rewrite Hp in Hle. clear -Hle Hmax. induction (wd_out w) as [|r l IH]; [constructor|].
  rewrite tracked_cons, untracked_cons in Hle.
  pose proof (tracked_nonneg l p). pose proof (untracked_nonneg l p).
  constructor.
  2: { apply IH. destruct (rv_tracked r), (bool_decide _); simpl in *; lia. }
  intros E.
  rewrite bool_decide_eq_true_2 in Hle by done. destruct (rv_tracked r); simpl in Hle; lia.
Qed.

Definition attempts_of (p : PeerBucket) (w : World) : list (Z * PeerBucket) :=
  filter (λ x, x.2 = p) (wd_log w).

Lemma lockout_step c t p b w w' :
  config_ok c → world_ok c w → locked_from c t p b w → limiter_step c w w' →
  wd_clock w' < t + window c → locked_from c t p b w' ∧ attempts_of p w' = attempts_of p w.
Proof.
  intros Hc Hw Hl [now peer r s Hn Hres|now now' r out o r' s Hn Hperm Hf] Hlt; simpl in *.
  - pose proof (locked_from_locked c t p b w now Hl Hlt) as Hlk. destruct Hw as [Hok _].
    apply (limiter_clock c _ now) in Hok; [|done]. unfold attempts_of, locked_from in *. simpl.
    rewrite filter_app. destruct Hl as (?&?&?). destruct (decide (p = PeerBucket_from peer)) as [->|Hne].
    + destruct (reserve_locked_self c now _ _ _ _ Hc Hok Hlk) as (s0&E&?). rewrite Hres in E.
      injection E as -> ->. simpl. rewrite filter_nil, app_nil_r. by split_and!.
    + pose proof (reserve_locked_other c now _ _ _ _ _ _ _ Hc Hok Hres Hne Hlk).
      split; [by split_and!|]. destruct r; simpl; rewrite ?filter_nil, ?app_nil_r; [done|].
      rewrite filter_cons_False, filter_nil, app_nil_r by (simpl; congruence). done.
  - destruct (finish_step c w now now' r out o r' s Hw Hn Hperm Hf) as (q&tr&->&_&E).
    pose proof (locked_outstanding c t p b w Hw Hl) as Ho. rewrite Hperm in Ho.
    apply Forall_cons in Ho as [Hq _]. simpl in Hq.
    unfold attempts_of, locked_from in *. simpl. split; [|done].
    rewrite (resolve_other _ _ _ _ _ _ _ _ p E) by congruence. done.
Qed.

Lemma clock_mono c w w' : limiter_step c w w' → wd_clock w ≤ wd_clock w'.
Proof. intros [now peer r s ? ?|now now' r out o r' s ? ? ?]; simpl; lia. Qed.

(** C12: a peer that has failed as often as it may is locked out until its first failure is a
    window old, whatever other peers do: along every run of the limiter, however full its table
    is and whatever it evicts, the peer keeps its bucket, none of its attempts is admitted,
    each further attempt is refused, and no reservation of it is outstanding that could end in
    success and clear its failures. *)
Theorem lockout c budget w w' t p b :
  config_ok c → 0 ≤ budget → rtc (limiter_step c) (world_new budget) w →
  locked_from c t p b w → rtc (limiter_step c) w w' → wd_clock w' < t + window c →
  locked_from c t p b w' ∧ attempts_of p w' = attempts_of p w
  ∧ Forall (λ r, rv_peer r ≠ p) (wd_out w')
  ∧ ∀ now peer, PeerBucket_from peer = p → wd_clock w' ≤ now < t + window c →
      ∃ s, reserve c now (PeerBucket_from peer) (wd_state w') = Some (Refused, s).
Proof.
  intros Hc Hb Hreach Hl Hrun. pose proof (limiter_run_ok c _ _ Hc (world_new_ok c budget Hc Hb) Hreach) as Hw.
  clear Hreach. induction Hrun as [w|w w1 w' Hstep Hrun IH]; intros Hlt.
  - split_and!; [done|done|by eapply locked_outstanding|]. intros now peer -> Hn.
    destruct (reserve_locked_self c now (wd_out w) (wd_state w) p b Hc) as (s&?&_); [| |by exists s].
    + destruct Hw as [Hok _]. apply (limiter_clock c (wd_clock w)); [lia|done].
    + apply (locked_from_locked c t); [done|lia].
  - assert (wd_clock w1 ≤ wd_clock w') as Hle.
    { clear -Hrun. induction Hrun as [|x y z Hs]; [done|]. pose proof (clock_mono _ _ _ Hs). lia. }
    destruct (lockout_step c t p b w w1 Hc Hw Hl Hstep) as [Hl1 E]; [lia|].
    destruct IH as (?&E'&?&?); [done|by eapply limiter_step_ok|done|]. split_and!; [done|congruence|done|done].
Qed.

Definition demo_locked : World := ran (failing demo_limits demo_peer [10; 20; 30] (world_new 64)).
Definition demo_later : World := ran (failing demo_limits (other_peer x01) [40; 50; 60] demo_locked).

Lemma lockout_witness :
  let p := BucketV4 [x0a; x00; x00; x07] in
  attempts_of p demo_later = attempts_of p demo_locked
  ∧ ∃ s, reserve demo_limits 1009 (PeerBucket_from demo_peer) (wd_state demo_later) = Some (Refused, s).
Proof.
  cbv zeta. set (p := BucketV4 [x0a; x00; x00; x07]).
  assert (failing demo_limits demo_peer [10; 20; 30] (world_new 64) = Some demo_locked) as E
    by (apply ran_Some; vm_compute; reflexivity).
  assert (failing demo_limits (other_peer x01) [40; 50; 60] demo_locked = Some demo_later) as E'
    by (apply ran_Some; vm_compute; reflexivity).
  assert (wd_clock demo_locked = 30) as Hc by (vm_compute; reflexivity).
  assert (wd_clock demo_later = 60) as Hc' by (vm_compute; reflexivity).
  destruct (lockout demo_limits 64 demo_locked demo_later 10 p
    {| failures := [10; 20; 30]; pa_pending := 0 |}) as (_&Ha&_&Hr).
  - unfold config_ok. simpl. unfold u64_max. lia.
  - lia.
  - apply (failing_run _ _ _ _ _ E). simpl. repeat constructor; lia.
  - split; [vm_compute; reflexivity|]. split; [vm_compute; discriminate|reflexivity].
  - apply (failing_run _ _ _ _ _ E'). rewrite Hc. repeat constructor; lia.
  - simpl. lia.
  - split; [exact Ha|]. apply (Hr 1009 demo_peer); [vm_compute; reflexivity|simpl; lia].
Defined.
