(* ===== verification/LimiterRate.v ===== *)
(** The limiter of authentication attempts as a whole: its books in every reachable state, the
    rate at which it admits attempts over any interval, and the limit of TLS handshakes. *)

From S2P Require Import Prelude.
From S2P Require Import Ordered.
From S2P Require Import RateWindow.
From S2P Require Import Limiter.
From S2P Require Import LimiterFacts.
From Stdlib Require Import Strings.Byte.
From stdpp Require Import prelude gmap list sorting.

#[local] Open Scope Z_scope.

(** in every state the limiter reaches, its books are exact: the number of failures it
    counts is the number its peers have, the pending attempts it counts are the reservations
    that are outstanding, with and without a place in the table; no peer has more failures and
    outstanding reservations than it may, the table, the records and the reservations in
    flight are within their limits; and so no operation computes below zero or runs on: every
    attempt is answered, and every outstanding reservation can be finished, once. *)
Theorem limiter_invariant c budget w :
  config_ok c → 0 ≤ budget → rtc (limiter_step c) (world_new budget) w →
  let st := wd_state w in
  total_failure_records st = msum failure_count (buckets st)
  ∧ total_pending st = tally rv_tracked (wd_out w)
  ∧ total_overflow_pending st = tally (λ r, negb (rv_tracked r)) (wd_out w)
  ∧ (∀ p, records (buckets st) p + tracked (wd_out w) p + untracked (wd_out w) p ≤ max_attempts c)
  ∧ Z.of_nat (size (buckets st)) ≤ max_tracked_peers c
  ∧ total_failure_records st + total_pending st ≤ max_attempt_records c
  ∧ total_pending st + total_overflow_pending st ≤ max_attempt_records c
  ∧ (∀ now peer, wd_clock w ≤ now → is_Some (reserve c now (PeerBucket_from peer) st))
  ∧ (∀ r now now' o, r ∈ wd_out w → wd_clock w ≤ now ≤ now' →
       ∃ r' s, finish c now now' r o st = Some (r', s) ∧ ∀ o', finish c now now' r' o' s = Some (r', s)).
Proof.
  intros Hc Hb Hrun st. subst st. destruct (limiter_run_ok c _ _ Hc (world_new_ok c budget Hc Hb) Hrun) as [Hok Hres].
  split_and!; try apply Hok.
  - intros now peer Hn. destruct (reserve_ok c _ now _ _ (PeerBucket_from peer) Hc Hok Hn) as (r&s&->&_). done.
  - intros r now now' o Hr Hn. rewrite Forall_forall in Hres. specialize (Hres r Hr).
    apply elem_of_Permutation in Hr as [out Hp]. destruct r as [p t res]. simpl in Hres. subst res.
    apply (limiter_perm _ _ _ _ _ _ Hp) in Hok.
    destruct (resolve_ok c _ now now' out _ p t o Hok Hn) as (s&Hs&_).
    exists {| rv_peer := p; rv_tracked := t; rv_resolved := true |}, s.
    unfold finish. simpl. by rewrite Hs.
Qed.

(** * The rate *)

(** The attempts admitted from the peers of one shard of the budget. *)
Definition on_shard (i : nat) (x : Z * PeerBucket) : bool := (attempt_shard x.2 =? i)%nat.
Definition shard_log (i : nat) (log : list (Z * PeerBucket)) : list (Z * PeerBucket) :=
  filter (λ x, on_shard i x = true) log.

Definition one (x : Z * PeerBucket) : Z := 1.

(** A shard and the attempts it has let through. *)
Definition shard_ok (span clock cap : Z) (s : AttemptBudgetShard) (log : list (Z * PeerBucket)) : Prop :=
  capacity s = cap
  ∧ match window_opened s with
    | None => used s = 0 ∧ log = []
    | Some started =>
      ∃ lo old cur, rate_ok fst one span cap started lo old cur ∧ log = old ++ cur
        ∧ used s = weight one everything cur ∧ Forall (λ x, x.1 ≤ clock) cur ∧ started ≤ clock
    end.

Lemma shard_interval span clock cap s log a :
  0 ≤ cap → shard_ok span clock cap s log → weight one (within fst span a) log ≤ 2 * cap.
Proof.
  intros Hc [_ H]. destruct (window_opened s).
  - destruct H as (lo&old&cur&Hr&->&_). by eapply rate_interval.
  - destruct H as [_ ->]. simpl. lia.
Qed.

Lemma shard_clock span clock clock' cap s log :
  clock ≤ clock' → shard_ok span clock cap s log → shard_ok span clock' cap s log.
Proof.
  intros Hle [? H]. split; [done|]. destruct (window_opened s); [|done].
  destruct H as (lo&old&cur&?&?&?&Hf&?). exists lo, old, cur. split_and!; try done; [|lia].
  eapply Forall_impl; [exact Hf|]. simpl. lia.
Qed.

(** Giving back what the call itself has used. *)
Definition refunded (s : AttemptBudgetShard) : AttemptBudgetShard :=
  {| window_opened := window_opened s; used := saturating_sub (used s) 1; capacity := capacity s |}.

Lemma weight_ones q l : 0 ≤ weight one q l.
Proof. apply weight_nonneg. by apply Forall_forall. Qed.

(** A shard that has been asked: the window it is in afterwards, and its answer. *)
Lemma consume_ok span clock cap now s log p :
  0 ≤ cap → 0 ≤ span → shard_ok span clock cap s log → clock ≤ now →
  let '(allowed, s') := consume_shard now span s in
  if allowed : bool
  then shard_ok span now cap s' (log ++ [(now, p)]) ∧ shard_ok span now cap (refunded s') log
  else shard_ok span now cap s' log.
Proof.
  intros Hcap Hspan Hok Hclock. apply (shard_clock _ _ now) in Hok; [|done]. unfold consume_shard.
  set (reset := match window_opened s with Some _ => _ | None => _ end).
  assert (∃ started lo old cur, let s1 := if reset then {| window_opened := Some now; used := 0; capacity := capacity s |} else s in
    window_opened s1 = Some started ∧ capacity s1 = cap ∧ used s1 = weight one everything cur
    ∧ rate_ok fst one span cap started lo old cur ∧ log = old ++ cur
    ∧ Forall (λ x, x.1 ≤ now) cur ∧ started ≤ now) as (started&lo&old&cur&Ew&Ec&Eu&Hr&Hl&Hf&Hs).
  { destruct Hok as [Hca Hw]. unfold reset. destruct (window_opened s) as [started|] eqn:Ho.
    - destruct Hw as (lo&old&cur&Hr&->&Hu&Hf&Hs).
      destruct (Z.leb_spec span (duration_since now started)) as [Hexp|_].
      + assert (started + span ≤ now) by (unfold duration_since, saturating_sub in Hexp; lia).
        exists now, now, (old ++ cur), []. rewrite app_nil_r. split_and!; try done.
        by apply (rate_reset fst one span cap started lo).
      + exists started, lo, old, cur. by split_and!.
    - destruct Hw as [Hu ->]. exists now, now, [], []. split_and!; try done. by apply rate_new. }
  set (s1 := if reset then _ else s) in *. clearbody s1. clear reset.
  destruct (Z.leb_spec (capacity s1) (used s1)) as [Hfull|Hroom].
  { split; [done|]. rewrite Ew. by exists lo, old, cur. }
  pose proof (ra_lo _ _ _ _ _ _ _ _ Hr). pose proof (weight_ones everything cur). split.
  - split; [done|]. simpl. rewrite Ew. exists lo, old, (cur ++ [(now, p)]). split_and!.
    + apply rate_add; simpl; [done|done|lia|]. change (one (now, p)) with 1. lia.
    + by rewrite Hl, (assoc_L (++)).
    + rewrite weight_app. change (weight one everything [(now, p)]) with 1. simpl. lia.
    + apply Forall_app. split; [done|]. by constructor; [|constructor].
    + done.
  - split; [done|]. simpl. rewrite Ew. exists lo, old, cur. split_and!; try done.
    unfold saturating_sub. lia.
Qed.

Definition shard_capacity (budget i : Z) : Z :=
  budget / AUTH_ATTEMPT_SHARDS + (if i <? budget `mod` AUTH_ATTEMPT_SHARDS then 1 else 0).

Lemma shard_capacity_nonneg budget i : 0 ≤ budget → 0 ≤ shard_capacity budget i.
Proof.
  intros ?. unfold shard_capacity. pose proof (Z.div_pos budget AUTH_ATTEMPT_SHARDS ltac:(done) ltac:(done)).
  destruct (_ <? _); lia.
Qed.

(** All shards of the budget along a run. *)
Definition budget_ok (c : FailedAuthLimiter) (budget : Z) (w : World) : Prop :=
  ∀ i s, attempt_budget (wd_state w) !! i = Some s →
    shard_ok (window c) (wd_clock w) (shard_capacity budget (Z.of_nat i)) s (shard_log i (wd_log w)).

Lemma budget_new c budget : budget_ok c budget (world_new budget).
Proof.
  intros i s. cbn [world_new wd_state FailedAuthState_new attempt_budget].
  rewrite list_lookup_fmap_Some. intros (j&->&[-> _]%lookup_seqZ). split; [|done].
  simpl. unfold shard_capacity. by rewrite Z.add_0_l.
Qed.

Lemma shard_log_app i l k : shard_log i (l ++ k) = shard_log i l ++ shard_log i k.
Proof. apply filter_app. Qed.
Lemma shard_log_other i now p r : i ≠ attempt_shard p → shard_log i (logged now p r) = [].
Proof.
  intros Hne. destruct r; [done|]. unfold shard_log, on_shard. simpl. rewrite filter_cons_False; [done|].
  simpl. rewrite Nat.eqb_eq. congruence.
Qed.
Lemma shard_log_same now p t :
  shard_log (attempt_shard p) (logged now p (Granted t)) = [(now, p)].
Proof.
  unfold shard_log, on_shard. simpl. rewrite filter_cons_True; [done|]. simpl. apply Nat.eqb_refl.
Qed.

(** One answer of the limiter. *)
Lemma budget_reserve c budget w now p r s :
  0 < window c → 0 ≤ budget → budget_ok c budget w → wd_clock w ≤ now → charged c now p r (wd_state w) s →
  ∀ i x, attempt_budget s !! i = Some x →
    shard_ok (window c) now (shard_capacity budget (Z.of_nat i)) x (shard_log i (wd_log w ++ logged now p r)).
Proof.
  intros Hw Hb Hok Hn (shard&Hs&Hcase) i x Hx. rewrite shard_log_app.
  assert (∀ i x, attempt_budget (wd_state w) !! i = Some x →
    shard_ok (window c) now (shard_capacity budget (Z.of_nat i)) x (shard_log i (wd_log w))) as Hold
    by (intros j y Hy; by apply (shard_clock _ (wd_clock w)), Hok).
  set (k := attempt_shard p) in *.
  pose proof (consume_ok (window c) (wd_clock w) (shard_capacity budget (Z.of_nat k)) now shard
    (shard_log k (wd_log w)) p (shard_capacity_nonneg _ _ Hb) ltac:(lia) (Hok k shard Hs) Hn) as Hc.
  assert (k < length (attempt_budget (wd_state w)))%nat as Hlt by by eapply lookup_lt_Some.
  assert (∀ y, attempt_budget s = <[k := y]> (attempt_budget (wd_state w)) →
    (i = k ∧ x = y) ∨ (i ≠ k ∧ attempt_budget (wd_state w) !! i = Some x)) as Hins.
  { intros y E. rewrite E in Hx. destruct (decide (i = k)) as [->|Hne].
    - rewrite list_lookup_insert_eq in Hx by done. left. split; congruence.
    - rewrite list_lookup_insert_ne in Hx by done. by right. }
  destruct (decide (i = k)) as [->|Hne].
  2: { unfold k in Hne. rewrite shard_log_other, app_nil_r by done. apply Hold.
       destruct r as [|t]; [destruct Hcase as [E|(?&?&_&E)]|destruct Hcase as (?&_&E)];
         [by rewrite <- E|destruct (Hins _ E) as [[? _]|[_ ?]]; done..]. }
  destruct r as [|t].
  - rewrite app_nil_r. destruct Hcase as [E|(allowed&y&E1&E)]; [by apply Hold; rewrite <- E|].
    rewrite E1 in Hc. destruct (Hins _ E) as [[_ ->]|[? _]]; [|done].
    destruct allowed; [by apply Hc|done].
  - assert (shard_log k (logged now p (Granted t)) = [(now, p)]) as -> by apply shard_log_same. destruct Hcase as (y&E1&E). rewrite E1 in Hc.
    destruct (Hins _ E) as [[_ ->]|[? _]]; [|done]. by apply Hc.
Qed.

Lemma budget_step c budget w w' :
  config_ok c → 0 ≤ budget → world_ok c w → budget_ok c budget w → limiter_step c w w' → budget_ok c budget w'.
Proof.
  intros Hc Hb Hw Hok [now peer r s Hn Hres|now now' r out o r' s Hn Hperm Hf].
  - destruct Hw as [Hl _].
    destruct (reserve_ok c _ now _ _ (PeerBucket_from peer) Hc Hl Hn) as (r0&s0&E&_&Hch&_).
    rewrite Hres in E. injection E as <- <-. destruct Hc as (_&_&_&Hwin).
    intros i x Hx. simpl in *. by eapply budget_reserve.
  - destruct (finish_step c w now now' r out o r' s Hw Hn Hperm Hf) as (p&tr&->&Hl&E).
    destruct (resolve_ok c _ now now' out _ p tr o Hl Hn) as (s0&E0&_&Hsame).
    rewrite E in E0. injection E0 as <-. intros i x Hx. simpl in *. rewrite Hsame in Hx.
    apply (shard_clock _ (wd_clock w)); [lia|]. by apply Hok.
Qed.

(** The sum over the shards. *)
Definition over_shards (f : nat → Z) : Z := foldr (λ i n, f i + n) 0 (seq 0 (Z.to_nat AUTH_ATTEMPT_SHARDS)).

Lemma over_shards_le f g : (∀ i, (i < 16)%nat → f i ≤ g i) → over_shards f ≤ over_shards g.
Proof.
  intros H. unfold over_shards, AUTH_ATTEMPT_SHARDS, AUTH_ATTEMPT_SHARDS_PER_FAMILY.
  change (Z.to_nat (8 * 2)) with 16%nat.
  assert (∀ l, Forall (λ i, i < 16)%nat l → foldr (λ i n, f i + n) 0 l ≤ foldr (λ i n, g i + n) 0 l) as Hl.
  { induction 1 as [|i l Hi _ IH]; simpl; [done|]. specialize (H i Hi). lia. }
  apply Hl. apply Forall_forall. intros i Hi%elem_of_seq. lia.
Qed.

Lemma over_shards_add f g : over_shards (λ i, f i + g i) = over_shards f + over_shards g.
Proof. unfold over_shards. induction (seq _ _) as [|i l IH]; simpl; [done|]. rewrite IH. lia. Qed.
Lemma over_shards_scale k f : over_shards (λ i, k * f i) = k * over_shards f.
Proof. unfold over_shards. induction (seq _ _) as [|i l IH]; simpl; [lia|]. rewrite IH. lia. Qed.

(** The capacities of the shards make up the budget. *)
Lemma capacities budget : over_shards (λ i, shard_capacity budget (Z.of_nat i)) = budget.
Proof.
  unfold shard_capacity, AUTH_ATTEMPT_SHARDS, AUTH_ATTEMPT_SHARDS_PER_FAMILY.
  change (8 * 2) with 16. rewrite over_shards_add.
  assert (over_shards (λ _, budget / 16) = 16 * (budget / 16)) as ->.
  { generalize (budget / 16). intros d. unfold over_shards. change (Z.to_nat AUTH_ATTEMPT_SHARDS) with 16%nat.
    cbn [seq foldr]. lia. }
  pose proof (Z.mod_pos_bound budget 16 ltac:(lia)) as He. pose proof (Z.div_mod budget 16 ltac:(lia)) as Hdm.
  set (e := budget `mod` 16) in *. clearbody e.
  assert (Forall (λ e, over_shards (λ i, if Z.of_nat i <? e then 1 else 0) = e) (seqZ 0 16)) as H
    by (repeat (constructor; [by vm_compute|]); constructor).
  rewrite Forall_forall in H. rewrite (H e) by (apply elem_of_seqZ; lia). lia.
Qed.

(** Every admitted attempt is on one shard. *)
Lemma shard_lt p : (attempt_shard p < 16)%nat.
Proof.
  unfold attempt_shard. destruct p as [l|l];
    (assert (0 ≤ foldl fnv_step 14695981039346656037 l `mod` AUTH_ATTEMPT_SHARDS_PER_FAMILY < 8)
       by (by apply Z.mod_pos_bound)); unfold AUTH_ATTEMPT_SHARDS_PER_FAMILY in *; lia.
Qed.

Lemma shard_total q log : weight one q log = over_shards (λ i, weight one q (shard_log i log)).
Proof.
  induction log as [|[t p] log IH]; [done|]. simpl weight at 1. rewrite IH, <- (Z.add_0_l (over_shards _)).
  assert (∀ i, weight one q (shard_log i ((t, p) :: log))
    = (if q (t, p) then if (attempt_shard p =? i)%nat then 1 else 0 else 0) + weight one q (shard_log i log)) as E.
  { intros i. unfold shard_log at 1, on_shard at 1. destruct (Nat.eqb_spec (attempt_shard p) i) as [Ei|Ei].
    - rewrite filter_cons_True; [done|]. simpl. by apply Nat.eqb_eq.
    - rewrite filter_cons_False; [by destruct (q (t, p))|]. simpl. by rewrite Nat.eqb_eq. }
  transitivity (over_shards (λ i, (if q (t, p) then if (attempt_shard p =? i)%nat then 1 else 0 else 0)
    + weight one q (shard_log i log))).
  - rewrite over_shards_add. f_equal. destruct (q (t, p)); [|by vm_compute].
    pose proof (shard_lt p) as Hlt. set (k := attempt_shard p) in *. clearbody k. unfold one.
    do 16 (destruct k as [|k]; [by vm_compute|]). lia.
  - unfold over_shards. induction (seq _ _) as [|i l IHl]; simpl; [done|]. rewrite IHl, <- E. done.
Qed.

Lemma budget_run c budget w :
  config_ok c → 0 ≤ budget → rtc (limiter_step c) (world_new budget) w → budget_ok c budget w.
Proof.
  intros Hc Hb Hrun. pose proof (budget_new c budget) as H0.
  pose proof (world_new_ok c budget Hc Hb) as Hw. revert H0 Hw.
  induction Hrun as [w|w w1 w2 Hstep _ IH]; intros H0 Hw; [done|].
  apply IH; [by eapply budget_step|by eapply limiter_step_ok].
Qed.

(** however many peers attempt to authenticate, and whether they fail or succeed, the
    limiter admits no more than twice its budget of attempts in any interval of the length of
    its window, and no more than twice a shard's part of the budget from the peers of one
    shard; the parts of the 16 shards add up to the budget. *)
Theorem attempts_rate_bounded c budget w a :
  config_ok c → 0 ≤ budget → rtc (limiter_step c) (world_new budget) w →
  weight one (within fst (window c) a) (wd_log w) ≤ 2 * budget
  ∧ (∀ i, (i < 16)%nat → weight one (within fst (window c) a) (shard_log i (wd_log w))
       ≤ 2 * shard_capacity budget (Z.of_nat i))
  ∧ over_shards (λ i, shard_capacity budget (Z.of_nat i)) = budget.
Proof.
  intros Hc Hb Hrun. pose proof (budget_run c budget w Hc Hb Hrun) as Hok.
  destruct (limiter_run_ok c _ _ Hc (world_new_ok c budget Hc Hb) Hrun) as [Hl _].
  destruct (lm_budget _ _ _ _ _ Hl) as [Hlen _].
  assert (∀ i, (i < 16)%nat → weight one (within fst (window c) a) (shard_log i (wd_log w))
       ≤ 2 * shard_capacity budget (Z.of_nat i)) as Hshard.
  { intros i Hi. destruct (lookup_lt_is_Some_2 (attempt_budget (wd_state w)) i) as [s Hs].
    { rewrite Hlen. exact Hi. }
    eapply shard_interval; [by apply shard_capacity_nonneg|by apply Hok]. }
  split_and!; [|done|apply capacities].
  rewrite shard_total. etrans; [exact (over_shards_le _ (λ i, 2 * shard_capacity budget (Z.of_nat i)) Hshard)|].
  rewrite over_shards_scale, capacities. done.
Qed.

Definition demo_busy : World := ran (failing demo_limits demo_peer [10; 20; 30; 40; 1500] (world_new 40)).
Lemma demo_busy_run : rtc (limiter_step demo_limits) (world_new 40) demo_busy.
Proof.
  apply (failing_run _ demo_peer [10; 20; 30; 40; 1500]); [|simpl; repeat constructor; lia].
  apply ran_Some. vm_compute. reflexivity.
Qed.
Lemma demo_limits_ok : config_ok demo_limits.
Proof. unfold config_ok. simpl. unfold u64_max. lia. Qed.

Lemma attempts_rate_bounded_witness :
  length (wd_log demo_busy) = 4%nat ∧ weight one (within fst (window demo_limits) 20) (wd_log demo_busy) ≤ 2 * 40.
Proof.
  split; [vm_compute; reflexivity|].
  exact (proj1 (attempts_rate_bounded demo_limits 40 demo_busy 20 demo_limits_ok ltac:(lia) demo_busy_run)).
Defined.

Lemma limiter_invariant_witness :
  total_failure_records (wd_state demo_busy) = 1
  ∧ is_Some (reserve demo_limits 1600 (PeerBucket_from demo_peer) (wd_state demo_busy)).
Proof.
  destruct (limiter_invariant demo_limits 40 demo_busy) as (_&_&_&_&_&_&_&Hr&_);
    [exact demo_limits_ok|lia|exact demo_busy_run|].
  split; [vm_compute; reflexivity|]. apply Hr. vm_compute. discriminate.
Defined.

(** * TLS handshakes *)

(** The handshakes in flight, with the permits that are held. *)
Inductive handshake_step (max : Z) : Tls.Handshakes * list PeerBucket → Tls.Handshakes * list PeerBucket → Prop :=
| step_acquire s held peer granted s' :
    Tls.try_acquire max s (PeerBucket_from peer) = (granted, s') →
    handshake_step max (s, held) (s', if granted then PeerBucket_from peer :: held else held)
| step_release s held p held' s' :
    held ≡ₚ p :: held' → Tls.release s p = Some s' → handshake_step max (s, held) (s', held').

Definition held_by (p : PeerBucket) (held : list PeerBucket) : Z := tally (λ q, bool_decide (q = p)) held.
Definition handshakes_ok (max : Z) (w : Tls.Handshakes * list PeerBucket) : Prop :=
  ∀ p, w.1 !! p = (if held_by p w.2 =? 0 then None else Some (held_by p w.2)) ∧ held_by p w.2 ≤ max.

Lemma held_cons p q held : held_by p (q :: held) = (if bool_decide (q = p) then 1 else 0) + held_by p held.
Proof. unfold held_by. by rewrite tally_cons. Qed.

Lemma handshakes_in_flight max s held p :
  handshakes_ok max (s, held) → default 0 (s !! p) = held_by p held.
Proof. intros H. destruct (H p) as [E _]. simpl in E. rewrite E. by destruct (Z.eqb_spec (held_by p held) 0). Qed.

Lemma release_held max s held p :
  handshakes_ok max (s, p :: held) → ∃ s', Tls.release s p = Some s' ∧ handshakes_ok max (s', held).
Proof.
  intros H. pose proof (tally_nonneg (λ q, bool_decide (q = p)) held) as Hn. fold (held_by p held) in Hn.
  pose proof (H p) as [Hp _]. simpl in Hp. rewrite held_cons, bool_decide_eq_true_2 in Hp by done.
  unfold Tls.release. rewrite Hp. destruct (Z.eqb_spec (1 + held_by p held) 0); [lia|].
  rewrite usize_sub_Some by lia. simpl. replace (1 + held_by p held - 1) with (held_by p held) by lia.
  eexists. split; [done|]. intros q. specialize (H q). simpl in *. rewrite held_cons in H.
  destruct (decide (p = q)) as [->|Hne].
  - rewrite bool_decide_eq_true_2 in H by done. split; [|lia]. unfold Tls.Handshakes in *.
    destruct (held_by q held =? 0); [apply lookup_delete_eq|apply lookup_insert_eq].
  - rewrite bool_decide_eq_false_2, Z.add_0_l in H by done. destruct H as [H ?]. split; [|done].
    rewrite <- H. destruct (held_by p held =? 0); [by apply lookup_delete_ne|by apply lookup_insert_ne].
Qed.

Lemma handshake_step_ok max w w' :
  0 < max → handshakes_ok max w → handshake_step max w w' → handshakes_ok max w'.
Proof.
  intros Hmax H Hstep. revert H. destruct Hstep as [s held peer granted s' Hacq|s held p held' s' Hperm Hrel]; intros H.
  - pose proof (handshakes_in_flight max s held (PeerBucket_from peer) H) as Hd.
    unfold Tls.try_acquire in Hacq. rewrite Hd in Hacq. clear Hd.
    set (p := PeerBucket_from peer) in *. clearbody p.
    destruct (Z.leb_spec max (held_by p held)); injection Hacq as <- <-; intros q; destruct (H q) as [Hq Hle]; simpl in *.
    + split; [|done]. rewrite <- Hq. destruct (decide (p = q)) as [->|?]; [|by apply lookup_insert_ne].
      rewrite Hq. unfold Tls.Handshakes in *. rewrite lookup_insert_eq. by destruct (Z.eqb_spec (held_by q held) 0); [lia|].
    + rewrite held_cons. pose proof (tally_nonneg (λ r, bool_decide (r = p)) held) as Hn. fold (held_by p held) in Hn.
      destruct (decide (p = q)) as [<-|?].
      * unfold Tls.Handshakes in *. rewrite lookup_insert_eq, bool_decide_eq_true_2 by done.
        destruct (Z.eqb_spec (1 + held_by p held) 0); [lia|]. split; [f_equal|]; lia.
      * unfold Tls.Handshakes in *. rewrite lookup_insert_ne, bool_decide_eq_false_2, Z.add_0_l by done. done.
  - assert (handshakes_ok max (s, p :: held')) as H'.
    { intros q. specialize (H q). unfold held_by in *. simpl in *. by rewrite <- (tally_perm (λ r, bool_decide (r = q)) _ _ Hperm). }
    destruct (release_held max s held' p H') as (s0&E&?). rewrite Hrel in E. by injection E as ->.
Qed.

(** The TLS handshakes of a peer that are in flight never exceed the limit: along every
    sequence of acquisitions and releases the table holds for each peer exactly the number of
    permits held, and no entry for a peer without one; a handshake is refused exactly when the
    peer holds the limit; and giving a permit back never computes below zero. *)
Theorem tls_handshakes_bounded max s held :
  0 < max → rtc (handshake_step max) (∅, []) (s, held) →
  (∀ p, default 0 (s !! p) = held_by p held ∧ held_by p held ≤ max)
  ∧ (∀ p, held_by p held = 0 → s !! p = None)
  ∧ (∀ peer, (Tls.try_acquire max s (PeerBucket_from peer)).1 = (held_by (PeerBucket_from peer) held <? max))
  ∧ (∀ p, p ∈ held → is_Some (Tls.release s p)).
Proof.
  intros Hmax Hrun.
  assert (handshakes_ok max (s, held)) as Hok.
  { assert (handshakes_ok max (∅, [])) as H0
      by (intros p; simpl; unfold held_by, tally; simpl; split; [apply lookup_empty|unfold blen; simpl; lia]).
    revert H0. induction Hrun as [w|w w1 w2 Hs _ IH]; intros H0; [done|]. by apply IH, (handshake_step_ok _ w). }
  split_and!.
  - intros p. split; [by eapply handshakes_in_flight|]. apply (Hok p).
  - intros p Hp. destruct (Hok p) as [E _]. simpl in E. by rewrite E, Hp.
  - intros peer. unfold Tls.try_acquire. rewrite (handshakes_in_flight max s held) by done.
    destruct (Z.leb_spec max (held_by (PeerBucket_from peer) held)); simpl; symmetry;
      [by apply Z.ltb_ge|by apply Z.ltb_lt].
  - intros p [held' Hp]%elem_of_Permutation.
    destruct (release_held max s held' p) as (s'&->&_); [|done].
    intros q. specialize (Hok q). unfold held_by in *. simpl in *. by rewrite <- (tally_perm (λ r, bool_decide (r = q)) _ _ Hp).
Qed.

Lemma acquire_step max s held peer :
  default 0 (s !! PeerBucket_from peer) < max →
  ∃ s', handshake_step max (s, held) (s', PeerBucket_from peer :: held).
Proof.
  intros H. exists (<[PeerBucket_from peer := default 0 (s !! PeerBucket_from peer) + 1]> s).
  apply (step_acquire max s held peer true). unfold Tls.try_acquire. by rewrite (proj2 (Z.leb_gt _ _)).
Qed.

Lemma tls_handshakes_bounded_witness :
  ∃ s, (Tls.try_acquire 1 s (PeerBucket_from demo_peer)).1 = false
    ∧ is_Some (Tls.release s (PeerBucket_from demo_peer)).
Proof.
  destruct (acquire_step 1 ∅ [] demo_peer) as [s Hs]; [vm_compute; reflexivity|].
  exists s. destruct (tls_handshakes_bounded 1 s [PeerBucket_from demo_peer]) as (_&_&Ha&Hr).
  - lia.
  - eapply rtc_l; [exact Hs|apply rtc_refl].
  - split; [|apply Hr, list_elem_of_here]. rewrite Ha, held_cons, bool_decide_eq_true_2 by reflexivity.
    reflexivity.
Defined.
