(* ===== verification/UdpFlows.v ===== *)
(** The server's table of UDP flows ([FlowTable] of [rustgos/src/udp.rs]): two maps and a
    doubly linked list through the entries, in the order in which idle flows are looked for,
    with the addresses and the runtime limits of a relay. *)

From S2P Require Import Prelude.
From S2P Require Import Messages.
From S2P Require Import Events.
From S2P Require Import Limiter.
From Stdlib Require Import Strings.Byte.
From stdpp Require Import prelude gmap list.

#[local] Open Scope Z_scope.

(** * Addresses *)

(** [std::net::SocketAddr]; an IPv6 one has a flow label and a scope. *)
Inductive SocketAddr :=
| SaV4 (octets : list byte) (port : Z)
| SaV6 (octets : list byte) (port flowinfo scope_id : Z).
#[export] Instance socket_addr_eq_dec : EqDecision SocketAddr.
Proof. solve_decision. Defined.
#[export] Program Instance socket_addr_countable : Countable SocketAddr :=
  inj_countable' (λ a, match a with SaV4 o p => inl (o, p) | SaV6 o p f s => inr (o, p, f, s) end)
    (λ x, match x with inl (o, p) => SaV4 o p | inr (o, p, f, s) => SaV6 o p f s end) _.
Next Obligation. by intros []. Qed.

Definition canonical_socket_addr (address : SocketAddr) : SocketAddr :=
  match address with
  | SaV6 octets port _ _ =>
    match to_ipv4_mapped octets with Some ip => SaV4 ip port | None => address end
  | SaV4 _ _ => address
  end.
Definition wire_socket_addr (address : SocketAddr) : SocketAddress :=
  match canonical_socket_addr address with
  | SaV4 octets port => V4 octets port
  | SaV6 octets port _ _ => V6 octets port
  end.
Definition socket_addr_from_wire (address : SocketAddress) : SocketAddr :=
  canonical_socket_addr
    (match address with V4 octets port => SaV4 octets port | V6 octets port => SaV6 octets port 0 0 end).

(** * Limits *)

(** [UdpRuntimeLimits]; durations in nanoseconds. *)
Record UdpRuntimeLimits := {
  ul_queue_capacity : Z;
  ul_idle_timeout : Z;
  ul_sweep_interval : Z;
  ul_sweep_batch : Z;
  ul_writer_delay : Z;
  ul_test_disconnect_after_replies : option Z;
}.
Definition UdpRuntimeLimits_default : UdpRuntimeLimits :=
  {| ul_queue_capacity := 1024; ul_idle_timeout := 60 * 1000000000; ul_sweep_interval := 1000000000;
     ul_sweep_batch := 64; ul_writer_delay := 0; ul_test_disconnect_after_replies := None |}.

(** [Duration::as_millis]. *)
Definition as_millis (d : Z) : Z := d / 1000000.
Definition limits_is_valid (l : UdpRuntimeLimits) : bool :=
  (0 <? ul_queue_capacity l) && negb (ul_idle_timeout l =? 0)
  && (as_millis (ul_idle_timeout l) <=? u32_max) && negb (ul_sweep_interval l =? 0)
  && (0 <? ul_sweep_batch l)
  && negb (bool_decide (ul_test_disconnect_after_replies l = Some 0)).

Inductive UdpRelayError :=
| UdpIo | UdpFrame | DataChannelClosed | ControlChannelClosed | DataChannelSetupTimeout
| RetirementDeliveryFailed | InvalidFrame | UdpFrameTooLarge | UdpPayloadTooLarge
| SessionAllocation | ShortDatagramWrite | TaskJoin | InternalTestDisconnect | InvalidLimits.

(** [u32::try_from] of a [usize] or [u128]. *)
Definition u32_of (v : Z) : option Z := if v <=? u32_max then Some v else None.
(** [UdpRuntimeLimits::open_channel]. *)
Definition open_channel (l : UdpRuntimeLimits) (tunnel_id channel_id : Z) (token : list byte)
    (max_sessions max_payload : Z) : res UdpRelayError OpenUdpChannel :=
  max_sessions ← ok_or (u32_of max_sessions) InvalidLimits;
  idle ← ok_or (u32_of (as_millis (ul_idle_timeout l))) InvalidLimits;
  max_payload ← ok_or (u32_of max_payload) InvalidLimits;
  queue ← ok_or (u32_of (ul_queue_capacity l)) InvalidLimits;
  let request :=
    {| ouc_tunnel_id := tunnel_id; ouc_channel_id := channel_id; ouc_binding_token := token;
       ouc_max_sessions := max_sessions; ouc_idle_timeout_millis := idle;
       ouc_max_payload_bytes := max_payload; ouc_queue_capacity := queue |} in
  if has_valid_limits request then Ok request else Err InvalidLimits.

(** [minimum_sweep_batch]: how many flows a sweep must look at for all of them to be looked
    at within the idle timeout. *)
Definition sweeps_before_timeout (idle_timeout sweep_interval : Z) : Z :=
  Z.max 1 (idle_timeout / sweep_interval).
Definition div_ceil (a b : Z) : Z := (a + b - 1) / b.
Definition minimum_sweep_batch (capacity idle_timeout sweep_interval : Z) : option Z :=
  if sweep_interval =? 0 then None
  else
    let batch := div_ceil capacity (sweeps_before_timeout idle_timeout sweep_interval) in
    if batch <=? u64_max then Some batch else None.
Definition effective_sweep_batch (l : UdpRuntimeLimits) (capacity : Z) : res UdpRelayError Z :=
  minimum ← ok_or (minimum_sweep_batch capacity (ul_idle_timeout l) (ul_sweep_interval l)) InvalidLimits;
  Ok (Z.max (ul_sweep_batch l) minimum).

(** * The table *)

Record FlowKey := { fk_source : SocketAddr; fk_destination : SocketAddr }.
#[export] Instance flow_key_eq_dec : EqDecision FlowKey.
Proof. solve_decision. Defined.
#[export] Program Instance flow_key_countable : Countable FlowKey :=
  inj_countable' (λ k, (fk_source k, fk_destination k)) (λ x, Build_FlowKey x.1 x.2) _.
Next Obligation. by intros []. Qed.

(** An [Arc<ObservedUdpTraffic>] is a location of the store of counters. *)
Definition Arc : Type := nat.

Record FlowEntry := {
  fe_key : FlowKey;
  last_activity : Z;
  previous : option Z;
  next : option Z;
  observed_traffic : option Arc;
}.

Record FlowTable := {
  ft_capacity : Z;
  ft_observe_traffic : bool;
  by_flow : gmap FlowKey Z;
  by_id : gmap Z FlowEntry;
  sweep_head : option Z;
  sweep_tail : option Z;
}.

Record ExpiredFlow := { ef_session_id : Z; ef_observed_traffic : option Arc }.

Inductive FlowError := FlowCapacity | FlowEntropyUnavailable | Inconsistent.

Definition FlowTable_new (capacity : Z) (observe : bool) : FlowTable :=
  {| ft_capacity := capacity; ft_observe_traffic := observe; by_flow := ∅; by_id := ∅;
     sweep_head := None; sweep_tail := None |}.

Definition MAX_SESSION_ID_ATTEMPTS : nat := 16.

(** Field updates. *)
Definition with_flows (t : FlowTable) (f : gmap FlowKey Z) (m : gmap Z FlowEntry) : FlowTable :=
  {| ft_capacity := ft_capacity t; ft_observe_traffic := ft_observe_traffic t; by_flow := f; by_id := m;
     sweep_head := sweep_head t; sweep_tail := sweep_tail t |}.
Definition with_entries (t : FlowTable) (m : gmap Z FlowEntry) : FlowTable := with_flows t (by_flow t) m.
Definition with_head (t : FlowTable) (h : option Z) : FlowTable :=
  {| ft_capacity := ft_capacity t; ft_observe_traffic := ft_observe_traffic t; by_flow := by_flow t;
     by_id := by_id t; sweep_head := h; sweep_tail := sweep_tail t |}.
Definition with_tail (t : FlowTable) (x : option Z) : FlowTable :=
  {| ft_capacity := ft_capacity t; ft_observe_traffic := ft_observe_traffic t; by_flow := by_flow t;
     by_id := by_id t; sweep_head := sweep_head t; sweep_tail := x |}.
Definition set_activity (now : Z) (e : FlowEntry) : FlowEntry :=
  {| fe_key := fe_key e; last_activity := now; previous := previous e; next := next e;
     observed_traffic := observed_traffic e |}.
Definition set_previous (p : option Z) (e : FlowEntry) : FlowEntry :=
  {| fe_key := fe_key e; last_activity := last_activity e; previous := p; next := next e;
     observed_traffic := observed_traffic e |}.
Definition set_next (n : option Z) (e : FlowEntry) : FlowEntry :=
  {| fe_key := fe_key e; last_activity := last_activity e; previous := previous e; next := n;
     observed_traffic := observed_traffic e |}.

(** [by_id.get_mut(id).ok_or(Inconsistent)] with an assignment to the entry. *)
Definition update_entry (t : FlowTable) (id : Z) (f : FlowEntry → FlowEntry) : res FlowError FlowTable :=
  e ← ok_or (by_id t !! id) Inconsistent;
  Ok (with_entries t (<[id := f e]> (by_id t))).

(** The loop of [allocate_session_id]; [entropy i] is the [i]-th draw. *)
Fixpoint allocate_loop (entropy : nat → option Z) (attempt n : nat) (m : gmap Z FlowEntry)
    : res FlowError Z :=
  match n with
  | O => Err FlowEntropyUnavailable
  | S n =>
    match entropy attempt with
    | None => Err FlowEntropyUnavailable
    | Some session_id =>
      if negb (session_id =? 0) && bool_decide (m !! session_id = None) then Ok session_id
      else allocate_loop entropy (S attempt) n m
    end
  end.
Definition allocate_session_id (entropy : nat → option Z) (t : FlowTable) : res FlowError Z :=
  allocate_loop entropy 0 MAX_SESSION_ID_ATTEMPTS (by_id t).

(** [session_for]: an error leaves the table as it is at that point; [fresh] is where the
    counters of a new flow are allocated. *)
Definition session_for (entropy : nat → option Z) (fresh : Arc) (t : FlowTable) (key : FlowKey) (now : Z)
    : res FlowError (Z * bool) * FlowTable :=
  match by_flow t !! key with
  | Some session_id =>
    match by_id t !! session_id with
    | Some e => (Ok (session_id, false), with_entries t (<[session_id := set_activity now e]> (by_id t)))
    | None => (Err Inconsistent, t)
    end
  | None =>
    if ft_capacity t <=? Z.of_nat (size (by_id t)) then (Err FlowCapacity, t) else
    match allocate_session_id entropy t with
    | Ok session_id =>
      let tail := sweep_tail t in
      let t := with_flows t (<[key := session_id]> (by_flow t))
        (<[session_id := {| fe_key := key; last_activity := now; previous := tail; next := None;
                            observed_traffic := if ft_observe_traffic t then Some fresh else None |}]> (by_id t)) in
      match tail with
      | Some tail =>
        match update_entry t tail (set_next (Some session_id)) with
        | Ok t => (Ok (session_id, true), with_tail t (Some session_id))
        | Err e => (Err e, t)
        | Panic => (Panic, t)
        end
      | None => (Ok (session_id, true), with_tail (with_head t (Some session_id)) (Some session_id))
      end
    | Err e => (Err e, t)
    | Panic => (Panic, t)
    end
  end.

(** [remove]; a missing neighbour is passed over. *)
Definition relink (m : gmap Z FlowEntry) (id : Z) (f : FlowEntry → FlowEntry) : gmap Z FlowEntry :=
  match m !! id with Some e => <[id := f e]> m | None => m end.
Definition FlowTable_remove (t : FlowTable) (session_id : Z) : bool * FlowTable :=
  match by_id t !! session_id with
  | None => (false, t)
  | Some entry =>
    let t := with_flows t (delete (fe_key entry) (by_flow t)) (delete session_id (by_id t)) in
    let t :=
      match previous entry with
      | Some p => with_entries t (relink (by_id t) p (set_next (next entry)))
      | None => with_head t (next entry)
      end in
    let t :=
      match next entry with
      | Some n => with_entries t (relink (by_id t) n (set_previous (previous entry)))
      | None => with_tail t (previous entry)
      end in
    (true, t)
  end.

Definition rotate_sweep_head (t : FlowTable) (session_id : Z) : res FlowError FlowTable :=
  if negb (bool_decide (sweep_head t = Some session_id)) then Err Inconsistent else
  if bool_decide (sweep_tail t = Some session_id) then Ok t else
  nxt ← ok_or (e ← by_id t !! session_id; next e) Inconsistent;
  tail ← ok_or (sweep_tail t) Inconsistent;
  t ← update_entry t nxt (set_previous None);
  t ← update_entry t tail (set_next (Some session_id));
  t ← update_entry t session_id (λ e, set_next None (set_previous (Some tail) e));
  Ok (with_tail (with_head t (Some nxt)) (Some session_id)).

Definition validate_reply (t : FlowTable) (session_id : Z) (recipient destination : SocketAddr) (now : Z)
    : bool * FlowTable :=
  match by_id t !! session_id with
  | None => (false, t)
  | Some e =>
    if negb (bool_decide (fk_source (fe_key e) = recipient))
       || negb (bool_decide (fk_destination (fe_key e) = destination))
    then (false, t)
    else (true, with_entries t (<[session_id := set_activity now e]> (by_id t)))
  end.

Definition flow_traffic (t : FlowTable) (session_id : Z) : option Arc :=
  e ← by_id t !! session_id; observed_traffic e.

(** The loop of [sweep_expired]. *)
Fixpoint sweep_loop (n : nat) (now idle_timeout : Z) (t : FlowTable) : res FlowError (list ExpiredFlow * FlowTable) :=
  match n with
  | O => Ok ([], t)
  | S n =>
    match sweep_head t with
    | None => Ok ([], t)
    | Some session_id =>
      if match by_id t !! session_id with
         | Some e => idle_timeout <=? duration_since now (last_activity e)
         | None => false
         end
      then
        let traffic := flow_traffic t session_id in
        let '(removed, t) := FlowTable_remove t session_id in
        '(expired, t) ← sweep_loop n now idle_timeout t;
        Ok ((if removed then [{| ef_session_id := session_id; ef_observed_traffic := traffic |}] else [])
              ++ expired, t)
      else
        t ← rotate_sweep_head t session_id;
        sweep_loop n now idle_timeout t
    end
  end.
Definition sweep_expired (t : FlowTable) (now idle_timeout maximum : Z) : res FlowError (list ExpiredFlow * FlowTable) :=
  sweep_loop (Z.to_nat (Z.min maximum (Z.of_nat (size (by_id t))))) now idle_timeout t.

Definition flow_len (t : FlowTable) : Z := Z.of_nat (size (by_id t)).
Definition flow_clear (t : FlowTable) : FlowTable :=
  {| ft_capacity := ft_capacity t; ft_observe_traffic := ft_observe_traffic t; by_flow := ∅; by_id := ∅;
     sweep_head := None; sweep_tail := None |}.
(** [session_ids], in the order of the map. *)
Definition session_ids (t : FlowTable) : list Z := (map_to_list (by_id t)).*1.
