(* ===== verification/UdpFlowsFacts.v ===== *)
(** The flow table represents a queue: the doubly linked entries are the flows in the order of
    the sweep, and every operation of the table is one of the queue. *)

From S2P Require Import Prelude.
From S2P Require Import Messages.
From S2P Require Import Events.
From S2P Require Import Limiter.
From S2P Require Import UdpFlows.
From Stdlib Require Import Strings.Byte.
From stdpp Require Import prelude gmap list.

#[local] Open Scope Z_scope.

(** * The queue of flows *)

Record Flow := {
  fl_id : Z;
  fl_key : FlowKey;
  fl_activity : Z;
  fl_traffic : option Arc;
}.
Notation Flows := (list Flow).

(** The entry of a flow between those before and after it. *)
Definition entry_of (l1 : Flows) (f : Flow) (l2 : Flows) : FlowEntry :=
  {| fe_key := fl_key f; last_activity := fl_activity f; previous := fl_id <$> last l1;
     next := fl_id <$> head l2; observed_traffic := fl_traffic f |}.

Definition chain (m : gmap Z FlowEntry) (q : Flows) : Prop :=
  ∀ l1 f l2, q = l1 ++ f :: l2 → m !! fl_id f = Some (entry_of l1 f l2).

Record flows_rep (t : FlowTable) (q : Flows) : Prop := {
  fr_chain : chain (by_id t) q;
  fr_dom : ∀ id, is_Some (by_id t !! id) → id ∈ fl_id <$> q;
  fr_ids : NoDup (fl_id <$> q);
  fr_flow : ∀ k id, by_flow t !! k = Some id ↔ ∃ f, f ∈ q ∧ fl_key f = k ∧ fl_id f = id;
  fr_keys : NoDup (fl_key <$> q);
  fr_head : sweep_head t = fl_id <$> head q;
  fr_tail : sweep_tail t = fl_id <$> last q;
  fr_len : blen q ≤ Z.max 0 (ft_capacity t);
  fr_nonzero : Forall (λ f, fl_id f ≠ 0) q;
}.

(** * Splits of a list *)

Lemma app_split {A} (a b l1 l2 : list A) g :
  a ++ b = l1 ++ g :: l2 →
  (∃ r, a = l1 ++ g :: r ∧ l2 = r ++ b) ∨ (∃ r, b = r ++ g :: l2 ∧ l1 = a ++ r).
Proof.
  revert l1. induction a as [|x a IH]; intros l1 E; simpl in *; [right; by exists l1|].
  destruct l1 as [|y l1]; simpl in E; [injection E as -> <-; left; by exists a|].
  injection E as -> E. destruct (IH _ E) as [(r&->&->)|(r&->&->)]; [left|right]; by exists r.
Qed.

Lemma head_app_cons {A} (r b : list A) f : head (r ++ f :: b) = Some (default f (head r)).
Proof. by destruct r. Qed.
Lemma last_app_cons {A} (r b : list A) f : last (b ++ f :: r) = Some (default f (last r)).
Proof.
  rewrite last_app. replace (last (f :: r)) with (Some (default f (last r))); [done|].
  rewrite last_cons. by destruct (last r).
Qed.
Lemma head_app_nonempty {A} (r b : list A) x : head r = Some x → head (r ++ b) = Some x.
Proof. by destruct r. Qed.

(** Where an identifier is, given that they are distinct. *)
Lemma ids_split q l1 f l2 : q = l1 ++ f :: l2 → NoDup (fl_id <$> q) →
  fl_id f ∉ fl_id <$> l1 ∧ fl_id f ∉ fl_id <$> l2.
Proof.
  intros -> H. rewrite fmap_app, fmap_cons in H. apply NoDup_app in H as (_&H1&H2).
  apply NoDup_cons in H2 as [H2 _]. split; [|done]. intros Hin. apply (H1 _ Hin). by left.
Qed.

Lemma chain_elem m q f : chain m q → f ∈ q → ∃ l1 l2, q = l1 ++ f :: l2 ∧ m !! fl_id f = Some (entry_of l1 f l2).
Proof. intros H (l1&l2&E)%list_elem_of_split. exists l1, l2. split; [done|]. by apply H. Qed.

(** * Changes of the chain *)

Lemma lookup_relink m i f k :
  relink m i f !! k = (if decide (k = i) then f <$> m !! k else m !! k).
Proof.
  unfold relink. case_decide as E; [subst k|]; destruct (m !! i) as [e|] eqn:He; simpl; try done;
    [apply lookup_insert_eq|by apply lookup_insert_ne].
Qed.

Lemma id_in_last (l : Flows) f : last l = Some f → fl_id f ∈ fl_id <$> l.
Proof. intros H%last_Some_elem_of. by apply list_elem_of_fmap_2. Qed.
Lemma id_in_head (l : Flows) f : head l = Some f → fl_id f ∈ fl_id <$> l.
Proof. destruct l; simpl; [done|]. intros [= ->]. by left. Qed.
Lemma id_in_mid (l1 : Flows) f l2 : fl_id f ∈ fl_id <$> (l1 ++ f :: l2).
Proof. apply list_elem_of_fmap_2, elem_of_app. right. by left. Qed.

(** A flow in the middle is taken out. *)
Definition unlink (m : gmap Z FlowEntry) (id : Z) (p n : option Z) : gmap Z FlowEntry :=
  let m := delete id m in
  let m := match p with Some p => relink m p (set_next n) | None => m end in
  match n with Some n => relink m n (set_previous p) | None => m end.

Lemma lookup_unlink m id p n k :
  unlink m id p n !! k =
    (let e := if decide (k = id) then None else m !! k in
     let e := if decide (p = Some k) then set_next n <$> e else e in
     if decide (n = Some k) then set_previous p <$> e else e).
Proof.
  unfold unlink. destruct n as [n|], p as [p|]; rewrite ?lookup_relink, ?lookup_delete;
    repeat case_decide; simplify_eq; try done.
Qed.

Lemma chain_unlink m a f b :
  NoDup (fl_id <$> a ++ f :: b) → chain m (a ++ f :: b) →
  chain (unlink m (fl_id f) (fl_id <$> last a) (fl_id <$> head b)) (a ++ b).
Proof.
  intros Hnd Hc l1 g l2 Eq. destruct (ids_split _ _ _ _ eq_refl Hnd) as [Hfa Hfb].
  rewrite fmap_app, fmap_cons in Hnd. apply NoDup_app in Hnd as (Hna&Hab&Hnb).
  apply NoDup_cons in Hnb as [_ Hnb].
  destruct (app_split _ _ _ _ _ Eq) as [(r&->&->)|(r&->&->)]; rewrite lookup_unlink; cbv zeta.
  - rewrite (Hc l1 g (r ++ f :: b)) by (by rewrite <- (assoc_L (++))).
    rewrite !(decide_False (P := fl_id g = fl_id f)) by (intros E; apply Hfa; rewrite <- E; apply id_in_mid).
    rewrite (decide_False (P := fl_id <$> head b = Some (fl_id g))).
    2: { intros E. destruct (head b) as [n|] eqn:Hn; [|done]. simpl in E. injection E as E.
         apply (Hab (fl_id g)); [apply id_in_mid|]. rewrite <- E. right. by apply id_in_head. }
    rewrite last_app_cons. simpl. case_decide as E; simpl.
    + injection E as E. destruct (last r) as [x|] eqn:Hr; simpl in E.
      * exfalso. rewrite fmap_app, fmap_cons in Hna. apply NoDup_app in Hna as (_&_&Hna).
        apply NoDup_cons in Hna as [Hna _]. apply Hna. rewrite <- E. by apply id_in_last.
      * apply last_None in Hr as ->. done.
    + unfold entry_of. f_equal. f_equal. destruct r as [|x r]; [done|]. done.
  - rewrite (Hc (a ++ f :: r) g l2) by (by rewrite <- (assoc_L (++))).
    rewrite !(decide_False (P := fl_id g = fl_id f)) by (intros E; apply Hfb; rewrite <- E; apply id_in_mid).
    rewrite !(decide_False (P := fl_id <$> last a = Some (fl_id g))).
    2: { intros E. destruct (last a) as [n|] eqn:Hn; [|done]. simpl in E. injection E as E.
         apply (Hab (fl_id g)); [rewrite <- E; by apply id_in_last|]. right. apply id_in_mid. }
    rewrite head_app_cons. simpl. case_decide as E; simpl.
    + injection E as E. destruct (head r) as [x|] eqn:Hr; simpl in E.
      * exfalso. rewrite fmap_app, fmap_cons in Hnb. apply NoDup_app in Hnb as (_&Hnb&_).
        apply (Hnb (fl_id x)); [by apply id_in_head|]. rewrite E. by left.
      * destruct r; [|done]. by rewrite app_nil_r.
    + unfold entry_of. f_equal. f_equal. rewrite last_app_cons, last_app.
      destruct (last r) as [x|] eqn:Hr; [done|]. apply last_None in Hr as ->. done.
Qed.

(** A flow enters at the end. *)
Lemma chain_append m q f :
  fl_id f ∉ fl_id <$> q → NoDup (fl_id <$> q) → chain m q →
  let m := <[fl_id f := entry_of q f []]> m in
  chain (match fl_id <$> last q with Some p => relink m p (set_next (Some (fl_id f))) | None => m end) (q ++ [f]).
Proof.
  intros Hf Hnd Hc m' l1 g l2 Eq. apply app_split in Eq as [(r&->&->)|(r&E&->)].
  - rewrite last_app_cons. simpl. rewrite lookup_relink. unfold m'.
    assert (fl_id f ≠ fl_id g) as Hne by (intros E; apply Hf; rewrite E; apply id_in_mid).
    rewrite lookup_insert_ne by done. rewrite (Hc l1 g r) by done. case_decide as E; simpl.
    + destruct (last r) as [x|] eqn:Hr; simpl in E.
      * exfalso. rewrite fmap_app, fmap_cons in Hnd. apply NoDup_app in Hnd as (_&_&Hna).
        apply NoDup_cons in Hna as [Hna _]. apply Hna. rewrite E. by apply id_in_last.
      * apply last_None in Hr as ->. done.
    + destruct r; [done|]. done.
  - destruct r as [|x r]; simplify_eq/=; [|by destruct r]. rewrite app_nil_r.
    destruct (last q) as [p|] eqn:Hp; simpl; [rewrite lookup_relink, decide_False|].
    + apply lookup_insert_eq.
    + intros E. apply Hf. rewrite E. by apply id_in_last.
    + apply lookup_insert_eq.
Qed.

(** A flow stays where it is. *)
Lemma chain_touch m a f f' b :
  NoDup (fl_id <$> a ++ f :: b) → fl_id f' = fl_id f → chain m (a ++ f :: b) →
  chain (<[fl_id f := entry_of a f' b]> m) (a ++ f' :: b).
Proof.
  intros Hnd Eid Hc l1 g l2 Eq. destruct (ids_split _ _ _ _ eq_refl Hnd) as [Hfa Hfb].
  apply app_split in Eq as [(r&->&->)|(r&E&->)].
  - rewrite lookup_insert_ne by (intros E; apply Hfa; rewrite E; apply id_in_mid).
    rewrite (Hc l1 g (r ++ f :: b)) by (by rewrite <- (assoc_L (++))). unfold entry_of. f_equal. f_equal.
    rewrite !head_app_cons. destruct (head r); simpl; [done|]. by rewrite Eid.
  - destruct r as [|x r]; simplify_eq/=; [rewrite Eid, app_nil_r; apply lookup_insert_eq|].
    rewrite lookup_insert_ne by (intros E; apply Hfb; rewrite E; apply id_in_mid).
    rewrite (Hc (a ++ f :: r) g l2) by (by rewrite <- (assoc_L (++))). unfold entry_of. f_equal. f_equal.
    rewrite !last_app_cons. destruct (last r); simpl; [done|]. by rewrite Eid.
Qed.

(** The first flow moves to the end. *)
Lemma chain_rotate m f n b x :
  NoDup (fl_id <$> f :: n :: b) → last (n :: b) = Some x → chain m (f :: n :: b) →
  chain (relink (relink (relink m (fl_id n) (set_previous None)) (fl_id x) (set_next (Some (fl_id f))))
           (fl_id f) (λ e, set_next None (set_previous (Some (fl_id x)) e))) ((n :: b) ++ [f]).
Proof.
  intros Hnd Hx Hc l1 g l2 Eq.
  assert (fl_id f ∉ fl_id <$> (n :: b) ∧ NoDup (fl_id <$> (n :: b))) as [Hf Hnd']
    by (by apply NoDup_cons in Hnd). clear Hnd. rename Hnd' into Hnd.
  apply app_split in Eq as [(r&E&->)|(r&E&->)]; rewrite !lookup_relink.
  - pose proof (Hc (f :: l1) g r (f_equal (cons f) E)) as Hg. rewrite E in Hf, Hnd, Hx.
    rewrite decide_False by (intros E'; apply Hf; rewrite <- E'; apply id_in_mid). rewrite Hg.
    destruct (ids_split _ _ _ _ eq_refl Hnd) as [H1 H2]. rewrite last_app_cons in Hx. injection Hx as Hx.
    assert (fl_id g = fl_id n ↔ l1 = []) as Hn.
    { destruct l1 as [|y l1]; simpl in E; injection E as <- E; [done|]. split; [|done]. intros E'.
      exfalso. apply H1. rewrite E'. by left. }
    assert (fl_id g = fl_id x ↔ r = []) as Ht.
    { destruct (last r) as [y|] eqn:Hr; simpl in Hx; subst x.
      - split; [|intros ->; done]. intros E'. exfalso. apply H2. rewrite E'. by apply id_in_last.
      - apply last_None in Hr. done. }
    destruct (decide (fl_id g = fl_id x)) as [Ex|Ex]; destruct (decide (fl_id g = fl_id n)) as [En|En]; simpl;
      unfold entry_of, set_next, set_previous; simpl; f_equal; f_equal.
    + by apply Hn in En as ->.
    + by apply Ht in Ex as ->.
    + destruct l1; [by destruct En; apply Hn|]. by rewrite last_cons_cons.
    + by apply Ht in Ex as ->.
    + by apply Hn in En as ->.
    + destruct r; [by destruct Ex; apply Ht|done].
    + destruct l1; [by destruct En; apply Hn|]. by rewrite last_cons_cons.
    + destruct r; [by destruct Ex; apply Ht|done].
  - destruct r as [|y r]; simpl in E; [|injection E as _ E; by destruct r]. injection E as <- <-.
    rewrite decide_True by done. rewrite !decide_False.
    + rewrite (Hc [] f (n :: b)) by done. simpl. unfold entry_of. rewrite app_nil_r, Hx. done.
    + intros E. apply Hf. rewrite E. by left.
    + intros E. apply Hf. rewrite E. by apply id_in_last.
Qed.

(** * The operations on the queue *)

Definition touched (now : Z) (f : Flow) : Flow :=
  {| fl_id := fl_id f; fl_key := fl_key f; fl_activity := now; fl_traffic := fl_traffic f |}.
Definition q_touch (id now : Z) (q : Flows) : Flows := (λ f, if fl_id f =? id then touched now f else f) <$> q.
Definition q_find (key : FlowKey) (q : Flows) : option Flow := List.find (λ f, bool_decide (fl_key f = key)) q.
Definition q_get (id : Z) (q : Flows) : option Flow := List.find (λ f, fl_id f =? id) q.

Fixpoint q_draw (entropy : nat → option Z) (attempt n : nat) (q : Flows) : res FlowError Z :=
  match n with
  | O => Err FlowEntropyUnavailable
  | S n =>
    match entropy attempt with
    | None => Err FlowEntropyUnavailable
    | Some id =>
      if negb (id =? 0) && bool_decide (q_get id q = None) then Ok id
      else q_draw entropy (S attempt) n q
    end
  end.
Definition q_session_for (capacity : Z) (observe : bool) (entropy : nat → option Z) (fresh : Arc)
    (q : Flows) (key : FlowKey) (now : Z) : res FlowError (Z * bool) * Flows :=
  match q_find key q with
  | Some f => (Ok (fl_id f, false), q_touch (fl_id f) now q)
  | None =>
    if capacity <=? blen q then (Err FlowCapacity, q) else
    match q_draw entropy 0 MAX_SESSION_ID_ATTEMPTS q with
    | Ok id =>
      (Ok (id, true), q ++ [{| fl_id := id; fl_key := key; fl_activity := now;
                               fl_traffic := if observe then Some fresh else None |}])
    | Err e => (Err e, q)
    | Panic => (Panic, q)
    end
  end.
Definition q_remove (id : Z) (q : Flows) : Flows := filter (λ f, fl_id f ≠ id) q.
Definition q_validate (q : Flows) (id : Z) (recipient destination : SocketAddr) (now : Z) : bool * Flows :=
  match q_get id q with
  | Some f =>
    if bool_decide (fl_key f = {| fk_source := recipient; fk_destination := destination |})
    then (true, q_touch id now q) else (false, q)
  | None => (false, q)
  end.
Definition q_expired (now idle_timeout : Z) (f : Flow) : bool := idle_timeout <=? duration_since now (fl_activity f).
(** A sweep looks at the first [n] flows: the expired ones leave, the others go to the end. *)
Definition q_sweep (n : nat) (now idle_timeout : Z) (q : Flows) : Flows * Flows :=
  (List.filter (q_expired now idle_timeout) (take n q),
   drop n q ++ List.filter (λ f, negb (q_expired now idle_timeout f)) (take n q)).
Definition q_clear : Flows := [].

(** * The table does what the queue does *)

Lemma q_get_Some id q f : q_get id q = Some f → f ∈ q ∧ fl_id f = id.
Proof. intros [H1 H2]%find_some. rewrite list_elem_of_In. split; [done|]. by apply Z.eqb_eq. Qed.
Lemma q_get_None id q : q_get id q = None ↔ id ∉ fl_id <$> q.
Proof.
  unfold q_get. split.
  - intros H (f&->&Hin)%list_elem_of_fmap. pose proof (find_none _ _ H f) as Hn.
    rewrite <- list_elem_of_In in Hn. specialize (Hn Hin). simpl in Hn. by rewrite Z.eqb_refl in Hn.
  - intros H. destruct (List.find _ q) as [f|] eqn:E; [|done]. exfalso. apply H.
    apply q_get_Some in E as [? <-]. by apply list_elem_of_fmap_2.
Qed.
Lemma q_find_Some key q f : q_find key q = Some f → f ∈ q ∧ fl_key f = key.
Proof. intros [H1 H2]%find_some. rewrite list_elem_of_In. split; [done|]. by apply bool_decide_eq_true in H2. Qed.
Lemma q_find_None key q : q_find key q = None → ∀ f, f ∈ q → fl_key f ≠ key.
Proof.
  intros H f Hin E. pose proof (find_none _ _ H f) as Hn. rewrite <- list_elem_of_In in Hn.
  specialize (Hn Hin). simpl in Hn. by apply bool_decide_eq_false in Hn.
Qed.

Section rep.
Context (t : FlowTable) (q : Flows) (Hrep : flows_rep t q).

Lemma rep_id f : f ∈ q → ∃ l1 l2, q = l1 ++ f :: l2 ∧ by_id t !! fl_id f = Some (entry_of l1 f l2).
Proof using Hrep. apply chain_elem, Hrep. Qed.

Lemma rep_get id : by_id t !! id = None ↔ q_get id q = None.
Proof using Hrep.
  rewrite q_get_None. split.
  - intros Hn (f&->&Hin)%list_elem_of_fmap. destruct (rep_id f Hin) as (?&?&_&E). congruence.
  - intros Hn. destruct (by_id t !! id) eqn:E; [|done]. destruct Hn. by apply (fr_dom _ _ Hrep); rewrite E.
Qed.

Lemma rep_size : Z.of_nat (size (by_id t)) = blen q.
Proof using Hrep.
  assert (dom (by_id t) = list_to_set (fl_id <$> q)) as E.
  { apply set_eq. intros id. rewrite elem_of_dom, elem_of_list_to_set. split; [apply Hrep|].
    intros (f&->&Hin)%list_elem_of_fmap. destruct (rep_id f Hin) as (?&?&_&E). by rewrite E. }
  rewrite <- size_dom, E, size_list_to_set by apply Hrep. by rewrite length_fmap.
Qed.

Lemma rep_unique f g : f ∈ q → g ∈ q → fl_id f = fl_id g → f = g.
Proof using Hrep.
  intros Hf Hg E. destruct (rep_id f Hf) as (l1&l2&Eq&_). pose proof (fr_ids _ _ Hrep) as Hnd.
  destruct (ids_split _ _ _ _ Eq Hnd) as [H1 H2]. rewrite Eq in Hg.
  apply elem_of_app in Hg as [Hg|[->|Hg]%elem_of_cons]; [|done|];
    exfalso; [apply H1|apply H2]; rewrite E; by apply list_elem_of_fmap_2.
Qed.
Lemma rep_get_Some f : f ∈ q → q_get (fl_id f) q = Some f.
Proof using Hrep.
  intros Hin. destruct (q_get (fl_id f) q) as [g|] eqn:E.
  - apply q_get_Some in E as [Hg Eg]. by rewrite (rep_unique g f).
  - apply q_get_None in E. destruct E. by apply list_elem_of_fmap_2.
Qed.

Lemma rep_draw entropy attempt n : allocate_loop entropy attempt n (by_id t) = q_draw entropy attempt n q.
Proof using Hrep.
  revert attempt. induction n as [|n IH]; intros attempt; simpl; [done|].
  destruct (entropy attempt) as [id|]; [|done]. rewrite IH.
  by rewrite (bool_decide_ext _ _ (rep_get id)).
Qed.
End rep.

Lemma q_draw_Ok entropy attempt n q id : q_draw entropy attempt n q = Ok id → id ≠ 0 ∧ id ∉ fl_id <$> q.
Proof.
  revert attempt. induction n as [|n IH]; intros attempt; simpl; [done|].
  destruct (entropy attempt) as [x|]; [|done].
  destruct (negb (x =? 0) && bool_decide (q_get x q = None)) eqn:E; [|apply IH].
  intros [= <-]. apply andb_true_iff in E as [Hx%negb_true_iff%Z.eqb_neq Hn%bool_decide_eq_true].
  split; [done|]. by apply q_get_None.
Qed.

Lemma q_touch_split a f b now :
  NoDup (fl_id <$> a ++ f :: b) → q_touch (fl_id f) now (a ++ f :: b) = a ++ touched now f :: b.
Proof.
  intros Hnd. destruct (ids_split _ _ _ _ eq_refl Hnd) as [H1 H2]. unfold q_touch.
  rewrite fmap_app, fmap_cons, Z.eqb_refl. f_equal; [|f_equal].
  - rewrite <- (list_fmap_id a) at 2. apply list_fmap_ext. intros i g Hg. simpl.
    destruct (Z.eqb_spec (fl_id g) (fl_id f)) as [E|]; [|done]. destruct H1. rewrite <- E.
    apply list_elem_of_fmap_2. by eapply list_elem_of_lookup_2.
  - rewrite <- (list_fmap_id b) at 2. apply list_fmap_ext. intros i g Hg. simpl.
    destruct (Z.eqb_spec (fl_id g) (fl_id f)) as [E|]; [|done]. destruct H2. rewrite <- E.
    apply list_elem_of_fmap_2. by eapply list_elem_of_lookup_2.
Qed.

(** An entry's activity is set. *)
Lemma touch_ok t a f b now :
  flows_rep t (a ++ f :: b) →
  flows_rep (with_entries t (<[fl_id f := set_activity now (entry_of a f b)]> (by_id t)))
    (q_touch (fl_id f) now (a ++ f :: b)).
Proof.
  intros [Hc Hd Hi Hfl Hk Hh Ht Hl Hz]. rewrite q_touch_split by done.
  assert (fl_id <$> a ++ touched now f :: b = fl_id <$> a ++ f :: b) as E1 by by rewrite !fmap_app.
  assert (fl_key <$> a ++ touched now f :: b = fl_key <$> a ++ f :: b) as E2 by by rewrite !fmap_app.
  split; simpl; rewrite ?E1, ?E2; try done.
  - exact (chain_touch _ a f (touched now f) b Hi eq_refl Hc).
  - intros id. destruct (decide (id = fl_id f)) as [->|Hne]; [intros _; apply id_in_mid|].
    rewrite lookup_insert_ne by done. apply Hd.
  - intros k id. rewrite Hfl. split.
    + intros (g&Hg&<-&<-). apply elem_of_app in Hg as [Hg|[->|Hg]%elem_of_cons].
      * exists g. rewrite elem_of_app. auto.
      * exists (touched now f). rewrite elem_of_app, elem_of_cons. auto.
      * exists g. rewrite elem_of_app, elem_of_cons. auto.
    + intros (g&Hg&<-&<-). apply elem_of_app in Hg as [Hg|[->|Hg]%elem_of_cons].
      * exists g. rewrite elem_of_app. auto.
      * exists f. rewrite elem_of_app, elem_of_cons. auto.
      * exists g. rewrite elem_of_app, elem_of_cons. auto.
  - rewrite Hh. rewrite !head_app_cons. by destruct a.
  - rewrite Ht. rewrite !last_app_cons. by destruct (last b).
  - unfold blen in *. by rewrite <- (length_fmap fl_id), E1, length_fmap.
  - rewrite Forall_app, Forall_cons in *. done.
Qed.

(** A new flow at the end. *)
Lemma append_ok t q f :
  flows_rep t q → fl_id f ∉ fl_id <$> q → fl_id f ≠ 0 → q_find (fl_key f) q = None →
  blen q < ft_capacity t →
  let m := <[fl_id f := entry_of q f []]> (by_id t) in
  flows_rep
    {| ft_capacity := ft_capacity t; ft_observe_traffic := ft_observe_traffic t;
       by_flow := <[fl_key f := fl_id f]> (by_flow t);
       by_id := match fl_id <$> last q with Some p => relink m p (set_next (Some (fl_id f))) | None => m end;
       sweep_head := fl_id <$> head (q ++ [f]); sweep_tail := Some (fl_id f) |} (q ++ [f]).
Proof.
  intros [Hc Hd Hi Hfl Hk Hh Ht Hl Hz] Hfresh Hnz Hkey Hlen m. pose proof (q_find_None _ _ Hkey) as Hkey'.
  split; simpl; try done.
  - by apply chain_append.
  - intros id. rewrite fmap_app, elem_of_app. intros Hid. destruct (decide (id = fl_id f)) as [->|Hne]; [right; by left|].
    left. apply Hd. unfold m in Hid. destruct (last q) as [p|]; simpl in Hid.
    + rewrite lookup_relink, lookup_insert_ne in Hid by done. case_decide; [|done].
      by rewrite fmap_is_Some in Hid.
    + by rewrite lookup_insert_ne in Hid.
  - rewrite fmap_app. apply NoDup_app. split_and!; [done| |apply NoDup_singleton].
    by intros x Hx ->%list_elem_of_singleton.
  - intros k id. rewrite lookup_insert_Some, Hfl. split.
    + intros [[<- <-]|[Hne (g&Hg&<-&<-)]]; [exists f|exists g]; rewrite elem_of_app, list_elem_of_singleton; auto.
    + intros (g&[Hg|Eg%list_elem_of_singleton]%elem_of_app&<-&<-); [right|subst g; by left].
      split; [|by exists g]. intros E. by destruct (Hkey' g Hg).
  - rewrite fmap_app. apply NoDup_app. split_and!; [done| |apply NoDup_singleton].
    intros x (g&->&Hg)%list_elem_of_fmap E%list_elem_of_singleton. by destruct (Hkey' g Hg).
  - by rewrite last_snoc.
  - rewrite blen_app. change (blen [f]) with 1. lia.
  - apply Forall_app. by split; [|constructor].
Qed.

Lemma session_for_ok entropy fresh t q key now :
  flows_rep t q →
  let '(r, t') := session_for entropy fresh t key now in
  let '(r', q') := q_session_for (ft_capacity t) (ft_observe_traffic t) entropy fresh q key now in
  r = r' ∧ flows_rep t' q' ∧ ft_capacity t' = ft_capacity t ∧ ft_observe_traffic t' = ft_observe_traffic t.
Proof.
  intros Hrep. unfold session_for, q_session_for.
  destruct (by_flow t !! key) as [id|] eqn:Hk.
  - destruct (proj1 (fr_flow _ _ Hrep key id) Hk) as (f&Hf&Ek&<-).
    assert (q_find key q = Some f) as ->.
    { destruct (q_find key q) as [g|] eqn:Hg; [|by destruct (q_find_None _ _ Hg f Hf)].
      apply q_find_Some in Hg as [Hg Egk]. f_equal. apply (rep_unique t q Hrep); [done|done|].
      assert (by_flow t !! key = Some (fl_id g)) as Hg' by (apply (fr_flow _ _ Hrep); by exists g).
      rewrite Hk in Hg'. by injection Hg' as ->. }
    destruct (rep_id t q Hrep f Hf) as (a&b&->&->). split_and!; [done| |done|done]. by apply touch_ok.
  - assert (q_find key q = None) as Hnone.
    { destruct (q_find key q) as [g|] eqn:Hg; [|done]. apply q_find_Some in Hg as [Hg Egk].
      assert (by_flow t !! key = Some (fl_id g)) as E by (apply (fr_flow _ _ Hrep); by exists g).
      by rewrite Hk in E. }
    rewrite Hnone, (rep_size t q Hrep). destruct (Z.leb_spec (ft_capacity t) (blen q)); [by split_and!|].
    unfold allocate_session_id. rewrite (rep_draw t q Hrep).
    destruct (q_draw entropy 0 MAX_SESSION_ID_ATTEMPTS q) as [id|e|] eqn:Hid; [|by split_and!..].
    apply q_draw_Ok in Hid as [Hnz Hfresh].
    set (f := {| fl_id := id; fl_key := key; fl_activity := now;
                 fl_traffic := if ft_observe_traffic t then Some fresh else None |}).
    pose proof (append_ok t q f Hrep Hfresh Hnz Hnone ltac:(lia)) as Happ. cbv zeta in Happ.
    pose proof (fr_tail _ _ Hrep) as Ht. pose proof (fr_head _ _ Hrep) as Hh. rewrite Ht.
    destruct (last q) as [p|] eqn:Hp; simpl in *.
    + destruct (rep_id t q Hrep p (last_Some_elem_of _ _ Hp)) as (a&b&_&Ep).
      assert (fl_id p ≠ id) as Hpid by (intros <-; apply Hfresh; by apply id_in_last).
      unfold update_entry. simpl. rewrite lookup_insert_ne, Ep by done. simpl. split_and!; [done| |done|done].
      unfold relink in Happ. rewrite lookup_insert_ne, Ep in Happ by done. unfold entry_of at 1 in Happ. simpl in Happ.
      assert (head (q ++ [f]) = head q) as Eh by (destruct q; done).
      assert (entry_of q f [] = {| fe_key := key; last_activity := now; previous := Some (fl_id p); next := None;
        observed_traffic := fl_traffic f |}) as Ef by (unfold entry_of; by rewrite Hp).
      rewrite Eh, <- Hh, Ef in Happ. exact Happ.
    + apply last_None in Hp as ->. split_and!; [done|exact Happ|done|done].
Qed.

Lemma q_remove_split a f b :
  NoDup (fl_id <$> a ++ f :: b) → q_remove (fl_id f) (a ++ f :: b) = a ++ b.
Proof.
  intros Hnd. destruct (ids_split _ _ _ _ eq_refl Hnd) as [H1 H2]. unfold q_remove.
  assert (∀ l : Flows, fl_id f ∉ fl_id <$> l → filter (λ g, fl_id g ≠ fl_id f) l = l) as Hall.
  { induction l as [|g l IH]; intros Hn; [done|]. rewrite fmap_cons, not_elem_of_cons in Hn. destruct Hn.
    rewrite filter_cons_True by done. by rewrite IH. }
  rewrite filter_app, filter_cons_False by (intros E; by apply E). by rewrite !Hall.
Qed.

Lemma head_unlink {A} (a b : list A) f :
  match last a with Some _ => head (a ++ f :: b) | None => head b end = head (a ++ b).
Proof.
  destruct a as [|x a]; [done|]. destruct (last (x :: a)) eqn:E; [done|]. by apply last_None in E.
Qed.
Lemma last_unlink {A} (a b : list A) f :
  match head b with Some _ => last (a ++ f :: b) | None => last a end = last (a ++ b).
Proof.
  destruct b as [|x b]; [by rewrite app_nil_r|]. simpl. rewrite !last_app_cons. f_equal.
  rewrite last_cons. by destruct (last b).
Qed.

Lemma flow_remove_ok t q id :
  flows_rep t q →
  let '(removed, t') := FlowTable_remove t id in
  removed = bool_decide (is_Some (q_get id q)) ∧ flows_rep t' (q_remove id q)
  ∧ ft_capacity t' = ft_capacity t ∧ ft_observe_traffic t' = ft_observe_traffic t.
Proof.
  intros Hrep. unfold FlowTable_remove. destruct (by_id t !! id) as [e|] eqn:He.
  2: { pose proof (proj1 (rep_get t q Hrep id) He) as Hn. rewrite Hn. split_and!; try done.
       assert (q_remove id q = q) as ->; [|done]. apply q_get_None in Hn. unfold q_remove. clear -Hn.
       induction q as [|g q IH]; [done|]. rewrite fmap_cons, not_elem_of_cons in Hn. destruct Hn.
       rewrite filter_cons_True by done. by rewrite IH. }
  assert (id ∈ fl_id <$> q) as (f&->&Hf)%list_elem_of_fmap by (apply Hrep; by rewrite He).
  rewrite (rep_get_Some t q Hrep f Hf). destruct (rep_id t q Hrep f Hf) as (a&b&->&E).
  rewrite E in He. injection He as <-. destruct Hrep as [Hc Hd Hi Hfl Hk Hh Ht Hl Hz].
  pose proof (chain_unlink _ a f b Hi Hc) as Hc'. rewrite q_remove_split by done.
  assert (∀ t', by_id t' = unlink (by_id t) (fl_id f) (fl_id <$> last a) (fl_id <$> head b) →
    by_flow t' = delete (fl_key f) (by_flow t) → sweep_head t' = fl_id <$> head (a ++ b) →
    sweep_tail t' = fl_id <$> last (a ++ b) → ft_capacity t' = ft_capacity t → flows_rep t' (a ++ b)) as Hgoal.
  { intros t' E1 E2 E3 E4 E5. destruct (ids_split _ _ _ _ eq_refl Hi) as [Hfa Hfb].
    assert (fl_key f ∉ fl_key <$> a ++ b) as Hkf.
    { rewrite fmap_app, fmap_cons in Hk. apply NoDup_app in Hk as (_&H1&H2). apply NoDup_cons in H2 as [H2 _].
      rewrite fmap_app, elem_of_app. intros [Hin|Hin]; [|done]. apply (H1 _ Hin). by left. }
    split; rewrite ?E1, ?E2, ?E3, ?E4, ?E5; try done.
    - intros id Hid. rewrite lookup_unlink in Hid. cbv zeta in Hid.
      assert (id ≠ fl_id f ∧ is_Some (by_id t !! id)) as [Hne Hid'].
      { repeat case_decide; simpl in Hid; rewrite ?fmap_is_Some in Hid; try done; by destruct Hid. }
      apply Hd in Hid'. rewrite fmap_app, elem_of_app in *. rewrite fmap_cons, elem_of_cons in Hid'. naive_solver.
    - rewrite fmap_app in *. rewrite fmap_cons in Hi. apply NoDup_app in Hi as (H1&H2&H3).
      apply NoDup_cons in H3 as [_ H3]. apply NoDup_app. split_and!; [done| |done].
      intros x Hx Hxb. apply (H2 x Hx). by right.
    - intros k id. rewrite lookup_delete_Some, Hfl. split.
      + intros [Hne (g&Hg&<-&<-)]. exists g. rewrite elem_of_app in *. rewrite elem_of_cons in Hg.
        destruct Hg as [?|[->|?]]; auto. done.
      + intros (g&Hg&<-&<-). split.
        * intros Eg. apply Hkf. rewrite Eg. by apply list_elem_of_fmap_2.
        * exists g. rewrite elem_of_app in *. rewrite elem_of_cons. naive_solver.
    - rewrite fmap_app in *. rewrite fmap_cons in Hk. apply NoDup_app in Hk as (H1&H2&H3).
      apply NoDup_cons in H3 as [_ H3]. apply NoDup_app. split_and!; [done| |done].
      intros x Hx Hxb. apply (H2 x Hx). by right.
    - rewrite !blen_app, blen_cons in *. lia.
    - rewrite Forall_app, Forall_cons in *. naive_solver. }
  pose proof (head_unlink a b f) as Hha. pose proof (last_unlink a b f) as Hla.
  split_and!; [done|apply Hgoal|..]; unfold entry_of; simpl;
    destruct (last a) as [p|] eqn:Hp, (head b) as [n|] eqn:Hn; simpl; try done;
    by rewrite ?Hh, ?Ht, ?Hha, ?Hla, <- ?Hha, <- ?Hla.
Qed.

Lemma rotate_ok t f q :
  flows_rep t (f :: q) →
  ∃ t', rotate_sweep_head t (fl_id f) = Ok t' ∧ flows_rep t' (q ++ [f])
    ∧ ft_capacity t' = ft_capacity t ∧ ft_observe_traffic t' = ft_observe_traffic t.
Proof.
  intros Hrep. pose proof Hrep as [Hc Hd Hi Hfl Hk Hh Ht Hl Hz]. unfold rotate_sweep_head.
  rewrite Hh. simpl. rewrite bool_decide_eq_true_2 by done. simpl. rewrite Ht.
  destruct q as [|n q].
  { simpl. rewrite bool_decide_eq_true_2 by done. by exists t. }
  destruct (last (n :: q)) as [x|] eqn:Hx; [|by apply last_None in Hx].
  assert (last (f :: n :: q) = Some x) as Ex by by rewrite last_cons_cons. rewrite Ex. simpl.
  assert (fl_id f ∉ fl_id <$> (n :: q)) as Hfn by (by apply NoDup_cons in Hi as [? _]).
  assert (fl_id x ≠ fl_id f) as Hxf by (intros E; apply Hfn; rewrite <- E; by apply id_in_last).
  assert (fl_id n ≠ fl_id f) as Hnf by (intros E; apply Hfn; rewrite <- E; by left).
  rewrite bool_decide_eq_false_2 by congruence.
  pose proof (chain_rotate _ f n q x Hi Hx Hc) as Hrot.
  pose proof (Hc [] f (n :: q) eq_refl) as Ef. rewrite Ef. simpl.
  pose proof (Hc [f] n q eq_refl) as En. unfold update_entry. simpl. rewrite En. simpl.
  destruct (rep_id t _ Hrep x) as (a&b&_&Exx); [right; by apply last_Some_elem_of|].
  set (m1 := <[fl_id n := _]> (by_id t)).
  assert (relink (by_id t) (fl_id n) (set_previous None) = m1) as E1 by (unfold relink; by rewrite En).
  rewrite E1 in Hrot.
  assert (∃ ex, m1 !! fl_id x = Some ex) as [ex Hex].
  { unfold m1. destruct (decide (fl_id x = fl_id n)) as [->|?]; [by rewrite lookup_insert_eq; eexists|].
    rewrite lookup_insert_ne, Exx by done. by eexists. }
  rewrite Hex. simpl. set (m2 := <[fl_id x := _]> m1).
  assert (relink m1 (fl_id x) (set_next (Some (fl_id f))) = m2) as E2 by (unfold relink; by rewrite Hex).
  rewrite E2 in Hrot.
  assert (m2 !! fl_id f = Some (entry_of [] f (n :: q))) as Hmf.
  { unfold m2, m1. by rewrite !lookup_insert_ne. }
  rewrite Hmf. simpl. eexists. split; [done|]. split; [|done].
  unfold relink in Hrot. rewrite Hmf in Hrot.
  assert (∀ g, g ∈ (n :: q) ++ [f] ↔ g ∈ f :: n :: q) as Hel
    by (intros g; rewrite elem_of_app, list_elem_of_singleton, (elem_of_cons (n :: q)); tauto).
  split; simpl; try done.
  - intros id Hid. assert (id ∈ fl_id <$> f :: n :: q) as Hin.
    { destruct (decide (id = fl_id f)) as [->|]; [by left|]. apply Hd. rewrite lookup_insert_ne in Hid by done.
      unfold m2 in Hid. destruct (decide (id = fl_id x)) as [->|]; [by rewrite Exx|].
      rewrite lookup_insert_ne in Hid by done. unfold m1 in Hid.
      destruct (decide (id = fl_id n)) as [->|]; [by rewrite En|]. by rewrite lookup_insert_ne in Hid. }
    apply list_elem_of_fmap in Hin as (g&->&Hg). apply (list_elem_of_fmap_2 fl_id ((n :: q) ++ [f])). by apply Hel.
  - change (NoDup (fl_id <$> (n :: q) ++ [f])). rewrite fmap_app. apply NoDup_app. apply NoDup_cons in Hi as [_ Hi].
    split_and!; [done| |apply NoDup_singleton]. by intros y Hy ->%list_elem_of_singleton.
  - intros k id. rewrite Hfl. split; intros (g&Hg&?&?); exists g; split; try done; by apply (Hel g).
  - change (NoDup (fl_key <$> (n :: q) ++ [f])). rewrite fmap_app. apply NoDup_cons in Hk as [Hkf Hk].
    apply NoDup_app. split_and!; [done| |apply NoDup_singleton]. by intros y Hy ->%list_elem_of_singleton.
  - change (Some (fl_id f) = fl_id <$> last ((n :: q) ++ [f])). by rewrite last_snoc.
  - change (blen ((n :: q) ++ [f]) ≤ Z.max 0 (ft_capacity t)). rewrite blen_app. rewrite blen_cons in Hl.
    change (blen [f]) with 1. lia.
  - change (Forall (λ f, fl_id f ≠ 0) ((n :: q) ++ [f])). apply Forall_cons in Hz as [? ?]. apply Forall_app.
    by split; [|constructor].
Qed.

Lemma validate_reply_ok t q id recipient destination now :
  flows_rep t q →
  let '(r, t') := validate_reply t id recipient destination now in
  let '(r', q') := q_validate q id recipient destination now in
  r = r' ∧ flows_rep t' q' ∧ ft_capacity t' = ft_capacity t ∧ ft_observe_traffic t' = ft_observe_traffic t.
Proof.
  intros Hrep. unfold validate_reply, q_validate. destruct (q_get id q) as [f|] eqn:Hg.
  - apply q_get_Some in Hg as [Hf <-]. destruct (rep_id t q Hrep f Hf) as (a&b&->&->). simpl.
    assert ((negb (bool_decide (fk_source (fl_key f) = recipient))
      || negb (bool_decide (fk_destination (fl_key f) = destination)))
      = negb (bool_decide (fl_key f = {| fk_source := recipient; fk_destination := destination |}))) as ->.
    { destruct (fl_key f) as [s d]. simpl. repeat case_bool_decide; simplify_eq/=; naive_solver. }
    case_bool_decide; simpl; [|by split_and!]. split_and!; [done| |done|done]. by apply touch_ok.
  - by rewrite (proj2 (rep_get t q Hrep id) Hg).
Qed.

Lemma sweep_loop_ok n now idle t q :
  flows_rep t q → (n ≤ length q)%nat →
  ∃ t', sweep_loop n now idle t
      = Ok ((λ f, {| ef_session_id := fl_id f; ef_observed_traffic := fl_traffic f |}) <$> (q_sweep n now idle q).1, t')
    ∧ flows_rep t' (q_sweep n now idle q).2
    ∧ ft_capacity t' = ft_capacity t ∧ ft_observe_traffic t' = ft_observe_traffic t.
Proof.
  revert t q. induction n as [|n IH]; intros t q Hrep Hn.
  { exists t. unfold q_sweep. rewrite take_0. simpl. by rewrite app_nil_r, drop_0. }
  destruct q as [|f q]; [simpl in Hn; lia|]. cbn [sweep_loop].
  rewrite (fr_head _ _ Hrep). cbn [head fmap option_fmap option_map].
  destruct (rep_id t _ Hrep f (list_elem_of_here _ _)) as (a&b&_&Ef). rewrite Ef.
  change (idle <=? duration_since now (last_activity (entry_of a f b))) with (q_expired now idle f).
  unfold q_sweep. cbn [take drop List.filter]. destruct (q_expired now idle f) eqn:Hexp; simpl.
  - pose proof (flow_remove_ok t _ (fl_id f) Hrep) as Hrm. destruct (FlowTable_remove t (fl_id f)) as [removed t1].
    rewrite (rep_get_Some t _ Hrep f (list_elem_of_here _ _)) in Hrm. destruct Hrm as (->&Hrep1&E1&E2).
    pose proof (q_remove_split [] f q (fr_ids _ _ Hrep)) as Eq. simpl app in Eq. rewrite Eq in Hrep1.
    destruct (IH t1 q Hrep1) as (t'&Hs&Hrep'&?&?); [simpl in Hn; lia|]. rewrite Hs. simpl.
    exists t'. unfold flow_traffic. rewrite Ef. simpl. split; [done|]. split; [exact Hrep'|]. split; congruence.
  - destruct (rotate_ok t f q Hrep) as (t1&Hr&Hrep1&?&?). rewrite Hr. simpl.
    destruct (IH t1 (q ++ [f]) Hrep1) as (t'&Hs&Hrep'&?&?); [rewrite length_app; simpl in *; lia|].
    rewrite Hs. exists t'. simpl in Hn.
    unfold q_sweep in *. rewrite take_app_le in * by lia. rewrite drop_app_le in Hrep' by lia. simpl in *.
    split; [done|]. split; [|split; congruence]. by rewrite <- (assoc_L (++)) in Hrep'.
Qed.

Lemma sweep_expired_ok t q now idle maximum :
  flows_rep t q → 0 ≤ maximum →
  let n := Z.to_nat (Z.min maximum (blen q)) in
  ∃ t', sweep_expired t now idle maximum
      = Ok ((λ f, {| ef_session_id := fl_id f; ef_observed_traffic := fl_traffic f |}) <$> (q_sweep n now idle q).1, t')
    ∧ flows_rep t' (q_sweep n now idle q).2
    ∧ ft_capacity t' = ft_capacity t ∧ ft_observe_traffic t' = ft_observe_traffic t.
Proof.
  intros Hrep Hm n. unfold sweep_expired. rewrite (rep_size t q Hrep). apply sweep_loop_ok; [done|].
  unfold n, blen. lia.
Qed.

Lemma flow_new_ok capacity observe : flows_rep (FlowTable_new capacity observe) [].
Proof.
  split; simpl; try done; try apply NoDup_nil_2.
  - intros l1 f l2 E. by destruct l1.
  - intros id [? E]. by rewrite lookup_empty in E.
  - intros k id. rewrite lookup_empty. split; [done|]. by intros (f&?%elem_of_nil&_).
  - change (0 ≤ Z.max 0 capacity). lia.
Qed.
Lemma flow_clear_ok t q : flows_rep t q → flows_rep (flow_clear t) [].
Proof. intros _. exact (flow_new_ok (ft_capacity t) (ft_observe_traffic t)). Qed.
