(* ===== verification/UdpFlowsProps.v ===== *)
(** The properties of the flow table: it refines the queue of flows, sweeps reach every idle
    flow in time, and session identifiers name one flow each. *)

From S2P Require Import Prelude.
From S2P Require Import Messages.
From S2P Require Import Events.
From S2P Require Import Limiter.
From S2P Require Import UdpFlows.
From S2P Require Import UdpFlowsFacts.
From Stdlib Require Import Strings.Byte.
From stdpp Require Import prelude gmap list.

#[local] Open Scope Z_scope.
#[local] Arguments q_draw : simpl never.

(** * Calls *)

Inductive FlowCall :=
| SessionFor (entropy : nat → option Z) (fresh : Arc) (key : FlowKey) (now : Z)
| RemoveFlow (id : Z)
| ValidateReply (id : Z) (recipient destination : SocketAddr) (now : Z)
| Sweep (now idle_timeout maximum : Z)
| ClearFlows.
Inductive FlowAnswer :=
| ASession (r : res FlowError (Z * bool))
| ARemoved (removed : bool)
| AValid (valid : bool)
| ASwept (r : res FlowError (list ExpiredFlow))
| ACleared.

Definition flow_call (t : FlowTable) (c : FlowCall) : FlowAnswer * FlowTable :=
  match c with
  | SessionFor entropy fresh key now => let '(r, t) := session_for entropy fresh t key now in (ASession r, t)
  | RemoveFlow id => let '(r, t) := FlowTable_remove t id in (ARemoved r, t)
  | ValidateReply id recipient destination now =>
    let '(r, t) := validate_reply t id recipient destination now in (AValid r, t)
  | Sweep now idle_timeout maximum =>
    match sweep_expired t now idle_timeout maximum with
    | Ok (expired, t) => (ASwept (Ok expired), t)
    | Err e => (ASwept (Err e), t)
    | Panic => (ASwept Panic, t)
    end
  | ClearFlows => (ACleared, flow_clear t)
  end.
(** The same calls on the queue. *)
Definition q_call (capacity : Z) (observe : bool) (q : Flows) (c : FlowCall) : FlowAnswer * Flows :=
  match c with
  | SessionFor entropy fresh key now =>
    let '(r, q) := q_session_for capacity observe entropy fresh q key now in (ASession r, q)
  | RemoveFlow id => (ARemoved (bool_decide (is_Some (q_get id q))), q_remove id q)
  | ValidateReply id recipient destination now =>
    let '(r, q) := q_validate q id recipient destination now in (AValid r, q)
  | Sweep now idle_timeout maximum =>
    let '(gone, q) := q_sweep (Z.to_nat (Z.min maximum (blen q))) now idle_timeout q in
    (ASwept (Ok ((λ f, {| ef_session_id := fl_id f; ef_observed_traffic := fl_traffic f |}) <$> gone)), q)
  | ClearFlows => (ACleared, [])
  end.
Definition call_valid (c : FlowCall) : Prop := match c with Sweep _ _ maximum => 0 ≤ maximum | _ => True end.

Fixpoint run_calls {S} (step : S → FlowCall → FlowAnswer * S) (s : S) (l : list FlowCall) : list FlowAnswer * S :=
  match l with
  | [] => ([], s)
  | c :: l => let '(a, s) := step s c in let '(r, s) := run_calls step s l in (a :: r, s)
  end.

Lemma flow_call_ok t q c :
  flows_rep t q → call_valid c →
  let '(a, t') := flow_call t c in
  let '(a', q') := q_call (ft_capacity t) (ft_observe_traffic t) q c in
  a = a' ∧ flows_rep t' q' ∧ ft_capacity t' = ft_capacity t ∧ ft_observe_traffic t' = ft_observe_traffic t.
Proof.
  intros Hrep Hv. destruct c as [entropy fresh key now|id|id recipient destination now|now idle maximum|]; simpl in *.
  - pose proof (session_for_ok entropy fresh t q key now Hrep) as H.
    destruct (session_for _ _ _ _ _), (q_session_for _ _ _ _ _ _ _). destruct H as (->&?&?&?). by split_and!.
  - pose proof (flow_remove_ok t q id Hrep) as H. destruct (FlowTable_remove t id). destruct H as (->&?&?&?). by split_and!.
  - pose proof (validate_reply_ok t q id recipient destination now Hrep) as H.
    destruct (validate_reply _ _ _ _ _), (q_validate _ _ _ _ _). destruct H as (->&?&?&?). by split_and!.
  - destruct (sweep_expired_ok t q now idle maximum Hrep Hv) as (t'&->&?&?&?).
    by split_and!.
  - split_and!; [done|by eapply flow_clear_ok|done|done].
Qed.

(** The queue is never inconsistent. *)
Lemma q_draw_error entropy attempt n q e : q_draw entropy attempt n q = Err e → e = FlowEntropyUnavailable.
Proof.
  revert attempt. induction n as [|n IH]; intros attempt; unfold q_draw; fold q_draw; [by intros [= <-]|].
  destruct (entropy attempt); [|by intros [= <-]]. case_match; [done|apply IH].
Qed.
Lemma q_call_consistent capacity observe q c :
  (q_call capacity observe q c).1 ≠ ASession (Err Inconsistent)
  ∧ (q_call capacity observe q c).1 ≠ ASwept (Err Inconsistent).
Proof.
  destruct c as [entropy fresh key now|id|id recipient destination now|now idle maximum|]; simpl; try done.
  - unfold q_session_for. destruct (q_find key q); [done|]. destruct (_ <=? _); [done|].
    destruct (q_draw _ _ _ _) eqn:E; simpl; try done. apply q_draw_error in E as ->. done.
  - unfold q_validate. by repeat case_match.
Qed.

(** C14: the table of flows, with its two maps and its linked list, is the queue of its flows:
    along every sequence of calls from the empty table each call answers what the queue
    answers, and the table represents the queue that the calls leave: the entries are linked
    in the order of the queue, sources and identifiers are distinct, there are no more flows
    than the capacity, and no call finds the table inconsistent. *)
Theorem flow_table_refines capacity observe calls :
  Forall call_valid calls →
  let '(answers, t) := run_calls flow_call (FlowTable_new capacity observe) calls in
  let '(answers', q) := run_calls (q_call capacity observe) [] calls in
  answers = answers' ∧ flows_rep t q
  ∧ Forall (λ a, a ≠ ASession (Err Inconsistent) ∧ a ≠ ASwept (Err Inconsistent)) answers.
Proof.
  intros Hv.
  assert (∀ t q, flows_rep t q → ft_capacity t = capacity → ft_observe_traffic t = observe →
    let '(answers, t) := run_calls flow_call t calls in
    let '(answers', q) := run_calls (q_call capacity observe) q calls in
    answers = answers' ∧ flows_rep t q
    ∧ Forall (λ a, a ≠ ASession (Err Inconsistent) ∧ a ≠ ASwept (Err Inconsistent)) answers) as H.
  2: { apply (H (FlowTable_new capacity observe) []); [apply flow_new_ok|done|done]. }
  induction Hv as [|c calls Hc Hv IH]; intros t q Hrep E1 E2; simpl; [done|].
  pose proof (flow_call_ok t q c Hrep Hc) as Hcall. rewrite E1, E2 in Hcall.
  pose proof (q_call_consistent capacity observe q c) as Hcons.
  destruct (flow_call t c) as [a t1], (q_call capacity observe q c) as [a' q1].
  destruct Hcall as (->&Hrep1&?&?). specialize (IH t1 q1 Hrep1 ltac:(congruence) ltac:(congruence)).
  destruct (run_calls flow_call t1 calls) as [r t2], (run_calls (q_call capacity observe) q1 calls) as [r' q2].
  destruct IH as (->&?&?). split_and!; [done|done|]. by constructor.
Qed.

(** * Idle flows *)

Lemma reached capacity observe calls :
  Forall call_valid calls →
  let t := (run_calls flow_call (FlowTable_new capacity observe) calls).2 in
  ∃ q, flows_rep t q ∧ ft_capacity t = capacity ∧ ft_observe_traffic t = observe.
Proof.
  intros Hv. assert (∀ t q, flows_rep t q → ∃ q', flows_rep (run_calls flow_call t calls).2 q'
    ∧ ft_capacity (run_calls flow_call t calls).2 = ft_capacity t
    ∧ ft_observe_traffic (run_calls flow_call t calls).2 = ft_observe_traffic t) as H.
  2: { exact (H _ [] (flow_new_ok capacity observe)). }
  induction Hv as [|c calls Hc Hv IH]; intros t q Hrep; simpl; [by exists q|].
  pose proof (flow_call_ok t q c Hrep Hc) as Hcall.
  destruct (flow_call t c) as [a t1], (q_call _ _ q c) as [a' q1]. destruct Hcall as (_&Hrep1&<-&<-).
  specialize (IH t1 q1 Hrep1). by destruct (run_calls flow_call t1 calls).
Qed.

(** A flow that is not in the queue, or has fewer than [n] flows before it. *)
Definition leaving (f : Flow) (n : Z) (q : Flows) : Prop :=
  fl_key f ∉ fl_key <$> q ∨ ∃ a b, q = a ++ f :: b ∧ blen a < n.
(** The calls that leave a flow idle: they do not use it, and sweep enough when it has been
    idle long enough. *)
Definition idle_call (f : Flow) (idle batch : Z) (c : FlowCall) : Prop :=
  match c with
  | SessionFor _ _ key _ => key ≠ fl_key f
  | ValidateReply id recipient destination _ =>
    id ≠ fl_id f ∨ fl_key f ≠ {| fk_source := recipient; fk_destination := destination |}
  | Sweep now idle_timeout maximum =>
    idle_timeout = idle ∧ q_expired now idle f = true ∧ batch ≤ maximum
  | RemoveFlow _ | ClearFlows => True
  end.
Definition is_sweep (c : FlowCall) : bool := match c with Sweep _ _ _ => true | _ => false end.
Definition sweeps (calls : list FlowCall) : Z := blen (List.filter is_sweep calls).

Lemma leaving_mono f n n' q : leaving f n q → n ≤ n' → leaving f n' q.
Proof. intros [?|(a&b&->&?)] Hn; [by left|]. right. exists a, b. split; [done|lia]. Qed.
Lemma leaving_gone f n q : leaving f n q → n ≤ 0 → fl_key f ∉ fl_key <$> q.
Proof. intros [?|(a&b&->&H)] Hn; [done|]. unfold blen in H. lia. Qed.
Lemma leaving_len f n q : leaving f n q → leaving f (Z.min n (blen q)) q.
Proof.
  intros [?|(a&b&->&?)]; [by left|]. right. exists a, b. split; [done|]. rewrite blen_app, blen_cons. unfold blen in *. lia.
Qed.
Lemma touch_leaving f n q id now : (f ∈ q → id ≠ fl_id f) → leaving f n q → leaving f n (q_touch id now q).
Proof.
  intros Hid Hl. assert (fl_key <$> q_touch id now q = fl_key <$> q) as Ek.
  { unfold q_touch. rewrite <- list_fmap_compose. apply list_fmap_ext. intros i g _. simpl. by destruct (_ =? _). }
  destruct Hl as [Hl|(a&b&->&Hlt)]; [left; by rewrite Ek|].
  right. exists (q_touch id now a), (q_touch id now b). unfold q_touch, blen. rewrite fmap_app, fmap_cons, length_fmap.
  destruct (Z.eqb_spec (fl_id f) id) as [E|]; [|done]. destruct Hid; [|done]. apply elem_of_app. right. by left.
Qed.
Lemma keys_split a f b : NoDup (fl_key <$> a ++ f :: b) → fl_key f ∉ fl_key <$> a ∧ fl_key f ∉ fl_key <$> b.
Proof.
  rewrite fmap_app, fmap_cons, NoDup_app, NoDup_cons. intros (_&Ha&Hb&_). split; [|done].
  intros Hin. apply (Ha _ Hin). by left.
Qed.
Lemma not_in_filter f (p : Flow → bool) q : fl_key f ∉ fl_key <$> q → fl_key f ∉ fl_key <$> List.filter p q.
Proof.
  intros Hl (g&E&Hg)%list_elem_of_fmap. apply list_elem_of_In, filter_In in Hg as [Hg _].
  apply Hl. rewrite E. apply list_elem_of_fmap_2. by apply list_elem_of_In.
Qed.
Lemma remove_leaving f n q id : NoDup (fl_key <$> q) → leaving f n q → leaving f n (q_remove id q).
Proof.
  intros Hnd [Hl|(a&b&->&Hlt)]; unfold q_remove.
  { left. intros (g&E&[_ Hg]%list_elem_of_filter)%list_elem_of_fmap. apply Hl. rewrite E. by apply list_elem_of_fmap_2. }
  rewrite filter_app, filter_cons. case_decide.
  - right. eexists _, _. split; [done|]. pose proof (length_filter (λ f, fl_id f ≠ id) a). unfold blen in *. lia.
  - left. apply keys_split in Hnd as [Ha Hb]. rewrite fmap_app, elem_of_app.
    intros [(g&E&[_ Hg]%list_elem_of_filter)%list_elem_of_fmap|(g&E&[_ Hg]%list_elem_of_filter)%list_elem_of_fmap];
      [apply Ha|apply Hb]; rewrite E; by apply list_elem_of_fmap_2.
Qed.

(** A sweep brings an idle flow forward, or takes it out. *)
Lemma sweep_leaving f n q k now idle :
  NoDup (fl_key <$> q) → q_expired now idle f = true → leaving f n q →
  leaving f (n - Z.min (Z.of_nat k) (blen q)) (q_sweep k now idle q).2.
Proof.
  intros Hnd Hexp [Hl|(a&b&->&Hlt)]; simpl.
  - left. rewrite <- (take_drop k q), fmap_app, elem_of_app in Hl. rewrite fmap_app, elem_of_app.
    intros [H|H]; apply Hl; [by right|]. exfalso. revert H. apply not_in_filter. tauto.
  - destruct (decide (k ≤ length a)%nat).
    + right. exists (drop k a), (b ++ List.filter (λ f, negb (q_expired now idle f)) (take k a)).
      rewrite drop_app_le, take_app_le by done. split; [by rewrite <- (assoc_L (++))|].
      unfold blen in *. rewrite length_drop, length_app. lia.
    + left. apply keys_split in Hnd as [Ha Hb]. rewrite fmap_app, elem_of_app, drop_app_ge, take_app_ge by lia.
      destruct (k - length a)%nat as [|m] eqn:E; [lia|]. simpl. rewrite List.filter_app. simpl. rewrite Hexp. simpl.
      rewrite fmap_app, elem_of_app. intros [H|[H|H]].
      * apply Hb. rewrite <- (take_drop m b), fmap_app, elem_of_app. by right.
      * by apply not_in_filter in H.
      * revert H. apply not_in_filter. intros H. apply Hb. rewrite <- (take_drop m b), fmap_app, elem_of_app. by left.
Qed.

Lemma leaving_call t q f n idle batch c :
  flows_rep t q → leaving f n q → call_valid c → idle_call f idle batch c →
  leaving f (if is_sweep c then n - batch else n) (q_call (ft_capacity t) (ft_observe_traffic t) q c).2.
Proof.
  intros Hrep Hl Hv Hidle. pose proof (fr_keys _ _ Hrep) as Hk.
  destruct c as [entropy fresh key now|id|id recipient destination now|now idle' maximum|]; simpl in *.
  - unfold q_session_for. destruct (q_find key q) as [g|] eqn:E; simpl.
    { apply q_find_Some in E as [Hg <-]. apply touch_leaving; [|done].
      intros Hf Eid. by rewrite (rep_unique t q Hrep g f Hg Hf Eid) in Hidle. }
    destruct (_ <=? blen q); [done|]. destruct (q_draw entropy 0 MAX_SESSION_ID_ATTEMPTS q) as [id| |] eqn:Ed; [|done|done]. simpl.
    destruct Hl as [Hl|(a&b&->&Hlt)].
    + left. rewrite fmap_app, elem_of_app. intros [H|H%list_elem_of_singleton]; [done|]. simpl in H. by subst.
    + right. eexists a, _. rewrite <- (assoc_L (++)). done.
  - by apply remove_leaving.
  - unfold q_validate. destruct (q_get id q) as [g|] eqn:E; [|done]. case_bool_decide as Ek; [|done]. simpl.
    apply q_get_Some in E as [Hg <-]. apply touch_leaving; [|done].
    intros Hf Eid. pose proof (rep_unique t q Hrep g f Hg Hf Eid) as ->. by destruct Hidle.
  - destruct Hidle as (->&Hexp&Hb). apply leaving_len in Hl.
    apply (sweep_leaving f _ q (Z.to_nat (Z.min maximum (blen q))) now idle Hk Hexp) in Hl.
    destruct (Z.leb_spec maximum (blen q)); [apply (leaving_mono _ _ _ _ Hl); unfold blen in *; lia|].
    left. apply (leaving_gone _ _ _ Hl). unfold blen in *. lia.
  - left. simpl. set_solver.
Qed.

Lemma calls_leaving capacity observe calls f idle batch t q n :
  flows_rep t q → ft_capacity t = capacity → ft_observe_traffic t = observe →
  Forall call_valid calls → Forall (idle_call f idle batch) calls → leaving f n q →
  ∃ q', flows_rep (run_calls flow_call t calls).2 q' ∧ leaving f (n - batch * sweeps calls) q'.
Proof.
  intros Hrep Ec Eo Hv. revert t q n Hrep Ec Eo.
  induction Hv as [|c calls Hc Hv IH]; intros t q n Hrep Ec Eo Hi Hl.
  { exists q. unfold sweeps. simpl. by rewrite Z.mul_0_r, Z.sub_0_r. }
  apply Forall_cons in Hi as [Hi1 Hi]. pose proof (leaving_call t q f n idle batch c Hrep Hl Hc Hi1) as Hl1.
  pose proof (flow_call_ok t q c Hrep Hc) as Hcall. simpl.
  destruct (flow_call t c) as [a t1], (q_call _ _ q c) as [a' q1]. destruct Hcall as (_&Hrep1&Ec1&Eo1).
  specialize (IH t1 q1 _ Hrep1 ltac:(congruence) ltac:(congruence) Hi Hl1).
  destruct (run_calls flow_call t1 calls) as [r t2]. destruct IH as (q'&Hrep'&Hl'). exists q'. split; [exact Hrep'|].
  apply (leaving_mono _ _ _ _ Hl'). unfold sweeps. simpl. destruct (is_sweep c); [rewrite blen_cons|]; lia.
Qed.

(** The batch of the runtime covers the capacity within an idle timeout. *)
Lemma div_ceil_covers a b : 0 < b → a ≤ div_ceil a b * b.
Proof. intros Hb. unfold div_ceil. pose proof (Z.div_mod (a + b - 1) b). pose proof (Z.mod_pos_bound (a + b - 1) b). lia. Qed.
Lemma effective_batch_covers l capacity batch :
  effective_sweep_batch l capacity = Ok batch →
  capacity ≤ batch * sweeps_before_timeout (ul_idle_timeout l) (ul_sweep_interval l).
Proof.
  unfold effective_sweep_batch, minimum_sweep_batch. destruct (_ =? 0); [done|].
  set (k := sweeps_before_timeout _ _). assert (0 < k) by (unfold k, sweeps_before_timeout; lia).
  destruct (_ <=? u64_max); [|done]. simpl. intros [= <-]. pose proof (div_ceil_covers capacity k). nia.
Qed.

(** a flow that is idle leaves in time. Once its idle timeout has passed, calls that do
    not use it (no datagram of its source, no valid reply to it) and that hold as many sweeps
    as the relay makes in one more idle timeout, each of the relay's batch, leave no flow of its
    source: whatever the other calls are, its entry and its place in the order are gone. *)
Theorem idle_flow_leaves l capacity observe before calls key id e batch :
  let t := (run_calls flow_call (FlowTable_new capacity observe) before).2 in
  let f := {| fl_id := id; fl_key := key; fl_activity := last_activity e; fl_traffic := observed_traffic e |} in
  effective_sweep_batch l capacity = Ok batch →
  Forall call_valid before → Forall call_valid calls →
  by_flow t !! key = Some id → by_id t !! id = Some e →
  Forall (idle_call f (ul_idle_timeout l) batch) calls →
  sweeps_before_timeout (ul_idle_timeout l) (ul_sweep_interval l) ≤ sweeps calls →
  by_flow (run_calls flow_call t calls).2 !! key = None.
Proof.
  intros t f Hbatch Hv0 Hv Hk He Hidle Hn. apply effective_batch_covers in Hbatch as Hcover.
  destruct (reached capacity observe before Hv0) as (q&Hrep&Ec&Eo). fold t in Hrep, Ec, Eo.
  apply (fr_flow _ _ Hrep) in Hk as (g&Hg&Egk&Egi). destruct (rep_id t q Hrep g Hg) as (a&b&Eq&Ee).
  assert (g = f) as ->.
  { rewrite Egi, He in Ee. injection Ee as ->. unfold f. rewrite <- Egk, <- Egi. by destruct g. }
  assert (leaving f (blen q) q) as Hl.
  { right. exists a, b. split; [done|]. rewrite Eq, blen_app, blen_cons. unfold blen. lia. }
  destruct (calls_leaving capacity observe calls f _ batch t q _ Hrep Ec Eo Hv Hidle Hl) as (q'&Hrep'&Hl').
  assert (fl_key f ∉ fl_key <$> q') as Hgone.
  { apply (leaving_gone _ _ _ Hl'). pose proof (fr_len _ _ Hrep). rewrite Ec in *.
    assert (0 < blen q) by (rewrite Eq, blen_app, blen_cons; unfold blen; lia).
    assert (0 < capacity) by lia. set (k := sweeps_before_timeout _ _) in *.
    assert (1 ≤ k) by (unfold k, sweeps_before_timeout; lia). nia. }
  destruct (by_flow _ !! key) as [id'|] eqn:E; [|done]. exfalso. apply Hgone.
  apply (fr_flow _ _ Hrep') in E as (h&Hh&Ehk&_). change (key ∈ fl_key <$> q'). rewrite <- Ehk. by apply list_elem_of_fmap_2.
Qed.

(** * Addresses on the wire *)

(** The wire has no flow label and no scope: the addresses that come back from it unchanged are
    the IPv4 ones, mapped or not, and the IPv6 ones without either. *)
Lemma wire_roundtrip a :
  socket_addr_from_wire (wire_socket_addr a) = canonical_socket_addr a
  ↔ match canonical_socket_addr a with SaV4 _ _ => True | SaV6 _ _ flowinfo scope_id => flowinfo = 0 ∧ scope_id = 0 end.
Proof.
  destruct a as [o p|o p f s]; simpl; [done|]. unfold wire_socket_addr, socket_addr_from_wire. simpl.
  destruct (to_ipv4_mapped o) as [ip|] eqn:E; simpl; [done|]. rewrite E. split; [|by intros [-> ->]].
  intros H. by injection H as -> ->.
Qed.
(** So the replies to a source with a scope, a link-local one, are all refused: its key keeps the
    scope and the address that comes back has none. *)
Lemma scoped_source_unanswered t id e a destination now :
  by_id t !! id = Some e → fk_source (fe_key e) = canonical_socket_addr a →
  match canonical_socket_addr a with SaV4 _ _ => False | SaV6 _ _ _ scope_id => scope_id ≠ 0 end →
  validate_reply t id (socket_addr_from_wire (wire_socket_addr a)) destination now = (false, t).
Proof.
  intros He Hs Ha. unfold validate_reply. rewrite He, Hs.
  rewrite (bool_decide_false (canonical_socket_addr a = _)); [done|]. intros E. symmetry in E.
  apply wire_roundtrip in E. destruct (canonical_socket_addr a); [done|]. tauto.
Qed.

(** The next source is served: four flows of a relay that sweeps one flow at a time. *)
#[local] Definition wit_addr (p : Z) : SocketAddr := SaV4 [x0a; x00; x00; x01] p.
#[local] Definition wit_key (p : Z) : FlowKey := {| fk_source := wit_addr p; fk_destination := wit_addr 53 |}.
#[local] Definition wit_new (p now : Z) : FlowCall := SessionFor (λ _, Some p) 7%nat (wit_key p) now.
#[local] Definition wit_limits : UdpRuntimeLimits :=
  {| ul_queue_capacity := 1; ul_idle_timeout := 4000000; ul_sweep_interval := 1000000; ul_sweep_batch := 1;
     ul_writer_delay := 0; ul_test_disconnect_after_replies := None |}.
#[local] Definition wit_before : list FlowCall := [wit_new 1 0; wit_new 2 0; wit_new 3 0; wit_new 4 0; wit_new 5 0].
#[local] Definition wit_calls : list FlowCall :=
  [wit_new 1 4000000; Sweep 4000000 4000000 1; wit_new 4 4100000; Sweep 5000000 4000000 1; wit_new 6 5100000;
   ValidateReply 1 (wit_addr 1) (wit_addr 53) 5200000; Sweep 6000000 4000000 1; Sweep 7000000 4000000 1].

Lemma flow_table_refines_witness :
  Forall call_valid (wit_before ++ wit_calls)
  ∧ (let '(answers, t) := run_calls flow_call (FlowTable_new 4 true) (wit_before ++ wit_calls) in
     let '(answers', q) := run_calls (q_call 4 true) [] (wit_before ++ wit_calls) in
     answers = answers' ∧ flows_rep t q
     ∧ Forall (λ a, a ≠ ASession (Err Inconsistent) ∧ a ≠ ASwept (Err Inconsistent)) answers).
Proof.
  assert (Forall call_valid (wit_before ++ wit_calls)) as H by (repeat constructor; simpl; lia).
  split; [exact H|]. exact (flow_table_refines 4 true _ H).
Defined.

Lemma idle_flow_leaves_witness :
  let t := (run_calls flow_call (FlowTable_new 4 true) wit_before).2 in
  by_flow t !! wit_key 3 = Some 3
  ∧ by_flow (run_calls flow_call t wit_calls).2 !! wit_key 3 = None
  ∧ by_flow (run_calls flow_call t wit_calls).2 !! wit_key 1 = Some 1.
Proof.
  split; [vm_compute; reflexivity|]. split; [|vm_compute; reflexivity].
  apply (idle_flow_leaves wit_limits 4 true wit_before wit_calls (wit_key 3) 3
           {| fe_key := wit_key 3; last_activity := 0; previous := Some 2; next := Some 4; observed_traffic := Some 7%nat |} 1).
  - vm_compute. reflexivity.
  - repeat constructor.
  - repeat constructor; simpl; lia.
  - vm_compute. reflexivity.
  - vm_compute. reflexivity.
  - repeat constructor; simpl; first [left; lia | done | idtac].
  - vm_compute. discriminate.
Defined.
