(* ===== verification/UdpRelay.v ===== *)
(** The relay of a UDP tunnel ([relay_datagrams] and [write_frames] of [rustgos/src/udp.rs]):
    the select loop between the public socket and the data connection, with the writer task it
    feeds through a bounded queue, as a machine whose steps are the branches of the two loops. *)

From S2P Require Import Prelude.
From S2P Require Import Postcard.
From S2P Require Import Messages.
From S2P Require Import Events.
From S2P Require Import Frame.
From S2P Require Import Limiter.
From S2P Require Import Bindings.
From S2P Require Import UdpFlows.
From Stdlib Require Import Strings.Byte Strings.String.
From stdpp Require Import prelude gmap list.

#[local] Open Scope Z_scope.

(** * Counters *)

(** [ObservedUdpTraffic] and its operations; the counters live in a heap. *)
Notation TrafficHeap := (gmap Arc TrafficCounters).
Definition record_sent (bytes : Z) (c : TrafficCounters) : TrafficCounters :=
  {| received_bytes := received_bytes c; sent_bytes := saturating_add u64_max (sent_bytes c) bytes |}.
Definition record_received (bytes : Z) (c : TrafficCounters) : TrafficCounters :=
  {| received_bytes := saturating_add u64_max (received_bytes c) bytes; sent_bytes := sent_bytes c |}.
Definition on_traffic (f : TrafficCounters → TrafficCounters) (a : Arc) (heap : TrafficHeap) : TrafficHeap :=
  alter f a heap.
(** [ObservedUdpTraffic::take], for each of a list of sessions. *)
Definition traffic_take (a : Arc) (heap : TrafficHeap) : TrafficCounters * TrafficHeap :=
  (default TrafficCounters_default (heap !! a), <[a := TrafficCounters_default]> heap).
Fixpoint take_each (l : list (Z * Arc)) (heap : TrafficHeap) : list (Z * TrafficCounters) * TrafficHeap :=
  match l with
  | [] => ([], heap)
  | (session_id, a) :: l =>
    let '(c, heap) := traffic_take a heap in
    let '(r, heap) := take_each l heap in ((session_id, c) :: r, heap)
  end.

(** The counters of the flows of a table, in the order of its map. *)
Definition observed_flows (t : FlowTable) : list (Z * Arc) :=
  omap (λ x, (λ a, (x.1, a)) <$> observed_traffic x.2) (map_to_list (by_id t)).
(** [FlowTable::take_observed_traffic]. *)
Definition take_observed_traffic (t : FlowTable) (heap : TrafficHeap)
    : list (Z * TrafficCounters) * TrafficHeap :=
  let '(taken, heap) := take_each (observed_flows t) heap in
  (List.filter (λ x, negb (bool_decide (x.2 = TrafficCounters_default))) taken, heap).

(** [UdpMetrics]. *)
Record UdpMetrics := {
  um_sessions : Z;
  um_queued : Z;
  queue_drops : Z;
  session_drops : Z;
  oversize_drops : Z;
  invalid_drops : Z;
}.
Definition UdpMetrics_default : UdpMetrics :=
  {| um_sessions := 0; um_queued := 0; queue_drops := 0; session_drops := 0; oversize_drops := 0;
     invalid_drops := 0 |}.
Definition set_sessions (n : Z) (m : UdpMetrics) : UdpMetrics :=
  {| um_sessions := n; um_queued := um_queued m; queue_drops := queue_drops m;
     session_drops := session_drops m; oversize_drops := oversize_drops m; invalid_drops := invalid_drops m |}.
Definition set_queued (n : Z) (m : UdpMetrics) : UdpMetrics :=
  {| um_sessions := um_sessions m; um_queued := n; queue_drops := queue_drops m;
     session_drops := session_drops m; oversize_drops := oversize_drops m; invalid_drops := invalid_drops m |}.
(** [UdpMetrics::record_drop], on each of its counters. *)
Definition one_more (n : Z) : Z := wrapping_add u64_max n 1.
Inductive DropKind := DropQueue | DropSession | DropOversize | DropInvalid.
Definition record_drop (k : DropKind) (m : UdpMetrics) : UdpMetrics :=
  {| um_sessions := um_sessions m; um_queued := um_queued m;
     queue_drops := match k with DropQueue => one_more (queue_drops m) | _ => queue_drops m end;
     session_drops := match k with DropSession => one_more (session_drops m) | _ => session_drops m end;
     oversize_drops := match k with DropOversize => one_more (oversize_drops m) | _ => oversize_drops m end;
     invalid_drops := match k with DropInvalid => one_more (invalid_drops m) | _ => invalid_drops m end |}.

(** * The state *)

Record QueuedUdpMessage := {
  qm_message : Message;
  qm_delivered : option (Arc * Z);
  qm_retired_session : option Z;
}.

Record RelayConfig := {
  rc_tunnel_id : Z;
  rc_tunnel_name : list byte;
  rc_version : ProtocolVersion;
  rc_max_sessions : Z;
  rc_max_payload : Z;
  rc_limits : UdpRuntimeLimits;
  rc_observability : bool;
  rc_identity : AuthenticatedClientIdentity;
  rc_local_addr : SocketAddr;
}.

(** The sessions: the table, the heap of counters with its next free place, and
    [retired_traffic], the sessions that have expired and whose retirement is not yet written,
    with their counters and the reason. *)
Record Sessions := {
  flows : FlowTable;
  traffic : TrafficHeap;
  next_arc : Arc;
  retired_traffic : option (gmap Z (Arc * list byte));
}.

(** The writer task: waiting for a message, writing one, or ended. *)
Inductive Writer :=
| WriterIdle
| WriterBusy (q : QueuedUdpMessage) (encoded : list byte)
| WriterDone (r : res UdpRelayError ()).
(** The channel to it, with the channel of acknowledgements back, and the messages that have
    entered it and those that have been written. *)
Record Channel := {
  queue : list QueuedUdpMessage;
  writer : Writer;
  acks : list Z;
  enqueued : list QueuedUdpMessage;
  written : list QueuedUdpMessage;
}.

(** What the world sees: the sources of the datagrams that were accepted, the replies sent to
    the public socket, the bytes written to the data connection, and the events. *)
Record Outside := {
  accepted_from : list SocketAddr;
  replies : list (SocketAddr * list byte);
  wire : list byte;
  events : list ObservationEvent;
}.

(** The relay runs; its loop is left and waits for the writer; it has returned; or it has
    returned from the middle of the loop through [?], or panicked there. *)
Inductive RelayPhase :=
| Relaying
| Closing (r : res UdpRelayError ())
| Returned (r : res UdpRelayError ())
| Abandoned (e : UdpRelayError)
| Crashed.

Record Relay := {
  sess : Sessions;
  chan : Channel;
  metrics : UdpMetrics;
  forwarded_replies : Z;
  outside : Outside;
  phase : RelayPhase;
}.

(** Field updates. *)
Definition with_sess (s : Relay) (x : Sessions) : Relay :=
  {| sess := x; chan := chan s; metrics := metrics s; forwarded_replies := forwarded_replies s;
     outside := outside s; phase := phase s |}.
Definition with_chan (s : Relay) (x : Channel) : Relay :=
  {| sess := sess s; chan := x; metrics := metrics s; forwarded_replies := forwarded_replies s;
     outside := outside s; phase := phase s |}.
Definition with_metrics (s : Relay) (x : UdpMetrics) : Relay :=
  {| sess := sess s; chan := chan s; metrics := x; forwarded_replies := forwarded_replies s;
     outside := outside s; phase := phase s |}.
Definition with_outside (s : Relay) (x : Outside) : Relay :=
  {| sess := sess s; chan := chan s; metrics := metrics s; forwarded_replies := forwarded_replies s;
     outside := x; phase := phase s |}.
Definition with_phase (s : Relay) (x : RelayPhase) : Relay :=
  {| sess := sess s; chan := chan s; metrics := metrics s; forwarded_replies := forwarded_replies s;
     outside := outside s; phase := x |}.
Definition with_table (x : Sessions) (t : FlowTable) : Sessions :=
  {| flows := t; traffic := traffic x; next_arc := next_arc x; retired_traffic := retired_traffic x |}.
Definition with_traffic (x : Sessions) (heap : TrafficHeap) : Sessions :=
  {| flows := flows x; traffic := heap; next_arc := next_arc x; retired_traffic := retired_traffic x |}.
Definition with_retired (x : Sessions) (r : option (gmap Z (Arc * list byte))) : Sessions :=
  {| flows := flows x; traffic := traffic x; next_arc := next_arc x; retired_traffic := r |}.
Definition on_heap (s : Relay) (f : TrafficHeap → TrafficHeap) : Relay :=
  with_sess s (with_traffic (sess s) (f (traffic (sess s)))).
Definition with_writer (c : Channel) (w : Writer) : Channel :=
  {| queue := queue c; writer := w; acks := acks c; enqueued := enqueued c; written := written c |}.
Definition with_queue (c : Channel) (l : list QueuedUdpMessage) : Channel :=
  {| queue := l; writer := writer c; acks := acks c; enqueued := enqueued c; written := written c |}.
Definition with_acks (c : Channel) (l : list Z) : Channel :=
  {| queue := queue c; writer := writer c; acks := l; enqueued := enqueued c; written := written c |}.
Definition drop_one (k : DropKind) (s : Relay) : Relay := with_metrics s (record_drop k (metrics s)).
Definition observe (s : Relay) (l : list ObservationEvent) : Relay :=
  let o := outside s in
  with_outside s {| accepted_from := accepted_from o; replies := replies o; wire := wire o; events := events o ++ l |}.

(** * Events *)

Section relay.
Context `{P : Postcard} (sha256 : list byte → list byte) (cfg : RelayConfig).

Definition observed_udp_session_id (session_id : Z) : list byte := short_session_id sha256 (be_bytes 8 session_id).
Definition flush_udp_traffic_entry (session_id : Z) (counters : TrafficCounters) : list ObservationEvent :=
  if bool_decide (counters = TrafficCounters_default) then []
  else [ByteCounterDelta (rc_identity cfg) (Some (observed_udp_session_id session_id)) counters].
Definition flush_udp_traffic (pending : list (Z * TrafficCounters)) : list ObservationEvent :=
  flat_map (λ x, flush_udp_traffic_entry x.1 x.2) pending.
(** [observe_udp_close], at the time [now_unix_millis]. *)
Definition observe_udp_close (session_id : Z) (reason : list byte) (now_unix_millis : Z) : list ObservationEvent :=
  if negb (rc_observability cfg) then []
  else [UdpSessionClosed (rc_identity cfg) (observed_udp_session_id session_id) now_unix_millis (Some reason)].

Definition idle_timeout_reason : list byte := str "idle-timeout"%string.
Definition channel_ended_reason : list byte := str "channel-ended"%string.

(** * The queue *)

Inductive EnqueueResult := EnqueueQueued | EnqueueFull | EnqueueClosed.
Definition receiver_open (c : Channel) : bool := match writer c with WriterDone _ => false | _ => true end.
(** [try_enqueue], with [mpsc::Sender::try_send]; [queued] is raised first and lowered when
    the message is refused. *)
Definition try_enqueue (s : Relay) (message : Message) (delivered : option (Arc * Z))
    (retired_session : option Z) : EnqueueResult * Relay :=
  let s := with_metrics s (set_queued (um_queued (metrics s) + 1) (metrics s)) in
  let refused := with_metrics s (set_queued (um_queued (metrics s) - 1) (metrics s)) in
  let q := {| qm_message := message; qm_delivered := delivered; qm_retired_session := retired_session |} in
  let c := chan s in
  if negb (receiver_open c) then (EnqueueClosed, refused) else
  if ul_queue_capacity (rc_limits cfg) <=? blen (queue c) then (EnqueueFull, refused) else
  (EnqueueQueued, with_chan s {| queue := queue c ++ [q]; writer := writer c; acks := acks c;
                                 enqueued := enqueued c ++ [q]; written := written c |}).

(** * The branches of the loop *)

(** How a branch ends: the loop goes on, is left with a result, or the function returns or
    panics in the middle. *)
Inductive Flowing := Continue | Break (r : res UdpRelayError ()) | Abandon (e : UdpRelayError) | Crash.

Definition public_destination : SocketAddr := canonical_socket_addr (rc_local_addr cfg).

(** The retirement of the expired flows. *)
Fixpoint retire_loop (expired : list ExpiredFlow) (s : Relay) : Flowing * Relay :=
  match expired with
  | [] => (Continue, s)
  | e :: expired =>
    let session_id := ef_session_id e in
    let s :=
      match retired_traffic (sess s), ef_observed_traffic e with
      | Some retired, Some traffic =>
        with_sess s (with_retired (sess s) (Some (<[session_id := (traffic, idle_timeout_reason)]> retired)))
      | _, _ => s
      end in
    let retirement := MUdpSessionRetired {| usr_tunnel_id := rc_tunnel_id cfg; usr_session_id := session_id |} in
    match try_enqueue s retirement None ((λ _, session_id) <$> retired_traffic (sess s)) with
    | (EnqueueQueued, s) => retire_loop expired s
    | (EnqueueFull, s) => (Break (Err RetirementDeliveryFailed), drop_one DropQueue s)
    | (EnqueueClosed, s) => (Break (Err RetirementDeliveryFailed), s)
    end
  end.
Definition on_sweep (sweep_batch now : Z) (s : Relay) : Flowing * Relay :=
  match sweep_expired (flows (sess s)) now (ul_idle_timeout (rc_limits cfg)) sweep_batch with
  | Err _ => (Abandon SessionAllocation, s)
  | Panic => (Crash, s)
  | Ok (expired, t) =>
    let s := with_sess s (with_table (sess s) t) in
    if bool_decide (expired = []) then (Continue, s)
    else retire_loop expired (with_metrics s (set_sessions (flow_len t) (metrics s)))
  end.

(** A datagram of the public socket: an error, too long for the socket or another one, or
    bytes from a source; those beyond the receive buffer are cut off. *)
Inductive PublicReceive := PublicError (oversized : bool) | PublicDatagram (bytes : list byte) (source : SocketAddr).
Definition receive_buffer : Z := saturating_add u64_max (rc_max_payload cfg) 1.

(** The flow of a datagram: the counters of a new one are allocated. *)
Definition flow_for (entropy : nat → option Z) (key : FlowKey) (now : Z) (s : Relay)
    : res FlowError (Z * bool) * Relay :=
  let x := sess s in
  let '(r, t) := session_for entropy (next_arc x) (flows x) key now in
  let allocated := match r with Ok (_, true) => rc_observability cfg | _ => false end in
  (r, with_sess s
        {| flows := t;
           traffic := if allocated then <[next_arc x := TrafficCounters_default]> (traffic x) else traffic x;
           next_arc := if allocated then S (next_arc x) else next_arc x;
           retired_traffic := retired_traffic x |}).

Definition accept (source : SocketAddr) (s : Relay) : Relay :=
  let o := outside s in
  with_outside s {| accepted_from := accepted_from o ++ [source]; replies := replies o; wire := wire o; events := events o |}.
(** A new session, with its datagram in the queue. *)
Definition open_udp_session (session_id now_unix_millis : Z) (s : Relay) : Flowing * Relay :=
  let s := with_metrics s (set_sessions (flow_len (flows (sess s))) (metrics s)) in
  if rc_observability cfg then
    match bounded_label (rc_tunnel_name cfg) with
    | Ok tunnel =>
      (Continue, observe s [UdpSessionOpened (rc_identity cfg) (observed_udp_session_id session_id) (Some tunnel) now_unix_millis])
    | _ => (Crash, s)
    end
  else (Continue, s).
(** A new session whose datagram is refused. *)
Definition rollback_session (session_id : Z) (s : Relay) : Relay :=
  let t := (FlowTable_remove (flows (sess s)) session_id).2 in
  with_metrics (with_sess s (with_table (sess s) t)) (set_sessions (flow_len t) (metrics s)).

Definition on_public (received : PublicReceive) (entropy : nat → option Z) (now now_unix_millis : Z) (s : Relay)
    : Flowing * Relay :=
  match received with
  | PublicError true => (Continue, drop_one DropOversize s)
  | PublicError false => (Break (Err UdpIo), s)
  | PublicDatagram bytes source =>
    let bytes := take (Z.to_nat receive_buffer) bytes in
    if rc_max_payload cfg <? blen bytes then (Continue, drop_one DropOversize s) else
    let key := {| fk_source := canonical_socket_addr source; fk_destination := public_destination |} in
    match flow_for entropy key now s with
    | (Err FlowCapacity, s) => (Continue, drop_one DropSession s)
    | (Err (FlowEntropyUnavailable | Inconsistent), s) => (Break (Err SessionAllocation), s)
    | (Panic, s) => (Crash, s)
    | (Ok (session_id, inserted), s) =>
      let s := accept (fk_source key) s in
      match bounded_try_from MAX_UDP_PAYLOAD_BYTES bytes with
      | Ok payload =>
        let message := MUdpDatagram {| ud_tunnel_id := rc_tunnel_id cfg; ud_session_id := session_id;
                                       ud_source := wire_socket_addr (fk_source key); ud_payload := payload |} in
        let delivered := (λ a, (a, blen bytes)) <$> flow_traffic (flows (sess s)) session_id in
        match try_enqueue s message delivered None with
        | (EnqueueQueued, s) => if inserted then open_udp_session session_id now_unix_millis s else (Continue, s)
        | (EnqueueFull, s) =>
          (Continue, drop_one DropQueue (if inserted then rollback_session session_id s else s))
        | (EnqueueClosed, s) => (Break (Err DataChannelClosed), s)
        end
      | _ => (Abandon UdpPayloadTooLarge, s)
      end
    end
  end.

(** A frame of the data connection, with what becomes of the reply that is sent for it. *)
Inductive SendResult := SendCancelled | SendFailed | SendDone (bytes : Z).
Definition reply_sent (recipient : SocketAddr) (payload : list byte) (s : Relay) : Relay :=
  let o := outside s in
  with_outside s {| accepted_from := accepted_from o; replies := replies o ++ [(recipient, payload)];
                    wire := wire o; events := events o |}.
Definition count_reply (session_id bytes : Z) (s : Relay) : Relay :=
  let s :=
    {| sess := sess s; chan := chan s; metrics := metrics s;
       forwarded_replies := saturating_add u64_max (forwarded_replies s) 1; outside := outside s; phase := phase s |} in
  match flow_traffic (flows (sess s)) session_id with
  | Some a => on_heap s (on_traffic (record_sent bytes) a)
  | None => s
  end.
Definition on_frame (frame : res UdpRelayError Frame) (sent : SendResult) (now : Z) (s : Relay) : Flowing * Relay :=
  match frame with
  | Err e => (Break (Err e), s)
  | Panic => (Crash, s)
  | Ok frame =>
    if negb (bool_decide (frame_version frame = rc_version cfg)) then (Break (Err InvalidFrame), s) else
    match frame_message frame with
    | MUdpDatagram d =>
      if negb (ud_tunnel_id d =? rc_tunnel_id cfg) then (Break (Err InvalidFrame), s) else
      if rc_max_payload cfg <? blen (ud_payload d) then (Continue, drop_one DropOversize s) else
      let recipient := socket_addr_from_wire (ud_source d) in
      let '(valid, t) := validate_reply (flows (sess s)) (ud_session_id d) recipient public_destination now in
      let s := with_sess s (with_table (sess s) t) in
      if negb valid then (Continue, drop_one DropInvalid s) else
      match sent with
      | SendCancelled => (Break (Ok ()), s)
      | SendFailed => (Abandon UdpIo, s)
      | SendDone sent =>
        if negb (sent =? blen (ud_payload d)) then (Break (Err ShortDatagramWrite), s) else
        let s := count_reply (ud_session_id d) sent (reply_sent recipient (ud_payload d) s) in
        if bool_decide (ul_test_disconnect_after_replies (rc_limits cfg) = Some (forwarded_replies s))
        then (Break (Err InternalTestDisconnect), s) else (Continue, s)
      end
    | _ => (Break (Err InvalidFrame), s)
    end
  end.

(** An acknowledged retirement. *)
Definition on_retired (now_unix_millis : Z) (s : Relay) : Flowing * Relay :=
  match acks (chan s), retired_traffic (sess s) with
  | id :: rest, Some retired =>
    let s := with_chan s (with_acks (chan s) rest) in
    match retired !! id with
    | Some (a, reason) =>
      let '(counters, heap) := traffic_take a (traffic (sess s)) in
      let s := with_sess s (with_traffic (with_retired (sess s) (Some (delete id retired))) heap) in
      (Continue, observe s (flush_udp_traffic_entry id counters ++ observe_udp_close id reason now_unix_millis))
    | None => (Continue, s)
    end
  | _, _ => (Continue, s)
  end.

(** The periodic flush of the counters. *)
Definition retired_arcs (x : Sessions) : list (Z * Arc) :=
  match retired_traffic x with Some r => (λ y, (y.1, y.2.1)) <$> map_to_list r | None => [] end.
Definition flush_sessions (s : Relay) : Relay :=
  let '(pending, heap) := take_observed_traffic (flows (sess s)) (traffic (sess s)) in
  observe (with_sess s (with_traffic (sess s) heap)) (flush_udp_traffic pending).
Definition flush_retired (s : Relay) : Relay :=
  let '(taken, heap) := take_each (retired_arcs (sess s)) (traffic (sess s)) in
  observe (with_sess s (with_traffic (sess s) heap)) (flush_udp_traffic taken).
Definition on_flush (s : Relay) : Relay := flush_retired (flush_sessions s).

(** * The writer *)

(** [FrameCodec::new(UDP_METADATA_LEN + MAX_UDP_PAYLOAD_BYTES)]. *)
Definition relay_codec : FrameCodec := {| max_payload := UDP_METADATA_LEN + MAX_UDP_PAYLOAD_BYTES |}.
(** The writer ends through [?]: what is queued is dropped with the receiver. *)
Definition writer_ends (r : res UdpRelayError ()) (s : Relay) : Relay :=
  with_chan s (with_queue (with_writer (chan s) (WriterDone r)) []).
Definition writer_take (q : QueuedUdpMessage) (rest : list QueuedUdpMessage) (s : Relay) : Relay :=
  let s := with_metrics (with_chan s (with_queue (chan s) rest)) (set_queued (um_queued (metrics s) - 1) (metrics s)) in
  match Frame.encode relay_codec (rc_version cfg) 0 (qm_message q) with
  | Ok encoded => with_chan s (with_writer (chan s) (WriterBusy q encoded))
  | Err _ => writer_ends (Err UdpFrame) s
  | Panic => writer_ends Panic s
  end.
Definition write_message (q : QueuedUdpMessage) (encoded : list byte) (s : Relay) : Relay :=
  let c := chan s in let o := outside s in
  with_outside
    (with_chan s
      {| queue := queue c; writer := WriterIdle;
         acks := match qm_retired_session q with Some id => acks c ++ [id] | None => acks c end;
         enqueued := enqueued c; written := written c ++ [q] |})
    {| accepted_from := accepted_from o; replies := replies o; wire := wire o ++ encoded; events := events o |}.
Definition writer_wrote (q : QueuedUdpMessage) (encoded : list byte) (s : Relay) : Relay :=
  let s := write_message q encoded s in
  match qm_delivered q with
  | Some (a, bytes) => on_heap s (on_traffic (record_received bytes) a)
  | None => s
  end.
(** The writer stops: what is queued is counted out. *)
Definition writer_stop (s : Relay) : Relay :=
  writer_ends (Ok ()) (with_metrics s (set_queued (um_queued (metrics s) - blen (queue (chan s))) (metrics s))).

(** * The end *)

Fixpoint close_each (l : list Z) (reason : list byte) (millis : nat → Z) (i : nat) : list ObservationEvent :=
  match l with
  | [] => []
  | id :: l => observe_udp_close id reason (millis i) ++ close_each l reason millis (S i)
  end.
Fixpoint close_retired (l : list (Z * (Arc * list byte))) (heap : TrafficHeap) (millis : nat → Z) (i : nat)
    : list ObservationEvent * TrafficHeap :=
  match l with
  | [] => ([], heap)
  | (id, (a, reason)) :: l =>
    let '(counters, heap) := traffic_take a heap in
    let '(r, heap) := close_retired l heap millis (S i) in
    (flush_udp_traffic_entry id counters ++ observe_udp_close id reason (millis i) ++ r, heap)
  end.
Definition retired_list (x : Sessions) : list (Z * (Arc * list byte)) :=
  match retired_traffic x with Some r => map_to_list r | None => [] end.
(** What follows the loop, once the writer has ended; [millis] are the readings of the clock. *)
Definition cleanup_relay (millis : nat → Z) (s : Relay) : Relay :=
  let s := flush_sessions s in
  let ids := session_ids (flows (sess s)) in
  let s := observe s (close_each ids channel_ended_reason millis 0) in
  let '(closed, heap) := close_retired (retired_list (sess s)) (traffic (sess s)) millis (length ids) in
  let s := observe s closed in
  let x := sess s in
  with_metrics
    (with_sess s {| flows := flow_clear (flows x); traffic := heap; next_arc := next_arc x; retired_traffic := None |})
    (set_queued 0 (set_sessions 0 (metrics s))).

(** * Steps *)

(** The beginning of [relay_datagrams]: an error drops what was set up; a channel without
    capacity panics. *)
Definition relay_start (now : Z) : res UdpRelayError (Z * Relay) :=
  if (ul_queue_capacity (rc_limits cfg) <=? 0) || (u64_max / 8 <? ul_queue_capacity (rc_limits cfg)) then Panic else
  sweep_batch ← effective_sweep_batch (rc_limits cfg) (rc_max_sessions cfg);
  _ ← ok_or (instant_checked_add now (ul_sweep_interval (rc_limits cfg))) InvalidLimits;
  Ok (sweep_batch,
      {| sess := {| flows := FlowTable_new (rc_max_sessions cfg) (rc_observability cfg); traffic := ∅;
                    next_arc := 0%nat;
                    retired_traffic := if rc_observability cfg then Some ∅ else None |};
         chan := {| queue := []; writer := WriterIdle; acks := []; enqueued := []; written := [] |};
         metrics := UdpMetrics_default; forwarded_replies := 0;
         outside := {| accepted_from := []; replies := []; wire := []; events := [] |};
         phase := Relaying |}).

Inductive RelayStep :=
| StepCancelled
| StepWriterJoined
| StepRetired (now_unix_millis : Z)
| StepFlush
| StepSweep (now : Z)
| StepPublic (received : PublicReceive) (entropy : nat → option Z) (now now_unix_millis : Z)
| StepFrame (frame : res UdpRelayError Frame) (sent : SendResult) (now : Z)
| StepWriterTake
| StepWriterWrote
| StepWriterFailed
| StepWriterStopped
| StepFinish (millis : nat → Z).

Definition after (x : Flowing * Relay) : Relay :=
  match x.1 with
  | Continue => x.2
  | Break r => with_phase x.2 (Closing r)
  | Abandon e => with_phase x.2 (Abandoned e)
  | Crash => with_phase x.2 Crashed
  end.
(** The result of the writer, joined in the loop. *)
Definition joined (r : res UdpRelayError ()) : res UdpRelayError () :=
  match r with Ok () => Err DataChannelClosed | Err e => Err e | Panic => Err TaskJoin end.
Definition is_relaying (s : Relay) : bool := match phase s with Relaying => true | _ => false end.
(** [relay_shutdown] is cancelled, and the sender is dropped. *)
Definition shut_down (s : Relay) : bool := match phase s with Closing _ | Returned _ => true | _ => false end.
Definition sender_dropped (s : Relay) : bool := negb (is_relaying s).

(** One step; [None] when the step cannot happen. *)
Definition relay_step (sweep_batch : Z) (s : Relay) (l : RelayStep) : option Relay :=
  match l with
  | StepWriterTake =>
    match writer (chan s), queue (chan s) with
    | WriterIdle, q :: rest => if shut_down s then None else Some (writer_take q rest s)
    | _, _ => None
    end
  | StepWriterWrote =>
    match writer (chan s) with
    | WriterBusy q encoded => if shut_down s then None else Some (writer_wrote q encoded s)
    | _ => None
    end
  | StepWriterFailed =>
    match writer (chan s) with
    | WriterBusy _ _ => if shut_down s then None else Some (writer_ends (Err UdpIo) s)
    | _ => None
    end
  | StepWriterStopped =>
    match writer (chan s) with
    | WriterDone _ => None
    | WriterBusy _ _ => if shut_down s then Some (writer_stop s) else None
    | WriterIdle =>
      if shut_down s || (sender_dropped s && bool_decide (queue (chan s) = [])) then Some (writer_stop s) else None
    end
  | StepFinish millis =>
    match phase s, writer (chan s) with
    | Closing r, WriterDone _ => Some (with_phase (cleanup_relay millis s) (Returned r))
    | _, _ => None
    end
  | _ =>
    if negb (is_relaying s) then None else
    match l with
    | StepCancelled => Some (with_phase s (Closing (Ok ())))
    | StepWriterJoined =>
      match writer (chan s) with WriterDone r => Some (with_phase s (Closing (joined r))) | _ => None end
    | StepRetired millis =>
      if bool_decide (acks (chan s) = []) || bool_decide (retired_traffic (sess s) = None) then None
      else Some (after (on_retired millis s))
    | StepFlush => if rc_observability cfg then Some (on_flush s) else None
    | StepSweep now => Some (after (on_sweep sweep_batch now s))
    | StepPublic received entropy now millis => Some (after (on_public received entropy now millis s))
    | StepFrame frame sent now => Some (after (on_frame frame sent now s))
    | _ => None
    end
  end.

Fixpoint relay_run (sweep_batch : Z) (s : Relay) (l : list RelayStep) : option Relay :=
  match l with
  | [] => Some s
  | x :: l => s ← relay_step sweep_batch s x; relay_run sweep_batch s l
  end.
End relay.
