(* ===== verification/UdpRelayFacts.v ===== *)
(** The invariant of the relay: its books are exact, the counters of its sessions are where they
    are looked for, and what it reports of them is what has happened.  Then the sessions and their
    counters: every counter that is not zero belongs to a session that is live, what has been
    reported and what is still counted is what has passed, and every session that was opened is
    live or closed. *)

From S2P Require Import Prelude.
From S2P Require Import Postcard.
From S2P Require Import Messages.
From S2P Require Import Events.
From S2P Require Import Limiter.
From S2P Require Import Frame.
From S2P Require Import UdpFlows.
From S2P Require Import UdpFlowsFacts.
From S2P Require Import UdpRelay.
From Stdlib Require Import Strings.Byte.
From stdpp Require Import prelude gmap list.

#[local] Open Scope Z_scope.

(** * The table, through its queue *)

Definition q_arcs (q : Flows) : list (Z * Arc) := omap (λ f, (λ a, (fl_id f, a)) <$> fl_traffic f) q.

Section table.
Context (t : FlowTable) (q : Flows) (Hrep : flows_rep t q).

Lemma entries_rep : ∃ entry, map_to_list (by_id t) ≡ₚ (λ f, (fl_id f, entry f)) <$> q
  ∧ Forall (λ f, observed_traffic (entry f) = fl_traffic f) q.
Proof using Hrep.
  set (none := {| fe_key := {| fk_source := SaV4 [] 0; fk_destination := SaV4 [] 0 |}; last_activity := 0;
                  previous := None; next := None; observed_traffic := None |}).
  exists (λ f, default none (by_id t !! fl_id f)). split.
  - apply NoDup_Permutation.
    + apply NoDup_map_to_list.
    + apply (NoDup_fmap_1 fst). rewrite <- list_fmap_compose. exact (fr_ids _ _ Hrep).
    + intros [id e]. rewrite elem_of_map_to_list, list_elem_of_fmap. split.
      * intros He. assert (id ∈ fl_id <$> q) as (f&->&Hf)%list_elem_of_fmap by (apply (fr_dom _ _ Hrep); by rewrite He).
        exists f. by rewrite He.
      * intros (f&E&Hf). injection E as -> ->. destruct (rep_id t q Hrep f Hf) as (?&?&_&Ee). by rewrite Ee.
  - apply Forall_forall. intros f Hf. destruct (rep_id t q Hrep f Hf) as (?&?&_&Ee). by rewrite Ee.
Qed.
Lemma observed_flows_rep : observed_flows t ≡ₚ q_arcs q.
Proof using Hrep.
  destruct entries_rep as (entry&Hperm&Hall). unfold observed_flows. rewrite Hperm. unfold q_arcs. clear -Hall.
  induction Hall as [|f q' Hf Hall IH]; [done|]. simpl. rewrite Hf.
  destruct (fl_traffic f); simpl; [apply perm_skip|]; exact IH.
Qed.
Lemma session_ids_rep : session_ids t ≡ₚ fl_id <$> q.
Proof using Hrep.
  destruct entries_rep as (entry&Hperm&_). unfold session_ids. rewrite Hperm. by rewrite <- list_fmap_compose.
Qed.
Lemma flow_traffic_rep f : f ∈ q → flow_traffic t (fl_id f) = fl_traffic f.
Proof using Hrep. intros Hf. destruct (rep_id t q Hrep f Hf) as (?&?&_&Ee). unfold flow_traffic. by rewrite Ee. Qed.
Lemma flow_len_rep : flow_len t = blen q.
Proof using Hrep. apply (rep_size t q Hrep). Qed.
End table.

Lemma q_arcs_app q1 q2 : q_arcs (q1 ++ q2) = q_arcs q1 ++ q_arcs q2.
Proof. apply omap_app. Qed.
Lemma q_arcs_touch id now q : q_arcs (q_touch id now q) = q_arcs q.
Proof.
  unfold q_arcs, q_touch. induction q as [|f q IH]; [done|]. simpl.
  destruct (fl_id f =? id); simpl; destruct (fl_traffic f); simpl; first [exact IH | f_equal; exact IH].
Qed.
Lemma q_arcs_perm q q' : q ≡ₚ q' → q_arcs q ≡ₚ q_arcs q'.
Proof. intros H. unfold q_arcs. by rewrite H. Qed.
Lemma q_sweep_perm n now idle q : (q_sweep n now idle q).1 ++ (q_sweep n now idle q).2 ≡ₚ q.
Proof.
  unfold q_sweep. simpl. rewrite <- (take_drop n q) at 4. rewrite (Permutation_app_comm (drop n q)), (assoc_L (++)).
  apply Permutation_app_tail. induction (take n q) as [|f l IH]; [done|]. simpl.
  destruct (q_expired now idle f); simpl; [by constructor|].
  rewrite <- IH at 3. symmetry. apply Permutation_middle.
Qed.

(** * Sums *)

Definition lsum {A} (f : A → Z) (l : list A) : Z := foldr (λ x n, f x + n) 0 l.
Lemma lsum_app {A} (f : A → Z) l k : lsum f (l ++ k) = lsum f l + lsum f k.
Proof. induction l as [|x l IH]; simpl; [done|]. rewrite IH. lia. Qed.
Lemma lsum_nonneg {A} (f : A → Z) l : Forall (λ x, 0 ≤ f x) l → 0 ≤ lsum f l.
Proof. induction 1; simpl; lia. Qed.

Lemma msum_insert_at {K A} `{Countable K} (f : A → Z) (m : gmap K A) k x :
  msum f (<[k := x]> m) = f x + msum f m - match m !! k with Some y => f y | None => 0 end.
Proof.
  rewrite <- insert_delete_eq, msum_insert by apply lookup_delete_eq.
  destruct (m !! k) as [y|] eqn:E; [rewrite (msum_delete f m k y) by done; lia|].
  rewrite delete_id by done. lia.
Qed.

(** * The heap of counters *)

Definition counters_nonneg (c : TrafficCounters) : Prop := 0 ≤ received_bytes c ∧ 0 ≤ sent_bytes c.
Definition heap_nonneg (heap : TrafficHeap) : Prop := ∀ a c, heap !! a = Some c → counters_nonneg c.

(** One side of the counters. *)
Class Side (f : TrafficCounters → Z) : Prop := {
  side_default : f TrafficCounters_default = 0;
  side_nonneg c : counters_nonneg c → 0 ≤ f c;
}.
#[export] Instance received_side : Side received_bytes.
Proof. split; [done|]. by intros c []. Qed.
#[export] Instance sent_side : Side sent_bytes.
Proof. split; [done|]. by intros c []. Qed.

Lemma traffic_take_ok a heap :
  is_Some (heap !! a) → heap_nonneg heap →
  let '(c, heap') := traffic_take a heap in
  counters_nonneg c ∧ heap_nonneg heap' ∧ (∀ f, Side f → msum f heap' + f c = msum f heap)
  ∧ heap' !! a = Some TrafficCounters_default ∧ (∀ b, b ≠ a → heap' !! b = heap !! b).
Proof.
  intros [c Hc] Hn. simpl. rewrite Hc. simpl. split_and!.
  - by eapply Hn.
  - intros b d. rewrite lookup_insert_Some. intros [[_ <-]|[_ H]]; [done|]. by eapply Hn.
  - intros f Hf. rewrite msum_insert_at, Hc, side_default. lia.
  - apply lookup_insert_eq.
  - intros b Hb. by apply lookup_insert_ne.
Qed.

Lemma take_each_ok l heap :
  Forall (λ x, is_Some (heap !! x.2)) l → heap_nonneg heap →
  let '(taken, heap') := take_each l heap in
  taken.*1 = l.*1 ∧ Forall (λ x, counters_nonneg x.2) taken ∧ heap_nonneg heap'
  ∧ (∀ f, Side f → msum f heap' + lsum (λ x, f x.2) taken = msum f heap)
  ∧ (∀ a, a ∈ l.*2 → heap' !! a = Some TrafficCounters_default) ∧ (∀ a, a ∉ l.*2 → heap' !! a = heap !! a).
Proof.
  revert heap. induction l as [|[id a] l IH]; intros heap Hl Hn; simpl.
  { split_and!; try done; [intros; lia|by intros a ?%not_elem_of_nil]. }
  apply Forall_cons in Hl as [Ha Hl]. simpl in Ha.
  pose proof (traffic_take_ok a heap Ha Hn) as H. unfold traffic_take in H. destruct H as (H1&H2&H3&H4&H5).
  set (heap1 := <[a := TrafficCounters_default]> heap) in *.
  assert (Forall (λ x, is_Some (heap1 !! x.2)) l) as Hl1.
  { eapply Forall_impl; [exact Hl|]. intros [id' b] Hb. simpl in *. destruct (decide (b = a)) as [->|Hne];
      [by rewrite H4|by rewrite H5]. }
  specialize (IH heap1 Hl1 H2). destruct (take_each l heap1) as [taken heap'].
  destruct IH as (I1&I2&I3&I4&I5&I6). split_and!.
  - rewrite !fmap_cons. by rewrite I1.
  - by constructor.
  - done.
  - intros f Hf. simpl. specialize (I4 f Hf). specialize (H3 f Hf). lia.
  - intros b [->|Hb]%elem_of_cons; [|by apply I5]. destruct (decide (a ∈ l.*2)); [by apply I5|]. by rewrite I6.
  - intros b [Hne Hb]%not_elem_of_cons. rewrite I6 by done. by apply H5.
Qed.

Lemma heap_dom_take (l : list (Z * Arc)) (heap heap' : TrafficHeap) :
  Forall (λ x, is_Some (heap !! x.2)) l →
  (∀ a, a ∈ l.*2 → heap' !! a = Some TrafficCounters_default) → (∀ a, a ∉ l.*2 → heap' !! a = heap !! a) →
  ∀ a, is_Some (heap' !! a) ↔ is_Some (heap !! a).
Proof.
  intros Hl H1 H2 a. destruct (decide (a ∈ l.*2)) as [Hin|Hn]; [|by rewrite H2].
  rewrite H1 by done. apply list_elem_of_fmap in Hin as ([id b]&->&Hin). rewrite Forall_forall in Hl.
  specialize (Hl _ Hin). done.
Qed.

(** Bytes are counted. *)
Lemma on_traffic_insert g a (heap : TrafficHeap) c : heap !! a = Some c → on_traffic g a heap = <[a := g c]> heap.
Proof.
  intros Hc. unfold on_traffic. apply map_eq. intros b. destruct (decide (b = a)) as [->|Hb].
  - by rewrite lookup_alter_eq, lookup_insert_eq, Hc.
  - by rewrite lookup_alter_ne, lookup_insert_ne by done.
Qed.
Lemma traffic_count_nonneg (g : TrafficCounters → TrafficCounters) a heap :
  (∀ c, counters_nonneg c → counters_nonneg (g c)) → heap_nonneg heap → heap_nonneg (on_traffic g a heap).
Proof.
  intros Hg Hn b d Hb. unfold on_traffic in Hb. destruct (decide (b = a)) as [->|Hne].
  - rewrite lookup_alter_eq in Hb. destruct (heap !! a) as [c|] eqn:Hc; [|done]. simpl in Hb. simplify_eq.
    apply Hg. by eapply Hn.
  - rewrite lookup_alter_ne in Hb by done. by eapply Hn.
Qed.
Lemma count_other (f : TrafficCounters → Z) g a (heap : TrafficHeap) :
  (∀ c, f (g c) = f c) → msum f (on_traffic g a heap) = msum f heap.
Proof.
  intros Hg. destruct (heap !! a) as [c|] eqn:Hc.
  - rewrite (on_traffic_insert g a heap c Hc), msum_insert_at, Hc, Hg. lia.
  - unfold on_traffic. rewrite alter_id; [done|]. intros d. by rewrite Hc.
Qed.
Lemma count_side (f : TrafficCounters → Z) `{!Side f} g n a heap :
  (∀ c, f c + n ≤ u64_max → f (g c) = f c + n) → heap_nonneg heap → is_Some (heap !! a) →
  msum f heap + n ≤ u64_max → msum f (on_traffic g a heap) = msum f heap + n.
Proof.
  intros Hg Hn [c Hc] Hle. rewrite (on_traffic_insert g a heap c Hc), msum_insert_at, Hc, Hg; [lia|].
  rewrite (msum_delete f heap a c) in Hle by done.
  assert (0 ≤ msum f (delete a heap)); [|lia]. apply msum_nonneg_in. intros b d. rewrite lookup_delete_Some.
  intros [_ H]. apply side_nonneg. by eapply Hn.
Qed.

(** * The channel *)

Definition pending (c : Channel) : list QueuedUdpMessage :=
  match writer c with WriterBusy q _ => q :: queue c | _ => queue c end.
Definition delivers (a : Arc) (m : QueuedUdpMessage) : Prop :=
  match qm_delivered m with Some (b, _) => b = a | None => False end.
Definition quiet (a : Arc) (l : list QueuedUdpMessage) : Prop := Forall (λ m, ¬ delivers a m) l.
Definition retirements (l : list QueuedUdpMessage) : list Z := omap qm_retired_session l.
Definition delivered_bytes (m : QueuedUdpMessage) : Z :=
  match qm_delivered m with Some (_, n) => n | None => 0 end.
(** The writer has not ended in the middle. *)
Definition unbroken (w : Writer) : bool := match w with WriterDone (Ok _) => true | WriterDone _ => false | _ => true end.

Section relay.
Context `{P : Postcard} (sha256 : list byte → list byte) (cfg : RelayConfig).

Definition encodes (m : QueuedUdpMessage) (encoded : list byte) : Prop :=
  Frame.encode relay_codec (rc_version cfg) 0 (qm_message m) = Ok encoded.
(** The books of the channel; [exact] says that the cleanup has not yet reset the metric of a
    writer that failed. *)
Context {exact : bool}.
Record chan_ok (s : Relay) : Prop := {
  co_len : blen (queue (chan s)) ≤ ul_queue_capacity (rc_limits cfg);
  co_order : ∃ rest, enqueued (chan s) = written (chan s) ++ rest
    ∧ (receiver_open (chan s) = true → rest = pending (chan s));
  co_queued : unbroken (writer (chan s)) = true → um_queued (metrics s) = blen (queue (chan s));
  co_failed : exact = true → unbroken (writer (chan s)) = false →
    blen (enqueued (chan s)) = blen (written (chan s)) + um_queued (metrics s) + 1;
  co_wire : ∃ l, Forall2 encodes (written (chan s)) l ∧ wire (outside s) = concat l;
  co_busy : ∀ q e, writer (chan s) = WriterBusy q e → encodes q e;
  co_done : receiver_open (chan s) = false → queue (chan s) = [];
}.

(** What the channel is made of. *)
Definition same_chan (s s' : Relay) : Prop :=
  queue (chan s') = queue (chan s) ∧ writer (chan s') = writer (chan s)
  ∧ enqueued (chan s') = enqueued (chan s) ∧ written (chan s') = written (chan s)
  ∧ um_queued (metrics s') = um_queued (metrics s) ∧ wire (outside s') = wire (outside s).
Lemma chan_same s s' : same_chan s s' → chan_ok s → chan_ok s'.
Proof.
  intros (E1&E2&E3&E4&E5&E6) [H1 H2 H3 Hf H4 H5 H6]. unfold receiver_open, pending in *.
  split; unfold receiver_open, pending; rewrite ?E1, ?E2, ?E3, ?E4, ?E5, ?E6; done.
Qed.
Lemma enqueue_chan s m d r :
  chan_ok s → chan_ok (try_enqueue cfg s m d r).2.
Proof.
  intros [H1 H2 H3 Hf H4 H5 H6]. unfold try_enqueue. simpl.
  destruct (negb (receiver_open (chan s))) eqn:Ho; [|destruct (Z.leb_spec (ul_queue_capacity (rc_limits cfg)) (blen (queue (chan s))))].
  - split; simpl; try done; [intros Hu; rewrite <- H3 by done; lia|].
    intros Hx Hu. rewrite (Hf Hx Hu). lia.
  - split; simpl; try done; [intros Hu; rewrite <- H3 by done; lia|].
    intros Hx Hu. rewrite (Hf Hx Hu). lia.
  - apply negb_false_iff in Ho. destruct H2 as (rest&E&Hr). split; simpl; try done.
    + rewrite blen_app. change (blen [_]) with 1. lia.
    + eexists. split; [by rewrite E, <- (assoc_L (++))|]. intros _. rewrite Hr by done.
      unfold pending. simpl. by destruct (writer (chan s)).
    + intros Hu. rewrite H3, blen_app by done. done.
    + intros _ Hu. unfold receiver_open in Ho. by destruct (writer (chan s)).
    + unfold receiver_open in *. simpl. congruence.
Qed.

Ltac same_chan := apply chan_same; by split_and!.
Lemma retire_loop_chan expired s : chan_ok s → chan_ok (retire_loop cfg expired s).2.
Proof.
  revert s. induction expired as [|e expired IH]; intros s Hs; simpl; [done|].
  match goal with |- context [try_enqueue cfg ?x ?m ?d ?r] => assert (chan_ok x) as Hx; [|pose proof (enqueue_chan x m d r Hx) as H] end.
  { destruct (retired_traffic (sess s)), (ef_observed_traffic e); revert Hs; same_chan. }
  destruct (try_enqueue _ _ _ _ _) as [[] s']; simpl in *; [by apply IH| |done]. revert H. same_chan.
Qed.
Lemma on_sweep_chan batch now s : chan_ok s → chan_ok (on_sweep cfg batch now s).2.
Proof.
  intros Hs. unfold on_sweep. destruct (sweep_expired _ _ _ _) as [[expired t]| |]; [|done|done].
  case_bool_decide; [|apply retire_loop_chan]; revert Hs; same_chan.
Qed.
Lemma flow_for_chan entropy key now s : chan_ok s → chan_ok (flow_for cfg entropy key now s).2.
Proof. intros Hs. unfold flow_for. destruct (session_for _ _ _ _ _) as [r t]. revert Hs. same_chan. Qed.
Lemma on_public_chan received entropy now millis s :
  chan_ok s → chan_ok (on_public sha256 cfg received entropy now millis s).2.
Proof.
  intros Hs. unfold on_public. destruct received as [[]|bytes source]; [revert Hs; same_chan|done|].
  destruct (_ <? blen _); [revert Hs; same_chan|].
  pose proof (flow_for_chan entropy {| fk_source := canonical_socket_addr source; fk_destination := public_destination cfg |} now s Hs) as H.
  destruct (flow_for _ _ _ _ _) as [[[id inserted]|[]|] s1]; simpl in H |- *; try done; [|revert H; same_chan].
  destruct (bounded_try_from _ _) as [payload| |]; simpl; [|revert H; same_chan..].
  match goal with |- context [try_enqueue cfg ?x ?m ?d ?r] => assert (chan_ok x) as Hx; [|pose proof (enqueue_chan x m d r Hx) as H2] end.
  { revert H; same_chan. }
  destruct (try_enqueue _ _ _ _ _) as [[] s2]; simpl in H2 |- *; [| |done].
  - destruct inserted; [|done]. unfold open_udp_session. destruct (rc_observability cfg); [|revert H2; same_chan].
    destruct (bounded_label _); revert H2; same_chan.
  - destruct inserted; revert H2; same_chan.
Qed.
Lemma on_frame_chan frame sent now s : chan_ok s → chan_ok (on_frame cfg frame sent now s).2.
Proof.
  intros Hs. unfold on_frame. destruct frame as [frame| |]; [|done|done].
  destruct (negb _); [done|]. destruct (frame_message frame); try done.
  destruct (negb _); [done|]. destruct (_ <? _); [revert Hs; same_chan|].
  destruct (validate_reply _ _ _ _ _) as [valid t]. destruct (negb valid); [revert Hs; same_chan|].
  destruct sent as [| |n]; [revert Hs; same_chan..|]. destruct (negb _); [revert Hs; same_chan|].
  assert (∀ x, chan_ok x → chan_ok (count_reply (ud_session_id m) n x)) as Hc.
  { intros x Hx. unfold count_reply. simpl. destruct (flow_traffic _ _); revert Hx; same_chan. }
  match goal with |- context [count_reply ?i ?n ?x] => assert (chan_ok (count_reply i n x)) end.
  { apply Hc. revert Hs; same_chan. }
  case_bool_decide; done.
Qed.
Lemma flush_chan s : chan_ok s → chan_ok (on_flush sha256 cfg s).
Proof.
  intros Hs. unfold on_flush, flush_retired, flush_sessions. destruct (take_observed_traffic _ _) as [p h]. simpl.
  destruct (take_each _ _) as [p' h']. revert Hs; same_chan.
Qed.
Lemma on_retired_chan millis s : chan_ok s → chan_ok (on_retired sha256 cfg millis s).2.
Proof.
  intros Hs. unfold on_retired. destruct (acks (chan s)) as [|id rest]; [done|].
  destruct (retired_traffic (sess s)) as [r|]; [|done].
  destruct (r !! id) as [[a reason]|]; revert Hs; same_chan.
Qed.
Lemma after_chan x : chan_ok x.2 → chan_ok (after x).
Proof. intros Hs. unfold after. destruct x.1; revert Hs; same_chan. Qed.

(** The writer. *)
Lemma writer_ends_chan s s0 (r : res UdpRelayError ()) :
  chan_ok s → enqueued (chan s0) = enqueued (chan s) → written (chan s0) = written (chan s) →
  wire (outside s0) = wire (outside s) → 
  (if unbroken (WriterDone r) then um_queued (metrics s0) = 0
   else um_queued (metrics s0) + 1 = blen (pending (chan s)) ∧ receiver_open (chan s) = true) →
  chan_ok (writer_ends r s0).
Proof.
  intros [H1 H2 H3 H4 H5 H6] E1 E2 E3 Hr. split; simpl; rewrite ?E1, ?E2, ?E3; try done.
  - pose proof (blen_nonneg (queue (chan s))). change (blen []) with 0. lia.
  - destruct H2 as (rest&E&_). by exists rest.
  - intros Hu. change (blen []) with 0. simpl in Hr. by rewrite Hu in Hr.
  - intros _ Hu. simpl in Hr. rewrite Hu in Hr. destruct Hr as [Hr Ho].
    destruct H2 as (rest&->&Hrest). rewrite (Hrest Ho), blen_app. lia.
Qed.
Lemma writer_stop_chan s : chan_ok s → receiver_open (chan s) = true → chan_ok (writer_stop s).
Proof.
  intros Hs Ho. apply (writer_ends_chan s); try done. simpl. destruct Hs as [H1 H2 H3 H4 H5 H6].
  rewrite H3; [lia|]. unfold receiver_open in Ho. by destruct (writer (chan s)).
Qed.
Lemma writer_take_chan q rest s :
  writer (chan s) = WriterIdle → queue (chan s) = q :: rest → chan_ok s → chan_ok (writer_take cfg q rest s).
Proof.
  intros Ew Eq Hs. pose proof Hs as [H1 H2 H3 Hf H4 H5 H6]. unfold writer_take.
  assert (um_queued (metrics s) = blen (pending (chan s))) as Hp.
  { rewrite H3 by (by rewrite Ew). unfold pending. by rewrite Ew. }
  destruct (Frame.encode _ _ _ _) as [encoded| |] eqn:Ee;
    [|apply (writer_ends_chan s); try done; simpl; split; [lia|unfold receiver_open; by rewrite Ew]..].
  rewrite Eq in *. rewrite blen_cons in *. split; simpl; try done.
  - lia.
  - destruct H2 as (x&E&Hx). exists x. split; [done|]. intros _. unfold receiver_open, pending in *. simpl.
    rewrite Ew in Hx. rewrite Eq in Hx. by apply Hx.
  - intros _. rewrite H3 by (by rewrite Ew). lia.
  - intros q' e' [= <- <-]. exact Ee.
Qed.
Lemma writer_wrote_chan q e s : writer (chan s) = WriterBusy q e → chan_ok s → chan_ok (writer_wrote q e s).
Proof.
  intros Ew [H1 H2 H3 _ (l&Hl&El) H5 _]. specialize (H5 q e Ew).
  assert (∃ x, enqueued (chan s) = (written (chan s) ++ [q]) ++ x ∧ x = queue (chan s)) as (x&Ex&->).
  { destruct H2 as (x&E&Hx). unfold receiver_open, pending in Hx. rewrite Ew in Hx. rewrite Hx in E by done.
    eexists. split; [|done]. by rewrite <- (assoc_L (++)). }
  unfold writer_wrote. assert (chan_ok (write_message q e s)) as Hy.
  { split; simpl; try done.
    - by eexists.
    - intros _. rewrite H3; [done|]. by rewrite Ew.
    - exists (l ++ [e]). split; [by apply Forall2_app; [|constructor]|]. rewrite concat_app, El. simpl. by rewrite app_nil_r. }
  destruct (qm_delivered q) as [[a n]|]; [|done]. revert Hy. same_chan.
Qed.
Lemma cleanup_chan millis s :
  receiver_open (chan s) = false → exact = false → chan_ok s → chan_ok (cleanup_relay sha256 cfg millis s).
Proof.
  intros Ew Ex [H1 H2 H3 Hf H4 H5 H6]. specialize (H6 Ew). unfold cleanup_relay, flush_sessions.
  destruct (take_observed_traffic _ _) as [p h]. simpl. destruct (close_retired _ _ _ _ _ _) as [cl h'].
  split; simpl; try done; [intros _; by rewrite H6|congruence].
Qed.
End relay.

Lemma chan_weaken `{P : Postcard} cfg (exact : bool) s : chan_ok (exact := true) cfg s → chan_ok (exact := exact) cfg s.
Proof. intros [H1 H2 H3 Hf H4 H5 H6]. split; try done. intros _. by apply Hf. Qed.

(** * Counters of live sessions *)

Record arcs_ok (heap : TrafficHeap) (next : Arc) (live : list (Z * Arc)) (pend : list QueuedUdpMessage) : Prop := {
  ao_dom : ∀ a, is_Some (heap !! a) ↔ (a < next)%nat;
  ao_live : Forall (λ x, (x.2 < next)%nat) live;
  ao_arcs : NoDup live.*2;
  ao_ids : NoDup live.*1;
  ao_dead : ∀ a c, heap !! a = Some c → a ∉ live.*2 → c = TrafficCounters_default;
  ao_nonneg : heap_nonneg heap;
  ao_pending : Forall (λ m, ∀ a n, qm_delivered m = Some (a, n) → a ∈ live.*2 ∧ 0 ≤ n) pend;
}.

Lemma arcs_perm heap next live live' pend :
  live ≡ₚ live' → arcs_ok heap next live pend → arcs_ok heap next live' pend.
Proof.
  intros E [H1 H2 H3 H4 H5 H6 H7]. split; [done|by rewrite <- E..|intros a c Ha; rewrite <- E; by apply H5|done|].
  eapply Forall_impl; [exact H7|]. intros m Hm a n. rewrite <- E. apply Hm.
Qed.

Lemma arcs_take l heap next live pend :
  arcs_ok heap next live pend → (∀ x, x ∈ l → x ∈ live) →
  let '(taken, heap') := take_each l heap in
  arcs_ok heap' next live pend ∧ taken.*1 = l.*1 ∧ Forall (λ x, counters_nonneg x.2) taken
  ∧ (∀ f, Side f → msum f heap' + lsum (λ x, f x.2) taken = msum f heap)
  ∧ (∀ a, a ∈ l.*2 → heap' !! a = Some TrafficCounters_default).
Proof.
  intros [H1 H2 H3 H4 H5 H6 H7] Hin.
  assert (Forall (λ x, is_Some (heap !! x.2)) l) as Hl.
  { apply Forall_forall. intros x Hx. apply H1. rewrite Forall_forall in H2. by apply H2, Hin. }
  pose proof (take_each_ok l heap Hl H6) as H. destruct (take_each l heap) as [taken heap'].
  destruct H as (T1&T2&T3&T4&T5&T6). split_and!; try done. split; try done.
  - intros a. by rewrite (heap_dom_take l heap heap' Hl T5 T6).
  - intros a c Ha Hn. destruct (decide (a ∈ l.*2)) as [Hd|Hd]; [rewrite T5 in Ha by done; congruence|].
    rewrite T6 in Ha by done. by apply (H5 a).
Qed.

Lemma arcs_fresh heap next live pend id :
  arcs_ok heap next live pend → id ∉ live.*1 →
  arcs_ok (<[next := TrafficCounters_default]> heap) (S next) ((id, next) :: live) pend.
Proof.
  intros [H1 H2 H3 H4 H5 H6 H7] Hid.
  assert (next ∉ live.*2) as Hn.
  { intros ([i a]&E&Hx)%list_elem_of_fmap. simpl in E. subst a. rewrite Forall_forall in H2. specialize (H2 _ Hx).
    simpl in H2. lia. }
  split.
  - intros a. destruct (decide (a = next)) as [->|Hne]; [rewrite lookup_insert_eq; split; [lia|done]|].
    rewrite lookup_insert_ne, H1 by done. lia.
  - constructor; [simpl; lia|]. eapply Forall_impl; [exact H2|]. simpl. lia.
  - rewrite fmap_cons. by constructor.
  - rewrite fmap_cons. by constructor.
  - intros a c. rewrite lookup_insert_Some. intros [[_ <-]|[Hne Ha]] Hni; [done|].
    apply (H5 a c Ha). intros Hx. apply Hni. rewrite fmap_cons. by right.
  - intros a c. rewrite lookup_insert_Some. intros [[_ <-]|[_ Ha]]; [done|by eapply H6].
  - eapply Forall_impl; [exact H7|]. simpl. intros m Hm a n E. destruct (Hm a n E). split; [by right|done].
Qed.

Lemma arcs_drop heap next live pend x :
  arcs_ok heap next (x :: live) pend → heap !! x.2 = Some TrafficCounters_default → quiet x.2 pend →
  arcs_ok heap next live pend.
Proof.
  intros [H1 H2 H3 H4 H5 H6 H7] Hx Hq. rewrite fmap_cons in H3. rewrite fmap_cons in H4. apply Forall_cons in H2 as [_ H2].
  apply NoDup_cons in H3 as [_ H3]. apply NoDup_cons in H4 as [_ H4]. split; try done.
  - intros a c Ha Hn. destruct (decide (a = x.2)) as [->|Hne]; [congruence|]. apply (H5 a c Ha).
    rewrite fmap_cons, not_elem_of_cons. done.
  - apply Forall_forall. intros m Hm a n E. unfold quiet in Hq. rewrite Forall_forall in H7, Hq.
    destruct (H7 m Hm a n E) as [Ha Hz]. split; [|done]. rewrite fmap_cons, elem_of_cons in Ha.
    destruct Ha as [->|Ha]; [|done]. destruct (Hq m Hm). unfold delivers. by rewrite E.
Qed.

Lemma arcs_pending heap next live pend pend' :
  arcs_ok heap next live pend → (∀ m, m ∈ pend' → m ∈ pend ∨ ∀ a n, qm_delivered m = Some (a, n) → a ∈ live.*2 ∧ 0 ≤ n) →
  arcs_ok heap next live pend'.
Proof.
  intros [H1 H2 H3 H4 H5 H6 H7] Hp. split; try done. apply Forall_forall. intros m Hm.
  destruct (Hp m Hm) as [Hin|H]; [|done]. rewrite Forall_forall in H7. by apply H7.
Qed.

Lemma arcs_count g a heap next live pend :
  arcs_ok heap next live pend → a ∈ live.*2 → heap_nonneg (on_traffic g a heap) →
  arcs_ok (on_traffic g a heap) next live pend.
Proof.
  intros [H1 H2 H3 H4 H5 H6 H7] Ha Hn. split; try done.
  - intros b. unfold on_traffic. rewrite <- H1. destruct (decide (b = a)) as [->|Hne];
      [by rewrite lookup_alter_eq, fmap_is_Some|by rewrite lookup_alter_ne].
  - intros b c Hb Hnb. unfold on_traffic in Hb. destruct (decide (b = a)) as [->|Hne]; [done|].
    rewrite lookup_alter_ne in Hb by done. by apply (H5 b).
Qed.

(** * Retirements *)

Record retire_ok (retired : list (Z * Arc)) (acks : list Z) (pend : list QueuedUdpMessage) : Prop := {
  rt_unique : NoDup (acks ++ retirements pend);
  rt_known : ∀ id, id ∈ acks ++ retirements pend → id ∈ retired.*1;
  rt_acked : ∀ id a, (id, a) ∈ retired → id ∈ acks → quiet a pend;
  rt_last : ∀ p1 m p2 id a, pend = p1 ++ m :: p2 → qm_retired_session m = Some id → (id, a) ∈ retired → quiet a p2;
}.

Lemma quiet_app a l k : quiet a (l ++ k) ↔ quiet a l ∧ quiet a k.
Proof. apply Forall_app. Qed.
Lemma retirements_app l k : retirements (l ++ k) = retirements l ++ retirements k.
Proof. apply omap_app. Qed.

(** A datagram is queued: it does not deliver to a retired session. *)
Lemma retire_datagram retired acks pend m :
  retire_ok retired acks pend → qm_retired_session m = None → (∀ id a, (id, a) ∈ retired → ¬ delivers a m) →
  retire_ok retired acks (pend ++ [m]).
Proof.
  intros [H1 H2 H3 H4] Hm Hd. assert (retirements (pend ++ [m]) = retirements pend) as E.
  { rewrite retirements_app. unfold retirements at 2. simpl. rewrite Hm. by rewrite app_nil_r. }
  split; rewrite ?E; try done.
  - intros id a Hin Ha. apply quiet_app. split; [by eapply H3|]. constructor; [by eapply Hd|done].
  - intros p1 m' p2 id a Eq Hr Hin. apply app_split in Eq as [(r&->&->)|(r&Er&->)].
    + apply quiet_app. split; [by eapply (H4 p1 m' r)|]. constructor; [by eapply Hd|done].
    + destruct r as [|y r]; simpl in Er; [|by destruct r]. injection Er as <- <-. by constructor.
Qed.
(** A session is retired and its retirement queued. *)
Lemma retire_session retired retired' acks pend m id a :
  retire_ok retired acks pend → id ∉ retired.*1 → retired' ≡ₚ (id, a) :: retired →
  qm_retired_session m = Some id → qm_delivered m = None →
  retire_ok retired' acks (pend ++ [m]).
Proof.
  intros [H1 H2 H3 H4] Hid Ep Hm Hd.
  assert (retirements (pend ++ [m]) = retirements pend ++ [id]) as E.
  { rewrite retirements_app. f_equal. unfold retirements. simpl. by rewrite Hm. }
  assert (∀ b, ¬ delivers b m) as Hq by (intros b; unfold delivers; rewrite Hd; by intros []).
  split; rewrite ?E.
  - rewrite (assoc_L (++)). apply NoDup_app. split_and!; [done| |apply NoDup_singleton].
    intros x Hx ->%list_elem_of_singleton. by apply Hid, H2.
  - intros x. rewrite (assoc_L (++)), elem_of_app, list_elem_of_singleton, Ep, fmap_cons, elem_of_cons.
    intros [Hx| ->]; [right; by apply H2|by left].
  - intros id' b. rewrite Ep, elem_of_cons. intros [E'|Hin] Ha.
    + injection E' as -> ->. exfalso. apply Hid, H2. apply elem_of_app. by left.
    + apply quiet_app. split; [by eapply H3|]. by constructor.
  - intros p1 m' p2 id' b Eq Hr. rewrite Ep, elem_of_cons. intros Hin. apply app_split in Eq as [(r&->&->)|(r&Er&->)].
    + apply quiet_app. split; [|by constructor]. destruct Hin as [E'|Hin]; [|by eapply (H4 p1 m' r)].
      injection E' as -> ->. exfalso. apply Hid, H2. apply elem_of_app. right.
      rewrite retirements_app. apply elem_of_app. right. unfold retirements. simpl. rewrite Hr. by left.
    + destruct r as [|y r]; simpl in Er; [|by destruct r]. injection Er as <- <-. by constructor.
Qed.
(** The first pending message is written, or all are dropped. *)
Lemma retire_written retired acks m pend :
  retire_ok retired acks (m :: pend) →
  retire_ok retired (match qm_retired_session m with Some id => acks ++ [id] | None => acks end) pend.
Proof.
  intros [H1 H2 H3 H4]. unfold retirements in H1, H2. simpl in H1, H2.
  assert (∀ p1 m' p2 id a, pend = p1 ++ m' :: p2 → qm_retired_session m' = Some id → (id, a) ∈ retired → quiet a p2) as Hl.
  { intros p1 m' p2 id a -> Hr Hin. by eapply (H4 (m :: p1) m' p2). }
  assert (∀ id a, (id, a) ∈ retired → id ∈ acks → quiet a pend) as Ha.
  { intros id a Hin Hx. specialize (H3 id a Hin Hx). unfold quiet in H3. by apply Forall_cons in H3 as [_ H3]. }
  destruct (qm_retired_session m) as [id|] eqn:Em; simpl in *; [|by split].
  split.
  - by rewrite <- (assoc_L (++)).
  - intros x. rewrite <- (assoc_L (++)). apply H2.
  - intros id' a Hin. rewrite elem_of_app, list_elem_of_singleton. intros [Hx| ->]; [by eapply Ha|].
    by eapply (H4 [] m pend).
  - done.
Qed.
Lemma retire_dropped retired acks pend : retire_ok retired acks pend → retire_ok retired acks [].
Proof.
  intros [H1 H2 H3 H4]. unfold retirements in *. split; simpl; rewrite ?app_nil_r.
  - by apply NoDup_app in H1 as [H1 _].
  - intros id Hid. apply H2, elem_of_app. by left.
  - intros; by constructor.
  - intros p1 m p2 id a E. by destruct p1.
Qed.
(** The first acknowledgement is taken. *)
Lemma retire_acked retired retired' id acks pend :
  retire_ok retired (id :: acks) pend → NoDup retired.*1 → (∀ x, x ∈ retired' ↔ x ∈ retired ∧ x.1 ≠ id) →
  retire_ok retired' acks pend.
Proof.
  intros [H1 H2 H3 H4] Hnd Hr. simpl in H1. apply NoDup_cons in H1 as [Hid H1]. split; [done| | |].
  - intros x Hx. assert (x ∈ retired.*1) as ([i a]&->&Hin)%list_elem_of_fmap by (apply H2; by right).
    apply (list_elem_of_fmap_2 fst retired' (i, a)). apply Hr. split; [done|]. simpl. intros ->. by apply Hid.
  - intros i a [Hin _]%Hr Ha. apply (H3 i); [done|]. by right.
  - intros p1 m p2 i a E Em [Hin _]%Hr. by eapply (H4 p1 m p2).
Qed.

(** * What is reported *)

Definition opened (l : list ObservationEvent) : list (list byte) :=
  omap (λ e, match e with UdpSessionOpened _ id _ _ => Some id | _ => None end) l.
Definition ended (l : list ObservationEvent) : list (list byte) :=
  omap (λ e, match e with UdpSessionClosed _ id _ _ => Some id | _ => None end) l.
Definition reported (f : TrafficCounters → Z) (l : list ObservationEvent) : Z :=
  lsum (λ e, match e with ByteCounterDelta _ _ c => f c | _ => 0 end) l.

(** One side of the counters: what is reported and what is still counted is all there was. *)
Definition side_ok (f : TrafficCounters → Z) (total : Z) (heap : TrafficHeap) (l : list ObservationEvent) : Prop :=
  0 ≤ reported f l ∧ (total ≤ u64_max → msum f heap + reported f l = total).

Lemma opened_app l k : opened (l ++ k) = opened l ++ opened k.
Proof. apply omap_app. Qed.
Lemma ended_app l k : ended (l ++ k) = ended l ++ ended k.
Proof. apply omap_app. Qed.
Lemma reported_app f l k : reported f (l ++ k) = reported f l + reported f k.
Proof. apply lsum_app. Qed.

Section relay.
Context `{P : Postcard} (sha256 : list byte → list byte) (cfg : RelayConfig).
#[local] Notation short := (observed_udp_session_id sha256).

Lemma flush_entry_facts id c :
  opened (flush_udp_traffic_entry sha256 cfg id c) = [] ∧ ended (flush_udp_traffic_entry sha256 cfg id c) = []
  ∧ ∀ f, Side f → reported f (flush_udp_traffic_entry sha256 cfg id c) = f c.
Proof.
  unfold flush_udp_traffic_entry. case_bool_decide as E; [|split_and!; try done; intros f Hf; unfold reported; simpl; lia].
  split_and!; try done. intros f Hf. subst c. by rewrite side_default.
Qed.
Lemma flush_facts l :
  opened (flush_udp_traffic sha256 cfg l) = [] ∧ ended (flush_udp_traffic sha256 cfg l) = []
  ∧ ∀ f, Side f → reported f (flush_udp_traffic sha256 cfg l) = lsum (λ x, f x.2) l.
Proof.
  unfold flush_udp_traffic. induction l as [|[id c] l (I1&I2&I3)]; simpl; [done|].
  destruct (flush_entry_facts id c) as (F1&F2&F3). rewrite opened_app, ended_app, F1, F2, I1, I2.
  split_and!; try done. intros f Hf. by rewrite reported_app, F3, I3.
Qed.
Lemma close_facts id reason millis :
  opened (observe_udp_close sha256 cfg id reason millis) = []
  ∧ (rc_observability cfg = true → ended (observe_udp_close sha256 cfg id reason millis) = [short id])
  ∧ ∀ f, reported f (observe_udp_close sha256 cfg id reason millis) = 0.
Proof. unfold observe_udp_close. by destruct (rc_observability cfg). Qed.
Lemma close_each_facts l reason millis i :
  opened (close_each sha256 cfg l reason millis i) = []
  ∧ (rc_observability cfg = true → ended (close_each sha256 cfg l reason millis i) = short <$> l)
  ∧ ∀ f, reported f (close_each sha256 cfg l reason millis i) = 0.
Proof.
  revert i. induction l as [|id l IH]; intros i; simpl; [done|]. destruct (IH (S i)) as (I1&I2&I3).
  destruct (close_facts id reason (millis i)) as (C1&C2&C3). rewrite opened_app, ended_app, C1, I1. split_and!; [done| |].
  - intros Ho. by rewrite C2, I2.
  - intros f. by rewrite reported_app, C3, I3.
Qed.

Lemma side_take f total heap heap' l taken :
  Side f → side_ok f total heap l → Forall (λ x, counters_nonneg x.2) taken →
  msum f heap' + lsum (λ x, f x.2) taken = msum f heap → ∀ k, reported f k = lsum (λ x : Z * TrafficCounters, f x.2) taken →
  side_ok f total heap' (l ++ k).
Proof.
  intros Hf [H1 H2] Hn E k Ek. unfold side_ok. rewrite reported_app, Ek.
  assert (0 ≤ lsum (λ x : Z * TrafficCounters, f x.2) taken).
  { apply lsum_nonneg. eapply Forall_impl; [exact Hn|]. intros x. apply side_nonneg. }
  split; [lia|]. intros Ht. specialize (H2 Ht). lia.
Qed.
Lemma side_quiet f total heap l k : reported f k = 0 → side_ok f total heap l → side_ok f total heap (l ++ k).
Proof. intros E [H1 H2]. unfold side_ok. rewrite reported_app, E. split; [lia|]. intros Ht. specialize (H2 Ht). lia. Qed.

(** * The invariant *)

Definition live (x : Sessions) (q : Flows) (lost : list (Z * Arc)) : list (Z * Arc) :=
  q_arcs q ++ retired_arcs x ++ lost.
Definition reply_bytes (o : Outside) : Z := lsum (λ x, blen x.2) (replies o).

Record relay_inv (s : Relay) (q : Flows) (lost : list (Z * Arc)) (extra : list (list byte)) : Prop := {
  ri_rep : flows_rep (flows (sess s)) q;
  ri_cap : ft_capacity (flows (sess s)) = rc_max_sessions cfg;
  ri_obs : ft_observe_traffic (flows (sess s)) = rc_observability cfg;
  ri_traffic : Forall (λ f, is_Some (fl_traffic f) ↔ rc_observability cfg = true) q;
  ri_retired : is_Some (retired_traffic (sess s)) ↔ rc_observability cfg = true;
  ri_arcs : arcs_ok (traffic (sess s)) (next_arc (sess s)) (live (sess s) q lost) (pending (chan s));
  ri_received : side_ok received_bytes (lsum delivered_bytes (written (chan s))) (traffic (sess s)) (events (outside s));
  ri_sent : rc_observability cfg = true →
    side_ok sent_bytes (reply_bytes (outside s)) (traffic (sess s)) (events (outside s));
  ri_sessions : rc_observability cfg = true →
    opened (events (outside s)) ++ extra ≡ₚ ended (events (outside s)) ++ (short <$> (live (sess s) q lost).*1);
  ri_sources : Forall (λ f, fk_source (fl_key f) ∈ accepted_from (outside s)) q;
  ri_replies : Forall (λ x, x.1 ∈ accepted_from (outside s)) (replies (outside s));
}.
Definition retire_inv (s : Relay) : Prop := retire_ok (retired_arcs (sess s)) (acks (chan s)) (pending (chan s)).

(** The counters are read and reported. *)
Lemma take_inv s q lost extra l :
  relay_inv s q lost extra → (∀ x, x ∈ l → x ∈ live (sess s) q lost) →
  let '(taken, heap) := take_each l (traffic (sess s)) in
  ∀ k, opened k = [] → ended k = [] → (∀ f, Side f → reported f k = lsum (λ x, f x.2) taken) →
  relay_inv (observe (with_sess s (with_traffic (sess s) heap)) k) q lost extra
  ∧ (∀ a, a ∈ l.*2 → heap !! a = Some TrafficCounters_default).
Proof.
  intros [] Hin. pose proof (arcs_take l _ _ _ _ ri_arcs0 Hin) as H.
  destruct (take_each l (traffic (sess s))) as [taken heap]. destruct H as (A1&A2&A3&A4&A5).
  intros k Ko Ke Kr. split; [|done]. split; simpl; try done.
  - eapply side_take; [apply _|done|exact A3|by apply A4, _|by apply Kr, _].
  - intros Ho. eapply side_take; [apply _|by apply ri_sent0|exact A3|by apply A4, _|by apply Kr, _].
  - intros Ho. rewrite opened_app, ended_app, Ko, Ke, !app_nil_r. by apply ri_sessions0.
Qed.
End relay.
