(* ===== verification/UdpRelaySteps.v ===== *)
(** Every step of the relay keeps its invariant. *)

From S2P Require Import Prelude.
From S2P Require Import Postcard.
From S2P Require Import Messages.
From S2P Require Import Events.
From S2P Require Import Limiter.
From S2P Require Import Frame.
From S2P Require Import UdpFlows.
From S2P Require Import UdpFlowsFacts.
From S2P Require Import UdpRelay.
From S2P Require Import UdpRelayFacts.
From Stdlib Require Import Strings.Byte.
From stdpp Require Import prelude gmap list.

#[local] Open Scope Z_scope.

Section relay.
Context `{P : Postcard} (sha256 : list byte → list byte) (cfg : RelayConfig).
#[local] Notation relay_inv := (relay_inv sha256 cfg).
#[local] Notation short := (observed_udp_session_id sha256).

(** What holds while the relay runs, when its loop has been left, and always. *)
Definition relaying_ok (s : Relay) : Prop :=
  ∃ q, relay_inv s q [] [] ∧ retire_inv s ∧ um_sessions (metrics s) = blen q.
Definition closing_ok (r : res UdpRelayError ()) (s : Relay) : Prop :=
  ∃ q lost extra, relay_inv s q lost extra ∧ (r ≠ Err RetirementDeliveryFailed → lost = [])
    ∧ (r ≠ Err DataChannelClosed → extra = []) ∧ (length extra ≤ 1)%nat.
Definition replies_ok (s : Relay) : Prop :=
  Forall (λ x, x.1 ∈ accepted_from (outside s)) (replies (outside s)).
Definition flow_ok (x : Flowing * Relay) : Prop :=
  match x.1 with
  | Continue => relaying_ok x.2
  | Break r => closing_ok r x.2
  | Abandon _ | Crash => replies_ok x.2
  end.

Lemma inv_metrics s q lost extra m : relay_inv s q lost extra → relay_inv (with_metrics s m) q lost extra.
Proof. intros []. by split. Qed.
Lemma inv_phase s q lost extra p : relay_inv s q lost extra → relay_inv (with_phase s p) q lost extra.
Proof. intros []. by split. Qed.
Lemma inv_perm s q lost extra q' lost' :
  relay_inv s q lost extra → flows_rep (flows (sess s)) q' → live (sess s) q lost ≡ₚ live (sess s) q' lost' →
  Forall (λ f, is_Some (fl_traffic f) ↔ rc_observability cfg = true) q' →
  Forall (λ f, fk_source (fl_key f) ∈ accepted_from (outside s)) q' → relay_inv s q' lost' extra.
Proof.
  intros [] Hrep Ep Ht Hs. split; try done; [by eapply arcs_perm|]. intros Ho. rewrite <- Ep. by apply ri_sessions.
Qed.
Lemma relaying_closing s r : relaying_ok s → closing_ok r s.
Proof. intros (q&H&_). exists q, [], []. split_and!; try done. simpl. lia. Qed.
Lemma relaying_replies s : relaying_ok s → replies_ok s.
Proof. intros (q&[]&_). done. Qed.
Lemma relaying_metrics s m : um_sessions m = um_sessions (metrics s) → relaying_ok s → relaying_ok (with_metrics s m).
Proof. intros E (q&H&Hr&Hs). exists q. split_and!; [by apply inv_metrics|done|by rewrite <- Hs]. Qed.

(** * Flushes *)

Lemma lsum_filter (f : TrafficCounters → Z) `{!Side f} (l : list (Z * TrafficCounters)) :
  lsum (λ x, f x.2) (List.filter (λ x, negb (bool_decide (x.2 = TrafficCounters_default))) l) = lsum (λ x, f x.2) l.
Proof.
  induction l as [|[id c] l IH]; simpl; [done|]. case_bool_decide as E; simpl; [|lia].
  rewrite IH, E, side_default. lia.
Qed.
Lemma flush_sessions_inv s q lost extra :
  relay_inv s q lost extra →
  relay_inv (flush_sessions sha256 cfg s) q lost extra
  ∧ (∀ x, x ∈ q_arcs q → traffic (sess (flush_sessions sha256 cfg s)) !! x.2 = Some TrafficCounters_default).
Proof.
  intros H. unfold flush_sessions, take_observed_traffic.
  pose proof (observed_flows_rep _ _ (ri_rep _ _ _ _ _ _ H)) as Ep.
  pose proof (take_inv sha256 cfg s q lost extra (observed_flows (flows (sess s))) H) as Ht.
  destruct (take_each _ _) as [taken heap]. simpl.
  set (kept := List.filter _ taken). destruct (flush_facts sha256 cfg kept) as (F1&F2&F3).
  destruct (Ht) with (k := flush_udp_traffic sha256 cfg kept) as [Hi Hz]; try done.
  - intros x. rewrite Ep. unfold live. rewrite elem_of_app. auto.
  - intros f Hf. rewrite F3 by done. apply (lsum_filter f).
  - split; [exact Hi|]. intros x Hx. apply Hz. rewrite Ep. by apply list_elem_of_fmap_2.
Qed.
Lemma flush_retired_inv s q lost extra : relay_inv s q lost extra → relay_inv (flush_retired sha256 cfg s) q lost extra.
Proof.
  intros H. unfold flush_retired.
  pose proof (take_inv sha256 cfg s q lost extra (retired_arcs (sess s)) H) as Ht.
  destruct (take_each _ _) as [taken heap]. destruct (flush_facts sha256 cfg taken) as (F1&F2&F3).
  apply Ht; try done. intros x Hx. unfold live. rewrite !elem_of_app. auto.
Qed.
Lemma on_flush_ok s : relaying_ok s → relaying_ok (on_flush sha256 cfg s).
Proof.
  intros (q&H&Hr&Hs). exists q. unfold on_flush. split_and!.
  - by apply flush_retired_inv, flush_sessions_inv.
  - unfold flush_retired, flush_sessions. destruct (take_observed_traffic _ _). simpl. by destruct (take_each _ _).
  - unfold flush_retired, flush_sessions. destruct (take_observed_traffic _ _). simpl. by destruct (take_each _ _).
Qed.

(** * Acknowledgements *)

Lemma retired_delete (r : gmap Z (Arc * list byte)) id a reason :
  r !! id = Some (a, reason) →
  (λ y : Z * (Arc * list byte), (y.1, y.2.1)) <$> map_to_list r
    ≡ₚ (id, a) :: ((λ y : Z * (Arc * list byte), (y.1, y.2.1)) <$> map_to_list (delete id r)).
Proof. intros H. by rewrite <- (map_to_list_delete r id (a, reason)) by done. Qed.

Lemma retired_ids (r : gmap Z (Arc * list byte)) :
  NoDup (((λ y : Z * (Arc * list byte), (y.1, y.2.1)) <$> map_to_list r).*1).
Proof. rewrite <- list_fmap_compose. apply (NoDup_fst_map_to_list r). Qed.

(** A retired session is reported and closed. *)
Lemma close_one s q r id a reason rest millis :
  relay_inv s q [] [] → retired_traffic (sess s) = Some r → r !! id = Some (a, reason) → quiet a (pending (chan s)) →
  let '(counters, heap) := traffic_take a (traffic (sess s)) in
  relay_inv
    (observe (with_sess (with_chan s (with_acks (chan s) rest))
                (with_traffic (with_retired (sess s) (Some (delete id r))) heap))
       (flush_udp_traffic_entry sha256 cfg id counters ++ observe_udp_close sha256 cfg id reason millis)) q [] [].
Proof.
  intros H Er Eid Hq. assert (rc_observability cfg = true) as Ho by (apply (ri_retired _ _ _ _ _ _ H); by rewrite Er).
  assert (live (sess s) q [] ≡ₚ (id, a) :: q_arcs q ++ ((λ y : Z * (Arc * list byte), (y.1, y.2.1)) <$> map_to_list (delete id r)) ++ []) as Ep.
  { unfold live, retired_arcs. rewrite Er, (retired_delete r id a reason Eid). by rewrite Permutation_middle. }
  pose proof (take_inv sha256 cfg s q [] [] [(id, a)] H) as Ht.
  assert (∀ x, x ∈ [(id, a)] → x ∈ live (sess s) q []) as Hin by (intros x ->%list_elem_of_singleton; rewrite Ep; by left).
  specialize (Ht Hin). simpl in Ht |- *. set (c := default _ _) in *.
  destruct (flush_entry_facts sha256 cfg id c) as (F1&F2&F3). destruct (close_facts sha256 cfg id reason millis) as (C1&C2&C3).
  destruct (Ht (flush_udp_traffic_entry sha256 cfg id c)) as [Hi Hz]; [done|done|intros f Hf; rewrite F3 by done; simpl; lia|].
  clear Ht. specialize (Hz a ltac:(by left)). destruct Hi. simpl in *. split; simpl; rewrite ?(assoc_L (++)); try done.
  - unfold live, retired_arcs. simpl. eapply (arcs_drop _ _ _ _ (id, a)); [|done|exact Hq].
    eapply arcs_perm; [|exact ri_arcs]. exact Ep.
  - apply side_quiet; [apply C3|done].
  - intros _. apply side_quiet; [apply C3|by apply ri_sent].
  - intros _. rewrite !opened_app, !ended_app, C1, C2 by done. rewrite app_nil_r, opened_app, ended_app in *.
    specialize (ri_sessions Ho). rewrite ri_sessions. unfold live in Ep |- *. simpl in Ep |- *.
    rewrite Ep. simpl. unfold retired_arcs. simpl. by rewrite !app_nil_r, <- !(assoc_L (++)).
Qed.
Lemma on_retired_ok millis s : acks (chan s) ≠ [] → relaying_ok s → flow_ok (on_retired sha256 cfg millis s).
Proof.
  intros Ha (q&H&Hr&Hs). unfold on_retired. destruct (acks (chan s)) as [|id rest] eqn:Eacks; [done|]. clear Ha.
  unfold retire_inv in Hr. rewrite Eacks in Hr. pose proof (rt_known _ _ _ Hr id ltac:(by left)) as Hk.
  unfold retired_arcs in Hr, Hk. destruct (retired_traffic (sess s)) as [r|] eqn:Er; [|by apply elem_of_nil in Hk].
  apply list_elem_of_fmap in Hk as ([id' a]&E&Hk). simpl in E. subst id'.
  pose proof Hk as Hin. apply list_elem_of_fmap in Hk as ([id' [a' reason]]&E&Hk). injection E as -> ->.
  apply elem_of_map_to_list in Hk. rewrite Hk.
  pose proof (close_one s q r id' a' reason rest millis H Er Hk (rt_acked _ _ _ Hr _ _ Hin ltac:(by left))) as Hc.
  destruct (traffic_take _ _) as [counters heap]. simpl. exists q. split_and!; [exact Hc| |done].
  unfold retire_inv, retired_arcs. simpl. eapply (retire_acked _ _ id'); [exact Hr|apply retired_ids|].
  intros [i b]. rewrite !list_elem_of_fmap. split.
  - intros ([i' [b' rs]]&E&Hx%elem_of_map_to_list). injection E as -> ->. apply lookup_delete_Some in Hx as [Hne Hx].
    split; [|by simpl]. exists (i', (b', rs)). split; [done|]. by apply elem_of_map_to_list.
  - intros [([i' [b' rs]]&E&Hx%elem_of_map_to_list) Hne]. injection E as -> ->. exists (i', (b', rs)). split; [done|].
    apply elem_of_map_to_list. by rewrite lookup_delete_ne.
Qed.

(** * Messages enter the queue *)

Lemma enqueue_frame s m d r :
  let '(x, s') := try_enqueue cfg s m d r in
  sess s' = sess s ∧ outside s' = outside s ∧ acks (chan s') = acks (chan s)
  ∧ written (chan s') = written (chan s) ∧ um_sessions (metrics s') = um_sessions (metrics s)
  ∧ pending (chan s') = match x with
      | EnqueueQueued => pending (chan s) ++ [{| qm_message := m; qm_delivered := d; qm_retired_session := r |}]
      | _ => pending (chan s)
      end.
Proof.
  unfold try_enqueue. simpl. destruct (receiver_open (chan s)) eqn:Ho; simpl; [|done].
  destruct (_ <=? _); simpl; [done|]. split_and!; try done. unfold pending, receiver_open in *. simpl.
  by destruct (writer (chan s)).
Qed.
Lemma enqueue_inv s q lost extra m d r :
  relay_inv s q lost extra → (∀ a n, d = Some (a, n) → a ∈ (live (sess s) q lost).*2 ∧ 0 ≤ n) →
  relay_inv (try_enqueue cfg s m d r).2 q lost extra.
Proof.
  intros [] Hd. pose proof (enqueue_frame s m d r) as H. destruct (try_enqueue cfg s m d r) as [x s'].
  destruct H as (E1&E2&E3&E4&E5&E6). simpl. split; rewrite ?E1, ?E2, ?E4; try done.
  eapply arcs_pending; [exact ri_arcs|]. intros y. rewrite E6.
  destruct x; [|by left..]. rewrite elem_of_app, list_elem_of_singleton. intros [Hy| ->]; [by left|right]. exact Hd.
Qed.

(** * Sweeps *)

Definition expired_arc (e : ExpiredFlow) : option (Z * Arc) := (λ a, (ef_session_id e, a)) <$> ef_observed_traffic e.

Lemma retired_insert (r : gmap Z (Arc * list byte)) id a reason :
  r !! id = None →
  (λ y : Z * (Arc * list byte), (y.1, y.2.1)) <$> map_to_list (<[id := (a, reason)]> r)
    ≡ₚ (id, a) :: ((λ y : Z * (Arc * list byte), (y.1, y.2.1)) <$> map_to_list r).
Proof. intros H. by rewrite map_to_list_insert by done. Qed.

(** The first of the sessions that leave is retired. *)
Lemma retire_one s q id a lost r :
  relay_inv s q ((id, a) :: lost) [] → retired_traffic (sess s) = Some r →
  let s' := with_sess s (with_retired (sess s) (Some (<[id := (a, idle_timeout_reason)]> r))) in
  relay_inv s' q lost [] ∧ id ∉ (retired_arcs (sess s)).*1
  ∧ retired_arcs (sess s') ≡ₚ (id, a) :: retired_arcs (sess s).
Proof.
  intros H Er s'. assert (live (sess s) q ((id, a) :: lost) ≡ₚ (id, a) :: q_arcs q ++ retired_arcs (sess s) ++ lost) as Ep.
  { unfold live. by rewrite <- !Permutation_middle. }
  assert (id ∉ (retired_arcs (sess s)).*1) as Hid.
  { pose proof (ao_ids _ _ _ _ (ri_arcs _ _ _ _ _ _ H)) as Hnd. rewrite Ep in Hnd. rewrite fmap_cons, !fmap_app in Hnd.
    apply NoDup_cons in Hnd as [Hnd _]. rewrite !elem_of_app in Hnd. tauto. }
  assert (retired_arcs (sess s') ≡ₚ (id, a) :: retired_arcs (sess s)) as Er'.
  { unfold retired_arcs in *. simpl. rewrite Er in *. apply retired_insert. apply not_elem_of_dom_1. intros Hd. apply Hid.
    apply elem_of_dom in Hd as [[b reason] Hd]. apply list_elem_of_fmap. exists (id, b). split; [done|].
    apply list_elem_of_fmap. exists (id, (b, reason)). split; [done|]. by apply elem_of_map_to_list. }
  split_and!; [|done|exact Er']. destruct H.
  assert (live (sess s) q ((id, a) :: lost) ≡ₚ live (sess s') q lost) as El.
  { rewrite Ep. unfold live. rewrite Er'. simpl. by rewrite <- Permutation_middle. }
  split; try done.
  - split; [|by eexists]. intros _. apply ri_retired. by rewrite Er.
  - by eapply arcs_perm.
  - intros Ho. rewrite <- El. by apply ri_sessions.
Qed.

Lemma retire_loop_ok expired s q :
  relay_inv s q (omap expired_arc expired) [] →
  Forall (λ e, is_Some (ef_observed_traffic e) ↔ rc_observability cfg = true) expired →
  retire_inv s → um_sessions (metrics s) = blen q → flow_ok (retire_loop cfg expired s).
Proof.
  revert s. induction expired as [|e expired IH]; intros s H He Hr Hs; [by exists q|].
  apply Forall_cons in He as [He Hes]. simpl.
  set (s1 := match retired_traffic (sess s) with Some _ => _ | None => s end).
  set (m := MUdpSessionRetired _).
  assert (relay_inv s1 q (omap expired_arc expired) [] ∧ um_sessions (metrics s1) = blen q
    ∧ (∀ r, retired_traffic (sess s1) = r →
        retire_ok (retired_arcs (sess s1)) (acks (chan s1))
          (pending (chan s1) ++ [{| qm_message := m; qm_delivered := None; qm_retired_session := (λ _, ef_session_id e) <$> r |}])))
    as (H1&Hs1&Hr1).
  { unfold s1. simpl in H. unfold expired_arc at 1 in H.
    destruct (retired_traffic (sess s)) as [r|] eqn:Er.
    - assert (is_Some (ef_observed_traffic e)) as [a Ea] by (apply He, (ri_retired _ _ _ _ _ _ H); by rewrite Er).
      rewrite Ea in *. simpl in H. destruct (retire_one s q _ a _ r H Er) as (Hi&Hid&Hp).
      split_and!; [exact Hi|done|]. intros r' <-. eapply retire_session; [exact Hr|exact Hid|exact Hp|done|done].
    - destruct (ef_observed_traffic e) as [a|] eqn:Ea.
      + exfalso. assert (is_Some (retired_traffic (sess s))) as [? Er'] by (apply (ri_retired _ _ _ _ _ _ H), He; by eexists).
        congruence.
      + split_and!; [exact H|done|]. intros r' <-. rewrite Er. apply retire_datagram; [exact Hr|done|].
        intros id a Hin. unfold retired_arcs in Hin. rewrite Er in Hin. by apply elem_of_nil in Hin. }
  pose proof (enqueue_frame s1 m None ((λ _, ef_session_id e) <$> retired_traffic (sess s1))) as Hf.
  pose proof (enqueue_inv s1 q _ _ m None ((λ _, ef_session_id e) <$> retired_traffic (sess s1)) H1 ltac:(done)) as Hi.
  destruct (try_enqueue _ _ _ _ _) as [[] s2]; destruct Hf as (E1&E2&E3&E4&E5&E6); simpl in Hi.
  - apply IH; [done|done| |by rewrite E5]. unfold retire_inv. rewrite E1, E3, E6. by apply Hr1.
  - exists q, (omap expired_arc expired), []. split_and!; [by apply inv_metrics|by intros []|done|simpl; lia].
  - exists q, (omap expired_arc expired), []. split_and!; [done|by intros []|done|simpl; lia].
Qed.

Lemma on_sweep_ok batch now s : 0 ≤ batch → relaying_ok s → flow_ok (on_sweep cfg batch now s).
Proof.
  intros Hb (q&H&Hr&Hs). unfold on_sweep. pose proof H as [].
  destruct (sweep_expired_ok _ _ now (ul_idle_timeout (rc_limits cfg)) batch ri_rep Hb) as (t&->&Hrep&Ec&Eo).
  set (n := Z.to_nat _) in *. set (idle := ul_idle_timeout _) in *. pose proof (q_sweep_perm n now idle q) as Ep.
  destruct (q_sweep n now idle q) as [q1 q2]. simpl fst in *. simpl snd in *.
  set (expired := _ <$> q1).
  assert (omap expired_arc expired = q_arcs q1) as Earcs.
  { unfold expired, q_arcs, expired_arc. clear. induction q1 as [|f q1 IH]; [done|]. simpl.
    destruct (fl_traffic f); simpl; [f_equal|]; exact IH. }
  assert (Forall (λ f, is_Some (fl_traffic f) ↔ rc_observability cfg = true) (q1 ++ q2)) as Ht by by rewrite Ep.
  assert (Forall (λ f, fk_source (fl_key f) ∈ accepted_from (outside s)) (q1 ++ q2)) as Hso by by rewrite Ep.
  apply Forall_app in Ht as [Ht1 Ht2]. apply Forall_app in Hso as [_ Hs2].
  set (s1 := with_sess s (with_table (sess s) t)).
  assert (relay_inv s1 q2 (q_arcs q1) []) as H1.
  { assert (live (sess s) q [] ≡ₚ live (sess s1) q2 (q_arcs q1)) as El.
    { unfold live. rewrite <- (q_arcs_perm _ _ Ep), q_arcs_app, app_nil_r.
      rewrite <- (assoc_L (++)), Permutation_app_comm, <- !(assoc_L (++)). done. }
    split; try done; [by rewrite <- ri_cap|by rewrite <- ri_obs|by eapply arcs_perm|].
    intros Ho. rewrite <- El. by apply ri_sessions. }
  case_bool_decide as Ee.
  - assert (q1 = []) as -> by (unfold expired in Ee; by apply fmap_nil_inv in Ee).
    exists q2. split_and!; [exact H1|exact Hr|]. simpl. rewrite Hs. unfold blen. by rewrite <- Ep.
  - apply (retire_loop_ok _ _ q2).
    + rewrite Earcs. by apply inv_metrics.
    + unfold expired. apply Forall_fmap. exact Ht1.
    + exact Hr.
    + simpl. by apply flow_len_rep.
Qed.

(** * Datagrams *)

Lemma q_draw_from entropy attempt n q id : q_draw entropy attempt n q = Ok id → ∃ i, entropy i = Some id.
Proof.
  revert attempt. induction n as [|n IH]; intros attempt; simpl; [done|].
  destruct (entropy attempt) as [x|] eqn:E; [|done]. destruct (_ && _); [|apply IH]. intros [= <-]. by eexists.
Qed.
Lemma arcs_quiet heap next live pend : arcs_ok heap next live pend → quiet next pend.
Proof.
  intros [H1 H2 H3 H4 H5 H6 H7]. eapply Forall_impl; [exact H7|]. intros m Hm. unfold delivers.
  destruct (qm_delivered m) as [[a n]|] eqn:Ed; [|by intros []]. intros ->. destruct (Hm _ _ Ed) as [Hin _].
  apply list_elem_of_fmap in Hin as ([i b]&E&Hin). simpl in E. subst b. rewrite Forall_forall in H2. specialize (H2 _ Hin).
  simpl in H2. lia.
Qed.
Lemma touch_inv s q lost extra t id now :
  relay_inv s q lost extra → flows_rep t (q_touch id now q) →
  ft_capacity t = ft_capacity (flows (sess s)) → ft_observe_traffic t = ft_observe_traffic (flows (sess s)) →
  relay_inv (with_sess s (with_table (sess s) t)) (q_touch id now q) lost extra.
Proof.
  intros [] Hrep Ec Eo. assert (∀ (Q : Flow → Prop), (∀ f, Q f → Q (touched now f)) → Forall Q q → Forall Q (q_touch id now q)) as Hall.
  { intros Q HQ Hq. apply Forall_fmap. eapply Forall_impl; [exact Hq|]. intros f Hf. simpl.
    destruct (_ =? _); [by apply HQ|done]. }
  split; simpl; rewrite ?Ec, ?Eo; try done.
  - by apply Hall.
  - unfold live. by rewrite q_arcs_touch.
  - unfold live. rewrite q_arcs_touch. exact ri_sessions.
  - by apply Hall.
Qed.
Lemma accept_inv s q lost extra a : relay_inv s q lost extra → relay_inv (accept a s) q lost extra.
Proof.
  intros []. split; try done; simpl.
  - eapply Forall_impl; [exact ri_sources|]. intros f Hf. apply elem_of_app. by left.
  - eapply Forall_impl; [exact ri_replies|]. intros f Hf. apply elem_of_app. by left.
Qed.

Definition opening (id : Z) : list (list byte) := if rc_observability cfg then [short id] else [].
(** A flow enters the table. *)
Lemma append_inv s q f t a :
  relay_inv s q [] [] → flows_rep t (q ++ [f]) → fl_id f ∉ (live (sess s) q []).*1 →
  ft_capacity t = ft_capacity (flows (sess s)) → ft_observe_traffic t = ft_observe_traffic (flows (sess s)) →
  fl_traffic f = (if rc_observability cfg then Some (next_arc (sess s)) else None) →
  fk_source (fl_key f) = a →
  let x := sess s in
  relay_inv
    (accept a (with_sess s
      {| flows := t;
         traffic := if rc_observability cfg then <[next_arc x := TrafficCounters_default]> (traffic x) else traffic x;
         next_arc := if rc_observability cfg then S (next_arc x) else next_arc x;
         retired_traffic := retired_traffic x |})) (q ++ [f]) [] (opening (fl_id f)).
Proof.
  intros [] Hrep Hid Ec Eo Ef <- x. subst x. assert (∀ g, Side g → ∀ h n, arcs_ok h n (live (sess s) q []) (pending (chan s)) →
    msum g (<[n := TrafficCounters_default]> h) = msum g h) as Hsum.
  { intros g Hg h n Hok. rewrite msum_insert_at, side_default. destruct (h !! n) as [c|] eqn:E; [|lia].
    assert (is_Some (h !! n)) as Hn by by rewrite E. apply (ao_dom _ _ _ _ Hok) in Hn. lia. }
  split; simpl; rewrite ?Ec, ?Eo; try done.
  - apply Forall_app. split; [done|]. constructor; [|done]. rewrite Ef. destruct (rc_observability cfg); [|done].
    split; [done|by eexists].
  - unfold live. rewrite q_arcs_app. unfold q_arcs at 2. simpl. rewrite Ef. destruct (rc_observability cfg); simpl.
    + eapply arcs_perm; [|apply (arcs_fresh _ _ _ _ (fl_id f) ri_arcs Hid)]. unfold live. simpl.
      rewrite <- (assoc_L (++)). simpl. apply Permutation_middle.
    + rewrite app_nil_r. exact ri_arcs.
  - destruct (rc_observability cfg) eqn:Ho; [|done]. destruct ri_received as [R1 R2]. split; [done|].
    by rewrite (Hsum received_bytes _ _ _ ri_arcs).
  - intros Ho. rewrite Ho. destruct (ri_sent Ho) as [R1 R2]. split; [done|].
    by rewrite (Hsum sent_bytes _ _ _ ri_arcs).
  - intros Ho. unfold opening. rewrite Ho in *. unfold live in *. rewrite app_nil_r in ri_sessions.
    rewrite q_arcs_app. unfold q_arcs at 2. simpl. rewrite Ef. simpl.
    rewrite (ri_sessions eq_refl). rewrite <- !(assoc_L (++)). apply Permutation_app_head.
    rewrite !fmap_app. simpl. rewrite !app_nil_r, <- (assoc_L (++)). apply Permutation_app_head.
    rewrite Permutation_app_comm. done.
  - apply Forall_app. split; [|constructor; [|done]].
    + eapply Forall_impl; [exact ri_sources|]. intros g Hg. apply elem_of_app. by left.
    + apply elem_of_app. right. by left.
  - eapply Forall_impl; [exact ri_replies|]. intros g Hg. apply elem_of_app. by left.
Qed.

(** A new flow leaves again. *)
Lemma rollback_inv s q f :
  relay_inv s (q ++ [f]) [] (opening (fl_id f)) →
  (∀ a, fl_traffic f = Some a → traffic (sess s) !! a = Some TrafficCounters_default ∧ quiet a (pending (chan s))) →
  relay_inv (rollback_session (fl_id f) s) q [] [] ∧ um_sessions (metrics (rollback_session (fl_id f) s)) = blen q.
Proof.
  intros H Hf. pose proof H as []. unfold rollback_session.
  pose proof (flow_remove_ok _ _ (fl_id f) ri_rep) as Hrm. destruct (FlowTable_remove _ _) as [removed t]. simpl.
  destruct Hrm as (_&Hrep&Ec&Eo). rewrite (q_remove_split q f [] (fr_ids _ _ ri_rep)), app_nil_r in Hrep.
  split; [|by apply flow_len_rep]. apply inv_metrics.
  assert (is_Some (fl_traffic f) ↔ rc_observability cfg = true) as Hft.
  { apply Forall_app in ri_traffic as [_ Ht]. by apply Forall_cons in Ht as [Ht _]. }
  assert (live (sess s) (q ++ [f]) []
    ≡ₚ (if fl_traffic f is Some a then [(fl_id f, a)] else []) ++ live (sess s) q []) as El.
  { unfold live. rewrite q_arcs_app. unfold q_arcs at 2. simpl. destruct (fl_traffic f); simpl.
    - rewrite <- (assoc_L (++)). simpl. by rewrite <- Permutation_middle.
    - by rewrite app_nil_r. }
  split; simpl; rewrite ?Ec, ?Eo; try done.
  - by apply Forall_app in ri_traffic as [? _].
  - eapply arcs_perm in ri_arcs; [|exact El]. destruct (fl_traffic f) as [a|] eqn:Ef; [|exact ri_arcs].
    destruct (Hf a eq_refl) as [Hz Hq]. by apply (arcs_drop _ _ _ _ (fl_id f, a)).
  - intros Ho. specialize (ri_sessions Ho). unfold opening in ri_sessions. rewrite Ho in ri_sessions.
    destruct (proj2 Hft Ho) as [a Ea]. rewrite Ea in El. rewrite El in ri_sessions. simpl in ri_sessions.
    rewrite <- Permutation_middle, <- Permutation_middle in ri_sessions. rewrite !app_nil_r in *.
    by apply Permutation_cons_inv in ri_sessions.
  - by apply Forall_app in ri_sources as [? _].
Qed.

Lemma arcs_disjoint s q lost extra f a id b :
  relay_inv s q lost extra → f ∈ q → fl_traffic f = Some a → (id, b) ∈ retired_arcs (sess s) → a ≠ b.
Proof.
  intros H Hf Ea Hb ->. pose proof (ao_arcs _ _ _ _ (ri_arcs _ _ _ _ _ _ H)) as Hnd. unfold live in Hnd.
  rewrite fmap_app in Hnd. apply NoDup_app in Hnd as (_&Hnd&_). apply (Hnd b).
  - apply (list_elem_of_fmap_2 snd (q_arcs q) (fl_id f, b)). unfold q_arcs. apply list_elem_of_omap.
    exists f. split; [done|]. by rewrite Ea.
  - rewrite fmap_app. apply elem_of_app. left. by apply (list_elem_of_fmap_2 snd _ (id, b)).
Qed.
Lemma flow_live s q lost extra f a :
  relay_inv s q lost extra → f ∈ q → fl_traffic f = Some a → a ∈ (live (sess s) q lost).*2.
Proof.
  intros H Hf Ea. apply (list_elem_of_fmap_2 snd _ (fl_id f, a)). apply elem_of_app. left. unfold q_arcs.
  apply list_elem_of_omap. exists f. split; [done|]. by rewrite Ea.
Qed.

(** A datagram of a flow enters the queue, or is refused. *)
Lemma datagram_enqueued s q lost extra f m n :
  relay_inv s q lost extra → retire_inv s → f ∈ q → 0 ≤ n →
  let '(x, s') := try_enqueue cfg s m ((λ a, (a, n)) <$> fl_traffic f) None in
  relay_inv s' q lost extra ∧ retire_inv s' ∧ um_sessions (metrics s') = um_sessions (metrics s) ∧ sess s' = sess s
  ∧ (x ≠ EnqueueQueued → pending (chan s') = pending (chan s)).
Proof.
  intros H Hr Hf Hn. set (d := _ <$> _).
  assert (∀ a k, d = Some (a, k) → a ∈ (live (sess s) q lost).*2 ∧ 0 ≤ k) as Hd.
  { intros a k. unfold d. destruct (fl_traffic f) as [b|] eqn:Ef; [|done]. intros [= <- <-]. split; [|done].
    by eapply flow_live. }
  pose proof (enqueue_frame s m d None) as Hfr. pose proof (enqueue_inv s q lost extra m d None H Hd) as Hi.
  destruct (try_enqueue _ _ _ _ _) as [x s']. simpl in Hi. destruct Hfr as (E1&E2&E3&E4&E5&E6).
  split_and!; try done; [|by destruct x]. unfold retire_inv. rewrite E1, E3, E6. destruct x; try exact Hr.
  apply retire_datagram; [exact Hr|done|]. intros id b Hb. unfold delivers, d. simpl.
  destruct (fl_traffic f) as [a|] eqn:Ef; simpl; [|tauto].
  exact (arcs_disjoint s q lost extra f a id b H Hf Ef Hb).
Qed.

Lemma flow_for_ok entropy key now s q :
  relay_inv s q [] [] → (∀ i id, entropy i = Some id → id ∉ (retired_arcs (sess s)).*1) →
  let '(r, s1) := flow_for cfg entropy key now s in
  chan s1 = chan s ∧ metrics s1 = metrics s ∧ retired_arcs (sess s1) = retired_arcs (sess s)
  ∧ match r with
    | Ok (id, false) => ∃ q1 f, relay_inv (accept (fk_source key) s1) q1 [] [] ∧ f ∈ q1 ∧ fl_id f = id ∧ blen q1 = blen q
    | Ok (id, true) => ∃ f, relay_inv (accept (fk_source key) s1) (q ++ [f]) [] (opening id) ∧ fl_id f = id
        ∧ ∀ a, fl_traffic f = Some a → traffic (sess s1) !! a = Some TrafficCounters_default ∧ quiet a (pending (chan s))
    | Err _ => relay_inv s1 q [] []
    | Panic => False
    end.
Proof.
  intros H Hfresh. unfold flow_for. pose proof H as [].
  pose proof (session_for_ok entropy (next_arc (sess s)) _ q key now ri_rep) as Hs.
  destruct (session_for _ _ _ _ _) as [r t]. unfold q_session_for in Hs.
  assert (∀ q', flows_rep t q' → q' = q → ft_capacity t = ft_capacity (flows (sess s)) →
    ft_observe_traffic t = ft_observe_traffic (flows (sess s)) →
    relay_inv (with_sess s {| flows := t; traffic := traffic (sess s); next_arc := next_arc (sess s);
                              retired_traffic := retired_traffic (sess s) |}) q [] []) as Hsame.
  { intros q' Hrep -> Ec Eo. split; simpl; rewrite ?Ec, ?Eo; done. }
  destruct (q_find key q) as [f|] eqn:Efind.
  { destruct Hs as (->&Hrep&Ec&Eo). apply q_find_Some in Efind as [Hf _]. split_and!; try done.
    exists (q_touch (fl_id f) now q), (touched now f). split_and!.
    - apply accept_inv. exact (touch_inv s q [] [] t (fl_id f) now H Hrep Ec Eo).
    - unfold q_touch. apply list_elem_of_fmap. exists f. by rewrite Z.eqb_refl.
    - done.
    - unfold blen, q_touch. by rewrite length_fmap. }
  destruct (ft_capacity (flows (sess s)) <=? blen q).
  { destruct Hs as (->&Hrep&Ec&Eo). split_and!; try done. by apply (Hsame q). }
  destruct (q_draw _ _ _ _) as [id|e|] eqn:Ed; destruct Hs as (->&Hrep&Ec&Eo); [|split_and!; try done; by apply (Hsame q)|].
  2: { clear -Ed. exfalso. revert Ed. generalize 0%nat. induction MAX_SESSION_ID_ATTEMPTS as [|n IH]; intros i; simpl; [done|].
       destruct (entropy i); [|done]. destruct (_ && _); [done|apply IH]. }
  split_and!; try done. set (f := Build_Flow _ _ _ _) in *. exists f.
  pose proof (q_draw_Ok _ _ _ _ _ Ed) as [_ Hnew]. apply q_draw_from in Ed as [i Ei].
  assert (id ∉ (live (sess s) q []).*1) as Hid.
  { unfold live. rewrite app_nil_r, fmap_app, elem_of_app. intros [Hin|Hin]; [|by apply (Hfresh i id Ei)].
    apply Hnew. apply list_elem_of_fmap in Hin as ([j b]&->&Hin). unfold q_arcs in Hin.
    apply list_elem_of_omap in Hin as (g&Hg&Eg). destruct (fl_traffic g); [|done]. simpl in Eg. injection Eg as <- <-.
    simpl. by apply (list_elem_of_fmap_2 fl_id). }
  assert (fl_traffic f = if rc_observability cfg then Some (next_arc (sess s)) else None) as Ef by (by rewrite <- ri_obs).
  split_and!; [|done|].
  - exact (append_inv s q f t (fk_source key) H Hrep Hid Ec Eo Ef eq_refl).
  - intros a. rewrite Ef. simpl. destruct (rc_observability cfg); [|done]. intros [= <-]. split; [apply lookup_insert_eq|].
    by eapply arcs_quiet.
Qed.

(** The draws of a datagram never name a retired session. *)
Definition fresh_draws (s : Relay) (entropy : nat → option Z) : Prop :=
  ∀ i id, entropy i = Some id → id ∉ (retired_arcs (sess s)).*1.

Lemma udp_open_session_ok s q f millis :
  relay_inv s (q ++ [f]) [] (opening (fl_id f)) → retire_inv s →
  flow_ok (open_udp_session sha256 cfg (fl_id f) millis s).
Proof.
  intros H Hr. unfold open_udp_session. set (s1 := with_metrics s _).
  assert (um_sessions (metrics s1) = blen (q ++ [f])) as Hs.
  { simpl. apply flow_len_rep, H. }
  assert (relay_inv s1 (q ++ [f]) [] (opening (fl_id f))) as H1 by by apply inv_metrics.
  destruct (rc_observability cfg) eqn:Ho.
  - destruct (bounded_label _) as [tunnel| |]; [|apply H1..]. exists (q ++ [f]). split_and!; [|exact Hr|exact Hs].
    destruct H1. split; try done; simpl.
    + apply side_quiet; [done|exact ri_received].
    + intros _. apply side_quiet; [done|by apply ri_sent].
    + intros _. rewrite opened_app, ended_app. simpl. rewrite !app_nil_r. specialize (ri_sessions Ho).
      unfold opening in ri_sessions. by rewrite Ho in ri_sessions.
  - exists (q ++ [f]). split_and!; [|exact Hr|exact Hs]. unfold opening in H1. by rewrite Ho in H1.
Qed.

Lemma on_public_ok received entropy now millis s :
  relaying_ok s → fresh_draws s entropy → flow_ok (on_public sha256 cfg received entropy now millis s).
Proof.
  intros Hok Hfresh. pose proof Hok as (q&H&Hr&Hs). unfold on_public.
  destruct received as [[]|bytes source]; [by apply relaying_metrics|by apply relaying_closing|].
  destruct (_ <? blen _); [by apply relaying_metrics|].
  set (key := Build_FlowKey _ _). set (data := take _ bytes).
  pose proof (flow_for_ok entropy key now s q H Hfresh) as Hf.
  destruct (flow_for _ _ _ _ _) as [[[id []]|e|] s1]; destruct Hf as (Ec&Em&Er&Hf); [| | |done].
  3: { assert (relaying_ok s1) as Hok1.
       { exists q. split_and!; [done| |by rewrite Em]. unfold retire_inv. by rewrite Er, Ec. }
       destruct e; [by apply relaying_metrics|by apply relaying_closing..]. }
  - destruct Hf as (f&H1&<-&Hq).
    assert (retire_inv (accept (fk_source key) s1)) as Hr1 by (unfold retire_inv; simpl; by rewrite Er, Ec).
    destruct (bounded_try_from _ _) as [payload| |]; [|apply H1..].
    assert (f ∈ q ++ [f]) as Hin by (apply elem_of_app; right; by left).
    cbv beta iota zeta. rewrite (flow_traffic_rep _ _ (ri_rep _ _ _ _ _ _ H1) f Hin).
    match goal with |- context [try_enqueue cfg _ ?m _ None] =>
      pose proof (datagram_enqueued _ _ _ _ f m (blen data) H1 Hr1 Hin (blen_nonneg _)) as He end.
    destruct (try_enqueue _ _ _ _ _) as [[] s2]; destruct He as (H2&Hr2&Hs2&Ess&Ep).
    + by apply (udp_open_session_ok s2 q f).
    + apply (relaying_metrics (rollback_session (fl_id f) s2)); [done|].
      destruct (rollback_inv s2 q f H2) as [H3 H4].
      { intros a Ea. destruct (Hq a Ea) as [Hz Hquiet]. rewrite Ess, Ep by done. simpl. by rewrite Ec. }
      exists q. split_and!; [exact H3| |exact H4]. exact Hr2.
    + exists (q ++ [f]), [], (opening (fl_id f)). split_and!; [done|done|by intros []|].
      unfold opening. destruct (rc_observability cfg); simpl; lia.
  - destruct Hf as (q1&f&H1&Hin&<-&Eb).
    assert (retire_inv (accept (fk_source key) s1)) as Hr1 by (unfold retire_inv; simpl; by rewrite Er, Ec).
    destruct (bounded_try_from _ _) as [payload| |]; [|apply H1..].
    cbv beta iota zeta. rewrite (flow_traffic_rep _ _ (ri_rep _ _ _ _ _ _ H1) f Hin).
    match goal with |- context [try_enqueue cfg _ ?m _ None] =>
      pose proof (datagram_enqueued _ _ _ _ f m (blen data) H1 Hr1 Hin (blen_nonneg _)) as He end.
    destruct (try_enqueue _ _ _ _ _) as [x s2]; destruct He as (H2&Hr2&Hs2&Ess&Ep).
    assert (relaying_ok s2) as Hok2.
    { exists q1. split_and!; [done|done|]. rewrite Hs2. simpl. by rewrite Em, Eb. }
    destruct x; [done|by apply relaying_metrics|by apply relaying_closing].
Qed.

(** * Replies *)

Lemma side_count f `{!Side f} g n a heap total l :
  (∀ c, f c + n ≤ u64_max → f (g c) = f c + n) → heap_nonneg heap → is_Some (heap !! a) → 0 ≤ n →
  side_ok f total heap l → side_ok f (total + n) (on_traffic g a heap) l.
Proof.
  intros Hg Hn Ha Hz [H1 H2]. split; [done|]. intros Ht. specialize (H2 ltac:(lia)).
  rewrite (count_side f g n) by (try done; lia). lia.
Qed.
Lemma side_other f g a heap total l :
  (∀ c, f (g c) = f c) → side_ok f total heap l → side_ok f total (on_traffic g a heap) l.
Proof. intros Hg [H1 H2]. split; [done|]. intros Ht. rewrite count_other by done. by apply H2. Qed.
Lemma saturating_small a b : a + b ≤ u64_max → saturating_add u64_max a b = a + b.
Proof. unfold saturating_add. lia. Qed.
Lemma saturating_nonneg a b : 0 ≤ a → 0 ≤ b → 0 ≤ saturating_add u64_max a b.
Proof. unfold saturating_add, u64_max. lia. Qed.

Lemma reply_inv s q f payload :
  relay_inv s q [] [] → f ∈ q →
  relay_inv (count_reply (fl_id f) (blen payload) (reply_sent (fk_source (fl_key f)) payload s)) q [] [].
Proof.
  intros H Hf. pose proof H as []. unfold count_reply. simpl.
  rewrite (flow_traffic_rep _ _ ri_rep f Hf).
  assert (Forall (λ x, x.1 ∈ accepted_from (outside s)) (replies (outside s) ++ [(fk_source (fl_key f), payload)])) as Hrep.
  { apply Forall_app. split; [done|]. constructor; [|done]. simpl. rewrite Forall_forall in ri_sources. by apply ri_sources. }
  assert (is_Some (fl_traffic f) ↔ rc_observability cfg = true) as Hft by (rewrite Forall_forall in ri_traffic; by apply ri_traffic).
  destruct (fl_traffic f) as [a|] eqn:Ef.
  - assert (a ∈ (live (sess s) q []).*2) as Ha by by eapply flow_live.
    assert (is_Some (traffic (sess s) !! a)) as Hdom.
    { apply (ao_dom _ _ _ _ ri_arcs). apply list_elem_of_fmap in Ha as ([j b]&->&Ha).
      pose proof (ao_live _ _ _ _ ri_arcs) as Hl. rewrite Forall_forall in Hl. by apply (Hl _ Ha). }
    assert (heap_nonneg (on_traffic (record_sent (blen payload)) a (traffic (sess s)))) as Hn.
    { apply traffic_count_nonneg; [|apply ri_arcs]. intros c [C1 C2]. split; simpl; [done|]. apply saturating_nonneg; [done|apply blen_nonneg]. }
    split; simpl; try done.
    + by apply arcs_count.
    + by apply side_other.
    + intros Ho. unfold reply_bytes. simpl. rewrite lsum_app. simpl. rewrite Z.add_0_r.
      apply side_count; [apply _|intros c Hc; by apply saturating_small|apply ri_arcs|done|apply blen_nonneg|by apply ri_sent].
  - split; simpl; try done. intros Ho. by destruct (proj2 Hft Ho).
Qed.

Lemma q_validate_true q id recipient destination now q' :
  q_validate q id recipient destination now = (true, q') →
  ∃ f, f ∈ q ∧ fl_id f = id ∧ fk_source (fl_key f) = recipient ∧ q' = q_touch id now q.
Proof.
  unfold q_validate. destruct (q_get id q) as [f|] eqn:E; [|done]. case_bool_decide as Ek; [|done].
  intros [= <-]. apply q_get_Some in E as [Hf Ei]. exists f. by rewrite Ek.
Qed.
Lemma on_frame_ok frame sent now s : relaying_ok s → flow_ok (on_frame cfg frame sent now s).
Proof.
  intros Hok. pose proof Hok as (q&H&Hr&Hs). unfold on_frame.
  destruct frame as [frame|e|]; [|by apply relaying_closing|by apply relaying_replies].
  destruct (negb _); [by apply relaying_closing|].
  destruct (frame_message frame) eqn:Em; try by apply relaying_closing. clear Em. rename m into d.
  destruct (negb _); [by apply relaying_closing|]. destruct (_ <? _); [by apply relaying_metrics|].
  set (recipient := socket_addr_from_wire _). pose proof H as [].
  pose proof (validate_reply_ok _ q (ud_session_id d) recipient (public_destination cfg) now ri_rep) as Hv.
  destruct (validate_reply _ _ _ _ _) as [valid t]. destruct (q_validate q _ _ _ _) as [valid' q'] eqn:Eq.
  destruct Hv as (->&Hrep&Ec&Eo). set (s1 := with_sess s _). destruct valid'; simpl negb; cbv iota.
  2: { apply relaying_metrics; [done|]. exists q. split_and!; [|exact Hr|exact Hs].
       assert (q' = q) as -> by (unfold q_validate in Eq; repeat case_match; congruence).
       split; simpl; rewrite ?Ec, ?Eo; done. }
  apply q_validate_true in Eq as (f&Hf&Ei&Es&->).
  assert (relay_inv s1 (q_touch (ud_session_id d) now q) [] []) as H1 by exact (touch_inv s q [] [] t _ now H Hrep Ec Eo).
  assert (touched now f ∈ q_touch (ud_session_id d) now q) as Hf1.
  { apply list_elem_of_fmap. exists f. by rewrite Ei, Z.eqb_refl. }
  assert (blen (q_touch (ud_session_id d) now q) = blen q) as Eb by (unfold blen, q_touch; by rewrite length_fmap).
  assert (relaying_ok s1) as Hok1 by (eexists; split_and!; [exact H1|exact Hr|by rewrite Eb]).
  destruct sent as [| |n]; [by apply relaying_closing|by apply relaying_replies|].
  destruct (Z.eqb_spec n (blen (ud_payload d))) as [->|Hne]; simpl negb; cbv iota; [|by apply relaying_closing].
  pose proof (reply_inv s1 _ (touched now f) (ud_payload d) H1 Hf1) as H2. simpl in H2. rewrite Ei, Es in H2.
  set (s2 := count_reply _ _ _) in *.
  assert (relaying_ok s2) as Hok2.
  { exists (q_touch (ud_session_id d) now q). split_and!; [exact H2| |].
    - unfold s2, count_reply. simpl. by destruct (flow_traffic _ _).
    - rewrite Eb. unfold s2, count_reply. simpl. by destruct (flow_traffic _ _). }
  case_bool_decide; [by apply relaying_closing|exact Hok2].
Qed.

(** * The writer *)

Lemma inv_chan s q lost extra c :
  relay_inv s q lost extra → written c = written (chan s) → (∀ m, m ∈ pending c → m ∈ pending (chan s)) →
  relay_inv (with_chan s c) q lost extra.
Proof.
  intros [] Ew Hp. split; simpl; rewrite ?Ew; try done. eapply arcs_pending; [exact ri_arcs|]. intros m Hm. left. by apply Hp.
Qed.
(** What the writer does is seen in the channel, the counters and the metrics. *)
Definition writes (s s' : Relay) : Prop :=
  (∀ q lost extra, relay_inv s q lost extra → relay_inv s' q lost extra)
  ∧ (retire_inv s → retire_inv s') ∧ um_sessions (metrics s') = um_sessions (metrics s)
  ∧ phase s' = phase s ∧ (replies_ok s → replies_ok s').
Lemma writer_ends_writes r s : writes s (writer_ends r s).
Proof.
  split_and!; try done.
  - intros q lost extra H. apply inv_chan; [done|done|]. intros m Hm. by apply elem_of_nil in Hm.
  - intros Hr. by eapply retire_dropped.
Qed.
Lemma writes_metrics s s' m : um_sessions m = um_sessions (metrics s) → writes (with_metrics s m) s' → writes s s'.
Proof.
  intros E (H1&H2&H3&H4&H5). split_and!; [|exact H2|by rewrite H3|exact H4|exact H5].
  intros q lost extra H. by apply H1, inv_metrics.
Qed.
Lemma writer_take_writes q rest s :
  writer (chan s) = WriterIdle → queue (chan s) = q :: rest → writes s (writer_take cfg q rest s).
Proof.
  intros Ew Eq. unfold writer_take. set (s1 := with_metrics _ _).
  assert (pending (chan s) = q :: rest) as Ep by (unfold pending; by rewrite Ew).
  assert (∀ c, acks c = acks (chan s) → written c = written (chan s) → pending c = q :: rest ∨ pending c = [] →
    writes s (with_chan s1 c)) as Hc.
  { intros c Ea Ewr Hp. split_and!; try done.
    - intros fl lost extra H. apply (inv_metrics (with_chan s c)). apply inv_chan; [done|done|].
      rewrite Ep. intros m Hm. destruct Hp as [<-|Hp]; [done|]. rewrite Hp in Hm. by apply elem_of_nil in Hm.
    - unfold retire_inv. simpl. rewrite Ea, Ep. destruct Hp as [-> | ->]; [done|]. apply retire_dropped. }
  destruct (Frame.encode _ _ _ _); apply Hc; try done; [by left|by right..].
Qed.
Lemma writer_wrote_writes q e s : writer (chan s) = WriterBusy q e → writes s (writer_wrote q e s).
Proof.
  intros Ew. assert (pending (chan s) = q :: queue (chan s)) as Ep by (unfold pending; by rewrite Ew).
  unfold writer_wrote. set (s1 := write_message q e s).
  assert (pending (chan s1) = queue (chan s)) as Ep1 by done.
  assert (retire_inv s → retire_inv s1) as Hr.
  { unfold retire_inv. rewrite Ep, Ep1. apply retire_written. }
  split_and!.
  - intros fl lost extra H. pose proof H as [].
    assert (arcs_ok (traffic (sess s)) (next_arc (sess s)) (live (sess s) fl lost) (queue (chan s))) as Ha.
    { eapply arcs_pending; [exact ri_arcs|]. intros m Hm. left. rewrite Ep. by right. }
    destruct (qm_delivered q) as [[a n]|] eqn:Ed.
    + pose proof (ao_pending _ _ _ _ ri_arcs) as Hp. rewrite Ep in Hp. apply Forall_cons in Hp as [Hp _].
      destruct (Hp a n Ed) as [Hin Hn].
      assert (is_Some (traffic (sess s) !! a)) as Hdom.
      { apply (ao_dom _ _ _ _ ri_arcs). pose proof Hin as ([j b]&->&Hb)%list_elem_of_fmap.
        pose proof (ao_live _ _ _ _ ri_arcs) as Hl. rewrite Forall_forall in Hl. by apply (Hl _ Hb). }
      assert (heap_nonneg (on_traffic (record_received n) a (traffic (sess s)))) as Hnn.
      { apply traffic_count_nonneg; [|apply ri_arcs]. intros c [C1 C2]. split; simpl; [|done]. by apply saturating_nonneg. }
      split; simpl; try done.
      * by apply arcs_count.
      * rewrite lsum_app. simpl. unfold delivered_bytes at 2. rewrite Ed, Z.add_0_r.
        apply side_count; [apply _|intros c Hc; by apply saturating_small|apply ri_arcs|done|done|done].
      * intros Ho. apply side_other; [done|by apply ri_sent].
    + split; simpl; try done. rewrite lsum_app. simpl. unfold delivered_bytes at 2. rewrite Ed, !Z.add_0_r. done.
  - intros Hs. destruct (qm_delivered q) as [[a n]|]; by apply Hr.
  - by destruct (qm_delivered q) as [[a n]|].
  - by destruct (qm_delivered q) as [[a n]|].
  - by destruct (qm_delivered q) as [[a n]|].
Qed.
Lemma writer_stop_writes s : writes s (writer_stop s).
Proof. eapply writes_metrics; [|apply writer_ends_writes]. done. Qed.
End relay.
