(* ===== verification/UdpRelayProps.v ===== *)
(** The properties of the UDP relay: its queue and metrics are exact, replies go only where
    datagrams came from, and what it reports accounts for every session and every byte, unless
    it ends in one of the two ways that skip the accounts. *)

From S2P Require Import Prelude.
From S2P Require Import Postcard.
From S2P Require Import PostcardRef.
From S2P Require Import Messages.
From S2P Require Import Events.
From S2P Require Import Limiter.
From S2P Require Import Frame.
From S2P Require Import UdpFlows.
From S2P Require Import UdpFlowsFacts.
From S2P Require Import UdpRelay.
From S2P Require Import UdpRelayFacts.
From S2P Require Import UdpRelaySteps.
From Stdlib Require Import Strings.Byte.
From stdpp Require Import prelude gmap list.

#[local] Open Scope Z_scope.

Section relay.
Context `{P : Postcard} (sha256 : list byte → list byte) (cfg : RelayConfig).
#[local] Notation relay_inv := (relay_inv sha256 cfg).
#[local] Notation short := (observed_udp_session_id sha256).

(** * The end *)

Lemma close_retired_facts l heap millis i :
  let '(ev, heap') := close_retired sha256 cfg l heap millis i in
  let '(taken, heap'') := take_each ((λ y : Z * (Arc * list byte), (y.1, y.2.1)) <$> l) heap in
  heap' = heap'' ∧ opened ev = [] ∧ (rc_observability cfg = true → ended ev = short <$> l.*1)
  ∧ ∀ f, Side f → reported f ev = lsum (λ x, f x.2) taken.
Proof.
  revert heap i. induction l as [|[id [a reason]] l IH]; intros heap i; simpl; [done|].
  specialize (IH (<[a := TrafficCounters_default]> heap) (S i)).
  destruct (close_retired _ _ _ _ _ _) as [ev heap']. simpl in IH.
  destruct (take_each _ _) as [taken heap'']. destruct IH as (->&I1&I2&I3).
  set (c := default _ _). destruct (flush_entry_facts sha256 cfg id c) as (F1&F2&F3).
  destruct (close_facts sha256 cfg id reason (millis i)) as (C1&C2&C3).
  rewrite !opened_app, !ended_app, F1, F2, C1, I1. split_and!; try done.
  - intros Ho. by rewrite C2, I2.
  - intros f Hf. rewrite !reported_app, F3, C3, I3 by done. simpl. lia.
Qed.
Lemma msum_zero (f : TrafficCounters → Z) (heap : TrafficHeap) :
  (∀ a c, heap !! a = Some c → f c = 0) → msum f heap = 0.
Proof.
  induction heap as [|a c heap Ha IH] using map_ind; intros H; [apply msum_empty|].
  rewrite msum_insert, (H a c), IH; [done| |by rewrite lookup_insert_eq|done].
  intros b d Hb. apply (H b). rewrite lookup_insert_ne; [done|]. intros ->. congruence.
Qed.

(** Everything was reported. *)
Definition accounted (r : res UdpRelayError ()) (s : Relay) : Prop :=
  let ev := events (outside s) in
  (∃ extra, opened ev ++ extra ≡ₚ ended ev ∧ (r ≠ Err DataChannelClosed → extra = []) ∧ (length extra ≤ 1)%nat)
  ∧ (lsum delivered_bytes (written (chan s)) ≤ u64_max → reported received_bytes ev = lsum delivered_bytes (written (chan s)))
  ∧ (reply_bytes (outside s) ≤ u64_max → reported sent_bytes ev = reply_bytes (outside s)).
Definition returned_ok (r : res UdpRelayError ()) (s : Relay) : Prop :=
  receiver_open (chan s) = false ∧ flow_len (flows (sess s)) = 0
  ∧ um_sessions (metrics s) = 0 ∧ um_queued (metrics s) = 0
  ∧ (rc_observability cfg = true → r ≠ Err RetirementDeliveryFailed → accounted r s).

Lemma q_arcs_ids q :
  rc_observability cfg = true → Forall (λ f, is_Some (fl_traffic f) ↔ rc_observability cfg = true) q →
  (q_arcs q).*1 = fl_id <$> q.
Proof.
  intros Hobs. unfold q_arcs. induction 1 as [|f q Hf Hall IH]; [done|]. destruct (proj2 Hf Hobs) as [a Ea].
  simpl. rewrite Ea. simpl. f_equal. exact IH.
Qed.
Lemma cleanup_ok r millis s :
  closing_ok sha256 cfg r s → receiver_open (chan s) = false → returned_ok r (cleanup_relay sha256 cfg millis s).
Proof.
  intros (q&lost&extra&H&Hlost&Hextra&Hlen) Ho. unfold cleanup_relay.
  destruct (flush_sessions_inv sha256 cfg s q lost extra H) as [H1 Hz].
  assert (chan (flush_sessions sha256 cfg s) = chan s) as Ec.
  { unfold flush_sessions. by destruct (take_observed_traffic _ _). }
  assert (replies (outside (flush_sessions sha256 cfg s)) = replies (outside s)) as Erep.
  { unfold flush_sessions. by destruct (take_observed_traffic _ _). }
  set (s1 := flush_sessions sha256 cfg s) in *. clearbody s1. set (ids := session_ids _).
  simpl. pose proof (close_retired_facts (retired_list (sess s1)) (traffic (sess s1)) millis (length ids)) as Hc.
  destruct (close_each_facts sha256 cfg ids channel_ended_reason millis 0) as (L1&L2&L3).
  destruct (close_retired _ _ _ _ _ _) as [ev heap]. simpl.
  pose proof H1 as []. assert ((λ y : Z * (Arc * list byte), (y.1, y.2.1)) <$> retired_list (sess s1) = retired_arcs (sess s1)) as Ear.
  { unfold retired_list, retired_arcs. by destruct (retired_traffic _). }
  rewrite Ear in Hc.
  assert (Forall (λ x, is_Some (traffic (sess s1) !! x.2)) (retired_arcs (sess s1))) as Hdom.
  { apply Forall_forall. intros x Hx. apply (ao_dom _ _ _ _ ri_arcs). pose proof (ao_live _ _ _ _ ri_arcs) as Hl.
    rewrite Forall_forall in Hl. apply Hl. unfold live. rewrite !elem_of_app. auto. }
  pose proof (take_each_ok _ _ Hdom (ao_nonneg _ _ _ _ ri_arcs)) as Ht.
  destruct (take_each _ _) as [taken heap']. destruct Hc as (->&R1&R2&R3). destruct Ht as (T1&T2&T3&T4&T5&T6).
  split_and!; simpl; try done; [by rewrite Ec|]. intros Hobs Hr. specialize (Hlost Hr). subst lost.
  assert (∀ f, Side f → msum f heap' = 0) as Hzero.
  { intros f Hf. apply msum_zero. intros a c Ha. destruct (decide (a ∈ (retired_arcs (sess s1)).*2)) as [Hin|Hn].
    - rewrite T5 in Ha by done. simplify_eq. apply side_default.
    - rewrite T6 in Ha by done. destruct (decide (a ∈ (q_arcs q).*2)) as [Hin|Hn2].
      + apply list_elem_of_fmap in Hin as (x&->&Hx). rewrite (Hz x Hx) in Ha. simplify_eq. apply side_default.
      + assert (c = TrafficCounters_default) as ->; [|apply side_default].
        apply (ao_dead _ _ _ _ ri_arcs a c Ha). unfold live. rewrite app_nil_r, fmap_app, elem_of_app. tauto. }
  assert (∀ f total, Side f → side_ok f total (traffic (sess s1)) (events (outside s1)) → total ≤ u64_max →
    reported f ((events (outside s1) ++ close_each sha256 cfg ids channel_ended_reason millis 0) ++ ev) = total) as Hside.
  { intros f total Hf [S1 S2] Htot. rewrite !reported_app, L3, R3 by done. specialize (S2 Htot). specialize (T4 f Hf).
    specialize (Hzero f Hf). lia. }
  unfold accounted. simpl. split_and!.
  - exists extra. split_and!; [|done|done]. rewrite !opened_app, !ended_app, L1, R1, L2, R2 by done. rewrite !app_nil_r.
    rewrite (ri_sessions Hobs), <- (assoc_L (++)). apply Permutation_app_head.
    unfold live. rewrite app_nil_r, !fmap_app. apply Permutation_app.
    + assert (ids ≡ₚ fl_id <$> q) as -> by apply session_ids_rep, H1. apply fmap_Permutation.
      by rewrite (q_arcs_ids q Hobs ri_traffic).
    + assert ((retired_arcs (sess s1)).*1 = (retired_list (sess s1)).*1) as ->; [|done].
      rewrite <- Ear, <- list_fmap_compose. by apply list_fmap_ext.
  - rewrite Ec in ri_received |- *. intros Htot. apply Hside; [apply _|exact ri_received|exact Htot].
  - unfold reply_bytes. simpl. rewrite Erep. intros Htot. apply Hside; [apply _| |done].
    specialize (ri_sent Hobs). unfold reply_bytes in ri_sent. by rewrite Erep in ri_sent.
Qed.

(** * Reachable states *)

(** The draws of a step never name a session that is still being retired. *)
Definition fresh_step (s : Relay) (l : RelayStep) : Prop :=
  match l with StepPublic _ entropy _ _ => fresh_draws s entropy | _ => True end.
Inductive relay_reachable (batch : Z) : Relay → Prop :=
| relay_starts now s : relay_start cfg now = Ok (batch, s) → relay_reachable batch s
| relay_steps s l s' : relay_reachable batch s → fresh_step s l → relay_step sha256 cfg batch s l = Some s' →
    relay_reachable batch s'.

Definition phase_ok (s : Relay) : Prop :=
  match phase s with
  | Relaying => relaying_ok sha256 cfg s
  | Closing r => closing_ok sha256 cfg r s
  | Returned r => returned_ok r s
  | Abandoned _ | Crashed => True
  end.
Definition is_returned (s : Relay) : bool := match phase s with Returned _ => true | _ => false end.
Definition relay_ok (s : Relay) : Prop :=
  chan_ok (exact := negb (is_returned s)) cfg s ∧ replies_ok s ∧ phase_ok s.

Lemma start_ok now batch s : limits_is_valid (rc_limits cfg) = true → relay_start cfg now = Ok (batch, s) → relay_ok s ∧ 0 ≤ batch.
Proof.
  intros Hl. unfold relay_start. destruct (_ || _) eqn:Hq; [done|]. apply orb_false_iff in Hq as [Hq _].
  apply Z.leb_gt in Hq. destruct (effective_sweep_batch _ _) as [b| |] eqn:Eb; [|done|done].
  destruct (ok_or _ _) as [x| |]; [|done|done]. simpl. intros [= <- <-].
  split; [|]. 2: { unfold effective_sweep_batch in Eb. destruct (ok_or _ _) as [m| |]; [|done|done]. simpl in Eb.
    apply Ok_inj in Eb as <-. unfold limits_is_valid in Hl. rewrite !andb_true_iff in Hl. destruct Hl as [[_ Hb] _].
    apply Z.ltb_lt in Hb. lia. }
  split_and!; [| |].
  - split; simpl; try done; [change (blen []) with 0; lia|by exists []|]. by exists [].
  - by constructor.
  - exists []. split_and!; [| |done].
    + split; simpl; try done; [apply flow_new_ok| | |].
      * destruct (rc_observability cfg); [split; [done|by eexists]|split; [by intros [? ?]|done]].
      * unfold live, retired_arcs. simpl. destruct (rc_observability cfg); simpl; rewrite ?map_to_list_empty; split; simpl; try done;
          try (by constructor); try (by intros a; rewrite lookup_empty; split; [intros [? ?]|lia]).
      * intros _. unfold live, retired_arcs. simpl. destruct (rc_observability cfg); simpl; by rewrite ?map_to_list_empty.
    + unfold retire_inv, retired_arcs. simpl. split; try (by constructor).
      * intros id Hid. by apply elem_of_nil in Hid.
      * by intros [].
Qed.

Lemma writes_phase s s' :
  writes sha256 cfg s s' → chan_ok (exact := true) cfg s' → (∀ r, phase s ≠ Returned r) → relay_ok s → relay_ok s'.
Proof.
  intros (W1&W2&W3&W4&W5) Hc Hn (_&Hr&Hp). split_and!; [by apply chan_weaken|by apply W5|]. unfold phase_ok in *. rewrite W4.
  destruct (phase s) as [|r|r|e|]; try done.
  - destruct Hp as (q&H&Hi&Hs). exists q. split_and!; [by apply W1|by apply W2|by rewrite W3].
  - destruct Hp as (q&lost&extra&H&Hx). exists q, lost, extra. split; [by apply W1|done].
  - by destruct (Hn r).
Qed.
Lemma closing_phase r s : closing_ok sha256 cfg r s → closing_ok sha256 cfg r (with_phase s (Closing r)).
Proof. intros (q&lost&extra&H&Hx). exists q, lost, extra. split; [by apply inv_phase|done]. Qed.
Lemma closing_replies r s : closing_ok sha256 cfg r s → replies_ok s.
Proof. intros (q&lost&extra&[]&_). done. Qed.
Lemma after_ok (x : Flowing * Relay) : phase x.2 = Relaying → flow_ok sha256 cfg x → replies_ok (after x) ∧ phase_ok (after x).
Proof.
  destruct x as [[|r|e|] s]; simpl; intros E H; unfold after, phase_ok; simpl.
  - rewrite E. split; [exact (relaying_replies sha256 cfg s H)|exact H].
  - split; [exact (closing_replies r s H)|exact (closing_phase r s H)].
  - by split.
  - by split.
Qed.

(** What the handlers leave alone. *)
Definition keeps (s s' : Relay) : Prop := phase s' = phase s ∧ replies (outside s') = replies (outside s).
Lemma keeps_trans s s1 s2 : keeps s s1 → keeps s1 s2 → keeps s s2.
Proof. intros [E1 E2] [E3 E4]. split; congruence. Qed.
Lemma enqueue_keeps s m d r : keeps s (try_enqueue cfg s m d r).2.
Proof. unfold try_enqueue. destruct (negb _); [done|]. by destruct (_ <=? _). Qed.
Lemma retire_loop_keeps expired s : keeps s (retire_loop cfg expired s).2.
Proof.
  revert s. induction expired as [|e expired IH]; intros s; simpl; [done|].
  match goal with |- context [try_enqueue cfg ?x ?m ?d ?r] => pose proof (enqueue_keeps x m d r) as H; assert (keeps s x) as Hx end.
  { by destruct (retired_traffic (sess s)), (ef_observed_traffic e). }
  destruct (try_enqueue _ _ _ _ _) as [[] s1]; simpl in *; [|by eapply keeps_trans..].
  eapply keeps_trans; [exact Hx|]. by eapply keeps_trans.
Qed.
Lemma on_sweep_keeps batch now s : keeps s (on_sweep cfg batch now s).2.
Proof.
  unfold on_sweep. destruct (sweep_expired _ _ _ _) as [[expired t]| |]; [|done|done].
  case_bool_decide; [done|]. match goal with |- keeps _ (retire_loop _ _ ?x).2 => exact (retire_loop_keeps expired x) end.
Qed.
Lemma on_public_keeps received entropy now millis s : keeps s (on_public sha256 cfg received entropy now millis s).2.
Proof.
  unfold on_public. destruct received as [[]|bytes source]; [done..|]. destruct (_ <? blen _); [done|].
  assert (∀ key, keeps s (flow_for cfg entropy key now s).2) as Hf.
  { intros key. unfold flow_for. by destruct (session_for _ _ _ _ _). }
  match goal with |- context [flow_for cfg entropy ?key now s] => specialize (Hf key) end.
  destruct (flow_for _ _ _ _ _) as [[[id inserted]|[]|] s1]; try done. simpl in Hf. cbv zeta.
  destruct (bounded_try_from _ _) as [payload| |]; [|done..].
  match goal with |- context [try_enqueue cfg ?x ?m ?d ?r] => pose proof (enqueue_keeps x m d r) as H; assert (keeps s x) as Hx by done end.
  pose proof (keeps_trans _ _ _ Hx H) as H2. clear H Hx Hf.
  destruct (try_enqueue _ _ _ _ _) as [[] s2]; simpl in H2; [| |done].
  - destruct inserted; [|done]. unfold open_udp_session. destruct (rc_observability cfg); [|done]. by destruct (bounded_label _).
  - by destruct inserted.
Qed.
Lemma on_retired_keeps millis s : keeps s (on_retired sha256 cfg millis s).2.
Proof.
  unfold on_retired. destruct (acks (chan s)) as [|id rest]; [done|]. destruct (retired_traffic (sess s)) as [r|]; [|done].
  by destruct (r !! id) as [[a reason]|].
Qed.
Lemma on_flush_keeps s : keeps s (on_flush sha256 cfg s).
Proof.
  unfold on_flush, flush_retired, flush_sessions. destruct (take_observed_traffic _ _). simpl. by destruct (take_each _ _).
Qed.
Lemma on_frame_phase frame sent now s : phase (on_frame cfg frame sent now s).2 = phase s.
Proof.
  unfold on_frame. destruct frame as [frame|e|]; [|done|done]. destruct (negb _); [done|].
  destruct (frame_message frame); try done. destruct (negb _); [done|]. destruct (_ <? _); [done|].
  destruct (validate_reply _ _ _ _ _) as [valid t]. destruct (negb valid); [done|].
  destruct sent as [| |n]; [done..|]. destruct (negb _); [done|].
  assert (∀ x, phase (count_reply (ud_session_id m) n x) = phase x) as Hc.
  { intros x. unfold count_reply. simpl. by destruct (flow_traffic _ _). }
  case_bool_decide; exact (Hc _).
Qed.

Lemma is_relaying_true s : negb (is_relaying s) = false → phase s = Relaying.
Proof. unfold is_relaying. by destruct (phase s). Qed.
(** A relay that has returned does nothing any more. *)
Lemma returned_stays batch s l s' : relay_ok s → relay_step sha256 cfg batch s l = Some s' → is_returned s = false.
Proof.
  intros (_&_&Hp) Hstep. unfold is_returned, phase_ok in *. destruct (phase s) as [| |r| |] eqn:Ep; try done.
  destruct Hp as [Ho _]. unfold receiver_open in Ho. destruct (writer (chan s)) eqn:Ew; try done.
  assert (is_relaying s = false) as Er by (unfold is_relaying; by rewrite Ep).
  destruct l; simpl in Hstep; rewrite ?Er, ?Ew, ?Ep in Hstep; done.
Qed.
Lemma relay_step_ok batch s l s' :
  0 ≤ batch → relay_ok s → fresh_step s l → relay_step sha256 cfg batch s l = Some s' → relay_ok s'.
Proof.
  intros Hb Hok Hfresh Hstep. pose proof Hok as (Hc&Hrep&Hp).
  rewrite (returned_stays batch s l s' Hok Hstep) in Hc. simpl in Hc.
  assert (∀ x, keeps s x.2 ∨ phase x.2 = Relaying → phase s = Relaying → chan_ok (exact := true) cfg x.2 → flow_ok sha256 cfg x → relay_ok (after x)) as Hafter.
  { intros x Hk Ep Hcx Hx. split; [by apply chan_weaken, after_chan|]. apply after_ok; [|exact Hx]. destruct Hk as [[-> _]|Hk]; [exact Ep|exact Hk]. }
  assert (∀ s1, writes sha256 cfg s s1 → chan_ok (exact := true) cfg s1 → receiver_open (chan s) = true → relay_ok s1) as Hwrites.
  { intros s1 Hw Hc1 Ho. apply (writes_phase s); [done|done| |done]. intros r Er. unfold phase_ok in Hp. rewrite Er in Hp.
    destruct Hp as [Ho' _]. congruence. }
  destruct l; simpl in Hstep;
    try (destruct (negb (is_relaying s)) eqn:Erel; [done|]; apply is_relaying_true in Erel; unfold phase_ok in Hp; rewrite Erel in Hp).
  - injection Hstep as <-. split_and!; [apply chan_weaken; by revert Hc; apply chan_same; split_and!|done|].
    apply closing_phase. by apply relaying_closing.
  - destruct (writer (chan s)); [done..|]. injection Hstep as <-. split_and!; [apply chan_weaken; by revert Hc; apply chan_same; split_and!|done|].
    apply closing_phase. by apply relaying_closing.
  - case_bool_decide as Ea; [done|]. destruct (bool_decide _); [done|]. injection Hstep as <-.
    apply Hafter; [left; apply on_retired_keeps|done|by apply on_retired_chan|by apply on_retired_ok].
  - destruct (rc_observability cfg); [|done]. injection Hstep as <-. split; [by apply chan_weaken, flush_chan|].
    destruct (on_flush_keeps s) as [E1 E2]. unfold replies_ok, phase_ok. rewrite E1, E2, Erel.
    pose proof (on_flush_ok sha256 cfg s Hp) as Hf. split; [|exact Hf]. rewrite <- E2. exact (relaying_replies sha256 cfg _ Hf).
  - injection Hstep as <-. apply Hafter; [left; apply on_sweep_keeps|done|by apply on_sweep_chan|by apply on_sweep_ok].
  - injection Hstep as <-. apply Hafter; [left; apply on_public_keeps|done|by apply on_public_chan|by apply on_public_ok].
  - injection Hstep as <-. apply Hafter; [right; by rewrite on_frame_phase|done|by apply on_frame_chan|by apply on_frame_ok].
  - destruct (writer (chan s)) eqn:Ew; [|done..]. destruct (queue (chan s)) as [|q rest] eqn:Eq; [done|].
    destruct (shut_down s); [done|]. injection Hstep as <-. apply Hwrites; [by apply writer_take_writes|by apply writer_take_chan|].
    unfold receiver_open. by rewrite Ew.
  - destruct (writer (chan s)) as [|q e|] eqn:Ew; [done| |done]. destruct (shut_down s); [done|]. injection Hstep as <-.
    apply Hwrites; [by apply writer_wrote_writes|by apply writer_wrote_chan|]. unfold receiver_open. by rewrite Ew.
  - destruct (writer (chan s)) as [|q e|] eqn:Ew; [done| |done]. destruct (shut_down s); [done|]. injection Hstep as <-.
    apply Hwrites; [by apply writer_ends_writes| |].
    { apply (writer_ends_chan cfg s); try done. simpl. unfold pending, receiver_open. rewrite Ew, blen_cons.
      split; [|done]. rewrite (co_queued _ _ Hc) by (by rewrite Ew). lia. }
    unfold receiver_open. by rewrite Ew.
  - assert (receiver_open (chan s) = true ∧ s' = writer_stop s) as [Ho ->].
    { unfold receiver_open. destruct (writer (chan s)); [|destruct (shut_down s)|]; simplify_eq/=; try done.
      destruct (_ || _); by simplify_eq/=. }
    apply Hwrites; [apply writer_stop_writes|by apply writer_stop_chan|done].
  - destruct (phase s) as [|r| | |] eqn:Ep; [done| |done..]. destruct (writer (chan s)) as [| |w] eqn:Ew; [done..|].
    injection Hstep as <-. unfold phase_ok in Hp. rewrite Ep in Hp.
    assert (receiver_open (chan s) = false) as Ho by (unfold receiver_open; by rewrite Ew).
    pose proof (cleanup_chan sha256 cfg millis s Ho eq_refl (chan_weaken cfg false s Hc)) as Hc'. pose proof (cleanup_ok r millis s Hp Ho) as Hr'.
    split_and!; [by revert Hc'; apply chan_same; split_and!| |exact Hr'].
    unfold replies_ok, cleanup_relay, flush_sessions in *. destruct (take_observed_traffic _ _). simpl.
    by destruct (close_retired _ _ _ _ _ _).
Qed.
Lemma reachable_relay_ok batch s :
  limits_is_valid (rc_limits cfg) = true → relay_reachable batch s → relay_ok s ∧ 0 ≤ batch.
Proof.
  intros Hl. induction 1 as [now s Hs|s l s' Hr [IH Hb] Hf Hstep]; [by eapply start_ok|].
  split; [|done]. by eapply relay_step_ok.
Qed.

(** * Properties *)

(** C15: the queue of a relay to its writer never holds more than its capacity; what enters
    it is written in that order, and the bytes on the data connection are the encodings of the
    written messages. While the writer runs, what has entered and is not written is the
    message it holds and the queue, and the metric of the queue is the queue's length. When
    the writer has been shut down, the metric is zero. When it failed instead, at a message
    that could not be encoded or written, the queue is gone with the receiver and its messages
    stay counted: until the relay returns, the metric is the number of entered and unwritten
    messages but the one that failed. Once the relay has returned both metrics are zero, and
    while it runs the metric of sessions is the number of flows, which is at most the
    limit. *)
Theorem relay_books batch s :
  limits_is_valid (rc_limits cfg) = true → relay_reachable batch s →
  blen (queue (chan s)) ≤ ul_queue_capacity (rc_limits cfg)
  ∧ (∃ rest, enqueued (chan s) = written (chan s) ++ rest
      ∧ match writer (chan s) with
        | WriterDone (Ok _) => um_queued (metrics s) = 0
        | WriterDone _ => is_returned s = false → um_queued (metrics s) + 1 = blen rest
        | _ => rest = pending (chan s) ∧ um_queued (metrics s) = blen (queue (chan s))
        end)
  ∧ (∃ l, Forall2 (encodes cfg) (written (chan s)) l ∧ wire (outside s) = concat l)
  ∧ (is_returned s = true → um_queued (metrics s) = 0 ∧ um_sessions (metrics s) = 0)
  ∧ (phase s = Relaying → um_sessions (metrics s) = flow_len (flows (sess s))
      ∧ um_sessions (metrics s) ≤ Z.max 0 (rc_max_sessions cfg)).
Proof.
  intros Hl Hr. destruct (reachable_relay_ok batch s Hl Hr) as [([H1 (rest&E&Hrest) H3 Hf H4 _ H6]&_&Hp) _].
  unfold receiver_open in *. split_and!; try done.
  - exists rest. split; [done|]. destruct (writer (chan s)) as [| |[u|x|]]; simpl in *.
    + by rewrite H3, Hrest.
    + by rewrite H3, Hrest.
    + by rewrite H3, H6.
    + intros Er. rewrite Er in Hf. specialize (Hf eq_refl eq_refl). rewrite E, blen_app in Hf. lia.
    + intros Er. rewrite Er in Hf. specialize (Hf eq_refl eq_refl). rewrite E, blen_app in Hf. lia.
  - intros Er. unfold is_returned, phase_ok in *. destruct (phase s); try done. by destruct Hp as (_&_&?&?&_).
  - intros Ep. unfold phase_ok in Hp. rewrite Ep in Hp. destruct Hp as (q&[]&_&Hs). rewrite Hs.
    rewrite (flow_len_rep _ q ri_rep). split; [done|]. rewrite <- ri_cap. apply ri_rep.
Qed.

Lemma step_replies batch s l s' :
  relay_step sha256 cfg batch s l = Some s' →
  (∀ frame sent now, l ≠ StepFrame frame sent now) → replies (outside s') = replies (outside s).
Proof.
  intros Hstep Hl.
  assert (∀ x, keeps s x.2 → replies (outside (after x)) = replies (outside s)) as Ha.
  { intros x [_ E]. unfold after. by destruct x.1. }
  destruct l; simpl in Hstep; try (destruct (negb (is_relaying s)); [done|]).
  - by simplify_eq.
  - destruct (writer (chan s)); by simplify_eq.
  - case_bool_decide; [done|]. destruct (bool_decide _); [done|]. simplify_eq/=. apply Ha, on_retired_keeps.
  - destruct (rc_observability cfg); [|done]. simplify_eq/=. apply on_flush_keeps.
  - simplify_eq/=. apply Ha, on_sweep_keeps.
  - simplify_eq/=. apply Ha, on_public_keeps.
  - by destruct (Hl frame sent now).
  - destruct (writer (chan s)), (queue (chan s)); try done. destruct (shut_down s); [done|]. simplify_eq/=.
    unfold writer_take. by destruct (Frame.encode _ _ _ _).
  - destruct (writer (chan s)); try done. destruct (shut_down s); [done|]. simplify_eq/=. unfold writer_wrote.
    by destruct (qm_delivered q) as [[a n]|].
  - destruct (writer (chan s)); try done. destruct (shut_down s); by simplify_eq/=.
  - destruct (writer (chan s)); [destruct (_ || _)|destruct (shut_down s)|]; by simplify_eq/=.
  - destruct (phase s), (writer (chan s)); simplify_eq/=. unfold cleanup_relay, flush_sessions.
    destruct (take_observed_traffic _ _). simpl. by destruct (close_retired _ _ _ _ _ _).
Qed.

(** a relay never sends to an address that has not sent to it. A reply leaves only for a
    datagram of the data connection that names a session of the table, has its tunnel and is
    within the payload limit, unchanged, to the source whose datagrams opened the session. *)
Theorem relay_replies batch s l s' :
  limits_is_valid (rc_limits cfg) = true → relay_reachable batch s → relay_step sha256 cfg batch s l = Some s' →
  replies (outside s') = replies (outside s)
  ∨ ∃ frame now d e, l = StepFrame (Ok frame) (SendDone (blen (ud_payload d))) now
      ∧ frame_message frame = MUdpDatagram d ∧ frame_version frame = rc_version cfg
      ∧ ud_tunnel_id d = rc_tunnel_id cfg ∧ blen (ud_payload d) ≤ rc_max_payload cfg
      ∧ by_id (flows (sess s)) !! ud_session_id d = Some e
      ∧ fk_source (fe_key e) ∈ accepted_from (outside s)
      ∧ replies (outside s') = replies (outside s) ++ [(fk_source (fe_key e), ud_payload d)].
Proof.
  intros Hl Hr Hstep. destruct l; try (left; by eapply step_replies). simpl in Hstep.
  destruct (negb (is_relaying s)) eqn:Erel; [done|]. apply is_relaying_true in Erel. simplify_eq/=.
  destruct (reachable_relay_ok batch s Hl Hr) as [(_&_&Hp) _]. unfold phase_ok in Hp. rewrite Erel in Hp.
  destruct Hp as (q&[]&_&_). assert (∀ x, replies (outside (after x)) = replies (outside x.2)) as Ha.
  { intros x. unfold after. by destruct x.1. }
  rewrite Ha. unfold on_frame. destruct frame as [frame|e|]; [|by left..].
  destruct (bool_decide_reflect (frame_version frame = rc_version cfg)) as [Ev|]; [|by left]. simpl.
  destruct (frame_message frame) eqn:Em; try by left. rename m into d.
  destruct (Z.eqb_spec (ud_tunnel_id d) (rc_tunnel_id cfg)) as [Et|]; [|by left]. simpl.
  destruct (Z.ltb_spec (rc_max_payload cfg) (blen (ud_payload d))) as [|Hlen]; [by left|].
  pose proof (validate_reply_ok _ q (ud_session_id d) (socket_addr_from_wire (ud_source d)) (public_destination cfg) now ri_rep) as Hv.
  destruct (validate_reply _ _ _ _ _) as [valid t]. destruct (q_validate q _ _ _ _) as [valid' q'] eqn:Eq.
  destruct Hv as (->&_). destruct valid'; [|by left]. apply q_validate_true in Eq as (f&Hf&Ei&Es&->).
  destruct sent as [| |n]; [by left..|]. simpl.
  destruct (Z.eqb_spec n (blen (ud_payload d))) as [->|]; [|by left]. simpl. right.
  destruct (rep_id _ q ri_rep f Hf) as (l1&l2&_&Eb). rewrite Ei in Eb. rewrite Forall_forall in ri_sources.
  exists frame, now, d, (entry_of l1 f l2). split_and!; try done; [by apply ri_sources|].
  assert (∀ x, replies (outside (count_reply (ud_session_id d) (blen (ud_payload d)) x)) = replies (outside x)) as Hc.
  { intros x. unfold count_reply. simpl. by destruct (flow_traffic _ _). }
  case_bool_decide; simpl; rewrite Hc; simpl; by rewrite Es.
Qed.

(** the accounts of a relay. While it runs, the sessions it has reported as opened are
    those it has reported as closed and those in its table or awaiting their retirement; and
    once it has returned, unless it failed to queue a retirement, every session it opened has
    been closed, and the bytes it has reported in both directions are those of the datagrams it
    wrote to the data connection and of the replies it sent. *)
Theorem relay_accounts batch s :
  limits_is_valid (rc_limits cfg) = true → rc_observability cfg = true → relay_reachable batch s →
  let ev := events (outside s) in
  match phase s with
  | Relaying =>
    opened ev ≡ₚ ended ev ++ (short <$> (session_ids (flows (sess s)) ++ (retired_arcs (sess s)).*1))
  | Returned r =>
    r ≠ Err RetirementDeliveryFailed →
    (∃ extra, opened ev ++ extra ≡ₚ ended ev ∧ (r ≠ Err DataChannelClosed → extra = []) ∧ (length extra ≤ 1)%nat)
    ∧ (lsum delivered_bytes (written (chan s)) ≤ u64_max → reported received_bytes ev = lsum delivered_bytes (written (chan s)))
    ∧ (reply_bytes (outside s) ≤ u64_max → reported sent_bytes ev = reply_bytes (outside s))
  | _ => True
  end.
Proof.
  intros Hl Ho Hr ev. destruct (reachable_relay_ok batch s Hl Hr) as [(_&_&Hp) _]. unfold phase_ok in Hp.
  destruct (phase s); try done.
  - destruct Hp as (q&[]&_&_). specialize (ri_sessions Ho). rewrite app_nil_r in ri_sessions. unfold ev.
    rewrite ri_sessions. apply Permutation_app_head, fmap_Permutation. unfold live. rewrite app_nil_r, fmap_app.
    apply Permutation_app_tail. rewrite (session_ids_rep _ q ri_rep).
    assert ((q_arcs q).*1 = fl_id <$> q) as ->; [|done]. by apply q_arcs_ids.
  - destruct Hp as (_&_&_&_&Hacc). intros Hne. by apply Hacc.
Qed.

Lemma abandoned_step batch s l s' e :
  phase s = Abandoned e → relay_step sha256 cfg batch s l = Some s' →
  phase s' = Abandoned e ∧ events (outside s') = events (outside s).
Proof.
  intros Ep Hstep. assert (is_relaying s = false) as Er by (unfold is_relaying; by rewrite Ep).
  assert (shut_down s = false) as Es by (unfold shut_down; by rewrite Ep).
  destruct l; simpl in Hstep; rewrite ?Er, ?Es, ?Ep in Hstep; try done.
  - destruct (writer (chan s)), (queue (chan s)); try done. simplify_eq/=. unfold writer_take.
    by destruct (Frame.encode _ _ _ _).
  - destruct (writer (chan s)) as [|q b|]; try done. simplify_eq/=. unfold writer_wrote. by destruct (qm_delivered q) as [[a n]|].
  - destruct (writer (chan s)); try done. by simplify_eq/=.
  - destruct (writer (chan s)); [destruct (_ || _)|..]; by simplify_eq/=.
Qed.
Lemma abandoned_run batch s l s' e :
  phase s = Abandoned e → relay_run sha256 cfg batch s l = Some s' →
  phase s' = Abandoned e ∧ events (outside s') = events (outside s).
Proof.
  revert s. induction l as [|x l IH]; intros s Ep; simpl; [by intros [= <-]|].
  destruct (relay_step _ _ _ _ _) as [s1|] eqn:E; simpl; [|done].
  destruct (abandoned_step batch s x s1 e Ep E) as [Ep1 <-]. by apply IH.
Qed.

(** a reply that the public socket refuses to send ends the relay without its cleanup:
    whatever happens next, no event is emitted any more, so every session in its table stays
    open in what has been reported, with the bytes counted since the last flush unreported. *)
Theorem send_failure_skips_cleanup batch s frame d entry now l s' :
  limits_is_valid (rc_limits cfg) = true → rc_observability cfg = true → relay_reachable batch s → phase s = Relaying →
  frame_version frame = rc_version cfg → frame_message frame = MUdpDatagram d → ud_tunnel_id d = rc_tunnel_id cfg →
  blen (ud_payload d) ≤ rc_max_payload cfg → by_id (flows (sess s)) !! ud_session_id d = Some entry →
  fe_key entry = {| fk_source := socket_addr_from_wire (ud_source d); fk_destination := public_destination cfg |} →
  relay_run sha256 cfg batch s (StepFrame (Ok frame) SendFailed now :: l) = Some s' →
  phase s' = Abandoned UdpIo ∧ events (outside s') = events (outside s)
  ∧ opened (events (outside s'))
    ≡ₚ ended (events (outside s')) ++ (short <$> (session_ids (flows (sess s)) ++ (retired_arcs (sess s)).*1)).
Proof.
  intros Hl Ho Hr Ep Ev Em Et Hlen He Hk Hrun. simpl in Hrun.
  assert (is_relaying s = true) as Er by (unfold is_relaying; by rewrite Ep). rewrite Er in Hrun. simpl in Hrun.
  rewrite Em, Et, Z.eqb_refl, bool_decide_true in Hrun by done. simpl in Hrun.
  destruct (Z.ltb_spec (rc_max_payload cfg) (blen (ud_payload d))); [lia|].
  unfold validate_reply in Hrun. rewrite He, Hk in Hrun. simpl in Hrun. rewrite !bool_decide_true in Hrun by done. simpl in Hrun.
  unfold after in Hrun. simpl in Hrun. 
  match type of Hrun with relay_run _ _ _ ?x _ = _ => destruct (abandoned_run batch x l s' UdpIo eq_refl Hrun) as [Ep' Ee] end.
  simpl in Ee.
  split_and!; [done|done|]. rewrite Ee.
  destruct (reachable_relay_ok batch s Hl Hr) as [(_&_&Hp) _]. unfold phase_ok in Hp. rewrite Ep in Hp.
  destruct Hp as (q&[]&_&_). specialize (ri_sessions Ho). rewrite app_nil_r in ri_sessions.
  rewrite ri_sessions. apply Permutation_app_head, fmap_Permutation. unfold live. rewrite app_nil_r, fmap_app.
  apply Permutation_app_tail. rewrite (session_ids_rep _ q ri_rep). by rewrite q_arcs_ids.
Qed.
End relay.

(** * Runs *)

Section runs.
Context `{P : Postcard} (sha256 : list byte → list byte) (cfg : RelayConfig) (batch : Z).

Definition constant_draws (l : RelayStep) : Prop :=
  match l with StepPublic _ entropy _ _ => ∀ i, entropy i = entropy 0%nat | _ => True end.
Definition draw_ok (s : Relay) (draw : option Z) : bool :=
  match draw with Some id => bool_decide (id ∉ (retired_arcs (sess s)).*1) | None => true end.
Definition checked_step (s : Relay) (l : RelayStep) : option Relay :=
  match l with
  | StepPublic _ entropy _ _ =>
    if draw_ok s (entropy 0%nat) then relay_step sha256 cfg batch s l else None
  | _ => relay_step sha256 cfg batch s l
  end.
Fixpoint checked_run (s : Relay) (l : list RelayStep) : option Relay :=
  match l with [] => Some s | x :: l => s ← checked_step s x; checked_run s l end.
Lemma run_reachable s l s' :
  relay_reachable sha256 cfg batch s → Forall constant_draws l → checked_run s l = Some s' →
  relay_reachable sha256 cfg batch s'.
Proof.
  intros Hr Hl. revert s Hr. induction Hl as [|x l Hx Hl IH]; intros s Hr; simpl; [by intros [= <-]|].
  intros H. destruct (checked_step s x) as [s1|] eqn:E; simpl in H; [|done]. apply (IH s1); [|done].
  assert (relay_step sha256 cfg batch s x = Some s1 ∧ fresh_step s x) as [Hs Hf].
  { unfold checked_step in E. destruct x as [| | | | |received entropy now millis| | | | | |]; try done. simpl in Hx.
    destruct (draw_ok s (entropy 0%nat)) eqn:Ed; [|done]. split; [done|].
    intros i id Ei. rewrite Hx in Ei. rewrite Ei in Ed. simpl in Ed. by apply bool_decide_eq_true in Ed. }
  by eapply relay_steps.
Qed.
End runs.

(** A relay with room for one message in its queue, and three clients. *)
#[local] Definition demo_relay : RelayConfig :=
  {| rc_tunnel_id := 7; rc_tunnel_name := [x64]; rc_version := {| major := 0; minor := 6 |};
     rc_max_sessions := 8; rc_max_payload := 1200;
     rc_limits := {| ul_queue_capacity := 1; ul_idle_timeout := 60000000000; ul_sweep_interval := 1000000000;
                     ul_sweep_batch := 64; ul_writer_delay := 0; ul_test_disconnect_after_replies := None |};
     rc_observability := true; rc_identity := {| aci_name := [x63]; aci_generation := 1 |};
     rc_local_addr := SaV4 [x0a; x00; x00; x01] 53 |}.
#[local] Definition demo_source (p : Z) : SocketAddr := SaV4 [x0a; x00; x00; x02] p.
#[local] Definition demo_datagram (p now : Z) : RelayStep :=
  StepPublic (PublicDatagram [x68; x69] (demo_source p)) (λ _, Some p) now now.
#[local] Definition demo_reply (p : Z) (sent : SendResult) : RelayStep :=
  StepFrame (Ok {| frame_version := {| major := 0; minor := 6 |}; frame_flags := 0;
    frame_message := MUdpDatagram {| ud_tunnel_id := 7; ud_session_id := p; ud_source := wire_socket_addr (demo_source p);
                                     ud_payload := [x68; x65; x79] |} |}) sent 5.
#[local] Definition demo_start : Relay :=
  match relay_start demo_relay 0 with Ok (_, s) => s | _ => {| sess := {| flows := FlowTable_new 0 false; traffic := ∅;
    next_arc := 0%nat; retired_traffic := None |}; chan := {| queue := []; writer := WriterIdle; acks := []; enqueued := [];
    written := [] |}; metrics := UdpMetrics_default; forwarded_replies := 0; outside := {| accepted_from := []; replies := [];
    wire := []; events := [] |}; phase := Crashed |} end.
#[local] Definition demo_ran (l : list RelayStep) : Relay :=
  default demo_start (checked_run (P := postcard_ref) (λ b, b) demo_relay 64 demo_start l).
#[local] Definition demo_pass (p now : Z) : list RelayStep := [demo_datagram p now; StepWriterTake; StepWriterWrote].
#[local] Definition demo_two : list RelayStep := demo_pass 1 0 ++ demo_pass 2 1 ++ [demo_reply 1 (SendDone 3); StepFlush].
#[local] Definition demo_ended : list RelayStep :=
  demo_two ++ [StepSweep 60000000002; StepWriterTake; StepWriterWrote; StepRetired 9; demo_reply 1 (SendDone 3);
               StepCancelled; StepWriterStopped; StepFinish (λ _, 10)].

Lemma demo_start_reachable : relay_reachable (P := postcard_ref) (λ b, b) demo_relay 64 demo_start.
Proof. apply (relay_starts (P := postcard_ref) (λ b, b) demo_relay 64 0). reflexivity. Qed.
Lemma demo_reachable_run l :
  Forall constant_draws l → (∃ s, checked_run (P := postcard_ref) (λ b, b) demo_relay 64 demo_start l = Some s) →
  relay_reachable (P := postcard_ref) (λ b, b) demo_relay 64 (demo_ran l).
Proof.
  intros Hl [s E]. unfold demo_ran. rewrite E. eapply run_reachable; [apply demo_start_reachable|exact Hl|exact E].
Qed.

#[local] Definition demo_served : Relay := demo_ran demo_two.
#[local] Definition demo_answered : Relay := demo_ran (demo_two ++ [demo_reply 2 (SendDone 3)]).
#[local] Definition demo_finished : Relay := demo_ran demo_ended.
#[local] Definition demo_failed : Relay :=
  default demo_start (relay_run (P := postcard_ref) (λ b, b) demo_relay 64 demo_served [demo_reply 1 SendFailed; StepWriterStopped]).
Lemma demo_served_reachable : relay_reachable (P := postcard_ref) (λ b, b) demo_relay 64 demo_served.
Proof. apply demo_reachable_run; [by repeat constructor|]. eexists. vm_compute. reflexivity. Qed.
Lemma demo_finished_reachable : relay_reachable (P := postcard_ref) (λ b, b) demo_relay 64 demo_finished.
Proof. apply demo_reachable_run; [by repeat constructor|]. eexists. vm_compute. reflexivity. Qed.
Lemma demo_answered_step :
  relay_step (P := postcard_ref) (λ b, b) demo_relay 64 demo_served (demo_reply 2 (SendDone 3)) = Some demo_answered.
Proof. vm_compute. reflexivity. Qed.
Lemma demo_failed_run :
  relay_run (P := postcard_ref) (λ b, b) demo_relay 64 demo_served [demo_reply 1 SendFailed; StepWriterStopped] = Some demo_failed.
Proof. vm_compute. reflexivity. Qed.

Lemma relay_books_witness :
  (um_sessions (metrics demo_served) = 2 ∧ blen (wire (outside demo_served)) = 98)
  ∧ blen (queue (chan demo_served)) ≤ ul_queue_capacity (rc_limits demo_relay).
Proof.
  split; [vm_compute; split; reflexivity|].
  exact (proj1 (relay_books (P := postcard_ref) (λ b, b) demo_relay 64 demo_served eq_refl demo_served_reachable)).
Defined.

Lemma relay_replies_witness :
  length (replies (outside demo_answered)) = 2%nat ∧ length (replies (outside demo_served)) = 1%nat
  ∧ (replies (outside demo_answered) = replies (outside demo_served)
     ∨ ∃ frame now d e, demo_reply 2 (SendDone 3) = StepFrame (Ok frame) (SendDone (blen (ud_payload d))) now
      ∧ frame_message frame = MUdpDatagram d ∧ frame_version frame = rc_version demo_relay
      ∧ ud_tunnel_id d = rc_tunnel_id demo_relay ∧ blen (ud_payload d) ≤ rc_max_payload demo_relay
      ∧ by_id (flows (sess demo_served)) !! ud_session_id d = Some e
      ∧ fk_source (fe_key e) ∈ accepted_from (outside demo_served)
      ∧ replies (outside demo_answered) = replies (outside demo_served) ++ [(fk_source (fe_key e), ud_payload d)]).
Proof.
  split; [vm_compute; reflexivity|]. split; [vm_compute; reflexivity|].
  exact (relay_replies (P := postcard_ref) (λ b, b) demo_relay 64 demo_served (demo_reply 2 (SendDone 3)) demo_answered
    eq_refl demo_served_reachable demo_answered_step).
Defined.

Lemma relay_accounts_witness :
  phase demo_finished = Returned (Ok ()) ∧ reply_bytes (outside demo_finished) = 6
  ∧ (reply_bytes (outside demo_finished) ≤ u64_max →
     reported sent_bytes (events (outside demo_finished)) = reply_bytes (outside demo_finished)).
Proof.
  assert (phase demo_finished = Returned (Ok ())) as E by (vm_compute; reflexivity).
  split; [exact E|]. split; [vm_compute; reflexivity|].
  pose proof (relay_accounts (P := postcard_ref) (λ b, b) demo_relay 64 demo_finished eq_refl eq_refl demo_finished_reachable) as H.
  cbv zeta in H. rewrite E in H. exact (proj2 (proj2 (H ltac:(discriminate)))).
Defined.

#[local] Definition demo_data : UdpDatagram :=
  {| ud_tunnel_id := 7; ud_session_id := 1; ud_source := wire_socket_addr (demo_source 1); ud_payload := [x68; x65; x79] |}.
#[local] Definition demo_entry : FlowEntry :=
  {| fe_key := {| fk_source := demo_source 1; fk_destination := SaV4 [x0a; x00; x00; x01] 53 |}; last_activity := 5;
     previous := None; next := Some 2; observed_traffic := Some 0%nat |}.
Lemma send_failure_skips_cleanup_witness :
  (phase demo_failed = Abandoned UdpIo ∧ events (outside demo_failed) = events (outside demo_served))
  ∧ length (opened (events (outside demo_failed))) = 2%nat ∧ ended (events (outside demo_failed)) = [].
Proof.
  split; [|vm_compute; split; reflexivity].
  assert (phase demo_served = Relaying) as E by (vm_compute; reflexivity).
  assert (by_id (flows (sess demo_served)) !! ud_session_id demo_data = Some demo_entry) as He by (vm_compute; reflexivity).
  pose proof (send_failure_skips_cleanup (P := postcard_ref) (λ b, b) demo_relay 64 demo_served
    {| frame_version := {| major := 0; minor := 6 |}; frame_flags := 0; frame_message := MUdpDatagram demo_data |}
    demo_data demo_entry 5 [StepWriterStopped] demo_failed eq_refl eq_refl demo_served_reachable E eq_refl eq_refl eq_refl
    ltac:(vm_compute; discriminate) He eq_refl demo_failed_run) as (H1&H2&_).
  exact (conj H1 H2).
Defined.

(** Three sessions expire together while the queue has room for one retirement: the relay ends,
    and the third session, which is no longer in the table and not yet awaiting its retirement,
    is never closed. *)
Example retirement_failure_loses_session :
  let s := demo_ran (demo_pass 1 0 ++ demo_pass 2 1 ++ demo_pass 3 2
    ++ [StepSweep 60000000002; StepWriterStopped; StepFinish (λ _, 10)]) in
  phase s = Returned (Err RetirementDeliveryFailed)
  ∧ length (opened (events (outside s))) = 3%nat ∧ length (ended (events (outside s))) = 2%nat.
Proof. vm_compute. split_and!; reflexivity. Qed.
