(* ===== verification/Coordinator.v ===== *)
(** The server's rendezvous coordinator ([rustgos/src/rendezvous.rs]): sessions between two
    authenticated devices, their limits and expiry, the routing of envelopes and of peer
    relay frames, and the release of punch grants.  Every method is a function from the
    coordinator's state to its result, its new state and its effects. *)

From S2P Require Import Prelude.
From S2P Require Import Ordered.
From S2P Require Import Wire.
From S2P Require Import Postcard.
From S2P Require Import Messages.
From S2P Require Import Events.
From S2P Require Import Frame.
From S2P Require Import RvMessages.
From S2P Require Import RvState.
From S2P Require Import Handshake.
From S2P Require Import Registry.
From Stdlib Require Import Strings.Byte.
From stdpp Require Import prelude gmap list strings.

#[local] Open Scope Z_scope.

Definition EXPIRY_MAINTENANCE_BATCH : nat := Z.to_nat 1024.
#[global] Opaque EXPIRY_MAINTENANCE_BATCH.
Definition OBSERVABILITY_FLUSH_INTERVAL : Z := 250000000.
Definition PEER_AEAD_TAG_BYTES : Z := 16.
(** Durations in nanoseconds. *)
Definition ONE_SECOND : Z := 1000000000.

Module RendezvousErrorCode.
Definition UNKNOWN_PEER : Z := 1.
Definition PEER_DISABLED : Z := 2.
Definition PEER_OFFLINE : Z := 3.
Definition SELF_TARGET : Z := 4.
Definition CAPACITY_REACHED : Z := 5.
Definition DUPLICATE_SESSION : Z := 6.
Definition IDENTITY_MISMATCH : Z := 7.
Definition EXPIRED : Z := 8.
Definition UNKNOWN_SESSION : Z := 9.
Definition NOT_PARTICIPANT : Z := 10.
Definition INVALID_STATE : Z := 11.
Definition DELIVERY_UNAVAILABLE : Z := 12.
Definition PEER_DISCONNECTED : Z := 13.
Definition UNSUPPORTED_PEER_VERSION : Z := 14.
Definition INVALID_EXPIRY : Z := 15.

Definition detail (code : Z) : list byte :=
  str (match code with
       | 1 => "unknown peer"
       | 2 => "peer is disabled"
       | 3 => "peer is offline"
       | 4 => "cannot rendezvous with self"
       | 5 => "rendezvous capacity reached"
       | 6 => "duplicate rendezvous session"
       | 7 => "authenticated identity mismatch"
       | 8 => "rendezvous session expired"
       | 9 => "unknown rendezvous session"
       | 10 => "authenticated device is not a session participant"
       | 11 => "invalid rendezvous state"
       | 12 => "rendezvous delivery unavailable"
       | 13 => "peer control session disconnected"
       | 14 => "peer does not support rendezvous"
       | 15 => "rendezvous expiry is outside the server horizon"
       | _ => "rendezvous rejected"
       end)%string.
End RendezvousErrorCode.
Import RendezvousErrorCode.

(** * What the coordinator sees of the registry *)

(** A control session, as its [ControlSessionGuard] or [ActiveControlSession] shows it. *)
Record ActiveControlSession := {
  acs_identity : AuthenticatedClient;
  acs_version : ProtocolVersion;
  acs_observability : AuthenticatedClientIdentity;
}.

(** One reading of the registry; [cv_room] is whether the outbound queue of a control
    session is open and has a free place. *)
Record ControlView := {
  cv_is_active_session : AuthenticatedClient → bool;
  cv_active_control_session : list byte → option ActiveControlSession;
  cv_room : AuthenticatedClient → bool;
  cv_observability_enabled : bool;
}.

(** What a call reads besides the coordinator's state: the registry, the clocks and the
    random token, each as its successive readings. *)
Record Env := {
  view : nat → ControlView;
  unix_secs : nat → Z;
  unix_millis : nat → Z;
  instant : nat → Z;
  random_token : list byte;
}.

(** [Instant::elapsed]. *)
Definition elapsed (started now : Z) : Z := saturating_sub now started.

(** * State *)

(** What a call does to the outside: messages put into the outbound queue of a control
    session, and events given to [try_observe]. *)
Inductive Effect :=
| Sent (to : AuthenticatedClient) (m : Message)
| Observed (e : ObservationEvent).

Record RendezvousSessionMetadata := {
  md_session_id : list byte;
  md_consumer : list byte;
  md_provider : list byte;
  md_export : list byte;
  md_protocol : option Z;
  md_expires_unix_secs : Z;
}.
Record RendezvousLimits := {
  max_sessions : Z;
  max_sessions_per_device : Z;
  session_ttl_secs : Z;
}.
Record DirectoryEntry := { de_public_key : list byte; de_enabled : bool }.

Record SessionOwner := {
  so_name : list byte;
  so_fingerprint : list byte;
  so_control_session_id : list byte;
  so_observability : AuthenticatedClientIdentity;
}.
#[export] Instance session_owner_eq_dec : EqDecision SessionOwner.
Proof. solve_decision. Defined.

Record RelayAdmission := {
  requested_by : Z;
  datagram : option bool;
  window_started : Z;
  frames_in_window : Z;
  bytes_in_window : Z;
}.

Record StoredSession := {
  ss_metadata : RendezvousSessionMetadata;
  ss_consumer : SessionOwner;
  ss_provider : SessionOwner;
  ss_state : RendezvousState;
  ss_relay : RelayAdmission;
  ss_announced_by : Z;
  ss_digests : option (list byte) * option (list byte);
  ss_generation_started : Z;
  ss_observed_path : option SessionPath;
  ss_fallback_consumer : Z;
  ss_fallback_provider : Z;
  ss_preselection_traffic : TrafficCounters;
  ss_relay_traffic : TrafficCounters;
  ss_last_flush : Z;
}.
Record SessionTombstone := {
  ts_consumer : SessionOwner;
  ts_provider : SessionOwner;
  ts_expires_unix_secs : Z;
}.
Inductive SessionRecord :=
| RActive (session : StoredSession)
| RTombstone (tombstone : SessionTombstone).

Record ExpiryEntry := { ee_expires_unix_secs : Z; ee_session_id : list byte }.
#[export] Instance expiry_entry_eq_dec : EqDecision ExpiryEntry.
Proof. solve_decision. Defined.

(** [CoordinatorState]; the heap of [Reverse<ExpiryEntry>] as its entries in ascending
    order. *)
Record CoordinatorState := {
  sessions : gmap (list byte) SessionRecord;
  device_counts : gmap (list byte) Z;
  expiry : list ExpiryEntry;
}.
Definition CoordinatorState_default : CoordinatorState :=
  {| sessions := ∅; device_counts := ∅; expiry := [] |}.

(** The immutable part of [RendezvousCoordinator]. *)
Record RendezvousCoordinator := {
  directory : gmap (list byte) DirectoryEntry;
  limits : RendezvousLimits;
}.

(** [RendezvousCoordinator::new]: the name, public key and [enabled] of each client; a name
    given twice keeps the last. *)
Definition RendezvousCoordinator_new (clients : list (list byte * list byte * bool))
    (l : RendezvousLimits) : RendezvousCoordinator :=
  {| directory := foldl (λ d '(name, public_key, enabled),
       <[name := {| de_public_key := public_key; de_enabled := enabled |}]> d) ∅ clients;
     limits := l |}.

(** * Small operations *)

Definition active_of (r : SessionRecord) : option StoredSession :=
  match r with RActive s => Some s | RTombstone _ => None end.
Definition record_expires (r : SessionRecord) : Z :=
  match r with
  | RActive s => md_expires_unix_secs (ss_metadata s)
  | RTombstone t => ts_expires_unix_secs t
  end.
Definition devices (r : SessionRecord) : list byte * list byte :=
  match r with
  | RActive s => (so_name (ss_consumer s), so_name (ss_provider s))
  | RTombstone t => (so_name (ts_consumer t), so_name (ts_provider t))
  end.
Definition tombstone_of (s : StoredSession) : SessionTombstone :=
  {| ts_consumer := ss_consumer s; ts_provider := ss_provider s;
     ts_expires_unix_secs := md_expires_unix_secs (ss_metadata s) |}.

Definition SessionOwner_from (c : ActiveControlSession) : SessionOwner :=
  {| so_name := ac_name (acs_identity c); so_fingerprint := ac_fingerprint (acs_identity c);
     so_control_session_id := ac_session_id (acs_identity c);
     so_observability := acs_observability c |}.
(** [SessionOwner::matches]. *)
Definition owner_matches (o : SessionOwner) (identity : AuthenticatedClient) : bool :=
  bool_decide (so_name o = ac_name identity)
  && bool_decide (so_fingerprint o = ac_fingerprint identity)
  && bool_decide (so_control_session_id o = ac_session_id identity).

(** [Ord for ExpiryEntry]: by expiry, then by the bytes of the identifier. *)
Definition entry_le (a b : ExpiryEntry) : bool :=
  (ee_expires_unix_secs a <? ee_expires_unix_secs b)
  || ((ee_expires_unix_secs a =? ee_expires_unix_secs b)
      && bytes_le (ee_session_id a) (ee_session_id b)).
(** [BinaryHeap::push]. *)
Fixpoint heap_push (e : ExpiryEntry) (h : list ExpiryEntry) : list ExpiryEntry :=
  match h with
  | [] => [e]
  | x :: h => if entry_le e x then e :: x :: h else x :: heap_push e h
  end.

Definition RelayAdmission_new (now : Z) : RelayAdmission :=
  {| requested_by := 0; datagram := None; window_started := now; frames_in_window := 0;
     bytes_in_window := 0 |}.
Definition authorized (r : RelayAdmission) : bool := requested_by r =? 3.

Definition MAX_FRAMES_PER_SECOND : Z := 256.
Definition MAX_BYTES_PER_SECOND : Z := 4 * 1024 * 1024.
(** [RelayAdmission::admit]; [now] and [now'] are the two readings of the clock. *)
Definition RelayAdmission_admit (r : RelayAdmission) (now now' bytes : Z) : bool * RelayAdmission :=
  let r :=
    if ONE_SECOND <=? elapsed (window_started r) now
    then {| requested_by := requested_by r; datagram := datagram r; window_started := now';
            frames_in_window := 0; bytes_in_window := 0 |}
    else r in
  match checked_add u64_max (bytes_in_window r) bytes with
  | None => (false, r)
  | Some next_bytes =>
    if (MAX_FRAMES_PER_SECOND <=? frames_in_window r) || (MAX_BYTES_PER_SECOND <? next_bytes)
    then (false, r)
    else (true, {| requested_by := requested_by r; datagram := datagram r;
                   window_started := window_started r;
                   frames_in_window := frames_in_window r + 1; bytes_in_window := next_bytes |})
  end.

Definition increment_device_count (counts : gmap (list byte) Z) (device : list byte)
    : gmap (list byte) Z :=
  <[device := default 0 (counts !! device) + 1]> counts.
Definition decrement_device_count (counts : gmap (list byte) Z) (device : list byte)
    : gmap (list byte) Z :=
  match counts !! device with
  | Some count =>
    if count - 1 =? 0 then delete device counts else <[device := count - 1]> counts
  | None => counts
  end.
Definition decrement_record_counts (counts : gmap (list byte) Z) (r : SessionRecord)
    : gmap (list byte) Z :=
  let '(consumer, provider) := devices r in
  decrement_device_count (decrement_device_count counts consumer) provider.

Definition with_sessions (st : CoordinatorState) (m : gmap (list byte) SessionRecord)
    : CoordinatorState :=
  {| sessions := m; device_counts := device_counts st; expiry := expiry st |}.

Definition tombstone_session (st : CoordinatorState) (session_id : list byte)
    : option StoredSession * CoordinatorState :=
  match sessions st !! session_id with
  | None => (None, st)
  | Some (RActive session) =>
    (Some session,
     with_sessions st (<[session_id := RTombstone (tombstone_of session)]> (sessions st)))
  | Some (RTombstone t) => (None, with_sessions st (<[session_id := RTombstone t]> (sessions st)))
  end.

Definition supports_v02 (v : ProtocolVersion) : bool :=
  (major v =? major Version.V0_2) && (minor Version.V0_2 <=? minor v).

Definition other_participant (s : StoredSession) (identity : AuthenticatedClient)
    (claimed_target : list byte) : res Z SessionOwner :=
  target ← (if owner_matches (ss_consumer s) identity then Ok (ss_provider s)
            else if owner_matches (ss_provider s) identity then Ok (ss_consumer s)
            else Err NOT_PARTICIPANT);
  if negb (bool_decide (so_name target = claimed_target)) then Err IDENTITY_MISMATCH
  else Ok target.

(** Field updates of [StoredSession]. *)
Definition with_state (s : StoredSession) (x : RendezvousState) : StoredSession :=
  Build_StoredSession (ss_metadata s) (ss_consumer s) (ss_provider s) x (ss_relay s)
    (ss_announced_by s) (ss_digests s) (ss_generation_started s) (ss_observed_path s)
    (ss_fallback_consumer s) (ss_fallback_provider s) (ss_preselection_traffic s)
    (ss_relay_traffic s) (ss_last_flush s).
Definition with_protocol (s : StoredSession) (p : option Z) : StoredSession :=
  let m := ss_metadata s in
  Build_StoredSession
    {| md_session_id := md_session_id m; md_consumer := md_consumer m;
       md_provider := md_provider m; md_export := md_export m; md_protocol := p;
       md_expires_unix_secs := md_expires_unix_secs m |}
    (ss_consumer s) (ss_provider s) (ss_state s) (ss_relay s)
    (ss_announced_by s) (ss_digests s) (ss_generation_started s) (ss_observed_path s)
    (ss_fallback_consumer s) (ss_fallback_provider s) (ss_preselection_traffic s)
    (ss_relay_traffic s) (ss_last_flush s).
Definition with_relay (s : StoredSession) (r : RelayAdmission) : StoredSession :=
  Build_StoredSession (ss_metadata s) (ss_consumer s) (ss_provider s) (ss_state s) r
    (ss_announced_by s) (ss_digests s) (ss_generation_started s) (ss_observed_path s)
    (ss_fallback_consumer s) (ss_fallback_provider s) (ss_preselection_traffic s)
    (ss_relay_traffic s) (ss_last_flush s).
Definition with_candidates (s : StoredSession) (announced_by : Z)
    (digests : option (list byte) * option (list byte)) (started : Z) : StoredSession :=
  Build_StoredSession (ss_metadata s) (ss_consumer s) (ss_provider s) (ss_state s) (ss_relay s)
    announced_by digests started (ss_observed_path s)
    (ss_fallback_consumer s) (ss_fallback_provider s) (ss_preselection_traffic s)
    (ss_relay_traffic s) (ss_last_flush s).
Definition with_observed_path (s : StoredSession) (p : option SessionPath) : StoredSession :=
  Build_StoredSession (ss_metadata s) (ss_consumer s) (ss_provider s) (ss_state s) (ss_relay s)
    (ss_announced_by s) (ss_digests s) (ss_generation_started s) p
    (ss_fallback_consumer s) (ss_fallback_provider s) (ss_preselection_traffic s)
    (ss_relay_traffic s) (ss_last_flush s).
Definition with_fallback (s : StoredSession) (consumer provider : Z) : StoredSession :=
  Build_StoredSession (ss_metadata s) (ss_consumer s) (ss_provider s) (ss_state s) (ss_relay s)
    (ss_announced_by s) (ss_digests s) (ss_generation_started s) (ss_observed_path s)
    consumer provider (ss_preselection_traffic s) (ss_relay_traffic s) (ss_last_flush s).
Definition with_traffic (s : StoredSession) (preselection relay : TrafficCounters)
    : StoredSession :=
  Build_StoredSession (ss_metadata s) (ss_consumer s) (ss_provider s) (ss_state s) (ss_relay s)
    (ss_announced_by s) (ss_digests s) (ss_generation_started s) (ss_observed_path s)
    (ss_fallback_consumer s) (ss_fallback_provider s) preselection relay (ss_last_flush s).
Definition with_last_flush (s : StoredSession) (now : Z) : StoredSession :=
  Build_StoredSession (ss_metadata s) (ss_consumer s) (ss_provider s) (ss_state s) (ss_relay s)
    (ss_announced_by s) (ss_digests s) (ss_generation_started s) (ss_observed_path s)
    (ss_fallback_consumer s) (ss_fallback_provider s) (ss_preselection_traffic s)
    (ss_relay_traffic s) now.

(** * Delivery and notices *)

Definition reserve_to (v : ControlView) (owner : SessionOwner) : res Z AuthenticatedClient :=
  active ← ok_or (cv_active_control_session v (so_name owner)) PEER_OFFLINE;
  if negb (owner_matches owner (acs_identity active)) then Err PEER_OFFLINE else
  if cv_room v (acs_identity active) then Ok (acs_identity active)
  else Err DELIVERY_UNAVAILABLE.

(** [route_to] with its result ignored, as its only caller does: [try_send] is a
    reservation that is used at once. *)
Definition route_to (v : ControlView) (owner : SessionOwner) (m : Message) : list Effect :=
  match reserve_to v owner with Ok to => [Sent to m] | _ => [] end.

Definition server_notice (session_id : list byte) (code : Z) (peer : option (list byte))
    : res Z Message :=
  detail ← expect (res_ok (bounded_try_from Messages.MAX_ERROR_DETAIL_BYTES (detail code)));
  peer ← match peer with
         | None => Ok None
         | Some name =>
           name ← expect (res_ok (bounded_try_from MAX_CLIENT_NAME_BYTES name)); Ok (Some name)
         end;
  Ok (MServerNotice {| sn_session_id := session_id; sn_code := code; sn_detail := detail;
                       sn_peer := peer |}).

Definition send_server_notice (v : ControlView) (s : StoredSession) (target : SessionOwner)
    (code : Z) : res Z (list Effect) :=
  message ← server_notice (md_session_id (ss_metadata s)) code
    (Some (if bool_decide (ss_consumer s = target) then so_name (ss_provider s)
           else so_name (ss_consumer s)));
  Ok (route_to v target message).

Definition error_response (request : RendezvousEnvelope) (code : Z) : res Z Message :=
  server_notice (env_session_id request) code (Some (env_target request)).

(** * Observability *)

Section coordinator.
Context `{P : Postcard} (sha256 : list byte → list byte).

Definition observed_p2p_session_id (session_id : list byte) : list byte :=
  short_session_id sha256 session_id.

Definition p2p_traffic_event (s : StoredSession) (counters : TrafficCounters)
    : option ObservationEvent :=
  if bool_decide (counters = TrafficCounters_default) then None
  else Some (ByteCounterDelta (so_observability (ss_consumer s))
               (Some (observed_p2p_session_id (md_session_id (ss_metadata s)))) counters).

Definition take_p2p_traffic (s : StoredSession) : option ObservationEvent * StoredSession :=
  let s' := with_traffic s (ss_preselection_traffic s) TrafficCounters_default in
  (p2p_traffic_event s' (ss_relay_traffic s), s').

Definition observe_p2p_open (millis : Z) (s : StoredSession) (path : SessionPath)
    : res Z ObservationEvent :=
  peer ← expect (res_ok (bounded_label (so_name (ss_provider s))));
  export ← expect (res_ok (bounded_label (md_export (ss_metadata s))));
  Ok (P2pSessionOpened (so_observability (ss_consumer s))
        (observed_p2p_session_id (md_session_id (ss_metadata s))) peer (Some export) path millis).

Definition observe_p2p_close (millis : Z) (s : StoredSession) (reason : list byte)
    : res Z (list Effect) :=
  let traffic := Observed <$> option_list (p2p_traffic_event s (ss_relay_traffic s)) in
  if bool_decide (is_Some (ss_observed_path s)) then
    reason ← expect (res_ok (bounded_label reason));
    Ok (traffic ++
        [Observed (P2pSessionClosed (so_observability (ss_consumer s))
           (observed_p2p_session_id (md_session_id (ss_metadata s))) millis (Some reason))])
  else Ok traffic.

(** * Expiry *)

(** The loop of [expire_sessions_batch]: the active sessions it has removed, in order. *)
Fixpoint expire_loop (n : nat) (now : Z) (st : CoordinatorState)
    : list StoredSession * CoordinatorState :=
  match n, expiry st with
  | S n, next :: rest =>
    if now <? ee_expires_unix_secs next then ([], st) else
    let st := {| sessions := sessions st; device_counts := device_counts st; expiry := rest |} in
    match sessions st !! ee_session_id next with
    | Some record =>
      if record_expires record =? ee_expires_unix_secs next then
        let st := {| sessions := delete (ee_session_id next) (sessions st);
                     device_counts := decrement_record_counts (device_counts st) record;
                     expiry := expiry st |} in
        let '(removed, st) := expire_loop n now st in
        (option_list (active_of record) ++ removed, st)
      else expire_loop n now st
    | None => expire_loop n now st
    end
  | _, _ => ([], st)
  end.

(** The notices of expired sessions; reading [base + 2 k] of the registry serves the
    consumer of the [k]-th, the next one its provider. *)
Fixpoint expiry_notices (env : Env) (base : nat) (removed : list StoredSession)
    : res Z (list Effect) :=
  match removed with
  | [] => Ok []
  | s :: removed =>
    closed ← observe_p2p_close (unix_millis env base) s (str "expired");
    to_consumer ← send_server_notice (view env base) s (ss_consumer s) EXPIRED;
    to_provider ← send_server_notice (view env (S base)) s (ss_provider s) EXPIRED;
    rest ← expiry_notices env (S (S base)) removed;
    Ok (closed ++ to_consumer ++ to_provider ++ rest)
  end.

Definition expire_sessions_batch (env : Env) (base : nat) (now : Z) (st : CoordinatorState)
    : res Z (list Effect) * CoordinatorState :=
  let '(removed, st) := expire_loop EXPIRY_MAINTENANCE_BATCH now st in
  (expiry_notices env base removed, st).

(** One record in the loop of [flush_observability_due]. *)
Definition flush_record (env : Env) (r : SessionRecord) : list ObservationEvent * SessionRecord :=
  match r with
  | RActive s =>
    if OBSERVABILITY_FLUSH_INTERVAL <=? elapsed (ss_last_flush s) (instant env 0) then
      let '(event, s) := take_p2p_traffic s in
      (option_list event, RActive (with_last_flush s (instant env 1)))
    else ([], r)
  | RTombstone _ => ([], r)
  end.
Definition flush_observability_due (env : Env) (st : CoordinatorState)
    : list Effect * CoordinatorState :=
  if negb (cv_observability_enabled (view env 0)) then ([], st) else
  (Observed <$> concat ((λ x, (flush_record env x.2).1) <$> map_to_list (sessions st)),
   with_sessions st ((λ r, (flush_record env r).2) <$> sessions st)).

Definition expire_now (env : Env) (st : CoordinatorState) : res Z (list Effect) * CoordinatorState :=
  let '(r, st) := expire_sessions_batch env 1 (unix_secs env 0) st in
  match r with
  | Ok notices =>
    let '(flushed, st) := flush_observability_due env st in (Ok (notices ++ flushed), st)
  | Err e => (Err e, st)
  | Panic => (Panic, st)
  end.

(** * The methods *)

(** A method's result, the state after it and its effects, in order. *)
Definition outcome (A : Type) : Type := res Z A * CoordinatorState * list Effect.

(** Run a check that changes nothing; on an error the method returns it. *)
Definition checked {A B} (st : CoordinatorState) (m : res Z A) (k : A → outcome B) : outcome B :=
  match m with Ok a => k a | Err e => (Err e, st, []) | Panic => (Panic, st, []) end.

Definition validate_origin (env : Env) (authenticated : ActiveControlSession)
    (envelope : RendezvousEnvelope) : res Z unit :=
  if negb (cv_is_active_session (view env 0) (acs_identity authenticated))
     || negb (bool_decide (env_sender envelope = ac_name (acs_identity authenticated)))
     || negb (bool_decide (env_version envelope = acs_version authenticated))
  then Err IDENTITY_MISMATCH else
  if negb (supports_v02 (env_version envelope)) then Err UNSUPPORTED_PEER_VERSION else
  if env_expires_unix_secs envelope <=? unix_secs env 0 then Err EXPIRED else Ok tt.

Definition get_active (st : CoordinatorState) (session_id : list byte) : res Z StoredSession :=
  record ← ok_or (sessions st !! session_id) UNKNOWN_SESSION;
  ok_or (active_of record) UNKNOWN_SESSION.

Definition device_count (st : CoordinatorState) (device : list byte) : Z :=
  default 0 (device_counts st !! device).

(** The checks of [request] before and under the lock, up to the reservation. *)
Definition check_request (c : RendezvousCoordinator) (env : Env) (st : CoordinatorState)
    (authenticated : ActiveControlSession) (envelope : RendezvousEnvelope)
    : res Z (RendezvousRequest * SessionOwner * RendezvousState * Message * AuthenticatedClient) :=
  _ ← validate_origin env authenticated envelope;
  request ← match env_payload envelope with PRequest r => Ok r | _ => Err INVALID_STATE end;
  _ ← guard_err (bool_decide (env_target envelope = ac_name (acs_identity authenticated)))
        SELF_TARGET;
  _ ← match directory c !! env_target envelope with
      | None => Err UNKNOWN_PEER
      | Some entry => guard_err (negb (de_enabled entry)) PEER_DISABLED
      end;
  provider ← ok_or (cv_active_control_session (view env 1) (env_target envelope)) PEER_OFFLINE;
  _ ← guard_err (negb (supports_v02 (acs_version provider))) UNSUPPORTED_PEER_VERSION;
  let now := unix_secs env 1 in
  _ ← guard_err (env_expires_unix_secs envelope <=? now) EXPIRED;
  max_expiry ← ok_or (checked_add u64_max now (session_ttl_secs (limits c))) INVALID_EXPIRY;
  _ ← guard_err (max_expiry <? env_expires_unix_secs envelope) INVALID_EXPIRY;
  state ← map_err (λ _, INVALID_STATE)
    (RvState.request (RendezvousState_new (env_session_id envelope)) (env_step envelope)
       (env_generation envelope));
  let consumer_owner := SessionOwner_from authenticated in
  let provider_owner := SessionOwner_from provider in
  message ← map_err (λ _, INVALID_STATE) (envelope_to_protocol_message envelope);
  _ ← guard_err (bool_decide (is_Some (sessions st !! env_session_id envelope))) DUPLICATE_SESSION;
  _ ← guard_err ((max_sessions (limits c) <=? Z.of_nat (size (sessions st)))
         || (max_sessions_per_device (limits c) <=? device_count st (so_name consumer_owner))
         || (max_sessions_per_device (limits c) <=? device_count st (so_name provider_owner)))
        CAPACITY_REACHED;
  permit ← reserve_to (view env 2) provider_owner;
  Ok (request, provider_owner, state, message, permit).

Definition request (c : RendezvousCoordinator) (env : Env) (st : CoordinatorState)
    (authenticated : ActiveControlSession) (envelope : RendezvousEnvelope) : outcome (list byte) :=
  checked st (check_request c env st authenticated envelope)
    (λ '(request, provider_owner, state, message, permit),
      let consumer_owner := SessionOwner_from authenticated in
      let session :=
        {| ss_metadata :=
             {| md_session_id := env_session_id envelope; md_consumer := so_name consumer_owner;
                md_provider := so_name provider_owner; md_export := rr_export request;
                md_protocol := None; md_expires_unix_secs := env_expires_unix_secs envelope |};
           ss_consumer := consumer_owner; ss_provider := provider_owner; ss_state := state;
           ss_relay := RelayAdmission_new (instant env 0); ss_announced_by := 0;
           ss_digests := (None, None); ss_generation_started := instant env 1;
           ss_observed_path := None;
           ss_fallback_consumer := if cv_observability_enabled (view env 3) then 1 else 0;
           ss_fallback_provider := if cv_observability_enabled (view env 4) then 2 else 0;
           ss_preselection_traffic := TrafficCounters_default;
           ss_relay_traffic := TrafficCounters_default; ss_last_flush := instant env 2 |} in
      (Ok (env_session_id envelope),
       {| sessions := <[env_session_id envelope := RActive session]> (sessions st);
          device_counts :=
            increment_device_count
              (increment_device_count (device_counts st) (so_name consumer_owner))
              (so_name provider_owner);
          expiry := heap_push {| ee_expires_unix_secs := env_expires_unix_secs envelope;
                                 ee_session_id := env_session_id envelope |} (expiry st) |},
       [Sent permit message])).

Definition check_decision (env : Env) (st : CoordinatorState)
    (authenticated : ActiveControlSession) (envelope : RendezvousEnvelope)
    : res Z (ProviderDecision * StoredSession * RendezvousState * Message * AuthenticatedClient) :=
  _ ← validate_origin env authenticated envelope;
  decision ← match env_payload envelope with PProviderDecision d => Ok d | _ => Err INVALID_STATE end;
  message ← map_err (λ _, INVALID_STATE) (envelope_to_protocol_message envelope);
  session ← get_active st (env_session_id envelope);
  _ ← guard_err (md_expires_unix_secs (ss_metadata session) <=? unix_secs env 1) EXPIRED;
  _ ← guard_err (negb (owner_matches (ss_provider session) (acs_identity authenticated)))
        NOT_PARTICIPANT;
  _ ← guard_err (negb (bool_decide (env_target envelope = so_name (ss_consumer session))))
        IDENTITY_MISMATCH;
  next ← map_err (λ _, INVALID_STATE)
    (RvState.provider_decision (ss_state session) (env_step envelope) (env_generation envelope)
       (pd_accepted decision));
  permit ← reserve_to (view env 1) (ss_consumer session);
  Ok (decision, session, next, message, permit).

Definition provider_decision (env : Env) (st : CoordinatorState)
    (authenticated : ActiveControlSession) (envelope : RendezvousEnvelope) : outcome unit :=
  checked st (check_decision env st authenticated envelope)
    (λ '(decision, session, next, message, permit),
      let session := with_state session next in
      let session := if pd_accepted decision then with_protocol session (pd_protocol decision)
                     else session in
      let st := with_sessions st (<[env_session_id envelope := RActive session]> (sessions st)) in
      let st := if negb (pd_accepted decision) then (tombstone_session st (env_session_id envelope)).2
                else st in
      (Ok tt, st, [Sent permit message])).

(** What [forward_envelope] computes before it reserves a place: the target, the next session
    state, and the updates of the relay, of the candidate generation ([announced_by], whether
    it advanced) and of the observed path. *)
Record ForwardUpdate := {
  fu_target : SessionOwner;
  fu_state : RendezvousState;
  fu_relay : option (Z * bool);
  fu_generation : option (Z * bool);
  fu_path : option SessionPath;
}.

Definition participant_bit (s : StoredSession) (identity : AuthenticatedClient) : Z :=
  if owner_matches (ss_consumer s) identity then 1 else 2.

Definition generation_update (env : Env) (s : StoredSession) (participant : Z)
    (envelope : RendezvousEnvelope) (next : RendezvousState)
    : res Z (option (Z * bool) * RendezvousState) :=
  match env_payload envelope with
  | PCandidateSetV2 set =>
    if negb (Bool.eqb (cs2_owner_is_initiator set) (participant =? 1)) then Err INVALID_STATE else
    let current := rs_generation (ss_state s) in
    let actual := env_generation envelope in
    if actual =? current then
      if negb (Z.land (ss_announced_by s) participant =? 0) then Err INVALID_STATE
      else Ok (Some (Z.lor (ss_announced_by s) participant, false), next)
    else if (actual =? saturating_add u64_max current 1) && (ss_announced_by s =? 3)
            && (actual <=? 32)
            && (250000000 <=? elapsed (ss_generation_started s) (instant env 0))
    then
      next ← map_err (λ _, INVALID_STATE) (advance_generation next actual);
      Ok (Some (participant, true), next)
    else Err INVALID_STATE
  | _ => Ok (None, next)
  end.

Definition relay_update (s : StoredSession) (participant : Z) (envelope : RendezvousEnvelope)
    : res Z (option (Z * bool)) :=
  match env_payload envelope with
  | PRelayRequest request =>
    let expected_datagram := bool_decide (md_protocol (ss_metadata s) = Some TunnelProtocol.UDP) in
    if negb (Bool.eqb (rlr_datagram request) expected_datagram) then Err INVALID_STATE else
    if match datagram (ss_relay s) with
       | Some value => negb (Bool.eqb value (rlr_datagram request)) | None => false end
    then Err INVALID_STATE
    else Ok (Some (participant, rlr_datagram request))
  | _ => Ok None
  end.

Definition path_update (env : Env) (s : StoredSession) (envelope : RendezvousEnvelope)
    : res Z (option SessionPath) :=
  path ← match env_payload envelope with
         | PConnectivityResult result =>
           if cr_connected result then
             transport ← ok_or (cr_transport result) INVALID_STATE;
             Ok (if cv_observability_enabled (view env 1)
                 then Some (match transport with Relay => P2pFallback | _ => P2pDirect end)
                 else None)
           else if bool_decide (is_Some (cr_transport result)) then Err INVALID_STATE else Ok None
         | _ => Ok None
         end;
  match path, ss_observed_path s with
  | Some path', Some current =>
    if bool_decide (current = path') then Ok path else Err INVALID_STATE
  | _, _ => Ok path
  end.

(** [Sha256::digest] of the candidate set of an envelope, if it carries one. *)
Definition candidate_digest (envelope : RendezvousEnvelope) : option (list byte) :=
  match env_payload envelope with
  | PCandidateSetV2 set => Some (sha256 (ser candidate_set_v2_codec set))
  | _ => None
  end.

Definition check_forward (env : Env) (st : CoordinatorState)
    (authenticated : ActiveControlSession) (envelope : RendezvousEnvelope)
    : res Z (StoredSession * ForwardUpdate * Message * AuthenticatedClient) :=
  let identity := acs_identity authenticated in
  _ ← validate_origin env authenticated envelope;
  _ ← match env_payload envelope with
      | PRequest _ | PProviderDecision _ | PClose _ | PError _ => Err INVALID_STATE
      | _ => Ok tt
      end;
  message ← map_err (λ _, INVALID_STATE) (envelope_to_protocol_message envelope);
  session ← get_active st (env_session_id envelope);
  _ ← guard_err (md_expires_unix_secs (ss_metadata session) <=? unix_secs env 1) EXPIRED;
  _ ← guard_err (negb (bool_decide (is_Some (md_protocol (ss_metadata session))))) INVALID_STATE;
  target ← other_participant session identity (env_target envelope);
  let participant := participant_bit session identity in
  '(generation, next) ← generation_update env session participant envelope (ss_state session);
  next ← map_err (λ _, INVALID_STATE)
    (accept_metadata next (env_session_id envelope) (env_step envelope) (env_generation envelope)
       (env_expires_unix_secs envelope) (unix_secs env 2));
  relay ← relay_update session participant envelope;
  path ← path_update env session envelope;
  permit ← reserve_to (view env 2) target;
  Ok (session, {| fu_target := target; fu_state := next; fu_relay := relay;
                  fu_generation := generation; fu_path := path |}, message, permit).

(** The session after the candidate part of an envelope. *)
Definition apply_candidates (env : Env) (s : StoredSession) (authenticated : ActiveControlSession)
    (u : ForwardUpdate) (digest : option (list byte)) : StoredSession :=
  let s := with_state s (fu_state u) in
  let s :=
    match fu_generation u with
    | None => s
    | Some (announced_by, advanced) =>
      if advanced then
        let s := with_candidates s announced_by (None, None) (instant env 1) in
        if negb (authorized (ss_relay s)) then with_relay s (RelayAdmission_new (instant env 2))
        else s
      else with_candidates s announced_by (ss_digests s) (ss_generation_started s)
    end in
  match digest with
  | None => s
  | Some digest =>
    let '(initiator, responder) := ss_digests s in
    with_candidates s (ss_announced_by s)
      (if bool_decide (ac_name (acs_identity authenticated) = so_name (ss_consumer s))
       then (Some digest, responder) else (initiator, Some digest))
      (ss_generation_started s)
  end.

Definition punch_of (env : Env) (s : StoredSession) (envelope : RendezvousEnvelope)
    (digest : option (list byte)) : option (SessionOwner * SessionOwner * PunchGrant) :=
  if bool_decide (is_Some digest) && (ss_announced_by s =? 3) then
    match ss_digests s with
    | (Some initiator, Some responder) =>
      Some (ss_consumer s, ss_provider s,
        {| pg_session_id := env_session_id envelope; pg_generation := env_generation envelope;
           pg_start_unix_millis := saturating_add u64_max (unix_millis env 0) 250;
           pg_window_millis := 150; pg_cadence_millis := 25;
           pg_initiator_candidates_sha256 := initiator;
           pg_responder_candidates_sha256 := responder; pg_token := random_token env |})
    | _ => None
    end
  else None.

Definition apply_relay (s : StoredSession) (u : option (Z * bool)) : StoredSession :=
  match u with
  | None => s
  | Some (participant, d) =>
    let r := ss_relay s in
    with_relay s {| requested_by := Z.lor (requested_by r) participant; datagram := Some d;
                    window_started := window_started r; frames_in_window := frames_in_window r;
                    bytes_in_window := bytes_in_window r |}
  end.

(** The session and the events after a path has been reported. *)
Definition apply_path (env : Env) (s : StoredSession) (path : option SessionPath)
    : StoredSession * res Z (list Effect) :=
  match path, ss_observed_path s with
  | Some path, None =>
    let s := with_observed_path s (Some path) in
    let '(traffic, s) :=
      if bool_decide (path = P2pFallback) then
        let pending := ss_preselection_traffic s in
        let s := with_traffic s TrafficCounters_default (ss_relay_traffic s) in
        (p2p_traffic_event s pending, s)
      else (None, with_traffic s TrafficCounters_default (ss_relay_traffic s)) in
    (s, opened ← observe_p2p_open (unix_millis env 1) s path;
        Ok (Observed opened :: (Observed <$> option_list traffic)))
  | _, _ => (s, Ok [])
  end.

Definition forward_envelope (env : Env) (st : CoordinatorState)
    (authenticated : ActiveControlSession) (envelope : RendezvousEnvelope) : outcome unit :=
  checked st (check_forward env st authenticated envelope)
    (λ '(session, u, message, permit),
      let digest := candidate_digest envelope in
      let session := apply_candidates env session authenticated u digest in
      let punch := punch_of env session envelope digest in
      let session := apply_relay session (fu_relay u) in
      let '(session, events) := apply_path env session (fu_path u) in
      let st := with_sessions st (<[env_session_id envelope := RActive session]> (sessions st)) in
      checked st events (λ events,
        let sent := events ++ [Sent permit message] in
        match punch with
        | None => (Ok tt, st, sent)
        | Some (consumer, provider, grant) =>
          match consumer_permit ← reserve_to (view env 3) consumer;
                provider_permit ← reserve_to (view env 4) provider;
                Ok (consumer_permit, provider_permit) with
          | Ok (consumer_permit, provider_permit) =>
            (Ok tt, st,
             sent ++ [Sent consumer_permit (MPunchGrant grant); Sent provider_permit (MPunchGrant grant)])
          | Err e => (Err e, st, sent)
          | Panic => (Panic, st, sent)
          end
        end)).

Definition check_close (env : Env) (st : CoordinatorState)
    (authenticated : ActiveControlSession) (envelope : RendezvousEnvelope)
    : res Z (StoredSession * RendezvousState * Message * AuthenticatedClient) :=
  _ ← validate_origin env authenticated envelope;
  _ ← match env_payload envelope with PClose _ | PError _ => Ok tt | _ => Err INVALID_STATE end;
  message ← map_err (λ _, INVALID_STATE) (envelope_to_protocol_message envelope);
  session ← get_active st (env_session_id envelope);
  _ ← guard_err (md_expires_unix_secs (ss_metadata session) <=? unix_secs env 1) EXPIRED;
  target ← other_participant session (acs_identity authenticated) (env_target envelope);
  next ← map_err (λ _, INVALID_STATE)
    (accept_metadata (ss_state session) (env_session_id envelope) (env_step envelope)
       (env_generation envelope) (env_expires_unix_secs envelope) (unix_secs env 2));
  permit ← reserve_to (view env 1) target;
  Ok (session, next, message, permit).

Definition close_session (env : Env) (st : CoordinatorState)
    (authenticated : ActiveControlSession) (envelope : RendezvousEnvelope) : outcome unit :=
  checked st (check_close env st authenticated envelope)
    (λ '(session, next, message, permit),
      let st := with_sessions st
        (<[env_session_id envelope := RActive (with_state session next)]> (sessions st)) in
      let '(removed, st) := tombstone_session st (env_session_id envelope) in
      checked st
        (match removed with
         | Some session => observe_p2p_close (unix_millis env 0) session (str "closed")
         | None => Ok []
         end)
        (λ closed, (Ok tt, st, closed ++ [Sent permit message]))).

(** * Devices that leave *)

Definition owns_session (identity : AuthenticatedClient) (r : SessionRecord) : bool :=
  match active_of r with
  | Some s => owner_matches (ss_consumer s) identity || owner_matches (ss_provider s) identity
  | None => false
  end.

(** The loop that tombstones the sessions of a device: those it has removed. *)
Fixpoint tombstone_all (st : CoordinatorState) (ids : list (list byte))
    : list StoredSession * CoordinatorState :=
  match ids with
  | [] => ([], st)
  | id :: ids =>
    let '(removed, st) := tombstone_session st id in
    let '(rest, st) := tombstone_all st ids in
    (option_list removed ++ rest, st)
  end.

Fixpoint disconnect_notices (env : Env) (identity : AuthenticatedClient) (base : nat)
    (removed : list StoredSession) : res Z (list Effect) :=
  match removed with
  | [] => Ok []
  | s :: removed =>
    let survivor := if owner_matches (ss_consumer s) identity then ss_provider s
                    else ss_consumer s in
    closed ← observe_p2p_close (unix_millis env base) s (str "peer-disconnected");
    notice ← send_server_notice (view env base) s survivor PEER_DISCONNECTED;
    rest ← disconnect_notices env identity (S base) removed;
    Ok (closed ++ notice ++ rest)
  end.

(** [remove_device]; the sessions are visited in the order of the map. *)
Definition remove_device (env : Env) (st : CoordinatorState) (identity : AuthenticatedClient)
    : outcome unit :=
  let owned := (map_to_list (filter (λ x, owns_session identity x.2 = true) (sessions st))).*1 in
  let '(removed, st) := tombstone_all st owned in
  checked st (disconnect_notices env identity 0 removed) (λ effects, (Ok tt, st, effects)).

(** * Relay frames *)

Definition flags_match (is_datagram : bool) (flags : Z) : bool :=
  if is_datagram then flags =? PeerRelayFlags.DATAGRAM
  else (flags =? PeerRelayFlags.RELIABLE)
       || (flags =? Z.lor PeerRelayFlags.RELIABLE PeerRelayFlags.FIN).

(** The traffic accounting of an admitted frame. *)
Definition account_frame (s : StoredSession) (identity : AuthenticatedClient) (bytes : Z)
    : StoredSession :=
  let consumer := owner_matches (ss_consumer s) identity in
  if consumer && (0 <? ss_fallback_consumer s)
  then with_fallback s (ss_fallback_consumer s - 1) (ss_fallback_provider s)
  else if negb consumer && (0 <? ss_fallback_provider s)
  then with_fallback s (ss_fallback_consumer s) (ss_fallback_provider s - 1)
  else
    let logical_bytes := saturating_sub bytes PEER_AEAD_TAG_BYTES in
    let add t :=
      if consumer
      then {| received_bytes := received_bytes t;
              sent_bytes := saturating_add u64_max (sent_bytes t) logical_bytes |}
      else {| received_bytes := saturating_add u64_max (received_bytes t) logical_bytes;
              sent_bytes := sent_bytes t |} in
    match ss_observed_path s with
    | Some P2pFallback => with_traffic s (ss_preselection_traffic s) (add (ss_relay_traffic s))
    | None => with_traffic s (add (ss_preselection_traffic s)) (ss_relay_traffic s)
    | Some (P2pDirect | PRelayPath) => s
    end.

(** The checks on an active session up to the rate limit: the opposite participant. *)
Definition check_relay (s : StoredSession) (identity : AuthenticatedClient) (f : PeerRelayFrame)
    : res Z SessionOwner :=
  _ ← guard_err (negb (bool_decide (rs_phase (ss_state s) = Accepted))) INVALID_STATE;
  target ← (if owner_matches (ss_consumer s) identity then Ok (ss_provider s)
            else if owner_matches (ss_provider s) identity then Ok (ss_consumer s)
            else Err NOT_PARTICIPANT);
  _ ← guard_err (negb (authorized (ss_relay s))) INVALID_STATE;
  is_datagram ← ok_or (datagram (ss_relay s)) INVALID_STATE;
  _ ← guard_err (negb (flags_match is_datagram (prf_flags f))) CAPACITY_REACHED;
  Ok target.

(** The section of [forward_relay_frame] under the lock: the permit and the message, [None]
    for a frame that is late and dropped. *)
Definition relay_section (env : Env) (base : nat) (st : CoordinatorState)
    (identity : AuthenticatedClient) (f : PeerRelayFrame)
    : res Z (option (AuthenticatedClient * Message)) * CoordinatorState :=
  match sessions st !! prf_session_id f with
  | None => (Err UNKNOWN_SESSION, st)
  | Some (RTombstone t) =>
    if owner_matches (ts_consumer t) identity || owner_matches (ts_provider t) identity
    then (Ok None, st) else (Err NOT_PARTICIPANT, st)
  | Some (RActive s) =>
    match check_relay s identity f with
    | Err e => (Err e, st)
    | Panic => (Panic, st)
    | Ok target =>
      let put s := with_sessions st (<[prf_session_id f := RActive s]> (sessions st)) in
      let '(admitted, relay) :=
        RelayAdmission_admit (ss_relay s) (instant env 0) (instant env 1) (blen (prf_ciphertext f)) in
      let s := with_relay s relay in
      if negb admitted then (Err CAPACITY_REACHED, put s) else
      match message ← map_err (λ _, INVALID_STATE) (PeerRelayFrame_to_protocol_message f);
            permit ← reserve_to (view env base) target;
            Ok (permit, message) with
      | Err e => (Err e, put s)
      | Panic => (Panic, put s)
      | Ok sending =>
        (Ok (Some sending),
         put (if cv_observability_enabled (view env (S base))
              then account_frame s identity (blen (prf_ciphertext f)) else s))
      end
    end
  end.

(** [forward_relay_frame]; the readings of the registry from [1] on serve the expiry
    notices, the two after them the frame. *)
Definition forward_relay_frame (env : Env) (st : CoordinatorState)
    (authenticated : ActiveControlSession) (f : PeerRelayFrame) : outcome unit :=
  if negb (cv_is_active_session (view env 0) (acs_identity authenticated))
  then (Err IDENTITY_MISMATCH, st, []) else
  let base := S (2 * length (expire_loop EXPIRY_MAINTENANCE_BATCH (unix_secs env 0) st).1) in
  let '(notices, st) := expire_sessions_batch env 1 (unix_secs env 0) st in
  checked st notices (λ notices,
    let '(r, st) := relay_section env base st (acs_identity authenticated) f in
    (_ ← r; Ok tt, st,
     notices ++ match r with Ok (Some (permit, message)) => [Sent permit message] | _ => [] end)).

(** * Queries *)

Definition session (env : Env) (st : CoordinatorState) (session_id : list byte)
    : option RendezvousSessionMetadata :=
  record ← sessions st !! session_id;
  s ← active_of record;
  if unix_secs env 0 <? md_expires_unix_secs (ss_metadata s) then Some (ss_metadata s) else None.

Definition identity_binding (c : RendezvousCoordinator) (env : Env) (st : CoordinatorState)
    (authenticated : ActiveControlSession) (lookup : PeerIdentityLookup) : res Z Message :=
  _ ← guard_err (negb (cv_is_active_session (view env 0) (acs_identity authenticated)))
        IDENTITY_MISMATCH;
  session ← get_active st (pil_session_id lookup);
  _ ← guard_err (md_expires_unix_secs (ss_metadata session) <=? unix_secs env 0) EXPIRED;
  peer ← other_participant session (acs_identity authenticated) (pil_peer lookup);
  entry ← ok_or (directory c !! so_name peer) UNKNOWN_PEER;
  _ ← guard_err (negb (de_enabled entry)) UNKNOWN_PEER;
  peer_name ← map_err (λ _, INVALID_STATE) (bounded_try_from MAX_CLIENT_NAME_BYTES (so_name peer));
  public_key ← map_err (λ _, INVALID_STATE)
    (bounded_try_from MAX_PUBLIC_KEY_BYTES (de_public_key entry));
  Ok (MPeerIdentityBinding
        {| pib_session_id := pil_session_id lookup; pib_peer := peer_name;
           pib_public_key := public_key; pib_protocol := md_protocol (ss_metadata session);
           pib_peer_is_provider := bool_decide (ss_provider session = peer);
           pib_expires_unix_secs := md_expires_unix_secs (ss_metadata session) |}).

(** * Calls *)

(** One call of a method, with what it reads; queries change nothing. *)
Inductive Call :=
| CRequest (authenticated : ActiveControlSession) (envelope : RendezvousEnvelope)
| CDecision (authenticated : ActiveControlSession) (envelope : RendezvousEnvelope)
| CForward (authenticated : ActiveControlSession) (envelope : RendezvousEnvelope)
| CClose (authenticated : ActiveControlSession) (envelope : RendezvousEnvelope)
| CRelayFrame (authenticated : ActiveControlSession) (frame : PeerRelayFrame)
| CRemoveDevice (identity : AuthenticatedClient)
| CExpireNow.

Definition call (c : RendezvousCoordinator) (env : Env) (st : CoordinatorState) (x : Call)
    : outcome unit :=
  match x with
  | CRequest a e => let '(r, st, effects) := request c env st a e in (_ ← r; Ok tt, st, effects)
  | CDecision a e => provider_decision env st a e
  | CForward a e => forward_envelope env st a e
  | CClose a e => close_session env st a e
  | CRelayFrame a f => forward_relay_frame env st a f
  | CRemoveDevice i => remove_device env st i
  | CExpireNow => let '(r, st) := expire_now env st in
                  (_ ← r; Ok tt, st, match r with Ok effects => effects | _ => [] end)
  end.

(** The dispatch of [run_control_session] ([rustgos/src/control.rs]) on the payload. *)
Definition call_of_envelope (authenticated : ActiveControlSession) (envelope : RendezvousEnvelope)
    : Call :=
  match env_payload envelope with
  | PRequest _ => CRequest authenticated envelope
  | PProviderDecision _ => CDecision authenticated envelope
  | PClose _ | PError _ => CClose authenticated envelope
  | _ => CForward authenticated envelope
  end.
End coordinator.

(** * The registry as the coordinator sees it *)

(** [ClientRegistry::active_control_session], up to the queue. *)
Definition active_control_session (r : ClientRegistry) (name : list byte)
    : option ActiveControlSession :=
  '(_, runtime) ← runtime_by_name r name;
  if negb (available runtime) then None else
  Some {| acs_identity := {| ac_name := client runtime; ac_fingerprint := rt_fingerprint runtime;
                             ac_session_id := rt_session_id runtime |};
          acs_version := rt_version runtime;
          acs_observability := {| aci_name := client runtime;
                                  aci_generation := rt_generation runtime |} |}.

Definition registry_view (r : ClientRegistry) (room : AuthenticatedClient → bool)
    (observability : bool) : ControlView :=
  {| cv_is_active_session := is_active_session r;
     cv_active_control_session := active_control_session r; cv_room := room;
     cv_observability_enabled := observability |}.
