(* ===== verification/CoordinatorFacts.v ===== *)
(** The invariant of the rendezvous coordinator and its preservation by every method; at the
    end a run of the coordinator on concrete inputs, on which the witnesses evaluate. *)

From S2P Require Import Prelude.
From S2P Require Import Ordered.
From S2P Require Import Wire.
From S2P Require Import Postcard.
From S2P Require Import PostcardRef.
From S2P Require Import Messages.
From S2P Require Import Events.
From S2P Require Import Frame.
From S2P Require Import RvMessages.
From S2P Require Import MessageCodecs.
From S2P Require Import RvFacts.
From S2P Require Import RvState.
From S2P Require Import Handshake.
From S2P Require Import Registry.
From S2P Require Import RegistryFacts.
From S2P Require Import Coordinator.
From Stdlib Require Import Strings.Byte.
From stdpp Require Import prelude gmap list strings sorting.

#[local] Open Scope Z_scope.

(** * The contract of the registry *)

(** What a reading of the registry promises to the coordinator: a session is found under
    its own name, and the names of active sessions fit a label. *)
Class ControlViewLaws (v : ControlView) : Prop := {
  view_name n a : cv_active_control_session v n = Some a → ac_name (acs_identity a) = n;
  view_label n a : cv_active_control_session v n = Some a →
    blen (ac_name (acs_identity a)) ≤ MAX_EVENT_LABEL_BYTES;
  view_active_label i : cv_is_active_session v i = true → blen (ac_name i) ≤ MAX_EVENT_LABEL_BYTES;
}.

(** The registry keeps it in every reachable state. *)
Lemma registry_view_laws c s room observability :
  server_reachable c s → ControlViewLaws (registry_view (registry s) room observability).
Proof.
  intros Hok%server_reachable_ok.
  assert (∀ n rid rt, by_name (registry s) !! n = Some rid → runtimes (registry s) !! rid = Some rt →
    client rt = n ∧ blen n ≤ MAX_EVENT_LABEL_BYTES) as Hname.
  { intros n rid rt Hn Hrt. pose proof (ok_names _ Hok n rid Hn) as Hin.
    apply list_elem_of_fmap in Hin as (g&->&Hg).
    destruct (ok_owns _ Hok g Hg) as (_&H2&rt'&H3&H4&_).
    pose proof (ok_labels _ Hok g Hg). split; [congruence|lia]. }
  split; simpl.
  - intros n a. unfold active_control_session.
    destruct (runtime_by_name _ _) as [[rid rt]|] eqn:Hr; [|done]. simpl.
    destruct (negb _); [done|]. intros [= <-]. apply runtime_by_name_Some in Hr as [? ?].
    simpl. by eapply Hname.
  - intros n a. unfold active_control_session.
    destruct (runtime_by_name _ _) as [[rid rt]|] eqn:Hr; [|done]. simpl.
    destruct (negb _); [done|]. intros [= <-]. apply runtime_by_name_Some in Hr as [? ?].
    simpl. edestruct Hname as [-> ?]; done.
  - intros i. unfold is_active_session. destruct (active _ !! _) as [a|]; [|done].
    repeat case_bool_decide; try done. simpl.
    destruct (runtime_by_name _ _) as [[rid rt]|] eqn:Hr; [|done].
    apply runtime_by_name_Some in Hr as [Hn Hrt]. intros _.
    edestruct Hname as [_ ?]; [exact Hn|exact Hrt|]. congruence.
Qed.

(** * Counting the sessions of a device *)

Definition consumer_of (r : SessionRecord) : list byte := (devices r).1.
Definition provider_of (r : SessionRecord) : list byte := (devices r).2.

(** In how many sessions, open or closed, a device takes part. *)
Definition participations (m : gmap (list byte) SessionRecord) (d : list byte) : nat :=
  size (filter (λ x, consumer_of x.2 = d) m) + size (filter (λ x, provider_of x.2 = d) m).

Definition part (r : SessionRecord) (d : list byte) : nat :=
  (if bool_decide (consumer_of r = d) then 1 else 0)
  + (if bool_decide (provider_of r = d) then 1 else 0).

Lemma size_filter_insert {K A} `{Countable K} (Q : K * A → Prop) `{!∀ x, Decision (Q x)}
    (m : gmap K A) k x :
  m !! k = None →
  size (filter Q (<[k:=x]> m)) = ((if decide (Q (k, x)) then 1 else 0) + size (filter Q m))%nat.
Proof.
  intros Hk. destruct (decide (Q (k, x))).
  - rewrite map_filter_insert_True by done. apply map_size_insert_None.
    apply map_lookup_filter_None. by left.
  - rewrite map_filter_insert_False by done. by rewrite delete_id.
Qed.

Lemma participations_insert m k r d :
  m !! k = None → participations (<[k:=r]> m) d = (part r d + participations m d)%nat.
Proof.
  intros Hk. unfold participations, part. rewrite !size_filter_insert by done. simpl.
  repeat case_decide; repeat case_bool_decide; try done; lia.
Qed.

Lemma participations_delete m k r d :
  m !! k = Some r → participations m d = (part r d + participations (delete k m) d)%nat.
Proof.
  intros Hk. rewrite <- (participations_insert (delete k m) k r d) by apply lookup_delete_eq.
  by rewrite insert_delete_id.
Qed.

Lemma participations_update m k r r' d :
  m !! k = Some r → devices r' = devices r → participations (<[k:=r']> m) d = participations m d.
Proof.
  intros Hk Hd. rewrite (participations_delete m k r) by done.
  rewrite <- insert_delete_eq, participations_insert by apply lookup_delete_eq.
  unfold part, consumer_of, provider_of. by rewrite Hd.
Qed.

(** * The heap *)

Definition entry_leP (a b : ExpiryEntry) : Prop := entry_le a b = true.

Lemma entry_le_total a b : entry_le a b = false → entry_leP b a.
Proof.
  unfold entry_leP, entry_le. intros [H1%Z.ltb_ge H2]%orb_false_iff.
  destruct (Z.eqb_spec (ee_expires_unix_secs a) (ee_expires_unix_secs b)) as [E|E]; simpl in *.
  - rewrite E, Z.eqb_refl, (ole_total _ _ H2). by rewrite orb_true_r.
  - by rewrite (proj2 (Z.ltb_lt _ _)) by lia.
Qed.

#[export] Instance entry_le_trans : Transitive entry_leP.
Proof.
  intros a b c. unfold entry_leP, entry_le.
  rewrite !orb_true_iff, !andb_true_iff, !Z.ltb_lt, !Z.eqb_eq.
  intros [?|[? ?]] [?|[? ?]]; [left; lia..|right]. split; [lia|by eapply ole_trans].
Qed.

Lemma elem_of_heap_push e h x : x ∈ heap_push e h ↔ x = e ∨ x ∈ h.
Proof.
  induction h as [|y h IH]; simpl; [by rewrite list_elem_of_singleton, elem_of_nil; naive_solver|].
  case_match; rewrite !elem_of_cons; naive_solver.
Qed.

Lemma heap_push_perm e h : heap_push e h ≡ₚ e :: h.
Proof.
  induction h as [|y h IH]; simpl; [done|]. case_match; [done|]. rewrite IH. apply Permutation_swap.
Qed.

Lemma heap_push_sorted e h : StronglySorted entry_leP h → StronglySorted entry_leP (heap_push e h).
Proof.
  induction 1 as [|y h Hs IH Hy]; simpl; [by repeat constructor|]. case_match eqn:E.
  - constructor; [by constructor|]. constructor; [done|].
    eapply Forall_impl; [exact Hy|]. intros z ?. by etrans.
  - constructor; [done|]. rewrite heap_push_perm. constructor; [|done]. by apply entry_le_total.
Qed.

Lemma heap_head_expires e h x :
  StronglySorted entry_leP (e :: h) → x ∈ e :: h → ee_expires_unix_secs e ≤ ee_expires_unix_secs x.
Proof.
  intros [_ Hf]%StronglySorted_inv [->|Hx]%elem_of_cons; [done|].
  rewrite Forall_forall in Hf. specialize (Hf x Hx). unfold entry_leP, entry_le in Hf.
  rewrite orb_true_iff, andb_true_iff, Z.ltb_lt, Z.eqb_eq in Hf. lia.
Qed.

(** * The invariant *)

(** What holds of a record stored under an identifier. *)
Definition owners_ok (consumer provider : SessionOwner) : Prop :=
  so_name consumer ≠ so_name provider
  ∧ blen (so_name consumer) ≤ MAX_EVENT_LABEL_BYTES
  ∧ blen (so_name provider) ≤ MAX_EVENT_LABEL_BYTES.

(** The relay of a session: who has asked for it, and the rate window. *)
Record relay_ok (protocol : option Z) (r : RelayAdmission) : Prop := {
  rl_bits : 0 ≤ requested_by r ≤ 3;
  rl_datagram : requested_by r ≠ 0 →
    datagram r = Some (bool_decide (protocol = Some TunnelProtocol.UDP));
  rl_unset : requested_by r = 0 → datagram r = None;
  rl_frames : 0 ≤ frames_in_window r ≤ MAX_FRAMES_PER_SECOND;
  rl_bytes : 0 ≤ bytes_in_window r ≤ MAX_BYTES_PER_SECOND;
}.

Record session_ok (id : list byte) (s : StoredSession) : Prop := {
  sk_id : md_session_id (ss_metadata s) = id ∧ rs_session_id (ss_state s) = id;
  sk_owners : owners_ok (ss_consumer s) (ss_provider s);
  sk_export : blen (md_export (ss_metadata s)) ≤ MAX_EVENT_LABEL_BYTES;
  sk_phase : (rs_phase (ss_state s) = Requested ∧ md_protocol (ss_metadata s) = None)
             ∨ (rs_phase (ss_state s) = Accepted ∧ is_Some (md_protocol (ss_metadata s)));
  sk_pending : md_protocol (ss_metadata s) = None →
    requested_by (ss_relay s) = 0 ∧ ss_announced_by s = 0;
  sk_relay : relay_ok (md_protocol (ss_metadata s)) (ss_relay s);
  sk_announced : 0 ≤ ss_announced_by s ≤ 3;
  sk_digests : (Z.testbit (ss_announced_by s) 0 = true ↔ is_Some (ss_digests s).1)
             ∧ (Z.testbit (ss_announced_by s) 1 = true ↔ is_Some (ss_digests s).2);
}.

Definition record_ok (id : list byte) (r : SessionRecord) : Prop :=
  match r with
  | RActive s => session_ok id s
  | RTombstone t => owners_ok (ts_consumer t) (ts_provider t)
  end.

Definition expected_count (n : nat) : option Z := if decide (n = 0%nat) then None else Some (Z.of_nat n).

Record coordinator_ok (l : RendezvousLimits) (st : CoordinatorState) : Prop := {
  co_counts : ∀ d, device_counts st !! d = expected_count (participations (sessions st) d);
  co_size : Z.of_nat (size (sessions st)) ≤ Z.max 0 (max_sessions l);
  co_device : ∀ d, Z.of_nat (participations (sessions st) d) ≤ Z.max 0 (max_sessions_per_device l);
  co_record : ∀ id r, sessions st !! id = Some r → record_ok id r;
  co_expiry : ∀ e, e ∈ expiry st ↔
    ∃ r, sessions st !! ee_session_id e = Some r ∧ record_expires r = ee_expires_unix_secs e;
  co_nodup : NoDup (expiry st);
  co_sorted : StronglySorted entry_leP (expiry st);
}.

Lemma coordinator_default_ok l : coordinator_ok l CoordinatorState_default.
Proof.
  split; simpl.
  - intros d. rewrite lookup_empty. unfold participations. by rewrite !map_filter_empty.
  - rewrite map_size_empty. lia.
  - intros d. unfold participations. rewrite !map_filter_empty, !map_size_empty. lia.
  - intros id r. by rewrite lookup_empty.
  - intros e. split; [by intros ?%elem_of_nil|]. intros (r&Hr&_). by rewrite lookup_empty in Hr.
  - constructor.
  - constructor.
Qed.

(** * Changes of one record *)

Lemma replace_ok l st id r r' :
  coordinator_ok l st → sessions st !! id = Some r → record_ok id r' →
  devices r' = devices r → record_expires r' = record_expires r →
  coordinator_ok l (with_sessions st (<[id := r']> (sessions st))).
Proof.
  intros [Hc Hs Hd Hr He Hnd Hso] Hid Hok Hdev Hexp. split; simpl; try done.
  - intros d. by rewrite (participations_update _ _ r).
  - rewrite map_size_insert_Some by eauto. done.
  - intros d. by rewrite (participations_update _ _ r).
  - intros id' x [[<- <-]|[_ Hx]]%lookup_insert_Some; [done|by apply Hr].
  - intros e. rewrite He. destruct (decide (ee_session_id e = id)) as [E|Hne].
    + rewrite E, lookup_insert_eq. naive_solver congruence.
    + by rewrite lookup_insert_ne.
Qed.

Lemma tombstone_of_ok id s : session_ok id s → record_ok id (RTombstone (tombstone_of s)).
Proof. intros []. done. Qed.

Lemma tombstone_session_ok l st id :
  coordinator_ok l st → coordinator_ok l (tombstone_session st id).2.
Proof.
  intros Hok. unfold tombstone_session.
  destruct (sessions st !! id) as [[s|t]|] eqn:Hid; simpl; [| |done].
  - eapply replace_ok; [done..| |done|done]. apply tombstone_of_ok. by apply (co_record _ _ Hok id (RActive s)).
  - eapply replace_ok; [done..| |done|done]. by apply (co_record _ _ Hok id (RTombstone t)).
Qed.

(** A session that changes without its owners, its expiry or its place. *)
Lemma update_ok l st id s s' :
  coordinator_ok l st → sessions st !! id = Some (RActive s) → session_ok id s' →
  ss_consumer s' = ss_consumer s → ss_provider s' = ss_provider s →
  md_expires_unix_secs (ss_metadata s') = md_expires_unix_secs (ss_metadata s) →
  coordinator_ok l (with_sessions st (<[id := RActive s']> (sessions st))).
Proof.
  intros Hok Hid Hs Hc Hp He. eapply replace_ok; [done..| |done]. simpl. by rewrite Hc, Hp.
Qed.

(** * Counting up and down *)

Lemma expected_count_succ n : Some (default 0 (expected_count n) + 1) = expected_count (S n).
Proof. unfold expected_count. case_decide; [subst; done|]. simpl. f_equal. lia. Qed.

Lemma increment_lookup counts device d n :
  counts !! d = expected_count n →
  increment_device_count counts device !! d
  = expected_count ((if bool_decide (device = d) then 1 else 0) + n).
Proof.
  intros Hd. unfold increment_device_count. case_bool_decide as E.
  - subst d. rewrite lookup_insert_eq, Hd. apply expected_count_succ.
  - by rewrite lookup_insert_ne.
Qed.

Lemma decrement_lookup counts device d n :
  counts !! d = expected_count ((if bool_decide (device = d) then 1 else 0) + n) →
  decrement_device_count counts device !! d = expected_count n.
Proof.
  unfold decrement_device_count. case_bool_decide as E; simpl.
  - subst d. intros Hd. rewrite Hd. unfold expected_count at 1. case_decide; [done|].
    replace (Z.of_nat (S n) - 1) with (Z.of_nat n) by lia. unfold expected_count.
    destruct (Z.eqb_spec (Z.of_nat n) 0) as [?|?]; case_decide; try lia.
    + apply lookup_delete_eq.
    + by rewrite lookup_insert_eq.
  - intros Hd. destruct (counts !! device) as [c|]; [|done].
    case_match; [by rewrite lookup_delete_ne|by rewrite lookup_insert_ne].
Qed.

(** Removing a record whose expiry entry has been popped. *)
Lemma remove_ok l st id r e rest :
  coordinator_ok l st → expiry st = e :: rest → ee_session_id e = id →
  sessions st !! id = Some r → record_expires r = ee_expires_unix_secs e →
  coordinator_ok l {| sessions := delete id (sessions st);
                      device_counts := decrement_record_counts (device_counts st) r;
                      expiry := rest |}.
Proof.
  intros [Hc Hs Hd Hr He Hnd Hso] Hexp Hid Hl Hre. rewrite Hexp in *.
  apply NoDup_cons in Hnd as [Hnin Hnd]. apply StronglySorted_inv in Hso as [Hso _].
  assert (∀ d, participations (sessions st) d
    = (part r d + participations (delete id (sessions st)) d)%nat) as Hp
    by (intros d; by apply participations_delete).
  split; simpl; try done.
  - intros d. unfold decrement_record_counts, part, consumer_of, provider_of in *.
    destruct (devices r) as [consumer provider]; simpl in *.
    apply decrement_lookup, decrement_lookup.
    rewrite Hc, Hp. f_equal. lia.
  - pose proof (size_delete_le id (sessions st)). lia.
  - intros d. specialize (Hd d). rewrite Hp in Hd. lia.
  - intros id' r' [_ ?]%lookup_delete_Some. by apply Hr.
  - intros x. split.
    + intros Hx. assert (x ∈ e :: rest) as (r'&Hr'&Hex)%He by by right.
      exists r'. split; [|done]. apply lookup_delete_Some. split; [|done]. intros E.
      apply Hnin. assert (x = e) as <-; [|done].
      destruct x, e; simpl in *. f_equal; congruence.
    + intros (r'&[Hne Hr']%lookup_delete_Some&Hex).
      assert (x ∈ e :: rest) as [->|?]%elem_of_cons by (apply He; eauto); [|done]. by subst id.
Qed.

(** * Expiry *)

(** What an expiry batch does: expired records leave, the active ones among them are
    reported, everything else stays; a batch at least as large as the heap leaves nothing
    expired. *)
Record expired_to (n : nat) (now : Z) (st : CoordinatorState) (removed : list StoredSession)
    (st' : CoordinatorState) : Prop := {
  ex_kept : ∀ id, sessions st' !! id = sessions st !! id
    ∨ (sessions st' !! id = None ∧ ∃ r, sessions st !! id = Some r ∧ record_expires r ≤ now);
  ex_removed : ∀ s, s ∈ removed ↔
    ∃ id, sessions st !! id = Some (RActive s) ∧ sessions st' !! id = None;
  ex_complete : (length (expiry st) ≤ n)%nat →
    ∀ id r, sessions st' !! id = Some r → now < record_expires r;
}.

Lemma expired_to_refl n now st :
  ((length (expiry st) ≤ n)%nat → ∀ id r, sessions st !! id = Some r → now < record_expires r) →
  expired_to n now st [] st.
Proof.
  intros H. split; [by left| |done]. intros s. split; [by intros ?%elem_of_nil|].
  intros (id&?&?). congruence.
Qed.

Lemma expire_loop_spec l n now st :
  coordinator_ok l st →
  coordinator_ok l (expire_loop n now st).2
  ∧ expired_to n now st (expire_loop n now st).1 (expire_loop n now st).2.
Proof.
  revert st. induction n as [|n IH]; intros st Hok.
  { simpl. split; [done|]. apply expired_to_refl. intros Hlen id r Hr.
    apply Nat.le_0_r, nil_length_inv in Hlen as He.
    assert ({| ee_expires_unix_secs := record_expires r; ee_session_id := id |} ∈ expiry st) as Hin
      by (apply (co_expiry _ _ Hok); eauto). rewrite He in Hin. by apply elem_of_nil in Hin. }
  simpl. destruct (expiry st) as [|e rest] eqn:He.
  { split; [done|]. apply expired_to_refl. intros _ id r Hr.
    assert ({| ee_expires_unix_secs := record_expires r; ee_session_id := id |} ∈ expiry st) as Hin
      by (apply (co_expiry _ _ Hok); eauto). rewrite He in Hin. by apply elem_of_nil in Hin. }
  destruct (Z.ltb_spec now (ee_expires_unix_secs e)) as [Hlt|Hge].
  { split; [done|]. apply expired_to_refl. intros _ id r Hr.
    assert ({| ee_expires_unix_secs := record_expires r; ee_session_id := id |} ∈ expiry st) as Hin
      by (apply (co_expiry _ _ Hok); eauto). rewrite He in Hin.
    pose proof (co_sorted _ _ Hok) as Hso. rewrite He in Hso.
    apply (heap_head_expires _ _ _ Hso) in Hin. simpl in Hin. lia. }
  assert (e ∈ expiry st) as (r&Hr&Hre)%(co_expiry _ _ Hok) by (rewrite He; by left).
  rewrite Hr, Hre, Z.eqb_refl.
  pose proof (remove_ok l st (ee_session_id e) r e rest Hok He eq_refl Hr Hre) as Hok1.
  specialize (IH _ Hok1). set (st1 := {| sessions := delete _ _ |}) in *.
  destruct (expire_loop n now st1) as [removed st2] eqn:Hloop. simpl in *.
  destruct IH as [Hok2 [Hkept Hrem Hall]]. split; [done|]. split.
  - intros id. destruct (decide (id = ee_session_id e)) as [->|Hne].
    + right. split; [|exists r; split; [done|lia]].
      destruct (Hkept (ee_session_id e)) as [->|[-> _]]; [apply lookup_delete_eq|done].
    + destruct (Hkept id) as [->|(->&r'&Hr'&?)]; simpl in *; rewrite lookup_delete_ne in * by done.
      * by left.
      * right. eauto.
  - intros s. rewrite elem_of_app, Hrem. simpl. split.
    + intros [Hs|(id&[Hne Hs]%lookup_delete_Some&Hn)]; [|by exists id].
      exists (ee_session_id e). destruct r as [s'|t]; simpl in Hs; [|by apply elem_of_nil in Hs].
      apply list_elem_of_singleton in Hs as ->. split; [done|].
      destruct (Hkept (ee_session_id e)) as [->|[-> _]]; [apply lookup_delete_eq|done].
    + intros (id&Hs&Hn). destruct (decide (id = ee_session_id e)) as [->|Hne].
      * left. rewrite Hr in Hs. injection Hs as ->. by left.
      * right. exists id. by rewrite lookup_delete_ne.
  - rewrite He. simpl. intros Hlen. apply Hall. change (expiry st1) with rest. lia.
Qed.

Section methods.
Context `{P : Postcard} (sha256 : list byte → list byte).

(** * Opening a session *)

(** The readings of a call keep the registry's contract. *)
Definition env_ok (env : Env) : Prop := ∀ n, ControlViewLaws (view env n).

Lemma checked_inv {A B} st (m : res Z A) (k : A → outcome B) :
  (∃ a, m = Ok a ∧ checked st m k = k a)
  ∨ (∃ e, m = Err e ∧ checked st m k = (Err e, st, []))
  ∨ (m = Panic ∧ checked st m k = (Panic, st, [])).
Proof. destruct m; simpl; eauto. Qed.

Lemma guard_Ok (b : bool) (e : Z) u : guard_err b e = Ok u → b = false.
Proof. by destruct b. Qed.

Lemma validate_origin_Ok env a e u :
  validate_origin env a e = Ok u →
  cv_is_active_session (view env 0) (acs_identity a) = true
  ∧ env_sender e = ac_name (acs_identity a) ∧ env_version e = acs_version a
  ∧ supports_v02 (env_version e) = true ∧ unix_secs env 0 < env_expires_unix_secs e.
Proof.
  unfold validate_origin. destruct (cv_is_active_session _ _); [|done]. simpl.
  repeat case_bool_decide; try done. simpl. destruct (supports_v02 _); [|done]. simpl.
  destruct (Z.leb_spec (env_expires_unix_secs e) (unix_secs env 0)); [done|]. done.
Qed.

(** Everything [request] has checked. *)
Lemma check_request_Ok c env st a e r provider state m permit :
  check_request c env st a e = Ok (r, provider, state, m, permit) →
  env_payload e = PRequest r
  ∧ validate_origin env a e = Ok tt
  ∧ env_target e ≠ ac_name (acs_identity a)
  ∧ (∃ entry, directory c !! env_target e = Some entry ∧ de_enabled entry = true)
  ∧ (∃ p, cv_active_control_session (view env 1) (env_target e) = Some p
       ∧ provider = SessionOwner_from p ∧ supports_v02 (acs_version p) = true)
  ∧ unix_secs env 1 < env_expires_unix_secs e ≤ unix_secs env 1 + session_ttl_secs (limits c)
  ∧ RvState.request (RendezvousState_new (env_session_id e)) (env_step e) (env_generation e) = Ok state
  ∧ envelope_to_protocol_message e = Ok m
  ∧ sessions st !! env_session_id e = None
  ∧ Z.of_nat (size (sessions st)) < max_sessions (limits c)
  ∧ device_count st (ac_name (acs_identity a)) < max_sessions_per_device (limits c)
  ∧ device_count st (so_name provider) < max_sessions_per_device (limits c)
  ∧ reserve_to (view env 2) provider = Ok permit.
Proof.
  unfold check_request. intros ([]&Ho&(r'&Hp&([]&Ht%guard_Ok&(u&Hd&H)%res_bind_Ok)%res_bind_Ok)%res_bind_Ok)%res_bind_Ok.
  apply res_bind_Ok in H as (p&Hpr%ok_or_Ok&([]&Hv%guard_Ok&([]&Hx%guard_Ok&(mx&[-> Hmx]%ok_or_Ok%checked_add_Some&H)%res_bind_Ok)%res_bind_Ok)%res_bind_Ok).
  apply res_bind_Ok in H as ([]&Hm%guard_Ok&(st'&Hst%map_err_Ok&(m'&Hmsg%map_err_Ok&([]&Hdup%guard_Ok&([]&Hcap%guard_Ok&(pe&Hpe&[= <- <- <- <- <-])%res_bind_Ok)%res_bind_Ok)%res_bind_Ok)%res_bind_Ok)%res_bind_Ok).
  apply bool_decide_eq_false in Ht, Hdup. apply Z.leb_gt in Hx. apply Z.ltb_ge in Hm.
  apply orb_false_iff in Hcap as [[Hc1%Z.leb_gt Hc2%Z.leb_gt]%orb_false_iff Hc3%Z.leb_gt].
  apply negb_false_iff in Hv.
  destruct (env_payload e) eqn:He; simplify_eq/=.
  split_and!; try done; try lia.
  - destruct (directory c !! env_target e) as [entry|]; [|done]. exists entry. split; [done|].
    apply guard_Ok in Hd. by apply negb_false_iff in Hd.
  - exists p. by split_and!.
  - by apply eq_None_not_Some.
Qed.

Lemma device_count_expected l st d :
  coordinator_ok l st → device_count st d = Z.of_nat (participations (sessions st) d).
Proof.
  intros Hok. unfold device_count. rewrite (co_counts _ _ Hok). unfold expected_count.
  case_decide as E; simpl; lia.
Qed.

Lemma insert_ok l st id r :
  coordinator_ok l st → sessions st !! id = None → record_ok id r →
  consumer_of r ≠ provider_of r →
  Z.of_nat (size (sessions st)) < max_sessions l →
  device_count st (consumer_of r) < max_sessions_per_device l →
  device_count st (provider_of r) < max_sessions_per_device l →
  coordinator_ok l
    {| sessions := <[id := r]> (sessions st);
       device_counts := increment_device_count
         (increment_device_count (device_counts st) (consumer_of r)) (provider_of r);
       expiry := heap_push {| ee_expires_unix_secs := record_expires r; ee_session_id := id |}
                   (expiry st) |}.
Proof.
  intros Hok Hid Hr Hne Hsz Hc Hp. rewrite (device_count_expected l) in Hc, Hp by done.
  destruct Hok as [Hco Hs Hd Hre He Hnd Hso].
  assert ({| ee_expires_unix_secs := record_expires r; ee_session_id := id |} ∉ expiry st) as Hnin.
  { intros (r'&Hr'&_)%He. simpl in Hr'. congruence. }
  split; simpl.
  - intros d. rewrite participations_insert by done. unfold part.
    rewrite (increment_lookup _ _ d _ (increment_lookup _ _ d _ (Hco d))). f_equal. lia.
  - rewrite map_size_insert_None by done. lia.
  - intros d. rewrite participations_insert by done. specialize (Hd d). unfold part.
    case_bool_decide as E1; case_bool_decide as E2; subst; try done; lia.
  - intros id' r' [[<- <-]|[_ ?]]%lookup_insert_Some; [done|auto].
  - intros x. rewrite elem_of_heap_push, He. split.
    + intros [->|(r'&Hr'&?)]; simpl.
      * exists r. by rewrite lookup_insert_eq.
      * exists r'. rewrite lookup_insert_ne; [done|]. intros E. congruence.
    + intros (r'&[[Heq <-]|[_ ?]]%lookup_insert_Some&Hex); [left|right; eauto].
      destruct x; simpl in *. congruence.
  - rewrite heap_push_perm. by constructor.
  - by apply heap_push_sorted.
Qed.

Lemma relay_new_ok p now : relay_ok p (RelayAdmission_new now).
Proof. by split. Qed.

Lemma coordinator_request_ok c env st a e :
  env_ok env → envelope_wf e → coordinator_ok (limits c) st →
  coordinator_ok (limits c) (request c env st a e).1.2.
Proof.
  intros Henv Hwf Hok. unfold request.
  destruct (check_request c env st a e) as [[[[[r provider] state] m] permit]|x|] eqn:Hc; [|done..].
  destruct (check_request_Ok _ _ _ _ _ _ _ _ _ _ Hc)
    as (Hp&(Hact&_)%validate_origin_Ok&Hself&_&(p&Hpv&->&_)&Hexp&Hst&_&Hnew&Hsz&Hd1&Hd2&_).
  simpl. destruct (Henv 1%nat) as [Hname Hlabel _]. destruct (Henv 0%nat) as [_ _ Hal].
  pose proof (Hname _ _ Hpv) as Hpn. specialize (Hlabel _ _ Hpv). specialize (Hal _ Hact).
  set (session := {| ss_metadata := _ |}).
  refine (insert_ok (limits c) st (env_session_id e) (RActive session) Hok Hnew _ _ Hsz Hd1 Hd2).
  - unfold RvState.request in Hst. simpl in Hst.
    apply res_bind_Ok in Hst as (u&_&[= <-]).
    split; simpl; try done; try (by split); try (by left).
    + split_and!; simpl; [congruence|done|done].
    + destruct Hwf as (_&_&_&_&_&_&_&Hpay&_). rewrite Hp in Hpay. by destruct Hpay.
  - unfold consumer_of, provider_of. simpl. congruence.
Qed.

(** * The provider's decision *)

Lemma get_active_Ok st id s : get_active st id = Ok s ↔ sessions st !! id = Some (RActive s).
Proof using P.
  clear sha256.
  unfold get_active. rewrite res_bind_Ok. setoid_rewrite ok_or_Ok. split.
  - intros (r&->&Hr). destruct r; naive_solver.
  - intros ->. by exists (RActive s).
Qed.

Lemma check_decision_Ok env st a e d s next m permit :
  check_decision env st a e = Ok (d, s, next, m, permit) →
  env_payload e = PProviderDecision d
  ∧ validate_origin env a e = Ok tt
  ∧ envelope_to_protocol_message e = Ok m
  ∧ sessions st !! env_session_id e = Some (RActive s)
  ∧ unix_secs env 1 < md_expires_unix_secs (ss_metadata s)
  ∧ owner_matches (ss_provider s) (acs_identity a) = true
  ∧ env_target e = so_name (ss_consumer s)
  ∧ RvState.provider_decision (ss_state s) (env_step e) (env_generation e) (pd_accepted d) = Ok next
  ∧ reserve_to (view env 1) (ss_consumer s) = Ok permit.
Proof using P.
  clear sha256.
  unfold check_decision.
  intros ([]&Ho&(d'&Hp&(m'&Hm%map_err_Ok&(s'&Hs%get_active_Ok&H)%res_bind_Ok)%res_bind_Ok)%res_bind_Ok)%res_bind_Ok.
  apply res_bind_Ok in H as ([]&Hx%guard_Ok%Z.leb_gt&([]&Hown%guard_Ok%negb_false_iff&([]&Ht%guard_Ok%negb_false_iff%bool_decide_eq_true&
    (n&Hn%map_err_Ok&(p&Hpe&[= <- <- <- <- <-])%res_bind_Ok)%res_bind_Ok)%res_bind_Ok)%res_bind_Ok).
  destruct (env_payload e); simplify_eq/=. by split_and!.
Qed.

Lemma provider_decision_state s step generation accepted s' :
  RvState.provider_decision s step generation accepted = Ok s' →
  rs_phase s = Requested ∧ rs_session_id s' = rs_session_id s
  ∧ rs_phase s' = (if accepted then Accepted else PhaseClosed).
Proof.
  unfold RvState.provider_decision. case_bool_decide; [|done]. simpl.
  by intros (?&?&(?&?&[= <-])%res_bind_Ok)%res_bind_Ok.
Qed.

Lemma coordinator_decision_ok l env st a e :
  envelope_wf e → coordinator_ok l st → coordinator_ok l (provider_decision env st a e).1.2.
Proof.
  intros Hwf Hok. unfold provider_decision.
  destruct (check_decision env st a e) as [[[[[d s] next] m] permit]|x|] eqn:Hc; [|done..].
  destruct (check_decision_Ok _ _ _ _ _ _ _ _ _ Hc) as (Hp&_&_&Hs&_&_&_&Hn&_). simpl.
  destruct (provider_decision_state _ _ _ _ _ Hn) as (Hph&Hid&Hph').
  pose proof (co_record _ _ Hok _ _ Hs) as [K1 K2 K3 K4 K5 K6 K7 K8].
  assert (md_protocol (ss_metadata s) = None) as Hnone by (destruct K4 as [[_ ?]|[? _]]; congruence).
  destruct (K5 Hnone) as [Hreq Hann].
  destruct (pd_accepted d) eqn:Hacc; simpl.
  - eapply update_ok; [done|done| |done..].
    assert (is_Some (pd_protocol d)) as Hsome.
    { destruct Hwf as (_&_&_&_&_&_&_&Hpay&_). rewrite Hp in Hpay. destruct Hpay as (_&_&Hv).
      unfold provider_decision_valid in Hv. rewrite Hacc in Hv. by destruct (pd_protocol d). }
    split; simpl; try done.
    + split; [by apply K1|]. rewrite Hid. by apply K1.
    + right. by rewrite Hph'.
    + destruct K6. by split.
  - (* rejected: the session is closed at once *)
    unfold tombstone_session. simpl. rewrite lookup_insert_eq. simpl. rewrite insert_insert_eq.
    unfold with_sessions at 1. simpl.
    eapply (replace_ok _ _ _ _ (RTombstone (tombstone_of (with_state s next)))); [done..| |done|done].
    done.
Qed.

(** * Envelopes between the two devices *)

Lemma owner_matches_name o i : owner_matches o i = true → so_name o = ac_name i.
Proof. unfold owner_matches. by repeat case_bool_decide. Qed.

Lemma other_participant_Ok s i claimed target :
  other_participant s i claimed = Ok target →
  so_name target = claimed
  ∧ ((owner_matches (ss_consumer s) i = true ∧ target = ss_provider s)
     ∨ (owner_matches (ss_consumer s) i = false ∧ owner_matches (ss_provider s) i = true
        ∧ target = ss_consumer s)).
Proof.
  unfold other_participant. intros (t&Ht&H)%res_bind_Ok. case_bool_decide as E; [|done].
  simpl in H. injection H as ->. split; [done|].
  destruct (owner_matches (ss_consumer s) i); [by injection Ht as ->; left|].
  destruct (owner_matches (ss_provider s) i); [by injection Ht as ->; right|done].
Qed.

(** What the generation check has decided for a candidate set: first announcement of its
    sender in the current generation, or the opening of the next one. *)
Definition generation_step (env : Env) (s : StoredSession) (participant : Z)
    (e : RendezvousEnvelope) (g : Z * bool) (next next' : RendezvousState) : Prop :=
  (env_generation e = rs_generation (ss_state s) ∧ Z.land (ss_announced_by s) participant = 0
     ∧ g = (Z.lor (ss_announced_by s) participant, false) ∧ next' = next)
  ∨ (env_generation e = saturating_add u64_max (rs_generation (ss_state s)) 1
     ∧ ss_announced_by s = 3 ∧ env_generation e ≤ 32
     ∧ 250000000 ≤ elapsed (ss_generation_started s) (instant env 0)
     ∧ g = (participant, true) ∧ advance_generation next (env_generation e) = Ok next').

Lemma generation_update_Ok env s p e next g next' :
  generation_update env s p e next = Ok (g, next') →
  (g = None ∧ next' = next ∧ ∀ set, env_payload e ≠ PCandidateSetV2 set)
  ∨ (∃ set x, env_payload e = PCandidateSetV2 set ∧ g = Some x
       ∧ cs2_owner_is_initiator set = (p =? 1) ∧ generation_step env s p e x next next').
Proof.
  unfold generation_update. destruct (env_payload e) as [| | |set| | | |] eqn:He;
    try (intros [= <- <-]; left; by split_and!).
  destruct (Bool.eqb _ _) eqn:Hi; simpl; [|done]. apply eqb_prop in Hi.
  destruct (Z.eqb_spec (env_generation e) (rs_generation (ss_state s))) as [Hg|Hg].
  - destruct (Z.eqb_spec (Z.land (ss_announced_by s) p) 0) as [Hl|]; simpl; [|done].
    intros [= <- <-]. right. eexists set, _. split_and!; [done..|]. by left.
  - destruct (_ && _) eqn:Hb; [|done].
    apply andb_true_iff in Hb as [[[H1%Z.eqb_eq H2%Z.eqb_eq]%andb_true_iff H3%Z.leb_le]%andb_true_iff H4%Z.leb_le].
    intros (n&Hn%map_err_Ok&[= <- <-])%res_bind_Ok. right. eexists set, _.
    split_and!; [done..|]. right. by split_and!.
Qed.

Lemma relay_update_Ok s p e u :
  relay_update s p e = Ok u →
  (u = None ∧ ∀ r, env_payload e ≠ PRelayRequest r)
  ∨ (∃ r, env_payload e = PRelayRequest r
       ∧ u = Some (p, rlr_datagram r)
       ∧ rlr_datagram r = bool_decide (md_protocol (ss_metadata s) = Some TunnelProtocol.UDP)).
Proof.
  unfold relay_update. destruct (env_payload e) as [| | | | |r| |];
    try (intros [= <-]; left; by split).
  destruct (Bool.eqb _ _) eqn:Hi; simpl; [|done]. apply eqb_prop in Hi.
  destruct (match datagram (ss_relay s) with Some _ => _ | None => _ end); [done|].
  intros [= <-]. right. eauto.
Qed.

Lemma check_forward_Ok env st a e s u m permit :
  check_forward env st a e = Ok (s, u, m, permit) →
  let p := participant_bit s (acs_identity a) in
  validate_origin env a e = Ok tt
  ∧ (match env_payload e with
     | PRequest _ | PProviderDecision _ | PClose _ | PError _ => False | _ => True end)
  ∧ envelope_to_protocol_message e = Ok m
  ∧ sessions st !! env_session_id e = Some (RActive s)
  ∧ unix_secs env 1 < md_expires_unix_secs (ss_metadata s)
  ∧ is_Some (md_protocol (ss_metadata s))
  ∧ other_participant s (acs_identity a) (env_target e) = Ok (fu_target u)
  ∧ (∃ next, generation_update env s p e (ss_state s) = Ok (fu_generation u, next)
       ∧ accept_metadata next (env_session_id e) (env_step e) (env_generation e)
           (env_expires_unix_secs e) (unix_secs env 2) = Ok (fu_state u))
  ∧ relay_update s p e = Ok (fu_relay u)
  ∧ path_update env s e = Ok (fu_path u)
  ∧ reserve_to (view env 2) (fu_target u) = Ok permit.
Proof using P.
  clear sha256.
  unfold check_forward. intros ([]&Ho&H)%res_bind_Ok.
  apply res_bind_Ok in H as (?&Hk&(m'&Hm%map_err_Ok&(s'&Hs%get_active_Ok&([]&Hx%guard_Ok%Z.leb_gt&H)%res_bind_Ok)%res_bind_Ok)%res_bind_Ok).
  apply res_bind_Ok in H as ([]&Hp%guard_Ok%negb_false_iff%bool_decide_eq_true&(t&Ht&([g n]&Hg&H)%res_bind_Ok)%res_bind_Ok).
  apply res_bind_Ok in H as (n'&Hn%map_err_Ok&(r&Hr&(pa&Hpa&(pe&Hpe&[= <- <- <- <-])%res_bind_Ok)%res_bind_Ok)%res_bind_Ok).
  simpl. split_and!; try done; [|by exists n]. destruct (env_payload e); done.
Qed.

Lemma accept_metadata_frame s id step g x now s' :
  accept_metadata s id step g x now = Ok s' →
  rs_session_id s = id ∧ rs_session_id s' = id ∧ rs_phase s' = rs_phase s ∧ g = rs_generation s
  ∧ rs_generation s' = rs_generation s ∧ rs_last_step s < step ∧ rs_last_step s' = step ∧ now < x.
Proof.
  unfold accept_metadata, accept_generation, advance_step, accept_step.
  case_bool_decide; [|done]. simpl. destruct (Z.leb_spec x now); [done|].
  destruct (Z.eqb_spec g (rs_generation s)); [|done]. simpl.
  destruct (Z.leb_spec step (rs_last_step s)); [done|]. simpl. intros [= <-]. simpl. by split_and!.
Qed.

Lemma advance_generation_frame s g s' :
  advance_generation s g = Ok s' →
  rs_session_id s' = rs_session_id s ∧ rs_phase s' = rs_phase s ∧ rs_generation s' = g
  ∧ rs_last_step s' = rs_last_step s.
Proof.
  unfold advance_generation. intros (n&_&H)%res_bind_Ok.
  destruct (Z.eqb_spec g n); [|done]. simpl in H. injection H as <-. by split_and!.
Qed.

(** The owners, the metadata and the session identifier survive every update. *)
Definition same_frame (s s' : StoredSession) : Prop :=
  ss_consumer s' = ss_consumer s ∧ ss_provider s' = ss_provider s ∧ ss_metadata s' = ss_metadata s.

Lemma apply_candidates_frame env s a u d :
  same_frame s (apply_candidates env s a u d)
  ∧ ss_state (apply_candidates env s a u d) = fu_state u.
Proof.
  unfold apply_candidates. destruct (fu_generation u) as [[? []]|]; simpl;
    [destruct (authorized (ss_relay s))| |]; simpl; destruct d; simpl;
    try (destruct (ss_digests s)); done.
Qed.

Lemma apply_relay_frame s u :
  same_frame s (apply_relay s u) ∧ ss_state (apply_relay s u) = ss_state s
  ∧ ss_announced_by (apply_relay s u) = ss_announced_by s
  ∧ ss_digests (apply_relay s u) = ss_digests s.
Proof. by destruct u as [[? ?]|]. Qed.

Lemma apply_path_frame env s p :
  let s' := (apply_path sha256 env s p).1 in
  same_frame s s' ∧ ss_state s' = ss_state s ∧ ss_announced_by s' = ss_announced_by s
  ∧ ss_digests s' = ss_digests s ∧ ss_relay s' = ss_relay s.
Proof.
  unfold apply_path. destruct p as [p|]; [|done]. destruct (ss_observed_path s); [done|].
  by case_bool_decide.
Qed.

Definition bits_ok (announced : Z) (d : option (list byte) * option (list byte)) : Prop :=
  0 ≤ announced ≤ 3
  ∧ (Z.testbit announced 0 = true ↔ is_Some d.1) ∧ (Z.testbit announced 1 = true ↔ is_Some d.2).

(** Announcing a candidate set of the participant with bit [p] sets its bit and its digest. *)
Lemma bits_announce announced d1 d2 p digest :
  bits_ok announced (d1, d2) → p = 1 ∨ p = 2 →
  bits_ok (Z.lor announced p) (if p =? 1 then (Some digest, d2) else (d1, Some digest)).
Proof.
  intros (Hr&H1&H2) Hp. simpl in *.
  assert (announced = 0 ∨ announced = 1 ∨ announced = 2 ∨ announced = 3) as Ha by lia.
  destruct Ha as [->|[->|[->| ->]]], Hp as [-> | ->]; simpl in *;
    (split_and!; [done|done|by split; [eauto|]..] || (split_and!; try done; by split; [eauto|])).
Qed.

Lemma candidates_bits env s a u digest id p :
  session_ok id s →
  participant_bit s (acs_identity a) = p →
  (p = 1 → so_name (ss_consumer s) = ac_name (acs_identity a)) →
  (p = 2 → so_name (ss_provider s) = ac_name (acs_identity a)) →
  (∀ x, fu_generation u = Some x → ∃ e next next', generation_step env s p e x next next') →
  (is_Some (fu_generation u) ↔ is_Some digest) →
  let s' := apply_candidates env s a u digest in
  bits_ok (ss_announced_by s') (ss_digests s')
  ∧ relay_ok (md_protocol (ss_metadata s)) (ss_relay s')
  ∧ (requested_by (ss_relay s) = 0 → requested_by (ss_relay s') = 0).
Proof.
  intros [_ (Hne&_) _ _ _ Hrelay Hann Hdig] Hp Hp1 Hp2 Hgen Hsome s'.
  assert (p = 1 ∨ p = 2) as Hbit by (unfold participant_bit in Hp; case_match; subst; auto).
  assert (bits_ok (ss_announced_by s) (ss_digests s)) as Hbits by by split.
  assert (bool_decide (ac_name (acs_identity a) = so_name (ss_consumer s)) = (p =? 1)) as Hidx.
  { destruct Hbit as [-> | ->]; simpl; [rewrite Hp1 by done; by apply bool_decide_eq_true_2|].
    rewrite <- Hp2 by done. by apply bool_decide_eq_false_2. }
  assert (∀ now, relay_ok (md_protocol (ss_metadata s)) (RelayAdmission_new now)) as Hnew
    by (intros; apply relay_new_ok).
  destruct (fu_generation u) as [[announced advanced]|] eqn:Hg.
  - destruct digest as [digest|]; [|by destruct (proj1 Hsome)].
    destruct (Hgen _ eq_refl) as (e&n&n'&[(_&_&[= -> ->]&_)|(_&_&_&_&[= -> ->]&_)]);
      unfold s', apply_candidates; rewrite Hg; simpl.
    + destruct (ss_digests s) as [d1 d2]. simpl. rewrite Hidx.
      split_and!; [by apply bits_announce|done|done].
    + pose proof (bits_announce 0 None None p digest) as H0. rewrite Z.lor_0_l in H0.
      assert (bits_ok 0 (None, None)) as Hz by (split_and!; simpl; try done; by split; [|intros [? ?]]).
      destruct (authorized (ss_relay s)); simpl; rewrite Hidx; split_and!; auto.
  - destruct digest as [digest|]; [by destruct (proj2 Hsome)|].
    unfold s', apply_candidates. rewrite Hg. simpl. done.
Qed.

Lemma candidate_digest_Some e :
  is_Some (candidate_digest sha256 e) ↔ ∃ set, env_payload e = PCandidateSetV2 set.
Proof.
  unfold candidate_digest. destruct (env_payload e); split; try (by intros [? ?]); eauto.
Qed.

(** The session that [forward_envelope] stores. *)
Definition forwarded (env : Env) (s : StoredSession) (a : ActiveControlSession)
    (e : RendezvousEnvelope) (u : ForwardUpdate) : StoredSession :=
  (apply_path sha256 env
     (apply_relay (apply_candidates env s a u (candidate_digest sha256 e)) (fu_relay u))
     (fu_path u)).1.

Lemma participant_names s i t claimed :
  other_participant s i claimed = Ok t →
  (participant_bit s i = 1 → so_name (ss_consumer s) = ac_name i)
  ∧ (participant_bit s i = 2 → so_name (ss_provider s) = ac_name i)
  ∧ (participant_bit s i = 1 ∨ participant_bit s i = 2).
Proof.
  intros (_&[[H ->]|(H&H2&->)])%other_participant_Ok; unfold participant_bit; rewrite H;
    split_and!; try done; try (by intros; apply owner_matches_name); auto.
Qed.

Lemma forwarded_frame env s a e u :
  same_frame s (forwarded env s a e u) ∧ ss_state (forwarded env s a e u) = fu_state u.
Proof.
  unfold forwarded.
  destruct (apply_candidates_frame env s a u (candidate_digest sha256 e)) as [(?&?&?) ?].
  set (s1 := apply_candidates env s a u (candidate_digest sha256 e)) in *.
  destruct (apply_relay_frame s1 (fu_relay u)) as [(?&?&?) (?&_)].
  destruct (apply_path_frame env (apply_relay s1 (fu_relay u)) (fu_path u)) as [(?&?&?) (?&_)].
  unfold same_frame. split_and!; congruence.
Qed.

Lemma forwarded_ok env st a e s u m permit :
  session_ok (env_session_id e) s → check_forward env st a e = Ok (s, u, m, permit) →
  session_ok (env_session_id e) (forwarded env s a e u).
Proof.
  intros Hs Hc.
  destruct (check_forward_Ok _ _ _ _ _ _ _ _ Hc) as (_&_&_&_&_&Hproto&Ht&(next&Hg&Hacc)&Hr&_&_).
  destruct (participant_names _ _ _ _ Ht) as (Hp1&Hp2&Hbit).
  destruct (forwarded_frame env s a e u) as [(F1&F2&F3) F4].
  assert (rs_session_id (fu_state u) = env_session_id e
    ∧ rs_phase (fu_state u) = rs_phase (ss_state s)) as [Hid Hph].
  { destruct (accept_metadata_frame _ _ _ _ _ _ _ Hacc) as (_&->&->&_). split; [done|].
    destruct (generation_update_Ok _ _ _ _ _ _ _ Hg) as [(_&->&_)|(set&x&_&_&_&Hst)]; [done|].
    destruct Hst as [(_&_&_&->)|(_&_&_&_&_&Hadv)]; [done|]. by apply advance_generation_frame in Hadv as (_&->&_). }
  destruct (candidates_bits env s a u (candidate_digest sha256 e) (env_session_id e) _
    Hs eq_refl Hp1 Hp2) as ((B1&B2&B3)&Hrel&Hreq0).
  { intros x Hx. destruct (generation_update_Ok _ _ _ _ _ _ _ Hg) as [(?&_)|(set&y&_&Hy&_&Hst)];
      [congruence|]. rewrite Hx in Hy. injection Hy as <-. eauto. }
  { rewrite candidate_digest_Some.
    destruct (generation_update_Ok _ _ _ _ _ _ _ Hg) as [(->&_&Hno)|(set&y&Hset&->&_)].
    - split; [by intros [? ?]|]. intros [set Hset]. by destruct (Hno set).
    - split; [|by eauto]. eauto. }
  unfold forwarded in *. set (s1 := apply_candidates env s a u (candidate_digest sha256 e)) in *.
  destruct (apply_relay_frame s1 (fu_relay u)) as [_ (_&A1&A2)].
  destruct (apply_path_frame env (apply_relay s1 (fu_relay u)) (fu_path u)) as [_ (_&C1&C2&C3)].
  set (s3 := (apply_path sha256 env (apply_relay s1 (fu_relay u)) (fu_path u)).1) in *.
  destruct Hs as [K1 K2 K3 K4 K5 K6 K7 K8].
  split; rewrite ?F1, ?F2, ?F3, ?F4, ?Hph, ?C1, ?C2, ?A1, ?A2; try done.
  - by split; [apply K1|].
  - intros Hnone. rewrite Hnone in Hproto. by destruct Hproto.
  - rewrite C3. destruct (relay_update_Ok _ _ _ _ Hr) as [[-> _]|(r&_&->&Hd)]; [done|].
    simpl. destruct Hrel as [R1 R2 R3 R4 R5]. split; simpl; try done.
    + assert (requested_by (ss_relay s1) = 0 ∨ requested_by (ss_relay s1) = 1
        ∨ requested_by (ss_relay s1) = 2 ∨ requested_by (ss_relay s1) = 3) as Hq by lia.
      destruct Hq as [-> |[-> |[-> | ->]]], Hbit as [-> | ->]; by vm_compute.
    + intros _. by rewrite Hd.
    + intros Hz. apply Z.lor_eq_0_iff in Hz as [_ Hz]. destruct Hbit; lia.
Qed.

Lemma coordinator_forward_ok l env st a e :
  coordinator_ok l st → coordinator_ok l (forward_envelope sha256 env st a e).1.2.
Proof.
  intros Hok. unfold forward_envelope.
  destruct (check_forward env st a e) as [[[[s u] m] permit]|x|] eqn:Hc; [|done..]. simpl.
  pose proof (check_forward_Ok _ _ _ _ _ _ _ _ Hc) as (_&_&_&Hs&_).
  pose proof (forwarded_ok env st a e s u m permit (co_record _ _ Hok _ _ Hs) Hc) as Hs'.
  destruct (forwarded_frame env s a e u) as [(F1&F2&F3) _]. unfold forwarded in *.
  destruct (apply_path sha256 env _ _) as [s' events]. simpl in *.
  assert (coordinator_ok l (with_sessions st (<[env_session_id e := RActive s']> (sessions st)))) as Hfin
    by (eapply update_ok; [done..|by rewrite F3]).
  destruct events as [events|x|]; simpl; [|done..].
  destruct (punch_of _ _ _ _) as [[[consumer provider] grant]|]; [|done].
  by destruct (mbind _ _) as [[? ?]|?|].
Qed.

(** * Closing and leaving *)

Lemma check_close_Ok env st a e s next m permit :
  check_close env st a e = Ok (s, next, m, permit) →
  validate_origin env a e = Ok tt
  ∧ (match env_payload e with PClose _ | PError _ => True | _ => False end)
  ∧ envelope_to_protocol_message e = Ok m
  ∧ sessions st !! env_session_id e = Some (RActive s)
  ∧ unix_secs env 1 < md_expires_unix_secs (ss_metadata s)
  ∧ accept_metadata (ss_state s) (env_session_id e) (env_step e) (env_generation e)
      (env_expires_unix_secs e) (unix_secs env 2) = Ok next
  ∧ ∃ target, other_participant s (acs_identity a) (env_target e) = Ok target
      ∧ reserve_to (view env 1) target = Ok permit.
Proof using P.
  clear sha256.
  unfold check_close.
  intros ([]&Ho&(?&Hk&(m'&Hm%map_err_Ok&(s'&Hs%get_active_Ok&H)%res_bind_Ok)%res_bind_Ok)%res_bind_Ok)%res_bind_Ok.
  apply res_bind_Ok in H as ([]&Hx%guard_Ok%Z.leb_gt&(t&Ht&(n&Hn%map_err_Ok&(p&Hpe&[= <- <- <- <-])%res_bind_Ok)%res_bind_Ok)%res_bind_Ok).
  split_and!; try done; [|eauto]. by destruct (env_payload e).
Qed.

(** The state after a close: the session has become its tombstone. *)
Lemma tombstone_after st id s s' :
  sessions st !! id = Some (RActive s) →
  tombstone_session (with_sessions st (<[id := RActive s']> (sessions st))) id
  = (Some s', with_sessions st (<[id := RTombstone (tombstone_of s')]> (sessions st))).
Proof.
  intros Hs. unfold tombstone_session. simpl. rewrite lookup_insert_eq.
  by rewrite insert_insert_eq.
Qed.

Lemma coordinator_close_ok l env st a e :
  coordinator_ok l st → coordinator_ok l (close_session sha256 env st a e).1.2.
Proof.
  intros Hok. unfold close_session.
  destruct (check_close env st a e) as [[[[s next] m] permit]|x|] eqn:Hc; [|done..]. simpl.
  pose proof (check_close_Ok _ _ _ _ _ _ _ _ Hc) as (_&_&_&Hs&_).
  rewrite (tombstone_after _ _ s) by done.
  assert (coordinator_ok l (with_sessions st
    (<[env_session_id e := RTombstone (tombstone_of (with_state s next))]> (sessions st)))) as Hfin.
  { eapply replace_ok; [done..| |done|done]. exact (tombstone_of_ok _ _ (co_record _ _ Hok _ _ Hs)). }
  by destruct (observe_p2p_close _ _ _ _).
Qed.

Lemma tombstone_all_ok l ids st :
  coordinator_ok l st → coordinator_ok l (tombstone_all st ids).2.
Proof.
  revert st. induction ids as [|id ids IH]; intros st Hok; simpl; [done|].
  pose proof (tombstone_session_ok l st id Hok) as H1.
  destruct (tombstone_session st id) as [removed st1]. specialize (IH st1 H1).
  by destruct (tombstone_all st1 ids).
Qed.

Lemma remove_device_ok l env st i :
  coordinator_ok l st → coordinator_ok l (remove_device sha256 env st i).1.2.
Proof.
  intros Hok. unfold remove_device.
  set (owned := _.*1). pose proof (tombstone_all_ok l owned st Hok) as H.
  destruct (tombstone_all st owned) as [removed st']. simpl in *.
  by destruct (disconnect_notices _ _ _ _ _).
Qed.

(** * Maintenance *)

Lemma expire_batch_ok l env base now st :
  coordinator_ok l st → coordinator_ok l (expire_sessions_batch sha256 env base now st).2.
Proof.
  intros Hok. unfold expire_sessions_batch.
  destruct (expire_loop_spec l EXPIRY_MAINTENANCE_BATCH now st Hok) as [H _].
  by destruct (expire_loop EXPIRY_MAINTENANCE_BATCH now st).
Qed.

(** Flushing keeps every record, its owners, its expiry and everything but the counters. *)
Lemma flush_record_frame env id r :
  let r' := (flush_record sha256 env r).2 in
  devices r' = devices r ∧ record_expires r' = record_expires r ∧ (record_ok id r → record_ok id r').
Proof.
  destruct r as [s|t]; simpl; [|done]. case_match; [|done]. simpl. split_and!; [done..|].
  intros []. by split.
Qed.

Lemma map_records_ok l st (f : SessionRecord → SessionRecord) :
  coordinator_ok l st →
  (∀ id r, sessions st !! id = Some r →
    devices (f r) = devices r ∧ record_expires (f r) = record_expires r ∧ record_ok id (f r)) →
  coordinator_ok l (with_sessions st (f <$> sessions st)).
Proof.
  intros [Hc Hs Hd Hr He Hnd Hso] Hf.
  assert (∀ (g : SessionRecord → list byte) d,
    (∀ id r, sessions st !! id = Some r → g (f r) = g r) →
    size (filter (λ x, g x.2 = d) (f <$> sessions st)) = size (filter (λ x, g x.2 = d) (sessions st))) as Hsz.
  { intros g d Hg. rewrite map_filter_fmap, map_size_fmap. f_equal. apply map_filter_ext.
    intros id r Hid. simpl. by rewrite (Hg id). }
  assert (∀ d, participations (f <$> sessions st) d = participations (sessions st) d) as Hp.
  { intros d. unfold participations. rewrite (Hsz consumer_of), (Hsz provider_of); [done|..];
      intros id r Hid; unfold consumer_of, provider_of; by destruct (Hf id r Hid) as [-> _]. }
  split; simpl; try done.
  - intros d. by rewrite Hp.
  - by rewrite map_size_fmap.
  - intros d. by rewrite Hp.
  - intros id r. rewrite lookup_fmap, fmap_Some. intros (r'&Hr'&->). by apply Hf.
  - intros e. rewrite He, lookup_fmap. split.
    + intros (r&Hid&Hx). exists (f r). rewrite Hid. split; [done|]. by destruct (Hf _ _ Hid) as (_&->&_).
    + intros (r&(r'&Hid&->)%fmap_Some&Hx). exists r'. split; [done|].
      by destruct (Hf _ _ Hid) as (_&<-&_).
Qed.

Lemma expire_now_ok l env st : coordinator_ok l st → coordinator_ok l (expire_now sha256 env st).2.
Proof.
  intros Hok. unfold expire_now.
  pose proof (expire_batch_ok l env 1 (unix_secs env 0) st Hok) as H.
  destruct (expire_sessions_batch _ _ _ _ _) as [[notices|x|] st1]; simpl in *; [|done..].
  unfold flush_observability_due. destruct (negb _); simpl; [done|].
  apply map_records_ok; [done|]. intros id r Hr.
  destruct (flush_record_frame env id r) as (?&?&Hrok). split_and!; [done..|].
  apply Hrok. by apply (co_record _ _ H).
Qed.

(** * Relay frames *)

(** The window after an admission: the request bits are kept, the counters stay in bounds. *)
Lemma admit_ok p r now now' bytes :
  relay_ok p r → 0 ≤ bytes → relay_ok p (RelayAdmission_admit r now now' bytes).2
  ∧ requested_by (RelayAdmission_admit r now now' bytes).2 = requested_by r
  ∧ datagram (RelayAdmission_admit r now now' bytes).2 = datagram r.
Proof.
  intros [R1 R2 R3 R4 R5] Hb. unfold RelayAdmission_admit.
  set (r1 := if ONE_SECOND <=? elapsed (window_started r) now then _ else r).
  assert (relay_ok p r1 ∧ requested_by r1 = requested_by r ∧ datagram r1 = datagram r) as (Hr1&Q1&Q2).
  { subst r1. case_match; by split. }
  clearbody r1. destruct (checked_add _ _ _) as [n|] eqn:Hn; [|done].
  apply checked_add_Some in Hn as [-> _].
  destruct (Z.leb_spec MAX_FRAMES_PER_SECOND (frames_in_window r1)); [done|].
  destruct (Z.ltb_spec MAX_BYTES_PER_SECOND (bytes_in_window r1 + bytes)); [done|]. simpl.
  split; [|done]. destruct Hr1. split; simpl; try done; lia.
Qed.

Lemma account_frame_frame s i n :
  let s' := account_frame s i n in
  same_frame s s' ∧ ss_state s' = ss_state s ∧ ss_relay s' = ss_relay s
  ∧ ss_announced_by s' = ss_announced_by s ∧ ss_digests s' = ss_digests s.
Proof.
  unfold account_frame. case_match; [done|]. case_match; [done|].
  by destruct (ss_observed_path s) as [[]|].
Qed.

Lemma relay_stored_ok id s s' r p :
  session_ok id s → md_protocol (ss_metadata s) = p → relay_ok p r →
  requested_by r = requested_by (ss_relay s) →
  same_frame s s' → ss_state s' = ss_state s → ss_relay s' = r →
  ss_announced_by s' = ss_announced_by s → ss_digests s' = ss_digests s → session_ok id s'.
Proof.
  intros [K1 K2 K3 K4 K5 K6 K7 K8] <- Hr Hq (F1&F2&F3) E1 E2 E3 E4.
  split; rewrite ?F1, ?F2, ?F3, ?E1, ?E2, ?E3, ?E4, ?Hq; done.
Qed.

Lemma relay_section_ok l env base st i f :
  coordinator_ok l st → coordinator_ok l (relay_section env base st i f).2.
Proof.
  intros Hok. unfold relay_section.
  destruct (sessions st !! prf_session_id f) as [[s|t]|] eqn:Hs; [|by case_match|done].
  destruct (check_relay s i f) as [target|x|]; [|done..].
  pose proof (co_record _ _ Hok _ _ Hs) as Hsok.
  destruct (admit_ok _ _ (instant env 0) (instant env 1) (blen (prf_ciphertext f))
    (sk_relay _ _ Hsok) (blen_nonneg _)) as (Hr&Hq&_).
  destruct (RelayAdmission_admit _ _ _ _) as [admitted r]. simpl in Hr, Hq.
  assert (∀ s', same_frame s s' → ss_state s' = ss_state s → ss_relay s' = r →
    ss_announced_by s' = ss_announced_by s → ss_digests s' = ss_digests s →
    coordinator_ok l (with_sessions st (<[prf_session_id f := RActive s']> (sessions st)))) as Hput.
  { intros s' Hf E1 E2 E3 E4. pose proof Hf as (F1&F2&F3).
    eapply update_ok; [done|done|by eapply relay_stored_ok|done|done|by rewrite F3]. }
  destruct admitted; simpl; [|by apply Hput].
  destruct (mbind _ _) as [sending|x|]; simpl; [|by apply Hput..].
  apply Hput; destruct (cv_observability_enabled _); try done;
    by destruct (account_frame_frame (with_relay s r) i (blen (prf_ciphertext f))) as ((?&?&?)&?&?&?&?).
Qed.

Lemma relay_frame_ok l env st a f :
  coordinator_ok l st → coordinator_ok l (forward_relay_frame sha256 env st a f).1.2.
Proof.
  intros Hok. unfold forward_relay_frame. destruct (negb _); [done|].
  pose proof (expire_batch_ok l env 1 (unix_secs env 0) st Hok) as H.
  destruct (expire_sessions_batch _ _ _ _ _) as [[notices|x|] st1]; simpl in *; [|done..].
  pose proof (relay_section_ok l env
    (S (2 * length (expire_loop EXPIRY_MAINTENANCE_BATCH (unix_secs env 0) st).1)) st1 (acs_identity a) f H) as H2.
  by destruct (relay_section _ _ _ _ _).
Qed.

(** * Every call *)

(** The envelope of a call is well-typed: it comes from [from_protocol_message]. *)
Definition call_wf (x : Call) : Prop :=
  match x with
  | CRequest _ e | CDecision _ e | CForward _ e | CClose _ e => envelope_wf e
  | CRelayFrame _ f => peer_relay_frame_wf f
  | CRemoveDevice _ | CExpireNow => True
  end.

Lemma coordinator_call_ok c env st x :
  env_ok env → call_wf x → coordinator_ok (limits c) st →
  coordinator_ok (limits c) (call sha256 c env st x).1.2.
Proof.
  intros Henv Hwf Hok. destruct x as [a e|a e|a e|a e|a f|i|]; simpl in *.
  - pose proof (coordinator_request_ok c env st a e Henv Hwf Hok) as H.
    by destruct (request c env st a e) as [[? ?] ?].
  - by apply coordinator_decision_ok.
  - by apply coordinator_forward_ok.
  - by apply coordinator_close_ok.
  - by apply relay_frame_ok.
  - by apply remove_device_ok.
  - pose proof (expire_now_ok (limits c) env st Hok) as H. by destruct (expire_now sha256 env st).
Qed.

(** Any sequence of calls, each with its own readings. *)
Inductive coordinator_step (c : RendezvousCoordinator) (st : CoordinatorState) : CoordinatorState → Prop :=
| coordinator_call env x :
  env_ok env → call_wf x → coordinator_step c st (call sha256 c env st x).1.2.

Definition coordinator_reachable (c : RendezvousCoordinator) (st : CoordinatorState) : Prop :=
  rtc (coordinator_step c) CoordinatorState_default st.

Lemma coordinator_reachable_ok c st : coordinator_reachable c st → coordinator_ok (limits c) st.
Proof.
  unfold coordinator_reachable. pose proof (coordinator_default_ok (limits c)) as H0. revert H0.
  generalize CoordinatorState_default. intros st0 H0 Hr. induction Hr as [|x y z [] _ IH]; [done|].
  by apply IH, coordinator_call_ok.
Qed.
End methods.

(** * A run of the coordinator

    Two devices open a session, ask for the relay, send a frame and close. *)

#[local] Existing Instance postcard_ref.

Definition demo_digest (bytes : list byte) : list byte := replicate 32 x0d.

Definition alice : ActiveControlSession :=
  {| acs_identity := {| ac_name := str "alice"; ac_fingerprint := str "fa"; ac_session_id := str "1" |};
     acs_version := Version.V0_2;
     acs_observability := {| aci_name := str "alice"; aci_generation := 1 |} |}.
Definition bob : ActiveControlSession :=
  {| acs_identity := {| ac_name := str "bob"; ac_fingerprint := str "fb"; ac_session_id := str "2" |};
     acs_version := Version.V0_2;
     acs_observability := {| aci_name := str "bob"; aci_generation := 1 |} |}.

Definition demo_view : ControlView :=
  {| cv_is_active_session i :=
       bool_decide (ac_name i = str "alice") || bool_decide (ac_name i = str "bob");
     cv_active_control_session n :=
       if bool_decide (n = str "alice") then Some alice
       else if bool_decide (n = str "bob") then Some bob else None;
     cv_room _ := true; cv_observability_enabled := true |}.
(** Every clock at [t] seconds. *)
Definition demo_env (t : Z) : Env :=
  {| view _ := demo_view; unix_secs _ := t; unix_millis _ := 1000 * t;
     instant _ := t * ONE_SECOND; random_token := replicate 32 x09 |}.
Definition demo_coordinator : RendezvousCoordinator :=
  RendezvousCoordinator_new [(str "alice", replicate 32 x0a, true); (str "bob", replicate 32 x0b, true)]
    {| max_sessions := 4; max_sessions_per_device := 2; session_ttl_secs := 60 |}.

Definition demo_id : list byte := replicate 32 x07.
Definition demo_rv (from to : list byte) (step : Z) (p : RendezvousPayload) : RendezvousEnvelope :=
  {| env_version := Version.V0_2; env_session_id := demo_id; env_sender := from; env_target := to;
     env_step := step; env_generation := 1; env_expires_unix_secs := 90; env_payload := p;
     env_signature := [] |}.
Definition demo_request := demo_rv (str "alice") (str "bob") 1 (PRequest {| rr_export := str "game" |}).
Definition demo_decision :=
  demo_rv (str "bob") (str "alice") 2 (PProviderDecision (ProviderDecision_accepted TunnelProtocol.UDP)).
Definition demo_relay_a :=
  demo_rv (str "alice") (str "bob") 3 (PRelayRequest {| rlr_datagram := true |}).
Definition demo_relay_b :=
  demo_rv (str "bob") (str "alice") 4 (PRelayRequest {| rlr_datagram := true |}).
Definition demo_close := demo_rv (str "alice") (str "bob") 5 (PClose {| rc_detail := None |}).
Definition demo_frame : PeerRelayFrame :=
  {| prf_session_id := demo_id; prf_channel_id := 1; prf_sequence := 1;
     prf_flags := PeerRelayFlags.DATAGRAM; prf_ciphertext_len := 20;
     prf_ciphertext := replicate 20 x55 |}.

Definition demo_opening : list Call :=
  [CRequest alice demo_request; CDecision bob demo_decision; CForward alice demo_relay_a;
   CForward bob demo_relay_b; CRelayFrame alice demo_frame].
Definition demo_calls : list Call := demo_opening ++ [CClose alice demo_close].

(** The state after some calls, all made at [t] seconds. *)
Definition after (t : Z) (calls : list Call) : CoordinatorState :=
  foldl (λ st x, (call demo_digest demo_coordinator (demo_env t) st x).1.2) CoordinatorState_default calls.

(** The record of the session after the run. *)
Example demo_run_closes :
  sessions (after 50 demo_calls) !! demo_id
  = Some (RTombstone {| ts_consumer := SessionOwner_from alice; ts_provider := SessionOwner_from bob;
                        ts_expires_unix_secs := 90 |}).
Proof. vm_compute. reflexivity. Qed.

(** * The run satisfies what the properties assume *)

Lemma demo_view_laws : ControlViewLaws demo_view.
Proof.
  split; simpl.
  - intros n a. repeat case_bool_decide; by intros [= <-].
  - intros n a. repeat case_bool_decide; by intros [= <-].
  - intros i [->%bool_decide_eq_true| ->%bool_decide_eq_true]%orb_true_iff; by vm_compute.
Qed.

Lemma demo_env_ok t : env_ok (demo_env t).
Proof. intros n. apply demo_view_laws. Qed.

Lemma demo_rv_wf from to step p :
  str_wf MAX_DEVICE_NAME_BYTES from → str_wf MAX_DEVICE_NAME_BYTES to → in_u 64 step →
  payload_wf p → envelope_wf (demo_rv from to step p).
Proof. intros H1 H2 H3 H4. split_and!; simpl; try assumption; by vm_compute. Qed.

Lemma demo_names_wf : str_wf MAX_DEVICE_NAME_BYTES (str "alice") ∧ str_wf MAX_DEVICE_NAME_BYTES (str "bob").
Proof. by vm_compute. Qed.

Lemma demo_calls_wf : Forall call_wf demo_calls.
Proof.
  destruct demo_names_wf as [Ha Hb].
  repeat constructor; simpl; try (apply demo_rv_wf; [assumption|assumption|by vm_compute|by vm_compute]).
  all: repeat split; by vm_compute.
Qed.

Lemma demo_call_wf n x : demo_calls !! n = Some x → call_wf x.
Proof. apply Forall_lookup_1, demo_calls_wf. Qed.

Lemma after_reachable t calls :
  Forall call_wf calls → coordinator_reachable demo_digest demo_coordinator (after t calls).
Proof.
  intros H. unfold coordinator_reachable, after.
  assert (∀ st, rtc (coordinator_step demo_digest demo_coordinator) CoordinatorState_default st →
    rtc (coordinator_step demo_digest demo_coordinator) CoordinatorState_default
      (foldl (λ st x, (call demo_digest demo_coordinator (demo_env t) st x).1.2) st calls)) as Hf;
    [|by apply Hf].
  induction H as [|x calls Hx _ IH]; intros st Hst; simpl; [done|].
  apply IH. eapply rtc_r; [exact Hst|]. apply coordinator_call; [apply demo_env_ok|done].
Qed.

Lemma demo_calls_reachable t : coordinator_reachable demo_digest demo_coordinator (after t demo_calls).
Proof. apply after_reachable, demo_calls_wf. Qed.
Lemma demo_opening_reachable t : coordinator_reachable demo_digest demo_coordinator (after t demo_opening).
Proof. apply after_reachable. exact (proj1 (proj1 (Forall_app _ _ _) demo_calls_wf)). Qed.

(** Candidate sets of both devices; the queues are full when the punch grants are due. *)
Definition demo_candidates (from to : list byte) (step : Z) (initiator : bool) : RendezvousEnvelope :=
  demo_rv from to step
    (PCandidateSetV2 {| cs2_owner_is_initiator := initiator; cs2_bindings := []; cs2_candidates := [] |}).
Definition demo_full_env (t : Z) : Env :=
  {| view n := {| cv_is_active_session := cv_is_active_session demo_view;
                  cv_active_control_session := cv_active_control_session demo_view;
                  cv_room _ := (n <? 3)%nat; cv_observability_enabled := true |};
     unix_secs _ := t; unix_millis _ := 1000 * t; instant _ := t * ONE_SECOND;
     random_token := replicate 32 x09 |}.
Definition demo_two_sets : CoordinatorState :=
  after 50 [CRequest alice demo_request; CDecision bob demo_decision;
            CForward alice (demo_candidates (str "alice") (str "bob") 3 true)].

(** The second candidate set is refused for want of room for the punch grants, yet it has
    been stored and delivered: the same device cannot send it again, and no grant follows. *)
Example punch_grant_lost :
  let e := demo_candidates (str "bob") (str "alice") 4 false in
  let '(r, st', effects) :=
    call demo_digest demo_coordinator (demo_full_env 50) demo_two_sets (CForward bob e) in
  r = Err RendezvousErrorCode.DELIVERY_UNAVAILABLE
  ∧ (match effects with [Sent to _] => bool_decide (ac_name to = str "alice") | _ => false end) = true
  ∧ (match sessions st' !! demo_id with Some (RActive s) => ss_announced_by s | _ => 0 end) = 3
  ∧ (call demo_digest demo_coordinator (demo_env 50) st' (CForward bob e)).1.1 = Err RendezvousErrorCode.INVALID_STATE
  ∧ (call demo_digest demo_coordinator (demo_env 50) st'
       (CForward bob (demo_candidates (str "bob") (str "alice") 5 false))).1.1 = Err RendezvousErrorCode.INVALID_STATE.
Proof. vm_compute. repeat split; reflexivity. Qed.
