(* ===== verification/CoordinatorProps.v ===== *)
(** The properties of the rendezvous coordinator: bounds and exact accounting, routing
    between the two devices of a session only.  The life of a session is in
    [CoordinatorLife], the relay in [CoordinatorRelay]. *)

From S2P Require Import Prelude.
From S2P Require Import Wire.
From S2P Require Import Postcard.
From S2P Require Import PostcardRef.
From S2P Require Import Messages.
From S2P Require Import Events.
From S2P Require Import MessageCodecs.
From S2P Require Import Frame.
From S2P Require Import Handshake.
From S2P Require Import RvMessages.
From S2P Require Import RvFacts.
From S2P Require Import RvState.
From S2P Require Import Registry.
From S2P Require Import RegistryFacts.
From S2P Require Import Coordinator.
From S2P Require Import CoordinatorFacts.
From Stdlib Require Import Strings.Byte.
From stdpp Require Import prelude gmap list strings sorting.

#[local] Open Scope Z_scope.

Section panics.
Context `{P : Postcard} (sha256 : list byte → list byte).

(** * Panic freedom *)

Lemma server_notice_no_panic id code peer :
  (∀ name, peer = Some name → blen name ≤ MAX_CLIENT_NAME_BYTES) →
  server_notice id code peer ≠ Panic.
Proof.
  intros Hp. unfold server_notice.
  assert (blen (RendezvousErrorCode.detail code) ≤ Messages.MAX_ERROR_DETAIL_BYTES) as Hd.
  { unfold RendezvousErrorCode.detail. repeat case_match; by vm_compute. }
  rewrite (proj2 (bounded_try_from_Ok _ _ _)) by done. simpl.
  destruct peer as [name|]; [|done].
  by rewrite (proj2 (bounded_try_from_Ok _ name name)) by auto.
Qed.

Lemma send_server_notice_no_panic v s t code :
  owners_ok (ss_consumer s) (ss_provider s) → send_server_notice v s t code ≠ Panic.
Proof.
  intros (_&H1&H2). unfold send_server_notice. no_panic. apply server_notice_no_panic.
  intros name [= <-]. case_bool_decide; done.
Qed.

Lemma observe_p2p_close_no_panic millis s reason :
  blen reason ≤ MAX_EVENT_LABEL_BYTES → observe_p2p_close sha256 millis s reason ≠ Panic.
Proof.
  intros Hr. unfold observe_p2p_close. case_bool_decide; [|done].
  unfold bounded_label. by rewrite (proj2 (bounded_try_from_Ok _ reason reason)).
Qed.

Lemma expiry_notices_no_panic env base removed :
  Forall (λ s, owners_ok (ss_consumer s) (ss_provider s)) removed →
  expiry_notices sha256 env base removed ≠ Panic.
Proof.
  intros Hr. revert base. induction Hr as [|s removed Hs _ IH]; intros base; simpl; [done|].
  apply res_bind_no_panic; [by apply observe_p2p_close_no_panic|intros ? _].
  apply res_bind_no_panic; [by apply send_server_notice_no_panic|intros ? _].
  apply res_bind_no_panic; [by apply send_server_notice_no_panic|intros ? _].
  by apply res_bind_no_panic; [apply IH|].
Qed.

Lemma disconnect_notices_no_panic env i base removed :
  Forall (λ s, owners_ok (ss_consumer s) (ss_provider s)) removed →
  disconnect_notices sha256 env i base removed ≠ Panic.
Proof.
  intros Hr. revert base. induction Hr as [|s removed Hs _ IH]; intros base; simpl; [done|].
  apply res_bind_no_panic; [by apply observe_p2p_close_no_panic|intros ? _].
  apply res_bind_no_panic; [by apply send_server_notice_no_panic|intros ? _].
  by apply res_bind_no_panic; [apply IH|].
Qed.

Lemma expire_batch_no_panic l env base now st :
  coordinator_ok l st → (expire_sessions_batch sha256 env base now st).1 ≠ Panic.
Proof.
  intros Hok. unfold expire_sessions_batch.
  destruct (expire_loop_spec l EXPIRY_MAINTENANCE_BATCH now st Hok) as [_ [_ Hrem _]].
  destruct (expire_loop EXPIRY_MAINTENANCE_BATCH now st) as [removed st']. simpl in *.
  apply expiry_notices_no_panic, Forall_forall. intros s (id&Hid&_)%Hrem.
  apply (sk_owners _ _ (co_record _ _ Hok _ _ Hid)).
Qed.

Lemma validate_origin_no_panic env a e : validate_origin env a e ≠ Panic.
Proof. unfold validate_origin. by repeat case_match. Qed.

Lemma reserve_to_no_panic v o : reserve_to v o ≠ Panic.
Proof. unfold reserve_to. no_panic. by repeat case_match. Qed.

Lemma envelope_message_no_panic e : envelope_to_protocol_message e ≠ Panic.
Proof.
  unfold envelope_to_protocol_message. apply res_bind_no_panic.
  { apply map_err_no_panic, bounded_try_from_no_panic. }
  intros m _. by destruct (env_payload e).
Qed.

Lemma relay_message_no_panic f : PeerRelayFrame_to_protocol_message f ≠ Panic.
Proof.
  unfold PeerRelayFrame_to_protocol_message. apply res_bind_no_panic; [|done].
  apply map_err_no_panic, bounded_try_from_no_panic.
Qed.

Lemma get_active_no_panic st id : get_active st id ≠ Panic.
Proof. unfold get_active. no_panic. Qed.

Lemma other_participant_no_panic s i c : other_participant s i c ≠ Panic.
Proof.
  unfold other_participant. apply res_bind_no_panic; [by repeat case_match|]. intros ? _. by case_match.
Qed.

Lemma rv_no_panic s step generation accepted id x now :
  RvState.request s step generation ≠ Panic
  ∧ RvState.provider_decision s step generation accepted ≠ Panic
  ∧ advance_generation s generation ≠ Panic
  ∧ accept_metadata s id step generation x now ≠ Panic.
Proof.
  unfold RvState.request, RvState.provider_decision, advance_generation, accept_metadata,
    advance_step, accept_step, accept_generation.
  split_and!; repeat (case_match || apply res_bind_no_panic || intros ? _ || no_panic); done.
Qed.

Lemma check_request_no_panic c env st a e : check_request c env st a e ≠ Panic.
Proof.
  unfold check_request. apply res_bind_no_panic; [apply validate_origin_no_panic|intros ? _].
  apply res_bind_no_panic; [by case_match|intros ? _]. no_panic.
  - by case_match; [apply guard_err_no_panic|].
  - apply rv_no_panic; exact [] || exact 0 || exact true.
  - apply envelope_message_no_panic.
  - apply reserve_to_no_panic.
Qed.

Lemma check_decision_no_panic env st a e : check_decision env st a e ≠ Panic.
Proof.
  unfold check_decision. apply res_bind_no_panic; [apply validate_origin_no_panic|intros ? _].
  apply res_bind_no_panic; [by case_match|intros ? _]. no_panic.
  - apply envelope_message_no_panic.
  - apply get_active_no_panic.
  - apply rv_no_panic; exact [] || exact 0 || exact true.
  - apply reserve_to_no_panic.
Qed.

Lemma forward_parts_no_panic env s p e next :
  generation_update env s p e next ≠ Panic ∧ relay_update s p e ≠ Panic
  ∧ path_update env s e ≠ Panic.
Proof.
  split_and!.
  - unfold generation_update. repeat case_match; try done. no_panic.
    apply rv_no_panic; exact [] || exact 0 || exact true.
  - unfold relay_update. by repeat case_match.
  - unfold path_update. apply res_bind_no_panic; [|by intros; repeat case_match].
    repeat case_match; try done; no_panic.
Qed.

Lemma check_forward_no_panic env st a e : check_forward env st a e ≠ Panic.
Proof.
  unfold check_forward. apply res_bind_no_panic; [apply validate_origin_no_panic|intros ? _].
  apply res_bind_no_panic; [by case_match|intros ? _].
  apply res_bind_no_panic; [apply map_err_no_panic, envelope_message_no_panic|intros ? _].
  apply res_bind_no_panic; [apply get_active_no_panic|intros s _].
  apply res_bind_no_panic; [apply guard_err_no_panic|intros ? _].
  apply res_bind_no_panic; [apply guard_err_no_panic|intros ? _].
  apply res_bind_no_panic; [apply other_participant_no_panic|intros ? _].
  apply res_bind_no_panic; [apply forward_parts_no_panic|intros [g next] _].
  apply res_bind_no_panic; [apply map_err_no_panic|intros ? _].
  { apply rv_no_panic; exact [] || exact 0 || exact true. }
  apply res_bind_no_panic; [exact (proj1 (proj2 (forward_parts_no_panic env s _ e next)))|intros ? _].
  apply res_bind_no_panic; [exact (proj2 (proj2 (forward_parts_no_panic env s 1 e next)))|intros ? _].
  apply res_bind_no_panic; [apply reserve_to_no_panic|done].
Qed.

Lemma check_close_no_panic env st a e : check_close env st a e ≠ Panic.
Proof.
  unfold check_close. apply res_bind_no_panic; [apply validate_origin_no_panic|intros ? _].
  apply res_bind_no_panic; [by case_match|intros ? _]. no_panic.
  - apply envelope_message_no_panic.
  - apply get_active_no_panic.
  - apply other_participant_no_panic.
  - apply rv_no_panic; exact [] || exact 0 || exact true.
  - apply reserve_to_no_panic.
Qed.

Lemma apply_path_no_panic env id s p : session_ok id s → (apply_path sha256 env s p).2 ≠ Panic.
Proof.
  intros [_ (_&_&Hp) Hx _ _ _ _ _]. unfold apply_path. destruct p as [p|]; [|done].
  destruct (ss_observed_path s); [done|].
  assert (∀ m q s', ss_provider s' = ss_provider s → ss_metadata s' = ss_metadata s →
    observe_p2p_open sha256 m s' q ≠ Panic) as Ho.
  { intros m q s' E1 E2. unfold observe_p2p_open, bounded_label. rewrite E1, E2.
    rewrite (proj2 (bounded_try_from_Ok _ (so_name (ss_provider s)) (so_name (ss_provider s)))) by done. simpl.
    by rewrite (proj2 (bounded_try_from_Ok _ (md_export (ss_metadata s)) (md_export (ss_metadata s)))). }
  case_bool_decide; simpl; (apply res_bind_no_panic; [by apply Ho|done]).
Qed.

Lemma relay_section_no_panic env base st i f : (relay_section env base st i f).1 ≠ Panic.
Proof.
  unfold relay_section. destruct (sessions st !! prf_session_id f) as [[s|t]|]; [|by case_match|done].
  assert (check_relay s i f ≠ Panic) as Hc.
  { unfold check_relay. no_panic. by repeat case_match. }
  destruct (check_relay s i f) as [target| |]; [|done..].
  destruct (RelayAdmission_admit _ _ _ _) as [[] r]; simpl; [|done].
  assert ((message ← map_err (λ _, RendezvousErrorCode.INVALID_STATE) (PeerRelayFrame_to_protocol_message f);
           permit ← reserve_to (view env base) target; Ok (permit, message)) ≠ Panic) as Hm.
  { apply res_bind_no_panic; [apply map_err_no_panic, relay_message_no_panic|intros ? _].
    by apply res_bind_no_panic; [apply reserve_to_no_panic|]. }
  destruct (mbind _ _) as [x|x|]; done.
Qed.

(** The sessions a device leaves behind are well-formed. *)
Lemma tombstone_all_owners l ids st :
  coordinator_ok l st →
  Forall (λ s, owners_ok (ss_consumer s) (ss_provider s)) (tombstone_all st ids).1.
Proof.
  revert st. induction ids as [|id ids IH]; intros st Hok; simpl; [by constructor|].
  pose proof (tombstone_session_ok l st id Hok) as H1.
  assert (Forall (λ s, owners_ok (ss_consumer s) (ss_provider s))
    (option_list (tombstone_session st id).1)) as H2.
  { unfold tombstone_session. destruct (sessions st !! id) as [[s|t]|] eqn:Hid; simpl; repeat constructor;
      apply (sk_owners _ _ (co_record _ _ Hok _ _ Hid)). }
  destruct (tombstone_session st id) as [removed st1]. specialize (IH st1 H1).
  destruct (tombstone_all st1 ids) as [rest st2]. by apply Forall_app.
Qed.

(** The session as [apply_path] finds it. *)
Lemma stored_ok env st a e s u m permit :
  session_ok (env_session_id e) s → check_forward env st a e = Ok (s, u, m, permit) →
  session_ok (env_session_id e)
    (apply_relay (apply_candidates env s a u (candidate_digest sha256 e)) (fu_relay u)).
Proof.
  intros Hs Hc. pose proof (forwarded_ok sha256 env st a e s u m permit Hs Hc) as Hf.
  unfold forwarded in Hf. set (s2 := apply_relay _ _) in *.
  destruct (apply_path_frame sha256 env s2 (fu_path u)) as ((F1&F2&F3)&E1&E2&E3&E4).
  destruct Hf as [K1 K2 K3 K4 K5 K6 K7 K8].
  rewrite ?F1, ?F2, ?F3, ?E1, ?E2, ?E3, ?E4 in *. by split.
Qed.

(** No call panics in a state that keeps the invariant. *)
Lemma call_no_panic c env st x :
  coordinator_ok (limits c) st → (call sha256 c env st x).1.1 ≠ Panic.
Proof.
  intros Hok. destruct x as [a e|a e|a e|a e|a f|i|]; simpl.
  - unfold request. pose proof (check_request_no_panic c env st a e).
    by destruct (check_request c env st a e) as [[[[[? ?] ?] ?] ?]|?|].
  - unfold provider_decision. pose proof (check_decision_no_panic env st a e).
    by destruct (check_decision env st a e) as [[[[[? ?] ?] ?] ?]|?|].
  - unfold forward_envelope. pose proof (check_forward_no_panic env st a e).
    destruct (check_forward env st a e) as [[[[s u] m] permit]|?|] eqn:Hc; [|done..]. simpl.
    pose proof (check_forward_Ok _ _ _ _ _ _ _ _ Hc) as (_&_&_&Hs&_).
    assert (∀ s', session_ok (env_session_id e) s' → (apply_path sha256 env s' (fu_path u)).2 ≠ Panic) as Hp.
    { intros s' Hs'. by eapply apply_path_no_panic. }
    pose proof (stored_ok env st a e s u m permit (co_record _ _ Hok _ _ Hs) Hc) as Hpre.
    specialize (Hp _ Hpre). destruct (apply_path _ _ _ _) as [s' [events|?|]]; simpl in *; [|done..].
    destruct (punch_of _ _ _ _) as [[[consumer provider] grant]|]; [|done].
    assert ((consumer_permit ← reserve_to (view env 3) consumer;
             provider_permit ← reserve_to (view env 4) provider;
             Ok (consumer_permit, provider_permit)) ≠ Panic) as Hr.
    { apply res_bind_no_panic; [apply reserve_to_no_panic|intros ? _].
      by apply res_bind_no_panic; [apply reserve_to_no_panic|]. }
    by destruct (mbind _ _) as [[? ?]|?|].
  - unfold close_session. pose proof (check_close_no_panic env st a e).
    destruct (check_close env st a e) as [[[[s next] m] permit]|?|] eqn:Hc; [|done..]. simpl.
    pose proof (check_close_Ok _ _ _ _ _ _ _ _ Hc) as (_&_&_&Hs&_).
    rewrite (tombstone_after _ _ s) by done.
    pose proof (observe_p2p_close_no_panic (unix_millis env 0) (with_state s next) (str "closed")).
    destruct (observe_p2p_close _ _ _ _); simpl; [done..|]. exfalso. by apply H0.
  - unfold forward_relay_frame. destruct (negb _); [done|].
    pose proof (expire_batch_no_panic (limits c) env 1 (unix_secs env 0) st Hok).
    destruct (expire_sessions_batch _ _ _ _ _) as [[notices|?|] st1]; simpl in *; [|done..].
    pose proof (relay_section_no_panic env
      (S (2 * length (expire_loop EXPIRY_MAINTENANCE_BATCH (unix_secs env 0) st).1)) st1 (acs_identity a) f).
    by destruct (relay_section _ _ _ _ _) as [[?|?|] ?].
  - unfold remove_device. set (owned := _.*1).
    pose proof (tombstone_all_owners (limits c) owned st Hok) as Hr.
    destruct (tombstone_all st owned) as [removed st']. simpl in *.
    pose proof (disconnect_notices_no_panic env i 0 removed Hr).
    by destruct (disconnect_notices _ _ _ _ _).
  - unfold expire_now. pose proof (expire_batch_no_panic (limits c) env 1 (unix_secs env 0) st Hok).
    destruct (expire_sessions_batch _ _ _ _ _) as [[notices|?|] st1]; simpl in *; [|done..].
    by destruct (flush_observability_due _ _ _).
Qed.
End panics.

(** * Routing *)

(** The messages among the effects of a call. *)
Definition sends (l : list Effect) : list (AuthenticatedClient * Message) :=
  omap (λ e, match e with Sent to m => Some (to, m) | Observed _ => None end) l.

(** The consumer and the provider of a record. *)
Definition parties (r : SessionRecord) : SessionOwner * SessionOwner :=
  match r with
  | RActive s => (ss_consumer s, ss_provider s)
  | RTombstone t => (ts_consumer t, ts_provider t)
  end.

(** Two control sessions are the two ends of a session. *)
Definition linked (r : SessionRecord) (a b : AuthenticatedClient) : Prop :=
  (owner_matches (parties r).1 a = true ∧ owner_matches (parties r).2 b = true)
  ∨ (owner_matches (parties r).2 a = true ∧ owner_matches (parties r).1 b = true).

(** A punch grant for both ends of a session whose two candidate sets of the current
    generation have been announced, with their digests. *)
Definition punch_for (r : SessionRecord) (generation : Z)
    (punches : list (AuthenticatedClient * Message)) : Prop :=
  ∃ s grant consumer provider, r = RActive s
    ∧ punches = [(consumer, MPunchGrant grant); (provider, MPunchGrant grant)]
    ∧ owner_matches (ss_consumer s) consumer = true ∧ owner_matches (ss_provider s) provider = true
    ∧ ss_announced_by s = 3 ∧ pg_generation grant = generation
    ∧ rs_generation (ss_state s) = generation
    ∧ ss_digests s = (Some (pg_initiator_candidates_sha256 grant),
                      Some (pg_responder_candidates_sha256 grant)).

Lemma sends_app l k : sends (l ++ k) = sends l ++ sends k.
Proof. apply omap_app. Qed.

Lemma sends_observed l : sends (Observed <$> l) = [].
Proof. by induction l. Qed.

Lemma reserve_to_Ok v o to :
  reserve_to v o = Ok to →
  owner_matches o to = true ∧ cv_room v to = true
  ∧ ∃ s, cv_active_control_session v (so_name o) = Some s ∧ acs_identity s = to.
Proof.
  unfold reserve_to. intros (s&Hs%ok_or_Ok&H)%res_bind_Ok.
  destruct (owner_matches o (acs_identity s)) eqn:Ho; [|done]. simpl in H.
  destruct (cv_room v (acs_identity s)) eqn:Hr; [|done]. injection H as <-. eauto.
Qed.

Lemma owner_from_matches s : owner_matches (SessionOwner_from s) (acs_identity s) = true.
Proof. unfold owner_matches. simpl. by rewrite !bool_decide_eq_true_2. Qed.

Section routing.
Context `{P : Postcard} (sha256 : list byte → list byte).

Lemma observe_p2p_close_sends millis s reason effects :
  observe_p2p_close sha256 millis s reason = Ok effects → sends effects = [].
Proof.
  unfold observe_p2p_close. case_bool_decide.
  - intros (x&_&[= <-])%res_bind_Ok. by rewrite sends_app, sends_observed.
  - intros [= <-]. apply sends_observed.
Qed.

Lemma observe_p2p_close_no_err millis s reason x : observe_p2p_close sha256 millis s reason ≠ Err x.
Proof. unfold observe_p2p_close. case_bool_decide; [|done]. by destruct (res_ok _). Qed.

Lemma apply_path_no_err env s p x : (apply_path sha256 env s p).2 ≠ Err x.
Proof.
  unfold apply_path. destruct p as [p|]; [|done]. destruct (ss_observed_path s); [done|].
  unfold observe_p2p_open. case_bool_decide; simpl; destruct (res_ok _); simpl; try done;
    by destruct (res_ok _).
Qed.

Lemma apply_path_sends env s p effects :
  (apply_path sha256 env s p).2 = Ok effects → sends effects = [].
Proof.
  unfold apply_path. destruct p as [p|]; [|by intros [= <-]].
  destruct (ss_observed_path s); [by intros [= <-]|].
  case_bool_decide; simpl; intros (o&_&[= <-])%res_bind_Ok; simpl;
    [apply sends_observed|done].
Qed.

(** What a routed envelope has done. *)
Definition routed (env : Env) (a : ActiveControlSession) (e : RendezvousEnvelope)
    (st' : CoordinatorState) (effects : list Effect) : Prop :=
  cv_is_active_session (view env 0) (acs_identity a) = true
  ∧ env_sender e = ac_name (acs_identity a)
  ∧ ∃ m to record punches, envelope_to_protocol_message e = Ok m
      ∧ sends effects = (to, m) :: punches ∧ ac_name to = env_target e
      ∧ sessions st' !! env_session_id e = Some record ∧ linked record (acs_identity a) to
      ∧ (punches = [] ∨ punch_for record (env_generation e) punches).

Lemma request_routed c env st a e :
  env_ok env →
  let '(r, st', effects) := request c env st a e in
  (∀ id, id ≠ env_session_id e → sessions st' !! id = sessions st !! id)
  ∧ match r with Ok _ => routed env a e st' effects | Err _ => st' = st ∧ effects = [] | Panic => True end.
Proof.
  intros Henv. unfold request.
  destruct (check_request c env st a e) as [[[[[r provider] state] m] permit]|x|] eqn:Hc; [|done..].
  destruct (check_request_Ok _ _ _ _ _ _ _ _ _ _ Hc)
    as (_&(Hact&Hsend&_)%validate_origin_Ok&_&_&(p&Hpv&->&_)&_&_&Hm&_&_&_&_&(Hown&_)%reserve_to_Ok).
  simpl. split; [intros id Hne; by rewrite lookup_insert_ne|].
  split_and!; [done|done|]. destruct (Henv 1%nat) as [Hname _ _]. specialize (Hname _ _ Hpv).
  eexists m, permit, _, []. split_and!; [done|done| |apply lookup_insert_eq| |by left].
  - apply owner_matches_name in Hown. simpl in Hown. congruence.
  - left. simpl. split; [apply owner_from_matches|done].
Qed.

Lemma decision_routed env st a e :
  let '(r, st', effects) := provider_decision env st a e in
  (∀ id, id ≠ env_session_id e → sessions st' !! id = sessions st !! id)
  ∧ match r with Ok _ => routed env a e st' effects | Err _ => st' = st ∧ effects = [] | Panic => True end.
Proof.
  unfold provider_decision.
  destruct (check_decision env st a e) as [[[[[d s] next] m] permit]|x|] eqn:Hc; [|done..].
  destruct (check_decision_Ok _ _ _ _ _ _ _ _ _ Hc)
    as (_&(Hact&Hsend&_)%validate_origin_Ok&Hm&Hs&_&Hown&Ht&_&(Hto&_)%reserve_to_Ok).
  pose proof (owner_matches_name _ _ Hto) as Hn. simpl.
  destruct (pd_accepted d); simpl.
  - split; [intros id Hne; by rewrite lookup_insert_ne|]. split_and!; [done|done|].
    eexists m, permit, _, []. split_and!; [done|done|congruence|apply lookup_insert_eq| |by left].
    right. simpl. by split.
  - rewrite (tombstone_after _ _ s) by done. simpl.
    split; [intros id Hne; by rewrite lookup_insert_ne|]. split_and!; [done|done|].
    eexists m, permit, _, []. split_and!; [done|done|congruence|apply lookup_insert_eq| |by left].
    right. simpl. by split.
Qed.

Lemma close_routed env st a e :
  let '(r, st', effects) := close_session sha256 env st a e in
  (∀ id, id ≠ env_session_id e → sessions st' !! id = sessions st !! id)
  ∧ match r with Ok _ => routed env a e st' effects | Err _ => st' = st ∧ effects = [] | Panic => True end.
Proof.
  unfold close_session.
  destruct (check_close env st a e) as [[[[s next] m] permit]|x|] eqn:Hc; [|done..].
  destruct (check_close_Ok _ _ _ _ _ _ _ _ Hc)
    as ((Hact&Hsend&_)%validate_origin_Ok&_&Hm&Hs&_&_&target&(Ht&Hpart)%other_participant_Ok&(Hto&_)%reserve_to_Ok).
  pose proof (owner_matches_name _ _ Hto) as Hn. simpl. rewrite (tombstone_after _ _ s) by done.
  destruct (observe_p2p_close _ _ _ _) as [closed|x|] eqn:Hcl; simpl;
    [|by apply observe_p2p_close_no_err in Hcl|split; [intros id Hne; by rewrite lookup_insert_ne|done]].
  split; [intros id Hne; by rewrite lookup_insert_ne|]. split_and!; [done|done|].
  apply observe_p2p_close_sends in Hcl.
  eexists m, permit, _, []. split_and!; [done| |congruence|apply lookup_insert_eq| |by left].
  - by rewrite sends_app, Hcl.
  - destruct Hpart as [[? ->]|(_&?&->)]; [left|right]; by split.
Qed.

(** The session a punch grant is for, after the rest of the envelope has been applied. *)
Lemma punch_of_Some env s e d consumer provider grant :
  punch_of env s e d = Some (consumer, provider, grant) →
  is_Some d ∧ consumer = ss_consumer s ∧ provider = ss_provider s ∧ ss_announced_by s = 3
  ∧ pg_generation grant = env_generation e
  ∧ ss_digests s = (Some (pg_initiator_candidates_sha256 grant),
                    Some (pg_responder_candidates_sha256 grant)).
Proof.
  unfold punch_of. case_bool_decide; [|done]. simpl.
  destruct (Z.eqb_spec (ss_announced_by s) 3); [|done].
  destruct (ss_digests s) as [[i|] [r|]]; [|done..]. intros [= <- <- <-]. by split_and!.
Qed.

(** The generation of the session after a candidate set is the one of the envelope. *)
Lemma forward_generation env st a e s u m permit :
  check_forward env st a e = Ok (s, u, m, permit) → rs_generation (fu_state u) = env_generation e.
Proof.
  intros (_&_&_&_&_&_&_&(next&_&Hacc)&_)%check_forward_Ok.
  apply accept_metadata_frame in Hacc as (_&_&_&Hg&Hg'&_). congruence.
Qed.

(** The one failure that is not without effect: the envelope is a candidate set that has been
    routed and stored, alone; with it both sets of its generation are in; and the error is
    the one of the place for a punch grant that the control session of the consumer, or then
    of the provider, did not have. *)
Definition punch_lost (env : Env) (a : ActiveControlSession) (e : RendezvousEnvelope) (x : Z)
    (st' : CoordinatorState) (effects : list Effect) : Prop :=
  routed env a e st' effects ∧ length (sends effects) = 1%nat
  ∧ ∃ set s i r, env_payload e = PCandidateSetV2 set
      ∧ sessions st' !! env_session_id e = Some (RActive s)
      ∧ ss_announced_by s = 3 ∧ ss_digests s = (Some i, Some r)
      ∧ rs_generation (ss_state s) = env_generation e
      ∧ (reserve_to (view env 3) (ss_consumer s) = Err x
         ∨ (∃ to, reserve_to (view env 3) (ss_consumer s) = Ok to)
           ∧ reserve_to (view env 4) (ss_provider s) = Err x).

(** A session that keeps its owners has been stored and the envelope sent to the other. *)
Lemma routed_intro env st a e s s3 m to effects punches :
  cv_is_active_session (view env 0) (acs_identity a) = true →
  env_sender e = ac_name (acs_identity a) → envelope_to_protocol_message e = Ok m →
  other_participant s (acs_identity a) (env_target e) = Ok (if owner_matches (ss_consumer s) (acs_identity a)
                                                            then ss_provider s else ss_consumer s) →
  owner_matches (if owner_matches (ss_consumer s) (acs_identity a)
                 then ss_provider s else ss_consumer s) to = true →
  ss_consumer s3 = ss_consumer s → ss_provider s3 = ss_provider s →
  sends effects = (to, m) :: punches →
  punches = [] ∨ punch_for (RActive s3) (env_generation e) punches →
  routed env a e (with_sessions st (<[env_session_id e := RActive s3]> (sessions st))) effects.
Proof.
  intros Hact Hsend Hm (Ht&Hpart)%other_participant_Ok Hto Ec Ep Hs Hp.
  split_and!; [done|done|]. exists m, to, (RActive s3), punches.
  split_and!; [done|done| |apply lookup_insert_eq| |done].
  - apply owner_matches_name in Hto. congruence.
  - unfold linked. simpl. rewrite Ec, Ep.
    destruct Hpart as [[H _]|(H&H2&_)]; rewrite H in Hto; [left|right]; by split.
Qed.

Lemma forward_routed env st a e :
  let '(r, st', effects) := forward_envelope sha256 env st a e in
  (∀ id, id ≠ env_session_id e → sessions st' !! id = sessions st !! id)
  ∧ match r with
    | Ok _ => routed env a e st' effects
    | Err x => (st' = st ∧ effects = []) ∨ punch_lost env a e x st' effects
    | Panic => True
    end.
Proof.
  unfold forward_envelope.
  destruct (check_forward env st a e) as [[[[s u] m] permit]|x|] eqn:Hc;
    [|by split; [|left]|done].
  pose proof (forward_generation _ _ _ _ _ _ _ _ Hc) as Hgen.
  destruct (check_forward_Ok _ _ _ _ _ _ _ _ Hc)
    as ((Hact&Hsend&_)%validate_origin_Ok&_&Hm&Hs&_&_&Ht&_&_&_&(Hto&_)%reserve_to_Ok). simpl.
  assert (fu_target u = if owner_matches (ss_consumer s) (acs_identity a)
                        then ss_provider s else ss_consumer s) as Etarget.
  { pose proof Ht as (_&[[-> ?]|(->&_&?)])%other_participant_Ok; done. }
  rewrite Etarget in Ht, Hto.
  set (digest := candidate_digest sha256 e). set (s1 := apply_candidates env s a u digest).
  destruct (apply_candidates_frame env s a u digest) as [(A1&A2&_) A3]. fold s1 in A1, A2, A3.
  destruct (apply_relay_frame s1 (fu_relay u)) as [(B1&B2&_) (B3&B4&B5)].
  destruct (apply_path_frame sha256 env (apply_relay s1 (fu_relay u)) (fu_path u)) as [(C1&C2&_) (C3&C4&C5&_)].
  pose proof (apply_path_sends env (apply_relay s1 (fu_relay u)) (fu_path u)) as Hsends.
  pose proof (apply_path_no_err env (apply_relay s1 (fu_relay u)) (fu_path u)) as Herr.
  destruct (apply_path sha256 env _ _) as [s3 events] eqn:Hap; simpl in *.
  assert (∀ effects punches, sends effects = (permit, m) :: punches →
    punches = [] ∨ punch_for (RActive s3) (env_generation e) punches →
    routed env a e (with_sessions st (<[env_session_id e := RActive s3]> (sessions st))) effects) as Hr.
  { intros effects punches. apply (routed_intro env st a e s s3 m); congruence. }
  assert (∀ x, (∀ id, id ≠ env_session_id e →
    sessions (with_sessions st (<[env_session_id e := x]> (sessions st))) !! id = sessions st !! id)) as Hfr.
  { intros x id Hne. by apply lookup_insert_ne. }
  destruct events as [events|x|]; [|by destruct (Herr x)|simpl; by split; [apply Hfr|]].
  assert (∀ l, sends ((events ++ [Sent permit m]) ++ l) = (permit, m) :: sends l) as Hev.
  { intros l. by rewrite !sends_app, (Hsends _ eq_refl). }
  assert (sends (events ++ [Sent permit m]) = [(permit, m)]) as Hev0.
  { by rewrite <- (app_nil_r (_ ++ _)), Hev. }
  destruct (punch_of env s1 e digest) as [[[consumer provider] grant]|] eqn:Hpu; simpl;
    [|split; [apply Hfr|apply (Hr _ []); [done|by left]]].
  destruct (punch_of_Some _ _ _ _ _ _ _ Hpu) as (Hd&->&->&Hann&Hgr&Hdig).
  assert (∀ x, reserve_to (view env 3) (ss_consumer s1) = Err x
               ∨ (∃ to, reserve_to (view env 3) (ss_consumer s1) = Ok to)
                 ∧ reserve_to (view env 4) (ss_provider s1) = Err x →
    punch_lost env a e x (with_sessions st (<[env_session_id e := RActive s3]> (sessions st)))
      (events ++ [Sent permit m])) as Hlost.
  { intros x Hx. split; [by apply (Hr _ []); [|left]|]. split; [by rewrite Hev0|].
    pose proof Hd as [set Hset]%candidate_digest_Some.
    exists set, s3, (pg_initiator_candidates_sha256 grant), (pg_responder_candidates_sha256 grant).
    split_and!; [done|apply lookup_insert_eq|congruence|congruence|congruence|].
    assert (ss_consumer s3 = ss_consumer s1) as -> by congruence.
    by assert (ss_provider s3 = ss_provider s1) as -> by congruence. }
  destruct (reserve_to (view env 3) (ss_consumer s1)) as [cp|x|] eqn:Hcp; simpl;
    [|split; [apply Hfr|right; apply Hlost; by left]|by split; [apply Hfr|]].
  destruct (reserve_to (view env 4) (ss_provider s1)) as [pp|x|] eqn:Hpp; simpl;
    [|split; [apply Hfr|right; apply Hlost; right; by eauto]|by split; [apply Hfr|]].
  apply reserve_to_Ok in Hcp as [Hcp _], Hpp as [Hpp _].
  split; [apply Hfr|]. eapply Hr; [apply Hev|]. right. simpl.
  exists s3, grant, cp, pp. split_and!; congruence.
Qed.
End routing.

(** * Properties *)

(** The result of the method a call has come to. *)
Ltac by_outcome :=
  match goal with
  | |- context [request ?c ?env ?st ?a ?e] => destruct (request c env st a e) as [[[?|?|] ?] ?]
  | |- context [provider_decision ?env ?st ?a ?e] =>
    destruct (provider_decision env st a e) as [[[?|?|] ?] ?]
  | |- context [forward_envelope ?h ?env ?st ?a ?e] =>
    destruct (forward_envelope h env st a e) as [[[?|?|] ?] ?]
  | |- context [close_session ?h ?env ?st ?a ?e] =>
    destruct (close_session h env st a e) as [[[?|?|] ?] ?]
  end; simpl in *; naive_solver.

(** C8: in every state the coordinator can reach, by any sequence of calls with any readings
    of the registry and the clocks, the count kept for a device is exactly the number of
    sessions it takes part in and is absent when there are none; the number of sessions and
    each device's share stay within the limits; the expiry heap holds exactly one entry for
    each session, with its expiry, in order; and no call panics. *)
Theorem coordinator_invariant `{P : Postcard} (sha256 : list byte → list byte) c st :
  coordinator_reachable sha256 c st →
  (∀ d, device_counts st !! d = expected_count (participations (sessions st) d))
  ∧ Z.of_nat (size (sessions st)) ≤ Z.max 0 (max_sessions (limits c))
  ∧ (∀ d, Z.of_nat (participations (sessions st) d) ≤ Z.max 0 (max_sessions_per_device (limits c)))
  ∧ (∀ e, e ∈ expiry st ↔
       ∃ r, sessions st !! ee_session_id e = Some r ∧ record_expires r = ee_expires_unix_secs e)
  ∧ NoDup (expiry st) ∧ StronglySorted entry_leP (expiry st)
  ∧ (∀ env x, (call sha256 c env st x).1.1 ≠ Panic).
Proof.
  intros Hok%coordinator_reachable_ok. pose proof Hok as [Hc Hs Hd _ He Hnd Hso].
  split_and!; try done. intros env x. by apply call_no_panic.
Qed.

Lemma coordinator_invariant_witness :
  device_counts (after 50 demo_calls) !! str "bob" = Some 1
  ∧ expiry (after 50 demo_calls) = [{| ee_expires_unix_secs := 90; ee_session_id := demo_id |}]
  ∧ device_counts (after 50 demo_calls) !! str "bob"
    = expected_count (participations (sessions (after 50 demo_calls)) (str "bob")).
Proof.
  split_and!; [vm_compute; reflexivity|vm_compute; reflexivity|].
  exact (proj1 (coordinator_invariant (P := postcard_ref) demo_digest demo_coordinator (after 50 demo_calls)
    (demo_calls_reachable 50)) (str "bob")).
Defined.

(** C9: an envelope touches no session but its own.  When the call succeeds, its sender is
    the authenticated device of an active control session, the session is one between this
    control session and the recipient's, the envelope itself is what is sent, to the device
    it names, and the only other messages are the punch grants for both ends of a session
    whose two candidate sets of this generation have been announced, with the digests of
    both.  When it fails, nothing has changed and nothing is sent, with one exception that
    is stated exactly ([punch_lost]): the candidate set that completes a pair has been
    stored and sent, alone, before the places for the two punch grants are reserved, and
    remains so when one of them is missing; the error is then the one of that place. *)
Theorem envelope_routed `{P : Postcard} (sha256 : list byte → list byte) c env st a e :
  coordinator_reachable sha256 c st → env_ok env →
  let '(r, st', effects) := call sha256 c env st (call_of_envelope a e) in
  (∀ id, id ≠ env_session_id e → sessions st' !! id = sessions st !! id)
  ∧ match r with
    | Ok _ => routed env a e st' effects
    | Err x => (st' = st ∧ effects = []) ∨ punch_lost env a e x st' effects
    | Panic => False
    end.
Proof.
  intros Hok%coordinator_reachable_ok Henv.
  pose proof (call_no_panic sha256 c env st (call_of_envelope a e) Hok) as Hnp.
  pose proof (request_routed c env st a e Henv) as H1. pose proof (decision_routed env st a e) as H2.
  pose proof (close_routed sha256 env st a e) as H3. pose proof (forward_routed sha256 env st a e) as H4.
  unfold call_of_envelope in *. destruct (env_payload e); simpl in *; by_outcome.
Qed.

Lemma envelope_routed_witness :
  match call (P := postcard_ref) demo_digest demo_coordinator (demo_env 50) (after 50 demo_opening)
          (call_of_envelope alice demo_close) with
  | (Ok _, st', effects) => routed (P := postcard_ref) (demo_env 50) alice demo_close st' effects
  | _ => False
  end.
Proof.
  pose proof (envelope_routed (P := postcard_ref) demo_digest demo_coordinator (demo_env 50)
    (after 50 demo_opening) alice demo_close (demo_opening_reachable 50) (demo_env_ok 50)) as H.
  assert (match (call (P := postcard_ref) demo_digest demo_coordinator (demo_env 50) (after 50 demo_opening)
            (call_of_envelope alice demo_close)).1.1 with Ok _ => True | _ => False end) as Hr
    by (vm_compute; exact I).
  destruct (call (P := postcard_ref) demo_digest demo_coordinator (demo_env 50) (after 50 demo_opening)
    (call_of_envelope alice demo_close)) as [[[u|x|] st'] effects]; [exact (proj2 H)|exact Hr|exact Hr].
Defined.
