(* ===== verification/CoordinatorLife.v ===== *)
(** The contract of the rendezvous coordinator: the life of a session as the two devices see
    it, and the proof that the coordinator implements it call by call and run by run. *)

From S2P Require Import Prelude.
From S2P Require Import Wire.
From S2P Require Import Postcard.
From S2P Require Import PostcardRef.
From S2P Require Import Messages.
From S2P Require Import Events.
From S2P Require Import MessageCodecs.
From S2P Require Import Frame.
From S2P Require Import Handshake.
From S2P Require Import RvMessages.
From S2P Require Import RvFacts.
From S2P Require Import RvState.
From S2P Require Import Registry.
From S2P Require Import RegistryFacts.
From S2P Require Import Coordinator.
From S2P Require Import CoordinatorFacts.
From S2P Require Import CoordinatorProps.
From Stdlib Require Import Strings.Byte.
From stdpp Require Import prelude gmap list strings sorting.

#[local] Open Scope Z_scope.

(** * The abstract session *)

(** A session identifier is free, waits for the provider's decision, is open with a
    protocol, or is closed and remembered until it expires. *)
Inductive Life :=
| Free
| Pending (consumer provider : SessionOwner) (expires : Z)
| Running (consumer provider : SessionOwner) (expires : Z) (protocol : Z)
| Closed (consumer provider : SessionOwner) (expires : Z).

Definition life_of (r : option SessionRecord) : Life :=
  match r with
  | None => Free
  | Some (RTombstone t) => Closed (ts_consumer t) (ts_provider t) (ts_expires_unix_secs t)
  | Some (RActive s) =>
    let expires := md_expires_unix_secs (ss_metadata s) in
    match md_protocol (ss_metadata s) with
    | None => Pending (ss_consumer s) (ss_provider s) expires
    | Some p => Running (ss_consumer s) (ss_provider s) expires p
    end
  end.

(** The two ends of a session that is not over. *)
Definition live (l : Life) : option (SessionOwner * SessionOwner * Z) :=
  match l with
  | Pending c p x | Running c p x _ => Some (c, p, x)
  | Free | Closed _ _ _ => None
  end.
Definition expires (l : Life) : option Z :=
  match l with Free => None | Pending _ _ x | Running _ _ x _ | Closed _ _ x => Some x end.
Definition takes_part (l : Life) (i : AuthenticatedClient) : Prop :=
  ∃ c p x, live l = Some (c, p, x) ∧ (owner_matches c i = true ∨ owner_matches p i = true).

(** The calls that cannot leave a session as it is. *)
Definition acts (r : res Z unit) (x : Call) (id : list byte) (l : Life) : Prop :=
  match x with
  | CRequest _ e | CDecision _ e | CClose _ e => r = Ok tt ∧ env_session_id e = id
  | CRemoveDevice i => takes_part l i
  | CForward _ _ | CRelayFrame _ _ | CExpireNow => False
  end.

(** What one call may do to the session with an identifier: [ttl] is the server's horizon,
    [env] what the call has read. *)
Inductive life_step (ttl : Z) (env : Env) (r : res Z unit) (x : Call) (id : list byte) : Life → Life → Prop :=
| life_stay l : ¬ acts r x id l → life_step ttl env r x id l l
| life_open a e c p :
    x = CRequest a e → env_session_id e = id → r = Ok tt →
    owner_matches c (acs_identity a) = true → so_name p = env_target e → so_name c ≠ so_name p →
    unix_secs env 1 < env_expires_unix_secs e ≤ unix_secs env 1 + ttl →
    life_step ttl env r x id Free (Pending c p (env_expires_unix_secs e))
| life_accept a e d q c p t :
    x = CDecision a e → env_session_id e = id → r = Ok tt →
    env_payload e = PProviderDecision d → pd_accepted d = true → pd_protocol d = Some q →
    owner_matches p (acs_identity a) = true → unix_secs env 1 < t →
    life_step ttl env r x id (Pending c p t) (Running c p t q)
| life_refuse a e d c p t :
    x = CDecision a e → env_session_id e = id → r = Ok tt →
    env_payload e = PProviderDecision d → pd_accepted d = false →
    owner_matches p (acs_identity a) = true → unix_secs env 1 < t →
    life_step ttl env r x id (Pending c p t) (Closed c p t)
| life_close a e l c p t :
    x = CClose a e → env_session_id e = id → r = Ok tt → live l = Some (c, p, t) →
    takes_part l (acs_identity a) → unix_secs env 1 < t →
    life_step ttl env r x id l (Closed c p t)
| life_leave i l c p t :
    x = CRemoveDevice i → live l = Some (c, p, t) → takes_part l i →
    life_step ttl env r x id l (Closed c p t)
| life_expire l t :
    x = CExpireNow ∨ (∃ a f, x = CRelayFrame a f) → expires l = Some t → t ≤ unix_secs env 0 →
    life_step ttl env r x id l Free.

Section life.
Context `{P : Postcard} (sha256 : list byte → list byte).

Definition life (st : CoordinatorState) (id : list byte) : Life := life_of (sessions st !! id).

Lemma life_with st id r k :
  life (with_sessions st (<[id := r]> (sessions st))) k = if decide (k = id) then life_of (Some r) else life st k.
Proof.
  unfold life. simpl. case_decide; [subst; by rewrite lookup_insert_eq|by rewrite lookup_insert_ne].
Qed.

(** The two ends of a stored session. *)
Lemma life_active s :
  live (life_of (Some (RActive s)))
  = Some (ss_consumer s, ss_provider s, md_expires_unix_secs (ss_metadata s)).
Proof. simpl. by destruct (md_protocol _). Qed.

Lemma takes_part_active s i :
  takes_part (life_of (Some (RActive s))) i ↔ owns_session i (RActive s) = true.
Proof.
  unfold takes_part, owns_session. simpl. rewrite orb_true_iff.
  destruct (md_protocol _); simpl; naive_solver.
Qed.

Lemma request_life c env st a e id :
  env_ok env →
  life_step (session_ttl_secs (limits c)) env (call sha256 c env st (CRequest a e)).1.1 (CRequest a e) id
    (life st id) (life (call sha256 c env st (CRequest a e)).1.2 id).
Proof.
  intros Henv. simpl. unfold request.
  destruct (check_request c env st a e) as [[[[[r provider] state] m] permit]|x|] eqn:Hc; simpl;
    [|by apply life_stay; intros [? _]..].
  destruct (check_request_Ok _ _ _ _ _ _ _ _ _ _ Hc)
    as (_&_&Hself&_&(p&Hpv&->&_)&Hexp&_&_&Hnew&_).
  destruct (Henv 1%nat) as [Hname _ _]. specialize (Hname _ _ Hpv).
  destruct (decide (id = env_session_id e)) as [->|Hne].
  - unfold life. simpl. rewrite Hnew, lookup_insert_eq. simpl.
    apply (life_open _ _ _ _ _ a e (SessionOwner_from a)); try done; [apply owner_from_matches|].
    simpl. congruence.
  - unfold life. simpl. rewrite lookup_insert_ne by done. apply life_stay. by intros [_ ?].
Qed.

Lemma decision_life c env st a e id :
  envelope_wf e → coordinator_ok (limits c) st →
  life_step (session_ttl_secs (limits c)) env (call sha256 c env st (CDecision a e)).1.1 (CDecision a e) id
    (life st id) (life (call sha256 c env st (CDecision a e)).1.2 id).
Proof.
  intros Hwf Hok. simpl. unfold provider_decision.
  destruct (check_decision env st a e) as [[[[[d s] next] m] permit]|x|] eqn:Hc; simpl;
    [|by apply life_stay; intros [? _]..].
  destruct (check_decision_Ok _ _ _ _ _ _ _ _ _ Hc) as (Hp&_&_&Hs&Hx&Hown&_&Hn&_).
  apply provider_decision_state in Hn as [Hph _].
  pose proof (co_record _ _ Hok _ _ Hs) as Hsok.
  assert (md_protocol (ss_metadata s) = None) as Hnone
    by (destruct (sk_phase _ _ Hsok) as [[_ ?]|[? _]]; congruence).
  assert (life st (env_session_id e)
    = Pending (ss_consumer s) (ss_provider s) (md_expires_unix_secs (ss_metadata s))) as Hl.
  { unfold life. rewrite Hs. simpl. by rewrite Hnone. }
  destruct (pd_accepted d) eqn:Hacc; simpl.
  - rewrite life_with. case_decide; [subst|apply life_stay; by intros [_ ?]].
    rewrite Hl. destruct Hwf as (_&_&_&_&_&_&_&Hpay&_). rewrite Hp in Hpay. destruct Hpay as (_&_&Hv).
    unfold provider_decision_valid in Hv. rewrite Hacc in Hv. simpl.
    destruct (pd_protocol d) as [q|] eqn:Hq; [|done]. by eapply life_accept.
  - rewrite (tombstone_after _ _ s) by done. simpl. rewrite life_with.
    case_decide; [subst|apply life_stay; by intros [_ ?]]. rewrite Hl. by eapply life_refuse.
Qed.

Lemma close_life c env st a e id :
  coordinator_ok (limits c) st →
  life_step (session_ttl_secs (limits c)) env (call sha256 c env st (CClose a e)).1.1 (CClose a e) id
    (life st id) (life (call sha256 c env st (CClose a e)).1.2 id).
Proof.
  intros Hok. simpl. unfold close_session.
  destruct (check_close env st a e) as [[[[s next] m] permit]|x|] eqn:Hc; simpl;
    [|by apply life_stay; intros [? _]..].
  destruct (check_close_Ok _ _ _ _ _ _ _ _ Hc) as (_&_&_&Hs&Hx&_&target&(_&Hpart)%other_participant_Ok&_).
  rewrite (tombstone_after _ _ s) by done.
  pose proof (observe_p2p_close_no_panic sha256 (unix_millis env 0) (with_state s next) (str "closed")) as Hnp.
  destruct (observe_p2p_close _ _ _ _) as [closed|y|] eqn:Hcl; simpl;
    [|by apply observe_p2p_close_no_err in Hcl|by destruct Hnp].
  rewrite life_with. case_decide; [subst|apply life_stay; by intros [_ ?]].
  unfold life. rewrite Hs. eapply life_close; [done..|apply life_active| |done].
  rewrite takes_part_active. simpl. apply orb_true_iff. naive_solver.
Qed.

Lemma forward_life c env st a e id :
  coordinator_ok (limits c) st →
  life_step (session_ttl_secs (limits c)) env (call sha256 c env st (CForward a e)).1.1 (CForward a e) id
    (life st id) (life (call sha256 c env st (CForward a e)).1.2 id).
Proof.
  intros Hok. assert (life (call sha256 c env st (CForward a e)).1.2 id = life st id) as ->;
    [|by apply life_stay; intros []].
  simpl. unfold forward_envelope.
  destruct (check_forward env st a e) as [[[[s u] m] permit]|x|] eqn:Hc; simpl; [|done..].
  pose proof (check_forward_Ok _ _ _ _ _ _ _ _ Hc) as (_&_&_&Hs&_).
  destruct (forwarded_frame sha256 env s a e u) as [(F1&F2&F3) _]. unfold forwarded in *.
  destruct (apply_path sha256 env _ _) as [s3 events]. simpl in *.
  assert (life (with_sessions st (<[env_session_id e := RActive s3]> (sessions st))) id = life st id) as H.
  { rewrite life_with. case_decide; [subst|done]. unfold life. rewrite Hs. simpl. by rewrite F1, F2, F3. }
  destruct events as [evs|y|]; simpl; [|done..].
  by destruct (punch_of _ _ _ _) as [[[? ?] ?]|]; simpl; [destruct (mbind _ _) as [[? ?]|?|]|].
Qed.

(** The sessions of a device that leaves. *)
Lemma tombstone_session_lookup st id k :
  sessions (tombstone_session st id).2 !! k
  = if decide (k = id) then (λ r, match r with RActive s => RTombstone (tombstone_of s) | _ => r end)
                              <$> sessions st !! k
    else sessions st !! k.
Proof.
  unfold tombstone_session. case_decide as E.
  - subst k. destruct (sessions st !! id) as [[s|t]|] eqn:Hs; simpl; [apply lookup_insert_eq..|done].
  - destruct (sessions st !! id) as [[s|t]|] eqn:Hs; simpl; [by apply lookup_insert_ne..|done].
Qed.

Lemma tombstone_all_lookup st ids k :
  sessions (tombstone_all st ids).2 !! k
  = if decide (k ∈ ids) then (λ r, match r with RActive s => RTombstone (tombstone_of s) | _ => r end)
                               <$> sessions st !! k
    else sessions st !! k.
Proof.
  revert st. induction ids as [|id ids IH]; intros st; simpl; [done|].
  pose proof (tombstone_session_lookup st id k) as H. destruct (tombstone_session st id) as [removed st1].
  specialize (IH st1). destruct (tombstone_all st1 ids) as [rest st2]. simpl in *. rewrite IH, H.
  destruct (sessions st !! k) as [[s|t]|]; repeat case_decide; set_solver.
Qed.

Lemma leave_life c env st i id :
  coordinator_ok (limits c) st →
  life_step (session_ttl_secs (limits c)) env (call sha256 c env st (CRemoveDevice i)).1.1 (CRemoveDevice i) id
    (life st id) (life (call sha256 c env st (CRemoveDevice i)).1.2 id).
Proof.
  intros Hok. pose proof (call_no_panic sha256 c env st (CRemoveDevice i) Hok) as Hnp.
  simpl in *. unfold remove_device in *. set (owned := _.*1) in *.
  pose proof (tombstone_all_lookup st owned id) as Hl.
  destruct (tombstone_all st owned) as [removed st']. simpl in *.
  assert ((checked st' (disconnect_notices sha256 env i 0 removed)
             (λ effects, (Ok tt, st', effects))).1.2 = st') as -> by (by destruct (disconnect_notices _ _ _ _ _)).
  assert (id ∈ owned ↔ ∃ r, sessions st !! id = Some r ∧ owns_session i r = true) as Howned.
  { unfold owned. rewrite list_elem_of_fmap. split.
    - intros ([k r]&->&[? ?]%elem_of_map_to_list%map_lookup_filter_Some). by exists r.
    - intros (r&?&?). exists (id, r). split; [done|].
      by apply elem_of_map_to_list, map_lookup_filter_Some. }
  unfold life. rewrite Hl. case_decide as Hin.
  - apply Howned in Hin as (r&Hr&Ho). rewrite Hr. simpl.
    destruct r as [s|t]; [|done]. eapply life_leave; [done|apply life_active|].
    by apply takes_part_active.
  - apply life_stay. simpl. intros Ht. apply Hin, Howned. destruct (sessions st !! id) as [[s|t]|] eqn:Hs.
    + exists (RActive s). split; [done|]. by apply takes_part_active.
    + destruct Ht as (?&?&?&?&_). done.
    + destruct Ht as (?&?&?&?&_). done.
Qed.

(** A batch of expiries. *)
Lemma expire_life l st now id env base :
  coordinator_ok l st →
  let st' := (expire_sessions_batch sha256 env base now st).2 in
  life st' id = life st id ∨ (life st' id = Free ∧ ∃ t, expires (life st id) = Some t ∧ t ≤ now).
Proof.
  intros Hok. unfold expire_sessions_batch.
  destruct (expire_loop_spec l EXPIRY_MAINTENANCE_BATCH now st Hok) as [_ [Hkept _ _]].
  destruct (expire_loop EXPIRY_MAINTENANCE_BATCH now st) as [removed st']. simpl in *.
  unfold life. destruct (Hkept id) as [->|(->&r&->&?)]; [by left|right]. split; [done|].
  destruct r as [s|t]; simpl; [destruct (md_protocol _)|]; by eexists.
Qed.

Lemma relay_section_life env base st i f id :
  life (relay_section env base st i f).2 id = life st id.
Proof.
  unfold relay_section.
  destruct (sessions st !! prf_session_id f) as [[s|t]|] eqn:Hs; [|by case_match|done].
  destruct (check_relay s i f) as [target|x|]; [|done..].
  destruct (RelayAdmission_admit _ _ _ _) as [admitted r].
  assert (∀ s', same_frame s s' →
    life (with_sessions st (<[prf_session_id f := RActive s']> (sessions st))) id = life st id) as H.
  { intros s' (F1&F2&F3). rewrite life_with. case_decide; [subst|done].
    unfold life. rewrite Hs. simpl. by rewrite F1, F2, F3. }
  destruct admitted; simpl; [|by apply H].
  destruct (mbind _ _) as [x|x|]; simpl; [|by apply H..].
  destruct (cv_observability_enabled _); [|by apply H].
  apply H. destruct (account_frame_frame (with_relay s r) i (blen (prf_ciphertext f))) as [(?&?&?) _].
  done.
Qed.

Lemma flush_life env st id : life (flush_observability_due sha256 env st).2 id = life st id.
Proof.
  unfold flush_observability_due. destruct (negb _); [done|]. unfold life. simpl.
  rewrite lookup_fmap. destruct (sessions st !! id) as [[s|t]|]; simpl; [|done..].
  by destruct (OBSERVABILITY_FLUSH_INTERVAL <=? _).
Qed.

(** Every call lets every session take one step of its life at most. *)
Lemma call_life c env st x id :
  env_ok env → call_wf x → coordinator_ok (limits c) st →
  life_step (session_ttl_secs (limits c)) env (call sha256 c env st x).1.1 x id
    (life st id) (life (call sha256 c env st x).1.2 id).
Proof.
  intros Henv Hwf Hok. destruct x as [a e|a e|a e|a e|a f|i|].
  - by apply request_life.
  - by apply decision_life.
  - by apply forward_life.
  - by apply close_life.
  - simpl. unfold forward_relay_frame. destruct (negb _); [by apply life_stay; intros []|].
    pose proof (expire_life (limits c) st (unix_secs env 0) id env 1 Hok) as H.
    destruct (expire_sessions_batch _ _ _ _ _) as [[notices|y|] st1]; simpl in *.
    2,3: by destruct H as [->|(->&t&?&?)]; [by apply life_stay; intros []|eapply life_expire; eauto].
    pose proof (relay_section_life env (S (2 * length (expire_loop EXPIRY_MAINTENANCE_BATCH (unix_secs env 0) st).1))
      st1 (acs_identity a) f id) as H2.
    destruct (relay_section _ _ _ _ _) as [r st2]. simpl in *. rewrite H2.
    destruct H as [->|(->&t&?&?)]; [by apply life_stay; intros []|eapply life_expire; eauto].
  - by apply leave_life.
  - simpl. unfold expire_now.
    pose proof (expire_life (limits c) st (unix_secs env 0) id env 1 Hok) as H.
    destruct (expire_sessions_batch _ _ _ _ _) as [[notices|y|] st1]; simpl in *.
    2,3: by destruct H as [->|(->&t&?&?)]; [by apply life_stay; intros []|eapply life_expire; eauto].
    pose proof (flush_life env st1 id) as H2.
    destruct (flush_observability_due _ _ _) as [flushed st2]. simpl in *. rewrite H2.
    destruct H as [->|(->&t&?&?)]; [by apply life_stay; intros []|eapply life_expire; eauto].
Qed.
End life.

(** * Closed sessions *)

Section closed.
Context `{P : Postcard} (sha256 : list byte → list byte).

Lemma life_Closed st id c p t :
  life st id = Closed c p t →
  ∃ ts, sessions st !! id = Some (RTombstone ts) ∧ ts_consumer ts = c ∧ ts_provider ts = p
    ∧ ts_expires_unix_secs ts = t.
Proof.
  unfold life. destruct (sessions st !! id) as [[s|ts]|]; simpl.
  - by destruct (md_protocol _).
  - intros [= <- <- <-]. by exists ts.
  - done.
Qed.

(** The calls made before a moment. *)
Inductive step_before (c : RendezvousCoordinator) (t : Z) (st : CoordinatorState) : CoordinatorState → Prop :=
| call_before env x :
  env_ok env → call_wf x → (∀ n, unix_secs env n < t) →
  step_before c t st (call sha256 c env st x).1.2.

Lemma closed_stays c t st st' id cn pr :
  coordinator_ok (limits c) st → life st id = Closed cn pr t → step_before c t st st' →
  coordinator_ok (limits c) st' ∧ life st' id = Closed cn pr t.
Proof.
  intros Hok Hl [env x Henv Hwf Hb].
  pose proof (call_life sha256 c env st x id Henv Hwf Hok) as H. rewrite Hl in H.
  split; [by apply coordinator_call_ok|]. generalize dependent (call sha256 c env st x).1.2; intros st1 H.
  inversion H; simplify_eq/=; try done. specialize (Hb 0%nat). lia.
Qed.

(** No envelope is accepted on a tombstone. *)
Lemma envelope_on_tombstone c env st a e t :
  coordinator_ok (limits c) st → sessions st !! env_session_id e = Some (RTombstone t) →
  let '(r, _, effects) := call sha256 c env st (call_of_envelope a e) in
  (∃ code, r = Err code) ∧ effects = [].
Proof.
  intros Hok Ht. pose proof (call_no_panic sha256 c env st (call_of_envelope a e) Hok) as Hnp.
  assert (∀ r, call_of_envelope a e = r → match r with
    | CRequest a e => ∃ x, check_request c env st a e = Err x
    | CDecision a e => ∃ x, check_decision env st a e = Err x
    | CForward a e => ∃ x, check_forward env st a e = Err x
    | CClose a e => ∃ x, check_close env st a e = Err x
    | _ => False end) as H.
  { intros r <-. unfold call_of_envelope.
    destruct (env_payload e).
    1: destruct (check_request c env st a e) as [[[[[? ?] ?] ?] ?]|x|] eqn:Hc;
      [|by exists x|by destruct (check_request_no_panic c env st a e)];
      apply check_request_Ok in Hc as (_&_&_&_&_&_&_&_&Hs&_).
    2: destruct (check_decision env st a e) as [[[[[? ?] ?] ?] ?]|x|] eqn:Hc;
      [|by exists x|by destruct (check_decision_no_panic env st a e)];
      apply check_decision_Ok in Hc as (_&_&_&Hs&_).
    3-6: destruct (check_forward env st a e) as [[[[? ?] ?] ?]|x|] eqn:Hc;
      [|by exists x|by destruct (check_forward_no_panic env st a e)];
      apply check_forward_Ok in Hc as (_&_&_&Hs&_).
    7-8: destruct (check_close env st a e) as [[[[? ?] ?] ?]|x|] eqn:Hc;
      [|by exists x|by destruct (check_close_no_panic env st a e)];
      apply check_close_Ok in Hc as (_&_&_&Hs&_).
    all: congruence. }
  specialize (H _ eq_refl). destruct (call_of_envelope a e); simpl;
    unfold request, provider_decision, forward_envelope, close_session; try done;
    destruct H as [x ->]; simpl; eauto.
Qed.
End closed.

(** * Properties *)

(** C10: the coordinator implements the life of a session.  Whatever call is made in a
    reachable state, every session identifier takes one step of the life at most: a free one
    is opened by a request whose sender becomes the consumer, with an expiry within the
    server's horizon; only its provider accepts or refuses it, before it has expired; only
    its two ends close it; a device that leaves closes all its sessions; it is forgotten only
    once it has expired; and a successful request, decision or close, or a device that leaves,
    never leaves the session as it was. *)
Theorem coordinator_refines_life `{P : Postcard} (sha256 : list byte → list byte) c env st x :
  coordinator_reachable sha256 c st → env_ok env → call_wf x →
  let '(r, st', _) := call sha256 c env st x in
  ∀ id, life_step (session_ttl_secs (limits c)) env r x id (life st id) (life st' id).
Proof.
  intros Hok%coordinator_reachable_ok Henv Hwf.
  pose proof (λ id, call_life sha256 c env st x id Henv Hwf Hok) as H.
  by destruct (call sha256 c env st x) as [[r st'] effects].
Qed.

Lemma coordinator_refines_life_witness :
  life (after 50 demo_opening) demo_id
    = Running (SessionOwner_from alice) (SessionOwner_from bob) 90 TunnelProtocol.UDP
  ∧ match call (P := postcard_ref) demo_digest demo_coordinator (demo_env 50) (after 50 demo_opening)
            (CClose alice demo_close) with
    | (r, st', _) => life_step 60 (demo_env 50) r (CClose alice demo_close) demo_id
                       (life (after 50 demo_opening) demo_id) (life st' demo_id)
    end.
Proof.
  split; [vm_compute; reflexivity|].
  assert (call_wf (CClose alice demo_close)) as Hwf
    by exact (demo_call_wf 5 _ eq_refl).
  pose proof (coordinator_refines_life (P := postcard_ref) demo_digest demo_coordinator (demo_env 50)
    (after 50 demo_opening) (CClose alice demo_close) (demo_opening_reachable 50) (demo_env_ok 50) Hwf) as H.
  destruct (call (P := postcard_ref) demo_digest demo_coordinator (demo_env 50) (after 50 demo_opening)
    (CClose alice demo_close)) as [[r st'] effects].
  exact (H demo_id).
Defined.

(** A closed session stays closed, with the same two ends, for as long as no call reads
    a clock at or past its expiry, whatever is called; and in every such state each envelope
    for it is refused, without any effect, so that its identifier cannot be taken again. *)
Theorem closed_is_final `{P : Postcard} (sha256 : list byte → list byte) c st st' id cn pr t :
  coordinator_reachable sha256 c st → life st id = Closed cn pr t →
  rtc (step_before sha256 c t) st st' →
  life st' id = Closed cn pr t
  ∧ ∀ env a e, env_session_id e = id →
      let '(r, _, effects) := call sha256 c env st' (call_of_envelope a e) in
      (∃ code, r = Err code) ∧ effects = [].
Proof.
  intros Hok%coordinator_reachable_ok Hl Hr.
  assert (coordinator_ok (limits c) st' ∧ life st' id = Closed cn pr t) as [Hok' Hl'].
  { induction Hr as [|st st1 st2 Hs _ IH]; [done|].
    destruct (closed_stays sha256 c t st st1 id cn pr Hok Hl Hs) as [? ?]. by apply IH. }
  split; [done|]. intros env a e <-. destruct (life_Closed _ _ _ _ _ Hl') as (ts&Hts&_).
  by eapply envelope_on_tombstone.
Qed.

Lemma closed_is_final_witness :
  life (after 50 demo_calls) demo_id = Closed (SessionOwner_from alice) (SessionOwner_from bob) 90
  ∧ life (call (P := postcard_ref) demo_digest demo_coordinator (demo_env 89) (after 50 demo_calls)
            (CRequest alice demo_request)).1.2 demo_id
    = Closed (SessionOwner_from alice) (SessionOwner_from bob) 90.
Proof.
  assert (life (after 50 demo_calls) demo_id
    = Closed (SessionOwner_from alice) (SessionOwner_from bob) 90) as Hl by (vm_compute; reflexivity).
  split; [exact Hl|].
  refine (proj1 (closed_is_final (P := postcard_ref) demo_digest demo_coordinator (after 50 demo_calls)
    _ demo_id _ _ 90 (demo_calls_reachable 50) Hl _)).
  apply rtc_once, call_before; [apply demo_env_ok|exact (demo_call_wf 0 _ eq_refl)|intros n; reflexivity].
Defined.
