(* ===== verification/CoordinatorRelay.v ===== *)
(** The relay of the rendezvous coordinator: frames go only between the two ends of an
    accepted session that both have asked to relay, and at a bounded rate. *)

From S2P Require Import Prelude.
From S2P Require Import RateWindow.
From S2P Require Import Wire.
From S2P Require Import Postcard.
From S2P Require Import PostcardRef.
From S2P Require Import Messages.
From S2P Require Import Events.
From S2P Require Import MessageCodecs.
From S2P Require Import Frame.
From S2P Require Import Handshake.
From S2P Require Import RvMessages.
From S2P Require Import RvFacts.
From S2P Require Import RvState.
From S2P Require Import Registry.
From S2P Require Import RegistryFacts.
From S2P Require Import Coordinator.
From S2P Require Import CoordinatorFacts.
From S2P Require Import CoordinatorProps.
From S2P Require Import CoordinatorLife.
From Stdlib Require Import Strings.Byte.
From stdpp Require Import prelude gmap list strings sorting.

#[local] Open Scope Z_scope.

(** * Routing *)

Definition is_notice (x : AuthenticatedClient * Message) : Prop := ∃ n, x.2 = MServerNotice n.

(** A frame goes to the other end of an accepted session that both ends have asked to relay,
    as the kind of traffic of the session's protocol. *)
Definition relayed (st : CoordinatorState) (a : ActiveControlSession) (f : PeerRelayFrame)
    (to : AuthenticatedClient) : Prop :=
  ∃ s d, sessions st !! prf_session_id f = Some (RActive s)
    ∧ rs_phase (ss_state s) = Accepted ∧ requested_by (ss_relay s) = 3
    ∧ datagram (ss_relay s) = Some d
    ∧ d = bool_decide (md_protocol (ss_metadata s) = Some TunnelProtocol.UDP)
    ∧ flags_match d (prf_flags f) = true
    ∧ linked (RActive s) (acs_identity a) to.

(** A frame for a session that has just been closed by one of its ends. *)
Definition late (st : CoordinatorState) (a : ActiveControlSession) (f : PeerRelayFrame) : Prop :=
  ∃ t, sessions st !! prf_session_id f = Some (RTombstone t)
    ∧ (owner_matches (ts_consumer t) (acs_identity a) = true
       ∨ owner_matches (ts_provider t) (acs_identity a) = true).

Section relay.
Context `{P : Postcard} (sha256 : list byte → list byte).

Lemma route_to_notices v o id code peer m :
  server_notice id code peer = Ok m → Forall is_notice (sends (route_to v o m)).
Proof using.
  unfold server_notice. intros (d&_&(p&_&[= <-])%res_bind_Ok)%res_bind_Ok.
  unfold route_to. destruct (reserve_to v o); simpl; repeat constructor. by eexists.
Qed.

Lemma send_server_notice_notices v s target code effects :
  send_server_notice v s target code = Ok effects → Forall is_notice (sends effects).
Proof using.
  unfold send_server_notice. intros (m&Hm&[= <-])%res_bind_Ok. by eapply route_to_notices.
Qed.

Lemma expiry_notices_notices env base removed effects :
  expiry_notices sha256 env base removed = Ok effects → Forall is_notice (sends effects).
Proof.
  revert base effects. induction removed as [|s removed IH]; intros base effects; simpl.
  - intros [= <-]. constructor.
  - intros (c&Hc%observe_p2p_close_sends&(n1&H1&(n2&H2&(rest&Hr&[= <-])%res_bind_Ok)%res_bind_Ok)%res_bind_Ok)%res_bind_Ok.
    apply send_server_notice_notices in H1, H2. apply IH in Hr.
    rewrite !sends_app, Hc. repeat (apply Forall_app; split); done || constructor.
Qed.

Lemma expiry_notices_no_err env base removed x : expiry_notices sha256 env base removed ≠ Err x.
Proof.
  revert base. induction removed as [|s removed IH]; intros base; simpl; [done|].
  assert (∀ v t code, send_server_notice v s t code ≠ Err x) as Hn.
  { intros v t code. unfold send_server_notice, server_notice.
    destruct (res_ok (bounded_try_from Messages.MAX_ERROR_DETAIL_BYTES _)); simpl; [|done].
    by destruct (res_ok _). }
  apply res_bind_no_err; [by apply observe_p2p_close_no_err|intros ? _].
  apply res_bind_no_err; [by apply Hn|intros ? _].
  apply res_bind_no_err; [by apply Hn|intros ? _].
  by apply res_bind_no_err; [apply IH|].
Qed.

(** What the checks of a frame have established. *)
Lemma check_relay_Ok s i f target :
  check_relay s i f = Ok target →
  rs_phase (ss_state s) = Accepted ∧ requested_by (ss_relay s) = 3
  ∧ (∃ d, datagram (ss_relay s) = Some d ∧ flags_match d (prf_flags f) = true)
  ∧ ((owner_matches (ss_consumer s) i = true ∧ target = ss_provider s)
     ∨ (owner_matches (ss_provider s) i = true ∧ target = ss_consumer s)).
Proof using.
  unfold check_relay.
  intros ([]&Hph%guard_Ok&(t&Ht&([]&Hau%guard_Ok&(d&Hd%ok_or_Ok&([]&Hf%guard_Ok&[= <-])%res_bind_Ok)%res_bind_Ok)%res_bind_Ok)%res_bind_Ok)%res_bind_Ok.
  apply negb_false_iff in Hph, Hau, Hf. apply bool_decide_eq_true in Hph.
  unfold authorized in Hau. apply Z.eqb_eq in Hau. split_and!; [done|done|by exists d|].
  destruct (owner_matches (ss_consumer s) i); [by injection Ht as <-; left|].
  destruct (owner_matches (ss_provider s) i); [by injection Ht as <-; right|done].
Qed.

(** The section under the lock: it changes the session of the frame only, and what it sends
    is the frame. *)
Lemma relay_section_routed l env base st a f :
  coordinator_ok l st →
  let '(r, st') := relay_section env base st (acs_identity a) f in
  (∀ id, id ≠ prf_session_id f → sessions st' !! id = sessions st !! id)
  ∧ match r with
    | Ok None => late st' a f
    | Ok (Some (to, m)) => PeerRelayFrame_to_protocol_message f = Ok m ∧ relayed st' a f to
    | Err _ | Panic => True
    end.
Proof.
  intros Hok. unfold relay_section.
  destruct (sessions st !! prf_session_id f) as [[s|t]|] eqn:Hs; [| |done].
  2: { destruct (_ || _) eqn:Ho; [|done]. split; [done|]. exists t. by apply orb_true_iff in Ho. }
  destruct (check_relay s (acs_identity a) f) as [target|x|] eqn:Hc; [|done..].
  apply check_relay_Ok in Hc as (Hph&Hreq&(d&Hd&Hf)&Hpart).
  destruct (co_record _ _ Hok _ _ Hs) as [_ _ _ _ _ Hrel _ _].
  pose proof (admit_ok _ _ (instant env 0) (instant env 1) (blen (prf_ciphertext f)) Hrel ltac:(unfold blen; lia))
    as (_&Hreq'&Hd').
  destruct (RelayAdmission_admit _ _ _ _) as [admitted r]. simpl in Hreq', Hd'.
  assert (∀ x, (∀ id, id ≠ prf_session_id f →
    sessions (with_sessions st (<[prf_session_id f := x]> (sessions st))) !! id = sessions st !! id)) as Hfr.
  { intros x id Hne. by apply lookup_insert_ne. }
  destruct admitted; simpl; [|by split; [apply Hfr|]].
  destruct (mbind _ _) as [[to m]|x|] eqn:Hm; simpl; [|by split; [apply Hfr|]..].
  apply res_bind_Ok in Hm as (m'&Hm%map_err_Ok&(to'&[Hto _]%reserve_to_Ok&[= <- <-])%res_bind_Ok).
  split; [apply Hfr|]. split; [done|].
  set (s1 := with_relay s r).
  destruct (account_frame_frame s1 (acs_identity a) (blen (prf_ciphertext f))) as [(F1&F2&F3) (F4&F5&_)].
  exists (if cv_observability_enabled (view env (S base))
          then account_frame s1 (acs_identity a) (blen (prf_ciphertext f)) else s1), d.
  split; [apply lookup_insert_eq|].
  assert (d = bool_decide (md_protocol (ss_metadata s) = Some TunnelProtocol.UDP)) as Ed.
  { pose proof (rl_datagram _ _ Hrel ltac:(lia)). congruence. }
  unfold linked. simpl.
  destruct (cv_observability_enabled _); simpl; rewrite ?F1, ?F2, ?F3, ?F4, ?F5; simpl;
    (split_and!; [done|congruence|congruence|done|done|]);
    destruct Hpart as [[? ->]|[? ->]]; [by left|by right|by left|by right].
Qed.
End relay.

(** the frames of a session's relay.  A call with a frame may first tell the ends of
    expired sessions that they have expired, and forget those sessions; it sends nothing else
    but that frame, unchanged, and that only when the sender's control session is active, the
    session is accepted, both of its ends have asked for the relay, the frame's flags are
    those of the session's protocol, and the recipient is the other end.  A frame is accepted
    without being sent only when its session has been closed; a refused one is not sent.  No
    other session is touched. *)
Theorem relay_frame_routed `{P : Postcard} (sha256 : list byte → list byte) c env st a f :
  coordinator_reachable sha256 c st →
  let '(r, st', effects) := call sha256 c env st (CRelayFrame a f) in
  (∀ id, id ≠ prf_session_id f → sessions st' !! id = sessions st !! id
     ∨ (sessions st' !! id = None ∧ ∃ x, sessions st !! id = Some x ∧ record_expires x ≤ unix_secs env 0))
  ∧ ∃ notices, Forall is_notice notices
    ∧ match r with
      | Ok _ => cv_is_active_session (view env 0) (acs_identity a) = true
          ∧ ((late st' a f ∧ sends effects = notices)
             ∨ ∃ to m, PeerRelayFrame_to_protocol_message f = Ok m ∧ relayed st' a f to
                 ∧ sends effects = notices ++ [(to, m)])
      | Err _ => sends effects = notices
      | Panic => False
      end.
Proof.
  intros Hok%coordinator_reachable_ok.
  pose proof (call_no_panic sha256 c env st (CRelayFrame a f) Hok) as Hnp. simpl in *.
  unfold forward_relay_frame in *. destruct (cv_is_active_session _ _); simpl in *;
    [|by split; [left|exists []; split; [constructor|]]].
  pose proof (expire_batch_ok sha256 (limits c) env 1 (unix_secs env 0) st Hok) as Hok1.
  unfold expire_sessions_batch in *.
  destruct (expire_loop_spec (limits c) EXPIRY_MAINTENANCE_BATCH (unix_secs env 0) st Hok) as [_ [Hkept _ _]].
  destruct (expire_loop EXPIRY_MAINTENANCE_BATCH (unix_secs env 0) st) as [removed st1]. simpl in *.
  set (base := S (length removed + _)) in *.
  destruct (expiry_notices sha256 env 1 removed) as [notices|x|] eqn:Hn; simpl in *;
    [|by apply expiry_notices_no_err in Hn|done].
  apply expiry_notices_notices in Hn.
  pose proof (relay_section_routed (limits c) env base st1 a f Hok1) as H.
  destruct (relay_section env base st1 (acs_identity a) f) as [r st']. simpl in *. destruct H as [Hfr H].
  split; [intros id Hne; rewrite (Hfr id Hne); apply Hkept|].
  exists (sends notices). split; [done|]. rewrite sends_app.
  destruct r as [[[to m]|]|x|]; simpl in *; rewrite ?app_nil_r; [|by split; [|left]|done|done].
  split; [done|]. right. exists to, m. destruct H. by split_and!.
Qed.

Lemma relay_frame_routed_witness :
  match call (P := postcard_ref) demo_digest demo_coordinator (demo_env 50) (after 50 demo_opening)
          (CRelayFrame alice demo_frame) with
  | (Ok _, st', _) => late st' alice demo_frame ∨ ∃ to, relayed st' alice demo_frame to
  | _ => False
  end.
Proof.
  pose proof (relay_frame_routed (P := postcard_ref) demo_digest demo_coordinator (demo_env 50)
    (after 50 demo_opening) alice demo_frame (demo_opening_reachable 50)) as H.
  assert (match (call (P := postcard_ref) demo_digest demo_coordinator (demo_env 50) (after 50 demo_opening)
            (CRelayFrame alice demo_frame)).1.1 with Ok _ => True | _ => False end) as Hr
    by (vm_compute; exact I).
  destruct (call (P := postcard_ref) demo_digest demo_coordinator (demo_env 50) (after 50 demo_opening)
    (CRelayFrame alice demo_frame)) as [[[u|x|] st'] effects]; [|exact Hr|exact Hr].
  destruct H as (_&notices&_&_&[[? _]|(to&m&_&?&_)]); [left|right]; eauto.
Defined.

(** * Rate *)

(** One frame offered to the admission of a session: the two readings of the clock, and the
    bytes of its ciphertext. *)
Record Offered := { of_now : Z; of_now' : Z; of_bytes : Z }.

(** The frames admitted out of a run of frames, and the window after it. *)
Fixpoint admit_run (r : RelayAdmission) (l : list Offered) : list Offered * RelayAdmission :=
  match l with
  | [] => ([], r)
  | x :: l =>
    let '(admitted, r) := RelayAdmission_admit r (of_now x) (of_now' x) (of_bytes x) in
    let '(rest, r) := admit_run r l in
    ((if admitted then [x] else []) ++ rest, r)
  end.

(** A monotonic clock from [t] on. *)
Fixpoint clock_from (t : Z) (l : list Offered) : Prop :=
  match l with
  | [] => True
  | x :: l => t ≤ of_now x ≤ of_now' x ∧ clock_from (of_now' x) l
  end.

(** One frame: both weights at once. *)
Definition admission_ok (r : RelayAdmission) (t lo : Z) (old cur : list Offered) : Prop :=
  rate_ok of_now (λ _, 1) ONE_SECOND MAX_FRAMES_PER_SECOND (window_started r) lo old cur
  ∧ rate_ok of_now of_bytes ONE_SECOND MAX_BYTES_PER_SECOND (window_started r) lo old cur
  ∧ Forall (λ x, of_now x ≤ t) cur ∧ window_started r ≤ t ∧ 0 ≤ window_started r
  ∧ frames_in_window r = weight (λ _, 1) everything cur
  ∧ bytes_in_window r = weight of_bytes everything cur.

Lemma elapsed_spec started now : 0 ≤ started ≤ now → elapsed started now = now - started.
Proof. unfold elapsed, saturating_sub. lia. Qed.

Lemma admission_step r t lo old cur x :
  admission_ok r t lo old cur → t ≤ of_now x ≤ of_now' x → 0 ≤ of_bytes x →
  let '(admitted, r') := RelayAdmission_admit r (of_now x) (of_now' x) (of_bytes x) in
  ∃ lo' old' cur', admission_ok r' (of_now' x) lo' old' cur'
    ∧ old' ++ cur' = (old ++ cur) ++ (if admitted then [x] else []).
Proof.
  unfold admission_ok. intros (H1&H2&Hc&Hw&Hw0&Hf&Hb) Ht Hx. unfold RelayAdmission_admit. rewrite elapsed_spec by lia.
  assert (∃ lo1 old1 cur1, admission_ok
    (if ONE_SECOND <=? of_now x - window_started r
     then {| requested_by := requested_by r; datagram := datagram r; window_started := of_now' x;
             frames_in_window := 0; bytes_in_window := 0 |} else r) (of_now' x) lo1 old1 cur1
    ∧ lo1 ≤ of_now x ∧ old1 ++ cur1 = old ++ cur) as (lo1&old1&cur1&(R1&R2&Rc&Rw&Rw0&Rf&Rb)&Hlo&E).
  { unfold admission_ok. destruct (Z.leb_spec ONE_SECOND (of_now x - window_started r)).
    - exists (of_now x), (old ++ cur), []. rewrite app_nil_r. split_and!; simpl; try done; try lia.
      + eapply rate_reset; [done|done|exact H1|lia|lia|].
        eapply Forall_impl; [exact Hc|]. simpl. lia.
      + eapply rate_reset; [done|done|exact H2|lia|lia|].
        eapply Forall_impl; [exact Hc|]. simpl. lia.
    - exists lo, old, cur. pose proof (ra_lo _ _ _ _ _ _ _ _ H1). split_and!; try done; try lia.
      eapply Forall_impl; [exact Hc|]. simpl. lia. }
  set (r1 := if ONE_SECOND <=? _ then _ else r) in *.
  destruct (checked_add u64_max (bytes_in_window r1) (of_bytes x)) as [next|] eqn:Hadd.
  2: { exists lo1, old1, cur1. rewrite app_nil_r. by split_and!. }
  apply checked_add_Some in Hadd as [-> _].
  destruct (Z.leb_spec MAX_FRAMES_PER_SECOND (frames_in_window r1)); simpl.
  { exists lo1, old1, cur1. rewrite app_nil_r. by split_and!. }
  destruct (Z.ltb_spec MAX_BYTES_PER_SECOND (bytes_in_window r1 + of_bytes x)); simpl.
  { exists lo1, old1, cur1. rewrite app_nil_r. by split_and!. }
  exists lo1, old1, (cur1 ++ [x]). split; [|by rewrite (assoc_L (++)), E].
  split_and!; simpl; try done.
  - apply rate_add; try done. lia.
  - apply rate_add; try done. lia.
  - apply Forall_app. split; [done|]. constructor; [lia|constructor].
  - rewrite weight_app. simpl. lia.
  - rewrite weight_app. simpl. lia.
Qed.

Lemma admission_run r t lo old cur l :
  admission_ok r t lo old cur → clock_from t l → Forall (λ x, 0 ≤ of_bytes x) l →
  let '(admitted, r') := admit_run r l in
  ∃ t' lo' old' cur', admission_ok r' t' lo' old' cur' ∧ old' ++ cur' = (old ++ cur) ++ admitted.
Proof.
  revert r t lo old cur. induction l as [|x l IH]; intros r t lo old cur Hok Hcl Hb; simpl.
  { exists t, lo, old, cur. by rewrite app_nil_r. }
  destruct Hcl as [Ht Hcl]. apply Forall_cons in Hb as [Hx Hb].
  pose proof (admission_step r t lo old cur x Hok Ht Hx) as H.
  destruct (RelayAdmission_admit _ _ _ _) as [admitted r1]. destruct H as (lo1&old1&cur1&Hok1&E1).
  specialize (IH r1 (of_now' x) lo1 old1 cur1 Hok1 Hcl Hb).
  destruct (admit_run r1 l) as [rest r2]. destruct IH as (t2&lo2&old2&cur2&Hok2&E2).
  exists t2, lo2, old2, cur2. split; [done|]. by rewrite E2, E1, <- (assoc_L (++)).
Qed.

(** the relay of a session is limited over every second, not only over the windows it
    counts in: however frames are offered along a monotonic clock, those admitted in any
    interval of one second are at most 512 and carry at most 8 MiB, twice the allowance of a
    window; a frame is refused only when the window's allowance of 256 frames or 4 MiB is used
    up or would be exceeded; and after a second of silence any frame within the allowance is
    admitted again. *)
Theorem relay_rate_bounded started l a :
  0 ≤ started → clock_from started l → Forall (λ x, 0 ≤ of_bytes x) l →
  let '(admitted, r) := admit_run (RelayAdmission_new started) l in
  weight (λ _, 1) (within of_now ONE_SECOND a) admitted ≤ 2 * MAX_FRAMES_PER_SECOND
  ∧ weight of_bytes (within of_now ONE_SECOND a) admitted ≤ 2 * MAX_BYTES_PER_SECOND
  ∧ (∀ now now' bytes r', 0 ≤ bytes ≤ MAX_BYTES_PER_SECOND → RelayAdmission_admit r now now' bytes = (false, r') →
       frames_in_window r' = MAX_FRAMES_PER_SECOND ∨ MAX_BYTES_PER_SECOND < bytes_in_window r' + bytes)
  ∧ (∀ now now' bytes, window_started r + ONE_SECOND ≤ now → 0 ≤ bytes ≤ MAX_BYTES_PER_SECOND →
       (RelayAdmission_admit r now now' bytes).1 = true).
Proof.
  intros Hs Hcl Hb.
  assert (admission_ok (RelayAdmission_new started) started started [] []) as H0
    by (unfold admission_ok; split_and!; simpl; try done; split; simpl; try done; constructor).
  pose proof (admission_run _ _ _ _ _ l H0 Hcl Hb) as H.
  destruct (admit_run (RelayAdmission_new started) l) as [admitted r].
  destruct H as (t&lo&old&cur&(R1&R2&_&_&Rw0&Rf&Rb)&E). simpl in E. subst admitted.
  pose proof (ra_sum _ _ _ _ _ _ _ _ R1). pose proof (ra_sum _ _ _ _ _ _ _ _ R2).
  assert (0 ≤ bytes_in_window r).
  { rewrite Rb. apply weight_nonneg. by destruct (proj1 (Forall_app _ _ _) (ra_weight _ _ _ _ _ _ _ _ R2)). }
  assert (MAX_BYTES_PER_SECOND + MAX_BYTES_PER_SECOND ≤ u64_max) as Hu by done.
  split_and!; [by eapply rate_interval|by eapply rate_interval| |].
  - intros now now' bytes r' Hby. unfold RelayAdmission_admit. set (r1 := if ONE_SECOND <=? _ then _ else r).
    assert (0 ≤ bytes_in_window r1 ≤ MAX_BYTES_PER_SECOND ∧ frames_in_window r1 ≤ MAX_FRAMES_PER_SECOND) as [Hb1 Hf1]
      by (unfold r1; case_match; simpl; split; lia || done).
    destruct (checked_add u64_max (bytes_in_window r1) bytes) as [next|] eqn:Hadd.
    + apply checked_add_Some in Hadd as [-> _].
      destruct (Z.leb_spec MAX_FRAMES_PER_SECOND (frames_in_window r1)); simpl;
        [intros [= <-]; left; lia|].
      destruct (Z.ltb_spec MAX_BYTES_PER_SECOND (bytes_in_window r1 + bytes)); [|done].
      intros [= <-]. by right.
    + unfold checked_add in Hadd. case_match eqn:Hle; [done|]. apply Z.leb_gt in Hle. lia.
  - intros now now' bytes Hnow Hby. unfold RelayAdmission_admit. rewrite elapsed_spec by (unfold ONE_SECOND in *; lia).
    rewrite (proj2 (Z.leb_le _ _)) by lia. simpl.
    rewrite (proj2 (checked_add_Some _ _ _ _)) by (split; [reflexivity|lia]). simpl.
    by rewrite (proj2 (Z.ltb_ge _ _)) by lia.
Qed.

Lemma relay_rate_bounded_witness :
  let l := [{| of_now := 5; of_now' := 6; of_bytes := 100 |};
            {| of_now := 7; of_now' := 7; of_bytes := 4194304 |};
            {| of_now := 1000000006; of_now' := 1000000006; of_bytes := 4194304 |}] in
  (admit_run (RelayAdmission_new 5) l).1
    = [{| of_now := 5; of_now' := 6; of_bytes := 100 |};
       {| of_now := 1000000006; of_now' := 1000000006; of_bytes := 4194304 |}]
  ∧ weight of_bytes (within of_now ONE_SECOND 5) (admit_run (RelayAdmission_new 5) l).1 ≤ 2 * MAX_BYTES_PER_SECOND.
Proof.
  cbv zeta. set (l := [_; _; _]). split; [vm_compute; reflexivity|].
  pose proof (relay_rate_bounded 5 l 5 ltac:(lia) ltac:(vm_compute; repeat split; discriminate)
    ltac:(repeat constructor; vm_compute; discriminate)) as H.
  destruct (admit_run (RelayAdmission_new 5) l) as [admitted r]. exact (proj1 (proj2 H)).
Defined.
