(* ===== verification/CoordinatorExpiry.v ===== *)
(** Every session of the rendezvous coordinator is forgotten once it has expired: the
    maintenance calls remove them in bounded batches, and no other call can hold one back. *)

From S2P Require Import Prelude.
From S2P Require Import Wire.
From S2P Require Import Postcard.
From S2P Require Import PostcardRef.
From S2P Require Import Messages.
From S2P Require Import Events.
From S2P Require Import MessageCodecs.
From S2P Require Import Frame.
From S2P Require Import Handshake.
From S2P Require Import RvMessages.
From S2P Require Import RvFacts.
From S2P Require Import RvState.
From S2P Require Import Registry.
From S2P Require Import RegistryFacts.
From S2P Require Import Coordinator.
From S2P Require Import CoordinatorFacts.
From S2P Require Import CoordinatorProps.
From S2P Require Import CoordinatorLife.
From Stdlib Require Import Strings.Byte.
From stdpp Require Import prelude gmap list strings sorting.

#[local] Open Scope Z_scope.

(** The sessions that have expired by a moment. *)
Definition overdue (t : Z) (st : CoordinatorState) : nat :=
  size (filter (λ x, record_expires x.2 ≤ t) (sessions st)).

Lemma overdue_zero t st :
  overdue t st = 0%nat ↔ ∀ id r, sessions st !! id = Some r → t < record_expires r.
Proof.
  unfold overdue. rewrite map_size_empty_iff, map_empty. split.
  - intros H id r Hr. specialize (H id). apply map_lookup_filter_None in H as [?|H]; [congruence|].
    specialize (H r Hr). simpl in H. lia.
  - intros H id. apply map_lookup_filter_None. right. intros r Hr. specialize (H id r Hr). simpl. lia.
Qed.

(** A state whose overdue records were overdue before. *)
Lemma overdue_mono t st st' :
  (∀ id r', sessions st' !! id = Some r' → record_expires r' ≤ t →
    ∃ r, sessions st !! id = Some r ∧ record_expires r ≤ t) →
  (overdue t st' ≤ overdue t st)%nat.
Proof.
  intros H. unfold overdue. rewrite <- !size_dom. apply subseteq_size. intros id.
  rewrite !elem_of_dom. intros [r' [Hr' Hx]%map_lookup_filter_Some]. destruct (H id r' Hr' Hx) as (r&?&?).
  exists r. by apply map_lookup_filter_Some.
Qed.

Lemma overdue_delete t st id r counts h :
  sessions st !! id = Some r → record_expires r ≤ t →
  overdue t st = S (overdue t {| sessions := delete id (sessions st); device_counts := counts; expiry := h |}).
Proof.
  intros Hid Hr. unfold overdue. simpl. rewrite map_filter_delete.
  rewrite <- (insert_delete_id (filter _ (sessions st)) id r) at 1 by (by apply map_lookup_filter_Some).
  by rewrite map_size_insert_None by apply lookup_delete_eq.
Qed.

(** A batch removes as many overdue sessions as it has room for. *)
Lemma expire_loop_overdue l n now t st :
  coordinator_ok l st → t ≤ now →
  let st' := (expire_loop n now st).2 in
  (overdue t st' + n ≤ overdue t st)%nat ∨ overdue t st' = 0%nat.
Proof.
  intros Hok Ht. revert st Hok. induction n as [|n IH]; intros st Hok.
  { left. simpl. lia. }
  assert (∀ id r, sessions st !! id = Some r →
    {| ee_expires_unix_secs := record_expires r; ee_session_id := id |} ∈ expiry st) as Hin
    by (intros id r Hr; apply (co_expiry _ _ Hok); eauto).
  simpl. destruct (expiry st) as [|e rest] eqn:He.
  { right. apply overdue_zero. intros id r Hr. by apply Hin, elem_of_nil in Hr. }
  pose proof (co_sorted _ _ Hok) as Hso. rewrite He in Hso.
  assert (∀ id r, sessions st !! id = Some r → ee_expires_unix_secs e ≤ record_expires r) as Hmin
    by (intros id r Hr%Hin; by apply (heap_head_expires _ _ _ Hso) in Hr).
  destruct (Z.ltb_spec now (ee_expires_unix_secs e)) as [Hlt|Hge].
  { right. apply overdue_zero. intros id r Hr. specialize (Hmin id r Hr). lia. }
  assert (e ∈ expiry st) as (r&Hr&Hre)%(co_expiry _ _ Hok) by (rewrite He; by left).
  rewrite Hr, Hre, Z.eqb_refl.
  pose proof (remove_ok l st (ee_session_id e) r e rest Hok He eq_refl Hr Hre) as Hok1.
  specialize (IH _ Hok1). simpl in IH. set (st1 := {| sessions := delete _ _ |}) in *.
  destruct (expire_loop n now st1) as [removed st2]. simpl in *.
  destruct IH as [IH|IH]; [|by right].
  destruct (decide (record_expires r ≤ t)) as [Hle|Hgt].
  - left. rewrite (overdue_delete t st _ r (device_counts st1) rest Hr Hle). fold st1. unfold overdue in *. simpl in *. lia.
  - right. assert (overdue t st = 0%nat) as H0.
    { apply overdue_zero. intros id' r' Hr'. specialize (Hmin id' r' Hr'). lia. }
    assert (overdue t st1 ≤ overdue t st)%nat; [|lia].
    apply overdue_mono. intros id' r' Hr' ?.
    change (delete (ee_session_id e) (sessions st) !! id' = Some r') in Hr'.
    apply lookup_delete_Some in Hr' as [_ Hr']. by exists r'.
Qed.

Section expiry.
Context `{P : Postcard} (sha256 : list byte → list byte).

Lemma expires_life st id :
  expires (life st id) = record_expires <$> sessions st !! id.
Proof.
  unfold life. destruct (sessions st !! id) as [[s|ts]|]; simpl; [|done..]. by destruct (md_protocol _).
Qed.

(** No call made from [t] on adds an overdue session. *)
Lemma call_overdue c env st x t :
  env_ok env → call_wf x → coordinator_ok (limits c) st → (∀ n, t ≤ unix_secs env n) →
  (overdue t (call sha256 c env st x).1.2 ≤ overdue t st)%nat.
Proof.
  intros Henv Hwf Hok Ht. apply overdue_mono. intros id r' Hr' Hx.
  pose proof (call_life sha256 c env st x id Henv Hwf Hok) as H.
  pose proof (expires_life (call sha256 c env st x).1.2 id) as H2. rewrite Hr' in H2. simpl in H2.
  assert (expires (life st id) = Some (record_expires r')) as H1.
  { destruct H as [l Hs|a e cc p|a e d q cc p k|a e d cc p k|a e l cc p k|i l cc p k|l k Hc Hl]; simpl in *; try congruence.
    - injection H2 as H2. specialize (Ht 1%nat). lia.
    - destruct l; simplify_eq/=; done.
    - destruct l; simplify_eq/=; done. }
  rewrite expires_life in H1. destruct (sessions st !! id) as [r|]; [|done].
  injection H1 as H1. exists r. split; [done|lia].
Qed.

Lemma expire_now_overdue c env st t :
  coordinator_ok (limits c) st → (∀ n, t ≤ unix_secs env n) →
  let st' := (call sha256 c env st CExpireNow).1.2 in
  (overdue t st' + EXPIRY_MAINTENANCE_BATCH ≤ overdue t st)%nat ∨ overdue t st' = 0%nat.
Proof.
  intros Hok Ht. simpl. unfold expire_now, expire_sessions_batch.
  pose proof (expire_loop_overdue (limits c) EXPIRY_MAINTENANCE_BATCH (unix_secs env 0) t st Hok (Ht 0%nat)) as H.
  destruct (expire_loop EXPIRY_MAINTENANCE_BATCH (unix_secs env 0) st) as [removed st1]. simpl in H.
  destruct (expiry_notices sha256 env 1 removed) as [notices|x|]; simpl; [|done..].
  assert (overdue t (flush_observability_due sha256 env st1).2 ≤ overdue t st1)%nat.
  { apply overdue_mono. intros id r' Hr' Hx.
    pose proof (flush_life sha256 env st1 id) as Hf. pose proof (expires_life st1 id) as H1.
    rewrite <- Hf, expires_life, Hr' in H1. simpl in H1.
    destruct (sessions st1 !! id) as [r|]; [|done]. injection H1 as H1. exists r. split; [done|lia]. }
  destruct (flush_observability_due sha256 env st1) as [flushed st2]. simpl in *. lia.
Qed.

(** A run of calls, each with its readings. *)
Definition run (c : RendezvousCoordinator) (st : CoordinatorState) (l : list (Env * Call)) : CoordinatorState :=
  foldl (λ st x, (call sha256 c x.1 st x.2).1.2) st l.
Fixpoint maintenance (l : list (Env * Call)) : nat :=
  match l with
  | [] => 0
  | (_, CExpireNow) :: l => S (maintenance l)
  | _ :: l => maintenance l
  end.

Lemma run_overdue c st l t :
  coordinator_ok (limits c) st →
  Forall (λ x, env_ok x.1 ∧ call_wf x.2 ∧ ∀ n, t ≤ unix_secs x.1 n) l →
  (overdue t (run c st l) + EXPIRY_MAINTENANCE_BATCH * maintenance l ≤ overdue t st)%nat
  ∨ overdue t (run c st l) = 0%nat.
Proof.
  intros Hok H. revert st Hok. induction H as [|[env x] l (Henv&Hwf&Ht) _ IH]; intros st Hok.
  { left. simpl. lia. }
  change (run c st ((env, x) :: l)) with (run c (call sha256 c env st x).1.2 l).
  pose proof (coordinator_call_ok sha256 c env st x Henv Hwf Hok) as Hok1.
  pose proof (call_overdue c env st x t Henv Hwf Hok Ht) as H1.
  pose proof (expire_now_overdue c env st t Hok Ht) as H2.
  cbv zeta in H2. specialize (IH _ Hok1).
  destruct x; cbn [maintenance]; rewrite ?Nat.mul_succ_r; lia.
Qed.
End expiry.

(** C11: sessions do not linger.  From a reachable state, along any run of calls whose clocks
    have all reached [t], once maintenance has been called often enough for the sessions there
    were at the start - 1024 of them a call - no session, open or closed, whose expiry is at
    or before [t] is left, whatever other calls were made in between. *)
Theorem expired_sessions_leave `{P : Postcard} (sha256 : list byte → list byte) c st l t :
  coordinator_reachable sha256 c st →
  Forall (λ x, env_ok x.1 ∧ call_wf x.2 ∧ ∀ n, t ≤ unix_secs x.1 n) l →
  (size (sessions st) ≤ EXPIRY_MAINTENANCE_BATCH * maintenance l)%nat →
  ∀ id r, sessions (run sha256 c st l) !! id = Some r → t < record_expires r.
Proof.
  intros Hok%coordinator_reachable_ok Hl Hk. apply overdue_zero.
  assert (overdue t st ≤ size (sessions st))%nat.
  { unfold overdue. rewrite <- !size_dom. apply subseteq_size, dom_filter_subseteq. }
  destruct (run_overdue sha256 c st l t Hok Hl) as [H1|H1]; lia.
Qed.

Lemma expired_sessions_leave_witness :
  sessions (after 50 demo_calls) !! demo_id ≠ None
  ∧ ∀ id r, sessions (run (P := postcard_ref) demo_digest demo_coordinator (after 50 demo_calls)
                        [(demo_env 90, CExpireNow)]) !! id = Some r → 90 < record_expires r.
Proof.
  split; [rewrite demo_run_closes; discriminate|].
  refine (expired_sessions_leave (P := postcard_ref) demo_digest demo_coordinator (after 50 demo_calls)
    [(demo_env 90, CExpireNow)] 90 (demo_calls_reachable 50) _ _).
  - constructor; [|constructor]. split; [apply demo_env_ok|]. split; [exact I|]. intros n. simpl. lia.
  - assert (size (sessions (after 50 demo_calls)) = 1%nat) as -> by (vm_compute; reflexivity).
    apply Nat.leb_le. vm_compute. reflexivity.
Defined.
