(* ===== verification/Peer.v ===== *)
(** End-to-end encryption between two clients ([rustgo-crypto/src/peer.rs]): the session
    transcript, the key schedule, the handshake and candidate confirmations, the sealers and
    openers of peer frames with their replay windows, and the signed byte string of a
    rendezvous envelope.  The cryptographic primitives are the class [Primitives]. *)

From S2P Require Import Prelude.
From S2P Require Import Messages.
From S2P Require Import Frame.
From S2P Require Import RvMessages.
From Stdlib Require Import Strings.Byte.
From stdpp Require Import prelude gmap list strings.

#[local] Open Scope Z_scope.

(** * The primitives *)

(** The crates behind the file: x25519-dalek, sha2, hkdf, hmac, chacha20poly1305,
    ed25519-dalek. *)
Class Primitives := {
  (** [PublicKey::from(&secret)], [secret.diffie_hellman(&public)], [was_contributory]. *)
  x25519_public : list byte → list byte;
  x25519_diffie_hellman : list byte → list byte → list byte;
  x25519_contributory : list byte → bool;
  (** [Sha256::digest]. *)
  sha256 : list byte → list byte;
  (** [Hkdf::new(Some(salt), ikm)], [Hkdf::from_prk], [hkdf.expand] into [n] bytes. *)
  hkdf_new : list byte → list byte → list byte;
  hkdf_from_prk : list byte → option (list byte);
  hkdf_expand : list byte → list byte → nat → option (list byte);
  (** HMAC-SHA256 of a key and a message. *)
  hmac_sha256 : list byte → list byte → list byte;
  (** ChaCha20-Poly1305: key, nonce, associated data, message. *)
  aead_encrypt : list byte → list byte → list byte → list byte → option (list byte);
  aead_decrypt : list byte → list byte → list byte → list byte → option (list byte);
  (** Ed25519: the public key of a secret key, [sign], [verify_strict]. *)
  ed25519_public : list byte → list byte;
  ed25519_sign : list byte → list byte → list byte;
  ed25519_verify : list byte → list byte → list byte → bool;
}.

Definition HASH_BYTES : nat := 32.

(** What the primitives promise: Diffie-Hellman commutes, outputs have their lengths, every
    32-byte expansion and every message of a frame is accepted, decryption undoes encryption
    and returns nothing else, and a signature verifies under its own key. *)
Class PrimitivesLaws (P : Primitives) : Prop := {
  x25519_commutes a b :
    x25519_diffie_hellman a (x25519_public b) = x25519_diffie_hellman b (x25519_public a);
  sha256_length m : length (sha256 m) = HASH_BYTES;
  hkdf_from_prk_ok k : length k = HASH_BYTES → is_Some (hkdf_from_prk k);
  hkdf_expand_ok prk info : ∃ k, hkdf_expand prk info 32 = Some k ∧ length k = 32%nat;
  aead_encrypt_ok k n a m :
    blen m ≤ MAX_PEER_RELAY_CIPHERTEXT_BYTES →
    ∃ c, aead_encrypt k n a m = Some c ∧ blen c = blen m + 16;
  aead_decrypt_encrypt k n a m c : aead_encrypt k n a m = Some c → aead_decrypt k n a c = Some m;
  aead_decrypt_sound k n a m c : aead_decrypt k n a c = Some m → aead_encrypt k n a m = Some c;
  ed25519_sign_length k m : length (ed25519_sign k m) = 64%nat;
  ed25519_verify_sign k m : ed25519_verify (ed25519_public k) m (ed25519_sign k m) = true;
}.

(** * Constants *)

Definition ENVELOPE_DOMAIN : list byte := str "rustgo-peer-envelope-v1".
Definition SESSION_DOMAIN : list byte := str "rustgo-peer-session-v1".
Definition FRAME_DOMAIN : list byte := str "rustgo-peer-frame-v1".
Definition FRAME_KEY_DOMAIN : list byte := str "rustgo-peer-frame-key-v1".
Definition HANDSHAKE_DOMAIN : list byte := str "rustgo-peer-handshake-confirmation-v1".
Definition CANDIDATE_DOMAIN : list byte := str "rustgo-peer-candidate-confirmation-v1".
Definition AEAD_TAG_BYTES : Z := 16.
Definition REPLAY_WINDOW_BITS : Z := 64.

Inductive PeerRole := Initiator | Responder.
#[export] Instance peer_role_eq_dec : EqDecision PeerRole.
Proof. solve_decision. Defined.
Definition role_tag (r : PeerRole) : byte := match r with Initiator => x01 | Responder => x02 end.

Inductive PeerCryptoError :=
| SignatureVerificationFailed
| LocalEphemeralKeyMismatch
| InvalidPeerEphemeralKey
| KeyDerivationFailed
| HandshakeAuthenticationFailed
| FrameAuthenticationFailed
| FrameContextMismatch
| InvalidFrameContext
| DomainAlreadyIssued
| InvalidFlagTransition
| Replay
| UnexpectedSequence
| SequenceExhausted
| FrameTooLarge.

(** * Encoders *)

Definition append_u16 (encoded : list byte) (value : Z) : list byte := encoded ++ be_bytes 2 value.
Definition append_u32 (encoded : list byte) (value : Z) : list byte := encoded ++ be_bytes 4 value.
Definition append_u64 (encoded : list byte) (value : Z) : list byte := encoded ++ be_bytes 8 value.
(** The [expect] on the length holds for every slice the file passes: each is bounded far
    below 2^32. *)
Definition append_bytes (encoded value : list byte) : list byte :=
  append_u32 encoded (blen value) ++ value.
Definition append_optional_string (encoded : list byte) (value : option (list byte)) : list byte :=
  match value with
  | None => encoded ++ [x00]
  | Some value => append_bytes (encoded ++ [x01]) value
  end.
Definition append_optional_protocol (encoded : list byte) (protocol : option Z) : list byte :=
  match protocol with
  | None => encoded ++ [x00]
  | Some protocol => encoded ++ [x01; byte_of protocol]
  end.
Definition append_role (encoded : list byte) (role : PeerRole) (identity ephemeral : list byte)
    : list byte :=
  append_bytes (append_bytes (encoded ++ [role_tag role]) identity) ephemeral.

Definition u8_from (b : bool) : byte := if b then x01 else x00.
Definition transport_tag (t : CandidateTransport) : byte :=
  match t with QuicUdp => x01 | NativeTcp => x02 | Relay => x03 end.

Definition append_address (encoded : list byte) (address : SocketAddress) : list byte :=
  match address with
  | V4 octets port => append_u16 (append_bytes (encoded ++ [x01]) octets) port
  | V6 octets port => append_u16 (append_bytes (encoded ++ [x02]) octets) port
  end.
Definition append_candidate (encoded : list byte) (candidate : Candidate) : list byte :=
  let encoded := encoded ++ [transport_tag (cand_transport candidate)] in
  let encoded := append_address encoded (cand_address candidate) in
  let encoded := append_u32 encoded (cand_priority candidate) in
  let encoded := append_bytes encoded (cand_foundation candidate) in
  let encoded := append_u64 encoded (cand_generation candidate) in
  let encoded := append_u64 encoded (cand_expires_unix_secs candidate) in
  append_bytes encoded (cand_observation_source candidate).
Definition append_binding (encoded : list byte) (binding : TransportKeyBinding) : list byte :=
  append_bytes (encoded ++ [transport_tag (tkb_transport binding)])
    (tkb_ephemeral_public_key binding).
Definition append_connectivity_result (encoded : list byte) (result : ConnectivityResult)
    : list byte :=
  let encoded := encoded ++ [u8_from (cr_connected result)] in
  let encoded :=
    match cr_transport result with
    | None => encoded ++ [x00]
    | Some t => encoded ++ [x01; transport_tag t]
    end in
  append_optional_string encoded (cr_detail result).

Definition append_payload (encoded : list byte) (payload : RendezvousPayload) : list byte :=
  match payload with
  | PRequest request => append_bytes (encoded ++ [x01]) (rr_export request)
  | PProviderDecision decision =>
    let encoded := encoded ++ [x02] in
    let encoded := encoded ++ [u8_from (pd_accepted decision)] in
    let encoded := append_optional_protocol encoded (pd_protocol decision) in
    append_optional_string encoded (pd_detail decision)
  | PCandidateSet s =>
    let encoded := encoded ++ [x03] in
    let encoded := append_bytes encoded (cs_ephemeral_public_key s) in
    let encoded := append_u32 encoded (blen (cs_candidates s)) in
    foldl append_candidate encoded (cs_candidates s)
  | PCandidateSetV2 s =>
    let encoded := encoded ++ [x08] in
    let encoded := encoded ++ [u8_from (cs2_owner_is_initiator s)] in
    let encoded := append_u32 encoded (blen (cs2_bindings s)) in
    let encoded := foldl append_binding encoded (cs2_bindings s) in
    let encoded := append_u32 encoded (blen (cs2_candidates s)) in
    foldl append_candidate encoded (cs2_candidates s)
  | PConnectivityResult result => append_connectivity_result (encoded ++ [x04]) result
  | PRelayRequest request => (encoded ++ [x05]) ++ [u8_from (rlr_datagram request)]
  | PClose close => append_optional_string (encoded ++ [x06]) (rc_detail close)
  | PError error => append_bytes (append_u16 (encoded ++ [x07]) (re_code error)) (re_detail error)
  end.

Definition encode_envelope (envelope : RendezvousEnvelope) : list byte :=
  let encoded := ENVELOPE_DOMAIN in
  let encoded := append_u16 encoded (major (env_version envelope)) in
  let encoded := append_u16 encoded (minor (env_version envelope)) in
  let encoded := append_bytes encoded (env_session_id envelope) in
  let encoded := append_bytes encoded (env_sender envelope) in
  let encoded := append_bytes encoded (env_target envelope) in
  let encoded := append_u64 encoded (env_step envelope) in
  let encoded := append_u64 encoded (env_generation envelope) in
  let encoded := append_u64 encoded (env_expires_unix_secs envelope) in
  append_payload encoded (env_payload envelope).

(** * The transcript of a session *)

Record PeerTranscript := {
  pt_encoded : list byte;
  pt_session_id : list byte;
  pt_initiator_ephemeral : list byte;
  pt_responder_ephemeral : list byte;
}.

Definition PeerTranscript_new (session_id : list byte) (generation : Z)
    (initiator_identity responder_identity initiator_ephemeral responder_ephemeral export : list byte)
    (version : ProtocolVersion) (rendezvous_transcript_hash : list byte) : PeerTranscript :=
  let encoded := SESSION_DOMAIN in
  let encoded := append_bytes encoded session_id in
  let encoded := append_u64 encoded generation in
  let encoded := append_role encoded Initiator initiator_identity initiator_ephemeral in
  let encoded := append_role encoded Responder responder_identity responder_ephemeral in
  let encoded := append_bytes encoded export in
  let encoded := append_u16 encoded (major version) in
  let encoded := append_u16 encoded (minor version) in
  let encoded := append_bytes encoded rendezvous_transcript_hash in
  {| pt_encoded := encoded; pt_session_id := session_id;
     pt_initiator_ephemeral := initiator_ephemeral;
     pt_responder_ephemeral := responder_ephemeral |}.

Definition local_ephemeral (t : PeerTranscript) (role : PeerRole) : list byte :=
  match role with
  | Initiator => pt_initiator_ephemeral t
  | Responder => pt_responder_ephemeral t
  end.
Definition peer_ephemeral (t : PeerTranscript) (role : PeerRole) : list byte :=
  match role with
  | Initiator => pt_responder_ephemeral t
  | Responder => pt_initiator_ephemeral t
  end.

(** * Frame modes and domains *)

Inductive FrameMode := Ordered | Datagram.
#[export] Instance frame_mode_eq_dec : EqDecision FrameMode.
Proof. solve_decision. Defined.
#[export] Program Instance frame_mode_countable : Countable FrameMode :=
  inj_countable' (λ m, match m with Ordered => true | Datagram => false end)
    (λ b : bool, if b then Ordered else Datagram) _.
Next Obligation. by intros []. Qed.

(** [FrameDomain]: a mode and a channel. *)
Notation FrameDomain := (FrameMode * Z)%type.

Definition frame_mode_tag (mode : FrameMode) : byte :=
  match mode with Ordered => x01 | Datagram => x02 end.
Definition nonce_prefix (mode : FrameMode) (direction : PeerRole) : list byte :=
  [frame_mode_tag mode; role_tag direction; x00; x00].
Definition frame_nonce (prefix : list byte) (sequence : Z) : list byte :=
  prefix ++ be_bytes 8 sequence.
Definition frame_aad (context_hash session_id : list byte) (channel_id flags sequence : Z)
    : list byte :=
  let aad := FRAME_DOMAIN in
  let aad := append_bytes aad context_hash in
  let aad := append_bytes aad session_id in
  let aad := append_u64 aad channel_id in
  let aad := aad ++ [byte_of flags] in
  append_u64 aad sequence.
Definition handshake_aad (context_hash transport_binding : list byte) : list byte :=
  append_bytes (append_bytes HANDSHAKE_DOMAIN context_hash) transport_binding.

Definition validate_channel_id (channel_id : Z) : res PeerCryptoError unit :=
  if channel_id =? 0 then Err InvalidFrameContext else Ok tt.
Definition has_fin (flags : Z) : bool := negb (Z.land flags PeerRelayFlags.FIN =? 0).
Definition validate_frame_flags (mode : FrameMode) (flags : Z) : res PeerCryptoError unit :=
  let valid :=
    match mode with
    | Ordered =>
      (flags =? PeerRelayFlags.RELIABLE)
      || (flags =? Z.lor PeerRelayFlags.RELIABLE PeerRelayFlags.FIN)
    | Datagram => flags =? PeerRelayFlags.DATAGRAM
    end in
  if valid then Ok tt else Err InvalidFrameContext.
Definition validate_flag_transition (mode : FrameMode) (finished : bool)
    : res PeerCryptoError unit :=
  if bool_decide (mode = Ordered) && finished then Err InvalidFlagTransition else Ok tt.

(** * Receive sequences *)

Record ReplayWindow := { rw_highest : option Z; rw_bitmap : Z }.

(** [x << n] on a [u64], for [n < 64]. *)
Definition shl_u64 (x n : Z) : Z := Z.land (Z.shiftl x n) u64_max.

Definition replay_window_accept (window : ReplayWindow) (sequence : Z)
    : res PeerCryptoError ReplayWindow :=
  match rw_highest window with
  | None => Ok {| rw_highest := Some sequence; rw_bitmap := 1 |}
  | Some highest =>
    if highest <? sequence then
      let distance := sequence - highest in
      let bitmap :=
        if REPLAY_WINDOW_BITS <=? distance then 1
        else Z.lor (shl_u64 (rw_bitmap window) distance) 1 in
      Ok {| rw_highest := Some sequence; rw_bitmap := bitmap |}
    else
      let distance := highest - sequence in
      if (REPLAY_WINDOW_BITS <=? distance)
         || negb (Z.land (rw_bitmap window) (shl_u64 1 distance) =? 0)
      then Err Replay
      else Ok {| rw_highest := rw_highest window;
                 rw_bitmap := Z.lor (rw_bitmap window) (shl_u64 1 distance) |}
  end.

Inductive ReceiveState :=
| ROrdered (expected : Z) (exhausted : bool)
| RDatagram (window : ReplayWindow).

Definition receive_sequence (state : ReceiveState) (sequence : Z)
    : res PeerCryptoError ReceiveState :=
  match state with
  | ROrdered _ true => if sequence =? u64_max then Err Replay else Err SequenceExhausted
  | ROrdered expected false =>
    if sequence <? expected then Err Replay
    else if expected <? sequence then Err UnexpectedSequence
    else
      match checked_add u64_max expected 1 with
      | Some next => Ok (ROrdered next false)
      | None => Ok (ROrdered expected true)
      end
  | RDatagram window => RDatagram <$> replay_window_accept window sequence
  end.

(** * Keys, sealers and openers *)

Record PeerFrameSealer := {
  fs_session_id : list byte;
  fs_channel_id : Z;
  fs_context_hash : list byte;
  fs_key : list byte;
  fs_mode : FrameMode;
  fs_nonce_prefix : list byte;
  fs_next_sequence : Z;
  fs_exhausted : bool;
  fs_finished : bool;
}.

Record PeerFrameOpener := {
  fo_session_id : list byte;
  fo_channel_id : Z;
  fo_context_hash : list byte;
  fo_key : list byte;
  fo_mode : FrameMode;
  fo_nonce_prefix : list byte;
  fo_state : ReceiveState;
  fo_finished : bool;
}.

Record PeerSessionKeys := {
  sk_role : PeerRole;
  sk_session_id : list byte;
  sk_context_hash : list byte;
  sk_handshake_initiator_to_responder : list byte;
  sk_handshake_responder_to_initiator : list byte;
  sk_candidate_mac_initiator_to_responder : list byte;
  sk_candidate_mac_responder_to_initiator : list byte;
  sk_stream_initiator_to_responder : list byte;
  sk_stream_responder_to_initiator : list byte;
  sk_datagram_initiator_to_responder : list byte;
  sk_datagram_responder_to_initiator : list byte;
  sk_issued_sealers : gset FrameDomain;
  sk_issued_openers : gset FrameDomain;
}.

Definition with_issued_sealers (k : PeerSessionKeys) (issued : gset FrameDomain) : PeerSessionKeys :=
  {| sk_role := sk_role k; sk_session_id := sk_session_id k; sk_context_hash := sk_context_hash k;
     sk_handshake_initiator_to_responder := sk_handshake_initiator_to_responder k;
     sk_handshake_responder_to_initiator := sk_handshake_responder_to_initiator k;
     sk_candidate_mac_initiator_to_responder := sk_candidate_mac_initiator_to_responder k;
     sk_candidate_mac_responder_to_initiator := sk_candidate_mac_responder_to_initiator k;
     sk_stream_initiator_to_responder := sk_stream_initiator_to_responder k;
     sk_stream_responder_to_initiator := sk_stream_responder_to_initiator k;
     sk_datagram_initiator_to_responder := sk_datagram_initiator_to_responder k;
     sk_datagram_responder_to_initiator := sk_datagram_responder_to_initiator k;
     sk_issued_sealers := issued; sk_issued_openers := sk_issued_openers k |}.
Definition with_issued_openers (k : PeerSessionKeys) (issued : gset FrameDomain) : PeerSessionKeys :=
  {| sk_role := sk_role k; sk_session_id := sk_session_id k; sk_context_hash := sk_context_hash k;
     sk_handshake_initiator_to_responder := sk_handshake_initiator_to_responder k;
     sk_handshake_responder_to_initiator := sk_handshake_responder_to_initiator k;
     sk_candidate_mac_initiator_to_responder := sk_candidate_mac_initiator_to_responder k;
     sk_candidate_mac_responder_to_initiator := sk_candidate_mac_responder_to_initiator k;
     sk_stream_initiator_to_responder := sk_stream_initiator_to_responder k;
     sk_stream_responder_to_initiator := sk_stream_responder_to_initiator k;
     sk_datagram_initiator_to_responder := sk_datagram_initiator_to_responder k;
     sk_datagram_responder_to_initiator := sk_datagram_responder_to_initiator k;
     sk_issued_sealers := sk_issued_sealers k; sk_issued_openers := issued |}.

(** [HashSet::insert] behind a check of the channel: the domain, and the set it leaves. *)
Definition issue_domain (issued : gset FrameDomain) (mode : FrameMode) (channel_id : Z)
    : res PeerCryptoError (FrameDomain * gset FrameDomain) :=
  _ ← validate_channel_id channel_id;
  let domain := (mode, channel_id) in
  if bool_decide (domain ∈ issued) then Err DomainAlreadyIssued
  else Ok (domain, {[ domain ]} ∪ issued).

Definition outgoing_direction (k : PeerSessionKeys) : PeerRole := sk_role k.
Definition incoming_direction (k : PeerSessionKeys) : PeerRole :=
  match sk_role k with Initiator => Responder | Responder => Initiator end.
Definition outgoing_handshake_key (k : PeerSessionKeys) : list byte :=
  match sk_role k with
  | Initiator => sk_handshake_initiator_to_responder k
  | Responder => sk_handshake_responder_to_initiator k
  end.
Definition incoming_handshake_key (k : PeerSessionKeys) : list byte :=
  match sk_role k with
  | Initiator => sk_handshake_responder_to_initiator k
  | Responder => sk_handshake_initiator_to_responder k
  end.
Definition outgoing_candidate_mac_key (k : PeerSessionKeys) : list byte :=
  match sk_role k with
  | Initiator => sk_candidate_mac_initiator_to_responder k
  | Responder => sk_candidate_mac_responder_to_initiator k
  end.
Definition incoming_candidate_mac_key (k : PeerSessionKeys) : list byte :=
  match sk_role k with
  | Initiator => sk_candidate_mac_responder_to_initiator k
  | Responder => sk_candidate_mac_initiator_to_responder k
  end.
Definition outgoing_stream_key (k : PeerSessionKeys) : list byte :=
  match sk_role k with
  | Initiator => sk_stream_initiator_to_responder k
  | Responder => sk_stream_responder_to_initiator k
  end.
Definition incoming_stream_key (k : PeerSessionKeys) : list byte :=
  match sk_role k with
  | Initiator => sk_stream_responder_to_initiator k
  | Responder => sk_stream_initiator_to_responder k
  end.
Definition outgoing_datagram_key (k : PeerSessionKeys) : list byte :=
  match sk_role k with
  | Initiator => sk_datagram_initiator_to_responder k
  | Responder => sk_datagram_responder_to_initiator k
  end.
Definition incoming_datagram_key (k : PeerSessionKeys) : list byte :=
  match sk_role k with
  | Initiator => sk_datagram_responder_to_initiator k
  | Responder => sk_datagram_initiator_to_responder k
  end.

(** [PeerFrameSealer::new] and [PeerFrameOpener::new]. *)
Definition sealer_new (session_id : list byte) (channel_id : Z) (context_hash key : list byte)
    (mode : FrameMode) (prefix : list byte) : res PeerCryptoError PeerFrameSealer :=
  _ ← validate_channel_id channel_id;
  Ok {| fs_session_id := session_id; fs_channel_id := channel_id;
        fs_context_hash := context_hash; fs_key := key; fs_mode := mode;
        fs_nonce_prefix := prefix; fs_next_sequence := 0; fs_exhausted := false;
        fs_finished := false |}.
Definition opener_new (session_id : list byte) (channel_id : Z) (context_hash key : list byte)
    (mode : FrameMode) (prefix : list byte) : res PeerCryptoError PeerFrameOpener :=
  _ ← validate_channel_id channel_id;
  let state :=
    match mode with
    | Ordered => ROrdered 0 false
    | Datagram => RDatagram {| rw_highest := None; rw_bitmap := 0 |}
    end in
  Ok {| fo_session_id := session_id; fo_channel_id := channel_id;
        fo_context_hash := context_hash; fo_key := key; fo_mode := mode;
        fo_nonce_prefix := prefix; fo_state := state; fo_finished := false |}.

(** The associated data of the two confirmations and the HKDF info of a frame key. *)
Definition frame_key_info (context_hash session_id : list byte) (mode : FrameMode) (channel_id : Z)
    : list byte :=
  let info := FRAME_KEY_DOMAIN in
  let info := append_bytes info context_hash in
  let info := append_bytes info session_id in
  let info := info ++ [frame_mode_tag mode] in
  append_u64 info channel_id.

Section ops.
Context `{P : Primitives}.

Definition expand_key (hkdf label : list byte) : res PeerCryptoError (list byte) :=
  ok_or (hkdf_expand hkdf label 32) KeyDerivationFailed.

Definition derive_frame_key (base_key context_hash session_id : list byte) (mode : FrameMode)
    (channel_id : Z) : res PeerCryptoError (list byte) :=
  hkdf ← ok_or (hkdf_from_prk base_key) KeyDerivationFailed;
  expand_key hkdf (frame_key_info context_hash session_id mode channel_id).

(** [PeerSessionKeys::derive]; an ephemeral key is its secret bytes. *)
Definition derive (role : PeerRole) (local : list byte) (transcript : PeerTranscript)
    : res PeerCryptoError PeerSessionKeys :=
  if negb (bool_decide (x25519_public local = local_ephemeral transcript role))
  then Err LocalEphemeralKeyMismatch else
  let shared := x25519_diffie_hellman local (peer_ephemeral transcript role) in
  if negb (x25519_contributory shared) then Err InvalidPeerEphemeralKey else
  let context_hash := sha256 (pt_encoded transcript) in
  let hkdf := hkdf_new context_hash shared in
  hi ← expand_key hkdf (str "rustgo-peer-handshake-initiator-to-responder-v1");
  hr ← expand_key hkdf (str "rustgo-peer-handshake-responder-to-initiator-v1");
  ci ← expand_key hkdf (str "rustgo-peer-tcp-candidate-mac-initiator-to-responder-v1");
  cr ← expand_key hkdf (str "rustgo-peer-tcp-candidate-mac-responder-to-initiator-v1");
  si ← expand_key hkdf (str "rustgo-peer-stream-initiator-to-responder-v1");
  sr ← expand_key hkdf (str "rustgo-peer-stream-responder-to-initiator-v1");
  di ← expand_key hkdf (str "rustgo-peer-datagram-initiator-to-responder-v1");
  dr ← expand_key hkdf (str "rustgo-peer-datagram-responder-to-initiator-v1");
  Ok {| sk_role := role; sk_session_id := pt_session_id transcript;
        sk_context_hash := context_hash;
        sk_handshake_initiator_to_responder := hi; sk_handshake_responder_to_initiator := hr;
        sk_candidate_mac_initiator_to_responder := ci;
        sk_candidate_mac_responder_to_initiator := cr;
        sk_stream_initiator_to_responder := si; sk_stream_responder_to_initiator := sr;
        sk_datagram_initiator_to_responder := di; sk_datagram_responder_to_initiator := dr;
        sk_issued_sealers := ∅; sk_issued_openers := ∅ |}.

(** [handshake_tag] panics where the cipher refuses the empty message. *)
Definition handshake_tag (k : PeerSessionKeys) (transport_binding : list byte)
    : res PeerCryptoError (list byte) :=
  expect (aead_encrypt (outgoing_handshake_key k) (be_bytes 12 0)
            (handshake_aad (sk_context_hash k) transport_binding) []).
Definition verify_handshake_tag (k : PeerSessionKeys) (transport_binding tag : list byte)
    : res PeerCryptoError unit :=
  match aead_decrypt (incoming_handshake_key k) (be_bytes 12 0)
          (handshake_aad (sk_context_hash k) transport_binding) tag with
  | Some _ => Ok tt
  | None => Err HandshakeAuthenticationFailed
  end.

Definition candidate_hmac (key context_hash transport_binding : list byte) : list byte :=
  hmac_sha256 key (CANDIDATE_DOMAIN ++ context_hash ++ transport_binding).
Definition candidate_confirmation (k : PeerSessionKeys) (transport_binding : list byte) : list byte :=
  candidate_hmac (outgoing_candidate_mac_key k) (sk_context_hash k) transport_binding.
Definition verify_candidate_confirmation (k : PeerSessionKeys)
    (transport_binding confirmation : list byte) : res PeerCryptoError unit :=
  if bool_decide (hmac_sha256 (incoming_candidate_mac_key k)
                    (CANDIDATE_DOMAIN ++ sk_context_hash k ++ transport_binding) = confirmation)
  then Ok tt else Err HandshakeAuthenticationFailed.

(** [issue_sealer] and [issue_opener] with the key derivation that follows: the mutated keys
    are returned also when a later step fails. *)
Definition stream_sealer (k : PeerSessionKeys) (channel_id : Z)
    : res PeerCryptoError PeerFrameSealer * PeerSessionKeys :=
  match issue_domain (sk_issued_sealers k) Ordered channel_id with
  | Err e => (Err e, k)
  | Panic => (Panic, k)
  | Ok (domain, issued) =>
    (key ← derive_frame_key (outgoing_stream_key k) (sk_context_hash k) (sk_session_id k)
             domain.1 domain.2;
     sealer_new (sk_session_id k) domain.2 (sk_context_hash k) key domain.1
       (nonce_prefix Ordered (outgoing_direction k)),
     with_issued_sealers k issued)
  end.
Definition stream_opener (k : PeerSessionKeys) (channel_id : Z)
    : res PeerCryptoError PeerFrameOpener * PeerSessionKeys :=
  match issue_domain (sk_issued_openers k) Ordered channel_id with
  | Err e => (Err e, k)
  | Panic => (Panic, k)
  | Ok (domain, issued) =>
    (key ← derive_frame_key (incoming_stream_key k) (sk_context_hash k) (sk_session_id k)
             domain.1 domain.2;
     opener_new (sk_session_id k) domain.2 (sk_context_hash k) key domain.1
       (nonce_prefix Ordered (incoming_direction k)),
     with_issued_openers k issued)
  end.
Definition datagram_sealer (k : PeerSessionKeys) (channel_id : Z)
    : res PeerCryptoError PeerFrameSealer * PeerSessionKeys :=
  match issue_domain (sk_issued_sealers k) Datagram channel_id with
  | Err e => (Err e, k)
  | Panic => (Panic, k)
  | Ok (domain, issued) =>
    (key ← derive_frame_key (outgoing_datagram_key k) (sk_context_hash k) (sk_session_id k)
             domain.1 domain.2;
     sealer_new (sk_session_id k) domain.2 (sk_context_hash k) key domain.1
       (nonce_prefix Datagram (outgoing_direction k)),
     with_issued_sealers k issued)
  end.
Definition datagram_opener (k : PeerSessionKeys) (channel_id : Z)
    : res PeerCryptoError PeerFrameOpener * PeerSessionKeys :=
  match issue_domain (sk_issued_openers k) Datagram channel_id with
  | Err e => (Err e, k)
  | Panic => (Panic, k)
  | Ok (domain, issued) =>
    (key ← derive_frame_key (incoming_datagram_key k) (sk_context_hash k) (sk_session_id k)
             domain.1 domain.2;
     opener_new (sk_session_id k) domain.2 (sk_context_hash k) key domain.1
       (nonce_prefix Datagram (incoming_direction k)),
     with_issued_openers k issued)
  end.

(** The state a successful [seal] leaves. *)
Definition sealer_advance (s : PeerFrameSealer) (flags : Z) : PeerFrameSealer :=
  let '(next_sequence, exhausted) :=
    match checked_add u64_max (fs_next_sequence s) 1 with
    | Some next => (next, fs_exhausted s)
    | None => (fs_next_sequence s, true)
    end in
  {| fs_session_id := fs_session_id s; fs_channel_id := fs_channel_id s;
     fs_context_hash := fs_context_hash s; fs_key := fs_key s; fs_mode := fs_mode s;
     fs_nonce_prefix := fs_nonce_prefix s; fs_next_sequence := next_sequence;
     fs_exhausted := exhausted; fs_finished := fs_finished s || has_fin flags |}.

(** [PeerFrameSealer::seal]. *)
Definition seal_frame (s : PeerFrameSealer) (plaintext : list byte) (flags : Z)
    : res PeerCryptoError (PeerRelayFrame * PeerFrameSealer) :=
  if saturating_sub MAX_PEER_RELAY_CIPHERTEXT_BYTES AEAD_TAG_BYTES <? blen plaintext
  then Err FrameTooLarge else
  _ ← validate_frame_flags (fs_mode s) flags;
  _ ← validate_flag_transition (fs_mode s) (fs_finished s);
  if fs_exhausted s then Err SequenceExhausted else
  let sequence := fs_next_sequence s in
  let nonce := frame_nonce (fs_nonce_prefix s) sequence in
  let aad := frame_aad (fs_context_hash s) (fs_session_id s) (fs_channel_id s) flags sequence in
  ciphertext ← ok_or (aead_encrypt (fs_key s) nonce aad plaintext) FrameTooLarge;
  frame ← map_err (λ _, FrameTooLarge)
            (PeerRelayFrame_new (fs_session_id s) (fs_channel_id s) sequence flags ciphertext);
  Ok (frame, sealer_advance s flags).

(** [PeerFrameOpener::open]. *)
Definition open_frame (o : PeerFrameOpener) (frame : PeerRelayFrame)
    : res PeerCryptoError (list byte * PeerFrameOpener) :=
  if negb (bool_decide (prf_session_id frame = fo_session_id o))
     || negb (prf_channel_id frame =? fo_channel_id o)
  then Err FrameContextMismatch else
  _ ← validate_frame_flags (fo_mode o) (prf_flags frame);
  next_state ← receive_sequence (fo_state o) (prf_sequence frame);
  _ ← validate_flag_transition (fo_mode o) (fo_finished o);
  let nonce := frame_nonce (fo_nonce_prefix o) (prf_sequence frame) in
  let aad := frame_aad (fo_context_hash o) (prf_session_id frame) (prf_channel_id frame)
               (prf_flags frame) (prf_sequence frame) in
  plaintext ← ok_or (aead_decrypt (fo_key o) nonce aad (prf_ciphertext frame))
                FrameAuthenticationFailed;
  Ok (plaintext,
      {| fo_session_id := fo_session_id o; fo_channel_id := fo_channel_id o;
         fo_context_hash := fo_context_hash o; fo_key := fo_key o; fo_mode := fo_mode o;
         fo_nonce_prefix := fo_nonce_prefix o; fo_state := next_state;
         fo_finished := fo_finished o || has_fin (prf_flags frame) |}).

(** [DevicePublicKey::verify_bytes]: a signature that is not 64 bytes long is no signature. *)
Definition verify_bytes (public_key message signature : list byte) : bool :=
  (blen signature =? 64) && ed25519_verify public_key message signature.

Definition sign_peer_envelope (keypair : list byte) (envelope : RendezvousEnvelope)
    : res PeerCryptoError (list byte) :=
  let transcript := encode_envelope envelope in
  map_err (λ _, SignatureVerificationFailed)
    (bounded_try_from RvMessages.MAX_SIGNATURE_BYTES (ed25519_sign keypair transcript)).
Definition verify_peer_envelope (expected_public_key : list byte) (envelope : RendezvousEnvelope)
    : res PeerCryptoError unit :=
  let transcript := encode_envelope envelope in
  if verify_bytes expected_public_key transcript (env_signature envelope) then Ok tt
  else Err SignatureVerificationFailed.
End ops.
