(* ===== verification/PeerCodecs.v ===== *)
(** The byte strings of [Peer] as prefix codes: each field determines itself and what follows
    it, so a signed or authenticated string determines every field it was built from. *)

From S2P Require Import Prelude.
From S2P Require Import Wire.
From S2P Require Import Postcard.
From S2P Require Import Messages.
From S2P Require Import MessageCodecs.
From S2P Require Import Frame.
From S2P Require Import RvMessages.
From S2P Require Import RvFacts.
From S2P Require Import Peer.
From Stdlib Require Import Strings.Byte.
From stdpp Require Import prelude list strings.

#[local] Open Scope Z_scope.

(** * Prefix codes *)

Class PrefixCode {A} (wf : A → Prop) (enc : A → list byte) : Prop :=
  prefix_inj a b r s : wf a → wf b → enc a ++ r = enc b ++ s → a = b ∧ r = s.

(** A slice behind its length; a list of items; an optional item behind its tag. *)
Definition e_bytes (v : list byte) : list byte := be_bytes 4 (blen v) ++ v.
Definition e_items {A} (enc : A → list byte) (l : list A) : list byte := flat_map enc l.
Definition e_list {A} (enc : A → list byte) (l : list A) : list byte :=
  be_bytes 4 (blen l) ++ e_items enc l.
Definition e_opt {A} (enc : A → list byte) (o : option A) : list byte :=
  match o with None => [x00] | Some a => x01 :: enc a end.
Definition e_byte (b : byte) : list byte := [b].

Definition slice_wf {A} (v : list A) : Prop := blen v ≤ u32_max.

Lemma app_cut {A} (a b r s : list A) : length a = length b → a ++ r = b ++ s → a = b ∧ r = s.
Proof. intros Hl He. by apply app_inj_1. Qed.

#[export] Instance prefix_u w n : w = 8 * Z.of_nat n → PrefixCode (in_u w) (be_bytes n).
Proof.
  intros -> a b r s Ha Hb [He ->]%app_cut; [|by rewrite !length_be_bytes]. split; [|done].
  assert (2 ^ (8 * Z.of_nat n) = 256 ^ Z.of_nat n) as Hp by (by rewrite Z.pow_mul_r by lia).
  unfold in_u in *. rewrite Hp in *. by apply (be_bytes_inj n).
Qed.
#[export] Instance prefix_u16 : PrefixCode (in_u 16) (be_bytes 2).
Proof. by apply prefix_u. Qed.
#[export] Instance prefix_u32 : PrefixCode (in_u 32) (be_bytes 4).
Proof. by apply prefix_u. Qed.
#[export] Instance prefix_u64 : PrefixCode (in_u 64) (be_bytes 8).
Proof. by apply prefix_u. Qed.

#[local] Arguments be_bytes : simpl never.
#[local] Arguments e_byte : simpl never.
#[local] Arguments e_bytes : simpl never.
#[local] Arguments e_list : simpl never.

#[export] Instance prefix_byte : PrefixCode (λ _, True) e_byte.
Proof. intros a b r s _ _ He. by injection He. Qed.

(** The last field. *)
Lemma prefix_end {A} (wf : A → Prop) enc `{!PrefixCode wf enc} a b :
  wf a → wf b → enc a = enc b → a = b.
Proof.
  intros Ha Hb He. apply (f_equal (λ x, x ++ [])) in He. by apply prefix_inj in He as [? _].
Qed.

#[export] Instance prefix_bytes : PrefixCode slice_wf e_bytes.
Proof.
  intros a b r s Ha Hb. unfold e_bytes. rewrite <- !app_assoc.
  unfold slice_wf, u32_max in *. pose proof (blen_nonneg a). pose proof (blen_nonneg b).
  intros [Hn He]%prefix_u32; [|by unfold in_u; lia..].
  apply app_cut in He; [done|]. unfold blen in Hn. lia.
Qed.

Lemma prefix_items {A} (wf : A → Prop) enc `{!PrefixCode wf enc} (l k : list A) r s :
  length l = length k → Forall wf l → Forall wf k →
  e_items enc l ++ r = e_items enc k ++ s → l = k ∧ r = s.
Proof.
  revert k; induction l as [|a l IH]; intros [|b k] Hl; try done.
  intros [Ha Hla]%Forall_cons [Hb Hkb]%Forall_cons. simpl. rewrite <- !app_assoc.
  intros [-> He]%prefix_inj; [|done..]. apply IH in He as [-> ->]; [done| |done..]. by injection Hl.
Qed.

#[export] Instance prefix_list {A} (wf : A → Prop) enc `{!PrefixCode wf enc} :
  PrefixCode (λ l, slice_wf l ∧ Forall wf l) (e_list enc).
Proof.
  intros a b r s [Ha Hfa] [Hb Hfb]. unfold e_list. rewrite <- !app_assoc.
  unfold slice_wf, u32_max in *. pose proof (blen_nonneg a). pose proof (blen_nonneg b).
  intros [Hn He]%prefix_u32; [|by unfold in_u; lia..].
  eapply prefix_items in He; [done|done| |done..]. unfold blen in Hn. lia.
Qed.

#[export] Instance prefix_opt {A} (wf : A → Prop) enc `{!PrefixCode wf enc} :
  PrefixCode (opt_wf wf) (e_opt enc).
Proof.
  intros [a|] [b|] r s Ha Hb; simpl; try done; [|by intros [= ->]].
  intros He. injection He as He. by apply prefix_inj in He as [-> ->].
Qed.

(** One field after the other. *)
Ltac peel H :=
  repeat (rewrite <- ?app_assoc in H;
    lazymatch type of H with
    | ?enc ?a ++ ?r = ?enc ?b ++ ?s =>
      let E := fresh "E" in apply (prefix_inj (enc := enc)) in H as [E H]; [|by eauto with peer..]
    end).

Lemma utf8_slice_wf max s : str_wf max s → max ≤ u32_max → slice_wf s.
Proof. intros [? ?]. unfold slice_wf. lia. Qed.
Lemma bytes_slice_wf max v : bytes_wf max v → max ≤ u32_max → slice_wf v.
Proof. unfold bytes_wf, slice_wf. lia. Qed.
Lemma length_slice_wf (v : list byte) n : length v = n → Z.of_nat n ≤ u32_max → slice_wf v.
Proof. unfold slice_wf, blen. lia. Qed.

Create HintDb peer.
#[export] Hint Extern 1 (slice_wf _) =>
  (eapply utf8_slice_wf; [eassumption|done]) : peer.
#[export] Hint Extern 1 (slice_wf _) => (eapply bytes_slice_wf; [eassumption|done]) : peer.
#[export] Hint Extern 1 (slice_wf _) => (eapply length_slice_wf; [eassumption|done]) : peer.
#[export] Hint Extern 1 True => exact I : peer.

(** * The fields of an envelope *)

Definition e_address (a : SocketAddress) : list byte :=
  match a with
  | V4 octets port => e_byte x01 ++ e_bytes octets ++ be_bytes 2 port
  | V6 octets port => e_byte x02 ++ e_bytes octets ++ be_bytes 2 port
  end.
Definition e_candidate (c : Candidate) : list byte :=
  e_byte (transport_tag (cand_transport c)) ++ e_address (cand_address c)
  ++ be_bytes 4 (cand_priority c) ++ e_bytes (cand_foundation c)
  ++ be_bytes 8 (cand_generation c) ++ be_bytes 8 (cand_expires_unix_secs c)
  ++ e_bytes (cand_observation_source c).
Definition e_binding (b : TransportKeyBinding) : list byte :=
  e_byte (transport_tag (tkb_transport b)) ++ e_bytes (tkb_ephemeral_public_key b).
Definition e_transport (t : CandidateTransport) : list byte := e_byte (transport_tag t).
Definition e_protocol (p : Z) : list byte := e_byte (byte_of p).
Definition e_payload (p : RendezvousPayload) : list byte :=
  match p with
  | PRequest v => e_byte x01 ++ e_bytes (rr_export v)
  | PProviderDecision v =>
    e_byte x02 ++ e_byte (u8_from (pd_accepted v)) ++ e_opt e_protocol (pd_protocol v)
    ++ e_opt e_bytes (pd_detail v)
  | PCandidateSet v =>
    e_byte x03 ++ e_bytes (cs_ephemeral_public_key v) ++ e_list e_candidate (cs_candidates v)
  | PCandidateSetV2 v =>
    e_byte x08 ++ e_byte (u8_from (cs2_owner_is_initiator v)) ++ e_list e_binding (cs2_bindings v)
    ++ e_list e_candidate (cs2_candidates v)
  | PConnectivityResult v =>
    e_byte x04 ++ e_byte (u8_from (cr_connected v)) ++ e_opt e_transport (cr_transport v)
    ++ e_opt e_bytes (cr_detail v)
  | PRelayRequest v => e_byte x05 ++ e_byte (u8_from (rlr_datagram v))
  | PClose v => e_byte x06 ++ e_opt e_bytes (rc_detail v)
  | PError v => e_byte x07 ++ be_bytes 2 (re_code v) ++ e_bytes (re_detail v)
  end.

Lemma transport_tag_inj a b : transport_tag a = transport_tag b → a = b.
Proof. by destruct a, b. Qed.
Lemma u8_from_inj a b : u8_from a = u8_from b → a = b.
Proof. by destruct a, b. Qed.

#[export] Instance prefix_transport : PrefixCode (λ _, True) e_transport.
Proof. intros a b r s _ _ H. unfold e_transport in H. peel H. by apply transport_tag_inj in E. Qed.
#[export] Instance prefix_protocol : PrefixCode tunnel_protocol_wf e_protocol.
Proof.
  intros a b r s [Ha _] [Hb _] H. unfold e_protocol in H. peel H. split; [|done].
  unfold in_u in *. apply (f_equal byte_val) in E. by rewrite !byte_val_of_small in E by lia.
Qed.
#[export] Instance prefix_address : PrefixCode socket_address_wf e_address.
Proof.
  intros [o p|o p] [o' p'|o' p'] r s [Ho Hp] [Ho' Hp'] H; unfold e_address in H;
    peel H; simplify_eq; done.
Qed.
#[export] Instance prefix_candidate : PrefixCode candidate_wf e_candidate.
Proof.
  intros c d r s (?&?&?&[]&?&?) (?&?&?&[]&?&?) He.
  unfold e_candidate in He. peel He. apply transport_tag_inj in E.
  destruct c, d; simpl in *; by subst.
Qed.
#[export] Instance prefix_binding : PrefixCode transport_key_binding_wf e_binding.
Proof.
  intros b d r s Hb Hd He. unfold transport_key_binding_wf in *.
  unfold e_binding in He. peel He. apply transport_tag_inj in E.
  destruct b, d; simpl in *; by subst.
Qed.
Lemma candidates_slice_wf l : blen l ≤ MAX_CANDIDATES → Forall candidate_wf l →
  slice_wf l ∧ Forall candidate_wf l.
Proof. unfold MAX_CANDIDATES, slice_wf, u32_max. intros ? ?. split; [lia|done]. Qed.
Lemma bindings_slice_wf l : blen l ≤ MAX_TRANSPORT_KEY_BINDINGS → Forall transport_key_binding_wf l →
  slice_wf l ∧ Forall transport_key_binding_wf l.
Proof. unfold MAX_TRANSPORT_KEY_BINDINGS, slice_wf, u32_max. intros ? ?. split; [lia|done]. Qed.
Lemma detail_slice_wf (o : option (list byte)) :
  opt_wf (str_wf RvMessages.MAX_ERROR_DETAIL_BYTES) o → opt_wf slice_wf o.
Proof. destruct o as [d|]; simpl; [|done]. intros Hd. by eapply utf8_slice_wf. Qed.
Lemma transport_opt_wf (o : option CandidateTransport) : opt_wf (λ _, True) o.
Proof. by destruct o. Qed.
#[export] Hint Resolve candidates_slice_wf bindings_slice_wf detail_slice_wf transport_opt_wf : peer.

#[export] Instance prefix_payload : PrefixCode payload_wf e_payload.
Proof.
  intros p q r s Hp Hq He.
  destruct p, q; try discriminate He; unfold e_payload in He; unfold payload_wf, rendezvous_request_wf, provider_decision_wf, candidate_set_wf,
      candidate_set_v2_wf, connectivity_result_wf, rendezvous_close_wf, rendezvous_error_wf in *;
    destruct_and?; peel He;
    repeat match goal with
    | E : u8_from _ = u8_from _ |- _ => apply u8_from_inj in E
    | v : RendezvousRequest |- _ => destruct v | v : ProviderDecision |- _ => destruct v
    | v : CandidateSet |- _ => destruct v | v : CandidateSetV2 |- _ => destruct v
    | v : ConnectivityResult |- _ => destruct v | v : RelayRequest |- _ => destruct v
    | v : RendezvousClose |- _ => destruct v | v : RendezvousError |- _ => destruct v
    end; simpl in *; by subst.
Qed.

(** * The files' encoders in this form *)

Lemma append_bytes_eq e v : append_bytes e v = e ++ e_bytes v.
Proof. unfold append_bytes, append_u32, e_bytes. by rewrite <- app_assoc. Qed.
Lemma append_optional_string_eq e o : append_optional_string e o = e ++ e_opt e_bytes o.
Proof. destruct o; simpl; [|done]. rewrite append_bytes_eq. by rewrite <- app_assoc. Qed.
Lemma append_optional_protocol_eq e o : append_optional_protocol e o = e ++ e_opt e_protocol o.
Proof. by destruct o. Qed.
Lemma append_address_eq e a : append_address e a = e ++ e_address a.
Proof.
  destruct a; unfold append_address, append_u16; rewrite append_bytes_eq; by rewrite <- !app_assoc.
Qed.
Lemma append_candidate_eq e c : append_candidate e c = e ++ e_candidate c.
Proof.
  unfold append_candidate, append_u32, append_u64, e_candidate.
  rewrite !append_bytes_eq, append_address_eq. by rewrite <- !app_assoc.
Qed.
Lemma append_binding_eq e b : append_binding e b = e ++ e_binding b.
Proof. unfold append_binding, e_binding. rewrite append_bytes_eq. by rewrite <- !app_assoc. Qed.
Lemma foldl_append {A} (f : list byte → A → list byte) enc l e :
  (∀ e a, f e a = e ++ enc a) → foldl f e l = e ++ e_items enc l.
Proof.
  intros Hf. revert e; induction l as [|a l IH]; intros e; simpl; [by rewrite app_nil_r|].
  by rewrite IH, Hf, <- app_assoc.
Qed.
Lemma append_payload_eq e p : append_payload e p = e ++ e_payload p.
Proof.
  destruct p; unfold append_payload, append_connectivity_result, append_u16, append_u32, e_payload, e_list;
    rewrite ?(foldl_append _ _ _ _ append_candidate_eq), ?(foldl_append _ _ _ _ append_binding_eq),
      ?append_optional_string_eq, ?append_optional_protocol_eq, ?append_bytes_eq, <- ?app_assoc;
    try done.
  destruct (cr_transport _); by rewrite <- ?app_assoc.
Qed.

Definition e_envelope (e : RendezvousEnvelope) : list byte :=
  ENVELOPE_DOMAIN ++ be_bytes 2 (major (env_version e)) ++ be_bytes 2 (minor (env_version e))
  ++ e_bytes (env_session_id e) ++ e_bytes (env_sender e) ++ e_bytes (env_target e)
  ++ be_bytes 8 (env_step e) ++ be_bytes 8 (env_generation e)
  ++ be_bytes 8 (env_expires_unix_secs e) ++ e_payload (env_payload e).
Lemma encode_envelope_eq e : encode_envelope e = e_envelope e.
Proof.
  unfold encode_envelope, append_u16, append_u64, e_envelope.
  rewrite append_payload_eq, !append_bytes_eq. by rewrite <- !app_assoc.
Qed.

(** An envelope but for its signature. *)
Definition unsigned (e : RendezvousEnvelope) : RendezvousEnvelope :=
  {| env_version := env_version e; env_session_id := env_session_id e;
     env_sender := env_sender e; env_target := env_target e; env_step := env_step e;
     env_generation := env_generation e; env_expires_unix_secs := env_expires_unix_secs e;
     env_payload := env_payload e; env_signature := [] |}.

Lemma encode_envelope_inj e f :
  envelope_wf e → envelope_wf f → encode_envelope e = encode_envelope f → unsigned e = unsigned f.
Proof.
  intros ([]&?&?&?&?&[]&?&?&_) ([]&?&?&?&?&[]&?&?&_). rewrite !encode_envelope_eq. intros He.
  unfold e_envelope in He. apply app_inv_head in He.
  peel He. apply (prefix_end payload_wf e_payload) in He; [|done..]. unfold unsigned. f_equal; try done.
  destruct (env_version e), (env_version f); simpl in *; by subst.
Qed.

(** * Transcripts, frames and keys *)

(** [frame_aad] determines the channel, the flags and the sequence. *)
Lemma frame_aad_inj h s ch fl q ch' fl' q' :
  in_u 64 ch → in_u 64 ch' → in_u 64 q → in_u 64 q' →
  frame_aad h s ch fl q = frame_aad h s ch' fl' q' →
  ch = ch' ∧ byte_of fl = byte_of fl' ∧ q = q'.
Proof.
  intros ? ? ? ?. unfold frame_aad, append_u64. rewrite !append_bytes_eq, <- !app_assoc. intros He.
  do 3 apply app_inv_head in He.
  apply (prefix_inj (enc := be_bytes 8)) in He as [-> He]; [|done..].
  apply (prefix_inj (enc := e_byte) (byte_of fl) (byte_of fl')) in He as [-> He]; [|done..].
  by apply (prefix_end (in_u 64) (be_bytes 8)) in He.
Qed.

Lemma frame_mode_tag_inj a b : frame_mode_tag a = frame_mode_tag b → a = b.
Proof. by destruct a, b. Qed.

(** The derivation input of a frame key determines the mode and the channel. *)
Lemma frame_key_info_inj h s m ch m' ch' :
  in_u 64 ch → in_u 64 ch' → frame_key_info h s m ch = frame_key_info h s m' ch' → m = m' ∧ ch = ch'.
Proof.
  intros ? ?. unfold frame_key_info, append_u64. rewrite !append_bytes_eq, <- !app_assoc. intros He.
  do 3 apply app_inv_head in He. 
  apply (prefix_inj (enc := e_byte) (frame_mode_tag m) (frame_mode_tag m')) in He as [Hm He]; [|done..].
  split; [by apply frame_mode_tag_inj|by apply (prefix_end (in_u 64) (be_bytes 8)) in He].
Qed.

Lemma frame_nonce_inj p p' q q' :
  length p = length p' → in_u 64 q → in_u 64 q' →
  frame_nonce p q = frame_nonce p' q' → p = p' ∧ q = q'.
Proof.
  intros Hl ? ? [-> He]%app_cut; [|done]. split; [done|].
  by apply (prefix_end (in_u 64) (be_bytes 8)) in He.
Qed.

Lemma nonce_prefix_inj m d m' d' : nonce_prefix m d = nonce_prefix m' d' → m = m' ∧ d = d'.
Proof. by destruct m, d, m', d'. Qed.

(** The transcript determines every field of the session it binds. *)
Lemma transcript_inj sid g ii ri ie re x v h sid' g' ii' ri' ie' re' x' v' h' :
  Forall (λ k, length k = 32%nat) [sid; ii; ri; ie; re; h; sid'; ii'; ri'; ie'; re'; h'] →
  in_u 64 g → in_u 64 g' → str_wf MAX_EXPORT_NAME_BYTES x → str_wf MAX_EXPORT_NAME_BYTES x' →
  version_wf v → version_wf v' →
  pt_encoded (PeerTranscript_new sid g ii ri ie re x v h)
  = pt_encoded (PeerTranscript_new sid' g' ii' ri' ie' re' x' v' h') →
  (sid, g, ii, ri, ie, re, x, v, h) = (sid', g', ii', ri', ie', re', x', v', h').
Proof.
  rewrite !Forall_cons. intros Hl ? ? ? ? [? ?] [? ?] He. destruct_and?.
  simpl in He. unfold append_role, append_u16, append_u64 in He. rewrite !append_bytes_eq in He.
  rewrite <- !app_assoc in He. apply app_inv_head in He.
  do 2 (apply prefix_inj in He as [? He]; [|by eauto with peer..]). apply app_inv_head in He.
  do 2 (apply prefix_inj in He as [? He]; [|by eauto with peer..]). apply app_inv_head in He.
  peel He. apply (prefix_end slice_wf e_bytes) in He; [|by eauto with peer..].
  destruct v, v'; simpl in *. by subst.
Qed.
