(* ===== verification/PeerFacts.v ===== *)
(** Facts about [Peer]: the replay window against its reference, the branches of sealing and
    opening, and what a channel delivers when its frames are not forged. *)

From S2P Require Import Prelude.
From S2P Require Import Wire.
From S2P Require Import Messages.
From S2P Require Import MessageCodecs.
From S2P Require Import Frame.
From S2P Require Import RvMessages.
From S2P Require Import RvFacts.
From S2P Require Import Peer.
From S2P Require Import PeerCodecs.
From Stdlib Require Import Strings.Byte.
From stdpp Require Import prelude gmap list strings.

#[local] Open Scope Z_scope.
#[local] Arguments be_bytes : simpl never.

(** * The replay window *)

(** The reference: a sequence is fresh when no accepted one is 64 or more ahead of it and it
    was not accepted itself. *)
Definition fresh (accepted : list Z) (q : Z) : bool :=
  forallb (λ h, h - q <? REPLAY_WINDOW_BITS) accepted && negb (bool_decide (q ∈ accepted)).

(** The window stands for the list of accepted sequences. *)
Definition window_repr (accepted : list Z) (w : ReplayWindow) : Prop :=
  match rw_highest w with
  | None => accepted = []
  | Some h =>
    h ∈ accepted ∧ Forall (λ x, 0 ≤ x ≤ h) accepted
    ∧ ∀ d, 0 ≤ d < 64 → Z.testbit (rw_bitmap w) d = bool_decide (h - d ∈ accepted)
  end.

Lemma shl_u64_testbit x n d :
  0 ≤ n → 0 ≤ d < 64 → Z.testbit (shl_u64 x n) d = (n <=? d) && Z.testbit x (d - n).
Proof.
  intros Hn Hd. unfold shl_u64. change u64_max with (Z.ones 64).
  rewrite Z.land_spec, Z.ones_spec_low, andb_true_r, Z.shiftl_spec by lia.
  destruct (Z.leb_spec n d); simpl; [done|]. apply Z.testbit_neg_r. lia.
Qed.

Lemma testbit_1 d : 0 ≤ d → Z.testbit 1 d = (d =? 0).
Proof. intros Hd. change 1 with (2 ^ 0). rewrite Z.pow2_bits_eqb by lia. by rewrite Z.eqb_sym. Qed.

Lemma shl_u64_1 n : 0 ≤ n < 64 → shl_u64 1 n = 2 ^ n.
Proof.
  intros Hn. unfold shl_u64. rewrite Z.shiftl_1_l. change u64_max with (Z.ones 64).
  rewrite Z.land_ones by lia. apply Z.mod_small.
  split; [by apply Z.pow_nonneg|]. apply Z.pow_lt_mono_r; lia.
Qed.

Lemma land_pow2_eqb b n : 0 ≤ n → (Z.land b (2 ^ n) =? 0) = negb (Z.testbit b n).
Proof.
  intros Hn. destruct (Z.eqb_spec (Z.land b (2 ^ n)) 0) as [He|He].
  - apply (f_equal (λ x, Z.testbit x n)) in He.
    rewrite Z.land_spec, Z.pow2_bits_true, andb_true_r, Z.bits_0 in He by lia. by rewrite He.
  - destruct (Z.testbit b n) eqn:Hb; [done|]. exfalso. apply He. apply Z.bits_inj. intros m.
    rewrite Z.land_spec, Z.pow2_bits_eqb, Z.bits_0 by lia.
    destruct (Z.eqb_spec n m) as [->|]; [by rewrite Hb|by rewrite andb_false_r].
Qed.

(** The bitmap after a sequence within the window, and after one ahead of it. *)
Lemma bitmap_set b n d :
  0 ≤ n < 64 → 0 ≤ d < 64 →
  Z.testbit (Z.lor b (shl_u64 1 n)) d = Z.testbit b d || (d =? n).
Proof.
  intros Hn Hd. rewrite Z.lor_spec, shl_u64_1, Z.pow2_bits_eqb by lia. by rewrite (Z.eqb_sym n d).
Qed.
Lemma bitmap_shift b n d :
  0 < n → 0 ≤ d < 64 →
  Z.testbit (Z.lor (shl_u64 b n) 1) d = (d =? 0) || ((n <=? d) && Z.testbit b (d - n)).
Proof.
  intros Hn Hd. rewrite Z.lor_spec, shl_u64_testbit, testbit_1 by lia. apply orb_comm.
Qed.

Lemma fresh_le accepted h q :
  h ∈ accepted → Forall (λ x, 0 ≤ x ≤ h) accepted →
  fresh accepted q = (h - q <? 64) && negb (bool_decide (q ∈ accepted)).
Proof.
  intros Hh Hle. unfold fresh. f_equal. unfold REPLAY_WINDOW_BITS.
  rewrite Forall_forall in Hle.
  apply Bool.eq_iff_eq_true. rewrite forallb_forall, Z.ltb_lt. split.
  - intros Hf. apply list_elem_of_In in Hh. specialize (Hf h Hh). lia.
  - intros Hd x Hx%list_elem_of_In. specialize (Hle x Hx). lia.
Qed.

Lemma window_accept_ahead accepted h b q :
  window_repr accepted {| rw_highest := Some h; rw_bitmap := b |} → h < q →
  fresh accepted q = true
  ∧ window_repr (q :: accepted)
      {| rw_highest := Some q;
         rw_bitmap := if REPLAY_WINDOW_BITS <=? q - h then 1 else Z.lor (shl_u64 b (q - h)) 1 |}.
Proof.
  intros (Hh&Hle&Hb) Hq. 
  assert (∀ x, x ∈ accepted → 0 ≤ x ≤ h) as Hle' by (by apply Forall_forall).
  assert (∀ d, d < q - h → q - d ∉ accepted) as Hno by (intros d Hd Hin; specialize (Hle' _ Hin); lia).
  split.
  - assert (q ∉ accepted) by (intros Hin; specialize (Hle' _ Hin); lia).
    rewrite (fresh_le _ h), bool_decide_eq_false_2 by done. simpl.
    rewrite andb_true_r. apply Z.ltb_lt. lia.
  - simpl. split; [left|]. simpl in *. split.
    + constructor; [specialize (Hle' h Hh); lia|]. eapply Forall_impl; [exact Hle|]. simpl; lia.
    + intros d Hd. unfold REPLAY_WINDOW_BITS.
      assert (bool_decide (q - d ∈ q :: accepted) = (d =? 0) || bool_decide (q - d ∈ accepted)) as ->.
      { apply Bool.eq_iff_eq_true. rewrite orb_true_iff, !bool_decide_eq_true, elem_of_cons, Z.eqb_eq.
        split; intros [|]; auto; left; lia. }
      destruct (Z.leb_spec 64 (q - h)).
      * rewrite testbit_1 by lia. rewrite (bool_decide_eq_false_2 (q - d ∈ accepted)); [by rewrite orb_false_r|].
        apply Hno. lia.
      * rewrite bitmap_shift by lia. f_equal. destruct (Z.leb_spec (q - h) d); simpl.
        -- rewrite Hb by lia. by replace (h - (d - (q - h))) with (q - d) by lia.
        -- symmetry. apply bool_decide_eq_false_2, Hno. lia.
Qed.

Lemma window_accept_behind accepted h b q :
  window_repr accepted {| rw_highest := Some h; rw_bitmap := b |} → 0 ≤ q ≤ h →
  fresh accepted q = negb ((64 <=? h - q) || negb (Z.land b (shl_u64 1 (h - q)) =? 0))
  ∧ (fresh accepted q = true →
     window_repr (q :: accepted)
       {| rw_highest := Some h; rw_bitmap := Z.lor b (shl_u64 1 (h - q)) |}).
Proof.
  intros (Hh&Hle&Hb) Hq. simpl in *. rewrite (fresh_le _ h) by done. split.
  - destruct (Z.leb_spec 64 (h - q)), (Z.ltb_spec (h - q) 64); simpl; try lia.
    rewrite shl_u64_1, land_pow2_eqb, negb_involutive, Hb by lia. by replace (h - (h - q)) with q by lia.
  - rewrite andb_true_iff, Z.ltb_lt. intros [Hd Hn].
    split; [by right|]. split; [constructor; [lia|done]|]. intros d Hd'. cbn [rw_bitmap].
    rewrite bitmap_set, Hb by lia. apply Bool.eq_iff_eq_true.
    rewrite orb_true_iff, !bool_decide_eq_true, elem_of_cons, Z.eqb_eq.
    split; (intros [?|?]; [first [by right|right; lia]|first [left; lia|by left]]).
Qed.

(** One step of the window is one step of the reference. *)
Lemma window_accept accepted w q :
  window_repr accepted w → in_u 64 q →
  match replay_window_accept w q with
  | Ok w' => fresh accepted q = true ∧ window_repr (q :: accepted) w'
  | Err e => e = Replay ∧ fresh accepted q = false
  | Panic => False
  end.
Proof.
  intros Hw [Hq _]. unfold replay_window_accept. destruct w as [[h|] b]; simpl.
  - destruct (Z.ltb_spec h q).
    + by apply (window_accept_ahead _ h b).
    + pose proof (window_accept_behind accepted h b q Hw ltac:(lia)) as [Hf Hr].
      unfold REPLAY_WINDOW_BITS. rewrite Hf in Hr |- *.
      destruct (_ || _) eqn:Hc; simpl in *; [done|]. split; [done|]. by apply Hr.
  - unfold window_repr in Hw; simpl in Hw. subst. split; [done|].
    split; [left|]. simpl. split; [by repeat constructor|]. intros d Hd. rewrite testbit_1 by lia.
    apply Bool.eq_iff_eq_true. rewrite bool_decide_eq_true, list_elem_of_singleton, Z.eqb_eq. lia.
Qed.

(** * Runs of a channel *)

(** A frame but for its redundant length. *)
Definition frame_core (f : PeerRelayFrame) : list byte * Z * Z * Z * list byte :=
  (prf_session_id f, prf_channel_id f, prf_sequence f, prf_flags f, prf_ciphertext f).

Section runs.
Context `{P : Primitives}.

(** The frames a sealer makes of its messages (plaintext and flags), each with its plaintext;
    a refused message leaves the sealer as it was. *)
Fixpoint seal_all (s : PeerFrameSealer) (msgs : list (list byte * Z))
    : list (PeerRelayFrame * list byte) :=
  match msgs with
  | [] => []
  | (p, fl) :: msgs =>
    match seal_frame s p fl with
    | Ok (f, s') => (f, p) :: seal_all s' msgs
    | _ => seal_all s msgs
    end
  end.

(** The plaintexts an opener accepts; a refused frame leaves the opener as it was. *)
Fixpoint open_all (o : PeerFrameOpener) (fs : list PeerRelayFrame) : list (list byte) :=
  match fs with
  | [] => []
  | f :: fs =>
    match open_frame o f with
    | Ok (p, o') => p :: open_all o' fs
    | _ => open_all o fs
    end
  end.

(** Integrity of the ciphertexts under the opener's key: what decrypts was made by the
    sealer, with the same nonce and associated data. *)
Definition unforged (o : PeerFrameOpener) (genuine : list (PeerRelayFrame * list byte))
    (f : PeerRelayFrame) : Prop :=
  let nonce f := frame_nonce (fo_nonce_prefix o) (prf_sequence f) in
  let aad f := frame_aad (fo_context_hash o) (prf_session_id f) (prf_channel_id f)
                 (prf_flags f) (prf_sequence f) in
  ∀ m, aead_decrypt (fo_key o) (nonce f) (aad f) (prf_ciphertext f) = Some m →
    ∃ g p, (g, p) ∈ genuine ∧ nonce f = nonce g ∧ aad f = aad g
           ∧ prf_ciphertext f = prf_ciphertext g.
End runs.

(** What an ordered channel should deliver: each frame that is the next one sealed. *)
Fixpoint deliver_stream (sealed : list (PeerRelayFrame * list byte)) (fs : list PeerRelayFrame)
    : list (list byte) :=
  match fs, sealed with
  | f :: fs, (g, p) :: rest =>
    if bool_decide (frame_core f = frame_core g) then p :: deliver_stream rest fs
    else deliver_stream sealed fs
  | _, _ => []
  end.

(** The plaintext of a frame that was sealed. *)
Fixpoint genuine_text (sealed : list (PeerRelayFrame * list byte)) (f : PeerRelayFrame)
    : option (list byte) :=
  match sealed with
  | [] => None
  | (g, p) :: sealed =>
    if bool_decide (frame_core f = frame_core g) then Some p else genuine_text sealed f
  end.

(** What a datagram channel should deliver: each genuine frame that is fresh among those
    already delivered. *)
Fixpoint deliver_datagrams (sealed : list (PeerRelayFrame * list byte)) (accepted : list Z)
    (fs : list PeerRelayFrame) : list (list byte) :=
  match fs with
  | [] => []
  | f :: fs =>
    match genuine_text sealed f with
    | Some p =>
      if fresh accepted (prf_sequence f)
      then p :: deliver_datagrams sealed (prf_sequence f :: accepted) fs
      else deliver_datagrams sealed accepted fs
    | None => deliver_datagrams sealed accepted fs
    end
  end.

Lemma deliver_stream_prefix sealed fs : deliver_stream sealed fs `prefix_of` sealed.*2.
Proof.
  revert sealed; induction fs as [|f fs IH]; intros [|[g p] rest]; simpl; try apply prefix_nil.
  case_bool_decide; [by apply prefix_cons|]. apply (IH ((g, p) :: rest)).
Qed.
Lemma deliver_stream_all sealed : deliver_stream sealed sealed.*1 = sealed.*2.
Proof.
  induction sealed as [|[g p] rest IH]; simpl; [done|]. rewrite bool_decide_eq_true_2 by done. f_equal. exact IH.
Qed.

Section channel.
Context `{P : Primitives} `{!PrimitivesLaws P}.
Context (sid : list byte) (ch : Z) (ctx key : list byte) (mode : FrameMode) (pre : list byte).

Definition sealer (n : Z) (ex fin : bool) : PeerFrameSealer :=
  {| fs_session_id := sid; fs_channel_id := ch; fs_context_hash := ctx; fs_key := key;
     fs_mode := mode; fs_nonce_prefix := pre; fs_next_sequence := n; fs_exhausted := ex;
     fs_finished := fin |}.
Definition opener (st : ReceiveState) (fin : bool) : PeerFrameOpener :=
  {| fo_session_id := sid; fo_channel_id := ch; fo_context_hash := ctx; fo_key := key;
     fo_mode := mode; fo_nonce_prefix := pre; fo_state := st; fo_finished := fin |}.

(** The sequence counter after one more frame: the next number, or exhaustion at the last. *)
Definition counter (n : Z) : Z * bool := if n =? u64_max then (n, true) else (n + 1, false).

Lemma advance_counter n fin fl :
  in_u 64 n →
  sealer_advance (sealer n false fin) fl
  = sealer (counter n).1 (counter n).2 (fin || has_fin fl).
Proof.
  intros Hn. unfold sealer_advance, counter, checked_add, in_u, u64_max in *. simpl.
  destruct (Z.leb_spec (n + 1) 18446744073709551615), (Z.eqb_spec n 18446744073709551615);
    try lia; done.
Qed.

(** The frame a sealer makes at sequence [n]. *)
Definition made_at (n : Z) (f : PeerRelayFrame) (p : list byte) : Prop :=
  validate_frame_flags mode (prf_flags f) = Ok tt
  ∧ in_u 64 n ∧ prf_session_id f = sid ∧ prf_channel_id f = ch ∧ prf_sequence f = n
  ∧ aead_encrypt key (frame_nonce pre n) (frame_aad ctx sid ch (prf_flags f) n) p
    = Some (prf_ciphertext f).

Lemma validate_Ok (m : FrameMode) fl (u : unit) :
  validate_frame_flags m fl = Ok u → validate_frame_flags m fl = Ok tt.
Proof. by destruct u. Qed.

Lemma frame_flags_range m fl : validate_frame_flags m fl = Ok tt → 0 ≤ fl < 256.
Proof.
  unfold validate_frame_flags. change (Z.lor PeerRelayFlags.RELIABLE PeerRelayFlags.FIN) with 5.
  unfold PeerRelayFlags.RELIABLE, PeerRelayFlags.DATAGRAM.
  destruct m; [destruct (Z.eqb_spec fl 1), (Z.eqb_spec fl 5)|destruct (Z.eqb_spec fl 2)];
    simpl; try done; lia.
Qed.

Lemma flag_transition_Ok fin u :
  validate_flag_transition mode fin = Ok u ↔ (mode = Ordered → fin = false).
Proof.
  unfold validate_flag_transition. destruct u. case_bool_decide; destruct fin; simpl; naive_solver.
Qed.

Lemma seal_inv n ex fin p fl f s' :
  in_u 64 n → seal_frame (sealer n ex fin) p fl = Ok (f, s') →
  ex = false ∧ (mode = Ordered → fin = false) ∧ made_at n f p ∧ prf_flags f = fl
  ∧ s' = sealer (counter n).1 (counter n).2 (fin || has_fin fl).
Proof.
  intros Hn. unfold seal_frame. case_match; [done|].
  intros (u&Hfl&Hs)%res_bind_Ok. apply res_bind_Ok in Hs as (u'&Htr&Hs).
  simpl in Htr, Hs. rewrite flag_transition_Ok in Htr. destruct ex; [done|].
  apply res_bind_Ok in Hs as (c&Hc%ok_or_Ok&Hs). apply res_bind_Ok in Hs as (f'&Hf%map_err_Ok&Hs).
  injection Hs as -> <-.
  unfold PeerRelayFrame_new in Hf. destruct (ch =? 0); [done|].
  apply res_bind_Ok in Hf as (len&_&(c'&Hc'%map_err_Ok%bounded_try_from_Ok&Hf)%res_bind_Ok).
  injection Hf as <-. destruct Hc' as [-> _].
  split; [done|]. split; [done|]. split; [split_and!; try done; by eapply validate_Ok|]. split; [done|].
  by apply advance_counter.
Qed.

Lemma open_inv st fin f m o' :
  open_frame (opener st fin) f = Ok (m, o') ↔
  prf_session_id f = sid ∧ prf_channel_id f = ch
  ∧ validate_frame_flags mode (prf_flags f) = Ok tt ∧ (mode = Ordered → fin = false)
  ∧ aead_decrypt key (frame_nonce pre (prf_sequence f))
      (frame_aad ctx sid ch (prf_flags f) (prf_sequence f)) (prf_ciphertext f) = Some m
  ∧ ∃ st', receive_sequence st (prf_sequence f) = Ok st'
           ∧ o' = opener st' (fin || has_fin (prf_flags f)).
Proof.
  unfold open_frame. simpl. case_bool_decide as Hs; simpl; [|naive_solver].
  destruct (Z.eqb_spec (prf_channel_id f) ch) as [Hch|]; simpl; [|naive_solver].
  rewrite Hs, Hch. rewrite res_bind_Ok. setoid_rewrite res_bind_Ok. setoid_rewrite res_bind_Ok.
  setoid_rewrite res_bind_Ok. setoid_rewrite ok_or_Ok. setoid_rewrite flag_transition_Ok. split.
  - intros ([]&Hfl&st'&Hst&[]&Htr&m'&Hm&[= -> <-]). naive_solver.
  - intros (_&_&Hfl&Htr&Hm&st'&Hst&->). exists tt. split; [done|]. exists st'. split; [done|].
    exists tt. split; [done|]. by exists m.
Qed.

(** ** Ordered channels *)

Lemma counter_range n : in_u 64 n → in_u 64 (counter n).1.
Proof. unfold counter, in_u, u64_max. case_match; simpl; lia. Qed.

(** The sealed frames of a sealer: none when it refuses every message, else one made at its
    sequence, followed by those of a sealer one step further. *)
Lemma seal_all_inv n ex fin msgs :
  in_u 64 n →
  seal_all (sealer n ex fin) msgs = []
  ∨ ∃ g p msgs', ex = false ∧ (mode = Ordered → fin = false) ∧ made_at n g p
    ∧ seal_all (sealer n ex fin) msgs
      = (g, p) :: seal_all (sealer (counter n).1 (counter n).2 (fin || has_fin (prf_flags g))) msgs'.
Proof.
  intros Hn. induction msgs as [|[p fl] msgs IH]; simpl; [by left|].
  destruct (seal_frame _ p fl) as [[g s']| |] eqn:Hs; [|done|done].
  apply seal_inv in Hs as (->&Hfin&Hg&<-&->); [|done]. right. by exists g, p, msgs.
Qed.

Lemma seal_all_exhausted n fin msgs : in_u 64 n → seal_all (sealer n true fin) msgs = [].
Proof. intros Hn. destruct (seal_all_inv n true fin msgs Hn) as [|(?&?&?&?&_)]; done. Qed.

(** Every sealed frame is made at its own sequence, at or after the sealer's. *)
Lemma seal_all_made msgs n ex fin g p :
  in_u 64 n → (g, p) ∈ seal_all (sealer n ex fin) msgs → n ≤ prf_sequence g ∧ made_at (prf_sequence g) g p.
Proof.
  revert n ex fin; induction msgs as [|[q fl] msgs IH]; intros n ex fin Hn; simpl; [by intros ?%elem_of_nil|].
  destruct (seal_frame _ q fl) as [[f s']| |] eqn:Hs; [|by apply IH|by apply IH].
  apply seal_inv in Hs as (->&Hfin&Hg&<-&->); [|done].
  pose proof Hg as (_&_&_&_&Hq&_). intros [[= -> ->]|Hin]%elem_of_cons; [by rewrite Hq; split|].
  pose proof (counter_range n Hn). apply IH in Hin as [Hle Hm]; [|done]. split; [|done].
  unfold counter in Hle. case_match; simpl in Hle; lia.
Qed.

(** What is sealed after the frame at [n] comes after it. *)
Lemma seal_all_next n msgs fin g p :
  in_u 64 n → (g, p) ∈ seal_all (sealer (counter n).1 (counter n).2 fin) msgs → n < prf_sequence g.
Proof.
  intros Hn Hin. pose proof (counter_range n Hn) as Hr. unfold counter in *.
  destruct (Z.eqb_spec n u64_max); simpl in *.
  - by rewrite seal_all_exhausted in Hin by done; apply elem_of_nil in Hin.
  - apply seal_all_made in Hin as [? _]; [lia|done].
Qed.

Lemma receive_ordered n ex q st :
  in_u 64 n →
  receive_sequence (ROrdered n ex) q = Ok st ↔
  ex = false ∧ q = n ∧ st = ROrdered (counter n).1 (counter n).2.
Proof.
  intros Hn. unfold receive_sequence, checked_add, counter, in_u, u64_max in *.
  destruct ex; [case_match; naive_solver|].
  destruct (Z.ltb_spec q n); [naive_solver lia|]. destruct (Z.ltb_spec n q); [naive_solver lia|].
  assert (q = n) as -> by lia.
  destruct (Z.leb_spec (n + 1) 18446744073709551615), (Z.eqb_spec n 18446744073709551615);
    simpl; try lia; naive_solver.
Qed.

(** What decrypts under the channel's key is one of the sealed frames, and decrypts to its
    plaintext. *)
Lemma unforged_core L f st fin m :
  in_u 64 ch → in_u 64 (prf_sequence f) →
  (∀ g p, (g, p) ∈ L → made_at (prf_sequence g) g p) →
  unforged (opener st fin) L f → prf_session_id f = sid → prf_channel_id f = ch →
  validate_frame_flags mode (prf_flags f) = Ok tt →
  aead_decrypt key (frame_nonce pre (prf_sequence f))
    (frame_aad ctx sid ch (prf_flags f) (prf_sequence f)) (prf_ciphertext f) = Some m →
  ∃ g, (g, m) ∈ L ∧ frame_core f = frame_core g.
Proof.
  intros Hch Hq HL Hu Hs Hc Hfl Hd. unfold unforged in Hu; simpl in Hu. rewrite Hs, Hc in Hu.
  destruct (Hu m Hd) as (g&p&Hin&_&Haad&Hct).
  destruct (HL g p Hin) as (Hgfl&Hgq&Hgs&Hgc&_&He). rewrite Hgs, Hgc in Haad.
  apply frame_aad_inj in Haad as (_&Hflags&Hseq); [|done..].
  assert (prf_flags f = prf_flags g) as Hff.
  { apply frame_flags_range in Hfl, Hgfl. apply (f_equal byte_val) in Hflags.
    by rewrite !byte_val_of_small in Hflags by lia. }
  exists g. split.
  - apply aead_decrypt_encrypt in He. rewrite <- Hff, <- Hseq, <- Hct, Hd in He. by injection He as ->.
  - unfold frame_core. by rewrite Hs, Hc, Hgs, Hgc, Hff, Hseq, Hct.
Qed.

(** A genuine frame decrypts to its plaintext. *)
Lemma made_decrypts n g p f :
  made_at n g p → frame_core f = frame_core g →
  prf_session_id f = sid ∧ prf_channel_id f = ch ∧ prf_sequence f = n
  ∧ prf_flags f = prf_flags g ∧ validate_frame_flags mode (prf_flags f) = Ok tt
  ∧ aead_decrypt key (frame_nonce pre (prf_sequence f))
      (frame_aad ctx sid ch (prf_flags f) (prf_sequence f)) (prf_ciphertext f) = Some p.
Proof.
  intros (Hfl&_&Hs&Hc&Hq&He%aead_decrypt_encrypt) [= -> -> -> -> ->].
  by rewrite Hs, Hc, Hq.
Qed.

(** An ordered opener that keeps step with the sealer accepts exactly the next sealed frame. *)
Lemma open_stream_step n ex fin L msgs f :
  mode = Ordered → in_u 64 ch → in_u 64 n → in_u 64 (prf_sequence f) →
  (∀ g p, (g, p) ∈ L → made_at (prf_sequence g) g p) →
  (∀ g p, (g, p) ∈ L → ex = false → n ≤ prf_sequence g →
     (g, p) ∈ seal_all (sealer n ex fin) msgs) →
  unforged (opener (ROrdered 0 false) false) L f →
  ∀ m o', open_frame (opener (ROrdered n ex) fin) f = Ok (m, o') ↔
  ∃ g rest, seal_all (sealer n ex fin) msgs = (g, m) :: rest ∧ frame_core f = frame_core g
    ∧ o' = opener (ROrdered (counter n).1 (counter n).2) (fin || has_fin (prf_flags g)).
Proof.
  intros Hm Hch Hn Hq HL Hrem Hu m o'. rewrite open_inv. setoid_rewrite receive_ordered; [|done]. split.
  - intros (Hs&Hc&Hfl&Hfin&Hd&st&(->&Hqn&->)&->).
    destruct (unforged_core L f (ROrdered 0 false) false m) as (g&Hin&Hcore); try done.
    assert (prf_sequence g = prf_sequence f) as Hgq by by injection Hcore.
    specialize (Hrem g m Hin eq_refl ltac:(lia)).
    destruct (seal_all_inv n false fin msgs Hn) as [He|(h&p&msgs'&_&_&Hh&He)]; rewrite He in Hrem |- *;
      [by apply elem_of_nil in Hrem|].
    apply elem_of_cons in Hrem as [[= <- <-]|Hin'].
    + exists g, (seal_all (sealer (counter n).1 (counter n).2 (fin || has_fin (prf_flags g))) msgs').
      split; [done|]. split; [done|]. by injection Hcore as _ _ _ -> _.
    + apply seal_all_next in Hin'; [lia|done].
  - intros (g&rest&He&Hcore&->).
    destruct (seal_all_inv n ex fin msgs Hn) as [Hx|(h&p&msgs'&->&Hfin&Hh&Hx)]; rewrite Hx in He; [done|].
    injection He as -> -> _. destruct (made_decrypts n g m f Hh Hcore) as (?&?&?&->&?&?).
    split_and!; try done. by exists (ROrdered (counter n).1 (counter n).2).
Qed.

Lemma open_stream fs : ∀ n ex fin L msgs,
  mode = Ordered → in_u 64 ch → in_u 64 n → Forall (λ f, in_u 64 (prf_sequence f)) fs →
  (∀ g p, (g, p) ∈ L → made_at (prf_sequence g) g p) →
  (∀ g p, (g, p) ∈ L → ex = false → n ≤ prf_sequence g →
     (g, p) ∈ seal_all (sealer n ex fin) msgs) →
  Forall (unforged (opener (ROrdered 0 false) false) L) fs →
  open_all (opener (ROrdered n ex) fin) fs = deliver_stream (seal_all (sealer n ex fin) msgs) fs.
Proof.
  induction fs as [|f fs IH]; intros n ex fin L msgs Hm Hch Hn; [by intros|].
  intros [Hq Hqs]%Forall_cons HL Hrem [Hu Hus]%Forall_cons.
  pose proof (open_stream_step n ex fin L msgs f Hm Hch Hn Hq HL Hrem Hu) as Hstep.
  simpl. destruct (open_frame _ f) as [[m o']| |] eqn:Ho.
  { destruct (proj1 (Hstep m o') eq_refl) as (g&rest&He&Hcore&->).
    rewrite He. rewrite bool_decide_eq_true_2 by done. f_equal.
    destruct (seal_all_inv n ex fin msgs Hn) as [Hx|(h&p&msgs'&->&Hfin&Hh&Hx)]; rewrite Hx in He; [done|].
    injection He as -> -> <-. apply (IH _ _ _ L); try done; [by apply counter_range|].
    intros g' p' Hin Hex Hle. unfold counter in Hex, Hle. destruct (Z.eqb_spec n u64_max); [done|].
    simpl in Hle. specialize (Hrem g' p' Hin eq_refl ltac:(lia)). rewrite Hx in Hrem.
    apply elem_of_cons in Hrem as [[= -> ->]|?]; [|done].
    destruct Hh as (_&_&_&_&Hh&_). lia. }
  all: rewrite (IH n ex fin L msgs) by done.
  all: destruct (seal_all (sealer n ex fin) msgs) as [|[g p] rest] eqn:He; [by destruct fs|].
  all: case_bool_decide as Hcore; [|done].
  all: specialize (Hstep p (opener (ROrdered (counter n).1 (counter n).2) (fin || has_fin (prf_flags g)))).
  all: destruct Hstep as [_ Hstep]; discriminate Hstep; by exists g, rest.
Qed.

(** ** Datagram channels *)

Lemma genuine_text_Some L f p :
  genuine_text L f = Some p → ∃ g, (g, p) ∈ L ∧ frame_core f = frame_core g.
Proof.
  induction L as [|[g q] L IH]; simpl; [done|]. case_bool_decide.
  - intros [= ->]. exists g. split; [left|done].
  - intros (g'&?&?)%IH. exists g'. split; [by right|done].
Qed.
Lemma genuine_text_None L f g p :
  genuine_text L f = None → (g, p) ∈ L → frame_core f ≠ frame_core g.
Proof.
  induction L as [|[h q] L IH]; simpl; [by intros _ ?%elem_of_nil|]. case_bool_decide; [done|].
  intros Hn [[= -> ->]|Hin]%elem_of_cons; [done|by apply IH].
Qed.

Lemma open_datagrams L fs : ∀ accepted w fin,
  mode = Datagram → in_u 64 ch → Forall (λ f, in_u 64 (prf_sequence f)) fs →
  (∀ g p, (g, p) ∈ L → made_at (prf_sequence g) g p) →
  Forall (unforged (opener (RDatagram w) fin) L) fs → window_repr accepted w →
  open_all (opener (RDatagram w) fin) fs = deliver_datagrams L accepted fs.
Proof.
  induction fs as [|f fs IH]; intros accepted w fin Hm Hch; [by intros|].
  intros [Hq Hqs]%Forall_cons HL [Hu Hus]%Forall_cons Hw.
  pose proof (open_inv (RDatagram w) fin f) as Hinv. simpl.
  pose proof (window_accept accepted w (prf_sequence f) Hw Hq) as Hacc.
  destruct (genuine_text L f) as [p|] eqn:Hg.
  - apply genuine_text_Some in Hg as (g&Hin&Hcore).
    destruct (made_decrypts _ g p f (HL g p Hin) Hcore) as (?&?&_&_&?&?).
    destruct (replay_window_accept w (prf_sequence f)) as [w'|e|] eqn:Ha; [| |done].
    + destruct Hacc as [-> Hw'].
      rewrite (proj2 (Hinv p (opener (RDatagram w') (fin || has_fin (prf_flags f))))).
      2:{ split_and!; try done; [by rewrite Hm|]. exists (RDatagram w'). simpl. by rewrite Ha. }
      f_equal. by apply IH.
    + destruct Hacc as [_ ->]. destruct (open_frame _ f) as [[m o']| |] eqn:Ho; [|by apply IH..].
      destruct (proj1 (Hinv m o') eq_refl) as (_&_&_&_&_&st&Hst&_). simpl in Hst. by rewrite Ha in Hst.
  - destruct (open_frame _ f) as [[m o']| |] eqn:Ho; [|by apply IH..].
    destruct (proj1 (Hinv m o') eq_refl) as (Hs&Hc&Hfl&_&Hd&_).
    destruct (unforged_core L f (RDatagram w) fin m) as (g&Hin&Hcore); try done.
    by apply (genuine_text_None L f g m) in Hin.
Qed.

(** ** Channels without an adversary *)

(** The receive state that accepts the next frame of a sealer. *)
Definition ready (st : ReceiveState) (n : Z) (ex : bool) : Prop :=
  ex = true
  ∨ match mode with
    | Ordered => st = ROrdered n false
    | Datagram => ∃ w, st = RDatagram w ∧ ∀ h, rw_highest w = Some h → h < n
    end.

Lemma ready_receive st n :
  in_u 64 n → ready st n false →
  ∃ st', receive_sequence st n = Ok st' ∧ ready st' (counter n).1 (counter n).2.
Proof.
  intros Hn [|Hr]; [done|]. unfold ready. destruct mode eqn:Hm.
  - subst st. exists (ROrdered (counter n).1 (counter n).2).
    split; [by apply receive_ordered|]. destruct (counter n) as [n' []]; [by left|by right].
  - destruct Hr as (w&->&Hw). simpl. unfold replay_window_accept.
    assert (∀ b, (counter n).2 = true ∨ ∃ w', RDatagram {| rw_highest := Some n; rw_bitmap := b |} = RDatagram w'
                   ∧ ∀ h, rw_highest w' = Some h → h < (counter n).1) as Hnext.
    { intros b. unfold counter. case_match; [by left|]. right. eexists. split; [done|].
      simpl. intros h [= <-]. lia. }
    destruct (rw_highest w) as [h|]; [|by eexists].
    rewrite (proj2 (Z.ltb_lt h n)) by by apply Hw. by eexists.
Qed.

Lemma roundtrip_run msgs : ∀ st n ex fin,
  in_u 64 n → ready st n ex →
  open_all (opener st fin) (seal_all (sealer n ex fin) msgs).*1 = (seal_all (sealer n ex fin) msgs).*2.
Proof.
  induction msgs as [|[p fl] msgs IH]; intros st n ex fin Hn Hr; simpl; [done|].
  destruct (seal_frame _ p fl) as [[g s']| |] eqn:Hs; [|by apply IH..].
  apply seal_inv in Hs as (->&Hfin&Hg&<-&->); [|done].
  destruct (ready_receive st n Hn Hr) as (st'&Hst&Hr').
  destruct (made_decrypts n g p g Hg eq_refl) as (?&?&Hq&_&?&?). simpl.
  rewrite (proj2 (open_inv st fin g p (opener st' (fin || has_fin (prf_flags g))))).
  2:{ split_and!; try done. exists st'. by rewrite Hq. }
  f_equal. apply IH; [by apply counter_range|done].
Qed.

(** The flag of a frame that does not end its channel. *)
Definition plain_flag : Z :=
  match mode with Ordered => PeerRelayFlags.RELIABLE | Datagram => PeerRelayFlags.DATAGRAM end.

Lemma seal_plain n p :
  ch ≠ 0 → blen p ≤ MAX_PEER_RELAY_CIPHERTEXT_BYTES - 16 →
  ∃ g, seal_frame (sealer n false false) p plain_flag
       = Ok (g, sealer_advance (sealer n false false) plain_flag).
Proof.
  intros Hch Hp. unfold seal_frame. change (saturating_sub _ _) with (MAX_PEER_RELAY_CIPHERTEXT_BYTES - 16).
  rewrite (proj2 (Z.ltb_ge _ _)) by done.
  assert (validate_frame_flags mode plain_flag = Ok tt) as Hfl
    by (unfold validate_frame_flags, plain_flag; by destruct mode).
  simpl. rewrite Hfl, (proj2 (flag_transition_Ok false tt)) by done. simpl.
  destruct (aead_encrypt_ok key (frame_nonce pre n) (frame_aad ctx sid ch plain_flag n) p) as (c&Hc&Hlen).
  { unfold MAX_PEER_RELAY_CIPHERTEXT_BYTES in *. lia. }
  rewrite Hc. simpl. unfold PeerRelayFrame_new. rewrite (proj2 (Z.eqb_neq ch 0)) by done.
  unfold MAX_PEER_RELAY_CIPHERTEXT_BYTES, u32_max in *.
  rewrite (proj2 (Z.ltb_ge _ _)) by lia. cbn [mbind res_bind].
  rewrite (proj2 (bounded_try_from_Ok 65536 c c)) by (split; [done|lia]). simpl. by eexists.
Qed.

(** Messages of admissible size are all sealed while the sequence numbers last. *)
Lemma seal_all_plain ps : ∀ n,
  ch ≠ 0 → 0 ≤ n → n + blen ps ≤ u64_max →
  Forall (λ p, blen p ≤ MAX_PEER_RELAY_CIPHERTEXT_BYTES - 16) ps →
  (seal_all (sealer n false false) ((λ p, (p, plain_flag)) <$> ps)).*2 = ps.
Proof.
  induction ps as [|p ps IH]; intros n Hch Hn Hle; [done|]. intros [Hp Hps]%Forall_cons.
  rewrite blen_cons in Hle. pose proof (blen_nonneg ps).
  simpl. destruct (seal_plain n p Hch Hp) as (g&->). simpl. f_equal.
  rewrite advance_counter by (unfold in_u, u64_max in *; lia).
  unfold counter. rewrite (proj2 (Z.eqb_neq n u64_max)) by lia.
  assert (has_fin plain_flag = false) as -> by (unfold has_fin, plain_flag; by destruct mode).
  simpl. apply IH; [done|lia|lia|done].
Qed.

(** Nothing is sealed after a frame that ends its channel. *)
Lemma seal_all_fin_last msgs n ex i g p :
  mode = Ordered → in_u 64 n →
  ∀ fin, seal_all (sealer n ex fin) msgs !! i = Some (g, p) → has_fin (prf_flags g) = true →
  S i = length (seal_all (sealer n ex fin) msgs).
Proof.
  intros Hm. revert n ex i; induction msgs as [|[q fl] msgs IH]; intros n ex i Hn fin; simpl; [done|].
  destruct (seal_frame _ q fl) as [[f s']| |] eqn:Hs; [|by apply IH..].
  apply seal_inv in Hs as (->&Hfin&Hg&<-&->); [|done]. pose proof (counter_range n Hn) as Hr.
  destruct i as [|i]; simpl.
  - intros [= -> ->] ->. rewrite orb_true_r.
    destruct (seal_all_inv (counter n).1 (counter n).2 true msgs Hr) as [->|(?&?&?&_&Hx&_)]; [done|].
    by discriminate Hx.
  - intros Hi Hf. f_equal. by apply IH.
Qed.

(** A sealed frame is one that [PeerRelayFrame::new] made. *)
Definition constructed (f : PeerRelayFrame) : Prop :=
  ∃ n fl c, in_u 64 n ∧ validate_frame_flags mode fl = Ok tt
    ∧ PeerRelayFrame_new sid ch n fl c = Ok f.

Lemma seal_constructed n ex fin p fl f s' :
  in_u 64 n → seal_frame (sealer n ex fin) p fl = Ok (f, s') → constructed f.
Proof.
  intros Hn. unfold seal_frame. case_match; [done|].
  intros (u&Hfl%validate_Ok&Hs)%res_bind_Ok. apply res_bind_Ok in Hs as (u'&_&Hs).
  case_match; [done|]. apply res_bind_Ok in Hs as (c&_&Hs).
  apply res_bind_Ok in Hs as (f'&Hf%map_err_Ok&Hs). injection Hs as -> _. by exists n, fl, c.
Qed.

Lemma seal_all_constructed msgs : ∀ n ex fin,
  in_u 64 n → Forall (λ x, constructed x.1) (seal_all (sealer n ex fin) msgs).
Proof.
  induction msgs as [|[p fl] msgs IH]; intros n ex fin Hn; simpl; [constructor|].
  destruct (seal_frame _ p fl) as [[g s']| |] eqn:Hs; [|by apply IH..].
  pose proof Hs as Hg%seal_constructed; [|done]. apply seal_inv in Hs as (->&_&_&<-&->); [|done].
  constructor; [done|]. apply IH. by apply counter_range.
Qed.
End channel.
