(* ===== verification/PeerSession.v ===== *)
(** Both ends of one peer session as a machine: sealers are issued and used in any order, and
    every use of the cipher is logged.  The invariant that keeps its nonces apart, and the
    agreement of the two key schedules. *)

From S2P Require Import Prelude.
From S2P Require Import Wire.
From S2P Require Import Messages.
From S2P Require Import MessageCodecs.
From S2P Require Import Frame.
From S2P Require Import RvMessages.
From S2P Require Import RvFacts.
From S2P Require Import Peer.
From S2P Require Import PeerCodecs.
From S2P Require Import PeerFacts.
From Stdlib Require Import Strings.Byte.
From stdpp Require Import prelude gmap list strings.

#[local] Open Scope Z_scope.
#[local] Arguments be_bytes : simpl never.
#[local] Arguments frame_nonce : simpl never.

(** * The machine *)

(** One encryption: who sealed, on which channel, under which key and nonce. *)
Record SealEvent := {
  se_role : PeerRole;
  se_mode : FrameMode;
  se_channel : Z;
  se_sequence : Z;
  se_key : list byte;
  se_nonce : list byte;
}.

Record Session := {
  ss_initiator : PeerSessionKeys;
  ss_responder : PeerSessionKeys;
  ss_sealers : list (PeerRole * PeerFrameSealer);
  ss_log : list SealEvent;
}.

Inductive SessionOp :=
| OIssue (role : PeerRole) (mode : FrameMode) (channel_id : Z)
| OSeal (index : nat) (plaintext : list byte) (flags : Z).

Definition keys_of (st : Session) (r : PeerRole) : PeerSessionKeys :=
  match r with Initiator => ss_initiator st | Responder => ss_responder st end.
Definition with_keys (st : Session) (r : PeerRole) (k : PeerSessionKeys) : Session :=
  match r with
  | Initiator => {| ss_initiator := k; ss_responder := ss_responder st;
                    ss_sealers := ss_sealers st; ss_log := ss_log st |}
  | Responder => {| ss_initiator := ss_initiator st; ss_responder := k;
                    ss_sealers := ss_sealers st; ss_log := ss_log st |}
  end.
Definition with_sealers (st : Session) (l : list (PeerRole * PeerFrameSealer)) (log : list SealEvent)
    : Session :=
  {| ss_initiator := ss_initiator st; ss_responder := ss_responder st; ss_sealers := l; ss_log := log |}.

Definition event_of (r : PeerRole) (s : PeerFrameSealer) : SealEvent :=
  {| se_role := r; se_mode := fs_mode s; se_channel := fs_channel_id s;
     se_sequence := fs_next_sequence s; se_key := fs_key s;
     se_nonce := frame_nonce (fs_nonce_prefix s) (fs_next_sequence s) |}.

Section machine.
Context `{P : Primitives}.

Definition outgoing_base (k : PeerSessionKeys) (mode : FrameMode) : list byte :=
  match mode with Ordered => outgoing_stream_key k | Datagram => outgoing_datagram_key k end.
Definition new_sealer (k : PeerSessionKeys) (mode : FrameMode) (channel_id : Z)
    : res PeerCryptoError PeerFrameSealer * PeerSessionKeys :=
  match mode with
  | Ordered => stream_sealer k channel_id
  | Datagram => datagram_sealer k channel_id
  end.

Definition session_step (st : Session) (op : SessionOp) : Session :=
  match op with
  | OIssue r mode ch =>
    let '(out, k) := new_sealer (keys_of st r) mode ch in
    let st := with_keys st r k in
    match out with
    | Ok s => with_sealers st (ss_sealers st ++ [(r, s)]) (ss_log st)
    | _ => st
    end
  | OSeal i p fl =>
    match ss_sealers st !! i with
    | Some (r, s) =>
      match seal_frame s p fl with
      | Ok (_, s') => with_sealers st (<[i := (r, s')]> (ss_sealers st)) (ss_log st ++ [event_of r s])
      | _ => st
      end
    | None => st
    end
  end.
Definition session_run (st : Session) (ops : list SessionOp) : Session := foldl session_step st ops.
Definition session_start (ki kr : PeerSessionKeys) : Session :=
  {| ss_initiator := ki; ss_responder := kr; ss_sealers := []; ss_log := [] |}.

(** * The invariant *)

Definition sealer_domain (x : PeerRole * PeerFrameSealer) : PeerRole * FrameDomain :=
  (x.1, (fs_mode x.2, fs_channel_id x.2)).
Definition event_domain (e : SealEvent) : PeerRole * FrameDomain :=
  (se_role e, (se_mode e, se_channel e)).

(** A sealer's key is the one derived for its domain from the role's outgoing key. *)
Definition key_for (k : PeerSessionKeys) (mode : FrameMode) (ch : Z) (key : list byte) : Prop :=
  derive_frame_key (outgoing_base k mode) (sk_context_hash k) (sk_session_id k) mode ch = Ok key.

(** A sealer has left a sequence behind. *)
Definition spent (s : PeerFrameSealer) (q : Z) : Prop :=
  q < fs_next_sequence s ∨ (q = fs_next_sequence s ∧ fs_exhausted s = true).

Record session_inv (k0 : PeerRole → PeerSessionKeys) (st : Session) : Prop := {
  inv_keys r : ∃ js jo, keys_of st r = with_issued_openers (with_issued_sealers (k0 r) js) jo;
  inv_sealers r s : (r, s) ∈ ss_sealers st →
    fs_nonce_prefix s = nonce_prefix (fs_mode s) r ∧ in_u 64 (fs_next_sequence s)
    ∧ key_for (k0 r) (fs_mode s) (fs_channel_id s) (fs_key s);
  inv_issued x : x ∈ ss_sealers st →
    (fs_mode x.2, fs_channel_id x.2) ∈ sk_issued_sealers (keys_of st x.1);
  inv_distinct : NoDup (sealer_domain <$> ss_sealers st);
  inv_events e : e ∈ ss_log st →
    event_domain e ∈ sealer_domain <$> ss_sealers st ∧ in_u 64 (se_sequence e)
    ∧ se_nonce e = frame_nonce (nonce_prefix (se_mode e) (se_role e)) (se_sequence e)
    ∧ key_for (k0 (se_role e)) (se_mode e) (se_channel e) (se_key e);
  inv_spent e x : e ∈ ss_log st → x ∈ ss_sealers st → event_domain e = sealer_domain x →
    spent x.2 (se_sequence e);
  inv_log : NoDup ((λ e, (event_domain e, se_sequence e)) <$> ss_log st);
}.

Lemma issue_domain_Ok issued mode ch d issued' :
  issue_domain issued mode ch = Ok (d, issued') →
  d = (mode, ch) ∧ ch ≠ 0 ∧ d ∉ issued ∧ issued' = {[ d ]} ∪ issued.
Proof.
  unfold issue_domain, validate_channel_id. destruct (Z.eqb_spec ch 0); simpl; [done|].
  case_bool_decide; [done|]. by intros [= <- <-].
Qed.

(** Issuing a sealer: the keys keep everything but the issued set; a sealer returned is new,
    at sequence 0, under the key of its domain. *)
Lemma new_sealer_spec k mode ch out k' :
  new_sealer k mode ch = (out, k') →
  (∃ issued, sk_issued_sealers k ⊆ issued ∧ k' = with_issued_sealers k issued)
  ∧ ∀ s, out = Ok s →
    (mode, ch) ∉ sk_issued_sealers k ∧ (mode, ch) ∈ sk_issued_sealers k'
    ∧ key_for k mode ch (fs_key s)
    ∧ s = sealer (sk_session_id k) ch (sk_context_hash k) (fs_key s) mode
            (nonce_prefix mode (sk_role k)) 0 false false.
Proof.
  assert (with_issued_sealers k (sk_issued_sealers k) = k) as Hsame by by destruct k.
  assert (∀ base, base = outgoing_base k mode →
    match issue_domain (sk_issued_sealers k) mode ch with
    | Err e => (Err e, k)
    | Panic => (Panic, k)
    | Ok (domain, issued) =>
      (key ← derive_frame_key base (sk_context_hash k) (sk_session_id k) domain.1 domain.2;
       sealer_new (sk_session_id k) domain.2 (sk_context_hash k) key domain.1
         (nonce_prefix mode (outgoing_direction k)),
       with_issued_sealers k issued)
    end = (out, k') →
    (∃ issued, sk_issued_sealers k ⊆ issued ∧ k' = with_issued_sealers k issued)
    ∧ ∀ s, out = Ok s →
      (mode, ch) ∉ sk_issued_sealers k ∧ (mode, ch) ∈ sk_issued_sealers k'
      ∧ key_for k mode ch (fs_key s)
      ∧ s = sealer (sk_session_id k) ch (sk_context_hash k) (fs_key s) mode
              (nonce_prefix mode (sk_role k)) 0 false false) as H.
  { intros base ->. destruct (issue_domain _ _ _) as [[d issued]|e|] eqn:Hd.
    2,3: intros [= <- <-]; split; [by exists (sk_issued_sealers k)|done].
    apply issue_domain_Ok in Hd as (->&Hch&Hnew&->). intros [= <- <-].
    split; [eexists; split; [|done]; set_solver|]. simpl.
    intros s (key&Hkey&Hs)%res_bind_Ok. revert Hs. unfold sealer_new, validate_channel_id.
    destruct (Z.eqb_spec ch 0); simpl; [done|]. intros [= <-]. simpl. split_and!; try done. set_solver. }
  unfold new_sealer. destruct mode; by apply H.
Qed.

Lemma keys_with_keys st r k r' :
  keys_of (with_keys st r k) r' = if decide (r' = r) then k else keys_of st r'.
Proof. by destruct r, r'. Qed.

Lemma session_inv_keys k0 st r k issued :
  session_inv k0 st → sk_issued_sealers (keys_of st r) ⊆ issued →
  k = with_issued_sealers (keys_of st r) issued → session_inv k0 (with_keys st r k).
Proof.
  intros [Hk Hs Hi Hd He Hsp Hl] Hsub ->.
  assert (ss_sealers (with_keys st r (with_issued_sealers (keys_of st r) issued)) = ss_sealers st) as Hse
    by by destruct r.
  assert (ss_log (with_keys st r (with_issued_sealers (keys_of st r) issued)) = ss_log st) as Hlg
    by by destruct r.
  split; rewrite ?Hse, ?Hlg; try done.
  - intros r'. rewrite keys_with_keys. case_decide as Hr; [subst r'|done].
    destruct (Hk r) as (js&jo&->). by exists issued, jo.
  - intros x Hx. rewrite keys_with_keys. specialize (Hi x Hx).
    case_decide as Hr; [|done]. rewrite Hr in Hi. by apply Hsub.
Qed.

Lemma session_inv_issue k0 st r mode ch :
  (∀ r, sk_role (k0 r) = r) → session_inv k0 st → session_inv k0 (session_step st (OIssue r mode ch)).
Proof.
  intros Hrole Hinv. simpl. destruct (new_sealer (keys_of st r) mode ch) as [out k'] eqn:Hi.
  apply new_sealer_spec in Hi as [(issued&Hsub&Hk') Hout].
  pose proof (session_inv_keys k0 st r k' issued Hinv Hsub Hk') as Hinv'.
  destruct out as [s|e|]; [|done..]. destruct (Hout s eq_refl) as (Hnew&Hin&Hkey&Hs). clear Hout.
  destruct (inv_keys _ _ Hinv r) as (js&jo&Hkeys).
  assert (ss_sealers (with_keys st r k') = ss_sealers st) as Hse by by destruct r.
  assert (∀ x, x ∈ ss_sealers st → sealer_domain x ≠ (r, (mode, ch))) as Hfresh.
  { intros x Hx Hd. pose proof (inv_issued _ _ Hinv x Hx) as Hxi. destruct x as [r' s'].
    unfold sealer_domain in Hd; simpl in *. injection Hd as -> <- <-. done. }
  assert (sealer_domain (r, s) = (r, (mode, ch))) as Hdom by by rewrite Hs.
  destruct Hinv' as [Hk1 Hs1 Hi1 Hd1 He1 Hsp1 Hl1]. rewrite Hse in *.
  assert (∀ r', keys_of (with_sealers (with_keys st r k') (ss_sealers st ++ [(r, s)])
                           (ss_log (with_keys st r k'))) r' = keys_of (with_keys st r k') r') as Hkk
    by by intros [].
  split; rewrite ?Hkk; simpl.
  - intros r'. rewrite Hkk. apply Hk1.
  - intros r' s' [Hx|Hx%list_elem_of_singleton]%elem_of_app; [by apply Hs1|].
    injection Hx as -> ->.
    unfold key_for in *. rewrite Hkeys in Hkey, Hs. rewrite Hs. simpl in *.
    split; [by rewrite Hrole|]. split; [by unfold in_u|]. exact Hkey.
  - intros x [Hx|Hx%list_elem_of_singleton]%elem_of_app; rewrite Hkk; [by apply Hi1|]. subst x.
    simpl. rewrite keys_with_keys, decide_True by done. by rewrite Hs.
  - rewrite fmap_app. apply NoDup_app. split; [done|]. simpl. rewrite Hdom. split; [|apply NoDup_singleton].
    intros d Hd Hd'%list_elem_of_singleton. subst d. apply list_elem_of_fmap in Hd as (x&Hx&Hxs).
    by apply (Hfresh x).
  - intros e Hin'. destruct (He1 e Hin') as (Hx&?&?&?). split_and!; try done.
    rewrite fmap_app. apply elem_of_app. by left.
  - intros e x Hin' [Hx|Hx%list_elem_of_singleton]%elem_of_app Hee; [by apply Hsp1|]. subst x.
    destruct (He1 e Hin') as [Hx ?]. rewrite Hee, Hdom in Hx.
    apply list_elem_of_fmap in Hx as (y&Hy&Hys). symmetry in Hy. by apply (Hfresh y) in Hys.
  - done.
Qed.

Lemma sealer_eta s :
  s = sealer (fs_session_id s) (fs_channel_id s) (fs_context_hash s) (fs_key s) (fs_mode s)
        (fs_nonce_prefix s) (fs_next_sequence s) (fs_exhausted s) (fs_finished s).
Proof. by destruct s. Qed.

(** Sealing keeps a sealer's identity and spends its sequence. *)
Lemma seal_step s p fl f s' :
  in_u 64 (fs_next_sequence s) → seal_frame s p fl = Ok (f, s') →
  fs_exhausted s = false ∧ fs_mode s' = fs_mode s ∧ fs_channel_id s' = fs_channel_id s
  ∧ fs_key s' = fs_key s ∧ fs_nonce_prefix s' = fs_nonce_prefix s
  ∧ in_u 64 (fs_next_sequence s') ∧ spent s' (fs_next_sequence s)
  ∧ ∀ q, spent s q → spent s' q.
Proof.
  intros Hn. rewrite (sealer_eta s) at 1. intros (Hex&_&_&_&->)%seal_inv; [|done].
  pose proof (counter_range _ Hn). split_and!; try done; unfold spent; simpl; rewrite ?Hex;
    unfold counter; destruct (Z.eqb_spec (fs_next_sequence s) u64_max); simpl; naive_solver lia.
Qed.

Lemma session_inv_seal k0 st i p fl :
  session_inv k0 st → session_inv k0 (session_step st (OSeal i p fl)).
Proof.
  intros [Hk Hs Hi Hd He Hsp Hl]. simpl.
  destruct (ss_sealers st !! i) as [[r s]|] eqn:Hx; [|by split].
  destruct (seal_frame s p fl) as [[f s']| |] eqn:Hf; [|by split..].
  pose proof (list_elem_of_lookup_2 _ _ _ Hx) as Hin.
  destruct (Hs r s Hin) as (Hpre&Hn&Hkey).
  apply seal_step in Hf as (Hex&Hmode&Hch&Hkey'&Hpre'&Hn'&Hspent&Hmono); [|done].
  assert (sealer_domain (r, s') = sealer_domain (r, s)) as Hdom
    by (unfold sealer_domain; simpl; by rewrite Hmode, Hch).
  assert (sealer_domain <$> <[i:=(r, s')]> (ss_sealers st) = sealer_domain <$> ss_sealers st) as Hsame.
  { rewrite list_fmap_insert, Hdom. apply list_insert_id. by rewrite list_lookup_fmap, Hx. }
  assert (∀ x, x ∈ <[i:=(r, s')]> (ss_sealers st) →
    (x = (r, s') ∨ ∃ j, j ≠ i ∧ ss_sealers st !! j = Some x)) as Hcase.
  { intros x [j Hj]%list_elem_of_lookup. destruct (decide (j = i)) as [->|Hne].
    - rewrite list_lookup_insert_eq in Hj by (by eapply lookup_lt_Some). left. by injection Hj.
    - rewrite list_lookup_insert_ne in Hj by done. right. by exists j. }
  assert (event_domain (event_of r s) = sealer_domain (r, s)) as Hev by done.
  split; simpl.
  - intros r'. specialize (Hk r'). by destruct r'.
  - intros r' s'' [Hx'|(j&_&Hj)]%Hcase; [|by apply Hs; eapply list_elem_of_lookup_2].
    injection Hx' as -> ->. by rewrite Hpre', Hmode, Hch, Hkey'.
  - intros x [->|(j&_&Hj)]%Hcase.
    + specialize (Hi (r, s) Hin). simpl in *. rewrite Hmode, Hch. by destruct r.
    + apply list_elem_of_lookup_2 in Hj. specialize (Hi x Hj). by destruct x as [[] ?].
  - by rewrite Hsame.
  - intros e [Hin'|Hin'%list_elem_of_singleton]%elem_of_app; rewrite Hsame; [by apply He|].
    subst e. split; [rewrite Hev; by apply list_elem_of_fmap_2|]. simpl. by rewrite Hpre.
  - intros e x Hin' Hx' Hee. apply elem_of_app in Hin' as [Hin'|Hin'%list_elem_of_singleton].
    + apply Hcase in Hx' as [->|(j&_&Hj)]; [|by apply Hsp; [|eapply list_elem_of_lookup_2|]].
      apply Hmono. apply (Hsp e (r, s)); [done|done|]. by rewrite Hee.
    + subst e. apply Hcase in Hx' as [->|(j&Hne&Hj)]; [done|]. exfalso. apply Hne.
      eapply (NoDup_lookup (sealer_domain <$> ss_sealers st)); [done| |by rewrite list_lookup_fmap, Hx].
      rewrite list_lookup_fmap, Hj. simpl. by rewrite <- Hee.
  - rewrite fmap_app. apply NoDup_app. split; [done|]. split; [|apply NoDup_singleton].
    intros d Hd1 Hd2%list_elem_of_singleton. subst d. apply list_elem_of_fmap in Hd1 as (e&Heq&Hin').
    injection Heq as Hr Hm Hc Hq.
    destruct (Hsp e (r, s) Hin' Hin) as [Hlt|[_ Hx']]; simpl in *.
    + unfold event_domain, sealer_domain. simpl. by rewrite <- Hr, <- Hm, <- Hc.
    + lia.
    + by rewrite Hex in Hx'.
Qed.

Lemma session_inv_run k0 st ops :
  (∀ r, sk_role (k0 r) = r) → session_inv k0 st → session_inv k0 (session_run st ops).
Proof.
  intros Hrole. revert st; induction ops as [|op ops IH]; intros st Hst; simpl; [done|]. apply IH.
  destruct op; [by apply session_inv_issue|by apply session_inv_seal].
Qed.

Lemma session_inv_start ki kr :
  session_inv (λ r, match r with Initiator => ki | Responder => kr end) (session_start ki kr).
Proof.
  split; simpl; try (by intros; exfalso; eapply not_elem_of_nil); try apply NoDup_nil_2.
  intros r. exists (sk_issued_sealers (keys_of (session_start ki kr) r)),
    (sk_issued_openers (keys_of (session_start ki kr) r)). destruct r; simpl; [by destruct ki|by destruct kr].
Qed.

Lemma derive_Ok role a t k :
  derive role a t = Ok k →
  sk_role k = role ∧ sk_session_id k = pt_session_id t ∧ sk_context_hash k = sha256 (pt_encoded t)
  ∧ sk_issued_sealers k = ∅ ∧ sk_issued_openers k = ∅.
Proof.
  unfold derive. case_match; [done|]. case_match; [done|].
  do 8 (intros (?&_&Hk)%res_bind_Ok; revert Hk). by intros [= <-].
Qed.

(** * The agreement of the two key schedules *)

Definition other_role (r : PeerRole) : PeerRole :=
  match r with Initiator => Responder | Responder => Initiator end.
Definition new_opener (k : PeerSessionKeys) (mode : FrameMode) (channel_id : Z)
    : res PeerCryptoError PeerFrameOpener * PeerSessionKeys :=
  match mode with
  | Ordered => stream_opener k channel_id
  | Datagram => datagram_opener k channel_id
  end.

(** The keys of both ends: equal but for the role. *)
Record keys_agree (K : PeerRole → PeerSessionKeys) : Prop := {
  agree_role r : sk_role (K r) = r;
  agree_session r : sk_session_id (K r) = sk_session_id (K Initiator);
  agree_context r : sk_context_hash (K r) = sk_context_hash (K Initiator);
  agree_handshake r : outgoing_handshake_key (K r) = incoming_handshake_key (K (other_role r));
  agree_candidate r : outgoing_candidate_mac_key (K r) = incoming_candidate_mac_key (K (other_role r));
  agree_stream r : outgoing_stream_key (K r) = incoming_stream_key (K (other_role r));
  agree_datagram r : outgoing_datagram_key (K r) = incoming_datagram_key (K (other_role r));
  agree_length r mode : length (outgoing_base (K r) mode) = HASH_BYTES;
  agree_sealers r : sk_issued_sealers (K r) = ∅;
  agree_openers r : sk_issued_openers (K r) = ∅;
}.

Context `{!PrimitivesLaws P}.

Lemma expand_key_ok prk label :
  ∃ k, expand_key prk label = Ok k ∧ length k = HASH_BYTES.
Proof.
  unfold expand_key. destruct (hkdf_expand_ok prk label) as (k&->&Hk). by exists k.
Qed.

Lemma derive_agree (secret : PeerRole → list byte) t :
  (∀ r, x25519_public (secret r) = local_ephemeral t r) →
  x25519_contributory (x25519_diffie_hellman (secret Initiator) (x25519_public (secret Responder))) = true →
  ∃ K, (∀ r, derive r (secret r) t = Ok (K r)) ∧ keys_agree K.
Proof.
  intros Hpub Hc. set (shared := x25519_diffie_hellman _ _) in Hc.
  assert (∀ r, x25519_diffie_hellman (secret r) (peer_ephemeral t r) = shared) as Hdh.
  { intros []; simpl.
    - pose proof (Hpub Responder) as Hr. simpl in Hr. by rewrite <- Hr.
    - pose proof (Hpub Initiator) as Hi. simpl in Hi. rewrite <- Hi. apply x25519_commutes. }
  unfold derive. setoid_rewrite bool_decide_eq_true_2; [|exact (Hpub _)]. cbn [negb].
  set (prk := hkdf_new (sha256 (pt_encoded t)) shared).
  assert (∀ label, { k | expand_key prk label = Ok k ∧ length k = HASH_BYTES }) as X.
  { intros label. destruct (expand_key prk label) as [k|e|] eqn:E.
    - exists k. split; [done|]. destruct (expand_key_ok prk label) as (k'&Hk&?). congruence.
    - exfalso. destruct (expand_key_ok prk label) as (k'&Hk&?). congruence.
    - exfalso. destruct (expand_key_ok prk label) as (k'&Hk&?). congruence. }
  set (key label := proj1_sig (X (str label))).
  exists (λ r, {| sk_role := r; sk_session_id := pt_session_id t;
    sk_context_hash := sha256 (pt_encoded t);
    sk_handshake_initiator_to_responder := key "rustgo-peer-handshake-initiator-to-responder-v1";
    sk_handshake_responder_to_initiator := key "rustgo-peer-handshake-responder-to-initiator-v1";
    sk_candidate_mac_initiator_to_responder := key "rustgo-peer-tcp-candidate-mac-initiator-to-responder-v1";
    sk_candidate_mac_responder_to_initiator := key "rustgo-peer-tcp-candidate-mac-responder-to-initiator-v1";
    sk_stream_initiator_to_responder := key "rustgo-peer-stream-initiator-to-responder-v1";
    sk_stream_responder_to_initiator := key "rustgo-peer-stream-responder-to-initiator-v1";
    sk_datagram_initiator_to_responder := key "rustgo-peer-datagram-initiator-to-responder-v1";
    sk_datagram_responder_to_initiator := key "rustgo-peer-datagram-responder-to-initiator-v1";
    sk_issued_sealers := ∅; sk_issued_openers := ∅ |}).
  assert (∀ label, expand_key prk (str label) = Ok (key label)) as Hkey
    by (intros label; apply (proj2_sig (X (str label)))).
  split.
  - intros r. rewrite Hdh, Hc. fold prk. cbn [negb]. rewrite !Hkey. done.
  - split; try by intros []. intros r mode. destruct r, mode; apply (proj2_sig (X _)).
Qed.

(** The sealer of one end and the opener of the other are the two ends of one channel. *)
Lemma issue_pair K r mode ch :
  keys_agree K → ch ≠ 0 →
  ∃ key, let pre := nonce_prefix mode r in
    fst (new_sealer (K r) mode ch)
      = Ok (sealer (sk_session_id (K r)) ch (sk_context_hash (K r)) key mode pre 0 false false)
    ∧ fst (new_opener (K (other_role r)) mode ch)
      = Ok (opener (sk_session_id (K r)) ch (sk_context_hash (K r)) key mode pre
              (match mode with
               | Ordered => ROrdered 0 false
               | Datagram => RDatagram {| rw_highest := None; rw_bitmap := 0 |}
               end) false).
Proof.
  intros HK Hch.
  destruct (hkdf_from_prk_ok (outgoing_base (K r) mode)) as [prk Hprk]; [by apply agree_length|].
  destruct (expand_key_ok prk (frame_key_info (sk_context_hash (K r)) (sk_session_id (K r)) mode ch))
    as (key&Hkey&_).
  assert (∀ base, base = outgoing_base (K r) mode →
    derive_frame_key base (sk_context_hash (K r)) (sk_session_id (K r)) mode ch = Ok key) as Hd
    by (intros base ->; unfold derive_frame_key; by rewrite Hprk).
  exists key. cbv zeta.
  assert (sk_session_id (K (other_role r)) = sk_session_id (K r)) as Hs 
    by by rewrite (agree_session K HK r), (agree_session K HK (other_role r)).
  assert (sk_context_hash (K (other_role r)) = sk_context_hash (K r)) as Hx 
    by by rewrite (agree_context K HK r), (agree_context K HK (other_role r)).
  assert (incoming_direction (K (other_role r)) = r) as Hr
    by (unfold incoming_direction; rewrite (agree_role K HK); by destruct r).
  assert (∀ m, issue_domain ∅ m ch = Ok ((m, ch), {[ (m, ch) ]} ∪ ∅)) as Hi.
  { intros m. unfold issue_domain, validate_channel_id. rewrite (proj2 (Z.eqb_neq ch 0)) by done.
    cbn [mbind res_bind]. by rewrite bool_decide_eq_false_2 by set_solver. }
  destruct mode; cbn [new_sealer new_opener]; unfold stream_sealer, stream_opener,
    datagram_sealer, datagram_opener, sealer_new, opener_new, validate_channel_id, outgoing_direction;
    rewrite (agree_sealers K HK), (agree_openers K HK), !Hi; cbn [fst snd];
    rewrite Hs, Hx, Hr, (agree_role K HK), (proj2 (Z.eqb_neq ch 0)) by done.
  - rewrite <- (agree_stream K HK), !Hd by done. done.
  - rewrite <- (agree_datagram K HK), !Hd by done. done.
Qed.
End machine.
