(* ===== verification/CryptoRef.v ===== *)
(** A concrete instance of the cryptographic primitives that satisfies their laws: the
    witnesses of the theorems about encryption and enrollment evaluate on it. *)

From S2P Require Import Prelude.
From S2P Require Import Messages.
From S2P Require Import RvMessages.
From S2P Require Import Peer.
From Stdlib Require Import Strings.Byte.
From stdpp Require Import prelude list strings.

#[local] Open Scope Z_scope.

(** Commuting, of the right lengths and invertible; nothing in it is hard to break. *)
Definition toy_mix (n : nat) (parts : list byte) : list byte := be_bytes n (be_value parts).
#[local] Arguments toy_mix : simpl never.
Definition toy_tag (k n a m : list byte) : list byte := toy_mix 16 (k ++ n ++ a ++ m).

#[local] Arguments toy_tag : simpl never.

#[export] Instance toy_primitives : Primitives := {
  x25519_public a := a;
  x25519_diffie_hellman a b := be_bytes 32 (be_value a + be_value b);
  x25519_contributory shared := negb (be_value shared =? 0);
  sha256 m := toy_mix 32 m;
  hkdf_new salt ikm := toy_mix 32 (salt ++ ikm);
  hkdf_from_prk k := if (32 <=? blen k) then Some k else None;
  hkdf_expand prk info n := Some (toy_mix n (prk ++ info));
  hmac_sha256 k m := toy_mix 32 (k ++ m);
  aead_encrypt k n a m := Some (m ++ toy_tag k n a m);
  aead_decrypt k n a c :=
    let m := take (length c - 16) c in
    if bool_decide (c = m ++ toy_tag k n a m) then Some m else None;
  ed25519_public k := k;
  ed25519_sign k m := toy_mix 64 (k ++ m);
  ed25519_verify k m s := bool_decide (s = toy_mix 64 (k ++ m));
}.

Lemma length_toy_tag k n a m : length (toy_tag k n a m) = 16%nat.
Proof. apply length_be_bytes. Qed.

#[export] Instance toy_laws : PrimitivesLaws toy_primitives.
Proof.
  split; cbn -[be_bytes toy_mix toy_tag].
  - intros a b. by rewrite Z.add_comm.
  - intros m. apply length_be_bytes.
  - intros k Hk. rewrite (proj2 (Z.leb_le 32 (blen k))); [done|]. unfold blen, HASH_BYTES in *. lia.
  - intros prk info. exists (toy_mix 32 (prk ++ info)). split; [reflexivity|]. apply length_be_bytes.
  - intros k n a m _. exists (m ++ toy_tag k n a m). split; [reflexivity|].
    rewrite blen_app. unfold blen at 2. by rewrite length_toy_tag.
  - intros k n a m c [= <-]. rewrite length_app, length_toy_tag.
    replace (length m + 16 - 16)%nat with (length m) by lia. rewrite take_app_length.
    by rewrite bool_decide_eq_true_2.
  - intros k n a m c. case_bool_decide as H; [|done]. intros [= <-]. by rewrite <- H.
  - intros k m. apply length_be_bytes.
  - intros k m. by apply bool_decide_eq_true_2.
Qed.
