(* ===== verification/PeerProps.v ===== *)
(** Properties of the peer encryption: nonces are never used twice, an adversary on the path
    cannot make a channel deliver anything but what was sealed, the two ends of a session
    agree, and signatures cover every field of an envelope. *)

From S2P Require Import Prelude.
From S2P Require Import Wire.
From S2P Require Import Postcard.
From S2P Require Import PostcardRef.
From S2P Require Import Messages.
From S2P Require Import MessageCodecs.
From S2P Require Import Frame.
From S2P Require Import RvMessages.
From S2P Require Import RvFacts.
From S2P Require Import Peer.
From S2P Require Import PeerCodecs.
From S2P Require Import PeerFacts.
From S2P Require Import PeerSession.
From S2P Require Import CryptoRef.
From Stdlib Require Import Strings.Byte.
From stdpp Require Import prelude gmap list strings.

#[local] Open Scope Z_scope.
#[local] Arguments toy_mix : simpl never.
#[local] Arguments toy_tag : simpl never.

Section props.
Context `{P : Primitives} `{!PrimitivesLaws P}.

(** * Nonces *)

(** C16: whatever sealers the two ends of a session issue and whatever they seal with them,
    in any order, no channel of the session, in either direction and either mode, uses a
    nonce twice: two encryptions of the same channel number and nonce are one and the same.
    And every encryption is under the key derived for its own mode and channel. *)
Theorem nonces_never_reused a b t ki kr ops :
  derive Initiator a t = Ok ki → derive Responder b t = Ok kr →
  let k r := match r with Initiator => ki | Responder => kr end in
  let log := ss_log (session_run (session_start ki kr) ops) in
  (∀ i j e e', log !! i = Some e → log !! j = Some e' →
     se_channel e = se_channel e' → se_nonce e = se_nonce e' → i = j)
  ∧ ∀ e, e ∈ log → key_for (k (se_role e)) (se_mode e) (se_channel e) (se_key e).
Proof.
  intros Hi Hr. cbv zeta. set (k r := match r with Initiator => ki | Responder => kr end).
  assert (session_inv k (session_run (session_start ki kr) ops)) as Hinv.
  { apply session_inv_run, session_inv_start. intros []; simpl; [by eapply derive_Ok|by eapply derive_Ok]. }
  split; [|intros e He; by apply (inv_events _ _ Hinv e He)].
  intros i j e e' He He' Hch Hnonce.
  destruct (inv_events _ _ Hinv e) as (_&Hq&Hn&_); [by eapply list_elem_of_lookup_2|].
  destruct (inv_events _ _ Hinv e') as (_&Hq'&Hn'&_); [by eapply list_elem_of_lookup_2|].
  rewrite Hn, Hn' in Hnonce.
  apply frame_nonce_inj in Hnonce as [Hp Hs]; [|by destruct (se_mode e), (se_mode e')|done..].
  apply nonce_prefix_inj in Hp as [Hm Hrole].
  eapply (NoDup_lookup _ i j (event_domain e, se_sequence e) (inv_log _ _ Hinv));
    rewrite list_lookup_fmap; [by rewrite He|]. rewrite He'. simpl. unfold event_domain.
  by rewrite Hch, Hs, Hm, Hrole.
Qed.

(** * Channels under an adversary *)

(** C17: an ordered channel whose ciphertexts cannot be forged delivers, from any sequence
    of frames an adversary passes to it, exactly those that were the next one sealed: a
    prefix of what was sealed, in order, without repetition, and nothing after the frame
    that ends the channel. *)
Theorem stream_delivery sid ch ctx key pre s o msgs fs :
  sealer_new sid ch ctx key Ordered pre = Ok s → opener_new sid ch ctx key Ordered pre = Ok o →
  in_u 64 ch → Forall (λ f, in_u 64 (prf_sequence f)) fs →
  Forall (unforged o (seal_all s msgs)) fs →
  open_all o fs = deliver_stream (seal_all s msgs) fs
  ∧ open_all o fs `prefix_of` (seal_all s msgs).*2
  ∧ ∀ i g p, seal_all s msgs !! i = Some (g, p) → has_fin (prf_flags g) = true →
      S i = length (seal_all s msgs).
Proof.
  unfold sealer_new, opener_new, validate_channel_id. destruct (ch =? 0); [done|].
  cbn [mbind res_bind]. intros [= <-] [= <-] Hch Hqs Hus.
  set (L := seal_all _ msgs) in *.
  assert (open_all (opener sid ch ctx key Ordered pre (ROrdered 0 false) false) fs = deliver_stream L fs) as E.
  { apply (open_stream sid ch ctx key Ordered pre fs 0 false false L msgs); try done.
    intros g p Hin. by eapply (seal_all_made sid ch ctx key Ordered pre msgs 0 false false). }
  unfold opener in E. rewrite E. split; [done|]. split; [apply deliver_stream_prefix|].
  intros i g p Hi Hf. by eapply (seal_all_fin_last sid ch ctx key Ordered pre msgs 0 false i g p).
Qed.

(** C18: a datagram channel whose ciphertexts cannot be forged delivers, from any sequence of
    frames, exactly the genuine ones that are fresh: not delivered before and less than 64
    sequences behind every delivered one.  The 64-bit window of the code is this set. *)
Theorem datagram_delivery sid ch ctx key pre s o msgs fs :
  sealer_new sid ch ctx key Datagram pre = Ok s → opener_new sid ch ctx key Datagram pre = Ok o →
  in_u 64 ch → Forall (λ f, in_u 64 (prf_sequence f)) fs →
  Forall (unforged o (seal_all s msgs)) fs →
  open_all o fs = deliver_datagrams (seal_all s msgs) [] fs.
Proof.
  unfold sealer_new, opener_new, validate_channel_id. destruct (ch =? 0); [done|].
  cbn [mbind res_bind]. intros [= <-] [= <-] Hch Hqs Hus.
  apply (open_datagrams sid ch ctx key Datagram pre _ fs []); try done.
  intros g p Hin. by eapply (seal_all_made sid ch ctx key Datagram pre msgs 0 false false).
Qed.

(** * Agreement *)

(** C19: two ends whose ephemeral keys are those of the transcript both derive their keys;
    each accepts the other's handshake tag and candidate confirmation over the same
    transport binding, and on every channel what one seals the other opens, in order and
    complete, for every list of messages of admissible size. *)
Theorem peers_agree (secret : PeerRole → list byte) t :
  (∀ r, x25519_public (secret r) = local_ephemeral t r) →
  x25519_contributory (x25519_diffie_hellman (secret Initiator) (x25519_public (secret Responder))) = true →
  ∃ K, (∀ r, derive r (secret r) t = Ok (K r)) ∧ ∀ r, let r' := other_role r in
    (∀ binding, (∃ tag, handshake_tag (K r) binding = Ok tag ∧ verify_handshake_tag (K r') binding tag = Ok tt)
       ∧ verify_candidate_confirmation (K r') binding (candidate_confirmation (K r) binding) = Ok tt)
    ∧ ∀ mode ch ps, ch ≠ 0 → blen ps ≤ u64_max →
        Forall (λ p, blen p ≤ MAX_PEER_RELAY_CIPHERTEXT_BYTES - 16) ps →
        ∃ s o, fst (new_sealer (K r) mode ch) = Ok s ∧ fst (new_opener (K r') mode ch) = Ok o
          ∧ open_all o (seal_all s ((λ p, (p, plain_flag mode)) <$> ps)).*1 = ps.
Proof.
  intros Hpub Hc. destruct (derive_agree secret t Hpub Hc) as (K&HK&Ha). exists K. split; [done|].
  intros r. cbv zeta. split.
  - intros binding. unfold handshake_tag, verify_handshake_tag, verify_candidate_confirmation,
      candidate_confirmation, candidate_hmac.
    rewrite <- (agree_handshake K Ha), <- (agree_candidate K Ha), (agree_context K Ha (other_role r)),
      (agree_context K Ha r), bool_decide_eq_true_2 by done.
    split; [|done]. edestruct aead_encrypt_ok as (c&Hc'&_); [|rewrite Hc']; [done|].
    exists c. split; [done|]. by apply aead_decrypt_encrypt in Hc' as ->.
  - intros mode ch ps Hch Hlen Hps. destruct (issue_pair K r mode ch Ha Hch) as (key&Hs&Ho).
    eexists _, _. split; [exact Hs|]. split; [exact Ho|].
    rewrite roundtrip_run; [apply seal_all_plain; try done; lia|done|].
    right. destruct mode; [done|]. by eexists.
Qed.

(** * Types *)

(** C20: every frame that is sealed is a well-formed relay frame: the bounds of its fields
    hold, it fits the relay message of the control protocol, and it is read back from that
    message as itself. *)
Theorem sealed_frames_typed `{Q : Postcard} `{!PostcardLaws Q} sid ch ctx key mode pre s msgs :
  sealer_new sid ch ctx key mode pre = Ok s → length sid = 32%nat → in_u 64 ch →
  Forall (λ '(f, _), peer_relay_frame_wf f ∧ ∃ m, PeerRelayFrame_to_protocol_message f = Ok m
                       ∧ PeerRelayFrame_from_protocol_message m = Ok f) (seal_all s msgs).
Proof.
  unfold sealer_new, validate_channel_id. destruct (ch =? 0); [done|].
  cbn [mbind res_bind]. intros [= <-] Hsid Hch.
  assert (in_u 64 0) as H0 by by unfold in_u.
  eapply Forall_impl; [apply (seal_all_constructed sid ch ctx key mode pre msgs 0 false false H0)|].
  intros [f p] (n&fl&c&Hn&Hfl&Hf).
  assert (relay_flags_wf fl) as Hwf.
  { unfold relay_flags_wf. split; [apply frame_flags_range in Hfl; unfold in_u; lia|].
    revert Hfl. unfold validate_frame_flags. destruct mode;
      repeat match goal with |- context [fl =? ?y] => destruct (Z.eqb_spec fl y) as [->|] end; done. }
  destruct (relay_frame_roundtrip sid ch n fl c Hsid Hch Hn Hwf) as (_&Hrt&Hread).
  destruct (Hrt f Hf) as (_&m&Hto&Hfrom). split; [by eapply Hread|by exists m].
Qed.

(** * Signatures *)

(** An envelope with a signature. *)
Definition with_signature (e : RendezvousEnvelope) (signature : list byte) : RendezvousEnvelope :=
  {| env_version := env_version e; env_session_id := env_session_id e;
     env_sender := env_sender e; env_target := env_target e; env_step := env_step e;
     env_generation := env_generation e; env_expires_unix_secs := env_expires_unix_secs e;
     env_payload := env_payload e; env_signature := signature |}.

(** C21: the signature of an envelope covers every field of it: signing always succeeds
    within the bound of the signature field and the signed envelope verifies; and where the
    device's signatures cannot be forged, whatever envelope verifies agrees in every field
    but the signature with one the device signed. *)
Theorem signature_covers_envelope keypair signed :
  Forall envelope_wf signed →
  Forall (λ e, ∃ signature, sign_peer_envelope keypair e = Ok signature
           ∧ envelope_wf (with_signature e signature)
           ∧ verify_peer_envelope (ed25519_public keypair) (with_signature e signature) = Ok tt) signed
  ∧ ∀ f, envelope_wf f →
      (ed25519_verify (ed25519_public keypair) (encode_envelope f) (env_signature f) = true →
         ∃ e, e ∈ signed ∧ encode_envelope f = encode_envelope e) →
      verify_peer_envelope (ed25519_public keypair) f = Ok tt →
      ∃ e, e ∈ signed ∧ unsigned f = unsigned e.
Proof.
  intros Hwf. split.
  - eapply Forall_impl; [exact Hwf|]. intros e He. exists (ed25519_sign keypair (encode_envelope e)).
    pose proof (ed25519_sign_length keypair (encode_envelope e)) as Hl.
    assert (blen (ed25519_sign keypair (encode_envelope e)) = 64) as Hb by (unfold blen; by rewrite Hl).
    split; [|split].
    + unfold sign_peer_envelope. apply map_err_Ok, bounded_try_from_Ok. split; [done|].
      rewrite Hb. by unfold RvMessages.MAX_SIGNATURE_BYTES.
    + destruct He as (?&?&?&?&?&?&?&?&?). split_and!; try done. unfold bytes_wf. simpl. rewrite Hb.
      by unfold RvMessages.MAX_SIGNATURE_BYTES.
    + unfold verify_peer_envelope, verify_bytes. cbn [env_signature with_signature].
      rewrite Hb. change (encode_envelope (with_signature e _)) with (encode_envelope e).
      by rewrite ed25519_verify_sign.
  - intros f Hf Hunf. unfold verify_peer_envelope, verify_bytes.
    destruct (blen (env_signature f) =? 64); simpl; [|done].
    destruct (ed25519_verify _ _ _); [|done]. intros _. destruct Hunf as (e&Hin&He); [done|].
    exists e. split; [done|]. apply encode_envelope_inj; [done| |done].
    by eapply Forall_forall in Hwf.
Qed.
End props.

(** * Witnesses *)

Section unforged_cases.
Context `{P : Primitives}.

(** A sealed frame is no forgery, and neither is one that does not decrypt. *)
Definition unforgedb (o : PeerFrameOpener) (L : list (PeerRelayFrame * list byte)) (f : PeerRelayFrame)
    : bool :=
  bool_decide (is_Some (genuine_text L f))
  || bool_decide (aead_decrypt (fo_key o) (frame_nonce (fo_nonce_prefix o) (prf_sequence f))
       (frame_aad (fo_context_hash o) (prf_session_id f) (prf_channel_id f) (prf_flags f)
          (prf_sequence f)) (prf_ciphertext f) = None).

Lemma unforgedb_sound o L fs :
  forallb (λ f, bool_decide (in_u 64 (prf_sequence f)) && unforgedb o L f) fs = true →
  Forall (λ f, in_u 64 (prf_sequence f)) fs ∧ Forall (unforged o L) fs.
Proof.
  rewrite forallb_forall, !Forall_forall. setoid_rewrite list_elem_of_In. intros H.
  split; intros f [Hq Hu]%H%andb_true_iff; [by apply bool_decide_eq_true in Hq|].
  apply orb_true_iff in Hu as [Hg|Hd]; intros m Hm.
  - apply bool_decide_eq_true in Hg as [p (g&Hin&Hcore)%genuine_text_Some].
    injection Hcore as Hs Hc Hn Hf Hct. exists g, p. by rewrite Hs, Hc, Hn, Hf, Hct.
  - apply bool_decide_eq_true in Hd. by rewrite Hd in Hm.
Qed.
End unforged_cases.

#[local] Definition w_secret (r : PeerRole) : list byte :=
  match r with Initiator => be_bytes 32 7 | Responder => be_bytes 32 9 end.
#[local] Definition w_version : ProtocolVersion := {| major := 1; minor := 5 |}.
#[local] Definition w_transcript : PeerTranscript :=
  PeerTranscript_new (replicate 32 x05) 1 (replicate 32 x11) (replicate 32 x12)
    (w_secret Initiator) (w_secret Responder) (str "ssh") w_version (replicate 32 x21).

Lemma w_derive_ok r : { k | derive r (w_secret r) w_transcript = Ok k }.
Proof. destruct r; eexists; vm_compute; reflexivity. Defined.
#[local] Definition w_keys (r : PeerRole) : PeerSessionKeys := proj1_sig (w_derive_ok r).
Lemma w_keys_ok r : derive r (w_secret r) w_transcript = Ok (w_keys r).
Proof. exact (proj2_sig (w_derive_ok r)). Qed.

#[local] Definition w_ops : list SessionOp :=
  [OIssue Initiator Ordered 5; OIssue Responder Ordered 5; OIssue Initiator Datagram 5;
   OIssue Initiator Ordered 5; OSeal 0 (str "a") 1; OSeal 1 (str "b") 1; OSeal 2 (str "c") 2;
   OSeal 0 (str "d") 5; OSeal 0 (str "e") 1; OSeal 2 (str "f") 2].
Lemma w_log_length : length (ss_log (session_run (session_start (w_keys Initiator) (w_keys Responder)) w_ops)) = 5%nat.
Proof. vm_compute. reflexivity. Qed.

Lemma nonces_never_reused_witness :
  let log := ss_log (session_run (session_start (w_keys Initiator) (w_keys Responder)) w_ops) in
  length log = 5%nat
  ∧ ∀ i j e e', log !! i = Some e → log !! j = Some e' →
      se_channel e = se_channel e' → se_nonce e = se_nonce e' → i = j.
Proof.
  split; [exact w_log_length|].
  exact (proj1 (nonces_never_reused (w_secret Initiator) (w_secret Responder) w_transcript
    (w_keys Initiator) (w_keys Responder) w_ops (w_keys_ok Initiator) (w_keys_ok Responder))).
Defined.

#[local] Definition w_channel_sealer (mode : FrameMode) : PeerFrameSealer :=
  sealer (replicate 32 x05) 3 (replicate 32 x06) (replicate 32 x07) mode (nonce_prefix mode Initiator)
    0 false false.
#[local] Definition w_channel_opener (mode : FrameMode) : PeerFrameOpener :=
  opener (replicate 32 x05) 3 (replicate 32 x06) (replicate 32 x07) mode (nonce_prefix mode Initiator)
    (match mode with
     | Ordered => ROrdered 0 false
     | Datagram => RDatagram {| rw_highest := None; rw_bitmap := 0 |}
     end) false.
#[local] Definition w_frame (f : PeerRelayFrame) (c : list byte) : PeerRelayFrame :=
  {| prf_session_id := prf_session_id f; prf_channel_id := prf_channel_id f;
     prf_sequence := prf_sequence f; prf_flags := prf_flags f;
     prf_ciphertext_len := blen c; prf_ciphertext := c |}.
#[local] Definition w_blank : PeerRelayFrame :=
  {| prf_session_id := []; prf_channel_id := 0; prf_sequence := 0; prf_flags := 0;
     prf_ciphertext_len := 0; prf_ciphertext := [] |}.
#[local] Definition w_msgs (fl last : Z) : list (list byte * Z) :=
  [(str "one", fl); (str "two", fl); (str "three", last); (str "four", fl)].
#[local] Definition w_sealed mode fl last := seal_all (w_channel_sealer mode) (w_msgs fl last).
#[local] Definition w_nth mode fl last i : PeerRelayFrame :=
  from_option fst w_blank (w_sealed mode fl last !! i).

(** The path reorders, repeats and tampers. *)
#[local] Definition w_path mode fl last : list PeerRelayFrame :=
  [w_nth mode fl last 1; w_nth mode fl last 0; w_nth mode fl last 0;
   w_frame (w_nth mode fl last 1) (str "forged ciphertext"); w_nth mode fl last 1;
   w_nth mode fl last 2].
#[local] Definition w_stream := w_path Ordered 1 5.
#[local] Definition w_datagrams := w_path Datagram 2 2.

Lemma w_stream_ok :
  Forall (λ f, in_u 64 (prf_sequence f)) w_stream
  ∧ Forall (unforged (w_channel_opener Ordered) (w_sealed Ordered 1 5)) w_stream.
Proof. apply unforgedb_sound. vm_compute. reflexivity. Qed.
Lemma w_datagrams_ok :
  Forall (λ f, in_u 64 (prf_sequence f)) w_datagrams
  ∧ Forall (unforged (w_channel_opener Datagram) (w_sealed Datagram 2 2)) w_datagrams.
Proof. apply unforgedb_sound. vm_compute. reflexivity. Qed.
Lemma w_channel_in_u : in_u 64 3.
Proof. by unfold in_u. Qed.
Lemma w_stream_delivers :
  deliver_stream (w_sealed Ordered 1 5) w_stream = [str "one"; str "two"; str "three"].
Proof. vm_compute. reflexivity. Qed.
Lemma w_datagrams_deliver :
  deliver_datagrams (w_sealed Datagram 2 2) [] w_datagrams = [str "two"; str "one"; str "three"].
Proof. vm_compute. reflexivity. Qed.

Lemma stream_delivery_witness :
  open_all (w_channel_opener Ordered) w_stream = [str "one"; str "two"; str "three"].
Proof.
  rewrite <- w_stream_delivers.
  exact (proj1 (stream_delivery (replicate 32 x05) 3 (replicate 32 x06) (replicate 32 x07)
    (nonce_prefix Ordered Initiator) (w_channel_sealer Ordered) (w_channel_opener Ordered)
    (w_msgs 1 5) w_stream eq_refl eq_refl w_channel_in_u (proj1 w_stream_ok) (proj2 w_stream_ok))).
Defined.

Lemma datagram_delivery_witness :
  open_all (w_channel_opener Datagram) w_datagrams = [str "two"; str "one"; str "three"].
Proof.
  rewrite <- w_datagrams_deliver.
  exact (datagram_delivery (replicate 32 x05) 3 (replicate 32 x06) (replicate 32 x07)
    (nonce_prefix Datagram Initiator) (w_channel_sealer Datagram) (w_channel_opener Datagram)
    (w_msgs 2 2) w_datagrams eq_refl eq_refl w_channel_in_u (proj1 w_datagrams_ok)
    (proj2 w_datagrams_ok)).
Defined.

Lemma w_public_ok r : x25519_public (w_secret r) = local_ephemeral w_transcript r.
Proof. destruct r; vm_compute; reflexivity. Qed.
Lemma w_contributory :
  x25519_contributory
    (x25519_diffie_hellman (w_secret Initiator) (x25519_public (w_secret Responder))) = true.
Proof. vm_compute. reflexivity. Qed.

Lemma peers_agree_witness :
  ∃ K, (∀ r, derive r (w_secret r) w_transcript = Ok (K r))
    ∧ ∀ binding, verify_candidate_confirmation (K Responder) binding
                   (candidate_confirmation (K Initiator) binding) = Ok tt.
Proof.
  destruct (peers_agree w_secret w_transcript w_public_ok w_contributory) as (K&HK&Hr).
  exists K. split; [exact HK|]. intros binding. exact (proj2 (proj1 (Hr Initiator) binding)).
Defined.

Lemma sealed_frames_typed_witness :
  length (w_sealed Ordered 1 5) = 3%nat
  ∧ Forall (λ '(f, _), peer_relay_frame_wf f
              ∧ ∃ m, PeerRelayFrame_to_protocol_message (P := postcard_ref) f = Ok m
                  ∧ PeerRelayFrame_from_protocol_message (P := postcard_ref) m = Ok f)
      (w_sealed Ordered 1 5).
Proof.
  split; [vm_compute; reflexivity|].
  exact (sealed_frames_typed (Q := postcard_ref) (replicate 32 x05) 3 (replicate 32 x06)
    (replicate 32 x07) Ordered (nonce_prefix Ordered Initiator) (w_channel_sealer Ordered)
    (w_msgs 1 5) eq_refl eq_refl w_channel_in_u).
Defined.

#[local] Definition w_envelope : RendezvousEnvelope :=
  {| env_version := w_version; env_session_id := replicate 32 x05; env_sender := str "alpha";
     env_target := str "beta"; env_step := 2; env_generation := 1;
     env_expires_unix_secs := 1000;
     env_payload := PProviderDecision (ProviderDecision_accepted TunnelProtocol.TCP);
     env_signature := [] |}.
Lemma w_envelope_wf : Forall envelope_wf [w_envelope].
Proof.
  constructor; [|constructor]. unfold envelope_wf, version_wf, generation_wf, str_wf, bytes_wf, in_u.
  cbn. unfold provider_decision_wf, tunnel_protocol_wf, in_u. cbn. split_and!; done.
Qed.

Lemma signature_covers_envelope_witness :
  ∃ signature, sign_peer_envelope (replicate 32 x31) w_envelope = Ok signature
    ∧ verify_peer_envelope (ed25519_public (replicate 32 x31)) (with_signature w_envelope signature)
      = Ok tt
    ∧ ∃ e, e ∈ [w_envelope] ∧ unsigned (with_signature w_envelope signature) = unsigned e.
Proof.
  destruct (signature_covers_envelope (replicate 32 x31) [w_envelope] w_envelope_wf) as [Hs Hv].
  destruct (proj1 (Forall_cons _ _ _) Hs) as [(s&Hsign&Hwf&Hverify) _].
  exists s. split; [exact Hsign|]. split; [exact Hverify|]. apply (Hv _ Hwf); [|exact Hverify].
  intros _. exists w_envelope. split; [left|reflexivity].
Defined.
