(* ===== verification/Observation.v ===== *)
(** The observation service ([rustgos/src/observation.rs]), which tells an authenticated
    client the address its packets come from: single-use tokens, token buckets per source and
    per device in bounded tables, and the two sockets that answer probes. *)

From S2P Require Import Prelude.
From S2P Require Import Wire.
From S2P Require Import Postcard.
From S2P Require Import Messages.
From S2P Require Import RvMessages.
From S2P Require Import Bindings.
From S2P Require Import Registry.
From S2P Require Import Limiter.
From S2P Require Import UdpFlows.
From Stdlib Require Import Strings.Byte.
From stdpp Require Import prelude gmap list.

#[local] Open Scope Z_scope.

(** * Limits *)

Definition MAX_PENDING_OBSERVATION_TOKENS : Z := 65536.
Definition MAX_TRACKED_OBSERVATION_SUBJECTS : Z := 65536.
Definition MAX_OBSERVATION_BURST : Z := 65536.
Definition TOKEN_GENERATION_ATTEMPTS : nat := 16.
Definition MAX_BUCKET_MAINTENANCE_STEPS_PER_PACKET : nat := 4.

(** A [Duration] in nanoseconds: a [u64] of seconds and the nanoseconds within one. *)
Definition DURATION_MAX : Z := 2 ^ 64 * 1000000000 - 1.
Definition SECOND : Z := 1000000000.

Record ObservationRuntimeLimits := {
  token_ttl : Z;
  max_pending_tokens : Z;
  max_tracked_ips : Z;
  max_tracked_devices : Z;
  per_ip_burst : Z;
  per_device_burst : Z;
  refill_interval : Z;
  test_send_delay : Z;
}.
Definition ObservationRuntimeLimits_default : ObservationRuntimeLimits :=
  {| token_ttl := 30 * SECOND; max_pending_tokens := 4096; max_tracked_ips := 16384;
     max_tracked_devices := 4096; per_ip_burst := 32; per_device_burst := 8;
     refill_interval := 1 * SECOND; test_send_delay := 0 |}.

(** [ObservationRuntimeLimits::is_valid] at the monotonic time [now] and the system time
    [system_now]. *)
Definition is_valid (l : ObservationRuntimeLimits) (now system_now : Z) : bool :=
  negb (token_ttl l =? 0)
  && (2 <=? max_pending_tokens l) && (max_pending_tokens l <=? MAX_PENDING_OBSERVATION_TOKENS)
  && (0 <? max_tracked_ips l) && (max_tracked_ips l <=? MAX_TRACKED_OBSERVATION_SUBJECTS)
  && (0 <? max_tracked_devices l) && (max_tracked_devices l <=? MAX_TRACKED_OBSERVATION_SUBJECTS)
  && ((1 <=? per_ip_burst l) && (per_ip_burst l <=? MAX_OBSERVATION_BURST))
  && ((1 <=? per_device_burst l) && (per_device_burst l <=? MAX_OBSERVATION_BURST))
  && negb (refill_interval l =? 0) && (test_send_delay l <=? 60 * SECOND)
  && bool_decide (is_Some (instant_checked_add now (token_ttl l)))
  && bool_decide (is_Some (instant_checked_add now (refill_interval l)))
  && bool_decide (is_Some (instant_checked_add now (test_send_delay l)))
  && bool_decide (is_Some (instant_checked_add system_now (token_ttl l))).

(** * Token buckets *)

Record TokenBucket := { tb_capacity : Z; tb_tokens : Z; tb_last_refill : Z }.
Definition TokenBucket_new (capacity now : Z) : TokenBucket :=
  {| tb_capacity := capacity; tb_tokens := capacity; tb_last_refill := now |}.

(** [TokenBucket::take]; [None] is the panic of a division by zero. *)
Definition take_token (b : TokenBucket) (capacity interval now : Z) : option (bool * TokenBucket) :=
  let b := if tb_capacity b =? capacity then b else TokenBucket_new capacity now in
  let elapsed := duration_since now (tb_last_refill b) in
  if interval =? 0 then None else
  let refill := elapsed / interval in
  let b :=
    if 0 <? refill then
      {| tb_capacity := tb_capacity b;
         tb_tokens := Z.min (saturating_add u32_max (tb_tokens b)
                               (if refill <=? u32_max then refill else u32_max)) capacity;
         tb_last_refill := now |}
    else b in
  if tb_tokens b =? 0 then Some (false, b)
  else Some (true, {| tb_capacity := tb_capacity b; tb_tokens := tb_tokens b - 1;
                      tb_last_refill := tb_last_refill b |}).

(** * Tables of buckets *)

Record BucketEntry := { be_bucket : TokenBucket; be_generation : Z }.
Record BucketExpiry (K : Type) := BucketExpiry_make
  { bx_key : K; bx_generation : Z; bx_expires_at : Z }.
Arguments BucketExpiry_make {K} _ _ _.
Arguments bx_key {K} _.
Arguments bx_generation {K} _.
Arguments bx_expires_at {K} _.

Record BucketTable (K : Type) `{Countable K} := BucketTable_make {
  bt_entries : gmap K BucketEntry;
  bt_expirations : list (BucketExpiry K);
  bt_next_generation : Z;
}.
Arguments BucketTable_make {K _ _} _ _ _.
Arguments bt_entries {K _ _} _.
Arguments bt_expirations {K _ _} _.
Arguments bt_next_generation {K _ _} _.

Record BucketAdmission := { ba_allowed : bool; ba_maintenance_steps : nat }.
Record PreparedBucketSlot (K : Type) := PreparedBucketSlot_make {
  ps_eviction : option (BucketExpiry K);
  ps_maintenance_steps : nat;
  ps_available : bool;
}.
Arguments PreparedBucketSlot_make {K} _ _ _.
Arguments ps_eviction {K} _.
Arguments ps_maintenance_steps {K} _.
Arguments ps_available {K} _.

Definition expiration_from (now stale_after fallback : Z) : Z :=
  match instant_checked_add now stale_after with
  | Some at_ => at_
  | None => default now (instant_checked_add now fallback)
  end.
(** [refill_interval.checked_mul(capacity).unwrap_or(Duration::MAX)]. *)
Definition stale_after_of (interval capacity : Z) : Z :=
  if interval * capacity <=? DURATION_MAX then interval * capacity else DURATION_MAX.

Section table.
Context {K : Type} `{Countable K}.

Definition BucketTable_default : BucketTable K := BucketTable_make ∅ [] 1.
Definition with_table_entries (t : BucketTable K) (m : gmap K BucketEntry) : BucketTable K :=
  BucketTable_make m (bt_expirations t) (bt_next_generation t).
Definition with_expirations (t : BucketTable K) (q : list (BucketExpiry K)) : BucketTable K :=
  BucketTable_make (bt_entries t) q (bt_next_generation t).

(** [table_sweep_expired]: at most [fuel] more steps; the steps made are counted up. *)
Fixpoint table_sweep_expired (fuel : nat) (t : BucketTable K) (now stale_after : Z)
    : nat * BucketTable K :=
  match fuel with
  | O => (O, t)
  | S fuel =>
    match bt_expirations t with
    | [] => (O, t)
    | expiry :: rest =>
      if now <? bx_expires_at expiry then (O, t) else
      let t := with_expirations t rest in
      let t :=
        match bt_entries t !! bx_key expiry with
        | None => t
        | Some entry =>
          if negb (be_generation entry =? bx_generation expiry) then t else
          let expires_at := expiration_from (tb_last_refill (be_bucket entry)) stale_after 0 in
          if expires_at <=? now then with_table_entries t (delete (bx_key expiry) (bt_entries t))
          else with_expirations t
                 (bt_expirations t
                  ++ [BucketExpiry_make (bx_key expiry) (bx_generation expiry) expires_at])
        end in
      let '(steps, t) := table_sweep_expired fuel t now stale_after in (S steps, t)
    end
  end.

(** The eviction loop of [prepare_slot], with at most [fuel] more steps. *)
Fixpoint find_eviction (fuel : nat) (t : BucketTable K)
    : option (BucketExpiry K) * nat * BucketTable K :=
  match fuel with
  | O => (None, O, t)
  | S fuel =>
    match bt_expirations t with
    | [] => (None, O, t)
    | expiry :: rest =>
      let t := with_expirations t rest in
      if match bt_entries t !! bx_key expiry with
         | Some entry => be_generation entry =? bx_generation expiry
         | None => false
         end
      then (Some expiry, 1%nat, t)
      else let '(eviction, steps, t) := find_eviction fuel t in (eviction, S steps, t)
    end
  end.

Definition table_size (t : BucketTable K) : Z := Z.of_nat (size (bt_entries t)).

Definition prepare_slot (t : BucketTable K) (maximum_entries now stale_after : Z)
    : PreparedBucketSlot K * BucketTable K :=
  let '(steps, t) := table_sweep_expired MAX_BUCKET_MAINTENANCE_STEPS_PER_PACKET t now stale_after in
  let '(eviction, more, t) :=
    if maximum_entries <=? table_size t
    then find_eviction (MAX_BUCKET_MAINTENANCE_STEPS_PER_PACKET - steps) t
    else (None, O, t) in
  (PreparedBucketSlot_make eviction (steps + more)
     ((table_size t <? maximum_entries) || bool_decide (is_Some eviction)), t).

Definition commit_slot (t : BucketTable K) (eviction : option (BucketExpiry K)) : BucketTable K :=
  match eviction with
  | Some expiry => with_table_entries t (delete (bx_key expiry) (bt_entries t))
  | None => t
  end.
Definition restore_slot (t : BucketTable K) (eviction : option (BucketExpiry K)) : BucketTable K :=
  match eviction with
  | Some expiry => with_expirations t (expiry :: bt_expirations t)
  | None => t
  end.

Definition table_insert_bucket (t : BucketTable K) (key : K) (capacity interval now stale_after : Z)
    (maintenance_steps : nat) : option (BucketAdmission * BucketTable K) :=
  let generation := bt_next_generation t in
  let next_generation := Z.max (wrapping_add u64_max generation 1) 1 in
  '(allowed, bucket) ← take_token (TokenBucket_new capacity now) capacity interval now;
  Some ({| ba_allowed := allowed; ba_maintenance_steps := maintenance_steps |},
        BucketTable_make
          (<[key := {| be_bucket := bucket; be_generation := generation |}]> (bt_entries t))
          (bt_expirations t
           ++ [BucketExpiry_make key generation (expiration_from now stale_after interval)])
          next_generation).

(** The first branch of [allow] and [allow_new_source]: a key with a bucket. *)
Definition take_existing (t : BucketTable K) (key : K) (entry : BucketEntry)
    (capacity interval now : Z) : option (BucketAdmission * BucketTable K) :=
  '(allowed, bucket) ← take_token (be_bucket entry) capacity interval now;
  Some ({| ba_allowed := allowed; ba_maintenance_steps := 0 |},
        with_table_entries t
          (<[key := {| be_bucket := bucket; be_generation := be_generation entry |}]> (bt_entries t))).

Definition allow (t : BucketTable K) (key : K) (maximum_entries capacity interval now : Z)
    : option (BucketAdmission * BucketTable K) :=
  match bt_entries t !! key with
  | Some entry => take_existing t key entry capacity interval now
  | None =>
    let stale_after := stale_after_of interval capacity in
    let '(prepared, t) := prepare_slot t maximum_entries now stale_after in
    if negb (ps_available prepared)
    then Some ({| ba_allowed := false; ba_maintenance_steps := ps_maintenance_steps prepared |}, t)
    else
      let t := commit_slot t (ps_eviction prepared) in
      table_insert_bucket t key capacity interval now stale_after (ps_maintenance_steps prepared)
  end.

Definition allow_new_source (t : BucketTable K) (key : K)
    (maximum_entries capacity interval now : Z) (global_admission : TokenBucket)
    (global_capacity : Z) : option (BucketAdmission * BucketTable K * TokenBucket) :=
  match bt_entries t !! key with
  | Some entry =>
    '(admission, t) ← take_existing t key entry capacity interval now;
    Some (admission, t, global_admission)
  | None =>
    let stale_after := stale_after_of interval capacity in
    let '(prepared, t) := prepare_slot t maximum_entries now stale_after in
    let refused := {| ba_allowed := false; ba_maintenance_steps := ps_maintenance_steps prepared |} in
    if negb (ps_available prepared) then Some (refused, t, global_admission) else
    '(admitted, global_admission) ← take_token global_admission global_capacity interval now;
    if negb admitted then Some (refused, restore_slot t (ps_eviction prepared), global_admission)
    else
      let t := commit_slot t (ps_eviction prepared) in
      '(admission, t) ←
        table_insert_bucket t key capacity interval now stale_after (ps_maintenance_steps prepared);
      Some (admission, t, global_admission)
  end.
End table.

(** * The service *)

#[export] Instance ip_addr_eq_dec : EqDecision IpAddr.
Proof. solve_decision. Defined.
#[export] Program Instance ip_addr_countable : Countable IpAddr :=
  inj_countable' (λ p, match p with IpV4 b => inl b | IpV6 b => inr b end)
    (λ x, match x with inl b => IpV4 b | inr b => IpV6 b end) _.
Next Obligation. by intros []. Qed.

(** A pending token; its registry is the one registry of the server. *)
Record PendingToken := {
  pt_identity : AuthenticatedClient;
  pt_endpoint : ObservationEndpoint;
  pt_expires_at : Z;
}.

Record ObservationState := {
  os_pending : gmap (list byte) PendingToken;
  os_global_ip_admission : TokenBucket;
  os_ip_buckets : BucketTable IpAddr;
  os_device_buckets : BucketTable (list byte);
}.
Definition ObservationState_default (now : Z) : ObservationState :=
  {| os_pending := ∅; os_global_ip_admission := TokenBucket_new 0 now;
     os_ip_buckets := BucketTable_default; os_device_buckets := BucketTable_default |}.

Definition with_tokens (s : ObservationState) (p : gmap (list byte) PendingToken) : ObservationState :=
  {| os_pending := p; os_global_ip_admission := os_global_ip_admission s;
     os_ip_buckets := os_ip_buckets s; os_device_buckets := os_device_buckets s |}.
Definition with_ips (s : ObservationState) (t : BucketTable IpAddr) (global : TokenBucket)
    : ObservationState :=
  {| os_pending := os_pending s; os_global_ip_admission := global; os_ip_buckets := t;
     os_device_buckets := os_device_buckets s |}.
Definition with_devices (s : ObservationState) (t : BucketTable (list byte)) : ObservationState :=
  {| os_pending := os_pending s; os_global_ip_admission := os_global_ip_admission s;
     os_ip_buckets := os_ip_buckets s; os_device_buckets := t |}.

(** [Internal] is a poisoned mutex: a panic while it was held. *)
Inductive ObservationIssueError := InactiveSession | CapacityReached | Entropy | InvalidLifetime.

(** [issue_unique_token]: [entropy i] is the [i]-th draw of the system's generator; the
    number of draws made is returned. *)
Fixpoint issue_unique_token (fuel : nat) (entropy : nat → option (list byte)) (i : nat)
    (pending : gmap (list byte) PendingToken) (excluded : option (list byte))
    : res ObservationIssueError (list byte) * nat :=
  match fuel with
  | O => (Err Entropy, i)
  | S fuel =>
    match entropy i with
    | None => (Err Entropy, S i)
    | Some bytes =>
      if bool_decide (pending !! bytes = None) && negb (bool_decide (excluded = Some bytes))
      then (Ok bytes, S i)
      else issue_unique_token fuel entropy (S i) pending excluded
    end
  end.

(** The closure [entry] of [issue]. *)
Definition pending_token (identity : AuthenticatedClient) (expires_at : Z)
    (endpoint : ObservationEndpoint) : PendingToken :=
  {| pt_identity := identity; pt_endpoint := endpoint; pt_expires_at := expires_at |}.

(** The expiry of a grant in seconds of the Unix epoch; a clock before the epoch has none. *)
Definition expires_unix (limits : ObservationRuntimeLimits) (system_now : Z) : option Z :=
  time ← instant_checked_add system_now (token_ttl limits);
  if time <? 0 then None else Some (time / SECOND).

(** [ObservationTokenIssuer::issue] with the registry, the clocks and the generator it
    sees. *)
Definition issue (limits : ObservationRuntimeLimits) (registry : ClientRegistry)
    (identity : AuthenticatedClient) (now system_now : Z) (entropy : nat → option (list byte))
    (s : ObservationState) : res ObservationIssueError ObservationGrant * ObservationState :=
  if negb (is_active_session registry identity) then (Err InactiveSession, s) else
  match instant_checked_add now (token_ttl limits) with
  | None => (Err InvalidLifetime, s)
  | Some expires_at =>
    match expires_unix limits system_now with
    | None => (Err InvalidLifetime, s)
    | Some expires_unix_secs =>
      let pending := filter (λ '(_, entry), now < pt_expires_at entry) (os_pending s) in
      let s := with_tokens s pending in
      if saturating_sub (max_pending_tokens limits) 2 <? Z.of_nat (size pending)
      then (Err CapacityReached, s) else
      match issue_unique_token TOKEN_GENERATION_ATTEMPTS entropy 0 pending None with
      | (Err e, _) => (Err e, s)
      | (Panic, _) => (Panic, s)
      | (Ok primary, i) =>
        match issue_unique_token TOKEN_GENERATION_ATTEMPTS entropy i pending (Some primary) with
        | (Err e, _) => (Err e, s)
        | (Panic, _) => (Panic, s)
        | (Ok alternate, _) =>
          let entry := pending_token identity expires_at in
          (Ok {| og_primary_token := primary; og_alternate_token := alternate;
                 og_expires_unix_secs := expires_unix_secs |},
           with_tokens s (<[alternate := entry Alternate]> (<[primary := entry Primary]> pending)))
        end
      end
    end
  end.

Definition canonical_ip (ip : IpAddr) : IpAddr :=
  match ip with
  | IpV6 octets =>
    match to_ipv4_mapped octets with Some v4 => IpV4 v4 | None => IpV6 octets end
  | IpV4 octets => IpV4 octets
  end.
Definition source_ip (address : SocketAddr) : IpAddr :=
  match address with SaV4 octets _ => IpV4 octets | SaV6 octets _ _ _ => IpV6 octets end.
Definition wire_address (address : SocketAddr) : SocketAddress :=
  match address with SaV4 octets port => V4 octets port | SaV6 octets port _ _ => V6 octets port end.

(** The first critical section of [authorize_probe]: the source is admitted and the token
    taken.  [None] is a panic. *)
Definition admit_probe (limits : ObservationRuntimeLimits) (s : ObservationState)
    (probe : ObservationProbe) (endpoint : ObservationEndpoint) (ip : IpAddr) (now : Z)
    : option (option PendingToken * ObservationState) :=
  if u32_max <? max_tracked_ips limits then Some (None, s) else
  let global_capacity := max_tracked_ips limits in
  '(admission, ips, global) ←
    allow_new_source (os_ip_buckets s) (canonical_ip ip) (max_tracked_ips limits)
      (per_ip_burst limits) (refill_interval limits) now (os_global_ip_admission s) global_capacity;
  let s := with_ips s ips global in
  if negb (ba_allowed admission) then Some (None, s) else
  let key := op_token probe in
  match os_pending s !! key with
  | None => Some (None, s)
  | Some entry =>
    if negb (bool_decide (pt_endpoint entry = endpoint)) then Some (None, s) else
    let s := with_tokens s (delete key (os_pending s)) in
    if pt_expires_at entry <=? now then Some (None, s) else Some (Some entry, s)
  end.

(** What follows it: the session is looked up again, and the device is admitted. *)
Definition redeem_token (limits : ObservationRuntimeLimits) (s : ObservationState)
    (registry : ClientRegistry) (pending : PendingToken) (probe : ObservationProbe) (now : Z)
    : option (option (list byte) * ObservationState) :=
  let device_key := ac_fingerprint (pt_identity pending) in
  if negb (is_active_session registry (pt_identity pending)) then Some (None, s) else
  '(admission, devices) ←
    allow (os_device_buckets s) device_key (max_tracked_devices limits) (per_device_burst limits)
      (refill_interval limits) now;
  Some (if ba_allowed admission then Some (op_nonce probe) else None, with_devices s devices).

(** * The two sockets *)

(** A probe between the two critical sections. *)
Record Admitted_probe := {
  ap_pending : PendingToken;
  ap_probe : ObservationProbe;
  ap_now : Z;
  ap_source : SocketAddr;
  ap_length : Z;
}.

(** What the outside sees, in order: tokens granted and replies sent. *)
Inductive ProbeEvent :=
| EGranted (token : list byte) (entry : PendingToken)
| EReplied (token : list byte) (entry : PendingToken) (source : SocketAddr) (bytes : list byte)
    (length : Z) (received : Z) (registry : ClientRegistry).

Record ObservationService := {
  sv_state : ObservationState;
  sv_primary : option Admitted_probe;
  sv_alternate : option Admitted_probe;
  sv_events : list ProbeEvent;
}.

Definition slot_of (v : ObservationService) (e : ObservationEndpoint) : option Admitted_probe :=
  match e with Primary => sv_primary v | Alternate => sv_alternate v end.
Definition with_slot (v : ObservationService) (e : ObservationEndpoint) (x : option Admitted_probe)
    (s : ObservationState) (events : list ProbeEvent) : ObservationService :=
  match e with
  | Primary => {| sv_state := s; sv_primary := x; sv_alternate := sv_alternate v; sv_events := events |}
  | Alternate => {| sv_state := s; sv_primary := sv_primary v; sv_alternate := x; sv_events := events |}
  end.
Definition with_issued (v : ObservationService) (s : ObservationState) (events : list ProbeEvent)
    : ObservationService :=
  {| sv_state := s; sv_primary := sv_primary v; sv_alternate := sv_alternate v; sv_events := events |}.

Inductive ObservationOp :=
| OIssueTokens (registry : ClientRegistry) (identity : AuthenticatedClient) (now system_now : Z)
    (entropy : nat → option (list byte))
| OReceive (endpoint : ObservationEndpoint) (datagram : list byte) (source : SocketAddr) (now : Z)
| ORedeem (endpoint : ObservationEndpoint) (registry : ClientRegistry).

(** The buffer of [serve_socket] holds one byte more than a probe: what is longer is cut. *)
Definition received_bytes (datagram : list byte) : list byte :=
  take (Z.to_nat (PROBE_MAX_WIRE_BYTES + 1)) datagram.

Section service.
Context `{P : Postcard} (limits : ObservationRuntimeLimits).

(** [serve_socket] up to the first critical section; a socket that is still busy with the
    previous probe receives nothing. *)
Definition serve_receive (v : ObservationService) (endpoint : ObservationEndpoint)
    (datagram : list byte) (source : SocketAddr) (now : Z) : option ObservationService :=
  match slot_of v endpoint with
  | Some _ => Some v
  | None =>
    let bytes := received_bytes datagram in
    match ObservationProbe_decode bytes with
    | Ok probe =>
      '(taken, s) ← admit_probe limits (sv_state v) probe endpoint (source_ip source) now;
      Some (with_slot v endpoint
              ((λ entry, {| ap_pending := entry; ap_probe := probe; ap_now := now;
                            ap_source := source; ap_length := blen bytes |}) <$> taken)
              s (sv_events v))
    | _ => Some v
    end
  end.

(** The rest of the loop body: the second critical section and the reply. *)
Definition serve_redeem (v : ObservationService) (endpoint : ObservationEndpoint)
    (registry : ClientRegistry) : option ObservationService :=
  match slot_of v endpoint with
  | None => Some v
  | Some a =>
    '(nonce, s) ← redeem_token limits (sv_state v) registry (ap_pending a) (ap_probe a) (ap_now a);
    let idle events := Some (with_slot v endpoint None s events) in
    match nonce with
    | None => idle (sv_events v)
    | Some nonce =>
      let reply := {| or_nonce := nonce; or_observed_source := wire_address (ap_source a);
                      or_endpoint := endpoint |} in
      match ObservationReply_encode reply with
      | Ok encoded =>
        if ap_length a <? blen encoded then idle (sv_events v)
        else idle (sv_events v
                   ++ [EReplied (op_token (ap_probe a)) (ap_pending a) (ap_source a) encoded
                         (ap_length a) (ap_now a) registry])
      | _ => idle (sv_events v)
      end
    end
  end.

Definition granted_events (s : ObservationState) (g : ObservationGrant) : list ProbeEvent :=
  let event token := match os_pending s !! token with Some e => [EGranted token e] | None => [] end in
  event (og_primary_token g) ++ event (og_alternate_token g).

Definition service_step (v : ObservationService) (op : ObservationOp) : option ObservationService :=
  match op with
  | OIssueTokens registry identity now system_now entropy =>
    match issue limits registry identity now system_now entropy (sv_state v) with
    | (Ok grant, s) => Some (with_issued v s (sv_events v ++ granted_events s grant))
    | (Err _, s) => Some (with_issued v s (sv_events v))
    | (Panic, _) => None
    end
  | OReceive endpoint datagram source now => serve_receive v endpoint datagram source now
  | ORedeem endpoint registry => serve_redeem v endpoint registry
  end.

Fixpoint service_run (v : ObservationService) (ops : list ObservationOp) : option ObservationService :=
  match ops with
  | [] => Some v
  | op :: ops => v ← service_step v op; service_run v ops
  end.
Definition service_start (now : Z) : ObservationService :=
  {| sv_state := ObservationState_default now; sv_primary := None; sv_alternate := None;
     sv_events := [] |}.
End service.
