(* ===== verification/ObservationFacts.v ===== *)
(** Facts about [Observation]: the expiry queue of a table is exactly its entries, token
    buckets keep their bounds and their rate, and no call panics. *)

From S2P Require Import Prelude.
From S2P Require Import Wire.
From S2P Require Import Postcard.
From S2P Require Import Messages.
From S2P Require Import RvMessages.
From S2P Require Import Bindings.
From S2P Require Import Registry.
From S2P Require Import Limiter.
From S2P Require Import UdpFlows.
From S2P Require Import Observation.
From Stdlib Require Import Strings.Byte.
From stdpp Require Import prelude gmap list.

#[local] Open Scope Z_scope.

(** * Token buckets *)

Definition bucket_ok (capacity : Z) (b : TokenBucket) : Prop :=
  tb_capacity b = capacity → 0 ≤ tb_tokens b ≤ capacity.

(** A bucket with some capacity is left by [take] within it; only whole intervals refill it,
    and what is taken was there. *)
Lemma take_token_spec b capacity interval now :
  0 < interval → 0 < capacity ≤ u32_max → bucket_ok capacity b →
  ∃ ok b', take_token b capacity interval now = Some (ok, b')
    ∧ tb_capacity b' = capacity ∧ 0 ≤ tb_tokens b' ≤ capacity ∧ (ok = false → tb_tokens b' = 0)
    ∧ let b0 := if tb_capacity b =? capacity then b else TokenBucket_new capacity now in
      let refill := Z.max 0 (now - tb_last_refill b0) / interval in
      tb_last_refill b' = (if 0 <? refill then now else tb_last_refill b0)
      ∧ tb_tokens b' + Z.b2z ok
        = (if 0 <? refill then Z.min (tb_tokens b0 + refill) capacity else tb_tokens b0).
Proof.
  intros Hi Hc Hb. unfold take_token. set (b0 := if _ =? _ then b else _).
  assert (tb_capacity b0 = capacity ∧ 0 ≤ tb_tokens b0 ≤ capacity) as [Hcap Htok].
  { subst b0. destruct (Z.eqb_spec (tb_capacity b) capacity); [by split; [|apply Hb]|]. simpl. lia. }
  rewrite (proj2 (Z.eqb_neq interval 0)) by lia.
  unfold duration_since, saturating_sub, saturating_add.
  set (refill := Z.max 0 (now - tb_last_refill b0) / interval).
  assert (0 ≤ refill) by (apply Z.div_pos; lia).
  unfold u32_max in *. cbv zeta.
  destruct (Z.ltb_spec 0 refill) as [Hr|Hr]; simpl.
  - assert (Z.min (Z.min 4294967295 (tb_tokens b0 + (if refill <=? 4294967295 then refill else 4294967295)))
              capacity = Z.min (tb_tokens b0 + refill) capacity) as -> by (case_match; lia).
    match goal with |- context [?x =? 0] => destruct (Z.eqb_spec x 0) end; eexists _, _; (split; [done|]); simpl; split_and!; try done; lia.
  - match goal with |- context [?x =? 0] => destruct (Z.eqb_spec x 0) end; eexists _, _; (split; [done|]); simpl; split_and!; try done; lia.
Qed.

(** * Tables *)

Section table.
Context {K : Type} `{Countable K}.
Implicit Types (m : gmap K BucketEntry) (t : BucketTable K).

Definition entry_ids m : list (K * Z) := (λ '(k, e), (k, be_generation e)) <$> map_to_list m.
Definition queue_ids (q : list (BucketExpiry K)) : list (K * Z) :=
  (λ x, (bx_key x, bx_generation x)) <$> q.

(** The queue holds one record per entry, with its generation. *)
Definition table_ok t : Prop := queue_ids (bt_expirations t) ≡ₚ entry_ids (bt_entries t).

Lemma entry_ids_insert m k e :
  m !! k = None → entry_ids (<[k:=e]> m) ≡ₚ (k, be_generation e) :: entry_ids m.
Proof. intros Hk. unfold entry_ids. by rewrite map_to_list_insert. Qed.

Lemma entry_ids_delete m k e :
  m !! k = Some e → entry_ids m ≡ₚ (k, be_generation e) :: entry_ids (delete k m).
Proof. intros Hk. unfold entry_ids. rewrite <- (map_to_list_delete m k e) by done. done. Qed.

Lemma entry_ids_update m k e b :
  m !! k = Some e →
  entry_ids (<[k := {| be_bucket := b; be_generation := be_generation e |}]> m) ≡ₚ entry_ids m.
Proof.
  intros Hk. rewrite (entry_ids_delete m k e Hk), <- insert_delete_eq.
  by rewrite entry_ids_insert by apply lookup_delete_eq.
Qed.

Lemma entry_ids_lookup m k g : (k, g) ∈ entry_ids m → ∃ e, m !! k = Some e ∧ be_generation e = g.
Proof.
  intros ([k' e]&[= -> ->]&Hin)%list_elem_of_fmap. exists e. split; [|done].
  by apply elem_of_map_to_list in Hin.
Qed.

Lemma table_ok_default : table_ok BucketTable_default.
Proof. unfold table_ok, BucketTable_default, entry_ids. simpl. by rewrite map_to_list_empty. Qed.

(** A queue whose records are those of the entries starts with the record of an entry. *)
Lemma table_ok_head t x rest :
  table_ok t → bt_expirations t = x :: rest →
  ∃ e, bt_entries t !! bx_key x = Some e ∧ be_generation e = bx_generation x
    ∧ queue_ids rest ≡ₚ entry_ids (delete (bx_key x) (bt_entries t)).
Proof.
  unfold table_ok. intros Hok Hq. rewrite Hq in Hok. simpl in Hok.
  destruct (entry_ids_lookup (bt_entries t) (bx_key x) (bx_generation x)) as (e&He&Hg).
  { rewrite <- Hok. left. }
  exists e. split; [done|]. split; [done|].
  rewrite (entry_ids_delete _ _ _ He), Hg in Hok. by apply Permutation_cons_inv in Hok.
Qed.

(** Sweeping only forgets entries, together with their records, and counts its steps. *)
Lemma bucket_sweep_ok fuel now stale : ∀ t,
  table_ok t →
  let '(steps, t') := table_sweep_expired fuel t now stale in
  (steps ≤ fuel)%nat ∧ table_ok t' ∧ bt_entries t' ⊆ bt_entries t
  ∧ bt_next_generation t' = bt_next_generation t.
Proof.
  induction fuel as [|fuel IH]; intros t Hok; simpl; [done|].
  destruct (bt_expirations t) as [|x rest] eqn:Hq; [split_and!; [lia|done..]|].
  destruct (now <? bx_expires_at x); [split_and!; [lia|done..]|].
  destruct (table_ok_head t x rest Hok Hq) as (e&He&Hg&Hrest). simpl. rewrite He, Hg, Z.eqb_refl.
  cbn [negb]. set (t1 := if _ <=? now then _ else _).
  assert (table_ok t1 ∧ bt_entries t1 ⊆ bt_entries t ∧ bt_next_generation t1 = bt_next_generation t)
    as (Hok1&Hsub&Hgen).
  { subst t1. case_match; simpl.
    - split_and!; [done|apply delete_subseteq|done].
    - split_and!; [|done|done]. unfold table_ok. simpl. unfold queue_ids. rewrite fmap_app. simpl.
      rewrite (Permutation_app_comm _ [_]). simpl. rewrite (entry_ids_delete _ _ _ He), Hg.
      by apply Permutation_skip. }
  specialize (IH t1 Hok1). destruct (table_sweep_expired fuel t1 now stale) as [steps t2].
  destruct IH as (Hs&Hok2&Hsub2&Hgen2). split_and!; [lia|done|by etransitivity|congruence].
Qed.

(** Under the invariant the first record found is always current. *)
Lemma find_eviction_ok fuel t :
  table_ok t →
  let '(eviction, steps, t') := find_eviction fuel t in
  (steps ≤ fuel)%nat ∧ bt_entries t' = bt_entries t ∧ bt_next_generation t' = bt_next_generation t
  ∧ match eviction with
    | Some x => bt_expirations t = x :: bt_expirations t'
    | None => t' = t ∧ (fuel = O ∨ bt_expirations t = [])
    end.
Proof.
  intros Hok. destruct fuel as [|fuel]; simpl; [split_and!; auto|].
  destruct (bt_expirations t) as [|x rest] eqn:Hq; [split_and!; auto with lia|].
  destruct (table_ok_head t x rest Hok Hq) as (e&He&Hg&_). simpl. rewrite He, Hg, Z.eqb_refl.
  split_and!; [lia|done..].
Qed.

(** What [prepare_slot] leaves: at most four maintenance steps, and a table that is in order
    once the slot is committed or restored. *)
Lemma prepare_slot_ok t maximum now stale :
  table_ok t →
  let '(prepared, t') := prepare_slot t maximum now stale in
  (ps_maintenance_steps prepared ≤ MAX_BUCKET_MAINTENANCE_STEPS_PER_PACKET)%nat
  ∧ bt_entries t' ⊆ bt_entries t ∧ bt_next_generation t' = bt_next_generation t
  ∧ table_ok (restore_slot t' (ps_eviction prepared))
  ∧ table_ok (commit_slot t' (ps_eviction prepared))
  ∧ (ps_available prepared = true → table_size t ≤ maximum →
     table_size (commit_slot t' (ps_eviction prepared)) < maximum).
Proof.
  intros Hok. unfold prepare_slot.
  pose proof (bucket_sweep_ok MAX_BUCKET_MAINTENANCE_STEPS_PER_PACKET now stale t Hok) as Hsw.
  destruct (table_sweep_expired _ t now stale) as [steps t1]. destruct Hsw as (Hsteps&Hok1&Hsub&Hgen).
  assert (table_size t1 ≤ table_size t) as Hsize
    by (unfold table_size; apply inj_le, map_subseteq_size; done).
  destruct (Z.leb_spec maximum (table_size t1)) as [Hfull|Hroom]; cycle 1.
  { simpl. split_and!; try done; lia. }
  pose proof (find_eviction_ok (MAX_BUCKET_MAINTENANCE_STEPS_PER_PACKET - steps) t1 Hok1) as Hev.
  destruct (find_eviction _ t1) as [[ev more] t2]. destruct Hev as (Hmore&He2&Hg2&Hev). simpl.
  split; [lia|]. split; [by rewrite He2|]. split; [congruence|].
  destruct ev as [x|]; simpl.
  - destruct (table_ok_head t1 x (bt_expirations t2) Hok1 Hev) as (e&He&Hg&Hrest).
    split; [unfold table_ok in Hok1; rewrite Hev in Hok1; unfold table_ok; cbn [bt_expirations bt_entries restore_slot with_expirations]; by rewrite He2|].
    split; [unfold table_ok; simpl; by rewrite He2|]. intros _ Hle. unfold table_size in *. simpl.
    rewrite He2, map_size_delete_Some by (by eexists).
    assert (size (bt_entries t1) ≠ 0%nat); [|lia].
    intros Hz%map_size_empty_inv. by rewrite Hz, lookup_empty in He.
  - destruct Hev as [-> _]. split_and!; [done|done|].
    intros [Hlt%Z.ltb_lt|Hx]%orb_true_iff _; [done|done].
Qed.

Lemma insert_bucket_ok t key capacity interval now stale steps :
  0 < interval → 0 < capacity ≤ u32_max → table_ok t → bt_entries t !! key = None →
  ∃ a t', table_insert_bucket t key capacity interval now stale steps = Some (a, t')
    ∧ ba_maintenance_steps a = steps ∧ ba_allowed a = true ∧ table_ok t'
    ∧ table_size t' = table_size t + 1
    ∧ ∃ e, bt_entries t' = <[key := e]> (bt_entries t) ∧ bucket_ok capacity (be_bucket e).
Proof.
  intros Hi Hc Hok Hk. unfold table_insert_bucket.
  destruct (take_token_spec (TokenBucket_new capacity now) capacity interval now)
    as (ok&b'&Ht&Hcap&Hb&Hno&_&Hs); [done|done|unfold bucket_ok; simpl; lia|].
  rewrite Ht. simpl. simpl in Hs. rewrite Z.eqb_refl in Hs. simpl in Hs.
  rewrite Z.sub_diag, Z.max_id, Z.div_0_l in Hs by lia. simpl in Hs.
  eexists _, _. split; [done|]. simpl. split; [done|]. 
  split; [destruct ok; [done|specialize (Hno eq_refl); simpl in Hs; lia]|].
  split; [|split].
  - unfold table_ok, queue_ids in *. simpl. rewrite fmap_app. simpl.
    rewrite (Permutation_app_comm _ [_]). simpl. rewrite entry_ids_insert by done. by apply Permutation_skip.
  - unfold table_size. simpl. rewrite map_size_insert_None by done. lia.
  - eexists. split; [done|]. unfold bucket_ok. simpl. by intros _.
Qed.

Record table_inv (maximum capacity : Z) t : Prop := {
  ti_queue : table_ok t;
  ti_size : table_size t ≤ maximum;
  ti_buckets k e : bt_entries t !! k = Some e → bucket_ok capacity (be_bucket e);
}.

Lemma table_inv_default maximum capacity : 0 ≤ maximum → table_inv maximum capacity BucketTable_default.
Proof.
  split; [apply table_ok_default|by unfold table_size; simpl; rewrite map_size_empty|].
  intros k e Hk. simpl in Hk. by rewrite lookup_empty in Hk.
Qed.

Lemma table_inv_shrink maximum capacity t t' :
  table_inv maximum capacity t → table_ok t' → bt_entries t' ⊆ bt_entries t →
  table_inv maximum capacity t'.
Proof.
  intros [_ Hs Hb] Hok Hsub. split; [done| |].
  - unfold table_size in *. pose proof (map_subseteq_size _ _ Hsub). lia.
  - intros k e Hk. by eapply Hb, lookup_weaken.
Qed.

Lemma table_inv_insert maximum capacity t t' key e :
  table_inv maximum capacity t → table_ok t' → table_size t' ≤ maximum →
  bt_entries t' = <[key := e]> (bt_entries t) → bucket_ok capacity (be_bucket e) →
  table_inv maximum capacity t'.
Proof.
  intros [_ _ Hb] Hok Hs He Hbk. split; [done|done|]. intros k x. rewrite He.
  intros [[-> <-]|[_ Hk]]%lookup_insert_Some; [done|by eapply Hb].
Qed.

Lemma take_existing_ok maximum capacity interval now t key entry :
  0 < interval → 0 < capacity ≤ u32_max → table_inv maximum capacity t →
  bt_entries t !! key = Some entry →
  ∃ a t', take_existing t key entry capacity interval now = Some (a, t')
    ∧ ba_maintenance_steps a = 0%nat ∧ table_inv maximum capacity t'
    ∧ dom (bt_entries t') = dom (bt_entries t).
Proof.
  intros Hi Hc [Hok Hs Hb] Hk. unfold take_existing.
  destruct (take_token_spec (be_bucket entry) capacity interval now)
    as (ok&b'&Ht&Hcap&Hb'&_); [done|done|by eapply Hb|].
  rewrite Ht. simpl. eexists _, _. split; [done|]. split; [done|]. simpl. split.
  - eapply table_inv_insert; [by split|..]; [| |done|].
    + unfold table_ok in *. simpl. by rewrite (entry_ids_update _ _ entry).
    + unfold table_size in *. simpl. rewrite map_size_insert_Some by (by eexists). done.
    + simpl. by intros _.
  - apply dom_insert_lookup_L. by eexists.
Qed.

(** The commit or the refusal of a prepared slot, then the new bucket. *)
Lemma commit_insert_ok maximum capacity interval now stale t key :
  0 < interval → 0 < capacity ≤ u32_max → table_inv maximum capacity t →
  bt_entries t !! key = None →
  let '(prepared, t') := prepare_slot t maximum now stale in
  (ps_maintenance_steps prepared ≤ MAX_BUCKET_MAINTENANCE_STEPS_PER_PACKET)%nat
  ∧ table_inv maximum capacity (restore_slot t' (ps_eviction prepared))
  ∧ bt_entries (restore_slot t' (ps_eviction prepared)) !! key = None
  ∧ (ps_available prepared = false → restore_slot t' (ps_eviction prepared) = t')
  ∧ (ps_available prepared = true → ∃ a t'',
       table_insert_bucket (commit_slot t' (ps_eviction prepared)) key capacity interval now stale
         (ps_maintenance_steps prepared) = Some (a, t'')
       ∧ ba_maintenance_steps a = ps_maintenance_steps prepared ∧ ba_allowed a = true
       ∧ table_inv maximum capacity t'' ∧ is_Some (bt_entries t'' !! key)).
Proof.
  intros Hi Hc Hinv Hk. pose proof (prepare_slot_ok t maximum now stale (ti_queue _ _ _ Hinv)) as Hp.
  assert (ps_available (prepare_slot t maximum now stale).1 = false →
          ps_eviction (prepare_slot t maximum now stale).1 = None) as Hun.
  { unfold prepare_slot. destruct (table_sweep_expired _ _ _ _) as [? t1].
    destruct (if _ <=? _ then _ else _) as [[[x|] ?] ?]; simpl; [by rewrite orb_true_r|done]. }
  destruct (prepare_slot t maximum now stale) as [prepared t1].
  destruct Hp as (Hsteps&Hsub&_&Hrest&Hcom&Hsize). simpl in Hun.
  assert (bt_entries (restore_slot t1 (ps_eviction prepared)) ⊆ bt_entries t) as Hsubr
    by (by destruct (ps_eviction prepared)).
  assert (bt_entries (commit_slot t1 (ps_eviction prepared)) ⊆ bt_entries t) as Hsubc.
  { destruct (ps_eviction prepared); simpl; [|done]. etransitivity; [apply delete_subseteq|done]. }
  split; [done|]. split; [by eapply table_inv_shrink|]. split; [by eapply lookup_weaken_None|].
  split; [intros Ha; by rewrite (Hun Ha)|]. intros Ha.
  pose proof (table_inv_shrink _ _ _ _ Hinv Hcom Hsubc) as Hinvc.
  destruct (insert_bucket_ok (commit_slot t1 (ps_eviction prepared)) key capacity interval now stale
    (ps_maintenance_steps prepared)) as (a&t2&Hins&Hst&Hal&Hok2&Hsz&e&He&Hb); try done.
  { by eapply lookup_weaken_None. }
  exists a, t2. split; [done|]. split; [done|]. split; [done|].
  specialize (Hsize Ha (ti_size _ _ _ Hinv)). split.
  - eapply table_inv_insert; [exact Hinvc|done|lia|done|done].
  - rewrite He, lookup_insert_eq. by eexists.
Qed.

Lemma allow_ok maximum capacity interval now t key :
  0 < interval → 0 < capacity ≤ u32_max → table_inv maximum capacity t →
  ∃ a t', allow t key maximum capacity interval now = Some (a, t')
    ∧ (ba_maintenance_steps a ≤ MAX_BUCKET_MAINTENANCE_STEPS_PER_PACKET)%nat
    ∧ table_inv maximum capacity t'.
Proof.
  intros Hi Hc Hinv. unfold allow. destruct (bt_entries t !! key) as [entry|] eqn:Hk.
  { destruct (take_existing_ok maximum capacity interval now t key entry)
      as (a&t0&->&Hst&Hinv0&_); try done. exists a, t0. rewrite Hst. split_and!; [done|lia|done]. }
  pose proof (commit_insert_ok maximum capacity interval now (stale_after_of interval capacity) t key
    Hi Hc Hinv Hk) as Hp.
  destruct (prepare_slot _ _ _ _) as [prepared t1]. destruct Hp as (Hsteps&Hr&_&Hun&Hav).
  destruct (ps_available prepared); simpl.
  - destruct (Hav eq_refl) as (a&t2&->&Hst&_&Hinv2&_). exists a, t2. split_and!; [done| |done]. by rewrite Hst.
  - rewrite (Hun eq_refl) in Hr. by eexists _, _.
Qed.

(** A new source is entered only with a token of the global bucket. *)
Lemma allow_new_source_ok maximum capacity interval now global gcap t key :
  0 < interval → 0 < capacity ≤ u32_max → 0 < gcap ≤ u32_max →
  table_inv maximum capacity t → bucket_ok gcap global →
  ∃ a t' g', allow_new_source t key maximum capacity interval now global gcap = Some (a, t', g')
    ∧ (ba_maintenance_steps a ≤ MAX_BUCKET_MAINTENANCE_STEPS_PER_PACKET)%nat
    ∧ table_inv maximum capacity t' ∧ bucket_ok gcap g'
    ∧ (g' = global ∨ ∃ ok, take_token global gcap interval now = Some (ok, g'))
    ∧ (bt_entries t !! key = None → is_Some (bt_entries t' !! key) →
       take_token global gcap interval now = Some (true, g')).
Proof.
  intros Hi Hc Hg Hinv Hgb. unfold allow_new_source. destruct (bt_entries t !! key) as [entry|] eqn:Hk.
  { destruct (take_existing_ok maximum capacity interval now t key entry)
      as (a&t'&->&Hst&Hinv'&_); try done. exists a, t', global. rewrite Hst.
    split_and!; try done; [lia|by left]. }
  pose proof (commit_insert_ok maximum capacity interval now (stale_after_of interval capacity) t key
    Hi Hc Hinv Hk) as Hp.
  destruct (prepare_slot _ _ _ _) as [prepared t1]. destruct Hp as (Hsteps&Hr&Hnk&Hun&Hav).
  destruct (ps_available prepared) eqn:Ha; cbn [negb].
  2:{ rewrite (Hun eq_refl) in Hr, Hnk. eexists _, _, global. split; [done|].
      split_and!; try done; [by left|]. intros _. rewrite Hnk. by intros []. }
  destruct (take_token_spec global gcap interval now) as (ok&g'&Ht&Hcap&Hb&_); [done..|].
  rewrite Ht. simpl. destruct ok; cbn [negb].
  - destruct (Hav eq_refl) as (a&t2&->&Hst&_&Hinv2&_). exists a, t2, g'.
    split; [done|]. rewrite Hst. split_and!; try done; [by intros _|by eauto].
  - eexists _, _, g'. split; [done|]. split_and!; try done; [by intros _|by eauto|].
    intros _. rewrite Hnk. by intros [].
Qed.
End table.
