(* ===== verification/ObservationProps.v ===== *)
(** Properties of the observation service: its state is bounded and it never panics, a reply
    costs a token that was granted to a live session, and new sources are admitted at a
    bounded rate. *)

From S2P Require Import Prelude.
From S2P Require Import Wire.
From S2P Require Import Postcard.
From S2P Require Import PostcardRef.
From S2P Require Import Messages.
From S2P Require Import RvMessages.
From S2P Require Import Bindings.
From S2P Require Import Registry.
From S2P Require Import Limiter.
From S2P Require Import UdpFlows.
From S2P Require Import Observation.
From S2P Require Import ObservationFacts.
From S2P Require Import RegistryFacts.
From Stdlib Require Import Strings.Byte Sorting.Sorted.
From stdpp Require Import prelude gmap list.

#[local] Open Scope Z_scope.

(** * The invariant *)

Definition event_grants (token : list byte) (e : ProbeEvent) : bool :=
  match e with EGranted t _ => bool_decide (t = token) | _ => false end.
Definition event_replies (token : list byte) (e : ProbeEvent) : bool :=
  match e with EReplied t _ _ _ _ _ _ => bool_decide (t = token) | _ => false end.
Definition tally (f : ProbeEvent → bool) (l : list ProbeEvent) : Z := blen (filter f l).
Definition held (token : list byte) (x : option Admitted_probe) : Z :=
  match x with Some a => Z.b2z (bool_decide (op_token (ap_probe a) = token)) | None => 0 end.
Definition waiting (token : list byte) (p : gmap (list byte) PendingToken) : Z :=
  Z.b2z (bool_decide (is_Some (p !! token))).

Lemma tally_app f l k : tally f (l ++ k) = tally f l + tally f k.
Proof. unfold tally. by rewrite filter_app, blen_app. Qed.
Lemma tally_nil f : tally f [] = 0.
Proof. done. Qed.
Lemma tally_one f e : tally f [e] = Z.b2z (f e).
Proof. unfold tally. rewrite filter_cons. destruct (f e); by simpl. Qed.
Lemma events_tally_nonneg f l : 0 ≤ tally f l.
Proof. apply blen_nonneg. Qed.

(** What valid limits provide. *)
Record limits_ok (l : ObservationRuntimeLimits) : Prop := {
  lo_refill : 0 < refill_interval l;
  lo_pending : 2 ≤ max_pending_tokens l;
  lo_ips : 0 < max_tracked_ips l ≤ 65536;
  lo_devices : 0 < max_tracked_devices l;
  lo_ip_burst : 0 < per_ip_burst l ≤ u32_max;
  lo_device_burst : 0 < per_device_burst l ≤ u32_max;
}.

Lemma is_valid_ok l now system_now :
  is_valid l now system_now = true → 0 ≤ refill_interval l → limits_ok l.
Proof.
  unfold is_valid, MAX_OBSERVATION_BURST, MAX_TRACKED_OBSERVATION_SUBJECTS, u32_max.
  rewrite !andb_true_iff, !negb_true_iff, !Z.leb_le, !Z.ltb_lt, !Z.eqb_neq. intros Hv Hr.
  destruct_and!. split; unfold u32_max; lia.
Qed.

Section props.
Context `{P : Postcard}.

(** What a reply on record was entitled to. *)
Definition reply_ok (events : list ProbeEvent) (e : ProbeEvent) : Prop :=
  match e with
  | EGranted _ _ => True
  | EReplied token entry source bytes length received registry =>
    EGranted token entry ∈ events
    ∧ received < pt_expires_at entry
    ∧ is_active_session registry (pt_identity entry) = true
    ∧ blen bytes ≤ length
    ∧ ∃ nonce, ObservationReply_encode
                 {| or_nonce := nonce; or_observed_source := wire_address source;
                    or_endpoint := pt_endpoint entry |} = Ok bytes
  end.

Definition slot_ok (events : list ProbeEvent) (endpoint : ObservationEndpoint)
    (a : Admitted_probe) : Prop :=
  EGranted (op_token (ap_probe a)) (ap_pending a) ∈ events
  ∧ pt_endpoint (ap_pending a) = endpoint ∧ ap_now a < pt_expires_at (ap_pending a).

Record state_ok (l : ObservationRuntimeLimits) (s : ObservationState) : Prop := {
  so_pending : Z.of_nat (size (os_pending s)) ≤ max_pending_tokens l;
  so_ips : table_inv (max_tracked_ips l) (per_ip_burst l) (os_ip_buckets s);
  so_devices : table_inv (max_tracked_devices l) (per_device_burst l) (os_device_buckets s);
  so_global : bucket_ok (max_tracked_ips l) (os_global_ip_admission s);
}.

Record service_inv (l : ObservationRuntimeLimits) (v : ObservationService) : Prop := {
  si_state : state_ok l (sv_state v);
  si_granted token e : os_pending (sv_state v) !! token = Some e → EGranted token e ∈ sv_events v;
  si_slots endpoint a : slot_of v endpoint = Some a → slot_ok (sv_events v) endpoint a;
  si_events e : e ∈ sv_events v → reply_ok (sv_events v) e;
  si_count token :
    tally (event_replies token) (sv_events v) + held token (sv_primary v) + held token (sv_alternate v)
    + waiting token (os_pending (sv_state v)) ≤ tally (event_grants token) (sv_events v);
}.

Lemma reply_ok_mono events more e : reply_ok events e → reply_ok (events ++ more) e.
Proof.
  destruct e; simpl; [done|]. intros (?&?&?&?&?). split_and!; try done. apply elem_of_app. by left.
Qed.
Lemma slot_ok_mono events more ep a : slot_ok events ep a → slot_ok (events ++ more) ep a.
Proof. intros (?&?&?). split_and!; try done. apply elem_of_app. by left. Qed.

Lemma held_nonneg token x : 0 ≤ held token x.
Proof. destruct x; simpl; [|done]. by destruct (bool_decide _). Qed.
Lemma waiting_nonneg token p : 0 ≤ waiting token p.
Proof. unfold waiting. by destruct (bool_decide _). Qed.

Lemma waiting_subseteq token p q : p ⊆ q → waiting token p ≤ waiting token q.
Proof.
  intros Hsub. unfold waiting. case_bool_decide as Hp; [|by apply waiting_nonneg].
  destruct Hp as [x Hx]. rewrite bool_decide_eq_true_2; [done|]. exists x. by eapply lookup_weaken.
Qed.
Lemma waiting_delete token key p e :
  p !! key = Some e →
  waiting token (delete key p) + Z.b2z (bool_decide (key = token)) = waiting token p.
Proof.
  intros Hk. unfold waiting. case_bool_decide as Hd; destruct (decide (key = token)) as [->|Hne].
  - rewrite lookup_delete_eq in Hd. by destruct Hd.
  - rewrite lookup_delete_ne in Hd by done. rewrite (bool_decide_eq_false_2 (key = token)) by done.
    by rewrite bool_decide_eq_true_2.
  - rewrite Hk, !bool_decide_eq_true_2 by (try done; by eexists). done.
  - rewrite lookup_delete_ne in Hd by done. by rewrite !bool_decide_eq_false_2.
Qed.
Lemma waiting_insert token key p e :
  p !! key = None →
  waiting token (<[key := e]> p) = waiting token p + Z.b2z (bool_decide (key = token)).
Proof.
  intros Hk. pose proof (waiting_delete token key (<[key := e]> p) e (lookup_insert_eq _ _ _)) as Hd.
  rewrite delete_insert_id in Hd by done. lia.
Qed.

(** Steps that only shrink the pending tokens and leave slots and events alone. *)
Lemma service_inv_state l v s :
  service_inv l v → state_ok l s → os_pending s ⊆ os_pending (sv_state v) →
  service_inv l (with_issued v s (sv_events v)).
Proof.
  intros [_ Hg Hsl He Hc] Hs Hsub. split; simpl; try done.
  - intros token e Ht. by eapply Hg, lookup_weaken.
  - intros token. pose proof (waiting_subseteq token _ _ Hsub). specialize (Hc token). lia.
Qed.

(** ** Issuing *)

Lemma issue_unique_token_ok fuel entropy i p excluded token n :
  issue_unique_token fuel entropy i p excluded = (Ok token, n) →
  p !! token = None ∧ excluded ≠ Some token.
Proof.
  revert i; induction fuel as [|fuel IH]; intros i; simpl; [done|].
  destruct (entropy i) as [bytes|]; [|done]. destruct (_ && _) eqn:Hc; [|by apply IH].
  apply andb_true_iff in Hc as [Hp%bool_decide_eq_true Hx%negb_true_iff%bool_decide_eq_false].
  by intros [= <- _].
Qed.
Lemma issue_unique_token_no_panic fuel entropy i p excluded n :
  issue_unique_token fuel entropy i p excluded ≠ (Panic, n).
Proof.
  revert i; induction fuel as [|fuel IH]; intros i; simpl; [done|].
  destruct (entropy i); [|done]. by case_match.
Qed.

(** A grant: two distinct new tokens, one per endpoint, within the bound; an error at most
    drops expired tokens. *)
Lemma observation_issue_spec l registry identity now system_now entropy s :
  limits_ok l → state_ok l s →
  match issue l registry identity now system_now entropy s with
  | (Ok g, s') => ∃ p expires_at, let entry := pending_token identity expires_at in
      is_active_session registry identity = true ∧ p ⊆ os_pending s
      ∧ p !! og_primary_token g = None ∧ p !! og_alternate_token g = None
      ∧ og_primary_token g ≠ og_alternate_token g
      ∧ s' = with_tokens s (<[og_alternate_token g := entry Alternate]>
                              (<[og_primary_token g := entry Primary]> p))
      ∧ state_ok l s'
  | (Err _, s') => state_ok l s' ∧ os_pending s' ⊆ os_pending s
  | (Panic, _) => False
  end.
Proof.
  intros Hl Hs. unfold issue. destruct (is_active_session _ _) eqn:Hact; cbn [negb]; [|done].
  destruct (instant_checked_add _ _) as [at_|]; [|done].
  destruct (expires_unix _ _) as [unix|]; [|done].
  set (p := filter _ (os_pending s)).
  assert (p ⊆ os_pending s) as Hsub by apply map_filter_subseteq.
  assert (state_ok l (with_tokens s p)) as Hsp.
  { destruct Hs as [Hp ? ? ?]. split; try done. simpl. pose proof (map_subseteq_size _ _ Hsub). lia. }
  destruct (Z.ltb_spec (saturating_sub (max_pending_tokens l) 2) (Z.of_nat (size p))) as [|Hroom]; [done|].
  destruct (issue_unique_token _ entropy 0 p None) as [[primary|e|] i] eqn:H1; [|done|].
  2:{ by apply issue_unique_token_no_panic in H1. }
  destruct (issue_unique_token _ entropy i p (Some primary)) as [[alternate|e|] j] eqn:H2; [|done|].
  2:{ by apply issue_unique_token_no_panic in H2. }
  apply issue_unique_token_ok in H1 as [H1 _], H2 as [H2 Hne].
  exists p, at_. simpl. split_and!; try done; [congruence|].
  destruct Hs as [_ ? ? ?]. split; try done. simpl.
  rewrite map_size_insert_None by (rewrite lookup_insert_ne by congruence; done).
  rewrite map_size_insert_None by done. unfold saturating_sub in Hroom. pose proof (lo_pending _ Hl). lia.
Qed.

Lemma service_inv_issue l v registry identity now system_now entropy :
  limits_ok l → service_inv l v →
  ∃ v', service_step l v (OIssueTokens registry identity now system_now entropy) = Some v'
    ∧ service_inv l v'.
Proof.
  intros Hl Hinv. simpl.
  pose proof (observation_issue_spec l registry identity now system_now entropy _ Hl (si_state _ _ Hinv)) as Hi.
  destruct (issue _ _ _ _ _ _ _) as [[g|e|] s']; [| |done]; cycle 1.
  { destruct Hi as [Hs' Hsub]. eexists. split; [done|]. by apply service_inv_state. }
  destruct Hi as (p&expires&_&Hsub&Hp&Ha&Hne&->&Hs'). eexists. split; [done|].
  cbv beta zeta in Hs' |- *.
  set (entry := pending_token identity expires) in *.
  set (p' := <[og_alternate_token g := entry Alternate]> (<[og_primary_token g := entry Primary]> p)) in *.
  assert (granted_events (with_tokens (sv_state v) p') g
          = [EGranted (og_primary_token g) (entry Primary); EGranted (og_alternate_token g) (entry Alternate)])
    as ->.
  { unfold granted_events. simpl. unfold p'. rewrite lookup_insert_ne by congruence.
    by rewrite !lookup_insert_eq. }
  destruct Hinv as [_ Hg Hsl He Hc]. split; simpl; [done| | | |].
  - intros token e. unfold p'. rewrite elem_of_app.
    intros [[<- <-]|[_ [[<- <-]|[_ Hl']]%lookup_insert_Some]]%lookup_insert_Some.
    + right. right. left.
    + right. left.
    + left. by eapply Hg, lookup_weaken.
  - intros ep a Ha'. apply slot_ok_mono. apply Hsl. by destruct ep.
  - intros e [Hin|Hin]%elem_of_app; [by apply reply_ok_mono, He|].
    apply elem_of_cons in Hin as [->|Hin%list_elem_of_singleton]; [done|by subst].
  - intros token. rewrite !tally_app. change ([?a; ?b]) with ([a] ++ [b]).
    rewrite (tally_app _ [_] [_]), (tally_app _ [_] [_]), !tally_one. simpl.
    unfold p'. rewrite waiting_insert, waiting_insert by (try rewrite lookup_insert_ne; congruence).
    pose proof (waiting_subseteq token _ _ Hsub). specialize (Hc token). lia.
Qed.

(** ** Probes *)

Lemma admit_probe_spec l s probe endpoint ip now :
  limits_ok l → state_ok l s →
  ∃ taken s', admit_probe l s probe endpoint ip now = Some (taken, s') ∧ state_ok l s'
    ∧ match taken with
      | None => os_pending s' ⊆ os_pending s
      | Some e =>
        os_pending s !! op_token probe = Some e ∧ os_pending s' = delete (op_token probe) (os_pending s)
        ∧ pt_endpoint e = endpoint ∧ now < pt_expires_at e
      end.
Proof.
  intros Hl Hs. unfold admit_probe. pose proof (lo_ips _ Hl) as Hips.
  rewrite (proj2 (Z.ltb_ge u32_max (max_tracked_ips l))) by (unfold u32_max; lia).
  destruct (allow_new_source_ok (max_tracked_ips l) (per_ip_burst l) (refill_interval l) now
    (os_global_ip_admission s) (max_tracked_ips l) (os_ip_buckets s) (canonical_ip ip))
    as (a&ips&g&Ha&_&Hips'&Hg&_).
  { by apply lo_refill. } { by apply lo_ip_burst. } { unfold u32_max; lia. } { by apply so_ips. }
  { by apply so_global. }
  rewrite Ha. cbn [mbind option_bind].
  assert (state_ok l (with_ips s ips g)) as Hs1 by (destruct Hs; by split).
  destruct (ba_allowed a); cbn [negb]; [|by eexists _, _]. cbn [os_pending with_ips].
  destruct (os_pending s !! op_token probe) as [e|] eqn:Hp; [|by eexists _, _].
  case_bool_decide as He; cbn [negb]; [|by eexists _, _].
  assert (state_ok l (with_tokens (with_ips s ips g) (delete (op_token probe) (os_pending s)))) as Hs2.
  { destruct Hs1 as [Hpend ? ? ?]. split; try done. simpl in *.
    pose proof (size_delete_le (op_token probe) (os_pending s)). lia. }
  destruct (Z.leb_spec (pt_expires_at e) now).
  - eexists _, _. split; [done|]. split; [done|]. apply delete_subseteq.
  - eexists _, _. split; [done|]. split; [done|]. done.
Qed.

Lemma slot_with_slot v endpoint x s events endpoint' :
  slot_of (with_slot v endpoint x s events) endpoint'
  = if decide (endpoint' = endpoint) then x else slot_of v endpoint'.
Proof. by destruct endpoint, endpoint'. Qed.
Lemma with_slot_fields v endpoint x s events :
  sv_state (with_slot v endpoint x s events) = s ∧ sv_events (with_slot v endpoint x s events) = events
  ∧ ∀ token, held token (sv_primary (with_slot v endpoint x s events))
             + held token (sv_alternate (with_slot v endpoint x s events)) + held token (slot_of v endpoint)
             = held token (sv_primary v) + held token (sv_alternate v) + held token x.
Proof. destruct endpoint; simpl; split_and!; try done; intros; lia. Qed.

Lemma service_inv_receive l v endpoint datagram source now :
  limits_ok l → service_inv l v →
  ∃ v', service_step l v (OReceive endpoint datagram source now) = Some v' ∧ service_inv l v'.
Proof.
  intros Hl Hinv. simpl. unfold serve_receive.
  destruct (slot_of v endpoint) as [a|] eqn:Hslot; [by eexists|].
  destruct (ObservationProbe_decode _) as [probe| |]; [|by eexists..].
  destruct (admit_probe_spec l (sv_state v) probe endpoint (source_ip source) now Hl (si_state _ _ Hinv))
    as (taken&s'&->&Hs'&Htaken). cbn [mbind option_bind]. eexists. split; [done|].
  set (x := _ <$> taken). destruct (with_slot_fields v endpoint x s' (sv_events v)) as (Hst&Hev&Hh).
  destruct Hinv as [_ Hg Hsl He Hc]. split; rewrite ?Hst, ?Hev; try done.
  - intros token e Ht. apply Hg. destruct taken as [y|]; [|by eapply lookup_weaken].
    destruct Htaken as (_&Hd&_). rewrite Hd in Ht. by apply lookup_delete_Some in Ht as [_ ?].
  - intros ep a. rewrite slot_with_slot. case_decide as Hep; [|by apply Hsl]. subst ep x.
    destruct taken as [y|]; [|done]. intros [= <-]. destruct Htaken as (Hp&_&Hy&Hexp).
    split; [by apply Hg|]. done.
  - intros token. specialize (Hc token). specialize (Hh token). rewrite Hslot in Hh. simpl in Hh.
    assert (held token x + waiting token (os_pending s') ≤ waiting token (os_pending (sv_state v))) as Hw;
      [|lia].
    subst x. destruct taken as [y|]; simpl.
    + destruct Htaken as (Hp&->&_). rewrite <- (waiting_delete token _ _ _ Hp). lia.
    + by apply waiting_subseteq.
Qed.

Lemma redeem_token_spec l s registry pending probe now :
  limits_ok l → state_ok l s →
  ∃ nonce s', redeem_token l s registry pending probe now = Some (nonce, s') ∧ state_ok l s'
    ∧ os_pending s' = os_pending s
    ∧ (is_Some nonce → is_active_session registry (pt_identity pending) = true).
Proof.
  intros Hl Hs. unfold redeem_token. destruct (is_active_session _ _) eqn:Hact; cbn [negb].
  2:{ eexists _, _. split; [done|]. split; [done|]. split; [done|]. by intros []. }
  destruct (allow_ok (max_tracked_devices l) (per_device_burst l) (refill_interval l) now
    (os_device_buckets s) (ac_fingerprint (pt_identity pending))) as (a&t&->&_&Ht).
  { by apply lo_refill. } { by apply lo_device_burst. } { by apply so_devices. }
  cbn [mbind option_bind]. eexists _, _. split; [done|]. destruct Hs. by split.
Qed.

Lemma service_inv_redeem l v endpoint registry :
  limits_ok l → service_inv l v →
  ∃ v', service_step l v (ORedeem endpoint registry) = Some v' ∧ service_inv l v'.
Proof.
  intros Hl Hinv. simpl. unfold serve_redeem.
  destruct (slot_of v endpoint) as [a|] eqn:Hslot; [|by eexists].
  destruct (redeem_token_spec l (sv_state v) registry (ap_pending a) (ap_probe a) (ap_now a) Hl
    (si_state _ _ Hinv)) as (nonce&s'&->&Hs'&Hpend&Hact). cbn [mbind option_bind].
  destruct Hinv as [_ Hg Hsl He Hc].
  assert (∀ more, (∀ token, tally (event_replies token) more ≤ held token (Some a)) →
    (∀ e, e ∈ more → reply_ok (sv_events v ++ more) e) →
    service_inv l (with_slot v endpoint None s' (sv_events v ++ more))) as Hdone.
  { intros more Htally Hok.
    destruct (with_slot_fields v endpoint None s' (sv_events v ++ more)) as (Hst&Hev&Hh).
    split; rewrite ?Hst, ?Hev; try done.
    - intros token e Ht. rewrite Hpend in Ht. apply elem_of_app. left. by apply Hg.
    - intros ep b. rewrite slot_with_slot. case_decide; [done|]. intros Hb. by apply slot_ok_mono, Hsl.
    - intros e [Hin|Hin]%elem_of_app; [by apply reply_ok_mono, He|by apply Hok].
    - intros token. specialize (Hc token). specialize (Hh token). specialize (Htally token).
      rewrite Hslot in Hh. rewrite !tally_app, Hpend. cbn [held] in Hh |- *.
      pose proof (events_tally_nonneg (event_grants token) more). cbn [held] in Htally. lia. }
  assert (service_inv l (with_slot v endpoint None s' (sv_events v))) as Hidle.
  { rewrite <- (app_nil_r (sv_events v)). apply Hdone; [|by intros e ?%elem_of_nil].
    intros token. rewrite tally_nil. apply (held_nonneg token (Some a)). }
  destruct nonce as [nonce|]; [|by eexists].
  destruct (ObservationReply_encode _) as [encoded| |] eqn:Henc; [|by eexists..].
  destruct (Z.ltb_spec (ap_length a) (blen encoded)); [by eexists|]. eexists. split; [done|].
  destruct (Hsl endpoint a Hslot) as (Hgr&Hep&Hexp). apply Hdone.
  - intros token. by rewrite tally_one.
  - intros e Hin%list_elem_of_singleton. subst e. simpl.
    split; [apply elem_of_app; by left|]. split_and!; try done; [apply Hact; by eexists|].
    exists nonce. by rewrite Hep.
Qed.

Lemma service_inv_run l v ops :
  limits_ok l → service_inv l v → ∃ v', service_run l v ops = Some v' ∧ service_inv l v'.
Proof.
  intros Hl. revert v; induction ops as [|op ops IH]; intros v Hinv; simpl; [by eexists|].
  assert (∃ v1, service_step l v op = Some v1 ∧ service_inv l v1) as (v1&Hv1&Hinv1).
  { destruct op; [by apply service_inv_issue|by apply service_inv_receive|by apply service_inv_redeem]. }
  rewrite Hv1. by apply IH.
Qed.

Lemma service_inv_start l now : limits_ok l → service_inv l (service_start now).
Proof.
  intros Hl. split.
  - split; simpl; try apply table_inv_default; try (destruct Hl; lia).
    + rewrite map_size_empty. destruct Hl. lia.
    + unfold bucket_ok. simpl. intros <-. destruct Hl. simpl in *. lia.
  - intros token e. simpl. by rewrite lookup_empty.
  - by intros [] a.
  - by intros e ?%elem_of_nil.
  - intros token. simpl. unfold waiting. by rewrite lookup_empty.
Qed.

(** ** The rate of new sources *)

(** What a bucket of [cap] tokens has given since [t0], at the time [now]: [n] tokens. *)
Definition bucket_rate (cap interval t0 : Z) (b : TokenBucket) (n now : Z) : Prop :=
  0 ≤ n
  ∧ if tb_capacity b =? cap then
      0 ≤ tb_tokens b ≤ cap ∧ tb_last_refill b ≤ now
      ∧ (n = 0
         ∨ (t0 ≤ tb_last_refill b
            ∧ (n + tb_tokens b) * interval ≤ (cap + 1) * interval + (tb_last_refill b - t0))
         ∨ (tb_last_refill b < t0 ∧ n + tb_tokens b ≤ cap ∧ t0 - tb_last_refill b < interval))
    else n = 0.

Lemma bucket_rate_later cap interval t0 b n now now' :
  bucket_rate cap interval t0 b n now → now ≤ now' → bucket_rate cap interval t0 b n now'.
Proof. unfold bucket_rate. intros [? Hb] ?. split; [done|]. case_match; [|done]. lia. Qed.

Lemma bucket_rate_less cap interval t0 b n m now :
  0 < interval → bucket_rate cap interval t0 b n now → 0 ≤ m ≤ n → bucket_rate cap interval t0 b m now.
Proof.
  unfold bucket_rate. intros Hi [? Hb] ?. split; [lia|]. case_match; [|lia].
  destruct Hb as (Ht&Hl&Hcases). split; [done|]. split; [done|].
  destruct Hcases as [->|[[? Hb]|(?&?&?)]]; [left; lia| |right; right; lia].
  right. left. split; [done|]. nia.
Qed.

(** A token taken before the window does not count, one within it does. *)
Lemma bucket_rate_take cap interval t0 b n now ok b' :
  0 < interval → 0 < cap ≤ u32_max → bucket_rate cap interval t0 b n now →
  take_token b cap interval now = Some (ok, b') →
  (t0 ≤ now → bucket_rate cap interval t0 b' (n + Z.b2z ok) now)
  ∧ (n = 0 → bucket_rate cap interval t0 b' 0 now).
Proof.
  intros Hi Hc [Hn Hb] Ht.
  assert (bucket_ok cap b) as Hok.
  { intros He. rewrite He, Z.eqb_refl in Hb. tauto. }
  destruct (take_token_spec b cap interval now Hi Hc Hok) as (ok'&b1&Ht'&Hcap&Htok&_&Hspec).
  rewrite Ht in Ht'. injection Ht' as <- <-. unfold bucket_rate. rewrite Hcap, Z.eqb_refl.
  set (b0 := if tb_capacity b =? cap then b else _) in Hspec. cbv zeta in Hspec.
  set (r := Z.max 0 (now - tb_last_refill b0) / interval) in Hspec.
  assert (tb_last_refill b0 ≤ now ∧ 0 ≤ tb_tokens b0 ≤ cap
          ∧ (n = 0 ∨ (b0 = b ∧ tb_capacity b = cap))) as (Hlast&Htok0&Hsame).
  { subst b0. destruct (Z.eqb_spec (tb_capacity b) cap); [split_and!; try lia; by right|].
    simpl. split; [lia|]. split; [lia|]. left. lia. }
  assert (interval * r ≤ now - tb_last_refill b0) as Hr.
  { subst r. rewrite Z.max_r by lia. by apply Z.mul_div_le. }
  assert (0 ≤ r) as Hr0 by (apply Z.div_pos; lia).
  assert (r = 0 → now - tb_last_refill b0 < interval) as Hsmall.
  { intros H0. subst r. rewrite Z.max_r in H0 by lia.
    pose proof (Z.mul_succ_div_gt (now - tb_last_refill b0) interval Hi). nia. }
  destruct Hspec as [Hl Hs]. assert (0 ≤ Z.b2z ok ≤ 1) as Hbz by (destruct ok; simpl; lia).
  destruct (Z.ltb_spec 0 r) as [Hpos|Hzero]; rewrite Hl.
  - split; [|intros _; split_and!; lia].
    intros Hnow. split; [lia|]. split; [done|]. split; [lia|]. right. left. split; [done|].
    destruct Hsame as [->|[-> He]]; [nia|]. rewrite He, Z.eqb_refl in Hb.
    destruct Hb as (_&_&[->|[[? Hb]|(?&?&?)]]); nia.
  - assert (r = 0) as H0 by lia. specialize (Hsmall H0).
    split; [|intros _; split_and!; lia].
    intros Hnow. split; [lia|]. split; [done|]. split; [lia|].
    destruct Hsame as [->|[-> He]].
    + right. destruct (Z.le_gt_cases t0 (tb_last_refill b0)); [left; split; [done|nia]|right; lia].
    + rewrite He, Z.eqb_refl in Hb.
      destruct Hb as (_&_&[->|[[? Hb]|(?&?&?)]]).
      * right. destruct (Z.le_gt_cases t0 (tb_last_refill b)); [left; split; [done|nia]|right; lia].
      * right. left. split; [done|]. nia.
      * right. right. lia.
Qed.

Lemma bucket_rate_bound cap interval t0 b n now :
  0 < interval → 0 < cap → t0 ≤ now → bucket_rate cap interval t0 b n now →
  n * interval ≤ (cap + 1) * interval + (now - t0).
Proof.
  unfold bucket_rate. intros Hi Hc Ht [Hn Hb]. case_match; [|nia].
  destruct Hb as (?&?&[->|[[? Hb]|(?&?&?)]]); nia.
Qed.

(** The time of a datagram, and whether it brought a new source into the table. *)
Definition source_key (source : SocketAddr) : IpAddr := canonical_ip (source_ip source).
Definition is_tracked (v : ObservationService) (source : SocketAddr) : bool :=
  bool_decide (is_Some (bt_entries (os_ip_buckets (sv_state v)) !! source_key source)).

(** The new sources that the datagrams received within [t0, t1] brought in. *)
Fixpoint new_sources (l : ObservationRuntimeLimits) (t0 t1 : Z) (v : ObservationService)
    (ops : list ObservationOp) : Z :=
  match ops with
  | [] => 0
  | op :: ops =>
    match service_step l v op with
    | None => 0
    | Some v' =>
      match op with
      | OReceive _ _ source now =>
        Z.b2z ((t0 <=? now) && (now <=? t1) && negb (is_tracked v source) && is_tracked v' source)
      | _ => 0
      end + new_sources l t0 t1 v' ops
    end
  end.

Definition receive_times (ops : list ObservationOp) : list Z :=
  omap (λ op, match op with OReceive _ _ _ now => Some now | _ => None end) ops.

(** A datagram moves the global bucket by at most one token, and a new source by one. *)
Lemma receive_global l v endpoint datagram source now v' :
  limits_ok l → service_inv l v → service_step l v (OReceive endpoint datagram source now) = Some v' →
  let global v := os_global_ip_admission (sv_state v) in
  let take := take_token (global v) (max_tracked_ips l) (refill_interval l) now in
  (global v' = global v ∨ ∃ ok, take = Some (ok, global v'))
  ∧ (is_tracked v source = false → is_tracked v' source = true → take = Some (true, global v')).
Proof.
  intros Hl Hinv. simpl. unfold serve_receive.
  assert (∀ w, w = v → (os_global_ip_admission (sv_state w) = os_global_ip_admission (sv_state v) ∨ ∃ ok,
      take_token (os_global_ip_admission (sv_state v)) (max_tracked_ips l) (refill_interval l) now
      = Some (ok, os_global_ip_admission (sv_state w)))
    ∧ (is_tracked v source = false → is_tracked w source = true →
       take_token (os_global_ip_admission (sv_state v)) (max_tracked_ips l) (refill_interval l) now
       = Some (true, os_global_ip_admission (sv_state w)))) as Hsame.
  { intros w ->. split; [by left|]. congruence. }
  destruct (slot_of v endpoint); [intros [= <-]; by apply Hsame|].
  destruct (ObservationProbe_decode _) as [probe| |]; [|intros [= <-]; by apply Hsame..].
  unfold admit_probe. pose proof (lo_ips _ Hl) as Hips.
  rewrite (proj2 (Z.ltb_ge u32_max (max_tracked_ips l))) by (unfold u32_max; lia).
  destruct (allow_new_source_ok (max_tracked_ips l) (per_ip_burst l) (refill_interval l) now
    (os_global_ip_admission (sv_state v)) (max_tracked_ips l) (os_ip_buckets (sv_state v))
    (source_key source)) as (a&ips&g&Ha&_&_&_&Hg&Hnew).
  { by apply lo_refill. } { by apply lo_ip_burst. } { unfold u32_max; lia. }
  { apply so_ips, Hinv. } { apply so_global, Hinv. }
  unfold source_key in *. rewrite Ha. cbn [mbind option_bind]. intros Hv'.
  assert (os_global_ip_admission (sv_state v') = g ∧ os_ip_buckets (sv_state v') = ips) as [-> Hv].
  { revert Hv'. repeat case_match; simpl; intros; simplify_eq; by destruct endpoint. }
  split; [done|]. unfold is_tracked, source_key. rewrite Hv.
  intros ?%bool_decide_eq_false Ht%bool_decide_eq_true. apply Hnew; [|done].
  by apply eq_None_not_Some.
Qed.

Lemma issue_global l v registry identity now system_now entropy v' :
  service_step l v (OIssueTokens registry identity now system_now entropy) = Some v' →
  os_global_ip_admission (sv_state v') = os_global_ip_admission (sv_state v).
Proof.
  simpl. destruct (issue _ _ _ _ _ _ _) as [out s'] eqn:Hi.
  assert (os_global_ip_admission s' = os_global_ip_admission (sv_state v)) as Hs.
  { revert Hi. unfold issue. repeat case_match; intros; by simplify_eq. }
  destruct out; intros; by simplify_eq.
Qed.
Lemma redeem_global l v endpoint registry v' :
  service_step l v (ORedeem endpoint registry) = Some v' →
  os_global_ip_admission (sv_state v') = os_global_ip_admission (sv_state v).
Proof.
  simpl. unfold serve_redeem. destruct (slot_of v endpoint); [|by intros [= <-]].
  destruct (redeem_token _ _ _ _ _ _) as [[nonce s']|] eqn:Hr; [|done]. cbn [mbind option_bind].
  assert (os_global_ip_admission s' = os_global_ip_admission (sv_state v)) as Hs.
  { revert Hr. unfold redeem_token. destruct (is_active_session _ _); cbn [negb]; [|by intros [= _ <-]].
    destruct (allow _ _ _ _ _ _) as [[? ?]|]; cbn [mbind option_bind]; [|done]. by intros [= _ <-]. }
  repeat case_match; intros; simplify_eq; by destruct endpoint.
Qed.

(** * Properties *)

(** C22: whatever tokens are issued and whatever arrives at the two sockets, in any
    interleaving of their critical sections, the service never panics, its pending tokens and
    both tables of buckets stay within their limits, each table's expiry queue has exactly one
    record per entry, and the next admission to either table, of any source by a probe or of
    any device by a redemption, goes through with at most four steps of maintenance. *)
Theorem observation_bounded l now0 system0 start ops :
  is_valid l now0 system0 = true → 0 ≤ refill_interval l →
  ∃ v, service_run l (service_start start) ops = Some v ∧ let s := sv_state v in
    Z.of_nat (size (os_pending s)) ≤ max_pending_tokens l
    ∧ table_size (os_ip_buckets s) ≤ max_tracked_ips l
    ∧ table_size (os_device_buckets s) ≤ max_tracked_devices l
    ∧ queue_ids (bt_expirations (os_ip_buckets s)) ≡ₚ entry_ids (bt_entries (os_ip_buckets s))
    ∧ queue_ids (bt_expirations (os_device_buckets s)) ≡ₚ entry_ids (bt_entries (os_device_buckets s))
    ∧ (∀ key now, ∃ a t g,
        allow_new_source (os_ip_buckets s) key (max_tracked_ips l) (per_ip_burst l)
          (refill_interval l) now (os_global_ip_admission s) (max_tracked_ips l) = Some (a, t, g)
        ∧ (ba_maintenance_steps a ≤ MAX_BUCKET_MAINTENANCE_STEPS_PER_PACKET)%nat)
    ∧ (∀ key now, ∃ a t,
        allow (os_device_buckets s) key (max_tracked_devices l) (per_device_burst l)
          (refill_interval l) now = Some (a, t)
        ∧ (ba_maintenance_steps a ≤ MAX_BUCKET_MAINTENANCE_STEPS_PER_PACKET)%nat).
Proof.
  intros Hv Hr. pose proof (is_valid_ok _ _ _ Hv Hr) as Hl.
  destruct (service_inv_run l (service_start start) ops Hl (service_inv_start l start Hl)) as (v&Hrun&Hinv).
  exists v. split; [done|]. cbv zeta. destruct (si_state _ _ Hinv) as [Hp Hi Hd Hg].
  split; [done|]. split; [by apply ti_size in Hi|]. split; [by apply ti_size in Hd|].
  split; [by apply ti_queue in Hi|]. split; [by apply ti_queue in Hd|].
  split; intros key now; [|destruct (allow_ok (max_tracked_devices l) (per_device_burst l) (refill_interval l) now
    (os_device_buckets (sv_state v)) key) as (a&t&?&?&_);
    [by apply lo_refill|by apply lo_device_burst|done|by exists a, t]].
  pose proof (lo_ips _ Hl).
  destruct (allow_new_source_ok (max_tracked_ips l) (per_ip_burst l) (refill_interval l) now
    (os_global_ip_admission (sv_state v)) (max_tracked_ips l) (os_ip_buckets (sv_state v)) key)
    as (a&t&g&Ha&Hsteps&_); [by apply lo_refill|by apply lo_ip_burst|unfold u32_max; lia|done|done|].
  by exists a, t, g.
Qed.

(** C23: a reply leaves only for a token that was granted, on the socket the token is for, to
    the source of the probe, no longer than the probe, before the token's expiry, and while
    the session it was granted to is still the active one; and every grant of a token pays
    for at most one reply. *)
Theorem reply_needs_token l now0 system0 start ops v :
  is_valid l now0 system0 = true → 0 ≤ refill_interval l →
  service_run l (service_start start) ops = Some v →
  Forall (reply_ok (sv_events v)) (sv_events v)
  ∧ ∀ token, tally (event_replies token) (sv_events v) ≤ tally (event_grants token) (sv_events v).
Proof.
  intros Hv Hr Hrun. pose proof (is_valid_ok _ _ _ Hv Hr) as Hl.
  destruct (service_inv_run l (service_start start) ops Hl (service_inv_start l start Hl)) as (v'&Hrun'&Hinv).
  rewrite Hrun in Hrun'. injection Hrun' as <-. destruct Hinv as [_ _ _ He Hc].
  split; [by apply Forall_forall|]. intros token. specialize (Hc token).
  pose proof (held_nonneg token (sv_primary v)). pose proof (held_nonneg token (sv_alternate v)).
  pose proof (waiting_nonneg token (os_pending (sv_state v))). lia.
Qed.

Lemma new_sources_run l t0 t1 ops : ∀ v n T,
  limits_ok l → service_inv l v → t0 ≤ t1 →
  n * refill_interval l ≤ (max_tracked_ips l + 1) * refill_interval l + (t1 - t0) → 0 ≤ n →
  (T < t0 → n = 0) →
  (T ≤ t1 → bucket_rate (max_tracked_ips l) (refill_interval l) t0
              (os_global_ip_admission (sv_state v)) n T) →
  Sorted Z.le (T :: receive_times ops) →
  (n + new_sources l t0 t1 v ops) * refill_interval l
  ≤ (max_tracked_ips l + 1) * refill_interval l + (t1 - t0).
Proof.
  induction ops as [|op ops IH]; intros v n T Hl Hinv Ht Hn Hn0 Hzero Hrate Hsort; simpl; [lia|].
  destruct (service_inv_run l v [op] Hl Hinv) as (v'&Hstep&Hinv'). simpl in Hstep.
  destruct (service_step l v op) as [v1|] eqn:Hop; [|done]. injection Hstep as ->.
  destruct op as [registry identity now system_now entropy|endpoint datagram source now|endpoint registry].
  - apply (IH v' n T); try done. intros HT. rewrite (issue_global _ _ _ _ _ _ _ _ Hop). by apply Hrate.
  - simpl in Hsort. apply Sorted_inv in Hsort as [Hsort Hhd]. apply HdRel_inv in Hhd.
    destruct (receive_global l v endpoint datagram source now v' Hl Hinv Hop) as [Hg Hnew].
    cbv zeta in Hg, Hnew.
    set (w := (t0 <=? now) && (now <=? t1) && negb (is_tracked v source) && is_tracked v' source).
    pose proof (lo_refill _ Hl). pose proof (lo_ips _ Hl) as Hips.
    assert (0 < max_tracked_ips l ≤ u32_max) as Hcap by (unfold u32_max; lia).
    assert (now ≤ t1 → bucket_rate (max_tracked_ips l) (refill_interval l) t0
              (os_global_ip_admission (sv_state v')) (n + Z.b2z w) now) as Hrate'.
    { intros Hnow. specialize (Hrate ltac:(lia)). pose proof (bucket_rate_later _ _ _ _ _ _ _ Hrate Hhd) as Hb.
      destruct w eqn:Hw; subst w.
      - repeat (apply andb_true_iff in Hw as [Hw ?]). apply Z.leb_le in Hw.
        assert (is_tracked v source = false) as Hold by by apply negb_true_iff.
        destruct (bucket_rate_take _ _ _ _ _ _ _ _ ltac:(eassumption) Hcap Hb (Hnew Hold ltac:(done))) as [Hin _].
        by apply Hin.
      - rewrite Z.add_0_r. destruct Hg as [->|[ok Htake]]; [done|].
        destruct (bucket_rate_take _ _ _ _ _ _ _ _ ltac:(eassumption) Hcap Hb Htake) as [Hin Hout].
        destruct (Z.le_gt_cases t0 now) as [Hle|Hgt].
        + eapply bucket_rate_less; [lia|by apply Hin|]. destruct ok; simpl; lia.
        + assert (n = 0) as -> by (apply Hzero; lia). by apply Hout. }
    assert (w = true → t0 ≤ now ≤ t1) as Hwin.
    { subst w. rewrite !andb_true_iff, !Z.leb_le. tauto. }
    assert (0 ≤ Z.b2z w) by (by destruct w).
    rewrite Z.add_assoc. apply (IH v' (n + Z.b2z w) now); try done; [|lia|].
    + destruct w; simpl; [|by rewrite Z.add_0_r]. destruct (Hwin eq_refl).
      assert (0 < max_tracked_ips l) as Hpos by lia.
      pose proof (bucket_rate_bound (max_tracked_ips l) (refill_interval l) t0 _ (n + 1) now
        ltac:(eassumption) Hpos ltac:(eassumption) (Hrate' ltac:(eassumption))) as Hb. lia.
    + intros Hlt. destruct w; simpl; [destruct (Hwin eq_refl); lia|]. rewrite Z.add_0_r. apply Hzero. lia.
  - apply (IH v' n T); try done. intros HT. rewrite (redeem_global _ _ _ _ _ Hop). by apply Hrate.
Qed.

(** sources that the service does not know yet are admitted at a bounded rate: the
    datagrams received within any window of time, however forged their addresses, bring in
    at most one more new source than the table may hold, plus one per refill interval of the
    window. *)
Theorem new_sources_bounded l now0 system0 start t0 t1 ops :
  is_valid l now0 system0 = true → 0 ≤ refill_interval l → t0 ≤ t1 →
  Sorted Z.le (receive_times ops) →
  new_sources l t0 t1 (service_start start) ops * refill_interval l
  ≤ (max_tracked_ips l + 1) * refill_interval l + (t1 - t0).
Proof.
  intros Hv Hr Ht Hsort. pose proof (is_valid_ok _ _ _ Hv Hr) as Hl.
  pose proof (lo_refill _ Hl). pose proof (lo_ips _ Hl).
  assert (∃ T, Sorted Z.le (T :: receive_times ops)) as [T HT].
  { destruct (receive_times ops) as [|x xs]; [exists 0; by repeat constructor|]. exists x.
    constructor; [done|]. constructor. lia. }
  pose proof (new_sources_run l t0 t1 ops (service_start start) 0 T Hl (service_inv_start l start Hl) Ht) as Hrun.
  rewrite Z.add_0_l in Hrun. apply Hrun; try done; [nia|].
  intros _. unfold bucket_rate. change (tb_capacity _) with 0.
  split; [done|]. by rewrite (proj2 (Z.eqb_neq 0 (max_tracked_ips l))) by lia.
Qed.
End props.

(** * Witnesses *)

#[local] Definition w_limits : ObservationRuntimeLimits := ObservationRuntimeLimits_default.
#[local] Definition w_entropy (i : nat) : option (list byte) := Some (replicate 32 (byte_of (Z.of_nat i + 1))).
#[local] Definition w_probe (token : byte) : list byte := replicate 32 token ++ replicate 16 x2a.
#[local] Definition w_source (n : byte) : SocketAddr := SaV4 [xc0; x00; x02; n] 40000.

(** Tokens are issued; the primary one is redeemed once, refused the second time, and refused
    on the wrong socket; strangers probe without a token. *)
#[local] Definition w_observation_ops : list ObservationOp :=
  [OIssueTokens demo_claimed demo_client (5 * SECOND) (1000 * SECOND) w_entropy;
   OReceive Alternate (w_probe x01) (w_source x01) (6 * SECOND);
   OReceive Primary (w_probe x01) (w_source x01) (6 * SECOND);
   OReceive Alternate (w_probe x01) (w_source x02) (7 * SECOND);
   ORedeem Primary demo_claimed;
   OReceive Primary (w_probe x01) (w_source x01) (8 * SECOND);
   ORedeem Primary demo_claimed;
   OReceive Alternate (w_probe x02) (w_source x03) (8 * SECOND);
   ORedeem Alternate demo_claimed].

Lemma w_limits_valid : is_valid w_limits 0 0 = true.
Proof. vm_compute. reflexivity. Qed.
Lemma w_refill : 0 ≤ refill_interval w_limits.
Proof. vm_compute. discriminate. Qed.
Lemma w_times_sorted : Sorted Z.le (receive_times w_observation_ops).
Proof. repeat constructor; vm_compute; discriminate. Qed.

#[local] Definition w_final : ObservationService :=
  default (service_start 0) (service_run (P := postcard_ref) w_limits (service_start 0) w_observation_ops).
Lemma w_final_run :
  service_run (P := postcard_ref) w_limits (service_start 0) w_observation_ops = Some w_final.
Proof. vm_compute. reflexivity. Qed.
Lemma w_final_replies : tally (event_replies (replicate 32 x01)) (sv_events w_final) = 1
  ∧ length (sv_events w_final) = 4%nat.
Proof. vm_compute. by split. Qed.
Lemma w_new_sources :
  new_sources (P := postcard_ref) w_limits 0 (10 * SECOND) (service_start 0) w_observation_ops = 3.
Proof. vm_compute. reflexivity. Qed.

Lemma observation_bounded_witness :
  ∃ v, service_run (P := postcard_ref) w_limits (service_start 0) w_observation_ops = Some v
    ∧ Z.of_nat (size (os_pending (sv_state v))) ≤ 4096.
Proof.
  destruct (observation_bounded (P := postcard_ref) w_limits 0 0 0 w_observation_ops w_limits_valid w_refill)
    as (v&Hrun&Hp&_).
  exists v. split; [exact Hrun|exact Hp].
Defined.

Lemma reply_needs_token_witness :
  length (sv_events w_final) = 4%nat
  ∧ Forall (reply_ok (P := postcard_ref) (sv_events w_final)) (sv_events w_final)
  ∧ ∀ token, tally (event_replies token) (sv_events w_final)
             ≤ tally (event_grants token) (sv_events w_final).
Proof.
  split; [exact (proj2 w_final_replies)|].
  exact (reply_needs_token (P := postcard_ref) w_limits 0 0 0 w_observation_ops w_final w_limits_valid
    w_refill w_final_run).
Defined.

Lemma new_sources_bounded_witness : 3 * SECOND ≤ (16384 + 1) * SECOND + (10 * SECOND - 0).
Proof.
  rewrite <- w_new_sources.
  exact (new_sources_bounded (P := postcard_ref) w_limits 0 0 0 0 (10 * SECOND) w_observation_ops
    w_limits_valid w_refill ltac:(vm_compute; discriminate) w_times_sorted).
Defined.
