(* ===== verification/Text.v ===== *)
(** The string functions of Rust's standard library that the sources use on identifiers,
    addresses and keys: characters and trimming, splitting, letter case, numbers in a radix. *)

From S2P Require Import Prelude.
From Stdlib Require Import Strings.Byte.
From stdpp Require Import prelude list strings.

#[local] Open Scope Z_scope.

(** * Characters *)

(** [char_indices] of a valid string: each character with its bytes. *)
Fixpoint char_bytes (s : list byte) : list (Z * list byte) :=
  match s with
  | [] => []
  | b0 :: r0 =>
    if byte_val b0 <? 128 then (byte_val b0, [b0]) :: char_bytes r0 else
    match r0 with
    | [] => []
    | b1 :: r1 =>
      if byte_val b0 <? 224 then
        (byte_val b0 mod 32 * 64 + byte_val b1 mod 64, [b0; b1]) :: char_bytes r1 else
      match r1 with
      | [] => []
      | b2 :: r2 =>
        if byte_val b0 <? 240 then
          ((byte_val b0 mod 16 * 64 + byte_val b1 mod 64) * 64 + byte_val b2 mod 64, [b0; b1; b2])
            :: char_bytes r2 else
        match r2 with
        | [] => []
        | b3 :: r3 =>
          (((byte_val b0 mod 8 * 64 + byte_val b1 mod 64) * 64 + byte_val b2 mod 64) * 64
             + byte_val b3 mod 64, [b0; b1; b2; b3]) :: char_bytes r3
        end
      end
    end
  end.
Definition chars (s : list byte) : list Z := map fst (char_bytes s).

(** [char::is_whitespace]: the code points with the property White_Space. *)
Definition is_whitespace (c : Z) : bool :=
  ((9 <=? c) && (c <=? 13)) || (c =? 32) || (c =? 133) || (c =? 160) || (c =? 5760)
  || ((8192 <=? c) && (c <=? 8202)) || (c =? 8232) || (c =? 8233) || (c =? 8239)
  || (c =? 8287) || (c =? 12288).
(** [char::is_control]: the general category Cc. *)
Definition is_control (c : Z) : bool := (c <=? 31) || ((127 <=? c) && (c <=? 159)).

(** [str::trim]. *)
Fixpoint trim_start_chars (cs : list (Z * list byte)) : list (Z * list byte) :=
  match cs with
  | [] => []
  | c :: cs' => if is_whitespace c.1 then trim_start_chars cs' else cs
  end.
Definition trim_chars (cs : list (Z * list byte)) : list (Z * list byte) :=
  reverse (trim_start_chars (reverse (trim_start_chars cs))).
Definition trim (s : list byte) : list byte := concat (map snd (trim_chars (char_bytes s))).

(** * ASCII *)

Definition is_ascii (s : list byte) : bool := forallb (byte_in 0 127) s.
Definition is_ascii_digit (b : byte) : bool := byte_in 48 57 b.
Definition is_ascii_alphanumeric (b : byte) : bool :=
  byte_in 48 57 b || byte_in 65 90 b || byte_in 97 122 b.
Definition is_ascii_hexdigit (b : byte) : bool :=
  byte_in 48 57 b || byte_in 65 70 b || byte_in 97 102 b.
Definition lowercase_byte (b : byte) : byte :=
  if byte_in 65 90 b then byte_of (byte_val b + 32) else b.
(** [str::to_ascii_lowercase]. *)
Definition to_ascii_lowercase (s : list byte) : list byte := map lowercase_byte s.

(** * Splitting *)

(** [strip_prefix_str], [starts_with], [split_once] and [rsplit_once] at a one-byte character,
    [find]. *)
Fixpoint strip_prefix_str (prefix s : list byte) : option (list byte) :=
  match prefix, s with
  | [], _ => Some s
  | p :: prefix', b :: s' => if decide (p = b) then strip_prefix_str prefix' s' else None
  | _, _ => None
  end.
Definition starts_with (prefix s : list byte) : bool := bool_decide (is_Some (strip_prefix_str prefix s)).
Fixpoint split_once (sep : byte) (s : list byte) : option (list byte * list byte) :=
  match s with
  | [] => None
  | b :: s' =>
    if decide (b = sep) then Some ([], s')
    else match split_once sep s' with Some (l, r) => Some (b :: l, r) | None => None end
  end.
Definition rsplit_once (sep : byte) (s : list byte) : option (list byte * list byte) :=
  match split_once sep (reverse s) with
  | Some (r, l) => Some (reverse l, reverse r)
  | None => None
  end.

(** * Numbers *)

(** [char::to_digit]. *)
Definition to_digit (radix : Z) (b : byte) : option Z :=
  let v := byte_val b in
  let d := if byte_in 48 57 b then Some (v - 48)
           else if byte_in 65 90 b then Some (v - 55)
           else if byte_in 97 122 b then Some (v - 87) else None in
  match d with Some d => if d <? radix then Some d else None | None => None end.

(** [from_str_radix] of an unsigned type whose largest value is [max]: an optional plus sign,
    then at least one digit, without overflow. *)
Fixpoint parse_digits (max radix acc : Z) (s : list byte) : option Z :=
  match s with
  | [] => Some acc
  | b :: s' =>
    match to_digit radix b with
    | Some d => if acc * radix + d <=? max then parse_digits max radix (acc * radix + d) s' else None
    | None => None
    end
  end.
Definition from_str_radix (max radix : Z) (s : list byte) : option Z :=
  match s with
  | [] => None
  | b :: r =>
    if decide (b = x2b) then match r with [] => None | _ => parse_digits max radix 0 r end
    else parse_digits max radix 0 s
  end.

(** [Display] and [LowerHex] of an unsigned integer, at most [fuel] digits long. *)
Definition digit_byte (d : Z) : byte := byte_of (if d <? 10 then d + 48 else d + 87).
Fixpoint radix_digits (fuel : nat) (radix v : Z) : list byte :=
  match fuel with
  | O => []
  | S fuel' =>
    if v <? radix then [digit_byte v]
    else radix_digits fuel' radix (v / radix) ++ [digit_byte (v mod radix)]
  end.
(** A [u16] has at most five decimal digits and four hexadecimal ones. *)
Definition to_decimal (v : Z) : list byte := radix_digits 5 10 v.
Definition to_lower_hex (v : Z) : list byte := radix_digits 4 16 v.
(** [format!("{byte:02x}")] of each byte. *)
Definition hex2 (b : byte) : list byte :=
  [digit_byte (byte_val b / 16); digit_byte (byte_val b mod 16)].
Definition hex_bytes (s : list byte) : list byte := flat_map hex2 s.

(** * Facts *)

Lemma strip_prefix_str_app p s : strip_prefix_str p (p ++ s) = Some s.
Proof. induction p as [|b p IH]; simpl; [done|]. by rewrite decide_True. Qed.

Lemma strip_prefix_str_Some p s r : strip_prefix_str p s = Some r → s = p ++ r.
Proof.
  revert s; induction p as [|b p IH]; intros s; simpl; [by intros [= ->]|].
  destruct s as [|c s]; [done|]. case_decide as Hbc; [|done]. intros ->%IH. by subst.
Qed.

Lemma starts_with_app p s : starts_with p (p ++ s) = true.
Proof. apply bool_decide_eq_true. rewrite strip_prefix_str_app. by eexists. Qed.

Lemma split_once_app sep l r : sep ∉ l → split_once sep (l ++ sep :: r) = Some (l, r).
Proof.
  induction l as [|b l IH]; simpl; intros Hn; [by rewrite decide_True|].
  apply not_elem_of_cons in Hn as [Hb Hl]. rewrite decide_False by done. by rewrite IH.
Qed.

Lemma split_once_Some sep s l r : split_once sep s = Some (l, r) → s = l ++ sep :: r ∧ sep ∉ l.
Proof.
  revert l r; induction s as [|b s IH]; intros l r; simpl; [done|].
  case_decide as Hb; [intros [= <- <-]; subst; split; [done|apply not_elem_of_nil]|].
  destruct (split_once sep s) as [[l' r']|] eqn:E; [|done]. intros [= <- <-].
  destruct (IH l' r' eq_refl) as [-> Hn]. split; [done|]. by apply not_elem_of_cons.
Qed.

Lemma split_once_None sep s : split_once sep s = None ↔ sep ∉ s.
Proof.
  induction s as [|b s IH]; simpl; [split; [intros; apply not_elem_of_nil|done]|].
  rewrite not_elem_of_cons. case_decide as Hb; [subst; split; [done|intros [? _]; done]|].
  destruct (split_once sep s) as [[l r]|] eqn:E.
  - split; [done|]. intros [_ Hn]. apply IH in Hn. done.
  - split; [|done]. intros _. split; [done|]. by apply IH.
Qed.

Lemma rsplit_once_app sep l r : sep ∉ r → rsplit_once sep (l ++ sep :: r) = Some (l, r).
Proof.
  intros Hr. unfold rsplit_once. rewrite reverse_app, reverse_cons, <- app_assoc. simpl.
  rewrite split_once_app by (by rewrite elem_of_reverse). by rewrite !reverse_involutive.
Qed.

Lemma rsplit_once_Some sep s l r :
  rsplit_once sep s = Some (l, r) → s = l ++ sep :: r ∧ sep ∉ r.
Proof.
  unfold rsplit_once. destruct (split_once sep (reverse s)) as [[r' l']|] eqn:E; [|done].
  intros [= <- <-]. apply split_once_Some in E as [He Hn].
  rewrite elem_of_reverse. split; [|done].
  apply (f_equal reverse) in He. rewrite reverse_involutive, reverse_app, reverse_cons in He.
  by rewrite He, <- app_assoc.
Qed.

Lemma lowercase_byte_idemp b : lowercase_byte (lowercase_byte b) = lowercase_byte b.
Proof. by destruct b. Qed.
Lemma to_ascii_lowercase_idemp s :
  to_ascii_lowercase (to_ascii_lowercase s) = to_ascii_lowercase s.
Proof. induction s as [|b s IH]; simpl; [done|]. by rewrite lowercase_byte_idemp, IH. Qed.

Lemma to_digit_digit radix d : 0 ≤ d < radix → radix ≤ 16 → to_digit radix (digit_byte d) = Some d.
Proof.
  intros Hd Hr. assert (d ∈ seqZ 0 16) as Hin by (apply elem_of_seqZ; lia).
  assert (∃ v, to_digit 36 (digit_byte d) = Some v ∧ v = d) as (v & Hv & ->).
  { clear -Hin. repeat (apply elem_of_cons in Hin as [->|Hin]; [by eexists|]).
    by apply elem_of_nil in Hin. }
  unfold to_digit in *. revert Hv. repeat case_match; try done; intros [= ->];
    repeat match goal with H : (_ <? _) = false |- _ => apply Z.ltb_ge in H end; lia.
Qed.

Lemma digit_byte_alnum d : 0 ≤ d < 16 → is_ascii_alphanumeric (digit_byte d) = true.
Proof.
  intros Hd. assert (d ∈ seqZ 0 16) as Hin by (apply elem_of_seqZ; lia).
  clear -Hin. repeat (apply elem_of_cons in Hin as [->|Hin]; [done|]).
  by apply elem_of_nil in Hin.
Qed.

Lemma parse_digits_app max radix acc s t :
  parse_digits max radix acc (s ++ t) = v ← parse_digits max radix acc s; parse_digits max radix v t.
Proof.
  revert acc; induction s as [|b s IH]; intros acc; simpl; [done|].
  destruct (to_digit radix b) as [d|]; [|done]. by destruct (_ <=? _).
Qed.

Lemma parse_radix_digits max radix fuel v :
  2 ≤ radix ≤ 16 → 0 ≤ v ≤ max → v < radix ^ Z.of_nat fuel →
  parse_digits max radix 0 (radix_digits fuel radix v) = Some v.
Proof.
  intros Hr. revert v; induction fuel as [|fuel IH]; intros v Hv Hf.
  { change (radix ^ Z.of_nat 0) with 1 in Hf. simpl. f_equal. lia. }
  assert (∀ d acc, 0 ≤ d < radix → acc * radix + d ≤ max →
            parse_digits max radix acc [digit_byte d] = Some (acc * radix + d)) as Hone.
  { intros d acc Hd Hm. simpl. rewrite to_digit_digit by lia.
    by rewrite (proj2 (Z.leb_le _ _)) by lia. }
  cbn [radix_digits]. destruct (v <? radix) eqn:E.
  - apply Z.ltb_lt in E. rewrite Hone; [f_equal; lia|lia|lia].
  - apply Z.ltb_ge in E. pose proof (Z.div_mod v radix). pose proof (Z.mod_pos_bound v radix).
    rewrite Nat2Z.inj_succ, Z.pow_succ_r in Hf by lia.
    assert (v / radix < radix ^ Z.of_nat fuel) by (apply Z.div_lt_upper_bound; lia).
    assert (0 ≤ v / radix) by (apply Z.div_pos; lia).
    rewrite parse_digits_app, IH; [|nia|done]. cbn [mbind option_bind].
    rewrite Hone; [f_equal; lia|lia|lia].
Qed.

Lemma radix_digits_alnum radix fuel v :
  2 ≤ radix ≤ 16 → 0 ≤ v → Forall (λ b, is_ascii_alphanumeric b = true) (radix_digits fuel radix v).
Proof.
  intros Hr. revert v; induction fuel as [|fuel IH]; intros v Hv; simpl; [done|].
  destruct (v <? radix) eqn:E.
  - apply Z.ltb_lt in E. repeat constructor. apply digit_byte_alnum. lia.
  - pose proof (Z.mod_pos_bound v radix).
    apply Forall_app. split; [apply IH, Z.div_pos; lia|].
    repeat constructor. apply digit_byte_alnum. lia.
Qed.

Lemma radix_digits_nonempty radix fuel v : radix_digits (S fuel) radix v ≠ [].
Proof. simpl. destruct (v <? radix); [done|]. by destruct (radix_digits fuel _ _). Qed.

Lemma from_str_radix_digits max radix fuel v :
  2 ≤ radix ≤ 16 → 0 ≤ v ≤ max → v < radix ^ Z.of_nat (S fuel) →
  from_str_radix max radix (radix_digits (S fuel) radix v) = Some v.
Proof.
  intros Hr Hv Hf. pose proof (parse_radix_digits max radix (S fuel) v Hr Hv Hf) as Hp.
  pose proof (radix_digits_alnum radix (S fuel) v Hr ltac:(lia)) as Ha.
  pose proof (radix_digits_nonempty radix fuel v) as Hne.
  destruct (radix_digits (S fuel) radix v) as [|b r]; [done|].
  apply Forall_inv in Ha. unfold from_str_radix. rewrite decide_False; [done|]. by intros ->.
Qed.

Lemma to_digit_range radix b d : to_digit radix b = Some d → 0 ≤ d < radix.
Proof.
  unfold to_digit, byte_in. intros H.
  repeat case_match; simplify_eq;
    repeat match goal with
    | H : _ && _ = true |- _ => apply andb_true_iff in H as [? ?]
    | H : (_ <=? _) = true |- _ => apply Z.leb_le in H
    | H : (_ <? _) = true |- _ => apply Z.ltb_lt in H
    end; lia.
Qed.
Lemma parse_digits_range max radix acc s v :
  0 ≤ acc ≤ max → 0 ≤ radix → parse_digits max radix acc s = Some v → 0 ≤ v ≤ max.
Proof.
  intros Ha Hr. revert acc Ha; induction s as [|b s IH]; intros acc Ha; simpl; [by intros [= <-]|].
  destruct (to_digit radix b) as [d|] eqn:Ed; [|done]. apply to_digit_range in Ed.
  destruct (_ <=? max) eqn:E; [|done]. apply Z.leb_le in E. apply IH. nia.
Qed.
Lemma from_str_radix_range max radix s v :
  0 ≤ max → 0 ≤ radix → from_str_radix max radix s = Some v → 0 ≤ v ≤ max.
Proof.
  intros Hm Hr. unfold from_str_radix. destruct s as [|b s]; [done|].
  case_decide; [destruct s; [done|]|]; intros Hp; eapply parse_digits_range; try done; lia.
Qed.

Lemma hex2_parse b : from_str_radix 255 16 (hex2 b) = Some (byte_val b).
Proof. by destruct b. Qed.
Lemma length_hex_bytes s : length (hex_bytes s) = (2 * length s)%nat.
Proof. induction s as [|b s IH]; simpl; [done|]. rewrite IH. lia. Qed.
Lemma hex2_hexdigit b : Forall (λ c, is_ascii_hexdigit c = true) (hex2 b).
Proof. destruct b; by repeat constructor. Qed.
Lemma hex_bytes_hexdigit s : Forall (λ c, is_ascii_hexdigit c = true) (hex_bytes s).
Proof. induction s as [|b s IH]; [done|]. by apply (Forall_app _ (hex2 b)); split; [apply hex2_hexdigit|]. Qed.
Lemma hex2_inj a b : hex2 a = hex2 b → a = b.
Proof.
  intros H. apply byte_val_inj. apply (f_equal (from_str_radix 255 16)) in H.
  rewrite !hex2_parse in H. by injection H.
Qed.
Lemma hex_bytes_inj s t : hex_bytes s = hex_bytes t → s = t.
Proof.
  revert t; induction s as [|a s IH]; intros [|b t]; try done.
  change (hex2 a ++ hex_bytes s = hex2 b ++ hex_bytes t → a :: s = b :: t).
  intros [->%hex2_inj ->%IH]%app_inj_1; done.
Qed.

(** * ASCII strings *)

(** On ASCII every byte is a character. *)
Lemma char_bytes_ascii s :
  is_ascii s = true → char_bytes s = map (λ b, (byte_val b, [b])) s.
Proof.
  unfold is_ascii. induction s as [|b s IH]; simpl; [done|].
  intros [Hb Hs]%andb_true_iff. unfold byte_in in Hb. apply andb_true_iff in Hb as [_ Hb%Z.leb_le].
  rewrite (proj2 (Z.ltb_lt _ _)) by lia. by rewrite IH.
Qed.

Lemma trim_start_chars_id cs :
  Forall (λ c, is_whitespace c.1 = false) cs → trim_start_chars cs = cs.
Proof. destruct cs; simpl; [done|]. by intros [-> _]%Forall_cons. Qed.

(** A string of letters, digits, dots, underscores and dashes is trimmed already. *)
Lemma trim_ascii_id s :
  is_ascii s = true → Forall (λ b, is_whitespace (byte_val b) = false) s → trim s = s.
Proof.
  intros Ha Hw. unfold trim, trim_chars. rewrite char_bytes_ascii by done.
  set (cs := map _ s).
  assert (Forall (λ c, is_whitespace c.1 = false) cs) as Hcs by (by apply Forall_map).
  rewrite (trim_start_chars_id cs Hcs), trim_start_chars_id by (by apply Forall_reverse).
  rewrite reverse_involutive. subst cs. rewrite map_map. simpl. clear.
  induction s as [|b s IH]; simpl; [done|]. by rewrite IH.
Qed.
