(* ===== verification/IpText.v ===== *)
(** IP addresses as text: the parser and the [Display] of Rust's [std::net], which the
    sources use on the addresses of enrollment keys, profiles and configurations. *)

From S2P Require Import Prelude.
From S2P Require Import Text.
From Stdlib Require Import Strings.Byte.
From stdpp Require Import prelude list strings.

#[local] Open Scope Z_scope.

(** * The parser *)

(** A reader takes a prefix of its input or fails and leaves the input as it was. *)
Definition reader (A : Type) : Type := list byte → option (A * list byte).

Definition read_given_char (c : byte) : reader unit := λ s,
  match s with b :: s' => if decide (b = c) then Some (tt, s') else None | [] => None end.

Fixpoint span_digits (radix : Z) (s : list byte) : list byte * list byte :=
  match s with
  | [] => ([], [])
  | b :: s' =>
    match to_digit radix b with
    | Some _ => let '(ds, r) := span_digits radix s' in (b :: ds, r)
    | None => ([], s)
    end
  end.

Definition read_number (max radix : Z) (max_digits : nat) (allow_zero_prefix : bool) : reader Z := λ s,
  let '(ds, r) := span_digits radix s in
  if (max_digits <? length ds)%nat then None
  else if (length ds =? 0)%nat then None
  else if negb allow_zero_prefix && starts_with [x30] s && (1 <? length ds)%nat then None
  else match parse_digits max radix 0 ds with Some v => Some (v, r) | None => None end.

Definition read_separator {A} (sep : byte) (index : nat) (inner : reader A) : reader A := λ s,
  match index with
  | O => inner s
  | S _ => match read_given_char sep s with Some (_, s') => inner s' | None => None end
  end.

Fixpoint read_ipv4_groups (n i : nat) : reader (list Z) := λ s,
  match n with
  | O => Some ([], s)
  | S n' =>
    match read_separator x2e i (read_number 255 10 3 false) s with
    | Some (g, s') =>
      match read_ipv4_groups n' (S i) s' with
      | Some (gs, r) => Some (g :: gs, r)
      | None => None
      end
    | None => None
    end
  end.
Definition read_ipv4_addr : reader (list byte) := λ s,
  match read_ipv4_groups 4 0 s with Some (gs, r) => Some (map byte_of gs, r) | None => None end.

(** The 16-bit segments of an address and back. *)
Fixpoint segments (octets : list byte) : list Z :=
  match octets with
  | a :: b :: r => be_value [a; b] :: segments r
  | _ => []
  end.
Definition octets_of (segs : list Z) : list byte := flat_map (be_bytes 2) segs.

(** [read_groups] of the IPv6 parser: the groups it read and whether an IPv4 address ended
    them; [n] is how many of the [limit] slots are left from slot [i] on. *)
Fixpoint read_groups (n i limit : nat) (s : list byte) : list Z * bool * list byte :=
  match n with
  | O => ([], false, s)
  | S n' =>
    match (if (i <? limit - 1)%nat then read_separator x3a i read_ipv4_addr s else None) with
    | Some (octets, r) => (segments octets, true, r)
    | None =>
      match read_separator x3a i (read_number 65535 16 4 true) s with
      | Some (g, r) => let '(gs, v4, r') := read_groups n' (S i) limit r in (g :: gs, v4, r')
      | None => ([], false, s)
      end
    end
  end.

Definition read_ipv6_addr : reader (list byte) := λ s,
  let '(head, head_ipv4, r) := read_groups 8 0 8 s in
  if (length head =? 8)%nat then Some (octets_of head, r)
  else if head_ipv4 then None
  else
    match read_given_char x3a r with
    | Some (_, r) =>
      match read_given_char x3a r with
      | Some (_, r) =>
        let limit := (8 - (length head + 1))%nat in
        let '(tail, _, r) := read_groups limit 0 limit r in
        Some (octets_of (head ++ replicate (8 - length head - length tail) 0 ++ tail), r)
      | None => None
      end
    | None => None
    end.

(** [parse_with]: the whole input is the address. *)
Definition parse_with {A} (inner : reader A) (s : list byte) : option A :=
  match inner s with Some (a, []) => Some a | _ => None end.
Definition parse_ipv6 : list byte → option (list byte) := parse_with read_ipv6_addr.
(** [IpAddr::from_str]: the address as its four or sixteen octets. *)
Definition parse_ip : list byte → option (list byte) :=
  parse_with (λ s, match read_ipv4_addr s with Some r => Some r | None => read_ipv6_addr s end).

(** * Display *)

Definition show_ipv4 (octets : list byte) : list byte :=
  match octets with
  | [a; b; c; d] =>
    to_decimal (byte_val a) ++ x2e :: to_decimal (byte_val b) ++ x2e :: to_decimal (byte_val c)
      ++ x2e :: to_decimal (byte_val d)
  | _ => []
  end.

(** The longest run of zero segments, the first of the longest: its start and its length. *)
Fixpoint longest_zeroes (segs : list Z) (i : nat) (current longest : nat * nat) : nat * nat :=
  match segs with
  | [] => longest
  | g :: segs' =>
    if g =? 0 then
      let current := if (current.2 =? 0)%nat then (i, 1%nat) else (current.1, S current.2) in
      longest_zeroes segs' (S i) current (if (longest.2 <? current.2)%nat then current else longest)
    else longest_zeroes segs' (S i) (0%nat, 0%nat) longest
  end.

Definition show_groups_tail (gs : list Z) : list byte := flat_map (λ g, x3a :: to_lower_hex g) gs.
Definition show_groups (gs : list Z) : list byte :=
  match gs with [] => [] | g :: gs' => to_lower_hex g ++ show_groups_tail gs' end.

Definition ipv4_mapped_of (octets : list byte) : option (list byte) :=
  if decide (take 12 octets = replicate 10 x00 ++ [xff; xff]) then Some (drop 12 octets) else None.

Definition show_ipv6 (octets : list byte) : list byte :=
  match ipv4_mapped_of octets with
  | Some v4 => str "::ffff:" ++ show_ipv4 v4
  | None =>
    let segs := segments octets in
    let '(start, len) := longest_zeroes segs 0 (0%nat, 0%nat) (0%nat, 0%nat) in
    if (1 <? len)%nat
    then show_groups (take start segs) ++ x3a :: x3a :: show_groups (drop (start + len) segs)
    else show_groups segs
  end.
Definition show_ip (octets : list byte) : list byte :=
  if (length octets =? 4)%nat then show_ipv4 octets else show_ipv6 octets.

Example show_1 : show_ipv6 (octets_of [8193; 3512; 0; 0; 1; 0; 0; 1]) = str "2001:db8::1:0:0:1".
Proof. by vm_compute. Qed.
Example show_2 : show_ipv6 (octets_of [0; 0; 0; 0; 0; 65535; 258; 772]) = str "::ffff:1.2.3.4".
Proof. by vm_compute. Qed.
Example parse_1 : parse_ip (str "::1") = Some (octets_of [0; 0; 0; 0; 0; 0; 0; 1]).
Proof. by vm_compute. Qed.
Example parse_2 : parse_ip (str "64:ff9b::01.2.3.4") = None.
Proof. by vm_compute. Qed.
Example parse_3 : parse_ip (str "10.0.0.255") = Some [x0a; x00; x00; xff].
Proof. by vm_compute. Qed.

(** * Reading back what was shown *)

(** The input does not continue a number. *)
Definition stops (s : list byte) : Prop := s = [] ∨ ∃ b r, s = b :: r ∧ to_digit 16 b = None.

Lemma to_digit_mono b d : to_digit 10 b = Some d → is_Some (to_digit 16 b).
Proof.
  unfold to_digit. destruct (if byte_in 48 57 b then _ else _) as [v|]; [|done].
  destruct (v <? 10) eqn:E; [|done]. apply Z.ltb_lt in E.
  rewrite (proj2 (Z.ltb_lt v 16)) by lia. by eexists.
Qed.

Lemma stops_digit radix s b r : stops s → s = b :: r → radix = 10 ∨ radix = 16 → to_digit radix b = None.
Proof.
  intros [->|(b' & r' & -> & Hb)]; [done|]. intros [= -> ->] [->| ->]; [|done].
  destruct (to_digit 10 b) as [d|] eqn:E; [|done]. apply to_digit_mono in E as [? E]. congruence.
Qed.

Lemma span_digits_app radix t r :
  radix = 10 ∨ radix = 16 → Forall (λ b, is_Some (to_digit radix b)) t → stops r →
  span_digits radix (t ++ r) = (t, r).
Proof.
  intros Hr Ht Hs. induction Ht as [|b t [d Hb] _ IH]; simpl.
  - destruct r as [|b r]; [done|]. simpl. by rewrite (stops_digit radix _ b r Hs).
  - by rewrite Hb, IH.
Qed.

Lemma radix_digits_digits radix fuel v :
  2 ≤ radix ≤ 16 → 0 ≤ v → Forall (λ b, is_Some (to_digit radix b)) (radix_digits fuel radix v).
Proof.
  intros Hr. revert v; induction fuel as [|fuel IH]; intros v Hv; simpl; [done|].
  destruct (v <? radix) eqn:E.
  - apply Z.ltb_lt in E. repeat constructor. rewrite to_digit_digit by lia. by eexists.
  - pose proof (Z.mod_pos_bound v radix). apply Forall_app. split; [apply IH, Z.div_pos; lia|].
    repeat constructor. rewrite to_digit_digit by lia. by eexists.
Qed.

(** As many digits as the value has. *)
Lemma length_radix_digits radix n m v :
  2 ≤ radix → 0 ≤ v < radix ^ Z.of_nat n → (0 < n)%nat →
  (length (radix_digits m radix v) ≤ n)%nat.
Proof.
  intros Hr. revert n v; induction m as [|m IH]; intros n v Hv Hn; simpl; [lia|].
  destruct (v <? radix) eqn:E; simpl; [lia|]. apply Z.ltb_ge in E.
  rewrite length_app. simpl. destruct n as [|n]; [lia|].
  rewrite Nat2Z.inj_succ, Z.pow_succ_r in Hv by lia.
  assert (0 ≤ v / radix < radix ^ Z.of_nat n).
  { split; [apply Z.div_pos; lia|apply Z.div_lt_upper_bound; lia]. }
  destruct n as [|n].
  - change (radix ^ Z.of_nat 0) with 1 in *. lia.
  - specialize (IH (S n) (v / radix)). lia.
Qed.

Lemma radix_digits_no_zero radix m v :
  2 ≤ radix ≤ 16 → 0 ≤ v → v < radix ^ Z.of_nat (S m) →
  starts_with [x30] (radix_digits (S m) radix v) = true → length (radix_digits (S m) radix v) = 1%nat.
Proof.
  intros Hr. revert v; induction m as [|m IH]; intros v Hv Hm.
  - change (v < radix ^ 1) in Hm. rewrite Z.pow_1_r in Hm.
    cbn [radix_digits]. by rewrite (proj2 (Z.ltb_lt _ _)) by lia.
  - remember (S m) as k eqn:Ek. cbn [radix_digits]. destruct (v <? radix) eqn:E; [done|].
    apply Z.ltb_ge in E. subst k. rewrite (Nat2Z.inj_succ (S m)), Z.pow_succ_r in Hm by lia.
    assert (0 < v / radix) as Hq by (apply Z.div_str_pos; lia).
    assert (v / radix < radix ^ Z.of_nat (S m)) as Hq' by (apply Z.div_lt_upper_bound; lia).
    specialize (IH (v / radix) ltac:(lia) Hq').
    pose proof (parse_radix_digits (v / radix) radix (S m) (v / radix) Hr ltac:(lia) Hq') as Hp.
    pose proof (radix_digits_nonempty radix m (v / radix)) as Hne.
    destruct (radix_digits (S m) radix (v / radix)) as [|b l]; [done|].
    intros Hz. exfalso. unfold starts_with in *. simpl in Hz, IH.
    destruct (decide (x30 = b)) as [<-|]; [|done]. destruct l as [|c l]; [|by specialize (IH eq_refl)].
    assert (to_digit radix x30 = Some 0) as Hd by (apply (to_digit_digit radix 0); lia).
    simpl in Hp. rewrite Hd in Hp. case_match; [|done]. injection Hp. lia.
Qed.

Lemma read_number_show max radix digits fuel allow v r :
  radix = 10 ∨ radix = 16 → 0 ≤ v ≤ max → v < radix ^ Z.of_nat digits → (0 < digits)%nat →
  (digits ≤ S fuel)%nat → stops r →
  read_number max radix digits allow (radix_digits (S fuel) radix v ++ r) = Some (v, r).
Proof.
  intros Hr Hv Hd Hpos Hf Hs. assert (2 ≤ radix ≤ 16) as Hr' by (destruct Hr; lia).
  assert (v < radix ^ Z.of_nat (S fuel)) as Hd'.
  { eapply Z.lt_le_trans; [done|]. apply Z.pow_le_mono_r; lia. }
  unfold read_number. rewrite span_digits_app; [|done|apply radix_digits_digits; lia|done].
  pose proof (length_radix_digits radix digits (S fuel) v ltac:(lia) ltac:(lia) Hpos).
  pose proof (radix_digits_no_zero radix fuel v Hr' ltac:(lia) Hd') as Hz.
  pose proof (parse_radix_digits max radix (S fuel) v Hr' Hv Hd') as Hp.
  pose proof (radix_digits_nonempty radix fuel v) as Hne.
  destruct (radix_digits (S fuel) radix v) as [|b l]; [done|].
  rewrite (proj2 (Nat.ltb_ge _ _)) by done. rewrite Hp. cbn [length Nat.eqb].
  destruct (negb allow); [|done]. simpl. unfold starts_with in *. simpl in *.
  destruct (decide (x30 = b)) as [<-|]; [|done]. destruct l as [|c l]; [done|]. by specialize (Hz eq_refl).
Qed.

(** Neither reader accepts the separator. *)
Lemma read_number_stops max radix n allow s :
  stops s → radix = 10 ∨ radix = 16 → read_number max radix n allow s = None.
Proof.
  intros Hs Hr. unfold read_number. destruct s as [|b s]; simpl; [by destruct n|].
  rewrite (stops_digit radix _ b s Hs) by done. by destruct n.
Qed.
Lemma read_ipv4_stops s : stops s → read_ipv4_addr s = None.
Proof.
  intros Hs. unfold read_ipv4_addr. cbn [read_ipv4_groups read_separator].
  by rewrite (read_number_stops 255 10 3 false s Hs (or_introl eq_refl)).
Qed.

(** ** IPv4 *)

Lemma stops_char b r : to_digit 16 b = None → stops (b :: r).
Proof. intros. right. by exists b, r. Qed.

Lemma read_decimal b r :
  stops r → read_number 255 10 3 false (to_decimal (byte_val b) ++ r) = Some (byte_val b, r).
Proof.
  intros Hs. pose proof (byte_val_range b). unfold to_decimal.
  rewrite read_number_show; [done|by left|lia| |lia|lia|done].
  change (10 ^ Z.of_nat 3) with 1000. lia.
Qed.

Lemma read_ipv4_show o r : length o = 4%nat → stops r → read_ipv4_addr (show_ipv4 o ++ r) = Some (o, r).
Proof.
  destruct o as [|a [|b [|c [|d [|e o]]]]]; try done. intros _ Hs. unfold read_ipv4_addr, show_ipv4.
  rewrite <- !app_assoc. cbn [app read_ipv4_groups read_separator].
  rewrite read_decimal by (by apply stops_char). rewrite <- app_assoc. cbn [app read_given_char].
  rewrite decide_True by done. rewrite read_decimal by (by apply stops_char).
  rewrite <- app_assoc. cbn [app read_given_char].
  rewrite decide_True by done. rewrite read_decimal by (by apply stops_char).
  cbn [read_given_char]. rewrite decide_True by done. rewrite read_decimal by done. cbn [map]. by rewrite !byte_of_val.
Qed.

(** ** IPv6 groups *)

(** No IPv4 address starts where the digits are not followed by a dot. *)
Lemma span_no_dot t r :
  Forall (λ b, is_Some (to_digit 16 b)) t → (∀ r', r ≠ x2e :: r') → stops r →
  read_given_char x2e (span_digits 10 (t ++ r)).2 = None.
Proof.
  intros Ht Hdot Hs. induction Ht as [|b t [d Hb] Ht IH]; simpl.
  - destruct r as [|b r]; [done|]. simpl. rewrite (stops_digit 10 _ b r Hs) by (by auto). simpl.
    rewrite decide_False; [done|]. intros ->. by apply (Hdot r).
  - destruct (to_digit 10 b) as [e|].
    + by destruct (span_digits 10 (t ++ r)).
    + simpl. rewrite decide_False; [done|]. by intros ->.
Qed.

Lemma read_ipv4_no_dot t r :
  Forall (λ b, is_Some (to_digit 16 b)) t → (∀ r', r ≠ x2e :: r') → stops r →
  read_ipv4_addr (t ++ r) = None.
Proof.
  intros Ht Hdot Hs. pose proof (span_no_dot t r Ht Hdot Hs) as Hn.
  unfold read_ipv4_addr. cbn [read_ipv4_groups read_separator]. unfold read_number at 1.
  destruct (span_digits 10 (t ++ r)) as [ds r'] eqn:E. cbn [snd] in Hn.
  repeat (case_match; try done); simplify_eq;
    repeat match goal with
    | H : match _ with _ => _ end = Some _ |- _ => rewrite ?Hn in H; repeat (case_match; try done)
    end; simplify_eq; congruence.
Qed.

(** What may follow the groups of an address: its end or a double colon. *)
Definition ends_groups (r : list byte) : Prop := r = [] ∨ ∃ r', r = x3a :: x3a :: r'.
Lemma ends_groups_stops r : ends_groups r → stops r.
Proof. intros [->|[r' ->]]; [by left|]. by apply stops_char. Qed.
Lemma ends_groups_no_dot r : ends_groups r → ∀ r', r ≠ x2e :: r'.
Proof. by intros [->|[r'' ->]]. Qed.

Lemma show_groups_tail_stops gs r : ends_groups r → stops (show_groups_tail gs ++ r).
Proof. destruct gs; [apply ends_groups_stops|]. intros _. by apply stops_char. Qed.
Lemma show_groups_tail_no_dot gs r r' : ends_groups r → show_groups_tail gs ++ r ≠ x2e :: r'.
Proof. destruct gs; [|done]. intros He. by apply ends_groups_no_dot. Qed.

Definition in_u16_group (g : Z) : Prop := 0 ≤ g ≤ 65535.

Lemma read_hex g r :
  in_u16_group g → stops r → read_number 65535 16 4 true (to_lower_hex g ++ r) = Some (g, r).
Proof.
  intros Hg Hs. apply read_number_show; [by right|done| |lia|lia|done].
  change (16 ^ Z.of_nat 4) with 65536. unfold in_u16_group in Hg. lia.
Qed.
Lemma read_ipv4_hex g r :
  in_u16_group g → (∀ r', r ≠ x2e :: r') → stops r → read_ipv4_addr (to_lower_hex g ++ r) = None.
Proof.
  intros Hg. unfold in_u16_group in Hg. apply read_ipv4_no_dot, radix_digits_digits; lia.
Qed.

Lemma read_groups_end n i limit r :
  ends_groups r → (i = 0%nat → r ≠ []→ ∃ r', r = x3a :: x3a :: r') →
  read_groups n i limit r = ([], false, r).
Proof.
  intros He _. destruct n as [|n]; [done|]. cbn [read_groups].
  assert (∀ A (inner : reader A), (∀ s, stops s → inner s = None) →
            read_separator x3a i inner r = None) as Hsep.
  { intros A inner Hi. destruct i; simpl; [by apply Hi, ends_groups_stops|].
    destruct He as [->|[r' ->]]; [done|]. simpl. apply Hi. by apply stops_char. }
  rewrite (Hsep _ _ read_ipv4_stops). rewrite (Hsep _ (read_number 65535 16 4 true)).
  - by destruct (i <? limit - 1)%nat.
  - intros s Hs. apply read_number_stops; [done|by right].
Qed.

Lemma read_groups_tail gs n i limit r :
  Forall in_u16_group gs → ends_groups r → (length gs ≤ n)%nat → (0 < i)%nat →
  read_groups n i limit (show_groups_tail gs ++ r) = (gs, false, r).
Proof.
  intros Hgs He. revert n i; induction Hgs as [|g gs Hg Hgs IH]; intros n i Hn Hi.
  { simpl. apply read_groups_end; [done|lia]. }
  destruct n as [|n]; simpl in Hn; [lia|]. destruct i as [|i]; [lia|].
  change (show_groups_tail (g :: gs)) with (x3a :: to_lower_hex g ++ show_groups_tail gs).
  cbn [app]. rewrite <- app_assoc. cbn [read_groups read_separator read_given_char].
  rewrite decide_True by done.
  rewrite read_ipv4_hex, read_hex, IH; [by destruct (_ <? _)%nat|..];
    first [by apply show_groups_tail_stops|intros; by apply show_groups_tail_no_dot|done|lia].
Qed.

Lemma read_groups_show gs n limit r :
  Forall in_u16_group gs → ends_groups r → (length gs ≤ n)%nat →
  read_groups n 0 limit (show_groups gs ++ r) = (gs, false, r).
Proof.
  intros Hgs He Hn. destruct Hgs as [|g gs Hg Hgs].
  { simpl. apply read_groups_end; [done|]. by destruct He as [->|?]. }
  destruct n as [|n]; simpl in Hn; [lia|].
  change (show_groups (g :: gs)) with (to_lower_hex g ++ show_groups_tail gs).
  rewrite <- app_assoc. cbn [read_groups read_separator].
  rewrite read_ipv4_hex, read_hex, read_groups_tail; [by destruct (_ <? _)%nat|..];
    first [by apply show_groups_tail_stops|intros; by apply show_groups_tail_no_dot|done|lia].
Qed.

(** ** IPv6 addresses *)

Lemma length_segments o n : length o = (2 * n)%nat → length (segments o) = n.
Proof.
  revert o; induction n as [|n IH]; intros o Ho.
  { by destruct o. }
  destruct o as [|a [|b o]]; simpl in Ho; [lia|lia|]. simpl. rewrite IH; [done|lia].
Qed.
Lemma octets_of_segments o n : length o = (2 * n)%nat → octets_of (segments o) = o.
Proof.
  revert o; induction n as [|n IH]; intros o Ho.
  { by destruct o. }
  destruct o as [|a [|b o]]; simpl in Ho; [lia|lia|].
  change (be_bytes 2 (be_value [a; b]) ++ octets_of (segments o) = a :: b :: o).
  rewrite IH by lia. pose proof (be_bytes_be_value [a; b]) as Hb. cbn [length] in Hb. by rewrite Hb.
Qed.
Lemma segments_range o n : length o = (2 * n)%nat → Forall in_u16_group (segments o).
Proof.
  revert o; induction n as [|n IH]; intros o Ho.
  { by destruct o. }
  destruct o as [|a [|b o]]; simpl in Ho; [lia|lia|]. simpl. constructor; [|apply IH; lia].
  pose proof (be_value_range [a; b]) as Hv. change (256 ^ Z.of_nat (length [a; b])) with 65536 in Hv.
  unfold in_u16_group. lia.
Qed.

(** The run the printer compresses is a run of zeroes of the address. *)
Definition zero_run (l : list Z) (s : nat * nat) : Prop :=
  ∀ j, (s.1 ≤ j < s.1 + s.2)%nat → l !! j = Some 0.

Lemma longest_zeroes_run l segs i cur longest :
  zero_run l cur → (cur.2 = 0 ∨ cur.1 + cur.2 = i)%nat → zero_run l longest → drop i l = segs →
  zero_run l (longest_zeroes segs i cur longest).
Proof.
  revert i cur longest; induction segs as [|g segs IH]; intros i cur longest Hc Hci Hl Hd; simpl; [done|].
  assert (l !! i = Some g) as Hg by (by rewrite <- (Nat.add_0_r i), <- lookup_drop, Hd).
  assert (drop (S i) l = segs) as Hd' by (rewrite <- Nat.add_1_r, <- drop_drop, Hd; done).
  destruct (g =? 0) eqn:E; [apply Z.eqb_eq in E as ->|].
  2:{ apply IH; [intros j; simpl; lia|by left|done|done]. }
  set (cur' := if (cur.2 =? 0)%nat then _ else _).
  assert (zero_run l cur' ∧ (cur'.1 + cur'.2 = S i)%nat) as [Hc' Hci'].
  { unfold cur'. destruct (cur.2 =? 0)%nat eqn:E2; simpl.
    - split; [|lia]. intros j; simpl; intros Hj. by assert (j = i) as -> by lia.
    - apply Nat.eqb_neq in E2. destruct Hci as [?|Hci]; [done|]. split; [|lia].
      intros j; simpl; intros Hj. destruct (decide (j = i)) as [->|]; [done|]. apply Hc. lia. }
  apply IH; [done|by right| |done]. by destruct (longest.2 <? cur'.2)%nat.
Qed.

Lemma zero_run_split (l : list Z) s :
  zero_run l s → (0 < s.2)%nat →
  l = take s.1 l ++ replicate s.2 0 ++ drop (s.1 + s.2) l ∧ (s.1 + s.2 ≤ length l)%nat.
Proof.
  intros Hz Hs. assert (s.1 + s.2 ≤ length l)%nat as Hl.
  { assert (l !! (s.1 + s.2 - 1)%nat = Some 0) as Hj%lookup_lt_Some by (apply Hz; lia). lia. }
  split; [|done]. rewrite <- (take_drop s.1 l) at 1. f_equal.
  rewrite <- (take_drop s.2 (drop s.1 l)), drop_drop. f_equal.
  apply list_eq. intros j. destruct (decide (j < s.2)%nat).
  - rewrite lookup_take_lt by done. rewrite lookup_drop, lookup_replicate_2 by done. apply Hz. lia.
  - rewrite lookup_take_ge by lia. symmetry. apply lookup_replicate_None. lia.
Qed.

Lemma parse_ipv6_groups gs :
  Forall in_u16_group gs → length gs = 8%nat → parse_ipv6 (show_groups gs) = Some (octets_of gs).
Proof.
  intros Hgs Hl. unfold parse_ipv6, parse_with, read_ipv6_addr.
  rewrite <- (app_nil_r (show_groups gs)), read_groups_show; [|done|by left|lia]. by rewrite Hl.
Qed.

Lemma parse_ipv6_compressed head tail :
  Forall in_u16_group head → Forall in_u16_group tail → (length head + length tail ≤ 7)%nat →
  parse_ipv6 (show_groups head ++ x3a :: x3a :: show_groups tail)
  = Some (octets_of (head ++ replicate (8 - length head - length tail) 0 ++ tail)).
Proof.
  intros Hh Ht Hl. unfold parse_ipv6, parse_with, read_ipv6_addr.
  rewrite read_groups_show; [|done|right; by eexists|lia].
  rewrite (proj2 (Nat.eqb_neq _ _)) by lia. cbn [read_given_char]. rewrite decide_True by done.
  cbn [read_given_char]. rewrite decide_True by done.
  rewrite <- (app_nil_r (show_groups tail)), read_groups_show; [done|done|by left|lia].
Qed.

Lemma read_groups_v4 o n i limit :
  length o = 4%nat → (i < limit - 1)%nat → (0 < i)%nat →
  read_groups (S n) i limit (x3a :: show_ipv4 o) = (segments o, true, []).
Proof.
  intros Ho Hi Hpos. cbn [read_groups]. rewrite (proj2 (Nat.ltb_lt _ _)) by done.
  destruct i as [|i]; [lia|]. cbn [read_separator read_given_char]. rewrite decide_True by done.
  rewrite <- (app_nil_r (show_ipv4 o)), read_ipv4_show by (done || by left). done.
Qed.

(** Every IPv6 address is read back from its text. *)
Lemma parse_show_ipv6 o : length o = 16%nat → parse_ipv6 (show_ipv6 o) = Some o.
Proof.
  intros Ho. unfold show_ipv6, ipv4_mapped_of. case_decide as Hm.
  - assert (o = replicate 10 x00 ++ [xff; xff] ++ drop 12 o) as Heq.
    { rewrite app_assoc, <- Hm. by rewrite take_drop. }
    assert (length (drop 12 o) = 4%nat) as Hd by (rewrite length_drop; lia).
    remember (drop 12 o) as v4 eqn:Ev. clear Ev Hm Ho. subst o.
    unfold parse_ipv6, parse_with, read_ipv6_addr.
    change (str "::ffff:" ++ show_ipv4 v4)
      with (x3a :: x3a :: to_lower_hex 65535 ++ x3a :: show_ipv4 v4).
    rewrite (read_groups_end 8 0 8); [|right; by eexists|intros; by eexists]. simpl length.
    cbn [Nat.eqb read_given_char]. rewrite decide_True by done. cbn [read_given_char].
    rewrite decide_True by done. cbn [Nat.sub Nat.add].
    cbn [read_groups Nat.ltb Nat.leb Nat.sub read_separator].
    rewrite read_ipv4_hex, read_hex; [|done|by apply stops_char|done|done|by apply stops_char].
    pose proof (read_groups_v4 v4 5 1 7 Hd ltac:(lia) ltac:(lia)) as Hr.
    cbn [read_groups Nat.ltb Nat.leb Nat.sub read_separator] in Hr |- *. rewrite Hr.
    destruct v4 as [|a [|b [|c [|d [|]]]]]; try done. simpl segments. cbn [length Nat.sub replicate app].
    do 2 f_equal. cbn [octets_of flat_map]. 
    pose proof (be_bytes_be_value [a; b]) as H1. pose proof (be_bytes_be_value [c; d]) as H2.
    cbn [length] in H1, H2. by rewrite H1, H2.
  - pose proof (length_segments o 8 Ho) as Hl. pose proof (segments_range o 8 Ho) as Hr.
    pose proof (octets_of_segments o 8 Ho) as He.
    destruct (longest_zeroes _ _ _ _) as [start len] eqn:Ez.
    destruct (1 <? len)%nat eqn:El; [|by rewrite parse_ipv6_groups, He].
    apply Nat.ltb_lt in El.
    assert (zero_run (segments o) (start, len)) as Hz.
    { rewrite <- Ez. apply longest_zeroes_run; [intros j; simpl; lia|by left|intros j; simpl; lia|done]. }
    apply zero_run_split in Hz as [Hs Hb]; [|simpl; lia]. cbn [fst snd] in *.
    rewrite parse_ipv6_compressed; [|by apply Forall_take|by apply Forall_drop|..];
      rewrite length_take, length_drop; [|lia].
    assert (8 - start `min` length (segments o) - (length (segments o) - (start + len)) = len)%nat
      as -> by lia.
    by rewrite <- Hs, He.
Qed.

(** ** What the parser returns and the printer writes *)

Lemma length_octets_of segs : length (octets_of segs) = (2 * length segs)%nat.
Proof. induction segs as [|g segs IH]; simpl; [done|]. rewrite IH. lia. Qed.

Lemma length_read_ipv4 s o r : read_ipv4_addr s = Some (o, r) → length o = 4%nat.
Proof.
  unfold read_ipv4_addr. destruct (read_ipv4_groups 4 0 s) as [[gs r']|] eqn:E; [|done].
  intros [= <- <-]. rewrite length_map. revert E. cbn [read_ipv4_groups].
  repeat (case_match; try done); intros [= <- <-]; simplify_eq; done.
Qed.

Lemma length_read_groups n i limit s :
  (n = limit - i)%nat → (length (read_groups n i limit s).1.1 ≤ n)%nat.
Proof.
  revert i s; induction n as [|n IH]; intros i s Hn; cbn [read_groups]; [done|].
  destruct (if (i <? limit - 1)%nat then _ else _) as [[o r]|] eqn:E.
  - destruct (i <? limit - 1)%nat eqn:Ei; [|done]. apply Nat.ltb_lt in Ei.
    assert (length o = 4%nat) as Ho.
    { unfold read_separator in E. destruct i; [by eapply length_read_ipv4|].
      destruct (read_given_char x3a s) as [[? ?]|]; [by eapply length_read_ipv4|done]. }
    simpl. rewrite (length_segments o 2) by done. lia.
  - destruct (read_separator x3a i (read_number _ _ _ _) s) as [[g r]|]; [|simpl; lia].
    specialize (IH (S i) r ltac:(lia)).
    destruct (read_groups n (S i) limit r) as [[gs v4] r']. simpl in *. lia.
Qed.

Lemma parse_ipv6_length s o : parse_ipv6 s = Some o → length o = 16%nat.
Proof.
  unfold parse_ipv6, parse_with, read_ipv6_addr.
  pose proof (length_read_groups 8 0 8 s eq_refl) as Hh.
  destruct (read_groups 8 0 8 s) as [[head v4] r]. simpl in Hh.
  destruct (length head =? 8)%nat eqn:E.
  { apply Nat.eqb_eq in E. destruct r; [|done]. intros [= <-]. rewrite length_octets_of. lia. }
  apply Nat.eqb_neq in E. destruct v4; [done|].
  destruct (read_given_char x3a r) as [[_ r1]|]; [|done].
  destruct (read_given_char x3a r1) as [[_ r2]|]; [|done].
  set (limit := (8 - (length head + 1))%nat).
  pose proof (length_read_groups limit 0 limit r2 ltac:(lia)) as Ht.
  destruct (read_groups limit 0 limit r2) as [[tail v4] r3]. simpl in Ht. destruct r3; [|done].
  intros [= <-]. rewrite length_octets_of, !length_app, length_replicate. lia.
Qed.

(** The characters of an address as text. *)
Definition ip_char (b : byte) : Prop := is_ascii_alphanumeric b = true ∨ b = x2e ∨ b = x3a.

Lemma number_ip_chars radix fuel v :
  2 ≤ radix ≤ 16 → 0 ≤ v → Forall ip_char (radix_digits fuel radix v).
Proof.
  intros Hr Hv. eapply Forall_impl; [by apply radix_digits_alnum|]. intros b Hb. by left.
Qed.
Lemma show_ipv4_chars o : Forall ip_char (show_ipv4 o).
Proof.
  assert (∀ b, Forall ip_char (to_decimal (byte_val b))) as Hd.
  { intros b. pose proof (byte_val_range b). apply number_ip_chars; lia. }
  assert (ip_char x2e) as Hdot by (by right; left).
  destruct o as [|a [|b [|c [|d [|]]]]]; try done. simpl.
  repeat (apply Forall_app; split; [apply Hd|]; constructor; [done|]). apply Hd.
Qed.
Lemma show_groups_chars gs : Forall in_u16_group gs → Forall ip_char (show_groups gs).
Proof.
  assert (∀ g, in_u16_group g → Forall ip_char (to_lower_hex g)) as Hh.
  { intros g Hg. unfold in_u16_group in Hg. apply number_ip_chars; lia. }
  intros Hgs. destruct Hgs as [|g gs Hg Hgs]; [done|]. apply Forall_app. split; [by apply Hh|].
  induction Hgs as [|h gs Hx _ IH]; [done|].
  change (Forall ip_char (x3a :: to_lower_hex h ++ show_groups_tail gs)).
  constructor; [by right; right|]. apply Forall_app. split; [by apply Hh|done].
Qed.
Lemma show_ipv6_chars o : length o = 16%nat → Forall ip_char (show_ipv6 o).
Proof.
  intros Ho. pose proof (segments_range o 8 Ho) as Hr. assert (ip_char x3a) as Hc by (by right; right).
  unfold show_ipv6. destruct (ipv4_mapped_of o).
  - apply Forall_app. split; [|apply show_ipv4_chars]. repeat (constructor; [first [by left|by right; right]|]). done.
  - destruct (longest_zeroes _ _ _ _) as [a n]. destruct (1 <? n)%nat; [|by apply show_groups_chars].
    apply Forall_app. split; [by apply show_groups_chars, Forall_take|].
    do 2 (constructor; [done|]). by apply show_groups_chars, Forall_drop.
Qed.
