(* ===== verification/EnrollKeys.v ===== *)
(** Enrollment keys ([rustgo-protocol/src/enrollment.rs]): the key an administrator hands out,
    the registration intent of a client that asks for approval, and the canonical form of a
    server address, each as text and back. *)

From S2P Require Import Prelude.
From S2P Require Import Text.
From S2P Require Import IpText.
From S2P Require Import Peer.
From Stdlib Require Import Strings.Byte.
From stdpp Require Import prelude list strings.

#[local] Open Scope Z_scope.

(** * The base64 crate *)

(** The engines [STANDARD] and [URL_SAFE_NO_PAD]. *)
Class Base64 := {
  standard_encode : list byte → list byte;
  standard_decode : list byte → option (list byte);
  url_safe_encode : list byte → list byte;
  url_safe_decode : list byte → option (list byte);
}.

Definition url_safe_char (b : byte) : bool :=
  is_ascii_alphanumeric b || bool_decide (b = x2d) || bool_decide (b = x5f).

(** Decoding undoes encoding; the URL-safe alphabet is letters, digits, dash and underscore;
    three bytes become at most four characters. *)
Class Base64Laws (B : Base64) : Prop := {
  standard_decode_encode b : standard_decode (standard_encode b) = Some b;
  url_safe_decode_encode b : url_safe_decode (url_safe_encode b) = Some b;
  url_safe_alphabet b : Forall (λ c, url_safe_char c = true) (url_safe_encode b);
  url_safe_length b : blen (url_safe_encode b) ≤ 2 * blen b + 2;
}.

(** * Data *)

Definition PREFIX : list byte := str "rustgo-enroll-v1.".
Definition MAX_ENCODED_BYTES : Z := 512.
Definition SECRET_BYTES : Z := 32.
Definition CHECKSUM_HEX_BYTES : Z := 8.

Inductive EnrollmentKeyError :=
| InvalidFormat
| UnsupportedVersion
| InvalidChecksum
| InvalidPurpose
| InvalidAddress.

Inductive EnrollmentPurpose := Enroll | ReEnroll.
#[export] Instance enrollment_purpose_eq_dec : EqDecision EnrollmentPurpose.
Proof. solve_decision. Defined.

Record EnrollmentKeyMaterial := {
  ekm_server_addr : list byte;
  ekm_certificate_fingerprint : list byte;
  ekm_purpose : EnrollmentPurpose;
  ekm_token : list byte;
}.

Record RegistrationIntent := {
  ri_client_name : list byte;
  ri_uid : option (list byte);
  ri_profile : bool;
  ri_purpose : EnrollmentPurpose;
  ri_signature : option (list byte);
}.

(** * Server addresses *)

Definition validate_port (port : option (list byte)) : res EnrollmentKeyError Z :=
  port ← ok_or port InvalidAddress;
  port ← ok_or (from_str_radix u16_max 10 port) InvalidAddress;
  if port =? 0 then Err InvalidAddress else Ok port.

(** The host of [host:port] must be ASCII without white space; [char::is_whitespace] of an
    ASCII byte is a comparison of its value. *)
Definition host_invalid (host : list byte) : bool :=
  bool_decide (host = []) || bool_decide (x3a ∈ host) || negb (is_ascii host)
  || existsb is_whitespace (chars host).

Definition canonical_enrollment_server_addr (address : list byte)
    : res EnrollmentKeyError (list byte) :=
  match address with
  | x5b :: rest =>
    '(host, suffix) ← ok_or (split_once x5d rest) InvalidAddress;
    port ← validate_port (strip_prefix_str [x3a] suffix);
    ip ← ok_or (parse_ipv6 host) InvalidAddress;
    Ok (x5b :: show_ipv6 ip ++ x5d :: x3a :: to_decimal port)
  | _ =>
    '(host, port) ← ok_or (rsplit_once x3a address) InvalidAddress;
    if host_invalid host then Err InvalidAddress
    else
      port ← validate_port (Some port);
      Ok (to_ascii_lowercase host ++ x3a :: to_decimal port)
  end.

(** * Enrollment keys *)

Definition EnrollmentKeyMaterial_new (purpose : EnrollmentPurpose)
    (server_addr certificate_fingerprint token : list byte)
    : res EnrollmentKeyError EnrollmentKeyMaterial :=
  addr ← canonical_enrollment_server_addr server_addr;
  Ok {| ekm_server_addr := addr; ekm_certificate_fingerprint := certificate_fingerprint;
        ekm_purpose := purpose; ekm_token := token |}.

Definition purpose_byte (p : EnrollmentPurpose) : byte :=
  match p with Enroll => x01 | ReEnroll => x02 end.

(** [hex_checksum] and [decode_checksum]. *)
Definition hex_checksum (bytes : list byte) : list byte := hex_bytes bytes.
Fixpoint decode_checksum (encoded : list byte) : res EnrollmentKeyError (list byte) :=
  match encoded with
  | [] => Ok []
  | [_] => Err InvalidChecksum
  | a :: b :: r =>
    if utf8_valid [a; b] then
      v ← ok_or (from_str_radix 255 16 [a; b]) InvalidChecksum;
      checksum ← decode_checksum r;
      Ok (byte_of v :: checksum)
    else Err InvalidChecksum
  end.

Section keys.
Context {P : Primitives} {B : Base64}.

Definition ekm_payload (k : EnrollmentKeyMaterial) : list byte :=
  let address := ekm_server_addr k in
  purpose_byte (ekm_purpose k) :: be_bytes 2 (blen address) ++ address
    ++ ekm_certificate_fingerprint k ++ ekm_token k.
Definition ekm_encode (k : EnrollmentKeyMaterial) : list byte :=
  let payload := ekm_payload k in
  PREFIX ++ url_safe_encode payload ++ x2e :: hex_checksum (take 4 (sha256 payload)).

(** The payload behind the checksum. *)
Definition ekm_decode_payload (payload : list byte) : res EnrollmentKeyError EnrollmentKeyMaterial :=
  if blen payload <? 3 + 2 * SECRET_BYTES then Err InvalidFormat
  else
    match payload with
    | tag :: l1 :: l2 :: r =>
      purpose ← match tag with x01 => Ok Enroll | x02 => Ok ReEnroll | _ => Err InvalidPurpose end;
      let address_len := be_value [l1; l2] in
      if negb (blen payload =? 3 + address_len + 2 * SECRET_BYTES) then Err InvalidFormat
      else
        let address := take (Z.to_nat address_len) r in
        if utf8_valid address then
          let rest := drop (Z.to_nat address_len) r in
          EnrollmentKeyMaterial_new purpose address (take 32 rest) (drop 32 rest)
        else Err InvalidAddress
    | _ => Panic
    end.

Definition ekm_decode (encoded : list byte) : res EnrollmentKeyError EnrollmentKeyMaterial :=
  if bool_decide (encoded = []) || (MAX_ENCODED_BYTES <? blen encoded) then Err InvalidFormat
  else
    remainder ← ok_or (strip_prefix_str PREFIX encoded) UnsupportedVersion;
    '(payload_encoded, checksum_encoded) ← ok_or (split_once x2e remainder) InvalidFormat;
    if negb (blen checksum_encoded =? CHECKSUM_HEX_BYTES) || bool_decide (x2e ∈ checksum_encoded)
    then Err InvalidChecksum
    else
      payload ← ok_or (url_safe_decode payload_encoded) InvalidFormat;
      checksum ← decode_checksum checksum_encoded;
      if decide (take 4 (sha256 payload) = checksum) then ekm_decode_payload payload
      else Err InvalidChecksum.
End keys.

(** * Registration intents *)

(** [validate_display_id] without its trimming: letters, digits, dots, underscores, dashes. *)
Definition id_byte (b : byte) : bool :=
  is_ascii_alphanumeric b || bool_decide (b = x2e) || bool_decide (b = x5f) || bool_decide (b = x2d).

Definition RegistrationIntent_new (client_name : list byte) (purpose : EnrollmentPurpose)
    : res EnrollmentKeyError RegistrationIntent :=
  if bool_decide (client_name = []) || (64 <? blen client_name) || negb (forallb id_byte client_name)
  then Err InvalidFormat
  else Ok {| ri_client_name := client_name; ri_uid := None; ri_profile := false;
             ri_purpose := purpose; ri_signature := None |}.

(** Blank, longer than 128 bytes, or with a control character. *)
Definition display_name_invalid (name : list byte) : bool :=
  bool_decide (trim name = []) || (128 <? blen name) || existsb is_control (chars name).

Definition for_profile (display_name : list byte) (uid : option (list byte))
    (purpose : EnrollmentPurpose) : res EnrollmentKeyError RegistrationIntent :=
  if display_name_invalid display_name then Err InvalidFormat
  else
    _ ← match uid with Some uid => _ ← RegistrationIntent_new uid purpose; Ok tt | None => Ok tt end;
    Ok {| ri_client_name := display_name; ri_uid := uid; ri_profile := true;
          ri_purpose := purpose; ri_signature := None |}.

Definition purpose_word (p : EnrollmentPurpose) : list byte :=
  match p with Enroll => str "enroll" | ReEnroll => str "reenroll" end.
Definition INTENT_V1 : list byte := str "rustgo-approval-v1.".
Definition INTENT_V2 : list byte := str "rustgo-approval-v2.".

(** The 64 bytes of a proof, two hexadecimal digits each. *)
Fixpoint decode_proof (proof : list byte) : res EnrollmentKeyError (list byte) :=
  match proof with
  | a :: b :: r =>
    v ← ok_or (from_str_radix 255 16 [a; b]) InvalidFormat;
    signature ← decode_proof r;
    Ok (byte_of v :: signature)
  | _ => Ok []
  end.

Section intents.
Context {B : Base64}.

Definition ri_encode (i : RegistrationIntent) : list byte :=
  let kind := purpose_word (ri_purpose i) in
  if ri_profile i then
    INTENT_V2 ++ kind ++ x2e :: url_safe_encode (ri_client_name i) ++ x2e :: default [] (ri_uid i)
  else INTENT_V1 ++ kind ++ x2e :: ri_client_name i.

(** The intent in front of its proof. *)
Definition split_proof (encoded : list byte)
    : res EnrollmentKeyError (list byte * option (list byte)) :=
  match split_once x3a encoded with
  | Some (intent, proof) =>
    if negb (blen proof =? 128) || negb (forallb is_ascii_hexdigit proof) then Err InvalidFormat
    else signature ← decode_proof proof; Ok (intent, Some signature)
  | None => Ok (encoded, None)
  end.

Definition with_proof (i : RegistrationIntent) (s : option (list byte)) : RegistrationIntent :=
  {| ri_client_name := ri_client_name i; ri_uid := ri_uid i; ri_profile := ri_profile i;
     ri_purpose := ri_purpose i; ri_signature := s |}.

Definition decode_intent (encoded : list byte) : res EnrollmentKeyError RegistrationIntent :=
  let profile := starts_with INTENT_V2 encoded in
  '(purpose, name) ← ok_or
    (strip_prefix_str (if profile then INTENT_V2 else INTENT_V1) encoded ≫= split_once x2e) InvalidFormat;
  purpose ← (if decide (purpose = str "enroll") then Ok Enroll
             else if decide (purpose = str "reenroll") then Ok ReEnroll else Err InvalidPurpose);
  if profile then
    '(name, uid) ← ok_or (split_once x2e name) InvalidFormat;
    bytes ← ok_or (url_safe_decode name) InvalidFormat;
    if utf8_valid bytes
    then for_profile bytes (if decide (uid = []) then None else Some uid) purpose
    else Err InvalidFormat
  else RegistrationIntent_new name purpose.

Definition ri_decode (encoded : list byte) : res EnrollmentKeyError RegistrationIntent :=
  if MAX_ENCODED_BYTES <? blen encoded then Err InvalidFormat
  else
    '(encoded, signature) ← split_proof encoded;
    result ← decode_intent encoded;
    Ok (with_proof result signature).
End intents.
