(* ===== verification/EnrollKeysFacts.v ===== *)
(** Enrollment keys and registration intents are read back from their text. *)

From S2P Require Import Prelude.
From S2P Require Import Text.
From S2P Require Import IpText.
From S2P Require Import Peer.
From S2P Require Import EnrollKeys.
From Stdlib Require Import Strings.Byte.
From stdpp Require Import prelude list strings.

#[local] Open Scope Z_scope.
#[local] Arguments to_decimal : simpl never.

(** * ASCII *)

Lemma ascii_utf8 s : is_ascii s = true → utf8_valid s = true.
Proof.
  unfold is_ascii. induction s as [|b s IH]; simpl; [done|]. intros [-> Hs]%andb_true_iff. by apply IH.
Qed.
Lemma Forall_ascii (P : byte → Prop) s :
  (∀ b, P b → byte_in 0 127 b = true) → Forall P s → is_ascii s = true.
Proof. intros Hp. induction 1 as [|b s Hb _ IH]; simpl; [done|]. by rewrite (Hp b Hb). Qed.
Lemma alnum_ascii b : is_ascii_alphanumeric b = true → byte_in 0 127 b = true.
Proof. by destruct b. Qed.
Lemma ip_char_ascii b : ip_char b → byte_in 0 127 b = true.
Proof. intros [Hb|[->| ->]]; [by apply alnum_ascii|done|done]. Qed.
Lemma is_ascii_app s t : is_ascii (s ++ t) = is_ascii s && is_ascii t.
Proof. apply forallb_app. Qed.

Lemma Forall_not_elem (P : byte → Prop) c s : ¬ P c → Forall P s → c ∉ s.
Proof. intros Hc Hs Hin. rewrite Forall_forall in Hs. by apply Hc, Hs. Qed.

Lemma chars_ascii s : is_ascii s = true → chars s = map byte_val s.
Proof. intros Ha. unfold chars. rewrite char_bytes_ascii by done. by rewrite map_map. Qed.

(** * Server addresses *)

Lemma decimal_alnum v : 0 ≤ v → Forall (λ b, is_ascii_alphanumeric b = true) (to_decimal v).
Proof. intros Hv. by apply radix_digits_alnum. Qed.

Lemma validate_port_Ok port v :
  validate_port port = Ok v → 0 < v ≤ u16_max ∧ validate_port (Some (to_decimal v)) = Ok v.
Proof.
  unfold validate_port. destruct port as [s|]; [|done]. simpl.
  destruct (from_str_radix u16_max 10 s) as [n|] eqn:E; [|done]. simpl.
  destruct (n =? 0) eqn:En; [done|]. intros [= <-]. apply Z.eqb_neq in En.
  assert (0 ≤ n ≤ u16_max) as Hn by (by apply from_str_radix_range in E).
  split; [lia|]. unfold to_decimal. rewrite from_str_radix_digits; [|lia|done|].
  - simpl. by rewrite (proj2 (Z.eqb_neq _ _) En).
  - unfold u16_max in Hn. change (10 ^ Z.of_nat 5) with 100000. lia.
Qed.

Lemma split_suffix_port v : strip_prefix_str [x3a] (x3a :: to_decimal v) = Some (to_decimal v).
Proof. apply (strip_prefix_str_app [x3a]). Qed.

(** Lower case keeps a host valid. *)
Lemma lowercase_facts b :
  byte_in 0 127 (lowercase_byte b) = byte_in 0 127 b ∧
  is_whitespace (byte_val (lowercase_byte b)) = is_whitespace (byte_val b) ∧
  (lowercase_byte b = x3a ↔ b = x3a) ∧ (lowercase_byte b = x5b ↔ b = x5b).
Proof. by destruct b. Qed.

Lemma host_lowercase host : host_invalid host = false → host_invalid (to_ascii_lowercase host) = false.
Proof.
  unfold host_invalid. rewrite !orb_false_iff, !bool_decide_eq_false, !negb_false_iff.
  intros [[[Hne Hc] Ha] Hw]. rewrite chars_ascii in Hw by done.
  assert (is_ascii (to_ascii_lowercase host) = true) as Ha'.
  { clear -Ha. unfold is_ascii in *. induction host as [|b s IH]; simpl in *; [done|].
    rewrite (proj1 (lowercase_facts b)). apply andb_true_iff in Ha as [-> Ha]. by apply IH. }
  rewrite chars_ascii by done. split; [split; [split|]|]; [by destruct host| |done|].
  - intros Hin. apply Hc. unfold to_ascii_lowercase in Hin. apply list_elem_of_fmap in Hin as (b & Hb & Hin).
    pose proof (lowercase_facts b) as (_ & _ & [Hx _] & _). by rewrite <- (Hx (eq_sym Hb)).
  - clear -Hw. induction host as [|b s IH]; simpl in *; [done|].
    rewrite (proj1 (proj2 (lowercase_facts b))). apply orb_false_iff in Hw as [-> Hw]. by apply IH.
Qed.

Lemma host_ascii host : host_invalid host = false → is_ascii host = true ∧ x3a ∉ host ∧ host ≠ [].
Proof.
  unfold host_invalid. rewrite !orb_false_iff, !bool_decide_eq_false, !negb_false_iff. naive_solver.
Qed.

(** A canonical address is its own canonical form, and is ASCII. *)
Lemma canonical_idemp a c :
  canonical_enrollment_server_addr a = Ok c →
  canonical_enrollment_server_addr c = Ok c ∧ is_ascii c = true.
Proof.
  assert ((∃ rest, a = x5b :: rest) ∨ ¬ ∃ rest, a = x5b :: rest) as [[rest ->]|Hnb].
  { destruct a as [|b a]; [right; naive_solver|].
    destruct (decide (b = x5b)) as [->|]; [left; by eexists|right; naive_solver]. }
  - simpl. destruct (split_once x5d rest) as [[host suffix]|] eqn:E; [|done]. simpl.
    destruct (validate_port _) as [port| |] eqn:Ep; try done. simpl.
    destruct (parse_ipv6 host) as [ip|] eqn:Ei; [|done]. simpl. intros [= <-].
    apply parse_ipv6_length in Ei. apply validate_port_Ok in Ep as [Hr Hp].
    pose proof (show_ipv6_chars ip Ei) as Hc.
    cbn [canonical_enrollment_server_addr].
    rewrite split_once_app; [|eapply Forall_not_elem, Hc; intros [|[|]]; done]. cbn [ok_or mbind res_bind].
    rewrite split_suffix_port, Hp. cbn [mbind res_bind]. rewrite parse_show_ipv6 by done. split; [done|].
    change (is_ascii (show_ipv6 ip ++ x5d :: x3a :: to_decimal port) = true).
    rewrite is_ascii_app. rewrite (Forall_ascii _ _ ip_char_ascii Hc). simpl.
    eapply Forall_ascii, decimal_alnum; [apply alnum_ascii|lia].
  - set (f := canonical_enrollment_server_addr).
    assert (∀ x, (∀ rest, x ≠ x5b :: rest) → f x = ('(host, port) ← ok_or (rsplit_once x3a x) InvalidAddress;
      if host_invalid host then Err InvalidAddress
      else port ← validate_port (Some port); Ok (to_ascii_lowercase host ++ x3a :: to_decimal port))) as Hf.
    { intros x Hx. unfold f. destruct x as [|b x]; [done|]. destruct b; try done. by destruct (Hx x). }
    rewrite Hf by naive_solver.
    destruct (rsplit_once x3a a) as [[host port]|] eqn:E; [|done].
    cbn [ok_or mbind res_bind]. destruct (host_invalid host) eqn:Eh; [done|].
    destruct (validate_port (Some port)) as [v| |] eqn:Ep; try done. cbn [mbind res_bind]. intros [= <-].
    apply rsplit_once_Some in E as [-> _]. apply validate_port_Ok in Ep as [Hr Hp].
    pose proof (host_lowercase host Eh) as Eh'. pose proof (host_ascii _ Eh') as (Ha & Hc & Hne).
    rewrite Hf.
    2:{ destruct host as [|b host]; [done|]. simpl. intros rest [= Hb _]. apply lowercase_facts in Hb as ->.
        by apply Hnb; eexists. }
    rewrite rsplit_once_app.
    2:{ eapply Forall_not_elem, decimal_alnum; [|lia]. done. }
    cbn [ok_or mbind res_bind]. rewrite Eh', Hp. cbn [mbind res_bind].
    rewrite to_ascii_lowercase_idemp. split; [done|]. rewrite is_ascii_app, Ha. simpl.
    eapply Forall_ascii, decimal_alnum; [apply alnum_ascii|lia].
Qed.

(** * Enrollment keys *)

Lemma decode_hex bytes : decode_checksum (hex_checksum bytes) = Ok bytes.
Proof.
  induction bytes as [|b r IH]; [done|].
  change (hex_checksum (b :: r)) with (hex2 b ++ hex_checksum r).
  assert (utf8_valid (hex2 b) = true) as Hu by (by destruct b).
  pose proof (hex2_parse b) as Hp. unfold hex2 in *. cbn [app decode_checksum]. rewrite Hu, Hp.
  cbn [ok_or mbind res_bind]. rewrite IH. cbn [mbind res_bind]. by rewrite byte_of_val.
Qed.
Lemma decode_proof_hex bytes : decode_proof (hex_bytes bytes) = Ok bytes.
Proof.
  induction bytes as [|b r IH]; [done|]. change (hex_bytes (b :: r)) with (hex2 b ++ hex_bytes r).
  pose proof (hex2_parse b) as Hp. unfold hex2 in *. cbn [app decode_proof]. rewrite Hp.
  cbn [ok_or mbind res_bind]. rewrite IH. cbn [mbind res_bind]. by rewrite byte_of_val.
Qed.
Lemma hex_not_elem c bytes : is_ascii_hexdigit c = false → c ∉ hex_bytes bytes.
Proof. intros Hc. eapply Forall_not_elem, hex_bytes_hexdigit. simpl. congruence. Qed.

Section keys.
Context {P : Primitives} {HP : PrimitivesLaws P} {B : Base64} {HB : Base64Laws B}.

Lemma url_safe_not_elem c b : url_safe_char c = false → c ∉ url_safe_encode b.
Proof. intros Hc. eapply Forall_not_elem, url_safe_alphabet. simpl. congruence. Qed.

Lemma ekm_decode_payload_new purpose addr fp tok k :
  EnrollmentKeyMaterial_new purpose addr fp tok = Ok k →
  length fp = 32%nat → length tok = 32%nat → blen (ekm_server_addr k) ≤ u16_max →
  ekm_decode_payload (ekm_payload k) = Ok k.
Proof.
  unfold EnrollmentKeyMaterial_new at 1.
  destruct (canonical_enrollment_server_addr addr) as [a| |] eqn:E; try done. cbn [mbind res_bind].
  intros [= <-] Hf Ht Ha. apply canonical_idemp in E as [Ec Hasc]. cbn [ekm_server_addr] in *.
  pose proof (blen_nonneg a).
  assert (be_value (be_bytes 2 (blen a)) = blen a) as Hv.
  { apply be_value_be_bytes. unfold u16_max in Ha. change (256 ^ Z.of_nat 2) with 65536. lia. }
  unfold ekm_payload, ekm_decode_payload. cbn [ekm_server_addr ekm_purpose ekm_certificate_fingerprint ekm_token].
  destruct (be_bytes 2 (blen a)) as [|l1 [|l2 [|l3 ls]]] eqn:Eb;
    try (by apply (f_equal length) in Eb; rewrite length_be_bytes in Eb).
  cbn [app]. rewrite !blen_cons, !blen_app.
  assert (blen fp = 32 ∧ blen tok = 32) as [-> ->] by (unfold blen; lia).
  rewrite (proj2 (Z.ltb_ge _ _)) by (unfold SECRET_BYTES; lia).
  replace (match purpose_byte purpose with x01 => Ok Enroll | x02 => Ok ReEnroll | _ => _ end)
    with (@Ok EnrollmentKeyError _ purpose) by (by destruct purpose).
  cbn [mbind res_bind]. rewrite Hv, (proj2 (Z.eqb_eq _ _)) by (unfold SECRET_BYTES; lia). cbn [negb].
  unfold blen. rewrite Nat2Z.id, take_app_length, drop_app_length, ascii_utf8 by done.
  unfold EnrollmentKeyMaterial_new. rewrite Ec. cbn [mbind res_bind].
  by rewrite <- Hf, take_app_length, drop_app_length.
Qed.

(** A key that fits an enrollment message is read back as it is. *)
Lemma ekm_decode_encode purpose addr fp tok k :
  EnrollmentKeyMaterial_new purpose addr fp tok = Ok k →
  length fp = 32%nat → length tok = 32%nat → blen (ekm_server_addr k) ≤ u16_max →
  blen (ekm_encode k) ≤ MAX_ENCODED_BYTES → ekm_decode (ekm_encode k) = Ok k.
Proof.
  intros Hk Hf Ht Ha Hl. unfold ekm_decode. rewrite bool_decide_eq_false_2 by (by unfold ekm_encode, PREFIX).
  rewrite (proj2 (Z.ltb_ge _ _)) by done. cbn [orb]. unfold ekm_encode at 1. rewrite strip_prefix_str_app.
  cbn [ok_or mbind res_bind]. rewrite split_once_app by (by apply url_safe_not_elem).
  cbn [ok_or mbind res_bind].
  set (digest := take 4 (sha256 (ekm_payload k))).
  assert (length digest = 4%nat) as Hd by (unfold digest; rewrite length_take, sha256_length; done).
  assert (blen (hex_checksum digest) = CHECKSUM_HEX_BYTES) as ->.
  { unfold blen, hex_checksum. by rewrite length_hex_bytes, Hd. }
  rewrite bool_decide_eq_false_2 by (by apply hex_not_elem). cbn [negb orb Z.eqb].
  change (negb (CHECKSUM_HEX_BYTES =? CHECKSUM_HEX_BYTES)) with false. cbn [orb].
  rewrite url_safe_decode_encode. cbn [ok_or mbind res_bind]. rewrite decode_hex. cbn [mbind res_bind].
  rewrite decide_True by done. by eapply ekm_decode_payload_new.
Qed.
End keys.

(** * Registration intents *)

Lemma ri_new_Ok name purpose i :
  RegistrationIntent_new name purpose = Ok i →
  i = {| ri_client_name := name; ri_uid := None; ri_profile := false;
         ri_purpose := purpose; ri_signature := None |} ∧
  name ≠ [] ∧ blen name ≤ 64 ∧ Forall (λ b, id_byte b = true) name.
Proof.
  unfold RegistrationIntent_new. destruct (_ || _ || _) eqn:E; [done|]. intros [= <-]. split; [done|].
  rewrite !orb_false_iff, bool_decide_eq_false, Z.ltb_ge, negb_false_iff in E.
  destruct E as [[? ?] Hf]. split; [done|]. split; [done|].
  apply Forall_forall. intros b Hb%list_elem_of_In. by apply (proj1 (forallb_forall _ _) Hf).
Qed.

Lemma id_byte_not_elem c name :
  id_byte c = false → Forall (λ b, id_byte b = true) name → c ∉ name.
Proof. intros Hc. apply Forall_not_elem. congruence. Qed.

Section intents.
Context {B : Base64} {HB : Base64Laws B}.

(** The intents a client can build. *)
Definition intent_built (i : RegistrationIntent) : Prop :=
  RegistrationIntent_new (ri_client_name i) (ri_purpose i) = Ok i ∨
  (for_profile (ri_client_name i) (ri_uid i) (ri_purpose i) = Ok i
   ∧ utf8_valid (ri_client_name i) = true).

Lemma for_profile_Ok name uid purpose i :
  for_profile name uid purpose = Ok i →
  i = {| ri_client_name := name; ri_uid := uid; ri_profile := true;
         ri_purpose := purpose; ri_signature := None |} ∧
  blen name ≤ 128 ∧
  match uid with Some u => u ≠ [] ∧ blen u ≤ 64 ∧ Forall (λ b, id_byte b = true) u | None => True end.
Proof.
  unfold for_profile, display_name_invalid. destruct (_ || _ || _) eqn:E; [done|].
  rewrite !orb_false_iff, Z.ltb_ge in E. destruct E as [[_ Hl] _].
  destruct uid as [u|]; [|by intros [= <-]].
  destruct (RegistrationIntent_new u purpose) as [j| |] eqn:Ej; try done.
  apply ri_new_Ok in Ej as (_ & Hu). by intros [= <-].
Qed.

Lemma word_no_dot p : x2e ∉ purpose_word p.
Proof. destruct p; by refine (bool_decide_unpack _ _); vm_compute. Qed.
Lemma word_no_colon p : x3a ∉ purpose_word p.
Proof. destruct p; by refine (bool_decide_unpack _ _); vm_compute. Qed.

Lemma split_word p r : split_once x2e (purpose_word p ++ x2e :: r) = Some (purpose_word p, r).
Proof. apply split_once_app, word_no_dot. Qed.
Lemma word_purpose p :
  (if decide (purpose_word p = str "enroll") then Ok Enroll
   else if decide (purpose_word p = str "reenroll") then Ok ReEnroll else Err InvalidPurpose)
  = @Ok EnrollmentKeyError _ p.
Proof. by destruct p. Qed.
Lemma v1_not_v2 r : starts_with INTENT_V2 (INTENT_V1 ++ r) = false.
Proof. done. Qed.

Lemma decode_intent_encode i : intent_built i → decode_intent (ri_encode i) = Ok i.
Proof.
  unfold decode_intent, ri_encode. intros [Hn|[Hf Hu]].
  - pose proof (ri_new_Ok _ _ _ Hn) as [Hi _]. rewrite Hi. cbn [ri_profile ri_purpose ri_client_name].
    rewrite v1_not_v2, strip_prefix_str_app. cbn [mbind option_bind].
    rewrite split_word. cbn [ok_or mbind res_bind]. rewrite word_purpose. cbn [mbind res_bind].
    by rewrite Hn, <- Hi.
  - pose proof (for_profile_Ok _ _ _ _ Hf) as (Hi & _ & Huid).
    destruct (ri_profile i) eqn:Ep; [|by rewrite Hi in Ep].
    rewrite starts_with_app, strip_prefix_str_app. cbn [mbind option_bind].
    rewrite split_word. cbn [ok_or mbind res_bind]. rewrite word_purpose. cbn [mbind res_bind].
    rewrite split_once_app by (by apply url_safe_not_elem). cbn [ok_or mbind res_bind].
    rewrite url_safe_decode_encode. cbn [ok_or mbind res_bind]. rewrite Hu.
    destruct (ri_uid i) as [u|] eqn:Eu; simpl default.
    + destruct Huid as [Hne _]. rewrite decide_False by done. done.
    + by rewrite decide_True.
Qed.

Lemma ri_encode_no_colon i : intent_built i → x3a ∉ ri_encode i ∧ blen (ri_encode i) ≤ 383.
Proof.
  assert (∀ p, blen (purpose_word p) ≤ 8) as Hw by (by intros []).
  unfold ri_encode. intros [Hn|[Hf _]].
  - apply ri_new_Ok in Hn as (-> & _ & Hl & Hname). cbn [ri_profile ri_purpose ri_client_name] in *.
    rewrite !blen_app, blen_cons. change (blen INTENT_V1) with 19. specialize (Hw (ri_purpose i)).
    split; [|lia]. rewrite !elem_of_app, elem_of_cons.
    intros [H|[H|[H|H]]]; [revert H; by refine (bool_decide_unpack (_ ∉ _) _)| |done|].
    + by apply word_no_colon in H.
    + by eapply id_byte_not_elem in H.
  - apply for_profile_Ok in Hf as (Hi & Hl & Hu).
    destruct (ri_profile i) eqn:Ep; [|by rewrite Hi in Ep].
    rewrite !blen_app, blen_cons, blen_app, blen_cons. change (blen INTENT_V2) with 19.
    specialize (Hw (ri_purpose i)). pose proof (url_safe_length (ri_client_name i)).
    assert (blen (default [] (ri_uid i)) ≤ 64 ∧ x3a ∉ default [] (ri_uid i)) as [Hlu Hnu].
    { destruct (ri_uid i) as [u|]; simpl; [|split; [done|apply not_elem_of_nil]].
      destruct Hu as (_ & ? & ?). split; [done|]. by apply id_byte_not_elem. }
    split; [|lia]. rewrite !elem_of_app, elem_of_cons, elem_of_app, elem_of_cons.
    intros [H'|[H'|[H'|[H'|[H'|H']]]]]; [revert H'; by refine (bool_decide_unpack (_ ∉ _) _)| |done| |done|done].
    + by apply word_no_colon in H'.
    + by apply url_safe_not_elem in H'.
Qed.

(** An intent, and an intent behind its proof, is read back as it is. *)
Lemma ri_decode_encode i s :
  intent_built i → length s = 64%nat →
  ri_decode (ri_encode i) = Ok i ∧
  ri_decode (ri_encode i ++ x3a :: hex_bytes s) = Ok (with_proof i (Some s)).
Proof.
  intros Hi Hs. pose proof (ri_encode_no_colon i Hi) as [Hc Hl].
  pose proof (decode_intent_encode i Hi) as Hd.
  assert (blen (hex_bytes s) = 128) as Hh by (unfold blen; rewrite length_hex_bytes, Hs; done).
  assert (with_proof i None = i) as Hn.
  { destruct Hi as [Hi|[Hi _]]; [apply ri_new_Ok in Hi as [-> _]|apply for_profile_Ok in Hi as [Hi _]];
      [done|]. destruct i. cbn in *. by injection Hi as -> ->. }
  unfold ri_decode, MAX_ENCODED_BYTES. split.
  - rewrite (proj2 (Z.ltb_ge _ _)) by lia. unfold split_proof.
    rewrite (proj2 (split_once_None _ _)) by done. cbn [mbind res_bind]. rewrite Hd.
    cbn [mbind res_bind]. by rewrite Hn.
  - rewrite blen_app, blen_cons, Hh. rewrite (proj2 (Z.ltb_ge _ _)) by lia. unfold split_proof.
    rewrite split_once_app, Hh by done. change (negb (128 =? 128)) with false.
    assert (forallb is_ascii_hexdigit (hex_bytes s) = true) as ->.
    { apply forallb_forall. intros b Hb. pose proof (hex_bytes_hexdigit s) as Hx.
      rewrite Forall_forall in Hx. by apply Hx, list_elem_of_In. }
    cbn [negb orb]. rewrite decode_proof_hex. cbn [mbind res_bind]. rewrite Hd. done.
Qed.
End intents.
