(* ===== verification/Identity.v ===== *)
(** Device keys as text and the signed transcript of an authentication
    ([rustgo-crypto/src/identity.rs], [transcript.rs], the text of [keyfile.rs]). *)

From S2P Require Import Prelude.
From S2P Require Import Text.
From S2P Require Import Peer.
From S2P Require Import EnrollKeys.
From Stdlib Require Import Strings.Byte.
From stdpp Require Import prelude list strings.

#[local] Open Scope Z_scope.

(** Curve points, by ed25519-dalek: [VerifyingKey::from_bytes] accepts the 32 bytes, and
    [is_weak] of the key. *)
Class Ed25519Points := {
  is_point : list byte → bool;
  is_weak : list byte → bool;
}.

Definition PUBLIC_KEY_PREFIX : list byte := str "ed25519:".
Definition PRIVATE_KEY_PREFIX : list byte := str "rustgo-ed25519-private-v1:".
Definition AUTH_DOMAIN : list byte := str "rustgo-auth-v1".

Inductive CryptoError := AuthenticationFailed | InvalidPublicKey | InvalidPrivateKey.

(** [AuthTranscript::new]: the [expect] on the length of a field holds below 4 GiB. *)
Definition AuthTranscript_new (challenge session_id : list byte) (protocol_version : Z)
    (client_name : list byte) : list byte :=
  let encoded := AUTH_DOMAIN in
  let encoded := append_bytes encoded challenge in
  let encoded := append_bytes encoded session_id in
  let encoded := append_u16 encoded protocol_version in
  append_bytes encoded client_name.

Section identity.
Context {P : Primitives} {B : Base64} {E : Ed25519Points}.

(** A [DevicePublicKey] is the 32 bytes of its point. *)
Definition public_key_from_str (encoded : list byte) : res CryptoError (list byte) :=
  payload ← ok_or (strip_prefix_str PUBLIC_KEY_PREFIX encoded) InvalidPublicKey;
  bytes ← ok_or (standard_decode payload) InvalidPublicKey;
  if negb (blen bytes =? 32) then Err InvalidPublicKey
  else if negb (is_point bytes) then Err InvalidPublicKey
  else if is_weak bytes then Err InvalidPublicKey
  else Ok bytes.
Definition public_key_to_string (key : list byte) : list byte :=
  PUBLIC_KEY_PREFIX ++ standard_encode key.

(** [Fingerprint::from] and its [Display]. *)
Definition fingerprint (key : list byte) : list byte := sha256 key.
Definition fingerprint_to_string (f : list byte) : list byte := str "sha256:" ++ hex_bytes f.

(** The text of a private key file. *)
Definition strip_suffix_byte (c : byte) (s : list byte) : list byte :=
  match reverse s with b :: r => if decide (b = c) then reverse r else s | [] => s end.
Definition private_key_from_file (encoded : list byte) : res CryptoError (list byte) :=
  if negb (utf8_valid encoded) then Err InvalidPrivateKey
  else
    let encoded := strip_suffix_byte x0a encoded in
    let encoded := strip_suffix_byte x0d encoded in
    payload ← ok_or (strip_prefix_str PRIVATE_KEY_PREFIX encoded) InvalidPrivateKey;
    secret ← ok_or (standard_decode payload) InvalidPrivateKey;
    if negb (blen secret =? 32) then Err InvalidPrivateKey else Ok secret.

Definition sign_auth (keypair transcript : list byte) : list byte := ed25519_sign keypair transcript.
Definition verify_auth (public_key transcript signature : list byte) : res CryptoError unit :=
  if verify_bytes public_key transcript signature then Ok tt else Err AuthenticationFailed.
End identity.
