(* ===== verification/Config.v ===== *)
(** Configuration files after TOML has been read ([rustgo-config/src/model.rs], [p2p.rs],
    [managed.rs], [validate.rs]): the sections, their validation with its messages, the web
    origin and the configuration the server manages for a client.

    [Url::parse] of the url crate is a class; paths are their bytes. *)

From S2P Require Import Prelude.
From S2P Require Import Messages.
From S2P Require Import Text.
From S2P Require Import IpText.
From S2P Require Import EnrollKeys.
From Stdlib Require Import Strings.Byte.
From stdpp Require Import prelude gmap list strings.

#[local] Open Scope Z_scope.

(** * Socket addresses as text *)

(** [SocketAddr::from_str]: the octets and the port; the scope of an IPv6 address is read and
    not used. *)
Definition read_port : reader Z := λ s,
  match read_given_char x3a s with
  | Some (_, s) => read_number u16_max 10 (length s) true s
  | None => None
  end.
Definition read_scope_id (s : list byte) : list byte :=
  match read_given_char x25 s with
  | Some (_, s') =>
    match read_number u32_max 10 (length s') true s' with Some (_, r) => r | None => s end
  | None => s
  end.
Definition read_socket_addr_v4 : reader (list byte * Z) := λ s,
  match read_ipv4_addr s with
  | Some (ip, s) => match read_port s with Some (port, s) => Some ((ip, port), s) | None => None end
  | None => None
  end.
Definition read_socket_addr_v6 : reader (list byte * Z) := λ s,
  match read_given_char x5b s with
  | Some (_, s) =>
    match read_ipv6_addr s with
    | Some (ip, s) =>
      match read_given_char x5d (read_scope_id s) with
      | Some (_, s) => match read_port s with Some (port, s) => Some ((ip, port), s) | None => None end
      | None => None
      end
    | None => None
    end
  | None => None
  end.
Definition parse_socket_addr : list byte → option (list byte * Z) :=
  parse_with (λ s, match read_socket_addr_v4 s with Some r => Some r | None => read_socket_addr_v6 s end).

(** [IpAddr] on octets. *)
Definition ip_is_unspecified (ip : list byte) : bool := bool_decide (ip = replicate (length ip) x00).
Definition ip_is_multicast (ip : list byte) : bool :=
  match ip with
  | b :: _ => if (length ip =? 4)%nat then byte_in 224 239 b else bool_decide (b = xff)
  | [] => false
  end.
Definition ip_is_broadcast (ip : list byte) : bool := bool_decide (ip = [xff; xff; xff; xff]).
Definition ip_is_loopback (ip : list byte) : bool :=
  if (length ip =? 4)%nat then bool_decide (take 1 ip = [x7f])
  else bool_decide (ip = replicate 15 x00 ++ [x01]).

Definition is_ascii_whitespace (b : byte) : bool :=
  bool_decide (b ∈ [x20; x09; x0a; x0c; x0d]).

(** * Errors *)

Record ValidationError := { ve_message : list byte }.
Notation vres := (res ValidationError).
Definition invalid {A} (message : list byte) : vres A := Err {| ve_message := message |}.
Definition require (valid : bool) (message : list byte) : vres unit :=
  if valid then Ok tt else invalid message.

(** * Sections *)

Definition MAX_LIMIT : Z := 1000000.
Definition MAX_UDP_PAYLOAD_BYTES : Z := 65507.
Definition MAX_WEB_AUTHORITY_BYTES : Z := 128.
Definition MAX_PORTS_PER_RANGE : Z := 1024.
Definition MAX_EXPORTS : Z := 256.
Definition MAX_FORWARDS : Z := 256.
Definition MAX_ALLOWED_PEERS_PER_EXPORT : Z := 256.

Inductive TunnelProtocol := Tcp | Udp.
#[export] Instance tunnel_protocol_eq_dec : EqDecision TunnelProtocol.
Proof. solve_decision. Defined.
#[export] Instance tunnel_protocol_countable : Countable TunnelProtocol.
Proof.
  refine (inj_countable' (λ p, match p with Tcp => true | Udp => false end)
            (λ b, if b then Tcp else Udp) _). by intros [].
Defined.

Record TunnelConfig := {
  tc_name : list byte; tc_protocol : TunnelProtocol; tc_local_addr : list byte; tc_remote_port : Z;
}.
Record ExportConfig := {
  xc_name : list byte; xc_protocol : TunnelProtocol; xc_local_addr : list byte;
  xc_allowed_peers : list (list byte);
}.
Record ForwardConfig := {
  fc_name : list byte; fc_peer : list byte; fc_export : list byte; fc_listen_addr : list byte;
}.

Definition allows_peer (e : ExportConfig) (peer : list byte) : bool :=
  bool_decide (xc_allowed_peers e = []) || existsb (λ a, bool_decide (a = peer)) (xc_allowed_peers e).

Record PortRange := { pr_start : Z; pr_end : Z }.
(** The [Deserialize] of a port range, from its text. *)
Definition port_range_from_text (value : list byte) : option PortRange :=
  '(start, last) ← split_once x2d value;
  start ← from_str_radix u16_max 10 start;
  last ← from_str_radix u16_max 10 last;
  if (start =? 0) || (last =? 0) then None
  else if last <? start then None
  else if MAX_PORTS_PER_RANGE <? last - start + 1 then None
  else Some {| pr_start := start; pr_end := last |}.

Record P2pConfig := {
  p2p_enabled : bool;
  p2p_prefer_direct : bool;
  p2p_direct_timeout_secs : Z;
  p2p_reconnect_timeout_secs : Z;
  p2p_allow_relay_fallback : bool;
  p2p_udp_port_range : PortRange;
  p2p_tcp_port_range : PortRange;
  p2p_observation_primary_addr : option (list byte);
  p2p_observation_alternate_addr : option (list byte);
}.

Record ClientProfile := {
  cp_display_name : list byte; cp_uid : option (list byte); cp_local_ip : option (list byte);
}.
Inductive TrustMode := Pinned.
Inductive IdentityMode := Static | Dynamic.
Record ClientSection := {
  cl_name : list byte;
  cl_profile : option ClientProfile;
  cl_identity_mode : option IdentityMode;
  cl_server_addr : list byte;
  cl_server_name : list byte;
  cl_certificate_authority_file : list byte;
  cl_trust_mode : option TrustMode;
  cl_server_certificate_fingerprint : option (list byte);
  cl_private_key_file : list byte;
  cl_heartbeat_interval_secs : Z;
}.
Record TelemetryConfig := {
  tm_enabled : bool; tm_sample_interval_secs : Z; tm_report_interval_secs : Z;
}.
Record ClientConfig := {
  cfg_client : ClientSection;
  cfg_p2p : option P2pConfig;
  cfg_telemetry : option TelemetryConfig;
  cfg_tunnels : list TunnelConfig;
  cfg_exports : list ExportConfig;
  cfg_forwards : list ForwardConfig;
}.

Record ServerSection := {
  sv_bind_addr : list byte;
  sv_tls_server_name : option (list byte);
  sv_udp_bind_ip : option (list byte);
  sv_p2p_observation_bind : option (list byte);
  sv_p2p_observation_alternate_bind : option (list byte);
  sv_certificate_file : list byte;
  sv_private_key_file : list byte;
  sv_heartbeat_timeout_secs : Z;
}.
Record Limits := {
  lim_max_clients : Z;
  lim_max_tunnels_per_client : Z;
  lim_max_tcp_connections_per_tunnel : Z;
  lim_max_udp_sessions_per_tunnel : Z;
  lim_max_udp_payload_bytes : Z;
}.
Record AuthorizedClient := { az_name : list byte; az_public_key : list byte; az_enabled : bool }.
Record WebConfig := {
  web_enabled : bool;
  web_bind : list byte;
  web_external_origin : option (list byte);
  web_admin_username : list byte;
  web_admin_password : list byte;
  web_cookie_secure : bool;
  web_history_days : Z;
  web_database_path : list byte;
  web_database_max_mib : Z;
}.
Record EnrollmentConfig := {
  en_enabled : bool;
  en_database_path : list byte;
  en_public_addr : list byte;
  en_token_ttl_secs : Z;
  en_max_active_clients : Z;
  en_max_tokens : Z;
}.
Record ServerConfig := {
  cfg_server : ServerSection;
  cfg_limits : Limits;
  cfg_clients : list AuthorizedClient;
  cfg_web : option WebConfig;
  cfg_enrollment : option EnrollmentConfig;
  cfg_managed_database_path : option (list byte);
}.

(** * Fields *)

Definition require_non_empty (field value : list byte) : vres unit :=
  require (negb (bool_decide (trim value = []))) (field ++ str " must not be empty").
Definition validate_wire_string (field value : list byte) (maximum_bytes : Z) : vres unit :=
  _ ← require_non_empty field value;
  require (blen value <=? maximum_bytes)
    (field ++ str " must be at most " ++ to_decimal maximum_bytes ++ str " UTF-8 bytes").
Definition validate_client_name (value : list byte) : vres unit :=
  validate_wire_string (str "client name") value MAX_CLIENT_NAME_BYTES.
Definition validate_byte_string (field value : list byte) (minimum_bytes maximum_bytes : Z) : vres unit :=
  require ((minimum_bytes <=? blen value) && (blen value <=? maximum_bytes))
    (field ++ str " must be between " ++ to_decimal minimum_bytes ++ str " and "
       ++ to_decimal maximum_bytes ++ str " UTF-8 bytes").
Definition require_nonzero (field : list byte) (value : Z) : vres unit :=
  require (negb (value =? 0)) (field ++ str " must be greater than zero").

Definition validate_bind_address (value : list byte) : vres unit :=
  match parse_socket_addr value with
  | Some (_, port) =>
    require (negb (port =? 0)) (str "server.bind_addr must use a port between 1 and 65535")
  | None => invalid (str "server.bind_addr must be an IP address with a port")
  end.
Definition validate_server_socket_address (field value : list byte) : vres (list byte * Z) :=
  match parse_socket_addr value with
  | Some address =>
    _ ← require (negb (address.2 =? 0)) (field ++ str " must use a port between 1 and 65535");
    Ok address
  | None => invalid (field ++ str " must be an IP address with a port")
  end.

(** A colon in the host only inside of brackets. *)
Definition host_valid (host : list byte) : bool :=
  negb (bool_decide (host = []))
  && (negb (bool_decide (x3a ∈ host))
      || (starts_with [x5b] host && bool_decide (last host = Some x5d))).
Definition validate_host_address (field value : list byte) : vres unit :=
  match rsplit_once x3a value with
  | None => invalid (field ++ str " must include a host and port")
  | Some (host, port) =>
    _ ← require (host_valid host) (field ++ str " must contain a valid host");
    match from_str_radix u32_max 10 port with
    | Some port => require ((1 <=? port) && (port <=? u16_max)) (field ++ str " has an invalid port")
    | None => invalid (field ++ str " has an invalid port")
    end
  end.
Definition is_loopback_listen_address (value : list byte) : bool :=
  match parse_socket_addr value with Some (ip, _) => ip_is_loopback ip | None => false end
  || starts_with (str "localhost:") value.

Fixpoint split_at (sep : byte) (s : list byte) : list (list byte) :=
  match s with
  | [] => [[]]
  | b :: s =>
    if decide (b = sep) then [] :: split_at sep s
    else match split_at sep s with l :: ls => (b :: l) :: ls | [] => [[b]] end
  end.
Definition label_valid (label : list byte) : bool :=
  negb (bool_decide (label = [])) && (blen label <=? 63)
  && forallb (λ b, is_ascii_alphanumeric b || bool_decide (b = x2d)) label
  && match head label with Some b => is_ascii_alphanumeric b | None => false end
  && match last label with Some b => is_ascii_alphanumeric b | None => false end.
Definition canonical_dns_name (host : list byte) : bool :=
  negb (bool_decide (host = [])) && negb (bool_decide (last host = Some x2e))
  && forallb label_valid (split_at x2e host).

(** * The web origin *)

Inductive Host := Domain (name : list byte) | Ipv4 (octets : list byte) | Ipv6 (octets : list byte).
Record Url := {
  url_scheme : list byte;
  url_username : list byte;
  url_password : option (list byte);
  url_query : option (list byte);
  url_fragment : option (list byte);
  url_path : list byte;
  url_host : option Host;
  url_port_or_known_default : option Z;
}.
(** [Url::parse]. *)
Class UrlParser := { url_parse : list byte → option Url }.

Record WebOrigin := {
  wo_scheme : list byte; wo_host : list byte; wo_ipv6 : bool; wo_port : Z;
}.
#[export] Instance web_origin_eq_dec : EqDecision WebOrigin.
Proof. solve_decision. Defined.

Definition invalid_external_origin {A} : vres A :=
  invalid (str "web.external_origin must be an absolute HTTP(S) origin with a canonical authority of at most "
    ++ to_decimal MAX_WEB_AUTHORITY_BYTES
    ++ str " bytes and without userinfo, path, query, or fragment").
Definition default_port (scheme : list byte) : Z := if bool_decide (scheme = str "https") then 443 else 80.
Definition authority (o : WebOrigin) : list byte :=
  let host := if wo_ipv6 o then x5b :: wo_host o ++ [x5d] else wo_host o in
  if wo_port o =? default_port (wo_scheme o) then host else host ++ x3a :: to_decimal (wo_port o).
Definition origin_as_str (o : WebOrigin) : list byte := wo_scheme o ++ str "://" ++ authority o.
Definition ensure_authority_limit (o : WebOrigin) : vres unit :=
  if MAX_WEB_AUTHORITY_BYTES <? blen (authority o) then invalid_external_origin else Ok tt.

(** [split_once] at a pattern that is not empty. *)
Fixpoint split_once_str (pattern s : list byte) : option (list byte * list byte) :=
  match s with
  | [] => None
  | b :: s' =>
    match strip_prefix_str pattern s with
    | Some rest => Some ([], rest)
    | None => match split_once_str pattern s' with Some (l, r) => Some (b :: l, r) | None => None end
    end
  end.

Section web.
Context {U : UrlParser}.

(** The host of an origin as it is kept: a canonical name or the text of an address. *)
Definition origin_host (h : Host) : vres (list byte * bool) :=
  match h with
  | Domain name => if canonical_dns_name name then Ok (name, false) else invalid_external_origin
  | Ipv4 octets => Ok (show_ip octets, false)
  | Ipv6 octets => Ok (show_ip octets, true)
  end.

Definition origin_parse (value : list byte) : vres WebOrigin :=
  if bool_decide (value = []) || existsb is_ascii_whitespace value then invalid_external_origin
  else
    match split_once_str (str "://") value with
    | None => invalid_external_origin
    | Some (_, raw_authority) =>
      if bool_decide (raw_authority = [])
         || existsb (λ b, bool_decide (b ∈ [x2f; x5c; x3f; x23])) raw_authority
      then invalid_external_origin
      else
        match url_parse value with
        | None => invalid_external_origin
        | Some parsed =>
          if negb (bool_decide (url_scheme parsed = str "http"))
             && negb (bool_decide (url_scheme parsed = str "https")) then invalid_external_origin
          else if negb (bool_decide (url_username parsed = [])) || bool_decide (is_Some (url_password parsed))
                  || bool_decide (is_Some (url_query parsed)) || bool_decide (is_Some (url_fragment parsed))
                  || negb (bool_decide (url_path parsed = str "/"))
          then invalid_external_origin
          else
            match url_host parsed with
            | None => invalid_external_origin
            | Some host =>
              '(host, ipv6) ← origin_host host;
              match url_port_or_known_default parsed with
              | Some port =>
                if port =? 0 then invalid_external_origin
                else
                  let origin := {| wo_scheme := url_scheme parsed; wo_host := host; wo_ipv6 := ipv6; wo_port := port |} in
                  _ ← ensure_authority_limit origin;
                  Ok origin
              | None => invalid_external_origin
              end
            end
        end
    end.

Definition origin_from_config (web : WebConfig) : vres WebOrigin :=
  match web_external_origin web with
  | Some origin =>
    parsed ← origin_parse origin;
    let expected_scheme := if web_cookie_secure web then str "https" else str "http" in
    _ ← require (bool_decide (wo_scheme parsed = expected_scheme))
          (str "web.external_origin must use " ++ expected_scheme ++ str " when web.cookie_secure is "
             ++ (if web_cookie_secure web then str "true" else str "false"));
    Ok parsed
  | None =>
    if web_cookie_secure web
    then invalid (str "web.external_origin is required when web.cookie_secure is true")
    else
      match parse_socket_addr (web_bind web) with
      | Some (ip, port) =>
        let origin := {| wo_scheme := str "http"; wo_host := show_ip ip;
                         wo_ipv6 := negb (length ip =? 4)%nat; wo_port := port |} in
        _ ← ensure_authority_limit origin;
        Ok origin
      | None => invalid (str "web.bind must be an IP address with a port")
      end
  end.

Definition matches_authority (o : WebOrigin) (value : list byte) : bool :=
  if bool_decide (value = []) || (MAX_WEB_AUTHORITY_BYTES <? blen value) || existsb is_ascii_whitespace value
  then false
  else match origin_parse (wo_scheme o ++ str "://" ++ value) with
       | Ok origin => bool_decide (origin = o)
       | _ => false
       end.

Definition validate_web (web : WebConfig) : vres unit :=
  match parse_socket_addr (web_bind web) with
  | None => invalid (str "web.bind must be an IP address with a port")
  | Some (_, port) =>
    _ ← require (negb (port =? 0)) (str "web.bind must use a port between 1 and 65535");
    _ ← require (negb (port =? 7443)) (str "web.bind must not use Rustgo relay port 7443");
    _ ← origin_from_config web;
    _ ← validate_byte_string (str "web.admin_username") (web_admin_username web) 1 64;
    _ ← validate_byte_string (str "web.admin_password") (web_admin_password web) 16 256;
    _ ← require ((1 <=? web_history_days web) && (web_history_days web <=? 90))
          (str "web.history_days must be between 1 and 90");
    require ((16 <=? web_database_max_mib web) && (web_database_max_mib web <=? 4096))
      (str "web.database_max_mib must be between 16 and 4096")
  end.
End web.

(** * Tunnels, exports, forwards *)

Definition show_protocol (p : TunnelProtocol) : list byte := match p with Tcp => str "Tcp" | Udp => str "Udp" end.
Definition quoted (s : list byte) : list byte := x60 :: s ++ [x60].

Fixpoint validate_tunnels (tunnels : list TunnelConfig) (names : gset (list byte))
    (remote_ports : gset (TunnelProtocol * Z)) : vres unit :=
  match tunnels with
  | [] => Ok tt
  | t :: tunnels =>
    _ ← validate_wire_string (str "tunnels.name") (tc_name t) MAX_TUNNEL_NAME_BYTES;
    _ ← validate_host_address (str "tunnels.local_addr") (tc_local_addr t);
    _ ← require ((1 <=? tc_remote_port t) && (tc_remote_port t <=? u16_max))
          (str "tunnel " ++ quoted (tc_name t) ++ str " has an invalid remote port");
    _ ← require (negb (bool_decide (tc_name t ∈ names))) (str "duplicate tunnel name " ++ quoted (tc_name t));
    _ ← require (negb (bool_decide ((tc_protocol t, tc_remote_port t) ∈ remote_ports)))
          (str "duplicate " ++ show_protocol (tc_protocol t) ++ str " remote port " ++ to_decimal (tc_remote_port t));
    validate_tunnels tunnels ({[tc_name t]} ∪ names) ({[(tc_protocol t, tc_remote_port t)]} ∪ remote_ports)
  end.

Fixpoint validate_peers (peers : list (list byte)) : vres unit :=
  match peers with
  | [] => Ok tt
  | peer :: peers => _ ← validate_client_name peer; validate_peers peers
  end.
Fixpoint validate_exports (exports : list ExportConfig) (names : gset (list byte)) : vres unit :=
  match exports with
  | [] => Ok tt
  | x :: exports =>
    _ ← validate_wire_string (str "exports.name") (xc_name x) MAX_TUNNEL_NAME_BYTES;
    _ ← validate_host_address (str "exports.local_addr") (xc_local_addr x);
    _ ← require (negb (bool_decide (xc_name x ∈ names))) (str "duplicate export name " ++ quoted (xc_name x));
    _ ← require (blen (xc_allowed_peers x) <=? MAX_ALLOWED_PEERS_PER_EXPORT)
          (str "export " ++ quoted (xc_name x) ++ str " allowed_peers must contain at most "
             ++ to_decimal MAX_ALLOWED_PEERS_PER_EXPORT ++ str " entries");
    _ ← validate_peers (xc_allowed_peers x);
    validate_exports exports ({[xc_name x]} ∪ names)
  end.
Fixpoint validate_forwards (forwards : list ForwardConfig) (local_name : option (list byte))
    (names : gset (list byte)) : vres unit :=
  match forwards with
  | [] => Ok tt
  | f :: forwards =>
    _ ← validate_wire_string (str "forwards.name") (fc_name f) MAX_TUNNEL_NAME_BYTES;
    _ ← validate_client_name (fc_peer f);
    _ ← validate_wire_string (str "forwards.export") (fc_export f) MAX_TUNNEL_NAME_BYTES;
    _ ← validate_host_address (str "forwards.listen_addr") (fc_listen_addr f);
    _ ← require (negb (bool_decide (local_name = Some (fc_peer f))))
          (str "forward " ++ quoted (fc_name f) ++ str " must not target the local client");
    _ ← require (negb (bool_decide (fc_name f ∈ names))) (str "duplicate forward name " ++ quoted (fc_name f));
    validate_forwards forwards local_name ({[fc_name f]} ∪ names)
  end.

Definition at_most {A} (what : list byte) (l : list A) (n : Z) : vres unit :=
  require (blen l <=? n) (what ++ str " must contain at most " ++ to_decimal n ++ str " entries").
Definition validate_managed_collections (tunnels : list TunnelConfig) (exports : list ExportConfig)
    (forwards : list ForwardConfig) (local_name : option (list byte)) : vres unit :=
  _ ← at_most (str "tunnels") tunnels MAX_TUNNELS;
  _ ← validate_tunnels tunnels ∅ ∅;
  _ ← at_most (str "exports") exports MAX_EXPORTS;
  _ ← at_most (str "forwards") forwards MAX_FORWARDS;
  _ ← validate_exports exports ∅;
  validate_forwards forwards local_name ∅.

(** * The server's file *)

Definition validate_limit (name : list byte) (value : Z) : vres unit :=
  require (negb ((value =? 0) || (MAX_LIMIT <? value)))
    (name ++ str " must be between 1 and " ++ to_decimal MAX_LIMIT).
Definition validate_limits (l : Limits) : vres unit :=
  _ ← validate_limit (str "limits.max_clients") (lim_max_clients l);
  _ ← validate_limit (str "limits.max_tunnels_per_client") (lim_max_tunnels_per_client l);
  _ ← validate_limit (str "limits.max_tcp_connections_per_tunnel") (lim_max_tcp_connections_per_tunnel l);
  _ ← validate_limit (str "limits.max_udp_sessions_per_tunnel") (lim_max_udp_sessions_per_tunnel l);
  require ((1 <=? lim_max_udp_payload_bytes l) && (lim_max_udp_payload_bytes l <=? MAX_UDP_PAYLOAD_BYTES))
    (str "limits.max_udp_payload_bytes must be between 1 and " ++ to_decimal MAX_UDP_PAYLOAD_BYTES).

Definition validate_enrollment (e : EnrollmentConfig) : vres unit :=
  _ ← match canonical_enrollment_server_addr (en_public_addr e) with
      | Ok _ => Ok tt
      | Err _ => invalid (str "enrollment.public_addr must be a canonical host:port address")
      | Panic => Panic
      end;
  _ ← require ((60 <=? en_token_ttl_secs e) && (en_token_ttl_secs e <=? 86400))
        (str "enrollment.token_ttl_secs must be between 60 and 86400");
  _ ← require ((1 <=? en_max_active_clients e) && (en_max_active_clients e <=? 1000000))
        (str "enrollment.max_active_clients must be between 1 and 1000000");
  require ((1 <=? en_max_tokens e) && (en_max_tokens e <=? 1000000))
    (str "enrollment.max_tokens must be between 1 and 1000000").

Definition validate_observation (s : ServerSection) : vres unit :=
  match sv_p2p_observation_bind s, sv_p2p_observation_alternate_bind s with
  | None, None => Ok tt
  | Some primary, Some alternate =>
    primary ← validate_server_socket_address (str "server.p2p_observation_bind") primary;
    alternate ← validate_server_socket_address (str "server.p2p_observation_alternate_bind") alternate;
    require (negb (primary.2 =? alternate.2)) (str "server observation bind addresses must use distinct ports")
  | _, _ => invalid (str "server.p2p_observation_bind and server.p2p_observation_alternate_bind must be configured together")
  end.

Section files.
Context {B : Base64} {U : UrlParser}.

Definition validate_public_key (value : list byte) : vres unit :=
  match strip_prefix_str (str "ed25519:") value with
  | None => invalid (str "client public key must use ed25519: format")
  | Some encoded =>
    match standard_decode encoded with
    | None => invalid (str "client public key is not valid base64")
    | Some decoded => require (blen decoded =? 32) (str "client public key must contain exactly 32 bytes")
    end
  end.

Fixpoint validate_clients (clients : list AuthorizedClient) (names public_keys : gset (list byte)) : vres unit :=
  match clients with
  | [] => Ok tt
  | c :: clients =>
    _ ← validate_client_name (az_name c);
    _ ← require (negb (bool_decide (az_name c ∈ names))) (str "duplicate client name " ++ quoted (az_name c));
    _ ← validate_public_key (az_public_key c);
    _ ← require (negb (bool_decide (az_public_key c ∈ public_keys))) (str "duplicate client public key");
    validate_clients clients ({[az_name c]} ∪ names) ({[az_public_key c]} ∪ public_keys)
  end.

Definition validate_server (c : ServerConfig) : vres unit :=
  let s := cfg_server c in
  _ ← require (negb (bool_decide (cfg_managed_database_path c = Some [])))
        (str "managed_tunnels.database_path must not be empty");
  _ ← validate_bind_address (sv_bind_addr s);
  _ ← match sv_tls_server_name s with
      | Some name =>
        require (bool_decide (is_Some (parse_ip name)) || canonical_dns_name name)
          (str "server.tls_server_name must be a canonical DNS name or IP address")
      | None => Ok tt
      end;
  _ ← validate_observation s;
  _ ← match sv_udp_bind_ip s with
      | Some ip => require (negb (ip_is_unspecified ip || ip_is_multicast ip || ip_is_broadcast ip))
                     (str "server.udp_bind_ip must be a specific unicast or local interface address")
      | None => Ok tt
      end;
  _ ← require_nonzero (str "server.heartbeat_timeout_secs") (sv_heartbeat_timeout_secs s);
  _ ← validate_limits (cfg_limits c);
  _ ← match cfg_web c with Some web => if web_enabled web then validate_web web else Ok tt | None => Ok tt end;
  _ ← match cfg_enrollment c with Some e => if en_enabled e then validate_enrollment e else Ok tt | None => Ok tt end;
  validate_clients (cfg_clients c) ∅ ∅.
End files.

(** * The client's file *)

Definition validate_telemetry (t : TelemetryConfig) : vres unit :=
  _ ← require ((1 <=? tm_sample_interval_secs t) && (tm_sample_interval_secs t <=? 3600))
        (str "telemetry.sample_interval_secs must be between 1 and 3600");
  _ ← require ((1 <=? tm_report_interval_secs t) && (tm_report_interval_secs t <=? 3600))
        (str "telemetry.report_interval_secs must be between 1 and 3600");
  require (tm_sample_interval_secs t <=? tm_report_interval_secs t)
    (str "telemetry.report_interval_secs must be at least telemetry.sample_interval_secs").

Definition validate_profile (p : ClientProfile) : vres unit :=
  _ ← match for_profile (cp_display_name p) (cp_uid p) Enroll with
      | Ok _ => Ok tt
      | Err _ => invalid (str "客户端名称不能为空、不得包含控制字符且不能超过 128 字节；UID 格式须有效")
      | Panic => Panic
      end;
  require (match cp_local_ip p with Some ip => bool_decide (is_Some (parse_ip ip)) | None => true end)
    (str "本地 IP 格式无效").

Definition validate_p2p (p : P2pConfig) : vres unit :=
  _ ← require_nonzero (str "p2p.direct_timeout_secs") (p2p_direct_timeout_secs p);
  _ ← require_nonzero (str "p2p.reconnect_timeout_secs") (p2p_reconnect_timeout_secs p);
  match p2p_observation_primary_addr p, p2p_observation_alternate_addr p with
  | Some primary, Some alternate =>
    _ ← validate_host_address (str "p2p.observation_primary_addr") primary;
    _ ← validate_host_address (str "p2p.observation_alternate_addr") alternate;
    require (negb (bool_decide (primary = alternate))) (str "P2P observation endpoints must be distinct")
  | None, None => Ok tt
  | _, _ => invalid (str "P2P observation primary and alternate endpoints must be configured together")
  end.

Definition fingerprint_valid (f : list byte) : bool := (blen f =? 64) && forallb is_ascii_hexdigit f.
Definition validate_client (c : ClientConfig) : vres unit :=
  let s := cfg_client c in
  _ ← validate_client_name (cl_name s);
  _ ← match cl_profile s with Some p => validate_profile p | None => Ok tt end;
  _ ← validate_host_address (str "client.server_addr") (cl_server_addr s);
  _ ← require_non_empty (str "client.server_name") (cl_server_name s);
  _ ← require (match cl_trust_mode s, cl_server_certificate_fingerprint s with
               | None, None => true
               | Some Pinned, Some f => fingerprint_valid f
               | _, _ => false
               end) (str "client pinned trust requires a 64-character SHA-256 certificate fingerprint");
  _ ← require_nonzero (str "client.heartbeat_interval_secs") (cl_heartbeat_interval_secs s);
  _ ← require (cl_heartbeat_interval_secs s <=? u32_max)
        (str "client.heartbeat_interval_secs must be at most " ++ to_decimal u32_max);
  _ ← match cfg_p2p c with Some p => validate_p2p p | None => Ok tt end;
  _ ← match cfg_telemetry c with Some t => if tm_enabled t then validate_telemetry t else Ok tt | None => Ok tt end;
  validate_managed_collections (cfg_tunnels c) (cfg_exports c) (cfg_forwards c) (Some (cl_name s)).

Record ConfigWarning := { cw_code : list byte; cw_message : list byte }.
Definition server_validation_warnings (windows : bool) (c : ServerConfig) : list ConfigWarning :=
  if windows && match cfg_web c with Some web => web_enabled web | None => false end
  then [{| cw_code := str "WEB_CONFIG_ACL_REVIEW_REQUIRED";
           cw_message := str "enabled web configuration requires a manual ACL review on Windows" |}]
  else [].
Definition client_validation_warnings (c : ClientConfig) : list ConfigWarning :=
  flat_map (λ x, if bool_decide (xc_allowed_peers x = [])
                 then [{| cw_code := str "P2P_EXPORT_ALLOW_ALL";
                          cw_message := str "export " ++ quoted (xc_name x) ++ str " permits every authenticated peer" |}]
                 else []) (cfg_exports c)
  ++ flat_map (λ f, if is_loopback_listen_address (fc_listen_addr f) then []
                    else [{| cw_code := str "P2P_FORWARD_NON_LOOPBACK_LISTEN";
                             cw_message := str "forward " ++ quoted (fc_name f) ++ str " listens on a non-loopback address "
                               ++ quoted (fc_listen_addr f) |}]) (cfg_forwards c).

(** * What the server manages *)

Record ManagedConfiguration := {
  mc_tunnels : list TunnelConfig;
  mc_exports : list ExportConfig;
  mc_forwards : list ForwardConfig;
  mc_p2p_enabled : bool;
}.

Definition locally_p2p (c : ClientConfig) : bool :=
  match cfg_p2p c with Some p => p2p_enabled p | None => false end.
Definition managed_from_client (c : ClientConfig) : ManagedConfiguration :=
  {| mc_tunnels := cfg_tunnels c; mc_exports := cfg_exports c; mc_forwards := cfg_forwards c;
     mc_p2p_enabled := locally_p2p c |}.
Definition managed_validate (m : ManagedConfiguration) : vres unit :=
  validate_managed_collections (mc_tunnels m) (mc_exports m) (mc_forwards m) None.
Definition with_collections (c : ClientConfig) (m : ManagedConfiguration) : ClientConfig :=
  {| cfg_client := cfg_client c; cfg_p2p := cfg_p2p c; cfg_telemetry := cfg_telemetry c;
     cfg_tunnels := mc_tunnels m; cfg_exports := mc_exports m; cfg_forwards := mc_forwards m |}.
(** [apply_to]: the client's configuration afterwards, and the result. *)
Definition apply_to (m : ManagedConfiguration) (client : ClientConfig) : ClientConfig * vres unit :=
  let checked :=
    _ ← managed_validate m;
    if (negb (bool_decide (mc_exports m = [])) || negb (bool_decide (mc_forwards m = []))) && negb (locally_p2p client)
    then invalid (str "managed exports and forwards require locally enabled P2P")
    else
      let candidate := with_collections client m in
      _ ← validate_client candidate;
      Ok candidate in
  match checked with
  | Ok candidate => (candidate, Ok tt)
  | Err e => (client, Err e)
  | Panic => (client, Panic)
  end.

(** * Environment variables in a file *)

Definition is_environment_variable_name (variable : list byte) : bool :=
  match variable with
  | b :: bytes =>
    (byte_in 65 90 b || bool_decide (b = x5f))
    && forallb (λ b, byte_in 65 90 b || byte_in 48 57 b || bool_decide (b = x5f)) bytes
  | [] => false
  end.
(** Backslashes are doubled, for the strings of TOML. *)
Definition escape_value (value : list byte) : list byte :=
  flat_map (λ b, if bool_decide (b = x5c) then [x5c; x5c] else [b]) value.

(** [interpolate]: every [${NAME}] is replaced; the error names the variable.  A round of the
    loop removes a placeholder, so the length of the source is fuel enough. *)
Fixpoint interpolate_loop (fuel : nat) (environment : list byte → option (list byte)) (remaining : list byte)
    : option (res (list byte) (list byte)) :=
  match split_once_str (str "${") remaining with
  | None => Some (Ok remaining)
  | Some (before, after_open) =>
    match fuel with
    | O => None
    | S fuel =>
      match split_once x7d after_open with
      | None => Some (Err (str "invalid placeholder"))
      | Some (variable, rest) =>
        if negb (is_environment_variable_name variable) then Some (Err (str "invalid placeholder"))
        else
          match environment variable with
          | None => Some (Err variable)
          | Some value =>
            match interpolate_loop fuel environment rest with
            | Some (Ok expanded) => Some (Ok (before ++ escape_value value ++ expanded))
            | r => r
            end
          end
      end
    end
  end.
Definition interpolate (environment : list byte → option (list byte)) (source : list byte)
    : option (res (list byte) (list byte)) := interpolate_loop (length source) environment source.
