(* ===== verification/Enrollment.v ===== *)
(** The enrollment store of the server ([rustgos/src/enrollment/store.rs] and
    [store/approval.rs]): the tables of its SQLite database as finite maps, and every method
    as one transaction over them.

    A method runs under the connection's lock in one immediate transaction: it either commits
    what its statements did or leaves the database as it was.  Of SQLite the model has the
    constraints of the schema (primary keys, unique columns) and the integer range of a
    column; an I/O error of the database is not modelled.  The random bytes and the readings
    of the system clock (in nanoseconds since the epoch, possibly before it) are arguments,
    in the order in which the method takes them. *)

From S2P Require Import Prelude.
From S2P Require Import Ordered.
From S2P Require Import Text.
From S2P Require Import IpText.
From S2P Require Import Peer.
From S2P Require Import EnrollKeys.
From S2P Require Import Identity.
From Stdlib Require Import Strings.Byte.
From stdpp Require Import prelude gmap list sorting strings.

#[local] Open Scope Z_scope.

(** * Errors *)

Inductive EnrollmentStoreError :=
| ApprovalPending
| ReplacementApprovalPending
| ApprovalRejected
| InvalidDisplayName
| InvalidLocalIp
| InvalidDisplayId
| DuplicateDisplayId
| ClientCapacity
| ClientNotFound
| ClientDisabled
| RevisionConflict
| TokenCapacity
| InvalidTokenLifetime
| InvalidKeyMaterial
| InvalidToken
| TokenExpired
| TokenAlreadyUsed
| PurposeMismatch
| PublicKeyConflict
| StaticIdentityConflict
| InvalidPurgeLimit
| InvalidRequestId
| Database.
#[export] Instance enrollment_store_error_eq_dec : EqDecision EnrollmentStoreError.
Proof. solve_decision. Defined.

Notation result := (res EnrollmentStoreError).

(** * Tables *)

Definition MAX_AUDIT_RECORDS : Z := 10000.

(** A row of [dynamic_clients], by its [internal_id]. *)
Record ClientRow := {
  c_display_id : list byte;
  c_normalized_id : list byte;
  c_public_key : option (list byte);
  c_enabled : bool;
  c_revision : Z;
  c_tombstoned : bool;
  c_created_at : Z;
  c_updated_at : Z;
  c_deleted_at : option Z;
  c_display_name : option (list byte);
  c_local_ip : option (list byte);
}.

(** A row of [enrollment_tokens], by its [selector]. *)
Record TokenRow := {
  t_hash : list byte;
  t_salt : list byte;
  t_purpose : Z;
  t_target_id : list byte;
  t_issued_revision : Z;
  t_expires_at : Z;
  t_consumed_at : option Z;
  t_request_id : option (list byte);
  t_result_public_key : option (list byte);
  t_result_revision : option Z;
  t_revoked : bool;
}.

(** A row of [registration_requests], by its [request_id]. *)
Record RegistrationRow := {
  r_display_id : list byte;
  r_public_key : list byte;
  r_purpose : Z;
  r_target_id : option (list byte);
  r_expected_revision : option Z;
  r_created_at : Z;
  r_expires_at : Z;
  r_status : Z;
  r_result_revision : option Z;
  r_profile_name : option (list byte);
  r_requested_uid : option (list byte);
}.

Record AuditRow := { a_event : list byte; a_target_id : list byte; a_created_at : Z }.

(** The audit log in the order of its [sequence], an AUTOINCREMENT column. *)
Record Db := {
  clients : gmap (list byte) ClientRow;
  tokens : gmap (list byte) TokenRow;
  registrations : gmap (list byte) RegistrationRow;
  audit_log : list AuditRow;
}.

Record EnrollmentStoreLimits := { max_active_clients : Z; max_tokens : Z }.

Record DynamicClientStore := {
  db : Db;
  limits : EnrollmentStoreLimits;
  static_identities : list (list byte * list byte);
}.

Record DynamicClient := {
  dc_internal_id : list byte;
  dc_display_id : list byte;
  dc_display_name : list byte;
  dc_local_ip : option (list byte);
  dc_enabled : bool;
  dc_revision : Z;
  dc_public_key : option (list byte);
  dc_tombstoned : bool;
}.

Record EnrollmentResult := { er_display_id : list byte; er_revision : Z }.

Definition empty_db : Db :=
  {| clients := ∅; tokens := ∅; registrations := ∅; audit_log := [] |}.
(** [open] on a path without a database. *)
Definition open_new (limits : EnrollmentStoreLimits) : DynamicClientStore :=
  {| db := empty_db; limits := limits; static_identities := [] |}.

Definition with_client_rows (d : Db) (m : gmap (list byte) ClientRow) : Db :=
  {| clients := m; tokens := tokens d; registrations := registrations d; audit_log := audit_log d |}.
Definition with_token_rows (d : Db) (m : gmap (list byte) TokenRow) : Db :=
  {| clients := clients d; tokens := m; registrations := registrations d; audit_log := audit_log d |}.
Definition with_registrations (d : Db) (m : gmap (list byte) RegistrationRow) : Db :=
  {| clients := clients d; tokens := tokens d; registrations := m; audit_log := audit_log d |}.
Definition with_db (s : DynamicClientStore) (d : Db) : DynamicClientStore :=
  {| db := d; limits := limits s; static_identities := static_identities s |}.

(** ** Queries *)

Section queries.
Context {A : Type}.

(** [SELECT COUNT( * ) … WHERE p]. *)
Definition sql_count (p : A → bool) (m : gmap (list byte) A) : Z :=
  Z.of_nat (size (filter (λ kv, p kv.2 = true) m)).
(** [SELECT … WHERE p LIMIT 1] on a unique column. *)
Definition sql_find (p : list byte → A → bool) (m : gmap (list byte) A) : option (list byte * A) :=
  snd <$> list_find (λ kv, p kv.1 kv.2 = true) (map_to_list m).
(** [UPDATE … SET f WHERE p]. *)
Definition sql_update (p : A → bool) (f : A → A) (m : gmap (list byte) A) : gmap (list byte) A :=
  (λ r, if p r then f r else r) <$> m.
End queries.

(** An integer column holds at most [i64::MAX]: [ToSql] of a larger [u64] fails, and a column
    that an update took past it is no [u64] any more. *)
Definition i64_max : Z := 9223372036854775807.
Definition sql_u64 (v : Z) : result Z := if v <=? i64_max then Ok v else Err Database.

(** The time in seconds, [duration_since(UNIX_EPOCH)]. *)
Definition NANOS : Z := 1000000000.
Definition since_epoch (t : Z) : option Z := if t <? 0 then None else Some (t / NANOS).
Definition unix_now (t : Z) : result Z := ok_or (since_epoch t) Database.

(** What a transaction that ran leaves and answers; on an error it is rolled back. *)
Definition commit {A} (s : DynamicClientStore) (r : result (Db * result A))
    : DynamicClientStore * result A :=
  match r with
  | Ok (d, answer) => (with_db s d, answer)
  | Err e => (s, Err e)
  | Panic => (s, Panic)
  end.

(** The newest [MAX_AUDIT_RECORDS - 1] records stay, and one more is written. *)
Definition audit (d : Db) (event target_id : list byte) (clock : Z) : result Db :=
  let kept := drop (Z.to_nat (Z.max 0 (blen (audit_log d) - MAX_AUDIT_RECORDS + 1))) (audit_log d) in
  now ← unix_now clock;
  now ← sql_u64 now;
  Ok {| clients := clients d; tokens := tokens d; registrations := registrations d;
        audit_log := kept ++ [{| a_event := event; a_target_id := target_id; a_created_at := now |}] |}.

(** ** Rows *)

(** [client_from_row], with [COALESCE(display_name, display_id)]. *)
Definition client_from_row (internal_id : list byte) (c : ClientRow) : result DynamicClient :=
  revision ← sql_u64 (c_revision c);
  Ok {| dc_internal_id := internal_id; dc_display_id := c_display_id c;
        dc_display_name := default (c_display_id c) (c_display_name c);
        dc_local_ip := c_local_ip c; dc_enabled := c_enabled c; dc_revision := revision;
        dc_public_key := c_public_key c; dc_tombstoned := c_tombstoned c |}.

Definition query_client (d : Db) (internal_id : list byte) : result (option DynamicClient) :=
  match clients d !! internal_id with
  | Some c => client ← client_from_row internal_id c; Ok (Some client)
  | None => Ok None
  end.

(** Why an update by identifier and revision changed no row. *)
Definition mutation_miss {A} (d : Db) (internal_id : list byte) : result A :=
  client ← query_client d internal_id;
  match client with
  | Some client => if dc_tombstoned client then Err ClientNotFound else Err RevisionConflict
  | None => Err ClientNotFound
  end.

Definition is_active_row (c : ClientRow) : bool := c_enabled c && negb (c_tombstoned c).
Definition is_open_token (t : TokenRow) : bool :=
  bool_decide (t_consumed_at t = None) && negb (t_revoked t).
Definition active_clients (d : Db) : Z := sql_count is_active_row (clients d).
Definition active_tokens (d : Db) : Z := sql_count is_open_token (tokens d).

(** The unique columns [normalized_id] and [public_key] against the other rows. *)
Definition normalized_taken (m : gmap (list byte) ClientRow) (id normalized : list byte) : bool :=
  bool_decide (is_Some (sql_find (λ k c, bool_decide (k ≠ id) && bool_decide (c_normalized_id c = normalized)) m)).
Definition key_taken (m : gmap (list byte) ClientRow) (id key : list byte) : bool :=
  bool_decide (is_Some (sql_find (λ k c, bool_decide (k ≠ id) && bool_decide (c_public_key c = Some key)) m)).

(** [INSERT INTO dynamic_clients]: [None] is a constraint violation. *)
Definition insert_client (d : Db) (internal_id : list byte) (c : ClientRow) : option Db :=
  if bool_decide (is_Some (clients d !! internal_id))
     || normalized_taken (clients d) internal_id (c_normalized_id c)
     || match c_public_key c with Some k => key_taken (clients d) internal_id k | None => false end
  then None
  else Some (with_client_rows d (<[internal_id := c]> (clients d))).

(** A conditional update of one row by its identifier: the number of changed rows. *)
Definition update_client_row (d : Db) (internal_id : list byte) (cond : ClientRow → bool)
    (f : ClientRow → ClientRow) : Z * Db :=
  match clients d !! internal_id with
  | Some c => if cond c then (1, with_client_rows d (<[internal_id := f c]> (clients d))) else (0, d)
  | None => (0, d)
  end.

Definition revoke_token (t : TokenRow) : TokenRow :=
  {| t_hash := t_hash t; t_salt := t_salt t; t_purpose := t_purpose t; t_target_id := t_target_id t;
     t_issued_revision := t_issued_revision t; t_expires_at := t_expires_at t;
     t_consumed_at := t_consumed_at t; t_request_id := t_request_id t;
     t_result_public_key := t_result_public_key t; t_result_revision := t_result_revision t;
     t_revoked := true |}.
(** [UPDATE enrollment_tokens SET revoked = 1 WHERE target_id = … AND consumed_at IS NULL]. *)
Definition revoke_tokens (d : Db) (target : list byte) : Db :=
  with_token_rows d (sql_update
    (λ t, bool_decide (t_target_id t = target) && bool_decide (t_consumed_at t = None))
    revoke_token (tokens d)).

(** * Validation *)

Definition validate_display_id (value : list byte) : result (list byte) :=
  let value := trim value in
  if bool_decide (value = []) || (64 <? blen value) || negb (forallb id_byte value)
  then Err InvalidDisplayId else Ok value.
Definition validate_display_name (value : list byte) : result (list byte) :=
  if display_name_invalid value then Err InvalidDisplayName else Ok value.

(** [random_id] of 16 random bytes. *)
Definition random_id (bytes : list byte) : list byte := hex_bytes bytes.

Definition new_client (display_id : list byte) (public_key : option (list byte)) (now : Z)
    (display_name : option (list byte)) : ClientRow :=
  {| c_display_id := display_id; c_normalized_id := to_ascii_lowercase display_id;
     c_public_key := public_key; c_enabled := true; c_revision := 1; c_tombstoned := false;
     c_created_at := now; c_updated_at := now; c_deleted_at := None;
     c_display_name := display_name; c_local_ip := None |}.
Definition created (internal_id display_id : list byte) : DynamicClient :=
  {| dc_internal_id := internal_id; dc_display_id := display_id; dc_display_name := display_id;
     dc_local_ip := None; dc_enabled := true; dc_revision := 1; dc_public_key := None;
     dc_tombstoned := false |}.

Section store.
Context {P : Primitives} {B : Base64} {E : Ed25519Points}.

(** * Clients *)

(** [create_client] counts every enabled row; a tombstoned row is never enabled. *)
Definition create_client (s : DynamicClientStore) (display_id random : list byte) (clock : nat → Z)
    : DynamicClientStore * result DynamicClient :=
  commit s (
    display_id ← validate_display_id display_id;
    if max_active_clients (limits s) <=? sql_count c_enabled (clients (db s)) then Err ClientCapacity
    else
      let internal_id := random_id random in
      now ← unix_now (clock 0%nat);
      now ← sql_u64 now;
      d ← ok_or (insert_client (db s) internal_id (new_client display_id None now None)) DuplicateDisplayId;
      d ← audit d (str "client_created") internal_id (clock 1%nat);
      Ok (d, Ok (created internal_id display_id))).

(** * Tokens *)

Record PreparedToken := {
  pt_encoded_key : list byte;
  pt_selector : list byte;
  pt_hash : list byte;
  pt_salt : list byte;
  pt_expires_at : Z;
}.

(** [SystemTime::now()] plus a lifetime in nanoseconds, in seconds; a [Duration] ends at
    [u64::MAX] seconds. *)
Definition token_expiry (now ttl : Z) : option Z :=
  if now <? 0 then None
  else if (now + ttl) / NANOS <=? u64_max then Some ((now + ttl) / NANOS) else None.

(** [prepare_token], and the same statements at the start of [issue_token]. *)
Definition prepare_token (purpose : EnrollmentPurpose) (server_addr certificate_fingerprint : list byte)
    (ttl : Z) (token salt : list byte) (clock : Z) : result PreparedToken :=
  if ttl =? 0 then Err InvalidTokenLifetime
  else
    material ← map_err (λ _, InvalidKeyMaterial)
      (EnrollmentKeyMaterial_new purpose server_addr certificate_fingerprint token);
    let encoded := ekm_encode material in
    expires_at ← ok_or (token_expiry clock ttl) InvalidTokenLifetime;
    Ok {| pt_encoded_key := encoded; pt_selector := sha256 encoded;
          pt_hash := sha256 (salt ++ encoded); pt_salt := salt; pt_expires_at := expires_at |}.

Definition purpose_code (p : EnrollmentPurpose) : Z := match p with Enroll => 1 | ReEnroll => 2 end.

(** [INSERT INTO enrollment_tokens]: [None] is a violation of the primary key. *)
Definition insert_token (d : Db) (prepared : PreparedToken) (purpose : Z) (target : list byte)
    (revision expires_at : Z) : option Db :=
  if bool_decide (is_Some (tokens d !! pt_selector prepared)) then None
  else Some (with_token_rows d (<[pt_selector prepared :=
    {| t_hash := pt_hash prepared; t_salt := pt_salt prepared; t_purpose := purpose;
       t_target_id := target; t_issued_revision := revision; t_expires_at := expires_at;
       t_consumed_at := None; t_request_id := None; t_result_public_key := None;
       t_result_revision := None; t_revoked := false |}]> (tokens d))).

Definition create_client_with_token (s : DynamicClientStore)
    (display_id server_addr certificate_fingerprint : list byte) (ttl : Z)
    (token salt random : list byte) (clock : nat → Z)
    : DynamicClientStore * result (DynamicClient * list byte) :=
  commit s (
    display_id ← validate_display_id display_id;
    prepared ← prepare_token Enroll server_addr certificate_fingerprint ttl token salt (clock 0%nat);
    if max_active_clients (limits s) <=? active_clients (db s) then Err ClientCapacity
    else if max_tokens (limits s) <=? active_tokens (db s) then Err TokenCapacity
    else
      let internal_id := random_id random in
      now ← unix_now (clock 1%nat);
      now ← sql_u64 now;
      d ← ok_or (insert_client (db s) internal_id (new_client display_id None now None)) DuplicateDisplayId;
      expires_at ← sql_u64 (pt_expires_at prepared);
      d ← ok_or (insert_token d prepared 1 internal_id 1 expires_at) Database;
      d ← audit d (str "client_created_with_token") internal_id (clock 2%nat);
      Ok (d, Ok (created internal_id display_id, pt_encoded_key prepared))).

Definition rename_row (display_id : list byte) (now : Z) (c : ClientRow) : ClientRow :=
  {| c_display_id := display_id; c_normalized_id := to_ascii_lowercase display_id;
     c_public_key := c_public_key c; c_enabled := c_enabled c; c_revision := c_revision c + 1;
     c_tombstoned := c_tombstoned c; c_created_at := c_created_at c; c_updated_at := now;
     c_deleted_at := c_deleted_at c; c_display_name := c_display_name c; c_local_ip := c_local_ip c |}.

(** The condition of the updates: the expected revision of a client that is not deleted. *)
Definition at_revision (expected : Z) (c : ClientRow) : bool :=
  (c_revision c =? expected) && negb (c_tombstoned c).

Definition rename_client (s : DynamicClientStore) (internal_id display_id : list byte)
    (expected_revision : Z) (clock : nat → Z) : DynamicClientStore * result DynamicClient :=
  commit s (
    display_id ← validate_display_id display_id;
    now ← unix_now (clock 0%nat);
    now ← sql_u64 now;
    expected ← sql_u64 expected_revision;
    let '(changed, d) := update_client_row (db s) internal_id (at_revision expected)
                           (rename_row display_id now) in
    if (0 <? changed) && normalized_taken (clients (db s)) internal_id (to_ascii_lowercase display_id)
    then Err DuplicateDisplayId
    else if changed =? 0 then mutation_miss d internal_id
    else
      client ← query_client d internal_id;
      client ← ok_or client ClientNotFound;
      d ← audit d (str "client_renamed") internal_id (clock 1%nat);
      Ok (d, Ok client)).

(** An enrollment key for a client without a key, a re-enrollment key for one with a key. *)
Definition purpose_mismatch (purpose : EnrollmentPurpose) (public_key : option (list byte)) : bool :=
  match purpose, public_key with
  | Enroll, Some _ => true
  | ReEnroll, None => true
  | _, _ => false
  end.

Definition issue_token (s : DynamicClientStore) (internal_id : list byte) (purpose : EnrollmentPurpose)
    (server_addr certificate_fingerprint : list byte) (ttl expected_revision : Z)
    (token salt : list byte) (clock : nat → Z) : DynamicClientStore * result (list byte) :=
  commit s (
    prepared ← prepare_token purpose server_addr certificate_fingerprint ttl token salt (clock 0%nat);
    client ← match clients (db s) !! internal_id with
             | Some c => if is_active_row c then Ok c else Err ClientNotFound
             | None => Err ClientNotFound
             end;
    revision ← sql_u64 (c_revision client);
    if negb (revision =? expected_revision) then Err RevisionConflict
    else if purpose_mismatch purpose (c_public_key client) then Err PurposeMismatch
    else
      let d := with_token_rows (db s) (sql_update
        (λ t, bool_decide (t_target_id t = internal_id) && (t_purpose t =? purpose_code purpose)
              && is_open_token t) revoke_token (tokens (db s))) in
      if max_tokens (limits s) <=? active_tokens d then Err TokenCapacity
      else
        expires_at ← sql_u64 (pt_expires_at prepared);
        d ← ok_or (insert_token d prepared (purpose_code purpose) internal_id revision expires_at) Database;
        d ← audit d (str "token_issued") internal_id (clock 1%nat);
        Ok (d, Ok (pt_encoded_key prepared))).

Definition enable_row (enabled : bool) (now : Z) (c : ClientRow) : ClientRow :=
  {| c_display_id := c_display_id c; c_normalized_id := c_normalized_id c;
     c_public_key := c_public_key c; c_enabled := enabled; c_revision := c_revision c + 1;
     c_tombstoned := c_tombstoned c; c_created_at := c_created_at c; c_updated_at := now;
     c_deleted_at := c_deleted_at c; c_display_name := c_display_name c; c_local_ip := c_local_ip c |}.

Definition set_client_enabled (s : DynamicClientStore) (internal_id : list byte) (enabled : bool)
    (expected_revision : Z) (clock : nat → Z) : DynamicClientStore * result DynamicClient :=
  commit s (
    if enabled && (max_active_clients (limits s) <=? active_clients (db s)) then Err ClientCapacity
    else
      now ← unix_now (clock 0%nat);
      now ← sql_u64 now;
      expected ← sql_u64 expected_revision;
      let '(changed, d) := update_client_row (db s) internal_id (at_revision expected) (enable_row enabled now) in
      if changed =? 0 then mutation_miss d internal_id
      else
        let d := if enabled then d else revoke_tokens d internal_id in
        client ← query_client d internal_id;
        client ← ok_or client ClientNotFound;
        d ← audit d (if enabled then str "client_enabled" else str "client_disabled") internal_id (clock 1%nat);
        Ok (d, Ok client)).

Definition delete_row (now : Z) (c : ClientRow) : ClientRow :=
  {| c_display_id := c_display_id c; c_normalized_id := c_normalized_id c;
     c_public_key := c_public_key c; c_enabled := false; c_revision := c_revision c + 1;
     c_tombstoned := true; c_created_at := c_created_at c; c_updated_at := now;
     c_deleted_at := Some now; c_display_name := c_display_name c; c_local_ip := c_local_ip c |}.

Definition delete_client (s : DynamicClientStore) (internal_id : list byte) (expected_revision : Z)
    (clock : nat → Z) : DynamicClientStore * result DynamicClient :=
  commit s (
    now ← unix_now (clock 0%nat);
    now ← sql_u64 now;
    expected ← sql_u64 expected_revision;
    let '(changed, d) := update_client_row (db s) internal_id (at_revision expected) (delete_row now) in
    if changed =? 0 then mutation_miss d internal_id
    else
      let d := revoke_tokens d internal_id in
      client ← query_client d internal_id;
      client ← ok_or client ClientNotFound;
      d ← audit d (str "client_deleted") internal_id (clock 1%nat);
      Ok (d, Ok client)).

(** * Redeeming a token *)

Definition bind_row (public_key : list byte) (revision : Z) (c : ClientRow) : ClientRow :=
  {| c_display_id := c_display_id c; c_normalized_id := c_normalized_id c;
     c_public_key := Some public_key; c_enabled := c_enabled c; c_revision := revision;
     c_tombstoned := c_tombstoned c; c_created_at := c_created_at c; c_updated_at := c_updated_at c;
     c_deleted_at := c_deleted_at c; c_display_name := c_display_name c; c_local_ip := c_local_ip c |}.
Definition consume_row (now : Z) (request_id public_key : list byte) (revision : Z) (t : TokenRow) : TokenRow :=
  {| t_hash := t_hash t; t_salt := t_salt t; t_purpose := t_purpose t; t_target_id := t_target_id t;
     t_issued_revision := t_issued_revision t; t_expires_at := t_expires_at t;
     t_consumed_at := Some now; t_request_id := Some request_id;
     t_result_public_key := Some public_key; t_result_revision := Some revision;
     t_revoked := t_revoked t |}.

(** The checks of a token that has not been consumed. *)
Definition admit_token (t : TokenRow) (c : ClientRow) (purpose : EnrollmentPurpose) (now : Z) : result unit :=
  if t_expires_at t <? now then Err TokenExpired
  else if c_tombstoned c then Err ClientNotFound
  else if negb (c_enabled c) then Err ClientDisabled
  else if t_revoked t then Err InvalidToken
  else if negb (c_revision c =? t_issued_revision t) then Err RevisionConflict
  else if negb (t_purpose t =? purpose_code purpose) then Err InvalidToken
  else if purpose_mismatch purpose (c_public_key c) then Err PurposeMismatch
  else Ok tt.

(** The token and its client, found by the digest of the key. *)
Definition token_candidate (d : Db) (selector : list byte) : result (TokenRow * ClientRow) :=
  match tokens d !! selector with
  | Some t =>
    match clients d !! t_target_id t with
    | Some c => Ok (t, c)
    | None => Err InvalidToken
    end
  | None => Err InvalidToken
  end.

Definition set_token (d : Db) (selector : list byte) (t : TokenRow) : Db :=
  with_token_rows d (<[selector := t]> (tokens d)).

(** The transaction of [consume_token]. *)
Definition consume_tx (s : DynamicClientStore) (encoded_key public_key request_id : list byte)
  (now : Z) (clock : nat → Z) : result (Db * result EnrollmentResult) :=
  if bool_decide (request_id = []) || (128 <? blen request_id) then Err InvalidRequestId
  else
    material ← map_err (λ _, InvalidToken) (ekm_decode encoded_key);
    let selector := sha256 encoded_key in
    now ← ok_or (since_epoch now) InvalidToken;
    let public_key := public_key_to_string public_key in
    '(t, c) ← token_candidate (db s) selector;
    client_revision ← sql_u64 (c_revision c);
    if negb (bool_decide (sha256 (t_salt t ++ encoded_key) = t_hash t)) then Err InvalidToken
    else if bool_decide (is_Some (t_consumed_at t)) then
      if bool_decide (t_request_id t = Some request_id)
         && bool_decide (t_result_public_key t = Some public_key)
      then
        revision ← ok_or (t_result_revision t) Database;
        Ok (db s, Ok {| er_display_id := c_display_id c; er_revision := revision |})
      else Err TokenAlreadyUsed
    else
      _ ← admit_token t c (ekm_purpose material) now;
      new_revision ← ok_or (checked_add u64_max client_revision 1) RevisionConflict;
      new_revision ← sql_u64 new_revision;
      let '(changed, d) := update_client_row (db s) (t_target_id t)
        (λ c, (c_revision c =? client_revision) && c_enabled c) (bind_row public_key new_revision) in
      if (0 <? changed) && key_taken (clients (db s)) (t_target_id t) public_key
      then Err PublicKeyConflict
      else
        now ← sql_u64 now;
        let d := set_token d selector (consume_row now request_id public_key new_revision t) in
        d ← audit d (match ekm_purpose material with
                     | ReEnroll => str "client_reenrolled" | Enroll => str "client_enrolled" end)
                  (t_target_id t) (clock 0%nat);
        Ok (d, Ok {| er_display_id := c_display_id c; er_revision := new_revision |}).

Definition consume_token (s : DynamicClientStore) (encoded_key public_key request_id : list byte)
    (now : Z) (clock : nat → Z) : DynamicClientStore * result EnrollmentResult :=
  commit s (consume_tx s encoded_key public_key request_id now clock).

(** * Static identities, profiles, purging *)

(** [AuthorizedClient] of the configuration, as far as the store looks at it: name and key. *)
Definition static_collision (d : Db) (name public_key : list byte) : bool :=
  bool_decide (is_Some (sql_find (λ _ c, negb (c_tombstoned c)
    && (bool_decide (c_normalized_id c = to_ascii_lowercase name)
        || bool_decide (c_public_key c = Some public_key))) (clients d))).

Definition validate_static_collisions (s : DynamicClientStore) (static_clients : list (list byte * list byte))
    : DynamicClientStore * result unit :=
  if existsb (λ c, static_collision (db s) c.1 c.2) static_clients
  then (s, Err StaticIdentityConflict)
  else ({| db := db s; limits := limits s;
           static_identities := map (λ c, (to_ascii_lowercase c.1, c.2)) static_clients |}, Ok tt).

Definition profile_row (display_name : list byte) (local_ip : option (list byte)) (now : Z) (c : ClientRow)
    : ClientRow :=
  {| c_display_id := c_display_id c; c_normalized_id := c_normalized_id c;
     c_public_key := c_public_key c; c_enabled := c_enabled c; c_revision := c_revision c;
     c_tombstoned := c_tombstoned c; c_created_at := c_created_at c; c_updated_at := now;
     c_deleted_at := c_deleted_at c; c_display_name := Some display_name; c_local_ip := local_ip |}.

Definition update_profile (s : DynamicClientStore) (internal_id display_name : list byte)
    (local_ip : option (list byte)) (clock : Z) : DynamicClientStore * result unit :=
  commit s (
    display_name ← validate_display_name display_name;
    local_ip ← match local_ip with
               | Some ip => ip ← ok_or (parse_ip ip) InvalidLocalIp; Ok (Some (show_ip ip))
               | None => Ok None
               end;
    now ← unix_now clock;
    now ← sql_u64 now;
    let '(changed, d) := update_client_row (db s) internal_id is_active_row (profile_row display_name local_ip now) in
    if changed =? 0 then Err ClientNotFound else Ok (d, Ok tt)).

(** Tombstones deleted by [cutoff], the oldest first, at most [batch_limit]. *)
Definition deleted_before (x y : list byte * ClientRow) : Prop :=
  default 0 (c_deleted_at x.2) ≤ default 0 (c_deleted_at y.2).
#[local] Instance deleted_before_dec : RelDecision deleted_before.
Proof. intros x y. unfold deleted_before. apply _. Defined.
Definition purge_targets (d : Db) (cutoff : Z) (batch_limit : nat) : list (list byte) :=
  take batch_limit (map fst (merge_sort deleted_before (List.filter
    (λ kv, c_tombstoned kv.2
           && match c_deleted_at kv.2 with Some t => t <=? cutoff | None => false end)
    (map_to_list (clients d))))).

Definition purge_one (d : Db) (target : list byte) (clock : Z) : result Db :=
  let d := with_token_rows d (filter (λ kv, t_target_id kv.2 ≠ target) (tokens d)) in
  let d := with_client_rows d (delete target (clients d)) in
  audit d (str "tombstone_purged") target clock.
Fixpoint purge_all (d : Db) (targets : list (list byte)) (clock : nat → Z) (i : nat) : result Db :=
  match targets with
  | [] => Ok d
  | target :: rest => d ← purge_one d target (clock i); purge_all d rest clock (S i)
  end.

Definition purge_tombstones (s : DynamicClientStore) (older_than batch_limit : Z) (clock : nat → Z)
    : DynamicClientStore * result Z :=
  commit s (
    if (batch_limit =? 0) || (1000 <? batch_limit) then Err InvalidPurgeLimit
    else
      cutoff ← ok_or (since_epoch older_than) InvalidPurgeLimit;
      cutoff ← sql_u64 cutoff;
      let targets := purge_targets (db s) cutoff (Z.to_nat batch_limit) in
      d ← purge_all (db s) targets clock 0;
      Ok (d, Ok (blen targets))).

(** * Queries *)

Definition client (s : DynamicClientStore) (internal_id : list byte) : result (option DynamicClient) :=
  query_client (db s) internal_id.
(** A client found by a unique column. *)
Definition found_client (found : option (list byte * ClientRow)) : result (option DynamicClient) :=
  match found with
  | Some (id, c) => client ← client_from_row id c; Ok (Some client)
  | None => Ok None
  end.
Definition client_by_display_id (s : DynamicClientStore) (display_id : list byte)
    : result (option DynamicClient) :=
  display_id ← validate_display_id display_id;
  found_client (sql_find (λ _ c, bool_decide (c_normalized_id c = to_ascii_lowercase display_id)
                                 && negb (c_tombstoned c)) (clients (db s))).
Definition client_by_public_key (s : DynamicClientStore) (public_key : list byte)
    : result (option DynamicClient) :=
  found_client (sql_find (λ _ c, bool_decide (c_public_key c = Some (public_key_to_string public_key)))
                         (clients (db s))).

(** The rows in the order of [normalized_id]. *)
Definition normalized_before (x y : list byte * ClientRow) : Prop :=
  bytes_le (c_normalized_id x.2) (c_normalized_id y.2) = true.
#[local] Instance normalized_before_dec : RelDecision normalized_before.
Proof. intros x y. unfold normalized_before. apply _. Defined.
Fixpoint collect_rows (rows : list (list byte * ClientRow)) : result (list DynamicClient) :=
  match rows with
  | [] => Ok []
  | (id, c) :: rest => client ← client_from_row id c; clients ← collect_rows rest; Ok (client :: clients)
  end.
Definition list_client_identities (s : DynamicClientStore) : result (list DynamicClient) :=
  collect_rows (merge_sort normalized_before (map_to_list (clients (db s)))).
Definition list_clients (s : DynamicClientStore) : result (list DynamicClient) :=
  all ← list_client_identities s;
  Ok (List.filter (λ c, negb (dc_tombstoned c)) all).
Definition audit_count (s : DynamicClientStore) : Z := blen (audit_log (db s)).
End store.
