(* ===== verification/Managed.v ===== *)
(** Managed tunnels ([rustgos/src/managed.rs]): one configuration per stable identity, with a
    revision, the report of the client that applied it and the name it is reached by.

    As in [Enrollment] the SQLite table is a finite map and a method is one transaction over
    it; an I/O error of the database is not modelled.  [serde_json] is a class: the text of a
    configuration and of a value, and their parsers. *)

From S2P Require Import Prelude.
From S2P Require Import Messages.
From S2P Require Import Text.
From S2P Require Import EnrollKeys.
From S2P Require Import Enrollment.
From S2P Require Import Config.
From Stdlib Require Import Strings.Byte.
From stdpp Require Import prelude gmap list strings.

#[local] Open Scope Z_scope.

(** [serde_json::Value]; an object is its members, each key once. *)
Inductive Value :=
| VNull
| VBool (b : bool)
| VNumber (text : list byte)
| VString (s : list byte)
| VArray (items : list Value)
| VObject (members : list (list byte * Value)).

Class SerdeJson := {
  config_to_json : ManagedConfiguration → list byte;
  config_from_json : list byte → option ManagedConfiguration;
  value_to_json : Value → list byte;
  value_from_json : list byte → option Value;
}.
(** What is printed is read back, and the empty array is its text. *)
Class SerdeJsonLaws (J : SerdeJson) : Prop := {
  config_json_rt c : config_from_json (config_to_json c) = Some c;
  value_json_rt v : value_from_json (value_to_json v) = Some v;
  value_json_empty : value_from_json (str "[]") = Some (VArray []);
}.

Definition obj_get (key : list byte) (v : Value) : option Value :=
  match v with
  | VObject members => snd <$> List.find (λ m, bool_decide (m.1 = key)) members
  | _ => None
  end.
Definition as_str (v : Value) : option (list byte) := match v with VString s => Some s | _ => None end.
Definition as_array (v : Value) : option (list Value) := match v with VArray l => Some l | _ => None end.
Definition is_null (v : Value) : bool := match v with VNull => true | _ => false end.

Inductive ManagedError :=
| ManagedInvalid (message : list byte)
| ManagedConflict
| ManagedNotFound
| ManagedStorage.
Notation mres := (res ManagedError).
Definition managed_invalid (e : ValidationError) : ManagedError := ManagedInvalid (str "invalid configuration: " ++ ve_message e).

Definition MAX_JSON_BYTES : Z := 65536.
Definition MAX_SNAPSHOTS : Z := 10000.

Record ManagedSnapshot := {
  sn_identity : list byte;
  sn_name : list byte;
  sn_revision : Z;
  sn_configuration : ManagedConfiguration;
  sn_applied_revision : option Z;
  sn_results : Value;
}.

(** A row of [managed_snapshots], by its [identity]. *)
Record ManagedRow := {
  mr_name : list byte;
  mr_mapped_name : option (list byte);
  mr_revision : Z;
  mr_configuration : list byte;
  mr_applied_revision : option Z;
  mr_results : list byte;
}.
Notation ManagedStore := (gmap (list byte) ManagedRow).

Definition mcommit {A : Type} (s : ManagedStore) (r : mres (ManagedStore * A)) : ManagedStore * mres A :=
  match r with
  | Ok (s', a) => (s', Ok a)
  | Err e => (s, Err e)
  | Panic => (s, Panic)
  end.

Definition validate_identity_name (identity name : list byte) : mres unit :=
  if bool_decide (trim identity = []) || (256 <? blen identity)
  then Err (ManagedInvalid (str "invalid stable identity"))
  else map_err managed_invalid (validate_client_name name).

Definition NO_RESULTS : list byte := str "[]".

(** The updates of a row. *)
Definition row_named (name : list byte) (r : ManagedRow) : ManagedRow :=
  {| mr_name := name; mr_mapped_name := Some name; mr_revision := mr_revision r;
     mr_configuration := mr_configuration r; mr_applied_revision := mr_applied_revision r; mr_results := mr_results r |}.
Definition row_unmapped (r : ManagedRow) : ManagedRow :=
  {| mr_name := mr_name r; mr_mapped_name := None; mr_revision := mr_revision r;
     mr_configuration := mr_configuration r; mr_applied_revision := mr_applied_revision r; mr_results := mr_results r |}.
Definition row_configured (json : list byte) (revision : Z) (r : ManagedRow) : ManagedRow :=
  {| mr_name := mr_name r; mr_mapped_name := mr_mapped_name r; mr_revision := revision;
     mr_configuration := json; mr_applied_revision := mr_applied_revision r; mr_results := mr_results r |}.
Definition row_reported (applied : option Z) (results : list byte) (r : ManagedRow) : ManagedRow :=
  {| mr_name := mr_name r; mr_mapped_name := mr_mapped_name r; mr_revision := mr_revision r;
     mr_configuration := mr_configuration r; mr_applied_revision := applied; mr_results := results |}.
Definition set_row (s : ManagedStore) (identity : list byte) (f : ManagedRow → ManagedRow) : ManagedStore :=
  alter f identity s.

(** The name leads to this identity and no longer to any other. *)
Definition bind_name (s : ManagedStore) (identity name : list byte) : ManagedStore :=
  set_row (map_imap (λ id r, Some (if bool_decide (mr_mapped_name r = Some name) && negb (bool_decide (id = identity))
                                   then row_unmapped r else r)) s)
    identity (row_named name).

Section managed.
Context {J : SerdeJson}.

Definition bounded_text (json : list byte) : mres (list byte) :=
  if MAX_JSON_BYTES <? blen json then Err (ManagedInvalid (str "managed JSON exceeds 65536 bytes")) else Ok json.
Definition bounded_json (value : Value) : mres (list byte) := bounded_text (value_to_json value).
Definition configuration_json (configuration : ManagedConfiguration) : mres (list byte) :=
  _ ← map_err managed_invalid (managed_validate configuration);
  bounded_text (config_to_json configuration).

Definition read_row (identity : list byte) (r : ManagedRow) : mres ManagedSnapshot :=
  _ ← guard_err (negb (mr_revision r <=? i64_max)) ManagedStorage;
  _ ← guard_err ((MAX_JSON_BYTES <? blen (mr_configuration r)) || (MAX_JSON_BYTES <? blen (mr_results r))) ManagedStorage;
  configuration ← ok_or (config_from_json (mr_configuration r)) ManagedStorage;
  results ← ok_or (value_from_json (mr_results r)) ManagedStorage;
  Ok {| sn_identity := identity; sn_name := mr_name r; sn_revision := mr_revision r;
        sn_configuration := configuration; sn_applied_revision := mr_applied_revision r; sn_results := results |}.

(** [read_snapshot] by the primary key and by the unique column [mapped_name]. *)
Inductive Column := ColIdentity | ColMappedName.
Definition find_row (s : ManagedStore) (column : Column) (key : list byte) : option (list byte * ManagedRow) :=
  match column with
  | ColIdentity => pair key <$> s !! key
  | ColMappedName => sql_find (λ _ r, bool_decide (mr_mapped_name r = Some key)) s
  end.
Definition read_snapshot (s : ManagedStore) (column : Column) (key : list byte) : mres (option ManagedSnapshot) :=
  match find_row s column key with
  | Some (identity, r) => snapshot ← read_row identity r; Ok (Some snapshot)
  | None => Ok None
  end.
Definition read_existing (s : ManagedStore) (column : Column) (key : list byte) : mres ManagedSnapshot :=
  found ← read_snapshot s column key;
  ok_or found ManagedNotFound.

Definition with_p2p (c : ManagedConfiguration) (enabled : bool) : ManagedConfiguration :=
  {| mc_tunnels := mc_tunnels c; mc_exports := mc_exports c; mc_forwards := mc_forwards c; mc_p2p_enabled := enabled |}.

(** A first row, when the identity has none. *)
Definition import_row (s : ManagedStore) (identity name json : list byte) : mres ManagedStore :=
  found ← read_snapshot s ColIdentity identity;
  match found with
  | Some _ => Ok s
  | None =>
    if MAX_SNAPSHOTS <=? Z.of_nat (size s) then Err (ManagedInvalid (str "managed snapshot capacity reached"))
    else Ok (<[identity := {| mr_name := name; mr_mapped_name := None; mr_revision := 1; mr_configuration := json;
                              mr_applied_revision := None; mr_results := NO_RESULTS |}]> s)
  end.

Definition managed_sync (s : ManagedStore) (identity name : list byte) (configuration : ManagedConfiguration)
    : ManagedStore * mres ManagedSnapshot :=
  mcommit s (
    _ ← validate_identity_name identity name;
    json ← configuration_json configuration;
    s ← import_row s identity name json;
    let s := bind_name s identity name in
    current ← read_existing s ColIdentity identity;
    s ← (if Bool.eqb (mc_p2p_enabled (sn_configuration current)) (mc_p2p_enabled configuration) then Ok s
         else
           refreshed ← configuration_json (with_p2p (sn_configuration current) (mc_p2p_enabled configuration));
           Ok (set_row s identity (λ r, row_configured refreshed (mr_revision r + 1) r)));
    let s := set_row s identity (row_reported None NO_RESULTS) in
    snapshot ← read_existing s ColIdentity identity;
    Ok (s, snapshot)).

Definition managed_get (s : ManagedStore) (name : list byte) : mres (option ManagedSnapshot) :=
  read_snapshot s ColMappedName name.
Definition get_for_identity (s : ManagedStore) (identity : list byte) : mres (option ManagedSnapshot) :=
  read_snapshot s ColIdentity identity.

Definition replace_inner (s : ManagedStore) (column : Column) (key : list byte) (new_name : option (list byte))
    (expected_revision : Z) (configuration : ManagedConfiguration) : ManagedStore * mres ManagedSnapshot :=
  mcommit s (
    json ← configuration_json configuration;
    old ← read_existing s column key;
    if negb (sn_revision old =? expected_revision) then Err ManagedConflict
    else
      revision ← ok_or (n ← checked_add u64_max (sn_revision old) 1; if n <=? i64_max then Some n else None) ManagedStorage;
      let s := set_row s (sn_identity old) (λ r, row_reported None NO_RESULTS (row_configured json revision r)) in
      let s := match new_name with Some name => bind_name s (sn_identity old) name | None => s end in
      snapshot ← read_existing s ColIdentity (sn_identity old);
      Ok (s, snapshot)).
Definition replace_for_identity (s : ManagedStore) (identity name : list byte) (expected_revision : Z)
    (configuration : ManagedConfiguration) : ManagedStore * mres ManagedSnapshot :=
  match validate_identity_name identity name with
  | Ok _ => replace_inner s ColIdentity identity (Some name) expected_revision configuration
  | Err e => (s, Err e)
  | Panic => (s, Panic)
  end.
Definition managed_replace (s : ManagedStore) (name : list byte) (expected_revision : Z)
    (configuration : ManagedConfiguration) : ManagedStore * mres ManagedSnapshot :=
  replace_inner s ColMappedName name None expected_revision configuration.

(** * Reports *)

Definition report_invalid {A} : mres A :=
  Err (ManagedInvalid (str "report must contain each configured kind/name once with a valid state and bounded error")).

(** What a report must cover: the kind and name of every configured item. *)
Definition configured_items (c : ManagedConfiguration) : list (list byte * list byte) :=
  map (λ t, (str "tunnel", tc_name t)) (mc_tunnels c)
  ++ map (λ x, (str "export", xc_name x)) (mc_exports c)
  ++ map (λ f, (str "forward", fc_name f)) (mc_forwards c).

Definition known_key (key : list byte) : bool :=
  bool_decide (key ∈ [str "kind"; str "name"; str "state"; str "error"]).
Definition state_known (item : Value) : bool :=
  match obj_get (str "state") item ≫= as_str with
  | Some s => bool_decide (s ∈ [str "ready"; str "failed"; str "pending"])
  | None => false
  end.
Definition error_bounded (item : Value) : bool :=
  match obj_get (str "error") item with
  | Some error => is_null error || match as_str error with Some e => blen e <=? 2048 | None => false end
  | None => true
  end.
Definition item_key (item : Value) : option (list byte * list byte) :=
  kind ← obj_get (str "kind") item ≫= as_str;
  name ← obj_get (str "name") item ≫= as_str;
  Some (kind, name).
Definition keys_known (item : Value) : bool :=
  match item with VObject members => forallb (λ m, known_key m.1) members | _ => false end.

Fixpoint validate_items (items : list Value) (expected : gset (list byte * list byte)) : mres unit :=
  match items with
  | [] => Ok tt
  | item :: items =>
    if negb (keys_known item) then report_invalid
    else
      match item_key item with
      | None => report_invalid
      | Some key =>
        if negb (bool_decide (key ∈ expected)) || negb (state_known item) then report_invalid
        else if negb (error_bounded item) then report_invalid
        else validate_items items (expected ∖ {[key]})
      end
  end.
Definition validate_report (configuration : ManagedConfiguration) (results : Value) : mres unit :=
  let expected : gset (list byte * list byte) := list_to_set (configured_items configuration) in
  match as_array results with
  | None => report_invalid
  | Some items =>
    if negb (length items =? size expected)%nat then report_invalid else validate_items items expected
  end.

Definition managed_report (s : ManagedStore) (identity : list byte) (revision : Z) (results : Value)
    : ManagedStore * mres unit :=
  mcommit s (
    json ← bounded_json results;
    snapshot ← read_existing s ColIdentity identity;
    if negb (sn_revision snapshot =? revision) then Err ManagedConflict
    else
      _ ← validate_report (sn_configuration snapshot) results;
      Ok (set_row s identity (row_reported (Some revision) json), tt)).
End managed.
