(* ===== verification/ExternalRef.v ===== *)
(** Concrete instances of the code outside of the repository, for the witnesses: hexadecimal text
    in place of base64, every 32 bytes a point of the curve, and a [serde_json] in which every
    configuration and every value has a text that is read back (not JSON's, but for the empty
    array).  The theorems hold for every instance of the laws. *)

From S2P Require Import Prelude.
From S2P Require Import Messages.
From S2P Require Import Text.
From S2P Require Import EnrollKeys.
From S2P Require Import EnrollKeysFacts.
From S2P Require Import Identity.
From S2P Require Import Config.
From S2P Require Import Managed.
From Stdlib Require Import Strings.Byte.
From stdpp Require Import prelude countable gmap list strings.

#[local] Open Scope Z_scope.

(** * base64 and the curve *)

Definition hex_decode (s : list byte) : option (list byte) :=
  match decode_proof s with Ok b => Some b | _ => None end.

#[export] Instance hex_base64 : Base64 := {
  standard_encode := hex_bytes;
  standard_decode := hex_decode;
  url_safe_encode := hex_bytes;
  url_safe_decode := hex_decode;
}.

#[export] Instance hex_base64_laws : Base64Laws hex_base64.
Proof.
  split; simpl; intros b; unfold hex_decode.
  - by rewrite decode_proof_hex.
  - by rewrite decode_proof_hex.
  - eapply Forall_impl; [apply hex_bytes_hexdigit|]. intros c. unfold is_ascii_hexdigit, url_safe_char.
    by destruct c.
  - unfold blen. rewrite length_hex_bytes. lia.
Qed.

#[export] Instance all_points : Ed25519Points := { is_point _ := true; is_weak _ := false }.

(** * Values as trees *)

Fixpoint value_tree (v : Value) : gen_tree (list byte) :=
  match v with
  | VNull => GenNode 0 []
  | VBool b => GenNode (if b then 1 else 2)%nat []
  | VNumber text => GenNode 3 [GenLeaf text]
  | VString s => GenNode 4 [GenLeaf s]
  | VArray items => GenNode 5 (map value_tree items)
  | VObject members => GenNode 6 (map (λ m, GenNode 7 [GenLeaf m.1; value_tree m.2]) members)
  end.
Fixpoint tree_value (t : gen_tree (list byte)) : Value :=
  match t with
  | GenNode 1 _ => VBool true
  | GenNode 2 _ => VBool false
  | GenNode 3 [GenLeaf text] => VNumber text
  | GenNode 4 [GenLeaf s] => VString s
  | GenNode 5 items => VArray (map tree_value items)
  | GenNode 6 members =>
    VObject (map (λ m, match m with GenNode _ [GenLeaf k; v] => (k, tree_value v) | _ => ([], VNull) end) members)
  | _ => VNull
  end.
Lemma tree_value_tree : ∀ v, tree_value (value_tree v) = v.
Proof.
  fix IH 1. intros [|[]|text|s|items|members]; try reflexivity; simpl; f_equal.
  - induction items as [|v items IHl]; [reflexivity|]. simpl. f_equal; [apply IH|exact IHl].
  - induction members as [|[k v] members IHl]; [reflexivity|]. simpl. rewrite IH. f_equal. exact IHl.
Qed.

(** * Numbers as text *)

Fixpoint number_text (p : positive) : list byte :=
  match p with xH => [] | xO p => x30 :: number_text p | xI p => x31 :: number_text p end.
Fixpoint text_number (s : list byte) : positive :=
  match s with [] => xH | b :: s => if bool_decide (b = x30) then xO (text_number s) else xI (text_number s) end.
Lemma text_number_text p : text_number (number_text p) = p.
Proof. induction p as [p IH|p IH|]; simpl; by rewrite ?IH. Qed.

(** * The instance *)

Definition config_parts (c : ManagedConfiguration) :=
  (map (λ t, (tc_name t, tc_protocol t, tc_local_addr t, tc_remote_port t)) (mc_tunnels c),
   map (λ x, (xc_name x, xc_protocol x, xc_local_addr x, xc_allowed_peers x)) (mc_exports c),
   map (λ f, (fc_name f, fc_peer f, fc_export f, fc_listen_addr f)) (mc_forwards c), mc_p2p_enabled c).
Definition parts_config (parts : _) : ManagedConfiguration :=
  let '(tunnels, exports, forwards, enabled) := parts in
  {| mc_tunnels := map (λ '(n, p, l, r), {| tc_name := n; tc_protocol := p; tc_local_addr := l; tc_remote_port := r |}) tunnels;
     mc_exports := map (λ '(n, p, l, a), {| xc_name := n; xc_protocol := p; xc_local_addr := l; xc_allowed_peers := a |}) exports;
     mc_forwards := map (λ '(n, p, e, l), {| fc_name := n; fc_peer := p; fc_export := e; fc_listen_addr := l |}) forwards;
     mc_p2p_enabled := enabled |}.
Lemma map_id_via {A B : Type} (f : A → B) (g : B → A) l : (∀ a, g (f a) = a) → map g (map f l) = l.
Proof. intros H. induction l as [|a l IH]; [done|]. simpl. by rewrite H, IH. Qed.
Lemma parts_config_parts c : parts_config (config_parts c) = c.
Proof. destruct c. simpl. f_equal; apply map_id_via; by intros []. Qed.

#[export] Instance example_json : SerdeJson := {
  config_to_json c := number_text (encode (config_parts c));
  config_from_json text := parts_config <$> decode (text_number text);
  value_to_json v := match v with VArray [] => str "[]" | _ => number_text (encode (value_tree v)) end;
  value_from_json text :=
    if bool_decide (text = str "[]") then Some (VArray []) else tree_value <$> decode (text_number text);
}.
#[export] Instance example_json_laws : SerdeJsonLaws example_json.
Proof.
  assert (∀ v, (if bool_decide (number_text (encode (value_tree v)) = str "[]") then Some (VArray [])
                else tree_value <$> decode (text_number (number_text (encode (value_tree v))))) = Some v) as Hrt.
  { intros v. rewrite bool_decide_eq_false_2 by (by destruct (encode (value_tree v))).
    rewrite text_number_text, decode_encode. exact (f_equal Some (tree_value_tree v)). }
  split.
  - intros c. cbn. rewrite text_number_text, decode_encode. exact (f_equal Some (parts_config_parts c)).
  - intros v. unfold value_from_json, value_to_json. cbn. destruct v as [| | | |[|i items]|]; [..|]; try apply Hrt.
    by rewrite bool_decide_eq_true_2.
  - done.
Qed.
