(* ===== verification/Approval.v ===== *)
(** Registration by approval ([rustgos/src/enrollment/store/approval.rs]): a client asks to be
    registered, or to have its key replaced, and an administrator decides.  The methods are
    transactions over the tables of [Enrollment]. *)

From S2P Require Import Prelude.
From S2P Require Import Ordered.
From S2P Require Import Text.
From S2P Require Import Peer.
From S2P Require Import EnrollKeys.
From S2P Require Import Identity.
From S2P Require Import Enrollment.
From Stdlib Require Import Strings.Byte.
From stdpp Require Import prelude gmap list sorting strings.

#[local] Open Scope Z_scope.

Definition PENDING : Z := 0.
Definition APPROVED : Z := 1.
Definition REJECTED : Z := 2.
Definition DAY_SECS : Z := 86400.

(** The name or the key of a client of the configuration. *)
Definition ensure_not_static (s : DynamicClientStore) (name key : list byte) : result unit :=
  if existsb (λ i, bool_decide (i.1 = to_ascii_lowercase name) || bool_decide (i.2 = key))
       (static_identities s)
  then Err StaticIdentityConflict else Ok tt.

Definition request_id_invalid (request_id : list byte) : bool :=
  bool_decide (request_id = []) || (128 <? blen request_id)
  || negb (forallb (λ b, is_ascii_alphanumeric b || bool_decide (b = x2d)) request_id).

(** Requests that wait for a decision and have not expired. *)
Definition is_pending (now : Z) (r : RegistrationRow) : bool :=
  (r_status r =? PENDING) && (now <? r_expires_at r).
Definition pending_limit (s : DynamicClientStore) : Z := max_tokens (limits s) `min` 256.

Definition extend_row (expires_at : Z) (r : RegistrationRow) : RegistrationRow :=
  {| r_display_id := r_display_id r; r_public_key := r_public_key r; r_purpose := r_purpose r;
     r_target_id := r_target_id r; r_expected_revision := r_expected_revision r;
     r_created_at := r_created_at r; r_expires_at := expires_at; r_status := r_status r;
     r_result_revision := r_result_revision r; r_profile_name := r_profile_name r;
     r_requested_uid := r_requested_uid r |}.
Definition decide_row (status : Z) (result_revision : option Z) (r : RegistrationRow) : RegistrationRow :=
  {| r_display_id := r_display_id r; r_public_key := r_public_key r; r_purpose := r_purpose r;
     r_target_id := r_target_id r; r_expected_revision := r_expected_revision r;
     r_created_at := r_created_at r; r_expires_at := r_expires_at r; r_status := status;
     r_result_revision := result_revision; r_profile_name := r_profile_name r;
     r_requested_uid := r_requested_uid r |}.
Definition set_registration (d : Db) (request_id : list byte) (r : RegistrationRow) : Db :=
  with_registrations d (<[request_id := r]> (registrations d)).

(** [PendingApproval] of a new client or of the replacement of a key. *)
Definition waiting {A} (target : option (list byte)) : result A :=
  match target with Some _ => Err ReplacementApprovalPending | None => Err ApprovalPending end.

(** The client a registration routes to: by its normalized name, and for a profile also by
    the identifier the request was made for. *)
Definition routed_client (d : Db) (r : RegistrationRow) (profile : bool) : option (list byte * ClientRow) :=
  sql_find (λ id c, bool_decide (c_normalized_id c = to_ascii_lowercase (r_display_id r))
                    && (negb profile || bool_decide (id = default (r_display_id r) (r_target_id r))))
    (clients d).

Section approval.
Context {P : Primitives} {B : Base64} {E : Ed25519Points}.

(** A request that is known already. *)
Definition repeat_request (s : DynamicClientStore) (r : RegistrationRow) (name : list byte)
    (uid : option (list byte)) (profile : bool) (purpose now : Z) (public_key request_id : list byte)
    : result (Db * result EnrollmentResult) :=
  if negb (Bool.eqb profile (bool_decide (is_Some (r_profile_name r))))
     || negb (bool_decide (default (r_display_id r) (r_profile_name r) = name))
     || negb (bool_decide (r_requested_uid r = uid))
     || negb (bool_decide (r_public_key r = public_key))
     || negb (r_purpose r =? purpose)
  then Err InvalidRequestId
  else if r_status r =? REJECTED then Err ApprovalRejected
  else if r_status r =? APPROVED then
    match routed_client (db s) r profile with
    | Some (_, c) =>
      revision ← sql_u64 (c_revision c);
      if bool_decide (Some revision = r_result_revision r)
         && bool_decide (c_public_key c = Some public_key) && c_enabled c && negb (c_tombstoned c)
      then
        revision ← ok_or (r_result_revision r) RevisionConflict;
        Ok (db s, Ok {| er_display_id := r_display_id r; er_revision := revision |})
      else Err RevisionConflict
    | None => Err RevisionConflict
    end
  else if r_expires_at r <=? now then
    now ← sql_u64 now;
    if pending_limit s <=? sql_count (is_pending now) (registrations (db s)) then Err TokenCapacity
    else
      expires_at ← sql_u64 (saturating_add u64_max now DAY_SECS);
      Ok (set_registration (db s) request_id (extend_row expires_at r), waiting (r_target_id r))
  else waiting (r_target_id r).

(** Where a new request is routed: the name it gives, or for a profile the client it names or
    the one that has its key. *)
Definition lookup_route (d : Db) (name : list byte) (uid : option (list byte)) (profile : bool)
    (public_key : list byte) : result (option (list byte)) :=
  if profile then
    let owner := sql_find (λ _ c, bool_decide (c_public_key c = Some public_key)) (clients d) in
    match uid with
    | Some uid =>
      client ← query_client d uid;
      client ← ok_or client ClientNotFound;
      match owner with
      | Some (owner, _) =>
        if decide (owner = uid) then Ok (Some (dc_display_id client)) else Err PublicKeyConflict
      | None => Ok (Some (dc_display_id client))
      end
    | None => Ok (c_display_id ∘ snd <$> owner)
    end
  else Ok (Some name).

(** The client a new request would change, with its revision. *)
Definition request_target (d : Db) (routing_id : list byte) : result (option (list byte * Z)) :=
  match sql_find (λ _ c, bool_decide (c_normalized_id c = to_ascii_lowercase routing_id)) (clients d) with
  | Some (id, c) =>
    revision ← sql_u64 (c_revision c);
    if negb (c_enabled c) && negb (c_tombstoned c) then Err ClientDisabled
    else Ok (Some (id, revision))
  | None => Ok None
  end.

Definition new_request (s : DynamicClientStore) (name : list byte) (uid : option (list byte))
    (profile : bool) (purpose now : Z) (public_key request_id random : list byte) (clock : nat → Z)
    : result (Db * result EnrollmentResult) :=
  old ← sql_u64 (saturating_sub now (7 * DAY_SECS));
  let d := with_registrations (db s) (filter (λ kv, old ≤ r_expires_at kv.2) (registrations (db s))) in
  now ← sql_u64 now;
  if (pending_limit s <=? sql_count (is_pending now) (registrations d))
     || (4096 <=? Z.of_nat (size (registrations d)))
  then Err TokenCapacity
  else
    lookup ← lookup_route d name uid profile public_key;
    let routing_id := default (random_id random) lookup in
    target ← request_target d routing_id;
    expires_at ← sql_u64 (saturating_add u64_max now DAY_SECS);
    let d := set_registration d request_id
      {| r_display_id := routing_id; r_public_key := public_key; r_purpose := purpose;
         r_target_id := fst <$> target; r_expected_revision := snd <$> target;
         r_created_at := now; r_expires_at := expires_at; r_status := PENDING;
         r_result_revision := None; r_profile_name := if profile then Some name else None;
         r_requested_uid := uid |} in
    d ← audit d (str "registration_requested") request_id (clock 0%nat);
    Ok (d, waiting (fst <$> target)).

Definition request_approval_inner (s : DynamicClientStore) (name : list byte)
    (uid : option (list byte)) (profile : bool) (purpose : EnrollmentPurpose)
    (key request_id : list byte) (now : Z) (random : list byte) (clock : nat → Z)
    : DynamicClientStore * result EnrollmentResult :=
  commit s (
    name ← (if profile then validate_display_name name else validate_display_id name);
    _ ← match uid with Some uid => validate_display_id uid | None => Ok [] end;
    if request_id_invalid request_id then Err InvalidRequestId
    else
      now ← ok_or (since_epoch now) InvalidToken;
      let public_key := public_key_to_string key in
      _ ← ensure_not_static s (if profile then [] else name) public_key;
      let purpose := purpose_code purpose in
      match registrations (db s) !! request_id with
      | Some r => repeat_request s r name uid profile purpose now public_key request_id
      | None => new_request s name uid profile purpose now public_key request_id random clock
      end).
Definition request_approval (s : DynamicClientStore) (name : list byte) (purpose : EnrollmentPurpose)
    (key request_id : list byte) (now : Z) (random : list byte) (clock : nat → Z) :=
  request_approval_inner s name None false purpose key request_id now random clock.
Definition request_profile_approval (s : DynamicClientStore) (display_name : list byte)
    (uid : option (list byte)) (purpose : EnrollmentPurpose) (key request_id : list byte) (now : Z)
    (random : list byte) (clock : nat → Z) :=
  request_approval_inner s display_name uid true purpose key request_id now random clock.

(** * The administrator's decision *)

(** A decision that was taken before: repeating it changes nothing. *)
Definition repeat_review (d : Db) (r : RegistrationRow) (approve : bool)
    : result (Db * result (option EnrollmentResult)) :=
  if (r_status r =? APPROVED) && approve then
    let unchanged := bool_decide (is_Some (sql_find (λ id c,
      bool_decide (c_normalized_id c = to_ascii_lowercase (r_display_id r))
      && bool_decide (c_public_key c = Some (r_public_key r))
      && bool_decide (Some (c_revision c) = r_result_revision r) && is_active_row c
      && (negb (bool_decide (is_Some (r_profile_name r)))
          || bool_decide (id = default (r_display_id r) (r_target_id r)))) (clients d))) in
    if unchanged then Ok (d, Ok None) else Err RevisionConflict
  else if (r_status r =? REJECTED) && negb approve then Ok (d, Ok None)
  else Err RevisionConflict.

Definition rebind_row (key : list byte) (revision now : Z) (profile_name : option (list byte))
    (c : ClientRow) : ClientRow :=
  {| c_display_id := c_display_id c; c_normalized_id := c_normalized_id c; c_public_key := Some key;
     c_enabled := true; c_revision := revision; c_tombstoned := false;
     c_created_at := c_created_at c; c_updated_at := now; c_deleted_at := None;
     c_display_name := match profile_name with Some n => Some n | None => c_display_name c end;
     c_local_ip := c_local_ip c |}.

(** The client keeps its identifier and gets the new key; a tombstone is restored. *)
Definition rebind_client (s : DynamicClientStore) (r : RegistrationRow) (id : list byte) (clock : Z)
    : result (Db * Z) :=
  expected ← ok_or (r_expected_revision r) RevisionConflict;
  next ← ok_or (checked_add u64_max expected 1) RevisionConflict;
  restoring ← match clients (db s) !! id with Some c => Ok (c_tombstoned c) | None => Err Database end;
  if restoring && (max_active_clients (limits s) <=? active_clients (db s)) then Err ClientCapacity
  else
    next ← sql_u64 next;
    now ← unix_now clock;
    now ← sql_u64 now;
    let '(changed, d) := update_client_row (db s) id
      (λ c, (c_revision c =? expected) && (c_enabled c || c_tombstoned c)
            && bool_decide (c_normalized_id c = to_ascii_lowercase (r_display_id r)))
      (rebind_row (r_public_key r) next now (r_profile_name r)) in
    if (0 <? changed) && key_taken (clients (db s)) id (r_public_key r) then Err PublicKeyConflict
    else if negb (changed =? 1) then Err RevisionConflict
    else Ok (revoke_tokens d id, next).

(** A client of its own; a profile's identifier is the routing identifier of its request. *)
Definition admit_client (s : DynamicClientStore) (r : RegistrationRow) (random : list byte) (clock : Z)
    : result (Db * Z) :=
  if max_active_clients (limits s) <=? active_clients (db s) then Err ClientCapacity
  else
    let name := r_display_id r in
    let id := if bool_decide (is_Some (r_profile_name r)) then name else random_id random in
    now ← unix_now clock;
    now ← sql_u64 now;
    d ← ok_or (insert_client (db s) id
          (new_client name (Some (r_public_key r)) now (Some (default name (r_profile_name r)))))
          RevisionConflict;
    Ok (d, 1).

(** The transaction of [review_approval]. *)
Definition review_tx (s : DynamicClientStore) (request_id : list byte) (approve : bool)
  (random : list byte) (clock : nat → Z) : result (Db * result (option EnrollmentResult)) :=
  r ← ok_or (registrations (db s) !! request_id) ClientNotFound;
  _ ← ensure_not_static s (if bool_decide (is_Some (r_profile_name r)) then [] else r_display_id r)
        (r_public_key r);
  if negb (r_status r =? PENDING) then repeat_review (db s) r approve
  else
    now ← unix_now (clock 0%nat);
    if r_expires_at r <=? now then Err TokenExpired
    else if negb approve then
      let d := set_registration (db s) request_id (decide_row REJECTED (r_result_revision r) r) in
      d ← audit d (str "registration_rejected") request_id (clock 1%nat);
      Ok (d, Ok None)
    else
      '(d, revision) ← match r_target_id r with
                       | Some id => rebind_client s r id (clock 1%nat)
                       | None => admit_client s r random (clock 1%nat)
                       end;
      let d := set_registration d request_id (decide_row APPROVED (Some revision) r) in
      d ← audit d (str "registration_approved") request_id (clock 2%nat);
      Ok (d, Ok (Some {| er_display_id := r_display_id r; er_revision := revision |})).

Definition review_approval (s : DynamicClientStore) (request_id : list byte) (approve : bool)
    (random : list byte) (clock : nat → Z) : DynamicClientStore * result (option EnrollmentResult) :=
  commit s (review_tx s request_id approve random clock).

(** * What the administrator sees *)

Record RegistrationRequest := {
  rq_request_id : list byte;
  rq_client_id : list byte;
  rq_display_name : list byte;
  rq_uid : option (list byte);
  rq_public_key : list byte;
  rq_fingerprint : list byte;
  rq_replacing : bool;
  rq_created_at : Z;
}.

Definition registration_request (id : list byte) (r : RegistrationRow) : RegistrationRequest :=
  {| rq_request_id := id; rq_client_id := r_display_id r;
     rq_display_name := default (r_display_id r) (r_profile_name r);
     rq_uid := match r_profile_name r with
               | Some _ => Some (default (r_display_id r) (r_target_id r)) | None => r_target_id r end;
     rq_public_key := r_public_key r;
     rq_fingerprint := match public_key_from_str (r_public_key r) with
                       | Ok k => fingerprint_to_string (fingerprint k) | _ => [] end;
     rq_replacing := bool_decide (is_Some (r_target_id r)); rq_created_at := r_created_at r |}.

(** The waiting requests in the order of their creation and identifier, at most 256. *)
Definition requested_before (x y : list byte * RegistrationRow) : Prop :=
  pair_le bytes_le (r_created_at x.2, x.1) (r_created_at y.2, y.1) = true.
#[local] Instance requested_before_dec : RelDecision requested_before.
Proof. intros x y. unfold requested_before. apply _. Defined.
Definition pending_approvals (s : DynamicClientStore) (clock : Z) : result (list RegistrationRequest) :=
  now ← unix_now clock;
  now ← sql_u64 now;
  Ok (map (λ kv, registration_request kv.1 kv.2)
        (take 256 (merge_sort requested_before
          (List.filter (λ kv, is_pending now kv.2) (map_to_list (registrations (db s))))))).
End approval.
