(* ===== verification/EnrollmentFacts.v ===== *)
(** The statements of the enrollment store: what each does to the tables, and every method of
    the store as a sequence of them. *)

From S2P Require Import Prelude.
From S2P Require Import Text.
From S2P Require Import Peer.
From S2P Require Import EnrollKeys.
From S2P Require Import Identity.
From S2P Require Import Enrollment.
From S2P Require Import Approval.
From Stdlib Require Import Strings.Byte.
From stdpp Require Import prelude gmap list sorting strings.

#[local] Open Scope Z_scope.

(** * Queries *)

Definition b2z (b : bool) : Z := if b then 1 else 0.

Section queries.
Context {A : Type}.
Implicit Types (m : gmap (list byte) A) (p q : A → bool) (f : A → A).

Lemma sql_count_nonneg p m : 0 ≤ sql_count p m.
Proof. unfold sql_count. lia. Qed.

Lemma sql_count_insert p m k v : m !! k = None → sql_count p (<[k:=v]> m) = sql_count p m + b2z (p v).
Proof.
  intros Hk. unfold sql_count. rewrite map_filter_insert. simpl. destruct (p v) eqn:E.
  - rewrite decide_True by done. rewrite map_size_insert_None; [simpl; lia|].
    apply map_lookup_filter_None. by left.
  - rewrite decide_False by done. rewrite delete_id by done. simpl. lia.
Qed.
Lemma sql_count_delete p m k u : m !! k = Some u → sql_count p (delete k m) = sql_count p m - b2z (p u).
Proof.
  intros Hk. rewrite <- (insert_id m k u Hk) at 2. rewrite <- insert_delete_eq.
  rewrite sql_count_insert by apply lookup_delete_eq. lia.
Qed.
Lemma sql_count_replace p m k u v :
  m !! k = Some u → sql_count p (<[k:=v]> m) = sql_count p m - b2z (p u) + b2z (p v).
Proof.
  intros Hk. rewrite <- insert_delete_eq, sql_count_insert by apply lookup_delete_eq.
  by rewrite (sql_count_delete _ _ _ u).
Qed.
Lemma sql_count_mono p q m : (∀ r, p r = true → q r = true) → sql_count p m ≤ sql_count q m.
Proof.
  intros Hpq. unfold sql_count. apply inj_le, map_subseteq_size.
  apply map_filter_subseteq_ext. intros k r _. apply Hpq.
Qed.
Lemma sql_count_update p q f m :
  (∀ r, p (f r) = true → p r = true) → sql_count p (sql_update q f m) ≤ sql_count p m.
Proof.
  intros Hp. unfold sql_count, sql_update. apply inj_le.
  rewrite map_filter_fmap, map_size_fmap. apply map_subseteq_size.
  apply map_filter_subseteq_ext. intros k r _. simpl. destruct (q r); [apply Hp|done].
Qed.
Lemma sql_count_filter p (P : list byte * A → Prop) `{!∀ x, Decision (P x)} m :
  sql_count p (filter P m) ≤ sql_count p m.
Proof.
  unfold sql_count. apply inj_le, map_subseteq_size, map_filter_subseteq_mono, map_filter_subseteq.
Qed.

Lemma sql_find_Some (p : list byte → A → bool) m k v :
  sql_find p m = Some (k, v) → m !! k = Some v ∧ p k v = true.
Proof.
  unfold sql_find. destruct (list_find _ _) as [[i kv]|] eqn:E; [|done]. simpl. intros [= ->].
  apply list_find_Some in E as (Hi & Hp & _). split; [|done].
  apply elem_of_map_to_list. by apply list_elem_of_lookup_2 in Hi.
Qed.
Lemma sql_find_None (p : list byte → A → bool) m :
  sql_find p m = None → ∀ k v, m !! k = Some v → p k v = false.
Proof.
  unfold sql_find. destruct (list_find _ _) as [[i kv]|] eqn:E; [done|]. intros _ k v Hk.
  apply list_find_None in E. rewrite Forall_forall in E.
  apply elem_of_map_to_list in Hk. specialize (E _ Hk). simpl in E. by destruct (p k v).
Qed.
Lemma lookup_sql_update p f m k :
  sql_update p f m !! k = (λ r, if p r then f r else r) <$> m !! k.
Proof. unfold sql_update. by rewrite lookup_fmap. Qed.
End queries.

(** * The statements *)

(** The queries of the unique columns. *)
Lemma normalized_free m id n :
  normalized_taken m id n = false ↔ ∀ k c, m !! k = Some c → k ≠ id → c_normalized_id c ≠ n.
Proof.
  unfold normalized_taken. rewrite bool_decide_eq_false, <- eq_None_not_Some. split.
  - intros Hn k c Hk Hne He. apply (sql_find_None _ _ Hn) in Hk.
    by rewrite !bool_decide_eq_true_2 in Hk.
  - intros Hall. destruct (sql_find _ m) as [[k c]|] eqn:E; [|done].
    apply sql_find_Some in E as [Hk [H1 H2]%andb_true_iff]. rewrite !bool_decide_eq_true in H1, H2.
    by eapply Hall in H2.
Qed.
Lemma key_free m id key :
  key_taken m id key = false ↔ ∀ k c, m !! k = Some c → k ≠ id → c_public_key c ≠ Some key.
Proof.
  unfold key_taken. rewrite bool_decide_eq_false, <- eq_None_not_Some. split.
  - intros Hn k c Hk Hne He. apply (sql_find_None _ _ Hn) in Hk.
    by rewrite !bool_decide_eq_true_2 in Hk.
  - intros Hall. destruct (sql_find _ m) as [[k c]|] eqn:E; [|done].
    apply sql_find_Some in E as [Hk [H1 H2]%andb_true_iff]. rewrite !bool_decide_eq_true in H1, H2.
    by eapply Hall in H2.
Qed.

Section steps.
Context (lim : EnrollmentStoreLimits).

(** A revision of one row: the revision goes up by one, unique columns stay unique, and an
    inactive client becomes active only below the limit. *)
Record row_revised (d : Db) (id : list byte) (c c' : ClientRow) : Prop := {
  rr_revision : c_revision c' = c_revision c + 1 ∧ c_revision c' ≤ i64_max;
  rr_name : (c_display_id c' = c_display_id c ∧ c_normalized_id c' = c_normalized_id c)
            ∨ (c_normalized_id c' = to_ascii_lowercase (c_display_id c')
               ∧ normalized_taken (clients d) id (c_normalized_id c') = false);
  rr_tombstone : c_tombstoned c' = true → c_enabled c' = false;
  rr_active : is_active_row c' = true →
              is_active_row c = true ∨ active_clients d < max_active_clients lim;
}.

(** The statements that leave every client's key alone. *)
Inductive quiet_step : Db → Db → Prop :=
| ds_insert d d' id name now display :
  insert_client d id (new_client name None now display) = Some d' →
  active_clients d < max_active_clients lim → quiet_step d d'
| ds_revise d id c c' :
  clients d !! id = Some c → row_revised d id c c' → c_public_key c' = c_public_key c →
  quiet_step d (with_client_rows d (<[id := c']> (clients d)))
| ds_profile d id c name ip now :
  clients d !! id = Some c → is_active_row c = true →
  quiet_step d (with_client_rows d (<[id := profile_row name ip now c]> (clients d)))
| ds_revoke d p :
  (∀ t, p t = true → t_consumed_at t = None) →
  quiet_step d (with_token_rows d (sql_update p revoke_token (tokens d)))
| ds_token d d' prepared purpose target c expires :
  clients d !! target = Some c → is_active_row c = true →
  purpose_mismatch purpose (c_public_key c) = false → active_tokens d < max_tokens lim →
  insert_token d prepared (purpose_code purpose) target (c_revision c) expires = Some d' →
  quiet_step d d'
| ds_audit d d' event target clock : audit d event target clock = Ok d' → quiet_step d d'.

(** Registrations are filed, extended, decided and forgotten. *)
Inductive request_step : Db → Db → Prop :=
| ds_registrations d m :
  (size m ≤ 4096 ∨ size m ≤ size (registrations d))%nat → request_step d (with_registrations d m)
| ds_request_audit d d' event target clock : audit d event target clock = Ok d' → request_step d d'.

(** Purging: the only statements that delete clients and tokens. *)
Inductive purge_step : Db → Db → Prop :=
| ds_purge d target :
  (∀ c, clients d !! target = Some c → c_tombstoned c = true) →
  purge_step d (with_client_rows (with_token_rows d (filter (λ kv, t_target_id kv.2 ≠ target) (tokens d)))
                             (delete target (clients d)))
| ds_purge_audit d d' event target clock : audit d event target clock = Ok d' → purge_step d d'.

(** The statements that give a client a key: a redeemed token, an approved registration of a
    client and an approved replacement. *)
Inductive binding_step : Db → Db → Prop :=
| ds_consume d selector t c purpose now at_ request key :
  tokens d !! selector = Some t → clients d !! t_target_id t = Some c →
  t_consumed_at t = None → admit_token t c purpose now = Ok tt →
  key_taken (clients d) (t_target_id t) key = false → c_revision c + 1 ≤ i64_max →
  binding_step d (set_token
    (with_client_rows d (<[t_target_id t := bind_row key (c_revision c + 1) c]> (clients d)))
    selector (consume_row at_ request key (c_revision c + 1) t))
| ds_admit d d' id name key now display :
  insert_client d id (new_client name (Some key) now display) = Some d' →
  active_clients d < max_active_clients lim → binding_step d d'
| ds_rebind d id c c' key :
  clients d !! id = Some c → row_revised d id c c' → c_public_key c' = Some key →
  key_taken (clients d) id key = false →
  binding_step d (with_client_rows d (<[id := c']> (clients d))).

Definition db_step (d d' : Db) : Prop :=
  quiet_step d d' ∨ request_step d d' ∨ purge_step d d' ∨ binding_step d d'.
End steps.

(** * Methods as sequences of statements *)

Lemma sql_u64_Ok v w : sql_u64 v = Ok w → w = v ∧ v ≤ i64_max.
Proof. unfold sql_u64. destruct (v <=? i64_max) eqn:E; [|done]. intros [= <-]. by apply Z.leb_le in E. Qed.
Lemma mutation_miss_not_Ok {A} d id (a : A) : mutation_miss d id = Ok a → False.
Proof.
  unfold mutation_miss. intros H. apply res_bind_Ok in H as ([c|]&_&H); [|done].
  by destruct (dc_tombstoned c).
Qed.
(** Running a transaction: one link of the chain at a time. *)
Ltac tx1 :=
  match goal with
  | H : commit _ _ = _ |- _ => fail 1
  | H : (_ ≫= _) = Ok _ |- _ => apply res_bind_Ok in H as (?&?&H)
  | H : ok_or _ _ = Ok _ |- _ => apply ok_or_Ok in H
  | H : map_err _ _ = Ok _ |- _ => apply map_err_Ok in H
  | H : (let '(_, _) := ?x in _) = Ok _ |- _ => destruct x eqn:?
  | H : (if ?b then Err _ else _) = Ok _ |- _ => let E := fresh "E" in destruct b eqn:E; [discriminate H|]
  | H : (if ?b then _ else Err _) = Ok _ |- _ => let E := fresh "E" in destruct b eqn:E; [|discriminate H]
  | H : Ok _ = Ok _ |- _ => injection H; clear H; intros; subst
  | H : Err _ = Ok _ |- _ => discriminate H
  | H : (if ?b then mutation_miss _ _ else _) = Ok _ |- _ =>
    let E := fresh "E" in destruct b eqn:E; [by apply mutation_miss_not_Ok in H|]
  | H : sql_u64 ?v = Ok _ |- _ => apply sql_u64_Ok in H as [? ?]; subst
  end.
Ltac tx := repeat tx1.

Lemma query_client_Some d id c : query_client d id = Ok (Some c) →
  ∃ row, clients d !! id = Some row ∧ client_from_row id row = Ok c ∧ c_revision row ≤ i64_max.
Proof.
  unfold query_client. destruct (clients d !! id) as [row|]; [|done]. intros H.
  apply res_bind_Ok in H as (c'&Hc&[= ->]). exists row. split; [done|]. split; [done|].
  unfold client_from_row in Hc. apply res_bind_Ok in Hc as (r&Hr&_). by apply sql_u64_Ok in Hr as [_ ?].
Qed.
Lemma update_client_row_spec d id cond f n d' :
  update_client_row d id cond f = (n, d') →
  (n = 0 ∧ d' = d) ∨
  (n = 1 ∧ ∃ c, clients d !! id = Some c ∧ cond c = true ∧
    d' = with_client_rows d (<[id := f c]> (clients d))).
Proof.
  unfold update_client_row. destruct (clients d !! id) as [c|]; [|intros [= <- <-]; by left].
  destruct (cond c) eqn:E; intros [= <- <-]; [right|by left]. split; [done|]. by exists c.
Qed.
Lemma audit_step lim d e t k d' : audit d e t k = Ok d' → quiet_step lim d d'.
Proof. apply ds_audit. Qed.

(** A transaction that commits only sequences of statements. *)
Lemma commit_steps {A} (R : relation Db) s (r : result (Db * result A)) :
  (∀ d a, r = Ok (d, a) → rtc R (db s) d) → rtc R (db s) (db (commit s r).1).
Proof. intros H. destruct r as [[d a]| |]; simpl; [by eapply H|done|done]. Qed.
Lemma commit_static {A} s (r : result (Db * result A)) :
  limits (commit s r).1 = limits s ∧ static_identities (commit s r).1 = static_identities s.
Proof. by destruct r as [[d a]| |]. Qed.

(** Comparisons as inequalities. *)
Ltac bools :=
  repeat match goal with
  | H : (_ <=? _) = false |- _ => apply Z.leb_gt in H
  | H : (_ <=? _) = true |- _ => apply Z.leb_le in H
  | H : (_ =? _) = true |- _ => apply Z.eqb_eq in H
  | H : (_ =? _) = false |- _ => apply Z.eqb_neq in H
  | H : negb _ = true |- _ => apply negb_true_iff in H
  | H : negb _ = false |- _ => apply negb_false_iff in H
  | H : _ && _ = true |- _ => apply andb_true_iff in H as [? ?]
  | H : _ || _ = false |- _ => apply orb_false_iff in H as [? ?]
  | H : bool_decide _ = true |- _ => apply bool_decide_eq_true in H
  | H : bool_decide _ = false |- _ => apply bool_decide_eq_false in H
  end.

Section ops.
Context {P : Primitives} {B : Base64} {E : Ed25519Points}.
Implicit Types s : DynamicClientStore.

(** Sequences of statements, the last of them the audit record. *)
Notation steps lim := (rtc (quiet_step lim)).
Ltac last_audit := apply rtc_once; eapply audit_step; eassumption.

Lemma create_client_steps s name random clock :
  steps (limits s) (db s) (db (create_client s name random clock).1).
Proof.
  unfold create_client. apply commit_steps. intros d a H. tx. bools.
  eapply rtc_l; [|last_audit]. eapply ds_insert; [eassumption|].
  eapply Z.le_lt_trans; [|eassumption]. apply sql_count_mono. intros r. unfold is_active_row.
  by destruct (c_enabled r).
Qed.

Lemma create_client_with_token_steps s name addr fp ttl token salt random clock :
  steps (limits s) (db s) (db (create_client_with_token s name addr fp ttl token salt random clock).1).
Proof.
  unfold create_client_with_token. apply commit_steps. intros d a H. tx. bools.
  match goal with Hi : insert_client _ ?id (new_client ?n ?k ?t ?dn) = Some ?d1 |- _ =>
    assert (clients d1 !! id = Some (new_client n k t dn) ∧ tokens d1 = tokens (db s)) as [Hc Ht]
      by (unfold insert_client in Hi; case_match; [done|]; injection Hi as <-; simpl;
          by rewrite lookup_insert_eq)
  end.
  eapply rtc_l; [eapply ds_insert; eassumption|]. eapply rtc_l; [|last_audit].
  eapply (ds_token _ _ _ _ Enroll); [exact Hc|done|done| |eassumption].
  unfold active_tokens. by rewrite Ht.
Qed.

(** The update of one row at the revision the caller expects, read back afterwards. *)
Lemma revise_steps lim d id expected f n d1 client :
  update_client_row d id (at_revision expected) f = (n, d1) → n ≠ 0 →
  query_client d1 id = Ok (Some client) →
  (∀ c, c_tombstoned c = false → c_revision (f c) ≤ i64_max → n = 1 → row_revised lim d id c (f c)) →
  (∀ c, c_public_key (f c) = c_public_key c) →
  quiet_step lim d d1.
Proof.
  intros Hu Hn Hq Hf Hk. apply update_client_row_spec in Hu as [[-> _]|(?&c&Hc&Hr&->)]; [done|].
  unfold at_revision in Hr. bools. apply (ds_revise _ _ _ c); [done| |done]. apply Hf; [done| |done].
  apply query_client_Some in Hq as (row&Hrow&_&Hle). simpl in Hrow. rewrite lookup_insert_eq in Hrow.
  by simplify_eq.
Qed.

Lemma rename_client_steps s id name expected clock :
  steps (limits s) (db s) (db (rename_client s id name expected clock).1).
Proof.
  unfold rename_client. apply commit_steps. intros d a H. tx. bools.
  eapply rtc_l; [|last_audit]. eapply revise_steps; [eassumption|done|eassumption| |done].
  intros c Ht Hle ->. split; simpl; [done|right|congruence|by left].
  split; [done|]. by apply andb_false_iff in E0 as [?|?].
Qed.

Lemma set_client_enabled_steps s id enabled expected clock :
  steps (limits s) (db s) (db (set_client_enabled s id enabled expected clock).1).
Proof.
  unfold set_client_enabled. apply commit_steps. intros d a H. tx. bools.
  match goal with Hu : update_client_row _ _ _ _ = (_, ?d1) |- _ => apply (rtc_l _ _ d1) end.
  - eapply revise_steps; [eassumption|done|by destruct enabled; eassumption| |done].
    intros c Ht Hle ->. split; simpl; [done|by left|congruence|].
    intros Ha. unfold is_active_row in Ha. simpl in Ha. bools. subst enabled. simpl in E0. bools. by right.
  - destruct enabled; [last_audit|]. eapply rtc_l; [|last_audit].
    apply ds_revoke. intros t Ht. by bools.
Qed.

Lemma delete_client_steps s id expected clock :
  steps (limits s) (db s) (db (delete_client s id expected clock).1).
Proof.
  unfold delete_client. apply commit_steps. intros d a H. tx. bools.
  match goal with Hu : update_client_row _ _ _ _ = (_, ?d1) |- _ => apply (rtc_l _ _ d1) end.
  - eapply revise_steps; [eassumption|done|eassumption| |done].
    intros c Ht Hle ->. by split; simpl; [|left| |].
  - eapply rtc_l; [|last_audit]. apply ds_revoke. intros t Ht. by bools.
Qed.

Lemma issue_token_steps s id purpose addr fp ttl expected token salt clock :
  steps (limits s) (db s) (db (issue_token s id purpose addr fp ttl expected token salt clock).1).
Proof.
  unfold issue_token. apply commit_steps. intros d a H. tx. bools.
  destruct (clients (db s) !! id) as [c|] eqn:Hc; [|done].
  destruct (is_active_row c) eqn:Hact; [|done]. simplify_eq.
  eapply rtc_l; [apply ds_revoke|eapply rtc_l; [|last_audit]].
  2:{ eapply ds_token; [exact Hc|done|eassumption..]. }
  intros t Ht. unfold is_open_token in Ht. by bools.
Qed.

(** What a redeemed token was: consumed by the same request before, or consumed now. *)
Definition token_genuine (d : Db) (key : list byte) (t : TokenRow) (c : ClientRow) : Prop :=
  tokens d !! sha256 key = Some t ∧ clients d !! t_target_id t = Some c ∧
  sha256 (t_salt t ++ key) = t_hash t.

Lemma token_candidate_Ok d selector t c :
  token_candidate d selector = Ok (t, c) →
  tokens d !! selector = Some t ∧ clients d !! t_target_id t = Some c.
Proof. unfold token_candidate. repeat (case_match; try done). by intros [= <- <-]. Qed.

(** An admitted token: in time, unused, of an active client that has not changed since. *)
Lemma admit_token_Ok t c purpose now :
  admit_token t c purpose now = Ok tt →
  now ≤ t_expires_at t ∧ is_active_row c = true ∧ t_revoked t = false ∧
  c_revision c = t_issued_revision t ∧ t_purpose t = purpose_code purpose ∧
  purpose_mismatch purpose (c_public_key c) = false.
Proof.
  unfold admit_token, is_active_row. intros H.
  destruct (t_expires_at t <? now) eqn:E1; [done|]. apply Z.ltb_ge in E1.
  destruct (c_tombstoned c); [done|]. destruct (c_enabled c); [|done]. simpl in *.
  destruct (t_revoked t); [done|]. repeat (case_match; try done). by bools.
Qed.

Lemma consume_tx_Ok s key pk request now clock d a :
  consume_tx s key pk request now clock = Ok (d, a) →
  ∃ material t c secs, ekm_decode key = Ok material ∧ since_epoch now = Some secs ∧
    token_genuine (db s) key t c ∧ c_revision c ≤ i64_max ∧
    ((t_consumed_at t ≠ None ∧ t_request_id t = Some request
      ∧ t_result_public_key t = Some (public_key_to_string pk) ∧ d = db s
      ∧ ∃ rev, t_result_revision t = Some rev ∧ a = Ok {| er_display_id := c_display_id c; er_revision := rev |})
     ∨
     (t_consumed_at t = None ∧ admit_token t c (ekm_purpose material) secs = Ok tt
      ∧ key_taken (clients (db s)) (t_target_id t) (public_key_to_string pk) = false
      ∧ c_revision c + 1 ≤ i64_max
      ∧ a = Ok {| er_display_id := c_display_id c; er_revision := c_revision c + 1 |}
      ∧ ∃ event, audit (set_token
          (with_client_rows (db s) (<[t_target_id t :=
             bind_row (public_key_to_string pk) (c_revision c + 1) c]> (clients (db s))))
          (sha256 key) (consume_row secs request (public_key_to_string pk) (c_revision c + 1) t))
          event (t_target_id t) (clock 0%nat) = Ok d)).
Proof.
  unfold consume_tx. intros H. tx.
  match goal with Hc : token_candidate _ _ = Ok (?t, ?c) |- _ =>
    apply token_candidate_Ok in Hc as [Ht Hcl]; exists x, t, c, x0
  end.
  assert (token_genuine (db s) key t c) as Hg by (split; [done|split; [done|by bools]]).
  do 4 (split; [done|]).
  destruct (bool_decide (is_Some (t_consumed_at t))) eqn:Ec.
  - apply bool_decide_eq_true in Ec as [? Ec]. tx. bools. left. rewrite Ec.
    repeat (split; [done|]). by eexists.
  - apply bool_decide_eq_false, eq_None_not_Some in Ec. right. tx.
    match goal with H : checked_add _ _ _ = Some _ |- _ => apply checked_add_Some in H as [-> _] end.
    match goal with H : admit_token _ _ _ _ = Ok ?u |- _ => destruct u; rename H into Ha end.
    pose proof Ha as (_&Hact&_)%admit_token_Ok. unfold is_active_row in Hact.
    match goal with Hu : update_client_row _ _ _ _ = _ |- _ =>
      unfold update_client_row in Hu; rewrite Hcl, Z.eqb_refl in Hu;
      destruct (c_enabled c); [|done]; injection Hu as <- <- end.
    do 2 (split; [done|]). split; [by match goal with H : _ && key_taken _ _ _ = false |- _ => rewrite andb_true_l in H end|].
    repeat (split; [done|]). by eexists.
Qed.

Lemma consume_token_steps s key pk request now clock :
  rtc (db_step (limits s)) (db s) (db (consume_token s key pk request now clock).1).
Proof.
  apply commit_steps. intros d a H.
  apply consume_tx_Ok in H as (m&t&c&secs&_&_&(Ht&Hc&_)&_&[(_&_&_&->&_)|(Hn&Ha&Hk&Hr&_&ev&Hau)]); [done|].
  eapply rtc_l; [|eapply rtc_once; left; eapply audit_step, Hau]. do 3 right. by eapply ds_consume.
Qed.

Lemma update_profile_steps s id name ip clock :
  steps (limits s) (db s) (db (update_profile s id name ip clock).1).
Proof.
  unfold update_profile. apply commit_steps. intros d a H. tx.
  destruct (z =? 0) eqn:Ez; [done|]. tx. bools.
  match goal with Hu : update_client_row _ _ _ _ = _ |- _ => apply update_client_row_spec in Hu as [[-> _]|(_&c&Hc&Ha&->)] end; [done|].
  by apply rtc_once, ds_profile.
Qed.

Lemma purge_targets_dead d cutoff n target c :
  target ∈ purge_targets d cutoff n → clients d !! target = Some c → c_tombstoned c = true.
Proof.
  unfold purge_targets. intros (i&Hi&_)%elem_of_take Hc.
  apply list_elem_of_lookup_2, list_elem_of_fmap in Hi as ([k c']&->&Hin).
  rewrite merge_sort_Permutation in Hin. apply list_elem_of_In, filter_In in Hin as [Hin Hp].
  apply list_elem_of_In, elem_of_map_to_list in Hin. simpl in *. simplify_eq. by bools.
Qed.

Lemma audit_clients d event target clock d' :
  audit d event target clock = Ok d' →
  clients d' = clients d ∧ tokens d' = tokens d ∧ registrations d' = registrations d.
Proof. unfold audit. intros H. by tx. Qed.

Lemma purge_all_steps d targets clock i d' :
  (∀ t c, t ∈ targets → clients d !! t = Some c → c_tombstoned c = true) →
  purge_all d targets clock i = Ok d' → rtc purge_step d d'.
Proof.
  revert d i; induction targets as [|t targets IH]; intros d i Hd; simpl; [by intros [= ->]|].
  intros H. tx. unfold purge_one in *. cbv zeta in *.
  match goal with Ha : audit ?d1 _ _ _ = Ok ?d2 |- _ =>
    pose proof (audit_clients _ _ _ _ _ Ha) as (Hcl&_&_); apply (rtc_l _ _ d1);
      [apply (ds_purge d t)|apply (rtc_l _ _ d2); [by eapply ds_purge_audit|]] end.
  - intros c. apply Hd, list_elem_of_here.
  - eapply IH; [|done]. intros t' c Hin Hc. rewrite Hcl in Hc. simpl in Hc.
    apply lookup_delete_Some in Hc as [_ Hc]. eapply Hd; [|done]. by apply list_elem_of_further.
Qed.

Lemma purge_tombstones_steps s older limit clock :
  rtc purge_step (db s) (db (purge_tombstones s older limit clock).1).
Proof.
  unfold purge_tombstones. apply commit_steps. intros d a H. tx.
  eapply purge_all_steps; [|done]. intros t c Hin. by eapply purge_targets_dead.
Qed.

(** ** Approval *)

Lemma registration_row_step d k r r' :
  registrations d !! k = Some r' → request_step d (set_registration d k r).
Proof.
  intros Hk. apply ds_registrations. right.
  by rewrite map_size_insert_Some by (by eexists).
Qed.

Lemma request_approval_steps s name uid profile purpose key request now random clock :
  rtc request_step (db s)
    (db (request_approval_inner s name uid profile purpose key request now random clock).1).
Proof.
  unfold request_approval_inner. apply commit_steps. intros d a H. tx.
  destruct (registrations (db s) !! request) as [r|] eqn:Hr.
  - unfold repeat_request in H. tx. destruct (r_status r =? APPROVED).
    + destruct (routed_client _ _ _) as [[id c]|]; [|done]. tx. done.
    + destruct (r_expires_at r <=? _).
      * tx. apply rtc_once. by eapply registration_row_step.
      * unfold waiting in H. by destruct (r_target_id r).
  - unfold new_request in H. tx. bools.
    eapply rtc_l; [|apply rtc_once; eapply ds_request_audit; eassumption].
    match goal with |- request_step _ (set_registration (with_registrations _ ?m) ?k ?r) =>
      apply (ds_registrations (db s) (<[k := r]> m)) end.
    left. etrans; [apply size_insert_le|]. simpl in *. lia.
Qed.

Lemma checked_next rev max next : checked_add max rev 1 = Some next → next = rev + 1.
Proof. by intros [-> _]%checked_add_Some. Qed.

(** What an approval does to the clients: it gives the client the registration was made for
    the new key at the revision it had then, or it creates a client with the key. *)
Definition review_writes (s : DynamicClientStore) (r : RegistrationRow) (d : Db) (revision : Z) : Prop :=
  (∃ id c now, r_target_id r = Some id ∧ clients (db s) !! id = Some c ∧
    r_expected_revision r = Some (c_revision c) ∧ revision = c_revision c + 1 ∧
    row_revised (limits s) (db s) id c (rebind_row (r_public_key r) revision now (r_profile_name r) c) ∧
    key_taken (clients (db s)) id (r_public_key r) = false ∧
    d = revoke_tokens (with_client_rows (db s)
          (<[id := rebind_row (r_public_key r) revision now (r_profile_name r) c]> (clients (db s)))) id) ∨
  (∃ id now, r_target_id r = None ∧ revision = 1 ∧
    active_clients (db s) < max_active_clients (limits s) ∧
    insert_client (db s) id (new_client (r_display_id r) (Some (r_public_key r)) now
      (Some (default (r_display_id r) (r_profile_name r)))) = Some d).

Lemma rebind_client_Ok s r id clock d revision :
  r_target_id r = Some id → rebind_client s r id clock = Ok (d, revision) → review_writes s r d revision.
Proof.
  intros Ht H. unfold rebind_client in H. tx.
  match goal with H : checked_add _ _ _ = Some _ |- _ => apply checked_next in H as -> end.
  match goal with Hu : update_client_row _ _ _ _ = _ |- _ =>
    apply update_client_row_spec in Hu as [[-> ->]|(->&c&Hc&Hcond&->)] end; [done|].
  rewrite Hc in *. bools. simplify_eq. cbn [andb Z.ltb] in *.
  match goal with H : (0 <? 1) && _ = false |- _ => rewrite andb_true_l in H end.
  left. exists id, c. eexists. do 3 (split; [done|]). split; [done|].
  split; [|by split]. split; simpl; [done|by left|done|].
  intros _. match goal with H : c_enabled c || c_tombstoned c = true |- _ => rename H into He end.
  match goal with H : c_tombstoned c && _ = false |- _ => rename H into Hcap end.
  unfold is_active_row. destruct (c_tombstoned c); simpl in *; [right; by bools|left].
  rewrite orb_false_r in He. by rewrite He.
Qed.
Lemma admit_client_Ok s r random clock d revision :
  r_target_id r = None → admit_client s r random clock = Ok (d, revision) → review_writes s r d revision.
Proof.
  intros Ht H. unfold admit_client in H. tx. bools. right. eexists _, _. by repeat (split; [done|]).
Qed.

Lemma review_tx_Ok s request approve random clock d a :
  review_tx s request approve random clock = Ok (d, a) →
  ∃ r, registrations (db s) !! request = Some r ∧
    ((r_status r ≠ PENDING ∧ d = db s ∧ a = Ok None) ∨
     (r_status r = PENDING ∧ approve = false ∧ a = Ok None ∧ ∃ clk,
        audit (set_registration (db s) request (decide_row REJECTED (r_result_revision r) r))
          (str "registration_rejected") request clk = Ok d) ∨
     (r_status r = PENDING ∧ approve = true ∧ ∃ now d1 revision clk,
        unix_now (clock 0%nat) = Ok now ∧ now < r_expires_at r ∧ review_writes s r d1 revision ∧
        audit (set_registration d1 request (decide_row APPROVED (Some revision) r))
          (str "registration_approved") request clk = Ok d ∧
        a = Ok (Some {| er_display_id := r_display_id r; er_revision := revision |}))).
Proof.
  unfold review_tx. intros H. tx. eexists. split; [eassumption|].
  destruct (r_status _ =? PENDING) eqn:Es; cbn [negb] in H; bools.
  - right. tx. bools. destruct approve; cbn [negb] in H; tx.
    + right. do 2 (split; [done|]). eexists _, _, _, _. split; [eassumption|]. split; [done|].
      split; [|split; [eassumption|done]].
      case_match; [by eapply rebind_client_Ok|by eapply admit_client_Ok].
    + left. do 3 (split; [done|]). by eexists.
  - left. split; [done|]. unfold repeat_review in H.
    destruct (_ && approve); [by tx|]. by tx.
Qed.

Lemma review_writes_step s r d revision :
  review_writes s r d revision →
  registrations d = registrations (db s) ∧ rtc (db_step (limits s)) (db s) d.
Proof.
  intros [(id&c&now&_&Hc&_&_&Hr&Hk&->)|(id&now&_&_&Hcap&Hi)].
  - split; [done|]. eapply rtc_l; [do 3 right; by eapply ds_rebind|].
    apply rtc_once. left. apply ds_revoke. intros t Ht. by bools.
  - split.
    + unfold insert_client in Hi. case_match; [done|]. by injection Hi as <-.
    + apply rtc_once. do 3 right. by eapply ds_admit.
Qed.

Lemma review_approval_steps s request approve random clock :
  rtc (db_step (limits s)) (db s) (db (review_approval s request approve random clock).1).
Proof.
  apply commit_steps. intros d a H.
  apply review_tx_Ok in H as (r&Hr&[(_&->&_)|[(_&_&_&clk&Ha)|(_&_&now&d1&rev&clk&_&_&Hw&Ha&_)]]); [done| |].
  - eapply rtc_l; [right; left; by eapply registration_row_step|]. apply rtc_once. left. by eapply audit_step.
  - apply review_writes_step in Hw as [Hreg Hs]. etrans; [exact Hs|].
    eapply rtc_l; [right; left; eapply registration_row_step; by rewrite Hreg|].
    apply rtc_once. left. by eapply audit_step.
Qed.
End ops.
