(* ===== verification/EnrollmentInv.v ===== *)
(** The invariant of the enrollment database, kept by every statement and so by every method
    of the store in every order of calls; then how rows change over time. *)

From S2P Require Import Prelude.
From S2P Require Import Text.
From S2P Require Import Peer.
From S2P Require Import EnrollKeys.
From S2P Require Import Identity.
From S2P Require Import Enrollment.
From S2P Require Import Approval.
From S2P Require Import EnrollmentFacts.
From Stdlib Require Import Strings.Byte.
From stdpp Require Import prelude gmap list sorting strings relations.

#[local] Open Scope Z_scope.

(** * Calls *)

Section calls.
Context {P : Primitives} {B : Base64} {E : Ed25519Points}.

(** The calls that leave every client's key alone. *)
Inductive quiet_call (s : DynamicClientStore) : DynamicClientStore → Prop :=
| qc_create name random clock : quiet_call s (create_client s name random clock).1
| qc_create_with_token name addr fp ttl token salt random clock :
  quiet_call s (create_client_with_token s name addr fp ttl token salt random clock).1
| qc_rename id name expected clock : quiet_call s (rename_client s id name expected clock).1
| qc_issue id purpose addr fp ttl expected token salt clock :
  quiet_call s (issue_token s id purpose addr fp ttl expected token salt clock).1
| qc_enable id enabled expected clock : quiet_call s (set_client_enabled s id enabled expected clock).1
| qc_delete id expected clock : quiet_call s (delete_client s id expected clock).1
| qc_profile id name ip clock : quiet_call s (update_profile s id name ip clock).1
| qc_static static_clients : quiet_call s (validate_static_collisions s static_clients).1.

Inductive store_call (s : DynamicClientStore) : DynamicClientStore → Prop :=
| sc_quiet s' : quiet_call s s' → store_call s s'
| sc_request name uid profile purpose key request now random clock :
  store_call s (request_approval_inner s name uid profile purpose key request now random clock).1
| sc_purge older limit clock : store_call s (purge_tombstones s older limit clock).1
| sc_consume key pk request now clock : store_call s (consume_token s key pk request now clock).1
| sc_review request approve random clock : store_call s (review_approval s request approve random clock).1.

Lemma quiet_call_steps s s' :
  quiet_call s s' → rtc (quiet_step (limits s)) (db s) (db s') ∧ limits s' = limits s.
Proof.
  destruct 1; (split; [|try apply commit_static]).
  all: try by auto using create_client_steps, create_client_with_token_steps, rename_client_steps,
    issue_token_steps, set_client_enabled_steps, delete_client_steps, update_profile_steps.
  all: unfold validate_static_collisions; by case_match.
Qed.

Lemma store_call_steps s s' :
  store_call s s' → rtc (db_step (limits s)) (db s) (db s') ∧ limits s' = limits s.
Proof.
  destruct 1 as [s' H| | | |]; [|split; [|apply commit_static]..].
  - apply quiet_call_steps in H as [H ?]. split; [|done].
    eapply rtc_subrel; [|exact H]. intros x y Hxy. by left.
  - eapply rtc_subrel; [|apply request_approval_steps]. intros x y Hxy. by right; left.
  - eapply rtc_subrel; [|apply purge_tombstones_steps]. intros x y Hxy. by do 2 right; left.
  - apply consume_token_steps.
  - apply review_approval_steps.
Qed.

Lemma store_calls_steps s s' :
  rtc store_call s s' → rtc (db_step (limits s)) (db s) (db s') ∧ limits s' = limits s.
Proof.
  induction 1 as [|s s1 s2 H _ [IH Hl]]; [done|]. apply store_call_steps in H as [H Hl'].
  rewrite Hl' in *. split; [by etrans|done].
Qed.
End calls.

(** * The invariant *)

(** A unique column. *)
Definition unique_on {X} (g : ClientRow → option X) (m : gmap (list byte) ClientRow) : Prop :=
  ∀ i j a b x, m !! i = Some a → m !! j = Some b → g a = Some x → g b = Some x → i = j.

Definition token_wf (t : TokenRow) (c : ClientRow) : Prop :=
  1 ≤ t_issued_revision t ≤ c_revision c ∧
  match t_consumed_at t with
  | Some _ => is_Some (t_request_id t) ∧ is_Some (t_result_public_key t) ∧
      t_result_revision t = Some (t_issued_revision t + 1) ∧ t_issued_revision t < c_revision c
  | None => True
  end.

Record db_wf (lim : EnrollmentStoreLimits) (d : Db) : Prop := {
  wf_client id c : clients d !! id = Some c →
    c_normalized_id c = to_ascii_lowercase (c_display_id c) ∧ 1 ≤ c_revision c ≤ i64_max
    ∧ (c_tombstoned c = true → c_enabled c = false);
  wf_names : unique_on (Some ∘ c_normalized_id) (clients d);
  wf_keys : unique_on c_public_key (clients d);
  wf_active : active_clients d ≤ max_active_clients lim;
  wf_token selector t : tokens d !! selector = Some t →
    ∃ c, clients d !! t_target_id t = Some c ∧ token_wf t c;
  wf_tokens : active_tokens d ≤ max_tokens lim;
  wf_registrations : (size (registrations d) ≤ 4096)%nat;
  wf_audit : blen (audit_log d) ≤ MAX_AUDIT_RECORDS;
}.

Lemma unique_insert {X} (g : ClientRow → option X) m id v :
  unique_on g m → (∀ k c x, m !! k = Some c → k ≠ id → g v = Some x → g c ≠ Some x) →
  unique_on g (<[id := v]> m).
Proof.
  intros Hu Hv i j a b x Hi Hj Ha Hb.
  destruct (decide (i = id)) as [->|Hi']; destruct (decide (j = id)) as [->|Hj']; [done|..];
    rewrite ?lookup_insert_eq in *; rewrite ?lookup_insert_ne in * by done; simplify_eq.
  - exfalso. by eapply (Hv j).
  - exfalso. by eapply (Hv i).
  - by eapply Hu.
Qed.
Lemma unique_replace {X} (g : ClientRow → option X) m id u v :
  unique_on g m → m !! id = Some u → g v = g u → unique_on g (<[id := v]> m).
Proof.
  intros Hu Hid Hg. apply unique_insert; [done|]. intros k c x Hk Hne Hv Hc. rewrite Hg in Hv.
  apply Hne. by eapply Hu.
Qed.
Lemma unique_delete {X} (g : ClientRow → option X) m id : unique_on g m → unique_on g (delete id m).
Proof. intros Hu i j a b x [_ Hi]%lookup_delete_Some [_ Hj]%lookup_delete_Some. by eapply Hu. Qed.

Lemma empty_wf lim : 0 ≤ max_active_clients lim → 0 ≤ max_tokens lim → db_wf lim empty_db.
Proof.
  intros ? ?. assert (∀ X (g : _ → option X), unique_on g ∅) as Hu.
  { intros X g i j a b x Hi. by rewrite lookup_empty in Hi. }
  split; simpl; [|apply Hu|apply Hu|done| |done|rewrite map_size_empty; lia|done]; intros ? ? Hi; by rewrite lookup_empty in Hi.
Qed.

Section wf.
Context (lim : EnrollmentStoreLimits).
Implicit Types d : Db.

(** A row is written over another: the revision does not go down. *)
Lemma wf_write d id c c' :
  db_wf lim d → clients d !! id = Some c →
  c_normalized_id c' = to_ascii_lowercase (c_display_id c') →
  c_revision c ≤ c_revision c' ≤ i64_max → (c_tombstoned c' = true → c_enabled c' = false) →
  (c_normalized_id c' = c_normalized_id c ∨ normalized_taken (clients d) id (c_normalized_id c') = false) →
  (c_public_key c' = c_public_key c ∨ ∃ k, c_public_key c' = Some k ∧ key_taken (clients d) id k = false) →
  (is_active_row c' = true → is_active_row c = true ∨ active_clients d < max_active_clients lim) →
  db_wf lim (with_client_rows d (<[id := c']> (clients d))).
Proof.
  intros Hw Hc Hn Hr Ht Hname Hkey Hact. destruct Hw. split; simpl; try done.
  - intros k v [[<- <-]|[_ Hv]]%lookup_insert_Some; [|by eapply wf_client0].
    apply wf_client0 in Hc as (_&?&_). split; [done|]. split; [lia|done].
  - destruct Hname as [He|Hf]; [eapply unique_replace; [done..|]; simpl; by rewrite He|].
    apply unique_insert; [done|]. intros k v x Hk Hne [= <-] [= He].
    by eapply (proj1 (normalized_free _ _ _) Hf).
  - destruct Hkey as [He|(key&He&Hf)]; [by eapply unique_replace|].
    apply unique_insert; [done|]. intros k v x Hk Hne Hv. rewrite He in Hv. injection Hv as <-.
    by eapply (proj1 (key_free _ _ _) Hf).
  - unfold active_clients in *. simpl. rewrite (sql_count_replace _ _ _ c) by done.
    unfold b2z. destruct (is_active_row c') eqn:E'; [|by destruct (is_active_row c); lia].
    destruct (Hact eq_refl) as [->|?]; [lia|]. destruct (is_active_row c); lia.
  - intros sel t Hs. destruct (wf_token0 _ _ Hs) as (v&Hv&[Hi Hcons]).
    destruct (decide (t_target_id t = id)) as [He|He].
    + subst id. simplify_eq. exists c'. rewrite lookup_insert_eq. split; [done|].
      split; [lia|]. destruct (t_consumed_at t); [|done]. destruct Hcons as (?&?&?&?).
      repeat (split; [done|]). lia.
    + exists v. by rewrite lookup_insert_ne.
Qed.

(** A client is created. *)
Lemma wf_create d d' id name key now display :
  db_wf lim d → insert_client d id (new_client name key now display) = Some d' →
  active_clients d < max_active_clients lim → db_wf lim d'.
Proof.
  intros Hw Hi Hcap. unfold insert_client in Hi. destruct (_ || _) eqn:Et; [done|]. injection Hi as <-.
  apply orb_false_iff in Et as [Et Hkey]. apply orb_false_iff in Et as [Hid Hname].
  apply bool_decide_eq_false, eq_None_not_Some in Hid. destruct Hw. split; simpl; try done.
  - intros k v [[<- <-]|[_ Hv]]%lookup_insert_Some; [|by eapply wf_client0]. simpl. done.
  - apply unique_insert; [done|]. intros k v x Hk Hne [= <-] [= He].
    by eapply (proj1 (normalized_free _ _ _) Hname).
  - apply unique_insert; [done|]. intros k v x Hk Hne Hv. simpl in Hv. rewrite Hv in Hkey.
    by eapply (proj1 (key_free _ _ _) Hkey).
  - unfold active_clients in *. simpl. rewrite sql_count_insert by done. simpl. lia.
  - intros sel t Hs. destruct (wf_token0 _ _ Hs) as (v&Hv&?). exists v. split; [|done].
    rewrite lookup_insert_ne; [done|]. intros He. congruence.
Qed.

Lemma wf_revise d id c c' :
  db_wf lim d → clients d !! id = Some c → row_revised lim d id c c' →
  (c_public_key c' = c_public_key c ∨ ∃ k, c_public_key c' = Some k ∧ key_taken (clients d) id k = false) →
  db_wf lim (with_client_rows d (<[id := c']> (clients d))).
Proof.
  intros Hw Hc [[Hr Hle] Hn Ht Ha] Hk. pose proof (wf_client _ _ Hw _ _ Hc) as (Hnc&?&_).
  eapply wf_write; try done.
  - destruct Hn as [[-> ->]|[? _]]; done.
  - lia.
  - destruct Hn as [[_ ->]|[_ ?]]; auto.
Qed.
End wf.

Lemma wf_audit_record lim d d' event target clock :
  db_wf lim d → audit d event target clock = Ok d' → db_wf lim d'.
Proof.
  intros Hw Ha. unfold audit in Ha. tx. destruct Hw. split; simpl; try done.
  unfold blen, MAX_AUDIT_RECORDS in *. rewrite length_app, length_drop. simpl. lia.
Qed.

Lemma wf_quiet lim d d' : db_wf lim d → quiet_step lim d d' → db_wf lim d'.
Proof.
  intros Hw. destruct 1 as [d d' id name now display Hi Hcap|d id c c' Hc Hr Hk|d id c name ip now Hc Ha|d p Hp
    |d d' prepared purpose target c expires Hc Ha Hm Hcap Hi|d d' event target clock Ha].
  - by eapply wf_create.
  - eapply wf_revise; [done..|]. by left.
  - pose proof (wf_client _ _ Hw _ _ Hc) as (?&?&Ht). eapply wf_write; try done; simpl; [lia|by left..|by left].
  - destruct Hw. split; simpl; try done.
    + intros sel t Hs. rewrite lookup_sql_update in Hs. destruct (tokens d !! sel) as [u|] eqn:Eu; [|done].
      simpl in Hs. injection Hs as <-. apply wf_token0 in Eu as (c&Hc&Hwf). exists c.
      by destruct (p u).
    + etrans; [|exact wf_tokens0]. apply sql_count_update. intros t. unfold is_open_token. simpl.
      by rewrite andb_false_r.
  - unfold insert_token in Hi. case_match eqn:Es; [done|]. injection Hi as <-.
    apply bool_decide_eq_false, eq_None_not_Some in Es.
    pose proof (wf_client _ _ Hw _ _ Hc) as (_&?&_). destruct Hw. split; simpl; try done.
    + intros sel t [[<- <-]|[_ Hs]]%lookup_insert_Some; [|by eapply wf_token0].
      exists c. split; [done|]. split; simpl; [lia|done].
    + unfold active_tokens in *. simpl. rewrite sql_count_insert by done. simpl. lia.
  - by eapply wf_audit_record.
Qed.

Lemma wf_request lim d d' : db_wf lim d → request_step d d' → db_wf lim d'.
Proof.
  intros Hw. destruct 1 as [d m Hm|d d' event target clock Ha]; [|by eapply wf_audit_record].
  destruct Hw. split; simpl; try done. lia.
Qed.

Lemma wf_purge lim d d' : db_wf lim d → purge_step d d' → db_wf lim d'.
Proof.
  intros Hw. destruct 1 as [d target Hd|d d' event target clock Ha]; [|by eapply wf_audit_record].
  - destruct Hw. split; simpl; try done.
    + intros k c [_ Hk]%lookup_delete_Some. by eapply wf_client0.
    + by apply unique_delete.
    + by apply unique_delete.
    + unfold active_clients in *. simpl. destruct (clients d !! target) as [c|] eqn:Ec.
      * rewrite (sql_count_delete _ _ _ c) by done. unfold b2z. case_match; lia.
      * by rewrite delete_id.
    + intros sel t [Hs Hne]%map_lookup_filter_Some. simpl in Hne.
      apply wf_token0 in Hs as (c&Hc&?). exists c. by rewrite lookup_delete_ne.
    + etrans; [|exact wf_tokens0]. apply sql_count_filter.
Qed.

Lemma wf_binding lim d d' : db_wf lim d → binding_step lim d d' → db_wf lim d'.
Proof.
  intros Hw. destruct 1 as [d sel t c purpose now at_ request key Ht Hc Hn Ha Hk Hr|d d' id name key now display Hi Hcap
    |d id c c' key Hc Hr Hkey Hf].
  - apply admit_token_Ok in Ha as (_&Hact&_&Hrev&_&_).
    pose proof (wf_client _ _ Hw _ _ Hc) as (?&?&Htomb).
    pose proof (wf_token _ _ Hw _ _ Ht) as (c0&Hc0&[Hi _]). simplify_eq.
    assert (db_wf lim (with_client_rows d (<[t_target_id t := bind_row key (c_revision c + 1) c]> (clients d)))) as Hw'.
    { eapply wf_write; try done; simpl; [lia|by left|right; by eexists|by left]. }
    destruct Hw'. split; simpl in *; try done.
    + intros k u [[<- <-]|[_ Hk']]%lookup_insert_Some; [|by eapply wf_token0].
      exists (bind_row key (c_revision c + 1) c). simpl. rewrite lookup_insert_eq. split; [done|].
      split; simpl; [lia|]. split; [by eexists|]. split; [by eexists|]. split; [f_equal; lia|lia].
    + unfold active_tokens in *. simpl in *. rewrite (sql_count_replace _ _ _ t) by done.
      unfold b2z. unfold is_open_token at 3. simpl. case_match; lia.
  - by eapply wf_create.
  - eapply wf_revise; [done..|]. right. by eexists.
Qed.

Lemma wf_steps lim d d' : db_wf lim d → rtc (db_step lim) d d' → db_wf lim d'.
Proof.
  intros Hw. induction 1 as [|d d1 d2 [H|[H|[H|H]]] _ IH]; [done|..]; apply IH;
    [by eapply wf_quiet|by eapply wf_request|by eapply wf_purge|by eapply wf_binding].
Qed.

(** * How rows change over time

    A redeemed token keeps its result, revisions of a client only grow, and keys are given by two
    methods only. *)


(** * Tokens *)

(** The same token, revoked or consumed in between if it had not been consumed. *)
Definition token_le (t t' : TokenRow) : Prop :=
  t_target_id t' = t_target_id t ∧ t_issued_revision t' = t_issued_revision t ∧
  (t_consumed_at t ≠ None → t' = t).
(** The same client at a later revision, or at the same one with the same identity. *)
Definition client_le (c c' : ClientRow) : Prop :=
  c_revision c < c_revision c' ∨
  (c_revision c' = c_revision c ∧ c_display_id c' = c_display_id c ∧ c_public_key c' = c_public_key c
   ∧ c_enabled c' = c_enabled c ∧ c_tombstoned c' = c_tombstoned c).

#[export] Instance token_le_preorder : PreOrder token_le.
Proof.
  split; [by intros t|]. intros t u v (H1&H2&H3) (H4&H5&H6). split; [congruence|]. split; [congruence|].
  intros Hc. rewrite <- (H3 Hc). apply H6. by rewrite (H3 Hc).
Qed.
#[export] Instance client_le_preorder : PreOrder client_le.
Proof.
  split; [intros c; by right|]. unfold client_le. intros a b c H1 H2.
  destruct H1 as [H1|(H1&?&?&?&?)], H2 as [H2|(H2&?&?&?&?)]; [left; lia..|right].
  repeat split; congruence.
Qed.

(** A token is consumed only while its client is at the revision it was issued for. *)
Definition token_step (d : Db) (t t' : TokenRow) : Prop :=
  token_le t t' ∧
  (t_consumed_at t = None → t_consumed_at t' ≠ None →
   ∀ c, clients d !! t_target_id t = Some c → c_revision c ≤ t_issued_revision t).
Lemma token_step_refl d t : token_step d t t.
Proof. by split. Qed.
Lemma client_le_refl c : client_le c c.
Proof. done. Qed.
#[local] Hint Resolve token_step_refl client_le_refl : core.

(** Nothing is deleted, and every row is a later one. *)
Definition rows_le (d d' : Db) : Prop :=
  (∀ k t, tokens d !! k = Some t → ∃ t', tokens d' !! k = Some t' ∧ token_step d t t') ∧
  (∀ k c, clients d !! k = Some c → ∃ c', clients d' !! k = Some c' ∧ client_le c c').
#[export] Instance rows_le_preorder : PreOrder rows_le.
Proof.
  split; [intros d; split; intros k x Hx; exists x; auto|]. intros a b c [H1 H2] [H3 H4]. split; intros k x Hx.
  - apply H1 in Hx as (y&Hy&Hxy&Hcx). apply H3 in Hy as (z&Hz&Hyz&Hcy). exists z. split; [done|].
    split; [by etrans|]. intros Hnx Hcz cl Hcl. destruct (decide (t_consumed_at y = None)) as [Hny|Hny]; [|by eauto].
    destruct (H2 _ _ Hcl) as (cl'&Hcl'&Hle). destruct Hxy as (He1&He2&_). rewrite <- He1 in Hcl'.
    specialize (Hcy Hny Hcz _ Hcl'). destruct Hle as [?|[? _]]; lia.
  - apply H2 in Hx as (y&Hy&Hxy). apply H4 in Hy as (z&Hz&Hyz). exists z. split; [done|by etrans].
Qed.
(** Rows only go away, the tokens of a client before the client. *)
Definition rows_purged (d d' : Db) : Prop :=
  clients d' ⊆ clients d ∧ tokens d' ⊆ tokens d ∧
  ∀ k t, tokens d' !! k = Some t → clients d' !! t_target_id t = clients d !! t_target_id t.
#[export] Instance rows_purged_preorder : PreOrder rows_purged.
Proof.
  split; [by intros d|]. intros a b c (H1&H2&H3) (H4&H5&H6). split; [by etrans|]. split; [by etrans|].
  intros k t Ht. rewrite (H6 _ _ Ht). eapply H3, lookup_weaken, H5. done.
Qed.

(** A row written over another. *)
Lemma rows_write d id c c' :
  clients d !! id = Some c → client_le c c' → rows_le d (with_client_rows d (<[id := c']> (clients d))).
Proof.
  intros Hc Hle. split; simpl; [intros k t Ht; exists t; auto|]. intros k x Hx.
  destruct (decide (k = id)) as [->|Hk].
  - rewrite lookup_insert_eq. simplify_eq. by exists c'.
  - rewrite lookup_insert_ne by done. by exists x.
Qed.
Lemma rows_create d id v : clients d !! id = None → rows_le d (with_client_rows d (<[id := v]> (clients d))).
Proof.
  intros Hn. split; simpl; [intros k t Ht; exists t; auto|]. intros k x Hx. exists x. split; [|done].
  rewrite lookup_insert_ne; [done|]. intros ->. congruence.
Qed.
Lemma insert_client_Some d id c d' :
  insert_client d id c = Some d' → clients d !! id = None ∧ d' = with_client_rows d (<[id := c]> (clients d)).
Proof.
  unfold insert_client. destruct (_ || _) eqn:E; [done|]. intros [= <-]. split; [|done].
  apply orb_false_iff in E as [E _]. apply orb_false_iff in E as [E _].
  by apply bool_decide_eq_false, eq_None_not_Some in E.
Qed.

Lemma quiet_rows lim d d' : quiet_step lim d d' → rows_le d d'.
Proof.
  destruct 1 as [d d' id name now display Hi Hcap|d id c c' Hc [[Hr _] _ _ _] Hk|d id c name ip now Hc Ha|d p Hp
    |d d' prepared purpose target c expires Hc Ha Hm Hcap Hi|d d' event target clock Ha].
  - apply insert_client_Some in Hi as [Hn ->]. by apply rows_create.
  - eapply rows_write; [done|]. left. lia.
  - eapply rows_write; [done|]. by right.
  - split; simpl; [|intros k c Hc; by exists c]. intros k t Ht. rewrite lookup_sql_update, Ht. simpl.
    eexists. split; [done|]. destruct (p t) eqn:E; [|auto]. apply Hp in E. split; [|simpl; congruence].
    split; [done|]. by split.
  - unfold insert_token in Hi. case_match eqn:Es; [done|]. injection Hi as <-.
    apply bool_decide_eq_false, eq_None_not_Some in Es.
    split; simpl; [|intros k v Hv; by exists v]. intros k t Ht. exists t. split; [|auto].
    rewrite lookup_insert_ne; [done|]. congruence.
  - apply audit_clients in Ha as (Hc&Ht&_). split; rewrite ?Hc, ?Ht; intros k x Hx; exists x; auto.
Qed.

Lemma request_rows d d' : request_step d d' → rows_le d d'.
Proof.
  destruct 1 as [d m Hm|d d' event target clock Ha]; [split; simpl; intros k x Hx; exists x; auto|].
  apply audit_clients in Ha as (Hc&Ht&_). split; rewrite ?Hc, ?Ht; intros k x Hx; exists x; auto.
Qed.

Lemma binding_rows lim d d' : binding_step lim d d' → rows_le d d'.
Proof.
  destruct 1 as [d sel t c purpose now at_ request key Ht Hc Hn Ha Hk Hr|d d' id name key now display Hi Hcap
    |d id c c' key Hc [[Hr _] _ _ _] Hkey Hf].
  - split; simpl; [|by apply (rows_write d _ c (bind_row key (c_revision c + 1) c)); [|left; simpl; lia]].
    intros k u Hu. destruct (decide (k = sel)) as [->|Hks].
    + rewrite lookup_insert_eq. eexists. split; [done|]. simplify_eq. split; [by repeat (split; [done|])|].
      intros _ _ cl Hcl. apply admit_token_Ok in Ha as (_&_&_&Hrev&_). simplify_eq. lia.
    + rewrite lookup_insert_ne by done. exists u. auto.
  - apply insert_client_Some in Hi as [Hn ->]. by apply rows_create.
  - eapply rows_write; [done|]. left. lia.
Qed.

Lemma purge_rows d d' : purge_step d d' → rows_purged d d'.
Proof.
  destruct 1 as [d target Hd|d d' event target clock Ha].
  - split; [apply delete_subseteq|]. split; [apply map_filter_subseteq|].
    simpl. intros k t [_ Hne]%map_lookup_filter_Some. simpl in Hne. by rewrite lookup_delete_ne.
  - apply audit_clients in Ha as (Hc&Ht&_). unfold rows_purged. by rewrite Hc, Ht.
Qed.

(** * Calls *)

Section calls.
Context {P : Primitives} {B : Base64} {E : Ed25519Points}.
Implicit Types s : DynamicClientStore.

(** Between calls rows are later ones, or a purge has deleted some. *)
Lemma call_rows s s' :
  store_call s s' → rows_le (db s) (db s') ∨ rows_purged (db s) (db s').
Proof.
  assert (∀ lim d d', rtc (λ x y, quiet_step lim x y ∨ request_step x y ∨ binding_step lim x y) d d' → rows_le d d') as Hle.
  { induction 1 as [|x y z [H|[H|H]] _ IH]; [done|..]; (etrans; [|exact IH]);
      [by eapply quiet_rows|by eapply request_rows|by eapply binding_rows]. }
  assert (∀ d d', rtc purge_step d d' → rows_purged d d') as Hp.
  { induction 1 as [|x y z H _ IH]; [done|]. etrans; [by apply purge_rows|done]. }
  destruct 1 as [s' H|name uid profile purpose key request now random clock|older limit clock|key pk request now clock|request approve random clock].
  - apply quiet_call_steps in H as [H _]. left. eapply Hle, rtc_subrel; [|exact H]. by left.
  - left. apply (Hle (limits s)). eapply rtc_subrel; [|apply request_approval_steps]. by right; left.
  - right. apply Hp, purge_tombstones_steps.
  - left. unfold consume_token. destruct (consume_tx _ _ _ _ _ _) as [[d a]| |] eqn:Et; [|done..].
    apply consume_tx_Ok in Et as (m&t&c&secs&_&_&(Ht&Hc&_)&_&[(_&_&_&->&_)|(Hn&Ha&Hk&Hr&_&ev&Hau)]); [done|].
    apply (Hle (limits s)). eapply rtc_l; [do 2 right; by eapply ds_consume|].
    apply rtc_once. left. by eapply audit_step.
  - left. unfold review_approval. destruct (review_tx _ _ _ _ _) as [[d a]| |] eqn:Et; [|done..].
    apply review_tx_Ok in Et as (r&Hr&[(_&->&_)|[(_&_&_&clk&Ha)|(_&_&now&d1&rev&clk&_&_&Hw&Ha&_)]]); [done| |];
      apply (Hle (limits s)).
    + eapply rtc_l; [right; left; by eapply registration_row_step|]. apply rtc_once. left. by eapply audit_step.
    + pose proof (proj1 (review_writes_step _ _ _ _ Hw)) as Hreg.
      transitivity d1.
      * destruct Hw as [(id&c&now'&_&Hc&_&_&Hrr&Hk&->)|(id&now'&_&_&Hcap&Hi)].
        -- eapply rtc_l; [do 2 right; by eapply ds_rebind|]. apply rtc_once. left.
           apply ds_revoke. intros t Ht. by bools.
        -- apply rtc_once. do 2 right. by eapply ds_admit.
      * eapply rtc_l; [right; left; eapply registration_row_step; by rewrite Hreg|].
        apply rtc_once. left. by eapply audit_step.
Qed.

(** ** One token over time *)

(** A call that does not issue the key with this digest: the digests of two keys with fresh
    random bytes differ. *)
Definition call_without (selector : list byte) s s' : Prop :=
  store_call s s' ∧ (tokens (db s) !! selector = None → tokens (db s') !! selector = None).

Lemma token_over_time selector s s' t :
  rtc (call_without selector) s s' → tokens (db s) !! selector = Some t →
  match tokens (db s') !! selector with Some t' => token_le t t' | None => True end.
Proof.
  assert (∀ x y, rtc (call_without selector) x y → tokens (db x) !! selector = None →
            tokens (db y) !! selector = None) as Hnone.
  { induction 1 as [|x y z [_ H] _ IH]; auto. }
  intros Hr. revert t; induction Hr as [s|s s1 s2 [Hc Hfresh] Hr IH]; intros t Ht; [by rewrite Ht|].
  destruct (tokens (db s1) !! selector) as [t1|] eqn:E1; [|by rewrite (Hnone _ _ Hr E1)].
  specialize (IH t1 eq_refl). destruct (tokens (db s2) !! selector) as [t2|]; [|done].
  etrans; [|exact IH]. destruct (call_rows _ _ Hc) as [[Htok _]|(_&Hsub&_)].
  - apply Htok in Ht as (t'&Ht'&?&_). by simplify_eq.
  - eapply lookup_weaken in E1; [|exact Hsub]. by simplify_eq.
Qed.

(** A token that can never be redeemed: gone, or unused and its client has moved on. *)
Definition token_dead (selector : list byte) s : Prop :=
  match tokens (db s) !! selector with
  | Some t => t_consumed_at t = None ∧
      ∃ c, clients (db s) !! t_target_id t = Some c ∧ t_issued_revision t < c_revision c
  | None => True
  end.

Lemma token_dead_call selector s s' :
  call_without selector s s' → token_dead selector s → token_dead selector s'.
Proof.
  intros [Hc Hfresh] Hd. unfold token_dead in *.
  destruct (tokens (db s) !! selector) as [t|] eqn:Ht; [|by rewrite Hfresh].
  destruct Hd as (Hn&c&Hcc&Hlt).
  destruct (call_rows _ _ Hc) as [[Htok Hcl]|(Hsub1&Hsub2&Hsame)].
  - apply Htok in Ht as (t'&->&(He1&He2&_)&Hcons).
    destruct (decide (t_consumed_at t' = None)) as [Hn'|Hn']; [|by specialize (Hcons Hn Hn' _ Hcc); lia].
    split; [done|]. apply Hcl in Hcc as (c'&Hc'&Hle). exists c'.
    rewrite He1, He2. split; [done|]. destruct Hle as [?|[-> _]]; lia.
  - destruct (tokens (db s') !! selector) as [t'|] eqn:Ht'; [|done].
    pose proof (lookup_weaken _ _ _ _ Ht' Hsub2) as Ht2. simplify_eq. split; [done|].
    exists c. by rewrite (Hsame _ _ Ht').
Qed.
Lemma token_dead_calls selector s s' :
  rtc (call_without selector) s s' → token_dead selector s → token_dead selector s'.
Proof. induction 1; eauto using token_dead_call. Qed.

Lemma ekm_decode_no_panic key : ekm_decode key ≠ Panic.
Proof.
  assert (∀ a, canonical_enrollment_server_addr a ≠ Panic) as Hcan.
  { assert (∀ p, validate_port p ≠ Panic) as Hv.
    { intros p. unfold validate_port. destruct p as [p|]; simpl; [|done].
      destruct (from_str_radix _ _ p); simpl; [|done]. by case_match. }
    intros a. set (g := '(host, port) ← ok_or (rsplit_once x3a a) InvalidAddress;
      if host_invalid host then Err InvalidAddress
      else port ← validate_port (Some port); Ok (to_ascii_lowercase host ++ x3a :: to_decimal port)).
    assert (g ≠ Panic) as Hg.
    { unfold g. destruct (rsplit_once x3a a) as [[h p]|]; simpl; [|done]. case_match; [done|].
      by apply res_bind_no_panic. }
    destruct a as [|b a]; [done|]. unfold canonical_enrollment_server_addr.
    destruct b; try exact Hg. destruct (split_once x5d a) as [[h p]|]; simpl; [|done].
    apply res_bind_no_panic; [done|]. intros v _. by destruct (IpText.parse_ipv6 h). }
  assert (∀ c, decode_checksum c ≠ Panic) as Hd.
  { assert (∀ n c, (length c ≤ n)%nat → decode_checksum c ≠ Panic) as Hn; [|eauto].
    induction n as [|n IH]; intros [|a [|b c]]; simpl; try done; [lia|]. intros Hl.
    case_match; [|done]. apply res_bind_no_panic; [apply ok_or_no_panic|]. intros v _.
    apply res_bind_no_panic; [apply IH; lia|done]. }
  unfold ekm_decode. case_match; [done|]. apply res_bind_no_panic; [apply ok_or_no_panic|]. intros r _.
  apply res_bind_no_panic; [apply ok_or_no_panic|]. intros [pe ce] _. case_match; [done|].
  apply res_bind_no_panic; [apply ok_or_no_panic|]. intros payload _.
  apply res_bind_no_panic; [done|]. intros c _. case_match; [|done].
  unfold ekm_decode_payload. destruct (blen payload <? _) eqn:El; [done|]. apply Z.ltb_ge in El.
  unfold SECRET_BYTES, blen in El. destruct payload as [|x1 [|x2 [|x3 pl]]]; simpl in El; try lia.
  apply res_bind_no_panic; [by destruct x1|]. intros p _. repeat (case_match; try done).
  unfold EnrollmentKeyMaterial_new. by apply res_bind_no_panic.
Qed.

(** ** Keys *)

(** Every key of a client was its key before. *)
Definition keys_from (d d' : Db) : Prop :=
  ∀ id c' k, clients d' !! id = Some c' → c_public_key c' = Some k →
    ∃ c, clients d !! id = Some c ∧ c_public_key c = Some k.
Lemma keys_from_refl d : keys_from d d.
Proof. intros id c k Hc Hk. by exists c. Qed.
Lemma keys_from_trans d1 d2 d3 : keys_from d1 d2 → keys_from d2 d3 → keys_from d1 d3.
Proof. intros H1 H2 id c k Hc Hk. destruct (H2 _ _ _ Hc Hk) as (c2&Hc2&Hk2). by eapply H1. Qed.
Lemma keys_from_clients d d' : clients d' = clients d → keys_from d d'.
Proof. intros He id c k. rewrite He. intros Hc Hk. by exists c. Qed.
Lemma keys_from_write d id c c' :
  clients d !! id = Some c → c_public_key c' = c_public_key c →
  keys_from d (with_client_rows d (<[id := c']> (clients d))).
Proof.
  intros Hc Hk k v key Hv Hkey. simpl in Hv. apply lookup_insert_Some in Hv as [[<- <-]|[_ Hv]]; [|by exists v].
  exists c. by rewrite <- Hk.
Qed.

Lemma quiet_keys lim d d' : quiet_step lim d d' → keys_from d d'.
Proof.
  destruct 1 as [d d' id name now display Hi Hcap|d id c c' Hc Hr Hk|d id c name ip now Hc Ha|d p Hp
    |d d' prepared purpose target c expires Hc Ha Hm Hcap Hi|d d' event target clock Ha].
  - apply insert_client_Some in Hi as [_ ->].
    intros k v key Hv Hkey. simpl in Hv. apply lookup_insert_Some in Hv as [[<- <-]|[_ Hv]]; [done|by exists v].
  - by eapply keys_from_write.
  - by eapply keys_from_write.
  - by apply keys_from_clients.
  - unfold insert_token in Hi. case_match; [done|]. injection Hi as <-. by apply keys_from_clients.
  - apply audit_clients in Ha as (Hc&_&_). by apply keys_from_clients.
Qed.
Lemma request_keys d d' : request_step d d' → keys_from d d'.
Proof.
  destruct 1 as [d m Hm|d d' event target clock Ha]; [by apply keys_from_clients|].
  apply audit_clients in Ha as (Hc&_&_). by apply keys_from_clients.
Qed.
Lemma purge_keys d d' : purge_step d d' → keys_from d d'.
Proof.
  intros [Hs _]%purge_rows id c k Hc Hk. exists c. split; [by eapply lookup_weaken|done].
Qed.
Lemma keys_from_rtc (R : relation Db) d d' :
  (∀ x y, R x y → keys_from x y) → rtc R d d' → keys_from d d'.
Proof.
  intros HR. induction 1 as [|x y z H _ IH]; [apply keys_from_refl|].
  eapply keys_from_trans; [by apply HR|done].
Qed.

(** The client a key was given to by the approval of a registration. *)
Lemma review_writes_keys s r d1 revision id c k :
  review_writes s r d1 revision → clients d1 !! id = Some c → c_public_key c = Some k →
  k = r_public_key r ∨ ∃ c0, clients (db s) !! id = Some c0 ∧ c_public_key c0 = Some k.
Proof.
  intros [(i&ci&now&_&Hci&_&_&_&_&->)|(i&now&_&_&_&Hi)] Hc Hk.
  - simpl in Hc. apply lookup_insert_Some in Hc as [[<- <-]|[_ Hc]]; [left|right; by exists c].
    simpl in Hk. by injection Hk.
  - apply insert_client_Some in Hi as [_ ->]. simpl in Hc.
    apply lookup_insert_Some in Hc as [[<- <-]|[_ Hc]]; [left|right; by exists c].
    simpl in Hk. by injection Hk.
Qed.

(** ** Registrations *)

Lemma quiet_registrations lim d d' : quiet_step lim d d' → registrations d' = registrations d.
Proof.
  destruct 1 as [d d' id name now display Hi Hcap|d id c c' Hc Hr Hk|d id c name ip now Hc Ha|d p Hp
    |d d' prepared purpose target c expires Hc Ha Hm Hcap Hi|d d' event target clock Ha]; try done.
  - by apply insert_client_Some in Hi as [_ ->].
  - unfold insert_token in Hi. case_match; [done|]. by injection Hi as <-.
  - by apply audit_clients in Ha as (_&_&?).
Qed.
Lemma purge_registrations d d' : purge_step d d' → registrations d' = registrations d.
Proof.
  destruct 1 as [d target Hd|d d' event target clock Ha]; [done|]. by apply audit_clients in Ha as (_&_&?).
Qed.
Lemma registrations_rtc (R : relation Db) d d' :
  (∀ x y, R x y → registrations y = registrations x) → rtc R d d' → registrations d' = registrations d.
Proof. intros HR. induction 1 as [|x y z H _ IH]; [done|]. by rewrite IH, (HR _ _ H). Qed.

(** The same request, perhaps extended. *)
Definition same_request (r r' : RegistrationRow) : Prop :=
  r_display_id r' = r_display_id r ∧ r_public_key r' = r_public_key r ∧ r_purpose r' = r_purpose r ∧
  r_target_id r' = r_target_id r ∧ r_expected_revision r' = r_expected_revision r ∧
  r_profile_name r' = r_profile_name r ∧ r_requested_uid r' = r_requested_uid r.

Lemma request_registrations s name uid profile purpose key request now random clock k r r' :
  let s' := (request_approval_inner s name uid profile purpose key request now random clock).1 in
  registrations (db s) !! k = Some r → registrations (db s') !! k = Some r' →
  same_request r r' ∧ r_status r' = r_status r ∧ r_result_revision r' = r_result_revision r.
Proof.
  assert (∀ x : RegistrationRow, same_request x x ∧ r_status x = r_status x ∧ r_result_revision x = r_result_revision x)
    as Hrefl by done.
  intros s' Hr Hr'. subst s'. unfold request_approval_inner, commit in Hr'.
  destruct (_ ≫= _) as [[d a]| |] eqn:H in Hr'; simpl in Hr'; [|by simplify_eq..]. tx.
  destruct (registrations (db s) !! request) as [q|] eqn:Hq.
  - unfold repeat_request in H. tx. destruct (r_status q =? APPROVED).
    + destruct (routed_client _ _ _) as [[id c]|]; [|done]. tx. by simplify_eq.
    + destruct (r_expires_at q <=? _); [|unfold waiting in H; by destruct (r_target_id q)].
      tx. simpl in Hr'. apply lookup_insert_Some in Hr' as [[<- <-]|[_ ?]]; by simplify_eq.
  - unfold new_request in H. tx.
    match goal with Ha : audit _ _ _ _ = Ok _ |- _ => apply audit_clients in Ha as (_&_&Ha); rewrite Ha in Hr' end.
    simpl in Hr'. apply lookup_insert_Some in Hr' as [[<- _]|[_ Hr']]; [congruence|].
    apply map_lookup_filter_Some in Hr' as [Hr' _]. by simplify_eq.
Qed.
End calls.
