(* ===== verification/EnrollmentProps.v ===== *)
(** The properties of the enrollment store: its invariant, tokens that enroll once and die with
    the state they were issued for, revisions that guard every change, and keys that are only
    bound by a token or by the administrator. *)

From S2P Require Import Prelude.
From S2P Require Import Text.
From S2P Require Import Peer.
From S2P Require Import CryptoRef.
From S2P Require Import EnrollKeys.
From S2P Require Import EnrollKeysFacts.
From S2P Require Import Identity.
From S2P Require Import ExternalRef.
From S2P Require Import Enrollment.
From S2P Require Import Approval.
From S2P Require Import EnrollmentFacts.
From S2P Require Import EnrollmentInv.
From Stdlib Require Import Strings.Byte.
From stdpp Require Import prelude gmap list sorting strings relations.

#[local] Open Scope Z_scope.

(** * A run of the store *)

(** A client is created with a token and redeems it; a second one asks for approval. *)
Definition demo_limits : EnrollmentStoreLimits := {| max_active_clients := 4; max_tokens := 4 |}.
Definition demo_clock (n : nat) : Z := 1700000000000000000.
Definition demo_bytes (b : byte) (n : nat) : list byte := replicate n b.
Definition demo_created : DynamicClientStore * result (DynamicClient * list byte) :=
  create_client_with_token (open_new demo_limits) (str " Edge.1 ") (str "VPS.example:0443")
    (demo_bytes x01 32) (3600 * NANOS) (demo_bytes x07 32) (demo_bytes x08 16) (demo_bytes x0a 16) demo_clock.
Definition demo_issued : DynamicClientStore := demo_created.1.
Definition demo_key : list byte := match demo_created.2 with Ok (_, k) => k | _ => [] end.
Definition demo_id : list byte := random_id (demo_bytes x0a 16).
Definition demo_consumed : DynamicClientStore :=
  (consume_token demo_issued demo_key (demo_bytes x05 32) (str "req-1") (demo_clock 0) demo_clock).1.
Definition demo_disabled : DynamicClientStore :=
  (set_client_enabled demo_issued demo_id false 1 demo_clock).1.
Definition demo_requested : DynamicClientStore :=
  (request_approval demo_consumed (str "Edge.2") Enroll (demo_bytes x06 32) (str "req-2") (demo_clock 0)
     (demo_bytes x0b 16) demo_clock).1.
Definition demo_approved : DynamicClientStore :=
  (review_approval demo_requested (str "req-2") true (demo_bytes x0c 16) demo_clock).1.

Example demo_token_redeemed :
  (consume_token demo_issued demo_key (demo_bytes x05 32) (str "req-1") (demo_clock 0) demo_clock).2
  = Ok {| er_display_id := str "Edge.1"; er_revision := 2 |}.
Proof. by vm_compute. Qed.
Example demo_approval_answer :
  (request_approval demo_approved (str "Edge.2") Enroll (demo_bytes x06 32) (str "req-2") (demo_clock 0)
     (demo_bytes x0b 16) demo_clock).2 = Ok {| er_display_id := str "Edge.2"; er_revision := 1 |}.
Proof. by vm_compute. Qed.

Section props.
Context {P : Primitives} {HP : PrimitivesLaws P} {B : Base64} {HB : Base64Laws B} {E : Ed25519Points}.
Implicit Types s : DynamicClientStore.

(** C25: In every state the store can reach from an empty database, identifiers and keys of
    clients are unique, every token belongs to a client and was issued at one of its
    revisions, a consumed token has its complete result, tombstones are disabled, and the
    numbers of active clients, open tokens, registrations and audit records are within their
    limits. *)
Theorem enrollment_invariant lim s :
  0 ≤ max_active_clients lim → 0 ≤ max_tokens lim → rtc store_call (open_new lim) s →
  db_wf lim (db s) ∧ limits s = lim.
Proof.
  intros Ha Ht Hr. apply store_calls_steps in Hr as [Hr Hl]. split; [|done].
  eapply wf_steps; [|exact Hr]. by apply empty_wf.
Qed.

(** The text of a key determines the key. *)
Lemma public_key_to_string_inj k k' : public_key_to_string k = public_key_to_string k' → k = k'.
Proof.
  intros He%app_inv_head. apply (f_equal standard_decode) in He.
  rewrite !standard_decode_encode in He. by injection He.
Qed.

(** What a successful redemption leaves: a consumed token with its request, key and revision. *)
Lemma consume_leaves s key pk request now clock s' r :
  consume_token s key pk request now clock = (s', Ok r) →
  ∃ t, tokens (db s') !! sha256 key = Some t ∧ t_consumed_at t ≠ None ∧ t_request_id t = Some request ∧
    t_result_public_key t = Some (public_key_to_string pk) ∧ t_result_revision t = Some (er_revision r).
Proof.
  unfold consume_token, commit. destruct (consume_tx _ _ _ _ _ _) as [[d a]| |] eqn:Et; [|done..].
  intros [= <- ->].
  apply consume_tx_Ok in Et as (m&t&c&secs&_&_&(Ht&Hc&_)&_&[(Hn&Hq&Hk&->&rev&Hrev&Ha)|(Hn&_&_&_&Ha&ev&Hau)]).
  - exists t. by injection Ha as ->.
  - injection Ha as ->. apply audit_clients in Hau as (_&Htok&_). simpl in *. rewrite Htok.
    eexists. rewrite lookup_insert_eq. by repeat (split; [done|]).
Qed.

(** The same request for a token that has been redeemed: as long as the token is stored it is
    answered as before and changes nothing. *)
Lemma token_retry s0 s1 s2 key pk request now clock r lim now' clock' :
  consume_token s0 key pk request now clock = (s1, Ok r) → rtc (call_without (sha256 key)) s1 s2 →
  is_Some (tokens (db s2) !! sha256 key) → db_wf lim (db s2) → 0 ≤ now' →
  ∃ r', consume_token s2 key pk request now' clock' = (s2, Ok r') ∧ er_revision r' = er_revision r ∧
    ∃ id c, clients (db s2) !! id = Some c ∧ er_display_id r' = c_display_id c.
Proof.
  intros H0 Hr [t Ht] Hwf Hnow. pose proof H0 as (t1&Ht1&Hc1&Hq1&Hk1&Hr1)%consume_leaves.
  pose proof (token_over_time _ _ _ _ Hr Ht1) as Hle. rewrite Ht in Hle. destruct Hle as (_&_&Heq).
  specialize (Heq Hc1). subst t. pose proof (wf_token _ _ Hwf _ _ Ht) as (c&Hc&_).
  pose proof (wf_client _ _ Hwf _ _ Hc) as (_&[_ Hrev]&_).
  assert (∃ secs, since_epoch now' = Some secs) as [secs Hsecs].
  { unfold since_epoch. rewrite (proj2 (Z.ltb_ge _ _)) by done. by eexists. }
  exists {| er_display_id := c_display_id c; er_revision := er_revision r |}.
  split; [|split; [done|by eexists _, _]].
  assert (consume_tx s2 key pk request now' clock' =
    Ok (db s2, Ok {| er_display_id := c_display_id c; er_revision := er_revision r |})) as Htx.
  { unfold consume_token, commit in H0. destruct (consume_tx s0 _ _ _ _ _) as [[d0 a0]| |] eqn:E0; [|done..].
    pose proof E0 as (m&t&c0&secs0&Hm&_&(Ht0&_&Hh)&_&Hcase)%consume_tx_Ok.
    assert (sha256 (t_salt t1 ++ key) = t_hash t1) as Hh1.
    { injection H0 as <- ->. destruct Hcase as [(_&_&_&->&_)|(_&_&_&_&_&ev&Hau)].
      - simpl in Ht1. by simplify_eq.
      - apply audit_clients in Hau as (_&Htok&_). simpl in Ht1. rewrite Htok in Ht1. simpl in Ht1.
        rewrite lookup_insert_eq in Ht1. by injection Ht1 as <-. }
    unfold consume_tx in E0 |- *. destruct (_ || _); [done|]. rewrite Hm, Hsecs.
    cbn [map_err ok_or mbind res_bind]. unfold token_candidate. rewrite Ht, Hc.
    cbn [mbind res_bind]. unfold sql_u64. rewrite (proj2 (Z.leb_le _ _) Hrev). cbn [mbind res_bind].
    rewrite (bool_decide_eq_true_2 _ Hh1). cbn [negb].
    rewrite (bool_decide_eq_true_2 (is_Some _)) by (by apply not_eq_None_Some).
    rewrite (bool_decide_eq_true_2 _ Hq1), (bool_decide_eq_true_2 _ Hk1). cbn [andb].
    by rewrite Hr1. }
  unfold consume_token. rewrite Htx. simpl. f_equal. by destruct s2.
Qed.

(** C24: A token enrolls once.  After a key has been redeemed with a token, whatever calls follow,
    a redemption of the same token succeeds only for the same request and the same key; it
    answers the same revision and changes nothing, and as long as the token is stored that
    retry does succeed. *)
Theorem token_enrolls_once s0 s1 s2 key pk request now clock r :
  consume_token s0 key pk request now clock = (s1, Ok r) →
  rtc (call_without (sha256 key)) s1 s2 →
  (∀ pk' request' now' clock' s3 r',
     consume_token s2 key pk' request' now' clock' = (s3, Ok r') →
     pk' = pk ∧ request' = request ∧ er_revision r' = er_revision r ∧ s3 = s2) ∧
  (∀ lim now' clock', is_Some (tokens (db s2) !! sha256 key) → db_wf lim (db s2) → 0 ≤ now' →
     ∃ r', consume_token s2 key pk request now' clock' = (s2, Ok r') ∧ er_revision r' = er_revision r).
Proof.
  intros H0 Hr. split.
  2:{ intros lim now' clock' Ht Hwf Hnow. by destruct (token_retry _ _ _ _ _ _ _ _ _ _ _ clock' H0 Hr Ht Hwf Hnow) as (r'&?&?&_); exists r'. }
  pose proof H0 as (t1&Ht1&Hc1&Hq1&Hk1&Hr1)%consume_leaves.
  pose proof (token_over_time _ _ _ _ Hr Ht1) as Hle. intros pk' request' now' clock' s3 r' H3.
  unfold consume_token, commit in H3. destruct (consume_tx s2 _ _ _ _ _) as [[d a]| |] eqn:Et; [|done..].
  injection H3 as <- ->. apply consume_tx_Ok in Et as (m&t&c&secs&_&_&(Ht&Hc&_)&_&Hcase).
  rewrite Ht in Hle. destruct Hle as (_&_&Heq). specialize (Heq Hc1). subst t.
  destruct Hcase as [(_&Hq&Hk&->&rev&Hrev&[= ->])|(Hn&_)]; [|done]. simpl.
  split; [by apply public_key_to_string_inj; congruence|].
  split; [congruence|]. split; [congruence|]. by destruct s2.
Qed.

Lemma consume_no_panic s key pk request now clock : consume_tx s key pk request now clock ≠ Panic.
Proof.
  assert (∀ v, sql_u64 v ≠ Panic) as Hs by (intros v; unfold sql_u64; by case_match).
  assert (∀ d e t c, audit d e t c ≠ Panic) as Ha.
  { intros d e t c. unfold audit. apply res_bind_no_panic; [apply ok_or_no_panic|]. intros ? _.
    by apply res_bind_no_panic. }
  unfold consume_tx. case_match; [done|]. apply res_bind_no_panic; [apply map_err_no_panic, ekm_decode_no_panic|].
  intros m _. apply res_bind_no_panic; [apply ok_or_no_panic|]. intros secs _.
  apply res_bind_no_panic; [unfold token_candidate; by repeat case_match|]. intros [t c] _.
  apply res_bind_no_panic; [done|]. intros rev _. case_match; [done|].
  destruct (bool_decide (is_Some (t_consumed_at t))).
  - case_match; [|done]. apply res_bind_no_panic; [apply ok_or_no_panic|done].
  - apply res_bind_no_panic; [unfold admit_token; by repeat case_match|]. intros _ _.
    apply res_bind_no_panic; [apply ok_or_no_panic|]. intros n _.
    apply res_bind_no_panic; [done|]. intros n' _. destruct (update_client_row _ _ _ _) as [k d].
    case_match; [done|]. apply res_bind_no_panic; [done|]. intros w _. by apply res_bind_no_panic.
Qed.

(** An unredeemed token whose client has changed since it was issued - renamed, disabled,
    enabled, deleted, rebound - can never be redeemed, whatever calls follow. *)
Theorem outstanding_tokens_die s1 s2 key t c pk request now clock :
  tokens (db s1) !! sha256 key = Some t → t_consumed_at t = None →
  clients (db s1) !! t_target_id t = Some c → t_issued_revision t < c_revision c →
  rtc (call_without (sha256 key)) s1 s2 →
  ∃ e, consume_token s2 key pk request now clock = (s2, Err e).
Proof.
  intros Ht Hn Hc Hlt Hr.
  assert (token_dead (sha256 key) s2) as Hd.
  { eapply token_dead_calls; [exact Hr|]. unfold token_dead. rewrite Ht. split; [done|]. by exists c. }
  unfold consume_token. destruct (consume_tx s2 _ _ _ _ _) as [[d a]|e|] eqn:Et.
  - exfalso. apply consume_tx_Ok in Et as (m&t2&c2&secs&_&_&(Ht2&Hc2&_)&_&Hcase).
    unfold token_dead in Hd. rewrite Ht2 in Hd. destruct Hd as (Hn2&c3&Hc3&Hlt2). simplify_eq.
    destruct Hcase as [(?&_)|(_&Ha&_)]; [done|]. apply admit_token_Ok in Ha as (_&_&_&?&_). lia.
  - by exists e.
  - by apply consume_no_panic in Et.
Qed.

(** A transaction that never reaches its end changes nothing and succeeds never. *)
Lemma commit_refused {A} s (r : result (Db * result A)) :
  (∀ d a, r ≠ Ok (d, a)) → (commit s r).1 = s ∧ ∀ a, (commit s r).2 ≠ Ok a.
Proof. destruct r as [[d a]|e|]; simpl; [|done..]. intros H. by destruct (H d a). Qed.

Lemma stale_update d id c expected f :
  clients d !! id = Some c → c_revision c ≠ expected → update_client_row d id (at_revision expected) f = (0, d).
Proof.
  intros Hc Hr. unfold update_client_row, at_revision. by rewrite Hc, (proj2 (Z.eqb_neq _ _) Hr).
Qed.

(** The revision of a client is a version of its identity: over every call it stays with
    the identity it names or grows, and a change that expects another revision than the
    current one is refused and leaves the store as it is. *)
Theorem revision_guards s id c :
  clients (db s) !! id = Some c →
  (∀ s' c', store_call s s' → clients (db s') !! id = Some c' → client_le c c') ∧
  (∀ expected, expected ≠ c_revision c →
     (∀ name clock, let r := rename_client s id name expected clock in r.1 = s ∧ ∀ a, r.2 ≠ Ok a) ∧
     (∀ enabled clock, let r := set_client_enabled s id enabled expected clock in r.1 = s ∧ ∀ a, r.2 ≠ Ok a) ∧
     (∀ clock, let r := delete_client s id expected clock in r.1 = s ∧ ∀ a, r.2 ≠ Ok a) ∧
     (∀ purpose addr fp ttl token salt clock,
        let r := issue_token s id purpose addr fp ttl expected token salt clock in r.1 = s ∧ ∀ a, r.2 ≠ Ok a)).
Proof.
  intros Hc. split.
  - intros s' c' Hcall Hc'. destruct (call_rows _ _ Hcall) as [[_ Hcl]|(Hsub&_)].
    + destruct (Hcl _ _ Hc) as (c1&Hc1&?). by simplify_eq.
    + eapply lookup_weaken in Hc'; [|exact Hsub]. by simplify_eq.
  - intros expected Hne.
    assert (∀ f, update_client_row (db s) id (at_revision expected) f = (0, db s)) as Hu
      by (intros f; by eapply stale_update).
    cbv zeta. split; [|split; [|split]]; intros; apply commit_refused; intros d a H; tx;
      try (rewrite Hu in *; simplify_eq; done).
    rewrite Hc in *. case_match; [|done]. simplify_eq. by bools.
Qed.

(** A client's key is bound by two calls only: the redemption of a token that was issued
    for this client, is in time and unused, and whose client has not changed since; and the
    administrator's approval of a pending, unexpired registration of that very key. *)
Theorem keys_bound_only s s' id c' k :
  store_call s s' → clients (db s') !! id = Some c' → c_public_key c' = Some k →
  (∀ c, clients (db s) !! id = Some c → c_public_key c ≠ Some k) →
  (∃ key pk request now clock material t c secs,
     s' = (consume_token s key pk request now clock).1 ∧ k = public_key_to_string pk ∧
     ekm_decode key = Ok material ∧ since_epoch now = Some secs ∧ token_genuine (db s) key t c ∧
     t_target_id t = id ∧ t_consumed_at t = None ∧ secs ≤ t_expires_at t ∧ is_active_row c = true ∧
     t_revoked t = false ∧ c_revision c = t_issued_revision t ∧
     t_purpose t = purpose_code (ekm_purpose material)) ∨
  (∃ request random clock r now,
     s' = (review_approval s request true random clock).1 ∧ registrations (db s) !! request = Some r ∧
     r_status r = PENDING ∧ unix_now (clock 0%nat) = Ok now ∧ now < r_expires_at r ∧ r_public_key r = k).
Proof.
  intros Hcall Hc' Hk Hold.
  assert (∀ d', keys_from (db s) d' → clients d' !! id ≠ Some c') as Hno.
  { intros d' Hf Hd. destruct (Hf _ _ _ Hd Hk) as (c&Hc&Hck). by eapply Hold. }
  destruct Hcall as [s' H|name uid profile purpose key request now random clock|older limit clock
    |key pk request now clock|request approve random clock].
  - exfalso. apply quiet_call_steps in H as [H _]. eapply Hno; [|exact Hc'].
    eapply keys_from_rtc; [|exact H]. apply quiet_keys.
  - exfalso. eapply Hno; [|exact Hc']. eapply keys_from_rtc, request_approval_steps. apply request_keys.
  - exfalso. eapply Hno; [|exact Hc']. eapply keys_from_rtc, purge_tombstones_steps. apply purge_keys.
  - left. exists key, pk, request, now, clock. unfold consume_token, commit in *.
    destruct (consume_tx s _ _ _ _ _) as [[d a]| |] eqn:Et;
      [|by destruct (Hno (db s) (keys_from_refl _))..].
    apply consume_tx_Ok in Et as (m&t&c&secs&Hm&Hs&Hg&_&[(_&_&_&->&_)|(Hn&Ha&_&_&_&ev&Hau)]);
      [by destruct (Hno (db s) (keys_from_refl _))|].
    exists m, t, c, secs. apply audit_clients in Hau as (Hcl&_&_). cbn [fst db with_db] in Hc'.
    rewrite Hcl in Hc'. simpl in Hc'.
    apply lookup_insert_Some in Hc' as [[Hid <-]|[_ Hc']].
    2:{ by destruct (Hno (db s) (keys_from_refl _)). }
    simpl in Hk. injection Hk as <-. apply admit_token_Ok in Ha as (?&?&?&?&?&_). done.
  - right. unfold review_approval, commit in *.
    destruct (review_tx s _ _ _ _) as [[d a]| |] eqn:Et; [|by destruct (Hno (db s) (keys_from_refl _))..].
    pose proof Et as (r&Hr&Hcase)%review_tx_Ok. cbn [fst db with_db] in Hc'.
    destruct Hcase as [(_&->&_)|[(_&_&_&clk&Ha)|(Hst&->&now&d1&rev&clk&Hnow&Hlt&Hw&Ha&_)]].
    + by destruct (Hno (db s) (keys_from_refl _)).
    + apply audit_clients in Ha as (Hcl&_&_). by destruct (Hno d (keys_from_clients _ _ Hcl)).
    + exists request, random, clock, r, now. rewrite Et. do 5 (split; [done|]).
      apply audit_clients in Ha as (Hcl&_&_). rewrite Hcl in Hc'.
      destruct (review_writes_keys _ _ _ _ _ _ _ Hw Hc' Hk) as [?|(c0&Hc0&Hk0)]; [done|].
      by destruct (Hold _ Hc0).
Qed.

(** A request is answered with success only when it is approved and its client still has this
    key, enabled and at the approved revision; then nothing changes. *)
Lemma approval_answer s name uid profile purpose key request now random clock s' res :
  request_approval_inner s name uid profile purpose key request now random clock = (s', Ok res) →
  s' = s ∧ ∃ r id c, registrations (db s) !! request = Some r ∧ r_status r = APPROVED ∧
    r_public_key r = public_key_to_string key ∧ r_result_revision r = Some (er_revision res) ∧
    clients (db s) !! id = Some c ∧ c_public_key c = Some (public_key_to_string key) ∧
    is_active_row c = true ∧ c_revision c = er_revision res.
Proof.
  intros H. unfold request_approval_inner, commit in H.
  destruct (_ ≫= _) as [[d a]| |] eqn:Et in H; [|done..]. injection H as <- ->.
  tx. destruct (registrations (db s) !! request) as [r|] eqn:Hr.
  2:{ unfold new_request, waiting in Et. by tx; try case_match. }
  unfold repeat_request in Et. tx. destruct (r_status r =? APPROVED) eqn:Ea.
  + destruct (routed_client _ _ _) as [[id c]|] eqn:Ef; [|done]. tx. bools.
    apply sql_find_Some in Ef as [Hc _]. split; [by destruct s|]. exists r, id, c.
    unfold is_active_row. cbn [er_revision]. do 6 (split; [done|]).
    split; [|congruence].
    repeat match goal with H : _ = true |- _ => rewrite H | H : _ = false |- _ => rewrite H end. done.
  + by destruct (r_expires_at r <=? _); unfold waiting in *; tx; case_match.
Qed.

(** C26: A registration is decided once and by the administrator: over every call a stored
    request keeps what it asks for, its status changes only from pending and only by a review
    of it, to what the review says; and a request is answered with success only when it is
    approved and its client still has this key, enabled and at the approved revision. *)
Theorem registration_decided s :
  (∀ s' k r r', store_call s s' → registrations (db s) !! k = Some r → registrations (db s') !! k = Some r' →
     same_request r r' ∧
     ((r_status r' = r_status r ∧ r_result_revision r' = r_result_revision r) ∨
      (r_status r = PENDING ∧ ∃ approve random clock,
         s' = (review_approval s k approve random clock).1 ∧
         r_status r' = if approve then APPROVED else REJECTED))) ∧
  (∀ name uid profile purpose key request now random clock s' res,
     request_approval_inner s name uid profile purpose key request now random clock = (s', Ok res) →
     s' = s ∧ ∃ r id c, registrations (db s) !! request = Some r ∧ r_status r = APPROVED ∧
       r_public_key r = public_key_to_string key ∧ r_result_revision r = Some (er_revision res) ∧
       clients (db s) !! id = Some c ∧ c_public_key c = Some (public_key_to_string key) ∧
       is_active_row c = true ∧ c_revision c = er_revision res).
Proof.
  assert (∀ r, same_request r r) as Hrefl by done.
  split.
  - intros s' k r r' Hcall Hr Hr'.
    destruct Hcall as [s' H|name uid profile purpose key request now random clock|older limit clock
      |key pk request now clock|request approve random clock].
    + apply quiet_call_steps in H as [H _]. eapply registrations_rtc in H; [|by apply quiet_registrations].
      rewrite H in Hr'. simplify_eq. split; [done|by left].
    + destruct (request_registrations _ _ _ _ _ _ _ _ _ _ _ _ _ Hr Hr') as (?&?&?). split; [done|by left].
    + pose proof (purge_tombstones_steps s older limit clock) as H.
      eapply registrations_rtc in H; [|by apply purge_registrations].
      rewrite H in Hr'. simplify_eq. split; [done|by left].
    + assert (registrations (db (consume_token s key pk request now clock).1) = registrations (db s)) as Heq.
      { unfold consume_token, commit. destruct (consume_tx s _ _ _ _ _) as [[d a]| |] eqn:Et; [|done..].
        apply consume_tx_Ok in Et as (m&t&c&secs&_&_&_&_&[(_&_&_&->&_)|(_&_&_&_&_&ev&Hau)]); [done|].
        by apply audit_clients in Hau as (_&_&?). }
      rewrite Heq in Hr'. simplify_eq. split; [done|by left].
    + unfold review_approval, commit in *. destruct (review_tx s _ _ _ _) as [[d a]| |] eqn:Et; simpl in Hr';
        [|by simplify_eq; split; [done|by left]..].
      pose proof Et as (q&Hq&Hcase)%review_tx_Ok.
      destruct Hcase as [(_&->&_)|[(Hst&->&_&clk&Ha)|(Hst&->&now&d1&rev&clk&_&_&Hw&Ha&_)]].
      * simplify_eq. split; [done|by left].
      * apply audit_clients in Ha as (_&_&Ha). rewrite Ha in Hr'. simpl in Hr'.
        apply lookup_insert_Some in Hr' as [[<- <-]|[_ ?]]; simplify_eq; split; try done; [right|by left].
        split; [done|]. exists false, random, clock. by rewrite Et.
      * apply audit_clients in Ha as (_&_&Ha). rewrite Ha in Hr'. simpl in Hr'.
        rewrite (proj1 (review_writes_step _ _ _ _ Hw)) in Hr'.
        apply lookup_insert_Some in Hr' as [[<- <-]|[_ ?]]; simplify_eq; split; try done; [right|by left].
        split; [done|]. exists true, random, clock. by rewrite Et.
  - intros. by eapply approval_answer.
Qed.

(** What is encoded is read back: an enrollment key built for any accepted server address,
    as long as it fits a message, and a registration intent with and without its proof. *)
Theorem enrollment_text_roundtrip :
  (∀ purpose addr fp tok k,
     EnrollmentKeyMaterial_new purpose addr fp tok = Ok k → length fp = 32%nat → length tok = 32%nat →
     blen (ekm_server_addr k) ≤ u16_max → blen (ekm_encode k) ≤ MAX_ENCODED_BYTES →
     ekm_decode (ekm_encode k) = Ok k) ∧
  (∀ i proof, intent_built i → length proof = 64%nat →
     ri_decode (ri_encode i) = Ok i ∧
     ri_decode (ri_encode i ++ x3a :: hex_bytes proof) = Ok (with_proof i (Some proof))).
Proof. split; [intros; by eapply ekm_decode_encode|apply ri_decode_encode]. Qed.
End props.

(** * Witnesses *)

Lemma demo_run : rtc store_call (open_new demo_limits) demo_issued.
Proof. eapply rtc_once, sc_quiet, qc_create_with_token. Qed.
Lemma demo_full_run : rtc store_call (open_new demo_limits) demo_approved.
Proof.
  etrans; [apply demo_run|]. eapply rtc_l; [apply (sc_consume demo_issued)|].
  eapply rtc_l; [apply (sc_request demo_consumed)|]. apply rtc_once, (sc_review demo_requested).
Qed.
Lemma demo_consume_run :
  consume_token demo_issued demo_key (demo_bytes x05 32) (str "req-1") (demo_clock 0) demo_clock
  = (demo_consumed, Ok {| er_display_id := str "Edge.1"; er_revision := 2 |}).
Proof. rewrite <- demo_token_redeemed. apply surjective_pairing. Qed.
Lemma demo_has_token : bool_decide (tokens (db demo_approved) !! sha256 demo_key = None) = false
  ∧ bool_decide (tokens (db demo_consumed) !! sha256 demo_key = None) = false
  ∧ bool_decide (tokens (db demo_requested) !! sha256 demo_key = None) = false.
Proof. vm_compute. by split. Qed.
Lemma demo_request_call : store_call demo_consumed demo_requested.
Proof. apply (sc_request demo_consumed). Qed.
Lemma demo_review_call : store_call demo_requested demo_approved.
Proof. apply (sc_review demo_requested). Qed.
Lemma demo_later_run : rtc (call_without (sha256 demo_key)) demo_consumed demo_approved.
Proof.
  destruct demo_has_token as (H1&H2&H3). apply bool_decide_eq_false in H1, H2, H3.
  apply (rtc_l _ _ demo_requested); [|apply rtc_once].
  - exact (conj demo_request_call (λ H, False_ind _ (H2 H))).
  - exact (conj demo_review_call (λ H, False_ind _ (H3 H))).
Qed.

Lemma enrollment_invariant_witness :
  db_wf demo_limits (db demo_approved) ∧ limits demo_approved = demo_limits.
Proof. exact (enrollment_invariant demo_limits demo_approved ltac:(done) ltac:(done) demo_full_run). Defined.

Lemma token_enrolls_once_witness :
  ∃ r', consume_token demo_approved demo_key (demo_bytes x05 32) (str "req-1") 5 demo_clock = (demo_approved, Ok r')
        ∧ er_revision r' = 2.
Proof.
  apply (proj2 (token_enrolls_once _ _ _ _ _ _ _ _ _ demo_consume_run demo_later_run) demo_limits 5 demo_clock).
  - apply not_eq_None_Some. exact (proj1 (bool_decide_eq_false _) (proj1 demo_has_token)).
  - exact (proj1 (conj (wf_steps _ _ _ (empty_wf demo_limits ltac:(done) ltac:(done))
      (proj1 (store_calls_steps _ _ demo_full_run))) I)).
  - done.
Defined.

Lemma outstanding_tokens_die_witness :
  ∃ e, consume_token demo_disabled demo_key (demo_bytes x05 32) (str "req-1") (demo_clock 0) demo_clock
       = (demo_disabled, Err e).
Proof.
  eapply (outstanding_tokens_die demo_disabled demo_disabled).
  - vm_compute; reflexivity.
  - vm_compute; reflexivity.
  - vm_compute; reflexivity.
  - vm_compute; reflexivity.
  - apply rtc_refl.
Defined.

Lemma revision_guards_witness :
  (rename_client demo_issued demo_id (str "other") 7 demo_clock).1 = demo_issued.
Proof.
  eapply (proj2 (revision_guards demo_issued demo_id _ ltac:(vm_compute; reflexivity)) 7 ltac:(done)).
Defined.

Lemma keys_bound_only_witness :
  ∃ key, demo_consumed = (consume_token demo_issued key (demo_bytes x05 32) (str "req-1") (demo_clock 0) demo_clock).1
    ∨ ∃ request random clock, demo_consumed = (review_approval demo_issued request true random clock).1.
Proof.
  destruct (keys_bound_only demo_issued demo_consumed demo_id
    (default (new_client [] None 0 None) (clients (db demo_consumed) !! demo_id))
    (public_key_to_string (demo_bytes x05 32)) (sc_consume _ _ _ _ _ _)) as [H|(q&rnd&clk&_&_&H&_)].
  - vm_compute; reflexivity.
  - vm_compute; reflexivity.
  - intros c Hc Hk. assert (clients (db demo_issued) !! demo_id ≫= c_public_key = None) as Hn by (vm_compute; reflexivity).
    rewrite Hc in Hn. simpl in Hn. congruence.
  - exists demo_key. by left.
  - exists demo_key. right. exists q, rnd, clk. exact H.
Defined.

Lemma registration_decided_witness :
  ∃ r, registrations (db demo_approved) !! str "req-2" = Some r ∧ r_status r = APPROVED.
Proof.
  destruct (proj2 (registration_decided demo_approved) (str "Edge.2") None false Enroll (demo_bytes x06 32)
    (str "req-2") (demo_clock 0) (demo_bytes x0b 16) demo_clock demo_approved
    {| er_display_id := str "Edge.2"; er_revision := 1 |}) as (_&r&_&_&Hr&Hs&_).
  - vm_compute; reflexivity.
  - exists r. exact (conj Hr Hs).
Defined.

Lemma enrollment_text_roundtrip_witness :
  ∃ k, EnrollmentKeyMaterial_new Enroll (str "[2001:DB8:0:0::1]:443") (demo_bytes x01 32) (demo_bytes x07 32) = Ok k ∧
    ekm_decode (ekm_encode k) = Ok k.
Proof.
  eexists. split; [vm_compute; reflexivity|].
  eapply (proj1 enrollment_text_roundtrip Enroll (str "[2001:DB8:0:0::1]:443") (demo_bytes x01 32) (demo_bytes x07 32)).
  - vm_compute; reflexivity.
  - done.
  - done.
  - by vm_compute.
  - by vm_compute.
Defined.
