(* ===== verification/Auth.v ===== *)
(** Authentication of control connections ([rustgos/src/auth.rs], [Authenticator]): the keys
    of the configuration and the enrolled ones, the challenge, the session identifier and the
    check of the client's answer.  The random bytes of [OsRng] are arguments, [None] when the
    generator fails. *)

From S2P Require Import Prelude.
From S2P Require Import Messages.
From S2P Require Import Frame.
From S2P Require Import Text.
From S2P Require Import Peer.
From S2P Require Import EnrollKeys.
From S2P Require Import Identity.
From S2P Require Import Config.
From S2P Require Import Enrollment.
From S2P Require Import Registry.
From Stdlib Require Import Strings.Byte.
From stdpp Require Import prelude gmap list strings.

#[local] Open Scope Z_scope.

Definition CHALLENGE_BYTES : Z := 32.
Definition SESSION_ID_BYTES : Z := 32.
Definition SESSION_RANDOM_BYTES : Z := SESSION_ID_BYTES - 8.

Inductive AuthError :=
| AuthInvalidConfiguration
| AuthRejected
| AuthEntropyUnavailable
| AuthInternal.
#[export] Instance auth_error_eq_dec : EqDecision AuthError.
Proof. solve_decision. Defined.

Record AuthorizationEntry := {
  ae_public_key : list byte;
  ae_fingerprint : list byte;
  ae_enabled : bool;
}.

(** The store of enrolled clients is shared with the rest of the server; [finish] gets the
    state it has when it is asked. *)
Record Authenticator := {
  entries_by_name : gmap (list byte) AuthorizationEntry;
  names_by_fingerprint : gmap (list byte) (list byte);
  next_session_sequence : Z;
}.

Record PendingAuthentication := {
  pa_client_name : list byte;
  pa_claimed_fingerprint : list byte;
  pa_challenge : list byte;
  pa_session_id : list byte;
  pa_version : ProtocolVersion;
}.

(** [PendingAuthentication::challenge]. *)
Definition pending_challenge (p : PendingAuthentication) : res AuthError ServerChallenge :=
  _ ← guard_err (MAX_CHALLENGE_BYTES <? blen (pa_challenge p)) AuthInternal;
  _ ← guard_err (MAX_SESSION_ID_BYTES <? blen (pa_session_id p)) AuthInternal;
  Ok {| sc_challenge := pa_challenge p; sc_session_id := pa_session_id p |}.

Definition transcript_version (v : ProtocolVersion) : res AuthError Z :=
  if (255 <? major v) || (255 <? minor v) then Err AuthRejected
  else Ok (Z.lor (Z.shiftl (major v) 8 `mod` 65536) (minor v)).

(** [issue_session_id]: the sequence number is taken before the random bytes are drawn. *)
Definition issue_session_id (a : Authenticator) (random : option (list byte))
    : Authenticator * res AuthError (list byte) :=
  match checked_add u64_max (next_session_sequence a) 1 with
  | None => (a, Err AuthInternal)
  | Some next =>
    ({| entries_by_name := entries_by_name a; names_by_fingerprint := names_by_fingerprint a;
        next_session_sequence := next |},
     random ← ok_or random AuthEntropyUnavailable;
     Ok (random ++ be_bytes 8 (next_session_sequence a)))
  end.

Definition begin (a : Authenticator) (hello : ClientHello) (version : ProtocolVersion)
    (challenge session_random : option (list byte))
    : Authenticator * res AuthError PendingAuthentication :=
  match challenge with
  | None => (a, Err AuthEntropyUnavailable)
  | Some challenge =>
    let '(a, issued) := issue_session_id a session_random in
    (a, session_id ← issued;
        Ok {| pa_client_name := ch_client_name hello; pa_claimed_fingerprint := ch_fingerprint hello;
              pa_challenge := challenge; pa_session_id := session_id; pa_version := version |})
  end.

Section authenticator.
Context {P : Primitives} {B : Base64} {E : Ed25519Points}.

Fixpoint insert_clients (clients : list AuthorizedClient)
    (entries : gmap (list byte) AuthorizationEntry) (names : gmap (list byte) (list byte))
    : res AuthError (gmap (list byte) AuthorizationEntry * gmap (list byte) (list byte)) :=
  match clients with
  | [] => Ok (entries, names)
  | client :: rest =>
    public_key ← map_err (λ _, AuthInvalidConfiguration) (public_key_from_str (az_public_key client));
    let fp := fingerprint_to_string (fingerprint public_key) in
    if bool_decide (is_Some (entries !! az_name client)) || bool_decide (is_Some (names !! fp))
    then Err AuthInvalidConfiguration
    else
      insert_clients rest
        (<[az_name client := {| ae_public_key := public_key; ae_fingerprint := fp;
                                ae_enabled := az_enabled client |}]> entries)
        (<[fp := az_name client]> names)
  end.

Definition new_with_dynamic (clients : list AuthorizedClient) : res AuthError Authenticator :=
  '(entries, names) ← insert_clients clients ∅ ∅;
  Ok {| entries_by_name := entries; names_by_fingerprint := names; next_session_sequence := 0 |}.

(** A client of the configuration under the name it claims. *)
Definition configured_name (a : Authenticator) (name public_key fp : list byte) : option (list byte) :=
  entry ← entries_by_name a !! name;
  if ae_enabled entry && bool_decide (ae_public_key entry = public_key)
     && bool_decide (ae_fingerprint entry = fp)
     && bool_decide (names_by_fingerprint a !! fp = Some name)
  then Some name else None.

(** An enrolled client, by its key: the name is the store's and not the claimed one. *)
Definition enrolled_name (dynamic : option DynamicClientStore) (public_key : list byte)
    : option (list byte) :=
  store ← dynamic;
  found ← res_ok (client_by_public_key store public_key);
  client ← found;
  if dc_enabled client && negb (dc_tombstoned client) then Some (dc_display_id client) else None.

Definition pending_transcript (p : PendingAuthentication) (version : Z) : list byte :=
  AuthTranscript_new (pa_challenge p) (pa_session_id p) version (pa_client_name p).

Definition finish (a : Authenticator) (dynamic : option DynamicClientStore)
    (pending : PendingAuthentication) (authentication : ClientAuthenticate)
    : res AuthError AuthenticatedClient :=
  _ ← guard_err (negb (utf8_valid (ca_public_key authentication))) AuthRejected;
  public_key ← map_err (λ _, AuthRejected) (public_key_from_str (ca_public_key authentication));
  let fp := fingerprint_to_string (fingerprint public_key) in
  wire ← ok_or (strip_prefix_str (str "sha256:") fp) AuthInternal;
  if negb (bool_decide (pa_claimed_fingerprint pending = wire)) then Err AuthRejected
  else
    authenticated_name ← ok_or
      (match configured_name a (pa_client_name pending) public_key fp with
       | Some name => Some name
       | None => enrolled_name dynamic public_key
       end) AuthRejected;
    version ← transcript_version (pa_version pending);
    _ ← map_err (λ _, AuthRejected)
          (verify_auth public_key (pending_transcript pending version) (ca_signature authentication));
    Ok {| ac_name := authenticated_name; ac_fingerprint := fp; ac_session_id := pa_session_id pending |}.
End authenticator.
