(* ===== verification/AuthProps.v ===== *)
(** The theorems of the authentication: who is accepted, and that an answer is good for one
    session only. *)

From S2P Require Import Prelude.
From S2P Require Import Messages.
From S2P Require Import Frame.
From S2P Require Import Text.
From S2P Require Import Peer.
From S2P Require Import PeerCodecs.
From S2P Require Import CryptoRef.
From S2P Require Import EnrollKeys.
From S2P Require Import Identity.
From S2P Require Import ExternalRef.
From S2P Require Import Config.
From S2P Require Import Enrollment.
From S2P Require Import EnrollmentFacts.
From S2P Require Import EnrollmentInv.
From S2P Require Import Registry.
From S2P Require Import Auth.
From Stdlib Require Import Strings.Byte.
From stdpp Require Import prelude gmap list strings.

#[local] Open Scope Z_scope.

(** * Sessions *)

(** The authentications begun from [a], in any order and with any failures of the generator,
    the latest first; the generator fills what it is asked to fill. *)
Inductive begun (a : Authenticator) : list PendingAuthentication → Authenticator → Prop :=
| begun_none : begun a [] a
| begun_next ps a1 hello version challenge random :
    begun a ps a1 →
    (∀ c, challenge = Some c → blen c = CHALLENGE_BYTES) →
    (∀ r, random = Some r → blen r = SESSION_RANDOM_BYTES) →
    let result := begin a1 hello version challenge random in
    begun a (match result.2 with Ok p => p :: ps | _ => ps end) result.1.

(** Sequence numbers in the identifiers of the sessions begun, and the counter above them. *)
Definition session_of (n : Z) (p : PendingAuthentication) : Prop :=
  blen (pa_challenge p) = CHALLENGE_BYTES ∧
  ∃ r, blen r = SESSION_RANDOM_BYTES ∧ pa_session_id p = r ++ be_bytes 8 n.
Inductive numbered (top : Z) : list PendingAuthentication → Prop :=
| numbered_nil : numbered top []
| numbered_cons n p ps : 0 ≤ n < top → session_of n p → numbered n ps → numbered top (p :: ps).

Lemma numbered_mono n m ps : n ≤ m → numbered n ps → numbered m ps.
Proof. intros Hle Hn. destruct Hn; econstructor; [|done..]. lia. Qed.

Lemma numbered_below n ps p : numbered n ps → p ∈ ps → ∃ k, 0 ≤ k < n ∧ session_of k p.
Proof.
  induction 1 as [top|top k q ps Hk Hq _ IH]; [by intros ?%not_elem_of_nil|].
  intros [->|Hp]%elem_of_cons; [by exists k|]. destruct (IH Hp) as (j&?&?). exists j. split; [lia|done].
Qed.

Lemma begun_numbered a ps a' :
  0 ≤ next_session_sequence a ≤ u64_max → begun a ps a' →
  next_session_sequence a ≤ next_session_sequence a' ≤ u64_max ∧ numbered (next_session_sequence a') ps ∧
  entries_by_name a' = entries_by_name a ∧ names_by_fingerprint a' = names_by_fingerprint a.
Proof.
  intros Ha. induction 1 as [|ps a1 hello version challenge random _ (Hseq&Hnum&He&Hn) Hc Hr r];
    [repeat split; try lia; constructor|].
  subst r. unfold begin. destruct challenge as [ch|]; [|done]. unfold issue_session_id.
  destruct (checked_add _ _ _) as [next|] eqn:Ea; [|done]. apply checked_add_Some in Ea as [-> Ha1].
  destruct random as [r|]; simpl.
  - split; [lia|]. split; [|done]. econstructor; [|split; [by apply Hc|]|exact Hnum]; [lia|].
    exists r. split; [by apply Hr|done].
  - split; [lia|]. split; [|done]. eapply numbered_mono; [|exact Hnum]. lia.
Qed.

Lemma session_number n m p q :
  0 ≤ n ≤ u64_max → 0 ≤ m ≤ u64_max → session_of n p → session_of m q →
  pa_session_id p = pa_session_id q → n = m.
Proof.
  intros ?? (_&r&Hr&->) (_&s&Hs&->) He. apply app_cut in He as [_ He].
  - apply (prefix_end (in_u 64) (be_bytes 8)) in He; [done|unfold in_u, u64_max in *; lia..].
  - unfold blen in *. lia.
Qed.

Lemma session_id_length n p : session_of n p → blen (pa_session_id p) = SESSION_ID_BYTES.
Proof.
  intros (_&r&Hr&->). rewrite blen_app, Hr. unfold blen. by rewrite length_be_bytes.
Qed.

Lemma numbered_unique n ps i j p q :
  n ≤ u64_max → numbered n ps → ps !! i = Some p → ps !! j = Some q →
  pa_session_id p = pa_session_id q → i = j.
Proof.
  intros Hn Hnum. revert i j Hn. induction Hnum as [top|top n p' ps Hk Hp' Hnum IH]; [done|].
  intros i j Hn Hi Hj He.
  assert (∀ x k, ps !! k = Some x → pa_session_id p' ≠ pa_session_id x) as Hne.
  { intros x k Hx%list_elem_of_lookup_2 Hs. destruct (numbered_below _ _ _ Hnum Hx) as (m&?&?).
    pose proof (session_number n m p' x). naive_solver lia. }
  destruct i as [|i], j as [|j]; simpl in *; simplify_eq; [done|by destruct (Hne _ _ Hj)|..].
  - by destruct (Hne _ _ Hi).
  - f_equal. apply IH; [lia|done..].
Qed.

(** The signed transcript names the challenge and the session it was made for. *)
Lemma pending_transcript_inj p q v w :
  blen (pa_challenge p) = CHALLENGE_BYTES → blen (pa_challenge q) = CHALLENGE_BYTES →
  blen (pa_session_id p) = SESSION_ID_BYTES → blen (pa_session_id q) = SESSION_ID_BYTES →
  in_u 16 v → in_u 16 w → pending_transcript p v = pending_transcript q w →
  pa_challenge p = pa_challenge q ∧ pa_session_id p = pa_session_id q ∧ v = w.
Proof.
  intros Hp Hq Hsp Hsq Hv Hw. unfold pending_transcript, AuthTranscript_new, append_u16.
  rewrite !append_bytes_eq, <- !app_assoc. intros He%app_inv_head.
  assert (∀ l : list byte, blen l = 32 → slice_wf l) as Hwf by (unfold slice_wf, u32_max; lia).
  apply (prefix_inj (wf := slice_wf)) in He as [Hc He]; [|by apply Hwf..].
  apply (prefix_inj (wf := slice_wf)) in He as [Hs He]; [|by apply Hwf..].
  by apply (prefix_inj (wf := in_u 16)) in He as [Hvw _].
Qed.

Definition version_valid (v : ProtocolVersion) : Prop := 0 ≤ major v ∧ 0 ≤ minor v.

Lemma transcript_version_Ok v n :
  version_valid v → transcript_version v = Ok n ↔ major v ≤ 255 ∧ minor v ≤ 255 ∧ n = 256 * major v + minor v.
Proof.
  intros [Hma Hmi]. unfold transcript_version.
  destruct (Z.ltb_spec 255 (major v)), (Z.ltb_spec 255 (minor v)); cbn [orb];
    try (split; [done|lia]).
  assert (Z.lor (Z.shiftl (major v) 8 `mod` 65536) (minor v) = 256 * major v + minor v) as ->.
  { rewrite Z.shiftl_mul_pow2 by lia. rewrite Z.mod_small by lia.
    rewrite <- Z.lxor_lor, <- Z.add_nocarry_lxor; [lia|..]; apply Z.bits_inj'; intros k Hk;
      rewrite Z.land_spec, Z.bits_0, <- Z.shiftl_mul_pow2 by lia;
      destruct (Z.lt_ge_cases k 8); [rewrite Z.shiftl_spec_low by lia; done| |
        rewrite Z.shiftl_spec_low by lia; done|];
      rewrite (Z.bits_above_log2 (minor v)); [apply andb_false_r|lia| |apply andb_false_r|lia|];
      (destruct (decide (minor v = 0)) as [->|]; [simpl; lia|]);
      (apply Z.log2_lt_pow2; [lia|]); (eapply Z.lt_le_trans; [|apply (Z.pow_le_mono_r 2 8 k); lia]); lia. }
  split; [intros [= <-]; lia|intros (_&_&->); done].
Qed.

(** * The keys of the configuration *)

Section props.
Context {P : Primitives} {B : Base64} {E : Ed25519Points}.

(** An enabled client of the configuration with this name and key. *)
Definition configured (clients : list AuthorizedClient) (name key : list byte) : Prop :=
  ∃ ac, ac ∈ clients ∧ az_name ac = name ∧ az_enabled ac = true ∧
    public_key_from_str (az_public_key ac) = Ok key.
(** An enrolled client, enabled and not deleted, with this key and display identifier. *)
Definition enrolled (dynamic : option DynamicClientStore) (key name : list byte) : Prop :=
  ∃ s id c, dynamic = Some s ∧ clients (db s) !! id = Some c ∧
    c_public_key c = Some (public_key_to_string key) ∧ is_active_row c = true ∧ c_display_id c = name.

Definition key_fingerprint (key : list byte) : list byte := fingerprint_to_string (fingerprint key).

(** The tables hold the clients inserted so far; the fingerprints lead back to the names. *)
Definition tables_of (done : list AuthorizedClient) (entries : gmap (list byte) AuthorizationEntry)
    (names : gmap (list byte) (list byte)) : Prop :=
  (∀ name e, entries !! name = Some e ↔ ∃ ac, ac ∈ done ∧ az_name ac = name ∧
     public_key_from_str (az_public_key ac) = Ok (ae_public_key e) ∧
     ae_fingerprint e = key_fingerprint (ae_public_key e) ∧ ae_enabled e = az_enabled ac) ∧
  (∀ name e, entries !! name = Some e → names !! ae_fingerprint e = Some name).

Lemma insert_clients_Ok clients : ∀ done entries names entries' names',
  tables_of done entries names → insert_clients clients entries names = Ok (entries', names') →
  tables_of (done ++ clients) entries' names'.
Proof.
  induction clients as [|ac clients IH]; simpl; intros done entries names entries' names' Ht H.
  { injection H as <- <-. by rewrite app_nil_r. }
  apply res_bind_Ok in H as (key&Hkey%map_err_Ok&H).
  destruct (bool_decide (is_Some (entries !! az_name ac))) eqn:Hn; [done|].
  destruct (bool_decide (is_Some (names !! _))) eqn:Hf; [done|]. simpl in H.
  apply bool_decide_eq_false, eq_None_not_Some in Hn. apply bool_decide_eq_false, eq_None_not_Some in Hf.
  apply IH with (done := done ++ [ac]) in H; [by rewrite <- app_assoc in H|]. destruct Ht as [He Hb]. split.
  - intros name e. rewrite lookup_insert_Some, He. split.
    + intros [[<- <-]|[Hne (x&?&?)]]; [exists ac; set_solver|exists x; set_solver].
    + intros (x&[Hx| ->%list_elem_of_singleton]%elem_of_app&Hxn&Hk&Hfp&Hen).
      * right. split; [|by exists x]. intros <-. assert (entries !! az_name ac = Some e) by (apply He; by exists x).
        congruence.
      * left. split; [done|]. destruct e. simpl in *. rewrite Hkey in Hk. injection Hk as <-. by subst.
  - intros name e [[<- <-]|[Hne H0]]%lookup_insert_Some; [apply lookup_insert_eq|].
    rewrite lookup_insert_ne; [by apply Hb|]. intros Heq. apply Hb in H0. congruence.
Qed.

Lemma configured_name_Some clients a name key n :
  tables_of clients (entries_by_name a) (names_by_fingerprint a) →
  configured_name a name key (key_fingerprint key) = Some n ↔ configured clients name key ∧ n = name.
Proof.
  intros [He Hb]. unfold configured_name. split.
  - intros (e&H0&H)%bind_Some. case_match eqn:Hc; [|done]. injection H as <-. split; [|done].
    apply andb_true_iff in Hc as [[[Hen Hk]%andb_true_iff _]%andb_true_iff _].
    apply bool_decide_eq_true in Hk as <-. apply He in H0 as (ac&Hac&?&Hkey&_&Hace). exists ac. split_and!; congruence.
  - intros [(ac&Hac&<-&Hen&Hkey) ->].
    set (e := {| ae_public_key := key; ae_fingerprint := key_fingerprint key; ae_enabled := true |}).
    assert (entries_by_name a !! az_name ac = Some e) as H0 by (apply He; exists ac; by rewrite Hen).
    pose proof (Hb _ _ H0) as Hnb. simpl in Hnb. rewrite H0. cbn [mbind option_bind].
    rewrite !bool_decide_eq_true_2 by done. done.
Qed.

Lemma enrolled_name_Some dynamic key n :
  (∀ s, dynamic = Some s → ∃ lim, db_wf lim (db s)) →
  enrolled_name dynamic key = Some n ↔ enrolled dynamic key n.
Proof.
  intros Hwf. unfold enrolled_name, enrolled. destruct dynamic as [s|]; [|naive_solver].
  destruct (Hwf s eq_refl) as [lim Hw]. cbn [mbind option_bind].
  unfold client_by_public_key, found_client.
  destruct (sql_find _ _) as [[id c]|] eqn:Ef.
  - apply sql_find_Some in Ef as [Hid Hk%bool_decide_eq_true].
    pose proof (wf_client _ _ Hw _ _ Hid) as (_&[_ Hr]&_).
    unfold client_from_row, sql_u64. rewrite (proj2 (Z.leb_le _ _) Hr).
    cbn [mbind res_bind res_ok option_bind dc_enabled dc_tombstoned dc_display_id].
    fold (is_active_row c). split.
    + case_match; [|done]. intros [= <-]. by exists s, id, c.
    + intros (s'&id'&c'&[= <-]&Hid'&Hk'&Ha&<-).
      assert (id' = id) as -> by (by eapply (wf_keys _ _ Hw)). simplify_eq. by rewrite Ha.
  - split; [done|]. intros (s'&id&c&[= <-]&Hid&Hk&_). apply (sql_find_None _ _ Ef) in Hid.
    by apply bool_decide_eq_false in Hid.
Qed.

(** C27: Who is accepted: a client is authenticated exactly when the key it presents has the
    fingerprint it announced, belongs to an enabled client of the configuration under the
    claimed name or else to an enrolled, enabled client, whose name it then gets, and has
    signed the transcript of the challenge, session and version of this very handshake. *)
Theorem authentication_exact clients a0 a ps dynamic p answer c :
  new_with_dynamic clients = Ok a0 → begun a0 ps a →
  (∀ s, dynamic = Some s → ∃ lim, db_wf lim (db s)) → version_valid (pa_version p) →
  finish a dynamic p answer = Ok c ↔
  ∃ key name, utf8_valid (ca_public_key answer) = true ∧
    public_key_from_str (ca_public_key answer) = Ok key ∧
    pa_claimed_fingerprint p = hex_bytes (sha256 key) ∧
    (configured clients (pa_client_name p) key ∧ name = pa_client_name p ∨
     ¬ configured clients (pa_client_name p) key ∧ enrolled dynamic key name) ∧
    major (pa_version p) ≤ 255 ∧ minor (pa_version p) ≤ 255 ∧
    verify_bytes key (pending_transcript p (256 * major (pa_version p) + minor (pa_version p)))
      (ca_signature answer) = true ∧
    c = {| ac_name := name; ac_fingerprint := key_fingerprint key; ac_session_id := pa_session_id p |}.
Proof.
  intros Hnew Hbegun Hdyn Hv.
  assert (tables_of clients (entries_by_name a) (names_by_fingerprint a)) as Ht.
  { unfold new_with_dynamic in Hnew. apply res_bind_Ok in Hnew as ([en na]&Hin&[= <-]).
    apply begun_numbered in Hbegun as (_&_&->&->); [|simpl; unfold u64_max; lia].
    apply (insert_clients_Ok clients [] ∅ ∅); [|exact Hin]. split; [|done].
    intros name e. split; [done|]. by intros (?&?%not_elem_of_nil&_). }
  pose proof (configured_name_Some clients a (pa_client_name p)) as Hconf.
  unfold finish. split.
  - intros (u&Hu%guard_err_Ok&H)%res_bind_Ok. apply negb_false_iff in Hu.
    apply res_bind_Ok in H as (key&Hkey%map_err_Ok&H).
    apply res_bind_Ok in H as (wire&Hw%ok_or_Ok&H). unfold fingerprint_to_string in Hw.
    rewrite strip_prefix_str_app in Hw. injection Hw as <-.
    destruct (bool_decide _) eqn:Hfp in H; [|done]. apply bool_decide_eq_true in Hfp. simpl in H.
    apply res_bind_Ok in H as (name&Hname%ok_or_Ok&H). apply res_bind_Ok in H as (v&Hver&H).
    apply res_bind_Ok in H as ([]&Hsig%map_err_Ok&H). injection H as <-.
    apply (transcript_version_Ok _ _ Hv) in Hver as (?&?&->). exists key, name. do 3 (split; [done|]).
    unfold verify_auth in Hsig. split; [|by destruct (verify_bytes _ _ _)].
    destruct (configured_name _ _ _ _) as [n|] eqn:Hc.
    + injection Hname as ->. left. by apply (Hconf key name Ht).
    + right. split; [|by apply enrolled_name_Some]. intros Hk.
      pose proof (proj2 (Hconf key _ Ht) (conj Hk eq_refl)) as Hc'. unfold key_fingerprint in Hc'. congruence.
  - intros (key&name&Hu&Hkey&Hfp&Hname&Hma&Hmi&Hsig&->). rewrite Hu. cbn [negb guard_err mbind res_bind].
    rewrite Hkey. cbn [map_err mbind res_bind].
    assert (strip_prefix_str (str "sha256:") (fingerprint_to_string (fingerprint key)) = Some (hex_bytes (sha256 key)))
      as -> by apply strip_prefix_str_app.
    cbn [ok_or mbind res_bind].
    rewrite bool_decide_eq_true_2 by exact Hfp. cbn [negb].
    assert ((match configured_name a (pa_client_name p) key (key_fingerprint key) with
             | Some n => Some n | None => enrolled_name dynamic key end) = Some name) as Hn.
    { destruct (configured_name _ _ _ _) as [n|] eqn:Hc.
      - apply (Hconf key n Ht) in Hc as [Hc ->]. by destruct Hname as [[_ ->]|[? _]].
      - apply enrolled_name_Some; [done|]. destruct Hname as [[Hk _]|[_ ?]]; [|done].
        pose proof (proj2 (Hconf key _ Ht) (conj Hk eq_refl)). congruence. }
    unfold key_fingerprint in Hn. rewrite Hn. cbn [ok_or mbind res_bind].
    rewrite (proj2 (transcript_version_Ok _ _ Hv) (conj Hma (conj Hmi eq_refl))). cbn [mbind res_bind].
    unfold verify_auth. by rewrite Hsig.
Qed.

(** C28: An answer is good for one session: however the authentications of one server are begun
    and whatever fails in between, no two of them have the same session identifier or the
    same transcript to sign, and the counter never wraps. *)
Theorem answers_bind_one_session clients a0 a ps :
  new_with_dynamic clients = Ok a0 → begun a0 ps a →
  next_session_sequence a ≤ u64_max ∧
  (∀ i j p q, ps !! i = Some p → ps !! j = Some q → pa_session_id p = pa_session_id q → i = j) ∧
  (∀ i j p q v w, ps !! i = Some p → ps !! j = Some q → in_u 16 v → in_u 16 w →
     pending_transcript p v = pending_transcript q w → i = j ∧ v = w).
Proof.
  intros Hnew Hb. unfold new_with_dynamic in Hnew. apply res_bind_Ok in Hnew as ([en na]&_&[= <-]).
  apply begun_numbered in Hb as ([_ Hle]&Hnum&_); [|simpl; unfold u64_max; lia]. split; [done|].
  assert (∀ i p, ps !! i = Some p →
    blen (pa_challenge p) = CHALLENGE_BYTES ∧ blen (pa_session_id p) = SESSION_ID_BYTES) as Hlen.
  { intros i p Hp%list_elem_of_lookup_2. destruct (numbered_below _ _ _ Hnum Hp) as (k&_&Hs).
    split; [apply Hs|by eapply session_id_length]. }
  split; [intros; by eapply numbered_unique|].
  intros i j p q v w Hi Hj Hv Hw He. destruct (Hlen _ _ Hi), (Hlen _ _ Hj).
  apply pending_transcript_inj in He as (_&Hs&->); [|done..]. split; [by eapply numbered_unique|done].
Qed.
End props.

(** * Witnesses *)

(** One client of the configuration authenticates. *)
Definition edge_key : list byte := replicate 32 x05.
Definition edge_clients : list AuthorizedClient :=
  [{| az_name := str "edge"; az_public_key := public_key_to_string edge_key; az_enabled := true |}].
Definition edge_server : Authenticator :=
  match new_with_dynamic edge_clients with
  | Ok a => a
  | _ => {| entries_by_name := ∅; names_by_fingerprint := ∅; next_session_sequence := 0 |}
  end.
Definition edge_hello : ClientHello :=
  {| ch_client_name := str "edge"; ch_fingerprint := hex_bytes (sha256 edge_key);
     ch_heartbeat_interval_secs := 10 |}.
Definition edge_begin (a : Authenticator) : Authenticator * res AuthError PendingAuthentication :=
  begin a edge_hello {| major := 1; minor := 5 |} (Some (replicate 32 x07)) (Some (replicate 24 x08)).
Definition edge_pending (n : Z) : PendingAuthentication :=
  {| pa_client_name := str "edge"; pa_claimed_fingerprint := hex_bytes (sha256 edge_key);
     pa_challenge := replicate 32 x07; pa_session_id := replicate 24 x08 ++ be_bytes 8 n;
     pa_version := {| major := 1; minor := 5 |} |}.
Definition edge_answer : ClientAuthenticate :=
  {| ca_public_key := public_key_to_string edge_key;
     ca_signature := sign_auth edge_key (pending_transcript (edge_pending 0) 261) |}.

Lemma edge_configured : new_with_dynamic edge_clients = Ok edge_server.
Proof. by vm_compute. Qed.
Lemma edge_begun : begun edge_server [edge_pending 1; edge_pending 0] (edge_begin (edge_begin edge_server).1).1.
Proof.
  eapply (begun_next edge_server [edge_pending 0] (edge_begin edge_server).1 edge_hello
    {| major := 1; minor := 5 |} (Some (replicate 32 x07)) (Some (replicate 24 x08))).
  - eapply (begun_next edge_server [] edge_server edge_hello
      {| major := 1; minor := 5 |} (Some (replicate 32 x07)) (Some (replicate 24 x08)));
      [constructor|by intros ? [= <-]..].
  - by intros ? [= <-].
  - by intros ? [= <-].
Qed.

Lemma authentication_exact_witness :
  finish (edge_begin (edge_begin edge_server).1).1 None (edge_pending 0) edge_answer
  = Ok {| ac_name := str "edge"; ac_fingerprint := key_fingerprint edge_key;
          ac_session_id := pa_session_id (edge_pending 0) |}.
Proof.
  apply (authentication_exact edge_clients _ _ _ None (edge_pending 0) edge_answer _
    edge_configured edge_begun); [done|done|].
  exists edge_key, (str "edge"). split; [vm_compute; reflexivity|]. split; [vm_compute; reflexivity|].
  split; [vm_compute; reflexivity|]. split.
  { left. split; [|done]. eexists. split; [apply elem_of_cons; by left|]. by vm_compute. }
  split; [done|]. split; [done|]. split; [vm_compute; reflexivity|reflexivity].
Defined.

Lemma answers_bind_one_session_witness :
  bool_decide (pending_transcript (edge_pending 1) 261 = pending_transcript (edge_pending 0) 261) = false.
Proof.
  apply bool_decide_eq_false_2. intros He. assert (in_u 16 261) as Hv by (split; reflexivity || discriminate).
  destruct (proj2 (proj2 (answers_bind_one_session _ _ _ _ edge_configured edge_begun))
    0%nat 1%nat _ _ 261 261 eq_refl eq_refl Hv Hv He) as [[=] _].
Defined.
