(* ===== verification/ConfigProps.v ===== *)
(** What validation accepts: the specification of each collection, the configuration a server
    applies to a client, and that a validated server can authenticate its clients. *)

From S2P Require Import Prelude.
From S2P Require Import Messages.
From S2P Require Import Text.
From S2P Require Import Peer.
From S2P Require Import CryptoRef.
From S2P Require Import EnrollKeys.
From S2P Require Import Identity.
From S2P Require Import ExternalRef.
From S2P Require Import Config.
From S2P Require Import Auth.
From S2P Require Import AuthProps.
From Stdlib Require Import Strings.Byte.
From stdpp Require Import prelude gmap list strings.

#[local] Open Scope Z_scope.

(** * Specification *)

Definition wire_string (max : Z) (s : list byte) : Prop := trim s ≠ [] ∧ blen s ≤ max.
Definition client_name (s : list byte) : Prop := wire_string MAX_CLIENT_NAME_BYTES s.
(** A host and a port from 1 to 65535 behind the last colon. *)
Definition host_address (s : list byte) : Prop :=
  ∃ host text port, rsplit_once x3a s = Some (host, text) ∧ host_valid host = true ∧
    from_str_radix u32_max 10 text = Some port ∧ 1 ≤ port ≤ u16_max.

Definition tunnel_valid (t : TunnelConfig) : Prop :=
  wire_string MAX_TUNNEL_NAME_BYTES (tc_name t) ∧ host_address (tc_local_addr t) ∧ 1 ≤ tc_remote_port t ≤ u16_max.
Definition export_valid (x : ExportConfig) : Prop :=
  wire_string MAX_TUNNEL_NAME_BYTES (xc_name x) ∧ host_address (xc_local_addr x) ∧
  blen (xc_allowed_peers x) ≤ MAX_ALLOWED_PEERS_PER_EXPORT ∧ Forall client_name (xc_allowed_peers x).
Definition forward_valid (local_name : option (list byte)) (f : ForwardConfig) : Prop :=
  wire_string MAX_TUNNEL_NAME_BYTES (fc_name f) ∧ client_name (fc_peer f) ∧
  wire_string MAX_TUNNEL_NAME_BYTES (fc_export f) ∧ host_address (fc_listen_addr f) ∧ local_name ≠ Some (fc_peer f).
Definition remote_end (t : TunnelConfig) : TunnelProtocol * Z := (tc_protocol t, tc_remote_port t).

Record collections_valid (local_name : option (list byte)) (tunnels : list TunnelConfig)
    (exports : list ExportConfig) (forwards : list ForwardConfig) : Prop := {
  cv_tunnels : Forall tunnel_valid tunnels;
  cv_tunnel_names : NoDup (map tc_name tunnels);
  cv_remote_ends : NoDup (map remote_end tunnels);
  cv_max_tunnels : blen tunnels ≤ MAX_TUNNELS;
  cv_exports : Forall export_valid exports;
  cv_export_names : NoDup (map xc_name exports);
  cv_max_exports : blen exports ≤ MAX_EXPORTS;
  cv_forwards : Forall (forward_valid local_name) forwards;
  cv_forward_names : NoDup (map fc_name forwards);
  cv_max_forwards : blen forwards ≤ MAX_FORWARDS;
}.

(** * Fields *)

Lemma require_Ok b m u : require b m = Ok u ↔ b = true.
Proof. destruct u. unfold require, invalid. by destruct b. Qed.
Lemma require_no_panic b m : require b m ≠ Panic.
Proof. unfold require, invalid. by destruct b. Qed.
Lemma vres_seq {A} (m : vres unit) (k : vres A) a : (_ ← m; k) = Ok a ↔ m = Ok tt ∧ k = Ok a.
Proof. rewrite res_bind_Ok. split; [intros ([]&?&?); done|intros [? ?]; by exists tt]. Qed.

Lemma not_in_gset {A} `{Countable A} (x : A) (s : gset A) : negb (bool_decide (x ∈ s)) = true ↔ x ∉ s.
Proof. rewrite negb_true_iff, bool_decide_eq_false. done. Qed.
Lemma between_Ok a b v : (a <=? v) && (v <=? b) = true ↔ a ≤ v ≤ b.
Proof. rewrite andb_true_iff, !Z.leb_le. done. Qed.

Lemma wire_string_Ok field s max u : validate_wire_string field s max = Ok u ↔ wire_string max s.
Proof.
  unfold validate_wire_string, require_non_empty, wire_string. rewrite vres_seq, !require_Ok.
  rewrite negb_true_iff, bool_decide_eq_false, Z.leb_le. done.
Qed.
Lemma client_name_Ok s u : validate_client_name s = Ok u ↔ client_name s.
Proof. apply wire_string_Ok. Qed.
Lemma host_address_Ok field s u : validate_host_address field s = Ok u ↔ host_address s.
Proof.
  unfold validate_host_address, host_address. destruct (rsplit_once _ _) as [[host text]|]; [|naive_solver].
  rewrite vres_seq, require_Ok. destruct (from_str_radix _ _ _) as [port|] eqn:Hp.
  - rewrite require_Ok, between_Ok. naive_solver.
  - split; [by intros [_ ?]|naive_solver].
Qed.
Lemma peers_Ok peers u : validate_peers peers = Ok u ↔ Forall client_name peers.
Proof.
  destruct u. induction peers as [|p peers IH]; simpl; [by split|].
  rewrite vres_seq, client_name_Ok, Forall_cons, IH. done.
Qed.

(** One name after the other, none of them seen before. *)
Definition fresh_names {A B} `{Countable B} (name : A → B) (l : list A) (seen : gset B) : Prop :=
  NoDup (map name l) ∧ ∀ x, x ∈ l → name x ∉ seen.
Lemma fresh_nil {A B} `{Countable B} (name : A → B) seen : fresh_names name [] seen ↔ True.
Proof. split; [done|]. intros _. split; [constructor|]. by intros x ?%not_elem_of_nil. Qed.
Lemma fresh_cons {A B} `{Countable B} (name : A → B) x l seen :
  fresh_names name (x :: l) seen ↔ name x ∉ seen ∧ fresh_names name l ({[name x]} ∪ seen).
Proof.
  unfold fresh_names. simpl. rewrite NoDup_cons. split.
  - intros [[Hx Hl] Hs]. split; [apply Hs; set_solver|]. split; [done|].
    intros y Hy. apply not_elem_of_union. split; [|apply Hs; set_solver].
    intros Hxy%elem_of_singleton. apply Hx. rewrite <- Hxy. apply list_elem_of_fmap. by exists y.
  - intros (Hx&Hl&Hs). split; [split; [|done]|].
    + intros (y&Hxy&Hy)%list_elem_of_fmap. specialize (Hs y Hy). set_solver.
    + intros y [->|Hy]%elem_of_cons; [done|]. specialize (Hs y Hy). set_solver.
Qed.
Lemma fresh_empty {A B} `{Countable B} (name : A → B) l : fresh_names name l ∅ ↔ NoDup (map name l).
Proof. unfold fresh_names. set_solver. Qed.

(** * Collections *)

Lemma tunnels_Ok tunnels names ends u :
  validate_tunnels tunnels names ends = Ok u ↔
  Forall tunnel_valid tunnels ∧ fresh_names tc_name tunnels names ∧ fresh_names remote_end tunnels ends.
Proof.
  destruct u. revert names ends; induction tunnels as [|t tunnels IH]; intros names ends; simpl.
  { rewrite !fresh_nil. by repeat split. }
  rewrite !vres_seq, IH, wire_string_Ok, host_address_Ok, !require_Ok, between_Ok, !not_in_gset,
    Forall_cons, !fresh_cons. unfold tunnel_valid, remote_end. tauto.
Qed.

Lemma exports_Ok exports names u :
  validate_exports exports names = Ok u ↔ Forall export_valid exports ∧ fresh_names xc_name exports names.
Proof.
  destruct u. revert names; induction exports as [|x exports IH]; intros names; simpl.
  { rewrite fresh_nil. by repeat split. }
  rewrite !vres_seq, IH, wire_string_Ok, host_address_Ok, !require_Ok, Z.leb_le, not_in_gset, peers_Ok,
    Forall_cons, fresh_cons. unfold export_valid. tauto.
Qed.

Lemma forwards_Ok forwards local_name names u :
  validate_forwards forwards local_name names = Ok u ↔
  Forall (forward_valid local_name) forwards ∧ fresh_names fc_name forwards names.
Proof.
  destruct u. revert names; induction forwards as [|f forwards IH]; intros names; simpl.
  { rewrite fresh_nil. by repeat split. }
  rewrite !vres_seq, IH, !wire_string_Ok, client_name_Ok, host_address_Ok, !require_Ok, not_in_gset,
    negb_true_iff, bool_decide_eq_false, Forall_cons, fresh_cons. unfold forward_valid. tauto.
Qed.

Lemma collections_Ok tunnels exports forwards local_name u :
  validate_managed_collections tunnels exports forwards local_name = Ok u ↔
  collections_valid local_name tunnels exports forwards.
Proof.
  unfold validate_managed_collections, at_most.
  rewrite !vres_seq, !require_Ok, tunnels_Ok, exports_Ok, forwards_Ok, !fresh_empty, !Z.leb_le.
  split; [intros (?&(?&?&?)&?&?&(?&?)&?&?); done|intros []; tauto].
Qed.

(** * Applying a managed configuration *)

Lemma collections_any_name local_name tunnels exports forwards :
  collections_valid local_name tunnels exports forwards → collections_valid None tunnels exports forwards.
Proof.
  intros []. split; try done. eapply Forall_impl; [done|]. unfold forward_valid. naive_solver.
Qed.

(** What [validate_client] checks besides the collections. *)
Definition client_base (c : ClientConfig) : Prop :=
  validate_client (with_collections c {| mc_tunnels := []; mc_exports := []; mc_forwards := []; mc_p2p_enabled := false |})
  = Ok tt.
Lemma validate_client_Ok c :
  validate_client c = Ok tt ↔
  client_base c ∧ collections_valid (Some (cl_name (cfg_client c))) (cfg_tunnels c) (cfg_exports c) (cfg_forwards c).
Proof.
  unfold client_base, validate_client. rewrite !vres_seq, <- (collections_Ok _ _ _ _ tt).
  cbn [with_collections cfg_client cfg_p2p cfg_telemetry cfg_tunnels cfg_exports cfg_forwards mc_tunnels mc_exports mc_forwards].
  assert (∀ l, validate_managed_collections [] [] [] l = Ok tt ↔ True) as He by done. rewrite He. tauto.
Qed.

(** Applying a managed configuration to a client's is all or nothing: it succeeds exactly
    when the collections meet their specification - bounded numbers and names, addresses with
    a usable port, no name and no remote port twice, no forward to the client itself - and
    exports and forwards find P2P enabled; then exactly the collections are replaced and the
    file still validates; otherwise nothing changes. *)
Theorem managed_configuration_applied m client :
  validate_client client = Ok tt →
  let '(client', r) := apply_to m client in
  (r = Ok tt ↔
     collections_valid (Some (cl_name (cfg_client client))) (mc_tunnels m) (mc_exports m) (mc_forwards m) ∧
     ((mc_exports m = [] ∧ mc_forwards m = []) ∨ locally_p2p client = true)) ∧
  (r = Ok tt → client' = with_collections client m ∧ validate_client client' = Ok tt ∧
     managed_from_client client' = {| mc_tunnels := mc_tunnels m; mc_exports := mc_exports m;
       mc_forwards := mc_forwards m; mc_p2p_enabled := locally_p2p client |}) ∧
  (r ≠ Ok tt → client' = client).
Proof.
  intros [Hbase _]%validate_client_Ok.
  assert (∀ e, ((negb (bool_decide (mc_exports m = [])) || negb (bool_decide (mc_forwards m = []))) && negb e) = false
    ↔ (mc_exports m = [] ∧ mc_forwards m = []) ∨ e = true) as Hcond.
  { intros []; [rewrite andb_false_r; naive_solver|]. rewrite andb_true_r, orb_false_iff, !negb_false_iff, !bool_decide_eq_true.
    naive_solver. }
  assert (validate_client (with_collections client m) = Ok tt ↔
    collections_valid (Some (cl_name (cfg_client client))) (mc_tunnels m) (mc_exports m) (mc_forwards m)) as Hval.
  { rewrite validate_client_Ok. split; [by intros [_ ?]|]. intros Hc. by split. }
  unfold apply_to. destruct (managed_validate m) as [[]|e|] eqn:Hm; cbn [mbind res_bind].
  - apply collections_Ok in Hm. pose proof (Hcond (locally_p2p client)) as Hp.
    destruct (_ && negb (locally_p2p client)) eqn:Hb; cbn.
    + split; [split; [done|by intros [_ Hc%Hp]]|done].
    + destruct (validate_client (with_collections client m)) as [[]|e|] eqn:Hv; cbn.
      * split; [split; [intros _; split; [by apply Hval|by apply Hp]|done]|]. split; [|done]. by intros _.
      * split; [split; [done|by intros [Hc%Hval _]]|done].
      * split; [split; [done|by intros [Hc%Hval _]]|done].
  - split; [split; [done|]|done]. intros [Hc%collections_any_name%(collections_Ok _ _ _ _ tt) _].
    unfold managed_validate in Hm. by rewrite Hc in Hm.
  - split; [split; [done|]|done]. intros [Hc%collections_any_name%(collections_Ok _ _ _ _ tt) _].
    unfold managed_validate in Hm. by rewrite Hc in Hm.
Qed.

(** * The server's clients *)

Lemma nodup_map_via {A X Y} (f : A → X) (g : A → Y) (l : list A) :
  NoDup (map g l) → (∀ x y, x ∈ l → y ∈ l → f x = f y → g x = g y) → NoDup (map f l).
Proof.
  induction l as [|a l IH]; simpl; [intros; constructor|]. intros [Ha Hl]%NoDup_cons Hfg.
  apply NoDup_cons. split.
  - intros (y&Hy&Hyl)%list_elem_of_fmap. apply Ha. apply list_elem_of_fmap. exists y. split; [|done].
    apply Hfg; [by left|by right|done].
  - apply IH; [done|]. intros x y Hx Hy. apply Hfg; by right.
Qed.
Lemma nodup_map_inj {A Y} (g : A → Y) (l : list A) x y :
  NoDup (map g l) → x ∈ l → y ∈ l → g x = g y → x = y.
Proof.
  induction l as [|a l IH]; simpl; [by intros _ ?%not_elem_of_nil|]. intros [Ha Hl]%NoDup_cons.
  intros [->|Hx]%elem_of_cons [->|Hy]%elem_of_cons Hg; [done|..|by apply IH]; destruct Ha;
    apply list_elem_of_fmap; by eexists.
Qed.

Section server.
Context {P : Primitives} {B : Base64} {E : Ed25519Points} {U : UrlParser}.

(** The 32 bytes behind the prefix of a key's text. *)
Definition key_bytes (text : list byte) : option (list byte) :=
  strip_prefix_str (str "ed25519:") text ≫= standard_decode.

Lemma validate_public_key_Ok text u : validate_public_key text = Ok u ↔ ∃ key, key_bytes text = Some key ∧ blen key = 32.
Proof.
  unfold validate_public_key, key_bytes. destruct (strip_prefix_str _ _) as [t|]; simpl; [|naive_solver].
  destruct (standard_decode t) as [k|]; [|naive_solver]. rewrite require_Ok, Z.eqb_eq. naive_solver.
Qed.

Lemma clients_Ok clients names keys u :
  validate_clients clients names keys = Ok u ↔
  Forall (λ c, client_name (az_name c) ∧ ∃ key, key_bytes (az_public_key c) = Some key ∧ blen key = 32) clients ∧
  fresh_names az_name clients names ∧ fresh_names az_public_key clients keys.
Proof.
  destruct u. revert names keys; induction clients as [|c clients IH]; intros names keys; simpl.
  { rewrite !fresh_nil. by repeat split. }
  rewrite !vres_seq, IH, client_name_Ok, validate_public_key_Ok, !require_Ok, !not_in_gset, Forall_cons, !fresh_cons.
  tauto.
Qed.

Lemma validate_server_clients c : validate_server c = Ok tt → validate_clients (cfg_clients c) ∅ ∅ = Ok tt.
Proof. unfold validate_server. rewrite !vres_seq. tauto. Qed.

Lemma insert_clients_succeed clients : ∀ entries names,
  (∀ ac, ac ∈ clients → ∃ key, public_key_from_str (az_public_key ac) = Ok key) →
  NoDup (map az_name clients) → NoDup (map (λ ac, key_fingerprint <$> key_bytes (az_public_key ac)) clients) →
  (∀ ac, ac ∈ clients → entries !! az_name ac = None) →
  (∀ ac key, ac ∈ clients → public_key_from_str (az_public_key ac) = Ok key → names !! key_fingerprint key = None) →
  ∃ t, insert_clients clients entries names = Ok t.
Proof.
  induction clients as [|ac clients IH]; intros entries names Hk Hn Hf He Hm; simpl; [by eexists|].
  assert (∀ x k, public_key_from_str (az_public_key x) = Ok k → key_bytes (az_public_key x) = Some k) as Hkb.
  { intros x k Hx. unfold public_key_from_str in Hx. unfold key_bytes.
    apply res_bind_Ok in Hx as (p&Hp%ok_or_Ok&Hx). apply res_bind_Ok in Hx as (b&Hb%ok_or_Ok&Hx).
    change PUBLIC_KEY_PREFIX with (str "ed25519:") in Hp. rewrite Hp. simpl. rewrite Hb.
    repeat case_match; by simplify_eq. }
  destruct (Hk ac) as [key Hkey]; [set_solver|]. rewrite Hkey. cbn [map_err mbind res_bind].
  simpl in Hn, Hf. apply NoDup_cons in Hn as [Hn1 Hn2]. apply NoDup_cons in Hf as [Hf1 Hf2].
  rewrite (bool_decide_eq_false_2 (is_Some (entries !! _))) by (rewrite (He ac) by set_solver; by intros [? ?]).
  pose proof (Hm ac key ltac:(set_solver) Hkey) as Hmk. unfold key_fingerprint in Hmk.
  rewrite (bool_decide_eq_false_2 (is_Some (names !! _))) by (rewrite Hmk; by intros [? ?]).
  cbn [orb]. apply IH; [set_solver|done|done|..].
  - intros x Hx. rewrite lookup_insert_ne; [apply He; set_solver|]. intros Heq. apply Hn1. rewrite Heq.
    apply list_elem_of_fmap. by exists x.
  - intros x k Hx Hxk. rewrite lookup_insert_ne; [eapply (Hm x); [by apply elem_of_cons; right|done]|]. intros Heq. apply Hf1.
    rewrite (Hkb _ _ Hkey). simpl. unfold key_fingerprint at 1. rewrite Heq. fold (key_fingerprint k).
    apply list_elem_of_fmap. exists x. split; [|done]. by rewrite (Hkb _ _ Hxk).
Qed.

(** A server file that validates can authenticate its clients: when every configured key is a
    usable curve point in its canonical text and no two of the keys have the same digest, the authenticator is built, and each enabled client is known under its name by
    exactly its key. *)
Theorem validated_server_authenticates c :
  validate_server c = Ok tt →
  (∀ ac key, ac ∈ cfg_clients c → key_bytes (az_public_key ac) = Some key → is_point key = true ∧ is_weak key = false) →
  (∀ ac key, ac ∈ cfg_clients c → key_bytes (az_public_key ac) = Some key → public_key_to_string key = az_public_key ac) →
  (∀ ac ac' k k', ac ∈ cfg_clients c → ac' ∈ cfg_clients c → key_bytes (az_public_key ac) = Some k →
     key_bytes (az_public_key ac') = Some k' → sha256 k = sha256 k' → k = k') →
  ∃ a, new_with_dynamic (cfg_clients c) = Ok a ∧
    ∀ ac key, ac ∈ cfg_clients c → az_enabled ac = true → key_bytes (az_public_key ac) = Some key →
      ∀ key', configured_name a (az_name ac) key' (key_fingerprint key') = Some (az_name ac) ↔ key' = key.
Proof.
  intros Hv Hpt Hcanon Hinj. apply validate_server_clients, clients_Ok in Hv as (Hall&Hn&Hk).
  apply fresh_empty in Hn, Hk. rewrite Forall_forall in Hall.
  assert (∀ ac key, ac ∈ cfg_clients c → key_bytes (az_public_key ac) = Some key →
    public_key_from_str (az_public_key ac) = Ok key) as Hkey.
  { intros ac key Hac Hb. destruct (Hall ac Hac) as (_&k&Hk'&Hlen). rewrite Hb in Hk'. injection Hk' as <-.
    destruct (Hpt ac key Hac Hb) as [Hp Hw]. unfold key_bytes in Hb. apply bind_Some in Hb as (t&Ht&Hd).
    unfold public_key_from_str. change PUBLIC_KEY_PREFIX with (str "ed25519:"). rewrite Ht. cbn.
    rewrite Hd. cbn. by rewrite Hlen, Hp, Hw. }
  assert (∀ ac ac' k, ac ∈ cfg_clients c → ac' ∈ cfg_clients c → key_bytes (az_public_key ac) = Some k →
    key_bytes (az_public_key ac') = Some k → az_public_key ac = az_public_key ac') as Htext.
  { intros ac ac' k Hac Hac' Hb Hb'. by rewrite <- (Hcanon _ _ Hac Hb), <- (Hcanon _ _ Hac' Hb'). }
  destruct (insert_clients_succeed (cfg_clients c) ∅ ∅) as [[en na] Hins]; [|done|..|done|done|].
  - intros ac Hac. destruct (Hall ac Hac) as (_&k&Hb&_). exists k. by apply Hkey.
  - apply (nodup_map_via _ az_public_key); [done|]. intros x y Hx Hy He.
    destruct (Hall x Hx) as (_&kx&Hbx&_). destruct (Hall y Hy) as (_&ky&Hby&_).
    rewrite Hbx, Hby in He. injection He as He. apply hex_bytes_inj in He.
    assert (kx = ky) as -> by (by eapply (Hinj x y)). by eapply Htext.
  - exists {| entries_by_name := en; names_by_fingerprint := na; next_session_sequence := 0 |}.
    split; [unfold new_with_dynamic; by rewrite Hins|]. intros ac key Hac Hen Hb key'.
    rewrite (configured_name_Some (cfg_clients c)).
    + split; [|intros ->; split; [exists ac; repeat (split; [done|]); by apply Hkey|done]].
      intros [(x&Hx&Hxn&_&Hxk) _]. assert (x = ac) as -> by (by eapply (nodup_map_inj az_name)).
      rewrite (Hkey _ _ Hac Hb) in Hxk. by injection Hxk as ->.
    + apply (insert_clients_Ok _ [] ∅ ∅); [|exact Hins]. split; [|done].
      intros name e. split; [done|]. by intros (?&?%not_elem_of_nil&_).
Qed.
End server.

(** * Placeholders *)

Lemma split_once_str_length pattern s l r :
  split_once_str pattern s = Some (l, r) → (length r + length pattern ≤ length s)%nat.
Proof.
  revert l; induction s as [|b s IH]; intros l; [done|]. cbn [split_once_str].
  destruct (strip_prefix_str pattern (b :: s)) as [rest|] eqn:Hp.
  - intros [= <- <-]. apply strip_prefix_str_Some in Hp. rewrite Hp, length_app. lia.
  - destruct (split_once_str pattern s) as [[l' r']|]; [|done]. intros [= <- <-]. specialize (IH _ eq_refl).
    simpl. lia.
Qed.
(** Each round consumes a placeholder: the loop ends with a result. *)
Lemma interpolate_loop_total environment fuel s :
  (length s ≤ fuel)%nat → is_Some (interpolate_loop fuel environment s).
Proof.
  revert s; induction fuel as [|fuel IH]; intros s Hs.
  - destruct s; [by eexists|simpl in Hs; lia].
  - simpl. destruct (split_once_str _ s) as [[before after_open]|] eqn:Hsp; [|by eexists].
    apply split_once_str_length in Hsp. simpl in Hsp.
    destruct (split_once _ after_open) as [[variable rest]|] eqn:Hv; [|by eexists].
    destruct (negb _); [by eexists|]. destruct (environment variable) as [value|]; [|by eexists].
    apply split_once_Some in Hv as [-> _]. rewrite length_app in Hsp. simpl in Hsp.
    destruct (IH rest) as [r Hr]; [lia|]. rewrite Hr. destruct r; by eexists.
Qed.
Lemma interpolate_total environment source : is_Some (interpolate environment source).
Proof. apply interpolate_loop_total. lia. Qed.
Example interpolate_value :
  interpolate (λ v, if bool_decide (v = str "HOME") then Some (str "C:\x") else None) (str "a ${HOME} b")
  = Some (Ok (str "a C:\\x b")).
Proof. by vm_compute. Qed.

(** * Witnesses *)

Definition sample_client : ClientConfig :=
  {| cfg_client :=
       {| cl_name := str "edge"; cl_profile := None; cl_identity_mode := None;
          cl_server_addr := str "vps.example:7443"; cl_server_name := str "vps.example";
          cl_certificate_authority_file := str "ca.pem"; cl_trust_mode := None;
          cl_server_certificate_fingerprint := None; cl_private_key_file := str "key";
          cl_heartbeat_interval_secs := 10 |};
     cfg_p2p := None; cfg_telemetry := None; cfg_tunnels := []; cfg_exports := []; cfg_forwards := [] |}.
Definition sample_managed : ManagedConfiguration :=
  {| mc_tunnels := [{| tc_name := str "web"; tc_protocol := Tcp; tc_local_addr := str "[::1]:80"; tc_remote_port := 8080 |};
                    {| tc_name := str "dns"; tc_protocol := Udp; tc_local_addr := str "localhost:53"; tc_remote_port := 8080 |}];
     mc_exports := []; mc_forwards := []; mc_p2p_enabled := false |}.
Lemma managed_configuration_applied_witness :
  apply_to sample_managed sample_client = (with_collections sample_client sample_managed, Ok tt).
Proof.
  pose proof (managed_configuration_applied sample_managed sample_client ltac:(vm_compute; reflexivity)) as H.
  destruct (apply_to sample_managed sample_client) as [client' r] eqn:Ha. destruct H as (_&H&_).
  assert (r = Ok tt) as Hr by (apply (f_equal snd) in Ha; cbn [snd] in Ha; rewrite <- Ha; vm_compute; reflexivity).
  destruct (H Hr) as [-> _]. by rewrite Hr.
Defined.

#[local] Instance no_urls : UrlParser := { url_parse _ := None }.
Definition sample_server : ServerConfig :=
  {| cfg_server :=
       {| sv_bind_addr := str "[::]:7443"; sv_tls_server_name := Some (str "vps.example"); sv_udp_bind_ip := None;
          sv_p2p_observation_bind := None; sv_p2p_observation_alternate_bind := None;
          sv_certificate_file := str "cert.pem"; sv_private_key_file := str "key.pem";
          sv_heartbeat_timeout_secs := 30 |};
     cfg_limits :=
       {| lim_max_clients := 100; lim_max_tunnels_per_client := 16; lim_max_tcp_connections_per_tunnel := 64;
          lim_max_udp_sessions_per_tunnel := 64; lim_max_udp_payload_bytes := 65507 |};
     cfg_clients := [{| az_name := str "edge"; az_public_key := public_key_to_string edge_key; az_enabled := true |}];
     cfg_web := None; cfg_enrollment := None; cfg_managed_database_path := None |}.
Lemma sample_server_valid : validate_server sample_server = Ok tt.
Proof. vm_compute. reflexivity. Qed.

Lemma validated_server_authenticates_witness :
  ∃ a, new_with_dynamic (cfg_clients sample_server) = Ok a ∧
    configured_name a (str "edge") edge_key (key_fingerprint edge_key) = Some (str "edge").
Proof.
  assert (∀ ac, ac ∈ cfg_clients sample_server →
    ac = {| az_name := str "edge"; az_public_key := public_key_to_string edge_key; az_enabled := true |}) as Hone
    by (intros ac Hac; apply list_elem_of_singleton in Hac; exact Hac).
  destruct (validated_server_authenticates sample_server sample_server_valid) as (a&Ha&Hname).
  - intros ac key _ _. split; reflexivity.
  - intros ac key Hac Hk. rewrite (Hone ac Hac) in *. vm_compute in Hk. injection Hk as <-. vm_compute. reflexivity.
  - intros ac ac' k k' Hac Hac' Hk Hk' _. rewrite (Hone ac Hac) in Hk. rewrite (Hone ac' Hac') in Hk'. congruence.
  - exists a. split; [exact Ha|].
    refine (proj2 (Hname {| az_name := str "edge"; az_public_key := public_key_to_string edge_key;
                            az_enabled := true |} edge_key _ _ _ edge_key) _);
      [apply list_elem_of_singleton; reflexivity|reflexivity|vm_compute; reflexivity|reflexivity].
Defined.
