(* ===== verification/EnrollService.v ===== *)
(** The enrollment exchange of the server ([serve_enrollment] in [rustgos/src/control.rs]):
    one request on a connection that is not authenticated, answered from the enrollment store.

    Sending and its time limit are I/O; the answer and what it does to the store and to the
    registry are the model.  The call into the store runs on a blocking thread: when it is not
    done in time the client is told that the service is unavailable and the call still takes
    effect. *)

From S2P Require Import Prelude.
From S2P Require Import Messages.
From S2P Require Import Frame.
From S2P Require Import Handshake.
From S2P Require Import Text.
From S2P Require Import Peer.
From S2P Require Import EnrollKeys.
From S2P Require Import Identity.
From S2P Require Import Registry.
From S2P Require Import Enrollment.
From S2P Require Import Approval.
From Stdlib Require Import Strings.Byte.
From stdpp Require Import prelude gmap list strings.

#[local] Open Scope Z_scope.

Definition SERVER_VERSION : ProtocolVersion := Version.SUPPORTED.
Definition ENROLLMENT_PROTOCOL_VERSION : Z := 1.

(** What the exchange uses of [EnrollmentManagement]. *)
Record EnrollmentManagement := {
  em_store : DynamicClientStore;
  em_registry : option ClientRegistry;
}.

(** What is read from outside: the time given to the store, its random bytes and its clock,
    and whether the call is done before the deadline. *)
Record EnrollEnv := {
  ee_now : Z;
  ee_random : list byte;
  ee_clock : nat → Z;
  ee_in_time : bool;
}.

Definition enrollment_failure (error : EnrollmentErrorCode) : Message :=
  MEnrollmentResult {| erm_protocol_version := ENROLLMENT_PROTOCOL_VERSION; erm_accepted := false;
                       erm_client_id := None; erm_revision := None; erm_error := Some error |}.

Definition map_enrollment_error (error : EnrollmentStoreError) : EnrollmentErrorCode :=
  match error with
  | Enrollment.ApprovalPending => PendingApproval
  | Enrollment.ReplacementApprovalPending => Messages.ReplacementApprovalPending
  | Enrollment.ApprovalRejected => Messages.ApprovalRejected
  | TokenExpired => Expired
  | TokenAlreadyUsed => AlreadyUsed
  | Enrollment.PurposeMismatch => Messages.PurposeMismatch
  | ClientDisabled => Disabled
  | StaticIdentityConflict => AlreadyBound
  | Enrollment.PublicKeyConflict => Messages.PublicKeyConflict
  | ClientCapacity | TokenCapacity => CapacityReached
  | Database => Unavailable
  | _ => InvalidKey
  end.

Section service.
Context {P : Primitives} {B : Base64} {E : Ed25519Points}.

(** What the proof of a registration intent signs. *)
Definition approval_transcript (request_id intent : list byte) : list byte :=
  AuthTranscript_new (str "rustgo-approval-v1") request_id 1 intent.
Definition intent_proved (public_key request_id : list byte) (intent : RegistrationIntent) : bool :=
  match ri_signature intent with
  | Some proof =>
    match verify_auth public_key (approval_transcript request_id (ri_encode intent)) proof with
    | Ok _ => true
    | _ => false
    end
  | None => false
  end.

(** The call into the store. *)
Definition store_request (s : DynamicClientStore) (approval : option RegistrationIntent)
    (enrollment_key public_key request_id : list byte) (env : EnrollEnv)
    : DynamicClientStore * result EnrollmentResult :=
  match approval with
  | Some intent =>
    if ri_profile intent then
      request_profile_approval s (ri_client_name intent) (ri_uid intent) (ri_purpose intent)
        public_key request_id (ee_now env) (ee_random env) (ee_clock env)
    else
      request_approval s (ri_client_name intent) (ri_purpose intent) public_key request_id
        (ee_now env) (ee_random env) (ee_clock env)
  | None => consume_token s enrollment_key public_key request_id (ee_now env) (ee_clock env)
  end.

(** A re-enrollment ends the session of the old key. *)
Definition after_enrollment (registry : option ClientRegistry) (reenrollment : bool) (display_id : list byte)
    : option ClientRegistry :=
  if reenrollment then (λ r, (terminate_by_name r display_id).2) <$> registry else registry.

Definition enrollment_answer (r : EnrollmentResult) : res unit Message :=
  if MAX_CLIENT_NAME_BYTES <? blen (er_display_id r) then Err tt
  else
    Ok (MEnrollmentResult {| erm_protocol_version := ENROLLMENT_PROTOCOL_VERSION; erm_accepted := true;
                             erm_client_id := Some (er_display_id r);
                             erm_revision := Some (er_revision r); erm_error := None |}).

(** What the exchange leaves, and the version and message it sends with the limiter's outcome;
    [Err] is [ControlError::InvalidState], after which nothing is sent. *)
Definition served : Type :=
  option EnrollmentManagement * res unit (ProtocolVersion * Message * bool).

Definition refuse_enrollment (management : option EnrollmentManagement) (version : ProtocolVersion)
    (error : EnrollmentErrorCode) : served :=
  (management, Ok (version, enrollment_failure error, false)).

Definition store_answer (m : EnrollmentManagement) (reenrollment in_time : bool)
    (negotiated : ProtocolVersion) (result : DynamicClientStore * result EnrollmentResult) : served :=
  let m := {| em_store := result.1; em_registry := em_registry m |} in
  if in_time then
    match result.2 with
    | Ok r =>
      (Some {| em_store := em_store m;
               em_registry := after_enrollment (em_registry m) reenrollment (er_display_id r) |},
       message ← enrollment_answer r; Ok (negotiated, message, true))
    | Err Enrollment.ApprovalPending => (Some m, Ok (negotiated, enrollment_failure PendingApproval, true))
    | Err Enrollment.ReplacementApprovalPending =>
      (Some m, Ok (negotiated, enrollment_failure Messages.ReplacementApprovalPending, true))
    | Err error => (Some m, Ok (negotiated, enrollment_failure (map_enrollment_error error), false))
    | Panic => (Some m, Ok (negotiated, enrollment_failure Unavailable, false))
    end
  else (Some m, Ok (negotiated, enrollment_failure Unavailable, false)).

Definition serve_enrollment (management : option EnrollmentManagement) (request : EnrollmentRequest)
    (client_version : ProtocolVersion) (env : EnrollEnv) : served :=
  match Version.negotiate SERVER_VERSION client_version with
  | Ok negotiated =>
    if negb (er_protocol_version request =? ENROLLMENT_PROTOCOL_VERSION)
    then refuse_enrollment management negotiated Messages.UnsupportedVersion
    else
      match management with
      | None => refuse_enrollment management negotiated Unavailable
      | Some m =>
        let parsed := if utf8_valid (er_public_key request)
                      then res_ok (public_key_from_str (er_public_key request)) else None in
        match parsed with
        | None => refuse_enrollment management negotiated InvalidKey
        | Some public_key =>
          let approval := res_ok (ri_decode (er_enrollment_key request)) in
          if match approval with
             | Some intent => negb (intent_proved public_key (er_request_id request) intent)
             | None => false
             end
          then refuse_enrollment management negotiated InvalidKey
          else
            let reenrollment :=
              match ekm_decode (er_enrollment_key request) with
              | Ok key => bool_decide (ekm_purpose key = ReEnroll)
              | _ => false
              end in
            store_answer m reenrollment (ee_in_time env) negotiated
              (store_request (em_store m) approval (er_enrollment_key request) public_key
                 (er_request_id request) env)
        end
      end
  | _ => refuse_enrollment management SERVER_VERSION Messages.UnsupportedVersion
  end.
End service.
