(* ===== verification/EnrollServiceProps.v ===== *)
(** The theorems of the enrollment exchange: what a positive answer means, that a request can be
    repeated when its answer was lost, and that the proof of a registration is no answer to a
    challenge. *)

From S2P Require Import Prelude.
From S2P Require Import Messages.
From S2P Require Import Frame.
From S2P Require Import Handshake.
From S2P Require Import Text.
From S2P Require Import Peer.
From S2P Require Import PeerCodecs.
From S2P Require Import CryptoRef.
From S2P Require Import EnrollKeys.
From S2P Require Import EnrollKeysFacts.
From S2P Require Import Identity.
From S2P Require Import ExternalRef.
From S2P Require Import Registry.
From S2P Require Import Enrollment.
From S2P Require Import Approval.
From S2P Require Import EnrollmentFacts.
From S2P Require Import EnrollmentInv.
From S2P Require Import EnrollmentProps.
From S2P Require Import Auth.
From S2P Require Import AuthProps.
From S2P Require Import EnrollService.
From Stdlib Require Import Strings.Byte.
From stdpp Require Import prelude gmap list strings relations.

#[local] Open Scope Z_scope.

Section props.
Context {P : Primitives} {HP : PrimitivesLaws P} {B : Base64} {HB : Base64Laws B} {E : Ed25519Points}.
Implicit Types m : EnrollmentManagement.

(** The first bytes of a text tell a registration intent from an enrollment key. *)
Lemma intent_is_no_key encoded k : ekm_decode encoded = Ok k → ∀ i, ri_decode encoded ≠ Ok i.
Proof.
  intros Hk i Hi. unfold ekm_decode in Hk. destruct (_ || _); [done|].
  apply res_bind_Ok in Hk as (rest&Hpre%ok_or_Ok&_). apply strip_prefix_str_Some in Hpre as ->.
  unfold ri_decode in Hi. case_match; [done|]. apply res_bind_Ok in Hi as ([intent sig]&Hs&Hi).
  apply res_bind_Ok in Hi as (r&Hr&_).
  assert (∃ tail, intent = str "rustgo-e" ++ tail) as [tail ->].
  { unfold split_proof in Hs. destruct (split_once _ _) as [[a b]|] eqn:Hsp.
    - case_match; [done|]. apply res_bind_Ok in Hs as (?&_&[= <- _]).
      apply split_once_Some in Hsp as [He Hn]. unfold PREFIX in He. simpl in He.
      do 8 (destruct a as [|? a]; [discriminate He|]; injection He as <- He). by exists a.
    - injection Hs as <- _. by eexists. }
  unfold decode_intent in Hr. apply res_bind_Ok in Hr as ([? ?]&Hp%ok_or_Ok&_).
  apply bind_Some in Hp as (?&Hp%strip_prefix_str_Some&_).
  destruct (starts_with _ _); unfold INTENT_V1, INTENT_V2 in Hp; simpl in Hp; discriminate Hp.
Qed.

(** A request that reaches the store, and what it is answered. *)
Inductive reaches (m : EnrollmentManagement) (request : EnrollmentRequest) (version : ProtocolVersion) :
    option RegistrationIntent → list byte → bool → ProtocolVersion → Prop :=
| reaches_store approval key reenrollment negotiated :
    Version.negotiate SERVER_VERSION version = Ok negotiated →
    er_protocol_version request = ENROLLMENT_PROTOCOL_VERSION →
    utf8_valid (er_public_key request) = true →
    public_key_from_str (er_public_key request) = Ok key →
    approval = res_ok (ri_decode (er_enrollment_key request)) →
    (∀ intent, approval = Some intent → intent_proved key (er_request_id request) intent = true) →
    reenrollment = match ekm_decode (er_enrollment_key request) with
                   | Ok k => bool_decide (ekm_purpose k = ReEnroll) | _ => false end →
    reaches m request version approval key reenrollment negotiated.

Lemma serve_cases m request version env :
  (∃ v e, serve_enrollment (Some m) request version env = refuse_enrollment (Some m) v e) ∨
  (∃ approval key reenrollment negotiated, reaches m request version approval key reenrollment negotiated ∧
     serve_enrollment (Some m) request version env =
       store_answer m reenrollment (ee_in_time env) negotiated
         (store_request (em_store m) approval (er_enrollment_key request) key (er_request_id request) env)).
Proof.
  unfold serve_enrollment. destruct (Version.negotiate _ _) as [n| |] eqn:Hn; [|left; by eexists _, _..].
  destruct (er_protocol_version request =? _) eqn:Hv; cbn [negb]; [|left; by eexists _, _].
  destruct (utf8_valid _) eqn:Hu; [|left; by eexists _, _].
  destruct (public_key_from_str _) as [key| |] eqn:Hk; [|left; by eexists _, _..]. cbn [res_ok].
  match goal with |- context [if ?b then refuse_enrollment _ _ _ else _] => destruct b eqn:Hp end;
    [left; by eexists _, _|].
  right. eexists _, key, _, n. split; [|reflexivity]. apply Z.eqb_eq in Hv. econstructor; try done.
  intros i Hi. rewrite Hi in Hp. by apply negb_false_iff in Hp.
Qed.

Lemma serve_reaches m request version approval key reenrollment negotiated env :
  reaches m request version approval key reenrollment negotiated →
  serve_enrollment (Some m) request version env =
    store_answer m reenrollment (ee_in_time env) negotiated
      (store_request (em_store m) approval (er_enrollment_key request) key (er_request_id request) env).
Proof.
  intros [???? Hn Hv Hu Hk -> Hp ->]. unfold serve_enrollment. rewrite Hn, Hv, Z.eqb_refl, Hu, Hk.
  cbn [negb res_ok]. destruct (ri_decode _) as [i| |]; simpl; [|done..]. by rewrite (Hp i eq_refl).
Qed.

Lemma store_request_call s approval text key request_id env :
  store_call s (store_request s approval text key request_id env).1.
Proof.
  unfold store_request. destruct approval as [i|]; [|apply sc_consume].
  destruct (ri_profile i); apply sc_request.
Qed.

Lemma store_answer_store m re t v r (m' : option EnrollmentManagement) a :
  store_answer m re t v r = (m', a) → ∃ reg, m' = Some {| em_store := r.1; em_registry := reg |}.
Proof.
  unfold store_answer. destruct t; [|intros [= <- _]; by eexists].
  destruct r.2 as [x|e|]; [|destruct e|]; intros [= <- _]; by eexists.
Qed.

Lemma store_answer_accepted m re t v r (m' : option EnrollmentManagement) version message ok :
  store_answer m re t v r = (m', Ok (version, MEnrollmentResult message, ok)) → erm_accepted message = true →
  t = true ∧ ok = true ∧ version = v ∧ ∃ x, r.2 = Ok x ∧ blen (er_display_id x) ≤ MAX_CLIENT_NAME_BYTES ∧
    erm_client_id message = Some (er_display_id x) ∧ erm_revision message = Some (er_revision x).
Proof.
  unfold store_answer, enrollment_failure. destruct t; [|by intros [= _ _ <- _]].
  destruct r.2 as [x|e|]; [|destruct e; by intros [= _ _ <- _]|by intros [= _ _ <- _]].
  unfold enrollment_answer. destruct (Z.ltb_spec MAX_CLIENT_NAME_BYTES (blen (er_display_id x))); [done|].
  intros [= _ <- <- <-] _. do 3 (split; [done|]). by exists x.
Qed.

(** The proof of a registration signs another text than the answer to any challenge, and it
    determines the request and the intent it is for. *)
Lemma approval_transcript_separate p v request_id intent :
  blen (pa_challenge p) = CHALLENGE_BYTES → approval_transcript request_id intent ≠ pending_transcript p v.
Proof.
  intros Hp He. unfold approval_transcript, pending_transcript, AuthTranscript_new, append_u16 in He.
  rewrite !append_bytes_eq, <- !app_assoc in He. apply app_inv_head in He.
  apply (prefix_inj (wf := slice_wf)) in He as [Hc _].
  - rewrite <- Hc in Hp. by vm_compute in Hp.
  - by vm_compute.
  - unfold slice_wf, u32_max. rewrite Hp. done.
Qed.

Lemma redeemed_material s text key request now clock x :
  (consume_token s text key request now clock).2 = Ok x →
  ∃ material, ekm_decode text = Ok material ∧
    consume_token s text key request now clock = ((consume_token s text key request now clock).1, Ok x).
Proof.
  intros Hx. destruct (consume_token s text key request now clock) as [s' res] eqn:Ht.
  simpl in *. subst res. unfold consume_token, commit in Ht.
  destruct (consume_tx _ _ _ _ _ _) as [[d a]| |] eqn:Etx; [|done..].
  apply consume_tx_Ok in Etx as (material&_&_&_&Hm&_). by exists material.
Qed.

Lemma store_request_intent s i text key request_id env :
  ∃ name uid profile, store_request s (Some i) text key request_id env =
    request_approval_inner s name uid profile (ri_purpose i) key request_id (ee_now env) (ee_random env)
      (ee_clock env).
Proof. unfold store_request. destruct (ri_profile i); by eexists _, _, _. Qed.

(** C29: What a positive answer to an enrollment request means: the key is a valid key; either
    the request is a registration intent that this key has signed for this very request and
    that the administrator has approved - then nothing changes - or it is an enrollment key
    that was redeemed for this key; the revision is the client's; and a negative answer, too,
    leaves the store with the effect of at most one call. *)
Theorem enrollment_served_soundly m request version env m' answer :
  serve_enrollment (Some m) request version env = (Some m', answer) →
  (em_store m' = em_store m ∨ store_call (em_store m) (em_store m')) ∧
  (∀ v message ok, answer = Ok (v, MEnrollmentResult message, ok) → erm_accepted message = true →
   ok = true ∧ ∃ key x, public_key_from_str (er_public_key request) = Ok key ∧
     erm_client_id message = Some (er_display_id x) ∧ erm_revision message = Some (er_revision x) ∧
     ((∃ intent proof r id c, ri_decode (er_enrollment_key request) = Ok intent ∧
         ri_signature intent = Some proof ∧
         verify_bytes key (approval_transcript (er_request_id request) (ri_encode intent)) proof = true ∧
         em_store m' = em_store m ∧ registrations (db (em_store m)) !! er_request_id request = Some r ∧
         r_status r = APPROVED ∧ clients (db (em_store m)) !! id = Some c ∧ is_active_row c = true ∧
         c_public_key c = Some (public_key_to_string key) ∧ c_revision c = er_revision x) ∨
      (∃ material, ekm_decode (er_enrollment_key request) = Ok material ∧
         consume_token (em_store m) (er_enrollment_key request) key (er_request_id request)
           (ee_now env) (ee_clock env) = (em_store m', Ok x)))).
Proof.
  intros H. destruct (serve_cases m request version env)
    as [(v&e&Hs)|(?&?&?&?&[approval key re n Hn Hv Hu Hk -> Hp _]&Hs)].
  { rewrite Hs in H. injection H as <- <-. split; [by left|]. by intros ??? [= _ <- _]. }
  rewrite Hs in H. pose proof (store_answer_store _ _ _ _ _ _ _ H) as (reg&[= ->]). simpl. split.
  { right. apply store_request_call. }
  intros v message ok -> Hacc.
  destruct (store_answer_accepted _ _ _ _ _ _ _ _ _ H Hacc) as (_&->&_&y&Hx&_&Hid&Hrev).
  split; [done|]. exists key, y. do 3 (split; [done|]).
  destruct (ri_decode (er_enrollment_key request)) as [i| |] eqn:Hi; cbn [res_ok] in *.
  - left. specialize (Hp i eq_refl). unfold intent_proved, verify_auth in Hp.
    destruct (ri_signature i) as [proof|] eqn:Hproof; [|done].
    destruct (verify_bytes _ _ _) eqn:Hver; [|done].
    destruct (store_request_intent (em_store m) i (er_enrollment_key request) key (er_request_id request) env)
      as (name&uid&profile&Heq).
    rewrite Heq in Hx |- *. destruct (request_approval_inner _ _ _ _ _ _ _ _ _ _) as [s' res] eqn:Hr.
    simpl in Hx. subst res. apply approval_answer in Hr as (->&r&id&c&?&?&?&?&?&?&?&?).
    exists i, proof, r, id, c. done.
  - right. by apply redeemed_material.
  - right. by apply redeemed_material.
Qed.

Lemma consume_unchanged s text key request now clock s' a :
  (∀ x, a ≠ Ok x) → consume_token s text key request now clock = (s', a) → s' = s.
Proof.
  intros Ha. unfold consume_token, commit. destruct (consume_tx _ _ _ _ _ _) as [[d b]| |] eqn:Et;
    [|by intros [= <- _]..].
  apply consume_tx_Ok in Et as (m&t&c&secs&_&_&_&_&[(_&_&_&->&rev&_&->)|(_&_&_&_&->&_)]);
    intros [= <- <-]; [by destruct s|by edestruct Ha].
Qed.

(** A lost answer does no harm: when a request with an enrollment key has taken effect -
    even if its answer came too late to be sent - then, whatever other calls follow, the same
    request is answered with success as long as the token is stored; it gets the revision the
    first one was given and leaves the store as it is. *)
Theorem lost_answer_retried m0 m1 m2 request version version' env0 env answer0 negotiated lim :
  serve_enrollment (Some m0) request version env0 = (Some m1, answer0) →
  is_ok (ekm_decode (er_enrollment_key request)) → em_store m1 ≠ em_store m0 →
  rtc (call_without (sha256 (er_enrollment_key request))) (em_store m1) (em_store m2) →
  is_Some (tokens (db (em_store m2)) !! sha256 (er_enrollment_key request)) →
  db_wf lim (db (em_store m2)) →
  (∀ id c, clients (db (em_store m2)) !! id = Some c → blen (c_display_id c) ≤ MAX_CLIENT_NAME_BYTES) →
  Version.negotiate SERVER_VERSION version' = Ok negotiated → ee_in_time env = true → 0 ≤ ee_now env →
  ∃ m3 message, serve_enrollment (Some m2) request version' env
      = (Some m3, Ok (negotiated, MEnrollmentResult message, true)) ∧
    em_store m3 = em_store m2 ∧ erm_accepted message = true ∧
    (∀ v message0 ok, answer0 = Ok (v, MEnrollmentResult message0, ok) → erm_accepted message0 = true →
       erm_revision message = erm_revision message0).
Proof.
  intros H0 [k Hk] Hne Hr Ht Hwf Hnames Hn Htime Hnow.
  destruct (serve_cases m0 request version env0) as [(v&e&Hs)|(?&?&?&?&[approval key re n _ Hv Hu Hkey Ha _ Hre]&Hs)].
  { rewrite Hs in H0. by injection H0 as <- _. }
  assert (approval = None) as ->.
  { subst approval. pose proof (intent_is_no_key _ _ Hk). destruct (ri_decode _) as [i| |]; [|done..].
    by destruct (H i). }
  rewrite Hs in H0. pose proof (store_answer_store _ _ _ _ _ _ _ H0) as (reg&[= ->]). cbn [em_store] in *.
  unfold store_request in *.
  destruct (consume_token (em_store m0) (er_enrollment_key request) key (er_request_id request)
    (ee_now env0) (ee_clock env0)) as [s1 res] eqn:Hc. cbn [fst] in *.
  destruct res as [r|e|].
  2,3: destruct Hne; eapply consume_unchanged; [|exact Hc]; done.
  destruct (token_retry _ _ _ _ _ _ _ _ _ _ _ (ee_clock env) Hc Hr Ht Hwf Hnow) as (r'&Hc'&Hrev&id&c&Hid&Hname).
  rewrite (serve_reaches m2 request version' None key re negotiated) by (by constructor). rewrite Htime. unfold store_request. rewrite Hc'.
  unfold store_answer, enrollment_answer. cbn [fst snd]. rewrite Hname.
  rewrite (proj2 (Z.ltb_ge _ _)) by (by eapply Hnames). eexists _, _. split; [reflexivity|].
  do 2 (split; [done|]). intros v message0 ok -> Hacc.
  destruct (store_answer_accepted _ _ _ _ _ _ _ _ _ H0 Hacc) as (_&_&_&y&[= <-]&_&_&->).
  simpl. by rewrite Hrev.
Qed.
End props.

(** * Witnesses *)

(** A token is redeemed over the wire; the answer comes too late and the request is repeated. *)
Definition served_store : EnrollmentManagement := {| em_store := demo_issued; em_registry := None |}.
Definition served_request : EnrollmentRequest :=
  {| er_protocol_version := 1; er_enrollment_key := demo_key;
     er_public_key := public_key_to_string (demo_bytes x05 32); er_request_id := str "req-1" |}.
Definition served_env (in_time : bool) : EnrollEnv :=
  {| ee_now := demo_clock 0; ee_random := []; ee_clock := demo_clock; ee_in_time := in_time |}.
Definition served_after : EnrollmentManagement := {| em_store := demo_consumed; em_registry := None |}.

Lemma served_late :
  serve_enrollment (Some served_store) served_request SERVER_VERSION (served_env false)
  = (Some served_after, Ok (SERVER_VERSION, enrollment_failure Unavailable, false)).
Proof. vm_compute. reflexivity. Qed.
Lemma served_names : map_Forall (λ _ c, blen (c_display_id c) ≤ MAX_CLIENT_NAME_BYTES) (clients (db demo_consumed)).
Proof. apply (bool_decide_unpack _). vm_compute. exact I. Qed.
Lemma served_wf : db_wf demo_limits (db demo_consumed).
Proof.
  assert (rtc store_call (open_new demo_limits) demo_consumed) as Hr.
  { etrans; [apply demo_run|]. apply rtc_once, (sc_consume demo_issued). }
  apply store_calls_steps in Hr as [Hr _]. exact (wf_steps _ _ _ (empty_wf demo_limits ltac:(done) ltac:(done)) Hr).
Qed.
Lemma served_token : bool_decide (tokens (db demo_consumed) !! sha256 demo_key = None) = false
  ∧ bool_decide (t_consumed_at <$> tokens (db demo_issued) !! sha256 demo_key = Some None) = true
  ∧ bool_decide (t_consumed_at <$> tokens (db demo_consumed) !! sha256 demo_key = Some None) = false.
Proof. vm_compute. by split. Qed.

Lemma lost_answer_retried_witness :
  ∃ m3 message, serve_enrollment (Some served_after) served_request SERVER_VERSION (served_env true)
      = (Some m3, Ok (SERVER_VERSION, MEnrollmentResult message, true)) ∧ em_store m3 = demo_consumed.
Proof.
  destruct (lost_answer_retried served_store served_after served_after served_request SERVER_VERSION
    SERVER_VERSION (served_env false) (served_env true) _ SERVER_VERSION demo_limits served_late)
    as (m3&message&H1&H2&_).
  - eexists. vm_compute. reflexivity.
  - intros He. destruct served_token as (_&H1&H2). apply bool_decide_eq_true in H1.
    apply bool_decide_eq_false in H2. apply H2. change demo_consumed with (em_store served_after).
    rewrite He. exact H1.
  - apply rtc_refl.
  - destruct served_token as (H1&_). apply bool_decide_eq_false in H1. apply not_eq_None_Some. exact H1.
  - exact served_wf.
  - exact served_names.
  - reflexivity.
  - reflexivity.
  - vm_compute. discriminate.
  - exists m3, message. exact (conj H1 H2).
Defined.

Lemma enrollment_served_soundly_witness :
  ∃ m3 message x, serve_enrollment (Some served_store) served_request SERVER_VERSION (served_env true)
      = (Some m3, Ok (SERVER_VERSION, MEnrollmentResult message, true)) ∧
    erm_revision message = Some (er_revision x).
Proof.
  destruct (serve_enrollment (Some served_store) served_request SERVER_VERSION (served_env true))
    as [m' answer] eqn:H.
  assert (bool_decide (is_Some m') = true) as Hm by (apply (f_equal fst) in H; cbn [fst] in H; rewrite <- H; vm_compute; reflexivity).
  destruct m' as [m3|]; [|discriminate Hm].
  assert (∃ message, answer = Ok (SERVER_VERSION, MEnrollmentResult message, true) ∧ erm_accepted message = true)
    as (message&Ha&Hacc).
  { apply (f_equal snd) in H. cbn [snd] in H. rewrite <- H. eexists. split; vm_compute; reflexivity. }
  destruct (proj2 (enrollment_served_soundly _ _ _ _ _ _ H) _ _ _ Ha Hacc) as (_&key&x&_&_&Hrev&_).
  exists m3, message, x. split; [rewrite Ha; reflexivity|exact Hrev].
Defined.
