(* ===== verification/ServerHandshake.v ===== *)
(** The handshake of a control connection on the server ([serve_connection] in
    [rustgos/src/control.rs]) from the first frame to the claimed session: version, heartbeat,
    challenge, answer and the registry.  Sending and the time limits are I/O; what is sent and
    what is decided is the model. *)

From S2P Require Import Prelude.
From S2P Require Import Messages.
From S2P Require Import Frame.
From S2P Require Import Control.
From S2P Require Import Handshake.
From S2P Require Import Peer.
From S2P Require Import EnrollKeys.
From S2P Require Import Identity.
From S2P Require Import Enrollment.
From S2P Require Import Registry.
From S2P Require Import Auth.
From Stdlib Require Import Strings.Byte.
From stdpp Require Import prelude gmap list strings.

#[local] Open Scope Z_scope.

(** [ControlError] beyond the errors of [FramedControl], which [Control.ControlError] has. *)
Inductive SessionError :=
| SeControl (e : ControlError)
| SeAuth (e : AuthError)
| SeState (e : StateError)
| SeManaged
| SeHandshakeTimeout
| SeHeartbeatTimeout
| SeClosed
| SeInvalidState
| SeListenerGenerationTerminated.

Definition protocol_error (error : Z) : Message :=
  MError {| em_code := error; em_detail := str "protocol rejected" |}.

(** What a step of the handshake sends, what it tells the attempt limiter and its result. *)
Record HandshakeStep (A : Type) := {
  hs_sent : list (ProtocolVersion * Message);
  hs_attempt : option bool;
  hs_result : res SessionError A;
}.
Arguments hs_sent {A} _.
Arguments hs_attempt {A} _.
Arguments hs_result {A} _.

Definition hs_stop {A} (attempt : option bool) (sent : list (ProtocolVersion * Message))
    (r : res SessionError A) : HandshakeStep A :=
  {| hs_sent := sent; hs_attempt := attempt; hs_result := r |}.

Definition heartbeat_incompatible (hello : ClientHello) (heartbeat_timeout_secs : Z) : bool :=
  (ch_heartbeat_interval_secs hello =? 0) || (heartbeat_timeout_secs <=? ch_heartbeat_interval_secs hello).

(** From the hello to the challenge: [None] when the client was refused. *)
Definition hello_phase (version : ProtocolVersion) (heartbeat_timeout_secs : Z) (a : Authenticator)
    (frame_version : ProtocolVersion) (hello : ClientHello) (challenge session_random : option (list byte))
    : Authenticator * HandshakeStep (option (PendingAuthentication * ClientHandshakeState * ProtocolVersion)) :=
  match Version.negotiate version frame_version with
  | Err code => (a, hs_stop (Some false) [(version, protocol_error code)] (Ok None))
  | Panic => (a, hs_stop None [] Panic)
  | Ok negotiated =>
    if heartbeat_incompatible hello heartbeat_timeout_secs then
      (a, hs_stop (Some false) [(negotiated, protocol_error ProtocolErrorCode.INCOMPATIBLE_HEARTBEAT)] (Ok None))
    else
      match map_err SeState (transition AwaitingHello (MClientHello hello)) with
      | Ok state =>
        let '(a, begun) := begin a hello negotiated challenge session_random in
        match
          pending ← map_err SeAuth begun;
          challenge ← map_err SeAuth (pending_challenge pending);
          state ← map_err SeState (transition state (MServerChallenge challenge));
          Ok (pending, challenge, state)
        with
        | Ok (pending, challenge, state) =>
          (a, hs_stop None [(negotiated, MServerChallenge challenge)] (Ok (Some (pending, state, negotiated))))
        | Err e => (a, hs_stop None [] (Err e))
        | Panic => (a, hs_stop None [] Panic)
        end
      | Err e => (a, hs_stop None [] (Err e))
      | Panic => (a, hs_stop None [] Panic)
      end
  end.

Definition auth_result (accepted : bool) : Message :=
  MAuthResult {| ar_accepted := accepted;
                 ar_error := if accepted then None else Some ProtocolErrorCode.AUTHENTICATION_FAILED |}.

Section handshake.
Context {P : Primitives} {B : Base64} {E : Ed25519Points}.

(** The identity an answer proves and the session it claims; [rid] names the new runtime. *)
Definition claim_identity (a : Authenticator) (dynamic : option DynamicClientStore) (r : ClientRegistry)
    (pending : PendingAuthentication) (negotiated : ProtocolVersion) (frame_version : ProtocolVersion)
    (authentication : ClientAuthenticate) (now : Z) (rid : nat)
    : option (AuthenticatedClient * ClientRegistry) :=
  identity ← (if bool_decide (frame_version = negotiated)
              then res_ok (finish a dynamic pending authentication) else None);
  r ← res_ok (claim r identity negotiated now rid);
  Some (identity, r).

(** From the answer to the result that is sent. *)
Definition answer_phase (a : Authenticator) (dynamic : option DynamicClientStore) (r : ClientRegistry)
    (pending : PendingAuthentication) (state : ClientHandshakeState) (negotiated : ProtocolVersion)
    (frame : Frame) (now : Z) (rid : nat)
    : ClientRegistry * HandshakeStep (option (AuthenticatedClient * ClientHandshakeState * ProtocolVersion)) :=
  match frame_message frame with
  | MClientAuthenticate authentication =>
    match map_err SeState (transition state (MClientAuthenticate authentication)) with
    | Ok state =>
      let guard := claim_identity a dynamic r pending negotiated (Frame.frame_version frame) authentication now rid in
      let accepted := bool_decide (is_Some guard) in
      let result := auth_result accepted in
      (* an error after the claim drops the guard *)
      let dropped := match guard with Some (identity, r) => release r identity | None => r end in
      let r := match guard with Some (_, r) => r | None => r end in
      match map_err SeState (transition state result) with
      | Ok state =>
        (r, hs_stop (Some accepted) [(negotiated, result)]
              (Ok (match guard with Some (identity, _) => Some (identity, state, negotiated) | None => None end)))
      | Err e => (dropped, hs_stop None [] (Err e))
      | Panic => (dropped, hs_stop None [] Panic)
      end
    | Err e => (r, hs_stop None [] (Err e))
    | Panic => (r, hs_stop None [] Panic)
    end
  | _ => (r, hs_stop None [] (Err SeInvalidState))
  end.

(** The whole handshake; [received] is what [framed.receive()] gives after the challenge. *)
Definition serve_hello (version : ProtocolVersion) (heartbeat_timeout_secs : Z) (a : Authenticator)
    (dynamic : option DynamicClientStore) (r : ClientRegistry) (frame_version : ProtocolVersion)
    (hello : ClientHello) (challenge session_random : option (list byte))
    (received : res SessionError Frame) (now : Z) (rid : nat)
    : Authenticator * ClientRegistry *
      HandshakeStep (option (AuthenticatedClient * ClientHandshakeState * ProtocolVersion)) :=
  let '(a, first) := hello_phase version heartbeat_timeout_secs a frame_version hello challenge session_random in
  match hs_result first with
  | Ok (Some (pending, state, negotiated)) =>
    match received with
    | Ok frame =>
      let '(r, second) := answer_phase a dynamic r pending state negotiated frame now rid in
      (a, r, hs_stop (hs_attempt second) (hs_sent first ++ hs_sent second) (hs_result second))
    | Err e => (a, r, hs_stop None (hs_sent first) (Err e))
    | Panic => (a, r, hs_stop None (hs_sent first) Panic)
    end
  | Ok None => (a, r, hs_stop (hs_attempt first) (hs_sent first) (Ok None))
  | Err e => (a, r, hs_stop (hs_attempt first) (hs_sent first) (Err e))
  | Panic => (a, r, hs_stop (hs_attempt first) (hs_sent first) Panic)
  end.
End handshake.
