(* ===== verification/ServerHandshakeProps.v ===== *)
(** The theorem of the server's handshake: what it establishes when it succeeds, and what is
    left behind when it does not. *)

From S2P Require Import Prelude.
From S2P Require Import Messages.
From S2P Require Import Frame.
From S2P Require Import Control.
From S2P Require Import Handshake.
From S2P Require Import Peer.
From S2P Require Import CryptoRef.
From S2P Require Import EnrollKeys.
From S2P Require Import Identity.
From S2P Require Import ExternalRef.
From S2P Require Import Enrollment.
From S2P Require Import Bindings.
From S2P Require Import Registry.
From S2P Require Import Auth.
From S2P Require Import AuthProps.
From S2P Require Import ServerHandshake.
From Stdlib Require Import Strings.Byte.
From stdpp Require Import prelude gmap list strings.

#[local] Open Scope Z_scope.

(** The generator fills what it is asked to fill. *)
Definition entropy_ok (challenge session_random : option (list byte)) : Prop :=
  (∀ c, challenge = Some c → blen c = CHALLENGE_BYTES) ∧
  (∀ r, session_random = Some r → blen r = SESSION_RANDOM_BYTES).

Lemma begin_pending_Ok a hello version challenge random a' p :
  begin a hello version challenge random = (a', Ok p) →
  ∃ c r, challenge = Some c ∧ random = Some r ∧ next_session_sequence a < u64_max ∧
    pa_client_name p = ch_client_name hello ∧ pa_claimed_fingerprint p = ch_fingerprint hello ∧
    pa_challenge p = c ∧ pa_session_id p = r ++ be_bytes 8 (next_session_sequence a) ∧ pa_version p = version.
Proof.
  unfold begin. destruct challenge as [c|]; [|done]. unfold issue_session_id.
  destruct (checked_add _ _ _) as [n|] eqn:Ha; [|done]. apply checked_add_Some in Ha as [_ Ha].
  destruct random as [r|]; [|done]. intros [= <- <-]. exists c, r. repeat (split; [done|]). split; [lia|done].
Qed.

Lemma begin_no_panic a hello version challenge random : (begin a hello version challenge random).2 ≠ Panic.
Proof.
  unfold begin. destruct challenge; [|done]. unfold issue_session_id.
  destruct (checked_add _ _ _); [|done]. by destruct random.
Qed.

(** The challenge of a session that was begun fits its message. *)
Lemma begun_challenge a hello version challenge random a' p :
  entropy_ok challenge random → begin a hello version challenge random = (a', Ok p) →
  pending_challenge p = Ok {| sc_challenge := pa_challenge p; sc_session_id := pa_session_id p |}.
Proof.
  intros [Hc Hr] (c&r&->&->&_&_&_&Hpc&Hps&_)%begin_pending_Ok. unfold pending_challenge.
  rewrite Hpc, Hps, blen_app, (Hc c), (Hr r) by done. unfold blen. by rewrite length_be_bytes.
Qed.

Section props.
Context {P : Primitives} {B : Base64} {E : Ed25519Points}.
Context (version : ProtocolVersion) (timeout_secs : Z) (dynamic : option DynamicClientStore).
Implicit Types a : Authenticator.
Implicit Types r : ClientRegistry.

(** The first phase, with its refusals. *)
Lemma hello_phase_cases a frame_version hello challenge random a' step :
  entropy_ok challenge random →
  hello_phase version timeout_secs a frame_version hello challenge random = (a', step) →
  (∃ v code, step = hs_stop (Some false) [(v, protocol_error code)] (Ok None)) ∨
  (∃ e, step = hs_stop None [] (Err (SeAuth e))) ∨
  (∃ negotiated p, Version.negotiate version frame_version = Ok negotiated ∧
     heartbeat_incompatible hello timeout_secs = false ∧
     begin a hello negotiated challenge random = (a', Ok p) ∧
     step = hs_stop None
       [(negotiated, MServerChallenge {| sc_challenge := pa_challenge p; sc_session_id := pa_session_id p |})]
       (Ok (Some (p, AwaitingAuthenticate (pa_session_id p), negotiated)))).
Proof.
  intros Hent. unfold hello_phase. destruct (Version.negotiate _ _) as [n|code|] eqn:Hn.
  3:{ exfalso. unfold Version.negotiate in Hn. by case_match. }
  2:{ intros [= <- <-]. left. by eexists _, _. }
  destruct (heartbeat_incompatible _ _); [intros [= <- <-]; left; by eexists _, _|].
  cbn [transition map_err]. destruct (begin a hello n challenge random) as [a1 begun] eqn:Hb.
  destruct begun as [p|e|].
  - cbn [map_err mbind res_bind]. rewrite (begun_challenge _ _ _ _ _ _ _ Hent Hb).
    cbn [map_err mbind res_bind transition]. intros [= <- <-]. right. right. by exists n, p.
  - intros [= <- <-]. right. left. by exists e.
  - by destruct (begin_no_panic a hello n challenge random); rewrite Hb.
Qed.

(** The second phase: one answer to every refusal. *)
Lemma answer_phase_cases a r p sid negotiated frame now rid r' step :
  answer_phase a dynamic r p (AwaitingAuthenticate sid) negotiated frame now rid = (r', step) →
  (r' = r ∧ step = hs_stop None [] (Err SeInvalidState) ∧
     ∀ authentication, frame_message frame ≠ MClientAuthenticate authentication) ∨
  (r' = r ∧ step = hs_stop (Some false) [(negotiated, auth_result false)] (Ok None)) ∨
  (∃ authentication identity, frame_message frame = MClientAuthenticate authentication ∧
     Frame.frame_version frame = negotiated ∧ finish a dynamic p authentication = Ok identity ∧
     claim r identity negotiated now rid = Ok r' ∧
     step = hs_stop (Some true) [(negotiated, auth_result true)]
              (Ok (Some (identity, AwaitingTunnelRegistration sid, negotiated)))).
Proof.
  unfold answer_phase. destruct (frame_message frame) as [| |authentication| | | | | | | | | | | | | | | | | | | | | | | | | | | | | | | | | |] eqn:Hm;
    try (intros [= <- <-]; left; by split_and!).
  cbn [transition map_err]. destruct (claim_identity _ _ _ _ _ _ _ _ _) as [[identity r1]|] eqn:Hg; intros [= <- <-].
  - right. right. unfold claim_identity in Hg. apply bind_Some in Hg as (i&Hi&Hg).
    case_bool_decide as Hv; [|done]. apply bind_Some in Hg as (r2&Hc&[= <- <-]).
    exists authentication, i. split; [done|]. split; [done|].
    destruct (finish _ _ _ _); simplify_eq/=. destruct (claim _ _ _ _ _); by simplify_eq/=.
  - right. by left.
Qed.

(** What the protocol asks for: a compatible version and heartbeat, a session that can be
    begun, and, received at the negotiated version, an answer that authenticates the client
    for the challenge of that session and whose identity the registry lets in, as [r1]. *)
Record establishes (a : Authenticator) (r : ClientRegistry) (frame_version : ProtocolVersion) (hello : ClientHello)
    (challenge random : option (list byte)) (received : res SessionError Frame) (now : Z) (rid : nat)
    (negotiated : ProtocolVersion) (p : PendingAuthentication) (authentication : ClientAuthenticate)
    (identity : AuthenticatedClient) (a1 : Authenticator) (r1 : ClientRegistry) : Prop := {
  es_version : Version.negotiate version frame_version = Ok negotiated;
  es_heartbeat : ch_heartbeat_interval_secs hello ≠ 0 ∧ ch_heartbeat_interval_secs hello < timeout_secs;
  es_begun : begin a hello negotiated challenge random = (a1, Ok p);
  es_answer : ∃ flags, received = Ok {| Frame.frame_version := negotiated; frame_flags := flags;
                                        frame_message := MClientAuthenticate authentication |};
  es_identity : finish a1 dynamic p authentication = Ok identity;
  es_claimed : claim r identity negotiated now rid = Ok r1;
}.

Lemma heartbeat_compatible hello :
  heartbeat_incompatible hello timeout_secs = false
  ↔ ch_heartbeat_interval_secs hello ≠ 0 ∧ ch_heartbeat_interval_secs hello < timeout_secs.
Proof. unfold heartbeat_incompatible. by rewrite orb_false_iff, Z.eqb_neq, Z.leb_gt. Qed.

Lemma finish_session a p authentication identity :
  finish a dynamic p authentication = Ok identity → ac_session_id identity = pa_session_id p.
Proof.
  unfold finish. intros Hf. repeat (apply res_bind_Ok in Hf as (?&_&Hf)). destruct (negb _) in Hf; [done|].
  repeat (apply res_bind_Ok in Hf as (?&_&Hf)). by injection Hf as <-.
Qed.

(** When it is all there, the handshake succeeds. *)
Lemma establishes_succeeds a r frame_version hello challenge random received now rid n p authentication identity a1 r1 :
  entropy_ok challenge random →
  establishes a r frame_version hello challenge random received now rid n p authentication identity a1 r1 →
  serve_hello version timeout_secs a dynamic r frame_version hello challenge random received now rid
  = (a1, r1, hs_stop (Some true)
       [(n, MServerChallenge {| sc_challenge := pa_challenge p; sc_session_id := pa_session_id p |});
        (n, auth_result true)]
       (Ok (Some (identity, AwaitingTunnelRegistration (ac_session_id identity), n)))).
Proof.
  intros Hent [Hn Hhb%heartbeat_compatible Hb [flags ->] Hf Hc]. unfold serve_hello, hello_phase.
  rewrite Hn, Hhb. cbn [transition map_err]. rewrite Hb. cbn [map_err mbind res_bind].
  rewrite (begun_challenge _ _ _ _ _ _ _ Hent Hb). cbn [map_err mbind res_bind transition hs_result hs_stop].
  unfold answer_phase. cbn [frame_message transition map_err Frame.frame_version].
  assert (claim_identity a1 dynamic r p n n authentication now rid = Some (identity, r1)) as ->.
  { unfold claim_identity. rewrite bool_decide_true, Hf by done. cbn. by rewrite Hc. }
  rewrite (finish_session _ _ _ _ Hf). done.
Qed.

Lemma serve_hello_success a r frame_version hello challenge random received now rid a' r' step identity state n :
  entropy_ok challenge random →
  serve_hello version timeout_secs a dynamic r frame_version hello challenge random received now rid
    = (a', r', step) →
  hs_result step = Ok (Some (identity, state, n)) →
  ∃ p x, establishes a r frame_version hello challenge random received now rid n p x identity a' r'.
Proof.
  intros Hent H. unfold serve_hello in H. destruct (hello_phase _ _ _ _ _ _ _) as [a1 first] eqn:Hp.
  destruct (hello_phase_cases _ _ _ _ _ _ _ Hent Hp)
    as [(v&code&->)|[(e&->)|(n'&p&Hn&Hhb&Hb&->)]]; cbn [hs_result hs_stop hs_sent hs_attempt] in H;
    [injection H as <- <- <-; by cbn..|].
  destruct received as [[fv flags m]|e|]; [|injection H as <- <- <-; by cbn..].
  destruct (answer_phase _ _ _ _ _ _ _ _ _) as [r1 second] eqn:Ha. injection H as <- <- <-.
  apply answer_phase_cases in Ha as [(->&->&_)|[[-> ->]|(x&i&Hm&Hv&Hf&Hc&->)]]; cbn in *; [done..|].
  intros [= <- <- <-]. subst. exists p, x. split; try done; [by apply heartbeat_compatible|by exists flags].
Qed.

Lemma serve_hello_failure a r frame_version hello challenge random received now rid a' r' step :
  entropy_ok challenge random →
  serve_hello version timeout_secs a dynamic r frame_version hello challenge random received now rid
    = (a', r', step) →
  match hs_result step with
  | Ok (Some _) => True
  | Ok None =>
    r' = r ∧ hs_attempt step = Some false ∧
    ((∃ v code, hs_sent step = [(v, protocol_error code)]) ∨
     (∃ v c, hs_sent step = [(v, MServerChallenge c); (v, auth_result false)]))
  | Err e =>
    r' = r ∧ hs_attempt step = None ∧
    ((∃ ae, e = SeAuth ae ∧ hs_sent step = []) ∨
     ((received = Err e ∨
       e = SeInvalidState ∧ ∃ frame, received = Ok frame ∧ ∀ x, frame_message frame ≠ MClientAuthenticate x) ∧
      ∃ v c, hs_sent step = [(v, MServerChallenge c)]))
  | Panic => received = Panic ∧ r' = r
  end.
Proof.
  intros Hent H. unfold serve_hello in H. destruct (hello_phase _ _ _ _ _ _ _) as [a1 first] eqn:Hp.
  destruct (hello_phase_cases _ _ _ _ _ _ _ Hent Hp)
    as [(v&code&->)|[(e&->)|(n&p&Hn&Hhb&Hb&->)]]; cbn [hs_result hs_stop hs_sent hs_attempt] in H.
  - injection H as <- <- <-. cbn. split; [done|]. split; [done|]. left. by exists v, code.
  - injection H as <- <- <-. cbn. do 2 (split; [done|]). left. by exists e.
  - destruct received as [frame|e|].
    + destruct (answer_phase _ _ _ _ _ _ _ _ _) as [r1 second] eqn:Ha. injection H as <- <- <-.
      apply answer_phase_cases in Ha as [(->&->&Hm)|[[-> ->]|(x&i&_&_&_&_&->)]]; cbn; [| |done].
      * do 2 (split; [done|]). right. split; [right; split; [done|by exists frame]|by eexists _, _].
      * do 2 (split; [done|]). right. by eexists _, _.
    + injection H as <- <- <-. cbn. do 2 (split; [done|]). right. split; [by left|by eexists _, _].
    + injection H as <- <- <-. by cbn.
Qed.

(** C33: A control connection is established exactly by the protocol.  Whatever is received
    after the challenge, the handshake succeeds for an identity if and only if version and
    heartbeat are compatible, the session could be begun, and what was received is an answer,
    in a frame at the negotiated version, that authenticates this identity for the challenge
    of this session and that the registry lets in; the registry then is the one with the
    session claimed under that identifier, the challenge and an acceptance were sent and
    nothing else, and the state machine, fed the four messages, awaits the tunnels of that
    session.  When it does not succeed the registry is as before, nothing was accepted, and
    every refusal of an answer looks the same to the client; an error is one of beginning the
    session, before anything is sent, or the one of the receiver, or that something other than
    an answer was received.  The state machine is never out of step, and the handshake panics
    only if the receiver does. *)
Theorem handshake_establishes a r frame_version hello challenge random received now rid a' r' step :
  entropy_ok challenge random →
  serve_hello version timeout_secs a dynamic r frame_version hello challenge random received now rid
    = (a', r', step) →
  (∀ identity state negotiated,
    hs_result step = Ok (Some (identity, state, negotiated)) ↔
    ∃ p authentication a1 r1,
      establishes a r frame_version hello challenge random received now rid negotiated p authentication identity a1 r1 ∧
      a' = a1 ∧ r' = r1 ∧ ac_session_id identity = pa_session_id p ∧ hs_attempt step = Some true ∧
      state = AwaitingTunnelRegistration (ac_session_id identity) ∧
      let sent := MServerChallenge {| sc_challenge := pa_challenge p; sc_session_id := pa_session_id p |} in
      hs_sent step = [(negotiated, sent); (negotiated, auth_result true)] ∧
      run negotiated AwaitingHello
        [(ClientToServer, MClientHello hello); (ServerToClient, sent);
         (ClientToServer, MClientAuthenticate authentication); (ServerToClient, auth_result true)] = Ok state) ∧
  (∀ negotiated p authentication identity a1 r1,
    establishes a r frame_version hello challenge random received now rid negotiated p authentication identity a1 r1 →
    hs_result step = Ok (Some (identity, AwaitingTunnelRegistration (ac_session_id identity), negotiated)) ∧ r' = r1) ∧
  match hs_result step with
  | Ok (Some _) => True
  | Ok None =>
    r' = r ∧ hs_attempt step = Some false ∧
    ((∃ v code, hs_sent step = [(v, protocol_error code)]) ∨
     (∃ v c, hs_sent step = [(v, MServerChallenge c); (v, auth_result false)]))
  | Err e =>
    r' = r ∧ hs_attempt step = None ∧
    ((∃ ae, e = SeAuth ae ∧ hs_sent step = []) ∨
     ((received = Err e ∨
       e = SeInvalidState ∧ ∃ frame, received = Ok frame ∧ ∀ x, frame_message frame ≠ MClientAuthenticate x) ∧
      ∃ v c, hs_sent step = [(v, MServerChallenge c)]))
  | Panic => received = Panic ∧ r' = r
  end.
Proof.
  intros Hent H.
  assert (∀ n p x i a1 r1, establishes a r frame_version hello challenge random received now rid n p x i a1 r1 →
    (a', r', step) = (a1, r1, hs_stop (Some true)
       [(n, MServerChallenge {| sc_challenge := pa_challenge p; sc_session_id := pa_session_id p |}); (n, auth_result true)]
       (Ok (Some (i, AwaitingTunnelRegistration (ac_session_id i), n))))) as Hconv.
  { intros n p x i a1 r1 He. by rewrite <- H, (establishes_succeeds _ _ _ _ _ _ _ _ _ _ _ _ _ _ _ Hent He). }
  split; [|split].
  - intros identity state negotiated. split; [|intros (p&x&a1&r1&[= -> -> ->]%Hconv&_&_&_&_&->&_); done].
    intros Hr. destruct (serve_hello_success _ _ _ _ _ _ _ _ _ _ _ _ _ _ _ Hent H Hr) as (p&x&He).
    exists p, x, a', r'. split; [done|]. pose proof He as [= ->]%Hconv. cbn [hs_result hs_stop] in Hr.
    injection Hr as <-. pose proof (finish_session _ _ _ _ (es_identity _ _ _ _ _ _ _ _ _ _ _ _ _ _ _ He)) as Hs.
    cbn. rewrite Hs. by split_and!.
  - by intros n p x i a1 r1 [= -> -> ->]%Hconv.
  - by apply (serve_hello_failure a r frame_version hello challenge random received now rid a' r' step).
Qed.
End props.

(** * Witness *)

(** The client of [AuthProps] connects. *)
Definition edge_registry : ClientRegistry :=
  match ClientRegistry_new
    {| max_clients := 4; max_tunnels_per_client := 4; binding_capacity := 8; binding_ttl := 1000 |} with
  | Ok r => r
  | _ => {| config := {| max_clients := 0; max_tunnels_per_client := 0; binding_capacity := 0; binding_ttl := 0 |};
            active := ∅; by_name := ∅; next_observability_generation := 0; runtimes := ∅ |}
  end.
Definition edge_version : ProtocolVersion := {| major := 1; minor := 5 |}.
Definition edge_frame : Frame :=
  {| Frame.frame_version := edge_version; frame_flags := 0; frame_message := MClientAuthenticate edge_answer |}.
Definition edge_run :=
  serve_hello edge_version 30 edge_server None edge_registry edge_version edge_hello
    (Some (replicate 32 x07)) (Some (replicate 24 x08)) (Ok edge_frame) 0 0.
Definition edge_identity : AuthenticatedClient :=
  {| ac_name := str "edge"; ac_fingerprint := key_fingerprint edge_key;
     ac_session_id := replicate 24 x08 ++ be_bytes 8 0 |}.
Lemma edge_accepted :
  hs_result edge_run.2 = Ok (Some (edge_identity, AwaitingTunnelRegistration (ac_session_id edge_identity), edge_version)).
Proof. vm_compute. reflexivity. Qed.

Lemma handshake_establishes_witness :
  claim edge_registry edge_identity edge_version 0 0 = Ok edge_run.1.2 ∧ hs_attempt edge_run.2 = Some true.
Proof.
  assert (entropy_ok (Some (replicate 32 x07)) (Some (replicate 24 x08))) as Hent
    by (split; intros ? [= <-]; reflexivity).
  destruct (handshake_establishes edge_version 30 None edge_server edge_registry edge_version edge_hello
    _ _ (Ok edge_frame) 0 0 edge_run.1.1 edge_run.1.2 edge_run.2 Hent) as [H _].
  - unfold edge_run. by destruct (serve_hello _ _ _ _ _ _ _ _ _ _ _ _) as [[? ?] ?].
  - destruct (proj1 (H _ _ _) edge_accepted) as (p&x&a1&r1&[_ _ _ _ _ Hc]&_&->&_&Ha&_). exact (conj Hc Ha).
Defined.
