(* ===== verification/ManagedProps.v ===== *)
(** The theorems of the managed configurations: the invariant of the table, revisions that name
    one configuration, and reports that cover every item once. *)

From S2P Require Import Prelude.
From S2P Require Import Messages.
From S2P Require Import Text.
From S2P Require Import EnrollKeys.
From S2P Require Import Enrollment.
From S2P Require Import EnrollmentFacts.
From S2P Require Import Config.
From S2P Require Import ConfigProps.
From S2P Require Import Managed.
From S2P Require Import ExternalRef.
From Stdlib Require Import Strings.Byte.
From stdpp Require Import prelude gmap list strings relations.

#[local] Open Scope Z_scope.

(** * Reports *)

(** An item of a report: known members only, a known state, a bounded error. *)
Definition item_ok (item : Value) : Prop :=
  keys_known item = true ∧ state_known item = true ∧ error_bounded item = true.
(** Every configured item once, in any order, and nothing else. *)
Definition report_covers (c : ManagedConfiguration) (results : Value) : Prop :=
  ∃ items keys, results = VArray items ∧ Forall item_ok items ∧
    map item_key items = map Some keys ∧ keys ≡ₚ configured_items c.

Lemma validate_items_Ok items expected :
  validate_items items expected = Ok tt ↔
  ∃ keys, Forall item_ok items ∧ map item_key items = map Some keys ∧ NoDup keys ∧ ∀ k, k ∈ keys → k ∈ expected.
Proof.
  revert expected; induction items as [|item items IH]; intros expected; simpl.
  { split; [|done]. intros _. exists []. split; [done|]. split; [done|]. split; [constructor|].
    by intros ? ?%not_elem_of_nil. }
  unfold report_invalid. split.
  - intros H. destruct (keys_known item) eqn:Hkn; [|done]. simpl in H.
    destruct (item_key item) as [key|] eqn:Hk; [|done].
    destruct (bool_decide (key ∈ expected)) eqn:Hin; [|done].
    destruct (state_known item) eqn:Hs; [|done]. destruct (error_bounded item) eqn:He; [|done]. simpl in H.
    apply bool_decide_eq_true in Hin. apply IH in H as (keys&Hall&Hmap&Hnd&Hsub).
    exists (key :: keys). split; [by constructor|]. split; [simpl; by f_equal|]. split.
    + constructor; [|done]. intros Hx%Hsub. set_solver.
    + intros k [->|Hx%Hsub]%elem_of_cons; set_solver.
  - intros (keys&Hall&Hmap&Hnd&Hsub). destruct keys as [|key keys]; [done|]. injection Hmap as Hk Hmap.
    apply Forall_cons in Hall as [(Hkn&Hs&He) Hall]. apply NoDup_cons in Hnd as [Hnk Hnd].
    rewrite Hkn, Hk, Hs, He. rewrite bool_decide_eq_true_2 by (apply Hsub; by left). simpl.
    apply IH. exists keys. split; [done|]. split; [done|]. split; [done|].
    intros k Hx. apply elem_of_difference. split; [apply Hsub; by right|]. set_solver.
Qed.

Lemma configured_items_nodup c : collections_valid None (mc_tunnels c) (mc_exports c) (mc_forwards c) →
  NoDup (configured_items c).
Proof.
  intros [_ Ht _ _ _ Hx _ _ Hf _]. unfold configured_items.
  assert (∀ A (kind : list byte) (name : A → list byte) l, NoDup (map name l) → NoDup (map (λ a, (kind, name a)) l)) as Hn.
  { intros A kind name l Hl. eapply nodup_map_via; [exact Hl|]. intros x y _ _ He. by injection He. }
  assert (∀ A (kind : list byte) (name : A → list byte) l k, k ∈ map (λ a, (kind, name a)) l → k.1 = kind) as Hkind.
  { intros A kind name l k (a&->&_)%list_elem_of_fmap. done. }
  apply NoDup_app. split; [by apply Hn|]. split; [|apply NoDup_app; split; [by apply Hn|split; [|by apply Hn]]].
  - intros k Hk%Hkind [Hk'%Hkind|Hk'%Hkind]%elem_of_app; rewrite Hk in Hk'; by vm_compute in Hk'.
  - intros k Hk%Hkind Hk'%Hkind. rewrite Hk in Hk'. by vm_compute in Hk'.
Qed.

Section props.
Context {J : SerdeJson} {HJ : SerdeJsonLaws J}.
Implicit Types s : ManagedStore.

Lemma report_covers_iff c results :
  collections_valid None (mc_tunnels c) (mc_exports c) (mc_forwards c) →
  validate_report c results = Ok tt ↔ report_covers c results.
Proof.
  intros Hv%configured_items_nodup. unfold validate_report, report_covers.
  destruct results as [| | | |items|]; simpl; try (split; [done|intros (?&?&?&_); done]).
  rewrite size_list_to_set by done. destruct (Nat.eqb_spec (length items) (length (configured_items c))) as [Hlen|Hlen]; simpl.
  - rewrite validate_items_Ok. split.
    + intros (keys&Hall&Hmap&Hnd&Hsub). exists items, keys. repeat (split; [done|]).
      apply submseteq_length_Permutation; [apply NoDup_submseteq; [done|]; intros k Hk%Hsub; by apply elem_of_list_to_set in Hk|].
      apply (f_equal length) in Hmap. rewrite !length_map in Hmap. lia.
    + intros (items'&keys&[= <-]&Hall&Hmap&Hperm). exists keys. repeat (split; [done|]).
      split; [by rewrite Hperm|]. intros k Hk. rewrite Hperm in Hk. by apply elem_of_list_to_set.
  - split; [done|]. intros (items'&keys&[= <-]&_&Hmap&Hperm). destruct Hlen.
    apply (f_equal length) in Hmap. rewrite !length_map in Hmap. by rewrite Hmap, Hperm.
Qed.

(** * The invariant *)

Definition config_text (r : ManagedRow) (c : ManagedConfiguration) : Prop :=
  config_from_json (mr_configuration r) = Some c ∧ blen (mr_configuration r) ≤ MAX_JSON_BYTES.
Record row_wf (r : ManagedRow) : Prop := {
  row_revision : 1 ≤ mr_revision r ≤ i64_max;
  row_configuration : ∃ c, config_text r c ∧
    collections_valid None (mc_tunnels c) (mc_exports c) (mc_forwards c) ∧
    match mr_applied_revision r with
    | None => mr_results r = NO_RESULTS
    | Some a => a = mr_revision r ∧ blen (mr_results r) ≤ MAX_JSON_BYTES ∧
                ∃ v, value_from_json (mr_results r) = Some v ∧ report_covers c v
    end;
  row_mapped : ∀ n, mr_mapped_name r = Some n → n = mr_name r;
}.
Record managed_wf (s : ManagedStore) : Prop := {
  mw_rows : map_Forall (λ _, row_wf) s;
  mw_names : ∀ i j a b n, s !! i = Some a → s !! j = Some b →
    mr_mapped_name a = Some n → mr_mapped_name b = Some n → i = j;
  mw_size : Z.of_nat (size s) ≤ MAX_SNAPSHOTS;
}.

Lemma configuration_json_Ok c json :
  configuration_json c = Ok json ↔ collections_valid None (mc_tunnels c) (mc_exports c) (mc_forwards c) ∧
    json = config_to_json c ∧ blen json ≤ MAX_JSON_BYTES.
Proof.
  unfold configuration_json, bounded_text. rewrite res_bind_Ok. split.
  - intros ([]&Hv%map_err_Ok&H). apply collections_Ok in Hv. destruct (Z.ltb_spec MAX_JSON_BYTES (blen (config_to_json c))); [done|].
    by injection H as <-.
  - intros (Hv&->&Hb). exists tt. split; [by apply map_err_Ok, collections_Ok|].
    by rewrite (proj2 (Z.ltb_ge _ _) Hb).
Qed.

Lemma read_row_wf identity r : row_wf r → ∃ snapshot, read_row identity r = Ok snapshot ∧
  sn_identity snapshot = identity ∧ sn_revision snapshot = mr_revision r ∧
  config_text r (sn_configuration snapshot) ∧ sn_applied_revision snapshot = mr_applied_revision r ∧ sn_name snapshot = mr_name r ∧
  value_from_json (mr_results r) = Some (sn_results snapshot).
Proof.
  intros [[_ Hrev] (c&[Hc Hcb]&_&Hres) _]. unfold read_row. rewrite (proj2 (Z.leb_le _ _) Hrev).
  assert (blen (mr_results r) ≤ MAX_JSON_BYTES ∧ ∃ v, value_from_json (mr_results r) = Some v) as [Hrb [v Hv]].
  { destruct (mr_applied_revision r); [destruct Hres as (_&?&v&?&_); by eauto|]. rewrite Hres. split; [by vm_compute|].
    eexists. apply value_json_empty. }
  rewrite (proj2 (Z.ltb_ge _ _) Hcb), (proj2 (Z.ltb_ge _ _) Hrb), Hc, Hv. cbn. eexists. split; [done|]. done.
Qed.
Lemma read_row_Ok identity r snapshot : read_row identity r = Ok snapshot →
  sn_identity snapshot = identity ∧ sn_revision snapshot = mr_revision r ∧ mr_revision r ≤ i64_max ∧
  config_text r (sn_configuration snapshot) ∧ sn_applied_revision snapshot = mr_applied_revision r.
Proof.
  unfold read_row. intros H. apply res_bind_Ok in H as (?&Hr%guard_err_Ok&H). apply negb_false_iff, Z.leb_le in Hr.
  apply res_bind_Ok in H as (?&Hb%guard_err_Ok&H). apply orb_false_iff in Hb as [Hb%Z.ltb_ge _].
  apply res_bind_Ok in H as (c&Hc%ok_or_Ok&H). apply res_bind_Ok in H as (v&_&H). injection H as <-. done.
Qed.

Lemma read_existing_Ok s column key snapshot : read_existing s column key = Ok snapshot →
  ∃ r, s !! sn_identity snapshot = Some r ∧ read_row (sn_identity snapshot) r = Ok snapshot ∧
    match column with ColIdentity => sn_identity snapshot = key | ColMappedName => mr_mapped_name r = Some key end.
Proof.
  unfold read_existing, read_snapshot. intros (found&Hf&Hs%ok_or_Ok)%res_bind_Ok. subst found.
  destruct (find_row s column key) as [[identity r]|] eqn:Hr; [|done].
  apply res_bind_Ok in Hf as (sn&Hrow&[= <-]). pose proof (read_row_Ok _ _ _ Hrow) as (Hid&_). exists r. rewrite Hid.
  split; [|split; [done|]].
  - destruct column; simpl in Hr; [by apply fmap_Some in Hr as (?&?&[= -> ->])|by apply sql_find_Some in Hr as [? _]].
  - destruct column; simpl in Hr; [by apply fmap_Some in Hr as (?&?&[= -> ->])|].
    apply sql_find_Some in Hr as [_ Hr%bool_decide_eq_true]. done.
Qed.

Lemma set_row_lookup s identity f i : set_row s identity f !! i = (if decide (i = identity) then f <$> s !! i else s !! i).
Proof. unfold set_row. case_decide; subst; [apply lookup_alter_eq|by rewrite lookup_alter_ne]. Qed.
Lemma bind_name_lookup s identity name i :
  bind_name s identity name !! i = (λ r, if decide (i = identity) then row_named name r
     else if decide (mr_mapped_name r = Some name) then row_unmapped r else r) <$> s !! i.
Proof.
  unfold bind_name. rewrite set_row_lookup, map_lookup_imap. destruct (s !! i) as [r|]; simpl; [|by case_decide].
  case_decide as Hi; simpl.
  - subst. rewrite (bool_decide_eq_true_2 (identity = identity)) by done. by rewrite andb_false_r.
  - rewrite (bool_decide_eq_false_2 (i = identity)) by done. rewrite andb_true_r. f_equal. by repeat case_decide; case_bool_decide.
Qed.

Lemma row_wf_named name r : row_wf r → row_wf (row_named name r).
Proof. intros [? ? ?]. split; simpl; try done. by intros ? [= ->]. Qed.
Lemma row_wf_unmapped r : row_wf r → row_wf (row_unmapped r).
Proof. intros [? ? ?]. by split. Qed.

Lemma wf_set_row s identity f :
  managed_wf s → (∀ r, s !! identity = Some r → row_wf (f r) ∧ mr_mapped_name (f r) = mr_mapped_name r) →
  managed_wf (set_row s identity f).
Proof.
  intros [Hrows Hnames Hsize] Hf. split.
  - intros i r. rewrite set_row_lookup. case_decide; [|by apply Hrows]. subst.
    intros (r0&Hr0&->)%fmap_Some. by apply Hf.
  - intros i j a b n Hi Hj Ha Hb. rewrite set_row_lookup in Hi, Hj.
    assert (∀ k x, (if decide (k = identity) then f <$> s !! k else s !! k) = Some x →
      ∃ y, s !! k = Some y ∧ mr_mapped_name y = mr_mapped_name x) as Hback.
    { intros k x. destruct (decide (k = identity)); [subst|intros Hk; by exists x]. intros (r0&Hr0&->)%fmap_Some. exists r0. split; [done|].
      symmetry. by apply (Hf _ Hr0). }
    apply Hback in Hi as (a'&Hi&Hna), Hj as (b'&Hj&Hnb). apply (Hnames i j a' b' n); [done|done|congruence|congruence].
  - unfold set_row. by rewrite <- size_dom, dom_alter_L, size_dom.
Qed.
Lemma wf_bind_name s identity name : managed_wf s → managed_wf (bind_name s identity name).
Proof.
  intros [Hrows Hnames Hsize]. split.
  - intros i r. rewrite bind_name_lookup. intros (r0&Hr0&->)%fmap_Some. apply Hrows in Hr0.
    repeat case_decide; [by apply row_wf_named|by apply row_wf_unmapped|done].
  - intros i j a b n. rewrite !bind_name_lookup. intros (a0&Ha0&->)%fmap_Some (b0&Hb0&->)%fmap_Some.
    repeat case_decide; simpl; try done; try congruence; intros; simplify_eq; try done. by eapply Hnames.
  - unfold bind_name, set_row. rewrite <- size_dom, dom_alter_L.
    assert (dom (map_imap (λ id r, Some (if bool_decide (mr_mapped_name r = Some name) && negb (bool_decide (id = identity))
      then row_unmapped r else r)) s) = dom s) as ->; [|by rewrite size_dom].
    apply set_eq. intros i. rewrite !elem_of_dom, map_lookup_imap. destruct (s !! i); simpl; [|done].
    split; by eexists.
Qed.

(** * Statements *)

Definition configured_row (json : list byte) (revision : Z) (r : ManagedRow) : ManagedRow :=
  row_reported None NO_RESULTS (row_configured json revision r).

(** What the methods do to the table for one identity and the name it goes by, statement by
    statement. *)
Inductive managed_step (identity name : list byte) s : ManagedStore → Prop :=
| ms_import c :
    s !! identity = None → Z.of_nat (size s) < MAX_SNAPSHOTS →
    collections_valid None (mc_tunnels c) (mc_exports c) (mc_forwards c) → blen (config_to_json c) ≤ MAX_JSON_BYTES →
    managed_step identity name s (<[identity := {| mr_name := name; mr_mapped_name := None; mr_revision := 1;
      mr_configuration := config_to_json c; mr_applied_revision := None; mr_results := NO_RESULTS |}]> s)
| ms_bind : managed_step identity name s (bind_name s identity name)
| ms_reset : managed_step identity name s (set_row s identity (row_reported None NO_RESULTS))
| ms_configure r c :
    s !! identity = Some r → mr_revision r + 1 ≤ i64_max →
    collections_valid None (mc_tunnels c) (mc_exports c) (mc_forwards c) → blen (config_to_json c) ≤ MAX_JSON_BYTES →
    managed_step identity name s (set_row s identity (configured_row (config_to_json c) (mr_revision r + 1)))
| ms_report r c v :
    s !! identity = Some r → config_text r c → report_covers c v → blen (value_to_json v) ≤ MAX_JSON_BYTES →
    managed_step identity name s (set_row s identity (row_reported (Some (mr_revision r)) (value_to_json v))).
Definition any_step s s' : Prop := ∃ identity name, managed_step identity name s s'.
Lemma steps_any identity name s s' : rtc (managed_step identity name) s s' → rtc any_step s s'.
Proof. apply rtc_subrel. intros a b H. by exists identity, name. Qed.

Lemma wf_empty : managed_wf ∅.
Proof.
  split; [apply map_Forall_empty|intros i j a b n Hi; by rewrite lookup_empty in Hi|].
  by rewrite map_size_empty.
Qed.

Lemma wf_step s s' : managed_wf s → any_step s s' → managed_wf s'.
Proof.
  intros Hwf (identity&name&Hst). destruct Hst as [c Hn Hsz Hv Hb| | |r c Hr Hrev Hv Hb|r c v Hr Hc Hcov Hb].
  - destruct Hwf as [Hrows Hnames Hsize]. split.
    + apply map_Forall_insert_2; [|done]. split; simpl; [unfold i64_max; lia| |done]. exists c.
      split; [split; [apply config_json_rt|done]|done].
    + intros i j a b n [[<- <-]|[_ Hi]]%lookup_insert_Some [[<- <-]|[_ Hj]]%lookup_insert_Some; simpl; try done.
      by eapply Hnames.
    + rewrite map_size_insert_None by done. lia.
  - by apply wf_bind_name.
  - apply wf_set_row; [done|]. intros r Hr. split; [|done].
    destruct (mw_rows _ Hwf _ _ Hr) as [? (c&?&?&_) ?]. split; simpl; try done. by exists c.
  - apply wf_set_row; [done|]. intros r0 Hr0. split; [|done]. simplify_eq.
    destruct (mw_rows _ Hwf _ _ Hr) as [? _ ?]. split; simpl; [lia| |done]. exists c.
    split; [split; [apply config_json_rt|done]|done].
  - apply wf_set_row; [done|]. intros r0 Hr0. split; [|done]. simplify_eq.
    destruct (mw_rows _ Hwf _ _ Hr) as [? (c'&[Hc' ?]&Hv&_) ?]. destruct Hc as [Hc _].
    assert (c' = c) as -> by congruence. split; simpl; try done. exists c. split; [done|]. split; [done|].
    split; [done|]. split; [done|]. exists v. split; [apply value_json_rt|done].
Qed.
Lemma managed_wf_steps s s' : managed_wf s → rtc any_step s s' → managed_wf s'.
Proof. intros Hwf Hr. induction Hr; [done|]. eauto using wf_step. Qed.

(** Over every statement a row stays, its revision does not go down, and under one revision it
    has one configuration. *)
Definition row_le (r r' : ManagedRow) : Prop :=
  mr_revision r ≤ mr_revision r' ∧ (mr_revision r = mr_revision r' → mr_configuration r = mr_configuration r').
#[local] Instance row_le_preorder : PreOrder row_le.
Proof.
  split; [done|]. intros a b c [H1 H2] [H3 H4]. split; [lia|]. intros He.
  rewrite H2 by lia. apply H4. lia.
Qed.
Lemma step_row s s' id r : any_step s s' → s !! id = Some r → ∃ r', s' !! id = Some r' ∧ row_le r r'.
Proof.
  intros (identity&name&Hst) Hr. destruct Hst as [c Hn| | |r0 c Hr0 Hrev|r0 c v Hr0].
  - exists r. split; [|done]. rewrite lookup_insert_ne; [done|]. congruence.
  - rewrite bind_name_lookup, Hr. simpl. eexists. split; [done|]. by repeat case_decide.
  - rewrite set_row_lookup, Hr. case_decide; eexists; done.
  - rewrite set_row_lookup, Hr. case_decide; [|by eexists]. simplify_eq. eexists. split; [done|].
    split; simpl; lia.
  - rewrite set_row_lookup, Hr. case_decide; eexists; done.
Qed.
Lemma steps_row s s' id r : rtc any_step s s' → s !! id = Some r → ∃ r', s' !! id = Some r' ∧ row_le r r'.
Proof.
  intros Hst. revert r. induction Hst as [|a b c Hab _ IH]; intros r Hr; [by exists r|].
  destruct (step_row _ _ _ _ Hab Hr) as (r1&Hr1&?). destruct (IH _ Hr1) as (r2&Hr2&?).
  exists r2. split; [done|]. by etrans.
Qed.

Lemma set_row_ext s identity f g : (∀ r, s !! identity = Some r → f r = g r) → set_row s identity f = set_row s identity g.
Proof.
  intros He. apply map_eq. intros i. rewrite !set_row_lookup. case_decide; [subst|done].
  destruct (s !! identity) as [r|]; simpl; [|done]. by rewrite He.
Qed.
Lemma set_row_compose s identity f g : set_row (set_row s identity f) identity g = set_row s identity (λ r, g (f r)).
Proof.
  apply map_eq. intros i. rewrite !set_row_lookup. repeat case_decide; try done. by destruct (s !! i).
Qed.

(** * The methods are sequences of statements *)

Lemma mcommit_inv {A : Type} s (r : mres (ManagedStore * A)) s' x : mcommit s r = (s', x) →
  (∃ a, r = Ok (s', a) ∧ x = Ok a) ∨ (s' = s ∧ ∀ a, x ≠ Ok a).
Proof.
  destruct r as [[s1 a]|e|]; simpl; intros [= <- <-]; [left; by exists a|by right|by right].
Qed.
Lemma import_row_steps s identity name c s' :
  collections_valid None (mc_tunnels c) (mc_exports c) (mc_forwards c) → blen (config_to_json c) ≤ MAX_JSON_BYTES →
  import_row s identity name (config_to_json c) = Ok s' → rtc (managed_step identity name) s s'.
Proof.
  intros Hv Hb (found&Hf&H)%res_bind_Ok. destruct found as [sn|]; [by injection H as <-|].
  destruct (Z.leb_spec MAX_SNAPSHOTS (Z.of_nat (size s))); [done|]. injection H as <-.
  apply rtc_once, ms_import; [|done|done|done]. unfold read_snapshot in Hf. simpl in Hf.
  destruct (s !! identity) as [r|]; [|done]. simpl in Hf. by apply res_bind_Ok in Hf as (?&_&?).
Qed.
Lemma read_revision_bound s identity snapshot : read_existing s ColIdentity identity = Ok snapshot →
  ∃ r, s !! identity = Some r ∧ sn_identity snapshot = identity ∧ sn_revision snapshot = mr_revision r ∧
       mr_revision r ≤ i64_max ∧ config_text r (sn_configuration snapshot).
Proof.
  intros (r&Hr&Hrow&Hid)%read_existing_Ok. apply read_row_Ok in Hrow as (_&Hrev&Hle&Hc&_).
  rewrite Hid in Hr. by exists r.
Qed.

Lemma sync_steps s identity name c s' x : managed_sync s identity name c = (s', x) → rtc (managed_step identity name) s s'.
Proof.
  intros [(sn&H&_)|[-> _]]%mcommit_inv; [|done].
  apply res_bind_Ok in H as ([]&_&H). apply res_bind_Ok in H as (json&Hj&H).
  apply configuration_json_Ok in Hj as (Hv&->&Hb).
  apply res_bind_Ok in H as (s1&Hs1&H). apply (import_row_steps _ _ _ _ _ Hv Hb) in Hs1. etrans; [exact Hs1|].
  cbv zeta in H. eapply rtc_l; [apply ms_bind|]. set (s2 := bind_name s1 identity name) in *. clearbody s2. clear Hs1 s s1.
  apply res_bind_Ok in H as (current&Hcur&H). apply res_bind_Ok in H as (s3&Hs3&H).
  apply res_bind_Ok in H as (final&Hfin&[= <- <-]). apply read_revision_bound in Hcur as (r&Hr&_&_&_&_).
  destruct (Bool.eqb _ _); [injection Hs3 as <-; apply rtc_once, ms_reset|].
  apply res_bind_Ok in Hs3 as (json&(Hv'&->&Hb')%configuration_json_Ok&[= <-]).
  rewrite set_row_compose in *. apply read_revision_bound in Hfin as (rf&Hrf&_&_&Hle&_).
  rewrite set_row_lookup, decide_True, Hr in Hrf by done. injection Hrf as <-. simpl in Hle.
  apply rtc_once. rewrite (set_row_ext _ _ _ (configured_row (config_to_json (with_p2p (sn_configuration current) (mc_p2p_enabled c))) (mr_revision r + 1))).
  - by apply (ms_configure _ _ _ r).
  - intros r0 Hr0. rewrite Hr in Hr0. by injection Hr0 as <-.
Qed.

(** What a replacement that succeeds has found and written. *)
Lemma replace_inner_Ok s column key new_name expected c s' sn :
  replace_inner s column key new_name expected c = (s', Ok sn) → ∃ identity r,
    s !! identity = Some r ∧ mr_revision r = expected ∧ expected + 1 ≤ i64_max ∧
    match column with ColIdentity => identity = key | ColMappedName => mr_mapped_name r = Some key end ∧
    collections_valid None (mc_tunnels c) (mc_exports c) (mc_forwards c) ∧ blen (config_to_json c) ≤ MAX_JSON_BYTES ∧
    let s1 := set_row s identity (configured_row (config_to_json c) (mr_revision r + 1)) in
    s' = match new_name with Some name => bind_name s1 identity name | None => s1 end ∧
    read_existing s' ColIdentity identity = Ok sn.
Proof.
  intros [(a&H&[= <-])|[_ H]]%mcommit_inv; [|by destruct (H sn)].
  apply res_bind_Ok in H as (json&(Hv&->&Hb)%configuration_json_Ok&H).
  apply res_bind_Ok in H as (old&(r&Hr&(_&Hrev&_)%read_row_Ok&Hcol)%read_existing_Ok&H).
  destruct (Z.eqb_spec (sn_revision old) expected) as [He|]; [|done]. simpl in H.
  apply res_bind_Ok in H as (revision&Hn%ok_or_Ok&H). apply bind_Some in Hn as (n&[Hn _]%checked_add_Some&Hle).
  destruct (Z.leb_spec n i64_max); [|done]. injection Hle as <-. cbv zeta in H.
  apply res_bind_Ok in H as (final&Hfin&[= <- <-]).
  exists (sn_identity old), r. split; [done|]. split; [congruence|]. split; [lia|].
  split; [by destruct column|]. split; [done|]. split; [done|].
  cbv zeta. rewrite <- Hrev, <- Hn. split; [|exact Hfin]. done.
Qed.
Lemma replace_inner_steps s column key new_name expected c s' x :
  replace_inner s column key new_name expected c = (s', x) →
  ∃ identity, (column = ColIdentity → identity = key) ∧ rtc (managed_step identity (default key new_name)) s s'.
Proof.
  intros H. destruct x as [sn|e|]; try by apply mcommit_inv in H as [(?&_&?)|[-> _]]; [|exists key].
  apply replace_inner_Ok in H as (identity&r&Hr&Hrev&Hle&Hcol&Hv&Hb&->&_). exists identity. split; [by intros ->|].
  eapply rtc_l; [by apply (ms_configure _ _ _ r c); [|lia| |]|].
  destruct new_name; [|done]. apply rtc_once, ms_bind.
Qed.
Lemma report_Ok s identity revision v s' : managed_wf s →
  managed_report s identity revision v = (s', Ok tt) ↔ ∃ r c,
    s !! identity = Some r ∧ mr_revision r = revision ∧ config_text r c ∧ report_covers c v ∧
    blen (value_to_json v) ≤ MAX_JSON_BYTES ∧
    s' = set_row s identity (row_reported (Some revision) (value_to_json v)).
Proof.
  intros Hwf. split.
  - intros [([]&H&_)|[_ H]]%mcommit_inv; [|by destruct (H tt)].
    apply res_bind_Ok in H as (json&Hj&H). unfold bounded_json, bounded_text in Hj.
    destruct (Z.ltb_spec MAX_JSON_BYTES (blen (value_to_json v))); [done|]. injection Hj as <-.
    apply res_bind_Ok in H as (sn&(r&Hr&_&Hrev&_&Hc)%read_revision_bound&H).
    destruct (Z.eqb_spec (sn_revision sn) revision) as [He|]; [|done]. simpl in H.
    apply res_bind_Ok in H as ([]&Hval&[= <-]).
    destruct (mw_rows _ Hwf _ _ Hr) as [_ (c&[Hc' _]&Hv&_) _]. destruct (Hc) as [Hc'' _].
    assert (sn_configuration sn = c) as Heq by congruence. rewrite Heq in *. apply report_covers_iff in Hval; [|done].
    exists r, c. split; [done|]. split; [congruence|]. done.
  - intros (r&c&Hr&<-&[Hc Hcb]&Hcov&Hb&->).
    destruct (mw_rows _ Hwf _ _ Hr) as [Hrev (c'&[Hc' _]&Hv&Hres) Hm]. assert (c' = c) as -> by congruence.
    destruct (read_row_wf identity r (mw_rows _ Hwf _ _ Hr)) as (sn&Hsn&_&Hsr&[Hsc _]&_).
    assert (sn_configuration sn = c) as Heq by congruence.
    unfold managed_report, bounded_json, bounded_text. rewrite (proj2 (Z.ltb_ge _ _) Hb). cbn [res_bind].
    unfold read_existing, read_snapshot. cbn [find_row]. rewrite Hr. cbn [fmap option_fmap option_map].
    rewrite Hsn. cbn. rewrite Hsr, Z.eqb_refl, Heq, (proj2 (report_covers_iff c v Hv) Hcov). done.
Qed.
Lemma report_steps s identity revision v s' x : managed_wf s →
  managed_report s identity revision v = (s', x) → ∀ name, rtc (managed_step identity name) s s'.
Proof.
  intros Hwf H name. destruct x as [[]|e|]; try by apply mcommit_inv in H as [(?&_&?)|[-> _]].
  apply report_Ok in H as (r&c&Hr&<-&Hc&Hcov&Hb&->); [|done]. apply rtc_once. by apply (ms_report _ _ _ r c).
Qed.

(** * The calls of the store *)

Inductive ManagedCall :=
| CallSync (identity name : list byte) (configuration : ManagedConfiguration)
| CallReplaceForIdentity (identity name : list byte) (expected : Z) (configuration : ManagedConfiguration)
| CallReplace (name : list byte) (expected : Z) (configuration : ManagedConfiguration)
| CallReport (identity : list byte) (revision : Z) (results : Value).
Definition managed_call s (call : ManagedCall) : ManagedStore :=
  match call with
  | CallSync identity name c => fst (managed_sync s identity name c)
  | CallReplaceForIdentity identity name expected c => fst (replace_for_identity s identity name expected c)
  | CallReplace name expected c => fst (managed_replace s name expected c)
  | CallReport identity revision results => fst (managed_report s identity revision results)
  end.
Definition managed_calls s (calls : list ManagedCall) : ManagedStore := foldl managed_call s calls.

Lemma replace_for_identity_steps s identity name expected c s' x :
  replace_for_identity s identity name expected c = (s', x) → rtc (managed_step identity name) s s'.
Proof.
  unfold replace_for_identity. destruct (validate_identity_name identity name).
  - intros (i&Hi&Hst)%replace_inner_steps. by rewrite Hi in Hst.
  - by intros [= <- <-].
  - by intros [= <- <-].
Qed.
Lemma call_steps s call : managed_wf s → rtc any_step s (managed_call s call).
Proof.
  intros Hwf. destruct call as [identity name c|identity name expected c|name expected c|identity revision v]; simpl.
  - eapply steps_any, sync_steps, surjective_pairing.
  - eapply steps_any, replace_for_identity_steps, surjective_pairing.
  - destruct (replace_inner_steps _ _ _ _ _ _ _ _ (surjective_pairing (replace_inner s ColMappedName name None expected c))) as (i&_&Hst).
    by eapply steps_any.
  - eapply steps_any, (report_steps _ _ _ _ _ _ Hwf (surjective_pairing _) []).
Qed.
Lemma calls_steps s calls : managed_wf s → rtc any_step s (managed_calls s calls).
Proof.
  revert s; induction calls as [|call calls IH]; intros s Hwf; [done|].
  pose proof (call_steps s call Hwf) as Hst. etrans; [exact Hst|]. apply IH. by eapply managed_wf_steps.
Qed.

Lemma get_for_identity_wf s identity r : managed_wf s → s !! identity = Some r →
  ∃ sn, get_for_identity s identity = Ok (Some sn) ∧ sn_revision sn = mr_revision r ∧
    config_text r (sn_configuration sn) ∧ sn_applied_revision sn = mr_applied_revision r ∧
    value_from_json (mr_results r) = Some (sn_results sn).
Proof.
  intros Hwf Hr. destruct (read_row_wf identity r (mw_rows _ Hwf _ _ Hr)) as (sn&Hsn&_&Hrev&Hc&Ha&_&Hv).
  exists sn. unfold get_for_identity, read_snapshot. simpl. rewrite Hr. simpl. by rewrite Hsn.
Qed.

(** * Properties *)

(** C30: Whatever calls the table has answered, from an empty one: it holds at most 10,000 rows,
    a mapped name leads to one identity, and reading an identity never finds damage: its
    configuration is valid, and a report it shows is of the current revision and covers every
    item of that configuration exactly once. *)
Theorem managed_table_sound (calls : list ManagedCall) :
  let s := managed_calls ∅ calls in
  Z.of_nat (size s) ≤ MAX_SNAPSHOTS ∧
  (∀ i j a b n, s !! i = Some a → s !! j = Some b →
     mr_mapped_name a = Some n → mr_mapped_name b = Some n → i = j) ∧
  ∀ identity, is_Some (s !! identity) → ∃ sn,
    get_for_identity s identity = Ok (Some sn) ∧ managed_validate (sn_configuration sn) = Ok tt ∧
    (sn_applied_revision sn = None ∧ sn_results sn = VArray [] ∨
     sn_applied_revision sn = Some (sn_revision sn) ∧ report_covers (sn_configuration sn) (sn_results sn)).
Proof.
  pose proof (managed_wf_steps _ _ wf_empty (calls_steps ∅ calls wf_empty)) as Hwf. cbv zeta.
  split; [by apply mw_size|]. split; [by apply mw_names|]. intros identity [r Hr].
  destruct (get_for_identity_wf _ _ _ Hwf Hr) as (sn&Hsn&Hrev&[Hc _]&Ha&Hres). exists sn. split; [done|].
  destruct (mw_rows _ Hwf _ _ Hr) as [_ (c&[Hc' _]&Hv&Hm) _]. assert (sn_configuration sn = c) as -> by congruence.
  split; [by apply collections_Ok|]. rewrite Ha, Hrev. destruct (mr_applied_revision r) as [a|].
  - right. destruct Hm as (->&_&v&Hv'&Hcov). split; [done|]. congruence.
  - left. split; [done|]. rewrite Hm, value_json_empty in Hres. congruence.
Qed.

(** C31: A replacement happens at the revision its author has seen and at no other: one that
    succeeds has found the expected revision and leaves the next one with exactly the new
    configuration; afterwards, whatever calls follow, no replacement and no report for that or an
    older revision is accepted again, and the identity never shows another configuration under
    the new revision. *)
Theorem replacement_needs_current_revision s identity name expected c s1 sn calls :
  managed_wf s → replace_for_identity s identity name expected c = (s1, Ok sn) →
  let s2 := managed_calls s1 calls in
  (∃ before, get_for_identity s identity = Ok (Some before) ∧ sn_revision before = expected) ∧
  sn_revision sn = expected + 1 ∧ sn_configuration sn = c ∧ sn_applied_revision sn = None ∧
  (∃ after, get_for_identity s2 identity = Ok (Some after) ∧ expected + 1 ≤ sn_revision after ∧
     (sn_revision after = expected + 1 → sn_configuration after = c)) ∧
  ∀ stale, stale ≤ expected →
    (∀ name' c' s3 x, replace_for_identity s2 identity name' stale c' = (s3, x) → s3 = s2 ∧ ∀ sn', x ≠ Ok sn') ∧
    ∀ v s3 x, managed_report s2 identity stale v = (s3, x) → s3 = s2 ∧ x ≠ Ok tt.
Proof.
  intros Hwf H. cbv zeta. pose proof (steps_any _ _ _ _ (replace_for_identity_steps _ _ _ _ _ _ _ H)) as Hst1.
  pose proof (managed_wf_steps _ _ Hwf Hst1) as Hwf1. unfold replace_for_identity in H.
  destruct (validate_identity_name identity name) as [[]| |]; [|done|done].
  apply replace_inner_Ok in H as (i&r&Hr&Hrev&Hle&->&Hv&Hb&Hs1&Hsn). cbv zeta in Hs1.
  assert (∃ r1, s1 !! identity = Some r1 ∧ mr_revision r1 = expected + 1 ∧ mr_configuration r1 = config_to_json c ∧
    mr_applied_revision r1 = None) as (r1&Hr1&Hrev1&Hc1&Ha1).
  { rewrite Hs1, bind_name_lookup, set_row_lookup, Hr, decide_True by done. simpl. rewrite decide_True by done.
    eexists. split; [done|]. simpl. by rewrite Hrev. }
  split. { destruct (get_for_identity_wf _ _ _ Hwf Hr) as (b&Hb0&Hb1&_). exists b. split; [done|]. congruence. }
  pose proof (calls_steps s1 calls Hwf1) as Hst2. pose proof (managed_wf_steps _ _ Hwf1 Hst2) as Hwf2.
  set (s2 := managed_calls s1 calls) in *. clearbody s2.
  destruct (steps_row _ _ _ _ Hst2 Hr1) as (r2&Hr2&Hrle&Hrc).
  apply read_existing_Ok in Hsn as (r1'&Hr1'&(Hid&Hsr&_&[Hsc _]&Hsa)%read_row_Ok&Hid'). rewrite Hid', Hr1 in Hr1'. injection Hr1' as <-.
  split; [congruence|]. split. { rewrite Hc1, config_json_rt in Hsc. congruence. } split; [congruence|].
  split.
  { destruct (get_for_identity_wf _ _ _ Hwf2 Hr2) as (a&Ha&Har&[Hac _]&_). exists a. split; [done|].
    split; [lia|]. intros He. assert (mr_configuration r1 = mr_configuration r2) as Hcc by (apply Hrc; lia).
    rewrite <- Hcc, Hc1, config_json_rt in Hac. congruence. }
  intros stale Hstale. split.
  - intros name' c' s3 x Hx. unfold replace_for_identity in Hx.
    destruct (validate_identity_name identity name') as [[]| |]; [|by injection Hx as <- <-|by injection Hx as <- <-].
    destruct x as [sn'| |]; try by apply mcommit_inv in Hx as [(?&_&?)|[-> _]].
    apply replace_inner_Ok in Hx as (i&r'&Hr'&Hrev'&_&->&_). rewrite Hr2 in Hr'. injection Hr' as <-. lia.
  - intros v s3 x Hx. destruct x as [[]| |]; try by apply mcommit_inv in Hx as [(?&_&?)|[-> _]].
    apply report_Ok in Hx as (r'&c'&Hr'&Hrev'&_); [|done]. rewrite Hr2 in Hr'. injection Hr' as <-. lia.
Qed.
End props.

(** * Witnesses *)

Definition edge_config (port : Z) : ManagedConfiguration :=
  {| mc_tunnels := [{| tc_name := str "web"; tc_protocol := Tcp; tc_local_addr := str "[::1]:80"; tc_remote_port := port |}];
     mc_exports := []; mc_forwards := []; mc_p2p_enabled := false |}.
Definition edge_results : Value :=
  VArray [VObject [(str "kind", VString (str "tunnel")); (str "name", VString (str "web"));
                   (str "state", VString (str "ready"))]].
(** A client connects, reports, is configured by the administrator, and another takes its name. *)
Definition edge_calls : list ManagedCall :=
  [CallSync (str "static:a") (str "edge") (edge_config 8080); CallReport (str "static:a") 1 edge_results;
   CallSync (str "static:b") (str "edge") (edge_config 9090)].
Definition edge_table : ManagedStore := managed_calls ∅ edge_calls.

Lemma managed_table_sound_witness :
  ∃ sn, get_for_identity edge_table (str "static:a") = Ok (Some sn) ∧
    report_covers (sn_configuration sn) (sn_results sn).
Proof.
  pose proof (managed_table_sound edge_calls) as Hs. cbv zeta in Hs.
  change (managed_calls ∅ edge_calls) with edge_table in Hs. destruct Hs as (_&_&H).
  assert (bool_decide (mr_applied_revision <$> edge_table !! str "static:a" = Some (Some 1)) = true) as Ha
    by (vm_compute; reflexivity).
  apply bool_decide_eq_true in Ha. apply fmap_Some in Ha as (r&Hr&Ha).
  destruct (H (str "static:a") (mk_is_Some _ _ Hr)) as (sn&Hsn&_&[[Hno _]|[_ Hc]]); [|exists sn; split; [exact Hsn|exact Hc]].
  exfalso. unfold get_for_identity, read_snapshot in Hsn. simpl find_row in Hsn.
  rewrite Hr in Hsn.
  apply res_bind_Ok in Hsn as (sn'&Hrow&[= ->]). apply read_row_Ok in Hrow as (_&_&_&_&He). congruence.
Defined.

Definition edge_replaced : ManagedStore * mres ManagedSnapshot :=
  replace_for_identity edge_table (str "static:a") (str "edge") 1 (edge_config 8081).
Lemma replacement_needs_current_revision_witness :
  ∃ sn, edge_replaced.2 = Ok sn ∧ sn_configuration sn = edge_config 8081 ∧
    fst (replace_for_identity edge_replaced.1 (str "static:a") (str "edge") 1 (edge_config 8082)) = edge_replaced.1.
Proof.
  destruct edge_replaced.2 as [sn| |] eqn:Hr.
  - destruct (replacement_needs_current_revision edge_table (str "static:a") (str "edge") 1 (edge_config 8081)
      edge_replaced.1 sn []) as (_&_&Hc&_&_&Hstale).
    + exact (managed_wf_steps _ _ wf_empty (calls_steps ∅ edge_calls wf_empty)).
    + rewrite <- Hr. unfold edge_replaced. destruct (replace_for_identity _ _ _ _ _); reflexivity.
    + exists sn. split; [reflexivity|]. split; [exact Hc|]. destruct (Hstale 1 ltac:(lia)) as [Hs _].
      destruct (replace_for_identity edge_replaced.1 (str "static:a") (str "edge") 1 (edge_config 8082)) as [s3 x] eqn:Hx.
      destruct (Hs _ _ _ _ Hx) as [He _]. exact He.
  - exfalso. assert (match edge_replaced.2 with Ok _ => true | _ => false end = true) as Ht by (vm_compute; reflexivity).
    rewrite Hr in Ht. discriminate.
  - exfalso. assert (match edge_replaced.2 with Ok _ => true | _ => false end = true) as Ht by (vm_compute; reflexivity).
    rewrite Hr in Ht. discriminate.
Defined.
