(* ===== verification/TunnelManagement.v ===== *)
(** Managed tunnels of authenticated devices ([rustgos/src/tunnel_management.rs]): the stable
    identity of a device, and what the control channel and the dashboard may do with its
    configuration. *)

From S2P Require Import Prelude.
From S2P Require Import Messages.
From S2P Require Import Text.
From S2P Require Import Peer.
From S2P Require Import EnrollKeys.
From S2P Require Import Identity.
From S2P Require Import Enrollment.
From S2P Require Import Config.
From S2P Require Import Managed.
From S2P Require Import Registry.
From S2P Require Import Coordinator.
From Stdlib Require Import Strings.Byte.
From stdpp Require Import prelude gmap list strings.

#[local] Open Scope Z_scope.

(** [TunnelManagement] but for the stores it shares: the identities of the configured clients,
    whether each is enabled, and the server's limit on tunnels. *)
Record TunnelManagement := {
  tm_static_identities : gmap (list byte) (list byte * bool);
  tm_max_tunnels : Z;
}.

Definition static_identity (fp : list byte) : list byte := str "static:" ++ fp.
Definition dynamic_identity (internal_id : list byte) : list byte := str "dynamic:" ++ internal_id.

Section management.
Context {P : Primitives} {B : Base64} {E : Ed25519Points} {J : SerdeJson}.

Fixpoint static_identities_of (clients : list AuthorizedClient) (identities : gmap (list byte) (list byte * bool))
    : mres (gmap (list byte) (list byte * bool)) :=
  match clients with
  | [] => Ok identities
  | client :: clients =>
    key ← map_err (λ _, ManagedInvalid (str "invalid client public key")) (public_key_from_str (az_public_key client));
    static_identities_of clients
      (<[az_name client := (static_identity (fingerprint_to_string (fingerprint key)), az_enabled client)]> identities)
  end.
Definition TunnelManagement_new (clients : list AuthorizedClient) (max_tunnels : Z) : mres TunnelManagement :=
  identities ← static_identities_of clients ∅;
  Ok {| tm_static_identities := identities; tm_max_tunnels := max_tunnels |}.

(** The enrolled client under a name: it must have a usable key. *)
Definition dynamic_client (dynamic : option DynamicClientStore) (name : list byte) : mres DynamicClient :=
  store ← ok_or dynamic ManagedNotFound;
  found ← map_err (λ _, ManagedStorage) (client_by_display_id store name);
  ok_or found ManagedNotFound.

(** The device that was authenticated is still the one the store has under its name. *)
Definition same_device (client : DynamicClient) (authenticated : AuthenticatedClient) : mres unit :=
  text ← ok_or (dc_public_key client) ManagedNotFound;
  key ← map_err (λ _, ManagedNotFound) (public_key_from_str text);
  if negb (dc_enabled client) || dc_tombstoned client
     || negb (bool_decide (fingerprint_to_string (fingerprint key) = ac_fingerprint authenticated))
  then Err ManagedNotFound else Ok tt.

Definition authenticated_identity (m : TunnelManagement) (dynamic : option DynamicClientStore)
    (authenticated : AuthenticatedClient) : mres (list byte) :=
  match tm_static_identities m !! ac_name authenticated with
  | Some (identity, enabled) =>
    if enabled && bool_decide (identity = static_identity (ac_fingerprint authenticated))
    then Ok identity else Err ManagedNotFound
  | None =>
    client ← dynamic_client dynamic (ac_name authenticated);
    _ ← same_device client authenticated;
    Ok (dynamic_identity (dc_internal_id client))
  end.

Definition identity_of_name (m : TunnelManagement) (dynamic : option DynamicClientStore) (name : list byte)
    : mres (list byte) :=
  match (tm_static_identities m !! name : option (list byte * bool)) with
  | Some (identity, enabled) => if enabled then Ok identity else Err ManagedNotFound
  | None =>
    client ← dynamic_client dynamic name;
    if negb (dc_enabled client) || dc_tombstoned client || negb (bool_decide (is_Some (dc_public_key client)))
    then Err ManagedNotFound
    else Ok (dynamic_identity (dc_internal_id client))
  end.

(** [validate] of the server for the client of this name. *)
Definition management_validate (m : TunnelManagement) (name : list byte) (c : ManagedConfiguration) : mres unit :=
  _ ← map_err managed_invalid (managed_validate c);
  if existsb (λ f, bool_decide (to_ascii_lowercase (fc_peer f) = to_ascii_lowercase name)) (mc_forwards c)
  then Err (ManagedInvalid (str "转发目标不能是客户端自身"))
  else if tm_max_tunnels m <? blen (mc_tunnels c) then Err (ManagedInvalid (str "too many server tunnels"))
  else Ok tt.

Definition has_p2p_items (c : ManagedConfiguration) : bool :=
  negb (bool_decide (mc_exports c = [])) || negb (bool_decide (mc_forwards c = [])).

Definition update_authenticated (m : TunnelManagement) (dynamic : option DynamicClientStore) (s : ManagedStore)
    (authenticated : AuthenticatedClient) (expected_revision : Z) (c : ManagedConfiguration)
    : ManagedStore * mres ManagedSnapshot :=
  match
    _ ← management_validate m (ac_name authenticated) c;
    if negb (mc_p2p_enabled c) && has_p2p_items c
    then Err (ManagedInvalid (str "请先在客户端启用 P2P，或删除 P2P 项目"))
    else authenticated_identity m dynamic authenticated
  with
  | Ok identity => replace_for_identity s identity (ac_name authenticated) expected_revision c
  | Err e => (s, Err e)
  | Panic => (s, Panic)
  end.

(** The report the server writes for a client that cannot apply its P2P items. *)
Definition FAILED_NO_P2P : list byte := str "配置无法应用：请在客户端启用 P2P 或删除服务器上的 P2P 项目".
Definition result_item (kind name state error : list byte) : Value :=
  VObject [(str "kind", VString kind); (str "name", VString name); (str "state", VString state);
           (str "error", VString error)].
Definition failure_report (c : ManagedConfiguration) : Value :=
  VArray (map (λ item, result_item item.1 item.2 (str "failed") FAILED_NO_P2P) (configured_items c)).

Definition sync_authenticated (m : TunnelManagement) (dynamic : option DynamicClientStore) (s : ManagedStore)
    (authenticated : AuthenticatedClient) (c : ManagedConfiguration) : ManagedStore * mres ManagedSnapshot :=
  match
    _ ← management_validate m (ac_name authenticated) c;
    authenticated_identity m dynamic authenticated
  with
  | Ok identity =>
    let '(s, r) := managed_sync s identity (ac_name authenticated) c in
    match r with
    | Ok snapshot =>
      if negb (mc_p2p_enabled c) && has_p2p_items (sn_configuration snapshot) then
        let '(s, reported) := managed_report s identity (sn_revision snapshot)
                                (failure_report (sn_configuration snapshot)) in
        (s, _ ← reported; Ok snapshot)
      else (s, Ok snapshot)
    | _ => (s, r)
    end
  | Err e => (s, Err e)
  | Panic => (s, Panic)
  end.

(** The profile of an authenticated device, with the identifier the store has for it. *)
Definition sync_client_profile (dynamic : option DynamicClientStore) (authenticated : AuthenticatedClient)
    (profile : ClientProfile) (clock : Z) : option DynamicClientStore * mres ClientProfile :=
  let answer uid := {| cp_display_name := cp_display_name profile; cp_uid := uid; cp_local_ip := cp_local_ip profile |} in
  match dynamic with
  | None => (None, Ok (answer None))
  | Some store =>
    match map_err (λ _, ManagedStorage) (client_by_display_id store (ac_name authenticated)) with
    | Ok None => (dynamic, Ok (answer None))
    | Ok (Some client) =>
      match same_device client authenticated with
      | Ok _ =>
        let '(store, r) := update_profile store (dc_internal_id client) (cp_display_name profile)
                             (cp_local_ip profile) clock in
        (Some store, _ ← map_err (λ _, ManagedStorage) r; Ok (answer (Some (dc_internal_id client))))
      | Err e => (dynamic, Err e)
      | Panic => (dynamic, Panic)
      end
    | Err e => (dynamic, Err e)
    | Panic => (dynamic, Panic)
    end
  end.

(** * What the dashboard shows *)

(** The configuration of the client a forward leads to. *)
Definition forward_target (m : TunnelManagement) (dynamic : option DynamicClientStore) (s : ManagedStore)
    (peer : list byte) : mres (option ManagedSnapshot) :=
  match identity_of_name m dynamic peer with
  | Ok identity => get_for_identity s identity
  | Err ManagedNotFound => Ok None
  | Err e => Err e
  | Panic => Panic
  end.

(** Why a forward does not work now: its state and the explanation. *)
Definition forward_issue (r : ClientRegistry) (name : list byte) (f : ForwardConfig)
    (target : option ManagedSnapshot) : option (list byte * list byte) :=
  let offline := bool_decide (active_control_session r (fc_peer f) = None) in
  match target with
  | Some target =>
    match List.find (λ x, bool_decide (xc_name x = fc_export f)) (mc_exports (sn_configuration target)) with
    | None => Some (str "failed", str "目标导出不存在")
    | Some export =>
      if negb (allows_peer export name) then Some (str "failed", str "目标导出不允许此客户端访问")
      else if offline then Some (str "pending", str "目标客户端离线")
      else if negb (bool_decide (sn_applied_revision target = Some (sn_revision target)))
      then Some (str "pending", str "目标配置等待应用")
      else None
    end
  | None => if offline then Some (str "pending", str "目标客户端不可用") else None
  end.

Definition is_string (v : option Value) (s : list byte) : bool :=
  match v with Some (VString t) => bool_decide (t = s) | _ => false end.
Definition is_forward_result (name : list byte) (v : Value) : bool :=
  is_string (obj_get (str "kind") v) (str "forward") && is_string (obj_get (str "name") v) name.
(** The issue takes the place of the forward's result, unless that is a failure already. *)
Fixpoint project_issue (results : list Value) (f : ForwardConfig) (state error : list byte) : list Value :=
  match results with
  | [] => [result_item (str "forward") (fc_name f) state error]
  | v :: rest =>
    if is_forward_result (fc_name f) v then
      (if is_string (obj_get (str "state") v) (str "failed") then v
       else result_item (str "forward") (fc_name f) state error) :: rest
    else v :: project_issue rest f state error
  end.
Fixpoint project_forwards (m : TunnelManagement) (dynamic : option DynamicClientStore) (s : ManagedStore)
    (r : ClientRegistry) (name : list byte) (forwards : list ForwardConfig) (results : Value) : mres Value :=
  match forwards with
  | [] => Ok results
  | f :: forwards =>
    target ← forward_target m dynamic s (fc_peer f);
    let results :=
      match forward_issue r name f target, results with
      | Some (state, error), VArray items => VArray (project_issue items f state error)
      | _, _ => results
      end in
    project_forwards m dynamic s r name forwards results
  end.

Definition management_snapshot (m : TunnelManagement) (dynamic : option DynamicClientStore) (s : ManagedStore)
    (r : ClientRegistry) (name : list byte) : mres (option ManagedSnapshot) :=
  identity ← identity_of_name m dynamic name;
  found ← get_for_identity s identity;
  match found with
  | None => Ok None
  | Some snapshot =>
    results ← project_forwards m dynamic s r name (mc_forwards (sn_configuration snapshot)) (sn_results snapshot);
    Ok (Some {| sn_identity := sn_identity snapshot; sn_name := sn_name snapshot; sn_revision := sn_revision snapshot;
                sn_configuration := sn_configuration snapshot;
                sn_applied_revision := sn_applied_revision snapshot; sn_results := results |})
  end.
End management.
