(* ===== verification/TunnelProps.v ===== *)
(** The theorems of the managed tunnels of authenticated devices: a device reaches its own
    configuration and no other. *)

From S2P Require Import Prelude.
From S2P Require Import Messages.
From S2P Require Import Text.
From S2P Require Import Peer.
From S2P Require Import CryptoRef.
From S2P Require Import EnrollKeys.
From S2P Require Import Identity.
From S2P Require Import ExternalRef.
From S2P Require Import Enrollment.
From S2P Require Import Config.
From S2P Require Import ConfigProps.
From S2P Require Import Managed.
From S2P Require Import Registry.
From S2P Require Import TunnelManagement.
From S2P Require Import ManagedProps.
From S2P Require Import AuthProps.
From Stdlib Require Import Strings.Byte.
From stdpp Require Import prelude gmap list strings relations.

#[local] Open Scope Z_scope.

Section kept.
Context {J : SerdeJson}.
Implicit Types s : ManagedStore.

(** Every other identity keeps its row, except for the name that now leads here. *)
Definition others_kept (identity name : list byte) s s' : Prop :=
  ∀ other r, other ≠ identity → s !! other = Some r →
    ∃ r', s' !! other = Some r' ∧ (r' = r ∨ mr_mapped_name r = Some name ∧ r' = row_unmapped r).

#[export] Instance others_kept_preorder identity name : PreOrder (others_kept identity name).
Proof.
  split; [intros s other r _ Hr; exists r; by auto|].
  intros s1 s2 s3 H12 H23 other r Hne Hr. destruct (H12 other r Hne Hr) as (r1&Hr1&Hc1).
  destruct (H23 other r1 Hne Hr1) as (r2&Hr2&Hc2). exists r2. split; [done|].
  destruct Hc1 as [->|[Hn ->]]; [done|]. destruct Hc2 as [->|[Hn' _]]; [by auto|done].
Qed.

Lemma step_others identity name s s' : managed_step identity name s s' → others_kept identity name s s'.
Proof.
  intros Hst other r Hne Hr. destruct Hst as [c Hn| | |r0 c Hr0|r0 c v Hr0].
  - exists r. rewrite lookup_insert_ne by done. by auto.
  - rewrite bind_name_lookup, Hr. simpl. rewrite decide_False by done. destruct (decide (mr_mapped_name r = Some name)); eauto.
  - rewrite set_row_lookup, decide_False by done. by eauto.
  - rewrite set_row_lookup, decide_False by done. by eauto.
  - rewrite set_row_lookup, decide_False by done. by eauto.
Qed.
Lemma steps_others identity name s s' : rtc (managed_step identity name) s s' → others_kept identity name s s'.
Proof. induction 1 as [|a b c Hab _ IH]; [done|]. etrans; [by apply step_others|done]. Qed.
End kept.

Section props.
Context {P : Primitives} {B : Base64} {E : Ed25519Points} {J : SerdeJson} {HJ : SerdeJsonLaws J}.
Implicit Types s : ManagedStore.

(** The identity of the device that proved a key with this fingerprint under this name: the one
    configured for the name, or the one the store has enrolled. *)
Definition device_identity (m : TunnelManagement) (dynamic : option DynamicClientStore)
    (device : AuthenticatedClient) (identity : list byte) : Prop :=
  match tm_static_identities m !! ac_name device with
  | Some (configured, enabled) =>
    configured = identity ∧ enabled = true ∧ identity = static_identity (ac_fingerprint device)
  | None => ∃ store client text key,
      dynamic = Some store ∧ client_by_display_id store (ac_name device) = Ok (Some client) ∧
      identity = dynamic_identity (dc_internal_id client) ∧ dc_enabled client = true ∧ dc_tombstoned client = false ∧
      dc_public_key client = Some text ∧ public_key_from_str text = Ok key ∧
      fingerprint_to_string (fingerprint key) = ac_fingerprint device
  end.

Lemma authenticated_identity_Ok m dynamic device identity :
  authenticated_identity m dynamic device = Ok identity → device_identity m dynamic device identity.
Proof.
  unfold authenticated_identity, device_identity.
  destruct (tm_static_identities m !! ac_name device) as [[configured enabled]|].
  - destruct enabled; simpl; [|done]. destruct (bool_decide _) eqn:Hb; [|done]. apply bool_decide_eq_true in Hb.
    by intros [= <-].
  - intros H. apply res_bind_Ok in H as (client&Hc&H). apply res_bind_Ok in H as ([]&Hs&[= <-]).
    unfold dynamic_client in Hc. apply res_bind_Ok in Hc as (store&Hst%ok_or_Ok&Hc).
    apply res_bind_Ok in Hc as (found&Hf%map_err_Ok&Hc%ok_or_Ok). subst found.
    unfold same_device in Hs. apply res_bind_Ok in Hs as (text&Ht%ok_or_Ok&Hs).
    apply res_bind_Ok in Hs as (key&Hk%map_err_Ok&Hs).
    destruct (dc_enabled client) eqn:He; [|done]. destruct (dc_tombstoned client) eqn:Htb; [done|].
    destruct (bool_decide _) eqn:Hb in Hs; [|done]. apply bool_decide_eq_true in Hb.
    by exists store, client, text, key.
Qed.

Lemma update_authenticated_Ok m dynamic s device expected c s' sn :
  update_authenticated m dynamic s device expected c = (s', Ok sn) → ∃ identity,
    management_validate m (ac_name device) c = Ok tt ∧ authenticated_identity m dynamic device = Ok identity ∧
    replace_for_identity s identity (ac_name device) expected c = (s', Ok sn).
Proof.
  unfold update_authenticated. destruct (_ ← _; _) as [identity| |] eqn:H; [|done|done]. intros Hr.
  apply res_bind_Ok in H as ([]&Hv&H). destruct (_ && _); [done|]. by exists identity.
Qed.
Lemma sync_authenticated_Ok m dynamic s device c s' sn : managed_wf s →
  sync_authenticated m dynamic s device c = (s', Ok sn) → ∃ identity s1,
    management_validate m (ac_name device) c = Ok tt ∧ authenticated_identity m dynamic device = Ok identity ∧
    managed_sync s identity (ac_name device) c = (s1, Ok sn) ∧ rtc (managed_step identity (ac_name device)) s1 s'.
Proof.
  intros Hwf. unfold sync_authenticated. destruct (_ ← _; _) as [identity| |] eqn:H; [|done|done].
  apply res_bind_Ok in H as ([]&Hv&H). destruct (managed_sync _ _ _ _) as [s1 r] eqn:Hs.
  destruct r as [snapshot| |]; [|done|done]. destruct (_ && _).
  - destruct (managed_report _ _ _ _) as [s2 reported] eqn:Hr. intros [= <- Hok].
    apply res_bind_Ok in Hok as ([]&_&[= <-]). exists identity, s1. repeat (split; [done|]).
    eapply report_steps; [|done]. eapply managed_wf_steps; [exact Hwf|]. by eapply steps_any, sync_steps.
  - intros [= <- <-]. by exists identity, s1.
Qed.

Lemma replace_for_identity_Ok s identity name expected c s' sn :
  replace_for_identity s identity name expected c = (s', Ok sn) → sn_identity sn = identity ∧ sn_configuration sn = c.
Proof.
  unfold replace_for_identity. destruct (validate_identity_name identity name) as [[]| |]; [|done|done].
  intros (i&r&Hr&_&_&->&_&_&->&Hsn)%replace_inner_Ok.
  apply read_existing_Ok in Hsn as (r'&Hr'&(_&_&_&[Hc _]&_)%read_row_Ok&Hid). rewrite Hid in Hr'.
  split; [done|]. revert Hr'. cbv zeta. rewrite bind_name_lookup, set_row_lookup, Hr, decide_True by done. simpl.
  rewrite decide_True by done. intros [= <-]. simpl in Hc. rewrite config_json_rt in Hc. by injection Hc.
Qed.
Lemma sync_Ok s identity name c s' sn : managed_sync s identity name c = (s', Ok sn) → sn_identity sn = identity.
Proof.
  intros [(a&H&[= <-])|[_ H]]%mcommit_inv; [|by destruct (H sn)].
  do 5 apply res_bind_Ok in H as (?&_&H). by apply res_bind_Ok in H as (final&(?&?&?&Hid)%read_existing_Ok&[= <- <-]).
Qed.

(** C32: What an authenticated device may write: a configuration within the server's limits, under
    the one identity that its proved key and name lead to - the enabled client configured under
    that name with that key, or the enrolled, enabled and not deleted one whose registered key it
    is.  Of every other identity nothing changes - configuration, revision, report - but that a
    mapped name equal to the device's own is taken from it. *)
Theorem device_writes_its_own_row m dynamic s device expected c s' sn : managed_wf s →
  update_authenticated m dynamic s device expected c = (s', Ok sn) ∨
  sync_authenticated m dynamic s device c = (s', Ok sn) →
  device_identity m dynamic device (sn_identity sn) ∧
  (∀ f, f ∈ mc_forwards c → to_ascii_lowercase (fc_peer f) ≠ to_ascii_lowercase (ac_name device)) ∧
  blen (mc_tunnels c) ≤ tm_max_tunnels m ∧ managed_wf s' ∧
  others_kept (sn_identity sn) (ac_name device) s s'.
Proof.
  intros Hwf H.
  assert (management_validate m (ac_name device) c = Ok tt ∧ authenticated_identity m dynamic device = Ok (sn_identity sn) ∧
    rtc (managed_step (sn_identity sn) (ac_name device)) s s') as (Hv&Hid&Hst).
  { destruct H as [(i&Hv&Hi&Hr)%update_authenticated_Ok|(i&s1&Hv&Hi&Hs&Hst)%sync_authenticated_Ok]; [| |done].
    - pose proof (replace_for_identity_Ok _ _ _ _ _ _ _ Hr) as [-> _]. split; [done|]. split; [done|].
      by eapply replace_for_identity_steps.
    - pose proof (sync_Ok _ _ _ _ _ _ Hs) as ->. split; [done|]. split; [done|].
      etrans; [by eapply sync_steps|done]. }
  split; [by apply authenticated_identity_Ok|]. unfold management_validate in Hv. apply res_bind_Ok in Hv as (_&_&Hv).
  destruct (existsb _ _) eqn:Hself; [done|]. destruct (Z.ltb_spec (tm_max_tunnels m) (blen (mc_tunnels c))); [done|].
  split; [|split; [done|split; [eapply managed_wf_steps, steps_any, Hst; done|by apply steps_others]]].
  intros f Hf He. apply not_true_iff_false in Hself. apply Hself, existsb_exists. exists f.
  split; [by apply list_elem_of_In|by apply bool_decide_eq_true].
Qed.
End props.

(** * Witness *)

(** The client of [AuthProps] connects, and is then configured with another port. *)
Definition edge_management : TunnelManagement :=
  match TunnelManagement_new edge_clients 4 with
  | Ok m => m
  | _ => {| tm_static_identities := ∅; tm_max_tunnels := 0 |}
  end.
Definition edge_device : AuthenticatedClient :=
  {| ac_name := str "edge"; ac_fingerprint := key_fingerprint edge_key;
     ac_session_id := replicate 24 x08 ++ be_bytes 8 0 |}.
Definition device_synced : ManagedStore * mres ManagedSnapshot :=
  sync_authenticated edge_management None edge_table edge_device (edge_config 7000).

Lemma device_writes_its_own_row_witness :
  ∃ sn, device_synced.2 = Ok sn ∧ sn_identity sn = static_identity (key_fingerprint edge_key) ∧
    others_kept (sn_identity sn) (str "edge") edge_table device_synced.1.
Proof.
  assert (match device_synced.2 with Ok _ => true | _ => false end = true) as Ht by (vm_compute; reflexivity).
  destruct device_synced.2 as [sn| |] eqn:Hr; [|discriminate|discriminate].
  destruct (device_writes_its_own_row edge_management None edge_table edge_device 0 (edge_config 7000)
    device_synced.1 sn) as (Hid&_&_&_&Hkept).
  - exact (managed_wf_steps _ _ wf_empty (calls_steps ∅ edge_calls wf_empty)).
  - right. rewrite <- Hr. unfold device_synced. destruct (sync_authenticated _ _ _ _ _); reflexivity.
  - exists sn. split; [reflexivity|]. split; [|exact Hkept].
    assert (bool_decide (is_Some (tm_static_identities edge_management !! str "edge")) = true) as Hs by (vm_compute; reflexivity).
    apply bool_decide_eq_true in Hs. unfold device_identity in Hid. cbn [ac_name edge_device] in Hid.
    destruct (tm_static_identities edge_management !! str "edge") as [[i e]|] eqn:Hl.
    + destruct Hid as (_&_&He). exact He.
    + destruct Hs as [x Hx]. discriminate.
Defined.
