(* ===== verification/ServerSession.v ===== *)
(** A control session on the server after its handshake ([run_control_session] and
    [run_active_control] of [rustgos/src/control.rs]): the exchange of the managed
    configuration, the registration of the tunnels and the loop of the active session.

    Each definition is one received frame or one turn of the loop: what it reads (registry,
    clocks, generator, whether its one write succeeded) is an argument, what it does is its
    result.  A task that panics while it is awaited ([spawn_blocking]) is [SeInvalidState]. *)

From S2P Require Import Prelude.
From S2P Require Import Wire.
From S2P Require Import Ordered.
From S2P Require Import Postcard.
From S2P Require Import Messages.
From S2P Require Import Events.
From S2P Require Import Frame.
From S2P Require Import Control.
From S2P Require Import Handshake.
From S2P Require Import RvMessages.
From S2P Require Import Bindings.
From S2P Require Import Text.
From S2P Require Import Peer.
From S2P Require Import EnrollKeys.
From S2P Require Import Identity.
From S2P Require Import Enrollment.
From S2P Require Import Config.
From S2P Require Import Managed.
From S2P Require Import Registry.
From S2P Require Import Coordinator.
From S2P Require Import Observation.
From S2P Require Import TunnelManagement.
From S2P Require Import ServerHandshake.
From Stdlib Require Import Strings.Byte.
From stdpp Require Import prelude gmap list strings sorting.

#[local] Open Scope Z_scope.

(** [serde_json::to_value] and [from_value] of a configuration and of a profile. *)
Class SerdeValues := {
  config_to_value : ManagedConfiguration → Value;
  config_from_value : Value → option ManagedConfiguration;
  profile_to_value : ClientProfile → Value;
  profile_from_value : Value → option ClientProfile;
}.

Definition obj_remove (key : list byte) (v : Value) : Value :=
  match v with
  | VObject members => VObject (filter (λ m, m.1 ≠ key) members)
  | _ => v
  end.
(** [value[key] = member]: a null becomes an object, another value panics. *)
Definition obj_set (key : list byte) (member v : Value) : res SessionError Value :=
  match v with
  | VObject members => Ok (VObject (filter (λ m, m.1 ≠ key) members ++ [(key, member)]))
  | VNull => Ok (VObject [(key, member)])
  | _ => Panic
  end.

(** * State *)

(** What the session shares with the rest of the server. *)
Record Shared := {
  sh_store : ManagedStore;
  sh_dynamic : option DynamicClientStore;
  sh_tokens : ObservationState;
  sh_coordinator : CoordinatorState;
}.
Definition with_store (sh : Shared) (s : ManagedStore) : Shared :=
  {| sh_store := s; sh_dynamic := sh_dynamic sh; sh_tokens := sh_tokens sh; sh_coordinator := sh_coordinator sh |}.
Definition with_dynamic (sh : Shared) (d : option DynamicClientStore) : Shared :=
  {| sh_store := sh_store sh; sh_dynamic := d; sh_tokens := sh_tokens sh; sh_coordinator := sh_coordinator sh |}.
Definition with_observation (sh : Shared) (t : ObservationState) : Shared :=
  {| sh_store := sh_store sh; sh_dynamic := sh_dynamic sh; sh_tokens := t; sh_coordinator := sh_coordinator sh |}.
Definition with_coordinator (sh : Shared) (c : CoordinatorState) : Shared :=
  {| sh_store := sh_store sh; sh_dynamic := sh_dynamic sh; sh_tokens := sh_tokens sh; sh_coordinator := c |}.

Record ControlRuntime := {
  rn_heartbeat_timeout : Z;
  rn_issuer : option ObservationRuntimeLimits;
  rn_rendezvous : RendezvousCoordinator;
  rn_managed : option TunnelManagement;
}.

(** What the task, spawned and joined, came to. *)
Definition task_result {A} (r : mres A) : res SessionError A :=
  match r with Ok a => Ok a | Err _ => Err SeManaged | Panic => Err SeInvalidState end.

(** * The managed configuration *)

Section managed.
Context {P : Primitives} {B : Base64} {E : Ed25519Points} {J : SerdeJson} {V : SerdeValues}.

Definition UPDATE_REJECTED : list byte := str "配置无法保存，请检查配置或服务端日志".
Definition update_detail (e : ManagedError) : list byte :=
  match e with
  | ManagedConflict => str "服务器配置已被修改，请重新载入后再保存；本地草稿已保留"
  | ManagedInvalid detail => str "配置无法保存：" ++ detail
  | ManagedNotFound => str "当前设备尚未同步配置或授权已变化，请重新连接后重试"
  | ManagedStorage => str "服务器配置存储暂不可用，请稍后重试"
  end.
Definition apply_update (managed : option TunnelManagement) (sh : Shared) (identity : AuthenticatedClient)
    (request : ManagedConfigUpdate) : Shared * mres ManagedSnapshot :=
  match managed with
  | None => (sh, Err (ManagedInvalid (str "服务器未启用隧道配置同步")))
  | Some m =>
    match config_from_json (mcu_configuration request) with
    | None => (sh, Err (ManagedInvalid (str "配置数据格式无效")))
    | Some c =>
      let '(s, r) := update_authenticated m (sh_dynamic sh) (sh_store sh) identity (mcu_expected_revision request) c in
      (with_store sh s, r)
    end
  end.
Definition update_result (request : ManagedConfigUpdate) (r : mres ManagedSnapshot)
    : res SessionError ManagedConfigUpdateResult :=
  match r with
  | Ok snapshot => Ok {| mcur_revision := sn_revision snapshot; mcur_error := None |}
  | Err e =>
    Ok {| mcur_revision := mcu_expected_revision request;
          mcur_error := Some (match bounded_try_from 1024 (update_detail e) with
                              | Ok detail => detail
                              | _ => UPDATE_REJECTED
                              end) |}
  | Panic => Err SeInvalidState
  end.

(** The profile of a request that has one, and the configuration. *)
Definition read_request (negotiated : ProtocolVersion) (request : ManagedConfigRequest)
    : res SessionError (option ClientProfile * ManagedConfiguration) :=
  v ← ok_or (value_from_json (mcr_configuration request)) SeInvalidState;
  '(profile, v) ←
    (if Version.supports_client_profile negotiated then
       match obj_get (str "client_profile") v with
       | Some p => p ← ok_or (profile_from_value p) SeInvalidState; Ok (Some p, obj_remove (str "client_profile") v)
       | None => Ok (None, v)
       end
     else Ok (None, v));
  configuration ← ok_or (config_from_value v) SeInvalidState;
  _ ← map_err (λ _, SeInvalidState) (managed_validate configuration);
  Ok (profile, configuration).

Definition sync_profile (sh : Shared) (identity : AuthenticatedClient) (profile : option ClientProfile) (clock : Z)
    : Shared * res SessionError (option ClientProfile) :=
  match profile with
  | None => (sh, Ok None)
  | Some profile =>
    let '(dynamic, r) := sync_client_profile (sh_dynamic sh) identity profile clock in
    (with_dynamic sh dynamic, profile ← task_result r; Ok (Some profile))
  end.
Definition sync_configuration (managed : option TunnelManagement) (sh : Shared) (identity : AuthenticatedClient)
    (configuration : ManagedConfiguration) : Shared * res SessionError (option ManagedSnapshot) :=
  match managed with
  | None => (sh, Ok None)
  | Some m =>
    let '(s, r) := sync_authenticated m (sh_dynamic sh) (sh_store sh) identity configuration in
    (with_store sh s, snapshot ← task_result r; Ok (Some snapshot))
  end.
Definition snapshot_answer (snapshot : option ManagedSnapshot) (profile : option ClientProfile)
    : res SessionError ManagedConfigSnapshot :=
  let v := match snapshot with Some s => config_to_value (sn_configuration s) | None => VObject [] end in
  configuration ←
    (match snapshot, profile with
     | None, None => Ok None
     | _, _ =>
       v ← (match profile with Some p => obj_set (str "client_profile") (profile_to_value p) v | None => Ok v end);
       bytes ← map_err (λ _, SeInvalidState) (bounded_try_from MAX_MANAGED_CONFIGURATION_BYTES (value_to_json v));
       Ok (Some bytes)
     end);
  Ok {| mcs_revision := match snapshot with Some s => sn_revision s | None => 0 end;
        mcs_configuration := configuration |}.

(** The first exchange of a session that has managed configurations: an edit, after whose answer
    the session ends, or the synchronisation. *)
Inductive ManagedOutcome := EditAnswered | Synchronised (snapshot : option ManagedSnapshot).
Definition managed_exchange (rt : ControlRuntime) (sh : Shared) (identity : AuthenticatedClient)
    (negotiated : ProtocolVersion) (state : ClientHandshakeState) (frame : Frame) (clock : Z)
    (written : res SessionError unit)
    : Shared * list Message * res SessionError (ClientHandshakeState * ManagedOutcome) :=
  match
    _ ← guard_err (negb (bool_decide (Frame.frame_version frame = negotiated))) SeInvalidState;
    map_err SeState (transition_control state negotiated ClientToServer (frame_message frame))
  with
  | Ok state =>
    match frame_message frame with
    | MManagedConfigUpdate request =>
      let '(sh, r) := apply_update (rn_managed rt) sh identity request in
      match
        result ← update_result request r;
        state ← map_err SeState (transition_control state negotiated ServerToClient (MManagedConfigUpdateResult result));
        Ok (result, state)
      with
      | Ok (result, state) =>
        (sh, [MManagedConfigUpdateResult result], _ ← written; Ok (state, EditAnswered))
      | Err e => (sh, [], Err e)
      | Panic => (sh, [], Panic)
      end
    | MManagedConfigRequest request =>
      match read_request negotiated request with
      | Ok (profile, configuration) =>
        let '(sh, profile) := sync_profile sh identity profile clock in
        match profile with
        | Ok profile =>
          let '(sh, snapshot) := sync_configuration (rn_managed rt) sh identity configuration in
          match
            snapshot ← snapshot;
            answer ← snapshot_answer snapshot profile;
            state ← map_err SeState (transition_control state negotiated ServerToClient (MManagedConfigSnapshot answer));
            Ok (snapshot, answer, state)
          with
          | Ok (snapshot, answer, state) =>
            (sh, [MManagedConfigSnapshot answer], _ ← written; Ok (state, Synchronised snapshot))
          | Err e => (sh, [], Err e)
          | Panic => (sh, [], Panic)
          end
        | Err e => (sh, [], Err e)
        | Panic => (sh, [], Panic)
        end
      | Err e => (sh, [], Err e)
      | Panic => (sh, [], Panic)
      end
    | _ => (sh, [], Err SeInvalidState)
    end
  | Err e => (sh, [], Err e)
  | Panic => (sh, [], Panic)
  end.

(** * The registration *)

Definition protocol_number (p : TunnelProtocol) : Z :=
  match p with Tcp => Messages.TunnelProtocol.TCP | Udp => Messages.TunnelProtocol.UDP end.
Definition tunnel_matches (index : nat) (actual : TunnelRegistration) (expected : TunnelConfig) : bool :=
  (tr_tunnel_id actual =? Z.of_nat index + 1)
  && bool_decide (tr_name actual = tc_name expected)
  && (tr_remote_port actual =? tc_remote_port expected)
  && (tr_protocol actual =? protocol_number (tc_protocol expected)).
Fixpoint all_match (index : nat) (actual : list TunnelRegistration) (expected : list TunnelConfig) : bool :=
  match actual, expected with
  | a :: actual, e :: expected => tunnel_matches index a e && all_match (S index) actual expected
  | _, _ => true
  end.
Definition registration_matches (snapshot : ManagedSnapshot) (registration : RegisterTunnels) : bool :=
  (length (rt_tunnels registration) =? length (mc_tunnels (sn_configuration snapshot)))%nat
  && all_match 0 (rt_tunnels registration) (mc_tunnels (sn_configuration snapshot)).

Definition all_failed (results : Value) : bool :=
  match results with
  | VArray items => forallb (λ item, is_string (obj_get (str "state") item) (str "failed")) items
  | _ => false
  end.
(** A client that cannot apply anything reports that and is disconnected. *)
Definition failure_reported (rt : ControlRuntime) (sh : Shared) (snapshot : option ManagedSnapshot)
    (report : ManagedConfigReport) : Shared * SessionError :=
  match
    snapshot ← snapshot;
    _ ← (if mcrep_revision report =? sn_revision snapshot then Some tt else None);
    results ← value_from_json (mcrep_results report);
    _ ← (if all_failed results then Some tt else None);
    _ ← rn_managed rt;
    Some (sn_identity snapshot, results)
  with
  | Some (identity, results) =>
    let '(s, r) := managed_report (sh_store sh) identity (mcrep_revision report) results in
    (with_store sh s, match r with Err _ => SeManaged | _ => SeInvalidState end)
  | None => (sh, SeInvalidState)
  end.

Definition registration_exchange (rt : ControlRuntime) (sh : Shared) (r : ClientRegistry) (g : ActiveControlSession)
    (negotiated : ProtocolVersion) (state : ClientHandshakeState) (snapshot : option ManagedSnapshot)
    (tunnels : Tunnels) (bind : TunnelRegistration → option RegistryError) (frame : Frame)
    (written : res SessionError unit)
    : Shared * Tunnels * list Message * list ObservationEvent * res SessionError ClientHandshakeState :=
  if negb (bool_decide (Frame.frame_version frame = negotiated)) then (sh, tunnels, [], [], Err SeInvalidState)
  else
    match frame_message frame with
    | MManagedConfigReport report =>
      match transition_control state negotiated ClientToServer (MManagedConfigReport report) with
      | Ok _ => let '(sh, e) := failure_reported rt sh snapshot report in (sh, tunnels, [], [], Err e)
      | Err e => (sh, tunnels, [], [], Err (SeState e))
      | Panic => (sh, tunnels, [], [], Panic)
      end
    | MRegisterTunnels registration =>
      if match snapshot with Some s => negb (registration_matches s registration) | None => false end
      then (sh, tunnels, [], [], Err SeInvalidState)
      else
        match transition state (MRegisterTunnels registration) with
        | Ok state =>
          let '(results, tunnels) := register_tunnels r negotiated bind tunnels registration in
          match results, try_from_names (merge_sort (le_rel bytes_le) (elements (tunnel_names tunnels))) with
          | Ok results, Ok names =>
            (sh, tunnels, [MTunnelResults results], [TunnelInventory (acs_observability g) names],
             _ ← written; Ok state)
          | _, _ => (sh, tunnels, [], [], Panic)
          end
        | Err e => (sh, tunnels, [], [], Err (SeState e))
        | Panic => (sh, tunnels, [], [], Panic)
        end
    | _ => (sh, tunnels, [], [], Err SeInvalidState)
    end.
End managed.

(** * Telemetry *)

Definition MIN_TELEMETRY_INTERVAL : Z := 1000000000.
Definition MAX_TELEMETRY_SAMPLE_AGE_MILLIS : Z := 600000.
Definition MAX_TELEMETRY_FUTURE_SKEW_MILLIS : Z := 300000.

Record TelemetryAdmission := {
  ta_last_sequence : option Z;
  ta_last_sampled_unix_millis : option Z;
  ta_last_accepted : option Z;
}.
Definition TelemetryAdmission_default : TelemetryAdmission :=
  {| ta_last_sequence := None; ta_last_sampled_unix_millis := None; ta_last_accepted := None |}.

Definition valid_telemetry_report (t : TelemetryReport) (received_unix_millis : Z) : bool :=
  negb (tel_sequence t =? 0)
  && negb (tel_sampled_unix_millis t =? 0)
  && (tel_cpu_basis_points t <=? 10000)
  && (tel_memory_used_bytes t <=? tel_memory_total_bytes t)
  && (tel_disk_used_bytes t <=? tel_disk_total_bytes t)
  && (tel_sampled_unix_millis t <=? saturating_add u64_max received_unix_millis MAX_TELEMETRY_FUTURE_SKEW_MILLIS)
  && (saturating_sub received_unix_millis (tel_sampled_unix_millis t) <=? MAX_TELEMETRY_SAMPLE_AGE_MILLIS).

(** [elapsed_now] is the clock as [elapsed] reads it, [accepted_now] as [Instant::now] does. *)
Definition TelemetryAdmission_accept (a : TelemetryAdmission) (t : TelemetryReport) (received_unix_millis elapsed_now accepted_now : Z)
    : bool * TelemetryAdmission :=
  if negb (valid_telemetry_report t received_unix_millis)
     || match ta_last_sequence a with Some sequence => tel_sequence t <=? sequence | None => false end
     || match ta_last_sampled_unix_millis a with Some sampled => tel_sampled_unix_millis t <? sampled | None => false end
  then (false, a)
  else
    let seen accepted := {| ta_last_sequence := Some (tel_sequence t);
                            ta_last_sampled_unix_millis := Some (tel_sampled_unix_millis t);
                            ta_last_accepted := accepted |} in
    if match ta_last_accepted a with
       | Some accepted => elapsed accepted elapsed_now <? MIN_TELEMETRY_INTERVAL
       | None => false
       end
    then (false, seen (ta_last_accepted a))
    else (true, seen (Some accepted_now)).

Definition telemetry_metrics (t : TelemetryReport) : HostMetrics :=
  let when total v := if negb (total =? 0) then Some v else None in
  {| sampled_unix_millis := tel_sampled_unix_millis t;
     cpu_basis_points := Some (tel_cpu_basis_points t);
     process_cpu_basis_points := None;
     memory_used_bytes := when (tel_memory_total_bytes t) (tel_memory_used_bytes t);
     memory_total_bytes := when (tel_memory_total_bytes t) (tel_memory_total_bytes t);
     process_memory_bytes := None;
     disk_used_bytes := when (tel_disk_total_bytes t) (tel_disk_used_bytes t);
     disk_total_bytes := when (tel_disk_total_bytes t) (tel_disk_total_bytes t);
     disk_read_bytes_per_sec := None;
     disk_write_bytes_per_sec := None;
     network_rx_bytes_per_sec := Some (tel_rx_bytes_per_sec t);
     network_tx_bytes_per_sec := Some (tel_tx_bytes_per_sec t) |}.

(** * The active session *)

Definition session_supports_v02 (v : ProtocolVersion) : bool :=
  (major v =? major Version.V0_2) && (minor Version.V0_2 <=? minor v).
Definition is_v02_control_message (m : Message) : bool :=
  match m with
  | MObservationGrantRequest _ | MObservationGrant _ | MServerNotice _ | MRendezvousRequest _
  | MRendezvousProviderDecision _ | MRendezvousCandidateSet _ | MRendezvousCandidateSetV2 _
  | MRendezvousConnectivityResult _ | MRendezvousRelayRequest _ | MRendezvousClose _ | MRendezvousError _
  | MPeerRelayFrame _ | MPeerIdentityBinding _ | MPeerIdentityLookup _ | MPunchGrant _ => true
  | _ => false
  end.
Definition is_rendezvous_message (m : Message) : bool :=
  match m with
  | MRendezvousRequest _ | MRendezvousProviderDecision _ | MRendezvousCandidateSet _
  | MRendezvousCandidateSetV2 _ | MRendezvousConnectivityResult _ | MRendezvousRelayRequest _
  | MRendezvousClose _ | MRendezvousError _ => true
  | _ => false
  end.

Record ControlSession := {
  cs_state : ClientHandshakeState;
  cs_deadline : Z;
  cs_telemetry : TelemetryAdmission;
}.
Definition with_handshake (s : ControlSession) (x : ClientHandshakeState) : ControlSession :=
  {| cs_state := x; cs_deadline := cs_deadline s; cs_telemetry := cs_telemetry s |}.

(** What a turn of the loop reads. *)
Record Readings := {
  rd_registry : ClientRegistry;
  rd_env : Env;
  rd_elapsed : Z;
  rd_instant : Z;
  rd_millis : Z;
  rd_system : Z;
  rd_entropy : nat → option (list byte);
  rd_write : res SessionError unit;
}.
(** What it does: the message it has written, what it observes, what the coordinator does, the
    TCP connection it rejects, and the session after it or the error that ends it. *)
Record Reaction := {
  re_sent : list Message;
  re_events : list ObservationEvent;
  re_effects : list Effect;
  re_rejected : option Z;
  re_result : res SessionError ControlSession;
}.
Definition react (r : res SessionError ControlSession) : Reaction :=
  {| re_sent := []; re_events := []; re_effects := []; re_rejected := None; re_result := r |}.
Definition with_effects (effects : list Effect) (r : Reaction) : Reaction :=
  {| re_sent := re_sent r; re_events := re_events r; re_effects := effects ++ re_effects r;
     re_rejected := re_rejected r; re_result := re_result r |}.

(** The write of the turn, raced with the deadline. *)
Definition write (s : ControlSession) (m : Message) (rd : Readings) : Reaction :=
  match rd_write rd with
  | Ok _ => {| re_sent := [m]; re_events := []; re_effects := []; re_rejected := None; re_result := Ok s |}
  | Err e => react (Err e)
  | Panic => react Panic
  end.
Definition send_active_message (s : ControlSession) (m : Message) (rd : Readings) : Reaction :=
  match transition (cs_state s) m with
  | Ok state => write (with_handshake s state) m rd
  | Err e => react (Err (SeState e))
  | Panic => react Panic
  end.

Section active.
Context `{P : Postcard} (sha256 : list byte → list byte) {J : SerdeJson}.

Definition on_managed_report (rt : ControlRuntime) (binding : option (list byte * Z)) (negotiated : ProtocolVersion)
    (sh : Shared) (s : ControlSession) (report : ManagedConfigReport) : Shared * Reaction :=
  match map_err SeState (transition_control (cs_state s) negotiated ClientToServer (MManagedConfigReport report)) with
  | Ok state =>
    match
      '(identity, revision) ← binding;
      _ ← (if mcrep_revision report =? revision then Some tt else None);
      results ← value_from_json (mcrep_results report);
      _ ← rn_managed rt;
      Some (identity, results)
    with
    | Some (identity, results) =>
      let '(store, r) := managed_report (sh_store sh) identity (mcrep_revision report) results in
      (with_store sh store,
       react (match r with
              | Ok _ | Err ManagedConflict => Ok (with_handshake s state)
              | Err _ => Err SeManaged
              | Panic => Err SeInvalidState
              end))
    | None => (sh, react (Err SeInvalidState))
    end
  | Err e => (sh, react (Err e))
  | Panic => (sh, react Panic)
  end.

Definition on_heartbeat (rt : ControlRuntime) (g : ActiveControlSession) (s : ControlSession) (h : Messages.Heartbeat)
    (rd : Readings) : Reaction :=
  match transition (cs_state s) (MHeartbeat h) with
  | Ok state =>
    match rd_write rd with
    | Ok _ =>
      match instant_checked_add (rd_instant rd) (rn_heartbeat_timeout rt) with
      | Some deadline =>
        {| re_sent := [MHeartbeat h]; re_events := [Heartbeat (acs_observability g) (rd_millis rd)];
           re_effects := []; re_rejected := None;
           re_result := Ok {| cs_state := state; cs_deadline := deadline; cs_telemetry := cs_telemetry s |} |}
      | None =>
        {| re_sent := [MHeartbeat h]; re_events := []; re_effects := []; re_rejected := None;
           re_result := Err SeHeartbeatTimeout |}
      end
    | Err e => react (Err e)
    | Panic => react Panic
    end
  | Err e => react (Err (SeState e))
  | Panic => react Panic
  end.

Definition on_telemetry (g : ActiveControlSession) (negotiated : ProtocolVersion) (s : ControlSession)
    (report : TelemetryReport) (rd : Readings) : Reaction :=
  match transition_control (cs_state s) negotiated ClientToServer (MTelemetryReport report) with
  | Ok state =>
    let '(accepted, telemetry) := TelemetryAdmission_accept (cs_telemetry s) report (rd_millis rd) (rd_elapsed rd) (rd_instant rd) in
    {| re_sent := [];
       re_events := if accepted then [ClientTelemetryAccepted (acs_observability g) (tel_sequence report)
                                        (rd_millis rd) (telemetry_metrics report)] else [];
       re_effects := []; re_rejected := None;
       re_result := Ok {| cs_state := state; cs_deadline := cs_deadline s; cs_telemetry := telemetry |} |}
  | Err e => react (Err (SeState e))
  | Panic => react Panic
  end.

Definition on_stream_rejected (s : ControlSession) (ready : TcpStreamReady) : Reaction :=
  match transition (cs_state s) (MTcpStreamReady ready) with
  | Ok state =>
    {| re_sent := []; re_events := []; re_effects := []; re_rejected := Some (tsr_connection_id ready);
       re_result := Ok (with_handshake s state) |}
  | Err e => react (Err (SeState e))
  | Panic => react Panic
  end.

Definition on_grant_request (rt : ControlRuntime) (g : ActiveControlSession) (sh : Shared) (s : ControlSession)
    (request : ObservationGrantRequest) (rd : Readings) : Shared * Reaction :=
  match transition (cs_state s) (MObservationGrantRequest request) with
  | Ok state =>
    let '(tokens, grant) :=
      match rn_issuer rt with
      | Some limits =>
        let '(r, tokens) := issue limits (rd_registry rd) (acs_identity g) (rd_instant rd) (rd_system rd)
                              (rd_entropy rd) (sh_tokens sh) in
        (tokens, match r with
                 | Ok grant => match ObservationGrant_to_protocol_message grant with
                               | Ok m => Ok m
                               | Err _ => Ok (protocol_error ProtocolErrorCode.UNKNOWN_SESSION)
                               | Panic => Panic
                               end
                 | Err _ => Ok (protocol_error ProtocolErrorCode.UNKNOWN_SESSION)
                 | Panic => Panic
                 end)
      | None => (sh_tokens sh, Ok (protocol_error ProtocolErrorCode.UNKNOWN_SESSION))
      end in
    (with_observation sh tokens,
     match (grant : res SessionError Message) with
     | Ok m => send_active_message (with_handshake s state) m rd
     | _ => react Panic
     end)
  | Err e => (sh, react (Err (SeState e)))
  | Panic => (sh, react Panic)
  end.

Definition on_identity_lookup (rt : ControlRuntime) (g : ActiveControlSession) (sh : Shared) (s : ControlSession)
    (lookup : PeerIdentityLookup) (rd : Readings) : Reaction :=
  match identity_binding (rn_rendezvous rt) (rd_env rd) (sh_coordinator sh) g lookup with
  | Ok m => send_active_message s m rd
  | Err _ => send_active_message s (protocol_error ProtocolErrorCode.UNKNOWN_SESSION) rd
  | Panic => react Panic
  end.

Definition on_rendezvous (rt : ControlRuntime) (g : ActiveControlSession) (sh : Shared) (s : ControlSession)
    (m : Message) (rd : Readings) : Shared * Reaction :=
  match envelope_from_protocol_message m with
  | Err _ => (sh, send_active_message s (protocol_error ProtocolErrorCode.INVALID_FRAME) rd)
  | Panic => (sh, react Panic)
  | Ok envelope =>
    let '(r, coordinator, effects) :=
      call sha256 (rn_rendezvous rt) (rd_env rd) (sh_coordinator sh) (call_of_envelope g envelope) in
    (with_coordinator sh coordinator,
     with_effects effects
       (match r with
        | Ok _ => react (Ok s)
        | Err code =>
          match error_response envelope code with
          | Ok m => send_active_message s m rd
          | _ => react Panic
          end
        | Panic => react Panic
        end))
  end.

Definition on_relay_frame (rt : ControlRuntime) (g : ActiveControlSession) (sh : Shared) (s : ControlSession)
    (opaque : list byte) (rd : Readings) : Shared * Reaction :=
  let refused := send_active_message s (protocol_error ProtocolErrorCode.INVALID_STATE) rd in
  match PeerRelayFrame_from_protocol_message (MPeerRelayFrame opaque) with
  | Ok frame =>
    let '(r, coordinator, effects) :=
      call sha256 (rn_rendezvous rt) (rd_env rd) (sh_coordinator sh) (CRelayFrame g frame) in
    (with_coordinator sh coordinator,
     with_effects effects (match r with Ok _ => react (Ok s) | Err _ => refused | Panic => react Panic end))
  | Err _ => (sh, refused)
  | Panic => (sh, react Panic)
  end.

(** One frame of the client. *)
Definition active_frame (rt : ControlRuntime) (binding : option (list byte * Z)) (g : ActiveControlSession)
    (negotiated : ProtocolVersion) (sh : Shared) (s : ControlSession) (frame : Frame) (rd : Readings)
    : Shared * Reaction :=
  let m := frame_message frame in
  if negb (bool_decide (Frame.frame_version frame = negotiated)) then (sh, react (Err SeInvalidState))
  else if is_v02_control_message m && negb (session_supports_v02 negotiated)
  then (sh, send_active_message s (protocol_error ProtocolErrorCode.UNSUPPORTED_VERSION) rd)
  else
    match m with
    | MManagedConfigReport report => on_managed_report rt binding negotiated sh s report
    | MHeartbeat h => (sh, on_heartbeat rt g s h rd)
    | MTelemetryReport report => (sh, on_telemetry g negotiated s report rd)
    | MObservationGrantRequest request => on_grant_request rt g sh s request rd
    | MPeerIdentityLookup lookup => (sh, on_identity_lookup rt g sh s lookup rd)
    | MPeerRelayFrame opaque => on_relay_frame rt g sh s opaque rd
    | MObservationGrant _ | MServerNotice _ | MPeerIdentityBinding _ =>
      (sh, send_active_message s (protocol_error ProtocolErrorCode.UNKNOWN_MESSAGE) rd)
    | MTcpStreamReady ready =>
      (sh, if tsr_accepted ready then react (Err SeInvalidState) else on_stream_rejected s ready)
    | _ => if is_rendezvous_message m then on_rendezvous rt g sh s m rd else (sh, react (Err SeInvalidState))
    end.

(** What is ready when the loop looks: the source selects in this order. *)
Record Ready := {
  rdy_cancelled : bool;
  rdy_now : Z;
  rdy_outbound : option (option Message);
  rdy_frame : option (res SessionError Frame);
}.
(** One turn of the loop; [None] when nothing is ready. *)
Definition active_turn (rt : ControlRuntime) (binding : option (list byte * Z)) (g : ActiveControlSession)
    (negotiated : ProtocolVersion) (sh : Shared) (s : ControlSession) (ready : Ready) (rd : Readings)
    : option (Shared * Reaction) :=
  if rdy_cancelled ready then Some (sh, react (Err SeListenerGenerationTerminated))
  else if cs_deadline s <=? rdy_now ready then Some (sh, react (Err SeHeartbeatTimeout))
  else
    match rdy_outbound ready with
    | Some None => Some (sh, react (Err SeClosed))
    | Some (Some m) => Some (sh, send_active_message s m rd)
    | None =>
      match rdy_frame ready with
      | Some (Ok frame) => Some (active_frame rt binding g negotiated sh s frame rd)
      | Some (Err e) => Some (sh, react (Err e))
      | Some Panic => Some (sh, react Panic)
      | None => None
      end
    end.

(** The loop over its turns, each with what other sessions have made of the shared state
    ([outside]) since the last one: the reactions, the latest last, each with its turn. *)
Record Turn := { tu_outside : Shared → Shared; tu_ready : Ready; tu_readings : Readings }.
Fixpoint active_loop (rt : ControlRuntime) (binding : option (list byte * Z)) (g : ActiveControlSession)
    (negotiated : ProtocolVersion) (sh : Shared) (s : ControlSession) (turns : list Turn)
    : Shared * list (Turn * Reaction) * res SessionError ControlSession :=
  match turns with
  | [] => (sh, [], Ok s)
  | t :: turns =>
    let sh := tu_outside t sh in
    match active_turn rt binding g negotiated sh s (tu_ready t) (tu_readings t) with
    | None => active_loop rt binding g negotiated sh s turns
    | Some (sh, r) =>
      match re_result r with
      | Ok s =>
        let '(sh, rs, final) := active_loop rt binding g negotiated sh s turns in
        (sh, (t, r) :: rs, final)
      | Err e => (sh, [(t, r)], Err e)
      | Panic => (sh, [(t, r)], Panic)
      end
    end
  end.

(** [run_active_control] starts with a fresh deadline. *)
Definition active_start (rt : ControlRuntime) (state : ClientHandshakeState) (now : Z) : ControlSession :=
  {| cs_state := state; cs_deadline := now + rn_heartbeat_timeout rt; cs_telemetry := TelemetryAdmission_default |}.
End active.
