(* ===== verification/ServerSessionProps.v ===== *)
(** The theorems of the control session: it speaks the protocol, ends when its client falls
    silent, admits telemetry at a bounded rate, registers exactly what it was told to and acts
    for its own device only. *)

From S2P Require Import Prelude.
From S2P Require Import Wire.
From S2P Require Import Ordered.
From S2P Require Import Postcard.
From S2P Require Import PostcardRef.
From S2P Require Import Messages.
From S2P Require Import Events.
From S2P Require Import Frame.
From S2P Require Import Control.
From S2P Require Import Handshake.
From S2P Require Import RvMessages.
From S2P Require Import Bindings.
From S2P Require Import Text.
From S2P Require Import Peer.
From S2P Require Import CryptoRef.
From S2P Require Import EnrollKeys.
From S2P Require Import Identity.
From S2P Require Import Enrollment.
From S2P Require Import Config.
From S2P Require Import ConfigProps.
From S2P Require Import Managed.
From S2P Require Import ExternalRef.
From S2P Require Import Registry.
From S2P Require Import Coordinator.
From S2P Require Import CoordinatorFacts.
From S2P Require Import Observation.
From S2P Require Import ManagedProps.
From S2P Require Import TunnelManagement.
From S2P Require Import TunnelProps.
From S2P Require Import ServerHandshake.
From S2P Require Import ServerSession.
From Stdlib Require Import Strings.Byte.
From stdpp Require Import prelude gmap list strings relations sorting.

#[local] Open Scope Z_scope.

(** * One turn *)

Lemma transition_active sid m state : transition (Active sid) m = Ok state →
  state = Active sid ∧ ∀ v d, active_phase v (d, m).
Proof. destruct m; intros [= <-]; by split. Qed.

(** A reaction that neither refreshes the deadline nor admits telemetry. *)
Record quiet (s : ControlSession) (r : Reaction) : Prop := {
  qu_events : re_events r = [];
  qu_sent : ∀ v d, Forall (λ m, active_phase v (d, m)) (re_sent r);
  qu_single : (length (re_sent r) ≤ 1)%nat;
  qu_session : ∀ s', re_result r = Ok s' →
    cs_state s' = cs_state s ∧ cs_deadline s' = cs_deadline s ∧ cs_telemetry s' = cs_telemetry s;
}.

Lemma quiet_stop s (r : res SessionError ControlSession) : (∀ s', r ≠ Ok s') → quiet s (react r).
Proof. intros H. split; simpl; [done|constructor|lia|]. by intros s' []%H. Qed.
Lemma quiet_same s : quiet s (react (Ok s)).
Proof. split; simpl; [done|constructor|lia|]. by intros s' [= <-]. Qed.
Lemma quiet_effects s effects r : quiet s r → quiet s (with_effects effects r).
Proof. intros [? ? ? ?]. by split. Qed.
Lemma quiet_send sid s m rd : cs_state s = Active sid → quiet s (send_active_message s m rd).
Proof.
  intros Hs. unfold send_active_message. rewrite Hs. destruct (transition (Active sid) m) as [state| |] eqn:Ht.
  - apply transition_active in Ht as [-> Hm]. unfold write. destruct (rd_write rd).
    + split; simpl; [done|by constructor|lia|]. intros s' [= <-]. by rewrite Hs.
    + by apply quiet_stop.
    + by apply quiet_stop.
  - by apply quiet_stop.
  - by apply quiet_stop.
Qed.
Lemma quiet_handshake sid s r : cs_state s = Active sid → quiet (with_handshake s (Active sid)) r → quiet s r.
Proof. intros Hs [? ? ? H]. split; try done. intros s' H'. apply H in H'. by rewrite Hs. Qed.

#[local] Hint Resolve quiet_same quiet_effects quiet_send : quiet.
#[local] Hint Extern 1 (quiet _ (react (Err _))) => (by apply quiet_stop) : quiet.
#[local] Hint Extern 1 (quiet _ (react Panic)) => (by apply quiet_stop) : quiet.

Section turns.
Context `{P : Postcard} (sha256 : list byte → list byte) {J : SerdeJson}.
Context (rt : ControlRuntime) (binding : option (list byte * Z)) (g : ActiveControlSession).
Context (negotiated : ProtocolVersion) (sid : list byte).

Lemma quiet_report sh s report : cs_state s = Active sid →
  quiet s (on_managed_report rt binding negotiated sh s report).2.
Proof.
  intros Hs. unfold on_managed_report. rewrite Hs. unfold transition_control.
  destruct (_ && _); simpl; [|by apply quiet_stop].
  destruct (binding ≫= _) as [[identity results]|]; [|by apply quiet_stop].
  destruct (managed_report _ _ _ _) as [store [[]|[]|]]; simpl; auto with quiet;
    apply (quiet_handshake sid); auto with quiet.
Qed.
Lemma quiet_grant sh s request rd : cs_state s = Active sid →
  quiet s (on_grant_request rt g sh s request rd).2.
Proof.
  intros Hs. unfold on_grant_request. rewrite Hs. simpl. destruct (match rn_issuer rt with Some _ => _ | None => _ end) as [tokens [m| |]];
    simpl; auto with quiet. apply (quiet_handshake sid); eauto with quiet.
Qed.
Lemma quiet_lookup sh s lookup rd : cs_state s = Active sid → quiet s (on_identity_lookup rt g sh s lookup rd).
Proof.
  intros Hs. unfold on_identity_lookup. destruct (identity_binding _ _ _ _ _); eauto with quiet.
Qed.
Lemma quiet_rendezvous sh s m rd : cs_state s = Active sid → quiet s (on_rendezvous sha256 rt g sh s m rd).2.
Proof.
  intros Hs. unfold on_rendezvous. destruct (envelope_from_protocol_message m) as [e| |]; cbn [snd]; eauto with quiet.
  destruct (call sha256 _ _ _ _) as [[[] coordinator] effects]; cbn [snd]; eauto with quiet.
  apply quiet_effects. destruct (error_response _ _); eauto with quiet.
Qed.
Lemma quiet_relay sh s opaque rd : cs_state s = Active sid → quiet s (on_relay_frame sha256 rt g sh s opaque rd).2.
Proof.
  intros Hs. unfold on_relay_frame. destruct (PeerRelayFrame_from_protocol_message _) as [f| |]; cbn [snd]; eauto with quiet.
  destruct (call sha256 _ _ _ _) as [[[] coordinator] effects]; cbn [snd]; eauto with quiet.
Qed.
Lemma quiet_rejected s ready : cs_state s = Active sid → quiet s (on_stream_rejected s ready).
Proof.
  intros Hs. unfold on_stream_rejected. rewrite Hs. simpl. split; simpl; [done|constructor|lia|].
  intros s' [= <-]. by rewrite Hs.
Qed.

Lemma frame_cases sh s frame rd sh' r : cs_state s = Active sid →
  active_frame sha256 rt binding g negotiated sh s frame rd = (sh', r) →
  quiet s r ∨ (∃ h, frame_message frame = MHeartbeat h ∧ r = on_heartbeat rt g s h rd) ∨
  (∃ report, frame_message frame = MTelemetryReport report ∧ r = on_telemetry g negotiated s report rd).
Proof.
  intros Hs. unfold active_frame. destruct (negb _); [intros [= <- <-]; left; auto with quiet|].
  destruct (_ && _); [intros [= <- <-]; left; eauto with quiet|].
  assert (∀ x : Shared * Reaction, quiet s x.2 → x = (sh', r) → quiet s r) as Hq by (intros x Hx ->; exact Hx).
  destruct (frame_message frame) as [ | | | | | | |ready| |h| | | | | | | | | | | | |opaque|request| | | |lookup| |report| | |report| | | | ];
    try (intros H; left; injection H as <- <-; eauto with quiet; fail);
    try (intros H; left; exact (Hq _ (quiet_rendezvous _ _ _ _ Hs) H)).
  - intros [= <- <-]. left. destruct (tsr_accepted ready); [auto with quiet|by apply quiet_rejected].
  - intros [= <- <-]. right. left. by exists h.
  - intros H. left. exact (Hq _ (quiet_relay _ _ _ _ Hs) H).
  - intros H. left. exact (Hq _ (quiet_grant _ _ _ _ Hs) H).
  - intros [= <- <-]. left. by apply quiet_lookup.
  - intros [= <- <-]. right. right. by exists report.
  - intros H. left. exact (Hq _ (quiet_report _ _ _ Hs) H).
Qed.

(** Every turn of an active session: quiet, a heartbeat or telemetry; and after the deadline
    the end. *)
Lemma turn_cases sh s t sh' r : cs_state s = Active sid →
  active_turn sha256 rt binding g negotiated sh s (tu_ready t) (tu_readings t) = Some (sh', r) →
  quiet s r ∨ (∃ h, r = on_heartbeat rt g s h (tu_readings t)) ∨
  (∃ report, r = on_telemetry g negotiated s report (tu_readings t)).
Proof.
  intros Hs. unfold active_turn. destruct (rdy_cancelled _); [intros [= <- <-]; left; auto with quiet|].
  destruct (cs_deadline s <=? _); [intros [= <- <-]; left; auto with quiet|].
  destruct (rdy_outbound _) as [[m|]|]; [intros [= <- <-]; left; eauto with quiet|intros [= <- <-]; left; auto with quiet|].
  destruct (rdy_frame _) as [[frame| |]|]; [|intros [= <- <-]; left; auto with quiet..|done].
  intros [= H]. apply frame_cases in H as [?|[(h&_&->)|(report&_&->)]]; eauto.
Qed.
Lemma late_turn sh s t : cs_deadline s ≤ rdy_now (tu_ready t) →
  ∃ r, active_turn sha256 rt binding g negotiated sh s (tu_ready t) (tu_readings t) = Some (sh, r) ∧
  re_sent r = [] ∧ re_events r = [] ∧ re_effects r = [] ∧ re_rejected r = None ∧
  (re_result r = Err SeHeartbeatTimeout ∨
   rdy_cancelled (tu_ready t) = true ∧ re_result r = Err SeListenerGenerationTerminated).
Proof.
  intros Hd. unfold active_turn. destruct (rdy_cancelled _); [by eauto 10|].
  rewrite (proj2 (Z.leb_le _ _) Hd). by eauto 10.
Qed.

Lemma heartbeat_reaction s h rd : cs_state s = Active sid → let r := on_heartbeat rt g s h rd in
  (re_events r = [] ∨ re_events r = [Heartbeat (acs_observability g) (rd_millis rd)] ∧ re_sent r = [MHeartbeat h]) ∧
  (re_sent r = [] ∨ re_sent r = [MHeartbeat h]) ∧
  ∀ s', re_result r = Ok s' → cs_state s' = Active sid ∧ cs_telemetry s' = cs_telemetry s ∧
    cs_deadline s' = rd_instant rd + rn_heartbeat_timeout rt ∧
    re_events r = [Heartbeat (acs_observability g) (rd_millis rd)].
Proof.
  intros Hs. cbv zeta. unfold on_heartbeat. rewrite Hs. simpl. destruct (rd_write rd); simpl; [|by split_and!; auto..].
  destruct (instant_checked_add _ _) as [d|] eqn:Hd; simpl; [|by split_and!; auto]. apply checked_add_Some in Hd as [-> _].
  split; [by auto|]. split; [by auto|]. by intros s' [= <-].
Qed.
Lemma telemetry_reaction s report rd : cs_state s = Active sid → let r := on_telemetry g negotiated s report rd in
  re_sent r = [] ∧
  (re_events r = [] ∨ (TelemetryAdmission_accept (cs_telemetry s) report (rd_millis rd) (rd_elapsed rd) (rd_instant rd)).1 = true ∧
     re_events r = [ClientTelemetryAccepted (acs_observability g) (tel_sequence report) (rd_millis rd)
                      (telemetry_metrics report)]) ∧
  ∀ s', re_result r = Ok s' → cs_state s' = Active sid ∧ cs_deadline s' = cs_deadline s ∧
    cs_telemetry s' = (TelemetryAdmission_accept (cs_telemetry s) report (rd_millis rd) (rd_elapsed rd) (rd_instant rd)).2.
Proof.
  intros Hs. cbv zeta. unfold on_telemetry. rewrite Hs. unfold transition_control.
  destruct (_ && _ && _); simpl; [|by split_and!; auto]. destruct (TelemetryAdmission_accept _ _ _ _ _) as [b a]. simpl.
  split; [done|]. split; [destruct b; by auto|]. by intros s' [= <-].
Qed.

Lemma turn_sent sh s t sh' r : cs_state s = Active sid →
  active_turn sha256 rt binding g negotiated sh s (tu_ready t) (tu_readings t) = Some (sh', r) →
  (length (re_sent r) ≤ 1)%nat ∧ Forall (λ m, active_phase negotiated (ServerToClient, m)) (re_sent r) ∧
  ∀ s', re_result r = Ok s' → cs_state s' = Active sid.
Proof.
  intros Hs Ht. apply turn_cases in Ht as [[_ Hq Hl Hr]|[(h&->)|(report&->)]]; [..|done].
  - split; [done|]. split; [apply Hq|]. intros s' H. apply Hr in H as [H _]. congruence.
  - destruct (heartbeat_reaction s h (tu_readings t) Hs) as (_&[->| ->]&Hr);
      (split; [simpl; lia|]; split; [by repeat constructor|]; by intros s' [H _]%Hr).
  - destruct (telemetry_reaction s report (tu_readings t) Hs) as (->&_&Hr).
    split; [simpl; lia|]. split; [constructor|]. by intros s' [H _]%Hr.
Qed.

(** * The loop *)

Notation loop := (active_loop sha256 rt binding g negotiated).

Lemma loop_cons sh s t turns sh' rs final : loop sh s (t :: turns) = (sh', rs, final) →
  (active_turn sha256 rt binding g negotiated (tu_outside t sh) s (tu_ready t) (tu_readings t) = None ∧
   loop (tu_outside t sh) s turns = (sh', rs, final)) ∨
  ∃ sh1 r, active_turn sha256 rt binding g negotiated (tu_outside t sh) s (tu_ready t) (tu_readings t) = Some (sh1, r) ∧
    ((∃ s1 rs1, re_result r = Ok s1 ∧ rs = (t, r) :: rs1 ∧ loop sh1 s1 turns = (sh', rs1, final)) ∨
     (rs = [(t, r)] ∧ final = re_result r ∧ ∀ s1, re_result r ≠ Ok s1)).
Proof.
  simpl. destruct (active_turn _ _ _ _ _ _ _ _ _) as [[sh1 r]|]; [|by auto]. intros H. right. exists sh1, r. split; [done|].
  destruct (re_result r) as [s1| |] eqn:Hr.
  - destruct (active_loop _ _ _ _ _ _ _ _) as [[sh2 rs1] final1] eqn:Hl. injection H as <- <- <-. left. by exists s1, rs1.
  - injection H as <- <- <-. right. by split_and!.
  - injection H as <- <- <-. right. by split_and!.
Qed.

Definition heartbeat_heard (r : Reaction) : bool :=
  existsb (λ e, match e with Heartbeat _ _ => true | _ => false end) (re_events r).
(** When the server last heard from the client. *)
Definition last_heard (start : Z) (rs : list (Turn * Reaction)) : Z :=
  foldl (λ last x, if heartbeat_heard x.2 then rd_instant (tu_readings x.1) else last) start rs.

Lemma turn_deadline sh s t sh' r s' start : cs_state s = Active sid →
  active_turn sha256 rt binding g negotiated sh s (tu_ready t) (tu_readings t) = Some (sh', r) →
  re_result r = Ok s' → cs_deadline s = start + rn_heartbeat_timeout rt →
  cs_deadline s' = (if heartbeat_heard r then rd_instant (tu_readings t) else start) + rn_heartbeat_timeout rt.
Proof.
  intros Hs Ht Hr Hd. unfold heartbeat_heard. apply turn_cases in Ht as [[-> _ _ H]|[(h&->)|(report&->)]]; [..|done].
  - apply H in Hr as (_&->&_). done.
  - destruct (heartbeat_reaction s h (tu_readings t) Hs) as (_&_&H). apply H in Hr as (_&_&->&->). done.
  - destruct (telemetry_reaction s report (tu_readings t) Hs) as (_&He&H). apply H in Hr as (_&->&_).
    by destruct He as [->|[_ ->]].
Qed.

Lemma loop_active sh s turns sh' rs final : cs_state s = Active sid → loop sh s turns = (sh', rs, final) →
  (∀ t r, (t, r) ∈ rs → (length (re_sent r) ≤ 1)%nat ∧
     Forall (λ m, active_phase negotiated (ServerToClient, m)) (re_sent r)) ∧
  ∀ s', final = Ok s' → cs_state s' = Active sid.
Proof.
  revert sh s sh' rs final; induction turns as [|t turns IH]; intros sh s sh' rs final Hs H.
  { injection H as <- <- <-. split; [by intros t r ?%not_elem_of_nil|]. by intros s' [= <-]. }
  apply loop_cons in H as [[_ H]|(sh1&r&Ht&[(s1&rs1&Hr&->&H)|(->&->&Hno)])]; [by eapply IH| |];
    destruct (turn_sent _ _ _ _ _ Hs Ht) as (Hl&Hsent&Hst).
  - destruct (IH _ _ _ _ _ (Hst _ Hr) H) as [IH1 IH2]. split; [|done].
    intros t' r' [[= -> ->]|Hin]%elem_of_cons; [done|by eapply IH1].
  - split; [|by intros s' ?%Hno]. intros t' r' [= -> ->]%list_elem_of_singleton. done.
Qed.

Lemma loop_app turns1 turns2 : ∀ sh s sh1 rs1 s1, loop sh s turns1 = (sh1, rs1, Ok s1) →
  loop sh s (turns1 ++ turns2) = let '(sh2, rs2, final) := loop sh1 s1 turns2 in (sh2, rs1 ++ rs2, final).
Proof.
  induction turns1 as [|t turns1 IH]; intros sh s sh1 rs1 s1 H; simpl in *.
  { injection H as <- <- <-. by destruct (active_loop _ _ _ _ _ _ _ _) as [[? ?] ?]. }
  destruct (active_turn _ _ _ _ _ _ _ _ _) as [[sh' r]|]; [|by apply IH].
  destruct (re_result r) as [s'| |]; [|done..].
  destruct (active_loop _ _ _ _ _ _ _ turns1) as [[sh2 rs2] final] eqn:Hl. injection H as -> <- ->.
  rewrite (IH _ _ _ _ _ Hl). by destruct (active_loop _ _ _ _ _ _ _ turns2) as [[? ?] ?].
Qed.

(** While the loop runs, the deadline is the heartbeat timeout after the client was heard last. *)
Lemma loop_deadline turns : ∀ sh s start sh1 rs1 s1, cs_state s = Active sid →
  cs_deadline s = start + rn_heartbeat_timeout rt → loop sh s turns = (sh1, rs1, Ok s1) →
  cs_deadline s1 = last_heard start rs1 + rn_heartbeat_timeout rt.
Proof.
  induction turns as [|t turns IH]; intros sh s start sh1 rs1 s1 Hs Hd H; [by injection H as <- <- <-|].
  apply loop_cons in H as [[_ H]|(sh2&r&Ht&[(s2&rs2&Hr&->&H)|(_&Hf&Hno)])]; [by eapply IH| |by destruct (Hno s1)].
  eapply (IH sh2 s2 (if heartbeat_heard r then rd_instant (tu_readings t) else start));
    [by eapply (turn_sent _ _ _ _ _ Hs Ht)|by eapply turn_deadline|exact H].
Qed.

(** An active control session keeps to the protocol: whatever the client sends and whatever
    the rest of the server queues for it, each turn of the loop writes at most one message, it is
    one the protocol allows on an active connection at the negotiated version, and the session
    stays active under its identifier until the loop ends. *)
Theorem session_speaks_protocol sh s turns sh' rs final : cs_state s = Active sid →
  loop sh s turns = (sh', rs, final) →
  (∀ t r, (t, r) ∈ rs → (length (re_sent r) ≤ 1)%nat ∧
     Forall (λ m, active_phase negotiated (ServerToClient, m)) (re_sent r)) ∧
  ∀ s', final = Ok s' → cs_state s' = Active sid.
Proof. apply loop_active. Qed.

(** C35: A client that has fallen silent is disconnected.  Consider the loop still running after
    some turns, whatever has happened in them.  The next turn, if it is at or after the heartbeat
    timeout since the last heartbeat that was answered (or since the start), is the last one,
    whatever is ready in it, nothing at all included, and whatever turns were to follow: it
    writes nothing, observes nothing and has no effect, and the session ends with the timeout,
    or as its generation has been cancelled.  So no message but an answered heartbeat puts
    that moment off; and before it a turn with nothing ready changes nothing. *)
Theorem silent_client_disconnected sh state turns1 t turns2 start sh1 rs1 s1 : state = Active sid →
  loop sh (active_start rt state start) turns1 = (sh1, rs1, Ok s1) →
  let heard := last_heard start rs1 in let ready := tu_ready t in
  (heard + rn_heartbeat_timeout rt ≤ rdy_now ready →
   ∃ r, loop sh (active_start rt state start) (turns1 ++ t :: turns2) = (tu_outside t sh1, rs1 ++ [(t, r)], re_result r) ∧
     re_sent r = [] ∧ re_events r = [] ∧ re_effects r = [] ∧ re_rejected r = None ∧
     (re_result r = Err SeHeartbeatTimeout ∨
      rdy_cancelled ready = true ∧ re_result r = Err SeListenerGenerationTerminated)) ∧
  (rdy_now ready < heard + rn_heartbeat_timeout rt →
   rdy_cancelled ready = false → rdy_outbound ready = None → rdy_frame ready = None →
   loop sh (active_start rt state start) (turns1 ++ [t]) = (tu_outside t sh1, rs1, Ok s1)).
Proof.
  intros -> H heard ready.
  pose proof (loop_deadline turns1 sh (active_start rt (Active sid) start) start _ _ _ eq_refl eq_refl H) as Hd.
  split; [intros Hlate|intros Hearly Hc Ho Hf].
  - destruct (late_turn (tu_outside t sh1) s1 t) as (r&Ht&Hr1&Hr2&Hr3&Hr4&Hr); [by rewrite Hd|].
    exists r. split; [|done]. rewrite (loop_app _ _ _ _ _ _ _ H). simpl. rewrite Ht.
    by destruct Hr as [->|[_ ->]].
  - rewrite (loop_app _ _ _ _ _ _ _ H). simpl. unfold active_turn. fold ready.
    rewrite Hc, Ho, Hf, Hd. fold heard. rewrite (proj2 (Z.leb_gt _ _) Hearly). by rewrite app_nil_r.
Qed.

(** * Telemetry *)

(** The telemetry a turn lets through: sequence number, time of the sample, and when. *)
Record Sample := { sa_sequence : Z; sa_sampled : Z; sa_instant : Z }.
Definition sample_of (x : Turn * Reaction) : option Sample :=
  match re_events x.2 with
  | [ClientTelemetryAccepted _ sequence _ metrics] =>
    Some {| sa_sequence := sequence; sa_sampled := sampled_unix_millis metrics; sa_instant := rd_instant (tu_readings x.1) |}
  | _ => None
  end.
Definition before (a b : Sample) : Prop :=
  sa_sequence a < sa_sequence b ∧ sa_sampled a ≤ sa_sampled b ∧ sa_instant a + MIN_TELEMETRY_INTERVAL ≤ sa_instant b.
(** The admission has seen the sample and everything after it. *)
Definition seen (a : TelemetryAdmission) (x : Sample) : Prop :=
  (∃ q, ta_last_sequence a = Some q ∧ sa_sequence x ≤ q) ∧
  (∃ p, ta_last_sampled_unix_millis a = Some p ∧ sa_sampled x ≤ p) ∧
  (∃ i, ta_last_accepted a = Some i ∧ sa_instant x ≤ i).

Lemma accept_seen a report millis e i x : e ≤ i → seen a x →
  (let result := TelemetryAdmission_accept a report millis e i in
   seen result.2 x ∧
   (result.1 = true → before x {| sa_sequence := tel_sequence report; sa_sampled := tel_sampled_unix_millis report; sa_instant := i |})).
Proof.
  intros Hei ((q&Hq&Hxq)&(p&Hp&Hxp)&(j&Hj&Hxj)). cbv zeta. unfold TelemetryAdmission_accept. rewrite Hq, Hp, Hj.
  destruct (negb _ || (tel_sequence report <=? q) || (tel_sampled_unix_millis report <? p)) eqn:Hc.
  { split; [|done]. by repeat split; eauto. }
  apply orb_false_iff in Hc as [[_ H1%Z.leb_gt]%orb_false_iff H2%Z.ltb_ge].
  destruct (Z.ltb_spec (elapsed j e) MIN_TELEMETRY_INTERVAL) as [Hel|Hel]; simpl.
  - split; [|done]. repeat split; simpl; eexists; (split; [done|lia]).
  - assert (j + MIN_TELEMETRY_INTERVAL ≤ e) by (unfold elapsed, saturating_sub, MIN_TELEMETRY_INTERVAL in *; lia).
    assert (0 ≤ MIN_TELEMETRY_INTERVAL) by done.
    split; [repeat split; simpl; eexists; (split; [done|lia])|]. intros _. repeat split; simpl; lia.
Qed.
Lemma accept_first a report millis e i : (TelemetryAdmission_accept a report millis e i).1 = true →
  seen (TelemetryAdmission_accept a report millis e i).2
    {| sa_sequence := tel_sequence report; sa_sampled := tel_sampled_unix_millis report; sa_instant := i |} ∧
  valid_telemetry_report report millis = true.
Proof.
  unfold TelemetryAdmission_accept. destruct (valid_telemetry_report report millis); [|done]. simpl.
  destruct (_ || _); [done|]. destruct (match ta_last_accepted a with Some _ => _ | None => _ end); [done|].
  intros _. split; [|done]. repeat split; simpl; by eexists.
Qed.

Lemma loop_samples sh s turns sh' rs final : cs_state s = Active sid →
  Forall (λ t, rd_elapsed (tu_readings t) ≤ rd_instant (tu_readings t)) turns → loop sh s turns = (sh', rs, final) →
  StronglySorted before (omap sample_of rs) ∧ ∀ x, seen (cs_telemetry s) x → Forall (before x) (omap sample_of rs).
Proof.
  revert sh s sh' rs final; induction turns as [|t turns IH]; intros sh s sh' rs final Hs Hclock H.
  { injection H as <- <- <-. split; [constructor|by intros]. }
  apply Forall_cons in Hclock as [Ht0 Hclock].
  apply loop_cons in H as [[_ H]|(sh1&r&Ht&H)]; [by eapply IH|].
  assert (∀ s1, re_result r = Ok s1 → cs_state s1 = Active sid) as Hst by (by eapply turn_sent).
  destruct (turn_cases _ _ _ _ _ Hs Ht) as [Hq|[(h&->)|(report&->)]].
  - assert (sample_of (t, r) = None) as Hno by (unfold sample_of; simpl; by rewrite (qu_events _ _ Hq)).
    destruct H as [(s1&rs1&Hr&->&H)|(->&_)]; simpl; rewrite Hno; [|split; [constructor|by intros]].
    destruct (qu_session _ _ Hq _ Hr) as (_&_&<-). by eapply IH; [apply Hst| |].
  - set (r := on_heartbeat rt g s h (tu_readings t)) in *.
    destruct (heartbeat_reaction s h (tu_readings t) Hs) as (He&_&Hres). fold r in He, Hres.
    assert (sample_of (t, r) = None) as Hno by (unfold sample_of; simpl; by destruct He as [->|[-> _]]).
    destruct H as [(s1&rs1&Hr&->&H)|(->&_)]; simpl; rewrite Hno; [|split; [constructor|by intros]].
    destruct (Hres _ Hr) as (_&<-&_). by eapply IH; [apply Hst| |].
  - set (r := on_telemetry g negotiated s report (tu_readings t)) in *.
    destruct (telemetry_reaction s report (tu_readings t) Hs) as (_&He&Hres). fold r in He, Hres.
    set (x := {| sa_sequence := tel_sequence report; sa_sampled := tel_sampled_unix_millis report;
                 sa_instant := rd_instant (tu_readings t) |}).
    pose proof (λ y, accept_seen (cs_telemetry s) report (rd_millis (tu_readings t)) _ _ y Ht0) as Hseen. cbv zeta in Hseen.
    assert (∀ y, seen (cs_telemetry s) y → Forall (before y) (omap sample_of [(t, r)])) as Hone.
    { intros y Hy. simpl. unfold sample_of. simpl. destruct He as [->|[Ha ->]]; [constructor|]. constructor; [|constructor].
      by apply Hseen. }
    destruct H as [(s1&rs1&Hr&->&H)|(->&_)]; [|split; [|exact Hone]; simpl; destruct (sample_of _); repeat constructor].
    destruct (Hres _ Hr) as (_&_&Hs1). destruct (IH _ _ _ _ _ (Hst _ Hr) Hclock H) as [IH1 IH2].
    rewrite Hs1 in IH2. change ((t, r) :: rs1) with ([(t, r)] ++ rs1). rewrite omap_app. split.
    + simpl. destruct (sample_of (t, r)) as [y|] eqn:Hy; [|done]. simpl. constructor; [done|]. apply IH2.
      unfold sample_of in Hy. simpl in Hy. destruct He as [He|[Ha He]]; rewrite He in Hy; [done|]. injection Hy as <-.
      by apply accept_first.
    + intros y Hy. apply Forall_app. split; [by apply Hone|]. apply IH2. by apply Hseen.
Qed.

Lemma spaced_count lo n l : StronglySorted before l →
  Forall (λ x, lo ≤ sa_instant x < lo + n * MIN_TELEMETRY_INTERVAL) l → Z.of_nat (length l) ≤ Z.max 0 n.
Proof.
  unfold before. set (gap := MIN_TELEMETRY_INTERVAL) in *. assert (0 < gap) as Hgap by done. clearbody gap.
  intros Hl. revert lo n. induction Hl as [|x l Hl IH Hx]; intros lo n Hw; [simpl; lia|].
  apply Forall_cons in Hw as [Hwx Hw]. assert (0 < n) by nia. simpl.
  assert (Z.of_nat (length l) ≤ Z.max 0 (n - 1)); [|lia]. apply (IH (lo + gap)).
  rewrite Forall_forall in *. intros y Hy. specialize (Hw y Hy). destruct (Hx y Hy) as (_&_&Hxy). split; lia.
Qed.
Lemma sorted_filter (p : Sample → bool) l : StronglySorted before l → StronglySorted before (filter p l).
Proof.
  induction 1 as [|x l _ IH Hx]; [constructor|]. rewrite filter_cons. destruct (decide (p x)); [|done].
  constructor; [done|]. rewrite Forall_forall in *. intros y [_ Hy]%list_elem_of_filter. by apply Hx.
Qed.

(** The telemetry of a session, whatever reports its client sends and however fast: the
    samples let through have increasing sequence numbers and times that do not go back, are at
    least a second apart, so that at most [n] of them fall into any [n] seconds, and each is
    within its bounds: used memory and disk at most the total, a load of at most 100%, a sample
    neither older than ten minutes nor more than five ahead. *)
Theorem telemetry_admitted_slowly sh state turns start sh' rs final : state = Active sid →
  Forall (λ t, rd_elapsed (tu_readings t) ≤ rd_instant (tu_readings t)) turns →
  loop sh (active_start rt state start) turns = (sh', rs, final) →
  StronglySorted before (omap sample_of rs) ∧
  (∀ lo n, 0 ≤ n → Z.of_nat (length (filter (λ x, bool_decide (lo ≤ sa_instant x < lo + n * MIN_TELEMETRY_INTERVAL))
                                      (omap sample_of rs))) ≤ n) ∧
  ∀ t r client sequence received metrics, (t, r) ∈ rs →
    ClientTelemetryAccepted client sequence received metrics ∈ re_events r →
    client = acs_observability g ∧ ∃ report, metrics = telemetry_metrics report ∧ sequence = tel_sequence report ∧
      valid_telemetry_report report received = true.
Proof.
  intros -> Hclock H. destruct (loop_samples sh (active_start rt (Active sid) start) turns _ _ _ eq_refl Hclock H) as [Hsorted _].
  split; [done|]. split.
  - intros lo n Hn. eapply Z.le_trans; [eapply (spaced_count lo n); [by apply sorted_filter|]|lia].
    apply Forall_forall. intros x [Hx _]%list_elem_of_filter. by apply bool_decide_unpack in Hx.
  - assert (cs_state (active_start rt (Active sid) start) = Active sid) as Hs by done.
    revert Hs H. generalize (active_start rt (Active sid) start) as s. clear Hsorted Hclock.
    revert sh rs; induction turns as [|t0 turns IH]; intros sh rs s Hs H t r client sequence received metrics Hin He.
    { injection H as <- <- <-. by apply not_elem_of_nil in Hin. }
    apply loop_cons in H as [[_ H]|(sh1&r0&Ht&H)]; [by eapply (IH _ _ _ Hs H)|].
    assert ((t, r) = (t0, r0) ∨ ∃ s1 rs1, re_result r0 = Ok s1 ∧ (t, r) ∈ rs1 ∧ loop sh1 s1 turns = (sh', rs1, final))
      as [[= -> ->]|(s1&rs1&Hr&Hin1&H1)].
    { destruct H as [(s1&rs1&Hr&->&H)|(->&_)]; [|left; by apply list_elem_of_singleton in Hin].
      apply elem_of_cons in Hin as [->|Hin]; [by left|right; by exists s1, rs1]. }
    + destruct (turn_cases _ _ _ _ _ Hs Ht) as [Hq|[(h&->)|(report&->)]].
      * rewrite (qu_events _ _ Hq) in He. by apply not_elem_of_nil in He.
      * destruct (heartbeat_reaction s h (tu_readings t0) Hs) as ([Hev|[Hev _]]&_); rewrite Hev in He;
          [by apply not_elem_of_nil in He|by apply list_elem_of_singleton in He].
      * destruct (telemetry_reaction s report (tu_readings t0) Hs) as (_&[Hev|[Ha Hev]]&_); rewrite Hev in He;
          [by apply not_elem_of_nil in He|]. apply list_elem_of_singleton in He. injection He as -> -> -> ->.
        split; [done|]. exists report. by apply accept_first in Ha as [_ ?].
    + eapply (IH _ _ _ (proj2 (proj2 (turn_sent _ _ _ _ _ Hs Ht)) _ Hr) H1); done.
Qed.
End turns.

(** * The registration *)

(** The registration of a managed configuration: its tunnels in order, numbered from one. *)
Definition registration_of (index : nat) (c : TunnelConfig) : TunnelRegistration :=
  {| tr_tunnel_id := Z.of_nat index + 1; tr_name := tc_name c; tr_protocol := protocol_number (tc_protocol c);
     tr_remote_port := tc_remote_port c |}.
Definition expected_tunnels (snapshot : ManagedSnapshot) : list TunnelRegistration :=
  imap registration_of (mc_tunnels (sn_configuration snapshot)).
Definition no_tunnels : Tunnels := {| listeners := []; tunnel_ids := ∅; tunnel_names := ∅ |}.

Lemma tunnel_matches_iff index a e : tunnel_matches index a e = true ↔ a = registration_of index e.
Proof.
  unfold tunnel_matches, registration_of. rewrite !andb_true_iff, !Z.eqb_eq, bool_decide_eq_true. destruct a as [i n p r]. simpl. split.
  - intros [[[-> ->] ->] ->]. done.
  - intros [= -> -> -> ->]. done.
Qed.
Lemma all_match_iff actual expected : ∀ index, length actual = length expected →
  all_match index actual expected = true ↔ actual = imap (λ i, registration_of (index + i)) expected.
Proof.
  revert expected; induction actual as [|a actual IH]; intros [|e expected] index Hlen; try done.
  injection Hlen as Hlen. simpl. rewrite andb_true_iff, tunnel_matches_iff, (IH expected (S index) Hlen), Nat.add_0_r.
  assert (imap (λ i, registration_of (S index + i)) expected = imap ((λ i, registration_of (index + i)) ∘ S) expected) as Himap.
  { apply imap_ext. intros i x _. simpl. by rewrite <- plus_n_Sm. }
  rewrite Himap. split; [by intros [-> ->]|by intros [= -> ->]].
Qed.
Lemma registration_matches_iff snapshot registration :
  registration_matches snapshot registration = true ↔ rt_tunnels registration = expected_tunnels snapshot.
Proof.
  unfold registration_matches, expected_tunnels. rewrite andb_true_iff, Nat.eqb_eq. split.
  - intros [Hlen H]. by apply (all_match_iff _ _ 0 Hlen) in H.
  - intros ->. split; [by rewrite length_imap|]. by apply (all_match_iff _ _ 0 (length_imap _ _)).
Qed.

Lemma register_loop_names max version bind tunnels t :
  tunnel_names (register_loop max version bind t tunnels).2 ⊆ tunnel_names t ∪ list_to_set (map tr_name tunnels).
Proof.
  revert t; induction tunnels as [|tn tunnels IH]; intros t; [set_solver|]. simpl.
  match goal with |- context [if ?b then Some InvalidTunnelRegistration else bind tn] =>
    destruct (if b then Some InvalidTunnelRegistration else bind tn) as [e|] end.
  - specialize (IH t). destruct (register_loop max version bind t tunnels) as [results t']. simpl in *. set_solver.
  - match goal with |- context [register_loop _ _ _ ?t1 _] => specialize (IH t1); destruct (register_loop max version bind t1 tunnels) as [results t'] end.
    simpl in *. set_solver.
Qed.
Lemma register_loop_length max version bind tunnels t :
  length (register_loop max version bind t tunnels).1 = length tunnels.
Proof.
  revert t; induction tunnels as [|tn tunnels IH]; intros t; [done|]. simpl.
  match goal with |- context [if ?b then Some InvalidTunnelRegistration else bind tn] =>
    destruct (if b then Some InvalidTunnelRegistration else bind tn) as [e|] end.
  - specialize (IH t). destruct (register_loop max version bind t tunnels) as [results t']. simpl in *. by f_equal.
  - match goal with |- context [register_loop _ _ _ ?t1 _] => specialize (IH t1); destruct (register_loop max version bind t1 tunnels) as [results t'] end.
    simpl in *. by f_equal.
Qed.
Lemma bounded_labels names : Forall (λ n, blen n ≤ MAX_EVENT_LABEL_BYTES) names →
  mapM (M := res BoundExceeded) bounded_label names = Ok names.
Proof.
  induction 1 as [|n names Hn _ IH]; [done|].
  assert (bounded_label n = Ok n) as Hb by (by apply bounded_try_from_Ok).
  simpl. rewrite Hb. simpl. by rewrite IH.
Qed.
Lemma try_from_names_bounded names : Forall (λ n, blen n ≤ MAX_EVENT_LABEL_BYTES) names → ∃ l, try_from_names names = Ok l.
Proof.
  intros H. unfold try_from_names. rewrite bounded_labels by (by apply Forall_take). by eexists.
Qed.

Lemma managed_registers {J : SerdeJson} rt sh r g negotiated sid snapshot bind frame registration written :
  frame_message frame = MRegisterTunnels registration → Frame.frame_version frame = negotiated →
  rt_tunnels registration = expected_tunnels snapshot →
  managed_validate (sn_configuration snapshot) = Ok tt →
  ∃ results tunnels names,
    register_tunnels r negotiated bind no_tunnels registration = (Ok results, tunnels) ∧
    try_from_names (merge_sort (le_rel bytes_le) (elements (tunnel_names tunnels))) = Ok names ∧
    registration_exchange rt sh r g negotiated (AwaitingTunnelRegistration sid) (Some snapshot) no_tunnels bind frame written
    = (sh, tunnels, [MTunnelResults results], [TunnelInventory (acs_observability g) names], _ ← written; Ok (Active sid)).
Proof.
  intros Hm Hv Hreg Hval. apply collections_Ok in Hval as [Htun _ _ Hmax _ _ _ _ _ _].
  unfold register_tunnels. pose proof (register_loop_length (max_tunnels_per_client (config r)) negotiated bind (rt_tunnels registration) no_tunnels) as Hlen.
  pose proof (register_loop_names (max_tunnels_per_client (config r)) negotiated bind (rt_tunnels registration) no_tunnels) as Hnames.
  unfold registration_exchange. rewrite (bool_decide_eq_true_2 (Frame.frame_version frame = negotiated)) by done. simpl negb. cbv iota.
  rewrite Hm, (proj2 (registration_matches_iff snapshot registration) Hreg). simpl negb. cbv iota. cbn [transition].
  unfold register_tunnels. destruct (register_loop _ _ _ _ _) as [results tunnels]. simpl in Hlen, Hnames.
  assert (bounded_try_from MAX_TUNNELS results = Ok results) as Hb.
  { apply bounded_try_from_Ok. split; [done|]. unfold blen. rewrite Hlen, Hreg. unfold expected_tunnels. rewrite length_imap. exact Hmax. }
  rewrite Hb. destruct (try_from_names_bounded (merge_sort (le_rel bytes_le) (elements (tunnel_names tunnels)))) as [names Hn].
    { apply Forall_forall. intros n Hin. rewrite merge_sort_Permutation in Hin. apply elem_of_elements, Hnames in Hin.
      apply elem_of_union in Hin as [Hin|Hin]; [by apply elem_of_empty in Hin|]. apply elem_of_list_to_set, list_elem_of_fmap in Hin as (tn&->&Htn).
      rewrite Hreg in Htn. apply elem_of_lookup_imap in Htn as (i&c&->&Hc). simpl.
      apply list_elem_of_lookup_2 in Hc. rewrite Forall_forall in Htun. destruct (Htun c Hc) as [[_ Hn] _].
      unfold MAX_TUNNEL_NAME_BYTES, MAX_EVENT_LABEL_BYTES in *. exact Hn. }
    exists {| tr_results := results |}, tunnels, names. split; [done|]. split; [done|]. simpl. by rewrite Hn.
Qed.

(** C36: A session with a managed configuration registers that configuration and nothing else:
    its tunnels, all of them, in order and numbered from one.  Then the registry's answer is
    sent, the accepted tunnels are published and the session is active as soon as the answer is
    written; any other registration opens no listener, sends nothing and ends the session. *)
Theorem managed_registration_exact {J : SerdeJson} rt sh r g negotiated sid snapshot bind frame registration written :
  frame_message frame = MRegisterTunnels registration → Frame.frame_version frame = negotiated →
  managed_validate (sn_configuration snapshot) = Ok tt →
  let exchange := registration_exchange rt sh r g negotiated (AwaitingTunnelRegistration sid) (Some snapshot) no_tunnels
                    bind frame written in
  (rt_tunnels registration = expected_tunnels snapshot ∧ ∃ results tunnels names,
     register_tunnels r negotiated bind no_tunnels registration = (Ok results, tunnels) ∧
     try_from_names (merge_sort (le_rel bytes_le) (elements (tunnel_names tunnels))) = Ok names ∧
     exchange = (sh, tunnels, [MTunnelResults results], [TunnelInventory (acs_observability g) names],
                 _ ← written; Ok (Active sid))) ∨
  (rt_tunnels registration ≠ expected_tunnels snapshot ∧ exchange = (sh, no_tunnels, [], [], Err SeInvalidState)).
Proof.
  intros Hm Hv Hval exchange. destruct (registration_matches snapshot registration) eqn:Hmatch.
  - apply registration_matches_iff in Hmatch. left. split; [done|]. by apply managed_registers.
  - right. split.
    + intros He. apply (registration_matches_iff snapshot registration) in He. congruence.
    + subst exchange. unfold registration_exchange. rewrite Hv, Hm, Hmatch, bool_decide_eq_true_2 by done. done.
Qed.

(** * Whom a session acts for *)

Lemma issue_tokens limits registry identity now system_now entropy s token entry :
  os_pending (issue limits registry identity now system_now entropy s).2 !! token = Some entry →
  os_pending s !! token = Some entry ∨ pt_identity entry = identity.
Proof.
  unfold issue. destruct (negb _); [by left|]. destruct (instant_checked_add _ _); [|by left].
  destruct (expires_unix _ _); [|by left].
  assert (∀ t e, filter (λ '(_, e), now < pt_expires_at e) (os_pending s) !! t = Some e → os_pending s !! t = Some e) as Hf.
  { intros t e [H _]%map_lookup_filter_Some. done. }
  destruct (_ <? _); [intros H; left; by apply Hf|].
  destruct (issue_unique_token _ _ _ _ None) as [[primary| |] i]; [|intros H; left; by apply Hf..].
  destruct (issue_unique_token _ _ _ _ (Some _)) as [[alternate| |] j]; [|intros H; left; by apply Hf..].
  simpl. intros [[_ <-]|[_ [[_ <-]|[_ H]]%lookup_insert_Some]]%lookup_insert_Some; [by right..|]. left. by apply Hf.
Qed.

Definition caller (x : Call) : option AuthenticatedClient :=
  match x with
  | CRequest a _ | CDecision a _ | CForward a _ | CClose a _ | CRelayFrame a _ => Some (acs_identity a)
  | CRemoveDevice i => Some i
  | CExpireNow => None
  end.
Lemma caller_of_envelope g e : caller (call_of_envelope g e) = Some (acs_identity g).
Proof. unfold call_of_envelope. by destruct (env_payload e). Qed.
Definition client_of (e : ObservationEvent) : option AuthenticatedClientIdentity :=
  match e with Heartbeat c _ | ClientTelemetryAccepted c _ _ _ => Some c | _ => None end.

Section acts.
Context `{P : Postcard} (sha256 : list byte → list byte) {J : SerdeJson} {HJ : SerdeJsonLaws J}.
Context (rt : ControlRuntime) (binding : option (list byte * Z)) (g : ActiveControlSession).
Context (negotiated : ProtocolVersion).

(** What a turn may change: in the table of managed configurations the report of the row it is
    bound to, and that only with a report that covers the current configuration. *)
Definition store_kept (sh sh' : Shared) : Prop :=
  sh_store sh' = sh_store sh ∨
  ∃ identity revision row c v, binding = Some (identity, revision) ∧
    sh_store sh !! identity = Some row ∧ mr_revision row = revision ∧ config_text row c ∧ report_covers c v ∧
    sh_store sh' = set_row (sh_store sh) identity (row_reported (Some revision) (value_to_json v)).
Definition tokens_own (sh sh' : Shared) : Prop :=
  ∀ token entry, os_pending (sh_tokens sh') !! token = Some entry →
    os_pending (sh_tokens sh) !! token = Some entry ∨ pt_identity entry = acs_identity g.
Definition coordinator_called (rd : Readings) (sh sh' : Shared) (r : Reaction) : Prop :=
  sh_coordinator sh' = sh_coordinator sh ∧ re_effects r = [] ∨
  ∃ x result, caller x = Some (acs_identity g) ∧
    call sha256 (rn_rendezvous rt) (rd_env rd) (sh_coordinator sh) x = (result, sh_coordinator sh', re_effects r).
Record own_turn (rd : Readings) (sh sh' : Shared) (r : Reaction) : Prop := {
  ow_dynamic : sh_dynamic sh' = sh_dynamic sh;
  ow_store : store_kept sh sh';
  ow_tokens : tokens_own sh sh';
  ow_coordinator : coordinator_called rd sh sh' r;
  ow_events : Forall (λ e, client_of e = Some (acs_observability g)) (re_events r);
}.

Lemma own_same rd sh r : re_effects r = [] → Forall (λ e, client_of e = Some (acs_observability g)) (re_events r) →
  own_turn rd sh sh r.
Proof. intros He Hev. split; [done|by left| |by left|done]. by left. Qed.
Lemma send_inert s m rd : re_effects (send_active_message s m rd) = [] ∧ re_events (send_active_message s m rd) = [].
Proof.
  unfold send_active_message. destruct (transition _ _); [|done|done]. unfold write. by destruct (rd_write rd).
Qed.
Lemma own_send rd sh s m : own_turn rd sh sh (send_active_message s m rd).
Proof. destruct (send_inert s m rd) as [He Hev]. apply own_same; [done|by rewrite Hev]. Qed.
Lemma own_stop rd sh x : own_turn rd sh sh (react x).
Proof. by apply own_same. Qed.
Lemma own_call rd sh x result coordinator effects inner :
  caller x = Some (acs_identity g) →
  call sha256 (rn_rendezvous rt) (rd_env rd) (sh_coordinator sh) x = (result, coordinator, effects) →
  re_effects inner = [] → re_events inner = [] →
  own_turn rd sh (with_coordinator sh coordinator) (with_effects effects inner).
Proof.
  intros Hc Hx He Hev. split; [done|by left|by left| |by simpl; rewrite Hev]. right. exists x, result. simpl.
  by rewrite He, app_nil_r.
Qed.

Lemma own_report rd sh s report sh' r : managed_wf (sh_store sh) →
  on_managed_report rt binding negotiated sh s report = (sh', r) → own_turn rd sh sh' r.
Proof.
  intros Hwf. unfold on_managed_report.
  destruct (map_err SeState _); [|intros [= <- <-]; apply own_stop..].
  destruct (binding ≫= _) as [[identity results]|] eqn:Hb; [|intros [= <- <-]; apply own_stop].
  apply bind_Some in Hb as ([identity' revision]&Hb&Hx). destruct (Z.eqb_spec (mcrep_revision report) revision) as [Hr|]; [|done].
  simpl in Hx. apply bind_Some in Hx as (results'&_&Hx). apply bind_Some in Hx as (m&_&[= -> ->]).
  destruct (managed_report _ _ _ _) as [store y] eqn:Hrep. intros [= <- <-]. split; [done| |by left|by left|constructor].
  unfold store_kept. simpl. destruct y as [[]|e|]; try by apply mcommit_inv in Hrep as [(?&_&?)|[-> _]]; [|left].
  right. apply report_Ok in Hrep as (row&c&Hrow&Hrev&Hc&Hcov&_&->); [|done]. rewrite Hr in *. by exists identity, revision, row, c, results.
Qed.
Lemma own_grant rd sh s request sh' r : on_grant_request rt g sh s request rd = (sh', r) → own_turn rd sh sh' r.
Proof.
  unfold on_grant_request. destruct (transition _ _); [|intros [= <- <-]; apply own_stop..].
  destruct (rn_issuer rt) as [limits|].
  - pose proof (issue_tokens limits (rd_registry rd) (acs_identity g) (rd_instant rd) (rd_system rd) (rd_entropy rd) (sh_tokens sh)) as Ht.
    destruct (issue _ _ _ _ _ _ _) as [x tokens]. simpl in Ht.
    destruct (match x with Ok _ => _ | Err _ => _ | Panic => Panic end) as [m|e|]; intros [= <- <-].
    all: split; [done|by left|done|left; split; [done|]|].
    all: first [apply send_inert|done|rewrite (proj2 (send_inert _ _ _)); constructor|constructor].
  - intros [= <- <-]. split; [done|by left|by left|left; split; [done|apply send_inert]|].
    rewrite (proj2 (send_inert _ _ _)). constructor.
Qed.
Lemma own_rendezvous rd sh s m sh' r : on_rendezvous sha256 rt g sh s m rd = (sh', r) → own_turn rd sh sh' r.
Proof.
  unfold on_rendezvous. destruct (envelope_from_protocol_message m) as [e|e|]; [|intros [= <- <-]; apply own_send|intros [= <- <-]; apply own_stop].
  destruct (call sha256 _ _ _ _) as [[result coordinator] effects] eqn:Hc. intros [= <- <-].
  eapply own_call; [apply caller_of_envelope|exact Hc| |];
    (destruct result; [done| |done]; destruct (error_response _ _); [apply send_inert|done|done]).
Qed.
Lemma own_relay rd sh s opaque sh' r : on_relay_frame sha256 rt g sh s opaque rd = (sh', r) → own_turn rd sh sh' r.
Proof.
  unfold on_relay_frame. destruct (PeerRelayFrame_from_protocol_message _) as [f|e|];
    [|intros [= <- <-]; apply own_send|intros [= <- <-]; apply own_stop].
  destruct (call sha256 _ _ _ _) as [[result coordinator] effects] eqn:Hc. intros [= <- <-].
  eapply own_call; [|exact Hc| |]; [done|..]; (destruct result; [done|apply send_inert|done]).
Qed.
Lemma own_heartbeat rd sh s h : own_turn rd sh sh (on_heartbeat rt g s h rd).
Proof.
  unfold on_heartbeat. destruct (transition _ _); [|apply own_stop..]. destruct (rd_write rd); [|apply own_stop..].
  destruct (instant_checked_add _ _); apply own_same; simpl; try done; by repeat constructor.
Qed.
Lemma own_telemetry rd sh s report : own_turn rd sh sh (on_telemetry g negotiated s report rd).
Proof.
  unfold on_telemetry. destruct (transition_control _ _ _ _); [|apply own_stop..].
  destruct (TelemetryAdmission_accept _ _ _ _ _) as [[] admission]; apply own_same; simpl; try done; by repeat constructor.
Qed.

Lemma own_frame rd sh s frame sh' r : managed_wf (sh_store sh) →
  active_frame sha256 rt binding g negotiated sh s frame rd = (sh', r) → own_turn rd sh sh' r.
Proof.
  intros Hwf. unfold active_frame. destruct (negb _); [intros [= <- <-]; apply own_stop|].
  destruct (_ && _); [intros [= <- <-]; apply own_send|].
  destruct (frame_message frame) as [ | | | | | | |ready| |h| | | | | | | | | | | | |opaque|request| | | |lookup| |report| | |report| | | | ];
    try (intros [= <- <-]; apply own_stop); try (intros [= <- <-]; apply own_send); try apply own_rendezvous.
  - intros [= <- <-]. destruct (tsr_accepted ready); [apply own_stop|]. unfold on_stream_rejected.
    destruct (transition _ _); [by apply own_same|apply own_stop..].
  - intros [= <- <-]. apply own_heartbeat.
  - apply own_relay.
  - apply own_grant.
  - intros [= <- <-]. unfold on_identity_lookup. destruct (identity_binding _ _ _ _ _); [apply own_send..|apply own_stop].
  - intros [= <- <-]. apply own_telemetry.
  - by apply own_report.
Qed.

(** C34: Whatever a client sends on its session, the server does it for that client's device: in
    the table of managed configurations only the report of the row the session is bound to
    changes, at its revision and covering its configuration; a new observation token belongs to
    the session's identity; the coordinator is called under that identity, and its effects are
    that call's; what is observed is observed of this client; the enrollment store is not
    touched. *)
Theorem session_acts_for_its_device sh s ready rd sh' r : managed_wf (sh_store sh) →
  active_turn sha256 rt binding g negotiated sh s ready rd = Some (sh', r) → own_turn rd sh sh' r.
Proof.
  intros Hwf. unfold active_turn. destruct (rdy_cancelled _); [intros [= <- <-]; apply own_stop|].
  destruct (cs_deadline s <=? _); [intros [= <- <-]; apply own_stop|].
  destruct (rdy_outbound _) as [[m|]|]; [intros [= <- <-]; apply own_send|intros [= <- <-]; apply own_stop|].
  destruct (rdy_frame _) as [[frame| |]|]; [|intros [= <- <-]; apply own_stop..|done].
  intros [= H]. by eapply own_frame.
Qed.
End acts.

(** * Witnesses *)

#[local] Existing Instance postcard_ref.

(** Alice of [CoordinatorFacts] is connected at version 1.5, with a deadline of 30 seconds. *)
Definition alice_runtime : ControlRuntime :=
  {| rn_heartbeat_timeout := 30 * ONE_SECOND; rn_issuer := None; rn_rendezvous := demo_coordinator;
     rn_managed := Some {| tm_static_identities := ∅; tm_max_tunnels := 4 |} |}.
Definition alice_shared : Shared :=
  {| sh_store := edge_table; sh_dynamic := None; sh_tokens := ObservationState_default 0;
     sh_coordinator := CoordinatorState_default |}.
Definition alice_registry : ClientRegistry :=
  {| config := {| max_clients := 4; max_tunnels_per_client := 4; binding_capacity := 8; binding_ttl := 1000 |};
     active := ∅; by_name := ∅; next_observability_generation := 1; runtimes := ∅ |}.
(** What is read [t] seconds after the start, with every clock at [t] seconds. *)
Definition alice_readings (t : Z) : Readings :=
  {| rd_registry := alice_registry; rd_env := demo_env t; rd_elapsed := t * ONE_SECOND; rd_instant := t * ONE_SECOND;
     rd_millis := 1000 * t; rd_system := t * ONE_SECOND; rd_entropy _ := None; rd_write := Ok tt |}.
Definition alice_frame (m : Message) : Frame :=
  {| Frame.frame_version := Version.V0_6; frame_flags := 0; frame_message := m |}.
Definition alice_ready (t : Z) (m : Message) : Ready :=
  {| rdy_cancelled := false; rdy_now := t * ONE_SECOND; rdy_outbound := None; rdy_frame := Some (Ok (alice_frame m)) |}.
Definition alice_turn (t : Z) (m : Message) : Turn :=
  {| tu_outside := id; tu_ready := alice_ready t m; tu_readings := alice_readings t |}.
Definition alice_report (t : Z) (sequence : Z) : TelemetryReport :=
  {| tel_sampled_unix_millis := 1000 * t; tel_sequence := sequence; tel_cpu_basis_points := 2500;
     tel_memory_used_bytes := 1; tel_memory_total_bytes := 2; tel_disk_used_bytes := 3; tel_disk_total_bytes := 4;
     tel_tx_bytes_per_sec := 5; tel_rx_bytes_per_sec := 6 |}.
(** A heartbeat, two samples half a second apart on the clock of seconds, a request, silence. *)
Definition alice_turns : list Turn :=
  [alice_turn 10 (MHeartbeat {| hb_sequence := 1 |}); alice_turn 20 (MTelemetryReport (alice_report 20 1));
   alice_turn 20 (MTelemetryReport (alice_report 20 2)); alice_turn 25 (MObservationGrantRequest Build_ObservationGrantRequest);
   alice_turn 40 (MHeartbeat {| hb_sequence := 2 |})].
Definition alice_loop :=
  active_loop demo_digest alice_runtime (Some (str "static:a", 1)) alice Version.V0_6 alice_shared
    (active_start alice_runtime (Active (str "1")) 0) alice_turns.

Lemma session_speaks_protocol_witness :
  length alice_loop.1.2 = 5%nat ∧
  Forall (λ x, Forall (λ m, active_phase Version.V0_6 (ServerToClient, m)) (re_sent x.2)) alice_loop.1.2.
Proof.
  split; [vm_compute; reflexivity|]. apply List.Forall_forall. intros [t r] Hin. apply list_elem_of_In in Hin.
  apply (session_speaks_protocol demo_digest alice_runtime (Some (str "static:a", 1)) alice Version.V0_6 (str "1") alice_shared
    (active_start alice_runtime (Active (str "1")) 0) alice_turns alice_loop.1.1 alice_loop.1.2 alice_loop.2 eq_refl) in Hin.
  - exact (proj2 Hin).
  - unfold alice_loop. destruct (active_loop _ _ _ _ _ _ _ _) as [[? ?] ?]. reflexivity.
Defined.

(** Nothing comes any more: the turn at 40 seconds, with nothing ready, is the last. *)
Definition silent_turn (t : Z) : Turn :=
  {| tu_outside := id; tu_readings := alice_readings t;
     tu_ready := {| rdy_cancelled := false; rdy_now := t * ONE_SECOND; rdy_outbound := None; rdy_frame := None |} |}.
Definition alice_silent (turns : list Turn) :=
  active_loop demo_digest alice_runtime (Some (str "static:a", 1)) alice Version.V0_6 alice_shared
    (active_start alice_runtime (Active (str "1")) 0) (take 4 alice_turns ++ turns).
Lemma silent_client_disconnected_witness :
  (∃ r, (alice_silent (silent_turn 40 :: alice_turns)).1.2 = (alice_silent []).1.2 ++ [(silent_turn 40, r)]) ∧
  (alice_silent (silent_turn 40 :: alice_turns)).2 = Err SeHeartbeatTimeout ∧
  (alice_silent [silent_turn 39]).1.2 = (alice_silent []).1.2.
Proof.
  destruct (alice_silent []) as [[sh1 rs1] final] eqn:Hloop.
  assert (∃ s1, final = Ok s1) as [s1 ->].
  { assert (match (alice_silent []).2 with Ok _ => true | _ => false end = true) as Hok by (vm_compute; reflexivity).
    rewrite Hloop in Hok. destruct final as [s1| |]; [exists s1; reflexivity|discriminate Hok..]. }
  assert (last_heard 0 rs1 =? 10 * ONE_SECOND = true) as Hheard.
  { change rs1 with ((sh1, rs1, Ok s1 : res SessionError ControlSession).1.2). rewrite <- Hloop. vm_compute. reflexivity. }
  apply Z.eqb_eq in Hheard.
  assert (∀ t turns2, _) as Hall by exact (λ t turns2, silent_client_disconnected demo_digest alice_runtime
    (Some (str "static:a", 1)) alice Version.V0_6 (str "1") alice_shared (Active (str "1")) (take 4 alice_turns)
    t turns2 0 sh1 rs1 s1 eq_refl Hloop).
  destruct (Hall (silent_turn 40) alice_turns) as [Hlate _].
  destruct (Hall (silent_turn 39) []) as [_ Hearly]. rewrite Hheard in Hlate, Hearly.
  destruct Hlate as (r&Hl&_&_&_&_&Hr); [vm_compute; discriminate|].
  unfold alice_silent. rewrite Hl. split; [exists r; reflexivity|]. split.
  - destruct Hr as [Hr|[Hc _]]; [exact Hr|discriminate Hc].
  - rewrite Hearly; [reflexivity|vm_compute; reflexivity|reflexivity..].
Defined.

Lemma telemetry_admitted_slowly_witness :
  length (omap sample_of alice_loop.1.2) = 1%nat ∧ StronglySorted before (omap sample_of alice_loop.1.2).
Proof.
  split; [vm_compute; reflexivity|].
  apply (telemetry_admitted_slowly demo_digest alice_runtime (Some (str "static:a", 1)) alice Version.V0_6 (str "1")
    alice_shared (Active (str "1")) alice_turns 0 alice_loop.1.1 alice_loop.1.2 alice_loop.2 eq_refl).
  - unfold alice_turns. repeat (apply List.Forall_cons; [simpl; lia|]). apply List.Forall_nil.
  - unfold alice_loop. destruct (active_loop _ _ _ _ _ _ _ _) as [[? ?] ?]. reflexivity.
Defined.

Definition alice_snapshot : ManagedSnapshot :=
  {| sn_identity := str "static:a"; sn_name := str "edge"; sn_revision := 1; sn_configuration := edge_config 8080;
     sn_applied_revision := None; sn_results := VArray [] |}.
Definition alice_registration : RegisterTunnels := {| rt_tunnels := expected_tunnels alice_snapshot |}.
Definition alice_registered :=
  registration_exchange alice_runtime alice_shared alice_registry alice Version.V0_6
    (AwaitingTunnelRegistration (str "1")) (Some alice_snapshot) no_tunnels (λ _, None)
    (alice_frame (MRegisterTunnels alice_registration)) (Ok tt).
Lemma managed_registration_exact_witness : alice_registered.2 = Ok (Active (str "1")).
Proof.
  destruct (managed_registration_exact alice_runtime alice_shared alice_registry alice Version.V0_6 (str "1")
    alice_snapshot (λ _, None) (alice_frame (MRegisterTunnels alice_registration)) alice_registration (Ok tt)
    eq_refl eq_refl ltac:(vm_compute; reflexivity)) as [(_&results&tunnels&names&_&_&He)|[Hne _]].
  - exact (f_equal snd He).
  - exfalso. apply Hne. reflexivity.
Defined.

(** Alice reports what she has made of her configuration. *)
Definition alice_reports :=
  active_turn demo_digest alice_runtime (Some (str "static:a", 1)) alice Version.V0_6 alice_shared
    (active_start alice_runtime (Active (str "1")) 0)
    (alice_ready 5 (MManagedConfigReport {| mcrep_revision := 1; mcrep_results := value_to_json edge_results |}))
    (alice_readings 5).
Lemma session_acts_for_its_device_witness :
  ∃ sh' r, alice_reports = Some (sh', r) ∧ own_turn demo_digest alice_runtime (Some (str "static:a", 1)) alice
    (alice_readings 5) alice_shared sh' r.
Proof.
  assert (match alice_reports with Some (_, r) => match re_result r with Ok _ => true | _ => false end | None => false end
          = true) as Hok by (vm_compute; reflexivity).
  destruct alice_reports as [[sh' r]|] eqn:Hr; [|discriminate Hok]. exists sh', r. split; [reflexivity|].
  refine (session_acts_for_its_device demo_digest alice_runtime (Some (str "static:a", 1)) alice Version.V0_6 alice_shared _ _ _
    sh' r _ Hr).
  exact (managed_wf_steps _ _ wf_empty (calls_steps ∅ edge_calls wf_empty)).
Defined.
