(* ===== verification/WebAuth.v ===== *)
(** The authentication of the dashboard ([rustgos/src/web/auth.rs], [security.rs] and the limits
    of [mod.rs]): sessions behind a cookie, their CSRF credentials and the login limiter.

    A method locks its table for all it does, so that it is one step; the instant it works with
    is read before that and is an argument.  A handler that locks the table twice has the calls
    that other requests make in between as an argument.  The theorems follow the definitions:
    which sessions are accepted, how many logins are admitted, and what a login opens and a
    protected write needs. *)

From S2P Require Import Prelude.
From S2P Require Import Messages.
From S2P Require Import Text.
From S2P Require Import Peer.
From S2P Require Import CryptoRef.
From S2P Require Import EnrollKeys.
From S2P Require Import Bindings.
From S2P Require Import Limiter.
From S2P Require Import Config.
From S2P Require Import Observation.
From Stdlib Require Import Strings.Byte.
From stdpp Require Import prelude gmap list strings sorting.

#[local] Open Scope Z_scope.

Definition SESSION_COOKIE_NAME : list byte := str "rustgo_session".
Definition SESSION_TOKEN_BYTES : Z := 32.
Definition DIGEST_BYTES : Z := 32.
Definition MAX_COOKIE_HEADER_BYTES : Z := 1024.
Definition MAX_ORIGIN_HEADER_BYTES : Z := 256.

Definition MAX_SESSIONS : Z := 32.
Definition MAX_LOGIN_ATTEMPTS_PER_PEER : Z := 1024.
Definition MAX_GLOBAL_LOGIN_ATTEMPTS : Z := 4096.
Definition MAX_TRACKED_LOGIN_PEERS : Z := 1024.
Definition MAX_CONNECTIONS : Z := 1024.
Definition MAX_CONCURRENT_REQUESTS : Z := 1024.
Definition MAX_HTTP_TIMEOUT : Z := 60 * SECOND.
Definition MAX_GRACEFUL_DRAIN_TIMEOUT : Z := 30 * SECOND.

Record WebRuntimeLimits := {
  session_idle_timeout : Z;
  session_absolute_timeout : Z;
  wl_max_sessions : Z;
  login_window : Z;
  max_login_attempts_per_peer : Z;
  max_global_login_attempts : Z;
  max_tracked_login_peers : Z;
  wl_max_connections : Z;
  max_concurrent_requests : Z;
  header_read_timeout : Z;
  request_timeout : Z;
  body_read_timeout : Z;
  graceful_drain_timeout : Z;
  test_exit_after_accepts : option Z;
}.
Definition WebRuntimeLimits_default : WebRuntimeLimits :=
  {| session_idle_timeout := 30 * 60 * SECOND; session_absolute_timeout := 8 * 60 * 60 * SECOND;
     wl_max_sessions := MAX_SESSIONS; login_window := 60 * SECOND; max_login_attempts_per_peer := 8;
     max_global_login_attempts := 64; max_tracked_login_peers := MAX_TRACKED_LOGIN_PEERS;
     wl_max_connections := 64; max_concurrent_requests := 32; header_read_timeout := 5 * SECOND;
     request_timeout := 10 * SECOND; body_read_timeout := 3 * SECOND; graceful_drain_timeout := 5 * SECOND;
     test_exit_after_accepts := None |}.

Definition out_of_range (v max : Z) : bool := (v =? 0) || (max <? v).
Definition cannot_add (now d : Z) : bool := bool_decide (instant_checked_add now d = None).
(** [validate]: whether the limits are accepted at this instant. *)
Definition limits_validate (l : WebRuntimeLimits) (now : Z) : bool :=
  negb ((session_idle_timeout l =? 0)
        || (session_absolute_timeout l =? 0)
        || (session_absolute_timeout l <? session_idle_timeout l)
        || out_of_range (wl_max_sessions l) MAX_SESSIONS
        || (login_window l =? 0)
        || out_of_range (max_login_attempts_per_peer l) MAX_LOGIN_ATTEMPTS_PER_PEER
        || out_of_range (max_global_login_attempts l) MAX_GLOBAL_LOGIN_ATTEMPTS
        || out_of_range (max_tracked_login_peers l) MAX_TRACKED_LOGIN_PEERS
        || out_of_range (wl_max_connections l) MAX_CONNECTIONS
        || out_of_range (max_concurrent_requests l) MAX_CONCURRENT_REQUESTS
        || (wl_max_connections l <? max_concurrent_requests l)
        || out_of_range (header_read_timeout l) MAX_HTTP_TIMEOUT
        || out_of_range (request_timeout l) MAX_HTTP_TIMEOUT
        || out_of_range (body_read_timeout l) (request_timeout l)
        || out_of_range (graceful_drain_timeout l) MAX_GRACEFUL_DRAIN_TIMEOUT
        || bool_decide (test_exit_after_accepts l = Some 0)
        || cannot_add now (session_idle_timeout l)
        || cannot_add now (session_absolute_timeout l)
        || cannot_add now (login_window l)
        || cannot_add now (header_read_timeout l)
        || cannot_add now (request_timeout l)
        || cannot_add now (body_read_timeout l)
        || cannot_add now (graceful_drain_timeout l)).

(** * Sessions *)

Inductive AuthenticationError := Randomness | AuthUnavailable.

Record WebSession := { sr_created : Z; sr_last_activity : Z; sr_sequence : Z }.
Record SessionTable := { st_sessions : gmap (list byte) WebSession; st_next_sequence : Z }.
Definition SessionTable_default : SessionTable := {| st_sessions := ∅; st_next_sequence := 0 |}.
Definition with_sessions_of (t : SessionTable) (m : gmap (list byte) WebSession) : SessionTable :=
  {| st_sessions := m; st_next_sequence := st_next_sequence t |}.

Definition record_fresh (now idle absolute : Z) (r : WebSession) : bool :=
  (duration_since now (sr_last_activity r) <? idle) && (duration_since now (sr_created r) <? absolute).
Definition remove_expired (t : SessionTable) (now idle absolute : Z) : SessionTable :=
  with_sessions_of t (filter (λ '(_, r), record_fresh now idle absolute r = true) (st_sessions t)).

(** The order of [(last_activity, created, sequence)]. *)
Definition record_before (a b : WebSession) : bool :=
  (sr_last_activity a <? sr_last_activity b)
  || ((sr_last_activity a =? sr_last_activity b)
      && ((sr_created a <? sr_created b)
          || ((sr_created a =? sr_created b) && (sr_sequence a <? sr_sequence b)))).
Definition oldest (sessions : gmap (list byte) WebSession) : option (list byte) :=
  fst <$> foldr (λ x best, match best with
                           | Some y => if record_before y.2 x.2 then Some y else Some x
                           | None => Some x
                           end) None (map_to_list sessions).
Definition evict_oldest (t : SessionTable) : SessionTable :=
  match oldest (st_sessions t) with
  | Some key => with_sessions_of t (delete key (st_sessions t))
  | None => t
  end.

Record SessionStore := {
  ss_hmac_key : list byte;
  ss_table : SessionTable;
  ss_idle_timeout : Z;
  ss_absolute_timeout : Z;
  ss_capacity : Z;
}.
Definition with_session_table (s : SessionStore) (t : SessionTable) : SessionStore :=
  {| ss_hmac_key := ss_hmac_key s; ss_table := t; ss_idle_timeout := ss_idle_timeout s;
     ss_absolute_timeout := ss_absolute_timeout s; ss_capacity := ss_capacity s |}.
(** [SessionStore::new] with what the generator draws. *)
Definition SessionStore_new (l : WebRuntimeLimits) (random : option (list byte)) : res AuthenticationError SessionStore :=
  hmac_key ← ok_or random Randomness;
  Ok {| ss_hmac_key := hmac_key; ss_table := SessionTable_default; ss_idle_timeout := session_idle_timeout l;
        ss_absolute_timeout := session_absolute_timeout l; ss_capacity := wl_max_sessions l |}.

Definition sweep (s : SessionStore) (now : Z) : SessionStore :=
  with_session_table s (remove_expired (ss_table s) now (ss_idle_timeout s) (ss_absolute_timeout s)).
Definition record_of (s : SessionStore) (key : list byte) : option WebSession := st_sessions (ss_table s) !! key.

Section sessions.
Context {P : Primitives} {B : Base64}.

Definition derive_key (s : SessionStore) (token : list byte) : list byte := hmac_sha256 (ss_hmac_key s) token.

(** [issue]: up to four draws, each with the table locked once: what has expired is dropped, and
    the session used longest ago makes room.  The answer is whether the draw became a session.
    A further draw follows only a token that exists already; it is made here without calls of
    other requests before it (as calls, the draws are on their own: [CallDraw]). *)
Definition issue_attempt (s : SessionStore) (now : Z) (token : list byte) : SessionStore * bool :=
  let key := derive_key s token in
  let s := sweep s now in
  if bool_decide (is_Some (record_of s key)) then (s, false)
  else
    let t := if Z.of_nat (size (st_sessions (ss_table s))) =? ss_capacity s then evict_oldest (ss_table s)
             else ss_table s in
    let r := {| sr_created := now; sr_last_activity := now; sr_sequence := st_next_sequence t |} in
    (with_session_table s
       {| st_sessions := <[key := r]> (st_sessions t);
          st_next_sequence := saturating_add u64_max (st_next_sequence t) 1 |}, true).
Fixpoint session_issue_loop (attempts : nat) (s : SessionStore) (now : Z) (entropy : nat → option (list byte)) (i : nat)
    : SessionStore * res AuthenticationError (list byte) :=
  match attempts with
  | O => (s, Err AuthUnavailable)
  | S attempts =>
    match entropy i with
    | None => (s, Err Randomness)
    | Some token =>
      let '(s, issued) := issue_attempt s now token in
      if issued then (s, Ok (url_safe_encode token)) else session_issue_loop attempts s now entropy (S i)
    end
  end.
Definition session_issue (s : SessionStore) (now : Z) (entropy : nat → option (list byte))
    : SessionStore * res AuthenticationError (list byte) := session_issue_loop 4 s now entropy 0.

Definition touch (s : SessionStore) (key : list byte) (now : Z) (r : WebSession) : SessionStore :=
  with_session_table s (with_sessions_of (ss_table s)
    (<[key := {| sr_created := sr_created r; sr_last_activity := now; sr_sequence := sr_sequence r |}]>
       (st_sessions (ss_table s)))).
Definition authenticate (s : SessionStore) (token : list byte) (now : Z) : SessionStore * bool :=
  let key := derive_key s token in
  let s := sweep s now in
  match record_of s key with
  | None => (s, false)
  | Some r => (touch s key now r, true)
  end.
Definition session_revoke (s : SessionStore) (token : list byte) (now : Z) : SessionStore * bool :=
  let key := derive_key s token in
  let s := sweep s now in
  (with_session_table s (with_sessions_of (ss_table s) (delete key (st_sessions (ss_table s)))),
   bool_decide (is_Some (record_of s key))).
Definition CSRF_DOMAIN : list byte := str "rustgo-web-csrf-v1" ++ [x00].
Definition csrf_credential (s : SessionStore) (token : list byte) (now : Z) : SessionStore * option (list byte) :=
  let key := derive_key s token in
  let s := sweep s now in
  match record_of s key with
  | None => (s, None)
  | Some r => (touch s key now r, Some (hmac_sha256 (ss_hmac_key s) (CSRF_DOMAIN ++ token)))
  end.

(** * Cookies *)

(** The pairs of a cookie header; one without an equals sign spoils it, and so does a second
    session cookie. *)
Fixpoint session_values (pairs : list (list byte)) (value : option (list byte)) : option (option (list byte)) :=
  match pairs with
  | [] => Some value
  | text :: pairs =>
    '(name, candidate) ← split_once x3d (trim text);
    if bool_decide (name = SESSION_COOKIE_NAME)
    then match value with Some _ => None | None => session_values pairs (Some candidate) end
    else session_values pairs value
  end.
Definition parse_session_cookie (header : list byte) : option (list byte) :=
  if MAX_COOKIE_HEADER_BYTES <? blen header then None
  else
    value ← session_values (Config.split_at x3b header) None;
    value ← value;
    if negb (blen value =? 43) then None
    else
      decoded ← url_safe_decode value;
      if blen decoded =? SESSION_TOKEN_BYTES then Some decoded else None.

(** [CredentialDigests]. *)
Record CredentialDigests := { cd_username : list byte; cd_password : list byte }.
Definition CredentialDigests_new (username password : list byte) : CredentialDigests :=
  {| cd_username := sha256 username; cd_password := sha256 password |}.
Definition credentials_match (c : CredentialDigests) (username password : list byte) : bool :=
  bool_decide (cd_username c = sha256 username) && bool_decide (cd_password c = sha256 password).

Definition authenticate_cookie (s : SessionStore) (cookie_header : option (list byte)) (now : Z)
    : SessionStore * bool :=
  match cookie_header ≫= parse_session_cookie with
  | None => (s, false)
  | Some token => authenticate s token now
  end.
Definition csrf_for_cookie (s : SessionStore) (cookie_header : option (list byte)) (now : Z)
    : SessionStore * option (list byte) :=
  match cookie_header ≫= parse_session_cookie with
  | None => (s, None)
  | Some token => let '(s, credential) := csrf_credential s token now in (s, url_safe_encode <$> credential)
  end.
Definition validate_csrf (s : SessionStore) (cookie_header : option (list byte)) (supplied : list byte) (now : Z)
    : SessionStore * bool :=
  match cookie_header ≫= parse_session_cookie with
  | None => (s, false)
  | Some token =>
    let supplied := (bytes ← url_safe_decode supplied; if blen bytes =? DIGEST_BYTES then Some bytes else None) in
    let '(s, expected) := csrf_credential s token now in
    (s, match expected, supplied with
        | Some expected, Some supplied => bool_decide (expected = supplied)
        | _, _ => false
        end)
  end.
Definition revoke_cookie (s : SessionStore) (cookie_header : option (list byte)) (now : Z) : SessionStore * bool :=
  match cookie_header ≫= parse_session_cookie with
  | None => (s, false)
  | Some token => session_revoke s token now
  end.
End sessions.

(** * The login limiter *)

Record LoginRateLimiter := {
  ll_global : list Z;
  ll_peers : gmap IpAddr (list Z);
  ll_window : Z;
  ll_per_peer_limit : Z;
  ll_global_limit : Z;
  ll_max_peers : Z;
}.
Definition LoginRateLimiter_new (l : WebRuntimeLimits) : LoginRateLimiter :=
  {| ll_global := []; ll_peers := ∅; ll_window := login_window l; ll_per_peer_limit := max_login_attempts_per_peer l;
     ll_global_limit := max_global_login_attempts l; ll_max_peers := max_tracked_login_peers l |}.
Definition with_attempts (l : LoginRateLimiter) (global : list Z) (peers : gmap IpAddr (list Z)) : LoginRateLimiter :=
  {| ll_global := global; ll_peers := peers; ll_window := ll_window l; ll_per_peer_limit := ll_per_peer_limit l;
     ll_global_limit := ll_global_limit l; ll_max_peers := ll_max_peers l |}.

Fixpoint prune_attempts (attempts : list Z) (now window : Z) : list Z :=
  match attempts with
  | a :: rest => if window <=? duration_since now a then prune_attempts rest now window else attempts
  | [] => []
  end.
Definition pruned (l : LoginRateLimiter) (now : Z) : LoginRateLimiter :=
  with_attempts l (prune_attempts (ll_global l) now (ll_window l))
    (omap (λ attempts, let attempts := prune_attempts attempts now (ll_window l) in
                       match attempts with [] => None | _ => Some attempts end) (ll_peers l)).
Definition login_admit (l : LoginRateLimiter) (peer : IpAddr) (now : Z) : LoginRateLimiter * bool :=
  let l := pruned l now in
  if ll_global_limit l <=? blen (ll_global l) then (l, false)
  else if match ll_peers l !! peer with Some attempts => ll_per_peer_limit l <=? blen attempts | None => false end
  then (l, false)
  else if bool_decide (ll_peers l !! peer = None) && (Z.of_nat (size (ll_peers l)) =? ll_max_peers l)
  then (l, false)
  else
    (with_attempts l (ll_global l ++ [now])
       (<[peer := default [] (ll_peers l !! peer) ++ [now]]> (ll_peers l)), true).
(** [AuthenticationState::admit_login]. *)
Definition admit_login (l : LoginRateLimiter) (peer : IpAddr) (now : Z) : LoginRateLimiter * bool :=
  login_admit l (canonical_ip peer) now.

(** * Calls *)

(** What locks the table once, with its instant: a draw of [issue], [authenticate],
    [csrf_credential], [revoke].  Every interleaving of requests is a sequence of these. *)
Inductive SessionCall :=
| CallDraw (now : Z) (token : list byte)
| CallAuthenticate (token : list byte) (now : Z)
| CallCsrf (token : list byte) (now : Z)
| CallRevoke (token : list byte) (now : Z).
Definition call_instant (c : SessionCall) : Z :=
  match c with CallDraw now _ | CallAuthenticate _ now | CallCsrf _ now | CallRevoke _ now => now end.
(** Its positive answer, by the key of the session. *)
Inductive SessionEvent := EIssued (key : list byte) (at_ : Z) | EUsed (key : list byte) (at_ : Z) | ERevoked (key : list byte).

Definition opt_list {A} (b : bool) (a : A) : list A := if b then [a] else [].
Definition session_call `{Primitives} (s : SessionStore) (c : SessionCall) : SessionStore * list SessionEvent :=
  match c with
  | CallDraw now token =>
    let '(s', b) := issue_attempt s now token in (s', opt_list b (EIssued (derive_key s token) now))
  | CallAuthenticate token now =>
    let '(s', b) := authenticate s token now in (s', opt_list b (EUsed (derive_key s token) now))
  | CallCsrf token now =>
    let '(s', r) := csrf_credential s token now in
    (s', opt_list (bool_decide (is_Some r)) (EUsed (derive_key s token) now))
  | CallRevoke token now =>
    let '(s', b) := session_revoke s token now in (s', opt_list b (ERevoked (derive_key s token)))
  end.
(** The calls in order, and what happened, the latest first. *)
Fixpoint session_run `{Primitives} (s : SessionStore) (calls : list SessionCall) (events : list SessionEvent)
    : SessionStore * list SessionEvent :=
  match calls with
  | [] => (s, events)
  | c :: calls => let '(s, new) := session_call s c in session_run s calls (new ++ events)
  end.

(** The table after the calls that other requests make in the meantime. *)
Definition after_calls `{Primitives} (s : SessionStore) (calls : list SessionCall) : SessionStore :=
  (session_run s calls []).1.

(** * Requests *)

(** The values of a header that occur, in order; [None] for one that is no visible ASCII. *)
Definition single_header (values : list (option (list byte))) (max_bytes : Z) : option (list byte) :=
  match values with
  | [value] => value ← value; if blen value <=? max_bytes then Some value else None
  | _ => None
  end.
Definition same_origin `{UrlParser} (host origin : list (option (list byte))) (expected : WebOrigin) : bool :=
  match single_header host MAX_WEB_AUTHORITY_BYTES with
  | None => false
  | Some host =>
    matches_authority expected host &&
    match single_header origin MAX_ORIGIN_HEADER_BYTES with
    | None => false
    | Some origin => match origin_parse origin with Ok origin => bool_decide (origin = expected) | _ => false end
    end
  end.
Definition requires_no_store (path : list byte) : bool :=
  bool_decide (path ∈ [str "/"; str "/login"; str "/logout"; str "/api"]) || starts_with (str "/api/") path.

(** [is_form_request] and [is_json_request] by the media type they compare with. *)
Definition media_type_is (media_type : list byte) (content_type : list (option (list byte))) : bool :=
  match content_type with
  | [Some value] =>
    match Config.split_at x3b value with
    | m :: _ => bool_decide (to_ascii_lowercase (trim m) = media_type)
    | [] => false
    end
  | _ => false
  end.
Definition is_form_request (content_type : list (option (list byte))) : bool :=
  media_type_is (str "application/x-www-form-urlencoded") content_type.
Definition is_json_request (content_type : list (option (list byte))) : bool :=
  media_type_is (str "application/json") content_type.

Record RequestHeaders := {
  rh_cookie : list (option (list byte));
  rh_csrf : list (option (list byte));
  rh_host : list (option (list byte));
  rh_origin : list (option (list byte));
  rh_content_type : list (option (list byte));
  rh_content_length : list (option (list byte));
}.
Definition single_cookie_header (h : RequestHeaders) : option (list byte) := single_header (rh_cookie h) 1024.
Definition content_longer (h : RequestHeaders) (max : Z) : bool :=
  match rh_content_length h with
  | Some value :: _ => match from_str_radix u64_max 10 value with Some n => max <? n | None => false end
  | _ => false
  end.

(** [protect_management_writes]: which requests are guarded, and whether a guarded one passes.
    It locks the table twice; [between] are the calls of other requests in between. *)
Definition is_guarded (post : bool) (path : list byte) : bool :=
  post && (bool_decide (path = str "/api/v1/clients") || starts_with (str "/api/v1/clients/") path
           || starts_with (str "/api/v1/registration-requests/") path).
Inductive Protection := AuthenticationRequired | CsrfRejected | Passed.
Definition protect_write `{Primitives, Base64, UrlParser} (s : SessionStore) (expected : WebOrigin) (h : RequestHeaders)
    (now : Z) (between : list SessionCall) (now' : Z) : SessionStore * Protection :=
  let cookie := single_cookie_header h in
  let '(s, authenticated) := authenticate_cookie s cookie now in
  if negb authenticated then (s, AuthenticationRequired)
  else
    let csrf := match rh_csrf h with v :: _ => v | [] => None end in
    if (1 <? blen (rh_csrf h)) || negb (same_origin (rh_host h) (rh_origin h) expected) || negb (is_json_request (rh_content_type h))
    then (s, CsrfRejected)
    else
      match csrf with
      | None => (s, CsrfRejected)
      | Some csrf =>
        let '(s, valid) := validate_csrf (after_calls s between) cookie csrf now' in
        (s, if valid then Passed else CsrfRejected)
      end.

(** [login] and [logout].  What reading the body gives, within its time limit, is an argument. *)
Definition MAX_LOGIN_BODY_BYTES : Z := 1024.
Definition MAX_LOGOUT_BODY_BYTES : Z := 64.
Definition MAX_USERNAME_BYTES : Z := 64.
Definition MAX_PASSWORD_BYTES : Z := 256.

Record AuthenticationState := {
  as_credentials : CredentialDigests;
  as_sessions : SessionStore;
  as_limiter : LoginRateLimiter;
}.
Definition AuthenticationState_new `{Primitives} (username password : list byte) (l : WebRuntimeLimits)
    (random : option (list byte)) : res AuthenticationError AuthenticationState :=
  sessions ← SessionStore_new l random;
  Ok {| as_credentials := CredentialDigests_new username password; as_sessions := sessions;
        as_limiter := LoginRateLimiter_new l |}.
Definition with_limiter (st : AuthenticationState) (l : LoginRateLimiter) : AuthenticationState :=
  {| as_credentials := as_credentials st; as_sessions := as_sessions st; as_limiter := l |}.
Definition with_session_store (st : AuthenticationState) (s : SessionStore) : AuthenticationState :=
  {| as_credentials := as_credentials st; as_sessions := s; as_limiter := as_limiter st |}.

Inductive Body (A : Type) := BodyRead (a : A) | BodyInvalid | BodyTimedOut.
#[global] Arguments BodyRead {A} a.
#[global] Arguments BodyInvalid {A}.
#[global] Arguments BodyTimedOut {A}.
Record LoginForm := { lf_username : list byte; lf_password : list byte }.
Inductive WebResponse :=
| RejectedRequest
| RequestTimedOut
| AuthenticationFailed
| InternalError
| LoggedIn (set_cookie csrf : list byte)
| LoggedOut (set_cookie : list byte).

(** [HeaderValue::from_str], which accepts visible ASCII. *)
Class HeaderValues := { header_from_str : list byte → bool }.
Definition visible_ascii (b : byte) : bool := byte_in 32 126 b.
Class HeaderValuesLaws (V : HeaderValues) : Prop := {
  header_visible text : Forall (λ b, visible_ascii b = true) text → header_from_str text = true;
}.

Section responses.
Context {V : HeaderValues}.

(** [from_str(..).expect(..)]. *)
Definition header_value (text : list byte) : res AuthenticationError (list byte) :=
  if header_from_str text then Ok text else Panic.
Definition cookie_value (value : list byte) (secure : bool) (lifetime : list byte) : res AuthenticationError (list byte) :=
  header_value (SESSION_COOKIE_NAME ++ str "=" ++ value ++ str "; HttpOnly; SameSite=Strict; Path=/; " ++ lifetime
                ++ if secure then str "; Secure" else []).
Definition session_cookie (token : list byte) (secure : bool) : res AuthenticationError (list byte) :=
  cookie_value token secure (str "Max-Age=28800").
Definition expired_session_cookie (secure : bool) : res AuthenticationError (list byte) :=
  cookie_value [] secure (str "Max-Age=0").

End responses.

(** The clocks a login reads in turn, the generator, and the calls of other requests between
    the session's issue and its CSRF credential. *)
Record LoginReadings := {
  lr_admit : Z;
  lr_issue : Z;
  lr_entropy : nat → option (list byte);
  lr_between : list SessionCall;
  lr_csrf : Z;
}.
Definition grant_session `{Primitives, Base64, HeaderValues} (st : AuthenticationState) (secure : bool) (rd : LoginReadings)
    : AuthenticationState * res AuthenticationError WebResponse :=
  let '(s, issued) := session_issue (as_sessions st) (lr_issue rd) (lr_entropy rd) in
  match issued with
  | Ok token =>
    let '(s, csrf) := csrf_for_cookie (after_calls s (lr_between rd)) (Some (SESSION_COOKIE_NAME ++ str "=" ++ token)) (lr_csrf rd) in
    (with_session_store st s,
     match csrf with
     | None => Ok InternalError
     | Some csrf =>
       cookie ← session_cookie token secure;
       csrf ← header_value csrf;
       Ok (LoggedIn cookie csrf)
     end)
  | _ => (with_session_store st s, Ok InternalError)
  end.
Definition login `{Primitives, Base64, UrlParser, HeaderValues} (st : AuthenticationState) (expected : WebOrigin) (secure : bool)
    (peer : IpAddr) (h : RequestHeaders) (body : Body LoginForm) (rd : LoginReadings)
    : AuthenticationState * res AuthenticationError WebResponse :=
  if negb (same_origin (rh_host h) (rh_origin h) expected) || negb (is_form_request (rh_content_type h))
     || content_longer h MAX_LOGIN_BODY_BYTES
  then (st, Ok RejectedRequest)
  else
    match body with
    | BodyInvalid => (st, Ok RejectedRequest)
    | BodyTimedOut => (st, Ok RequestTimedOut)
    | BodyRead form =>
      let '(limiter, admitted) := admit_login (as_limiter st) peer (lr_admit rd) in
      let st := with_limiter st limiter in
      if negb admitted then (st, Ok AuthenticationFailed)
      else
        let lengths_valid := (blen (lf_username form) <=? MAX_USERNAME_BYTES)
                             && (blen (lf_password form) <=? MAX_PASSWORD_BYTES) in
        if negb (credentials_match (as_credentials st) (lf_username form) (lf_password form)) || negb lengths_valid
        then (st, Ok AuthenticationFailed)
        else grant_session st secure rd
    end.
Definition logout `{Primitives, Base64, UrlParser, HeaderValues} (st : AuthenticationState) (expected : WebOrigin) (secure : bool)
    (h : RequestHeaders) (body : Body (list byte)) (now : Z)
    : AuthenticationState * res AuthenticationError WebResponse :=
  if negb (same_origin (rh_host h) (rh_origin h) expected) || negb (is_form_request (rh_content_type h))
     || content_longer h MAX_LOGOUT_BODY_BYTES
  then (st, Ok RejectedRequest)
  else
    match body with
    | BodyInvalid => (st, Ok RejectedRequest)
    | BodyTimedOut => (st, Ok RequestTimedOut)
    | BodyRead bytes =>
      if negb (bool_decide (bytes = [])) then (st, Ok RejectedRequest)
      else
        let '(s, revoked) := revoke_cookie (as_sessions st) (single_cookie_header h) now in
        (with_session_store st s,
         if negb revoked then Ok AuthenticationFailed
         else cookie ← expired_session_cookie secure; Ok (LoggedOut cookie))
    end.

(** * What has happened to sessions *)

(** A session as its history has it: when it was issued and last used, if it was not revoked. *)
Fixpoint session_of_history (key : list byte) (events : list SessionEvent) : option (Z * Z) :=
  match events with
  | [] => None
  | EIssued k at_ :: events => if bool_decide (k = key) then Some (at_, at_) else session_of_history key events
  | EUsed k at_ :: events =>
    if bool_decide (k = key) then (λ x, (x.1, at_)) <$> session_of_history key events
    else session_of_history key events
  | ERevoked k :: events => if bool_decide (k = key) then None else session_of_history key events
  end.
Definition is_issue (e : SessionEvent) : bool := match e with EIssued _ _ => true | _ => false end.
Definition issued_count (events : list SessionEvent) : nat := length (filter (λ e, is_issue e = true) events).
(** Issued, not revoked since, and within both time limits. *)
Definition live_in_history (s : SessionStore) (events : list SessionEvent) (key : list byte) (now : Z) : Prop :=
  ∃ created last, session_of_history key events = Some (created, last) ∧
    duration_since now last < ss_idle_timeout s ∧ duration_since now created < ss_absolute_timeout s.

Section facts.
Context {P : Primitives}.
Implicit Types s : SessionStore.

Definition table_of (s : SessionStore) : gmap (list byte) WebSession := st_sessions (ss_table s).
Definition same_settings s s' : Prop :=
  ss_hmac_key s' = ss_hmac_key s ∧ ss_idle_timeout s' = ss_idle_timeout s ∧
  ss_absolute_timeout s' = ss_absolute_timeout s ∧ ss_capacity s' = ss_capacity s.
#[export] Instance same_settings_preorder : PreOrder same_settings.
Proof. split; [by repeat split|]. intros a b c (?&?&?&?) (?&?&?&?). repeat split; congruence. Qed.

Lemma sweep_lookup s now key :
  record_of (sweep s now) key
  = record_of s key ≫= λ r, if record_fresh now (ss_idle_timeout s) (ss_absolute_timeout s) r then Some r else None.
Proof.
  unfold record_of, sweep, remove_expired. simpl. rewrite map_lookup_filter.
  destruct (st_sessions (ss_table s) !! key) as [r|]; [|done]. simpl. case_guard; destruct (record_fresh _ _ _ r); done.
Qed.
Lemma sweep_Some s now key r : record_of (sweep s now) key = Some r ↔
  record_of s key = Some r ∧ record_fresh now (ss_idle_timeout s) (ss_absolute_timeout s) r = true.
Proof.
  rewrite sweep_lookup, bind_Some. split.
  - intros (r'&Hr'&H). destruct (record_fresh _ _ _ r') eqn:Hf; [|done]. by injection H as ->.
  - intros [Hr Hf]. exists r. by rewrite Hf.
Qed.
Lemma sweep_subseteq s now : table_of (sweep s now) ⊆ table_of s.
Proof. apply map_filter_subseteq. Qed.
Lemma sweep_settings s now : same_settings s (sweep s now).
Proof. by repeat split. Qed.

Lemma evict_subseteq t : st_sessions (evict_oldest t) ⊆ st_sessions t.
Proof. unfold evict_oldest. destruct (oldest _); [apply delete_subseteq|done]. Qed.
Lemma evict_other t k : oldest (st_sessions t) ≠ Some k → st_sessions (evict_oldest t) !! k = st_sessions t !! k.
Proof.
  unfold evict_oldest. destruct (oldest (st_sessions t)) as [k'|]; [|done]. intros Hne. simpl.
  apply lookup_delete_ne. congruence.
Qed.
Lemma oldest_Some m : m ≠ ∅ → ∃ key, oldest m = Some key ∧ is_Some (m !! key).
Proof.
  intros Hm. unfold oldest.
  assert (∀ l : list (list byte * WebSession), l ≠ [] → ∃ x, foldr (λ x best, match best with
    | Some y => if record_before y.2 x.2 then Some y else Some x | None => Some x end) None l = Some x ∧ x ∈ l) as Hfold.
  { induction l as [|x l IH]; [done|]. intros _. simpl. destruct l as [|y l]; [exists x; split; [done|by left]|].
    destruct (IH ltac:(done)) as (z&->&Hz). destruct (record_before z.2 x.2); [exists z|exists x]; split; try done; [by right|by left]. }
  destruct (Hfold (map_to_list m)) as ([key r]&->&Hin); [by rewrite map_to_list_empty_iff|].
  exists key. split; [done|]. apply elem_of_map_to_list in Hin. by eexists.
Qed.
Lemma evict_size t : 0 < Z.of_nat (size (st_sessions t)) →
  Z.of_nat (size (st_sessions (evict_oldest t))) = Z.of_nat (size (st_sessions t)) - 1.
Proof.
  intros Hpos. unfold evict_oldest. destruct (oldest_Some (st_sessions t)) as (key&->&r&Hr).
  { intros He. rewrite He, map_size_empty in Hpos. done. }
  simpl. rewrite map_size_delete, Hr. destruct (size (st_sessions t)); simpl in *; lia.
Qed.

(** What a call does to the table, by what it answers. *)
Inductive session_effect (now : Z) s s' : list SessionEvent → Prop :=
| eff_none : table_of (sweep s now) ⊆ table_of s' → table_of s' ⊆ table_of s → session_effect now s s' []
| eff_issue key r m :
    sr_created r = now → sr_last_activity r = now → table_of (sweep s now) !! key = None →
    m ⊆ table_of (sweep s now) →
    (Z.of_nat (size (table_of (sweep s now))) ≠ ss_capacity s → m = table_of (sweep s now)) →
    (0 < ss_capacity s → Z.of_nat (size (table_of (sweep s now))) ≤ ss_capacity s → Z.of_nat (size m) < ss_capacity s) →
    (∀ k, oldest (table_of (sweep s now)) ≠ Some k → m !! k = table_of (sweep s now) !! k) →
    table_of s' = <[key := r]> m → session_effect now s s' [EIssued key now]
| eff_use key r r' :
    table_of (sweep s now) !! key = Some r → sr_created r' = sr_created r → sr_last_activity r' = now →
    table_of s' = <[key := r']> (table_of (sweep s now)) → session_effect now s s' [EUsed key now]
| eff_revoke key :
    is_Some (table_of (sweep s now) !! key) → table_of s' = delete key (table_of (sweep s now)) →
    session_effect now s s' [ERevoked key].

Lemma call_effect s c s' new : session_call s c = (s', new) →
  same_settings s s' ∧ session_effect (call_instant c) s s' new.
Proof.
  destruct c as [now token|token now|token now|token now]; cbn [session_call call_instant].
  - unfold issue_attempt. cbv zeta.
    destruct (bool_decide (is_Some (record_of (sweep s now) (derive_key s token)))) eqn:Hin; intros H;
      injection H as <- <-; (split; [by repeat split|]).
    { by apply eff_none; [|apply sweep_subseteq]. }
    apply bool_decide_eq_false in Hin. rewrite <- eq_None_not_Some in Hin. cbn [opt_list].
    match goal with |- context [st_next_sequence ?t0] => set (t := t0) end.
    apply (eff_issue _ _ _ _ {| sr_created := now; sr_last_activity := now; sr_sequence := st_next_sequence t |}
             (st_sessions t)); try done; unfold t.
    + destruct (_ =? _); [apply evict_subseteq|done].
    + intros Hne. destruct (_ =? _) eqn:He; [|done]. apply Z.eqb_eq in He. by destruct Hne.
    + intros Hpos Hle. destruct (_ =? _) eqn:He.
      * apply Z.eqb_eq in He. change (Z.of_nat (size (table_of (sweep s now))) = ss_capacity s) in He.
        change (Z.of_nat (size (st_sessions (evict_oldest (ss_table (sweep s now))))) < ss_capacity s).
        rewrite evict_size; unfold table_of in *; lia.
      * apply Z.eqb_neq in He. change (Z.of_nat (size (table_of (sweep s now))) ≠ ss_capacity s) in He.
        change (Z.of_nat (size (table_of (sweep s now))) < ss_capacity s). lia.
    + intros k Hk. destruct (_ =? _); [by apply evict_other|done].
  - unfold authenticate. destruct (record_of (sweep s now) (derive_key s token)) as [r|] eqn:Hr; intros H; injection H as <- <-.
    + split; [by repeat split|].
      by apply (eff_use _ _ _ _ r {| sr_created := sr_created r; sr_last_activity := now; sr_sequence := sr_sequence r |}).
    + split; [apply sweep_settings|]. by apply eff_none; [|apply sweep_subseteq].
  - unfold csrf_credential. destruct (record_of (sweep s now) (derive_key s token)) as [r|] eqn:Hr; intros H; injection H as <- <-.
    + split; [by repeat split|].
      by apply (eff_use _ _ _ _ r {| sr_created := sr_created r; sr_last_activity := now; sr_sequence := sr_sequence r |}).
    + split; [apply sweep_settings|]. by apply eff_none; [|apply sweep_subseteq].
  - unfold session_revoke. cbv zeta. intros H; injection H as <- <-. split; [by repeat split|].
    destruct (bool_decide (is_Some (record_of (sweep s now) (derive_key s token)))) eqn:Hb.
    { apply bool_decide_eq_true in Hb. by apply eff_revoke. }
    apply bool_decide_eq_false in Hb. rewrite <- eq_None_not_Some in Hb. unfold record_of in Hb.
    apply eff_none; unfold table_of; simpl; rewrite delete_id by done; [done|apply sweep_subseteq].
Qed.

(** The table holds nothing but what its history has, and no more than fits. *)
Record table_ok s (events : list SessionEvent) : Prop := {
  to_history : ∀ key r, table_of s !! key = Some r →
    session_of_history key events = Some (sr_created r, sr_last_activity r);
  to_size : Z.of_nat (size (table_of s)) ≤ ss_capacity s;
  to_issued : (size (table_of s) ≤ issued_count events)%nat;
}.

Lemma table_ok_call s events c s' new : 0 < ss_capacity s → table_ok s events → session_call s c = (s', new) →
  table_ok s' (new ++ events).
Proof.
  intros Hcap [Hh Hs Hi] Hcall. apply call_effect in Hcall as [(_&_&_&Hcap') Heff].
  assert (size (table_of (sweep s (call_instant c))) ≤ size (table_of s))%nat as Hsweep by (apply map_subseteq_size, sweep_subseteq).
  assert (∀ key r, table_of (sweep s (call_instant c)) !! key = Some r → session_of_history key events = Some (sr_created r, sr_last_activity r)) as Hsw.
  { intros key r H. apply Hh. by eapply lookup_weaken; [|apply sweep_subseteq]. }
  destruct Heff as [Hlo Hup|key r m Hc Hl Hno Hm _ Hsize _ Htab|key r r' Hr Hc Hl Htab|key Hkey Htab].
  - split; simpl.
    + intros key r Hr. apply Hh. by eapply lookup_weaken.
    + rewrite Hcap'. pose proof (map_subseteq_size _ _ Hup). lia.
    + pose proof (map_subseteq_size _ _ Hup). lia.
  - assert (m !! key = None) as Hmk by (by eapply lookup_weaken_None).
    split; simpl; rewrite Htab.
    + intros k x [[<- <-]|[Hne Hx]]%lookup_insert_Some; [rewrite bool_decide_eq_true_2 by done; congruence|].
      rewrite bool_decide_eq_false_2 by done. apply Hsw. by eapply lookup_weaken.
    + rewrite map_size_insert_None, Hcap' by done. specialize (Hsize Hcap). lia.
    + rewrite map_size_insert_None by done. unfold issued_count. rewrite filter_cons_True by done. simpl.
      pose proof (map_subseteq_size _ _ Hm). unfold issued_count in Hi. lia.
  - assert (size (table_of s') = size (table_of (sweep s (call_instant c)))) as Hsz.
    { rewrite Htab. by apply map_size_insert_Some. }
    split; simpl.
    + rewrite Htab. intros k x [[<- <-]|[Hne Hx]]%lookup_insert_Some.
      * rewrite bool_decide_eq_true_2 by done. rewrite (Hsw _ _ Hr). simpl. congruence.
      * rewrite bool_decide_eq_false_2 by done. by apply Hsw.
    + rewrite Hcap'. lia.
    + unfold issued_count in *. rewrite filter_cons_False by done. lia.
  - assert (size (table_of s') ≤ size (table_of (sweep s (call_instant c))))%nat as Hsz.
    { rewrite Htab. apply map_subseteq_size, delete_subseteq. }
    split; simpl.
    + rewrite Htab. intros k x [Hne Hx]%lookup_delete_Some. rewrite bool_decide_eq_false_2 by done. by apply Hsw.
    + rewrite Hcap'. lia.
    + unfold issued_count in *. rewrite filter_cons_False by done. lia.
Qed.
Lemma table_ok_run s calls events s' events' : 0 < ss_capacity s → table_ok s events →
  session_run s calls events = (s', events') → table_ok s' events' ∧ same_settings s s'.
Proof.
  revert s events; induction calls as [|c calls IH]; intros s events Hcap Hok; simpl; [by intros [= <- <-]|].
  destruct (session_call s c) as [s1 new] eqn:Hc. intros Hrun.
  pose proof (table_ok_call _ _ _ _ _ Hcap Hok Hc) as Hok1. apply call_effect in Hc as [Hset _].
  apply IH in Hrun as [? ?]; [split; [done|by etrans]| |done]. by destruct Hset as (_&_&_&->).
Qed.
Lemma table_ok_empty s : table_of s = ∅ → 0 < ss_capacity s → table_ok s [].
Proof. intros He Hc. split; rewrite He; [by intros|rewrite map_size_empty; lia|by rewrite map_size_empty]. Qed.

(** A session that its history has is in the table as that says, or out of time. *)
Definition kept_key s (events : list SessionEvent) (last : Z) (key : list byte) : Prop :=
  ∀ x, session_of_history key events = Some x →
    (∃ r, table_of s !! key = Some r ∧ sr_created r = x.1 ∧ sr_last_activity r = x.2) ∨
    ss_idle_timeout s ≤ duration_since last x.2 ∨ ss_absolute_timeout s ≤ duration_since last x.1.
Definition kept s (events : list SessionEvent) (last : Z) : Prop := ∀ key, kept_key s events last key.
(** Conversely the table has nothing else under that key. *)
Definition sound_key s (events : list SessionEvent) (key : list byte) : Prop :=
  ∀ r, table_of s !! key = Some r → session_of_history key events = Some (sr_created r, sr_last_activity r).
(** The call does not issue a session that takes the place of this one: that happens to the
    session used longest ago when the table is full. *)
Definition spares s (key : list byte) (c : SessionCall) : Prop :=
  match (session_call s c).2 with
  | [EIssued _ now] =>
    Z.of_nat (size (table_of (sweep s now))) = ss_capacity s → oldest (table_of (sweep s now)) ≠ Some key
  | _ => True
  end.
Fixpoint spared s (key : list byte) (calls : list SessionCall) : Prop :=
  match calls with
  | [] => True
  | c :: calls => spares s key c ∧ spared (session_call s c).1 key calls
  end.

Lemma record_fresh_iff now idle absolute r : record_fresh now idle absolute r = true ↔
  duration_since now (sr_last_activity r) < idle ∧ duration_since now (sr_created r) < absolute.
Proof. unfold record_fresh. by rewrite andb_true_iff, !Z.ltb_lt. Qed.
Lemma kept_sweep s events last now key x : kept_key s events last key → last ≤ now → session_of_history key events = Some x →
  (∃ r, table_of (sweep s now) !! key = Some r ∧ sr_created r = x.1 ∧ sr_last_activity r = x.2) ∨
  ss_idle_timeout s ≤ duration_since now x.2 ∨ ss_absolute_timeout s ≤ duration_since now x.1.
Proof.
  intros Hk Hle [(r&Hr&Hc&Hl)|H]%Hk; [|right; unfold duration_since, saturating_sub in *; lia].
  destruct (record_fresh now (ss_idle_timeout s) (ss_absolute_timeout s) r) eqn:Hf.
  - left. exists r. split; [|done]. by apply sweep_Some.
  - right. rewrite <- Hc, <- Hl. apply andb_false_iff in Hf as [Hf%Z.ltb_ge|Hf%Z.ltb_ge]; by auto.
Qed.

Lemma issued_count_app new events : issued_count (new ++ events) = (issued_count new + issued_count events)%nat.
Proof. unfold issued_count. by rewrite filter_app, length_app. Qed.
Lemma sound_call s events c s' new key : sound_key s events key → session_call s c = (s', new) →
  sound_key s' (new ++ events) key.
Proof.
  intros Hs Hcall. apply call_effect in Hcall as [_ Heff]. set (now := call_instant c) in *.
  assert (∀ r, table_of (sweep s now) !! key = Some r → session_of_history key events = Some (sr_created r, sr_last_activity r)) as Hsw.
  { intros r H. apply Hs. by eapply lookup_weaken; [|apply sweep_subseteq]. }
  intros x. destruct Heff as [Hlo Hup|k r m Hc Hl Hno Hm _ _ _ Htab|k r r' Hr Hc Hl Htab|k _ Htab]; simpl.
  - intros Hx. apply Hs. by eapply lookup_weaken.
  - rewrite Htab. intros [[-> <-]|[Hne Hx]]%lookup_insert_Some; [rewrite bool_decide_eq_true_2 by done; congruence|].
    rewrite bool_decide_eq_false_2 by done. apply Hsw. by eapply lookup_weaken.
  - rewrite Htab. intros [[-> <-]|[Hne Hx]]%lookup_insert_Some.
    + rewrite bool_decide_eq_true_2 by done. rewrite (Hsw _ Hr). simpl. congruence.
    + rewrite bool_decide_eq_false_2 by done. by apply Hsw.
  - rewrite Htab. intros [Hne Hx]%lookup_delete_Some. rewrite bool_decide_eq_false_2 by done. by apply Hsw.
Qed.
Lemma kept_key_call s events last c s' new key : sound_key s events key → kept_key s events last key →
  last ≤ call_instant c → spares s key c → session_call s c = (s', new) →
  kept_key s' (new ++ events) (call_instant c) key.
Proof.
  intros Hs Hk Hle Hsp Hcall. unfold spares in Hsp. rewrite Hcall in Hsp. apply call_effect in Hcall as [(_&Hi&Ha&_) Heff].
  set (now := call_instant c) in *. unfold kept_key. rewrite Hi, Ha.
  pose proof (λ x, kept_sweep s events last now key x Hk Hle) as Hsw.
  destruct Heff as [Hlo Hup|k r m Hc Hl Hno _ Hm _ Hold Htab|k r r' Hr Hc Hl Htab|k _ Htab]; simpl in *; intros x.
  - intros [(r&Hr&Hx)|H]%Hsw; [left|by right]. exists r. split; [by eapply lookup_weaken|done].
  - assert (m !! key = table_of (sweep s now) !! key) as Hmk.
    { destruct (decide (Z.of_nat (size (table_of (sweep s now))) = ss_capacity s)) as [He|He]; [by apply Hold, Hsp|].
      by rewrite Hm. }
    rewrite Htab. destruct (decide (k = key)) as [->|Hne].
    + rewrite bool_decide_eq_true_2 by done. intros [= <-]. left. exists r. by rewrite lookup_insert_eq.
    + rewrite bool_decide_eq_false_2 by done. rewrite lookup_insert_ne, Hmk by done. apply Hsw.
  - rewrite Htab. destruct (decide (k = key)) as [->|Hne].
    + rewrite bool_decide_eq_true_2 by done. pose proof (lookup_weaken _ _ _ _ Hr (sweep_subseteq s now)) as Hr0.
      rewrite (Hs _ Hr0). intros [= <-]. left. exists r'. by rewrite lookup_insert_eq.
    + rewrite bool_decide_eq_false_2 by done. rewrite lookup_insert_ne by done. apply Hsw.
  - rewrite Htab. destruct (decide (k = key)) as [->|Hne]; [by rewrite bool_decide_eq_true_2|].
    rewrite bool_decide_eq_false_2 by done. rewrite lookup_delete_ne by done. apply Hsw.
Qed.
(** No session gives way while there is room for every one issued. *)
Lemma kept_call s events last c s' new : table_ok s events → kept s events last → last ≤ call_instant c →
  Z.of_nat (issued_count (new ++ events)) ≤ ss_capacity s → session_call s c = (s', new) →
  kept s' (new ++ events) (call_instant c).
Proof.
  intros Hok Hk Hle Hcount Hcall key. rewrite issued_count_app in Hcount.
  eapply (kept_key_call s); [by intros r; apply (to_history _ _ Hok)|apply Hk|exact Hle| |exact Hcall].
  unfold spares. rewrite Hcall. simpl. destruct new as [|[k now| |] [|]]; try done. intros Hfull.
  change (issued_count [EIssued k now]) with 1%nat in Hcount. pose proof (to_issued _ _ Hok).
  pose proof (map_subseteq_size _ _ (sweep_subseteq s now)). lia.
Qed.

Lemma run_grows s calls events s' events' : session_run s calls events = (s', events') → ∃ new, events' = new ++ events.
Proof.
  revert s events; induction calls as [|c calls IH]; intros s events; simpl; [intros [= _ <-]; by exists []|].
  destruct (session_call s c) as [s1 new]. intros [new' ->]%IH. exists (new' ++ new). by rewrite app_assoc.
Qed.
Lemma run_events calls : ∀ s events,
  session_run s calls events = (after_calls s calls, (session_run s calls []).2 ++ events).
Proof.
  unfold after_calls. induction calls as [|c calls IH]; intros s events; simpl; [done|].
  destruct (session_call s c) as [s1 new]. rewrite IH, (IH s1 (new ++ [])), app_nil_r. simpl. by rewrite app_assoc.
Qed.
Lemma run_settings calls : ∀ s, same_settings s (after_calls s calls).
Proof.
  unfold after_calls. induction calls as [|c calls IH]; intros s; simpl; [done|].
  destruct (session_call s c) as [s1 new] eqn:Hc. apply call_effect in Hc as [Hset _].
  rewrite run_events. simpl. etrans; [exact Hset|apply IH].
Qed.
Lemma sound_run calls key : ∀ s events, sound_key s events key →
  sound_key (after_calls s calls) (session_run s calls events).2 key.
Proof.
  induction calls as [|c calls IH]; intros s events Hs; simpl; [done|].
  destruct (session_call s c) as [s1 new] eqn:Hc. pose proof (sound_call _ _ _ _ _ _ Hs Hc) as Hs1.
  apply IH in Hs1. unfold after_calls in *. simpl. rewrite Hc. by rewrite (run_events calls s1 (new ++ [])).
Qed.
Lemma kept_key_run calls key now : ∀ s events last, sound_key s events key → kept_key s events last key →
  StronglySorted Z.le (last :: map call_instant calls ++ [now]) → spared s key calls →
  ∃ last', last' ≤ now ∧ kept_key (after_calls s calls) (session_run s calls events).2 last' key.
Proof.
  induction calls as [|c calls IH]; intros s events last Hs Hk Hsorted Hsp; simpl.
  { exists last. split; [|done]. apply StronglySorted_inv in Hsorted as [_ H]. exact (List.Forall_inv H). }
  apply StronglySorted_inv in Hsorted as [Hsorted Hle]. simpl in Hle. apply Forall_cons in Hle as [Hle _].
  destruct Hsp as [Hsp Hsps]. destruct (session_call s c) as [s1 new] eqn:Hc. simpl in Hsps.
  pose proof (sound_call _ _ _ _ _ _ Hs Hc) as Hs1. pose proof (kept_key_call _ _ _ _ _ _ _ Hs Hk Hle Hsp Hc) as Hk1.
  destruct (IH _ _ _ Hs1 Hk1 Hsorted Hsps) as (last'&Hl&H). exists last'. split; [done|].
  unfold after_calls in *. simpl. rewrite Hc. by rewrite (run_events calls s1 (new ++ [])).
Qed.
Lemma kept_later s events last now key : kept_key s events last key → last ≤ now → kept_key s events now key.
Proof.
  intros Hk Hle x Hx. destruct (Hk x Hx) as [?|H]; [by left|right]. unfold duration_since, saturating_sub in *. lia.
Qed.
Lemma spared_app calls1 calls2 key : ∀ s,
  spared s key (calls1 ++ calls2) ↔ spared s key calls1 ∧ spared (after_calls s calls1) key calls2.
Proof.
  unfold after_calls. induction calls1 as [|c calls1 IH]; intros s; simpl; [naive_solver|].
  destruct (session_call s c) as [s1 new] eqn:Hc. rewrite run_events. simpl. rewrite (IH s1). naive_solver.
Qed.
(** A session that is live by its history is there to be used. *)
Lemma kept_live s events last now key : kept_key s events last key → last ≤ now → live_in_history s events key now →
  is_Some (record_of (sweep s now) key).
Proof.
  intros Hk Hle (created&last'&Hx&Hi&Ha).
  destruct (kept_sweep _ _ _ now _ _ Hk Hle Hx) as [(r&Hr&_)|H]; [by exists r|]. simpl in H. lia.
Qed.
(** The tokens drawn by some calls. *)
Definition draws (calls : list SessionCall) : list (list byte) :=
  omap (λ c, match c with CallDraw _ token => Some token | _ => None end) calls.
Lemma draws_dom calls : ∀ s,
  dom (table_of (after_calls s calls)) ⊆ dom (table_of s) ∪ list_to_set (derive_key s <$> draws calls).
Proof.
  unfold after_calls. induction calls as [|c calls IH]; intros s; cbn [session_run]; [set_solver|].
  destruct (session_call s c) as [s1 new] eqn:Hc. rewrite run_events. cbn [fst].
  assert (draws (c :: calls) = draws [c] ++ draws calls) as -> by (unfold draws; by rewrite <- omap_app).
  rewrite fmap_app, list_to_set_app_L.
  pose proof Hc as [(Hkey&_) Heff]%call_effect. specialize (IH s1). fold (after_calls s1 calls) in IH.
  assert (derive_key s1 <$> draws calls = derive_key s <$> draws calls) as E
    by (apply list_fmap_ext; intros ? ? _; unfold derive_key; by rewrite Hkey).
  rewrite E in IH. pose proof (subseteq_dom _ _ (sweep_subseteq s (call_instant c))) as Hsw.
  assert (dom (table_of s1) ⊆ dom (table_of s) ∪ list_to_set (derive_key s <$> draws [c])) as Hs1.
  { inversion Heff as [Hlo Hup He|key r m _ _ _ Hm _ _ _ Htab He|key r r' Hr _ _ Htab He|key _ Htab He]; subst.
    - apply subseteq_dom in Hup. set_solver.
    - rewrite Htab, dom_insert. apply subseteq_dom in Hm.
      assert (draws [c] ≠ [] ∧ derive_key s <$> draws [c] = [key]) as [_ ->]; [|set_solver].
      destruct c as [now token|token now|token now|token now]; cbn [session_call] in Hc.
      + destruct (issue_attempt s now token) as [? []]; [|done]. by injection Hc as _ <-.
      + destruct (authenticate s token now) as [? []]; by injection Hc as _ ?.
      + destruct (csrf_credential s token now) as [? []]; simpl in Hc; by injection Hc as _ ?.
      + destruct (session_revoke s token now) as [? []]; by injection Hc as _ ?.
    - rewrite Htab, dom_insert. apply elem_of_dom_2 in Hr. set_solver.
    - rewrite Htab, dom_delete. set_solver. }
  set_solver.
Qed.
Lemma run_app calls1 calls2 : ∀ s events, session_run s (calls1 ++ calls2) events
  = let '(s', events') := session_run s calls1 events in session_run s' calls2 events'.
Proof.
  induction calls1 as [|c calls1 IH]; intros s events; simpl; [done|].
  destruct (session_call s c) as [s1 new]. apply IH.
Qed.
Lemma kept_run s calls events last now s' events' : 0 < ss_capacity s → table_ok s events → kept s events last →
  StronglySorted Z.le (last :: map call_instant calls ++ [now]) → Z.of_nat (issued_count events') ≤ ss_capacity s →
  session_run s calls events = (s', events') → ∃ last', last' ≤ now ∧ kept s' events' last'.
Proof.
  revert s events last; induction calls as [|c calls IH]; intros s events last Hcap Hok Hk Hsorted Hcount; simpl.
  { intros [= <- <-]. exists last. split; [|done]. apply StronglySorted_inv in Hsorted as [_ H]. exact (List.Forall_inv H). }
  apply StronglySorted_inv in Hsorted as [Hsorted Hle]. simpl in Hle. apply Forall_cons in Hle as [Hle _].
  destruct (session_call s c) as [s1 new] eqn:Hc. intros Hrun. destruct (run_grows _ _ _ _ _ Hrun) as [new' ->].
  pose proof (table_ok_call _ _ _ _ _ Hcap Hok Hc) as Hok1. rewrite issued_count_app in Hcount.
  assert (kept s1 (new ++ events) (call_instant c)) as Hk1 by (eapply kept_call; try done; lia).
  apply call_effect in Hc as [(_&_&_&Hcap1) _]. eapply (IH s1); try done; rewrite Hcap1; [done|].
  rewrite issued_count_app. lia.
Qed.

Lemma authenticate_iff s token now :
  (authenticate s token now).2 = true ↔ is_Some (table_of (sweep s now) !! derive_key s token).
Proof.
  unfold authenticate. change (table_of (sweep s now) !! derive_key s token) with (record_of (sweep s now) (derive_key s token)).
  destruct (record_of (sweep s now) (derive_key s token)); simpl; split; try done; by intros [].
Qed.

Lemma run_accepts s0 calls s events : table_of s0 = ∅ → 0 < ss_capacity s0 → session_run s0 calls [] = (s, events) →
  same_settings s0 s ∧ ∀ token now, (authenticate s token now).2 = true → live_in_history s0 events (derive_key s0 token) now.
Proof.
  intros He Hcap Hrun. destruct (table_ok_run _ _ _ _ _ Hcap (table_ok_empty _ He Hcap) Hrun) as [[Hh _ _] Hset].
  split; [done|]. destruct Hset as (Hkey&Hi&Ha&_). intros token now. rewrite authenticate_iff. unfold derive_key, live_in_history.
  rewrite Hkey. intros [r [Hr Hf]%sweep_Some]. apply record_fresh_iff in Hf. rewrite Hi, Ha in Hf.
  exists (sr_created r), (sr_last_activity r). split; [by apply Hh|done].
Qed.

(** C37: The sessions of the dashboard, whatever requests it has served and however their
    accesses to the table interleave: there are never more than its capacity; a token is
    accepted only if it was issued, has not been revoked since and is within the idle and the
    absolute time limit; and conversely every such token is accepted, as long as the clock does
    not go back and no more sessions were issued than the table holds. *)
Theorem sessions_exact s0 calls s events : table_of s0 = ∅ → 0 < ss_capacity s0 →
  session_run s0 calls [] = (s, events) →
  Z.of_nat (size (table_of s)) ≤ ss_capacity s0 ∧
  (∀ token now, (authenticate s token now).2 = true → live_in_history s0 events (derive_key s0 token) now) ∧
  (∀ token now, StronglySorted Z.le (map call_instant calls ++ [now]) →
     Z.of_nat (issued_count events) ≤ ss_capacity s0 → live_in_history s0 events (derive_key s0 token) now →
     (authenticate s token now).2 = true).
Proof.
  intros He Hcap Hrun. pose proof (table_ok_empty _ He Hcap) as Hok0.
  destruct (run_accepts _ _ _ _ He Hcap Hrun) as [_ Hlive].
  destruct (table_ok_run _ _ _ _ _ Hcap Hok0 Hrun) as [[Hh Hs _] Hset].
  destruct Hset as (Hkey&Hi&Ha&Hc). split; [lia|]. split; [exact Hlive|]. intros token now Hsorted Hcount (created&last&Hx&Hidle&Habs).
  rewrite authenticate_iff. unfold derive_key. rewrite Hkey. fold (derive_key s0 token).
  destruct calls as [|c calls]; [by injection Hrun as <- <-|].
  destruct (kept_run s0 (c :: calls) [] (call_instant c) now s events Hcap Hok0) as (last'&Hle&Hk); try done.
  { simpl in *. apply StronglySorted_inv in Hsorted as [H1 H2]. by repeat constructor. }
  destruct (kept_sweep _ _ _ now _ _ (Hk _) Hle Hx) as [(r&Hr&_)|H]; [by eexists|]. simpl in H. rewrite Hi, Ha in H. lia.
Qed.
End facts.

(** * Logins *)

(** Attempts in order and those admitted, by the address the limiter counts them under. *)
Fixpoint login_run (l : LoginRateLimiter) (calls : list (IpAddr * Z)) (admitted : list (IpAddr * Z))
    : LoginRateLimiter * list (IpAddr * Z) :=
  match calls with
  | [] => (l, admitted)
  | (peer, now) :: calls =>
    let '(l, b) := admit_login l peer now in login_run l calls (admitted ++ opt_list b (canonical_ip peer, now))
  end.
Definition recent (window now : Z) (admitted : list (IpAddr * Z)) : list (IpAddr * Z) :=
  filter (λ x, duration_since now x.2 < window) admitted.
Definition from_peer (p : IpAddr) (admitted : list (IpAddr * Z)) : list (IpAddr * Z) := filter (λ x, x.1 = p) admitted.
Definition peers_of (admitted : list (IpAddr * Z)) : gset IpAddr := list_to_set admitted.*1.
(** Those within an interval of one window. *)
Definition in_window (a window : Z) (admitted : list (IpAddr * Z)) : list (IpAddr * Z) :=
  filter (λ x, a ≤ x.2 < a + window) admitted.
(** May another login be admitted? *)
Definition login_room (l : WebRuntimeLimits) (admitted : list (IpAddr * Z)) (p : IpAddr) (now : Z) : Prop :=
  let last := recent (login_window l) now admitted in
  blen last < max_global_login_attempts l ∧ blen (from_peer p last) < max_login_attempts_per_peer l ∧
  (p ∈ peers_of last ∨ Z.of_nat (size (peers_of last)) < max_tracked_login_peers l).

Definition earlier (a b : IpAddr * Z) : Prop := a.2 ≤ b.2.
Lemma recent_recent w last now h : last ≤ now → recent w now (recent w last h) = recent w now h.
Proof.
  intros Hle. apply list_filter_filter_l. intros [p t]. simpl. unfold duration_since, saturating_sub. lia.
Qed.
Lemma from_peer_recent w p now h : from_peer p (recent w now h) = recent w now (from_peer p h).
Proof. unfold from_peer, recent. rewrite !list_filter_filter. apply list_filter_iff. naive_solver. Qed.
Lemma earlier_filter (Q : IpAddr * Z → Prop) `{∀ x, Decision (Q x)} h :
  StronglySorted earlier h → StronglySorted earlier (filter Q h).
Proof.
  induction 1 as [|x l _ IH Hx]; [constructor|]. rewrite filter_cons. destruct (decide _); [|done].
  constructor; [done|]. rewrite Forall_forall in *. intros y [_ Hy]%list_elem_of_filter. by apply Hx.
Qed.
Lemma filter_all (Q : IpAddr * Z → Prop) `{∀ x, Decision (Q x)} h : Forall Q h → filter Q h = h.
Proof. induction 1; [done|]. rewrite filter_cons_True by done. by f_equal. Qed.
Lemma prune_recent w now h : StronglySorted earlier h → prune_attempts h.*2 now w = (recent w now h).*2.
Proof.
  induction 1 as [|[p t] l _ IH Hx]; [done|]. simpl. unfold recent. destruct (Z.leb_spec w (duration_since now t)) as [Hle|Hlt].
  - rewrite filter_cons_False by (simpl; lia). exact IH.
  - rewrite filter_cons_True by done. simpl. do 2 f_equal. symmetry. apply filter_all.
    eapply Forall_impl; [exact Hx|]. intros [p' t']. unfold earlier. simpl. unfold duration_since, saturating_sub in *. lia.
Qed.

Definition attempts_of (h : list (IpAddr * Z)) : option (list Z) := match h.*2 with [] => None | a => Some a end.
Record limiter_ok (limits : WebRuntimeLimits) (l : LoginRateLimiter) (last : Z) (h : list (IpAddr * Z)) : Prop := {
  lo_settings : ll_window l = login_window limits ∧ ll_per_peer_limit l = max_login_attempts_per_peer limits ∧
                ll_global_limit l = max_global_login_attempts limits ∧ ll_max_peers l = max_tracked_login_peers limits;
  lo_sorted : StronglySorted earlier h;
  lo_past : Forall (λ x, x.2 ≤ last) h;
  lo_global : ll_global l = (recent (login_window limits) last h).*2;
  lo_peers p : ll_peers l !! p = attempts_of (from_peer p (recent (login_window limits) last h));
}.

Lemma pruned_ok limits l last now h : limiter_ok limits l last h → last ≤ now → limiter_ok limits (pruned l now) now h.
Proof.
  intros [(Hw&Hset) Hs Hp Hg Hpeers] Hle. unfold pruned. split; simpl.
  - by rewrite Hw.
  - done.
  - eapply Forall_impl; [exact Hp|]. simpl. lia.
  - rewrite Hw, Hg, prune_recent, recent_recent; try done.
    by apply earlier_filter.
  - intros p. rewrite lookup_omap, Hpeers, Hw, !from_peer_recent. unfold attempts_of.
    set (hp := from_peer p h). assert (StronglySorted earlier (recent (login_window limits) last hp)) as Hsp by (by do 2 apply earlier_filter).
    rewrite <- (recent_recent _ last now hp Hle), <- (prune_recent _ now _ Hsp).
    destruct (recent (login_window limits) last hp).*2 as [|a r]; [done|].
    match goal with |- Some (a :: r) ≫= ?f = ?y => change (f (a :: r) = y) end. cbv beta zeta.
    by destruct (prune_attempts (a :: r) now (login_window limits)).
Qed.

Lemma elem_of_from_peer x p h : x ∈ from_peer p h ↔ x.1 = p ∧ x ∈ h.
Proof. unfold from_peer. by rewrite list_elem_of_filter. Qed.
Lemma dom_peers limits l last h : limiter_ok limits l last h →
  dom (ll_peers l) = peers_of (recent (login_window limits) last h).
Proof.
  intros [_ _ _ _ Hpeers]. apply set_eq. intros p. rewrite elem_of_dom, Hpeers. unfold peers_of.
  rewrite elem_of_list_to_set, list_elem_of_fmap. unfold attempts_of. set (r := recent _ last h). split.
  - destruct (from_peer p r) as [|x t] eqn:He; [intros [? [=]]|]. intros _.
    assert (x ∈ from_peer p r) as [? ?]%elem_of_from_peer by (rewrite He; by left). by exists x.
  - intros (x&->&Hx). assert (x ∈ from_peer x.1 r) as Hin by (by apply elem_of_from_peer).
    destruct (from_peer x.1 r) as [|y t]; [by apply not_elem_of_nil in Hin|]. by eexists.
Qed.
Lemma attempts_length h (limit : Z) : 0 < limit →
  match attempts_of h with Some a => limit <=? blen a | None => false end = false ↔ blen h < limit.
Proof.
  intros Hl. unfold attempts_of, blen. rewrite <- (length_fmap snd h). destruct h.*2 as [|a t]; [simpl; lia|].
  by rewrite Z.leb_gt.
Qed.
Lemma attempts_None h : attempts_of h = None ↔ h = [].
Proof. unfold attempts_of. by destruct h. Qed.
Lemma from_peer_nil p h : from_peer p h = [] ↔ p ∉ peers_of h.
Proof.
  unfold peers_of. rewrite elem_of_list_to_set, list_elem_of_fmap. split.
  - intros He (x&->&Hx). assert (x ∈ from_peer x.1 h) as Hin by (by apply elem_of_from_peer). rewrite He in Hin. by apply not_elem_of_nil in Hin.
  - intros Hno. destruct (from_peer p h) as [|x t] eqn:He; [done|]. destruct Hno.
    assert (x ∈ from_peer p h) as [Hx ?]%elem_of_from_peer by (rewrite He; by left). by exists x.
Qed.

Lemma recent_now w now h x : 0 < w → recent w now (h ++ [(x, now)]) = recent w now h ++ [(x, now)].
Proof.
  intros Hw. unfold recent. rewrite filter_app, filter_singleton_True; try done. unfold duration_since, saturating_sub. simpl. lia.
Qed.
Lemma sorted_snoc h x : StronglySorted earlier h → Forall (λ y, y.2 ≤ x.2) h → StronglySorted earlier (h ++ [x]).
Proof.
  intros Hs Hx. apply StronglySorted_app. split; [|split; [done|by repeat constructor]].
  intros a b Ha Hb%list_elem_of_singleton. subst b. rewrite Forall_forall in Hx. by apply Hx.
Qed.

(** One attempt: the answer is whether there is room, and then it is counted. *)
Lemma admit_step limits l last h peer now l' b :
  0 < login_window limits → 0 < max_login_attempts_per_peer limits → limiter_ok limits l last h → last ≤ now →
  Z.of_nat (size (ll_peers l)) ≤ max_tracked_login_peers limits → admit_login l peer now = (l', b) →
  limiter_ok limits l' now (h ++ opt_list b (canonical_ip peer, now)) ∧
  Z.of_nat (size (ll_peers l')) ≤ max_tracked_login_peers limits ∧
  (b = true ↔ login_room limits h (canonical_ip peer) now).
Proof.
  intros Hw Hpp Hok Hle Hsize. unfold admit_login, login_admit. generalize (canonical_ip peer) as p. intros p.
  assert (Z.of_nat (size (ll_peers (pruned l now))) ≤ max_tracked_login_peers limits) as Hsize1.
  { etrans; [|exact Hsize]. apply inj_le. rewrite <- !size_dom. apply subseteq_size. intros q. rewrite !elem_of_dom. simpl.
    rewrite lookup_omap. intros [y Hy]. apply bind_Some in Hy as (a&Ha&_). by exists a. }
  pose proof (pruned_ok _ _ _ _ _ Hok Hle) as Hok1. clear Hok Hsize. revert Hok1 Hsize1.
  generalize (pruned l now) as k. intros k Hok Hsize. pose proof (dom_peers _ _ _ _ Hok) as Hdom.
  destruct Hok as [(Hkw&Hkp&Hkg&Hkm) Hs Hpast Hg Hpeers]. unfold login_room. cbv zeta.
  set (r := recent (login_window limits) now h) in *.
  assert (limiter_ok limits k now h) as Hok by (by split).
  assert (blen (ll_global k) = blen r) as -> by (unfold blen; by rewrite Hg, length_fmap).
  rewrite <- size_dom, Hdom in Hsize |- *. rewrite Hkg, Hkm.
  destruct (Z.leb_spec (max_global_login_attempts limits) (blen r)) as [Hfull|Hroom].
  { intros [= <- <-]. cbn [opt_list]. rewrite app_nil_r, <- size_dom, Hdom. split_and!; try done. split; [done|lia]. }
  pose proof (attempts_length (from_peer p r) _ Hpp) as Hlen. rewrite Hpeers, Hkp.
  destruct (match attempts_of (from_peer p r) with Some _ => _ | None => _ end) eqn:Hmany.
  { intros [= <- <-]. cbn [opt_list]. rewrite app_nil_r, <- size_dom, Hdom. split_and!; try done.
    split; [done|]. intros (_&H&_). by apply Hlen in H. }
  destruct (bool_decide (attempts_of (from_peer p r) = None) && (Z.of_nat (size (peers_of r)) =? max_tracked_login_peers limits)) eqn:Hnew.
  { apply andb_true_iff in Hnew as [Hnew%bool_decide_eq_true He%Z.eqb_eq]. apply attempts_None, from_peer_nil in Hnew.
    intros [= <- <-]. cbn [opt_list]. rewrite app_nil_r, <- size_dom, Hdom. split_and!; try done.
    split; [done|]. intros (_&_&[?|?]); [done|lia]. }
  intros [= <- <-]. cbn [opt_list].
  assert (p ∈ peers_of r ∨ Z.of_nat (size (peers_of r)) < max_tracked_login_peers limits) as Hp.
  { apply andb_false_iff in Hnew as [Hin|Hne].
    - left. apply bool_decide_eq_false in Hin. rewrite attempts_None, from_peer_nil in Hin. by apply dec_stable.
    - apply Z.eqb_neq in Hne. right. lia. }
  assert (limiter_ok limits (with_attempts k (ll_global k ++ [now]) (<[p := default [] (attempts_of (from_peer p r)) ++ [now]]> (ll_peers k)))
            now (h ++ [(p, now)])) as Hok'.
  { split; simpl; [done|by apply sorted_snoc| | |].
    - apply Forall_app. split; [done|]. by repeat constructor.
    - rewrite recent_now, fmap_app by done. by rewrite Hg.
    - intros q. rewrite recent_now by done. unfold from_peer. rewrite filter_app. destruct (decide (p = q)) as [->|Hne].
      + rewrite lookup_insert_eq. rewrite (filter_singleton_True _ (q, now) [] (eq_refl : (q, now).1 = q)). unfold attempts_of. fold r (from_peer q r).
        rewrite fmap_app. simpl. by destruct (from_peer q r).*2.
      + rewrite lookup_insert_ne by done. rewrite (filter_singleton_False _ (p, now) []), app_nil_r by done. apply Hpeers. }
  split; [done|]. split.
  - rewrite <- size_dom, (dom_peers _ _ _ _ Hok'), recent_now by done. unfold peers_of. rewrite fmap_app, list_to_set_app_L.
    fold r (peers_of r). simpl. rewrite union_empty_r_L. destruct (decide (p ∈ peers_of r)) as [Hin|Hno].
    + by rewrite (union_comm_L), subseteq_union_1_L by set_solver.
    + rewrite size_union, size_singleton by set_solver. destruct Hp; [done|lia].
  - split; [|done]. intros _. split; [done|]. split; [by apply Hlen|done].
Qed.

(** No window holds more than the limits. *)
Definition rates_ok (limits : WebRuntimeLimits) (h : list (IpAddr * Z)) : Prop :=
  ∀ a, blen (in_window a (login_window limits) h) ≤ max_global_login_attempts limits ∧
       ∀ p, blen (in_window a (login_window limits) (from_peer p h)) ≤ max_login_attempts_per_peer limits.
Lemma in_window_recent a w now h : a ≤ now < a + w → blen (in_window a w h) ≤ blen (recent w now h).
Proof.
  intros Ha. unfold blen, in_window, recent. apply inj_le. induction h as [|x h IH]; [done|]. rewrite !filter_cons.
  destruct (decide (a ≤ x.2 < a + w)) as [Hx|]; [rewrite decide_True|destruct (decide _); simpl; lia].
  - simpl. lia.
  - unfold duration_since, saturating_sub. lia.
Qed.
Lemma in_window_snoc a w now p h (limit : Z) : blen (in_window a w h) ≤ limit → blen (recent w now h) < limit →
  blen (in_window a w (h ++ [(p, now)])) ≤ limit.
Proof.
  intros Hle Hlt. destruct (decide (a ≤ now < a + w)) as [Hin|Hno].
  - pose proof (in_window_recent a w now h Hin). unfold in_window, blen in *. rewrite filter_app, length_app.
    pose proof (length_filter (λ x, a ≤ x.2 < a + w) [(p, now)]). simpl in *. lia.
  - unfold in_window in *. rewrite filter_app, (filter_singleton_False _ (p, now) []), app_nil_r by done. done.
Qed.
Lemma rates_step limits h p now : rates_ok limits h → login_room limits h p now → rates_ok limits (h ++ [(p, now)]).
Proof.
  intros Hr (Hg&Hp&_) a. destruct (Hr a) as [Hga Hpa]. split; [by apply in_window_snoc|]. intros q. unfold from_peer.
  rewrite filter_app. destruct (decide (p = q)) as [->|Hne].
  - rewrite (filter_singleton_True _ (q, now) [] (eq_refl : (q, now).1 = q)). apply in_window_snoc; [apply Hpa|].
    by rewrite from_peer_recent in Hp.
  - rewrite (filter_singleton_False _ (p, now) []), app_nil_r by done. apply Hpa.
Qed.

Lemma run_limiter limits calls l last h now l' h' :
  0 < login_window limits → 0 < max_login_attempts_per_peer limits → limiter_ok limits l last h → rates_ok limits h →
  Z.of_nat (size (ll_peers l)) ≤ max_tracked_login_peers limits →
  StronglySorted Z.le (last :: map snd calls ++ [now]) → login_run l calls h = (l', h') →
  ∃ last', last' ≤ now ∧ limiter_ok limits l' last' h' ∧ rates_ok limits h' ∧
    Z.of_nat (size (ll_peers l')) ≤ max_tracked_login_peers limits.
Proof.
  intros Hw Hpp. revert l last h; induction calls as [|[peer t] calls IH]; intros l last h Hok Hr Hsize Hsorted; simpl.
  { intros [= <- <-]. exists last. split; [|done]. apply StronglySorted_inv in Hsorted as [_ H]. exact (List.Forall_inv H). }
  apply StronglySorted_inv in Hsorted as [Hsorted Hle]. pose proof (List.Forall_inv Hle) as Ht. simpl in Ht.
  destruct (admit_login l peer t) as [l1 b] eqn:Ha. intros Hrun.
  destruct (admit_step _ _ _ _ _ _ _ _ Hw Hpp Hok Ht Hsize Ha) as (Hok1&Hsize1&Hb).
  eapply (IH l1 t); try done. destruct b; [|by rewrite app_nil_r]. apply rates_step; [done|by apply Hb].
Qed.

Lemma validated_positive limits start : limits_validate limits start = true →
  login_window limits ≠ 0 ∧ max_login_attempts_per_peer limits ≠ 0.
Proof.
  unfold limits_validate, out_of_range. rewrite negb_true_iff, !orb_false_iff, !Z.eqb_neq. naive_solver.
Qed.
(** [usize] and [Duration] are not negative. *)
Record limits_typed (l : WebRuntimeLimits) : Prop := {
  lt_window : 0 ≤ login_window l;
  lt_per_peer : 0 ≤ max_login_attempts_per_peer l;
  lt_global : 0 ≤ max_global_login_attempts l;
  lt_peers : 0 ≤ max_tracked_login_peers l;
}.

(** C38: The login limiter, whatever attempts have been made: no interval of one login window
    holds more admitted logins than the global limit, or more of one address (an IPv4 address
    and its IPv6 form are one) than the limit per peer; it keeps no more addresses than it may
    track; and an attempt is admitted exactly when the last window has room for it: below both
    limits, by an address of that window or with a place free for another. *)
Theorem login_attempts_bounded limits start calls peer now l h :
  limits_validate limits start = true → limits_typed limits →
  login_run (LoginRateLimiter_new limits) calls [] = (l, h) → StronglySorted Z.le (map snd calls ++ [now]) →
  (∀ a, blen (in_window a (login_window limits) h) ≤ max_global_login_attempts limits ∧
        ∀ p, blen (in_window a (login_window limits) (from_peer p h)) ≤ max_login_attempts_per_peer limits) ∧
  Z.of_nat (size (ll_peers l)) ≤ max_tracked_login_peers limits ∧
  ((admit_login l peer now).2 = true ↔ login_room limits h (canonical_ip peer) now).
Proof.
  intros [Hw Hpp]%validated_positive [Hw0 Hpp0 Hg0 Hm0] Hrun Hsorted.
  assert (∀ last, limiter_ok limits (LoginRateLimiter_new limits) last []) as H0 by (intros; split; simpl; try done; constructor).
  assert (rates_ok limits []) as Hr0 by (by intros a).
  set (first := match calls with [] => now | c :: _ => c.2 end).
  destruct (run_limiter limits calls (LoginRateLimiter_new limits) first [] now l h) as (last&Hle&Hok&Hr&Hsize);
    [lia|lia|done|done|done| |done|].
  { unfold first. destruct calls as [|c calls]; [by repeat constructor|]. simpl in *.
    apply StronglySorted_inv in Hsorted as [? ?]. by repeat constructor. }
  split; [exact Hr|]. split; [done|]. destruct (admit_login l peer now) as [l' b] eqn:Ha.
  by apply (admit_step limits l last h peer now l' b); [lia|lia|..].
Qed.

(** * What a login opens *)

Section requests.
Context {P : Primitives} {B : Base64} {U : UrlParser} {V : HeaderValues}.
Implicit Types s : SessionStore.

Definition cookie_text (text : list byte) : list byte := SESSION_COOKIE_NAME ++ str "=" ++ text.

Lemma split_at_none (sep : byte) (text : list byte) : sep ∉ text → text ≠ [] → Config.split_at sep text = [text].
Proof.
  induction text as [|b text IH]; [done|]. intros [Hb Hin]%not_elem_of_cons _. simpl. rewrite decide_False by done.
  destruct text as [|c text]; [done|]. by rewrite IH.
Qed.
Lemma url_safe_plain c : url_safe_char c = true → c ≠ x3b ∧ c ≠ x3d ∧ 33 ≤ byte_val c ≤ 126.
Proof. destruct c; vm_compute; intros H; (try discriminate H); repeat split; done. Qed.
Lemma parse_cookie text token : Forall (λ c, url_safe_char c = true) text →
  parse_session_cookie (cookie_text text) = Some token → url_safe_decode text = Some token ∧ blen (cookie_text text) ≤ 1024.
Proof.
  intros Htext. unfold parse_session_cookie. destruct (Z.ltb_spec MAX_COOKIE_HEADER_BYTES (blen (cookie_text text))) as [|Hlen]; [done|].
  assert (Forall (λ c, c ≠ x3b ∧ 33 ≤ byte_val c ≤ 126) (cookie_text text)) as Hplain.
  { unfold cookie_text. repeat (apply Forall_app; split); [by repeat constructor..|].
    eapply Forall_impl; [exact Htext|]. intros c (?&_&?)%url_safe_plain. done. }
  rewrite split_at_none; [| |done].
  2:{ rewrite Forall_forall in Hplain. by intros [? _]%Hplain. }
  cbn [session_values]. rewrite trim_ascii_id.
  - change (cookie_text text) with (SESSION_COOKIE_NAME ++ x3d :: text).
    rewrite split_once_app by (by apply (bool_decide_unpack (x3d ∉ SESSION_COOKIE_NAME))). simpl.
    destruct (_ =? _); [|done]. simpl. destruct (url_safe_decode text) as [d|]; [|done]. simpl.
    destruct (_ =? _); [|done]. by intros [= ->].
  - unfold is_ascii. apply List.forallb_forall. intros b Hb%list_elem_of_In. rewrite Forall_forall in Hplain.
    destruct (Hplain b Hb) as [_ ?]. unfold byte_in. rewrite andb_true_iff, !Z.leb_le. lia.
  - eapply Forall_impl; [exact Hplain|]. intros b [_ ?]. unfold is_whitespace. simpl. lia.
Qed.

Lemma issue_Ok s now entropy s' text : session_issue s now entropy = (s', Ok text) → ∃ token r,
  text = url_safe_encode token ∧ same_settings s s' ∧ record_of s' (derive_key s token) = Some r ∧
  sr_created r = now ∧ sr_last_activity r = now.
Proof.
  unfold session_issue. generalize 4%nat as n. intros n. generalize 0%nat as i. revert s.
  induction n as [|n IH]; intros s i; [done|].
  simpl. destruct (entropy i) as [token|]; [|done]. destruct (issue_attempt s now token) as [s1 b] eqn:Ha.
  pose proof (call_effect s (CallDraw now token) s1 (opt_list b (EIssued (derive_key s token) now))
    ltac:(cbn [session_call]; by rewrite Ha)) as [Hset Heff]. destruct b; cbn [opt_list] in Heff.
  - intros [= -> <-]. inversion Heff as [|key r m Hc Hl _ _ _ _ _ Htab| |]; subst. exists token, r.
    split; [done|]. split; [done|]. split; [|done]. unfold record_of, table_of in *. by rewrite Htab, lookup_insert_eq.
  - intros (token'&r&Htext&Hset'&Hr)%IH. exists token', r. split; [done|]. split; [by etrans|].
    destruct Hset as (Hkey&_). unfold derive_key in *. by rewrite Hkey in Hr.
Qed.
Definition used (r : WebSession) (now : Z) : WebSession :=
  {| sr_created := sr_created r; sr_last_activity := now; sr_sequence := sr_sequence r |}.
Lemma touch_lookup s key now r : record_of (touch s key now r) key = Some (used r now).
Proof. unfold record_of, touch. simpl. apply lookup_insert_eq. Qed.
Lemma csrf_Some s token now s' c : csrf_credential s token now = (s', Some c) →
  c = hmac_sha256 (ss_hmac_key s) (CSRF_DOMAIN ++ token) ∧ same_settings s s' ∧ ∃ r,
    record_of s (derive_key s token) = Some r ∧ record_of s' (derive_key s token) = Some (used r now).
Proof.
  unfold csrf_credential. destruct (record_of (sweep s now) (derive_key s token)) as [r|] eqn:Hr; [|done]. intros H.
  injection H as <- <-. split; [done|]. split; [by repeat split|]. exists r. apply sweep_Some in Hr as [Hr _].
  split; [done|]. apply touch_lookup.
Qed.
(** A live session is served, and used by that. *)
Lemma live_served s token now r : record_of s (derive_key s token) = Some r →
  duration_since now (sr_last_activity r) < ss_idle_timeout s → duration_since now (sr_created r) < ss_absolute_timeout s →
  let s' := touch (sweep s now) (derive_key s token) now r in
  authenticate s token now = (s', true) ∧
  csrf_credential s token now = (s', Some (hmac_sha256 (ss_hmac_key s) (CSRF_DOMAIN ++ token))) ∧
  same_settings s s' ∧ record_of s' (derive_key s token) = Some (used r now).
Proof.
  intros Hr Hi Ha. cbv zeta.
  assert (record_of (sweep s now) (derive_key s token) = Some r) as Hs by (apply sweep_Some; split; [done|by apply record_fresh_iff]).
  unfold authenticate, csrf_credential. rewrite Hs. split; [done|]. split; [done|]. split; [by repeat split|]. apply touch_lookup.
Qed.

(** What a login leaves behind, under the key of its session, since the session's issue. *)
Definition opened_history (issued : SessionStore) (key : list byte) (rd : LoginReadings) : list SessionEvent :=
  EUsed key (lr_csrf rd) :: (session_run issued (lr_between rd) [EIssued key (lr_issue rd)]).2.

Lemma open_session_in st secure rd st' cookie csrf : `{Base64Laws B} →
  grant_session st secure rd = (st', Ok (LoggedIn cookie csrf)) → ∃ text token,
    cookie = cookie_text text ++ str "; HttpOnly; SameSite=Strict; Path=/; Max-Age=28800" ++ (if secure then str "; Secure" else []) ∧
    parse_session_cookie (cookie_text text) = Some token ∧ blen (cookie_text text) ≤ 1024 ∧
    csrf = url_safe_encode (hmac_sha256 (ss_hmac_key (as_sessions st)) (CSRF_DOMAIN ++ token)) ∧
    same_settings (as_sessions st) (as_sessions st') ∧
    let issued := (session_issue (as_sessions st) (lr_issue rd) (lr_entropy rd)).1 in
    let key := derive_key (as_sessions st) token in
    sound_key (as_sessions st') (opened_history issued key rd) key ∧ is_Some (record_of (as_sessions st') key).
Proof.
  intros HB. unfold grant_session. destruct (session_issue _ _ _) as [s1 [text| |]] eqn:Hi; [|by intros [= _ [=]]..].
  apply issue_Ok in Hi as (token&r&->&Hset&Hr&Hc&Hl). set (text := url_safe_encode token) in *. cbn [fst]. cbv zeta.
  pose proof (run_settings (lr_between rd) s1) as Hset1.
  assert (∀ s, same_settings (as_sessions st) s → derive_key s token = derive_key (as_sessions st) token) as Hdk
    by (intros s (E&_); unfold derive_key; by rewrite E).
  assert (sound_key s1 [EIssued (derive_key (as_sessions st) token) (lr_issue rd)] (derive_key (as_sessions st) token)) as Hs1.
  { intros r'. change (table_of s1 !! ?k) with (record_of s1 k). rewrite Hr. intros [= <-]. simpl.
    rewrite bool_decide_eq_true_2 by done. by rewrite Hc, Hl. }
  apply (sound_run (lr_between rd)) in Hs1. set (s2 := after_calls s1 (lr_between rd)) in *.
  unfold csrf_for_cookie. cbn [mbind option_bind]. change (SESSION_COOKIE_NAME ++ str "=" ++ text) with (cookie_text text).
  destruct (parse_session_cookie (cookie_text text)) as [token'|] eqn:Hp; [|intros H; discriminate H].
  destruct (parse_cookie _ _ (url_safe_alphabet token) Hp) as [Hd Hlen].
  rewrite (url_safe_decode_encode token) in Hd. injection Hd as <-.
  destruct (csrf_credential s2 token (lr_csrf rd)) as [s3 [c|]] eqn:Hcsrf; [|intros H; discriminate H].
  assert (session_call s2 (CallCsrf token (lr_csrf rd)) = (s3, [EUsed (derive_key s2 token) (lr_csrf rd)])) as Hcall
    by (cbn [session_call]; by rewrite Hcsrf).
  apply csrf_Some in Hcsrf as (->&Hset2&r'&_&Hr2). cbn [fmap option_fmap option_map].
  rewrite Hdk in Hcall, Hr2 by (by etrans). pose proof (sound_call _ _ _ _ _ _ Hs1 Hcall) as Hs3.
  destruct (session_cookie text secure) as [ck| |] eqn:Hck; simpl; [|intros H; discriminate H..].
  destruct (header_value _) as [cs| |] eqn:Hcs; simpl; [|intros H; discriminate H..]. intros H. injection H as <- <- <-.
  unfold session_cookie, cookie_value, header_value in Hck, Hcs. destruct (header_from_str _) in Hck; [|discriminate Hck].
  destruct (header_from_str _) in Hcs; [|discriminate Hcs]. injection Hck as <-. injection Hcs as <-.
  exists text, token. split; [by destruct secure|]. split; [done|]. split; [done|].
  split; [by destruct Hset1 as (->&_), Hset as (->&_)|]. split; [do 2 (etrans; [done|]); done|].
  split; [exact Hs3|by eexists].
Qed.
End requests.

Section access.
Context {P : Primitives} {B : Base64} {U : UrlParser} {V : HeaderValues}.
Implicit Types s : SessionStore.

(** The request names this host, and its origin is this one. *)
Definition from_origin (h : RequestHeaders) (expected : WebOrigin) : Prop :=
  ∃ host origin, rh_host h = [Some host] ∧ matches_authority expected host = true ∧
    rh_origin h = [Some origin] ∧ origin_parse origin = Ok expected.
Lemma single_header_Some values max text : single_header values max = Some text ↔ values = [Some text] ∧ blen text ≤ max.
Proof.
  destruct values as [|[v|] [|]]; simpl; try (split; [done|by intros [[=] _]]). destruct (Z.leb_spec (blen v) max).
  - split; [by intros [= ->]|by intros [[= ->] _]].
  - split; [done|]. intros [[= ->] ?]. lia.
Qed.
Lemma same_origin_from h expected : same_origin (rh_host h) (rh_origin h) expected = true → from_origin h expected.
Proof.
  unfold same_origin. destruct (single_header (rh_host h) _) as [host|] eqn:Hh; [|done].
  apply single_header_Some in Hh as [Hh _]. intros [Hm Ho]%andb_true_iff.
  destruct (single_header (rh_origin h) _) as [origin|] eqn:Hor; [|done]. apply single_header_Some in Hor as [Hor _].
  destruct (origin_parse origin) as [o| |] eqn:Hp; try done. apply bool_decide_eq_true in Ho as ->. by exists host, origin.
Qed.

Lemma csrf_served s token now : is_Some (csrf_credential s token now).2 ↔ (authenticate s token now).2 = true.
Proof.
  unfold csrf_credential, authenticate. destruct (record_of _ _); simpl; split; try done; by intros [].
Qed.
(** The table after the request has been authenticated and others have been served. *)
Definition at_csrf s (token : list byte) (now : Z) (between : list SessionCall) : SessionStore :=
  after_calls s (CallAuthenticate token now :: between).
Lemma at_csrf_eq s token now between : at_csrf s token now between = after_calls (authenticate s token now).1 between.
Proof.
  unfold at_csrf, after_calls. cbn [session_run session_call]. destruct (authenticate s token now) as [s1 b].
  by rewrite run_events.
Qed.

Lemma protect_passed s expected h now between now' : (protect_write s expected h now between now').2 = Passed →
  ∃ header token supplied,
  rh_cookie h = [Some header] ∧ parse_session_cookie header = Some token ∧ (authenticate s token now).2 = true ∧
  (authenticate (at_csrf s token now between) token now').2 = true ∧
  same_origin (rh_host h) (rh_origin h) expected = true ∧ is_json_request (rh_content_type h) = true ∧
  rh_csrf h = [Some supplied] ∧ url_safe_decode supplied = Some (hmac_sha256 (ss_hmac_key s) (CSRF_DOMAIN ++ token)).
Proof.
  unfold protect_write, authenticate_cookie, validate_csrf, single_cookie_header. cbv zeta.
  destruct (single_header (rh_cookie h) 1024) as [header|] eqn:Hcookie; [|done]. apply single_header_Some in Hcookie as [Hcookie _].
  cbn [mbind option_bind]. destruct (parse_session_cookie header) as [token|] eqn:Hp; [|done].
  pose proof (at_csrf_eq s token now between) as Hat. pose proof (run_settings (CallAuthenticate token now :: between) s) as (Hkey&_).
  fold (at_csrf s token now between) in Hkey.
  destruct (authenticate s token now) as [s1 b] eqn:Ha. destruct b; [|done]. cbn [negb fst] in *.
  destruct (_ || _ || _) eqn:Hbad; [done|]. apply orb_false_iff in Hbad as [[Hone Ho]%orb_false_iff Hj]. apply negb_false_iff in Ho, Hj.
  destruct (rh_csrf h) as [|[supplied|] rest] eqn:Hcsrf; [done| |done].
  assert (rest = []) as -> by (destruct rest; [done|]; apply Z.ltb_ge in Hone; unfold blen in Hone; simpl in Hone; lia).
  rewrite <- Hat. destruct (csrf_credential (at_csrf s token now between) token now') as [s2 [c|]] eqn:Hc; [|by destruct (url_safe_decode supplied)].
  assert ((authenticate (at_csrf s token now between) token now').2 = true) as Hlive
    by (apply csrf_served; rewrite Hc; by eexists).
  apply csrf_Some in Hc as (->&_&_). rewrite Hkey.
  destruct (url_safe_decode supplied) as [bytes|] eqn:Hd; [|done]. simpl. destruct (_ =? _); [|done].
  destruct (bool_decide _) eqn:He; [|done]. apply bool_decide_eq_true in He as <-. intros _.
  exists header, token, supplied. by rewrite Ha.
Qed.
(** A request opens no session. *)
Lemma used_dom s token now : dom (table_of (authenticate s token now).1) ⊆ dom (table_of s) ∧
                             dom (table_of (csrf_credential s token now).1) ⊆ dom (table_of s).
Proof.
  assert (∀ r, record_of (sweep s now) (derive_key s token) = Some r →
    dom (table_of (touch (sweep s now) (derive_key s token) now r)) ⊆ dom (table_of s)) as Htouch.
  { intros r [Hr _]%sweep_Some. unfold touch, table_of. simpl. rewrite dom_insert.
    pose proof (subseteq_dom _ _ (sweep_subseteq s now)) as Hd. unfold table_of in Hd. simpl in Hd.
    unfold record_of in Hr. apply elem_of_dom_2 in Hr. set_solver. }
  pose proof (subseteq_dom _ _ (sweep_subseteq s now)). unfold authenticate, csrf_credential.
  destruct (record_of (sweep s now) (derive_key s token)) as [r|] eqn:Hr; simpl; by auto.
Qed.
Lemma protect_dom s expected h now between now' :
  dom (table_of (protect_write s expected h now between now').1)
  ⊆ dom (table_of s) ∪ list_to_set (derive_key s <$> draws between).
Proof.
  unfold protect_write, authenticate_cookie, validate_csrf. cbv zeta.
  destruct (single_cookie_header h ≫= parse_session_cookie) as [token|]; [|set_solver].
  destruct (used_dom s token now) as [H1 _].
  destruct (authenticate s token now) as [s1 b] eqn:Ha.
  pose proof (call_effect s (CallAuthenticate token now) s1 _ ltac:(cbn [session_call]; rewrite Ha; reflexivity)) as [(Hkey&_) _].
  destruct b; [|set_solver]. cbn [negb fst] in *.
  destruct (_ || _ || _); [set_solver|]. destruct (match rh_csrf h with [] => None | _ => _ end) as [supplied|]; [|set_solver].
  destruct (used_dom (after_calls s1 between) token now') as [_ H2]. pose proof (draws_dom between s1) as Hd.
  assert (derive_key s1 <$> draws between = derive_key s <$> draws between) as E
    by (apply list_fmap_ext; intros ? ? _; unfold derive_key; by rewrite Hkey).
  rewrite E in Hd. destruct (csrf_credential (after_calls s1 between) token now') as [s2 c]. simpl in *. set_solver.
Qed.

(** C39: A guarded write passes only for a session: its one cookie carries a token that was
    issued, not revoked since and within both time limits, whatever requests came before, and
    still so, with the requests served in between, when the credential is looked at; its one
    CSRF header carries the credential of that very token; its host and its origin are those of
    the dashboard, and its body is JSON.  A request whose cookie is for no such session is
    answered that authentication is required, and whatever the answer, a guarded request opens
    no session: all there are afterwards were there before or drawn by others in between. *)
Theorem write_needs_session s0 calls s events expected h now between now' : table_of s0 = ∅ → 0 < ss_capacity s0 →
  session_run s0 calls [] = (s, events) →
  ((protect_write s expected h now between now').2 = Passed → ∃ header token supplied,
     rh_cookie h = [Some header] ∧ parse_session_cookie header = Some token ∧
     live_in_history s0 events (derive_key s0 token) now ∧ rh_csrf h = [Some supplied] ∧
     url_safe_decode supplied = Some (hmac_sha256 (ss_hmac_key s0) (CSRF_DOMAIN ++ token)) ∧
     from_origin h expected ∧ is_json_request (rh_content_type h) = true ∧
     live_in_history s0 (session_run s (CallAuthenticate token now :: between) events).2 (derive_key s0 token) now') ∧
  ((∀ header token, rh_cookie h = [Some header] → parse_session_cookie header = Some token →
      ¬ live_in_history s0 events (derive_key s0 token) now) →
   (protect_write s expected h now between now').2 = AuthenticationRequired) ∧
  dom (table_of (protect_write s expected h now between now').1)
  ⊆ dom (table_of s) ∪ list_to_set (derive_key s0 <$> draws between).
Proof.
  intros He Hcap Hrun. destruct (run_accepts _ _ _ _ He Hcap Hrun) as [(Hkey&_) Hlive]. split; [|split].
  - intros (header&token&supplied&Hc&Hp&Ha&Ha'&Ho&Hj&Hcsrf&Hd)%protect_passed. exists header, token, supplied.
    rewrite Hkey in Hd. split_and!; try done; [by apply Hlive|by apply same_origin_from|].
    assert (session_run s0 (calls ++ CallAuthenticate token now :: between) []
            = (at_csrf s token now between, (session_run s (CallAuthenticate token now :: between) events).2)) as Hrun'.
    { by rewrite run_app, Hrun, run_events. }
    apply (proj2 (run_accepts _ _ _ _ He Hcap Hrun')). exact Ha'.
  - intros Hno. unfold protect_write, authenticate_cookie, single_cookie_header. cbv zeta.
    destruct (single_header (rh_cookie h) 1024) as [header|] eqn:Hcookie; [|done].
    apply single_header_Some in Hcookie as [Hcookie _]. cbn [mbind option_bind].
    destruct (parse_session_cookie header) as [token|] eqn:Hp; [|done].
    specialize (Hlive token now). destruct (authenticate s token now) as [s1 []]; [|done].
    by destruct (Hno header token Hcookie Hp (Hlive eq_refl)).
  - assert (derive_key s0 <$> draws between = derive_key s <$> draws between) as ->
      by (apply list_fmap_ext; intros ? ? _; unfold derive_key; by rewrite Hkey).
    apply protect_dom.
Qed.

Context {HB : Base64Laws B}.
Context (hmac_length : ∀ k m, blen (hmac_sha256 k m) = DIGEST_BYTES).

(** A guarded request that has everything, for a session that is there both times. *)
Lemma protect_passes s expected h now between now' text token csrf :
  parse_session_cookie (cookie_text text) = Some token → blen (cookie_text text) ≤ 1024 →
  rh_cookie h = [Some (cookie_text text)] → rh_csrf h = [Some csrf] →
  csrf = url_safe_encode (hmac_sha256 (ss_hmac_key s) (CSRF_DOMAIN ++ token)) →
  same_origin (rh_host h) (rh_origin h) expected = true → is_json_request (rh_content_type h) = true →
  (authenticate s token now).2 = true → (authenticate (at_csrf s token now between) token now').2 = true →
  protect_write s expected h now between now'
  = ((session_call (at_csrf s token now between) (CallCsrf token now')).1, Passed).
Proof.
  intros Hp Hlen Hcookie Hcsrf -> Ho Hj Ha Ha'.
  unfold protect_write, authenticate_cookie, validate_csrf, single_cookie_header. rewrite Hcookie. cbn [single_header mbind option_bind].
  rewrite (proj2 (Z.leb_le _ _) Hlen). cbv iota. cbn [mbind option_bind]. rewrite Hp.
  pose proof (at_csrf_eq s token now between) as Hat. pose proof (run_settings (CallAuthenticate token now :: between) s) as (Hkey&_).
  fold (at_csrf s token now between) in Hkey.
  destruct (authenticate s token now) as [s1 b]. simpl in Ha, Hat. subst b. cbn [negb]. rewrite Hcsrf, Ho, Hj. cbn [negb orb].
  match goal with |- context [1 <? blen ?l] => change (1 <? blen l) with false end. cbn [orb]. rewrite <- Hat.
  apply csrf_served in Ha'. cbn [session_call].
  destruct (csrf_credential (at_csrf s token now between) token now') as [s2 [c|]] eqn:Hc; [|by destruct Ha'].
  apply csrf_Some in Hc as (->&_&_). rewrite Hkey, url_safe_decode_encode. cbn [mbind option_bind fst].
  by rewrite hmac_length, Z.eqb_refl, bool_decide_eq_true_2.
Qed.

(** A session that a login has opened is there for both accesses of a later write. *)
Lemma login_keeps s0 token rd issued before now between now' :
  let key := derive_key s0 token in
  let s := after_calls s0 before in
  let events := (session_run s0 before (opened_history issued key rd)).2 in
  sound_key s0 (opened_history issued key rd) key → is_Some (record_of s0 key) →
  StronglySorted Z.le (lr_csrf rd :: map call_instant before ++ now :: map call_instant between ++ [now']) →
  spared s0 key (before ++ CallAuthenticate token now :: between) →
  live_in_history s0 events key now →
  live_in_history s0 (session_run s (CallAuthenticate token now :: between) events).2 key now' →
  (authenticate s token now).2 = true ∧ (authenticate (at_csrf s token now between) token now').2 = true.
Proof.
  intros key s events Hs [r Hr] Hsorted Hsp Hl1 Hl2.
  assert (kept_key s0 (opened_history issued key rd) (lr_csrf rd) key) as Hk.
  { intros x Hx. left. exists r. split; [done|]. rewrite (Hs r Hr) in Hx. by injection Hx as <-. }
  apply spared_app in Hsp as [Hsp1 Hsp2]. fold s in Hsp2.
  assert (StronglySorted Z.le (lr_csrf rd :: map call_instant before ++ [now]) ∧
          StronglySorted Z.le (now :: map call_instant (CallAuthenticate token now :: between) ++ [now'])) as [Hso1 Hso2].
  { split.
    - replace (lr_csrf rd :: map call_instant before ++ now :: map call_instant between ++ [now'])
        with ((lr_csrf rd :: map call_instant before ++ [now]) ++ map call_instant between ++ [now']) in Hsorted
        by (simpl; by rewrite <- app_assoc).
      by apply StronglySorted_app in Hsorted as (_&?&_).
    - change (lr_csrf rd :: map call_instant before ++ now :: map call_instant between ++ [now'])
        with ((lr_csrf rd :: map call_instant before) ++ now :: map call_instant between ++ [now']) in Hsorted.
      apply StronglySorted_app in Hsorted as (_&_&H). apply StronglySorted_inv in H as [H1 H2].
      simpl. by repeat constructor. }
  pose proof (run_settings before s0) as (Hkey&Hi&Ha&_). fold s in Hkey, Hi, Ha.
  assert (derive_key s token = key) as Hdk by (unfold derive_key; by rewrite Hkey).
  destruct (kept_key_run before key now s0 _ _ Hs Hk Hso1 Hsp1) as (last&Hle&Hk1). fold s events in Hk1.
  pose proof (sound_run before key s0 _ Hs) as Hs1. fold s events in Hs1.
  split; apply authenticate_iff.
  - rewrite Hdk. eapply kept_live; [exact Hk1|exact Hle|]. unfold live_in_history. by rewrite Hi, Ha.
  - destruct (kept_key_run (CallAuthenticate token now :: between) key now' s events now Hs1 (kept_later _ _ _ _ _ Hk1 Hle) Hso2 Hsp2)
      as (last'&Hle'&Hk2).
    pose proof (run_settings (CallAuthenticate token now :: between) s) as (Hkey2&Hi2&Ha2&_).
    fold (at_csrf s token now between) in Hkey2, Hi2, Ha2, Hk2.
    assert (derive_key (at_csrf s token now between) token = key) as -> by (unfold derive_key; by rewrite Hkey2).
    eapply kept_live; [exact Hk2|exact Hle'|]. unfold live_in_history. by rewrite Hi2, Ha2, Hi, Ha.
Qed.

(** C40: A login that succeeds had the configured credentials, came from the dashboard's origin
    and was admitted by the limiter; and it opens what it says.  Let anything be served after it,
    other logins, logouts and writes included, and a browser send its cookie back, with the CSRF
    credential the response carried: its write passes, as long as the session is live when the
    request is authenticated and when its credential is checked - not revoked, and within the
    time limits since its issue and its last use - and no login has taken its place, being the
    one used longest ago in a full table.  The write leaves the table as those two accesses
    leave it, so that it is one of the things served before the next one, and any number of
    writes pass. *)
Theorem login_grants_writes st expected secure peer h form rd st' cookie csrf :
  login st expected secure peer h (BodyRead form) rd = (st', Ok (LoggedIn cookie csrf)) →
  from_origin h expected ∧ (admit_login (as_limiter st) peer (lr_admit rd)).2 = true ∧
  CredentialDigests_new (lf_username form) (lf_password form) = as_credentials st ∧
  ∃ text token,
    cookie = cookie_text text ++ str "; HttpOnly; SameSite=Strict; Path=/; Max-Age=28800"
               ++ (if secure then str "; Secure" else []) ∧
    parse_session_cookie (cookie_text text) = Some token ∧
    let s0 := as_sessions st' in let key := derive_key s0 token in
    let issued := (session_issue (as_sessions st) (lr_issue rd) (lr_entropy rd)).1 in
    ∀ before h' now between now',
      let s := after_calls s0 before in
      let events := (session_run s0 before (opened_history issued key rd)).2 in
      let events' := (session_run s (CallAuthenticate token now :: between) events).2 in
      StronglySorted Z.le (lr_csrf rd :: map call_instant before ++ now :: map call_instant between ++ [now']) →
      spared s0 key (before ++ CallAuthenticate token now :: between) →
      live_in_history s0 events key now → live_in_history s0 events' key now' →
      rh_cookie h' = [Some (cookie_text text)] → rh_csrf h' = [Some csrf] →
      same_origin (rh_host h') (rh_origin h') expected = true → is_json_request (rh_content_type h') = true →
      protect_write s expected h' now between now'
      = ((session_call (after_calls s (CallAuthenticate token now :: between)) (CallCsrf token now')).1, Passed).
Proof.
  unfold login. destruct (negb (same_origin _ _ _) || _ || _) eqn:Hbad; [done|].
  apply orb_false_iff in Hbad as [[Ho%negb_false_iff _]%orb_false_iff _].
  destruct (admit_login (as_limiter st) peer (lr_admit rd)) as [limiter []]; [|done]. cbn [negb]. cbv zeta.
  destruct (negb (credentials_match _ _ _) || _) eqn:Hcred; [done|].
  apply orb_false_iff in Hcred as [[Hu%bool_decide_eq_true Hpw%bool_decide_eq_true]%negb_false_iff%andb_true_iff _].
  intros (text&token&->&Hp&Hlen&->&Hset&Hs&Hin)%open_session_in; [|done]. cbn [as_sessions with_limiter] in Hset, Hs, Hp, Hin.
  split; [by apply same_origin_from|]. split; [done|].
  split; [unfold CredentialDigests_new; simpl in Hu, Hpw; rewrite <- Hu, <- Hpw; by destruct (as_credentials st)|].
  exists text, token. split; [done|]. split; [done|]. intros before h' now between now' Hsorted Hsp Hl1 Hl2 Hcookie Hcsrf Ho' Hj.
  cbn [as_sessions with_limiter] in *. destruct Hset as (Hkey&_). set (s0 := as_sessions st') in *.
  assert (derive_key s0 token = derive_key (as_sessions st) token) as Hdk by (unfold derive_key; by rewrite Hkey).
  rewrite <- Hdk in Hs, Hin. rewrite <- Hkey in Hcsrf.
  destruct (login_keeps s0 token rd _ before now between now' Hs Hin Hsorted Hsp Hl1 Hl2) as [Ha Ha'].
  eapply protect_passes; try done. by rewrite (proj1 (run_settings before s0)).
Qed.
End access.

(** * Witnesses *)

(** base64 without padding, on the bits. *)
Definition alphabet : list byte := str "ABCDEFGHIJKLMNOPQRSTUVWXYZabcdefghijklmnopqrstuvwxyz0123456789-_".
Definition bit (b : bool) : nat := if b then 1 else 0.
Definition char_of (a b c d e f : bool) : byte :=
  nth (((((bit a * 2 + bit b) * 2 + bit c) * 2 + bit d) * 2 + bit e) * 2 + bit f)%nat alphabet x41.
Definition bits_of (c : byte) : option (list bool) :=
  (λ x, let n := Z.of_nat x.1 in [Z.testbit n 5; Z.testbit n 4; Z.testbit n 3; Z.testbit n 2; Z.testbit n 1; Z.testbit n 0])
  <$> list_find (λ x, x = c) alphabet.
Fixpoint sextets (l : list bool) : list byte :=
  match l with
  | a :: b :: c :: d :: e :: f :: l => char_of a b c d e f :: sextets l
  | [a; b; c; d; e] => [char_of a b c d e false]
  | [a; b; c; d] => [char_of a b c d false false]
  | [a; b; c] => [char_of a b c false false false]
  | [a; b] => [char_of a b false false false false]
  | [a] => [char_of a false false false false false]
  | [] => []
  end.
Fixpoint octets (l : list bool) : list byte :=
  match l with
  | a :: b :: c :: d :: e :: f :: g :: h :: l => Byte.of_bits (a, (b, (c, (d, (e, (f, (g, h))))))) :: octets l
  | _ => []
  end.
Definition byte_bits (x : byte) : list bool :=
  let '(a, (b, (c, (d, (e, (f, (g, h))))))) := Byte.to_bits x in [a; b; c; d; e; f; g; h].
Definition base64_encode (s : list byte) : list byte := sextets (flat_map byte_bits s).
Definition base64_decode (s : list byte) : option (list byte) :=
  (λ bits, octets (concat bits)) <$> mapM bits_of s.

Lemma bits_of_char a b c d e f : bits_of (char_of a b c d e f) = Some [a; b; c; d; e; f].
Proof. by destruct a, b, c, d, e, f. Qed.
Lemma char_of_safe a b c d e f : url_safe_char (char_of a b c d e f) = true.
Proof. by destruct a, b, c, d, e, f. Qed.
(** The bits of an encoding are the bits encoded and less than six zeros. *)
Lemma sextets_bits n l : (length l ≤ n)%nat →
  (∃ pad, (length pad < 6)%nat ∧ mapM bits_of (sextets l) ≫= (λ x, Some (concat x)) = Some (l ++ pad)) ∧
  Forall (λ c, url_safe_char c = true) (sextets l) ∧ (6 * length (sextets l) ≤ length l + 5)%nat.
Proof.
  revert l; induction n as [n IH] using lt_wf_ind. intros l Hn.
  destruct l as [|a [|b [|c [|d [|e [|f l]]]]]];
    try (split; [|split; [repeat constructor; apply char_of_safe|simpl; lia]]).
  - exists []. simpl. split; [lia|done].
  - exists [false; false; false; false; false]. simpl. rewrite !bits_of_char. simpl. split; [lia|done].
  - exists [false; false; false; false]. simpl. rewrite !bits_of_char. simpl. split; [lia|done].
  - exists [false; false; false]. simpl. rewrite !bits_of_char. simpl. split; [lia|done].
  - exists [false; false]. simpl. rewrite !bits_of_char. simpl. split; [lia|done].
  - exists [false]. simpl. rewrite !bits_of_char. simpl. split; [lia|done].
  - simpl in Hn. destruct (IH (length l) ltac:(lia) l ltac:(lia)) as ((pad&Hpad&Hbits)&Hsafe&Hlen).
    split; [|split; [constructor; [apply char_of_safe|done]|simpl; lia]]. exists pad. split; [done|]. simpl.
    rewrite bits_of_char. simpl. destruct (mapM bits_of (sextets l)) as [x|]; [|done]. simpl in *. by injection Hbits as ->.
Qed.
Lemma octets_bytes s pad : (length pad < 8)%nat → octets (flat_map byte_bits s ++ pad) = s.
Proof.
  intros Hpad. induction s as [|x s IH]; simpl.
  - destruct pad as [|? [|? [|? [|? [|? [|? [|? [|? ?]]]]]]]]; simpl in *; try done; lia.
  - unfold byte_bits at 1. pose proof (Byte.of_bits_to_bits x) as Hx. destruct (Byte.to_bits x) as (a&b&c&d&e&f&g&h).
    change (Byte.of_bits (a, (b, (c, (d, (e, (f, (g, h))))))) :: octets (flat_map byte_bits s ++ pad) = x :: s).
    by rewrite Hx, IH.
Qed.
Lemma base64_decode_encode s : base64_decode (base64_encode s) = Some s.
Proof.
  unfold base64_decode, base64_encode. destruct (sextets_bits _ (flat_map byte_bits s) ltac:(reflexivity)) as [(pad&Hpad&Hbits) _].
  destruct (mapM bits_of _) as [x|]; [|done]. simpl in *. injection Hbits as ->. f_equal. apply octets_bytes. lia.
Qed.
#[local] Instance web_base64 : Base64 := {
  standard_encode := base64_encode;
  standard_decode := base64_decode;
  url_safe_encode := base64_encode;
  url_safe_decode := base64_decode;
}.
#[local] Instance web_base64_laws : Base64Laws web_base64.
Proof.
  split; simpl; intros s; try apply base64_decode_encode; unfold base64_encode;
    destruct (sextets_bits _ (flat_map byte_bits s) ltac:(reflexivity)) as (_&Hsafe&Hlen); [done|].
  assert (length (flat_map byte_bits s) = 8 * length s)%nat as Hbits.
  { clear. induction s as [|x s IH]; [done|]. simpl. rewrite length_app, IH. unfold byte_bits.
    destruct (Byte.to_bits x) as (?&?&?&?&?&?&?&?). simpl. lia. }
  unfold blen. lia.
Qed.
#[local] Instance web_urls : UrlParser := {
  url_parse _ := Some {| url_scheme := str "https"; url_username := []; url_password := None; url_query := None;
    url_fragment := None; url_path := str "/"; url_host := Some (Domain (str "vps.example"));
    url_port_or_known_default := Some 443 |};
}.
#[local] Instance web_headers : HeaderValues := { header_from_str := forallb visible_ascii }.

Definition web_origin : WebOrigin :=
  {| wo_scheme := str "https"; wo_host := str "vps.example"; wo_ipv6 := false; wo_port := 443 |}.
Definition web_store : SessionStore :=
  match SessionStore_new WebRuntimeLimits_default (Some (replicate 32 x0b)) with
  | Ok s => s
  | _ => {| ss_hmac_key := []; ss_table := SessionTable_default; ss_idle_timeout := 0; ss_absolute_timeout := 0; ss_capacity := 0 |}
  end.
Definition token_a : list byte := replicate 32 x01.
Definition token_b : list byte := replicate 32 x02.
(** Two sessions; the second is revoked, the first is used. *)
Definition web_calls : list SessionCall :=
  [CallDraw 0 token_a; CallDraw 1 token_b; CallRevoke token_b (5 * SECOND); CallAuthenticate token_a (10 * SECOND)].
Definition web_run := session_run web_store web_calls [].

Lemma sessions_exact_witness :
  (authenticate web_run.1 token_a (60 * SECOND)).2 = true ∧ (authenticate web_run.1 token_b (60 * SECOND)).2 = false.
Proof.
  split; [|vm_compute; reflexivity].
  destruct (sessions_exact web_store web_calls web_run.1 web_run.2 eq_refl eq_refl (surjective_pairing _)) as (_&_&H).
  apply H.
  - cbn [web_calls map call_instant app]. repeat (apply SSorted_cons; [|repeat (apply List.Forall_cons; [vm_compute; discriminate|]); apply List.Forall_nil]).
    apply SSorted_nil.
  - vm_compute. discriminate.
  - exists 0, (10 * SECOND). vm_compute. split; [reflexivity|]. split; reflexivity.
Defined.

(** Eight attempts of one address are admitted, the ninth is not, even in its IPv6 form. *)
Definition web_peer : IpAddr := IpV4 [x0a; x00; x00; x01].
Definition web_peer_v6 : IpAddr := IpV6 (replicate 10 x00 ++ [xff; xff; x0a; x00; x00; x01]).
Definition web_attempts : list (IpAddr * Z) := map (λ i, (web_peer, Z.of_nat i * SECOND)) (seq 0 8).
Definition web_limited := login_run (LoginRateLimiter_new WebRuntimeLimits_default) web_attempts [].
Lemma login_attempts_bounded_witness :
  length web_limited.2 = 8%nat ∧ (admit_login web_limited.1 web_peer_v6 (20 * SECOND)).2 = false ∧
  blen (in_window 0 (60 * SECOND) web_limited.2) ≤ 64.
Proof.
  split; [vm_compute; reflexivity|].
  destruct (login_attempts_bounded WebRuntimeLimits_default 0 web_attempts web_peer_v6 (20 * SECOND) web_limited.1 web_limited.2
    ltac:(vm_compute; reflexivity) ltac:(split; vm_compute; discriminate) (surjective_pairing _)) as (Hbound&_&H).
  - cbn [web_attempts seq map app snd]. repeat (apply SSorted_cons; [|repeat (apply List.Forall_cons; [vm_compute; discriminate|]); apply List.Forall_nil]).
    apply SSorted_nil.
  - split; [|exact (proj1 (Hbound 0))]. destruct (admit_login _ _ _).2 eqn:Hb; [|reflexivity]. exfalso.
    destruct (proj1 H eq_refl) as (_&Hp&_). revert Hp. vm_compute. discriminate.
Defined.

(** A browser signs in, while another does, and writes. *)
Definition web_state : AuthenticationState :=
  {| as_credentials := CredentialDigests_new (str "admin") (str "secret"); as_sessions := web_store;
     as_limiter := LoginRateLimiter_new WebRuntimeLimits_default |}.
Definition web_request (cookie csrf : list (option (list byte))) (content_type : list byte) : RequestHeaders :=
  {| rh_cookie := cookie; rh_csrf := csrf; rh_host := [Some (str "vps.example")];
     rh_origin := [Some (str "https://vps.example")]; rh_content_type := [Some content_type]; rh_content_length := [] |}.
Definition web_login :=
  login web_state web_origin true web_peer (web_request [] [] (str "application/x-www-form-urlencoded"))
    (BodyRead {| lf_username := str "admin"; lf_password := str "secret" |})
    {| lr_admit := 0; lr_issue := 0; lr_entropy _ := Some token_a; lr_between := [CallDraw 0 token_b]; lr_csrf := 0 |}.
Definition web_csrf (token : list byte) : list byte :=
  base64_encode (hmac_sha256 (ss_hmac_key web_store) (CSRF_DOMAIN ++ token)).
Definition web_write (token : list byte) : RequestHeaders :=
  web_request [Some (str "theme=dark; " ++ cookie_text (base64_encode token_a))] [Some (web_csrf token)] (str "application/json; charset=utf-8").

Lemma toy_hmac_length (k m : list byte) : blen (hmac_sha256 k m) = DIGEST_BYTES.
Proof. exact (f_equal Z.of_nat (length_be_bytes 32 (be_value (k ++ m)))). Qed.
(** An earlier write of the browser, the logout of the other, and a login during its next write. *)
Definition web_before : list SessionCall :=
  [CallAuthenticate token_a (10 * SECOND); CallCsrf token_a (11 * SECOND); CallRevoke token_b (20 * SECOND)].
Definition web_between : list SessionCall := [CallDraw (60 * SECOND) token_b].
Lemma web_cookie_parses : parse_session_cookie (cookie_text (base64_encode token_a)) = Some token_a.
Proof. vm_compute. reflexivity. Qed.
Lemma web_login_cookie : web_login.2 = Ok (LoggedIn
  (cookie_text (base64_encode token_a) ++ str "; HttpOnly; SameSite=Strict; Path=/; Max-Age=28800" ++ str "; Secure")
  (web_csrf token_a)).
Proof. vm_compute. reflexivity. Qed.
Lemma login_grants_writes_witness : ∃ text csrf,
  (protect_write (after_calls (as_sessions web_login.1) web_before) web_origin
     (web_request [Some (cookie_text text)] [Some csrf] (str "application/json"))
     (60 * SECOND) web_between (61 * SECOND)).2 = Passed.
Proof.
  assert (match web_login.2 with Ok (LoggedIn _ _) => true | _ => false end = true) as Hin by (vm_compute; reflexivity).
  destruct web_login.2 as [[| | | |cookie csrf|]| |] eqn:Hr; try discriminate Hin.
  destruct (login_grants_writes toy_hmac_length web_state web_origin true web_peer _ _ _ web_login.1 cookie csrf
    (eq_trans (surjective_pairing web_login) (f_equal (pair _) Hr))) as (_&_&_&text&token&Hc&Hp&H).
  assert (token = token_a) as ->.
  { rewrite web_login_cookie in Hr.
    apply (f_equal (λ r, match r with Ok (LoggedIn c _) => c | _ => [] end)) in Hr. cbv beta iota in Hr. rewrite <- Hr in Hc.
    apply app_inv_tail, app_inv_head, app_inv_head in Hc as <-. rewrite web_cookie_parses in Hp.
    refine (eq_sym _). exact (f_equal (default []) Hp). }
  exists text, csrf. rewrite H.
  - reflexivity.
  - cbn [web_before web_between map call_instant app lr_csrf].
    repeat (apply SSorted_cons; [|repeat (apply List.Forall_cons; [vm_compute; discriminate|]); apply List.Forall_nil]).
    apply SSorted_nil.
  - vm_compute. repeat split; try discriminate.
  - exists 0, (11 * SECOND). vm_compute. split; [reflexivity|]. split; reflexivity.
  - exists 0, (60 * SECOND). vm_compute. split; [reflexivity|]. split; reflexivity.
  - reflexivity.
  - reflexivity.
  - vm_compute. reflexivity.
  - vm_compute. reflexivity.
Defined.

Lemma write_needs_session_witness :
  (protect_write web_run.1 web_origin (web_write token_b) (60 * SECOND) [] (60 * SECOND)).2 = CsrfRejected ∧
  ∃ header token supplied, parse_session_cookie header = Some token ∧
    live_in_history web_store web_run.2 (derive_key web_store token) (60 * SECOND) ∧
    url_safe_decode supplied = Some (hmac_sha256 (ss_hmac_key web_store) (CSRF_DOMAIN ++ token)).
Proof.
  split; [vm_compute; reflexivity|].
  destruct (write_needs_session web_store web_calls web_run.1 web_run.2 web_origin (web_write token_a) (60 * SECOND) [] (60 * SECOND)
    eq_refl eq_refl (surjective_pairing _)) as [H _].
  destruct (H ltac:(vm_compute; reflexivity)) as (header&token&supplied&_&Hp&Hlive&_&Hd&_).
  exists header, token, supplied. split; [exact Hp|]. split; [exact Hlive|exact Hd].
Defined.
